(* ===== verification/_CoqProject ===== *)
-Q . S2P
Prelude.v
Ast.v
Visit.v
Graph.v
RegionMaps.v
RegionResolve.v
RegionEffects.v
RegionTree.v
Nesting.v
Ty.v
ConstEval.v
PatUtil.v
CheckMatch.v
MatchSound.v
MatchTotal.v
MatchChecks.v
MatchExamples.v
DataFlow.v
FlowCmd.v
DataFlowBits.v
FlowPaths.v
DataFlowSound.v
DataFlowCorrect.v
FlowRegions.v
RegionBindings.v
RegionSolver.v
Unify.v
InferCtxt.v
Iter.v
IterOk.v
IterLaws.v
IterOrd.v
IterRange.v
TreeMap.v
TreeMapSound.v
TreeIter.v
TreeWalk.v
TreeSet.v
TreeSetSound.v
Threads.v
Tasks.v
Oneshot.v
OneshotInv.v
OneshotSend.v
OneshotRecv.v
OneshotSound.v
StrConv.v
BigUint.v
BigUintSound.v
BigUintDiv.v
BigUintText.v
BigInt.v
BigIntSound.v
Integer.v
IntegerSound.v
Rational.v
RationalSound.v
Sort.v
SortSound.v
PriorityQueue.v
PriorityQueueSound.v
Circle.v
RingBuf.v
PowerOfTwo.v
RingBufSound.v
HashMap.v
HashMapSound.v
HashMapCorrect.v
HashSetSound.v
Trie.v
TrieSound.v
