(* ===== verification/Prelude.v ===== *)
(** Verification of parts of the Rust 0.10 compiler and standard library.

    Paths are those of the repository, below its [src/] directory.

    * The parts and how they meet

    Static analyses of the compiler, [librustc/middle]:
    - region resolution ([region.rs]) walks a function and builds the region
      maps, the tree of scopes that region inference
      ([typeck/infer/region_inference]) and the data flow framework
      ([dataflow.rs], for the borrow checker) consult;
    - region inference keeps its constraints in a graph ([graph.rs]); it is one
      of the tables of the inference context ([typeck/infer/mod.rs]) beside
      those of [typeck/infer/unify.rs], under common snapshots;
    - match checking ([check_match.rs]) evaluates constants ([const_eval.rs]) and
      asks [pat_util.rs] which identifiers bind.
    All of them look at the syntax of [libsyntax/ast.rs] through the visitor of
    [libsyntax/visit.rs].  The standard library: the iterators of
    [libstd/iter.rs]; the ordered map and set of [libcollections/treemap.rs],
    whose iterators are iterators in that sense, as are those of the ring buffer
    of [libcollections/ringbuf.rs]; sorting and searching of vectors
    ([libstd/slice.rs]), the priority queue, the hash map and set of
    [libcollections/hashmap.rs] and the trie of [libcollections/trie.rs]; and
    the oneshot channels of [libstd/comm], which block tasks by way of the two runtimes [libnative] and
    [libgreen].  The numbers of [libnum]: big integers are vectors of 32-bit
    digits, their text is made of that of machine integers
    ([libstd/num/strconv.rs]), and rational numbers work over any type that
    implements the trait [Integer], big integers among them.

    * Which file models what

    - [Prelude]: outcomes ([Ok] or the way a function fails), machine integers,
      vectors indexed as Rust does, lemmas shared by the components.
    - [Ast], [Visit]: syntax trees and the visitor.  [Ty]: semantic types and
      the tables of the type context.
    - [Graph]: [middle/graph.rs], nodes and edges on threaded lists.
    - [RegionMaps]: the scopes, free regions and the subregion test.
      [RegionResolve]: the visitor that fills them, with [RegionEffects] (what
      it records, as a list), [RegionTree] (the tree it builds) and [Nesting]
      (the nesting of the syntax, said without the visitor).
    - [RegionBindings]: the state of region inference with its snapshots;
      [RegionSolver]: lattice operations, expansion, contraction, errors.
    - [Unify]: union-find over type variables; [InferCtxt]: the context with
      [try], [probe] and [commit].
    - [ConstEval], [PatUtil], [CheckMatch]: constants, patterns, match checking;
      [MatchSound], [MatchTotal], [MatchChecks], [MatchExamples] their meaning.
    - [DataFlow]: bit sets and propagation; [FlowCmd], [FlowPaths]: the control
      flow of a body and its paths; [DataFlowBits], [DataFlowSound],
      [DataFlowCorrect]: correctness; [FlowRegions]: on a body that region
      resolution has walked.
    - [Iter], [IterRange]: the traits, adaptors, consumers and ranges; [IterOk],
      [IterLaws], [IterOrd]: their contracts and laws.
    - [TreeMap], [TreeIter], [TreeSet]: the AA tree, its walks and the sets;
      [TreeMapSound], [TreeWalk], [TreeSetSound]: correctness.
    - [Threads]: two threads over shared memory and the proof method for them;
      [Tasks]: blocked tasks and [deschedule]; [Oneshot]: the channel;
      [OneshotInv], [OneshotSend], [OneshotRecv], [OneshotSound]: the invariant,
      the two halves, and what they promise together.
    - [StrConv]: unsigned integers as text; [BigUint], [BigInt]: big integers;
      [BigUintSound], [BigUintDiv], [BigUintText], [BigIntSound]: correctness of
      arithmetic, division and text.
    - [Integer]: the trait as a class, its laws as another, and machine integers
      as an instance ([IntegerSound]); [Rational]: rational numbers over the
      class; [RationalSound]: their correctness from the laws, which big
      integers satisfy as well.
    - [Sort], [PriorityQueue], [RingBuf]: the sorts, with the raw memory they
      move values through, binary search and removal of repetitions; the heap;
      the circular buffer, with the capacity of its vector; [SortSound],
      [PriorityQueueSound], [RingBufSound]: correctness; [PowerOfTwo]: the
      rounding of capacities.
    - [HashMap]: the raw table, the map with Robin Hood probing and the set;
      [HashMapSound]: the order of its buckets, inserting, shifting back,
      moving to another table; [HashMapCorrect], [HashSetSound]: maps and sets.
      [Circle]: positions on a circle, which ring and table share.
    - [Trie]: the radix trie, its iterators with the stack they write through
      raw pointers, and its sets; [TrieSound]: correctness.

    A struct of the source is a record and an enum an inductive type with the
    names of the source where they are free.  A method that mutates its receiver
    takes it and returns the new one.  A function that can fail returns an
    [outcome].  A closure is a function; where the source passes a callback that
    stops an iteration the model threads its state.  Hash maps are [gmap]s, or
    association lists in any order where the order of iteration shows.  A thread
    of a channel is a program over single memory accesses, and the two threads
    interleave at every access; atomics are sequentially consistent, as the
    source asks of all of them but the reference count.

    * What the theorems show

    - Regions: resolving a function gives every node the node it is directly
      inside of as its parent, and every binding the block or match around it;
      nearest common ancestors and the subregion test decide what they say; when
      inference reports no error its solution satisfies every constraint,
      whatever the order of iteration, but for those between variables whose
      upper one has no concrete bound, which it ignores; it always returns, or
      stops with the compiler bug for a conflict it cannot explain; rolling back
      a snapshot restores the state.
    - Unification: the classes merge exactly as asked; path compression changes
      nothing that can be seen; [probe] leaves no trace.
    - Matches, on typed patterns that the checks support (vector patterns at
      types of fixed length, constants that evaluate to the kind of their type,
      ranges that are not empty): a row that is not useful matches nothing new,
      the check ends, specializing keeps rows typed and drops a row for a reason,
      and so the diagnostics on exhaustiveness, unreachable arms and refutable
      patterns are right.
    - Data flow: [propagate] returns, and what it leaves accounts for every path,
      for the bits that the guards of matches can be passed without losing.
    - Constants stay in the range of their types.
    - Iterators: each adaptor computes the list function it is named after, from
      either end, with size hints that bound the rest.
    - Trees: any sequence of map operations answers as on a sorted association
      list and keeps the balance; walks and set operations give the right
      elements in order.
    - Oneshot channels, for every interleaving: no failure, no race, no use
      after free, no lost wakeup, every value delivered or destroyed once; on the
      native runtime for clients none of whose selections is cancelled because
      another port is ready, since such a selection makes a later receive fail.
    - Numbers: the operations of big integers are those of the natural numbers
      and the integers, for Karatsuba multiplication and division by estimates
      as well, whose loops end; texts read back; floored division on machine
      integers is exact where it is defined, and Euclid's algorithm unless the
      smallest integer interferes; rational numbers in lowest terms stay so and
      compute as rationals while there is room for cross products.
    - Vectors and queues: [sort_by] is the stable sort and touches only memory
      that is there; searching and removing repetitions in a sorted vector are
      right; any sequence of operations on a priority queue answers as on a
      multiset, on a ring buffer made by [new], through its growth and at indices
      that exist, as on a list, and on a hash map, whatever the hash function, as
      on a finite map.
    - Tries answer as finite maps too; their iterators stay inside their stack,
      and start where a bound says.
    - Some theorems say where the code does not do what it means to, for all
      inputs of a kind: constraints on a variable without a value
      ([resolve_regions_ignores_empty_sup]), selections cancelled on the native
      runtime ([native_select_race]), rings whose number of cells is no power of
      two ([ringbuf_grow_loses]), the size hint of a hash map
      ([entries_hint_wrong]) and capacities above 2^63
      ([huge_capacity_undefined]); others give examples.  The claims above have
      the hypotheses that exclude them.

    * Bounds and fuel

    Integers of the source have the width of their type, 64 bits for [uint] and
    [int], with the wrap-around written out.  A loop that is not structural takes
    fuel, running out of it is an outcome of its own, and a theorem gives the
    fuel that is enough: the number of scopes for walks up the scope tree, of
    variables for a path to a root, of edges for an adjacency list, one pass
    more than there are bits for [propagate], the height of a tree for its
    operations, the elements still to come for an iterator, the weight of the
    patterns for the usefulness check, the longer operand for the depth of a
    multiplication, eight steps to lower an estimate and three rounds for each
    digit of a dividend, the elements for a pass of a sort or of a heap, the buckets of
    a table for its loops, the sixteen levels of a trie, the children that an
    iterator over it has yet to see, two steps for each bit in Euclid's algorithm, the length
    of a text for reading it.  Thread programs need none: their runs are
    shown to be finite.

    * Not modelled

    - The front end ([libsyntax/parse], [ext], [print], [librustc/front]), name
      resolution and the rest of type checking: they build the trees and tables
      that are inputs here.
    - The rest of [librustc/middle] (borrow checker proper, liveness, moves,
      lints, privacy and the like) and everything from translation on
      ([trans], [back], [metadata], [lib/llvm.rs]), whose meaning is that of LLVM.
    - Of the standard library: input and output, formatting, paths, strings and
      the rest of vectors, which are primitive here; the other collections;
      stream, shared and synchronous channels, whose queues and counters need a
      model of their own; schedulers, the event loop and the C runtime.
    - Spans, [debug!] output and the texts of diagnostics: a diagnostic is its
      kind and the node it is about.
    - Destructors of the keys and values of a table, and the functions that
      hash a key, which are parameters.
    - Random big integers, complex numbers and floats.
    - Weak memory orders, and allocation failure. *)

From stdpp Require Import prelude gmap sets list relations.

(** * Outcomes

    A Rust function either returns, or the task fails ([fail!], a failed
    [assert!], an index out of range, [unwrap] of [None]), or the compiler
    stops ([sess.bug], [span_fatal]), or the machine operation it performs has
    no defined result.  [Diverged] is a constant nested deeper than its
    evaluation goes; a loop that is given too little fuel is a separate
    outcome, so that no theorem confuses it with a result. *)
Inductive failure :=
  | IndexOutOfBounds
  | AssertFailed
  | UnwrapNone
  | ExplicitFail
  | CompilerBug
  | FatalError
  | Undefined
  | Diverged
  | OutOfFuel.

Inductive outcome (A : Type) :=
  | Ok (a : A)
  | Fail (why : failure).
Arguments Ok {A} _.
Arguments Fail {A} _.

#[export] Instance failure_eq_dec : EqDecision failure.
Proof. solve_decision. Defined.
#[export] Instance outcome_eq_dec {A} `{EqDecision A} : EqDecision (outcome A).
Proof. solve_decision. Defined.

#[export] Instance outcome_ret : MRet outcome := @Ok.
#[export] Instance outcome_bind : MBind outcome := λ A B f c,
  match c with Ok a => f a | Fail w => Fail w end.
#[export] Instance outcome_fmap : FMap outcome := λ A B f c,
  match c with Ok a => Ok (f a) | Fail w => Fail w end.

(** Checked indexing, [v\[i\]] and [v.get(i)] on a [Vec]. *)
Definition vec_get {A} (l : list A) (i : nat) : outcome A :=
  match l !! i with Some a => Ok a | None => Fail IndexOutOfBounds end.

(** Assignment through [get_mut(i)] / [v\[i\] = x]. *)
Definition vec_set {A} (l : list A) (i : nat) (a : A) : outcome (list A) :=
  match l !! i with Some _ => Ok (<[i := a]> l) | None => Fail IndexOutOfBounds end.

Definition assert_ (b : bool) : outcome unit :=
  if b then Ok tt else Fail AssertFailed.

Definition unwrap {A} (o : option A) : outcome A :=
  match o with Some a => Ok a | None => Fail UnwrapNone end.

(** [uint] is the target's word; the model fixes the 64-bit targets. *)
Definition UINT_BITS : N := 64.
Definition UINT_MAX : N := 18446744073709551615.

(** [Option::is_some] *)
Definition is_some {A} (o : option A) : bool := match o with Some _ => true | None => false end.

Lemma bind_Ok {A B} (c : outcome A) (f : A → outcome B) b :
  c ≫= f = Ok b ↔ ∃ a, c = Ok a ∧ f a = Ok b.
Proof. destruct c; simpl; naive_solver. Qed.

Lemma fmap_Ok {A B} (c : outcome A) (f : A → B) b :
  f <$> c = Ok b ↔ ∃ a, c = Ok a ∧ f a = b.
Proof. destruct c; simpl; naive_solver. Qed.

Lemma vec_get_Ok {A} (l : list A) i a : vec_get l i = Ok a ↔ l !! i = Some a.
Proof. unfold vec_get. destruct (l !! i); naive_solver. Qed.

Lemma vec_get_Some {A} (l : list A) i a : l !! i = Some a → vec_get l i = Ok a.
Proof. by rewrite vec_get_Ok. Qed.

Lemma vec_set_Ok {A} (l : list A) i a l' :
  vec_set l i a = Ok l' ↔ i < length l ∧ l' = <[i := a]> l.
Proof.
  unfold vec_set. destruct (l !! i) eqn:E.
  - apply lookup_lt_Some in E. naive_solver.
  - apply lookup_ge_None in E. split; [done|]. intros [? _]. lia.
Qed.

Lemma vec_set_in {A} (l : list A) i a :
  i < length l → vec_set l i a = Ok (<[i := a]> l).
Proof. intros. by apply vec_set_Ok. Qed.

Lemma assert_Ok b u : assert_ b = Ok u ↔ b = true.
Proof. destruct b, u; naive_solver. Qed.

(** [inv_ok H] takes apart a computation that is known to have returned. *)
Ltac inv_ok H :=
  lazymatch type of H with
  | mbind _ _ = Ok _ =>
      let a := fresh "a" in let H1 := fresh H "a" in
      apply bind_Ok in H as (a & H1 & H); inv_ok H1; inv_ok H
  | fmap _ _ = Ok _ =>
      let a := fresh "a" in let H1 := fresh H "a" in
      apply fmap_Ok in H as (a & H1 & H); inv_ok H1
  | vec_get _ _ = Ok _ => apply vec_get_Ok in H
  | vec_set _ _ _ = Ok _ => apply vec_set_Ok in H as [? H]
  | assert_ _ = Ok _ => apply assert_Ok in H
  | Ok _ = Ok _ => injection H as H
  | mret _ = Ok _ => injection H as H
  | Fail _ = Ok _ => discriminate H
  | _ => idtac
  end.

(** [simpl_ok] performs the pending binds of a computation and nothing else. *)
Ltac simpl_ok := cbn [mbind outcome_bind mret outcome_ret fmap outcome_fmap fst snd].

(** * Effects

    A computation that threads a state of type [S] and may fail. *)
Definition M (S A : Type) : Type := S → outcome (A * S).

#[export] Instance M_ret S : MRet (M S) := λ A a s, Ok (a, s).
#[export] Instance M_bind S : MBind (M S) := λ A B f c s,
  match c s with Ok (a, s') => f a s' | Fail w => Fail w end.
#[export] Instance M_fmap S : FMap (M S) := λ A B f c s,
  match c s with Ok (a, s') => Ok (f a, s') | Fail w => Fail w end.

Definition lift {S A} (c : outcome A) : M S A := λ s,
  match c with Ok a => Ok (a, s) | Fail w => Fail w end.

Lemma M_bind_Ok {S A B} (c : M S A) (f : A → M S B) s r :
  (c ≫= f) s = Ok r ↔ ∃ a s', c s = Ok (a, s') ∧ f a s' = Ok r.
Proof. unfold mbind, M_bind. destruct (c s) as [[a s']|]; naive_solver. Qed.

Lemma M_bind_step {S A B} (c : M S A) (f : A → M S B) s a s' :
  c s = Ok (a, s') → (c ≫= f) s = f a s'.
Proof. unfold mbind, M_bind. by intros ->. Qed.

Lemma M_bind_ext {S A B} (c c' : M S A) (f f' : A → M S B) s :
  (∀ s, c s = c' s) → (∀ a s, f a s = f' a s) → (c ≫= f) s = (c' ≫= f') s.
Proof. unfold mbind, M_bind. intros Hc Hf. rewrite Hc. destruct (c' s) as [[a s']|]; auto. Qed.

Lemma M_bind_assoc {S A B C} (c : M S A) (f : A → M S B) (g : B → M S C) s :
  ((c ≫= f) ≫= g) s = (c ≫= (λ a, f a ≫= g)) s.
Proof. unfold mbind, M_bind. by destruct (c s) as [[a s']|]. Qed.

Lemma M_ret_bind {S A B} (a : A) (f : A → M S B) s : (mret a ≫= f) s = f a s.
Proof. done. Qed.

Lemma lift_bind {S A B} (a : A) (f : A → M S B) s : (lift (Ok a) ≫= f) s = f a s.
Proof. done. Qed.

Lemma lift_Ok {S A} (c : outcome A) (s : S) a s' :
  lift c s = Ok (a, s') ↔ c = Ok a ∧ s' = s.
Proof. unfold lift. destruct c; naive_solver. Qed.

Lemma mret_Ok {S A} (a b : A) (s s' : S) : mret (M := M S) a s = Ok (b, s') ↔ b = a ∧ s' = s.
Proof. unfold mret, M_ret. naive_solver. Qed.

(** [inv_M H] takes apart an effectful computation that is known to have
    returned. *)
Ltac inv_M H :=
  lazymatch type of H with
  | mbind _ _ _ = Ok _ =>
      let a := fresh "a" in let s := fresh "s" in let H1 := fresh H "a" in
      apply M_bind_Ok in H as (a & s & H1 & H); inv_M H1; inv_M H
  | lift _ _ = Ok _ => apply lift_Ok in H as [H ->]; inv_ok H
  | mret _ _ = Ok _ => apply mret_Ok in H as [H ->]
  | _ => idtac
  end.

(** [run_lift H] performs the first step of a computation when it is a pure one
    that succeeds. *)
Ltac run_lift H := apply M_bind_Ok in H as (? & ? & [[= <-] ->]%lift_Ok & H).

(** [filter_map] with a function that has effects. *)
Fixpoint filter_mapM {S A B} (f : A → M S (option B)) (l : list A) : M S (list B) :=
  match l with
  | [] => mret []
  | x :: l' =>
      o ← f x;
      r ← filter_mapM f l';
      mret match o with Some y => y :: r | None => r end
  end.

Lemma filter_mapM_elem {S A B} (f : A → M S (option B)) l s r s' y :
  filter_mapM f l s = Ok (r, s') → y ∈ r → ∃ x s1 s2, x ∈ l ∧ f x s1 = Ok (Some y, s2).
Proof.
  revert s r. induction l as [|x l IH]; intros s r Hr Hy; cbn [filter_mapM] in Hr; inv_M Hr.
  - subst r. by apply elem_of_nil in Hy.
  - destruct a as [z|]; subst r.
    + apply elem_of_cons in Hy as [->|Hy]; [exists x; set_solver|].
      destruct (IH _ _ Hra0 Hy) as (x' & s1' & s2 & ? & ?). exists x'; set_solver.
    + destruct (IH _ _ Hra0 Hy) as (x' & s1' & s2 & ? & ?). exists x'; set_solver.
Qed.

(** * Iteration

    [advance] is [Iterator::advance]: run the closure until it returns
    [false].  A closure that captures mutable variables is a function that
    threads their state. *)
Fixpoint advance {A S} (f : A → S → outcome (S * bool)) (l : list A) (s : S)
    : outcome (S * bool) :=
  match l with
  | [] => Ok (s, true)
  | a :: l' =>
      r ← f a s;
      if (r.2 : bool) then advance f l' r.1 else Ok (r.1, false)
  end.

Lemma advance_total {A S} (f : A → S → outcome (S * bool)) (I : S → Prop) l s :
  (∀ a s, a ∈ l → I s → ∃ s' b, f a s = Ok (s', b) ∧ I s') → I s →
  ∃ s' b, advance f l s = Ok (s', b) ∧ I s'.
Proof.
  induction l as [|a l IH] in s |- *; intros Hf HI; simpl; [eauto|].
  destruct (Hf a s) as (s1 & b1 & -> & HI1); [left|done|]. simpl.
  destruct b1; [|eauto]. apply IH; [|done]. intros; apply Hf; [by right|done].
Qed.

Lemma advance_inv {A S} (f : A → S → outcome (S * bool)) (I : S → Prop) l s r :
  (∀ a s r, a ∈ l → f a s = Ok r → I s → I r.1) → advance f l s = Ok r → I s → I r.1.
Proof.
  induction l as [|a l IH] in s |- *; intros Hf Hr HI; simpl in Hr; inv_ok Hr; [by subst r|].
  assert (I a0.1) as HI1 by (eapply Hf; [left|done|done]).
  destruct a0.2; [|inv_ok Hr; by subst r]. eapply IH; [|done|done]. intros; eapply Hf; [by right|done..].
Qed.

(** One pass of a fixed-point loop: [for x in l.iter() { changed |= f(x) }]. *)
Fixpoint sweep {A S} (f : A → S → outcome (S * bool)) (l : list A) (s : S)
    (changed : bool) : outcome (S * bool) :=
  match l with
  | [] => Ok (s, changed)
  | a :: l' => r ← f a s; sweep f l' r.1 (changed || r.2)
  end.

(** [while changed { changed = false; iteration += 1; <pass> }]. *)
Fixpoint fixed_point_loop {S} (fuel : nat) (pass : N → S → outcome (S * bool))
    (iteration : N) (s : S) : outcome S :=
  match fuel with
  | 0 => Fail OutOfFuel
  | Datatypes.S fuel' =>
      r ← pass (iteration + 1)%N s;
      if (r.2 : bool) then fixed_point_loop fuel' pass (iteration + 1)%N r.1
      else Ok r.1
  end.

Section fixed_point.
Context {A S : Type}.
Implicit Types (s : S) (l : list A).

  (** A pass that reports no change consists of steps none of which reports
      a change. *)
Lemma sweep_unchanged (f : A → S → outcome (S * bool)) l s c s' :
    sweep f l s c = Ok (s', false) →
    c = false ∧
    (∀ l1 a l2, l = l1 ++ a :: l2 →
       ∃ s1 s2, sweep f l1 s false = Ok (s1, false) ∧ f a s1 = Ok (s2, false)
                ∧ sweep f l2 s2 false = Ok (s', false)).
Proof.
    revert s c. induction l as [|a l IH]; intros s c; simpl.
    - intros [= -> ->]. split; [done|]. intros l1 ?? Heq. by destruct l1.
    - destruct (f a s) as [[s1 b]|] eqn:Hf; simpl; [|done].
      intros H. pose proof H as H0. apply IH in H as [Hcb Hl].
      apply orb_false_iff in Hcb as [-> ->]. split; [done|].
      intros l1 a' l2 Heq. destruct l1 as [|a1 l1]; simplify_eq/=.
      + eauto 10.
      + rewrite Hf. simpl. by apply Hl.
Qed.

  (** If a step that reports no change keeps the state, an unchanged pass
      keeps the state and every step holds at that one state. *)
Lemma sweep_fixed (f : A → S → outcome (S * bool)) l s s' :
    (∀ a s1 s2, a ∈ l → f a s1 = Ok (s2, false) → s2 = s1) →
    sweep f l s false = Ok (s', false) →
    s' = s ∧ ∀ a, a ∈ l → f a s = Ok (s, false).
Proof.
    induction l as [|a l IH] in s |- *; intros Hkeep; simpl.
    - intros [= ->]. split; [done|]. intros ? []%elem_of_nil.
    - destruct (f a s) as [[s1 b]|] eqn:Hf; simpl; [|done].
      intros H. destruct b.
      { by apply sweep_unchanged in H as [? _]. }
      assert (s1 = s) as -> by (eapply Hkeep; [left|done]).
      apply IH in H as [-> Hl]; [|by intros; eapply Hkeep; [right|]].
      split; [done|]. intros a' [->|Ha]%elem_of_cons; auto.
Qed.

  (** A pass of steps that never fail does not fail. *)
Lemma sweep_total (f : A → S → outcome (S * bool)) (I : S → Prop) l s c :
    (∀ a s, a ∈ l → I s → ∃ s' b, f a s = Ok (s', b) ∧ I s') → I s →
    ∃ s' b, sweep f l s c = Ok (s', b) ∧ I s'.
Proof.
    induction l as [|a l IH] in s, c |- *; intros Hf HI; simpl; [eauto|].
    destruct (Hf a s) as (s1 & b1 & -> & HI1); [left|done|]. simpl.
    apply IH; [|done]. intros; apply Hf; [by right|done].
Qed.

Lemma sweep_inv (f : A → S → outcome (S * bool)) (I : S → Prop) l s c s' b :
    (∀ a s s' b, a ∈ l → I s → f a s = Ok (s', b) → I s') → I s →
    sweep f l s c = Ok (s', b) → I s'.
Proof.
    induction l as [|a l IH] in s, c |- *; intros Hf HI; simpl; [naive_solver|].
    destruct (f a s) as [[s1 b1]|] eqn:E; simpl; [|done].
    apply IH; [|by eapply Hf; [left|..]]. intros; eapply Hf; [by right|done..].
Qed.

  (** A pass never increases a measure no step increases, and decreases it
      when it reports a change. *)
Lemma sweep_measure (f : A → S → outcome (S * bool)) (I : S → Prop)
      (m : S → nat) l s c s' b :
    (∀ a s s' b, a ∈ l → I s → f a s = Ok (s', b) →
       I s' ∧ m s' ≤ m s ∧ (b = true → m s' < m s)) →
    I s → sweep f l s c = Ok (s', b) →
    I s' ∧ m s' ≤ m s ∧ (b = true → c = true ∨ m s' < m s).
Proof.
    induction l as [|a l IH] in s, c |- *; intros Hf HI; simpl.
    { intros [= -> ->]. auto. }
    destruct (f a s) as [[s1 b1]|] eqn:E; simpl; [|done]. intros H.
    destruct (Hf a s s1 b1) as (HI1 & Hle & Hlt); [left|done..|].
    apply IH in H as (HI' & Hle' & Hlt'); [|by intros; eapply Hf; [right|..]|done].
    split_and!; [done|lia|]. intros Hb.
    destruct (Hlt' Hb) as [[->| ->]%orb_true_iff|]; [by left| |right; lia].
    specialize (Hlt eq_refl). right; lia.
Qed.
End fixed_point.

Section fixed_point_loop.
Context {S : Type} (pass : N → S → outcome (S * bool)) (I : S → Prop).

  (** The loop returns only after a pass that reported no change, in a state
      that satisfies every invariant of the passes. *)
Lemma fixed_point_loop_exit fuel it s s' :
    (∀ it s s' b, I s → pass it s = Ok (s', b) → I s') → I s →
    fixed_point_loop fuel pass it s = Ok s' →
    ∃ it0 s0, I s0 ∧ pass it0 s0 = Ok (s', false).
Proof.
    intros Hinv. induction fuel as [|fuel IH] in it, s |- *; intros HI; simpl; [done|].
    destruct (pass _ s) as [[s1 b]|] eqn:E; simpl; [|done].
    destruct b; [|naive_solver]. apply IH. eauto.
Qed.

  (** Termination: passes do not fail, and a pass that reports a change
      decreases a measure. *)
Lemma fixed_point_loop_terminates (m : S → nat) fuel it s :
    (∀ it s, I s → ∃ s' b, pass it s = Ok (s', b) ∧ I s' ∧ (b = true → m s' < m s)) →
    I s → m s < fuel →
    ∃ s', fixed_point_loop fuel pass it s = Ok s' ∧ I s'.
Proof.
    intros Hpass. induction fuel as [|fuel IH] in it, s |- *; intros HI Hlt; [lia|].
    simpl. destruct (Hpass (it + 1)%N s HI) as (s1 & b & -> & HI1 & Hdec). simpl.
    destruct b; [|eauto]. apply IH; [done|]. specialize (Hdec eq_refl). lia.
Qed.
End fixed_point_loop.

(** A loop of passes over a list, with steps that may spoil the state without
    reporting a change ([bad]): it ends, in a spoiled state or in one that
    every step leaves alone. *)
Section fixed_point_sweep.
Context {A S : Type} (f : A → S → outcome (S * bool)) (l : list A).
Context (I bad : S → Prop) (m : S → nat).
Hypothesis step_ok : ∀ a s, a ∈ l → I s →
  ∃ s' b, f a s = Ok (s', b) ∧ I s' ∧ (bad s → bad s') ∧ m s' ≤ m s ∧
    (b = true → m s' < m s) ∧ (b = false → s' = s ∨ bad s').

Lemma sweep_step_total s c : I s → ∃ s' b, sweep f l s c = Ok (s', b) ∧ I s'.
Proof.
  apply sweep_total. intros a s0 Ha HI. destruct (step_ok a s0 Ha HI) as (s' & b & ? & ? & _).
  eauto.
Qed.

Lemma sweep_step_measure s s' b :
  I s → sweep f l s false = Ok (s', b) → b = true → m s' < m s.
Proof.
  intros HI H Hb. destruct (sweep_measure f I m l s false s' b) as (_ & _ & Hd); [|done..|].
  - intros a s0 s1 b0 Ha HI0 Hf. destruct (step_ok a s0 Ha HI0) as (s2 & b2 & Hf2 & H2).
    rewrite Hf2 in Hf. injection Hf as <- <-. naive_solver.
  - by destruct (Hd Hb).
Qed.

Lemma sweep_step_bad l' s s' b c :
  (∀ a, a ∈ l' → a ∈ l) → I s → sweep f l' s c = Ok (s', b) → bad s → bad s'.
Proof.
  induction l' as [|a l' IH] in s, c |- *; intros Hl HI H Hb; simpl in H; [naive_solver|].
  destruct (step_ok a s) as (s1 & b1 & Hf & HI1 & Hb1 & _); [apply Hl; left|done|].
  rewrite Hf in H. eapply IH; [|done..|auto]. intros. apply Hl. by right.
Qed.

Lemma sweep_step_fixed l' s s' :
  (∀ a, a ∈ l' → a ∈ l) → I s → sweep f l' s false = Ok (s', false) →
  bad s' ∨ (s' = s ∧ ∀ a, a ∈ l' → f a s = Ok (s, false)).
Proof.
  induction l' as [|a l' IH] in s |- *; intros Hl HI H; simpl in H.
  { injection H as <-. right. split; [done|]. by intros ? []%elem_of_nil. }
  assert (Hl' : ∀ a, a ∈ l' → a ∈ l) by (intros; apply Hl; by right).
  destruct (step_ok a s) as (s1 & b1 & Hf & HI1 & _ & _ & _ & Hk); [apply Hl; left|done|].
  rewrite Hf in H. simpl in H. destruct b1; [by apply sweep_unchanged in H as [? _]|].
  destruct (Hk eq_refl) as [->|Hb]; [|left; by eapply sweep_step_bad].
  destruct (IH s Hl' HI H) as [?|[-> Hall]]; [by left|right]. split; [done|].
  intros a' [->|?]%elem_of_cons; auto.
Qed.

Lemma fixed_point_sweep fuel s :
  I s → m s < fuel →
  ∃ s', fixed_point_loop fuel (λ _ s, sweep f l s false) 0%N s = Ok s' ∧ I s' ∧
    (bad s' ∨ ∀ a, a ∈ l → f a s' = Ok (s', false)).
Proof.
  intros HI Hm.
  destruct (fixed_point_loop_terminates (λ _ s, sweep f l s false) I m fuel 0%N s)
    as (s' & Hs' & HI'); [|done..|].
  { intros _ s0 HI0. destruct (sweep_step_total s0 false HI0) as (s1 & b & H1 & HI1).
    exists s1, b. split_and!; [done..|]. by eapply sweep_step_measure. }
  exists s'. split_and!; [done..|].
  destruct (fixed_point_loop_exit (λ _ s, sweep f l s false) I fuel 0%N s s') as (_ & s0 & HI0 & H0);
    [|done..|].
  { intros _ s1 s2 b HI1 H1. destruct (sweep_step_total s1 false HI1) as (? & ? & H2 & ?).
    rewrite H2 in H1. by injection H1 as -> ->. }
  destruct (sweep_step_fixed l s0 s') as [?|[-> Hall]]; auto.
Qed.
End fixed_point_sweep.

(** * Lists *)

Lemma sum_list_fmap_insert {A} (f : A → nat) (l : list A) i x y :
  l !! i = Some x → sum_list (f <$> <[i := y]> l) + f x = sum_list (f <$> l) + f y.
Proof.
  induction l as [|z l IH] in i |- *; destruct i as [|i]; simpl; intros H; simplify_eq; [lia|].
  specialize (IH i H). unfold fmap in *. simpl in *. lia.
Qed.

Lemma sum_list_fmap_bound {A} (f : A → nat) (l : list A) k :
  (∀ x, x ∈ l → f x ≤ k) → sum_list (f <$> l) ≤ length l * k.
Proof.
  induction l as [|x l IH]; simpl; intros H; [lia|].
  assert (f x ≤ k) by (apply H; left). assert (sum_list (f <$> l) ≤ length l * k)
    by (apply IH; intros; apply H; by right).
  unfold fmap in *. simpl in *. lia.
Qed.

Lemma length_filter_lt {A} (P Q : A → Prop) `{!∀ x, Decision (P x), !∀ x, Decision (Q x)} l x :
  (∀ y, P y → Q y) → x ∈ l → Q x → ¬ P x → length (filter P l) < length (filter Q l).
Proof.
  intros HPQ Hx HQ HP.
  assert (Hle : ∀ l, length (filter P l) ≤ length (filter Q l)).
  { clear x l Hx HQ HP. induction l as [|y l IH]; [done|]. rewrite !filter_cons.
    repeat case_decide; simpl; try lia; naive_solver. }
  induction l as [|y l IH]; [by apply elem_of_nil in Hx|]. rewrite !filter_cons.
  specialize (Hle l). apply elem_of_cons in Hx as [->|Hx]; [by rewrite decide_False, decide_True by done; simpl; lia|].
  specialize (IH Hx). repeat case_decide; simpl; try lia; naive_solver.
Qed.

(** * Parent maps

    [chain m s l]: [l] lists [s] and its ancestors in the parent map [m], up to
    one that has no parent. *)
Inductive chain {K} `{Countable K} (m : gmap K K) : K → list K → Prop :=
  | chain_root s : m !! s = None → chain m s [s]
  | chain_step s p l : m !! s = Some p → chain m p l → chain m s (s :: l).

Section chains.
Context {K} `{Countable K} (m : gmap K K).
Implicit Types (s p a b c : K) (l A B : list K).

Lemma chain_hd s l : chain m s l → ∃ l', l = s :: l'.
Proof. destruct 1; eauto. Qed.

Lemma chain_det s l l' : chain m s l → chain m s l' → l = l'.
Proof.
  induction 1 as [|s p l ? _ IH] in l' |- *; inversion 1; simplify_eq; [done|].
  f_equal. auto.
Qed.

Lemma chain_drop s l i a : chain m s l → l !! i = Some a → chain m a (drop i l).
Proof.
  induction 1 as [s Hs|s p l Hs Hc IH] in i |- *; destruct i as [|i]; simpl; intros Hi; simplify_eq.
  - by constructor.
  - by econstructor.
  - auto.
Qed.

Lemma chain_lookup_last s l i a :
  chain m s l → l !! i = Some a → S i < length l → is_Some (m !! a).
Proof.
  intros Hc Hi Hlt. pose proof (chain_drop _ _ _ _ Hc Hi) as Hd.
  assert (1 < length (drop i l)) as Hl by (rewrite length_drop; lia).
  destruct Hd; [simpl in Hl; lia|eauto].
Qed.

Lemma chain_NoDup s l : chain m s l → NoDup l.
Proof.
  intros Hc. apply NoDup_alt. intros i j a Hi Hj.
  pose proof (chain_drop _ _ _ _ Hc Hi) as H1. pose proof (chain_drop _ _ _ _ Hc Hj) as H2.
  pose proof (chain_det _ _ _ H1 H2) as Heq. apply (f_equal length) in Heq.
  rewrite !length_drop in Heq. apply lookup_lt_Some in Hi, Hj. lia.
Qed.

Lemma chain_length s l : chain m s l → length l ≤ S (size m).
Proof.
  intros Hc. pose proof (chain_NoDup _ _ Hc) as Hnd.
  assert (list_to_set (take (length l - 1) l) ⊆ dom m) as Hsub.
  { intros a. rewrite elem_of_list_to_set, list_elem_of_lookup. intros (i & Hi).
    apply lookup_take_Some in Hi as [Hi Hlt]. apply elem_of_dom.
    eapply chain_lookup_last; [done..|]. apply lookup_lt_Some in Hi. lia. }
  apply subseteq_size in Hsub. rewrite size_dom in Hsub.
  rewrite size_list_to_set in Hsub by by eapply sublist_NoDup, sublist_take.
  rewrite length_take in Hsub. lia.
Qed.

Lemma chain_elem s l a : chain m s l → a ∈ l ↔ rtc (λ s p, m !! s = Some p) s a.
Proof.
  intros Hc. split.
  - induction Hc as [s Hs|s p l Hs Hc IH].
    + intros Ha%list_elem_of_singleton. subst. apply rtc_refl.
    + intros [->|Ha]%elem_of_cons; [done|]. eapply rtc_l; eauto.
  - intros Hr. induction Hr as [s|s p a Hs Hr IH] in l, Hc |- *.
    + destruct (chain_hd _ _ Hc) as [? ->]. left.
    + inversion Hc; simplify_eq. right. eauto.
Qed.

Lemma chain_insert s l sub sup lsup :
  chain m s l → chain m sup lsup → sub ∉ lsup →
  ∃ l', chain (<[sub := sup]> m) s l'.
Proof.
  intros Hc Hsup Hnotin.
  assert (Hup : ∀ x lx, chain m x lx → sub ∉ lx → chain (<[sub := sup]> m) x lx).
  { induction 1 as [x Hx|x p lx Hx Hcx IH]; intros Hn.
    - constructor. rewrite lookup_insert_ne; [done|set_solver].
    - econstructor; [|apply IH; set_solver]. rewrite lookup_insert_ne; [done|set_solver]. }
  induction Hc as [s Hs|s p l Hs Hc [l' Hl']].
  - destruct (decide (s = sub)) as [->|].
    + eexists. eapply chain_step; [apply lookup_insert_eq|]. eauto.
    + eexists. constructor. by rewrite lookup_insert_ne.
  - destruct (decide (s = sub)) as [->|].
    + eexists. eapply chain_step; [apply lookup_insert_eq|]. eauto.
    + eexists. eapply chain_step; [|done]. by rewrite lookup_insert_ne.
Qed.
End chains.

(** * Fuel

    [c ⇓ r]: with enough fuel the computation [c] returns [r]. *)
Declare Scope model_scope.
Definition ends {A} (c : nat → outcome A) (r : A) : Prop := ∃ n, ∀ fuel, (n ≤ fuel)%nat → c fuel = Ok r.
Notation "c ⇓ r" := (ends c r) (at level 70, no associativity) : model_scope.
Local Open Scope model_scope.

Lemma ends_ret {A} (r : A) : (λ _, Ok r) ⇓ r.
Proof. by exists 0. Qed.

Lemma ends_bind {A B} (c : nat → outcome A) (f : nat → A → outcome B) a b :
  c ⇓ a → (λ fuel, f fuel a) ⇓ b → (λ fuel, c fuel ≫= f fuel) ⇓ b.
Proof.
  intros [n Hn] [m Hm]. exists (n `max` m). intros fuel Hf. rewrite Hn by lia. simpl_ok. apply Hm. lia.
Qed.

Lemma ends_fmap {A B} (c : nat → outcome A) (f : A → B) a : c ⇓ a → (λ fuel, f <$> c fuel) ⇓ f a.
Proof. intros [n Hn]. exists n. intros fuel Hf. by rewrite Hn. Qed.

(** A recursive function that consumes a unit of fuel. *)
Lemma ends_S {A} (c d : nat → outcome A) r : (∀ fuel, c (S fuel) = d fuel) → d ⇓ r → c ⇓ r.
Proof. intros H [n Hn]. exists (S n). intros [|fuel] Hf; [lia|]. rewrite H. apply Hn. lia. Qed.

Lemma ends_det {A} (c : nat → outcome A) r r' : c ⇓ r → c ⇓ r' → r = r'.
Proof. intros [n Hn] [m Hm]. specialize (Hn (n `max` m)). specialize (Hm (n `max` m)). rewrite Hn in Hm by lia. by injection Hm; [|lia]. Qed.

(** * Orders

    A derived [cmp] compares the fields in order, and the variants of an enum
    in the order of their declaration. *)
Definition then_cmp (c1 c2 : comparison) : comparison :=
  match c1 with Eq => c2 | _ => c1 end.

(** A derived [cmp] is a strict total order whose [Equal] is equality. *)
Class TotalOrd {A} (cmp : A → A → comparison) : Prop := {
  cmp_eq a b : cmp a b = Eq ↔ a = b;
  cmp_opp a b : cmp b a = CompOpp (cmp a b);
  cmp_lt_trans a b c : cmp a b = Lt → cmp b c = Lt → cmp a c = Lt
}.

Lemma cmp_refl {A} (cmp : A → A → comparison) `{!TotalOrd cmp} a : cmp a a = Eq.
Proof. by apply cmp_eq. Qed.

Lemma cmp_gt_lt {A} (cmp : A → A → comparison) `{!TotalOrd cmp} a b : cmp a b = Gt ↔ cmp b a = Lt.
Proof. rewrite (@cmp_opp _ cmp _ a b). by destruct (cmp a b). Qed.

Lemma cmp_le_lt {A} (cmp : A → A → comparison) `{!TotalOrd cmp} a b c :
  cmp a b ≠ Gt → cmp b c = Lt → cmp a c = Lt.
Proof.
  intros H1 H2. destruct (cmp a b) eqn:E; [apply cmp_eq in E as ->; done|by eapply cmp_lt_trans|done].
Qed.

#[export] Instance N_TotalOrd : TotalOrd N.compare.
Proof.
  split; [apply N.compare_eq_iff|intros; apply N.compare_antisym|].
  intros a b c. rewrite !N.compare_lt_iff. lia.
Qed.

(** Lexicographic comparison of the fields [p] and then [q]. *)
Lemma then_cmp_TotalOrd {A B C} (p : A → B) (q : A → C) cmpb cmpc :
  TotalOrd cmpb → TotalOrd cmpc → (∀ a b, p a = p b → q a = q b → a = b) →
  TotalOrd (λ a b, then_cmp (cmpb (p a) (p b)) (cmpc (q a) (q b))).
Proof.
  intros Hb Hc Hinj. split.
  - intros a b. split.
    2: { intros ->. by rewrite (proj2 (@cmp_eq _ cmpb _ (p b) _)), (proj2 (@cmp_eq _ cmpc _ (q b) _)). }
    destruct (cmpb (p a) (p b)) eqn:E; try done. simpl. intros E'.
    apply Hinj; [by apply (@cmp_eq _ cmpb _)|by apply (@cmp_eq _ cmpc _)].
  - intros a b. rewrite (@cmp_opp _ cmpb _ (p a)), (@cmp_opp _ cmpc _ (q a)). by destruct (cmpb (p a) (p b)).
  - intros a b c.
    destruct (cmpb (p a) (p b)) eqn:E1, (cmpb (p b) (p c)) eqn:E2; simpl; try done.
    + apply (@cmp_eq _ cmpb _) in E1, E2. rewrite E1, E2, (proj2 (@cmp_eq _ cmpb _ _ _)) by done.
      apply (@cmp_lt_trans _ cmpc _).
    + apply (@cmp_eq _ cmpb _) in E1. by rewrite E1, E2.
    + apply (@cmp_eq _ cmpb _) in E2. by rewrite <- E2, E1.
    + by rewrite (cmp_lt_trans _ _ _ E1 E2).
Qed.

#[export] Instance Z_TotalOrd : TotalOrd Z.compare.
Proof.
  split; [apply Z.compare_eq_iff|intros; apply Z.compare_antisym|].
  intros a b c. rewrite !Z.compare_lt_iff. lia.
Qed.

(** * Machine arithmetic on [uint]: it wraps *)
Definition uadd (a b : N) : N := ((a + b) mod 2 ^ UINT_BITS)%N.
Definition usub (a b : N) : N :=
  ((a + (2 ^ UINT_BITS - b mod 2 ^ UINT_BITS)) mod 2 ^ UINT_BITS)%N.

Lemma uadd_small a b : (a + b ≤ UINT_MAX)%N → uadd a b = (a + b)%N.
Proof. intros H. apply N.mod_small. unfold UINT_BITS, UINT_MAX in *. lia. Qed.

Lemma usub_small a b : (b ≤ a)%N → (a ≤ UINT_MAX)%N → usub a b = (a - b)%N.
Proof.
  intros H Ha. unfold usub, UINT_BITS, UINT_MAX in *.
  rewrite (N.mod_small b) by lia.
  replace (a + (2 ^ 64 - b))%N with (a - b + 1 * 2 ^ 64)%N by lia.
  rewrite N.Div0.mod_add. apply N.mod_small. lia.
Qed.

Lemma usub_le a b : (usub a b ≤ UINT_MAX)%N.
Proof. unfold usub, UINT_MAX. assert (2 ^ UINT_BITS ≠ 0)%N as H by done. pose proof (N.mod_upper_bound (a + (2 ^ UINT_BITS - b mod 2 ^ UINT_BITS)) _ H). unfold UINT_BITS in *. lia. Qed.

Lemma usub_wraps a b : (a < b)%N → (b ≤ UINT_MAX)%N → usub a b = (UINT_MAX - b + a + 1)%N.
Proof.
  intros H Hb. unfold usub, UINT_BITS, UINT_MAX in *. rewrite (N.mod_small b) by lia.
  rewrite N.mod_small by lia. lia.
Qed.

Lemma uadd_le a b : (uadd a b ≤ UINT_MAX)%N.
Proof.
  unfold uadd. assert (2 ^ UINT_BITS ≠ 0)%N as H by done. pose proof (N.mod_upper_bound (a + b) _ H).
  unfold UINT_BITS, UINT_MAX in *. lia.
Qed.

Lemma uadd_assoc a b c : uadd (uadd a b) c = uadd a (b + c).
Proof. unfold uadd. by rewrite N.Div0.add_mod_idemp_l, N.add_assoc. Qed.
