(* ===== verification/Ast.v ===== *)
(** The part of the abstract syntax of [src/libsyntax/ast.rs] the analyses
    look at: patterns, expressions, blocks and what they contain, with the
    pattern walker of [src/libsyntax/ast_util.rs].  Spans are left out: a
    diagnostic is located by the id of the node it is about.  Interned names
    are numbers; types inside expressions, which only type checking looks at,
    are the ids of their nodes. *)

From stdpp Require Import prelude gmap strings list.
From S2P Require Import Prelude.

Abbreviation NodeId := N (only parsing).
Abbreviation Name := N (only parsing).

Record DefId := mkDefId { krate : N; def_node : NodeId }.

#[export] Instance DefId_eq_dec : EqDecision DefId.
Proof. solve_decision. Defined.
#[export] Program Instance DefId_countable : Countable DefId :=
  inj_countable' (λ d, (krate d, def_node d)) (λ '(k, n), mkDefId k n) _.
Next Obligation. by intros []. Qed.

Inductive Mutability := MutMutable | MutImmutable.

Inductive BindingMode := BindByRef (m : Mutability) | BindByValue (m : Mutability).

Inductive FnStyle := UnsafeFn | ExternFn | NormalFn.

Inductive MethodProvenance := FromTrait (d : DefId) | FromImpl (d : DefId).

Inductive PrimTy := TyIntPrim | TyUintPrim | TyFloatPrim | TyStr | TyBool | TyChar.

(** What a path resolves to. *)
Inductive Def :=
  | DefFn (d : DefId) (s : FnStyle)
  | DefStaticMethod (method : DefId) (p : MethodProvenance) (s : FnStyle)
  | DefSelfTy (trait_id : NodeId)
  | DefMod (d : DefId)
  | DefForeignMod (d : DefId)
  | DefStatic (d : DefId) (is_mutbl : bool)
  | DefArg (id : NodeId) (bm : BindingMode)
  | DefLocal (id : NodeId) (bm : BindingMode)
  | DefVariant (enum_id variant_id : DefId) (is_structure : bool)
  | DefTy (d : DefId)
  | DefTrait (d : DefId)
  | DefPrimTy (p : PrimTy)
  | DefTyParam (d : DefId) (idx : N)
  | DefBinding (id : NodeId) (bm : BindingMode)
  | DefUse (d : DefId)
  | DefUpvar (id : NodeId) (def : Def) (closure_expr closure_body : NodeId)
  | DefStruct (d : DefId)
  | DefTyParamBinder (id : NodeId)
  | DefRegion (id : NodeId)
  | DefLabel (id : NodeId)
  | DefMethod (method : DefId) (trait_ : option DefId).

Inductive IntTy := TyI | TyI8 | TyI16 | TyI32 | TyI64.
Inductive UintTy := TyU | TyU8 | TyU16 | TyU32 | TyU64.
Inductive FloatTy := TyF32 | TyF64.

Inductive StrStyle := CookedStr | RawStr (hashes : N).

(** [i64], [u64], [u32] and [u8] payloads are integers. *)
Inductive Lit_ :=
  | LitStr (s : string) (style : StrStyle)
  | LitBinary (data : list Z)
  | LitChar (c : Z)
  | LitInt (n : Z) (t : IntTy)
  | LitUint (n : Z) (t : UintTy)
  | LitIntUnsuffixed (n : Z)
  | LitFloat (s : string) (t : FloatTy)
  | LitFloatUnsuffixed (s : string)
  | LitNil
  | LitBool (b : bool).

Inductive BinOp :=
  | BiAdd | BiSub | BiMul | BiDiv | BiRem | BiAnd | BiOr | BiBitXor | BiBitAnd | BiBitOr
  | BiShl | BiShr | BiEq | BiLt | BiLe | BiNe | BiGe | BiGt.

Inductive UnOp := UnBox | UnUniq | UnDeref | UnNot | UnNeg.

Inductive ExprVstore := ExprVstoreUniq | ExprVstoreSlice | ExprVstoreMutSlice.

Abbreviation Path := (list Name) (only parsing).
Abbreviation TyId := NodeId (only parsing).

Inductive Pat : Set :=
  | mkPat (pat_id : NodeId) (pat_node : Pat_)
with Pat_ : Set :=
  | PatWild
  | PatWildMulti
  | PatIdent (bm : BindingMode) (path : Path) (sub : option Pat)
  | PatEnum (path : Path) (args : option (list Pat))
  | PatStruct (path : Path) (fields : list FieldPat) (etc : bool)
  | PatTup (elts : list Pat)
  | PatUniq (p : Pat)
  | PatRegion (p : Pat)
  | PatLit (e : Expr)
  | PatRange (lo hi : Expr)
  | PatVec (before : list Pat) (slice : option Pat) (after : list Pat)
with FieldPat : Set :=
  | mkFieldPat (ident : Name) (pat : Pat)
with Expr : Set :=
  | mkExpr (expr_id : NodeId) (expr_node : Expr_)
with Expr_ : Set :=
  | ExprVstore_ (e : Expr) (v : ExprVstore)
  | ExprBox (place value : Expr)
  | ExprVec (es : list Expr)
  | ExprCall (f : Expr) (args : list Expr)
  | ExprMethodCall (method : Name) (tys : list TyId) (args : list Expr)
  | ExprTup (es : list Expr)
  | ExprBinary (op : BinOp) (a b : Expr)
  | ExprUnary (op : UnOp) (e : Expr)
  | ExprLit (l : Lit_)
  | ExprCast (e : Expr) (t : TyId)
  | ExprIf (cond : Expr) (then_ : Block) (else_ : option Expr)
  | ExprWhile (cond : Expr) (body : Block)
  | ExprForLoop (pat : Pat) (e : Expr) (body : Block) (label : option Name)
  | ExprLoop (body : Block) (label : option Name)
  | ExprMatch (scrut : Expr) (arms : list Arm)
  | ExprFnBlock (decl : FnDecl) (body : Block)
  | ExprProc (decl : FnDecl) (body : Block)
  | ExprBlock (b : Block)
  | ExprAssign (l r : Expr)
  | ExprAssignOp (op : BinOp) (l r : Expr)
  | ExprField (e : Expr) (f : Name) (tys : list TyId)
  | ExprIndex (l r : Expr)
  | ExprPath (p : Path)
  | ExprAddrOf (m : Mutability) (e : Expr)
  | ExprBreak (label : option Name)
  | ExprAgain (label : option Name)
  | ExprRet (e : option Expr)
  | ExprInlineAsm (inputs outputs : list Expr)
  | ExprMac
  | ExprStruct (p : Path) (fields : list Field) (base : option Expr)
  | ExprRepeat (element count : Expr)
  | ExprParen (e : Expr)
with Field : Set :=
  | mkField (field_ident : Name) (field_expr : Expr)
with Arm : Set :=
  | mkArm (arm_pats : list Pat) (arm_guard : option Expr) (arm_body : Expr)
with Block : Set :=
  | mkBlock (block_stmts : list Stmt) (block_expr : option Expr) (block_id : NodeId)
with Stmt : Set :=
  | StmtDecl (d : Decl) (id : NodeId)
  | StmtExpr (e : Expr) (id : NodeId)
  | StmtSemi (e : Expr) (id : NodeId)
  | StmtMac
with Decl : Set :=
  | DeclLocal (l : Local)
  | DeclItem (item_id : NodeId)
with Local : Set :=
  | mkLocal (local_ty : TyId) (local_pat : Pat) (local_init : option Expr) (local_id : NodeId)
with FnDecl : Set :=
  | mkFnDecl (inputs : list Arg) (output : TyId)
with Arg : Set :=
  | mkArg (arg_ty : TyId) (arg_pat : Pat).

Definition pat_id (p : Pat) : NodeId := match p with mkPat i _ => i end.
Definition pat_node (p : Pat) : Pat_ := match p with mkPat _ n => n end.
Definition ident (f : FieldPat) : Name := match f with mkFieldPat i _ => i end.
Definition field_pat (f : FieldPat) : Pat := match f with mkFieldPat _ p => p end.
Definition expr_id (e : Expr) : NodeId := match e with mkExpr i _ => i end.
Definition expr_node (e : Expr) : Expr_ := match e with mkExpr _ n => n end.
Definition arm_pats (a : Arm) : list Pat := match a with mkArm ps _ _ => ps end.
Definition arm_guard (a : Arm) : option Expr := match a with mkArm _ g _ => g end.
Definition arm_body (a : Arm) : Expr := match a with mkArm _ _ b => b end.
Definition arg_ty (a : Arg) : TyId := match a with mkArg t _ => t end.
Definition arg_pat (a : Arg) : Pat := match a with mkArg _ p => p end.
Definition fn_inputs (d : FnDecl) : list Arg := match d with mkFnDecl i _ => i end.
Definition fn_output (d : FnDecl) : TyId := match d with mkFnDecl _ o => o end.
Definition block_stmts (b : Block) : list Stmt := match b with mkBlock s _ _ => s end.
Definition block_expr (b : Block) : option Expr := match b with mkBlock _ e _ => e end.
Definition block_id (b : Block) : NodeId := match b with mkBlock _ _ i => i end.

(** ** Induction on patterns *)

Definition sub_pats (p : Pat) : list Pat :=
  match pat_node p with
  | PatWild | PatWildMulti | PatIdent _ _ None | PatEnum _ None | PatLit _ | PatRange _ _ => []
  | PatIdent _ _ (Some s) => [s]
  | PatEnum _ (Some args) => args
  | PatStruct _ fields _ => field_pat <$> fields
  | PatTup elts => elts
  | PatUniq s | PatRegion s => [s]
  | PatVec before slice after => before ++ option_list slice ++ after
  end.

Lemma Pat_sub_ind (P : Pat → Prop) : (∀ p, Forall P (sub_pats p) → P p) → ∀ p, P p.
Proof.
  intros H. fix IH 1. intros [id node]. apply H.
  assert (∀ ps, (fix all (ps : list Pat) : Prop :=
    match ps with [] => True | p :: ps => P p ∧ all ps end) ps → Forall P ps) as Hall.
  { induction ps as [|p ps IHps]; [constructor|]. intros [? ?]. constructor; auto. }
  destruct node as [| |bm path [s|]|path [ps|]|path fields etc|ps|s|s|e|lo hi|before slice after];
    cbn [sub_pats pat_node]; try (by constructor); try (by repeat constructor; apply IH).
  - apply Hall. induction ps as [|p ps IHps]; [exact I|]. split; [apply IH|exact IHps].
  - apply Hall. induction fields as [|[n p] ps IHps]; [exact I|]. split; [apply IH|exact IHps].
  - apply Hall. induction ps as [|p ps IHps]; [exact I|]. split; [apply IH|exact IHps].
  - apply Forall_app. split; [|apply Forall_app; split]; apply Hall.
    + induction before as [|p ps IHps]; [exact I|]. split; [apply IH|exact IHps].
    + destruct slice as [s|]; [|exact I]. split; [apply IH|exact I].
    + induction after as [|p ps IHps]; [exact I|]. split; [apply IH|exact IHps].
Qed.

(** ** Induction on expressions *)

Definition decl_exprs (d : Decl) : list Expr :=
  match d with
  | DeclLocal (mkLocal _ _ init _) => option_list init
  | DeclItem _ => []
  end.

Definition stmt_exprs (s : Stmt) : list Expr :=
  match s with
  | StmtDecl d _ => decl_exprs d
  | StmtExpr e _ | StmtSemi e _ => [e]
  | StmtMac => []
  end.

Definition block_exprs (b : Block) : list Expr :=
  match b with mkBlock stmts expr _ => (stmts ≫= stmt_exprs) ++ option_list expr end.

Definition arm_exprs (a : Arm) : list Expr :=
  match a with mkArm _ guard body => option_list guard ++ [body] end.

Definition field_exprs (f : Field) : list Expr := match f with mkField _ e => [e] end.

(** The expressions directly below an expression, those in its blocks
    included. *)
Definition sub_exprs (e : Expr) : list Expr :=
  match expr_node e with
  | ExprLit _ | ExprPath _ | ExprBreak _ | ExprAgain _ | ExprMac => []
  | ExprVstore_ e _ | ExprUnary _ e | ExprCast e _ | ExprField e _ _ | ExprAddrOf _ e | ExprParen e => [e]
  | ExprBox a b | ExprBinary _ a b | ExprAssign a b | ExprAssignOp _ a b | ExprIndex a b
  | ExprRepeat a b => [a; b]
  | ExprVec es | ExprTup es | ExprMethodCall _ _ es => es
  | ExprCall f args => f :: args
  | ExprIf cond then_ els => cond :: block_exprs then_ ++ option_list els
  | ExprWhile cond body => cond :: block_exprs body
  | ExprForLoop _ e body _ => e :: block_exprs body
  | ExprLoop body _ | ExprBlock body | ExprFnBlock _ body | ExprProc _ body => block_exprs body
  | ExprMatch scrut arms => scrut :: (arms ≫= arm_exprs)
  | ExprRet o => option_list o
  | ExprInlineAsm inputs outputs => inputs ++ outputs
  | ExprStruct _ fields base => (fields ≫= field_exprs) ++ option_list base
  end.

(** The parts of an expression that are optional, in a list or in a block. *)
Ltac opt_case IH o := destruct o; [exact (Forall_cons_2 _ _ _ (IH _) (Forall_nil_2 _))|constructor].
Ltac list_case IH l := induction l; [constructor|constructor; [apply IH|assumption]].
Ltac block_case IH b :=
  destruct b as [stmts oe bid]; apply Forall_app_2; [|opt_case IH oe];
  induction stmts as [|[[[lt lp oi lid]|iid] did|se sid|se sid|] stmts IHs];
    [constructor|apply Forall_app_2; [opt_case IH oi|exact IHs]|exact IHs
    |constructor; [apply IH|exact IHs]|constructor; [apply IH|exact IHs]|exact IHs].

Lemma Expr_sub_ind (P : Expr → Prop) : (∀ e, Forall P (sub_exprs e) → P e) → ∀ e, P e.
Proof.
  intros H. fix IH 1. intros [id node]. apply H.
  destruct node as [e v|a b|es|f args|mt tys es|es|op a b|op e|l|e t|cond then_ els|cond body
    |pat e body lab|body lab|scrut arms|decl body|decl body|body|a b|op a b|e f tys|a b|p|m e|lab|lab
    |o|inputs outputs| |p fields base|a b|e]; cbn [sub_exprs expr_node];
    try (constructor; fail); try (repeat constructor; apply IH; fail); try (list_case IH es; fail).
  - constructor; [apply IH|]. list_case IH args.
  - constructor; [apply IH|]. apply Forall_app_2; [block_case IH then_|opt_case IH els].
  - constructor; [apply IH|]. block_case IH body.
  - constructor; [apply IH|]. block_case IH body.
  - block_case IH body.
  - constructor; [apply IH|]. induction arms as [|[pats guard ab] arms IHa]; [constructor|].
    apply Forall_app_2; [|exact IHa]. apply Forall_app_2; [opt_case IH guard|].
    constructor; [apply IH|constructor].
  - block_case IH body.
  - block_case IH body.
  - block_case IH body.
  - opt_case IH o.
  - apply Forall_app_2; [list_case IH inputs|list_case IH outputs].
  - apply Forall_app_2; [|opt_case IH base]. induction fields as [|[n fe] fields IHf]; [constructor|].
    constructor; [apply IH|exact IHf].
Qed.

(** ** Walking patterns *)

Section walk.
Context {S : Type} (it : Pat → S → outcome (S * bool)).

Fixpoint walk_pat (pat : Pat) (s : S) : outcome (S * bool) :=
  r ← it pat s;
  if negb r.2 then Ok (r.1, false) else
  let s := r.1 in
  match pat_node pat with
  | PatIdent _ _ (Some p) => walk_pat p s
  | PatStruct _ fields _ => advance (λ f, walk_pat (field_pat f)) fields s
  | PatEnum _ (Some ps) | PatTup ps => advance walk_pat ps s
  | PatUniq p | PatRegion p => walk_pat p s
  | PatVec before slice after =>
      r ← advance walk_pat before s;
      if negb r.2 then Ok r else
      r ← match slice with Some p => walk_pat p r.1 | None => Ok (r.1, true) end;
      if negb r.2 then Ok r else advance walk_pat after r.1
  | PatWild | PatWildMulti | PatLit _ | PatRange _ _ | PatIdent _ _ None | PatEnum _ None =>
      Ok (s, true)
  end.

(** What every step of the walk keeps, the walk keeps. *)
Lemma walk_pat_inv (I : S → Prop) p s r :
  (∀ p s r, it p s = Ok r → I s → I r.1) → walk_pat p s = Ok r → I s → I r.1.
Proof.
  intros Hit. revert s r. induction p as [p IH] using Pat_sub_ind. rewrite Forall_forall in IH.
  intros s r Hw HI. destruct p as [id node]. simpl in Hw. apply bind_Ok in Hw as ([s1 b] & H1 & Hw).
  apply Hit in H1; [|done]. simpl in H1, Hw. destruct b; simpl in Hw; [|by injection Hw as <-].
  destruct node as [| |bm path [q|]|path [ps|]|path fields etc|ps|q|q|e|lo hi|before slice after];
    try (by injection Hw as <-); try (by eapply IH; [left|..]).
  - eapply advance_inv; [|done|done]. intros q s2 r2 Hq. by apply IH.
  - eapply (advance_inv _ I); [|done|done]. intros f s2 r2 Hf. apply IH.
    apply list_elem_of_fmap. eauto.
  - eapply advance_inv; [|done|done]. intros q s2 r2 Hq. by apply IH.
  - apply bind_Ok in Hw as ([s2 b2] & H2 & Hw).
    assert (I s2) as HI2.
    { eapply (advance_inv _ I _ _ (s2, b2)); [|done|done]. intros q s3 r3 Hq. apply IH.
      apply elem_of_app. by left. }
    destruct b2; simpl in Hw; [|by injection Hw as <-]. apply bind_Ok in Hw as ([s3 b3] & H3 & Hw).
    assert (I s3) as HI3.
    { destruct slice as [q|]; [|by injection H3 as <-].
      assert (q ∈ before ++ [q] ++ after) as Hq by (apply elem_of_app; right; left).
      apply (IH q Hq _ _ H3 HI2). }
    destruct b3; simpl in Hw; [|by injection Hw as <-].
    eapply advance_inv; [|done|done]. intros q s4 r4 Hq. apply IH.
    apply elem_of_app. right. apply elem_of_app. by right.
Qed.
End walk.

Definition is_unguarded (a : Arm) : bool :=
  match arm_guard a with None => true | Some _ => false end.

Definition unguarded_pat (a : Arm) : option (list Pat) :=
  if is_unguarded a then Some (arm_pats a) else None.
