(* ===== verification/Visit.v ===== *)
(** The traversal of expressions of [src/libsyntax/visit.rs].  A visitor is a
    record of methods; a default method walks the node and calls the visitor's
    own methods on the parts, so that overriding one method changes what
    happens below every walk.  [tie] builds the visitor from methods that take
    the visitor itself.  Types, items and macros are opaque here, their methods
    do nothing by default; paths hold no expressions and are not visited. *)

From stdpp Require Import prelude list.
From S2P Require Import Prelude Ast.

Section visit.
Context {E St : Type}.

Record Visitor := mkVisitor {
  visit_local : Local → E → St → outcome St;
  visit_block : Block → E → St → outcome St;
  visit_stmt : Stmt → E → St → outcome St;
  visit_arm : Arm → E → St → outcome St;
  visit_pat : Pat → E → St → outcome St;
  visit_decl : Decl → E → St → outcome St;
  visit_expr : Expr → E → St → outcome St;
  visit_expr_post : Expr → E → St → outcome St;
  visit_fn : FnDecl → Block → NodeId → E → St → outcome St;
  visit_item : NodeId → E → St → outcome St;
  visit_ty : TyId → E → St → outcome St
}.

(** [for x in l.iter() { f(x, env.clone()) }]. *)
Fixpoint for_each {A} (f : A → St → outcome St) (l : list A) (s : St) : outcome St :=
  match l with
  | [] => Ok s
  | x :: l' => s ← f x s; for_each f l' s
  end.

Section walk.
Context (visitor : Visitor).

Definition walk_expr_opt (optional_expression : option Expr) (env : E) (s : St) : outcome St :=
  match optional_expression with
  | None => Ok s
  | Some expression => visit_expr visitor expression env s
  end.

Definition walk_exprs (expressions : list Expr) (env : E) (s : St) : outcome St :=
  for_each (λ e, visit_expr visitor e env) expressions s.

Definition walk_local (local : Local) (env : E) (s : St) : outcome St :=
  match local with
  | mkLocal t p init _ =>
      s ← visit_pat visitor p env s;
      s ← visit_ty visitor t env s;
      walk_expr_opt init env s
  end.

Definition walk_pat (pattern : Pat) (env : E) (s : St) : outcome St :=
  match pat_node pattern with
  | PatEnum _ children =>
      match children with
      | Some children => for_each (λ c, visit_pat visitor c env) children s
      | None => Ok s
      end
  | PatStruct _ fields _ => for_each (λ f, visit_pat visitor (field_pat f) env) fields s
  | PatTup tuple_elements => for_each (λ t, visit_pat visitor t env) tuple_elements s
  | PatUniq subpattern | PatRegion subpattern => visit_pat visitor subpattern env s
  | PatIdent _ _ optional_subpattern =>
      match optional_subpattern with
      | None => Ok s
      | Some subpattern => visit_pat visitor subpattern env s
      end
  | PatLit expression => visit_expr visitor expression env s
  | PatRange lower_bound upper_bound =>
      s ← visit_expr visitor lower_bound env s; visit_expr visitor upper_bound env s
  | PatWild | PatWildMulti => Ok s
  | PatVec prepattern slice_pattern postpatterns =>
      s ← for_each (λ p, visit_pat visitor p env) prepattern s;
      s ← match slice_pattern with Some p => visit_pat visitor p env s | None => Ok s end;
      for_each (λ p, visit_pat visitor p env) postpatterns s
  end.

Definition walk_block (block : Block) (env : E) (s : St) : outcome St :=
  s ← for_each (λ st, visit_stmt visitor st env) (block_stmts block) s;
  walk_expr_opt (block_expr block) env s.

Definition walk_stmt (statement : Stmt) (env : E) (s : St) : outcome St :=
  match statement with
  | StmtDecl declaration _ => visit_decl visitor declaration env s
  | StmtExpr expression _ | StmtSemi expression _ => visit_expr visitor expression env s
  | StmtMac => Ok s
  end.

Definition walk_decl (declaration : Decl) (env : E) (s : St) : outcome St :=
  match declaration with
  | DeclLocal local => visit_local visitor local env s
  | DeclItem item => visit_item visitor item env s
  end.

Definition walk_fn_decl (function_declaration : FnDecl) (env : E) (s : St) : outcome St :=
  s ← for_each (λ argument s,
        s ← visit_pat visitor (arg_pat argument) env s;
        visit_ty visitor (arg_ty argument) env s) (fn_inputs function_declaration) s;
  visit_ty visitor (fn_output function_declaration) env s.

Definition walk_fn (function_declaration : FnDecl) (function_body : Block) (env : E) (s : St)
    : outcome St :=
  s ← walk_fn_decl function_declaration env s;
  visit_block visitor function_body env s.

Definition walk_arm (arm : Arm) (env : E) (s : St) : outcome St :=
  s ← for_each (λ p, visit_pat visitor p env) (arm_pats arm) s;
  s ← walk_expr_opt (arm_guard arm) env s;
  visit_expr visitor (arm_body arm) env s.

Definition walk_expr (expression : Expr) (env : E) (s : St) : outcome St :=
  let ve e s := visit_expr visitor e env s in
  s ← match expr_node expression with
      | ExprVstore_ subexpression _ => ve subexpression s
      | ExprBox place subexpression => s ← ve place s; ve subexpression s
      | ExprVec subexpressions => walk_exprs subexpressions env s
      | ExprRepeat element count => s ← ve element s; ve count s
      | ExprStruct _ fields optional_base =>
          s ← for_each (λ f, match f with mkField _ e => ve e end) fields s;
          walk_expr_opt optional_base env s
      | ExprTup subexpressions => for_each ve subexpressions s
      | ExprCall callee_expression arguments =>
          s ← for_each ve arguments s; ve callee_expression s
      | ExprMethodCall _ types arguments =>
          s ← walk_exprs arguments env s;
          for_each (λ t, visit_ty visitor t env) types s
      | ExprBinary _ left_expression right_expression =>
          s ← ve left_expression s; ve right_expression s
      | ExprAddrOf _ subexpression | ExprUnary _ subexpression => ve subexpression s
      | ExprLit _ => Ok s
      | ExprCast subexpression typ => s ← ve subexpression s; visit_ty visitor typ env s
      | ExprIf head_expression if_block optional_else =>
          s ← ve head_expression s;
          s ← visit_block visitor if_block env s;
          walk_expr_opt optional_else env s
      | ExprWhile subexpression block =>
          s ← ve subexpression s; visit_block visitor block env s
      | ExprForLoop pattern subexpression block _ =>
          s ← visit_pat visitor pattern env s;
          s ← ve subexpression s;
          visit_block visitor block env s
      | ExprLoop block _ => visit_block visitor block env s
      | ExprMatch subexpression arms =>
          s ← ve subexpression s;
          for_each (λ a, visit_arm visitor a env) arms s
      | ExprFnBlock function_declaration body | ExprProc function_declaration body =>
          visit_fn visitor function_declaration body (expr_id expression) env s
      | ExprBlock block => visit_block visitor block env s
      | ExprAssign left_hand_expression right_hand_expression =>
          s ← ve right_hand_expression s; ve left_hand_expression s
      | ExprAssignOp _ left_expression right_expression =>
          s ← ve right_expression s; ve left_expression s
      | ExprField subexpression _ types =>
          s ← ve subexpression s;
          for_each (λ t, visit_ty visitor t env) types s
      | ExprIndex main_expression index_expression =>
          s ← ve main_expression s; ve index_expression s
      | ExprPath _ => Ok s
      | ExprBreak _ | ExprAgain _ => Ok s
      | ExprRet optional_expression => walk_expr_opt optional_expression env s
      | ExprMac => Ok s
      | ExprParen subexpression => ve subexpression s
      | ExprInlineAsm inputs outputs =>
          s ← for_each ve inputs s; for_each ve outputs s
      end;
  visit_expr_post visitor expression env s.
End walk.

(** The trait's default methods. *)
Definition default_visitor (self : Visitor) : Visitor :=
  mkVisitor (walk_local self) (walk_block self) (walk_stmt self) (walk_arm self) (walk_pat self)
    (walk_decl self) (walk_expr self) (λ _ _ s, Ok s) (λ fd b _, walk_fn self fd b)
    (λ _ _ s, Ok s) (λ _ _ s, Ok s).

Definition out_of_fuel : Visitor :=
  let f {A} := λ (_ : A) (_ : E) (_ : St), Fail OutOfFuel in
  mkVisitor f f f f f f f f (λ _ _, f) f f.

(** The visitor whose methods are [methods self], unrolled to a depth that
    bounds the height of the tree. *)
Fixpoint tie (fuel : nat) (methods : Visitor → Visitor) : Visitor :=
  match fuel with
  | 0 => out_of_fuel
  | S fuel' => methods (tie fuel' methods)
  end.
End visit.
Arguments Visitor : clear implicits.
