(* ===== verification/Graph.v ===== *)
(** The graph of [src/librustc/middle/graph.rs]: nodes and edges in two
    vectors, with the edges threaded on one linked list per node and direction
    through [first_edge] and [next_edge]. *)

From stdpp Require Import prelude list.
From S2P Require Import Prelude.

(** [NodeIndex(uint)] and [EdgeIndex(uint)]. *)
Abbreviation NodeIndex := N (only parsing).
Abbreviation EdgeIndex := N (only parsing).
Definition InvalidEdgeIndex : EdgeIndex := UINT_MAX.

(** [Direction { repr }]: only the statics [Outgoing] (0) and [Incoming] (1)
    exist, the field is private. *)
Inductive Direction := Outgoing | Incoming.

(** The arrays [\[EdgeIndex, ..2\]], indexed by [Direction::repr]. *)
Record by_direction := mk_by_direction { at_outgoing : EdgeIndex; at_incoming : EdgeIndex }.

Definition dir_get (a : by_direction) (dir : Direction) : EdgeIndex :=
  match dir with Outgoing => at_outgoing a | Incoming => at_incoming a end.

Definition dir_set (a : by_direction) (dir : Direction) (i : EdgeIndex) : by_direction :=
  match dir with
  | Outgoing => mk_by_direction i (at_incoming a)
  | Incoming => mk_by_direction (at_outgoing a) i
  end.

Record Node (ND : Type) := mkNode { first_edge : by_direction; node_payload : ND }.
Arguments mkNode {ND} _ _.
Arguments first_edge {ND} _.
Arguments node_payload {ND} _.

Record Edge (ED : Type) :=
  mkEdge { next_edge : by_direction; source : NodeIndex; target : NodeIndex; edge_payload : ED }.
Arguments mkEdge {ED} _ _ _ _.
Arguments next_edge {ED} _.
Arguments source {ED} _.
Arguments target {ED} _.
Arguments edge_payload {ED} _.

Record Graph (ND ED : Type) := mkGraph { nodes : list (Node ND); edges : list (Edge ED) }.
Arguments mkGraph {ND ED} _ _.
Arguments nodes {ND ED} _.
Arguments edges {ND ED} _.

Section graph.
Context {ND ED : Type}.
Implicit Types (g : Graph ND ED) (n : NodeIndex) (i : EdgeIndex).

(** ** Operations *)

Definition new : Graph ND ED := mkGraph [] [].

Definition next_node_index g : NodeIndex := N.of_nat (length (nodes g)).

Definition add_node g (data : ND) : Graph ND ED * NodeIndex :=
  let idx := next_node_index g in
  (mkGraph (nodes g ++ [mkNode (mk_by_direction InvalidEdgeIndex InvalidEdgeIndex) data])
           (edges g),
   idx).

Definition node g n : outcome (Node ND) := vec_get (nodes g) (N.to_nat n).

Definition node_data g n : outcome ND := node_payload <$> vec_get (nodes g) (N.to_nat n).

(** The graph after a write through the reference [mut_node_data] returns. *)
Definition mut_node_data g n (upd : ND → ND) : outcome (Graph ND ED) :=
  nd ← vec_get (nodes g) (N.to_nat n);
  ns ← vec_set (nodes g) (N.to_nat n) (mkNode (first_edge nd) (upd (node_payload nd)));
  Ok (mkGraph ns (edges g)).

Definition next_edge_index g : EdgeIndex := N.of_nat (length (edges g)).

(** [self.nodes.get_mut(n).first_edge\[dir\] = idx]. *)
Definition set_first (ns : list (Node ND)) n dir (idx : EdgeIndex) : outcome (list (Node ND)) :=
  nd ← vec_get ns (N.to_nat n);
  vec_set ns (N.to_nat n) (mkNode (dir_set (first_edge nd) dir idx) (node_payload nd)).

Definition add_edge g (src tgt : NodeIndex) (data : ED) : outcome (Graph ND ED * EdgeIndex) :=
  let idx := next_edge_index g in
  (* read current first of the list of edges from each node *)
  s ← vec_get (nodes g) (N.to_nat src);
  let source_first := dir_get (first_edge s) Outgoing in
  t ← vec_get (nodes g) (N.to_nat tgt);
  let target_first := dir_get (first_edge t) Incoming in
  (* create the new edge, with the previous firsts as the next pointers *)
  let es := edges g ++ [mkEdge (mk_by_direction source_first target_first) src tgt data] in
  (* adjust the firsts for each node *)
  ns ← set_first (nodes g) src Outgoing idx;
  ns ← set_first ns tgt Incoming idx;
  Ok (mkGraph ns es, idx).

Definition edge g i : outcome (Edge ED) := vec_get (edges g) (N.to_nat i).

Definition edge_data g i : outcome ED := edge_payload <$> vec_get (edges g) (N.to_nat i).

Definition mut_edge_data g i (upd : ED → ED) : outcome (Graph ND ED) :=
  e ← vec_get (edges g) (N.to_nat i);
  es ← vec_set (edges g) (N.to_nat i)
         (mkEdge (next_edge e) (source e) (target e) (upd (edge_payload e)));
  Ok (mkGraph (nodes g) es).

Definition first_adjacent g n dir : outcome EdgeIndex :=
  nd ← vec_get (nodes g) (N.to_nat n);
  Ok (dir_get (first_edge nd) dir).

Definition next_adjacent g i dir : outcome EdgeIndex :=
  e ← vec_get (edges g) (N.to_nat i);
  Ok (dir_get (next_edge e) dir).

Section iteration.
Context {S : Type}.

Definition each_node g (f : NodeIndex → Node ND → S → outcome (S * bool)) (s : S)
    : outcome (S * bool) :=
  advance (λ '(i, nd), f (N.of_nat i) nd) (imap pair (nodes g)) s.

Definition each_edge g (f : EdgeIndex → Edge ED → S → outcome (S * bool)) (s : S)
    : outcome (S * bool) :=
  advance (λ '(i, e), f (N.of_nat i) e) (imap pair (edges g)) s.

(** [while edge_idx != InvalidEdgeIndex { .. }]. *)
Fixpoint each_adjacent_loop (fuel : nat) g dir
    (f : EdgeIndex → Edge ED → S → outcome (S * bool)) (edge_idx : EdgeIndex) (s : S)
    : outcome (S * bool) :=
  if (edge_idx =? InvalidEdgeIndex)%N then Ok (s, true) else
  match fuel with
  | 0 => Fail OutOfFuel
  | Datatypes.S fuel' =>
      e ← vec_get (edges g) (N.to_nat edge_idx);
      r ← f edge_idx e s;
      if (r.2 : bool)
      then each_adjacent_loop fuel' g dir f (dir_get (next_edge e) dir) r.1
      else Ok (r.1, false)
  end.

Definition each_adjacent_edge g n dir
    (f : EdgeIndex → Edge ED → S → outcome (S * bool)) (s : S) : outcome (S * bool) :=
  edge_idx ← first_adjacent g n dir;
  each_adjacent_loop (length (edges g)) g dir f edge_idx s.

Definition each_outgoing_edge g (src : NodeIndex) f (s : S) : outcome (S * bool) :=
  each_adjacent_edge g src Outgoing f s.

Definition each_incoming_edge g (tgt : NodeIndex) f (s : S) : outcome (S * bool) :=
  each_adjacent_edge g tgt Incoming f s.

Definition iterate_until_fixed_point (fuel : nat) g
    (op : N → EdgeIndex → Edge ED → S → outcome (S * bool)) (s : S) : outcome S :=
  fixed_point_loop fuel
    (λ iteration s,
       sweep (λ '(i, e), op iteration (N.of_nat i) e) (imap pair (edges g)) s false)
    0%N s.
End iteration.
End graph.

(** [while i < n { if !f(EdgeIndex(i)) { return; } i += 1; }]. *)
Definition each_edge_index {S} (max_edge_index : EdgeIndex)
    (f : EdgeIndex → S → outcome (S * bool)) (s : S) : outcome S :=
  fst <$> advance (λ i, f (N.of_nat i)) (seq 0 (N.to_nat max_edge_index)) s.

(** ** Specification: the edges adjacent to a node, newest first *)

Definition endpoint {ED} (dir : Direction) (e : Edge ED) : NodeIndex :=
  match dir with Outgoing => source e | Incoming => target e end.

(** Among the first [k] edges, those that leave (enter) [n]. *)
Fixpoint adjacent_below {ED} (es : list (Edge ED)) (dir : Direction) (n : NodeIndex) (k : nat)
    : list (nat * Edge ED) :=
  match k with
  | 0 => []
  | S k' =>
      match es !! k' with
      | Some e =>
          if (endpoint dir e =? n)%N then (k', e) :: adjacent_below es dir n k'
          else adjacent_below es dir n k'
      | None => adjacent_below es dir n k'
      end
  end.

Definition adjacent {ND ED} (g : Graph ND ED) (dir : Direction) (n : NodeIndex) :=
  adjacent_below (edges g) dir n (length (edges g)).

(** The index stored for a list of edges: its head, or the invalid index. *)
Definition head_index {ED} (l : list (nat * Edge ED)) : EdgeIndex :=
  match l with [] => InvalidEdgeIndex | (i, _) :: _ => N.of_nat i end.

(** The two linked lists of every node thread exactly its adjacent edges. *)
Record graph_wf {ND ED} (g : Graph ND ED) : Prop := {
  wf_capacity : (N.of_nat (length (edges g)) ≤ UINT_MAX)%N;
  wf_ends : ∀ i e dir, edges g !! i = Some e →
    N.to_nat (endpoint dir e) < length (nodes g);
  wf_first : ∀ n nd dir, nodes g !! N.to_nat n = Some nd →
    dir_get (first_edge nd) dir = head_index (adjacent g dir n);
  wf_next : ∀ i e dir, edges g !! i = Some e →
    dir_get (next_edge e) dir = head_index (adjacent_below (edges g) dir (endpoint dir e) i)
}.

(** ** Lemmas *)

Section adjacency.
Context {ED : Type}.
Implicit Types (es : list (Edge ED)).

Lemma adjacent_below_app es es' dir n k :
  k ≤ length es → adjacent_below (es ++ es') dir n k = adjacent_below es dir n k.
Proof.
  induction k as [|k IH]; simpl; [done|]. intros.
  rewrite lookup_app_l by lia. by rewrite IH by lia.
Qed.

Lemma adjacent_below_lt es dir n k i e :
  (i, e) ∈ adjacent_below es dir n k → i < k ∧ es !! i = Some e ∧ endpoint dir e = n.
Proof.
  induction k as [|k IH]; simpl; [by intros []%elem_of_nil|].
  destruct (es !! k) as [e'|] eqn:E; [|intros ?%IH; naive_solver lia].
  destruct (N.eqb_spec (endpoint dir e') n).
  - intros [[= -> ->]|?%IH]%elem_of_cons; naive_solver lia.
  - intros ?%IH; naive_solver lia.
Qed.

Lemma adjacent_below_complete es dir n k i e :
  i < k → es !! i = Some e → endpoint dir e = n → (i, e) ∈ adjacent_below es dir n k.
Proof.
  induction k as [|k IH]; [lia|]. intros Hi He Hn. simpl.
  destruct (decide (i = k)) as [->|].
  - rewrite He, Hn, N.eqb_refl. left.
  - assert (i < k) by lia. destruct (es !! k); [destruct (_ =? _)%N|]; try right; auto.
Qed.

(** What follows an edge on its list is the adjacency list below it. *)
Lemma adjacent_below_cons es dir n k i e l :
  adjacent_below es dir n k = (i, e) :: l → l = adjacent_below es dir n i.
Proof.
  induction k as [|k IH]; simpl; [done|].
  destruct (es !! k); [|auto]. destruct (_ =? _)%N; [|auto]. naive_solver.
Qed.

Lemma adjacent_below_length es dir n k : length (adjacent_below es dir n k) ≤ k.
Proof.
  induction k as [|k IH]; simpl; [done|].
  destruct (es !! k); [destruct (_ =? _)%N|]; simpl; lia.
Qed.
End adjacency.

Lemma head_index_app {ED} (es : list (Edge ED)) es' dir n k :
  k ≤ length es →
  head_index (adjacent_below (es ++ es') dir n k) = head_index (adjacent_below es dir n k).
Proof. intros. by rewrite adjacent_below_app. Qed.

Lemma dir_get_set a dir dir' i :
  dir_get (dir_set a dir i) dir' =
    match dir, dir' with
    | Outgoing, Outgoing | Incoming, Incoming => i
    | _, _ => dir_get a dir'
    end.
Proof. by destruct dir, dir'. Qed.

Section graph_theorems.
Context {ND ED : Type}.
Implicit Types (g : Graph ND ED).

Lemma set_first_Ok ns n dir idx :
  N.to_nat n < length ns →
  ∃ nd : Node ND, ns !! N.to_nat n = Some nd ∧
    set_first ns n dir idx =
      Ok (<[N.to_nat n := mkNode (dir_set (first_edge nd) dir idx) (node_payload nd)]> ns).
Proof.
  intros [nd Hnd]%lookup_lt_is_Some_2. exists nd. split; [done|].
  unfold set_first, vec_get. rewrite Hnd. simpl.
  apply vec_set_in. by eapply lookup_lt_Some.
Qed.

(** [add_edge] does not fail on nodes of the graph; it appends the edge and
    puts it in front of the two lists it belongs to. *)
Lemma add_edge_Ok g src tgt data :
  N.to_nat src < length (nodes g) → N.to_nat tgt < length (nodes g) →
  ∃ g' s t,
    nodes g !! N.to_nat src = Some s ∧ nodes g !! N.to_nat tgt = Some t ∧
    add_edge g src tgt data = Ok (g', next_edge_index g) ∧
    length (nodes g') = length (nodes g) ∧
    edges g' = edges g ++ [mkEdge (mk_by_direction (dir_get (first_edge s) Outgoing)
                                     (dir_get (first_edge t) Incoming)) src tgt data] ∧
    (∀ i nd', nodes g' !! i = Some nd' →
       ∃ nd, nodes g !! i = Some nd ∧ node_payload nd' = node_payload nd ∧
         ∀ dir, dir_get (first_edge nd') dir =
           if decide (i = N.to_nat (match dir with Outgoing => src | Incoming => tgt end))
           then next_edge_index g else dir_get (first_edge nd) dir).
Proof.
  intros Hs Ht.
  destruct (set_first_Ok (nodes g) src Outgoing (next_edge_index g) Hs) as (s & Es & Ss).
  set (ns := <[_ := _]> _) in Ss.
  destruct (set_first_Ok ns tgt Incoming (next_edge_index g)) as (t' & Et' & St).
  { unfold ns. by rewrite length_insert. }
  destruct (lookup_lt_is_Some_2 _ _ Ht) as [t Et].
  eexists _, s, t. split_and!; [done|done| | | |].
  - unfold add_edge, vec_get. rewrite Es, Et. simpl. rewrite Ss. simpl. rewrite St. done.
  - simpl. unfold ns. by rewrite !length_insert.
  - done.
  - simpl. intros i nd' Hi. unfold ns in *.
    destruct (decide (i = N.to_nat tgt)) as [->|Hit].
    + rewrite list_lookup_insert_eq in Hi by by rewrite length_insert.
      injection Hi as <-. exists t. split; [done|].
      destruct (decide (N.to_nat src = N.to_nat tgt)) as [Heq|].
      * rewrite Heq in Et'. rewrite list_lookup_insert_eq in Et' by done.
        injection Et' as <-. rewrite Heq in Es. simplify_eq. split; [done|].
        intros []; simpl; rewrite ?decide_True by done; done.
      * rewrite list_lookup_insert_ne in Et' by done. simplify_eq. split; [done|].
        intros []; simpl; [by rewrite decide_False by done|by rewrite decide_True by done].
    + rewrite list_lookup_insert_ne in Hi by done.
      destruct (decide (i = N.to_nat src)) as [->|].
      * rewrite list_lookup_insert_eq in Hi by done. simplify_eq. exists s. split; [done|].
        split; [done|].
        intros []; simpl; [by rewrite decide_True by done|by rewrite decide_False by done].
      * rewrite list_lookup_insert_ne in Hi by done. exists nd'. split; [done|].
        split; [done|]. intros []; by rewrite decide_False.
Qed.

Lemma adjacent_snoc g g' e dir n :
  edges g' = edges g ++ [e] →
  adjacent g' dir n =
    (if (endpoint dir e =? n)%N then [(length (edges g), e)] else []) ++ adjacent g dir n.
Proof.
  intros He. unfold adjacent. rewrite He, length_app, Nat.add_comm. simpl.
  rewrite lookup_app_r, Nat.sub_diag by lia. simpl.
  rewrite adjacent_below_app by lia. by destruct (_ =? _)%N.
Qed.

Lemma new_wf : graph_wf (@new ND ED).
Proof. split; simpl; [done|by intros ? ? ? ?..]. Qed.

Lemma add_node_wf g data : graph_wf g → graph_wf (add_node g data).1.
Proof.
  intros [Hc He Hf Hn]. split; simpl; [done| | |done].
  - intros i e dir Hi. rewrite length_app. specialize (He i e dir Hi). lia.
  - intros n nd dir. rewrite lookup_app_Some. intros [?|[Hge Hnd]]; [by apply Hf|].
    apply list_lookup_singleton_Some in Hnd as [? <-]. unfold adjacent. simpl.
    destruct (adjacent_below _ _ _ _) as [|[i e] l] eqn:E; [by destruct dir|].
    assert ((i, e) ∈ adjacent_below (edges g) dir n (length (edges g))) as Hin
      by (rewrite E; left).
    apply adjacent_below_lt in Hin as (_ & Hi & <-). specialize (He i e dir Hi). lia.
Qed.

Lemma add_edge_wf g src tgt data :
  graph_wf g → N.to_nat src < length (nodes g) → N.to_nat tgt < length (nodes g) →
  (N.of_nat (length (edges g)) < UINT_MAX)%N →
  ∃ g', add_edge g src tgt data = Ok (g', next_edge_index g) ∧ graph_wf g'.
Proof.
  intros [Hc He Hf Hn] Hs Ht Hlt.
  destruct (add_edge_Ok g src tgt data Hs Ht) as (g' & s & t & Es & Et & Ha & Hlen & Hes & Hns).
  set (e := mkEdge _ _ _ _) in Hes.
  exists g'. split; [done|]. split.
  - rewrite Hes, length_app. simpl. lia.
  - intros i e' dir. rewrite Hes, Hlen, lookup_app_Some. intros [?|[? Hi]]; [eauto|].
    apply list_lookup_singleton_Some in Hi as [_ <-]. by destruct dir.
  - intros n nd' dir Hnd'. destruct (Hns _ _ Hnd') as (nd & Hnd & _ & ->).
    rewrite (adjacent_snoc g g' e) by done.
    assert ((endpoint dir e =? n)%N
      = bool_decide (N.to_nat n = N.to_nat (match dir with Outgoing => src | Incoming => tgt end)))
      as ->.
    { apply eq_bool_prop_intro. rewrite bool_decide_spec.
      unfold e. destruct dir; simpl; rewrite Is_true_true, N.eqb_eq; lia. }
    case_bool_decide; [by rewrite decide_True by done|].
    rewrite decide_False by done. by apply Hf.
  - intros i e' dir. rewrite Hes, lookup_app_Some. intros [Hi|[Hge Hi]].
    + rewrite head_index_app by (apply lookup_lt_Some in Hi; lia). by apply Hn.
    + apply list_lookup_singleton_Some in Hi as [Hi <-].
      assert (i = length (edges g)) as -> by lia.
      rewrite head_index_app by lia.
      destruct dir; [exact (Hf src s Outgoing Es)|exact (Hf tgt t Incoming Et)].
Qed.

Lemma head_index_ext (es es' : list (Edge ED)) dir n k :
  (∀ i, endpoint dir <$> es !! i = endpoint dir <$> es' !! i) →
  head_index (adjacent_below es dir n k) = head_index (adjacent_below es' dir n k).
Proof.
  intros Hext. induction k as [|k IH]; simpl; [done|]. specialize (Hext k).
  destruct (es !! k), (es' !! k); simplify_eq/=; [|done].
  rewrite Hext. by destruct (_ =? _)%N.
Qed.

Lemma mut_node_data_wf g n upd g' :
  graph_wf g → mut_node_data g n upd = Ok g' → graph_wf g' ∧ edges g' = edges g.
Proof.
  intros [Hc He Hf Hn] H. unfold mut_node_data in H. inv_ok H. subst. split; [|done].
  split; simpl; [done| | |done].
  - intros i e dir Hi. rewrite length_insert. eauto.
  - intros m nd dir. rewrite list_lookup_insert_Some.
    intros [(Hm & <- & _)|[? ?]]; [|by apply Hf]. rewrite Hm in *. simpl. by apply (Hf m).
Qed.

Lemma mut_edge_data_wf g i upd g' :
  graph_wf g → mut_edge_data g i upd = Ok g' →
  graph_wf g' ∧ length (edges g') = length (edges g).
Proof.
  intros [Hc He Hf Hn] H. unfold mut_edge_data in H. inv_ok H. subst. simpl.
  rewrite length_insert. split; [|done].
  set (es' := <[_ := _]> _).
  assert (Hold : ∀ j e', es' !! j = Some e' → ∃ e, edges g !! j = Some e ∧
            next_edge e' = next_edge e ∧ ∀ dir, endpoint dir e' = endpoint dir e).
  { intros j e'. unfold es'. rewrite list_lookup_insert_Some.
    intros [(<- & <- & _)|[_ ?]]; [|eauto]. exists a. split_and!; [done..|]. by intros []. }
  assert (Hext : ∀ dir j, endpoint dir <$> edges g !! j = endpoint dir <$> es' !! j).
  { intros dir j. destruct (es' !! j) as [e'|] eqn:E.
    - destruct (Hold _ _ E) as (e & -> & _ & Hd). simpl. by rewrite Hd.
    - apply lookup_ge_None in E. unfold es' in E. rewrite length_insert in E.
      apply lookup_ge_None in E. by rewrite E. }
  split; simpl.
  - unfold es'. by rewrite length_insert.
  - intros j e' dir (e & Hj & _ & ->)%Hold. eauto.
  - intros n nd dir Hnd. unfold adjacent. simpl. unfold es' at 2. rewrite length_insert.
    rewrite <- (head_index_ext (edges g)) by done. by apply Hf.
  - intros j e' dir (e & Hj & -> & ->)%Hold.
    rewrite <- (head_index_ext (edges g)) by done. by apply Hn.
Qed.

(** The operations a client of the graph can perform. *)
Inductive graph_op :=
  | OpAddNode (d : ND)
  | OpAddEdge (s t : NodeIndex) (d : ED)
  | OpMutNode (n : NodeIndex) (upd : ND → ND)
  | OpMutEdge (i : EdgeIndex) (upd : ED → ED).

Definition run_op g (o : graph_op) : outcome (Graph ND ED) :=
  match o with
  | OpAddNode d => Ok (add_node g d).1
  | OpAddEdge s t d => fst <$> add_edge g s t d
  | OpMutNode n upd => mut_node_data g n upd
  | OpMutEdge i upd => mut_edge_data g i upd
  end.

Fixpoint run_ops g (os : list graph_op) : outcome (Graph ND ED) :=
  match os with
  | [] => Ok g
  | o :: os' => g' ← run_op g o; run_ops g' os'
  end.

Lemma add_edge_inv g src tgt data r :
  add_edge g src tgt data = Ok r →
  N.to_nat src < length (nodes g) ∧ N.to_nat tgt < length (nodes g)
  ∧ length (edges r.1) = S (length (edges g)).
Proof.
  intros H. unfold add_edge in H. inv_ok H. subst. simpl. rewrite length_app. simpl.
  split_and!; [by eapply lookup_lt_Some..|lia].
Qed.

Lemma run_op_edges g o g' : run_op g o = Ok g' → length (edges g) ≤ length (edges g').
Proof.
  destruct o as [d|s t d|n upd|i upd]; simpl; intros H.
  - inv_ok H. by subst.
  - inv_ok H. subst. apply add_edge_inv in Ha as (_ & _ & ->). lia.
  - unfold mut_node_data in H. inv_ok H. by subst.
  - unfold mut_edge_data in H. inv_ok H. subst. simpl. by rewrite length_insert.
Qed.

Lemma run_op_wf g o g' :
  graph_wf g → run_op g o = Ok g' → (N.of_nat (length (edges g')) ≤ UINT_MAX)%N → graph_wf g'.
Proof.
  intros Hwf. destruct o as [d|s t d|n upd|i upd]; simpl; intros H Hc.
  - inv_ok H. subst. by apply add_node_wf.
  - inv_ok H. subst. pose proof Ha as (Hs & Ht & Hl)%add_edge_inv. rewrite Hl in Hc.
    destruct (add_edge_wf g s t d Hwf Hs Ht) as (g' & Ha' & ?); [lia|].
    rewrite Ha in Ha'. by injection Ha' as ->.
  - by apply mut_node_data_wf in H as [? _].
  - by apply mut_edge_data_wf in H as [? _].
Qed.

Lemma run_ops_edges g os g' : run_ops g os = Ok g' → length (edges g) ≤ length (edges g').
Proof.
  induction os as [|o os IH] in g |- *; simpl; intros H; [by inv_ok H; subst|].
  inv_ok H. apply run_op_edges in Ha. apply IH in H. lia.
Qed.

Lemma run_ops_wf_from os g0 g :
  graph_wf g0 → run_ops g0 os = Ok g → (N.of_nat (length (edges g)) ≤ UINT_MAX)%N → graph_wf g.
Proof.
  induction os as [|o os IH] in g0 |- *; intros Hwf H Hc; simpl in H; inv_ok H; [by subst|].
  apply (IH a); [|done..]. eapply run_op_wf; [done..|].
  apply run_ops_edges in H. lia.
Qed.

(** C27. Whatever sequence of operations builds a graph (nodes and edges added,
    data changed in place), the linked lists threaded through [first_edge] and
    [next_edge] are, for every node and direction, exactly the edges adjacent
    to that node, newest first, as long as the number of edges does not
    exceed [uint::MAX], the index that marks the end of a list. *)
Theorem run_ops_wf os g :
  run_ops new os = Ok g → (N.of_nat (length (edges g)) ≤ UINT_MAX)%N → graph_wf g.
Proof. apply run_ops_wf_from, new_wf. Qed.

Section visit.
Context {S : Type}.
Variable f : EdgeIndex → Edge ED → S → outcome (S * bool).

Lemma each_adjacent_loop_spec g dir n k fuel s :
  graph_wf g → k ≤ length (edges g) → length (adjacent_below (edges g) dir n k) ≤ fuel →
  each_adjacent_loop fuel g dir f (head_index (adjacent_below (edges g) dir n k)) s
  = advance (λ '(i, e), f (N.of_nat i) e) (adjacent_below (edges g) dir n k) s.
Proof.
  intros Hwf. induction fuel as [|fuel IH] in k, s |- *; intros Hk Hfuel;
    destruct (adjacent_below (edges g) dir n k) as [|[i e] l] eqn:E; simpl in Hfuel;
    [done|lia|done|].
  assert ((i, e) ∈ adjacent_below (edges g) dir n k) as Hin by (rewrite E; left).
  apply adjacent_below_lt in Hin as (Hik & Hi & <-).
  apply adjacent_below_cons in E as ->. simpl head_index. simpl advance.
  pose proof (wf_capacity g Hwf). apply lookup_lt_Some in Hi as Hlt.
  simpl. destruct (N.eqb_spec (N.of_nat i) InvalidEdgeIndex) as [Heq|_].
  { unfold InvalidEdgeIndex in Heq. lia. }
  unfold vec_get. rewrite Nat2N.id, Hi. simpl.
  destruct (f (N.of_nat i) e s) as [[s' []]|]; simpl; [|done..].
  rewrite (wf_next g Hwf i e dir Hi). apply IH; lia.
Qed.

Lemma each_adjacent_edge_advance g n dir s :
  graph_wf g → N.to_nat n < length (nodes g) →
  each_adjacent_edge g n dir f s
  = advance (λ '(i, e), f (N.of_nat i) e) (adjacent g dir n) s.
Proof.
  intros Hwf [nd Hnd]%lookup_lt_is_Some_2.
  unfold each_adjacent_edge, first_adjacent, vec_get. rewrite Hnd. simpl.
  rewrite (wf_first g Hwf n nd dir Hnd).
  apply each_adjacent_loop_spec; [done|lia|apply adjacent_below_length].
Qed.

Lemma each_adjacent_edge_inv (P : S → Prop) g n dir s s' b :
  (∀ i e s s' b, P s → f i e s = Ok (s', b) → P s') → P s →
  each_adjacent_edge g n dir f s = Ok (s', b) → P s'.
Proof.
  intros Hf HP H. unfold each_adjacent_edge in H. inv_ok H. clear Ha. revert HP H.
  generalize (length (edges g)) as fuel. intros fuel. revert a s.
  induction fuel as [|fuel IH]; intros i s HP; simpl; destruct (_ =? _)%N; [naive_solver..|].
  intros H. apply bind_Ok in H as (e & _ & H). apply bind_Ok in H as ([s1 b1] & Hf1 & H).
  apply Hf in Hf1; [|done]. simpl in H. destruct b1; [by eapply IH|naive_solver].
Qed.

(** Walking the linked list of a node visits exactly the edges adjacent to
    it in the given direction, newest first, stopping when the callback
    returns [false]; the loop always reaches the end of the list. *)
Theorem each_adjacent_edge_spec g n dir s :
  graph_wf g → N.to_nat n < length (nodes g) →
  each_adjacent_edge g n dir f s
  = advance (λ '(i, e), f (N.of_nat i) e) (adjacent g dir n) s.
Proof. apply each_adjacent_edge_advance. Qed.
End visit.

(** The adjacency list holds every edge with that end, and only those. *)
Lemma elem_of_adjacent g dir n i e :
  (i, e) ∈ adjacent g dir n ↔ edges g !! i = Some e ∧ endpoint dir e = n.
Proof.
  split; [by intros (_ & ? & ?)%adjacent_below_lt|].
  intros [Hi ?]. apply adjacent_below_complete; [by eapply lookup_lt_Some|done..].
Qed.

End graph_theorems.

(** ** Witnesses *)

Definition example_ops : list (@graph_op nat nat) :=
  [OpAddNode 10; OpAddNode 20; OpAddNode 30; OpAddEdge 0 1 5; OpAddEdge 1 2 6;
   OpAddEdge 0 2 7; OpMutEdge 1 S; OpMutNode 2 S; OpAddEdge 2 2 8].

Definition example_graph : Graph nat nat :=
  match run_ops new example_ops with Ok g => g | Fail _ => new end.

Lemma run_ops_wf_witness : graph_wf example_graph.
Proof. apply (run_ops_wf example_ops); vm_compute; congruence. Defined.

Lemma each_adjacent_edge_spec_witness :
  graph_wf example_graph ∧
  each_adjacent_edge example_graph 0 Outgoing (λ i _ s, Ok (i :: s, true)) []
  = advance (λ '(i, e), (λ j _ s, Ok (j :: s, true)) (N.of_nat i) e)
      (adjacent example_graph Outgoing 0) [].
Proof.
  assert (graph_wf example_graph) as Hwf.
  { apply (run_ops_wf_from example_ops new); [apply new_wf|vm_compute; congruence..]. }
  split; [done|].
  apply (each_adjacent_edge_spec (λ i _ s, Ok (i :: s, true)) example_graph 0 Outgoing []);
    [done|vm_compute; lia].
Defined.
