(* ===== verification/RegionMaps.v ===== *)
(** Regions ([src/librustc/middle/ty.rs]) and the region maps of
    [src/librustc/middle/region.rs]: the tree of scopes, the relation on free
    regions, and the subregion test built on both. *)

From stdpp Require Import prelude gmap list relations.
From S2P Require Import Prelude Ast.

(** ** Data *)

Inductive BoundRegion :=
  | BrAnon (idx : N)
  | BrNamed (did : DefId) (name : Name)
  | BrFresh (idx : N).

Record FreeRegion := mkFreeRegion { scope_id : NodeId; bound_region : BoundRegion }.

(** [RegionVid { id: uint }]. *)
Abbreviation RegionVid := nat (only parsing).

Inductive InferRegion :=
  | ReVar (vid : RegionVid)
  | ReSkolemized (idx : N) (br : BoundRegion).

Inductive Region :=
  | ReEarlyBound (param_id : NodeId) (index : N) (name : Name)
  | ReLateBound (binder_id : NodeId) (br : BoundRegion)
  | ReFree (fr : FreeRegion)
  | ReScope (id : NodeId)
  | ReStatic
  | ReInfer (ir : InferRegion)
  | ReEmpty.

#[export] Instance BoundRegion_eq_dec : EqDecision BoundRegion.
Proof. solve_decision. Defined.
#[export] Instance FreeRegion_eq_dec : EqDecision FreeRegion.
Proof. solve_decision. Defined.

#[export] Program Instance FreeRegion_countable : Countable FreeRegion :=
  inj_countable'
    (λ fr, (scope_id fr,
            match bound_region fr with
            | BrAnon i => inl i
            | BrNamed d n => inr (inl (krate d, def_node d, n))
            | BrFresh i => inr (inr i)
            end))
    (λ '(s, b), mkFreeRegion s
            match b with
            | inl i => BrAnon i
            | inr (inl (k, d, n)) => BrNamed (mkDefId k d) n
            | inr (inr i) => BrFresh i
            end) _.
Next Obligation. by intros [s [i|[k d] n|i]]. Qed.

(** [impl Eq for InferRegion] ignores the name of a skolemized region. *)
Definition infer_region_eqb (a b : InferRegion) : bool :=
  match a, b with
  | ReVar rva, ReVar rvb => bool_decide (rva = rvb)
  | ReSkolemized rva _, ReSkolemized rvb _ => (rva =? rvb)%N
  | _, _ => false
  end.

(** [#\[deriving(Eq)\]] on [Region]. *)
Definition region_eqb (a b : Region) : bool :=
  match a, b with
  | ReEarlyBound i1 x1 n1, ReEarlyBound i2 x2 n2 =>
      (i1 =? i2)%N && (x1 =? x2)%N && (n1 =? n2)%N
  | ReLateBound i1 b1, ReLateBound i2 b2 => (i1 =? i2)%N && bool_decide (b1 = b2)
  | ReFree f1, ReFree f2 => bool_decide (f1 = f2)
  | ReScope i1, ReScope i2 => (i1 =? i2)%N
  | ReStatic, ReStatic => true
  | ReInfer i1, ReInfer i2 => infer_region_eqb i1 i2
  | ReEmpty, ReEmpty => true
  | _, _ => false
  end.

(** [#\[deriving(TotalOrd)\]]. *)
Definition def_id_cmp (a b : DefId) : comparison :=
  then_cmp (krate a ?= krate b)%N (def_node a ?= def_node b)%N.

Definition bound_region_cmp (a b : BoundRegion) : comparison :=
  match a, b with
  | BrAnon i, BrAnon j => (i ?= j)%N
  | BrAnon _, _ => Lt
  | BrNamed _ _, BrAnon _ => Gt
  | BrNamed d n, BrNamed d' n' => then_cmp (def_id_cmp d d') (n ?= n')%N
  | BrNamed _ _, BrFresh _ => Lt
  | BrFresh i, BrFresh j => (i ?= j)%N
  | BrFresh _, _ => Gt
  end.

Definition free_region_cmp (a b : FreeRegion) : comparison :=
  then_cmp (scope_id a ?= scope_id b)%N (bound_region_cmp (bound_region a) (bound_region b)).

Record RegionMaps := mkRegionMaps {
  scope_map : gmap NodeId NodeId;
  var_map : gmap NodeId NodeId;
  free_region_map : gmap FreeRegion (list FreeRegion);
  rvalue_scopes : gmap NodeId NodeId;
  terminating_scopes : gset NodeId
}.

(** The maps [resolve_crate] starts from. *)
Definition empty_maps : RegionMaps := mkRegionMaps ∅ ∅ ∅ ∅ ∅.

(** ** Operations that record *)

Definition relate_free_regions (m : RegionMaps) (sub sup : FreeRegion) : RegionMaps :=
  let set_frm frm :=
    mkRegionMaps (scope_map m) (var_map m) frm (rvalue_scopes m) (terminating_scopes m) in
  match free_region_map m !! sub with
  | Some sups =>
      if existsb (λ x, bool_decide (x = sup)) sups then m
      else set_frm (<[sub := sups ++ [sup]]> (free_region_map m))
  | None => set_frm (<[sub := [sup]]> (free_region_map m))
  end.

Definition record_encl_scope (m : RegionMaps) (sub sup : NodeId) : outcome RegionMaps :=
  _ ← assert_ (negb (sub =? sup)%N);
  Ok (mkRegionMaps (<[sub := sup]> (scope_map m)) (var_map m) (free_region_map m)
        (rvalue_scopes m) (terminating_scopes m)).

Definition record_var_scope (m : RegionMaps) (var lifetime : NodeId) : outcome RegionMaps :=
  _ ← assert_ (negb (var =? lifetime)%N);
  Ok (mkRegionMaps (scope_map m) (<[var := lifetime]> (var_map m)) (free_region_map m)
        (rvalue_scopes m) (terminating_scopes m)).

Definition record_rvalue_scope (m : RegionMaps) (var lifetime : NodeId) : outcome RegionMaps :=
  _ ← assert_ (negb (var =? lifetime)%N);
  Ok (mkRegionMaps (scope_map m) (var_map m) (free_region_map m)
        (<[var := lifetime]> (rvalue_scopes m)) (terminating_scopes m)).

Definition mark_as_terminating_scope (m : RegionMaps) (id : NodeId) : RegionMaps :=
  mkRegionMaps (scope_map m) (var_map m) (free_region_map m) (rvalue_scopes m)
    ({[id]} ∪ terminating_scopes m).

(** ** Queries *)

Definition opt_encl_scope (m : RegionMaps) (id : NodeId) : option NodeId := scope_map m !! id.

Definition encl_scope (m : RegionMaps) (id : NodeId) : outcome NodeId :=
  match scope_map m !! id with Some r => Ok r | None => Fail ExplicitFail end.

Definition var_scope (m : RegionMaps) (var_id : NodeId) : outcome NodeId :=
  match var_map m !! var_id with Some r => Ok r | None => Fail ExplicitFail end.

Definition var_region (m : RegionMaps) (id : NodeId) : outcome Region :=
  s ← var_scope m id; Ok (ReScope s).

(** The loops over enclosing scopes run for at most one step per entry of the
    scope map, plus one. *)
Definition scope_fuel (m : RegionMaps) : nat := S (size (scope_map m)).

(** [while !terminating_scopes.contains(&id) { .. }]. *)
Fixpoint temporary_scope_loop (fuel : nat) (m : RegionMaps) (id : NodeId)
    : outcome (option NodeId) :=
  if decide (id ∈ terminating_scopes m) then Ok (Some id) else
  match fuel with
  | 0 => Fail OutOfFuel
  | S fuel' =>
      match opt_encl_scope m id with
      | Some p => temporary_scope_loop fuel' m p
      | None => Ok None
      end
  end.

Definition temporary_scope (m : RegionMaps) (expr_id : NodeId) : outcome (option NodeId) :=
  (* check for a designated rvalue scope *)
  match rvalue_scopes m !! expr_id with
  | Some s => Ok (Some s)
  | None =>
      (* else, locate the innermost terminating scope *)
      match opt_encl_scope m expr_id with
      | Some id => temporary_scope_loop (scope_fuel m) m id
      | None => Ok None
      end
  end.

(** [while superscope != s { .. }]. *)
Fixpoint is_subscope_of_loop (fuel : nat) (m : RegionMaps) (s superscope : NodeId)
    : outcome bool :=
  if (superscope =? s)%N then Ok true else
  match fuel with
  | 0 => Fail OutOfFuel
  | S fuel' =>
      match scope_map m !! s with
      | None => Ok false
      | Some scope => is_subscope_of_loop fuel' m scope superscope
      end
  end.

Definition is_subscope_of (m : RegionMaps) (subscope superscope : NodeId) : outcome bool :=
  is_subscope_of_loop (scope_fuel m) m subscope superscope.

Definition scopes_intersect (m : RegionMaps) (scope1 scope2 : NodeId) : outcome bool :=
  b ← is_subscope_of m scope1 scope2;
  if (b : bool) then Ok true else is_subscope_of m scope2 scope1.

(** [for parent in parents.iter() { .. }]: either the search is over, or the
    unseen parents are queued. *)
Fixpoint scan_parents (sup : FreeRegion) (parents queue : list FreeRegion)
    : bool * list FreeRegion :=
  match parents with
  | [] => (false, queue)
  | parent :: rest =>
      if decide (parent = sup) then (true, queue)
      else if existsb (λ x, bool_decide (x = parent)) queue
           then scan_parents sup rest queue
           else scan_parents sup rest (queue ++ [parent])
  end.

(** [while i < queue.len() { .. }]. *)
Fixpoint sub_free_region_loop (fuel : nat) (m : RegionMaps) (sup : FreeRegion)
    (queue : list FreeRegion) (i : nat) : outcome bool :=
  match queue !! i with
  | None => Ok false
  | Some fr =>
      match fuel with
      | 0 => Fail OutOfFuel
      | S fuel' =>
          match free_region_map m !! fr with
          | Some parents =>
              let r := scan_parents sup parents queue in
              if (r.1 : bool) then Ok true
              else sub_free_region_loop fuel' m sup r.2 (S i)
          | None => sub_free_region_loop fuel' m sup queue (S i)
          end
      end
  end.

(** Every region that can enter the queue, but the first. *)
Definition free_region_targets (m : RegionMaps) : list FreeRegion :=
  mjoin (map_to_list (free_region_map m)).*2.

Definition sub_free_region (m : RegionMaps) (sub sup : FreeRegion) : outcome bool :=
  if decide (sub = sup) then Ok true
  else sub_free_region_loop (S (length (free_region_targets m))) m sup [sub] 0.

Definition is_subregion_of (m : RegionMaps) (sub_region super_region : Region) : outcome bool :=
  if region_eqb sub_region super_region then Ok true else
  match sub_region, super_region with
  | _, ReStatic => Ok true
  | ReScope sub_scope, ReScope super_scope => is_subscope_of m sub_scope super_scope
  | ReScope sub_scope, ReFree fr => is_subscope_of m sub_scope (scope_id fr)
  | ReFree sub_fr, ReFree super_fr => sub_free_region m sub_fr super_fr
  | _, _ => Ok false
  end.

(** [ancestors_of]: [result] grows from the narrow to the broad. *)
Fixpoint ancestors_of_loop (fuel : nat) (m : RegionMaps) (scope : NodeId)
    (result : list NodeId) : outcome (list NodeId) :=
  match fuel with
  | 0 => Fail OutOfFuel
  | S fuel' =>
      match scope_map m !! scope with
      | None => Ok result
      | Some superscope => ancestors_of_loop fuel' m superscope (result ++ [superscope])
      end
  end.

Definition ancestors_of (m : RegionMaps) (scope : NodeId) : outcome (list NodeId) :=
  ancestors_of_loop (scope_fuel m) m scope [scope].

(** The [loop] of [nearest_common_ancestor], from the ends of the vectors. *)
Fixpoint nca_loop (fuel : nat) (scope_a scope_b : NodeId) (a_ancestors b_ancestors : list NodeId)
    (a_index b_index : nat) : outcome (option NodeId) :=
  match fuel with
  | 0 => Fail OutOfFuel
  | S fuel' =>
      if a_index =? 0 then Ok (Some scope_a) else
      if b_index =? 0 then Ok (Some scope_b) else
      let a_index := a_index - 1 in
      let b_index := b_index - 1 in
      x ← vec_get a_ancestors a_index;
      y ← vec_get b_ancestors b_index;
      if (x =? y)%N then nca_loop fuel' scope_a scope_b a_ancestors b_ancestors a_index b_index
      else z ← vec_get a_ancestors (a_index + 1); Ok (Some z)
  end.

Definition nearest_common_ancestor (m : RegionMaps) (scope_a scope_b : NodeId)
    : outcome (option NodeId) :=
  if (scope_a =? scope_b)%N then Ok (Some scope_a) else
  a_ancestors ← ancestors_of m scope_a;
  b_ancestors ← ancestors_of m scope_b;
  let a_index := length a_ancestors - 1 in
  let b_index := length b_ancestors - 1 in
  x ← vec_get a_ancestors a_index;
  y ← vec_get b_ancestors b_index;
  if (x =? y)%N
  then nca_loop (S (length a_ancestors)) scope_a scope_b a_ancestors b_ancestors a_index b_index
  else Ok None.

(** ** Specification of the scope tree *)

(** The scope map is a forest: following parents always ends. *)
Definition scopes_wf (m : RegionMaps) : Prop := ∀ s, ∃ l, chain (scope_map m) s l.

(** [a] is enclosed in [b] or equal to it. *)
Definition encloses (m : RegionMaps) (b a : NodeId) : Prop :=
  rtc (λ s p, scope_map m !! s = Some p) a b.

(** The declared relation on free regions. *)
Definition free_edge (m : RegionMaps) (a b : FreeRegion) : Prop :=
  ∃ sups, free_region_map m !! a = Some sups ∧ b ∈ sups.

(** What [is_subregion_of] decides. *)
Inductive subregion (m : RegionMaps) : Region → Region → Prop :=
  | sub_eq a b : region_eqb a b = true → subregion m a b
  | sub_static a : subregion m a ReStatic
  | sub_scope a b : encloses m b a → subregion m (ReScope a) (ReScope b)
  | sub_scope_free a fr : encloses m (scope_id fr) a → subregion m (ReScope a) (ReFree fr)
  | sub_free a b : rtc (free_edge m) a b → subregion m (ReFree a) (ReFree b).

(** Declared relations agree with the scopes of the regions. *)
Definition free_regions_wf (m : RegionMaps) : Prop :=
  ∀ a b, free_edge m a b → encloses m (scope_id b) (scope_id a).

(** ** Lemmas on scopes *)

Lemma encloses_chain m a b l :
  chain (scope_map m) a l → encloses m b a ↔ b ∈ l.
Proof. intros Hc. unfold encloses. by rewrite (chain_elem _ _ _ _ Hc). Qed.

#[export] Instance encloses_refl m : Reflexive (λ a b, encloses m b a).
Proof. intros ?. apply rtc_refl. Qed.
#[export] Instance encloses_trans m : Transitive (λ a b, encloses m b a).
Proof. intros ?????. unfold encloses in *. by etrans. Qed.

Lemma encloses_antisym m a b :
  scopes_wf m → encloses m a b → encloses m b a → a = b.
Proof.
  intros Hwf Hab Hba. destruct (Hwf a) as [la Ha], (Hwf b) as [lb Hb].
  pose proof Hab as Hin. rewrite (encloses_chain m b a lb Hb) in Hin.
  pose proof Hba as Hin'. rewrite (encloses_chain m a b la Ha) in Hin'.
  apply list_elem_of_lookup in Hin as [i Hi], Hin' as [j Hj].
  pose proof (chain_det _ _ _ _ Ha (chain_drop _ _ _ _ _ Hb Hi)) as Ea.
  pose proof (chain_det _ _ _ _ Hb (chain_drop _ _ _ _ _ Ha Hj)) as Eb.
  apply (f_equal length) in Ea, Eb. rewrite length_drop in Ea, Eb.
  apply lookup_lt_Some in Hi as ?, Hj as ?. assert (i = 0) as -> by lia.
  destruct (chain_hd _ _ _ Hb) as [? ->]. by simplify_eq/=.
Qed.

(** ** The loops follow the chain *)

Section scope_loops.
Context (m : RegionMaps).

Lemma ancestors_of_loop_spec fuel s l acc :
  chain (scope_map m) s l → length l ≤ fuel →
  ancestors_of_loop fuel m s (acc ++ [s]) = Ok (acc ++ l).
Proof.
  intros Hc. induction Hc as [s Hs|s p l Hs Hc IH] in fuel, acc |- *;
    destruct fuel as [|fuel]; simpl; intros; [lia| |lia|].
  - by rewrite Hs.
  - rewrite Hs, (IH fuel (acc ++ [s])) by lia. by rewrite <- (assoc_L (++)).
Qed.

Lemma ancestors_of_spec s l : chain (scope_map m) s l → ancestors_of m s = Ok l.
Proof.
  intros Hc. apply (ancestors_of_loop_spec _ s l []); [done|].
  unfold scope_fuel. by eapply chain_length.
Qed.

Lemma is_subscope_of_loop_spec fuel s l b :
  chain (scope_map m) s l → length l ≤ fuel →
  is_subscope_of_loop fuel m s b = Ok (bool_decide (b ∈ l)).
Proof.
  intros Hc. induction Hc as [s Hs|s p l Hs Hc IH] in fuel |- *;
    destruct fuel as [|fuel]; simpl; intros; [lia| |lia|];
    destruct (N.eqb_spec b s) as [->|Hne];
    try (rewrite bool_decide_eq_true_2 by set_solver; done); rewrite Hs.
  - rewrite bool_decide_eq_false_2 by set_solver. done.
  - rewrite IH by lia. do 2 f_equal. apply bool_decide_ext. set_solver.
Qed.

Lemma is_subscope_of_chain s l b :
  chain (scope_map m) s l → is_subscope_of m s b = Ok (bool_decide (b ∈ l)).
Proof. intros. apply is_subscope_of_loop_spec; [done|]. by eapply chain_length. Qed.

Lemma is_subscope_of_total s b :
  scopes_wf m → ∃ r, is_subscope_of m s b = Ok r ∧ (r = true ↔ encloses m b s).
Proof.
  intros Hwf. destruct (Hwf s) as [l Hc]. eexists.
  rewrite (is_subscope_of_chain s l b Hc), (encloses_chain m s b l Hc). split; [done|].
  by rewrite bool_decide_eq_true.
Qed.

Lemma temporary_scope_loop_spec fuel s l :
  chain (scope_map m) s l → length l ≤ fuel →
  temporary_scope_loop fuel m s
  = Ok (snd <$> list_find (λ i, i ∈ terminating_scopes m) l).
Proof.
  intros Hc. induction Hc as [s Hs|s p l Hs Hc IH] in fuel |- *;
    destruct fuel as [|fuel]; simpl; intros; [lia| |lia|];
    destruct (decide (s ∈ terminating_scopes m)); simpl; try done.
  - unfold opt_encl_scope. by rewrite Hs.
  - unfold opt_encl_scope. rewrite Hs, IH by lia. f_equal.
    by destruct (list_find _ l) as [[]|].
Qed.
End scope_loops.

(** ** Nearest common ancestors *)

Section nca.
Context (M : gmap NodeId NodeId) (a b : NodeId) (A B : list NodeId).
Hypothesis HA : chain M a A.
Hypothesis HB : chain M b B.

(** A scope on both chains has the same chain above it on both. *)
Lemma common_suffix c i j : A !! i = Some c → B !! j = Some c → drop i A = drop j B.
Proof.
  intros Hi Hj. eapply chain_det; [by eapply chain_drop; [apply HA|]|].
  by eapply chain_drop; [apply HB|].
Qed.

(** [c] is on both chains, and on either chain comes first among the scopes
    that are. *)
Definition is_nca (c : NodeId) : Prop :=
  c ∈ A ∧ c ∈ B ∧
  ∀ d, d ∈ A → d ∈ B → ∃ l, chain M c l ∧ d ∈ l.

Lemma is_nca_at i c :
  A !! i = Some c → c ∈ B →
  (∀ i' d, A !! i' = Some d → d ∈ B → i ≤ i') → is_nca c.
Proof.
  intros Hi HcB Hmin. split_and!; [by apply list_elem_of_lookup; eauto|done|].
  intros d [i' Hi']%list_elem_of_lookup HdB. exists (drop i A).
  split; [by eapply chain_drop|]. specialize (Hmin _ _ Hi' HdB).
  apply list_elem_of_lookup. exists (i' - i). rewrite lookup_drop. by rewrite Nat.add_sub_assoc, Nat.add_comm, Nat.add_sub by lia.
Qed.

Lemma nca_loop_spec fuel ai bi :
  ai < length A → ai < fuel → bi < length B → drop ai A = drop bi B →
  ∃ c, nca_loop fuel a b A B ai bi = Ok (Some c) ∧ is_nca c.
Proof.
  induction fuel as [|fuel IH] in ai, bi |- *; intros Hai Hf Hbi Hsuf; [lia|]. simpl.
  destruct (lookup_lt_is_Some_2 A ai Hai) as [x Hx].
  assert (B !! bi = Some x) as Hy.
  { replace bi with (bi + 0) by lia. rewrite <- lookup_drop, <- Hsuf, lookup_drop.
    by rewrite Nat.add_0_r. }
  destruct (chain_hd _ _ _ HA) as [A' EA], (chain_hd _ _ _ HB) as [B' EB].
  destruct (Nat.eqb_spec ai 0) as [->|Hai0].
  { exists a. split; [done|]. rewrite EA in Hx. injection Hx as <-.
    apply (is_nca_at 0); [by rewrite EA|by apply list_elem_of_lookup; eauto|lia]. }
  destruct (Nat.eqb_spec bi 0) as [->|Hbi0].
  { exists b. split; [done|]. rewrite EB in Hy. injection Hy as <-.
    apply (is_nca_at ai); [done|rewrite EB; left|].
    intros i' d Hi' [j Hj]%list_elem_of_lookup.
    pose proof (common_suffix _ _ _ Hi' Hj) as Hs.
    apply (f_equal length) in Hs, Hsuf. rewrite !length_drop in *.
    apply lookup_lt_Some in Hi' as ?, Hj as ?. lia. }
  destruct (lookup_lt_is_Some_2 A (ai - 1)) as [x' Hx']; [lia|].
  destruct (lookup_lt_is_Some_2 B (bi - 1)) as [y' Hy']; [lia|].
  rewrite (vec_get_Some _ _ _ Hx'), (vec_get_Some _ _ _ Hy'). simpl.
  destruct (N.eqb_spec x' y') as [->|Hne].
  - apply IH; [lia..|]. rewrite (drop_S _ _ _ Hx'), (drop_S _ _ _ Hy'). f_equal.
    by replace (S (ai - 1)) with ai by lia; replace (S (bi - 1)) with bi by lia.
  - replace (ai - 1 + 1) with ai by lia. rewrite (vec_get_Some _ _ _ Hx). simpl.
    exists x. split; [done|]. apply (is_nca_at ai); [done|by apply list_elem_of_lookup; eauto|].
    intros i' d Hi' [j Hj]%list_elem_of_lookup.
    destruct (decide (ai ≤ i')) as [|Hlt]; [done|]. exfalso. apply Hne.
    pose proof (common_suffix _ _ _ Hi' Hj) as Hs.
    pose proof (f_equal length Hs) as Hl. pose proof (f_equal length Hsuf) as Hl'.
    rewrite !length_drop in Hl, Hl'.
    apply lookup_lt_Some in Hi' as ?, Hj as ?.
    pose proof (f_equal (lookup (ai - 1 - i')) Hs) as Hk. rewrite !lookup_drop in Hk.
    replace (i' + (ai - 1 - i')) with (ai - 1) in Hk by lia.
    replace (j + (ai - 1 - i')) with (bi - 1) in Hk by lia. congruence.
Qed.

Lemma no_common_if_roots_differ x y :
  A !! (length A - 1) = Some x → B !! (length B - 1) = Some y → x ≠ y →
  ∀ c, c ∈ A → c ∈ B → False.
Proof.
  intros Hx Hy Hne c [i Hi]%list_elem_of_lookup [j Hj]%list_elem_of_lookup. apply Hne.
  pose proof (common_suffix _ _ _ Hi Hj) as Hs. pose proof (f_equal length Hs) as Hl.
  rewrite !length_drop in Hl. apply lookup_lt_Some in Hi as ?, Hj as ?.
  pose proof (f_equal (lookup (length A - 1 - i)) Hs) as Hk. rewrite !lookup_drop in Hk.
  replace (i + (length A - 1 - i)) with (length A - 1) in Hk by lia.
  replace (j + (length A - 1 - i)) with (length B - 1) in Hk by lia. congruence.
Qed.
End nca.

Lemma nearest_common_ancestor_ok m a b :
  scopes_wf m →
  ∃ r, nearest_common_ancestor m a b = Ok r ∧
    match r with
    | Some c => encloses m c a ∧ encloses m c b ∧
                ∀ d, encloses m d a → encloses m d b → encloses m d c
    | None => ∀ d, ¬ (encloses m d a ∧ encloses m d b)
    end.
Proof.
  intros Hwf. destruct (Hwf a) as [A HA], (Hwf b) as [B HB].
  unfold nearest_common_ancestor. destruct (N.eqb_spec a b) as [->|Hab].
  { exists (Some b). split; [done|]. split_and!; [apply rtc_refl..|]. auto. }
  rewrite (ancestors_of_spec m a A HA), (ancestors_of_spec m b B HB). simpl_ok.
  assert (length A ≠ 0 ∧ length B ≠ 0) as [HlA HlB].
  { by destruct (chain_hd _ _ _ HA) as [? ->], (chain_hd _ _ _ HB) as [? ->]. }
  destruct (lookup_lt_is_Some_2 A (length A - 1)) as [x Hx]; [lia|].
  destruct (lookup_lt_is_Some_2 B (length B - 1)) as [y Hy]; [lia|].
  rewrite (vec_get_Some _ _ _ Hx), (vec_get_Some _ _ _ Hy). simpl_ok.
  destruct (N.eqb_spec x y) as [->|Hne].
  - edestruct (nca_loop_spec _ a b A B HA HB (S (length A)) (length A - 1) (length B - 1))
      as (c & -> & HcA & HcB & Hmin); [lia..| |].
    { rewrite (drop_S _ _ _ Hx), (drop_S _ _ _ Hy). f_equal.
      rewrite !drop_ge by lia. done. }
    exists (Some c). split; [done|].
    split_and!; [by rewrite encloses_chain by done..|].
    intros d. rewrite (encloses_chain m a d A HA), (encloses_chain m b d B HB).
    intros HdA HdB. destruct (Hmin d HdA HdB) as (l & Hc & Hd).
    by rewrite (encloses_chain m c d l Hc).
  - exists None. split; [done|]. intros d.
    rewrite (encloses_chain m a d A HA), (encloses_chain m b d B HB). intros [HdA HdB].
    by eapply (no_common_if_roots_differ _ a b A B HA HB).
Qed.

(** ** The search over free regions *)

Lemma existsb_bool_decide {A} `{EqDecision A} (x : A) l :
  existsb (λ y, bool_decide (y = x)) l = bool_decide (x ∈ l).
Proof.
  apply eq_bool_prop_intro. rewrite bool_decide_spec, Is_true_true, existsb_exists.
  setoid_rewrite bool_decide_eq_true. setoid_rewrite <- list_elem_of_In. naive_solver.
Qed.

Lemma scan_parents_true sup parents queue :
  (scan_parents sup parents queue).1 = true ↔ sup ∈ parents.
Proof.
  induction parents as [|p ps IH] in queue |- *; simpl; [set_solver|].
  destruct (decide (p = sup)) as [->|]; [set_solver|].
  rewrite existsb_bool_decide. case_bool_decide; rewrite IH; set_solver.
Qed.

Lemma scan_parents_false sup parents queue :
  (scan_parents sup parents queue).1 = false →
  ∃ new, (scan_parents sup parents queue).2 = queue ++ new ∧
    (∀ x, x ∈ new → x ∈ parents ∧ x ≠ sup) ∧
    (∀ x, x ∈ parents → x ∈ queue ++ new) ∧
    (NoDup queue → NoDup (queue ++ new)).
Proof.
  induction parents as [|p ps IH] in queue |- *; simpl; intros Hr.
  { exists []. rewrite app_nil_r. split_and!; [done|set_solver..|done]. }
  destruct (decide (p = sup)) as [->|Hne]; [done|].
  rewrite existsb_bool_decide in *. case_bool_decide as Hin.
  - destruct (IH _ Hr) as (new & -> & H1 & H2 & H3). exists new. set_solver.
  - destruct (IH _ Hr) as (new & -> & H1 & H2 & H3). exists (p :: new).
    rewrite <- (assoc_L (++)) in *. simpl in *. split_and!; [done|set_solver..|].
    intros Hnd. apply H3. apply NoDup_app. split_and!; [done|set_solver|apply NoDup_singleton].
Qed.

Section free_search.
Context (m : RegionMaps) (sub sup : FreeRegion).

Record bfs_inv (queue : list FreeRegion) (i : nat) : Prop := {
  bfs_nodup : NoDup queue;
  bfs_start : sub ∈ queue;
  bfs_reach : ∀ x, x ∈ queue → rtc (free_edge m) sub x;
  bfs_avoid : sup ∉ queue;
  bfs_bound : ∀ x, x ∈ queue → x ∈ sub :: free_region_targets m;
  bfs_closed : ∀ j x y, j < i → queue !! j = Some x → free_edge m x y → y ∈ queue
}.

Lemma free_edge_target x y : free_edge m x y → y ∈ free_region_targets m.
Proof.
  intros (sups & Hl & Hy). unfold free_region_targets. apply list_elem_of_join.
  exists sups. split; [done|]. apply list_elem_of_fmap. exists (x, sups). split; [done|].
  by apply elem_of_map_to_list.
Qed.

Lemma bfs_length queue i : bfs_inv queue i → length queue ≤ S (length (free_region_targets m)).
Proof.
  intros []. change (length queue ≤ length (sub :: free_region_targets m)).
  by apply NoDup_incl_length; [apply NoDup_ListNoDup|
    intros x; rewrite <- !list_elem_of_In; auto].
Qed.

(** A set closed under the relation that holds [sub] and not [sup]. *)
Lemma closed_not_reached (queue : list FreeRegion) x :
  (∀ a b, a ∈ queue → free_edge m a b → b ∈ queue) →
  x ∈ queue → sup ∉ queue → ¬ rtc (free_edge m) x sup.
Proof.
  intros Hcl Hx Hns Hr. apply Hns. clear Hns.
  induction Hr as [|a b c Hab _ IH]; [done|]. eauto.
Qed.

Lemma bfs_scan queue i x parents :
  bfs_inv queue i → queue !! i = Some x → free_region_map m !! x = Some parents →
  (scan_parents sup parents queue).1 = false →
  bfs_inv (scan_parents sup parents queue).2 (S i).
Proof.
  intros [Hnd Hst Hre Hav Hbo Hcl] Hx Hp Hf.
  destruct (scan_parents_false _ _ _ Hf) as (new & -> & Hnew & Hall & Hndn).
  assert (Hedge : ∀ y, y ∈ new → free_edge m x y) by (intros y Hy; exists parents; naive_solver).
  assert (x ∈ queue) as Hxq by (apply list_elem_of_lookup; eauto).
  split; [auto|set_solver| | | |].
  - intros y [?|Hy]%elem_of_app; [auto|]. eapply rtc_r; [by apply Hre|auto].
  - set_solver.
  - intros y [?|Hy]%elem_of_app; [auto|]. right. by eapply free_edge_target, Hedge.
  - intros j x' y Hj Hx' Hxy.
    rewrite lookup_app_l in Hx' by (apply lookup_lt_Some in Hx; lia).
    destruct (decide (j = i)) as [->|].
    + simplify_eq. destruct Hxy as (ps & ? & Hy). simplify_eq. auto.
    + apply elem_of_app. left. eapply (Hcl j); [lia|done..].
Qed.

Lemma sub_free_region_loop_spec fuel queue i :
  bfs_inv queue i → S (length (free_region_targets m)) ≤ fuel + i →
  ∃ r, sub_free_region_loop fuel m sup queue i = Ok r ∧ (r = true ↔ rtc (free_edge m) sub sup).
Proof.
  induction fuel as [|fuel IH] in queue, i |- *; intros Hinv Hfuel; simpl;
    pose proof (bfs_length _ _ Hinv) as Hlen;
    destruct (queue !! i) as [x|] eqn:Hx.
  - apply lookup_lt_Some in Hx. lia.
  - exists false. split; [done|]. split; [done|]. intros Hr. exfalso. revert Hr.
    destruct Hinv. apply (closed_not_reached queue); [|done..].
    intros a b [j Hj]%list_elem_of_lookup. apply (bfs_closed0 j); [|done].
    apply lookup_lt_Some in Hj. apply lookup_ge_None in Hx. lia.
  - assert (x ∈ queue) as Hxq by (apply list_elem_of_lookup; eauto).
    destruct (free_region_map m !! x) as [parents|] eqn:Hp.
    + destruct (scan_parents sup parents queue).1 eqn:Hs.
      * exists true. split; [done|]. split; [intros _|done].
        apply scan_parents_true in Hs. eapply rtc_r; [by eapply bfs_reach|]. by exists parents.
      * apply IH; [by eapply bfs_scan|lia].
    + apply IH; [|lia]. destruct Hinv. split; [done..|].
      intros j x' y Hj Hx' Hxy. destruct (decide (j = i)) as [->|]; [|by eapply (bfs_closed0 j); [lia|..]].
      destruct Hxy as (? & ? & _). by simplify_eq.
  - exists false. split; [done|]. split; [done|]. intros Hr. exfalso. revert Hr.
    destruct Hinv. apply (closed_not_reached queue); [|done..].
    intros a b [j Hj]%list_elem_of_lookup. apply (bfs_closed0 j); [|done].
    apply lookup_lt_Some in Hj. apply lookup_ge_None in Hx. lia.
Qed.

Lemma sub_free_region_ok :
  ∃ r, sub_free_region m sub sup = Ok r ∧ (r = true ↔ rtc (free_edge m) sub sup).
Proof.
  unfold sub_free_region. case_decide as Hne.
  { subst. exists true. split; [done|]. split; [|done]. intros _. apply rtc_refl. }
  apply sub_free_region_loop_spec; [|lia]. split.
  - apply NoDup_singleton.
  - set_solver.
  - intros x ->%list_elem_of_singleton. apply rtc_refl.
  - set_solver.
  - set_solver.
  - lia.
Qed.
End free_search.

(** ** Equality of regions, and the subregion relation *)

Lemma region_eqb_inv a b :
  region_eqb a b = true →
  a = b ∨ ∃ i br br', a = ReInfer (ReSkolemized i br) ∧ b = ReInfer (ReSkolemized i br').
Proof.
  destruct a as [| | | | |[|]|], b as [| | | | |[|]|]; simpl; try done;
    rewrite ?andb_true_iff, ?bool_decide_eq_true, ?N.eqb_eq; naive_solver.
Qed.

Lemma region_eqb_refl a : region_eqb a a = true.
Proof.
  destruct a as [| | | | |[|]|]; simpl; rewrite ?N.eqb_refl; simpl;
    rewrite ?bool_decide_eq_true_2; done.
Qed.

Lemma region_eqb_sym a b : region_eqb a b = true → region_eqb b a = true.
Proof.
  intros [->|(i & br & br' & -> & ->)]%region_eqb_inv; [apply region_eqb_refl|].
  simpl. apply N.eqb_refl.
Qed.

Lemma region_eqb_trans a b c :
  region_eqb a b = true → region_eqb b c = true → region_eqb a c = true.
Proof.
  intros [->|(i & br & br' & -> & ->)]%region_eqb_inv; [done|].
  by destruct c as [| | | | |[|]|].
Qed.

Lemma region_eqb_free f a : region_eqb (ReFree f) a = true → a = ReFree f.
Proof. intros [<-|(? & ? & ? & ? & _)]%region_eqb_inv; done. Qed.

#[export] Instance subregion_refl m : Reflexive (subregion m).
Proof. intros a. constructor. apply region_eqb_refl. Qed.

Lemma free_rtc_scopes m a b :
  free_regions_wf m → rtc (free_edge m) a b → encloses m (scope_id b) (scope_id a).
Proof.
  intros Hwf. induction 1 as [|a b c Hab _ IH]; [apply rtc_refl|].
  unfold encloses in *. etrans; [by apply Hwf|done].
Qed.

Lemma subregion_trans m a b c :
  free_regions_wf m → subregion m a b → subregion m b c → subregion m a c.
Proof.
  intros Hwf Hab Hbc. destruct Hab as [a b Heq|a|a b Hs|a fr Hs|a b Hs].
  - apply region_eqb_inv in Heq as [->|(i & br & br' & -> & ->)]; [done|].
    inversion Hbc as [? ? Heq| | | |]; subst; [|apply sub_static].
    constructor. by destruct c as [| | | | |[|]|].
  - inversion Hbc as [? ? Heq| | | |]; subst; [|apply sub_static].
    destruct c; try discriminate Heq. apply sub_static.
  - inversion Hbc as [? ? Heq| |? ? Hs'|? ? Hs'|]; subst; [|apply sub_static| |].
    + apply region_eqb_inv in Heq as [<-|(? & ? & ? & ? & _)]; [by apply sub_scope|done].
    + apply sub_scope. unfold encloses in *. by etrans.
    + apply sub_scope_free. unfold encloses in *. by etrans.
  - inversion Hbc as [? ? Heq| | | |? ? Hs']; subst; [|apply sub_static|].
    + apply region_eqb_free in Heq as ->. by apply sub_scope_free.
    + apply sub_scope_free. apply (free_rtc_scopes m _ _ Hwf) in Hs'.
      unfold encloses in *. by etrans.
  - inversion Hbc as [? ? Heq| | | |? ? Hs']; subst; [|apply sub_static|].
    + apply region_eqb_free in Heq as ->. by apply sub_free.
    + apply sub_free. by etrans.
Qed.

Lemma subregion_false_inv m a b :
  region_eqb a b = false → subregion m a b →
  b = ReStatic ∨
  (∃ x y, a = ReScope x ∧ b = ReScope y ∧ encloses m y x) ∨
  (∃ x f, a = ReScope x ∧ b = ReFree f ∧ encloses m (scope_id f) x) ∨
  (∃ f f', a = ReFree f ∧ b = ReFree f' ∧ rtc (free_edge m) f f').
Proof. intros Hne. destruct 1; [congruence|naive_solver..]. Qed.

Lemma is_subregion_of_ok m a b :
  scopes_wf m → ∃ r, is_subregion_of m a b = Ok r ∧ (r = true ↔ subregion m a b).
Proof.
  intros Hwf. unfold is_subregion_of. destruct (region_eqb a b) eqn:Heq.
  { exists true. split; [done|]. split; [by constructor|done]. }
  assert (Hno : ∀ P : Prop, (subregion m a b → P) → (P → False) →
            ∃ r, Ok false = Ok r ∧ (r = true ↔ subregion m a b)).
  { intros P HP HnP. exists false. split; [done|]. split; [done|]. intros H. by destruct (HnP (HP H)). }
  pose proof (subregion_false_inv m a b Heq) as Hinv.
  destruct b as [| |fb|sb| | |];
    try (destruct a; apply (Hno _ Hinv); clear; naive_solver).
  - destruct a as [| |fa|sa| | |]; try (apply (Hno _ Hinv); clear; naive_solver).
    + destruct (sub_free_region_ok m fa fb) as (r & -> & Hr). exists r. split; [done|].
      rewrite Hr. split; [apply sub_free|]. clear -Hinv. naive_solver.
    + destruct (is_subscope_of_total m sa (scope_id fb) Hwf) as (r & -> & Hr).
      exists r. split; [done|]. rewrite Hr. split; [apply sub_scope_free|]. clear -Hinv. naive_solver.
  - destruct a as [| |fa|sa| | |]; try (apply (Hno _ Hinv); clear; naive_solver).
    destruct (is_subscope_of_total m sa sb Hwf) as (r & -> & Hr).
    exists r. split; [done|]. rewrite Hr. split; [apply sub_scope|]. clear -Hinv. naive_solver.
  - exists true. split; [by destruct a|]. split; [intros _; apply sub_static|done].
Qed.

Lemma is_subregion_of_true m a b :
  scopes_wf m → is_subregion_of m a b = Ok true ↔ subregion m a b.
Proof.
  intros Hwf. destruct (is_subregion_of_ok m a b Hwf) as (r & -> & Hr).
  rewrite <- Hr. naive_solver.
Qed.

(** ** Properties *)

(** On a forest of scopes, [nearest_common_ancestor] terminates; it returns
    the smallest scope that encloses both arguments, and [None] exactly when
    no scope encloses both. *)
Theorem nearest_common_ancestor_correct m a b :
  scopes_wf m →
  ∃ r, nearest_common_ancestor m a b = Ok r ∧
    match r with
    | Some c => encloses m c a ∧ encloses m c b ∧
                ∀ d, encloses m d a → encloses m d b → encloses m d c
    | None => ∀ d, ¬ (encloses m d a ∧ encloses m d b)
    end.
Proof. apply nearest_common_ancestor_ok. Qed.

(** On a forest of scopes [is_subregion_of] always returns an answer, and
    when the declared relations on free regions respect their scopes, the
    regions it relates form a preorder with ['static] on top: the test is
    reflexive and transitive. *)
Theorem is_subregion_of_preorder m :
  scopes_wf m → free_regions_wf m →
  (∀ a b, ∃ r, is_subregion_of m a b = Ok r) ∧
  (∀ a, is_subregion_of m a a = Ok true ∧ is_subregion_of m a ReStatic = Ok true) ∧
  (∀ a b c, is_subregion_of m a b = Ok true → is_subregion_of m b c = Ok true →
     is_subregion_of m a c = Ok true).
Proof.
  intros Hwf Hfr. split_and!.
  - intros a b. destruct (is_subregion_of_ok m a b Hwf) as (r & ? & _). eauto.
  - intros a. rewrite !is_subregion_of_true by done. split; [reflexivity|apply sub_static].
  - intros a b c. rewrite !is_subregion_of_true by done. by apply subregion_trans.
Qed.

Lemma record_encl_scope_Ok m sub sup m' :
  record_encl_scope m sub sup = Ok m' →
  sub ≠ sup ∧ scope_map m' = <[sub := sup]> (scope_map m).
Proof.
  unfold record_encl_scope. intros H. inv_ok H. subst. simpl.
  rewrite negb_true_iff, N.eqb_neq in Ha. done.
Qed.

Lemma rtc_insert (m : gmap NodeId NodeId) sub sup x :
  rtc (λ s p, m !! s = Some p) x sub →
  rtc (λ s p, <[sub := sup]> m !! s = Some p) x sub.
Proof.
  induction 1 as [|x y z Hxy _ IH]; [apply rtc_refl|].
  destruct (decide (x = z)) as [->|]; [apply rtc_refl|].
  eapply rtc_l; [|done]. by rewrite lookup_insert_ne by congruence.
Qed.

(** Recording an enclosing scope keeps the scope map a forest, and thereby
    every loop over enclosing scopes terminating, exactly when the child
    does not already enclose its new parent. *)
Theorem record_encl_scope_forest m sub sup m' :
  scopes_wf m → record_encl_scope m sub sup = Ok m' →
  scopes_wf m' ↔ ¬ encloses m sub sup.
Proof.
  intros Hwf [Hne Hm']%record_encl_scope_Ok. destruct (Hwf sup) as [lsup Hsup].
  rewrite (encloses_chain m sup sub lsup Hsup). split.
  - intros Hwf' Hin. destruct (Hwf' sub) as [l' Hl'].
    assert (encloses m' sup sub) as H1.
    { apply rtc_once. rewrite Hm'. apply lookup_insert_eq. }
    assert (encloses m' sub sup) as H2.
    { apply (encloses_chain m sup sub lsup Hsup) in Hin. unfold encloses in *. rewrite Hm'.
      by apply rtc_insert. }
    apply Hne. by apply (encloses_antisym m').
  - intros Hn s. destruct (Hwf s) as [l Hl]. rewrite Hm'. by eapply chain_insert.
Qed.

(** The scope of a temporary is its recorded rvalue scope if it has one, and
    otherwise the innermost terminating scope that strictly encloses the
    expression, if any; the search always ends. *)
Theorem temporary_scope_correct m e :
  scopes_wf m →
  ∃ r, temporary_scope m e = Ok r ∧
    match rvalue_scopes m !! e with
    | Some s => r = Some s
    | None => ∃ l, chain (scope_map m) e (e :: l) ∧
        match r with
        | Some s => ∃ l1 l2, l = l1 ++ s :: l2 ∧ s ∈ terminating_scopes m ∧
                      Forall (λ x, x ∉ terminating_scopes m) l1
        | None => Forall (λ x, x ∉ terminating_scopes m) l
        end
    end.
Proof.
  intros Hwf. unfold temporary_scope. destruct (rvalue_scopes m !! e) as [s|]; [eauto|].
  unfold opt_encl_scope. destruct (scope_map m !! e) as [p|] eqn:He.
  - destruct (Hwf p) as [l Hl]. rewrite (temporary_scope_loop_spec m _ p l Hl)
      by (by eapply chain_length).
    eexists. split; [done|]. exists l. split; [by econstructor|].
    destruct (list_find _ l) as [[i s]|] eqn:Hf; simpl.
    + apply list_find_Some in Hf as (Hi & Hs & Hbefore).
      exists (take i l), (drop (S i) l). split; [by rewrite take_drop_middle|].
      split; [done|]. apply Forall_lookup. intros j x [Hj Hlt]%lookup_take_Some. eauto.
    + by apply list_find_None in Hf.
  - exists None. split; [done|]. exists []. split; [by constructor|constructor].
Qed.

Lemma relate_free_regions_edge m sub sup a b :
  free_edge (relate_free_regions m sub sup) a b ↔ free_edge m a b ∨ (a = sub ∧ b = sup).
Proof.
  unfold relate_free_regions, free_edge.
  destruct (free_region_map m !! sub) as [sups|] eqn:Hs; simpl.
  - rewrite existsb_bool_decide. case_bool_decide as Hin; [naive_solver|]. simpl.
    destruct (decide (a = sub)) as [->|].
    + rewrite lookup_insert_eq, Hs. split.
      * intros (? & [= <-] & [?|?%list_elem_of_singleton]%elem_of_app); eauto.
      * intros [(? & [= <-] & ?)|[_ ->]]; (eexists; split; [done|]); set_solver.
    + rewrite lookup_insert_ne by done. naive_solver.
  - destruct (decide (a = sub)) as [->|].
    + rewrite lookup_insert_eq, Hs. split.
      * intros (? & [= <-] & ?%list_elem_of_singleton); eauto.
      * intros [(? & ? & _)|[_ ->]]; [done|]. eexists; split; [done|]. set_solver.
    + rewrite lookup_insert_ne by done. naive_solver.
Qed.

(** Declaring ['sub <= 'sup] adds exactly the relations that follow from it:
    afterwards the search relates two free regions iff it did before, or the
    first reached ['sub] and ['sup] reached the second. *)
Theorem relate_free_regions_correct m sub sup a b :
  sub_free_region (relate_free_regions m sub sup) a b = Ok true ↔
  sub_free_region m a b = Ok true ∨
  (sub_free_region m a sub = Ok true ∧ sub_free_region m sup b = Ok true).
Proof.
  assert (Hb : ∀ m a b, sub_free_region m a b = Ok true ↔ rtc (free_edge m) a b).
  { intros m0 x y. destruct (sub_free_region_ok m0 x y) as (r & -> & <-). naive_solver. }
  rewrite !Hb. split.
  - induction 1 as [|x y z Hxy _ IH]; [left; apply rtc_refl|].
    apply relate_free_regions_edge in Hxy as [Hxy|[-> ->]].
    + destruct IH as [IH|[IH1 IH2]]; [left|right; split; [|done]]; by eapply rtc_l.
    + right. split; [apply rtc_refl|]. destruct IH as [IH|[_ IH]]; done.
  - assert (Hmono : ∀ x y, rtc (free_edge m) x y →
              rtc (free_edge (relate_free_regions m sub sup)) x y).
    { intros x y. apply rtc_subrel. intros ???. apply relate_free_regions_edge. by left. }
    intros [H|[H1 H2]]; [by apply Hmono|]. etrans; [by apply Hmono|].
    eapply rtc_l; [|by apply Hmono]. apply relate_free_regions_edge. by right.
Qed.

(** ** Witnesses *)

(** A function body 1 with two statements 2 and 3, an expression 4 in the
    first, and two named lifetimes. *)
Definition fr_a : FreeRegion := mkFreeRegion 1 (BrNamed (mkDefId 0 7) 70).
Definition fr_b : FreeRegion := mkFreeRegion 1 (BrNamed (mkDefId 0 8) 80).

Definition example_maps : RegionMaps :=
  mkRegionMaps (<[2 := 1]> (<[3 := 1]> (<[4 := 2]> ∅)))%N ∅
    {[ fr_a := [fr_b] ]} ∅ {[ 1; 2; 3 ]}%N.

Lemma example_scopes_wf : scopes_wf example_maps.
Proof.
  intros s. destruct (decide (s = 2)%N) as [->|];
    [eexists; eapply chain_step; [done|by apply chain_root]|].
  destruct (decide (s = 3)%N) as [->|];
    [eexists; eapply chain_step; [done|by apply chain_root]|].
  destruct (decide (s = 4)%N) as [->|];
    [eexists; eapply chain_step; [done|]; eapply chain_step; [done|by apply chain_root]|].
  eexists. apply chain_root. simpl. by rewrite !lookup_insert_ne by done.
Qed.

Lemma example_free_wf : free_regions_wf example_maps.
Proof.
  intros a b (sups & Hl & Hb). simpl in Hl.
  apply lookup_singleton_Some in Hl as [<- <-]. apply list_elem_of_singleton in Hb as ->.
  apply rtc_refl.
Qed.

Lemma nearest_common_ancestor_correct_witness :
  scopes_wf example_maps ∧ nearest_common_ancestor example_maps 4 3 = Ok (Some 1%N) ∧
  (∀ d, encloses example_maps d 4 → encloses example_maps d 3 → encloses example_maps d 1).
Proof.
  split; [apply example_scopes_wf|]. split; [reflexivity|].
  destruct (nearest_common_ancestor_correct example_maps 4 3 example_scopes_wf)
    as (r & Hr & Hspec).
  assert (Ok r = Ok (Some 1%N)) as [= ->] by (rewrite <- Hr; reflexivity).
  apply Hspec.
Defined.

Lemma is_subregion_of_preorder_witness :
  scopes_wf example_maps ∧ free_regions_wf example_maps ∧
  is_subregion_of example_maps (ReScope 4) (ReFree fr_b) = Ok true.
Proof.
  split; [apply example_scopes_wf|]. split; [apply example_free_wf|].
  destruct (is_subregion_of_preorder example_maps example_scopes_wf example_free_wf)
    as (_ & _ & Htrans).
  apply (Htrans _ (ReFree fr_a)); reflexivity.
Defined.

Lemma record_encl_scope_forest_witness :
  ∃ m', record_encl_scope example_maps 5 4 = Ok m' ∧ scopes_wf m'.
Proof.
  eexists. split; [reflexivity|].
  eapply (record_encl_scope_forest example_maps 5 4); [apply example_scopes_wf|reflexivity|].
  intros Hc. destruct (is_subscope_of_total example_maps 4 5 example_scopes_wf) as (r & Hr & Hiff).
  assert (Ok r = Ok false) as [= ->] by (rewrite <- Hr; reflexivity). by apply Hiff in Hc.
Defined.

Lemma temporary_scope_correct_witness :
  scopes_wf example_maps ∧ temporary_scope example_maps 4 = Ok (Some 2%N) ∧
  ∃ r, temporary_scope example_maps 4 = Ok r.
Proof.
  split; [apply example_scopes_wf|]. split; [reflexivity|].
  destruct (temporary_scope_correct example_maps 4 example_scopes_wf) as (r & Hr & _).
  exists r. exact Hr.
Defined.
