(* ===== verification/RegionResolve.v ===== *)
(** The construction of the region maps in [src/librustc/middle/region.rs]: the
    visitor that records, for every node of a function, the scope that encloses
    it, the scope of its variables and temporaries, and the terminating scopes.
    Spans and [debug!] output are left out; items are resolved one function at
    a time, so an item nested in a body is not entered, and neither are the
    length expressions inside types. *)

From stdpp Require Import prelude gmap list.
From S2P Require Import Prelude Ast Visit RegionMaps.

Record Context := mkContext {
  var_parent : option NodeId;
  (** innermost enclosing expression *)
  parent : option NodeId
}.

(** [visit::FnKind], without the names and types it carries. *)
Inductive FnKind := FkItemFn | FkMethod | FkFnBlock.

Definition stmt_id (s : Stmt) : outcome NodeId :=
  match s with
  | StmtDecl _ id | StmtExpr _ id | StmtSemi _ id => Ok id
  | StmtMac => Fail ExplicitFail
  end.

Definition record_superlifetime (cx : Context) (child_id : NodeId) (m : RegionMaps) : outcome RegionMaps :=
  match parent cx with
  | Some parent_id => record_encl_scope m child_id parent_id
  | None => Ok m
  end.

Definition record_var_lifetime (cx : Context) (var_id : NodeId) (m : RegionMaps) : outcome RegionMaps :=
  match var_parent cx with
  | Some parent_id => record_var_scope m var_id parent_id
  | None => Ok m
  end.

(** The pattern matches [P&]. *)
Fixpoint is_binding_pat (pat : Pat) : bool :=
  match pat_node pat with
  | PatIdent (BindByRef _) _ _ => true
  | PatStruct _ field_pats _ => existsb (λ fp, is_binding_pat (field_pat fp)) field_pats
  | PatVec pats1 pats2 pats3 =>
      existsb is_binding_pat pats1
      || match pats2 with Some p => is_binding_pat p | None => false end
      || existsb is_binding_pat pats3
  | PatEnum _ (Some subpats) | PatTup subpats => existsb is_binding_pat subpats
  | PatUniq subpat => is_binding_pat subpat
  | _ => false
  end.

(** The scope of all expressions on the way down the grammar [ET]. *)
Fixpoint record_rvalue_scope_in (expr : Expr) (blk_id : NodeId) (m : RegionMaps) : outcome RegionMaps :=
  m ← record_rvalue_scope m (expr_id expr) blk_id;
  match expr_node expr with
  | ExprAddrOf _ subexpr | ExprUnary UnDeref subexpr | ExprField subexpr _ _ | ExprIndex subexpr _
  | ExprParen subexpr => record_rvalue_scope_in subexpr blk_id m
  | _ => Ok m
  end.

Fixpoint record_rvalue_scope_if_borrow_expr (expr : Expr) (blk_id : NodeId) (m : RegionMaps)
    : outcome RegionMaps :=
  match expr_node expr with
  | ExprAddrOf _ subexpr =>
      m ← record_rvalue_scope_if_borrow_expr subexpr blk_id m;
      record_rvalue_scope_in subexpr blk_id m
  | ExprStruct _ fields _ =>
      for_each (λ f, match f with mkField _ e => record_rvalue_scope_if_borrow_expr e blk_id end) fields m
  | ExprVstore_ subexpr _ =>
      m ← record_rvalue_scope m (expr_id subexpr) blk_id;
      record_rvalue_scope_if_borrow_expr subexpr blk_id m
  | ExprVec subexprs | ExprTup subexprs =>
      for_each (λ e, record_rvalue_scope_if_borrow_expr e blk_id) subexprs m
  | ExprUnary UnUniq subexpr => record_rvalue_scope_if_borrow_expr subexpr blk_id m
  | ExprCast subexpr _ | ExprParen subexpr => record_rvalue_scope_if_borrow_expr subexpr blk_id m
  | ExprBlock (mkBlock _ (Some subexpr) _) => record_rvalue_scope_if_borrow_expr subexpr blk_id m
  | _ => Ok m
  end.

Section resolve.
(** Whether a type is written [&T]. *)
Context (is_borrowed_ty : TyId → bool).

Section methods.
Context (visitor : Visitor Context RegionMaps).

Definition resolve_block (blk : Block) (cx : Context) (m : RegionMaps) : outcome RegionMaps :=
  m ← record_superlifetime cx (block_id blk) m;
  walk_block visitor blk (mkContext (Some (block_id blk)) (Some (block_id blk))) m.

Definition resolve_arm (arm : Arm) (cx : Context) (m : RegionMaps) : outcome RegionMaps :=
  let m := mark_as_terminating_scope m (expr_id (arm_body arm)) in
  let m := match arm_guard arm with
           | Some expr => mark_as_terminating_scope m (expr_id expr)
           | None => m
           end in
  walk_arm visitor arm cx m.

Definition resolve_pat (pat : Pat) (cx : Context) (m : RegionMaps) : outcome RegionMaps :=
  m ← record_superlifetime cx (pat_id pat) m;
  m ← match pat_node pat with
      | PatIdent _ _ _ => record_var_lifetime cx (pat_id pat) m
      | _ => Ok m
      end;
  walk_pat visitor pat cx m.

Definition resolve_stmt (stmt : Stmt) (cx : Context) (m : RegionMaps) : outcome RegionMaps :=
  stmt_id ← stmt_id stmt;
  let m := mark_as_terminating_scope m stmt_id in
  m ← record_superlifetime cx stmt_id m;
  walk_stmt visitor stmt (mkContext (var_parent cx) (Some stmt_id)) m.

(** The scopes an expression marks as terminating. *)
Definition mark_expr (expr : Expr) (m : RegionMaps) : RegionMaps :=
  match expr_node expr with
  | ExprBinary BiAnd _ r | ExprBinary BiOr _ r => mark_as_terminating_scope m (expr_id r)
  | ExprIf _ then_ (Some otherwise) =>
      mark_as_terminating_scope (mark_as_terminating_scope m (block_id then_)) (expr_id otherwise)
  | ExprIf expr then_ None =>
      mark_as_terminating_scope (mark_as_terminating_scope m (expr_id expr)) (block_id then_)
  | ExprLoop body _ => mark_as_terminating_scope m (block_id body)
  | ExprWhile expr body =>
      mark_as_terminating_scope (mark_as_terminating_scope m (expr_id expr)) (block_id body)
  | _ => m
  end.

Definition expr_context (expr : Expr) (cx : Context) : Context :=
  mkContext (match expr_node expr with ExprMatch _ _ => Some (expr_id expr) | _ => var_parent cx end)
    (Some (expr_id expr)).

Definition resolve_expr (expr : Expr) (cx : Context) (m : RegionMaps) : outcome RegionMaps :=
  m ← record_superlifetime cx (expr_id expr) m;
  walk_expr visitor expr (expr_context expr cx) (mark_expr expr m).

Definition resolve_local (local : Local) (cx : Context) (m : RegionMaps) : outcome RegionMaps :=
  match var_parent cx with
  | None => Fail CompilerBug
  | Some blk_id =>
      match local with
      | mkLocal ty pat init id =>
          m ← record_var_scope m id blk_id;
          m ← match init with
              | Some expr =>
                  m ← record_rvalue_scope_if_borrow_expr expr blk_id m;
                  if is_binding_pat pat || is_borrowed_ty ty
                  then record_rvalue_scope_in expr blk_id m else Ok m
              | None => Ok m
              end;
          walk_local visitor local cx m
      end
  end.

Definition resolve_fn (fk : FnKind) (decl : FnDecl) (body : Block) (cx : Context) (m : RegionMaps)
    : outcome RegionMaps :=
  let m := mark_as_terminating_scope m (block_id body) in
  let decl_cx := mkContext (Some (block_id body)) (Some (block_id body)) in
  m ← walk_fn_decl visitor decl decl_cx m;
  let body_cx := match fk with
                 | FkItemFn | FkMethod => mkContext None None
                 | FkFnBlock => cx
                 end in
  visit_block visitor body body_cx m.

Definition region_visitor : Visitor Context RegionMaps :=
  mkVisitor resolve_local resolve_block resolve_stmt resolve_arm resolve_pat (walk_decl visitor)
    resolve_expr (λ _ _ m, Ok m) (λ decl body _, resolve_fn FkFnBlock decl body)
    (λ _ _ m, Ok m) (λ _ _ m, Ok m).
End methods.

(** The maps after a function or method of the crate is resolved. *)
Definition resolve_item_fn (fuel : nat) (decl : FnDecl) (body : Block) (m : RegionMaps) : outcome RegionMaps :=
  resolve_fn (tie fuel region_visitor) FkItemFn decl body (mkContext None None) m.
End resolve.
