(* ===== verification/RegionEffects.v ===== *)
(** What the visitor of [region.rs] records, as a list of effects computed by
    recursion on the syntax: resolving a node is replaying its effects. *)

From stdpp Require Import prelude gmap list.
From S2P Require Import Prelude Ast Visit RegionMaps RegionResolve.

Inductive effect :=
  | Encl (child parent : NodeId)
  | VarScope (var scope : NodeId)
  | LocalScope (local scope : NodeId)
  | RvalueScope (expr scope : NodeId)
  | Terminating (id : NodeId)
  | Bug (w : failure).

Definition apply_effect (ef : effect) (m : RegionMaps) : outcome RegionMaps :=
  match ef with
  | Encl c p => record_encl_scope m c p
  | VarScope v p | LocalScope v p => record_var_scope m v p
  | RvalueScope e p => record_rvalue_scope m e p
  | Terminating id => Ok (mark_as_terminating_scope m id)
  | Bug w => Fail w
  end.

Definition replay (l : list effect) (m : RegionMaps) : outcome RegionMaps := for_each apply_effect l m.

(** ** The effects of a node *)

Definition eff_encl (cx : Context) (id : NodeId) : list effect :=
  match parent cx with Some p => [Encl id p] | None => [] end.

Definition eff_var (cx : Context) (id : NodeId) : list effect :=
  match var_parent cx with Some p => [VarScope id p] | None => [] end.

Definition eff_marks (expr : Expr) : list effect :=
  match expr_node expr with
  | ExprBinary BiAnd _ r | ExprBinary BiOr _ r => [Terminating (expr_id r)]
  | ExprIf _ then_ (Some otherwise) => [Terminating (block_id then_); Terminating (expr_id otherwise)]
  | ExprIf expr then_ None => [Terminating (expr_id expr); Terminating (block_id then_)]
  | ExprLoop body _ => [Terminating (block_id body)]
  | ExprWhile expr body => [Terminating (expr_id expr); Terminating (block_id body)]
  | _ => []
  end.

Fixpoint eff_rvalue_in (blk_id : NodeId) (expr : Expr) : list effect :=
  RvalueScope (expr_id expr) blk_id ::
  match expr_node expr with
  | ExprAddrOf _ subexpr | ExprUnary UnDeref subexpr | ExprField subexpr _ _ | ExprIndex subexpr _
  | ExprParen subexpr => eff_rvalue_in blk_id subexpr
  | _ => []
  end.

Fixpoint eff_rvalue_borrow (blk_id : NodeId) (expr : Expr) : list effect :=
  match expr_node expr with
  | ExprAddrOf _ subexpr => eff_rvalue_borrow blk_id subexpr ++ eff_rvalue_in blk_id subexpr
  | ExprStruct _ fields _ =>
      flat_map (λ f, match f with mkField _ e => eff_rvalue_borrow blk_id e end) fields
  | ExprVstore_ subexpr _ => RvalueScope (expr_id subexpr) blk_id :: eff_rvalue_borrow blk_id subexpr
  | ExprVec subexprs | ExprTup subexprs => flat_map (eff_rvalue_borrow blk_id) subexprs
  | ExprUnary UnUniq subexpr => eff_rvalue_borrow blk_id subexpr
  | ExprCast subexpr _ | ExprParen subexpr => eff_rvalue_borrow blk_id subexpr
  | ExprBlock (mkBlock _ (Some subexpr) _) => eff_rvalue_borrow blk_id subexpr
  | _ => []
  end.

Section effects.
Context (is_borrowed_ty : TyId → bool).

Definition eff_opt {A} (f : A → list effect) (o : option A) : list effect :=
  match o with Some x => f x | None => [] end.

Definition eff_local_scopes (blk_id : NodeId) (local : Local) : list effect :=
  match local with
  | mkLocal ty pat init id =>
      LocalScope id blk_id ::
      match init with
      | Some e => eff_rvalue_borrow blk_id e ++
          (if is_binding_pat pat || is_borrowed_ty ty then eff_rvalue_in blk_id e else [])
      | None => []
      end
  end.

Definition fn_context (body : Block) : Context := mkContext (Some (block_id body)) (Some (block_id body)).

Fixpoint eff_pat (cx : Context) (pat : Pat) : list effect :=
  eff_encl cx (pat_id pat)
  ++ match pat_node pat with PatIdent _ _ _ => eff_var cx (pat_id pat) | _ => [] end
  ++ match pat_node pat with
     | PatWild | PatWildMulti => []
     | PatIdent _ _ sub => eff_opt (eff_pat cx) sub
     | PatEnum _ args => eff_opt (flat_map (eff_pat cx)) args
     | PatStruct _ fields _ => flat_map (λ f, match f with mkFieldPat _ p => eff_pat cx p end) fields
     | PatTup elts => flat_map (eff_pat cx) elts
     | PatUniq p | PatRegion p => eff_pat cx p
     | PatLit e => eff_expr cx e
     | PatRange lo hi => eff_expr cx lo ++ eff_expr cx hi
     | PatVec before slice after =>
         flat_map (eff_pat cx) before ++ eff_opt (eff_pat cx) slice ++ flat_map (eff_pat cx) after
     end
with eff_expr (cx : Context) (expr : Expr) : list effect :=
  let sub := expr_context expr cx in
  eff_encl cx (expr_id expr) ++ eff_marks expr ++
  match expr_node expr with
  | ExprLit _ | ExprPath _ | ExprBreak _ | ExprAgain _ | ExprMac => []
  | ExprVstore_ e _ | ExprUnary _ e | ExprCast e _ | ExprField e _ _ | ExprAddrOf _ e | ExprParen e =>
      eff_expr sub e
  | ExprBox a b | ExprBinary _ a b | ExprIndex a b | ExprRepeat a b => eff_expr sub a ++ eff_expr sub b
  | ExprAssign a b | ExprAssignOp _ a b => eff_expr sub b ++ eff_expr sub a
  | ExprVec es | ExprTup es | ExprMethodCall _ _ es => flat_map (eff_expr sub) es
  | ExprCall f args => flat_map (eff_expr sub) args ++ eff_expr sub f
  | ExprIf cond then_ els => eff_expr sub cond ++ eff_block sub then_ ++ eff_opt (eff_expr sub) els
  | ExprWhile cond body => eff_expr sub cond ++ eff_block sub body
  | ExprForLoop p e body _ => eff_pat sub p ++ eff_expr sub e ++ eff_block sub body
  | ExprLoop body _ | ExprBlock body => eff_block sub body
  | ExprMatch scrut arms => eff_expr sub scrut ++ flat_map (eff_arm sub) arms
  | ExprFnBlock (mkFnDecl inputs _) body | ExprProc (mkFnDecl inputs _) body =>
      Terminating (block_id body) ::
      flat_map (λ a, eff_pat (fn_context body) (arg_pat a)) inputs ++ eff_block sub body
  | ExprRet o => eff_opt (eff_expr sub) o
  | ExprInlineAsm inputs outputs => flat_map (eff_expr sub) inputs ++ flat_map (eff_expr sub) outputs
  | ExprStruct _ fields base =>
      flat_map (λ f, match f with mkField _ e => eff_expr sub e end) fields ++ eff_opt (eff_expr sub) base
  end
with eff_block (cx : Context) (blk : Block) : list effect :=
  match blk with
  | mkBlock stmts expr id =>
      let sub := mkContext (Some id) (Some id) in
      eff_encl cx id ++ flat_map (eff_stmt sub) stmts ++ eff_opt (eff_expr sub) expr
  end
with eff_stmt (cx : Context) (stmt : Stmt) : list effect :=
  match stmt with
  | StmtDecl decl id =>
      Terminating id :: eff_encl cx id ++ eff_decl (mkContext (var_parent cx) (Some id)) decl
  | StmtExpr e id | StmtSemi e id =>
      Terminating id :: eff_encl cx id ++ eff_expr (mkContext (var_parent cx) (Some id)) e
  | StmtMac => [Bug ExplicitFail]
  end
with eff_decl (cx : Context) (decl : Decl) : list effect :=
  match decl with
  | DeclLocal local => eff_local cx local
  | DeclItem _ => []
  end
with eff_local (cx : Context) (local : Local) : list effect :=
  match var_parent cx with
  | None => [Bug CompilerBug]
  | Some blk_id =>
      eff_local_scopes blk_id local ++
      match local with mkLocal _ pat init _ => eff_pat cx pat ++ eff_opt (eff_expr cx) init end
  end
with eff_arm (cx : Context) (arm : Arm) : list effect :=
  match arm with
  | mkArm pats guard body =>
      Terminating (expr_id body) :: eff_opt (λ g, [Terminating (expr_id g)]) guard ++
      flat_map (eff_pat cx) pats ++ eff_opt (eff_expr cx) guard ++ eff_expr cx body
  end.

Definition eff_fn (fk : FnKind) (cx : Context) (decl : FnDecl) (body : Block) : list effect :=
  Terminating (block_id body) ::
  flat_map (λ a, eff_pat (fn_context body) (arg_pat a)) (fn_inputs decl) ++
  eff_block (match fk with FkItemFn | FkMethod => mkContext None None | FkFnBlock => cx end) body.
End effects.

(** ** The height of a node, which bounds the depth of its visit *)

Abbreviation maxl f l := (foldr (λ x h, Nat.max (f x) h) 1 l).
Abbreviation maxo f o := (match o with Some x => f x | None => 1 end).

Fixpoint height_pat (pat : Pat) : nat :=
  S match pat_node pat with
    | PatWild | PatWildMulti => 1
    | PatIdent _ _ sub => maxo height_pat sub
    | PatEnum _ args => maxo (λ l, maxl height_pat l) args
    | PatStruct _ fields _ => maxl (λ f, match f with mkFieldPat _ p => height_pat p end) fields
    | PatTup elts => maxl height_pat elts
    | PatUniq p | PatRegion p => height_pat p
    | PatLit e => height_expr e
    | PatRange lo hi => Nat.max (height_expr lo) (height_expr hi)
    | PatVec before slice after =>
        Nat.max (maxl height_pat before) (Nat.max (maxo height_pat slice) (maxl height_pat after))
    end
with height_expr (expr : Expr) : nat :=
  S match expr_node expr with
    | ExprLit _ | ExprPath _ | ExprBreak _ | ExprAgain _ | ExprMac => 1
    | ExprVstore_ e _ | ExprUnary _ e | ExprCast e _ | ExprField e _ _ | ExprAddrOf _ e | ExprParen e =>
        height_expr e
    | ExprBox a b | ExprBinary _ a b | ExprIndex a b | ExprRepeat a b | ExprAssign a b
    | ExprAssignOp _ a b => Nat.max (height_expr a) (height_expr b)
    | ExprVec es | ExprTup es | ExprMethodCall _ _ es => maxl height_expr es
    | ExprCall f args => Nat.max (height_expr f) (maxl height_expr args)
    | ExprIf cond then_ els => Nat.max (height_expr cond) (Nat.max (height_block then_) (maxo height_expr els))
    | ExprWhile cond body => Nat.max (height_expr cond) (height_block body)
    | ExprForLoop p e body _ => Nat.max (height_pat p) (Nat.max (height_expr e) (height_block body))
    | ExprLoop body _ | ExprBlock body => height_block body
    | ExprMatch scrut arms => Nat.max (height_expr scrut) (maxl height_arm arms)
    | ExprFnBlock (mkFnDecl inputs _) body | ExprProc (mkFnDecl inputs _) body =>
        S (Nat.max (maxl (λ a, height_pat (arg_pat a)) inputs) (height_block body))
    | ExprRet o => maxo height_expr o
    | ExprInlineAsm inputs outputs => Nat.max (maxl height_expr inputs) (maxl height_expr outputs)
    | ExprStruct _ fields base =>
        Nat.max (maxl (λ f, match f with mkField _ e => height_expr e end) fields) (maxo height_expr base)
    end
with height_block (blk : Block) : nat :=
  match blk with mkBlock stmts expr _ => S (Nat.max (maxl height_stmt stmts) (maxo height_expr expr)) end
with height_stmt (stmt : Stmt) : nat :=
  match stmt with
  | StmtDecl decl _ => S (height_decl decl)
  | StmtExpr e _ | StmtSemi e _ => S (height_expr e)
  | StmtMac => 1
  end
with height_decl (decl : Decl) : nat :=
  match decl with
  | DeclLocal local => S (height_local local)
  | DeclItem _ => 2
  end
with height_local (local : Local) : nat :=
  match local with mkLocal _ pat init _ => S (Nat.max (height_pat pat) (maxo height_expr init)) end
with height_arm (arm : Arm) : nat :=
  match arm with
  | mkArm pats guard body => S (Nat.max (maxl height_pat pats) (Nat.max (maxo height_expr guard) (height_expr body)))
  end.

Definition height_fn (decl : FnDecl) (body : Block) : nat :=
  Nat.max (maxl (λ a, height_pat (arg_pat a)) (fn_inputs decl)) (height_block body).

(** ** Resolving is replaying *)

Lemma replay_app a b m : replay (a ++ b) m = m ← replay a m; replay b m.
Proof.
  induction a as [|ef a IH] in m |- *; [done|]. unfold replay in *. simpl.
  destruct (apply_effect ef m); simpl; [apply IH|done].
Qed.

Lemma replay_one ef m : replay [ef] m = apply_effect ef m.
Proof. unfold replay. simpl. by destruct (apply_effect ef m). Qed.

Lemma replay_cons ef l m : replay (ef :: l) m = m ← apply_effect ef m; replay l m.
Proof. done. Qed.

Lemma for_each_replay {A} (f : A → RegionMaps → outcome RegionMaps) (g : A → list effect) l m :
  (∀ x m, x ∈ l → f x m = replay (g x) m) → for_each f l m = replay (flat_map g l) m.
Proof.
  induction l as [|x l IH] in m |- *; intros Hf; [done|]. simpl. rewrite replay_app, Hf by left.
  destruct (replay (g x) m); simpl; [|done]. apply IH. intros y m' Hy. apply Hf. by right.
Qed.

Lemma maxl_le {A} (f : A → nat) l n : maxl f l ≤ n → 1 ≤ n ∧ ∀ x, x ∈ l → f x ≤ n.
Proof.
  induction l as [|y l IH]; simpl; intros Hn; [split; [done|set_solver]|].
  destruct IH as [H1 H2]; [lia|]. split; [done|]. intros x [->|Hx]%elem_of_cons; [lia|auto].
Qed.

Lemma replay_encl cx id m : record_superlifetime cx id m = replay (eff_encl cx id) m.
Proof. unfold record_superlifetime, eff_encl. destruct (parent cx); [by rewrite replay_one|done]. Qed.

Lemma replay_var cx id m : record_var_lifetime cx id m = replay (eff_var cx id) m.
Proof. unfold record_var_lifetime, eff_var. destruct (var_parent cx); [by rewrite replay_one|done]. Qed.

Lemma replay_marks e m : Ok (mark_expr e m) = replay (eff_marks e) m.
Proof. unfold mark_expr, eff_marks. destruct (expr_node e) as [| | | | | |[]| | | |? ? []| | | | | | | | | | | | | | | | | | | | |]; done. Qed.

Lemma replay_rvalue_in blk_id e m : record_rvalue_scope_in e blk_id m = replay (eff_rvalue_in blk_id e) m.
Proof.
  revert m. induction e as [e IH] using Expr_sub_ind. intros m. destruct e as [id node].
  cbn [record_rvalue_scope_in eff_rvalue_in expr_id expr_node]. rewrite replay_cons.
  cbn [apply_effect]. destruct (record_rvalue_scope m id blk_id) as [m'|]; [|done]. simpl_ok.
  rewrite Forall_forall in IH. unfold sub_exprs in IH. cbn [expr_node] in IH.
  destruct node as [| | | | | | |[]| | | | | | | | | | | | | | | | | | | | | | | |]; try reflexivity; apply IH; left.
Qed.

Lemma replay_rvalue_borrow blk_id e m :
  record_rvalue_scope_if_borrow_expr e blk_id m = replay (eff_rvalue_borrow blk_id e) m.
Proof.
  revert m. induction e as [e IH] using Expr_sub_ind. intros m. destruct e as [id node].
  rewrite Forall_forall in IH. unfold sub_exprs in IH. cbn [expr_node] in IH.
  cbn [record_rvalue_scope_if_borrow_expr eff_rvalue_borrow expr_node].
  destruct node as [| | | | | | |[]| | | | | | | | | |[? [?|] ?]| | | | | | | | | | | | | |];
    try reflexivity; try (apply IH; left).
  - rewrite replay_cons. cbn [apply_effect]. destruct (record_rvalue_scope _ _ _); [|done]. apply IH. left.
  - apply for_each_replay. intros x m' Hx. by apply IH.
  - apply for_each_replay. intros x m' Hx. by apply IH.
  - apply IH. simpl. apply elem_of_app. right. left.
  - rewrite replay_app, IH by left. destruct (replay _ m); [|done]. apply replay_rvalue_in.
  - apply for_each_replay. intros [n e] m' Hx. apply IH. apply elem_of_app. left.
    apply list_elem_of_bind. exists (mkField n e). split; [left|done].
Qed.

Section replays.
Context (is_borrowed_ty : TyId → bool).
Abbreviation eff_pat := (eff_pat is_borrowed_ty).
Abbreviation eff_expr := (eff_expr is_borrowed_ty).
Abbreviation eff_block := (eff_block is_borrowed_ty).
Abbreviation eff_stmt := (eff_stmt is_borrowed_ty).
Abbreviation eff_decl := (eff_decl is_borrowed_ty).
Abbreviation eff_local := (eff_local is_borrowed_ty).
Abbreviation eff_arm := (eff_arm is_borrowed_ty).
Abbreviation eff_fn := (eff_fn is_borrowed_ty).

(** The visitor replays the effects of the nodes up to a height. *)
Record replays (V : Visitor Context RegionMaps) (n : nat) : Prop := {
  rp_pat p cx m : height_pat p ≤ n → visit_pat V p cx m = replay (eff_pat cx p) m;
  rp_expr e cx m : height_expr e ≤ n → visit_expr V e cx m = replay (eff_expr cx e) m;
  rp_block b cx m : height_block b ≤ n → visit_block V b cx m = replay (eff_block cx b) m;
  rp_stmt s cx m : height_stmt s ≤ n → visit_stmt V s cx m = replay (eff_stmt cx s) m;
  rp_decl d cx m : height_decl d ≤ n → visit_decl V d cx m = replay (eff_decl cx d) m;
  rp_local l cx m : height_local l ≤ n → visit_local V l cx m = replay (eff_local cx l) m;
  rp_arm a cx m : height_arm a ≤ n → visit_arm V a cx m = replay (eff_arm cx a) m;
  rp_fn d b id cx m : S (height_fn d b) ≤ n → visit_fn V d b id cx m = replay (eff_fn FkFnBlock cx d b) m;
  rp_item id cx m : 1 ≤ n → visit_item V id cx m = Ok m;
  rp_ty t cx m : 1 ≤ n → visit_ty V t cx m = Ok m;
  rp_post e cx m : 1 ≤ n → visit_expr_post V e cx m = Ok m
}.

Lemma replays_0 V : replays V 0.
Proof.
  constructor; intros; try lia;
    repeat match goal with
    | x : Pat |- _ => destruct x | x : Expr |- _ => destruct x | x : Block |- _ => destruct x
    | x : Stmt |- _ => destruct x | x : Decl |- _ => destruct x | x : Local |- _ => destruct x
    | x : Arm |- _ => destruct x end; simpl in *; lia.
Qed.

Section step.
Context (V : Visitor Context RegionMaps) (n : nat) (HV : replays V n).

Lemma bind_cong {A B} (c c' : outcome A) (f f' : A → outcome B) :
  c = c' → (∀ a, f a = f' a) → c ≫= f = c' ≫= f'.
Proof. intros -> Hf. destruct c'; simpl; [apply Hf|done]. Qed.

Lemma replay_nil m : replay [] m = Ok m.
Proof. done. Qed.

Lemma for_each_ty l cx m : 1 ≤ n → for_each (λ t, visit_ty V t cx) l m = Ok m.
Proof using HV. intros Hn. induction l as [|t l IH]; simpl; [done|]. by rewrite (rp_ty _ _ HV). Qed.

Lemma bind_ok {A} (c : outcome A) : (m ← c; Ok m) = c.
Proof. by destruct c. Qed.

Lemma bind_tys l cx (c : outcome RegionMaps) :
  1 ≤ n → (s ← c; for_each (λ t, visit_ty V t cx) l s) = c.
Proof using HV. intros Hn. destruct c as [m|]; [|done]. by apply for_each_ty. Qed.

Lemma bind_ty t cx (c : outcome RegionMaps) : 1 ≤ n → (s ← c; visit_ty V t cx s) = c.
Proof using HV. intros Hn. destruct c as [m|]; [|done]. by apply (rp_ty _ _ HV). Qed.

Lemma walk_expr_opt_replay o cx m :
  maxo height_expr o ≤ n → walk_expr_opt V o cx m = replay (eff_opt (eff_expr cx) o) m.
Proof using HV. destruct o; intros Hn; [by apply (rp_expr _ _ HV)|done]. Qed.

(** One part of a node after the other. *)
Ltac parts :=
  repeat match goal with H : Nat.max _ _ ≤ _ |- _ => apply Nat.max_lub_iff in H as [? ?] end;
  repeat first
    [ reflexivity
    | rewrite replay_nil | rewrite bind_ok
    | match goal with
      | |- for_each (λ t, visit_ty _ _ _) _ _ = Ok _ => apply for_each_ty; lia
      | |- visit_ty _ _ _ _ = _ => apply (rp_ty _ _ HV); lia
      | |- visit_pat _ _ _ _ = _ => apply (rp_pat _ _ HV); lia
      | |- visit_expr _ _ _ _ = _ => apply (rp_expr _ _ HV); lia
      | |- visit_block _ _ _ _ = _ => apply (rp_block _ _ HV); lia
      | |- visit_arm _ _ _ _ = _ => apply (rp_arm _ _ HV); eauto
      | |- walk_expr_opt _ _ _ _ = _ => apply walk_expr_opt_replay; lia
      | |- _ = replay (_ ++ _) _ => rewrite replay_app
      | |- mbind _ _ = mbind _ _ => apply bind_cong; [|intros ?]
      | |- for_each _ _ _ = replay (flat_map _ _) _ =>
          apply for_each_replay; intros ? ? ?;
          match goal with H : foldr _ 1 ?l ≤ _, Hx : ?x ∈ ?l |- _ =>
            pose proof (proj2 (maxl_le _ _ _ H) x Hx); try destruct x end
      end ].

Lemma walk_pat_replay p cx m :
  height_pat p ≤ S n →
  walk_pat V p cx m = replay
    match pat_node p with
    | PatWild | PatWildMulti => []
    | PatIdent _ _ sub => eff_opt (eff_pat cx) sub
    | PatEnum _ args => eff_opt (flat_map (eff_pat cx)) args
    | PatStruct _ fields _ => flat_map (λ f, match f with mkFieldPat _ p => eff_pat cx p end) fields
    | PatTup elts => flat_map (eff_pat cx) elts
    | PatUniq p | PatRegion p => eff_pat cx p
    | PatLit e => eff_expr cx e
    | PatRange lo hi => eff_expr cx lo ++ eff_expr cx hi
    | PatVec before slice after =>
        flat_map (eff_pat cx) before ++ eff_opt (eff_pat cx) slice ++ flat_map (eff_pat cx) after
    end m.
Proof using HV.
  destruct p as [id node]. cbn [height_pat pat_node]. intros Hn%le_S_n. unfold walk_pat. cbn [pat_node].
  destruct node as [| |bm path [q|]|path [ps|]|path fields etc|ps|q|q|e|lo hi|before [q|] after];
    cbn [eff_opt]; try reflexivity; parts.
Qed.

Lemma walk_fn_decl_replay d cx m :
  maxl (λ a, height_pat (arg_pat a)) (fn_inputs d) ≤ n →
  walk_fn_decl V d cx m = replay (flat_map (λ a, eff_pat cx (arg_pat a)) (fn_inputs d)) m.
Proof using HV.
  intros Hn. unfold walk_fn_decl. pose proof (proj1 (maxl_le _ _ _ Hn)) as H1.
  rewrite (for_each_replay _ (λ a, eff_pat cx (arg_pat a))).
  - destruct (replay _ m) as [m'|]; simpl; [|done]. by apply (rp_ty _ _ HV).
  - intros a m' Ha. rewrite (rp_pat _ _ HV) by (by apply (proj2 (maxl_le _ _ _ Hn))).
    destruct (replay _ m') as [m2|]; simpl; [|done]. by apply (rp_ty _ _ HV).
Qed.

Lemma resolve_fn_replay fk d b cx m :
  height_fn d b ≤ n → resolve_fn V fk d b cx m = replay (eff_fn fk cx d b) m.
Proof using HV.
  intros [Hd Hb]%Nat.max_lub_iff. unfold resolve_fn, RegionEffects.eff_fn. rewrite replay_cons. cbn [apply_effect].
  simpl_ok. rewrite replay_app, walk_fn_decl_replay by done. apply bind_cong; [done|]. intros m'.
  by apply (rp_block _ _ HV).
Qed.

Lemma height_pos e : 1 ≤ height_expr e.
Proof. destruct e. simpl. lia. Qed.
Lemma height_block_pos b : 1 ≤ height_block b.
Proof. destruct b. simpl. lia. Qed.

Lemma resolve_expr_replay e cx m :
  height_expr e ≤ S n → resolve_expr V e cx m = replay (eff_expr cx e) m.
Proof using HV.
  destruct e as [id node]. cbn [height_expr expr_node]. intros Hn%le_S_n.
  unfold resolve_expr. cbn [RegionEffects.eff_expr expr_node expr_id].
  rewrite replay_app, replay_encl. apply bind_cong; [done|]. intros m'. rewrite replay_app, <-replay_marks. simpl_ok.
  generalize (mark_expr (mkExpr id node) m'). clear m m'. intros m.
  generalize (expr_context (mkExpr id node) cx). clear cx. intros cx. unfold walk_expr. cbn [expr_node].
  assert (1 ≤ n) as H1.
  { destruct node; repeat case_match;
      repeat match goal with
      | H : Nat.max _ _ ≤ _ |- _ => apply Nat.max_lub_iff in H as [? ?]
      | H : foldr _ 1 _ ≤ _ |- _ => apply maxl_le in H as [? _]
      | H : height_expr ?e ≤ _ |- _ => pose proof (height_pos e); lia
      | H : height_block ?e ≤ _ |- _ => pose proof (height_block_pos e); lia
      end; lia. }
  assert (∀ c : outcome RegionMaps, (s ← c; visit_expr_post V (mkExpr id node) cx s) = c) as Hpost.
  { intros [m'|]; simpl; [by apply (rp_post _ _ HV)|done]. }
  rewrite Hpost. clear Hpost.
  destruct node as [e v|a b|es|f args|mt tys es|es|op a b|op e|l|e t|cond then_ els|cond body
    |pat e body lab|body lab|scrut arms|[ins out] body|[ins out] body|body|a b|op a b|e f tys|a b|p|mu e|lab|lab
    |o|inputs outputs| |p fields base|a b|e]; cbn [eff_opt]; try reflexivity;
    unfold walk_exprs; rewrite ?bind_tys, ?bind_ty by done; parts;
    by apply (rp_fn _ _ HV).
Qed.

Lemma resolve_pat_replay p cx m :
  height_pat p ≤ S n → resolve_pat V p cx m = replay (eff_pat cx p) m.
Proof using HV.
  intros Hn. unfold resolve_pat. rewrite replay_encl.
  assert (replay (eff_pat cx p) m = m ← replay (eff_encl cx (pat_id p)) m;
    m ← replay match pat_node p with PatIdent _ _ _ => eff_var cx (pat_id p) | _ => [] end m;
    walk_pat V p cx m) as ->.
  { destruct p as [id node]. cbn [RegionEffects.eff_pat]. rewrite replay_app. apply bind_cong; [done|]. intros m'.
    rewrite replay_app. apply bind_cong; [done|]. intros m2. by rewrite walk_pat_replay. }
  apply bind_cong; [done|]. intros m'. apply bind_cong; [|done].
  destruct (pat_node p); try done. apply replay_var.
Qed.

Lemma resolve_block_replay b cx m :
  height_block b ≤ S n → resolve_block V b cx m = replay (eff_block cx b) m.
Proof using HV.
  destruct b as [stmts oe id]. cbn [height_block]. intros [Hs He]%le_S_n%Nat.max_lub_iff.
  unfold resolve_block. cbn [RegionEffects.eff_block block_id]. rewrite replay_app, replay_encl.
  apply bind_cong; [done|]. intros m'. unfold walk_block. cbn [block_stmts block_expr].
  rewrite replay_app. apply bind_cong; [|intros m2; by apply walk_expr_opt_replay].
  apply for_each_replay. intros s m2 Hin. by apply (rp_stmt _ _ HV), (proj2 (maxl_le _ _ _ Hs)).
Qed.

Lemma resolve_stmt_replay s cx m :
  height_stmt s ≤ S n → resolve_stmt V s cx m = replay (eff_stmt cx s) m.
Proof using HV.
  destruct s as [d id|e id|e id|]; cbn [height_stmt]; intros Hn; [apply le_S_n in Hn..|done];
    unfold resolve_stmt; cbn [stmt_id RegionEffects.eff_stmt]; simpl_ok; rewrite replay_cons; cbn [apply_effect];
    simpl_ok; rewrite replay_app, replay_encl; (apply bind_cong; [done|]); intros m'; unfold walk_stmt;
    [by apply (rp_decl _ _ HV)|by apply (rp_expr _ _ HV)..].
Qed.

Lemma resolve_local_replay l cx m :
  height_local l ≤ S n → resolve_local is_borrowed_ty V l cx m = replay (eff_local cx l) m.
Proof using HV.
  destruct l as [ty pat init id]. cbn [height_local]. intros [Hp Hi]%le_S_n%Nat.max_lub_iff.
  unfold resolve_local. cbn [RegionEffects.eff_local]. destruct (var_parent cx) as [blk_id|]; [|done].
  rewrite replay_app. unfold eff_local_scopes. rewrite replay_cons. cbn [apply_effect].
  destruct (record_var_scope m id blk_id) as [m1|]; [|done]. simpl_ok. apply bind_cong.
  - destruct init as [e|]; [|done]. rewrite replay_app, replay_rvalue_borrow. apply bind_cong; [done|].
    intros m2. destruct (_ || _); [apply replay_rvalue_in|done].
  - intros m2. unfold walk_local. rewrite replay_app. apply bind_cong; [by apply (rp_pat _ _ HV)|].
    intros m3. assert (1 ≤ n) by (destruct pat; cbn [height_pat] in Hp; lia).
    rewrite (rp_ty _ _ HV) by done. simpl_ok. by apply walk_expr_opt_replay.
Qed.

Lemma resolve_arm_replay a cx m :
  height_arm a ≤ S n → resolve_arm V a cx m = replay (eff_arm cx a) m.
Proof using HV.
  destruct a as [pats guard body]. cbn [height_arm]. intros [Hp [Hg Hb]%Nat.max_lub_iff]%le_S_n%Nat.max_lub_iff.
  unfold resolve_arm. cbn [RegionEffects.eff_arm arm_guard arm_body]. rewrite replay_cons. cbn [apply_effect].
  simpl_ok. rewrite replay_app. destruct guard as [g|]; cbn [eff_opt]; rewrite ?replay_one, ?replay_nil;
    cbn [apply_effect]; simpl_ok; unfold walk_arm; cbn [arm_pats arm_guard arm_body walk_expr_opt];
    rewrite replay_app; (apply bind_cong; [apply for_each_replay; intros p m' Hin;
      by apply (rp_pat _ _ HV), (proj2 (maxl_le _ _ _ Hp))|]); intros m'.
  - rewrite replay_app. apply bind_cong; [by apply (rp_expr _ _ HV)|]. intros m2. by apply (rp_expr _ _ HV).
  - by apply (rp_expr _ _ HV).
Qed.

Lemma replays_S : replays (region_visitor is_borrowed_ty V) (S n).
Proof using HV.
  constructor; cbn [region_visitor visit_pat visit_expr visit_block visit_stmt visit_decl visit_local
    visit_arm visit_fn visit_item visit_ty visit_expr_post]; intros.
  - by apply resolve_pat_replay.
  - by apply resolve_expr_replay.
  - by apply resolve_block_replay.
  - by apply resolve_stmt_replay.
  - destruct d as [l|id]; cbn [height_decl] in *; unfold walk_decl.
    + apply (rp_local _ _ HV). lia.
    + apply (rp_item _ _ HV). lia.
  - by apply resolve_local_replay.
  - by apply resolve_arm_replay.
  - apply resolve_fn_replay. lia.
  - done.
  - done.
  - done.
Qed.
End step.

Lemma tie_replays n : replays (tie n (region_visitor is_borrowed_ty)) n.
Proof. induction n as [|n IH]; [apply replays_0|]. by apply replays_S. Qed.

Lemma resolve_item_fn_replay fuel decl body m :
  height_fn decl body ≤ fuel →
  resolve_item_fn is_borrowed_ty fuel decl body m = replay (eff_fn FkItemFn (mkContext None None) decl body) m.
Proof. intros Hf. apply (resolve_fn_replay _ fuel); [apply tie_replays|done]. Qed.
End replays.
