(* ===== verification/RegionTree.v ===== *)
(** The maps that [region.rs] builds for a function whose nodes have distinct
    ids: the enclosing scopes form a tree with the nesting of the syntax. *)

From stdpp Require Import prelude gmap list.
From S2P Require Import Prelude Ast Visit RegionMaps RegionResolve RegionEffects.

(** ** Edges and ids *)

Definition effect_edge (ef : effect) : option (NodeId * NodeId) :=
  match ef with Encl c p => Some (c, p) | _ => None end.

Definition edges (l : list effect) : list (NodeId * NodeId) := omap effect_edge l.

(** The nodes that are given a scope or, for [let] statements, a block. *)
Definition effect_id (ef : effect) : option NodeId :=
  match ef with Encl c _ | LocalScope c _ => Some c | _ => None end.

Definition effect_ids (l : list effect) : list NodeId := omap effect_id l.

(** The variables that are given a scope. *)
Definition var_scope_of (ef : effect) : option (NodeId * NodeId) :=
  match ef with VarScope v p | LocalScope v p => Some (v, p) | _ => None end.

Definition var_scopes (l : list effect) : list (NodeId * NodeId) := omap var_scope_of l.

(** The operations of the maps assert that a scope is not its own parent. *)
Definition sane (ef : effect) : Prop :=
  match ef with
  | Encl c p | VarScope c p | LocalScope c p | RvalueScope c p => c ≠ p
  | Terminating _ => True
  | Bug _ => False
  end.

(** Edges that hang new nodes below known ones, in some order. *)
Fixpoint grown (ps : gset NodeId) (es : list (NodeId * NodeId)) : Prop :=
  match es with
  | [] => True
  | (c, p) :: es' => p ∈ ps ∧ grown ({[c]} ∪ ps) es'
  end.

Definition tree (ps : gset NodeId) (es : list (NodeId * NodeId)) : Prop := ∃ es', es ≡ₚ es' ∧ grown ps es'.

Lemma grown_mono ps ps' es : ps ⊆ ps' → grown ps es → grown ps' es.
Proof.
  induction es as [|[c p] es IH] in ps, ps' |- *; simpl; [done|].
  intros Hps [Hp Hes]. split; [set_solver|]. eapply IH; [|done]. set_solver.
Qed.

Lemma grown_app ps es es' : grown ps es → grown ps es' → grown ps (es ++ es').
Proof.
  induction es as [|[c p] es IH] in ps |- *; simpl; [done|].
  intros [Hp Hes] Hes'. split; [done|]. apply IH; [done|]. eapply grown_mono; [|done]. set_solver.
Qed.

Lemma tree_nil ps : tree ps [].
Proof. by exists []. Qed.

Lemma tree_app ps es es' : tree ps es → tree ps es' → tree ps (es ++ es').
Proof.
  intros (l & Hl & Hg) (l' & Hl' & Hg'). exists (l ++ l'). split; [by rewrite Hl, Hl'|by apply grown_app].
Qed.

Lemma tree_cons ps c p es : p ∈ ps → tree ({[c]} ∪ ps) es → tree ps ((c, p) :: es).
Proof. intros Hp (l & Hl & Hg). exists ((c, p) :: l). by rewrite Hl. Qed.

Lemma tree_perm ps es es' : es ≡ₚ es' → tree ps es' → tree ps es.
Proof. intros Hp (l & Hl & Hg). exists l. split; [by rewrite Hp|done]. Qed.

(** ** Effects that are well formed below known nodes *)

Record well (ps : gset NodeId) (l : list effect) : Prop := {
  well_tree : tree ps (edges l);
  well_vars : (var_scopes l).*1 ⊆+ effect_ids l;
  well_sane : NoDup (effect_ids l) → (∀ id, id ∈ effect_ids l → id ∉ ps) → (∀ w, Bug w ∉ l) → Forall sane l
}.

Lemma edges_app a b : edges (a ++ b) = edges a ++ edges b.
Proof. apply omap_app. Qed.
Lemma var_scopes_app a b : var_scopes (a ++ b) = var_scopes a ++ var_scopes b.
Proof. apply omap_app. Qed.
Lemma effect_ids_app a b : effect_ids (a ++ b) = effect_ids a ++ effect_ids b.
Proof. apply omap_app. Qed.

Lemma well_nil ps : well ps [].
Proof. split; [apply tree_nil|done|by constructor]. Qed.

Lemma well_app ps a b : well ps a → well ps b → well ps (a ++ b).
Proof.
  intros [Ha1 Hav Ha2] [Hb1 Hbv Hb2]. split; [rewrite edges_app; by apply tree_app| |].
  { rewrite var_scopes_app, effect_ids_app, fmap_app. by apply submseteq_app. }
  rewrite effect_ids_app, NoDup_app. setoid_rewrite elem_of_app. intros (Ha & _ & Hb) Hid Hw.
  apply Forall_app_2; [apply Ha2; naive_solver|apply Hb2; naive_solver].
Qed.

Lemma well_flat_map {A} ps (g : A → list effect) l :
  (∀ x, x ∈ l → well ps (g x)) → well ps (flat_map g l).
Proof.
  induction l as [|x l IH]; intros Hg; simpl; [apply well_nil|].
  apply well_app; [apply Hg; left|apply IH; intros; apply Hg; by right].
Qed.

Lemma well_opt {A} ps (g : A → list effect) o :
  (∀ x, o = Some x → well ps (g x)) → well ps (eff_opt g o).
Proof. destruct o as [x|]; intros Hg; [by apply Hg|apply well_nil]. Qed.

Lemma well_mark ps id l : well ps l → well ps (Terminating id :: l).
Proof.
  intros [H1 Hv H2]. split; [done|done|]. intros Hnd Hid Hw. constructor; [done|]. apply H2; [done..|].
  intros w Hin. apply (Hw w). by right.
Qed.

(** A node below a known parent, with what is below the node. *)
Lemma well_node ps id p l : p ∈ ps → well ({[id]} ∪ ps) l → well ps (Encl id p :: l).
Proof.
  intros Hp [H1 Hv H2]. split; [by apply tree_cons|by apply submseteq_cons|]. simpl. intros [Hn Hnd]%NoDup_cons Hid Hw.
  constructor; [simpl; intros ->; by apply (Hid p); [left|]|].
  apply H2; [done| |intros w Hin; apply (Hw w); by right].
  intros id' Hin. specialize (Hid id' ltac:(by right)). set_solver.
Qed.

(** A closure: its arguments are recorded below its body before the body is. *)
Lemma well_closure ps id p a b :
  p ∈ ps → well ({[id]} ∪ ps) a → well ({[id]} ∪ ps) b → well ps (a ++ Encl id p :: b).
Proof.
  intros Hp Ha Hb. pose proof (well_node ps id p (a ++ b) Hp (well_app _ _ _ Ha Hb)) as [H1 Hv H2].
  assert (Encl id p :: a ++ b ≡ₚ a ++ Encl id p :: b) as Hperm by apply Permutation_middle.
  split.
  - eapply tree_perm; [|exact H1]. rewrite edges_app. simpl. rewrite edges_app. symmetry. apply Permutation_middle.
  - etrans; [|etrans; [exact Hv|]].
    + rewrite var_scopes_app. simpl. by rewrite var_scopes_app.
    + rewrite effect_ids_app. simpl. rewrite effect_ids_app. by rewrite Permutation_middle.
  - intros Hnd Hid Hw. rewrite <-Hperm. apply H2.
    + revert Hnd. rewrite effect_ids_app. simpl. rewrite effect_ids_app. by rewrite Permutation_middle.
    + intros id' Hin. apply Hid. revert Hin. rewrite effect_ids_app. simpl. rewrite effect_ids_app. set_solver.
    + intros w. rewrite Hperm. apply Hw.
Qed.

Lemma well_binding ps id p v l :
  p ∈ ps → v ∈ ps → well ps l → well ps (Encl id p :: VarScope id v :: l).
Proof.
  intros Hp Hv [H1 Hvs H2]. split; [|by apply submseteq_skip|].
  - apply tree_cons; [done|]. destruct H1 as (l' & Hl & Hg). exists l'. split; [done|].
    eapply grown_mono; [|done]. set_solver.
  - simpl. intros [Hn Hnd]%NoDup_cons Hid Hw. assert (id ∉ ps) as Hin by (apply Hid; left).
    constructor; [simpl; congruence|]. constructor; [simpl; congruence|].
    apply H2; [done|intros; apply Hid; by right|intros w ?; apply (Hw w); by do 2 right].
Qed.

Lemma well_leaf ps id p l : p ∈ ps → well ps l → well ps (Encl id p :: l).
Proof.
  intros Hp Hl. destruct (well_binding ps id p p l Hp Hp Hl) as [H1 _ H2]. split; [exact H1|by apply submseteq_cons, Hl|].
  intros Hnd Hid Hw. assert (Forall sane (Encl id p :: VarScope id p :: l)) as Hf.
  { apply H2; [done..|]. intros w. specialize (Hw w). set_solver. }
  apply Forall_cons in Hf as [? [_ ?]%Forall_cons]. by constructor.
Qed.

Lemma well_let ps id blk l : blk ∈ ps → well ps l → well ps (LocalScope id blk :: l).
Proof.
  intros Hb [H1 Hv H2]. split; [done|by apply submseteq_skip|]. simpl. intros [Hn Hnd]%NoDup_cons Hid Hw.
  constructor; [simpl; intros ->; by apply (Hid blk); [left|]|].
  apply H2; [done|intros; apply Hid; by right|intros w ?; apply (Hw w); by right].
Qed.

Lemma well_rvalues ps blk rs l :
  blk ∈ ps → (∀ ef, ef ∈ rs → ∃ x, ef = RvalueScope x blk ∧ x ∈ effect_ids l) → well ps l → well ps (rs ++ l).
Proof.
  intros Hb Hrs Hl. induction rs as [|ef rs IH]; [done|].
  destruct (Hrs ef ltac:(left)) as (x & -> & Hx).
  destruct IH as [H1 Hv H2]; [intros; apply Hrs; by right|]. split; [done|done|].
  intros Hnd Hid Hw. constructor; [|apply H2; [done..|intros w ?; apply (Hw w); by right]].
  simpl. intros ->. apply (Hid blk); [|done]. change (blk ∈ effect_ids (rs ++ l)).
  rewrite effect_ids_app. set_solver.
Qed.

(** ** The effects of every node are well formed *)

Section wells.
Context (is_borrowed_ty : TyId → bool).
Abbreviation eff_pat := (eff_pat is_borrowed_ty).
Abbreviation eff_expr := (eff_expr is_borrowed_ty).
Abbreviation eff_block := (eff_block is_borrowed_ty).
Abbreviation eff_stmt := (eff_stmt is_borrowed_ty).
Abbreviation eff_decl := (eff_decl is_borrowed_ty).
Abbreviation eff_local := (eff_local is_borrowed_ty).
Abbreviation eff_arm := (eff_arm is_borrowed_ty).
Abbreviation eff_fn := (eff_fn is_borrowed_ty).

(** The parents a context names are known. *)
Definition below (ps : gset NodeId) (cx : Context) : Prop :=
  (∃ p, parent cx = Some p ∧ p ∈ ps) ∧ ∀ v, var_parent cx = Some v → v ∈ ps.

Lemma below_mono ps ps' cx : ps ⊆ ps' → below ps cx → below ps' cx.
Proof. intros Hps [(p & Hp & Hin) Hv]. split; [exists p; set_solver|]. intros v Hv'. apply Hps. auto. Qed.

Record wells (n : nat) : Prop := {
  wl_pat p cx ps : height_pat p ≤ n → below ps cx → well ps (eff_pat cx p);
  wl_expr e cx ps : height_expr e ≤ n → below ps cx → well ps (eff_expr cx e);
  wl_block b cx ps : height_block b ≤ n → below ps cx → well ps (eff_block cx b);
  wl_stmt s cx ps : height_stmt s ≤ n → below ps cx → well ps (eff_stmt cx s);
  wl_decl d cx ps : height_decl d ≤ n → below ps cx → well ps (eff_decl cx d);
  wl_local l cx ps : height_local l ≤ n → below ps cx → well ps (eff_local cx l);
  wl_arm a cx ps : height_arm a ≤ n → below ps cx → well ps (eff_arm cx a)
}.

Lemma eff_expr_id cx e p : parent cx = Some p → expr_id e ∈ effect_ids (eff_expr cx e).
Proof. intros Hp. destruct e as [id node]. cbn [RegionEffects.eff_expr expr_id]. unfold eff_encl. rewrite Hp. left. Qed.

(** Temporaries with a scope of their own are nodes of the initializer. *)
Lemma rvalue_in_ids blk e cx p ef :
  parent cx = Some p → ef ∈ eff_rvalue_in blk e →
  ∃ x, ef = RvalueScope x blk ∧ x ∈ effect_ids (eff_expr cx e).
Proof.
  revert cx p. induction e as [e IH] using Expr_sub_ind. intros cx p Hp Hef.
  pose proof (eff_expr_id cx e p Hp) as Hid. destruct e as [id node].
  rewrite Forall_forall in IH. unfold sub_exprs in IH. cbn [expr_node] in IH.
  cbn [eff_rvalue_in expr_id expr_node] in Hef. apply elem_of_cons in Hef as [->|Hef]; [eauto|].
  cbn [RegionEffects.eff_expr expr_node]. rewrite !effect_ids_app. setoid_rewrite elem_of_app. setoid_rewrite elem_of_app.
  assert (parent (expr_context (mkExpr id node) cx) = Some id) as Hsub by done.
  revert Hsub. generalize (expr_context (mkExpr id node) cx). intros sub Hsub.
  destruct node as [| | | | | | |[]| | | | | | | | | | | | | | | | | | | | | | | |]; try (by apply elem_of_nil in Hef);
    (edestruct (λ y Hy, IH y Hy sub id Hsub) as (x & -> & Hx); [left|exact Hef|exists x]);
    rewrite ?effect_ids_app, ?elem_of_app; eauto.
Qed.

Lemma effect_ids_flat_map {A} (g : A → list effect) l x id :
  x ∈ l → id ∈ effect_ids (g x) → id ∈ effect_ids (flat_map g l).
Proof.
  intros Hx Hid. induction Hx as [x l|x y l Hx IH]; simpl; rewrite effect_ids_app, elem_of_app; auto.
Qed.

Lemma rvalue_borrow_ids blk e cx p ef :
  parent cx = Some p → ef ∈ eff_rvalue_borrow blk e →
  ∃ x, ef = RvalueScope x blk ∧ x ∈ effect_ids (eff_expr cx e).
Proof.
  revert cx p. induction e as [e IH] using Expr_sub_ind. intros cx p Hp Hef. destruct e as [id node].
  rewrite Forall_forall in IH. unfold sub_exprs in IH. cbn [expr_node] in IH.
  cbn [eff_rvalue_borrow expr_id expr_node] in Hef.
  cbn [RegionEffects.eff_expr expr_node]. rewrite !effect_ids_app. setoid_rewrite elem_of_app. setoid_rewrite elem_of_app.
  assert (parent (expr_context (mkExpr id node) cx) = Some id) as Hsub by done.
  revert Hsub. generalize (expr_context (mkExpr id node) cx). intros sub Hsub.
  assert (∀ y, y ∈ sub_exprs (mkExpr id node) → ef ∈ eff_rvalue_borrow blk y →
    ∃ x, ef = RvalueScope x blk ∧ x ∈ effect_ids (eff_expr sub y)) as IH'
    by (intros; by eapply IH).
  destruct node as [| | | | | | |[]| | | | | | | | | |[? [?|] ?]| | | | | | | | | | | | | |];
    try (by apply elem_of_nil in Hef);
    try (destruct (IH' _ ltac:(left) Hef) as (x & -> & Hx); exists x; by auto);
    try (apply list_elem_of_In, in_flat_map in Hef as (y & Hy%list_elem_of_In & Hef%list_elem_of_In)).
  all: try (destruct (IH' y ltac:(done) Hef) as (x & -> & Hx); exists x; split; [done|];
            right; right; by eapply effect_ids_flat_map).
  - apply elem_of_cons in Hef as [->|Hef]; [exists (expr_id e); eauto using eff_expr_id|].
    destruct (IH' e ltac:(left) Hef) as (x & -> & Hx). eauto.
  - destruct (IH e) with (cx := mkContext (Some block_id) (Some block_id)) (p := block_id)
      as (x & -> & Hx); [simpl; apply elem_of_app; right; left|done|done|].
    exists x. split; [done|]. right; right. simpl. rewrite !effect_ids_app, !elem_of_app. auto.
  - apply elem_of_app in Hef as [Hef|Hef].
    + destruct (IH' e ltac:(left) Hef) as (x & -> & Hx). eauto.
    + destruct (rvalue_in_ids blk e sub id ef Hsub Hef) as (x & -> & Hx). eauto.
  - destruct y as [nm e]. destruct (IH' e) as (x & -> & Hx); [|done|].
    + apply elem_of_app. left. apply list_elem_of_bind. exists (mkField nm e). split; [left|done].
    + exists x. split; [done|]. right; right. rewrite effect_ids_app, elem_of_app. left.
      by apply (effect_ids_flat_map (λ f, match f with mkField _ e => eff_expr sub e end) _ (mkField nm e)).
Qed.

Lemma well_marks ps e l : well ps l → well ps (eff_marks e ++ l).
Proof.
  intros Hl. unfold eff_marks.
  destruct (expr_node e) as [| | | | | |[]| | | |? ? []| | | | | | | | | | | | | | | | | | | | |];
    simpl; repeat apply well_mark; done.
Qed.

Lemma below_expr ps e cx : below ps cx → below ({[expr_id e]} ∪ ps) (expr_context e cx).
Proof.
  intros [_ Hv]. split; [exists (expr_id e); set_solver|]. intros v. simpl.
  destruct (expr_node e); intros Hve; simplify_eq; try (apply Hv in Hve); set_solver.
Qed.

Lemma below_block ps id : below ({[id]} ∪ ps) (mkContext (Some id) (Some id)).
Proof. split; [exists id; set_solver|]. intros v [= <-]. set_solver. Qed.

Section step.
Context (n : nat) (HW : wells n).

Ltac wparts :=
  repeat match goal with H : Nat.max _ _ ≤ _ |- _ => apply Nat.max_lub_iff in H as [? ?] end;
  repeat first
    [ done
    | match goal with
      | |- well _ [] => apply well_nil
      | |- well _ (_ ++ _) => apply well_app
      | |- well _ (Terminating _ :: _) => apply well_mark
      | |- well _ (eff_opt _ ?o) => apply well_opt; intros ? ->
      | |- well _ (flat_map _ ?l) =>
          apply well_flat_map; intros ? ?;
          match goal with H : foldr _ 1 ?l ≤ _, Hx : ?x ∈ ?l |- _ =>
            pose proof (proj2 (maxl_le _ _ _ H) x Hx);
            match type of x with FieldPat => destruct x | Field => destruct x | _ => idtac end end
      | |- well _ (RegionEffects.eff_pat _ _ _) => apply (wl_pat _ HW); [done|]
      | |- well _ (RegionEffects.eff_expr _ _ _) => apply (wl_expr _ HW); [done|]
      | |- well _ (RegionEffects.eff_block _ _ _) => apply (wl_block _ HW); [done|]
      | |- well _ (RegionEffects.eff_stmt _ _ _) => apply (wl_stmt _ HW); [done|]
      | |- well _ (RegionEffects.eff_arm _ _ _) => apply (wl_arm _ HW); [done|]
      end ].

Lemma pat_well p cx ps : height_pat p ≤ S n → below ps cx → well ps (eff_pat cx p).
Proof using HW.
  intros Hn Hcx. pose proof Hcx as [(pa & Hpa & Hin) Hv]. destruct p as [id node].
  cbn [height_pat pat_node] in Hn. apply le_S_n in Hn.
  cbn [RegionEffects.eff_pat pat_node pat_id]. unfold eff_encl, eff_var. rewrite Hpa.
  destruct node as [| |bm path sub|path args|path fields etc|ps'|q|q|e|lo hi|before slice after]; simpl app;
    [| |destruct (var_parent cx) as [v|] eqn:Hvp; [apply well_binding; auto; wparts|]|..];
    (apply well_leaf; [done|]); wparts.
Qed.

Lemma contents_well stmts oe id ps :
  height_block (mkBlock stmts oe id) ≤ S n →
  well ({[id]} ∪ ps) (flat_map (eff_stmt (mkContext (Some id) (Some id))) stmts
    ++ eff_opt (eff_expr (mkContext (Some id) (Some id))) oe).
Proof using HW. cbn [height_block]. intros Hn%le_S_n. wparts; apply below_block. Qed.

Lemma block_well b cx ps : height_block b ≤ S n → below ps cx → well ps (eff_block cx b).
Proof using HW.
  intros Hn [(pa & Hpa & Hin) _]. destruct b as [stmts oe id]. cbn [RegionEffects.eff_block].
  unfold eff_encl. rewrite Hpa. apply well_node; [done|]. by apply contents_well.
Qed.

Lemma closure_well ins body cx ps :
  Nat.max (maxl (λ a, height_pat (arg_pat a)) ins) (height_block body) ≤ n → below ps cx →
  well ps (Terminating (block_id body) ::
    flat_map (λ a, eff_pat (fn_context body) (arg_pat a)) ins ++ eff_block cx body).
Proof using HW.
  intros [Hi Hb]%Nat.max_lub_iff [(pa & Hpa & Hin) _]. destruct body as [stmts oe id]. apply well_mark.
  cbn [RegionEffects.eff_block block_id]. unfold eff_encl. rewrite Hpa. simpl app.
  apply well_closure; [done| |apply contents_well; lia]. wparts. apply below_block.
Qed.

Lemma expr_well e cx ps : height_expr e ≤ S n → below ps cx → well ps (eff_expr cx e).
Proof using HW.
  intros Hn Hcx. pose proof (below_expr ps e cx Hcx) as Hsub. pose proof Hcx as [(pa & Hpa & Hin) _].
  destruct e as [id node]. cbn [height_expr expr_node] in Hn. apply le_S_n in Hn.
  cbn [RegionEffects.eff_expr expr_node expr_id]. unfold eff_encl. rewrite Hpa.
  apply well_node; [done|]. apply well_marks. cbn [expr_id] in Hsub. revert Hsub.
  generalize (expr_context (mkExpr id node) cx). intros sub Hsub.
  destruct node as [e v|a b|es|f args|mt tys es|es|op a b|op e|l|e t|cond then_ els|cond body
    |pat e body lab|body lab|scrut arms|[ins out] body|[ins out] body|body|a b|op a b|e f tys|a b|p|mu e|lab|lab
    |o|inputs outputs| |p fields base|a b|e]; try (apply closure_well; [lia|done]); wparts.
Qed.

Lemma stmt_well s cx ps : height_stmt s ≤ S n → below ps cx → well ps (eff_stmt cx s).
Proof using HW.
  intros Hn [(pa & Hpa & Hin) Hv]. 
  assert (∀ id, below ({[id]} ∪ ps) (mkContext (var_parent cx) (Some id))) as Hsub.
  { intros id. split; [exists id; set_solver|]. simpl. intros v Hv'. apply Hv in Hv'. set_solver. }
  destruct s as [d id|e id|e id|]; cbn [RegionEffects.eff_stmt height_stmt] in *; unfold eff_encl; rewrite ?Hpa;
    [| | |split; [apply tree_nil|done|]; intros _ _ Hw; destruct (Hw ExplicitFail); left];
    apply well_mark, well_node; try done; apply le_S_n in Hn;
    [by apply (wl_decl _ HW)|by apply (wl_expr _ HW)..].
Qed.

Lemma local_well l cx ps : height_local l ≤ S n → below ps cx → well ps (eff_local cx l).
Proof using HW.
  intros Hn Hcx. pose proof Hcx as [(pa & Hpa & Hin) Hv]. destruct l as [ty pat init id].
  cbn [RegionEffects.eff_local height_local] in *. apply le_S_n, Nat.max_lub_iff in Hn as [Hp Hi].
  destruct (var_parent cx) as [blk|] eqn:Hvp;
    [|split; [apply tree_nil|done|]; intros _ _ Hw; destruct (Hw CompilerBug); left].
  unfold eff_local_scopes. apply well_let; [auto|]. apply (well_rvalues _ blk); [auto| |wparts].
  intros ef Hef. destruct init as [e|]; [|by apply elem_of_nil in Hef].
  rewrite effect_ids_app. setoid_rewrite elem_of_app. simpl.
  apply elem_of_app in Hef as [Hef|Hef].
  - destruct (rvalue_borrow_ids blk e cx pa ef Hpa Hef) as (x & -> & Hx). eauto.
  - destruct (_ || _); [|by apply elem_of_nil in Hef].
    destruct (rvalue_in_ids blk e cx pa ef Hpa Hef) as (x & -> & Hx). eauto.
Qed.

Lemma wells_S : wells (S n).
Proof using HW.
  constructor; intros.
  - by apply pat_well.
  - by apply expr_well.
  - by apply block_well.
  - by apply stmt_well.
  - destruct d as [l|id]; cbn [height_decl RegionEffects.eff_decl] in *; [|apply well_nil].
    apply (wl_local _ HW); [lia|done].
  - by apply local_well.
  - destruct a as [pats guard body]. cbn [height_arm RegionEffects.eff_arm] in *.
    match goal with H : S _ ≤ S _ |- _ => apply le_S_n in H end. wparts.
Qed.
End step.

Lemma wells_all n : wells n.
Proof.
  induction n as [|n IH]; [|by apply wells_S].
  constructor; intros; repeat match goal with
    | x : Pat |- _ => destruct x | x : Expr |- _ => destruct x | x : Block |- _ => destruct x
    | x : Stmt |- _ => destruct x | x : Decl |- _ => destruct x | x : Local |- _ => destruct x
    | x : Arm |- _ => destruct x end; simpl in *; lia.
Qed.
End wells.

(** ** The maps after the effects *)

Lemma replay_sane l m :
  Forall sane l →
  ∃ m', replay l m = Ok m' ∧
    scope_map m' = foldl (λ M e, <[e.1 := e.2]> M) (scope_map m) (edges l) ∧
    var_map m' = foldl (λ M e, <[e.1 := e.2]> M) (var_map m) (var_scopes l) ∧
    free_region_map m' = free_region_map m ∧
    (∀ id, id ∈ terminating_scopes m' ↔ id ∈ terminating_scopes m ∨ Terminating id ∈ l).
Proof.
  intros Hl. induction Hl as [|ef l Hef _ IH] in m |- *.
  { exists m. split_and!; [done..|]. intros id. rewrite elem_of_nil. tauto. }
  assert (∃ m1, apply_effect ef m = Ok m1 ∧
    scope_map m1 = foldl (λ M e, <[e.1 := e.2]> M) (scope_map m) (edges [ef]) ∧
    var_map m1 = foldl (λ M e, <[e.1 := e.2]> M) (var_map m) (var_scopes [ef]) ∧
    free_region_map m1 = free_region_map m ∧
    (∀ id, id ∈ terminating_scopes m1 ↔ id ∈ terminating_scopes m ∨ Terminating id = ef))
    as (m1 & H1 & Hs1 & Hv1 & Hf1 & Ht1).
  { destruct ef as [c p|c p|c p|c p|id|w]; simpl in Hef |- *;
      unfold record_encl_scope, record_var_scope, record_rvalue_scope; rewrite ?(proj2 (N.eqb_neq c p) Hef);
      simpl; try done; eexists; (split_and!; [reflexivity|done..|]); simpl; intros id'; [naive_solver..|].
      rewrite elem_of_union, elem_of_singleton. naive_solver. }
  destruct (IH m1) as (m2 & H2 & Hs2 & Hv2 & Hf2 & Ht2). exists m2.
  rewrite replay_cons, H1. simpl_ok. split_and!; [done| | |congruence|].
  - rewrite Hs2, Hs1. by destruct ef.
  - rewrite Hv2, Hv1. by destruct ef.
  - intros id. rewrite Ht2, Ht1, elem_of_cons. tauto.
Qed.

Lemma foldl_insert_lookup (es : list (NodeId * NodeId)) (M : gmap NodeId NodeId) c :
  NoDup es.*1 →
  (∀ p, (c, p) ∈ es → foldl (λ M e, <[e.1 := e.2]> M) M es !! c = Some p) ∧
  (c ∉ es.*1 → foldl (λ M e, <[e.1 := e.2]> M) M es !! c = M !! c).
Proof.
  induction es as [|[c' p'] es IH] in M |- *; simpl; [split; [by intros p ?%elem_of_nil|done]|].
  intros [Hn Hnd]%NoDup_cons. destruct (IH (<[c' := p']> M) Hnd) as [H1 H2]. split.
  - intros p [[= <- <-]|Hin]%elem_of_cons; [|by apply H1]. rewrite H2 by done. apply lookup_insert_eq.
  - intros Hc. rewrite H2 by set_solver. apply lookup_insert_ne. set_solver.
Qed.

Lemma foldl_insert_perm (es es' : list (NodeId * NodeId)) (M : gmap NodeId NodeId) :
  NoDup es.*1 → es ≡ₚ es' →
  foldl (λ M e, <[e.1 := e.2]> M) M es = foldl (λ M e, <[e.1 := e.2]> M) M es'.
Proof.
  intros Hnd Hp. apply map_eq. intros c.
  assert (NoDup es'.*1) as Hnd' by (by rewrite <-Hp).
  destruct (foldl_insert_lookup es M c Hnd) as [H1 H2], (foldl_insert_lookup es' M c Hnd') as [H1' H2'].
  destruct (decide (c ∈ es.*1)) as [Hin|Hin].
  - apply list_elem_of_fmap in Hin as ([? p] & -> & Hin). rewrite (H1 p), (H1' p); [done| |done].
    by rewrite <-Hp.
  - rewrite H2, H2'; [done| |done]. by rewrite <-Hp.
Qed.

(** The nodes of a scope map. *)
Definition mentioned (M : gmap NodeId NodeId) (id : NodeId) : Prop :=
  is_Some (M !! id) ∨ ∃ c, M !! c = Some id.

Definition mentioned_set (M : gmap NodeId NodeId) : gset NodeId :=
  list_to_set (map_to_list M).*1 ∪ list_to_set (map_to_list M).*2.

Lemma elem_of_mentioned_set M id : id ∈ mentioned_set M ↔ mentioned M id.
Proof.
  unfold mentioned_set, mentioned. rewrite elem_of_union, !elem_of_list_to_set, !list_elem_of_fmap. split.
  - intros [([? x] & -> & Hx%elem_of_map_to_list)|([x ?] & -> & Hx%elem_of_map_to_list)]; eauto.
  - intros [[x Hx]|[x Hx]]; [left|right]; eexists (_, _); (split; [|by apply elem_of_map_to_list]); done.
Qed.

Lemma submseteq_NoDup {A} (l k : list A) : NoDup k → l ⊆+ k → NoDup l.
Proof. intros Hk (k' & Hp)%submseteq_Permutation. rewrite Hp in Hk. by apply NoDup_app in Hk as [? _]. Qed.

Definition forest (M : gmap NodeId NodeId) : Prop := ∀ s, ∃ l, chain M s l.

Lemma chain_mentioned M s l id : chain M s l → id ∈ l → id = s ∨ mentioned M id.
Proof.
  intros Hc. revert id. induction Hc as [s Hs|s p l Hs Hc IH]; intros id Hid.
  - apply list_elem_of_singleton in Hid. by left.
  - apply elem_of_cons in Hid as [->|Hid]; [by left|]. right.
    destruct (IH id Hid) as [->|?]; [right; eauto|done].
Qed.

Lemma grown_forest ps es M :
  grown ps es → NoDup es.*1 → (∀ c, c ∈ es.*1 → c ∉ ps) → (∀ id, mentioned M id → id ∈ ps) →
  forest M → forest (foldl (λ M e, <[e.1 := e.2]> M) M es).
Proof.
  induction es as [|[c p] es IH] in ps, M |- *; simpl; [done|].
  intros [Hp Hg] [Hn Hnd]%NoDup_cons Hfresh Hps Hf.
  assert (c ∉ ps) as Hc by (apply Hfresh; left).
  apply (IH ({[c]} ∪ ps)); [done|done| | |].
  - intros c' Hc'. assert (c' ∉ ps) by (apply Hfresh; by right). set_solver.
  - intros id [[x Hx]|[x Hx]]; apply lookup_insert_Some in Hx as [[<- <-]|[_ Hx]]; [set_solver| |set_solver|].
    + apply elem_of_union_r, Hps. left. eauto.
    + apply elem_of_union_r, Hps. right. eauto.
  - intros s. destruct (Hf s) as [l Hl], (Hf p) as [lp Hlp]. eapply chain_insert; [done|done|].
    intros Hin. destruct (chain_mentioned _ _ _ _ Hlp Hin) as [->|Hm]; [done|]. by apply Hc, Hps.
Qed.

Lemma grown_reaches ps es (F : gmap NodeId NodeId) c :
  grown ps es → (∀ c p, (c, p) ∈ es → F !! c = Some p) → c ∈ es.*1 →
  ∃ r, r ∈ ps ∧ rtc (λ s p, F !! s = Some p) c r.
Proof.
  induction es as [|[c' p'] es IH] in ps |- *; simpl; [by intros _ _ ?%elem_of_nil|].
  intros [Hp Hg] HF [->|Hc]%elem_of_cons.
  - exists p'. split; [done|]. apply rtc_once, HF. left.
  - destruct (IH ({[c']} ∪ ps)) as (r & Hr & Hrtc); [done|intros; apply HF; by right|done|].
    apply elem_of_union in Hr as [->%elem_of_singleton|Hr]; [|eauto].
    exists p'. split; [done|]. eapply rtc_r; [done|]. apply HF. left.
Qed.

(** ** Functions *)

Section functions.
Context (is_borrowed_ty : TyId → bool).

(** What resolving a function of the crate records. *)
Definition fn_effects (decl : FnDecl) (body : Block) : list effect :=
  eff_fn is_borrowed_ty FkItemFn (mkContext None None) decl body.

(** All nodes of the function have ids of their own, which the maps do not
    know yet, and no macro is left in it. *)
Definition fresh_effects (decl : FnDecl) (body : Block) (m : RegionMaps) : Prop :=
  NoDup (block_id body :: effect_ids (fn_effects decl body)) ∧
  (∀ id, id ∈ block_id body :: effect_ids (fn_effects decl body) → ¬ mentioned (scope_map m) id) ∧
  (∀ w, Bug w ∉ fn_effects decl body).

Lemma fn_effects_well decl body : well {[block_id body]} (fn_effects decl body).
Proof.
  unfold fn_effects, eff_fn. set (n := Nat.max (maxl (λ a, height_pat (arg_pat a)) (fn_inputs decl)) (height_block body)).
  pose proof (wells_all is_borrowed_ty n) as HW. apply well_mark, well_app.
  - apply well_flat_map. intros a Ha. apply (wl_pat _ _ HW).
    + etrans; [|apply Nat.le_max_l]. by apply (proj2 (maxl_le (λ a, height_pat (arg_pat a)) _ _ (Nat.le_refl _))).
    + split; [exists (block_id body); set_solver|]. intros v [= <-]. set_solver.
  - destruct body as [stmts oe id]. cbn [eff_block block_id]. simpl app.
    pose proof (contents_well is_borrowed_ty n HW stmts oe id ∅) as Hc. rewrite (right_id_L ∅ (∪)) in Hc.
    apply Hc. unfold n. lia.
Qed.

Lemma edges_ids l : (edges l).*1 ⊆+ effect_ids l.
Proof.
  induction l as [|ef l IH]; [done|].
  destruct ef; simpl; [by apply submseteq_skip|done|by apply submseteq_cons|done..].
Qed.

Lemma elem_of_edges l c p : (c, p) ∈ edges l ↔ Encl c p ∈ l.
Proof.
  unfold edges. rewrite list_elem_of_omap. split.
  - intros ([] & Hin & Heq); simplify_eq/=; done.
  - intros Hin. by exists (Encl c p).
Qed.

Lemma resolve_fn_maps fuel decl body m :
  height_fn decl body ≤ fuel → fresh_effects decl body m → scopes_wf m →
  let effs := fn_effects decl body in
  ∃ m', resolve_item_fn is_borrowed_ty fuel decl body m = Ok m' ∧ scopes_wf m' ∧
    (∀ c p, Encl c p ∈ effs → scope_map m' !! c = Some p ∧ encloses m' (block_id body) c) ∧
    (∀ c, c ∉ (edges effs).*1 → scope_map m' !! c = scope_map m !! c) ∧
    (∀ v p, (v, p) ∈ var_scopes effs → var_map m' !! v = Some p) ∧
    (∀ v, v ∉ (var_scopes effs).*1 → var_map m' !! v = var_map m !! v) ∧
    (∀ id, id ∈ terminating_scopes m' ↔ id ∈ terminating_scopes m ∨ Terminating id ∈ effs).
Proof.
  intros Hf ([Hnb Hnd]%NoDup_cons & Hfresh & Hbug) Hwf effs.
  destruct (fn_effects_well decl body) as [Htree Hvars Hsane]. fold effs in Htree, Hvars, Hsane, Hnb, Hnd, Hfresh.
  destruct (replay_sane effs m) as (m' & Hr & Hs & Hv & _ & Ht).
  { apply Hsane; [done|set_solver|done]. }
  assert (NoDup (edges effs).*1) as Hnde by (by eapply submseteq_NoDup, edges_ids).
  assert (NoDup (var_scopes effs).*1) as Hndv by (by eapply submseteq_NoDup, Hvars).
  destruct Htree as (es & Hes & Hg).
  assert (∀ c p, Encl c p ∈ effs → scope_map m' !! c = Some p) as Hlook.
  { intros c p Hin. rewrite Hs. apply (proj1 (foldl_insert_lookup _ _ c Hnde)). by apply elem_of_edges. }
  assert (∀ c p, (c, p) ∈ es → scope_map m' !! c = Some p) as Hlook'.
  { intros c p Hin. apply Hlook, elem_of_edges. by rewrite Hes. }
  exists m'. split_and!; [by rewrite resolve_item_fn_replay| | | | | |done].
  - intros s. assert (forest (scope_map m')) as Hfo; [|by apply Hfo]. rewrite Hs, (foldl_insert_perm _ es) by done.
    assert (∀ c, c ∈ es.*1 → c ∈ effect_ids effs) as Hsub.
    { intros c. rewrite <-Hes. intros Hc. eapply elem_of_submseteq; [exact Hc|apply edges_ids]. }
    apply (grown_forest ({[block_id body]} ∪ mentioned_set (scope_map m)));
      [eapply grown_mono; [|done]; set_solver|by rewrite <-Hes| | |done].
    + intros c Hc%Hsub [->%elem_of_singleton|Hin%elem_of_mentioned_set]%elem_of_union; [done|].
      eapply Hfresh; [right|]; done.
    + intros id Hid. by apply elem_of_union_r, elem_of_mentioned_set.
  - intros c p Hin. split; [by apply Hlook|].
    destruct (grown_reaches _ es (scope_map m') c Hg Hlook') as (r & ->%elem_of_singleton & Hr'); [|done].
    apply list_elem_of_fmap. exists (c, p). split; [done|]. rewrite <-Hes. by apply elem_of_edges.
  - intros c Hc. rewrite Hs. by apply (proj2 (foldl_insert_lookup _ _ c Hnde)).
  - intros v p Hin. rewrite Hv. by apply (proj1 (foldl_insert_lookup _ _ v Hndv)).
  - intros v Hin. rewrite Hv. by apply (proj2 (foldl_insert_lookup _ _ v Hndv)).
Qed.

End functions.
