(* ===== verification/Nesting.v ===== *)
(** The nesting of a function as its syntax gives it, without any context that
    a visitor passes down: which node hangs below which, where the variables
    live, and what runs conditionally.  Resolving the function records exactly
    this. *)

From stdpp Require Import prelude gmap list.
From S2P Require Import Prelude Ast Visit RegionMaps RegionResolve RegionEffects RegionTree.

(** ** Nestings *)

(** A binding is a variable; a block or a [match] is a scope that variables
    live in; the rest is neither. *)
Inductive kind : Set := Binding | Scope | Plain.

(** A node with what is inside of it, and whether it runs conditionally,
    repeatedly or as a statement; a [let], which is no node of the nesting; a
    macro that was not expanded. *)
Inductive nest : Set :=
| Nest (k : kind) (cond : bool) (id : NodeId) (inside : list nest)
| Let_ (id : NodeId) (inside : list nest)
| Macro.

(** Every node with the node it is directly inside of. *)
Fixpoint nest_edges (p : NodeId) (t : nest) : list (NodeId * NodeId) :=
  match t with
  | Nest _ _ id inside => (id, p) :: flat_map (nest_edges id) inside
  | Let_ _ inside => flat_map (nest_edges p) inside
  | Macro => []
  end.

(** Every variable and every [let] with the nearest scope around it, [s]
    being the one around the whole. *)
Fixpoint nest_vars (s : NodeId) (t : nest) : list (NodeId * NodeId) :=
  match t with
  | Nest Binding _ id inside => (id, s) :: flat_map (nest_vars s) inside
  | Nest Scope _ id inside => flat_map (nest_vars id) inside
  | Nest Plain _ id inside => flat_map (nest_vars s) inside
  | Let_ id inside => (id, s) :: flat_map (nest_vars s) inside
  | Macro => []
  end.

Fixpoint nest_ids (t : nest) : list NodeId :=
  match t with
  | Nest _ _ id inside | Let_ id inside => id :: flat_map nest_ids inside
  | Macro => []
  end.

Fixpoint nest_conds (t : nest) : list NodeId :=
  match t with
  | Nest _ cond id inside => (if cond then [id] else []) ++ flat_map nest_conds inside
  | Let_ _ inside => flat_map nest_conds inside
  | Macro => []
  end.

Fixpoint nest_macros (t : nest) : list unit :=
  match t with
  | Nest _ _ _ inside | Let_ _ inside => flat_map nest_macros inside
  | Macro => [tt]
  end.

(** ** The nesting of the syntax *)

Definition nest_opt {A B} (f : A → list B) (o : option A) : list B := match o with Some x => f x | None => [] end.

(** The parts of a pattern are beside it. *)
Fixpoint nest_pat (pat : Pat) : list nest :=
  match pat with
  | mkPat id node =>
      Nest match node with PatIdent _ _ _ => Binding | _ => Plain end false id [] ::
      match node with
      | PatWild | PatWildMulti => []
      | PatIdent _ _ sub => nest_opt nest_pat sub
      | PatEnum _ args => nest_opt (flat_map nest_pat) args
      | PatStruct _ fields _ => flat_map (λ f, match f with mkFieldPat _ p => nest_pat p end) fields
      | PatTup elts => flat_map nest_pat elts
      | PatUniq p | PatRegion p => nest_pat p
      | PatLit e => [nest_expr false e]
      | PatRange lo hi => [nest_expr false lo; nest_expr false hi]
      | PatVec before slice after => flat_map nest_pat before ++ nest_opt nest_pat slice ++ flat_map nest_pat after
      end
  end
with nest_expr (cond : bool) (expr : Expr) : nest :=
  match expr with
  | mkExpr id node =>
      Nest match node with ExprMatch _ _ => Scope | _ => Plain end cond id
      match node with
      | ExprLit _ | ExprPath _ | ExprBreak _ | ExprAgain _ | ExprMac => []
      | ExprVstore_ e _ | ExprUnary _ e | ExprCast e _ | ExprField e _ _ | ExprAddrOf _ e | ExprParen e =>
          [nest_expr false e]
      | ExprBinary BiAnd a b | ExprBinary BiOr a b => [nest_expr false a; nest_expr true b]
      | ExprBox a b | ExprBinary _ a b | ExprIndex a b | ExprRepeat a b | ExprAssign a b | ExprAssignOp _ a b =>
          [nest_expr false a; nest_expr false b]
      | ExprVec es | ExprTup es | ExprMethodCall _ _ es => map (nest_expr false) es
      | ExprCall f args => nest_expr false f :: map (nest_expr false) args
      | ExprIf c then_ (Some els) => [nest_expr false c; nest_block true [] then_; nest_expr true els]
      | ExprIf c then_ None => [nest_expr true c; nest_block true [] then_]
      | ExprWhile c body => [nest_expr true c; nest_block true [] body]
      | ExprForLoop p e body _ => nest_pat p ++ [nest_expr false e; nest_block false [] body]
      | ExprLoop body _ => [nest_block true [] body]
      | ExprBlock body => [nest_block false [] body]
      | ExprMatch scrut arms => nest_expr false scrut :: flat_map nest_arm arms
      | ExprFnBlock (mkFnDecl inputs _) body | ExprProc (mkFnDecl inputs _) body =>
          [nest_block true (flat_map (λ a, match a with mkArg _ p => nest_pat p end) inputs) body]
      | ExprRet o => nest_opt (λ e, [nest_expr false e]) o
      | ExprInlineAsm inputs outputs => map (nest_expr false) inputs ++ map (nest_expr false) outputs
      | ExprStruct _ fields base =>
          map (λ f, match f with mkField _ e => nest_expr false e end) fields ++ nest_opt (λ e, [nest_expr false e]) base
      end
  end
(** [args] are the arguments of the function whose body the block is. *)
with nest_block (cond : bool) (args : list nest) (blk : Block) : nest :=
  match blk with
  | mkBlock stmts expr id => Nest Scope cond id (args ++ map nest_stmt stmts ++ nest_opt (λ e, [nest_expr false e]) expr)
  end
with nest_stmt (stmt : Stmt) : nest :=
  match stmt with
  | StmtDecl decl id => Nest Plain true id (nest_decl decl)
  | StmtExpr e id | StmtSemi e id => Nest Plain true id [nest_expr false e]
  | StmtMac => Macro
  end
with nest_decl (decl : Decl) : list nest :=
  match decl with
  | DeclLocal local => [nest_local local]
  | DeclItem _ => []
  end
with nest_local (local : Local) : nest :=
  match local with mkLocal _ pat init id => Let_ id (nest_pat pat ++ nest_opt (λ e, [nest_expr false e]) init) end
with nest_arm (arm : Arm) : list nest :=
  match arm with
  | mkArm pats guard body => flat_map nest_pat pats ++ nest_opt (λ g, [nest_expr true g]) guard ++ [nest_expr true body]
  end.

(** The arguments are inside of the body. *)
Definition nest_fn (decl : FnDecl) (body : Block) : nest :=
  nest_block true (flat_map (λ a, nest_pat (arg_pat a)) (fn_inputs decl)) body.

(** ** The effects are those of the nesting *)

Definition marks (l : list effect) : list NodeId :=
  omap (λ ef, match ef with Terminating id => Some id | _ => None end) l.
Definition bugs (l : list effect) : list unit := omap (λ ef, match ef with Bug _ => Some tt | _ => None end) l.

Record agree (p s : NodeId) (l : list effect) (ts : list nest) : Prop := {
  ag_edges : edges l ≡ₚ flat_map (nest_edges p) ts;
  ag_vars : var_scopes l ≡ₚ flat_map (nest_vars s) ts;
  ag_ids : effect_ids l ≡ₚ flat_map nest_ids ts;
  ag_marks : marks l ≡ₚ flat_map nest_conds ts;
  ag_bugs : bugs l ≡ₚ flat_map nest_macros ts
}.

Lemma agree_nil p s : agree p s [] [].
Proof. done. Qed.
Lemma agree_app p s l l' ts ts' : agree p s l ts → agree p s l' ts' → agree p s (l ++ l') (ts ++ ts').
Proof.
  intros [H1 H2 H3 H4 H5] [H1' H2' H3' H4' H5']. split;
    unfold edges, var_scopes, effect_ids, marks, bugs in *; rewrite omap_app, flat_map_app; by f_equiv.
Qed.
Lemma agree_cons p s l l' t ts : agree p s l [t] → agree p s l' ts → agree p s (l ++ l') (t :: ts).
Proof. apply (agree_app p s l l' [t]). Qed.
Lemma agree_perm p s l l' ts ts' : l ≡ₚ l' → ts ≡ₚ ts' → agree p s l ts → agree p s l' ts'.
Proof.
  intros Hl Ht [H1 H2 H3 H4 H5]. unfold edges, var_scopes, effect_ids, marks, bugs in *.
  split; unfold edges, var_scopes, effect_ids, marks, bugs; rewrite <- Hl;
    (etrans; [eassumption|by apply Permutation_flat_map]).
Qed.
Lemma agree_flat_map {A} p s (g : A → list effect) (h : A → list nest) l :
  (∀ x, x ∈ l → agree p s (g x) (h x)) → agree p s (flat_map g l) (flat_map h l).
Proof.
  induction l as [|x l IH]; intros Hg; [apply agree_nil|]. apply (agree_app p s (g x) _ (h x)); [apply Hg; left|].
  apply IH. intros y Hy. apply Hg. by right.
Qed.
Lemma agree_map {A} p s (g : A → list effect) (h : A → nest) l :
  (∀ x, x ∈ l → agree p s (g x) [h x]) → agree p s (flat_map g l) (map h l).
Proof.
  induction l as [|x l IH]; intros Hg; [apply agree_nil|]. apply (agree_cons p s (g x)); [apply Hg; left|].
  apply IH. intros y Hy. apply Hg. by right.
Qed.
Lemma agree_opt {A} p s (g : A → list effect) (h : A → list nest) o :
  (∀ x, o = Some x → agree p s (g x) (h x)) → agree p s (eff_opt g o) (nest_opt h o).
Proof. destruct o as [x|]; intros Hg; [by apply Hg|apply agree_nil]. Qed.
(** Temporaries are no part of the nesting. *)
Lemma agree_rvalues p s rs l ts : (∀ ef, ef ∈ rs → ∃ x b, ef = RvalueScope x b) → agree p s l ts → agree p s (rs ++ l) ts.
Proof.
  intros Hrs Hl. induction rs as [|ef rs IH]; [done|]. destruct (Hrs ef ltac:(left)) as (x & b & ->).
  destruct IH; [intros; apply Hrs; by right|]. by split.
Qed.

Definition mark (c : bool) (id : NodeId) : list effect := if c then [Terminating id] else [].
Lemma agree_nest p s k c id l ts :
  k ≠ Binding → agree id (match k with Scope => id | _ => s end) l ts →
  agree p s (mark c id ++ Encl id p :: l) [Nest k c id ts].
Proof.
  intros Hk [H1 H2 H3 H4 H5]. split; cbn [flat_map]; rewrite app_nil_r.
  - destruct c; apply perm_skip, H1.
  - destruct c, k; exact H2 || done.
  - destruct c; apply perm_skip, H3.
  - destruct c; [apply perm_skip, H4|exact H4].
  - destruct c; exact H5.
Qed.
Lemma agree_leaf p s id : agree p s [Encl id p] [Nest Plain false id []].
Proof. apply (agree_nest p s Plain false id [] []); [done|apply agree_nil]. Qed.
Lemma agree_binding p s id : agree p s [Encl id p; VarScope id s] [Nest Binding false id []].
Proof. by split. Qed.
Lemma agree_let p s id l ts : agree p s l ts → agree p s (LocalScope id s :: l) [Let_ id ts].
Proof. intros [H1 H2 H3 H4 H5]. split; cbn [flat_map]; rewrite app_nil_r; [exact H1|apply perm_skip, H2|apply perm_skip, H3|exact H4|exact H5]. Qed.

Section agrees.
Context (is_borrowed_ty : TyId → bool).
Abbreviation eff_pat := (eff_pat is_borrowed_ty).
Abbreviation eff_expr := (eff_expr is_borrowed_ty).
Abbreviation eff_block := (eff_block is_borrowed_ty).
Abbreviation eff_stmt := (eff_stmt is_borrowed_ty).
Abbreviation eff_decl := (eff_decl is_borrowed_ty).
Abbreviation eff_local := (eff_local is_borrowed_ty).
Abbreviation eff_arm := (eff_arm is_borrowed_ty).
Abbreviation cx_of s p := (mkContext (Some s) (Some p)).

Record agrees (n : nat) : Prop := {
  ar_pat x p s : height_pat x ≤ n → agree p s (eff_pat (cx_of s p) x) (nest_pat x);
  ar_expr x c p s : height_expr x ≤ n → agree p s (mark c (expr_id x) ++ eff_expr (cx_of s p) x) [nest_expr c x];
  ar_block x c p s la args : height_block x ≤ n → agree (block_id x) (block_id x) la args →
    agree p s (mark c (block_id x) ++ la ++ eff_block (cx_of s p) x) [nest_block c args x];
  ar_stmt x p s : height_stmt x ≤ n → agree p s (eff_stmt (cx_of s p) x) [nest_stmt x];
  ar_decl x p s : height_decl x ≤ n → agree p s (eff_decl (cx_of s p) x) (nest_decl x);
  ar_local x p s : height_local x ≤ n → agree p s (eff_local (cx_of s p) x) [nest_local x];
  ar_arm x p s : height_arm x ≤ n → agree p s (eff_arm (cx_of s p) x) (nest_arm x)
}.

Lemma rvalue_in_only blk e ef : ef ∈ eff_rvalue_in blk e → ∃ x b, ef = RvalueScope x b.
Proof.
  induction e as [e IH] using Expr_sub_ind. destruct e as [id node]. rewrite Forall_forall in IH. unfold sub_exprs in IH. cbn [expr_node] in IH.
  cbn [eff_rvalue_in expr_id expr_node]. intros [->|Hef]%elem_of_cons; [eauto|].
  destruct node as [| | | | | | |[]| | | | | | | | | | | | | | | | | | | | | | | |]; try (by apply elem_of_nil in Hef); (eapply IH; [|exact Hef]); left.
Qed.
Lemma rvalue_borrow_only blk e ef : ef ∈ eff_rvalue_borrow blk e → ∃ x b, ef = RvalueScope x b.
Proof.
  intros Hef. destruct (rvalue_borrow_ids is_borrowed_ty blk e (cx_of 0%N 0%N) 0%N ef eq_refl Hef) as (x & -> & _). eauto.
Qed.

Section step.
Context (n : nat) (HA : agrees n).

Lemma ar_expr_plain x p s : height_expr x ≤ n → agree p s (eff_expr (cx_of s p) x) [nest_expr false x].
Proof using HA. exact (ar_expr n HA x false p s). Qed.
Lemma ar_block_plain x c p s : height_block x ≤ n → agree p s (mark c (block_id x) ++ eff_block (cx_of s p) x) [nest_block c [] x].
Proof using HA. intros Hx. exact (ar_block n HA x c p s [] [] Hx (agree_nil _ _)). Qed.

Ltac aparts :=
  repeat match goal with H : Nat.max _ _ ≤ _ |- _ => apply Nat.max_lub_iff in H as [? ?] end;
  repeat first
    [ done
    | match goal with
      | |- agree _ _ [] [] => apply agree_nil
      | |- agree _ _ (eff_opt _ ?o) (nest_opt _ ?o) => apply agree_opt; intros ? ->
      | |- agree _ _ (flat_map _ ?l) (_ ?l) =>
          (apply agree_flat_map || apply agree_map); intros ? ?;
          match goal with H : foldr _ 1 ?l ≤ _, Hx : ?x ∈ ?l |- _ =>
            pose proof (proj2 (maxl_le _ _ _ H) x Hx);
            match type of x with FieldPat => destruct x | Field => destruct x | _ => idtac end end
      | |- agree _ _ (RegionEffects.eff_pat _ _ _) _ => apply (ar_pat _ HA); done
      | |- agree _ _ (RegionEffects.eff_expr _ _ _) _ => apply ar_expr_plain; done
      | |- agree _ _ (RegionEffects.eff_block _ _ _) _ => apply (ar_block_plain _ false); done
      | |- agree _ _ (RegionEffects.eff_stmt _ _ _) _ => apply (ar_stmt _ HA); done
      | |- agree _ _ (RegionEffects.eff_arm _ _ _) _ => apply (ar_arm _ HA); done
      | |- agree _ _ (Terminating _ :: RegionEffects.eff_expr _ _ _) _ => apply (ar_expr _ HA _ true); done
      | |- agree _ _ (Terminating _ :: RegionEffects.eff_block _ _ _) _ => apply (ar_block_plain _ true); done
      | |- agree _ _ (_ ++ _) (_ ++ _) => apply agree_app
      | |- agree _ _ (_ ++ _) (_ :: _) => apply agree_cons
      end ].

Lemma pat_agree x p s : height_pat x ≤ S n → agree p s (eff_pat (cx_of s p) x) (nest_pat x).
Proof using HA.
  intros Hn. destruct x as [id node]. cbn [height_pat pat_node] in Hn. apply le_S_n in Hn.
  cbn [RegionEffects.eff_pat pat_node pat_id nest_pat]. unfold eff_encl, eff_var. cbn [parent var_parent].
  destruct node as [| |bm path sub|path args|path fields etc|ps'|q|q|e|lo hi|before slice after];
    simpl app.
  all: try (apply (agree_cons p s [Encl id p]); [apply agree_leaf|]; aparts).
  apply (agree_cons p s [Encl id p; VarScope id s]); [apply agree_binding|]; aparts.
Qed.

Lemma contents_agree stmts oe id :
  height_block (mkBlock stmts oe id) ≤ S n →
  agree id id (flat_map (eff_stmt (cx_of id id)) stmts ++ eff_opt (eff_expr (cx_of id id)) oe)
    (map nest_stmt stmts ++ nest_opt (λ e, [nest_expr false e]) oe).
Proof using HA. cbn [height_block]. intros Hn%le_S_n. aparts. Qed.

Lemma block_agree x c p s la args :
  height_block x ≤ S n → agree (block_id x) (block_id x) la args →
  agree p s (mark c (block_id x) ++ la ++ eff_block (cx_of s p) x) [nest_block c args x].
Proof using HA.
  intros Hn Hla. destruct x as [stmts oe id]. cbn [RegionEffects.eff_block nest_block block_id] in *. unfold eff_encl. cbn [parent app].
  eapply agree_perm; [|reflexivity|apply (agree_nest p s Scope c id); [done|apply agree_app; [exact Hla|by apply contents_agree]]].
  apply Permutation_app_head, Permutation_middle.
Qed.

Lemma arm_agree x p s : height_arm x ≤ S n → agree p s (eff_arm (cx_of s p) x) (nest_arm x).
Proof using HA.
  intros Hn. destruct x as [pats guard body]. cbn [height_arm RegionEffects.eff_arm nest_arm] in *. apply le_S_n in Hn.
  apply agree_perm with (l := flat_map (eff_pat (cx_of s p)) pats ++ eff_opt (λ g, Terminating (expr_id g) :: eff_expr (cx_of s p) g) guard
    ++ Terminating (expr_id body) :: eff_expr (cx_of s p) body) (ts := flat_map nest_pat pats ++ nest_opt (λ g, [nest_expr true g]) guard ++ [nest_expr true body]);
    [|done|aparts]. destruct guard; cbn [eff_opt]; solve_Permutation.
Qed.

Lemma stmt_agree x p s : height_stmt x ≤ S n → agree p s (eff_stmt (cx_of s p) x) [nest_stmt x].
Proof using HA.
  intros Hn. destruct x as [d id|e id|e id|]; cbn [RegionEffects.eff_stmt height_stmt nest_stmt] in *; unfold eff_encl; cbn [parent var_parent app];
    try apply le_S_n in Hn; try (apply (agree_nest p s Plain true id); [done|]).
  - by apply (ar_decl _ HA).
  - by apply ar_expr_plain.
  - by apply ar_expr_plain.
  - by split.
Qed.

Lemma local_agree x p s : height_local x ≤ S n → agree p s (eff_local (cx_of s p) x) [nest_local x].
Proof using HA.
  intros Hn. destruct x as [ty pat init id]. cbn [RegionEffects.eff_local height_local nest_local var_parent] in *. apply le_S_n in Hn.
  unfold eff_local_scopes. cbn [app]. apply agree_let, agree_rvalues; [|aparts].
  intros ef. destruct init as [e|]; [|by intros ?%elem_of_nil].
  intros [Hef|Hef]%elem_of_app; [by eapply rvalue_borrow_only|]. destruct (_ || _); [by eapply rvalue_in_only|by apply elem_of_nil in Hef].
Qed.

Lemma closure_agree ins body p s :
  Nat.max (maxl (λ a, height_pat (arg_pat a)) ins) (height_block body) ≤ n →
  agree p s (Terminating (block_id body) :: flat_map (λ a, eff_pat (fn_context body) (arg_pat a)) ins ++ eff_block (cx_of s p) body)
    [nest_block true (flat_map (λ a, match a with mkArg _ q => nest_pat q end) ins) body].
Proof using HA.
  intros [Hi Hb]%Nat.max_lub_iff. apply (ar_block _ HA _ true); [done|]. apply agree_flat_map. intros [ty q] Hq.
  apply (ar_pat _ HA). by apply (proj2 (maxl_le (λ a, height_pat (arg_pat a)) _ _ Hi) (mkArg ty q)).
Qed.

Lemma expr_agree x c p s :
  height_expr x ≤ S n → agree p s (mark c (expr_id x) ++ eff_expr (cx_of s p) x) [nest_expr c x].
Proof using HA.
  intros Hn. destruct x as [id node]. cbn [height_expr expr_node] in Hn. apply le_S_n in Hn.
  cbn [RegionEffects.eff_expr expr_node expr_id nest_expr]. unfold eff_encl, expr_context, eff_marks. cbn [parent var_parent expr_node expr_id app].
  apply agree_nest; [by destruct node|].
  destruct node as [e v|a b|es|f args|mt tys es|es|op a b|op e|l|e t|cond then_ els|cond body
    |pat e body lab|body lab|scrut arms|[ins out] body|[ins out] body|body|a b|op a b|e f tys|a b|q|mu e|lab|lab
    |o|inputs outputs| |q fields base|a b|e]; cbn [app]; try (apply closure_agree; lia); try (aparts; fail).
  - apply agree_perm with (l := eff_expr (cx_of s id) f ++ flat_map (eff_expr (cx_of s id)) args)
      (ts := nest_expr false f :: map (nest_expr false) args); [solve_Permutation|done|aparts].
  - destruct op; cbn [app]; try (aparts; fail);
      (apply agree_perm with (l := eff_expr (cx_of s id) a ++ Terminating (expr_id b) :: eff_expr (cx_of s id) b)
        (ts := [nest_expr false a; nest_expr true b]); [solve_Permutation|done|aparts]).
  - destruct els as [els|]; cbn [eff_opt].
    + apply agree_perm with (l := eff_expr (cx_of s id) cond ++ (Terminating (block_id then_) :: eff_block (cx_of s id) then_)
        ++ Terminating (expr_id els) :: eff_expr (cx_of s id) els)
        (ts := [nest_expr false cond; nest_block true [] then_; nest_expr true els]); [solve_Permutation|done|aparts].
    + apply agree_perm with (l := (Terminating (expr_id cond) :: eff_expr (cx_of s id) cond)
        ++ Terminating (block_id then_) :: eff_block (cx_of s id) then_)
        (ts := [nest_expr true cond; nest_block true [] then_]); [solve_Permutation|done|aparts].
  - apply agree_perm with (l := (Terminating (expr_id cond) :: eff_expr (cx_of s id) cond)
      ++ Terminating (block_id body) :: eff_block (cx_of s id) body)
      (ts := [nest_expr true cond; nest_block true [] body]); [solve_Permutation|done|aparts].
  - apply agree_perm with (l := eff_expr (cx_of s id) a ++ eff_expr (cx_of s id) b)
      (ts := [nest_expr false a; nest_expr false b]); [solve_Permutation|done|aparts].
  - apply agree_perm with (l := eff_expr (cx_of s id) a ++ eff_expr (cx_of s id) b)
      (ts := [nest_expr false a; nest_expr false b]); [solve_Permutation|done|aparts].
Qed.

Lemma agrees_S : agrees (S n).
Proof using HA.
  constructor; intros.
  - by apply pat_agree.
  - by apply expr_agree.
  - by apply block_agree.
  - by apply stmt_agree.
  - destruct x as [l|id]; cbn [height_decl RegionEffects.eff_decl nest_decl] in *; [|apply agree_nil].
    apply (ar_local _ HA). lia.
  - by apply local_agree.
  - by apply arm_agree.
Qed.

End step.
Lemma agrees_all n : agrees n.
Proof.
  induction n as [|n IH]; [|by apply agrees_S].
  constructor; intros; repeat match goal with
    | x : Pat |- _ => destruct x | x : Expr |- _ => destruct x | x : Block |- _ => destruct x
    | x : Stmt |- _ => destruct x | x : Decl |- _ => destruct x | x : Local |- _ => destruct x
    | x : Arm |- _ => destruct x end; simpl in *; lia.
Qed.
End agrees.

(** ** Functions *)

Definition inside (t : nest) : list nest := match t with Nest _ _ _ ts | Let_ _ ts => ts | Macro => [] end.

Section functions.
Context (is_borrowed_ty : TyId → bool).

(** The nodes that hang below the body, directly or not, each with its parent. *)
Definition fn_edges (decl : FnDecl) (body : Block) : list (NodeId * NodeId) :=
  flat_map (nest_edges (block_id body)) (inside (nest_fn decl body)).
(** The variables, each with the scope it lives in. *)
Definition fn_vars (decl : FnDecl) (body : Block) : list (NodeId * NodeId) :=
  nest_vars (block_id body) (nest_fn decl body).

(** All nodes of the function have ids of their own, which the maps do not
    know yet, and no macro is left in it. *)
Definition fresh_fn (decl : FnDecl) (body : Block) (m : RegionMaps) : Prop :=
  NoDup (nest_ids (nest_fn decl body)) ∧
  (∀ id, id ∈ nest_ids (nest_fn decl body) → ¬ mentioned (scope_map m) id) ∧
  nest_macros (nest_fn decl body) = [].

Lemma fn_effects_agree decl body :
  ∃ l, fn_effects is_borrowed_ty decl body = Terminating (block_id body) :: l ∧
    agree (block_id body) (block_id body) l (inside (nest_fn decl body)).
Proof.
  unfold fn_effects, eff_fn, nest_fn. eexists. split; [reflexivity|].
  set (n := Nat.max (maxl (λ a, height_pat (arg_pat a)) (fn_inputs decl)) (height_block body)).
  pose proof (agrees_all is_borrowed_ty n) as HA. destruct body as [stmts oe id]. cbn [eff_block block_id nest_block inside app].
  apply agree_app; [|apply (contents_agree _ n HA); unfold n; lia]. apply agree_flat_map. intros a Ha. apply (ar_pat _ _ HA).
  etrans; [|apply Nat.le_max_l]. by apply (proj2 (maxl_le (λ a, height_pat (arg_pat a)) _ _ (Nat.le_refl _))).
Qed.

Lemma nest_fn_ids decl body : nest_ids (nest_fn decl body) = block_id body :: flat_map nest_ids (inside (nest_fn decl body)).
Proof. unfold nest_fn. by destruct body. Qed.

Lemma no_bug l : bugs l = [] ↔ ∀ w, Bug w ∉ l.
Proof.
  induction l as [|ef l IH]; [split; [by intros _ w ?%elem_of_nil|done]|]. unfold bugs in *.
  destruct ef; cbn [omap list_omap]; [rewrite IH; set_solver..|]. split; [done|]. intros Hw. destruct (Hw w). left.
Qed.

Lemma fresh_fn_effects decl body m : fresh_fn decl body m ↔ fresh_effects is_borrowed_ty decl body m.
Proof.
  unfold fresh_fn, fresh_effects. destruct (fn_effects_agree decl body) as (l & -> & Hl). rewrite nest_fn_ids.
  change (effect_ids (Terminating (block_id body) :: l)) with (effect_ids l). rewrite <- (ag_ids _ _ _ _ Hl).
  setoid_rewrite <- (ag_ids _ _ _ _ Hl).
  assert (nest_macros (nest_fn decl body) = [] ↔ ∀ w, Bug w ∉ Terminating (block_id body) :: l) as ->; [|done].
  rewrite <- no_bug. change (bugs (Terminating (block_id body) :: l)) with (bugs l).
  replace (nest_macros (nest_fn decl body)) with (flat_map nest_macros (inside (nest_fn decl body))) by (unfold nest_fn; by destruct body).
  pose proof (ag_bugs _ _ _ _ Hl) as Hb. split; intros E; rewrite E in Hb; [by apply Permutation_nil_r in Hb|symmetry in Hb; by apply Permutation_nil_r in Hb].
Qed.

End functions.
