(* ===== verification/Ty.v ===== *)
(** Semantic types, [sty] of [src/librustc/middle/ty.rs], and the tables of the
    type context [ty::ctxt] the analyses consult: what paths resolve to, the
    types of nodes, the variants of enums, the fields of structs and the
    initializers of statics. *)

From stdpp Require Import prelude gmap strings list.
From S2P Require Import Prelude Ast RegionMaps.

Inductive Vstore := VstoreFixed (n : nat) | VstoreUniq | VstoreSlice (r : Region).

(** A type; [substs] are the type arguments of a nominal type. *)
Inductive ty :=
  | ty_nil
  | ty_bot
  | ty_bool
  | ty_char
  | ty_int (t : IntTy)
  | ty_uint (t : UintTy)
  | ty_float (t : FloatTy)
  | ty_enum (did : DefId) (substs : list ty)
  | ty_box (t : ty)
  | ty_uniq (t : ty)
  | ty_str (v : Vstore)
  | ty_vec (t : ty) (v : Vstore)
  | ty_ptr (t : ty) (m : Mutability)
  | ty_rptr (r : Region) (t : ty) (m : Mutability)
  | ty_bare_fn
  | ty_closure
  | ty_trait (did : DefId) (substs : list ty)
  | ty_struct (did : DefId) (substs : list ty)
  | ty_tup (ts : list ty)
  | ty_param (idx : N)
  | ty_self (did : DefId)
  | ty_infer
  | ty_err.

(** [VariantInfo]: the fields used here. *)
Record VariantInfo := mkVariantInfo { va_args : list ty; va_name : Name; va_id : DefId }.

(** [field_ty]. *)
Record field_ty := mkFieldTy { ft_name : Name; ft_ty : ty }.

Record ctxt := mkCtxt {
  def_map : gmap NodeId Def;
  node_types : gmap NodeId ty;
  enum_variants : DefId → list VariantInfo;
  lookup_struct_fields : DefId → list field_ty;
  (** the initializer of a static, [lookup_const_by_id] *)
  lookup_const_by_id : DefId → option Expr;
  (** the initializer of the static or variant a path expression names,
      [lookup_const] *)
  lookup_const : Expr → option Expr;
  (** the primitive type a type expression names, [astconv::ast_ty_to_prim_ty] *)
  ast_ty_to_prim_ty : TyId → option ty
}.

(** The flag [has_ty_bot] of a type, which [mk_t] collects from its parts; a
    function that returns [!] is not itself of type [!]. *)
Fixpoint type_is_bot (t : ty) : bool :=
  match t with
  | ty_bot => true
  | ty_box t | ty_uniq t | ty_vec t _ | ty_ptr t _ | ty_rptr _ t _ => type_is_bot t
  | ty_enum _ substs | ty_struct _ substs | ty_trait _ substs => existsb type_is_bot substs
  | ty_tup ts => existsb type_is_bot ts
  | _ => false
  end.

Section queries.
Context (tcx : ctxt).

Definition node_id_to_type (id : NodeId) : outcome ty :=
  match node_types tcx !! id with Some t => Ok t | None => Fail CompilerBug end.

Definition expr_ty_opt (e : Expr) : option ty := node_types tcx !! expr_id e.

Definition type_is_empty (t : ty) : bool :=
  match t with
  | ty_enum did _ => match enum_variants tcx did with [] => true | _ => false end
  | _ => false
  end.
End queries.
