(* ===== verification/ConstEval.v ===== *)
(** Evaluation of constant expressions and comparison of constants,
    [src/librustc/middle/const_eval.rs].  [i64] and [u64] are integers with
    their wrap-around written out; [f64] is the IEEE 754 binary64 format of the
    Standard Library's [SpecFloat].  Operations without a defined result on
    their operands (a shift by the width or more, the quotient of the least
    [i64] by [-1], a float out of range cast to an integer) are the outcome
    [Undefined]. *)

From Stdlib Require Import SpecFloat.
From stdpp Require Import prelude gmap strings list.
From S2P Require Import Prelude Ast RegionMaps Ty.

(** ** Machine arithmetic *)

Abbreviation f64 := spec_float (only parsing).
Definition f64_prec : Z := 53.
Definition f64_emax : Z := 1024.

Definition wrap_i64 (z : Z) : Z := (z + 2 ^ 63) mod 2 ^ 64 - 2 ^ 63.
Definition wrap_u64 (z : Z) : Z := z mod 2 ^ 64.

Definition in_i64 (z : Z) : bool := (- 2 ^ 63 <=? z)%Z && (z <? 2 ^ 63)%Z.
Definition in_u64 (z : Z) : bool := (0 <=? z)%Z && (z <? 2 ^ 64)%Z.

Definition f64_of_int (z : Z) : f64 := binary_normalize f64_prec f64_emax z 0 false.

(** [frem]: the remainder of the truncated quotient, with the sign of [x]. *)
Definition f64_rem (x y : f64) : f64 :=
  match x, y with
  | S754_nan, _ | _, S754_nan | S754_infinity _, _ | _, S754_zero _ => S754_nan
  | S754_zero s, _ => S754_zero s
  | S754_finite _ _ _, S754_infinity _ => x
  | S754_finite sx mx ex, S754_finite _ my ey =>
      let e := Z.min ex ey in
      let r := ((Zpos mx * 2 ^ (ex - e)) mod (Zpos my * 2 ^ (ey - e)))%Z in
      binary_normalize f64_prec f64_emax (if sx then - r else r)%Z e sx
  end.

(** The integer part of a float, towards zero. *)
Definition f64_trunc (x : f64) : option Z :=
  match x with
  | S754_zero _ => Some 0%Z
  | S754_finite s m e =>
      let n := if (0 <=? e)%Z then (Zpos m * 2 ^ e)%Z else (Zpos m / 2 ^ (- e))%Z in
      Some (if s then - n else n)%Z
  | S754_infinity _ | S754_nan => None
  end.

Definition f64_to_int (ok : Z → bool) (x : f64) : outcome Z :=
  match f64_trunc x with
  | Some z => if ok z then Ok z else Fail Undefined
  | None => Fail Undefined
  end.

Definition shift_ok (b : Z) : bool := (0 <=? b)%Z && (b <? 64)%Z.

(** ** Constants *)

Inductive const_val :=
  | const_float (f : f64)
  | const_int (i : Z)
  | const_uint (u : Z)
  | const_str (s : string)
  | const_binary (data : list Z)
  | const_bool (b : bool).

(** [#\[deriving(Eq)\]]. *)
Definition const_val_eqb (a b : const_val) : bool :=
  match a, b with
  | const_float a, const_float b => SFeqb a b
  | const_int a, const_int b => (a =? b)%Z
  | const_uint a, const_uint b => (a =? b)%Z
  | const_str a, const_str b => String.eqb a b
  | const_binary a, const_binary b => bool_decide (a = b)
  | const_bool a, const_bool b => Bool.eqb a b
  | _, _ => false
  end.

(** [Result<const_val, ~str>]: a constant or the reason there is none. *)
Abbreviation const_result := (const_val + string)%type (only parsing).

Section eval.
Context (tcx : ctxt).
(** [from_str::<f64>] of the standard library. *)
Context (f64_from_str : string → option f64).

Definition lit_to_const (lit : Lit_) : outcome const_val :=
  match lit with
  | LitStr s _ => Ok (const_str s)
  | LitBinary data => Ok (const_binary data)
  | LitChar n => Ok (const_uint n)
  | LitInt n _ => Ok (const_int n)
  | LitUint n _ => Ok (const_uint n)
  | LitIntUnsuffixed n => Ok (const_int n)
  | LitFloat n _ | LitFloatUnsuffixed n => f ← unwrap (f64_from_str n); Ok (const_float f)
  | LitNil => Ok (const_int 0)
  | LitBool b => Ok (const_bool b)
  end.

Definition fromb (b : bool) : outcome const_result := Ok (inl (const_int (if b then 1 else 0)%Z)).

Definition float_op (op : BinOp) (a b : f64) : outcome const_result :=
  match op with
  | BiAdd => Ok (inl (const_float (SFadd f64_prec f64_emax a b)))
  | BiSub => Ok (inl (const_float (SFsub f64_prec f64_emax a b)))
  | BiMul => Ok (inl (const_float (SFmul f64_prec f64_emax a b)))
  | BiDiv => Ok (inl (const_float (SFdiv f64_prec f64_emax a b)))
  | BiRem => Ok (inl (const_float (f64_rem a b)))
  | BiEq => fromb (SFeqb a b)
  | BiLt => fromb (SFltb a b)
  | BiLe => fromb (SFleb a b)
  | BiNe => fromb (negb (SFeqb a b))
  | BiGe => fromb (SFleb b a)
  | BiGt => fromb (SFltb b a)
  | _ => Ok (inr "can't do this op on floats")
  end.

(** The quotient of the least [i64] by [-1] does not fit. *)
Definition div_ok (a b : Z) : bool := negb ((a =? - 2 ^ 63)%Z && (b =? -1)%Z).

Definition int_op (op : BinOp) (a b : Z) : outcome const_result :=
  match op with
  | BiAdd => Ok (inl (const_int (wrap_i64 (a + b))))
  | BiSub => Ok (inl (const_int (wrap_i64 (a - b))))
  | BiMul => Ok (inl (const_int (wrap_i64 (a * b))))
  | BiDiv =>
      if (b =? 0)%Z then Ok (inr "attempted to divide by zero")
      else if div_ok a b then Ok (inl (const_int (Z.quot a b))) else Fail Undefined
  | BiRem =>
      if (b =? 0)%Z then Ok (inr "attempted remainder with a divisor of zero")
      else if div_ok a b then Ok (inl (const_int (Z.rem a b))) else Fail Undefined
  | BiAnd | BiBitAnd => Ok (inl (const_int (Z.land a b)))
  | BiOr | BiBitOr => Ok (inl (const_int (Z.lor a b)))
  | BiBitXor => Ok (inl (const_int (Z.lxor a b)))
  | BiShl => if shift_ok b then Ok (inl (const_int (wrap_i64 (Z.shiftl a b)))) else Fail Undefined
  | BiShr => if shift_ok b then Ok (inl (const_int (Z.shiftr a b))) else Fail Undefined
  | BiEq => fromb (a =? b)%Z
  | BiLt => fromb (a <? b)%Z
  | BiLe => fromb (a <=? b)%Z
  | BiNe => fromb (negb (a =? b)%Z)
  | BiGe => fromb (b <=? a)%Z
  | BiGt => fromb (b <? a)%Z
  end.

Definition uint_op (op : BinOp) (a b : Z) : outcome const_result :=
  match op with
  | BiAdd => Ok (inl (const_uint (wrap_u64 (a + b))))
  | BiSub => Ok (inl (const_uint (wrap_u64 (a - b))))
  | BiMul => Ok (inl (const_uint (wrap_u64 (a * b))))
  | BiDiv =>
      if (b =? 0)%Z then Ok (inr "attempted to divide by zero")
      else Ok (inl (const_uint (a / b)))
  | BiRem =>
      if (b =? 0)%Z then Ok (inr "attempted remainder with a divisor of zero")
      else Ok (inl (const_uint (a mod b)))
  | BiAnd | BiBitAnd => Ok (inl (const_uint (Z.land a b)))
  | BiOr | BiBitOr => Ok (inl (const_uint (Z.lor a b)))
  | BiBitXor => Ok (inl (const_uint (Z.lxor a b)))
  | BiShl => if shift_ok b then Ok (inl (const_uint (wrap_u64 (Z.shiftl a b)))) else Fail Undefined
  | BiShr => if shift_ok b then Ok (inl (const_uint (Z.shiftr a b))) else Fail Undefined
  | BiEq => fromb (a =? b)%Z
  | BiLt => fromb (a <? b)%Z
  | BiLe => fromb (a <=? b)%Z
  | BiNe => fromb (negb (a =? b)%Z)
  | BiGe => fromb (b <=? a)%Z
  | BiGt => fromb (b <? a)%Z
  end.

Definition bool_op (op : BinOp) (a b : bool) : outcome const_result :=
  match op with
  | BiAnd | BiBitAnd => Ok (inl (const_bool (a && b)))
  | BiOr | BiBitOr => Ok (inl (const_bool (a || b)))
  | BiBitXor => Ok (inl (const_bool (xorb a b)))
  | BiEq => Ok (inl (const_bool (Bool.eqb a b)))
  | BiNe => Ok (inl (const_bool (negb (Bool.eqb a b))))
  | _ => Ok (inr "can't do this op on bools")
  end.

Definition binary_op (op : BinOp) (a b : const_result) : outcome const_result :=
  match a, b with
  | inl (const_float a), inl (const_float b) => float_op op a b
  | inl (const_int a), inl (const_int b) => int_op op a b
  | inl (const_uint a), inl (const_uint b) => uint_op op a b
  (* shifts can have any integral type as their rhs *)
  | inl (const_int a), inl (const_uint b) =>
      match op with
      | BiShl =>
          if shift_ok b then Ok (inl (const_int (wrap_i64 (Z.shiftl a b)))) else Fail Undefined
      | BiShr => if shift_ok b then Ok (inl (const_int (Z.shiftr a b))) else Fail Undefined
      | _ => Ok (inr "can't do this op on an int and uint")
      end
  | inl (const_uint a), inl (const_int b) =>
      match op with
      | BiShl =>
          if shift_ok b then Ok (inl (const_uint (wrap_u64 (Z.shiftl a b)))) else Fail Undefined
      | BiShr => if shift_ok b then Ok (inl (const_uint (Z.shiftr a b))) else Fail Undefined
      | _ => Ok (inr "can't do this op on a uint and int")
      end
  | inl (const_bool a), inl (const_bool b) => bool_op op a b
  | _, _ => Ok (inr "bad operands for binary")
  end.

Definition neg_op (v : const_result) : const_result :=
  match v with
  | inl (const_float f) => inl (const_float (SFopp f))
  | inl (const_int i) => inl (const_int (wrap_i64 (- i)))
  | inl (const_uint i) => inl (const_uint (wrap_u64 (- i)))
  | inl (const_str _) => inr "negate on string"
  | inl (const_bool _) => inr "negate on boolean"
  | err => err
  end.

Definition not_op (v : const_result) : const_result :=
  match v with
  | inl (const_int i) => inl (const_int (Z.lnot i))
  | inl (const_uint i) => inl (const_uint (2 ^ 64 - 1 - i))
  | inl (const_bool b) => inl (const_bool (negb b))
  | _ => inr "not on float or string"
  end.

Definition cast_op (ety : ty) (val : const_val) : outcome const_result :=
  match ety with
  | ty_float _ =>
      match val with
      | const_uint u => Ok (inl (const_float (f64_of_int u)))
      | const_int i => Ok (inl (const_float (f64_of_int i)))
      | const_float f => Ok (inl (const_float f))
      | _ => Ok (inr "can't cast float to str")
      end
  | ty_uint _ =>
      match val with
      | const_uint u => Ok (inl (const_uint u))
      | const_int i => Ok (inl (const_uint (wrap_u64 i)))
      | const_float f => z ← f64_to_int in_u64 f; Ok (inl (const_uint z))
      | _ => Ok (inr "can't cast str to uint")
      end
  | ty_int _ | ty_bool =>
      match val with
      | const_uint u => Ok (inl (const_int (wrap_i64 u)))
      | const_int i => Ok (inl (const_int i))
      | const_float f => z ← f64_to_int in_i64 f; Ok (inl (const_int z))
      | _ => Ok (inr "can't cast str to int")
      end
  | _ => Ok (inr "can't cast this type")
  end.

Fixpoint eval_const_expr_partial (fuel : nat) (e : Expr) : outcome const_result :=
  match fuel with
  | 0 => Fail Diverged
  | S fuel' =>
      match expr_node e with
      | ExprUnary UnNeg inner => neg_op <$> eval_const_expr_partial fuel' inner
      | ExprUnary UnNot inner => not_op <$> eval_const_expr_partial fuel' inner
      | ExprBinary op a b =>
          a ← eval_const_expr_partial fuel' a;
          b ← eval_const_expr_partial fuel' b;
          binary_op op a b
      | ExprCast base target_ty =>
          ety ← match expr_ty_opt tcx e with
                | Some t => Ok t
                | None => match ast_ty_to_prim_ty tcx target_ty with
                          | Some t => Ok t
                          | None => Fail FatalError
                          end
                end;
          base ← eval_const_expr_partial fuel' base;
          match base with
          | inr _ => Ok base
          | inl val => cast_op ety val
          end
      | ExprPath _ =>
          match lookup_const tcx e with
          | Some actual_e => eval_const_expr_partial fuel' actual_e
          | None => Ok (inr "non-constant path in constant expr")
          end
      | ExprLit lit => inl <$> lit_to_const lit
      (* If we have a vstore, just keep going; it has to be a string *)
      | ExprVstore_ e _ => eval_const_expr_partial fuel' e
      | ExprParen e => eval_const_expr_partial fuel' e
      | _ => Ok (inr "unsupported constant expr")
      end
  end.

Definition eval_const_expr (fuel : nat) (e : Expr) : outcome const_val :=
  r ← eval_const_expr_partial fuel e;
  match r with
  | inl v => Ok v
  | inr _ => Fail FatalError
  end.
End eval.

(** ** Comparison *)

(** [compare_vals], for a type with [==] and [<]. *)
Definition compare_vals {T} (eqb ltb : T → T → bool) (a b : T) : option Z :=
  Some (if eqb a b then 0 else if ltb a b then -1 else 1)%Z.

Definition compare_const_vals (a b : const_val) : option Z :=
  match a, b with
  | const_int a, const_int b => compare_vals Z.eqb Z.ltb a b
  | const_uint a, const_uint b => compare_vals Z.eqb Z.ltb a b
  | const_float a, const_float b => compare_vals SFeqb SFltb a b
  | const_str a, const_str b => compare_vals String.eqb String.ltb a b
  | const_bool a, const_bool b => compare_vals Bool.eqb (λ x y, negb x && y) a b
  | _, _ => None
  end.

(** ** The order of constants *)

(** Floats are ordered by sign, then exponent, then mantissa. *)
Definition f64_key (f : f64) : option (Z * (Z * Z)) :=
  match f with
  | S754_infinity true => Some (-2, (0, 0))
  | S754_finite true m e => Some (-1, (- e, Zneg m))
  | S754_zero _ => Some (0, (0, 0))
  | S754_finite false m e => Some (1, (e, Zpos m))
  | S754_infinity false => Some (2, (0, 0))
  | S754_nan => None
  end%Z.

Definition key_cmp (a b : Z * (Z * Z)) : comparison :=
  then_cmp (a.1 ?= b.1)%Z (then_cmp (a.2.1 ?= b.2.1)%Z (a.2.2 ?= b.2.2)%Z).

#[export] Instance key_TotalOrd : TotalOrd key_cmp.
Proof.
  assert (TotalOrd (λ a b : Z * Z, then_cmp (a.1 ?= b.1)%Z (a.2 ?= b.2)%Z)).
  { apply (then_cmp_TotalOrd fst snd); [apply _..|]. intros [] []; simpl; congruence. }
  apply (then_cmp_TotalOrd fst snd Z.compare (λ a b : Z * Z, then_cmp (a.1 ?= b.1)%Z (a.2 ?= b.2)%Z));
    [apply _..|]. intros [] []; simpl; congruence.
Qed.

Lemma SFcompare_key f g :
  SFcompare f g = match f64_key f, f64_key g with
                  | Some a, Some b => Some (key_cmp a b)
                  | _, _ => None
                  end.
Proof.
  destruct f as [sf|[]| |[] mf ef], g as [sg|[]| |[] mg eg]; try reflexivity; simpl;
    unfold key_cmp; simpl.
  - rewrite Z.compare_opp, (Z.compare_antisym ef eg).
    by destruct (ef ?= eg)%Z.
  - by destruct (ef ?= eg)%Z.
Qed.

Lemma string_compare_refl s : String.compare s s = Eq.
Proof. induction s as [|c s IH]; simpl; [done|]. unfold Ascii.compare. by rewrite N.compare_refl. Qed.

#[export] Instance string_TotalOrd : TotalOrd String.compare.
Proof.
  split; [|intros; apply String.compare_antisym|].
  { intros a b. split; [apply String.compare_eq_iff|intros ->; apply string_compare_refl]. }
  induction a as [|x a IH]; intros [|y b] [|z c]; simpl; try done.
  unfold Ascii.compare.
  destruct (N.compare_spec (Ascii.N_of_ascii x) (Ascii.N_of_ascii y)) as [E1|L1|L1],
    (N.compare_spec (Ascii.N_of_ascii y) (Ascii.N_of_ascii z)) as [E2|L2|L2]; try done; intros H1 H2.
  - rewrite E1, E2, N.compare_refl. eauto.
  - rewrite E1. by apply N.compare_lt_iff in L2 as ->.
  - rewrite <- E2. by apply N.compare_lt_iff in L1 as ->.
  - assert (Ascii.N_of_ascii x < Ascii.N_of_ascii z)%N as ->%N.compare_lt_iff by lia. done.
Qed.

Definition bool_cmp (a b : bool) : comparison :=
  match a, b with false, true => Lt | true, false => Gt | _, _ => Eq end.

#[export] Instance bool_TotalOrd : TotalOrd bool_cmp.
Proof.
  split.
  - intros [] []; simpl; split; congruence.
  - by intros [] [].
  - intros [] [] []; simpl; congruence.
Qed.

(** The order of two constants of the same kind; [NaN] is not ordered. *)
Definition const_cmp (a b : const_val) : option comparison :=
  match a, b with
  | const_int a, const_int b => Some (a ?= b)%Z
  | const_uint a, const_uint b => Some (a ?= b)%Z
  | const_float a, const_float b => SFcompare a b
  | const_str a, const_str b => Some (String.compare a b)
  | const_bool a, const_bool b => Some (bool_cmp a b)
  | _, _ => None
  end.

Definition is_nan (v : const_val) : bool :=
  match v with const_float S754_nan => true | _ => false end.

Lemma compare_const_vals_cmp a b c :
  const_cmp a b = Some c →
  compare_const_vals a b = Some match c with Eq => 0 | Lt => -1 | Gt => 1 end%Z.
Proof.
  destruct a as [x|x|x|x|x|x], b as [y|y|y|y|y|y]; simpl; try done.
  - unfold compare_vals, SFeqb, SFltb. intros ->. by destruct c.
  - intros [= <-]. unfold compare_vals, Z.ltb. rewrite Z.eqb_compare. by destruct (x ?= y)%Z.
  - intros [= <-]. unfold compare_vals, Z.ltb. rewrite Z.eqb_compare. by destruct (x ?= y)%Z.
  - intros [= <-]. unfold compare_vals, String.ltb.
    destruct (String.eqb_spec x y) as [->|Hne].
    + by rewrite string_compare_refl.
    + destruct (String.compare x y) eqn:E; [|done..]. by apply String.compare_eq_iff in E.
  - intros [= <-]. by destruct x, y.
Qed.

(** Without [NaN], the comparison is defined whenever the kinds agree. *)
Lemma compare_const_vals_Some a b n :
  compare_const_vals a b = Some n → is_nan a = false → is_nan b = false →
  ∃ c, const_cmp a b = Some c ∧ n = match c with Eq => 0 | Lt => -1 | Gt => 1 end%Z.
Proof.
  intros Hn Ha Hb. assert (is_Some (const_cmp a b)) as [c Hc].
  { destruct a as [x|x|x|x|x|x], b as [y|y|y|y|y|y]; simpl in *; try done.
    rewrite SFcompare_key. destruct x as [|[]| |[]], y as [|[]| |[]]; simpl; eauto; done. }
  exists c. split; [done|]. apply compare_const_vals_cmp in Hc. congruence.
Qed.

(** A comparison that says "equal" or "less" involves no [NaN]. *)
Lemma compare_const_vals_le a b n :
  compare_const_vals a b = Some n → (n ≤ 0)%Z →
  ∃ c, const_cmp a b = Some c ∧ c ≠ Gt ∧ (n = 0 ↔ c = Eq)%Z.
Proof.
  intros Hn Hle. destruct (const_cmp a b) as [c|] eqn:Hc.
  - exists c. split; [done|]. apply compare_const_vals_cmp in Hc. rewrite Hn in Hc.
    injection Hc as ->. destruct c; [done..|lia].
  - exfalso. destruct a as [x|x|x|x|x|x], b as [y|y|y|y|y|y]; simpl in *; try done.
    unfold compare_vals, SFeqb, SFltb in Hn. rewrite Hc in Hn. injection Hn as <-. lia.
Qed.

Lemma const_cmp_opp a b c : const_cmp a b = Some c → const_cmp b a = Some (CompOpp c).
Proof.
  destruct a as [x|x|x|x|x|x], b as [y|y|y|y|y|y]; simpl; try done.
  - rewrite !SFcompare_key. destruct (f64_key x), (f64_key y); try done.
    intros [= <-]. f_equal. apply (@cmp_opp _ key_cmp _).
  - intros [= <-]. f_equal. apply Z.compare_antisym.
  - intros [= <-]. f_equal. apply Z.compare_antisym.
  - intros [= <-]. f_equal. apply String.compare_antisym.
  - intros [= <-]. f_equal. apply (@cmp_opp _ bool_cmp _).
Qed.

Lemma cmp_trans {A} (cmp : A → A → comparison) `{!TotalOrd cmp} a b c :
  cmp a b ≠ Gt → cmp b c ≠ Gt →
  cmp a c ≠ Gt ∧ (cmp a c = Eq → cmp a b = Eq ∧ cmp b c = Eq).
Proof.
  intros H1 H2. destruct (cmp a b) eqn:E1, (cmp b c) eqn:E2; try done.
  - apply (@cmp_eq _ cmp _) in E1. subst. by rewrite E2.
  - apply (@cmp_eq _ cmp _) in E1. subst. by rewrite E2.
  - apply (@cmp_eq _ cmp _) in E2. subst. by rewrite E1.
  - by rewrite (@cmp_lt_trans _ cmp _ _ _ _ E1 E2).
Qed.

Lemma const_cmp_trans a b c x y :
  const_cmp a b = Some x → const_cmp b c = Some y → x ≠ Gt → y ≠ Gt →
  ∃ z, const_cmp a c = Some z ∧ z ≠ Gt ∧ (z = Eq → x = Eq ∧ y = Eq).
Proof.
  destruct a as [u|u|u|u|u|u], b as [v|v|v|v|v|v], c as [w|w|w|w|w|w]; simpl; try done.
  - rewrite !SFcompare_key. destruct (f64_key u), (f64_key v), (f64_key w); try done.
    intros [= <-] [= <-] ??. eexists. split; [done|]. by apply (cmp_trans key_cmp).
  - intros [= <-] [= <-] ??. eexists. split; [done|]. by apply (cmp_trans Z.compare).
  - intros [= <-] [= <-] ??. eexists. split; [done|]. by apply (cmp_trans Z.compare).
  - intros [= <-] [= <-] ??. eexists. split; [done|]. by apply (cmp_trans String.compare).
  - intros [= <-] [= <-] ??. eexists. split; [done|]. by apply (cmp_trans bool_cmp).
Qed.

(** [a <= b] and [a == b], as the comparison of constants decides them. *)
Definition const_le (a b : const_val) : Prop :=
  ∃ n, compare_const_vals a b = Some n ∧ (n ≤ 0)%Z.
Definition const_eq (a b : const_val) : Prop := compare_const_vals a b = Some 0%Z.

Lemma const_le_cmp a b : const_le a b ↔ ∃ c, const_cmp a b = Some c ∧ c ≠ Gt.
Proof.
  split.
  - intros (n & Hn & Hle). destruct (compare_const_vals_le _ _ _ Hn Hle) as (c & ? & ? & _). eauto.
  - intros (c & Hc & Hgt). eexists. split; [by apply compare_const_vals_cmp|]. by destruct c.
Qed.

Lemma const_eq_cmp a b : const_eq a b ↔ const_cmp a b = Some Eq.
Proof.
  split.
  - intros Hn. destruct (compare_const_vals_le _ _ _ Hn) as (c & Hc & _ & Hiff); [done|].
    by rewrite Hc, (proj1 Hiff eq_refl).
  - intros Hc. by apply compare_const_vals_cmp in Hc.
Qed.

Lemma const_le_trans a b c : const_le a b → const_le b c → const_le a c.
Proof.
  rewrite !const_le_cmp. intros (x & Hx & ?) (y & Hy & ?).
  destruct (const_cmp_trans _ _ _ _ _ Hx Hy) as (z & ? & ? & _); eauto.
Qed.

Lemma const_eq_sym a b : const_eq a b → const_eq b a.
Proof. rewrite !const_eq_cmp. intros Hc. by apply const_cmp_opp in Hc. Qed.

Lemma const_eq_refl a :
  is_nan a = false → match a with const_binary _ => False | _ => True end → const_eq a a.
Proof.
  intros Hn Hb. apply const_eq_cmp. destruct a as [f|x|x|s|x|b]; simpl; try done.
  - rewrite SFcompare_key. destruct (f64_key f) as [k|] eqn:Hk; [|by destruct f as [|[]| |[]]].
    by rewrite (proj2 (@cmp_eq _ key_cmp _ k k)).
  - by rewrite Z.compare_refl.
  - by rewrite Z.compare_refl.
  - by rewrite string_compare_refl.
  - by destruct b.
Qed.

Lemma const_eq_le a b : const_eq a b → const_le a b.
Proof. rewrite const_le_cmp, const_eq_cmp. intros. by exists Eq. Qed.

Lemma const_le_antisym a b : const_le a b → const_le b a → const_eq a b.
Proof.
  rewrite !const_le_cmp, const_eq_cmp. intros (x & Hx & ?) (y & Hy & ?).
  pose proof (const_cmp_opp _ _ _ Hx) as Hy'. rewrite Hy in Hy'. injection Hy' as ->. by destruct x.
Qed.

Lemma const_eq_trans a b c : const_eq a b → const_eq b c → const_eq a c.
Proof.
  intros Hab Hbc. apply const_le_antisym.
  - eapply const_le_trans; by apply const_eq_le.
  - eapply const_le_trans; apply const_eq_le; by apply const_eq_sym.
Qed.

(** A comparison that says "equal" or "greater" reverses the order, [NaN]
    apart. *)
Lemma const_ge_le a b n :
  compare_const_vals a b = Some n → (0 ≤ n)%Z → is_nan a = false → is_nan b = false → const_le b a.
Proof.
  intros Hn Hge Ha Hb. apply const_le_cmp.
  destruct (compare_const_vals_Some _ _ _ Hn Ha Hb) as (c & Hc & ->).
  exists (CompOpp c). split; [by apply const_cmp_opp|]. destruct c; [done|lia|done].
Qed.

Lemma const_le_not_nan a b : const_le a b → is_nan a = false ∧ is_nan b = false.
Proof.
  rewrite const_le_cmp. intros (c & Hc & _).
  destruct a as [x|x|x|x|x|x], b as [y|y|y|y|y|y]; simpl in *; try done.
  rewrite SFcompare_key in Hc. by destruct x as [|[]| |[]], y as [|[]| |[]].
Qed.

(** ** Evaluation stays in the range of the machine types *)

Definition const_ok (v : const_val) : Prop :=
  match v with
  | const_int i => in_i64 i = true
  | const_uint u => in_u64 u = true
  | _ => True
  end.

Definition result_ok (r : const_result) : Prop :=
  match r with inl v => const_ok v | inr _ => True end.

(** The literals of an expression fit their types, as the lexer ensures. *)
Definition lit_ok (l : Lit_) : Prop :=
  match l with
  | LitInt n _ | LitIntUnsuffixed n => in_i64 n = true
  | LitUint n _ | LitChar n => in_u64 n = true
  | _ => True
  end.

Fixpoint lits_ok (e : Expr) : Prop :=
  match expr_node e with
  | ExprUnary _ e => lits_ok e
  | ExprBinary _ a b => lits_ok a ∧ lits_ok b
  | ExprCast e _ => lits_ok e
  | ExprLit l => lit_ok l
  | ExprVstore_ e _ => lits_ok e
  | ExprParen e => lits_ok e
  | _ => True
  end.

Lemma in_i64_spec z : in_i64 z = true ↔ (- 2 ^ 63 ≤ z < 2 ^ 63)%Z.
Proof. unfold in_i64. rewrite andb_true_iff, Z.leb_le, Z.ltb_lt. done. Qed.

Lemma in_u64_spec z : in_u64 z = true ↔ (0 ≤ z < 2 ^ 64)%Z.
Proof. unfold in_u64. rewrite andb_true_iff, Z.leb_le, Z.ltb_lt. done. Qed.

Lemma in_i64_shiftr z : in_i64 z = true ↔ Z.shiftr z 63 = 0%Z ∨ Z.shiftr z 63 = (-1)%Z.
Proof.
  rewrite in_i64_spec, Z.shiftr_div_pow2 by lia. change (2 ^ 63)%Z with 9223372036854775808%Z.
  Z.to_euclidean_division_equations; lia.
Qed.

Lemma in_u64_shiftr z : in_u64 z = true ↔ Z.shiftr z 64 = 0%Z.
Proof.
  rewrite in_u64_spec, Z.shiftr_div_pow2 by lia. change (2 ^ 64)%Z with 18446744073709551616%Z.
  Z.to_euclidean_division_equations; lia.
Qed.

Lemma wrap_i64_ok z : in_i64 (wrap_i64 z) = true.
Proof.
  apply in_i64_spec. unfold wrap_i64. pose proof (Z.mod_pos_bound (z + 2 ^ 63) (2 ^ 64)). lia.
Qed.

Lemma wrap_u64_ok z : in_u64 (wrap_u64 z) = true.
Proof. apply in_u64_spec. unfold wrap_u64. apply Z.mod_pos_bound. lia. Qed.

Lemma i64_bitwise_ok (f : Z → Z → Z) a b :
  (∀ x y n, Z.shiftr (f x y) n = f (Z.shiftr x n) (Z.shiftr y n)) →
  (∀ x y, (x = 0 ∨ x = -1) → (y = 0 ∨ y = -1) → f x y = 0 ∨ f x y = -1)%Z →
  in_i64 a = true → in_i64 b = true → in_i64 (f a b) = true.
Proof. rewrite !in_i64_shiftr. intros -> Hf Ha Hb. auto. Qed.

Lemma u64_bitwise_ok (f : Z → Z → Z) a b :
  (∀ x y n, Z.shiftr (f x y) n = f (Z.shiftr x n) (Z.shiftr y n)) → f 0%Z 0%Z = 0%Z →
  in_u64 a = true → in_u64 b = true → in_u64 (f a b) = true.
Proof. rewrite !in_u64_shiftr. by intros -> Hf -> ->. Qed.

Lemma shiftr_i64_ok a b : shift_ok b = true → in_i64 a = true → in_i64 (Z.shiftr a b) = true.
Proof.
  unfold shift_ok. rewrite andb_true_iff, Z.leb_le, Z.ltb_lt. intros [? ?].
  rewrite !in_i64_spec, Z.shiftr_div_pow2 by lia. intros [? ?].
  assert (1 ≤ 2 ^ b)%Z by (apply (Z.pow_le_mono_r 2 0 b); lia).
  split; [apply Z.div_le_lower_bound; nia|apply Z.div_lt_upper_bound; nia].
Qed.

Lemma shiftr_u64_ok a b : shift_ok b = true → in_u64 a = true → in_u64 (Z.shiftr a b) = true.
Proof.
  unfold shift_ok. rewrite andb_true_iff, Z.leb_le, Z.ltb_lt. intros [? ?].
  rewrite !in_u64_spec, Z.shiftr_div_pow2 by lia. intros [? ?].
  assert (1 ≤ 2 ^ b)%Z by (apply (Z.pow_le_mono_r 2 0 b); lia).
  split; [apply Z.div_le_lower_bound; nia|apply Z.div_lt_upper_bound; nia].
Qed.

Lemma quot_ok a b :
  b ≠ 0%Z → div_ok a b = true → in_i64 a = true → in_i64 b = true →
  in_i64 (Z.quot a b) = true ∧ in_i64 (Z.rem a b) = true.
Proof.
  intros Hb Hd. unfold div_ok in Hd. rewrite negb_true_iff, andb_false_iff, !Z.eqb_neq in Hd.
  rewrite !in_i64_spec. change (2 ^ 63)%Z with 9223372036854775808%Z in *.
  intros Ha Hb'. split; Z.to_euclidean_division_equations; nia.
Qed.

(** The range of a machine operation's result. *)
Create HintDb const_range.
#[export] Hint Resolve wrap_i64_ok wrap_u64_ok shiftr_i64_ok shiftr_u64_ok : const_range.

Lemma fromb_ok b r : fromb b = Ok r → result_ok r.
Proof. unfold fromb. intros [= <-]. by destruct b. Qed.

Lemma int_op_ok op a b r :
  in_i64 a = true → in_i64 b = true → int_op op a b = Ok r → result_ok r.
Proof.
  intros Ha Hb. unfold int_op.
  destruct op; try (by apply fromb_ok); try (intros [= <-]; simpl; auto with const_range).
  - destruct (Z.eqb_spec b 0); [by intros [= <-]|]. destruct (div_ok a b) eqn:?; [|done].
    intros [= <-]. by apply quot_ok.
  - destruct (Z.eqb_spec b 0); [by intros [= <-]|]. destruct (div_ok a b) eqn:?; [|done].
    intros [= <-]. by apply quot_ok.
  - apply (i64_bitwise_ok Z.land); [intros; apply Z.shiftr_land| |done..].
    intros ?? [->| ->] [->| ->]; auto.
  - apply (i64_bitwise_ok Z.lor); [intros; apply Z.shiftr_lor| |done..].
    intros ?? [->| ->] [->| ->]; auto.
  - apply (i64_bitwise_ok Z.lxor); [intros; apply Z.shiftr_lxor| |done..].
    intros ?? [->| ->] [->| ->]; auto.
  - apply (i64_bitwise_ok Z.land); [intros; apply Z.shiftr_land| |done..].
    intros ?? [->| ->] [->| ->]; auto.
  - apply (i64_bitwise_ok Z.lor); [intros; apply Z.shiftr_lor| |done..].
    intros ?? [->| ->] [->| ->]; auto.
  - destruct (shift_ok b); [|done]. intros [= <-]. simpl. auto with const_range.
  - destruct (shift_ok b) eqn:?; [|done]. intros [= <-]. simpl. auto with const_range.
Qed.

Lemma uint_op_ok op a b r :
  in_u64 a = true → in_u64 b = true → uint_op op a b = Ok r → result_ok r.
Proof.
  intros Ha Hb. unfold uint_op.
  destruct op; try (by apply fromb_ok); try (intros [= <-]; simpl; auto with const_range).
  - destruct (Z.eqb_spec b 0); [by intros [= <-]|]. intros [= <-]. simpl.
    rewrite !in_u64_spec in *. split; [apply Z.div_pos; lia|]. apply Z.div_lt_upper_bound; nia.
  - destruct (Z.eqb_spec b 0); [by intros [= <-]|]. intros [= <-]. simpl.
    rewrite !in_u64_spec in *. pose proof (Z.mod_pos_bound a b). lia.
  - apply (u64_bitwise_ok Z.land); [intros; apply Z.shiftr_land|done..].
  - apply (u64_bitwise_ok Z.lor); [intros; apply Z.shiftr_lor|done..].
  - apply (u64_bitwise_ok Z.lxor); [intros; apply Z.shiftr_lxor|done..].
  - apply (u64_bitwise_ok Z.land); [intros; apply Z.shiftr_land|done..].
  - apply (u64_bitwise_ok Z.lor); [intros; apply Z.shiftr_lor|done..].
  - destruct (shift_ok b); [|done]. intros [= <-]. simpl. auto with const_range.
  - destruct (shift_ok b) eqn:?; [|done]. intros [= <-]. simpl. auto with const_range.
Qed.

Lemma binary_op_ok op a b r :
  result_ok a → result_ok b → binary_op op a b = Ok r → result_ok r.
Proof.
  destruct a as [[x|x|x|x|x|x]|], b as [[y|y|y|y|y|y]|]; simpl; intros Ha Hb;
    try (by intros [= <-]).
  - unfold float_op. destruct op; try (by apply fromb_ok); by intros [= <-].
  - by apply int_op_ok.
  - destruct op; try (by intros [= <-]); destruct (shift_ok y) eqn:?; try done;
      intros [= <-]; simpl; auto with const_range.
  - destruct op; try (by intros [= <-]); destruct (shift_ok y) eqn:?; try done;
      intros [= <-]; simpl; auto with const_range.
  - by apply uint_op_ok.
  - unfold bool_op. destruct op; by intros [= <-].
Qed.

Lemma neg_op_ok r : result_ok r → result_ok (neg_op r).
Proof. destruct r as [[]|]; simpl; auto with const_range. Qed.

Lemma not_op_ok r : result_ok r → result_ok (not_op r).
Proof.
  destruct r as [[]|]; simpl; auto; rewrite ?in_i64_spec, ?in_u64_spec; unfold Z.lnot; lia.
Qed.

Lemma f64_to_int_ok ok f z : f64_to_int ok f = Ok z → ok z = true.
Proof. unfold f64_to_int. destruct (f64_trunc f); [|done]. destruct (ok z0) eqn:?; naive_solver. Qed.

Lemma cast_op_ok t v r : const_ok v → cast_op t v = Ok r → result_ok r.
Proof.
  intros Hv. destruct t; simpl; try (by intros [= <-]);
    destruct v; simpl in *; try (by intros [= <-]);
    try (intros [= <-]; simpl; auto with const_range; done);
    intros H; inv_ok H; subst; simpl; by eapply f64_to_int_ok.
Qed.

Section range.
Context (tcx : ctxt) (f64_from_str : string → option f64).
Context (Hconst : ∀ e e', lookup_const tcx e = Some e' → lits_ok e').
Abbreviation eval := (eval_const_expr_partial tcx f64_from_str).

Lemma lit_to_const_ok l v : lit_ok l → lit_to_const f64_from_str l = Ok v → const_ok v.
Proof.
  destruct l; simpl; intros Hl H; try (by injection H as <-); inv_ok H; by subst.
Qed.

(** Evaluating a constant expression whose literals fit their types yields
    an [i64] in the range of [i64] and a [u64] in the range of [u64], through
    every operator, cast and reference to another constant. *)
Theorem eval_const_in_range fuel e r : lits_ok e → eval fuel e = Ok r → result_ok r.
Proof.
  induction fuel as [|fuel IH] in e, r |- *; [done|]. destruct e as [id node]. simpl.
  destruct node; simpl; intros Hl H; try (by injection H as <-).
  - by eapply IH.
  - apply bind_Ok in H as (x & Hx & H). apply bind_Ok in H as (y & Hy & H).
    destruct Hl. eapply binary_op_ok; [by apply (IH a)|by apply (IH b)|exact H].
  - destruct op; try (by injection H as <-).
    + apply fmap_Ok in H as (x & Hx & <-). apply not_op_ok. by eapply IH.
    + apply fmap_Ok in H as (x & Hx & <-). apply neg_op_ok. by eapply IH.
  - apply fmap_Ok in H as (x & Hx & <-). simpl. by eapply lit_to_const_ok.
  - apply bind_Ok in H as (t' & _ & H). apply bind_Ok in H as (x & Hx & H).
    apply IH in Hx; [|done]. destruct x; [|by injection H as <-]. by eapply cast_op_ok.
  - destruct (lookup_const tcx _) as [e'|] eqn:Hc; [|by injection H as <-].
    eapply IH; [by eapply Hconst|done].
  - by eapply IH.
Qed.

(** More fuel does not change a result. *)
Lemma eval_fuel fuel e r :
  eval fuel e = r → r ≠ Fail Diverged → ∀ fuel', fuel ≤ fuel' → eval fuel' e = r.
Proof.
  assert (Hfuel : ∀ {A} (c : outcome A), c = Fail Diverged ∨ c ≠ Fail Diverged).
  { intros A [a|w]; [by right|]. destruct w; (by left) || by right. }
  induction fuel as [|fuel IH] in e, r |- *; [intros <-; done|].
  intros Hr Hne [|fuel'] Hle; [lia|]. apply le_S_n in Hle. destruct e as [id node]. simpl in *.
  assert (Hsub : ∀ e, eval fuel e ≠ Fail Diverged → eval fuel' e = eval fuel e).
  { intros e He. by apply (IH e (eval fuel e)). }
  destruct node; simpl in *; try done.
  - rewrite Hsub; congruence.
  - destruct (Hfuel _ (eval fuel a)) as [E|E]; [rewrite E in Hr; simpl in Hr; congruence|].
    rewrite (Hsub a E). destruct (eval fuel a); simpl in *; [|congruence].
    destruct (Hfuel _ (eval fuel b)) as [E'|E']; [rewrite E' in Hr; simpl in Hr; congruence|].
    by rewrite (Hsub b E').
  - destruct op; try done; (destruct (Hfuel _ (eval fuel e)) as [E|E];
      [rewrite E in Hr; simpl in Hr; congruence|by rewrite (Hsub e E)]).
  - destruct (expr_ty_opt tcx _), (ast_ty_to_prim_ty tcx t); simpl in *; try done;
      (destruct (Hfuel _ (eval fuel e)) as [E|E];
       [rewrite E in Hr; simpl in Hr; congruence|by rewrite (Hsub e E)]).
  - destruct (lookup_const tcx _); [|done]. rewrite Hsub; congruence.
  - rewrite Hsub; congruence.
Qed.
End range.
