(* ===== verification/PatUtil.v ===== *)
(** Questions about patterns, [src/librustc/middle/pat_util.rs]: which
    identifiers of a pattern are bindings. *)

From stdpp Require Import prelude gmap list.
From S2P Require Import Prelude Ast.

Abbreviation DefMap := (gmap NodeId Def) (only parsing).

Section pat_util.
Context (dm : DefMap).

Definition pat_is_variant_or_struct (pat : Pat) : bool :=
  match pat_node pat with
  | PatEnum _ _ | PatIdent _ _ None | PatStruct _ _ _ =>
      match dm !! pat_id pat with
      | Some (DefVariant _ _ _) | Some (DefStruct _) => true
      | _ => false
      end
  | _ => false
  end.

Definition pat_is_const (pat : Pat) : bool :=
  match pat_node pat with
  | PatIdent _ _ None | PatEnum _ _ =>
      match dm !! pat_id pat with
      | Some (DefStatic _ false) => true
      | _ => false
      end
  | _ => false
  end.

Definition pat_is_binding (pat : Pat) : bool :=
  match pat_node pat with
  | PatIdent _ _ _ => negb (pat_is_variant_or_struct pat) && negb (pat_is_const pat)
  | _ => false
  end.

Definition pat_is_binding_or_wild (pat : Pat) : bool :=
  match pat_node pat with
  | PatIdent _ _ _ => pat_is_binding pat
  | PatWild | PatWildMulti => true
  | _ => false
  end.

(** Call [it] on every binding of a pattern. *)
Definition pat_bindings {S} (pat : Pat) (it : BindingMode → NodeId → Path → S → outcome S) (s : S)
    : outcome S :=
  fst <$> walk_pat (λ p s,
    match pat_node p with
    | PatIdent binding_mode pth _ =>
        if pat_is_binding p
        then s ← it binding_mode (pat_id p) pth s; Ok (s, true)
        else Ok (s, true)
    | _ => Ok (s, true)
    end) pat s.

Definition pat_contains_bindings (pat : Pat) : outcome bool :=
  fst <$> walk_pat (λ p contains_bindings,
    if pat_is_binding p then Ok (true, false) else Ok (contains_bindings, true)) pat false.

Definition simple_identifier (pat : Pat) : option Path :=
  match pat_node pat with
  | PatIdent (BindByValue _) path None => Some path
  | _ => None
  end.
End pat_util.
