(* ===== verification/CheckMatch.v ===== *)
(** Checking of matches, [src/librustc/middle/check_match.rs]: usefulness of a
    row of patterns against a matrix, by which unreachable arms and
    non-exhaustive matches are found; refutable patterns in [let] and function
    arguments; legality of by-move bindings. *)

From stdpp Require Import prelude gmap strings list.
From S2P Require Import Prelude Ast Visit RegionMaps Ty ConstEval PatUtil.

(** ** Diagnostics *)

Inductive level := LevelError | LevelWarning | LevelNote.

(** What the message of a non-exhaustive match says is not covered. *)
Inductive not_covered :=
  | NotCoveredBool (b : bool)
  | NotCoveredVariant (name : Name)
  | NotCoveredVec (n : nat).

Inductive message :=
  | Text (s : string)
  | NonExhaustivePatterns (ext : option not_covered).

(** The level, the node whose span is reported, the message. *)
Definition diag : Type := level * NodeId * message.

Abbreviation MD := (M (list diag)).

Definition emit (d : diag) : MD unit := λ ds, Ok (tt, ds ++ [d]).
Definition span_err (id : NodeId) (s : string) : MD unit := emit (LevelError, id, Text s).
Definition span_warn (id : NodeId) (s : string) : MD unit := emit (LevelWarning, id, Text s).
Definition span_note (id : NodeId) (s : string) : MD unit := emit (LevelNote, id, Text s).

(** ** Data *)

Abbreviation matrix := (list (list Pat)) (only parsing).

Inductive ctor :=
  | single
  | variant (id : DefId)
  | val (v : const_val)
  | range (lo hi : const_val)
  | vec (n : nat).

Inductive usefulness :=
  | useful (t : ty) (c : ctor)
  | useful_
  | not_useful.

(** [#\[deriving(Eq)\]]. *)
Definition ctor_eqb (a b : ctor) : bool :=
  match a, b with
  | single, single => true
  | variant x, variant y => bool_decide (x = y)
  | val x, val y => const_val_eqb x y
  | range x1 x2, range y1 y2 => const_val_eqb x1 y1 && const_val_eqb x2 y2
  | vec x, vec y => x =? y
  | _, _ => false
  end.

(** [MatchCheckCtxt]; constants are evaluated with [const_fuel]. *)
Record MatchCheckCtxt := mkMatchCheckCtxt {
  tcx : ctxt;
  moves_map : gset NodeId;
  f64_from_str : string → option f64;
  const_fuel : nat
}.

Definition wild : Pat := mkPat 0 PatWild.
Definition wild_multi : Pat := mkPat 0 PatWildMulti.

Fixpoint raw_pat (p : Pat) : Pat :=
  match pat_node p with
  | PatIdent _ _ (Some s) => raw_pat s
  | _ => p
  end.

Section check_match.
Context (cx : MatchCheckCtxt).

Definition eval_const (e : Expr) : outcome const_val :=
  eval_const_expr (tcx cx) (f64_from_str cx) (const_fuel cx) e.

(** [eval_const_expr(lookup_const_by_id(did).unwrap())]. *)
Definition eval_static (did : DefId) : outcome const_val :=
  const_expr ← unwrap (lookup_const_by_id (tcx cx) did);
  eval_const const_expr.

Definition find_def (id : NodeId) : option Def := def_map (tcx cx) !! id.

(** ** Constructors *)

Definition pat_ctor_id (p : Pat) : outcome (option ctor) :=
  let pat := raw_pat p in
  match pat_node pat with
  | PatWild | PatWildMulti => Ok None
  | PatIdent _ _ _ | PatEnum _ _ =>
      match find_def (pat_id pat) with
      | Some (DefVariant _ id _) => Ok (Some (variant id))
      | Some (DefStatic did false) => v ← eval_static did; Ok (Some (val v))
      | _ => Ok None
      end
  | PatLit expr => v ← eval_const expr; Ok (Some (val v))
  | PatRange lo hi => lo ← eval_const lo; hi ← eval_const hi; Ok (Some (range lo hi))
  | PatStruct _ _ _ =>
      match find_def (pat_id pat) with
      | Some (DefVariant _ id _) => Ok (Some (variant id))
      | _ => Ok (Some single)
      end
  | PatUniq _ | PatTup _ | PatRegion _ => Ok (Some single)
  | PatVec before slice after =>
      Ok match slice with
         | Some _ => None
         | None => Some (vec (length before + length after))
         end
  end.

Definition is_wild (p : Pat) : bool :=
  let pat := raw_pat p in
  match pat_node pat with
  | PatWild | PatWildMulti => true
  | PatIdent _ _ _ =>
      match find_def (pat_id pat) with
      | Some (DefVariant _ _ _) | Some (DefStatic _ _) => false
      | _ => true
      end
  | _ => false
  end.

(** The first pattern of every row. *)
Fixpoint first_column (m : matrix) : outcome (list Pat) :=
  match m with
  | [] => Ok []
  | r :: m' => p ← vec_get r 0; ps ← first_column m'; Ok (p :: ps)
  end.

(** [for r in m.iter() { if !is_wild(r.get(0)) { return None; } }]. *)
Fixpoint all_wild (m : matrix) : outcome bool :=
  match m with
  | [] => Ok true
  | r :: m' => p ← vec_get r 0; if is_wild p then all_wild m' else Ok false
  end.

(** [found]: the distinct constructors of the column. *)
Fixpoint found_ctors (ps : list Pat) (found : list ctor) : outcome (list ctor) :=
  match ps with
  | [] => Ok found
  | p :: ps' =>
      r ← pat_ctor_id p;
      found_ctors ps'
        match r with
        | Some id => if existsb (ctor_eqb id) found then found else found ++ [id]
        | None => found
        end
  end.

(** [(true_found, false_found)]. *)
Fixpoint found_bools (ps : list Pat) (true_found false_found : bool) : outcome (bool * bool) :=
  match ps with
  | [] => Ok (true_found, false_found)
  | p :: ps' =>
      r ← pat_ctor_id p;
      match r with
      | None => found_bools ps' true_found false_found
      | Some (val (const_bool true)) => found_bools ps' true false_found
      | Some (val (const_bool false)) => found_bools ps' true_found true
      | Some _ => Fail ExplicitFail
      end
  end.

(** [(missing, wrong)] for a vector of the fixed length [n]. *)
Fixpoint fixed_vec_scan (n : nat) (ps : list Pat) (missing wrong : bool) : bool * bool :=
  match ps with
  | [] => (missing, wrong)
  | p :: ps' =>
      match pat_node p with
      | PatVec before slice after =>
          let count := length before + length after in
          fixed_vec_scan n ps'
            (missing && negb ((count =? n) || ((count <? n) && is_some slice)))
            (wrong || (((count <? n) && negb (is_some slice)) || (n <? count)))
      | _ => fixed_vec_scan n ps' missing wrong
      end
  end.

(** The lengths of the vector patterns and whether they have a slice, by length,
    those with a slice first, without duplicates. *)
Definition vec_pat_len (p : Pat) : option (nat * bool) :=
  match pat_node p with
  | PatVec before slice after => Some (length before + length after, is_some slice)
  | _ => None
  end.

Definition len_le (a b : nat * bool) : bool :=
  if a.1 =? b.1 then a.2 || negb b.2 else a.1 <? b.1.

Fixpoint insert_len (a : nat * bool) (l : list (nat * bool)) : list (nat * bool) :=
  match l with
  | [] => [a]
  | b :: l' => if len_le a b then a :: l else b :: insert_len a l'
  end.

Definition sort_lens (l : list (nat * bool)) : list (nat * bool) := foldr insert_len [] l.

Fixpoint dedup (l : list (nat * bool)) : list (nat * bool) :=
  match l with
  | [] => []
  | a :: l' =>
      match dedup l' with
      | b :: l'' => if (a.1 =? b.1) && Bool.eqb a.2 b.2 then b :: l'' else a :: b :: l''
      | [] => [a]
      end
  end.

(** The loop over [vec_pat_lens]: [next] when it ends, and whether a slice
    was found. *)
Fixpoint scan_lens (l : list (nat * bool)) (next : nat) : nat * bool * option nat :=
  match l with
  | [] => (next, false, None)
  | (length, slice) :: l' =>
      if negb (length =? next) then (next, false, Some next)
      else if (slice : bool) then (next, true, None)
      else scan_lens l' (next + 1)
  end.

Definition missing_ctor (m : matrix) (left_ty : ty) : outcome (option ctor) :=
  match left_ty with
  | ty_box _ | ty_uniq _ | ty_rptr _ _ _ | ty_tup _ | ty_struct _ _ =>
      w ← all_wild m;
      Ok (if (w : bool) then Some single else None)
  | ty_enum eid _ =>
      ps ← first_column m;
      found ← found_ctors ps [];
      let variants := enum_variants (tcx cx) eid in
      if length found =? length variants then Ok None else
      match List.find (λ v, negb (existsb (λ x, ctor_eqb x (variant (va_id v))) found)) variants with
      | Some v => Ok (Some (variant (va_id v)))
      | None => Fail ExplicitFail
      end
  | ty_nil => Ok None
  | ty_bool =>
      ps ← first_column m;
      f ← found_bools ps false false;
      let '(true_found, false_found) := f in
      Ok (if (true_found : bool) && (false_found : bool) then None
          else if true_found then Some (val (const_bool false))
          else Some (val (const_bool true)))
  | ty_vec _ (VstoreFixed n) =>
      ps ← first_column m;
      let '(missing, wrong) := fixed_vec_scan n ps true false in
      Ok (if (wrong : bool) then Some (vec n) (* should be compile-time error *)
          else if (missing : bool) then Some (vec n) else None)
  | ty_vec _ _ =>
      ps ← first_column m;
      let '(next, found_slice, missing) := scan_lens (dedup (sort_lens (omap vec_pat_len ps))) 0 in
      let missing := if (found_slice : bool) then missing else Some next in
      Ok (match missing with Some k => Some (vec k) | None => None end)
  | _ => Ok (Some single)
  end.

Definition ctor_arity (c : ctor) (t : ty) : outcome nat :=
  match t with
  | ty_tup fs => Ok (length fs)
  | ty_box _ | ty_uniq _ | ty_rptr _ _ _ => Ok 1
  | ty_enum eid _ =>
      match c with
      | variant id =>
          match List.find (λ v, bool_decide (va_id v = id)) (enum_variants (tcx cx) eid) with
          | Some v => Ok (length (va_args v))
          | None => Fail ExplicitFail
          end
      | _ => Fail ExplicitFail
      end
  | ty_struct cid _ => Ok (length (lookup_struct_fields (tcx cx) cid))
  | ty_vec _ _ => Ok match c with vec n => n | _ => 0 end
  | _ => Ok 0
  end.

(** ** Specialization *)

(** Does the constant [e_v] of a pattern cover the constructor?  The source
    repeats this for identifiers, enum patterns and literals. *)
Definition const_covers (id : NodeId) (e_v : const_val) (ctor_id : ctor) : MD bool :=
  match ctor_id with
  | val v =>
      match compare_const_vals e_v v with
      | Some val1 => mret (val1 =? 0)%Z
      | None => _ ← span_err id "mismatched types between arms"; mret false
      end
  | range c_lo c_hi =>
      match compare_const_vals c_lo e_v, compare_const_vals c_hi e_v with
      | Some val1, Some val2 => mret ((0 <=? val1)%Z && (val2 <=? 0)%Z)
      | _, _ => _ ← span_err id "mismatched types between ranges"; mret false
      end
  | single => mret true
  | _ => lift (Fail ExplicitFail)
  end.

(** The sub-pattern of every field, a wildcard where the pattern has none. *)
Definition field_pats (class_fields : list field_ty) (pattern_fields : list FieldPat) : list Pat :=
  (λ sf, match List.find (λ f, (ident f =? ft_name sf)%N) pattern_fields with
         | Some f => field_pat f
         | None => wild
         end) <$> class_fields.

Definition specialize (r : list Pat) (ctor_id : ctor) (arity : nat) (left_ty : ty)
    : MD (option (list Pat)) :=
  r0 ← lift (vec_get r 0);
  let r0 := raw_pat r0 in
  let tail := tail r in
  let id := pat_id r0 in
  match pat_node r0 with
  | PatWild => mret (Some (replicate arity wild ++ tail))
  | PatWildMulti => mret (Some (replicate arity wild_multi ++ tail))
  | PatIdent _ _ _ =>
      match find_def id with
      | Some (DefVariant _ vid _) =>
          mret (if ctor_eqb (variant vid) ctor_id then Some tail else None)
      | Some (DefStatic did _) =>
          e_v ← lift (eval_static did);
          match_ ← const_covers id e_v ctor_id;
          mret (if (match_ : bool) then Some tail else None)
      | _ => mret (Some (replicate arity wild ++ tail))
      end
  | PatEnum _ args =>
      let new_args := match args with Some args => args | None => replicate arity wild end in
      def ← lift (match find_def id with Some d => Ok d | None => Fail ExplicitFail end);
      match def with
      | DefStatic did _ =>
          e_v ← lift (eval_static did);
          match_ ← const_covers id e_v ctor_id;
          mret (if (match_ : bool) then Some tail else None)
      | DefVariant _ vid _ =>
          mret (if ctor_eqb (variant vid) ctor_id then Some (new_args ++ tail) else None)
      | DefFn _ _ | DefStruct _ => mret (Some (new_args ++ tail))
      | _ => mret None
      end
  | PatStruct _ pattern_fields _ =>
      (* Is this a struct or an enum variant? *)
      def ← lift (match find_def id with Some d => Ok d | None => Fail ExplicitFail end);
      match def with
      | DefVariant _ variant_id _ =>
          if ctor_eqb (variant variant_id) ctor_id
          then mret (Some (field_pats (lookup_struct_fields (tcx cx) variant_id) pattern_fields
                             ++ tail))
          else mret None
      | _ =>
          match left_ty with
          | ty_struct cid _ =>
              mret (Some (field_pats (lookup_struct_fields (tcx cx) cid) pattern_fields ++ tail))
          | _ => lift (Fail CompilerBug)
          end
      end
  | PatTup args => mret (Some (args ++ tail))
  | PatUniq a | PatRegion a => mret (Some ([a] ++ tail))
  | PatLit expr =>
      e_v ← lift (eval_const expr);
      match_ ← const_covers id e_v ctor_id;
      mret (if (match_ : bool) then Some tail else None)
  | PatRange lo hi =>
      let covers c_lo c_hi :=
        v_lo ← lift (eval_const lo);
        v_hi ← lift (eval_const hi);
        match compare_const_vals c_lo v_lo, compare_const_vals c_hi v_hi with
        | Some val1, Some val2 =>
            mret (if (0 <=? val1)%Z && (val2 <=? 0)%Z then Some tail else None)
        | _, _ => _ ← span_err id "mismatched types between ranges"; mret None
        end in
      match ctor_id with
      | val v => covers v v
      | range c_lo c_hi => covers c_lo c_hi
      | single => mret (Some tail)
      | _ => lift (Fail ExplicitFail)
      end
  | PatVec before slice after =>
      match ctor_id with
      | vec _ =>
          let num_elements := length before + length after in
          mret (if (num_elements <? arity) && is_some slice
                then Some (before ++ replicate (arity - num_elements) wild ++ after ++ tail)
                else if num_elements =? arity then Some (before ++ after ++ tail)
                else None)
      | _ => mret None
      end
  end.

Definition default (r : list Pat) : outcome (option (list Pat)) :=
  r0 ← vec_get r 0;
  Ok (if is_wild r0 then Some (tail r) else None).

(** [m.iter().filter_map(default)]. *)
Fixpoint default_rows (m : matrix) : outcome matrix :=
  match m with
  | [] => Ok []
  | r :: m' =>
      d ← default r;
      ds ← default_rows m';
      Ok match d with Some r' => r' :: ds | None => ds end
  end.

(** ** Usefulness *)

(** [m.iter().find(|r| r.get(0).id != 0)]. *)
Fixpoint find_real_pat (m : matrix) : outcome (option Pat) :=
  match m with
  | [] => Ok None
  | r :: m' =>
      p ← vec_get r 0;
      if negb (pat_id p =? 0)%N then Ok (Some p) else find_real_pat m'
  end.

(** The longest vector pattern of the first column. *)
Definition max_vec_len (ps : list Pat) : nat :=
  foldr (λ p max_len, match vec_pat_len p with
                      | Some (len, _) => Nat.max len max_len
                      | None => max_len
                      end) 0 ps.

Section specialized.
Context (is_useful : matrix → list Pat → MD usefulness).

Definition is_useful_specialized (m : matrix) (v : list Pat) (c : ctor) (arity : nat) (lty : ty)
    : MD usefulness :=
  ms ← filter_mapM (λ r, specialize r c arity lty) m;
  o ← specialize v c arity lty;
  v' ← lift (unwrap o);
  could_be_useful ← is_useful ms v';
  mret match could_be_useful with
       | useful_ => useful lty c
       | u => u
       end.

(** The first constructor for which the row is useful. *)
Fixpoint any_useful (m : matrix) (v : list Pat) (lty : ty) (cs : list (ctor * nat))
    : MD usefulness :=
  match cs with
  | [] => mret not_useful
  | (c, arity) :: cs' =>
      u ← is_useful_specialized m v c arity lty;
      match u with
      | not_useful => any_useful m v lty cs'
      | u => mret u
      end
  end.
End specialized.

Fixpoint is_useful (fuel : nat) (m : matrix) (v : list Pat) : MD usefulness :=
  match fuel with
  | 0 => lift (Fail OutOfFuel)
  | S fuel' =>
      match m with
      | [] => mret useful_
      | [] :: _ => mret not_useful
      | (_ :: _) :: _ =>
          real_pat ← lift (find_real_pat m);
          real_pat ← lift (match real_pat with Some p => Ok p | None => vec_get v 0 end);
          left_ty ← lift (if (pat_id real_pat =? 0)%N then Ok ty_nil
                          else node_id_to_type (tcx cx) (pat_id real_pat));
          v0 ← lift (vec_get v 0);
          v0_ctor ← lift (pat_ctor_id v0);
          match v0_ctor with
          | None =>
              mc ← lift (missing_ctor m left_ty);
              match mc with
              | None =>
                  match left_ty with
                  | ty_bool =>
                      any_useful (is_useful fuel') m v left_ty
                        [(val (const_bool true), 0); (val (const_bool false), 0)]
                  | ty_enum eid _ =>
                      any_useful (is_useful fuel') m v left_ty
                        ((λ va, (variant (va_id va), length (va_args va)))
                           <$> enum_variants (tcx cx) eid)
                  | ty_vec _ (VstoreFixed n) =>
                      is_useful_specialized (is_useful fuel') m v (vec n) n left_ty
                  | ty_vec _ _ =>
                      ps ← lift (first_column m);
                      any_useful (is_useful fuel') m v left_ty
                        ((λ n, (vec n, n)) <$> seq 0 (max_vec_len ps + 1))
                  | _ =>
                      arity ← lift (ctor_arity single left_ty);
                      is_useful_specialized (is_useful fuel') m v single arity left_ty
                  end
              | Some c =>
                  rows ← lift (default_rows m);
                  u ← is_useful fuel' rows (tail v);
                  mret match u with
                       | useful_ => useful left_ty c
                       | u => u
                       end
              end
          | Some v0_ctor =>
              arity ← lift (ctor_arity v0_ctor left_ty);
              is_useful_specialized (is_useful fuel') m v v0_ctor arity left_ty
          end
      end
  end.

(** ** The checks *)

(** A static pattern that is NaN. *)
Definition pat_matches_nan (p : Pat) : outcome bool :=
  match find_def (pat_id p) with
  | Some (DefStatic did false) => v ← eval_static did; Ok (is_nan v)
  | _ => Ok false
  end.

Definition warn_nan (pat : Pat) : MD unit := λ ds,
  (λ r, (tt, r.1)) <$> Ast.walk_pat (λ p ds,
    b ← pat_matches_nan p;
    if (b : bool) then
      r ← span_warn (pat_id p)
            "unmatchable NaN in pattern, use the is_nan method in a guard instead" ds;
      Ok (r.2, true)
    else Ok (ds, true)) pat ds.

Section checks.
Context (fuel : nat).

(** The patterns of one arm: [seen] grows with those of unguarded arms. *)
Fixpoint check_arm_pats (guarded : bool) (pats : list Pat) (seen : matrix) : MD matrix :=
  match pats with
  | [] => mret seen
  | pat :: pats' =>
      _ ← warn_nan pat;
      let v := [pat] in
      u ← is_useful fuel seen v;
      _ ← match u with
          | not_useful => span_err (pat_id pat) "unreachable pattern"
          | _ => mret tt
          end;
      check_arm_pats guarded pats' (if guarded then seen else seen ++ [v])
  end.

Fixpoint check_arms_from (arms : list Arm) (seen : matrix) : MD matrix :=
  match arms with
  | [] => mret seen
  | arm :: arms' =>
      seen ← check_arm_pats (is_some (arm_guard arm)) (arm_pats arm) seen;
      check_arms_from arms' seen
  end.

Definition check_arms (arms : list Arm) : MD unit := _ ← check_arms_from arms []; mret tt.

(** What the report of a useful wildcard names. *)
Definition not_covered_by (u : usefulness) : outcome (option not_covered) :=
  match u with
  | useful ty_bool c =>
      Ok match c with val (const_bool b) => Some (NotCoveredBool b) | _ => None end
  | useful (ty_enum id _) c =>
      match c with
      | variant vid =>
          match List.find (λ v, bool_decide (va_id v = vid)) (enum_variants (tcx cx) id) with
          | Some v => Ok (Some (NotCoveredVariant (va_name v)))
          | None => Fail ExplicitFail
          end
      | _ => Fail ExplicitFail
      end
  | useful (ty_vec _ _) c => Ok match c with vec n => Some (NotCoveredVec n) | _ => None end
  | _ => Ok None
  end.

Definition check_exhaustive (sp : NodeId) (pats : list Pat) : MD unit :=
  _ ← lift (assert_ (match pats with [] => false | _ => true end));
  u ← is_useful fuel ((λ p, [p]) <$> pats) [wild];
  match u with
  | not_useful => mret tt (* This is good, wildcard pattern isn't reachable *)
  | u =>
      ext ← lift (not_covered_by u);
      emit (LevelError, sp, NonExhaustivePatterns ext)
  end.

(** *** Refutability *)

Fixpoint is_refutable (pat : Pat) : bool :=
  let structure :=
    match pat_node pat with
    | PatUniq sub | PatRegion sub | PatIdent _ _ (Some sub) => is_refutable sub
    | PatWild | PatWildMulti | PatIdent _ _ None => false
    | PatLit lit => match expr_node lit with ExprLit LitNil => false | _ => true end
    | PatRange _ _ => true
    | PatStruct _ fields _ => existsb (λ f, is_refutable (field_pat f)) fields
    | PatTup elts => existsb is_refutable elts
    | PatEnum _ (Some args) => existsb is_refutable args
    | PatEnum _ None => false
    | PatVec _ _ _ => true
    end in
  match find_def (pat_id pat) with
  | Some (DefVariant enum_id _ _) =>
      if negb (length (enum_variants (tcx cx) enum_id) =? 1) then true else structure
  | Some (DefStatic _ _) => true
  | _ => structure
  end.

(** *** By-move bindings *)

(** [(by_ref_span, any_by_move)] after the bindings of the patterns. *)
Fixpoint binding_modes (pats : list Pat) (acc : option NodeId * bool)
    : outcome (option NodeId * bool) :=
  match pats with
  | [] => Ok acc
  | pat :: pats' =>
      acc ← pat_bindings (def_map (tcx cx)) pat (λ bm id _ acc,
              Ok match bm with
                 | BindByRef _ => (Some id, acc.2)
                 | BindByValue _ =>
                     if decide (id ∈ moves_map cx) then (acc.1, true) else acc
                 end) acc;
      binding_modes pats' acc
  end.

Definition check_move (has_guard : bool) (by_ref_span : option NodeId) (p : Pat)
    (sub : option Pat) : MD unit :=
  (* x @ Foo(..) is legal, but x @ Foo(y) isn't. *)
  b ← lift (match sub with
            | Some s => pat_contains_bindings (def_map (tcx cx)) s
            | None => Ok false
            end);
  if (b : bool) then span_err (pat_id p) "cannot bind by-move with sub-bindings"
  else if has_guard then span_err (pat_id p) "cannot bind by-move into a pattern guard"
  else match by_ref_span with
       | Some span =>
           _ ← span_err (pat_id p) "cannot bind by-move and by-ref in the same pattern";
           span_note span "by-ref binding occurs here"
       | None => mret tt
       end.

Definition check_moves_in (has_guard : bool) (by_ref_span : option NodeId) (pat : Pat)
    : MD unit := λ ds,
  (λ r, (tt, r.1)) <$> Ast.walk_pat (λ p ds,
    if pat_is_binding (def_map (tcx cx)) p then
      match pat_node p with
      | PatIdent _ _ sub =>
          if decide (pat_id p ∈ moves_map cx)
          then r ← check_move has_guard by_ref_span p sub ds; Ok (r.2, true)
          else Ok (ds, true)
      | _ => Fail CompilerBug
      end
    else Ok (ds, true)) pat ds.

Fixpoint check_moves (has_guard : bool) (by_ref_span : option NodeId) (pats : list Pat)
    : MD unit :=
  match pats with
  | [] => mret tt
  | pat :: pats' =>
      _ ← check_moves_in has_guard by_ref_span pat;
      check_moves has_guard by_ref_span pats'
  end.

Definition check_legality_of_move_bindings (has_guard : bool) (pats : list Pat) : MD unit :=
  modes ← lift (binding_modes pats (None, false));
  let '(by_ref_span, any_by_move) := modes in
  if negb any_by_move then mret tt (* pointless micro-optimization *)
  else check_moves has_guard by_ref_span pats.

(** *** The visitor *)

Fixpoint check_legality_of_arms (arms : list Arm) : MD unit :=
  match arms with
  | [] => mret tt
  | arm :: arms' =>
      _ ← check_legality_of_move_bindings (is_some (arm_guard arm)) (arm_pats arm);
      check_legality_of_arms arms'
  end.

(** The patterns of the unguarded arms. *)
Definition unguarded_pats (arms : list Arm) : list Pat := mjoin (omap unguarded_pat arms).

Definition check_match_expr (ex scrut : Expr) (arms : list Arm) : MD unit :=
  (* First, check legality of move bindings. *)
  _ ← check_legality_of_arms arms;
  _ ← check_arms arms;
  (* Check for exhaustiveness *)
  pat_ty ← lift (node_id_to_type (tcx cx) (expr_id scrut));
  match arms with
  | [] =>
      if negb (type_is_empty (tcx cx) pat_ty)
      then span_err (expr_id ex) "non-exhaustive patterns: type is non-empty"
      else mret tt (* If the type is empty, it's vacuously exhaustive *)
  | _ :: _ =>
      match unguarded_pats arms with
      | [] => span_err (expr_id ex) "non-exhaustive patterns"
      | pats => check_exhaustive (expr_id ex) pats
      end
  end.

Abbreviation visitor := (Visitor unit (list diag)).

Definition run (c : MD unit) (ds : list diag) : outcome (list diag) := snd <$> c ds.

Definition check_expr (self : visitor) (ex : Expr) (env : unit) (ds : list diag)
    : outcome (list diag) :=
  ds ← walk_expr self ex env ds;
  match expr_node ex with
  | ExprMatch scrut arms => run (check_match_expr ex scrut arms) ds
  | _ => Ok ds
  end.

Definition check_local (self : visitor) (loc : Local) (env : unit) (ds : list diag)
    : outcome (list diag) :=
  ds ← walk_local self loc env ds;
  match loc with
  | mkLocal _ pat _ _ =>
      ds ← run (if is_refutable pat
                then span_err (pat_id pat) "refutable pattern in local binding"
                else mret tt) ds;
      (* Check legality of move bindings. *)
      run (check_legality_of_move_bindings false [pat]) ds
  end.

Definition check_fn (self : visitor) (decl : FnDecl) (body : Block) (id : NodeId) (env : unit)
    (ds : list diag) : outcome (list diag) :=
  ds ← walk_fn self decl body env ds;
  for_each (λ input,
    run (if is_refutable (arg_pat input)
         then span_err (pat_id (arg_pat input)) "refutable pattern in function argument"
         else mret tt)) (fn_inputs decl) ds.

Definition match_visitor (self : visitor) : visitor :=
  let d := default_visitor self in
  mkVisitor (check_local self) (visit_block d) (visit_stmt d) (visit_arm d) (visit_pat d)
    (visit_decl d) (check_expr self) (visit_expr_post d) (check_fn self) (visit_item d)
    (visit_ty d).
End checks.
End check_match.
