(* ===== verification/MatchSound.v ===== *)
(** What usefulness means: values of types, when a pattern matches a value, and
    the proof that a row [is_useful] calls not useful matches no value the
    matrix does not already match.  The claim is about the patterns that the
    checks support ([supported]): slice patterns only at types of fixed length,
    for the others it does not hold. *)

From stdpp Require Import prelude gmap strings list.
From Stdlib Require Import SpecFloat.
From S2P Require Import Prelude Ast RegionMaps Ty ConstEval PatUtil CheckMatch.

(** ** Values *)

Inductive value :=
  | VUnit
  | VBool (b : bool)
  | VInt (z : Z)
  | VFloat (f : f64)
  | VStr (s : string)
  | VSingle (args : list value)
  | VVariant (id : DefId) (args : list value)
  | VVec (elems : list value)
  | VOpaque.

(** The value as a constant of the kind of [c]. *)
Definition value_const (c : const_val) (v : value) : option const_val :=
  match c, v with
  | const_int _, VInt z => Some (const_int z)
  | const_uint _, VInt z => Some (const_uint z)
  | const_float _, VFloat f => Some (const_float f)
  | const_str _, VStr s => Some (const_str s)
  | const_bool _, VBool b => Some (const_bool b)
  | _, _ => None
  end.

Definition const_matches (c : const_val) (v : value) : bool :=
  match value_const c v with
  | Some c' => bool_decide (compare_const_vals c c' = Some 0%Z)
  | None => false
  end.

Definition const_leb (a b : const_val) : bool :=
  match compare_const_vals a b with Some n => (n <=? 0)%Z | None => false end.

(** [lo <= v && v <= hi]. *)
Definition range_matches (lo hi : const_val) (v : value) : bool :=
  match value_const lo v with
  | Some c => const_leb lo c && const_leb c hi
  | None => false
  end.

(** ** Matching *)

(** The rules of [wt_pat] below, by name. *)
Ltac wt_cases Hp :=
  destruct Hp as [id t _|id t _|id bm path s t _ Hp|id bm path t _ Hbi
    |id bm path eid substs va st _ Hd Hva Hnil|id bm path did k t _ Hd Hk Hok
    |id path ops eid substs va st _ Hd Hva Hps|id path ops did k t _ Hd Hk Hok
    |id path ops d cid substs _ Hd Hd' Hps|id path fields etc eid substs va st _ Hd Hva Hcf Hfs
    |id path fields etc d cid substs _ Hd Hd' Hfs|id ps ts' _ Hps|id q t _ Hp|id q rg t mt _ Hp
    |id e k t _ Hlit Hk Hok|id e _ Hk|id lo hi klo khi t _ Hrt Hlo Hhi Hoklo Hokhi Hle
    |id before slice after t k _ Hbe Haf Hsl].

Section matches.
Context (cx : MatchCheckCtxt).

Fixpoint forall2b {A B} (f : A → B → bool) (l : list A) (k : list B) : bool :=
  match l, k with
  | [], [] => true
  | x :: l', y :: k' => f x y && forall2b f l' k'
  | _, _ => false
  end.

(** The fields of a struct against the patterns given for some of them. *)
Definition fields_match (class_fields : list field_ty) (pats : list (Name * (value → bool)))
    (vs : list value) : bool :=
  forall2b (λ sf v, match List.find (λ f, (f.1 =? ft_name sf)%N) pats with
                    | Some f => f.2 v
                    | None => true
                    end) class_fields vs.

(** A static in a pattern. *)
Definition static_matches (did : DefId) (v : value) : bool :=
  match eval_static cx did with Ok c => const_matches c v | Fail _ => false end.

Fixpoint pat_matches (p : Pat) (v : value) {struct p} : bool :=
  match pat_node p with
  | PatWild | PatWildMulti => true
  | PatIdent _ _ (Some s) => pat_matches s v
  | PatIdent _ _ None =>
      match find_def cx (pat_id p) with
      | Some (DefVariant _ vid _) =>
          match v with VVariant id _ => bool_decide (vid = id) | _ => false end
      | Some (DefStatic did _) => static_matches did v
      | _ => true
      end
  | PatEnum _ args =>
      match find_def cx (pat_id p), v with
      | Some (DefVariant _ vid _), VVariant id vs =>
          bool_decide (vid = id) &&
          match args with Some ps => forall2b pat_matches ps vs | None => true end
      | Some (DefStatic did _), _ => static_matches did v
      | Some (DefFn _ _), VSingle vs | Some (DefStruct _), VSingle vs =>
          match args with Some ps => forall2b pat_matches ps vs | None => true end
      | _, _ => false
      end
  | PatStruct _ fields _ =>
      let pats := map (λ f, (ident f, pat_matches (field_pat f))) fields in
      match find_def cx (pat_id p), v with
      | Some (DefVariant _ vid _), VVariant id vs =>
          bool_decide (vid = id) && fields_match (lookup_struct_fields (tcx cx) vid) pats vs
      | Some (DefVariant _ _ _), _ => false
      | _, VSingle vs =>
          match node_types (tcx cx) !! pat_id p with
          | Some (ty_struct cid _) => fields_match (lookup_struct_fields (tcx cx) cid) pats vs
          | _ => false
          end
      | _, _ => false
      end
  | PatTup ps => match v with VSingle vs => forall2b pat_matches ps vs | _ => false end
  | PatUniq p | PatRegion p =>
      match v with VSingle [x] => pat_matches p x | _ => false end
  | PatLit e =>
      match v with
      | VUnit => true
      | _ => match eval_const cx e with Ok c => const_matches c v | Fail _ => false end
      end
  | PatRange lo hi =>
      match eval_const cx lo, eval_const cx hi with
      | Ok lo, Ok hi => range_matches lo hi v
      | _, _ => false
      end
  | PatVec before slice after =>
      match v with
      | VVec vs =>
          let nb := length before in
          let na := length after in
          (if is_some slice then nb + na <=? length vs else nb + na =? length vs) &&
          forall2b pat_matches before (take nb vs) &&
          forall2b pat_matches after (drop (length vs - na) vs) &&
          match slice with
          | Some s => pat_matches s (VVec (drop nb (take (length vs - na) vs)))
          | None => true
          end
      | _ => false
      end
  end.

Definition row_matches (r : list Pat) (vs : list value) : bool := forall2b pat_matches r vs.

(** ** Typing *)

(** The types of the fields of a variant and of a struct, at given type
    arguments. *)
Context (variant_tys : DefId → list ty → DefId → list ty) (struct_tys : DefId → list ty → list ty).

(** What the checks rely on in the type context. *)
Record tcx_wf : Prop := {
  wf_variant_ids eid : NoDup (va_id <$> enum_variants (tcx cx) eid);
  wf_variant_tys eid substs va : va ∈ enum_variants (tcx cx) eid →
    length (variant_tys eid substs (va_id va)) = length (va_args va);
  wf_struct_tys cid substs :
    length (struct_tys cid substs) = length (lookup_struct_fields (tcx cx) cid);
  wf_field_names did : NoDup (ft_name <$> lookup_struct_fields (tcx cx) did)
}.

(** The types with one constructor, and the types of its arguments. *)
Definition single_tys (t : ty) : option (list ty) :=
  match t with
  | ty_tup ts => Some ts
  | ty_box t | ty_uniq t | ty_rptr _ t _ => Some [t]
  | ty_struct cid substs => Some (struct_tys cid substs)
  | _ => None
  end.

(** The kinds of constants a type has; [bool] is apart. *)
Definition const_ty (c : const_val) (t : ty) : bool :=
  match t, c with
  | ty_bool, const_bool _ => true
  | ty_char, const_int _ | ty_char, const_uint _ => true
  | ty_int _, const_int _ | ty_int _, const_uint _ => true
  | ty_uint _, const_int _ | ty_uint _, const_uint _ => true
  | ty_float _, const_float _ => true
  | ty_str _, const_str _ => true
  | _, _ => false
  end.

(** Ranges are of characters and numbers. *)
Definition range_ty (t : ty) : bool :=
  match t with ty_char | ty_int _ | ty_uint _ | ty_float _ => true | _ => false end.

Definition scalar_ty (v : value) (t : ty) : bool :=
  match t, v with
  | ty_bool, VBool _ => true
  | ty_char, VInt _ | ty_int _, VInt _ | ty_uint _, VInt _ => true
  | ty_float _, VFloat _ => true
  | ty_str _, VStr _ => true
  | _, _ => false
  end.

(** Types whose values patterns cannot look into. *)
Definition opaque_ty (t : ty) : bool :=
  match t with
  | ty_nil | ty_bool | ty_char | ty_int _ | ty_uint _ | ty_float _ | ty_enum _ _ | ty_box _
  | ty_uniq _ | ty_str _ | ty_vec _ _ | ty_rptr _ _ _ | ty_struct _ _ | ty_tup _ => false
  | _ => true
  end.

Inductive has_type : value → ty → Prop :=
  | ht_unit : has_type VUnit ty_nil
  | ht_scalar v t : scalar_ty v t = true → has_type v t
  | ht_single args t ts :
      single_tys t = Some ts → Forall2 has_type args ts → has_type (VSingle args) t
  | ht_variant eid substs va args :
      va ∈ enum_variants (tcx cx) eid → Forall2 has_type args (variant_tys eid substs (va_id va)) →
      has_type (VVariant (va_id va) args) (ty_enum eid substs)
  | ht_vec elems t s :
      Forall (λ e, has_type e t) elems →
      match s with VstoreFixed n => length elems = n | _ => True end →
      has_type (VVec elems) (ty_vec t s)
  | ht_opaque t : opaque_ty t = true → has_type VOpaque t.

(** Node ids of patterns: 0 marks the wildcards made by the analysis, the
    others have the type of the pattern. *)
Definition id_ok (p : Pat) (t : ty) : Prop :=
  if (pat_id p =? 0)%N then pat_node p = PatWild ∨ pat_node p = PatWildMulti
  else node_types (tcx cx) !! pat_id p = Some t.

(** Neither a variant nor a static: the identifier binds. *)
Definition binds (id : NodeId) : Prop :=
  match find_def cx id with
  | Some (DefVariant _ _ _) | Some (DefStatic _ _) => False
  | _ => True
  end.

Definition const_pat_ok (c : const_val) (t : ty) : Prop := const_ty c t = true ∧ is_nan c = false.

Inductive wt_pat : Pat → ty → Prop :=
  | wt_wild id t : id_ok (mkPat id PatWild) t → wt_pat (mkPat id PatWild) t
  | wt_wild_multi id t : id_ok (mkPat id PatWildMulti) t → wt_pat (mkPat id PatWildMulti) t
  | wt_at id bm path s t :
      id_ok (mkPat id (PatIdent bm path (Some s))) t → wt_pat s t →
      wt_pat (mkPat id (PatIdent bm path (Some s))) t
  | wt_bind id bm path t :
      id_ok (mkPat id (PatIdent bm path None)) t → binds id →
      wt_pat (mkPat id (PatIdent bm path None)) t
  | wt_ident_variant id bm path eid substs va st :
      id_ok (mkPat id (PatIdent bm path None)) (ty_enum eid substs) →
      find_def cx id = Some (DefVariant eid (va_id va) st) →
      va ∈ enum_variants (tcx cx) eid → va_args va = [] →
      wt_pat (mkPat id (PatIdent bm path None)) (ty_enum eid substs)
  | wt_ident_static id bm path did c t :
      id_ok (mkPat id (PatIdent bm path None)) t →
      find_def cx id = Some (DefStatic did false) → eval_static cx did = Ok c → const_pat_ok c t →
      wt_pat (mkPat id (PatIdent bm path None)) t
  | wt_enum_variant id path args eid substs va st :
      id_ok (mkPat id (PatEnum path args)) (ty_enum eid substs) →
      find_def cx id = Some (DefVariant eid (va_id va) st) →
      va ∈ enum_variants (tcx cx) eid →
      (∀ ps, args = Some ps → Forall2 wt_pat ps (variant_tys eid substs (va_id va))) →
      wt_pat (mkPat id (PatEnum path args)) (ty_enum eid substs)
  | wt_enum_static id path args did c t :
      id_ok (mkPat id (PatEnum path args)) t →
      find_def cx id = Some (DefStatic did false) → eval_static cx did = Ok c → const_pat_ok c t →
      wt_pat (mkPat id (PatEnum path args)) t
  | wt_enum_struct id path args d cid substs :
      id_ok (mkPat id (PatEnum path args)) (ty_struct cid substs) →
      find_def cx id = Some d → match d with DefFn _ _ | DefStruct _ => True | _ => False end →
      (∀ ps, args = Some ps → Forall2 wt_pat ps (struct_tys cid substs)) →
      wt_pat (mkPat id (PatEnum path args)) (ty_struct cid substs)
  | wt_struct_variant id path fields etc eid substs va st :
      id_ok (mkPat id (PatStruct path fields etc)) (ty_enum eid substs) →
      find_def cx id = Some (DefVariant eid (va_id va) st) →
      va ∈ enum_variants (tcx cx) eid →
      length (lookup_struct_fields (tcx cx) (va_id va)) = length (variant_tys eid substs (va_id va)) →
      (∀ i sf t f, lookup_struct_fields (tcx cx) (va_id va) !! i = Some sf →
         variant_tys eid substs (va_id va) !! i = Some t →
         List.find (λ f, (ident f =? ft_name sf)%N) fields = Some f → wt_pat (field_pat f) t) →
      wt_pat (mkPat id (PatStruct path fields etc)) (ty_enum eid substs)
  | wt_struct id path fields etc d cid substs :
      id_ok (mkPat id (PatStruct path fields etc)) (ty_struct cid substs) →
      find_def cx id = Some d → match d with DefVariant _ _ _ => False | _ => True end →
      (∀ i sf t f, lookup_struct_fields (tcx cx) cid !! i = Some sf →
         struct_tys cid substs !! i = Some t →
         List.find (λ f, (ident f =? ft_name sf)%N) fields = Some f → wt_pat (field_pat f) t) →
      wt_pat (mkPat id (PatStruct path fields etc)) (ty_struct cid substs)
  | wt_tup id ps ts :
      id_ok (mkPat id (PatTup ps)) (ty_tup ts) → Forall2 wt_pat ps ts →
      wt_pat (mkPat id (PatTup ps)) (ty_tup ts)
  | wt_uniq id p t :
      id_ok (mkPat id (PatUniq p)) (ty_uniq t) → wt_pat p t →
      wt_pat (mkPat id (PatUniq p)) (ty_uniq t)
  | wt_region id p r t mt :
      id_ok (mkPat id (PatRegion p)) (ty_rptr r t mt) → wt_pat p t →
      wt_pat (mkPat id (PatRegion p)) (ty_rptr r t mt)
  | wt_lit id e c t :
      id_ok (mkPat id (PatLit e)) t → expr_node e ≠ ExprLit LitNil →
      eval_const cx e = Ok c → const_pat_ok c t → wt_pat (mkPat id (PatLit e)) t
  | wt_lit_nil id e :
      id_ok (mkPat id (PatLit e)) ty_nil → eval_const cx e = Ok (const_int 0) →
      wt_pat (mkPat id (PatLit e)) ty_nil
  | wt_range id lo hi clo chi t :
      id_ok (mkPat id (PatRange lo hi)) t → range_ty t = true → eval_const cx lo = Ok clo →
      eval_const cx hi = Ok chi → const_pat_ok clo t → const_pat_ok chi t → const_le clo chi →
      wt_pat (mkPat id (PatRange lo hi)) t
  | wt_vec id before slice after t n :
      id_ok (mkPat id (PatVec before slice after)) (ty_vec t (VstoreFixed n)) →
      Forall (λ p, wt_pat p t) before → Forall (λ p, wt_pat p t) after →
      match slice with
      | Some s => is_wild cx s = true ∧ length before + length after ≤ n
      | None => length before + length after = n
      end →
      wt_pat (mkPat id (PatVec before slice after)) (ty_vec t (VstoreFixed n)).

Definition wt_row (r : list Pat) (ts : list ty) : Prop := Forall2 wt_pat r ts.

(** *** Types, and what the checks support

    [wt_pat] is the conjunction of two things: the pattern has the type, and the
    checks support it. *)

Fixpoint all2 {A B} (P : A → B → Prop) (l : list A) (k : list B) : Prop :=
  match l, k with
  | [], [] => True
  | x :: l', y :: k' => P x y ∧ all2 P l' k'
  | _, _ => False
  end.
Fixpoint all {A} (P : A → Prop) (l : list A) : Prop := match l with [] => True | x :: l' => P x ∧ all P l' end.

(** The fields that have a pattern, at their types. *)
Definition fields_typed (class_fields : list field_ty) (ts : list ty) (pats : list (Name * (ty → Prop))) : Prop :=
  ∀ i sf t f, class_fields !! i = Some sf → ts !! i = Some t →
    List.find (λ f, (f.1 =? ft_name sf)%N) pats = Some f → f.2 t.

(** The pattern has the type, by the rules of the language: a vector pattern
    may be at any vector type, a constant pattern may be any constant that is
    recorded with the type. *)
Fixpoint typed_pat (p : Pat) (t : ty) {struct p} : Prop :=
  id_ok p t ∧
  match p with mkPat id node =>
  match node with
  | PatWild | PatWildMulti => True
  | PatIdent _ _ (Some s) => typed_pat s t
  | PatIdent _ _ None =>
      match find_def cx id with
      | Some (DefVariant eid vid _) =>
          ∃ substs va, t = ty_enum eid substs ∧ va ∈ enum_variants (tcx cx) eid ∧ va_id va = vid ∧ va_args va = []
      | Some (DefStatic _ mutbl) => mutbl = false
      | _ => True
      end
  | PatEnum _ args =>
      match find_def cx id with
      | Some (DefVariant eid vid _) =>
          ∃ substs va, t = ty_enum eid substs ∧ va ∈ enum_variants (tcx cx) eid ∧ va_id va = vid ∧
            match args with Some ps => all2 typed_pat ps (variant_tys eid substs vid) | None => True end
      | Some (DefStatic _ mutbl) => mutbl = false
      | Some (DefFn _ _) | Some (DefStruct _) =>
          ∃ cid substs, t = ty_struct cid substs ∧
            match args with Some ps => all2 typed_pat ps (struct_tys cid substs) | None => True end
      | _ => False
      end
  | PatStruct _ fields _ =>
      let pats := map (λ f, match f with mkFieldPat n q => (n, typed_pat q) end) fields in
      match find_def cx id with
      | Some (DefVariant eid vid _) =>
          ∃ substs va, t = ty_enum eid substs ∧ va ∈ enum_variants (tcx cx) eid ∧ va_id va = vid ∧
            length (lookup_struct_fields (tcx cx) vid) = length (variant_tys eid substs vid) ∧
            fields_typed (lookup_struct_fields (tcx cx) vid) (variant_tys eid substs vid) pats
      | Some _ =>
          ∃ cid substs, t = ty_struct cid substs ∧
            fields_typed (lookup_struct_fields (tcx cx) cid) (struct_tys cid substs) pats
      | None => False
      end
  | PatTup ps => match t with ty_tup ts => all2 typed_pat ps ts | _ => False end
  | PatUniq q => match t with ty_uniq t' => typed_pat q t' | _ => False end
  | PatRegion q => match t with ty_rptr _ t' _ => typed_pat q t' | _ => False end
  | PatLit e => True
  | PatRange _ _ => range_ty t = true
  | PatVec before slice after =>
      match t with
      | ty_vec t' _ =>
          all (λ q, typed_pat q t') before ∧ all (λ q, typed_pat q t') after ∧
          match slice with Some s => ∃ st, typed_pat s (ty_vec t' st) | None => True end
      | _ => False
      end
  end end.

(** The constant is there, of the kind of constants that the type of the
    pattern has, and not a NaN. *)
Definition const_supported (id : NodeId) (o : outcome const_val) : bool :=
  match node_types (tcx cx) !! id, o with
  | Some t, Ok c => const_ty c t && negb (is_nan c)
  | _, _ => false
  end.

(** What the checks support: constants that evaluate to the kind of constant of
    their type, ranges that are not empty, and vector patterns at types of fixed
    length whose rest, if they have one, is a wildcard or a name. *)
Fixpoint supported (p : Pat) : bool :=
  match p with mkPat id node =>
  match node with
  | PatWild | PatWildMulti => true
  | PatIdent _ _ (Some s) => supported s
  | PatIdent _ _ None =>
      match find_def cx id with Some (DefStatic did _) => const_supported id (eval_static cx did) | _ => true end
  | PatEnum _ args =>
      match find_def cx id with
      | Some (DefStatic did _) => const_supported id (eval_static cx did)
      | _ => match args with Some ps => forallb supported ps | None => true end
      end
  | PatStruct _ fields _ => forallb (λ f, match f with mkFieldPat _ q => supported q end) fields
  | PatTup ps => forallb supported ps
  | PatUniq q | PatRegion q => supported q
  | PatLit e =>
      match node_types (tcx cx) !! id with
      | Some ty_nil => match eval_const cx e with Ok (const_int 0) => true | _ => false end
      | _ => match expr_node e with ExprLit LitNil => false | _ => const_supported id (eval_const cx e) end
      end
  | PatRange lo hi =>
      const_supported id (eval_const cx lo) && const_supported id (eval_const cx hi) &&
      match eval_const cx lo, eval_const cx hi with Ok l, Ok h => const_leb l h | _, _ => false end
  | PatVec before slice after =>
      forallb supported before && forallb supported after &&
      match node_types (tcx cx) !! id with
      | Some (ty_vec _ (VstoreFixed n)) =>
          match slice with
          | Some s => is_wild cx s && (length before + length after <=? n)
          | None => length before + length after =? n
          end
      | _ => false
      end
  end end.
Definition typed_row (r : list Pat) (ts : list ty) : Prop := Forall2 typed_pat r ts.

(** [x] is built by the constructor [c] of the type [t] from [args], whose types
    are [ts]. *)
Inductive built : ty → ctor → value → list value → list ty → Prop :=
  | built_single t args ts : single_tys t = Some ts → built t single (VSingle args) args ts
  | built_unit : built ty_nil single VUnit [] []
  | built_unit_val : built ty_nil (val (const_int 0)) VUnit [] []
  | built_variant eid substs va args :
      va ∈ enum_variants (tcx cx) eid →
      built (ty_enum eid substs) (variant (va_id va)) (VVariant (va_id va) args) args
        (variant_tys eid substs (va_id va))
  | built_vec t n args :
      built (ty_vec t (VstoreFixed n)) (vec n) (VVec args) args (replicate n t)
  | built_val t k x :
      scalar_ty x t = true → const_matches k x = true → built t (val k) x [] []
  | built_range t lo hi x :
      scalar_ty x t = true → range_matches lo hi x = true → built t (range lo hi) x [] [].

(** ** Constants *)

Lemma value_const_kind a b n v :
  compare_const_vals a b = Some n → value_const a v = value_const b v.
Proof. by destruct a, b. Qed.

Lemma const_matches_spec c v :
  const_matches c v = true ↔ ∃ c', value_const c v = Some c' ∧ const_eq c c'.
Proof.
  unfold const_matches. destruct (value_const c v); [|naive_solver].
  rewrite bool_decide_eq_true. unfold const_eq. naive_solver.
Qed.

Lemma const_leb_spec a b : const_leb a b = true ↔ const_le a b.
Proof.
  unfold const_leb, const_le. destruct (compare_const_vals a b) as [n|]; [|naive_solver].
  rewrite Z.leb_le. naive_solver.
Qed.

Lemma range_matches_spec lo hi v :
  range_matches lo hi v = true ↔
  ∃ c, value_const lo v = Some c ∧ const_le lo c ∧ const_le c hi.
Proof.
  unfold range_matches. destruct (value_const lo v) as [c|]; [|naive_solver].
  rewrite andb_true_iff, !const_leb_spec. naive_solver.
Qed.

Lemma const_le_kind a b v : const_le a b → value_const a v = value_const b v.
Proof. intros (n & Hn & _). by eapply value_const_kind. Qed.

Lemma const_eq_matches a b v : const_eq a b → const_matches b v = true → const_matches a v = true.
Proof.
  rewrite !const_matches_spec. intros Hab (c & Hc & Heq). exists c.
  rewrite (value_const_kind _ _ _ _ Hab). split; [done|by eapply const_eq_trans].
Qed.

Lemma const_covers_matches id e c ds ds' t x args ts :
  const_covers id e c ds = Ok (true, ds') → const_pat_ok e t → built t c x args ts →
  const_matches e x = true.
Proof.
  intros Hc [Hty Hnan] Hb. destruct Hb as [t ? ts Hs| | |? ? ? ?| |t k x Hx Hk|t lo hi x Hx Hr];
    simpl in Hty; try done.
  - by destruct t, e.
  - simpl in Hc. destruct (compare_const_vals e k) as [n|] eqn:Hek; simpl in Hc; [|done].
    injection Hc as Hn%Z.eqb_eq <-. subst n. by apply (const_eq_matches e k).
  - simpl in Hc. destruct (compare_const_vals lo e) as [n1|] eqn:H1; simpl in Hc; [|done].
    destruct (compare_const_vals hi e) as [n2|] eqn:H2; simpl in Hc; [|done].
    injection Hc as Hn <-. apply andb_true_iff in Hn as [Hn1%Z.leb_le Hn2%Z.leb_le].
    apply range_matches_spec in Hr as (c & Hc & Hlo & Hhi). apply const_matches_spec. exists c.
    rewrite <-(value_const_kind _ _ _ x H1). split; [done|].
    apply const_le_antisym.
    + eapply const_le_trans; [|done]. eapply const_ge_le; eauto. apply (const_le_not_nan _ _ Hlo).
    + eapply const_le_trans; [done|]. by exists n2.
Qed.

(** ** Typed patterns that are supported *)

Lemma all2_Forall2 {A B} (P : A → B → Prop) l k : all2 P l k ↔ Forall2 P l k.
Proof.
  revert k. induction l as [|x l IH]; intros [|y k]; simpl; [split; [constructor|done]|split; [done|inversion 1]..|].
  rewrite IH. split; [intros [? ?]; by constructor|by inversion 1].
Qed.
Lemma all_Forall {A} (P : A → Prop) l : all P l ↔ Forall P l.
Proof. induction l as [|x l IH]; simpl; [split; [constructor|done]|]. by rewrite IH, Forall_cons. Qed.

Lemma const_supported_ok id o t c :
  node_types (tcx cx) !! id = Some t → o = Ok c → const_supported id o = true → const_pat_ok c t.
Proof. unfold const_supported. intros -> -> [H1 H2%negb_true_iff]%andb_true_iff. done. Qed.
Lemma const_supported_Ok id o : const_supported id o = true → ∃ c, o = Ok c.
Proof. unfold const_supported. destruct (_ !! _), o; try done. eauto. Qed.

(** The part of a typed pattern, for the lists of parts. *)
Lemma typed_parts (ps : list Pat) ts :
  Forall (λ p, ∀ t, typed_pat p t → supported p = true → wt_pat p t) ps → all2 typed_pat ps ts →
  forallb supported ps = true → Forall2 wt_pat ps ts.
Proof.
  intros IH Ht%all2_Forall2. revert IH. induction Ht as [|p t ps ts Hp _ IHt]; intros IH Hs; [constructor|].
  apply Forall_cons in IH as [IHp IH]. apply andb_true_iff in Hs as [Hsp Hs]. constructor; auto.
Qed.
Lemma typed_elems (ps : list Pat) t :
  Forall (λ p, ∀ t, typed_pat p t → supported p = true → wt_pat p t) ps → all (λ q, typed_pat q t) ps →
  forallb supported ps = true → Forall (λ q, wt_pat q t) ps.
Proof.
  intros IH Ht%all_Forall. revert IH. induction Ht as [|p ps Hp _ IHt]; intros IH Hs; [constructor|].
  apply Forall_cons in IH as [IHp IH]. apply andb_true_iff in Hs as [Hsp Hs]. constructor; auto.
Qed.
Lemma typed_fields cf ts fields :
  Forall (λ p, ∀ t, typed_pat p t → supported p = true → wt_pat p t) (field_pat <$> fields) →
  fields_typed cf ts (map (λ f, match f with mkFieldPat n q => (n, typed_pat q) end) fields) →
  forallb (λ f, match f with mkFieldPat _ q => supported q end) fields = true →
  ∀ i sf t f, cf !! i = Some sf → ts !! i = Some t →
    List.find (λ f, (ident f =? ft_name sf)%N) fields = Some f → wt_pat (field_pat f) t.
Proof.
  intros IH Hf Hs i sf t f Hi Ht Hfind. rewrite Forall_forall in IH. rewrite forallb_forall in Hs.
  pose proof (List.find_some _ _ Hfind) as [Hin _]. apply IH.
  - apply list_elem_of_fmap. exists f. split; [done|by apply list_elem_of_In].
  - specialize (Hf i sf t (ident f, typed_pat (field_pat f)) Hi Ht). apply Hf. clear -Hfind.
    induction fields as [|[n q] fields IHf]; [done|]. simpl in *. destruct (n =? ft_name sf)%N; [by injection Hfind as <-|by apply IHf].
  - specialize (Hs f Hin). by destruct f.
Qed.

Lemma typed_supported p : ∀ t, typed_pat p t → supported p = true → wt_pat p t.
Proof.
  induction p as [p IH] using Pat_sub_ind. intros t Ht Hs. destruct p as [id node].
  unfold sub_pats in IH. cbn [pat_node] in IH. cbn [typed_pat supported] in Ht, Hs. destruct Ht as [Hid Ht].
  assert (node = PatWild ∨ node = PatWildMulti ∨ node_types (tcx cx) !! id = Some t) as Hty.
  { unfold id_ok in Hid. cbn [pat_id pat_node] in Hid. destruct (id =? 0)%N; tauto. }
  destruct node as [| |bm path [s|]|path args|path fields etc|ps|q|q|e|lo hi|before slice after];
    try (destruct Hty as [?|[?|Hty]]; [discriminate..|]).
  - by apply wt_wild.
  - by apply wt_wild_multi.
  - apply wt_at; [done|]. rewrite Forall_singleton in IH. by apply IH.
  - destruct (find_def cx id) as [d|] eqn:Hd; [|apply wt_bind; [done|unfold binds; by rewrite Hd]].
    destruct d; try (apply wt_bind; [done|unfold binds; by rewrite Hd]).
    + destruct (const_supported_Ok _ _ Hs) as [c Hc]. subst is_mutbl. eapply wt_ident_static; [done|done|done|by eapply const_supported_ok].
    + destruct Ht as (substs & va & -> & Hva & <- & Hnil). by eapply wt_ident_variant.
  - destruct (find_def cx id) as [d|] eqn:Hd; [|done]. destruct d; try done.
    + destruct Ht as (cid & substs & -> & Ha). eapply wt_enum_struct; [done|done|done|]. intros ps ->. by apply typed_parts.
    + destruct (const_supported_Ok _ _ Hs) as [c Hc]. subst is_mutbl. eapply wt_enum_static; [done|done|done|by eapply const_supported_ok].
    + destruct Ht as (substs & va & -> & Hva & <- & Ha). eapply wt_enum_variant; [done|done|done|]. intros ps ->. by apply typed_parts.
    + destruct Ht as (cid & substs & -> & Ha). eapply wt_enum_struct; [done|done|done|]. intros ps ->. by apply typed_parts.
  - destruct (find_def cx id) as [d|] eqn:Hd; [|done].
    destruct (match d with DefVariant _ _ _ => true | _ => false end) eqn:Ev.
    + destruct d; try done. destruct Ht as (substs & va & -> & Hva & <- & Hlen & Hf). eapply wt_struct_variant; [done..|]. by eapply typed_fields.
    + assert (∃ cid substs, t = ty_struct cid substs ∧ fields_typed (lookup_struct_fields (tcx cx) cid) (struct_tys cid substs)
        (map (λ f, match f with mkFieldPat n q => (n, typed_pat q) end) fields)) as (cid & substs & -> & Hf) by (by destruct d).
      eapply wt_struct; [done|done|by destruct d|]. by eapply typed_fields.
  - destruct t; try done. apply wt_tup; [done|]. by apply typed_parts.
  - destruct t; try done. apply wt_uniq; [done|]. rewrite Forall_singleton in IH. by apply IH.
  - destruct t; try done. apply wt_region; [done|]. rewrite Forall_singleton in IH. by apply IH.
  - rewrite Hty in Hs. assert (t = ty_nil ∨ t ≠ ty_nil) as [->|Hnil] by (destruct t; auto).
    + destruct (eval_const cx e) as [[| | | | |]|] eqn:Hc; try done. destruct i; try done. by apply wt_lit_nil.
    + assert (expr_node e ≠ ExprLit LitNil ∧ const_supported id (eval_const cx e) = true) as [Hn Hcs].
      { destruct t; try done; destruct (expr_node e) as [| | | | | | | |[]| | | | | | | | | | | | | | | | | | | | | | |]; done. }
      destruct (const_supported_Ok _ _ Hcs) as [c Hc]. eapply wt_lit; [done|done|done|by eapply const_supported_ok].
  - apply andb_true_iff in Hs as [[Hl Hh]%andb_true_iff Hle]. destruct (const_supported_Ok _ _ Hl) as [cl Hcl], (const_supported_Ok _ _ Hh) as [ch Hch].
    rewrite Hcl, Hch in Hle. eapply wt_range; [done|done|done|done|by eapply const_supported_ok|by eapply const_supported_ok|by apply const_leb_spec].
  - destruct t as [| | | | | | | | | | |t' st| | | | | | | | | | |]; try done. destruct Ht as (Hb & Ha & _). apply andb_true_iff in Hs as [[Hsb Hsa]%andb_true_iff Hv]. rewrite Hty in Hv.
    destruct st; try done. rewrite !Forall_app in IH. destruct IH as (IHb & _ & IHa). apply wt_vec; [done|by apply typed_elems|by apply typed_elems|].
    destruct slice; [|by apply Nat.eqb_eq]. apply andb_true_iff in Hv as [Hw Hle%Nat.leb_le]. done.
Qed.
Lemma typed_supported_row r ts : typed_row r ts → forallb supported r = true → wt_row r ts.
Proof.
  intros Ht. induction Ht as [|p t r ts Hp _ IH]; intros Hs; [constructor|]. apply andb_true_iff in Hs as [Hsp Hs].
  constructor; [by apply typed_supported|by apply IH].
Qed.

(** ** Patterns and their raw form *)

Lemma raw_pat_matches p v : pat_matches (raw_pat p) v = pat_matches p v.
Proof.
  revert p. fix IH 1. intros [id node]. destruct node as [| |bm path [s|]|?|?|?|?|?|?|?|?];
    try reflexivity.
  exact (IH s).
Qed.

Lemma raw_pat_wt p t : wt_pat p t → wt_pat (raw_pat p) t.
Proof.
  revert p. fix IH 1. intros [id node] H.
  destruct node as [| |bm path [s|]|?|?|?|?|?|?|?|?]; try exact H.
  apply (IH s). by inversion H.
Qed.

Lemma raw_pat_node p bm path s : pat_node (raw_pat p) ≠ PatIdent bm path (Some s).
Proof.
  revert p. fix IH 1. intros [id node]. destruct node as [| |bm' path' [s'|]|?|?|?|?|?|?|?|?];
    try discriminate.
  exact (IH s').
Qed.

Lemma raw_pat_idemp p : raw_pat (raw_pat p) = raw_pat p.
Proof.
  revert p. fix IH 1. intros [id node]. destruct node as [| |bm' path' [s'|]|?|?|?|?|?|?|?|?];
    try reflexivity.
  exact (IH s').
Qed.

Lemma wild_matches p v : is_wild cx p = true → pat_matches p v = true.
Proof.
  rewrite <-raw_pat_matches. unfold is_wild.
  pose proof (raw_pat_node p) as Hn. destruct (raw_pat p) as [id node]. simpl in *.
  destruct node as [| |bm path [s|]|?|?|?|?|?|?|?|?]; try done.
  - by edestruct Hn.
  - simpl. by destruct (find_def cx id) as [[]|].
Qed.

(** ** Specialization *)

Lemma forall2b_app {A B} (f : A → B → bool) l1 l2 k1 k2 :
  length l1 = length k1 → forall2b f (l1 ++ l2) (k1 ++ k2) = forall2b f l1 k1 && forall2b f l2 k2.
Proof.
  revert k1. induction l1 as [|x l1 IH]; intros [|y k1] Hlen; simplify_eq/=; [done|].
  by rewrite IH, andb_assoc.
Qed.

Lemma forall2b_length {A B} (f : A → B → bool) l k : forall2b f l k = true → length l = length k.
Proof.
  revert k. induction l as [|x l IH]; intros [|y k]; simpl; try done.
  rewrite andb_true_iff. intros [_ H]. by rewrite (IH k H).
Qed.

Lemma forall2b_true {A B} (f : A → B → bool) n x k :
  length k = n → (∀ y, f x y = true) → forall2b f (replicate n x) k = true.
Proof. intros <- Hf. induction k as [|y k IH]; simpl; [done|]. by rewrite Hf. Qed.

Lemma find_map {A B} (f : A → B) (P : B → bool) l :
  List.find P (map f l) = option_map f (List.find (λ x, P (f x)) l).
Proof. induction l as [|x l IH]; simpl; [done|]. by destruct (P (f x)). Qed.

Lemma field_pats_match cf fields vs :
  forall2b pat_matches (field_pats cf fields) vs
  = fields_match cf (map (λ f, (ident f, pat_matches (field_pat f))) fields) vs.
Proof.
  unfold fields_match, field_pats. revert vs.
  induction cf as [|sf cf IH]; intros [|v vs]; simpl; try done.
  rewrite find_map. simpl. rewrite <-IH.
  by destruct (List.find (λ f, (ident f =? ft_name sf)%N) fields).
Qed.

Lemma wt_wild0 t : wt_pat wild t.
Proof. apply wt_wild. by left. Qed.

Lemma wt_wilds w ts n : (∀ t, wt_pat w t) → n = length ts → Forall2 wt_pat (replicate n w) ts.
Proof. intros Hw ->. induction ts; simpl; constructor; auto. Qed.

Lemma field_pats_wt cf fields ts :
  length cf = length ts →
  (∀ i sf t f, cf !! i = Some sf → ts !! i = Some t →
     List.find (λ f, (ident f =? ft_name sf)%N) fields = Some f → wt_pat (field_pat f) t) →
  Forall2 wt_pat (field_pats cf fields) ts.
Proof.
  intros Hlen Hwt. apply Forall2_same_length_lookup. unfold field_pats. split; [by rewrite length_fmap|].
  intros i p t Hp Ht. apply list_lookup_fmap_Some in Hp as (sf & -> & Hsf).
  destruct (List.find _ fields) as [f|] eqn:Hf; [by eapply Hwt|apply wt_wild0].
Qed.

Lemma ctor_eqb_variant a b : ctor_eqb (variant a) (variant b) = true ↔ a = b.
Proof. simpl. apply bool_decide_eq_true. Qed.

(** What [specialize] makes of the first pattern of a row. *)
Definition specialized (p : Pat) (r r' : list Pat) (x : value) (args : list value) (ts : list ty)
    : Prop :=
  ∃ ps, r' = ps ++ r ∧ Forall2 wt_pat ps ts ∧ forall2b pat_matches ps args = pat_matches p x.

Lemma specialized_wilds w p r n x args ts :
  (∀ t, wt_pat w t) → (∀ y, pat_matches w y = true) → length args = length ts → n = length args →
  pat_matches p x = true → specialized p r (replicate n w ++ r) x args ts.
Proof.
  intros Hw Hm Hlen -> Hp. exists (replicate (length args) w). rewrite Hp, forall2b_true by done.
  split_and!; [done| |done]. by apply wt_wilds.
Qed.

Lemma specialized_const p r x args ts :
  args = [] → ts = [] → pat_matches p x = true → specialized p r r x args ts.
Proof. intros -> -> Hp. exists []. rewrite Hp. by split_and!. Qed.

(** At a scalar type, constructors have no arguments. *)
Lemma built_scalar t c x args ts k :
  built t c x args ts → const_ty k t = true → args = [] ∧ ts = [] ∧ scalar_ty x t = true.
Proof. intros [t' ? ts' Hs| | | | | |]; try done. by destruct t', k. Qed.

Lemma specialize_const p r id o e c ds r' ds' t x args ts :
  (e_v ← lift o; match_ ← const_covers id e_v c; mret (if (match_ : bool) then Some r else None)) ds
    = Ok (Some r', ds') → o = Ok e →
  const_pat_ok e t → built t c x args ts → (const_matches e x = true → pat_matches p x = true) →
  specialized p r r' x args ts.
Proof.
  intros Hs -> He Hb Hp. apply M_bind_Ok in Hs as (e' & ds1 & [[= <-] ->]%lift_Ok & Hs).
  inv_M Hs. destruct a; simplify_eq.
  pose proof (built_scalar _ _ _ _ _ _ Hb (proj1 He)) as (-> & -> & _).
  by eapply specialized_const, Hp, const_covers_matches.
Qed.

Lemma specialize_range p r id o1 o2 lo hi c_lo c_hi ds r' ds' x :
  (v_lo ← lift o1; v_hi ← lift o2;
   match compare_const_vals c_lo v_lo, compare_const_vals c_hi v_hi with
   | Some val1, Some val2 => mret (if (0 <=? val1)%Z && (val2 <=? 0)%Z then Some r else None)
   | _, _ => _ ← span_err id "mismatched types between ranges"; mret None
   end) ds = Ok (Some r', ds') → o1 = Ok lo → o2 = Ok hi → is_nan lo = false →
  range_matches c_lo c_hi x = true → (range_matches lo hi x = true → pat_matches p x = true) →
  specialized p r r' x [] [].
Proof.
  intros Hs -> -> Hnan Hr Hp.
  apply M_bind_Ok in Hs as (e' & ds1 & [[= <-] ->]%lift_Ok & Hs).
  apply M_bind_Ok in Hs as (e' & ds1 & [[= <-] ->]%lift_Ok & Hs).
  destruct (compare_const_vals c_lo lo) as [n1|] eqn:H1; [|by inv_M Hs].
  destruct (compare_const_vals c_hi hi) as [n2|] eqn:H2; [|by inv_M Hs].
  inv_M Hs. destruct (_ && _) eqn:Hn; simplify_eq.
  apply andb_true_iff in Hn as [Hn1%Z.leb_le Hn2%Z.leb_le].
  apply specialized_const, Hp; [done..|].
  apply range_matches_spec in Hr as (c & Hc & Hlo & Hhi). apply range_matches_spec. exists c.
  split_and!.
  - by rewrite <-(value_const_kind _ _ _ x H1).
  - eapply const_le_trans; [|done]. eapply const_ge_le; eauto. apply (const_le_not_nan _ _ Hlo).
  - eapply const_le_trans; [done|]. by exists n2.
Qed.

(** A constant is the range from it to itself. *)
Lemma const_matches_range k x : const_matches k x = true → range_matches k k x = true.
Proof.
  rewrite const_matches_spec, range_matches_spec. intros (c & Hc & Heq).
  exists c. split_and!; [done|by apply const_eq_le|by apply const_eq_le, const_eq_sym].
Qed.

Lemma specialize_vec id before slice after t n r args :
  Forall (λ p, wt_pat p t) before → Forall (λ p, wt_pat p t) after →
  match slice with
  | Some s => is_wild cx s = true ∧ length before + length after ≤ n
  | None => length before + length after = n
  end → length args = n →
  specialized (mkPat id (PatVec before slice after)) r
    (before ++ replicate (n - (length before + length after)) wild ++ after ++ r)
    (VVec args) args (replicate n t).
Proof.
  intros Hb Ha Hs Hlen. assert (length before + length after ≤ n) as Hle by (destruct slice; lia).
  exists (before ++ replicate (n - (length before + length after)) wild ++ after).
  split_and!; [by rewrite <-!app_assoc| |].
  - replace n with (length before + ((n - (length before + length after)) + length after)) at 2 by lia.
    rewrite !replicate_add. repeat apply Forall2_app.
    + by apply Forall2_replicate_r.
    + apply wt_wilds; [apply wt_wild0|by rewrite length_replicate].
    + by apply Forall2_replicate_r.
  - subst n. rewrite <-(take_drop (length before) args) at 2.
    rewrite forall2b_app by (rewrite length_take; lia).
    set (rest := drop (length before) args).
    rewrite <-(take_drop (length args - (length before + length after)) rest).
    rewrite forall2b_app by (rewrite length_replicate, length_take; unfold rest; rewrite length_drop; lia).
    rewrite (forall2b_true _ _ wild) by
      (done || (rewrite length_take; unfold rest; rewrite length_drop; lia)).
    unfold rest. rewrite drop_drop. simpl.
    replace (length before + (length args - (length before + length after)))
      with (length args - length after) by lia.
    destruct slice as [s|]; simpl.
    + destruct Hs as [Hw _]. rewrite (wild_matches s) by done.
      rewrite (proj2 (Nat.leb_le _ _)) by done. by rewrite andb_true_r.
    + rewrite (proj2 (Nat.eqb_eq _ _)) by done. by rewrite andb_true_r.
Qed.

Lemma specialized_args p r x args ts ps :
  Forall2 wt_pat ps ts → pat_matches p x = forall2b pat_matches ps args →
  specialized p r (ps ++ r) x args ts.
Proof. intros Hw Hp. by exists ps. Qed.

(** The patterns given for the arguments, or as many wildcards. *)
Lemma specialized_opt_args p r x args ts (ops : option (list Pat)) :
  (∀ ps, ops = Some ps → Forall2 wt_pat ps ts) → length args = length ts →
  pat_matches p x = match ops with Some ps => forall2b pat_matches ps args | None => true end →
  specialized p r (match ops with Some ps => ps | None => replicate (length args) wild end ++ r)
    x args ts.
Proof.
  intros Hw Hlen Hp. destruct ops as [ps|].
  - apply specialized_args; auto.
  - by apply specialized_wilds; auto using wt_wild0.
Qed.

Lemma built_enum eid substs c x args ts :
  built (ty_enum eid substs) c x args ts →
  ∃ va, va ∈ enum_variants (tcx cx) eid ∧ c = variant (va_id va) ∧ x = VVariant (va_id va) args ∧
    ts = variant_tys eid substs (va_id va).
Proof. intros H. inversion H; subst; try done. by exists va. Qed.

Lemma built_single_inv t c x args ts ts' :
  built t c x args ts → single_tys t = Some ts' → c = single ∧ x = VSingle args ∧ ts' = ts.
Proof. intros H Ht. inversion H; subst; simplify_eq/=; try done; by destruct t. Qed.

Lemma built_fixed t n c x args ts :
  built (ty_vec t (VstoreFixed n)) c x args ts → c = vec n ∧ x = VVec args ∧ ts = replicate n t.
Proof. intros H. by inversion H; subst. Qed.

Ltac start_specialize Hs :=
  unfold specialize in Hs; run_lift Hs; cbn [raw_pat pat_node pat_id tail] in Hs.

Section specialize_wt.
Context (Hwf : tcx_wf) (r : list Pat) (c : ctor) (t : ty) (ds ds' : list diag) (r' : list Pat).
Context (x : value) (args : list value) (ts : list ty).
Context (Hb : built t c x args ts) (Hlen : length args = length ts).

Lemma specialize_ident id bm path :
  specialize cx (mkPat id (PatIdent bm path None) :: r) c (length args) t ds = Ok (Some r', ds') →
  wt_pat (mkPat id (PatIdent bm path None)) t →
  specialized (mkPat id (PatIdent bm path None)) r r' x args ts.
Proof using All.
  intros Hs Hp. start_specialize Hs.
  inversion Hp as [| | |? ? ? ? _ Hbi|? ? ? eid substs va st _ Hd Hva Hnil
    |? ? ? did k ? _ Hd Hk Hok| | | | | | | | | | | |]; subst.
  - assert (Some r' = Some (replicate (length args) wild ++ r)) as [= ->].
    { unfold binds in *. destruct (find_def cx id) as [[]|]; inv_M Hs; done. }
    apply specialized_wilds; auto using wt_wild0.
    simpl. unfold binds in *. by destruct (find_def cx id) as [[]|].
  - rewrite Hd in Hs. inv_M Hs. apply built_enum in Hb as (va' & _ & -> & -> & ->).
    destruct (ctor_eqb _ _) eqn:Hc; simplify_eq. apply ctor_eqb_variant in Hc.
    rewrite <-Hc, wf_variant_tys, Hnil in Hlen by done.
    apply specialized_const; [by apply length_zero_iff_nil| |].
    + apply length_zero_iff_nil. by rewrite <-Hc, wf_variant_tys, Hnil.
    + simpl. rewrite Hd. by apply bool_decide_eq_true.
  - rewrite Hd in Hs. eapply specialize_const; [done..|].
    intros Hx. simpl. rewrite Hd. unfold static_matches. by rewrite Hk.
Qed.

Lemma specialize_enum id path ops :
  specialize cx (mkPat id (PatEnum path ops) :: r) c (length args) t ds = Ok (Some r', ds') →
  wt_pat (mkPat id (PatEnum path ops)) t →
  specialized (mkPat id (PatEnum path ops)) r r' x args ts.
Proof using All.
  intros Hs Hp. start_specialize Hs.
  inversion Hp as [| | | | | |? ? ? eid substs va st _ Hd Hva Hps
    |? ? ? did k ? _ Hd Hk Hok|? ? ? d cid substs _ Hd Hd' Hps| | | | | | | | |]; subst;
    rewrite Hd in Hs; run_lift Hs.
  - inv_M Hs. apply built_enum in Hb as (va' & _ & -> & -> & ->).
    destruct (ctor_eqb _ _) eqn:Hc; simplify_eq. apply ctor_eqb_variant in Hc. rewrite Hc in *.
    apply specialized_opt_args; [done..|]. simpl. by rewrite Hd, bool_decide_true.
  - eapply specialize_const; [done..|].
    intros Hx. simpl. rewrite Hd. unfold static_matches. by rewrite Hk.
  - apply (built_single_inv _ _ _ _ _ (struct_tys cid substs)) in Hb as (-> & -> & <-); [|done].
    destruct d; try done; inv_M Hs; simplify_eq; (apply specialized_opt_args; [done..|]);
      simpl; by rewrite Hd.
Qed.

Lemma specialize_struct id path fields etc :
  specialize cx (mkPat id (PatStruct path fields etc) :: r) c (length args) t ds
    = Ok (Some r', ds') → wt_pat (mkPat id (PatStruct path fields etc)) t →
  specialized (mkPat id (PatStruct path fields etc)) r r' x args ts.
Proof using All.
  intros Hs Hp. start_specialize Hs.
  inversion Hp as [| | | | | | | | |? ? ? ? eid substs va st _ Hd Hva Hcf Hfs
    |? ? ? ? d cid substs Hid Hd Hd' Hfs| | | | | | |]; subst; rewrite Hd in Hs; run_lift Hs.
  - apply built_enum in Hb as (va' & _ & -> & -> & ->).
    destruct (ctor_eqb _ _) eqn:Hc; inv_M Hs; simplify_eq. apply ctor_eqb_variant in Hc.
    rewrite Hc in *. apply specialized_args; [by apply field_pats_wt|]. simpl.
    by rewrite Hd, bool_decide_true, field_pats_match.
  - apply (built_single_inv _ _ _ _ _ (struct_tys cid substs)) in Hb as (-> & -> & <-); [|done].
    assert (node_types (tcx cx) !! id = Some (ty_struct cid substs)) as Hty.
    { unfold id_ok in Hid. simpl in Hid. by destruct (id =? 0)%N; [destruct Hid|]. }
    destruct d; try done; inv_M Hs; simplify_eq; (apply specialized_args;
      [apply field_pats_wt; [symmetry; by apply wf_struct_tys|done]|]);
      simpl; rewrite Hd, Hty, field_pats_match; done.
Qed.

Lemma specialize_ptr id node p t' :
  node = PatUniq p ∨ node = PatRegion p → single_tys t = Some [t'] → wt_pat p t' → r' = p :: r →
  specialized (mkPat id node) r r' x args ts.
Proof using Hb Hlen.
  intros Hnode Ht Hp ->. apply (built_single_inv _ _ _ _ _ [t']) in Hb as (-> & -> & <-); [|done].
  apply (specialized_args _ _ _ _ _ [p]); [by repeat constructor|].
  destruct args as [|y [|]]; try done. destruct Hnode as [-> | ->]; simpl; by rewrite andb_true_r.
Qed.

Lemma specialize_range_pat id lo hi :
  specialize cx (mkPat id (PatRange lo hi) :: r) c (length args) t ds = Ok (Some r', ds') →
  wt_pat (mkPat id (PatRange lo hi)) t →
  specialized (mkPat id (PatRange lo hi)) r r' x args ts.
Proof using All.
  intros Hs Hp. start_specialize Hs.
  inversion Hp as [| | | | | | | | | | | | | | | |? ? ? klo khi ? _ Hrt Hlo Hhi Hoklo Hokhi Hle|]; subst.
  pose proof (built_scalar _ _ _ _ _ _ Hb (proj1 Hoklo)) as (-> & -> & Hsc).
  inversion Hb; subst; try done; try (by destruct Hoklo); try (by destruct Hoklo, t, klo).
  - eapply specialize_range; [done..|by apply Hoklo|by apply const_matches_range|].
    simpl. by rewrite Hlo, Hhi.
  - eapply specialize_range; [done..|by apply Hoklo|done|]. simpl. by rewrite Hlo, Hhi.
Qed.

Lemma specialize_vec_pat id before slice after :
  specialize cx (mkPat id (PatVec before slice after) :: r) c (length args) t ds
    = Ok (Some r', ds') → wt_pat (mkPat id (PatVec before slice after)) t →
  specialized (mkPat id (PatVec before slice after)) r r' x args ts.
Proof using All.
  intros Hs Hp. start_specialize Hs.
  inversion Hp as [| | | | | | | | | | | | | | | | |? ? ? ? t' n _ Hbe Haf Hsl]; subst.
  apply built_fixed in Hb as (-> & -> & ->). rewrite length_replicate in Hlen. inv_M Hs.
  replace r' with (before ++ replicate (n - (length before + length after)) wild ++ after ++ r);
    [by apply specialize_vec|].
  rewrite <-Hlen. destruct (_ && _); simplify_eq; [done|].
  destruct (_ =? _) eqn:Heq; simplify_eq. apply Nat.eqb_eq in Heq.
  by rewrite Heq, Nat.sub_diag.
Qed.
End specialize_wt.

(** [specialize] takes the arguments of the value apart. *)
Lemma specialize_spec p r c t ds r' ds' x args ts :
  tcx_wf → specialize cx (p :: r) c (length args) t ds = Ok (Some r', ds') → wt_pat p t →
  built t c x args ts → length args = length ts → specialized p r r' x args ts.
Proof.
  intros Hwf Hs Hp%raw_pat_wt Hb Hlen. unfold specialized. setoid_rewrite <-raw_pat_matches.
  change (specialized (raw_pat p) r r' x args ts).
  assert (specialize cx (raw_pat p :: r) c (length args) t ds = Ok (Some r', ds')) as Hs'.
  { unfold specialize in Hs. run_lift Hs. apply M_bind_Ok. exists (raw_pat p), ds.
    split; [by apply lift_Ok|]. by rewrite raw_pat_idemp. }
  pose proof (raw_pat_node p) as Hn. destruct (raw_pat p) as [id node].
  destruct node as [| |bm path [s|]|path ops|path fields etc|ps|q|q|e|lo hi|before slice after].
  - start_specialize Hs'. inv_M Hs'. simplify_eq. apply specialized_wilds; auto using wt_wild0.
  - start_specialize Hs'. inv_M Hs'. simplify_eq. apply specialized_wilds; auto.
    intros t'. apply wt_wild_multi. by right.
  - by edestruct Hn.
  - by eapply specialize_ident.
  - by eapply specialize_enum.
  - by eapply specialize_struct.
  - start_specialize Hs'. inv_M Hs'. simplify_eq. inversion Hp; subst.
    apply (built_single_inv _ _ _ _ _ ts0) in Hb as (-> & -> & <-); [|done].
    by apply specialized_args.
  - start_specialize Hs'. inv_M Hs'. simplify_eq. inversion Hp; subst.
    eapply specialize_ptr; eauto.
  - start_specialize Hs'. inv_M Hs'. simplify_eq. inversion Hp; subst.
    eapply specialize_ptr; eauto.
  - start_specialize Hs'. inversion Hp as [| | | | | | | | | | | | | |? ? k ? _ Hlit Hk Hok|? ? _ Hk| |]; subst.
    + eapply specialize_const; [done..|]. intros Hx. simpl. rewrite Hk. by destruct x.
    + rewrite Hk in Hs'. run_lift Hs'. inv_M Hs'. destruct a; simplify_eq.
      inversion Hb; subst; try done; by apply specialized_const.
  - by eapply specialize_range_pat.
  - by eapply specialize_vec_pat.
Qed.

(** ** Constructors of values *)

Lemma built_typed t c x args ts :
  built t c x args ts → has_type x t → Forall2 has_type args ts.
Proof.
  intros Hb Hx. destruct Hb as [t args ts Ht| | |eid substs va args Hva|t n args| |]; try done.
  - inversion Hx; subst; simplify_eq; [|done]. by destruct t.
  - inversion Hx; subst; simplify_eq/=; congruence.
  - inversion Hx as [| | | |? ? ? Hall Hlen|]; subst; [done|]. by apply Forall2_replicate_r.
Qed.

Lemma built_length t c x args ts : built t c x args ts → has_type x t → length args = length ts.
Proof. intros. by eapply Forall2_length, built_typed. Qed.

Lemma built_arity t c x args ts n :
  tcx_wf → built t c x args ts → has_type x t → ctor_arity cx c t = Ok n → n = length args.
Proof.
  intros Hwf Hb Hx Hn. pose proof (built_length _ _ _ _ _ Hb Hx) as Hlen.
  destruct Hb as [t args ts Ht| | |eid substs va args Hva|t k args|t k x Hs|t lo hi x Hs]; simplify_eq/=.
  - rewrite Hlen. by destruct t; simplify_eq/=; rewrite ?wf_struct_tys.
  - done.
  - done.
  - destruct (List.find _ _) as [va'|] eqn:Hf; simplify_eq/=.
    apply List.find_some in Hf as [Hin Heq%bool_decide_eq_true].
    rewrite Hlen, <-Heq, wf_variant_tys; [done..|]. by apply list_elem_of_In.
  - by rewrite Hlen, length_replicate.
  - by destruct t, x; simplify_eq/=.
  - by destruct t, x; simplify_eq/=.
Qed.

Lemma has_type_scalar x t k : has_type x t → const_ty k t = true → scalar_ty x t = true.
Proof. intros Hx Hk. inversion Hx; subst; try done; by destruct t, k. Qed.

Lemma has_type_single x t ts :
  has_type x t → single_tys t = Some ts → ∃ args, x = VSingle args ∧ built t single x args ts.
Proof.
  intros Hx Ht. inversion Hx; subst; simplify_eq/=; try (by destruct t, x).
  - exists args. split; [done|by constructor].
  - by destruct t.
Qed.

Lemma has_type_enum x eid substs :
  has_type x (ty_enum eid substs) →
  ∃ va args, va ∈ enum_variants (tcx cx) eid ∧ x = VVariant (va_id va) args ∧
    built (ty_enum eid substs) (variant (va_id va)) x args (variant_tys eid substs (va_id va)).
Proof.
  intros Hx. inversion Hx; subst; simplify_eq/=; try done.
  exists va, args. split_and!; [done..|]. by constructor.
Qed.

Lemma has_type_fixed x t n :
  has_type x (ty_vec t (VstoreFixed n)) →
  ∃ args, length args = n ∧ built (ty_vec t (VstoreFixed n)) (vec n) x args (replicate n t).
Proof.
  intros Hx. inversion Hx; subst; simplify_eq/=; try done. exists elems. split; [done|constructor].
Qed.

Lemma has_type_nil x : has_type x ty_nil → x = VUnit.
Proof. intros Hx. by inversion Hx. Qed.

Lemma has_type_bool x : has_type x ty_bool → ∃ b, x = VBool b.
Proof. intros Hx. inversion Hx as [|v t Hs| | | |]; subst; try done. destruct x; try done. eauto. Qed.

Lemma built_const k t x :
  has_type x t → const_pat_ok k t → const_matches k x = true → built t (val k) x [] [].
Proof. intros Hx [Hk _] Hm. apply built_val; [by eapply has_type_scalar|done]. Qed.

Lemma static_matches_Ok did k x :
  eval_static cx did = Ok k → static_matches did x = true → const_matches k x = true.
Proof. unfold static_matches. by intros ->. Qed.

(** A value that a pattern with a constructor matches is built by it. *)
Lemma ctor_built p c t x :
  pat_ctor_id cx p = Ok (Some c) → wt_pat p t → has_type x t → pat_matches p x = true →
  ∃ args ts, built t c x args ts.
Proof.
  intros Hc Hp%raw_pat_wt Hx Hm. rewrite <-raw_pat_matches in Hm. unfold pat_ctor_id in Hc.
  pose proof (raw_pat_node p) as Hn.
  wt_cases Hp;
    simpl in Hc, Hm; try discriminate.
  - by edestruct Hn.
  - unfold binds in Hbi. by destruct (find_def cx id) as [[]|].
  - rewrite Hd in Hc, Hm. apply has_type_enum in Hx as (va' & args & _ & -> & Hb).
    apply bool_decide_eq_true in Hm. rewrite Hm in Hc. simplify_eq. eauto.
  - rewrite Hd, Hk in Hc. rewrite Hd in Hm. simplify_eq/=. eauto using built_const, static_matches_Ok.
  - rewrite Hd in Hc, Hm. apply has_type_enum in Hx as (va' & args & _ & -> & Hb).
    apply andb_true_iff in Hm as [Hm%bool_decide_eq_true _]. rewrite Hm in Hc. simplify_eq. eauto.
  - rewrite Hd, Hk in Hc. rewrite Hd in Hm. simplify_eq/=. eauto using built_const, static_matches_Ok.
  - rewrite Hd in Hc. by destruct d.
  - rewrite Hd in Hc, Hm. apply has_type_enum in Hx as (va' & args & _ & -> & Hb).
    apply andb_true_iff in Hm as [Hm%bool_decide_eq_true _]. rewrite Hm in Hc. simplify_eq. eauto.
  - rewrite Hd in Hc. eapply has_type_single in Hx as (args & _ & Hb); [|done].
    destruct d; try done; simplify_eq; eauto.
  - simplify_eq. eapply has_type_single in Hx as (args & _ & Hb); [|done]. eauto.
  - simplify_eq. eapply has_type_single in Hx as (args & _ & Hb); [|done]. eauto.
  - simplify_eq. eapply has_type_single in Hx as (args & _ & Hb); [|done]. eauto.
  - rewrite Hk in Hc, Hm. simplify_eq/=. exists [], []. apply built_const; [done..|].
    pose proof (has_type_scalar _ _ _ Hx (proj1 Hok)) as Hs. by destruct x, t.
  - rewrite Hk in Hc. simplify_eq/=. apply has_type_nil in Hx as ->. exists [], []. constructor.
  - rewrite Hlo, Hhi in Hc, Hm. simplify_eq/=. exists [], []. constructor; [|done].
    by eapply has_type_scalar, Hoklo.
  - destruct slice; simplify_eq. apply has_type_fixed in Hx as (args & Hlen & Hb). eauto.
Qed.

(** ** Soundness *)

Definition sound (rec : matrix → list Pat → MD usefulness) : Prop :=
  ∀ m v ts vs ds ds', rec m v ds = Ok (not_useful, ds') → wt_row v ts → Forall (λ r, wt_row r ts) m →
  Forall2 has_type vs ts → row_matches v vs = true → ∃ r, r ∈ m ∧ row_matches r vs = true.

Lemma specialized_row p r r' x xs args ts t tys :
  specialized p r r' x args ts → length args = length ts → wt_row (p :: r) (t :: tys) →
  wt_row r' (ts ++ tys) ∧ row_matches r' (args ++ xs) = row_matches (p :: r) (x :: xs).
Proof.
  intros (ps & -> & Hps & Hm) Hlen Hr. inversion Hr; subst. split; [by apply Forall2_app|].
  unfold row_matches. rewrite forall2b_app by (rewrite Hlen; by eapply Forall2_length).
  by rewrite Hm.
Qed.

Lemma is_useful_specialized_sound rec m v c n lty ds ds' t x args ts xs tys :
  sound rec → is_useful_specialized cx rec m v c n lty ds = Ok (not_useful, ds') →
  (∀ p r r' ds ds', p :: r ∈ v :: m → specialize cx (p :: r) c n lty ds = Ok (Some r', ds') →
     specialized p r r' x args ts) →
  Forall2 has_type args ts → wt_row v (t :: tys) → Forall (λ r, wt_row r (t :: tys)) m →
  Forall2 has_type xs tys → row_matches v (x :: xs) = true →
  ∃ r, r ∈ m ∧ row_matches r (x :: xs) = true.
Proof.
  intros Hrec Hu Hspec Hargs Hv Hm Hxs Hvm. pose proof (Forall2_length _ _ _ Hargs) as Hlen.
  unfold is_useful_specialized in Hu.
  apply M_bind_Ok in Hu as (ms & ds1 & Hms & Hu). apply M_bind_Ok in Hu as (o & ds2 & Ho & Hu).
  apply M_bind_Ok in Hu as (v' & ds3 & [Hv' ->]%lift_Ok & Hu). destruct o; simplify_eq/=.
  apply M_bind_Ok in Hu as (u & ds4 & Hu & Hr). apply mret_Ok in Hr as [Hr _]. destruct u; try done.
  destruct v as [|p v]; [inversion Hv|].
  destruct (specialized_row p v v' x xs args ts t tys) as [Hv1 Hv2]; [by eapply Hspec; [left|]|done..|].
  rewrite <-Hv2 in Hvm.
  assert (∀ r', r' ∈ ms → ∃ r, r ∈ m ∧ wt_row r' (ts ++ tys) ∧
    row_matches r' (args ++ xs) = row_matches r (x :: xs)) as Hback.
  { intros r' Hr'. destruct (filter_mapM_elem _ _ _ _ _ _ Hms Hr') as (r & s1 & s2 & Hin & Hs).
    rewrite Forall_forall in Hm. pose proof (Hm _ Hin) as Hwr. destruct r as [|q r]; [inversion Hwr|].
    exists (q :: r). split; [done|]. eapply specialized_row; [|done..].
    by eapply Hspec; [right|]. }
  destruct (Hrec ms v' (ts ++ tys) (args ++ xs) _ _ Hu) as (r' & Hr' & Hm'); [done| |by apply Forall2_app|done|].
  - apply Forall_forall. intros r' Hr'. by destruct (Hback r' Hr') as (? & ? & ? & ?).
  - destruct (Hback r' Hr') as (r & Hin & _ & Heq). exists r. by rewrite <-Heq.
Qed.

Lemma any_useful_none rec m v lty cs ds ds' c n :
  any_useful cx rec m v lty cs ds = Ok (not_useful, ds') → (c, n) ∈ cs →
  ∃ ds1 ds2, is_useful_specialized cx rec m v c n lty ds1 = Ok (not_useful, ds2).
Proof.
  revert ds. induction cs as [|[c' n'] cs IH]; intros ds Hu Hin; [by apply elem_of_nil in Hin|].
  cbn [any_useful] in Hu. apply M_bind_Ok in Hu as (u & ds1 & Hu1 & Hu).
  destruct u; [by apply mret_Ok in Hu as [? _]..|].
  apply elem_of_cons in Hin as [[= -> ->]|Hin]; eauto.
Qed.

Lemma default_rows_elem m rows r' :
  default_rows cx m = Ok rows → r' ∈ rows → ∃ p, p :: r' ∈ m ∧ is_wild cx p = true.
Proof.
  revert rows. induction m as [|r m IH]; intros rows Hr Hin; cbn [default_rows] in Hr; inv_ok Hr.
  - subst rows. by apply elem_of_nil in Hin.
  - unfold default in Hra. inv_ok Hra. destruct r as [|p r]; [done|]. injection Hraa as <-.
    destruct (is_wild cx p) eqn:Hw; subst.
    + apply elem_of_cons in Hin as [->|Hin]; [exists p; set_solver|].
      destruct (IH _ Hra0 Hin) as (q & ? & ?). exists q. set_solver.
    + destruct (IH _ Hra0 Hin) as (q & ? & ?). exists q. set_solver.
Qed.

(** The type of the column: that of a pattern of the source, if there is one. *)
Lemma find_real_pat_spec m t ts o :
  find_real_pat m = Ok o → Forall (λ r, wt_row r (t :: ts)) m →
  match o with
  | Some p => (pat_id p =? 0)%N = false ∧ wt_pat p t
  | None => ∀ p r, p :: r ∈ m → (pat_id p =? 0)%N = true
  end.
Proof.
  induction m as [|r m IH]; cbn [find_real_pat]; intros Ho Hm; inv_ok Ho.
  - subst o. intros p r Hin. by apply elem_of_nil in Hin.
  - apply Forall_cons in Hm as [Hr Hm]. destruct r as [|p r]; [done|]. injection Hoa as <-.
    inversion Hr; subst. destruct (pat_id p =? 0)%N eqn:Hid; simpl in Ho.
    + specialize (IH Ho Hm). destruct o; [done|]. intros q r' [[= -> ->]|Hin]%elem_of_cons; [done|].
      by eapply IH.
    + injection Ho as <-. done.
Qed.

Lemma wt_id_ok p t : wt_pat p t → id_ok p t.
Proof. by destruct 1. Qed.

Lemma left_ty_spec m v t tys o p lty :
  find_real_pat m = Ok o → match o with Some p => Ok p | None => vec_get v 0 end = Ok p →
  (if (pat_id p =? 0)%N then Ok ty_nil else node_id_to_type (tcx cx) (pat_id p)) = Ok lty →
  Forall (λ r, wt_row r (t :: tys)) m → wt_row v (t :: tys) →
  lty = t ∨ lty = ty_nil ∧ ∀ q r, q :: r ∈ v :: m → pat_node q = PatWild ∨ pat_node q = PatWildMulti.
Proof.
  intros Ho Hp Hl Hm Hv. pose proof (find_real_pat_spec _ _ _ _ Ho Hm) as Hreal.
  assert (wt_pat p t) as Hwp.
  { destruct o; simplify_eq/=; [apply Hreal|]. destruct v as [|v0 v]; [done|].
    injection Hp as <-. by inversion Hv. }
  pose proof (wt_id_ok _ _ Hwp) as Hid. unfold id_ok in Hid.
  destruct (pat_id p =? 0)%N eqn:Hz.
  - right. destruct o as [q|]; simplify_eq/=; [destruct Hreal; congruence|]. split; [done|].
    intros q r [Heq|Hin]%elem_of_cons.
    + subst v. by injection Hp as <-.
    + rewrite Forall_forall in Hm. pose proof (Hm _ Hin) as Hr. inversion Hr; subst.
      pose proof (wt_id_ok q t) as Hq. unfold id_ok in Hq. rewrite (Hreal q r Hin) in Hq. auto.
  - left. unfold node_id_to_type in Hl. rewrite Hid in Hl. by simplify_eq.
Qed.

Lemma first_column_elem m ps p : first_column m = Ok ps → p ∈ ps → ∃ r, p :: r ∈ m.
Proof.
  revert ps. induction m as [|r m IH]; intros ps Hps Hin; cbn [first_column] in Hps; inv_ok Hps.
  - subst ps. by apply elem_of_nil in Hin.
  - destruct r as [|q r]; [done|]. injection Hpsa as <-. subst ps.
    apply elem_of_cons in Hin as [->|Hin]; [exists r; set_solver|].
    destruct (IH _ Hpsa0 Hin) as [r' ?]. exists r'. set_solver.
Qed.

(** Vectors without a fixed length have no typed vector patterns here, so some
    length is always missing. *)
Lemma missing_ctor_slice m t tys t' s :
  t = ty_vec t' s → match s with VstoreFixed _ => False | _ => True end →
  Forall (λ r, wt_row r (t :: tys)) m → missing_ctor cx m t ≠ Ok None.
Proof.
  intros -> Hs Hm Hmc. unfold missing_ctor in Hmc.
  assert (∀ ps, first_column m = Ok ps → omap vec_pat_len ps = []) as Hnone.
  { intros ps Hps. assert (∀ p, p ∈ ps → vec_pat_len p = None) as Hall.
    - intros p Hp. destruct (first_column_elem _ _ _ Hps Hp) as [r Hin].
      rewrite Forall_forall in Hm. pose proof (Hm _ Hin) as Hr.
      inversion Hr as [|? ? ? ? Hwp]; subst. by inversion Hwp; subst.
    - clear Hps. induction ps as [|p ps IH]; [done|]. simpl. rewrite Hall by set_solver.
      apply IH. set_solver. }
  destruct s; [done| |]; inv_ok Hmc; by rewrite (Hnone _ Hmca) in Hmc.
Qed.

(** The constructors enumerated when none is missing. *)
Definition enumerated (m : matrix) (t : ty) : outcome (list (ctor * nat)) :=
  match t with
  | ty_bool => Ok [(val (const_bool true), 0); (val (const_bool false), 0)]
  | ty_enum eid _ =>
      Ok ((λ va, (variant (va_id va), length (va_args va))) <$> enum_variants (tcx cx) eid)
  | ty_vec _ (VstoreFixed n) => Ok [(vec n, n)]
  | ty_vec _ _ => ps ← first_column m; Ok ((λ n, (vec n, n)) <$> seq 0 (max_vec_len ps + 1))
  | _ => n ← ctor_arity cx single t; Ok [(single, n)]
  end.

Lemma enumerated_single m t ts x cs :
  tcx_wf → single_tys t = Some ts → has_type x t → enumerated m t = Ok cs →
  ∃ c args ts, (c, length args) ∈ cs ∧ built t c x args ts.
Proof.
  intros Hwf Ht Hx Hcs. pose proof (has_type_single _ _ _ Hx Ht) as (args & -> & Hb).
  exists single, args, ts. split; [|done].
  assert ((n ← ctor_arity cx single t; Ok [(single, n)]) = Ok cs) as Hn.
  { rewrite <-Hcs. by destruct t. }
  inv_ok Hn. rewrite (built_arity _ _ _ _ _ _ Hwf Hb Hx Hna) in Hn. set_solver.
Qed.

Lemma enumerated_built m t tys x cs :
  tcx_wf → missing_ctor cx m t = Ok None → Forall (λ r, wt_row r (t :: tys)) m → has_type x t →
  enumerated m t = Ok cs → ∃ c args ts, (c, length args) ∈ cs ∧ built t c x args ts.
Proof.
  intros Hwf Hmc Hm Hx Hcs. destruct (single_tys t) as [ts|] eqn:Ht; [by eapply enumerated_single|].
  destruct t as [| | | | | | |eid substs| | | |t' s| | | | | | | | | | |]; try done.
  - apply has_type_nil in Hx as ->. injection Hcs as <-. exists single, [], [].
    split; [set_solver|constructor].
  - apply has_type_bool in Hx as [b ->]. injection Hcs as <-. exists (val (const_bool b)), [], [].
    split; [destruct b; set_solver|]. constructor; [done|]. by destruct b.
  - injection Hcs as <-. pose proof (has_type_enum _ _ _ Hx) as (va & args & Hva & -> & Hb).
    do 3 eexists. split; [|done]. apply list_elem_of_fmap. exists va. split; [|done].
    by rewrite (built_length _ _ _ _ _ Hb Hx), wf_variant_tys.
  - destruct s as [n| |]; [|by eapply missing_ctor_slice in Hmc..].
    injection Hcs as <-. apply has_type_fixed in Hx as (args & Hlen & Hb).
    exists (vec n), args, (replicate n t'). rewrite Hlen. split; [set_solver|done].
Qed.

(** The constructors [is_useful] tries when none is missing. *)
Definition try_all (rec : matrix → list Pat → MD usefulness) (m : matrix) (v : list Pat) (lty : ty)
    : MD usefulness :=
  match lty with
  | ty_bool =>
      any_useful cx rec m v lty [(val (const_bool true), 0); (val (const_bool false), 0)]
  | ty_enum eid _ =>
      any_useful cx rec m v lty
        ((λ va, (variant (va_id va), length (va_args va))) <$> enum_variants (tcx cx) eid)
  | ty_vec _ (VstoreFixed n) => is_useful_specialized cx rec m v (vec n) n lty
  | ty_vec _ _ =>
      ps ← lift (first_column m);
      any_useful cx rec m v lty ((λ n, (vec n, n)) <$> seq 0 (max_vec_len ps + 1))
  | _ =>
      arity ← lift (ctor_arity cx single lty);
      is_useful_specialized cx rec m v single arity lty
  end.

Lemma try_all_none rec m v lty ds ds' :
  try_all rec m v lty ds = Ok (not_useful, ds') →
  ∃ cs, enumerated m lty = Ok cs ∧ ∀ c n, (c, n) ∈ cs →
    ∃ ds1 ds2, is_useful_specialized cx rec m v c n lty ds1 = Ok (not_useful, ds2).
Proof.
  intros Hu.
  assert ((arity ← lift (ctor_arity cx single lty);
           is_useful_specialized cx rec m v single arity lty) ds = Ok (not_useful, ds') →
    ∃ cs, (n ← ctor_arity cx single lty; Ok [(single, n)]) = Ok cs ∧ ∀ c n, (c, n) ∈ cs →
    ∃ ds1 ds2, is_useful_specialized cx rec m v c n lty ds1 = Ok (not_useful, ds2)) as Hsingle.
  { intros Hs. apply M_bind_Ok in Hs as (n & ds1 & [Hn ->]%lift_Ok & Hs). rewrite Hn.
    eexists. split; [done|]. intros c k Hin. assert ((c, k) = (single, n)) as [= -> ->] by set_solver.
    eauto. }
  destruct lty as [| | | | | | |eid substs| | | |t' s| | | | | | | | | | |];
    try (by apply Hsingle in Hu); clear Hsingle; simpl.
  - eexists. split; [done|]. intros c n Hin. by eapply any_useful_none.
  - eexists. split; [done|]. intros c n Hin. by eapply any_useful_none.
  - destruct s as [k| |]; simpl in Hu.
    + eexists. split; [done|]. intros c n Hin. assert ((c, n) = (vec k, k)) as [= -> ->] by set_solver.
      eauto.
    + apply M_bind_Ok in Hu as (ps & ds1 & [Hps ->]%lift_Ok & Hu). rewrite Hps. simpl.
      eexists. split; [done|]. intros c n Hin. by eapply any_useful_none.
    + apply M_bind_Ok in Hu as (ps & ds1 & [Hps ->]%lift_Ok & Hu). rewrite Hps. simpl.
      eexists. split; [done|]. intros c n Hin. by eapply any_useful_none.
Qed.

(** The column of made-up wildcards. *)
Lemma wild_column_sound rec m v ds ds' t tys x xs :
  sound rec → try_all rec m v ty_nil ds = Ok (not_useful, ds') →
  (∀ q r, q :: r ∈ v :: m → pat_node q = PatWild ∨ pat_node q = PatWildMulti) →
  wt_row v (t :: tys) → Forall (λ r, wt_row r (t :: tys)) m → Forall2 has_type xs tys →
  row_matches v (x :: xs) = true → ∃ r, r ∈ m ∧ row_matches r (x :: xs) = true.
Proof.
  intros Hrec Hu Hw Hv Hm Hxs Hvm. apply try_all_none in Hu as (cs & [= <-] & Hcs).
  destruct (Hcs single 0) as (ds1 & ds2 & Hs); [set_solver|].
  eapply (is_useful_specialized_sound _ _ _ _ _ _ _ _ t x [] []); [done|done| |constructor|done|done|done|done].
  intros p r r' ds3 ds4 Hin Hsp. destruct p as [id node].
  destruct (Hw _ _ Hin) as [Hn|Hn]; simpl in Hn; subst node; start_specialize Hsp; inv_M Hsp;
    simplify_eq; by apply specialized_const.
Qed.

(** The rows that start with a wildcard. *)
Lemma default_rows_sound rec m rows v0 v ds ds' t tys x xs :
  sound rec → default_rows cx m = Ok rows → rec rows v ds = Ok (not_useful, ds') →
  wt_row (v0 :: v) (t :: tys) → Forall (λ r, wt_row r (t :: tys)) m → Forall2 has_type xs tys →
  row_matches (v0 :: v) (x :: xs) = true → ∃ r, r ∈ m ∧ row_matches r (x :: xs) = true.
Proof.
  intros Hrec Hrows Hu Hv Hm Hxs Hvm. inversion Hv; subst. apply andb_true_iff in Hvm as [_ Hvm].
  destruct (Hrec rows v tys xs _ _ Hu) as (r & Hr & Hrm); [done| |done|done|].
  - apply Forall_forall. intros r Hr. destruct (default_rows_elem _ _ _ Hrows Hr) as (p & Hin & _).
    rewrite Forall_forall in Hm. pose proof (Hm _ Hin) as Hw. by inversion Hw.
  - destruct (default_rows_elem _ _ _ Hrows Hr) as (p & Hin & Hw). exists (p :: r). split; [done|].
    apply andb_true_iff. split; [by apply wild_matches|done].
Qed.

Lemma wt_row_elem p r v m t tys :
  wt_row v (t :: tys) → Forall (λ r, wt_row r (t :: tys)) m → p :: r ∈ v :: m → wt_pat p t.
Proof.
  intros Hv Hm [Heq|Hin]%elem_of_cons; [subst v; by inversion Hv|].
  rewrite Forall_forall in Hm. pose proof (Hm _ Hin) as Hr. by inversion Hr.
Qed.

(** Any constructor the value is built by will do. *)
Lemma built_sound rec m v c t x xs args ts tys ds ds' :
  tcx_wf → sound rec → built t c x args ts → has_type x t →
  is_useful_specialized cx rec m v c (length args) t ds = Ok (not_useful, ds') →
  wt_row v (t :: tys) → Forall (λ r, wt_row r (t :: tys)) m → Forall2 has_type xs tys →
  row_matches v (x :: xs) = true → ∃ r, r ∈ m ∧ row_matches r (x :: xs) = true.
Proof.
  intros Hwf Hrec Hb Hx Hu Hv Hm Hxs Hvm.
  eapply (is_useful_specialized_sound _ _ _ _ _ _ _ _ t x args ts);
    [done|done| |by eapply built_typed|done|done|done|done].
  intros p r r' ds3 ds4 Hin Hsp. eapply specialize_spec; [done|done| |done|by eapply built_length].
  by eapply wt_row_elem.
Qed.

Lemma is_useful_step_sound fuel :
  tcx_wf → sound (is_useful cx fuel) → sound (is_useful cx (S fuel)).
Proof.
  intros Hwf IH m v ts vs ds ds' Hu Hv Hm Hvs Hvm. cbn [is_useful] in Hu.
  destruct m as [|[|q qr] m]; [by inv_M Hu| |].
  { apply Forall_cons in Hm as [Hr _]. inversion Hr; subst. inversion Hvs; subst.
    exists []. split; [set_solver|done]. }
  destruct ts as [|t tys]; [apply Forall_cons in Hm as [Hr _]; by inversion Hr|].
  inversion Hv as [|v0 ? vr ? Hv0 Hvr]; subst. inversion Hvs as [|x ? xs ? Hx Hxs]; subst.
  apply M_bind_Ok in Hu as (o & ? & [Ho ->]%lift_Ok & Hu).
  apply M_bind_Ok in Hu as (p & ? & [Hp ->]%lift_Ok & Hu).
  apply M_bind_Ok in Hu as (lty & ? & [Hl ->]%lift_Ok & Hu).
  pose proof (left_ty_spec _ _ _ _ _ _ _ Ho Hp Hl Hm Hv) as Hlty. clear Ho Hp Hl o p.
  run_lift Hu. apply M_bind_Ok in Hu as (c0 & ? & [Hc0 ->]%lift_Ok & Hu).
  destruct Hlty as [->|[-> Hw]].
  - destruct c0 as [c|].
    { apply M_bind_Ok in Hu as (n & ? & [Hn ->]%lift_Ok & Hu).
      pose proof (proj1 (proj1 (andb_true_iff _ _) Hvm)) as Hm0.
      destruct (ctor_built _ _ _ _ Hc0 Hv0 Hx Hm0) as (args & ts & Hb).
      rewrite (built_arity _ _ _ _ _ _ Hwf Hb Hx Hn) in Hu. by eapply built_sound. }
    apply M_bind_Ok in Hu as (mc & ? & [Hmc ->]%lift_Ok & Hu). destruct mc as [c|].
    + apply M_bind_Ok in Hu as (rows & ? & [Hrows ->]%lift_Ok & Hu).
      apply M_bind_Ok in Hu as (u & ds1 & Hu & Hr). apply mret_Ok in Hr as [Hr _].
      destruct u; try done. by eapply default_rows_sound.
    + change (try_all (is_useful cx fuel) ((q :: qr) :: m) (v0 :: vr) t ds = Ok (not_useful, ds')) in Hu.
      apply try_all_none in Hu as (cs & Hcs & Hall).
      destruct (enumerated_built _ _ _ _ _ Hwf Hmc Hm Hx Hcs) as (c & args & ts & Hin & Hb).
      destruct (Hall _ _ Hin) as (ds1 & ds2 & Hs). by eapply built_sound.
  - assert (c0 = None) as ->.
    { destruct v0 as [id node]. destruct (Hw (mkPat id node) vr) as [Hn|Hn]; [set_solver| |];
        simpl in Hn; subst node; by injection Hc0 as <-. }
    run_lift Hu. by eapply wild_column_sound.
Qed.

Lemma is_useful_all_sound fuel : tcx_wf → sound (is_useful cx fuel).
Proof. intros Hwf. induction fuel as [|fuel IH]; [done|by apply is_useful_step_sound]. Qed.

Lemma typed_supported_matrix m ts :
  Forall (λ r, typed_row r ts) m → forallb (forallb supported) m = true → Forall (λ r, wt_row r ts) m.
Proof.
  intros Ht. induction Ht as [|r m Hr _ IH]; intros Hs; [constructor|]. apply andb_true_iff in Hs as [Hsr Hs].
  constructor; [by apply typed_supported_row|by apply IH].
Qed.

(** C2. Soundness of the usefulness check behind both match diagnostics, for
    supported patterns: when [is_useful] says that a row of patterns is not
    useful, every vector of values of the types of the columns that the row
    matches is matched by a row of the matrix.  Supported are patterns whose
    vector patterns are at types of fixed length and have a wildcard or a name
    as their rest, whose constants evaluate to the kind of constants of their
    type, and whose ranges are not empty.  For slice patterns, at vector types
    of any length, the claim does not hold. *)
Theorem is_useful_sound fuel m v ts vs ds ds' :
  tcx_wf → is_useful cx fuel m v ds = Ok (not_useful, ds') →
  typed_row v ts → Forall (λ r, typed_row r ts) m →
  forallb supported v = true → forallb (forallb supported) m = true →
  Forall2 has_type vs ts → row_matches v vs = true →
  ∃ r, r ∈ m ∧ row_matches r vs = true.
Proof.
  intros Hwf Hu Hv Hm Hsv Hsm. eapply is_useful_all_sound; [done|done|by apply typed_supported_row|by apply typed_supported_matrix].
Qed.
End matches.
