(* ===== verification/MatchTotal.v ===== *)
(** The usefulness check returns: on typed patterns the recursion of [is_useful]
    ends and none of its partial operations fails.  The measure is the number of
    patterns in the matrix and the row that are not wildcards, then the length
    of the row. *)

From stdpp Require Import prelude gmap strings list.
From S2P Require Import Prelude Ast RegionMaps Ty ConstEval PatUtil CheckMatch MatchSound.

(** ** The measure *)

(** The number of patterns that are not wildcards. *)
Fixpoint weight (p : Pat) : nat :=
  match pat_node p with
  | PatWild | PatWildMulti => 0
  | PatIdent _ _ None | PatEnum _ None | PatLit _ | PatRange _ _ => 1
  | PatIdent _ _ (Some s) => S (weight s)
  | PatEnum _ (Some args) => S (sum_list (map weight args))
  | PatStruct _ fields _ => S (sum_list (map (λ f, weight (field_pat f)) fields))
  | PatTup elts => S (sum_list (map weight elts))
  | PatUniq s | PatRegion s => S (weight s)
  | PatVec before _ after => S (sum_list (map weight before) + sum_list (map weight after))
  end.

Definition row_weight (r : list Pat) : nat := sum_list (map weight r).
Definition matrix_weight (m : matrix) : nat := sum_list (map row_weight m).

Lemma row_weight_app r1 r2 : row_weight (r1 ++ r2) = row_weight r1 + row_weight r2.
Proof. unfold row_weight. induction r1; simpl in *; lia. Qed.

Lemma row_weight_wilds n w : weight w = 0 → row_weight (replicate n w) = 0.
Proof. unfold row_weight. induction n; simpl; lia. Qed.

Lemma raw_pat_weight p : weight (raw_pat p) ≤ weight p.
Proof.
  revert p. fix IH 1. intros [id node]. destruct node as [| |bm path [s|]|?|?|?|?|?|?|?|?];
    try reflexivity.
  apply (Nat.le_trans _ (weight s)); [exact (IH s)|simpl; lia].
Qed.

(** A raw pattern without weight is a wildcard, unless it had weight before. *)
Lemma weight_0 p : weight p = 0 → pat_node p = PatWild ∨ pat_node p = PatWildMulti.
Proof. destruct p as [id [| |? ? []|? []| | | | | | |]]; simpl; auto; lia. Qed.

Lemma sum_if_name (cf : list field_ty) n w (g : field_ty → nat) :
  NoDup (ft_name <$> cf) →
  sum_list (map (λ sf, if (n =? ft_name sf)%N then w else g sf) cf) ≤ w + sum_list (map g cf).
Proof.
  induction cf as [|sf cf IH]; simpl; intros Hnd; [lia|]. apply NoDup_cons in Hnd as [Hni Hnd].
  specialize (IH Hnd). destruct (n =? ft_name sf)%N eqn:Hn; [|lia].
  assert (sum_list (map (λ sf, if (n =? ft_name sf)%N then w else g sf) cf) = sum_list (map g cf)) as ->;
    [|lia].
  f_equal. apply map_ext_in. intros sf' Hin%list_elem_of_In.
  destruct (n =? ft_name sf')%N eqn:Hn'; [|done].
  apply N.eqb_eq in Hn, Hn'. destruct Hni. apply list_elem_of_fmap. exists sf'. split; [congruence|done].
Qed.

Lemma field_pats_weight cf fields :
  NoDup (ft_name <$> cf) →
  row_weight (field_pats cf fields) ≤ sum_list (map (λ f, weight (field_pat f)) fields).
Proof.
  intros Hnd. unfold row_weight, field_pats.
  change (fmap ?g cf) with (map g cf). rewrite map_map.
  induction fields as [|f fields IH]; simpl.
  - clear Hnd. induction cf; simpl; auto.
  - etrans; [|apply Nat.add_le_mono_l, IH]. etrans; [|by apply (sum_if_name cf (ident f))].
    apply Nat.eq_le_incl. f_equal. apply map_ext. intros sf.
    by destruct (ident f =? ft_name sf)%N.
Qed.

(** ** Specialization makes rows lighter *)

Section total.
Context (cx : MatchCheckCtxt).
Context (variant_tys : DefId → list ty → DefId → list ty) (struct_tys : DefId → list ty → list ty).
Context (Hwf : tcx_wf cx variant_tys struct_tys).
Abbreviation wt_pat := (wt_pat cx variant_tys struct_tys).
Abbreviation wt_row := (wt_row cx variant_tys struct_tys).
Abbreviation built := (built cx variant_tys struct_tys).
Abbreviation specialized := (specialized cx variant_tys struct_tys).

Definition lighter (p : Pat) (r r' : list Pat) : Prop :=
  row_weight r' ≤ weight p + row_weight r ∧ (0 < weight p → row_weight r' < weight p + row_weight r).

Ltac solve_lighter :=
  simplify_eq; rewrite ?row_weight_app, ?row_weight_wilds by done;
  unfold row_weight in *; simpl; lia.

Lemma specialize_raw_lighter id node r c n t ds r' ds' :
  (∀ bm path s, node ≠ PatIdent bm path (Some s)) →
  specialize cx (mkPat id node :: r) c n t ds = Ok (Some r', ds') →
  row_weight r' < weight (mkPat id node) + row_weight r ∨
  weight (mkPat id node) = 0 ∧ row_weight r' = row_weight r.
Proof using Hwf.
  intros Hn Hs. unfold specialize in Hs. run_lift Hs. cbn [tail] in Hs.
  destruct node as [| |bm path [s|]|path ops|path fields etc|ps|q|q|e|lo hi|before slice after];
    cbn [raw_pat pat_id pat_node] in Hs; [right|right|by edestruct Hn|left..].
  - inv_M Hs. solve_lighter.
  - inv_M Hs. solve_lighter.
  - destruct (find_def cx id) as [[]|]; inv_M Hs; repeat case_match; solve_lighter.
  - inv_M Hs. destruct a; inv_M Hs; destruct ops; repeat case_match; solve_lighter.
  - assert (∀ did, row_weight (field_pats (lookup_struct_fields (tcx cx) did) fields) ≤
      sum_list (map (λ f, weight (field_pat f)) fields)) as Hf.
    { intros did. eapply field_pats_weight, wf_field_names, Hwf. }
    inv_M Hs. destruct a; repeat case_match; inv_M Hs; simplify_eq; rewrite row_weight_app; simpl;
      match goal with |- context [lookup_struct_fields _ ?d] => specialize (Hf d) end; lia.
  - inv_M Hs. solve_lighter.
  - inv_M Hs. solve_lighter.
  - inv_M Hs. solve_lighter.
  - inv_M Hs. case_match; solve_lighter.
  - destruct c; inv_M Hs; repeat case_match; inv_M Hs; solve_lighter.
  - destruct c; inv_M Hs; repeat case_match; solve_lighter.
Qed.

Lemma specialize_lighter p r c n t ds r' ds' :
  specialize cx (p :: r) c n t ds = Ok (Some r', ds') → lighter p r r'.
Proof using Hwf.
  intros Hs. unfold specialize in Hs. run_lift Hs. cbn [tail] in Hs.
  assert (specialize cx (raw_pat p :: r) c n t ds = Ok (Some r', ds')) as Hs'.
  { apply M_bind_Ok. exists (raw_pat p), ds. split; [by apply lift_Ok|]. by rewrite raw_pat_idemp. }
  pose proof (raw_pat_weight p) as Hw. pose proof (raw_pat_node p) as Hn.
  destruct (raw_pat p) as [id node]. simpl in Hn. clear Hs. unfold lighter.
  destruct (specialize_raw_lighter _ _ _ _ _ _ _ _ _ Hn Hs') as [|[Hz ?]]; lia.
Qed.

(** ** Specialization returns *)

Lemma const_compare_refl k t : const_pat_ok k t → compare_const_vals k k = Some 0%Z.
Proof. intros [Hk Hn]. apply const_eq_refl; [done|]. by destruct k, t. Qed.

Lemma specialize_of_raw p r c n t ds :
  specialize cx (raw_pat p :: r) c n t ds = specialize cx (p :: r) c n t ds.
Proof. unfold specialize, mbind, M_bind, lift. simpl. by rewrite raw_pat_idemp. Qed.

Lemma const_covers_total id e c ds t x args ts :
  const_ty e t = true ∨ t = ty_nil → built t c x args ts → ∃ b ds', const_covers id e c ds = Ok (b, ds').
Proof.
  intros He Hb. destruct Hb; simpl in He; try (by destruct He); simpl;
    repeat case_match; eexists _, _; reflexivity.
Qed.

Lemma const_covers_own id e ds t : const_pat_ok e t → const_covers id e (val e) ds = Ok (true, ds).
Proof. intros He. simpl. by rewrite (const_compare_refl e t). Qed.

(** A pattern and a constructor it can be specialized by. *)
Ltac run_total := eexists _, _; reflexivity.

Lemma covers_total {A} (o : outcome const_val) e id c ds t x args ts (r1 r2 : A) :
  o = Ok e → const_ty e t = true ∨ t = ty_nil → built t c x args ts →
  ∃ r ds', (e_v ← lift o; match_ ← const_covers id e_v c; mret (if (match_ : bool) then r1 else r2)) ds
    = Ok (r, ds').
Proof.
  intros -> He Hb. destruct (const_covers_total id e c ds t x args ts He Hb) as (b & ds' & Hc).
  rewrite lift_bind, (M_bind_step _ _ _ _ _ Hc). by eexists _, _.
Qed.

Lemma specialize_total p r c n t ds x args ts :
  wt_pat p t → built t c x args ts → ∃ o ds', specialize cx (p :: r) c n t ds = Ok (o, ds').
Proof.
  intros Hp%raw_pat_wt Hb. rewrite <-specialize_of_raw.
  pose proof (raw_pat_idemp p) as Hid. pose proof (raw_pat_node p) as Hn.
  unfold specialize. change (vec_get (raw_pat p :: r) 0) with (Ok (raw_pat p)).
  rewrite lift_bind, Hid. clear Hid. cbn [tail].
  wt_cases Hp;
    cbn [pat_node pat_id] in *; try run_total.
  - by edestruct Hn.
  - unfold binds in Hbi. destruct (find_def cx id) as [[]|]; try run_total; done.
  - rewrite Hd. run_total.
  - rewrite Hd. eapply covers_total; [done|left; apply Hok|done].
  - rewrite Hd. run_total.
  - rewrite Hd. eapply covers_total; [done|left; apply Hok|done].
  - rewrite Hd. destruct d; try done; run_total.
  - rewrite Hd, lift_bind. destruct (ctor_eqb _ c); run_total.
  - rewrite Hd. destruct d; try done; run_total.
  - eapply covers_total; [done|left; apply Hok|done].
  - eapply covers_total; [done|by right|done].
  - rewrite Hlo, Hhi. destruct Hoklo as [Hoklo _]. destruct Hb; try done; try run_total;
      rewrite !lift_bind; repeat case_match; run_total.
  - destruct c; run_total.
Qed.

(** A pattern can be specialized by its own constructor. *)
Lemma specialize_own p r c n t ds :
  wt_pat p t → pat_ctor_id cx p = Ok (Some c) → ctor_arity cx c t = Ok n →
  ∃ r' ds', specialize cx (p :: r) c n t ds = Ok (Some r', ds').
Proof.
  intros Hp%raw_pat_wt Hc Har. rewrite <-specialize_of_raw. unfold pat_ctor_id in Hc.
  pose proof (raw_pat_idemp p) as Hid. pose proof (raw_pat_node p) as Hn.
  unfold specialize. change (vec_get (raw_pat p :: r) 0) with (Ok (raw_pat p)).
  rewrite lift_bind, Hid. clear Hid. cbn [tail].
  wt_cases Hp;
    cbn [pat_node pat_id] in *; try discriminate; try run_total.
  - by edestruct Hn.
  - unfold binds in Hbi. by destruct (find_def cx id) as [[]|].
  - rewrite Hd in *. injection Hc as <-. rewrite (proj2 (ctor_eqb_variant _ _)) by done. run_total.
  - rewrite Hd, Hk in *. injection Hc as <-. rewrite lift_bind.
    rewrite (M_bind_step _ _ _ _ _ (const_covers_own _ _ _ _ Hok)). run_total.
  - rewrite Hd in *. injection Hc as <-. rewrite lift_bind.
    rewrite (proj2 (ctor_eqb_variant _ _)) by done. run_total.
  - rewrite Hd, Hk in *. injection Hc as <-. rewrite !lift_bind, Hk, lift_bind.
    rewrite (M_bind_step _ _ _ _ _ (const_covers_own _ _ _ _ Hok)). run_total.
  - rewrite Hd in *. by destruct d.
  - rewrite Hd in *. injection Hc as <-. rewrite lift_bind.
    rewrite (proj2 (ctor_eqb_variant _ _)) by done. run_total.
  - rewrite Hd in *. rewrite lift_bind. destruct d; try done; run_total.
  - rewrite Hk in *. injection Hc as <-. rewrite lift_bind.
    rewrite (M_bind_step _ _ _ _ _ (const_covers_own _ _ _ _ Hok)). run_total.
  - rewrite Hk in *. injection Hc as <-. run_total.
  - rewrite Hlo, Hhi in *. injection Hc as <-. rewrite !lift_bind.
    rewrite (const_compare_refl _ _ Hoklo), (const_compare_refl _ _ Hokhi). run_total.
  - destruct slice; [done|]. injection Hc as <-. injection Har as <-.
    rewrite Nat.eqb_refl, andb_false_r. run_total.
Qed.

(** A pattern without a constructor can be specialized by any. *)
Lemma specialize_none p r c t ds x args ts :
  wt_pat p t → pat_ctor_id cx p = Ok None → built t c x args ts → length args = length ts →
  ∃ r' ds', specialize cx (p :: r) c (length args) t ds = Ok (Some r', ds').
Proof.
  intros Hp%raw_pat_wt Hc Hb Hlen. rewrite <-specialize_of_raw. unfold pat_ctor_id in Hc.
  pose proof (raw_pat_idemp p) as Hid. pose proof (raw_pat_node p) as Hn.
  unfold specialize. change (vec_get (raw_pat p :: r) 0) with (Ok (raw_pat p)).
  rewrite lift_bind, Hid. clear Hid. cbn [tail].
  wt_cases Hp;
    cbn [pat_node pat_id] in *; try discriminate; try run_total; rewrite ?Hd, ?Hk, ?Hlo, ?Hhi in Hc;
    try discriminate.
  - by edestruct Hn.
  - unfold binds in Hbi. destruct (find_def cx id) as [[]|]; done || run_total.
  - rewrite Hd, lift_bind. destruct d; done || run_total.
  - by destruct d.
  - destruct slice; [|done]. destruct Hsl as [_ Hle].
    apply built_fixed in Hb as (-> & -> & ->). rewrite length_replicate in Hlen. rewrite Hlen.
    destruct (length before + length after <? k) eqn:Hlt; [run_total|].
    apply Nat.ltb_ge in Hlt. simpl. rewrite (proj2 (Nat.eqb_eq _ _)) by lia. run_total.
Qed.

(** ** Constructors of patterns *)

Lemma pat_ctor_id_total p t : wt_pat p t → ∃ o, pat_ctor_id cx p = Ok o.
Proof.
  intros Hp%raw_pat_wt. unfold pat_ctor_id. pose proof (raw_pat_node p) as Hn.
  wt_cases Hp; cbn [pat_node pat_id] in *; rewrite ?Hd, ?Hk, ?Hlo, ?Hhi; simpl; rewrite ?Hk;
    try (by eexists).
  - by edestruct Hn.
  - unfold binds in *. destruct (find_def cx id) as [[]|]; done || by eexists.
  - destruct d; done || by eexists.
  - destruct d; done || by eexists.
Qed.

(** A value some constructor builds, for every constructor of a pattern. *)
Definition admissible (t : ty) (c : ctor) (n : nat) : Prop :=
  ∃ x args ts, built t c x args ts ∧ length args = length ts ∧ n = length args.

Lemma admissible_opaque t c ts mk :
  (∀ args, built t c (mk args) args ts) → admissible t c (length ts).
Proof.
  intros Hb. exists (mk (replicate (length ts) VOpaque)), (replicate (length ts) VOpaque), ts.
  by rewrite length_replicate.
Qed.

Lemma admissible_single t ts :
  single_tys struct_tys t = Some ts → admissible t single (length ts).
Proof. intros Ht. apply (admissible_opaque _ _ _ VSingle). intros args. by apply built_single. Qed.

Lemma admissible_variant eid substs va :
  va ∈ enum_variants (tcx cx) eid →
  admissible (ty_enum eid substs) (variant (va_id va)) (length (va_args va)).
Proof using Hwf.
  intros Hva. rewrite <-(wf_variant_tys _ _ _ Hwf eid substs) by done.
  apply (admissible_opaque _ _ _ (VVariant (va_id va))). intros args. by apply built_variant.
Qed.

Lemma admissible_vec t n : admissible (ty_vec t (VstoreFixed n)) (vec n) n.
Proof.
  rewrite <-(length_replicate n t) at 3. apply (admissible_opaque _ _ _ VVec).
  intros args. apply built_vec.
Qed.

Definition const_value (k : const_val) : value :=
  match k with
  | const_int i => VInt i
  | const_uint u => VInt u
  | const_float f => VFloat f
  | const_str s => VStr s
  | const_bool b => VBool b
  | const_binary _ => VOpaque
  end.

Lemma const_value_spec k t :
  const_pat_ok k t → scalar_ty (const_value k) t = true ∧ value_const k (const_value k) = Some k.
Proof. intros [Hk _]. by destruct k, t. Qed.

Lemma admissible_val k t : const_pat_ok k t → admissible t (val k) 0.
Proof.
  intros Hk. destruct (const_value_spec k t Hk) as [Hs Hv]. exists (const_value k), [], [].
  split_and!; [|done..]. apply built_val; [done|]. apply const_matches_spec.
  exists k. split; [done|]. by eapply const_compare_refl.
Qed.

Lemma admissible_range lo hi t :
  const_pat_ok lo t → const_le lo hi → admissible t (range lo hi) 0.
Proof.
  intros Hlo Hle. destruct (const_value_spec lo t Hlo) as [Hs Hv]. exists (const_value lo), [], [].
  split_and!; [|done..]. apply built_range; [done|]. apply range_matches_spec.
  exists lo. split_and!; [done| |done]. apply const_eq_le. by eapply const_compare_refl.
Qed.

Lemma ctor_arity_admissible t c n : admissible t c n → ctor_arity cx c t = Ok n.
Proof using Hwf.
  intros (x & args & ts & Hb & Hlen & ->).
  destruct Hb as [t args ts Ht| | |eid substs va args Hva|t k args|t k x Hs|t lo hi x Hs]; try done.
  - rewrite Hlen. by destruct t; simplify_eq/=; rewrite ?(wf_struct_tys _ _ _ Hwf).
  - simpl. destruct (List.find _ _) as [va'|] eqn:Hf.
    + apply List.find_some in Hf as [Hin Heq%bool_decide_eq_true].
      by rewrite Hlen, <-Heq, (wf_variant_tys _ _ _ Hwf) by (by apply list_elem_of_In).
    + apply (List.find_none _ _) with (x := va) in Hf; [|by apply list_elem_of_In].
      by rewrite bool_decide_true in Hf.
  - simpl. by rewrite Hlen, length_replicate.
  - by destruct t, x.
  - by destruct t, x.
Qed.

Lemma ctor_admissible p t c :
  wt_pat p t → pat_ctor_id cx p = Ok (Some c) → ∃ n, admissible t c n.
Proof using Hwf.
  intros Hp%raw_pat_wt Hc. unfold pat_ctor_id in Hc. pose proof (raw_pat_node p) as Hn.
  wt_cases Hp; cbn [pat_node pat_id] in *; rewrite ?Hd, ?Hk, ?Hlo, ?Hhi in Hc; simpl in Hc;
    rewrite ?Hk in Hc; simplify_eq/=; eauto using admissible_single, admissible_variant, admissible_val,
      admissible_range.
  - by edestruct Hn.
  - unfold binds in *. by destruct (find_def cx id) as [[]|].
  - destruct d; done.
  - destruct d; simplify_eq; try done; eexists; by apply admissible_single.
  - exists 0, VUnit, [], []. split_and!; [constructor|done..].
  - destruct slice; simplify_eq. eexists. apply admissible_vec.
Qed.

(** ** The missing constructor *)

Lemma first_column_total m t tys :
  Forall (λ r, wt_row r (t :: tys)) m → ∃ ps, first_column m = Ok ps ∧ Forall (λ p, wt_pat p t) ps.
Proof.
  induction m as [|r m IH]; intros Hm; [by exists []|]. apply Forall_cons in Hm as [Hr Hm].
  destruct (IH Hm) as (ps & Hps & Hwt). inversion Hr as [|p ? r' ? Hp Hr']; subst.
  exists (p :: ps). cbn [first_column]. rewrite Hps. split; [done|by constructor].
Qed.

Lemma all_wild_total m t tys : Forall (λ r, wt_row r (t :: tys)) m → ∃ b, all_wild cx m = Ok b.
Proof.
  induction m as [|r m IH]; intros Hm; [by eexists|]. apply Forall_cons in Hm as [Hr Hm].
  inversion Hr as [|p ? r' ? Hp Hr']; subst. cbn [all_wild]. simpl.
  destruct (is_wild cx p); [by apply IH|by eexists].
Qed.

Lemma enum_ctor p eid substs :
  wt_pat p (ty_enum eid substs) →
  pat_ctor_id cx p = Ok None ∨
  ∃ va, va ∈ enum_variants (tcx cx) eid ∧ pat_ctor_id cx p = Ok (Some (variant (va_id va))).
Proof using Hwf.
  intros Hp. destruct (pat_ctor_id_total _ _ Hp) as [[c|] Hc]; [right|by left].
  destruct (ctor_admissible _ _ _ Hp Hc) as (n & x & args & ts & Hb & _).
  apply built_enum in Hb as (va & Hva & -> & _). eauto.
Qed.

Lemma existsb_variant id ids :
  existsb (ctor_eqb (variant id)) (variant <$> ids) = bool_decide (id ∈ ids).
Proof.
  apply Bool.eq_iff_eq_true. rewrite existsb_exists, bool_decide_eq_true. split.
  - intros (c & Hin%list_elem_of_In & Hc). apply list_elem_of_fmap in Hin as (id' & -> & Hin).
    by apply ctor_eqb_variant in Hc as ->.
  - intros Hin. exists (variant id). split; [|by apply ctor_eqb_variant].
    apply list_elem_of_In, list_elem_of_fmap. eauto.
Qed.

Lemma found_ctors_spec eid substs ps ids :
  Forall (λ p, wt_pat p (ty_enum eid substs)) ps → NoDup ids →
  ids ⊆ (va_id <$> enum_variants (tcx cx) eid) →
  ∃ ids', found_ctors cx ps (variant <$> ids) = Ok (variant <$> ids') ∧ NoDup ids' ∧
    ids' ⊆ (va_id <$> enum_variants (tcx cx) eid).
Proof using Hwf.
  revert ids. induction ps as [|p ps IH]; intros ids Hps Hnd Hsub; [by exists ids|].
  apply Forall_cons in Hps as [Hp Hps]. cbn [found_ctors].
  destruct (enum_ctor _ _ _ Hp) as [->|(va & Hva & ->)]; simpl; [by apply IH|].
  rewrite existsb_variant. case_bool_decide as Hin; [by apply IH|].
  change [variant (va_id va)] with (variant <$> [va_id va]). rewrite <-fmap_app.
  apply IH; [done| |].
  - apply NoDup_app. split_and!; [done|set_solver|apply NoDup_singleton].
  - apply list_subseteq_app_iff_l. split; [done|]. intros id ->%list_elem_of_singleton.
    apply list_elem_of_fmap. eauto.
Qed.

Lemma enum_missing eid substs ps :
  Forall (λ p, wt_pat p (ty_enum eid substs)) ps →
  ∃ found, found_ctors cx ps [] = Ok found ∧
    (length found ≠ length (enum_variants (tcx cx) eid) →
     ∃ v, List.find (λ v, negb (existsb (λ x, ctor_eqb x (variant (va_id v))) found))
            (enum_variants (tcx cx) eid) = Some v).
Proof using Hwf.
  intros Hps. destruct (found_ctors_spec eid substs ps [] Hps) as (ids & Hf & Hnd & Hsub);
    [constructor|set_solver|].
  exists (variant <$> ids). split; [done|]. intros Hlen.
  destruct (List.find _ _) as [v|] eqn:Hfind; [by eexists|]. destruct Hlen.
  rewrite length_fmap, <-(length_fmap va_id (enum_variants (tcx cx) eid)).
  apply Permutation_length, NoDup_Permutation; [done|apply (wf_variant_ids _ _ _ Hwf)|].
  intros id. split; [apply Hsub|]. intros (va & -> & Hva%list_elem_of_In)%list_elem_of_fmap.
  pose proof (List.find_none _ _ Hfind va Hva) as Hn. apply negb_false_iff, existsb_exists in Hn.
  destruct Hn as (c & Hin%list_elem_of_In & Hc).
  apply list_elem_of_fmap in Hin as (id' & -> & Hin). by apply ctor_eqb_variant in Hc as <-.
Qed.

Lemma bool_ctor p :
  wt_pat p ty_bool →
  pat_ctor_id cx p = Ok None ∨ ∃ b, pat_ctor_id cx p = Ok (Some (val (const_bool b))).
Proof.
  intros Hp%raw_pat_wt. unfold pat_ctor_id. pose proof (raw_pat_node p) as Hn.
  remember ty_bool as t0 eqn:Ht.
  wt_cases Hp; try discriminate Ht; subst; cbn [pat_node pat_id] in *; try (by left);
    try (by edestruct Hn); rewrite ?Hd, ?Hk; simpl; rewrite ?Hk.
  - unfold binds in *. destruct (find_def cx id) as [[]|]; done || by left.
  - destruct Hok as [Hok _]. destruct k; try done. eauto.
  - destruct Hok as [Hok _]. destruct k; try done. eauto.
  - destruct Hok as [Hok _]. destruct k; try done. eauto.
Qed.

Lemma found_bools_total ps a b :
  Forall (λ p, wt_pat p ty_bool) ps → ∃ ab, found_bools cx ps a b = Ok ab.
Proof.
  revert a b. induction ps as [|p ps IH]; intros a b Hps; [by eexists|].
  apply Forall_cons in Hps as [Hp Hps]. cbn [found_bools].
  destruct (bool_ctor _ Hp) as [->|[[] ->]]; simpl; by apply IH.
Qed.

Lemma missing_ctor_total m t tys :
  Forall (λ r, wt_row r (t :: tys)) m → ∃ o, missing_ctor cx m t = Ok o.
Proof using Hwf.
  intros Hm. destruct (all_wild_total _ _ _ Hm) as [w Hw].
  destruct (first_column_total _ _ _ Hm) as (ps & Hps & Hwt).
  destruct t; simpl; rewrite ?Hw, ?Hps; simpl; try (by eexists).
  - destruct (found_bools_total ps false false Hwt) as [[a b] ->]. by eexists.
  - destruct (enum_missing _ _ _ Hwt) as (found & -> & Hf). simpl.
    destruct (_ =? _) eqn:Hlen; [by eexists|]. apply Nat.eqb_neq in Hlen.
    destruct (Hf Hlen) as [v ->]. by eexists.
  - destruct v; simpl; repeat case_match; by eexists.
Qed.

(** Every constructor that is enumerated is one of the type. *)
Lemma enumerated_admissible m t tys cs c n :
  missing_ctor cx m t = Ok None → Forall (λ r, wt_row r (t :: tys)) m →
  enumerated cx m t = Ok cs → (c, n) ∈ cs → admissible t c n.
Proof using Hwf.
  intros Hmc Hm Hcs Hin. destruct (single_tys struct_tys t) as [ts|] eqn:Ht.
  - pose proof (admissible_single _ _ Ht) as Ha. pose proof (ctor_arity_admissible _ _ _ Ha) as Har.
    assert ((n ← ctor_arity cx single t; Ok [(single, n)]) = Ok cs) as Hn.
    { rewrite <-Hcs. by destruct t. }
    rewrite Har in Hn. injection Hn as <-. by apply list_elem_of_singleton in Hin as [= -> ->].
  - destruct t as [| | | | | | |eid substs| | | |t' s| | | | | | | | | | |]; try done.
    + injection Hcs as <-. apply list_elem_of_singleton in Hin as [= -> ->].
      exists VUnit, [], []. split_and!; [constructor|done..].
    + injection Hcs as <-. apply elem_of_cons in Hin as [[= -> ->]|Hin]; [by apply admissible_val|].
      apply list_elem_of_singleton in Hin as [= -> ->]. by apply admissible_val.
    + injection Hcs as <-. apply list_elem_of_fmap in Hin as (va & [= -> ->] & Hva).
      by apply admissible_variant.
    + destruct s as [k| |]; [|by eapply missing_ctor_slice in Hmc..].
      injection Hcs as <-. apply list_elem_of_singleton in Hin as [= -> ->]. apply admissible_vec.
Qed.

Lemma enumerated_total m t tys :
  missing_ctor cx m t = Ok None → Forall (λ r, wt_row r (t :: tys)) m →
  ∃ cs, enumerated cx m t = Ok cs.
Proof using Hwf.
  intros Hmc Hm. destruct (first_column_total _ _ _ Hm) as (ps & Hps & _).
  destruct t; simpl; try (by eexists). destruct v; simpl; rewrite ?Hps; by eexists.
Qed.

(** When no constructor is missing, some pattern of the column has one. *)
Definition light (m : matrix) : Prop := ∀ p r, p :: r ∈ m → weight p = 0.

Lemma wild_node p :
  pat_node p = PatWild ∨ pat_node p = PatWildMulti →
  is_wild cx p = true ∧ pat_ctor_id cx p = Ok None ∧ vec_pat_len p = None ∧ raw_pat p = p.
Proof. destruct p as [id node]. simpl. by intros [-> | ->]. Qed.

Lemma wild_columns ps :
  (∀ p, p ∈ ps → pat_node p = PatWild ∨ pat_node p = PatWildMulti) →
  found_ctors cx ps [] = Ok [] ∧ found_bools cx ps false false = Ok (false, false) ∧
  (∀ n, fixed_vec_scan n ps true false = (true, false)) ∧ omap vec_pat_len ps = [].
Proof.
  induction ps as [|p ps IH]; intros Hw; [done|].
  destruct IH as (H1 & H2 & H3 & H4); [set_solver|].
  destruct p as [id node]. destruct (Hw (mkPat id node)) as [Hn|Hn]; [by left|..];
    simpl in Hn; subst node; by repeat split.
Qed.

Lemma missing_ctor_light m t tys :
  light m → missing_ctor cx m t = Ok None → Forall (λ r, wt_row r (t :: tys)) m →
  t = ty_nil ∨ ∃ eid substs, t = ty_enum eid substs ∧ enum_variants (tcx cx) eid = [].
Proof.
  intros Hl Hmc Hm. destruct (first_column_total _ _ _ Hm) as (ps & Hps & _).
  assert (∀ p, p ∈ ps → pat_node p = PatWild ∨ pat_node p = PatWildMulti) as Hw.
  { intros p Hp. destruct (first_column_elem _ _ _ Hps Hp) as [r Hr]. by eapply weight_0, Hl. }
  destruct (wild_columns ps Hw) as (Hc & Hb & Hv & Hs).
  assert (all_wild cx m = Ok true) as Hall.
  { clear -Hl Hm. induction m as [|r m IH]; [done|]. apply Forall_cons in Hm as [Hr Hm].
    inversion Hr as [|p ? r' ? Hp Hr']; subst. cbn [all_wild]. simpl.
    rewrite (proj1 (wild_node p (weight_0 p (Hl p r' (list_elem_of_here _ _))))).
    apply IH; [|done]. intros q r Hin. by apply (Hl q r), list_elem_of_further. }
  destruct t as [| | | | | | |eid substs| | | |t' s| | | | | | | | | | |]; simpl in Hmc;
    rewrite ?Hall, ?Hps in Hmc; simpl in Hmc; try discriminate; [by left|..].
  - rewrite Hb in Hmc. discriminate.
  - rewrite Hc in Hmc. simpl in Hmc. right. exists eid, substs. split; [done|].
    destruct (enum_variants (tcx cx) eid); [done|]. simpl in Hmc. discriminate.
  - destruct s; simpl in Hmc; rewrite ?Hv, ?Hs in Hmc; discriminate.
Qed.

(** ** Convergence *)

(** With enough fuel the computation has one result. *)
Definition converges {A} (f : nat → MD A) (ds : list diag) : Prop :=
  ∃ n a ds', ∀ fuel, n ≤ fuel → f fuel ds = Ok (a, ds').

Lemma converges_bind {A B} (f : nat → MD A) (g : nat → A → MD B) ds :
  converges f ds → (∀ a ds', converges (λ fuel, g fuel a) ds') →
  converges (λ fuel, f fuel ≫= g fuel) ds.
Proof.
  intros (n & a & ds' & Hf) Hg. destruct (Hg a ds') as (n' & b & ds2 & Hg').
  exists (Nat.max n n'), b, ds2. intros fuel Hle. rewrite (M_bind_step _ _ _ _ _ (Hf fuel ltac:(lia))).
  apply Hg'. lia.
Qed.

Lemma converges_const {A} (c : MD A) ds a ds' : c ds = Ok (a, ds') → converges (λ _, c) ds.
Proof. intros Hc. by exists 0, a, ds'. Qed.

Lemma converges_step {A B} (c : MD A) (g : nat → A → MD B) ds a ds' :
  c ds = Ok (a, ds') → converges (λ fuel, g fuel a) ds' → converges (λ fuel, c ≫= g fuel) ds.
Proof.
  intros Hc (n & b & ds2 & Hg). exists n, b, ds2. intros fuel Hle.
  rewrite (M_bind_step _ _ _ _ _ Hc). by apply Hg.
Qed.

Lemma any_useful_converges (rec : nat → matrix → list Pat → MD usefulness) m v lty cs ds :
  (∀ c n ds, (c, n) ∈ cs → converges (λ fuel, is_useful_specialized cx (rec fuel) m v c n lty) ds) →
  converges (λ fuel, any_useful cx (rec fuel) m v lty cs) ds.
Proof.
  revert ds. induction cs as [|[c n] cs IH]; intros ds Hcs; cbn [any_useful].
  - by eapply converges_const.
  - apply (converges_bind (λ fuel, is_useful_specialized cx (rec fuel) m v c n lty)
      (λ fuel u, match u with not_useful => any_useful cx (rec fuel) m v lty cs | u => mret u end)).
    + apply Hcs. left.
    + intros u ds'. destruct u; try (by eapply converges_const).
      apply IH. intros c' n' ds2 Hin. apply Hcs. by right.
Qed.

(** ** The recursive calls *)

Definition heavy (m : matrix) : Prop := ∃ p r, p :: r ∈ m ∧ 0 < weight p.

Lemma heavy_or_light m : heavy m ∨ light m.
Proof.
  induction m as [|r m IH]; [right; intros p r Hin; by apply elem_of_nil in Hin|].
  destruct IH as [(p & r' & Hin & Hp)|Hl]; [left; exists p, r'; split; [by right|done]|].
  destruct r as [|p r]; [right; intros q r' [?|?]%elem_of_cons; [done|by eapply Hl]|].
  destruct (weight p) as [|w] eqn:Hw; [|left; exists p, r; split; [by left|lia]].
  right. intros q r' [[= -> ->]|?]%elem_of_cons; [done|by eapply Hl].
Qed.

Definition nonempty_rows (m : matrix) : Prop := Forall (λ r, r ≠ []) m.

Lemma wt_nonempty m t tys : Forall (λ r, wt_row r (t :: tys)) m → nonempty_rows m.
Proof. intros Hm. eapply Forall_impl; [done|]. intros r Hr ->. by inversion Hr. Qed.

Lemma specialize_rows m c n lty ds :
  nonempty_rows m →
  (∀ p r ds, p :: r ∈ m → ∃ o ds', specialize cx (p :: r) c n lty ds = Ok (o, ds')) →
  ∃ ms ds', filter_mapM (λ r, specialize cx r c n lty) m ds = Ok (ms, ds') ∧
    matrix_weight ms ≤ matrix_weight m ∧ (heavy m → matrix_weight ms < matrix_weight m).
Proof using Hwf.
  revert ds. induction m as [|r m IH]; intros ds Hne Htot; cbn [filter_mapM].
  { exists [], ds. split_and!; [done..|]. intros (p & r & Hin & _). by apply elem_of_nil in Hin. }
  apply Forall_cons in Hne as [Hr Hne]. destruct r as [|p r]; [done|].
  destruct (Htot p r ds) as (o & ds1 & Ho); [left|].
  destruct (IH ds1 Hne) as (ms & ds2 & Hms & Hle & Hlt).
  { intros q r' ds' Hin. apply Htot. by right. }
  rewrite (M_bind_step _ _ _ _ _ Ho), (M_bind_step _ _ _ _ _ Hms).
  eexists _, _. split; [reflexivity|].
  assert (∀ r', o = Some r' → lighter p r r') as Hl.
  { intros r' ->. by eapply specialize_lighter. }
  assert (heavy ((p :: r) :: m) → 0 < weight p ∨ heavy m) as Hh.
  { intros (q & r' & [[= -> ->]|Hin]%elem_of_cons & Hq); [by left|right]. by exists q, r'. }
  unfold matrix_weight, row_weight, lighter in *.
  destruct o as [r'|]; simpl; [destruct (Hl r' eq_refl) as [Hl1 Hl2]|]; unfold row_weight in *.
  - split; [lia|]. intros [?|?]%Hh; [specialize (Hl2 ltac:(done))|specialize (Hlt ltac:(done))]; lia.
  - split; [lia|]. intros [?|?]%Hh; [|specialize (Hlt ltac:(done))]; lia.
Qed.

(** The order of the recursive calls. *)
Definition smaller (m' : matrix) (v' : list Pat) (m : matrix) (v : list Pat) : Prop :=
  matrix_weight m' + row_weight v' < matrix_weight m + row_weight v ∨
  matrix_weight m' + row_weight v' ≤ matrix_weight m + row_weight v ∧ length v' < length v.

Lemma is_useful_specialized_converges (rec : nat → matrix → list Pat → MD usefulness)
    m v0 v c n lty t tys x args ts ds :
  wt_row (v0 :: v) (t :: tys) → Forall (λ r, wt_row r (t :: tys)) m → length args = length ts →
  (∀ p r ds, p :: r ∈ m → ∃ o ds', specialize cx (p :: r) c n lty ds = Ok (o, ds')) →
  (∀ ds, ∃ v' ds', specialize cx (v0 :: v) c n lty ds = Ok (Some v', ds')) →
  (∀ p r r' ds ds', p :: r ∈ (v0 :: v) :: m → specialize cx (p :: r) c n lty ds = Ok (Some r', ds') →
     specialized p r r' x args ts) →
  heavy ((v0 :: v) :: m) ∨ ts = [] →
  (∀ m' v' tys' ds, wt_row v' tys' → Forall (λ r, wt_row r tys') m' → smaller m' v' m (v0 :: v) →
     converges (λ fuel, rec fuel m' v') ds) →
  converges (λ fuel, is_useful_specialized cx (rec fuel) m (v0 :: v) c n lty) ds.
Proof using Hwf.
  intros Hv Hm Hlen Htot Hsome Hspec Hheavy Hrec. unfold is_useful_specialized.
  destruct (specialize_rows m c n lty ds (wt_nonempty _ _ _ Hm) Htot) as (ms & ds1 & Hms & Hle & Hlt).
  destruct (Hsome ds1) as (v' & ds2 & Hv').
  eapply converges_step; [done|]. eapply converges_step; [done|]. eapply converges_step; [done|].
  pose proof (Hspec _ _ _ _ _ (list_elem_of_here _ _) Hv') as Hsv.
  assert (∀ r', r' ∈ ms → wt_row r' (ts ++ tys)) as Hwms.
  { intros r' Hr'. destruct (filter_mapM_elem _ _ _ _ _ _ Hms Hr') as (r & s1 & s2 & Hin & Hs).
    rewrite Forall_forall in Hm. pose proof (Hm _ Hin) as Hwr. destruct r as [|q r]; [inversion Hwr|].
    destruct (specialized_row cx variant_tys struct_tys q r r' x [] args ts t tys) as [? _]; [|done..].
    eapply Hspec; [by right|done]. }
  apply (converges_bind (λ fuel, rec fuel ms v')
    (λ _ u, mret match u with useful_ => useful lty c | u => u end)).
  - apply (Hrec ms v' (ts ++ tys)).
    + by eapply (specialized_row cx variant_tys struct_tys v0 v v' x [] args ts t tys).
    + by apply Forall_forall.
    + destruct (specialize_lighter _ _ _ _ _ _ _ _ Hv') as [Hl1 Hl2]. unfold smaller.
      change (row_weight (v0 :: v)) with (weight v0 + row_weight v).
      destruct Hheavy as [(q & r & [[= -> ->]|Hin]%elem_of_cons & Hq)|Hts].
      * specialize (Hl2 Hq). lia.
      * assert (heavy m) as Hh by (by exists q, r). specialize (Hlt Hh). lia.
      * right. split; [lia|]. destruct Hsv as (ps & -> & Hps & _). subst ts.
        inversion Hps; subst. simpl. lia.
  - intros u ds'. by eapply converges_const.
Qed.

Section step.
Context (rec : nat → matrix → list Pat → MD usefulness) (m : matrix) (v0 : Pat) (v : list Pat).
Context (t : ty) (tys : list ty).
Context (Hv : wt_row (v0 :: v) (t :: tys)) (Hm : Forall (λ r, wt_row r (t :: tys)) m).
Context (Hrec : ∀ m' v' tys' ds, wt_row v' tys' → Forall (λ r, wt_row r tys') m' →
  smaller m' v' m (v0 :: v) → converges (λ fuel, rec fuel m' v') ds).

Lemma admissible_converges c n ds :
  admissible t c n → pat_ctor_id cx v0 = Ok (Some c) ∨ pat_ctor_id cx v0 = Ok None →
  heavy ((v0 :: v) :: m) ∨ n = 0 →
  converges (λ fuel, is_useful_specialized cx (rec fuel) m (v0 :: v) c n t) ds.
Proof using All.
  intros Ha Hc Hheavy. pose proof (ctor_arity_admissible _ _ _ Ha) as Har.
  destruct Ha as (x & args & ts & Hb & Hlen & ->).
  apply (is_useful_specialized_converges rec m v0 v c _ t t tys x args ts ds Hv Hm Hlen); [..|exact Hrec].
  - intros p r ds' Hin. eapply specialize_total; [|done].
    eapply (wt_row_elem cx variant_tys struct_tys); [exact Hv|exact Hm|by right].
  - intros ds'. inversion Hv; subst. destruct Hc as [Hc|Hc].
    + by eapply specialize_own.
    + by eapply specialize_none.
  - intros p r r' ds1 ds2 Hin Hs. eapply specialize_spec; [done|done| |done|done].
    by eapply (wt_row_elem cx variant_tys struct_tys).
  - destruct Hheavy as [|Hz]; [by left|right]. apply length_zero_iff_nil. lia.
Qed.

(** A column of made-up wildcards. *)
Lemma wild_column_converges ds :
  (∀ q r, q :: r ∈ (v0 :: v) :: m → pat_node q = PatWild ∨ pat_node q = PatWildMulti) →
  converges (λ fuel, is_useful_specialized cx (rec fuel) m (v0 :: v) single 0 ty_nil) ds.
Proof using All.
  intros Hw.
  assert (∀ p r ds, p :: r ∈ (v0 :: v) :: m →
    specialize cx (p :: r) single 0 ty_nil ds = Ok (Some r, ds)) as Hs.
  { intros [id node] r ds' Hin. destruct (Hw _ _ Hin) as [Hn|Hn]; simpl in Hn; by subst node. }
  apply (is_useful_specialized_converges rec m v0 v single 0 ty_nil t tys VUnit [] []); auto.
  - intros p r ds' Hin. rewrite Hs by (by right). eauto.
  - intros ds'. rewrite Hs by left. eauto.
  - intros p r r' ds1 ds2 Hin Hsp. rewrite Hs in Hsp by done. simplify_eq.
    apply specialized_const; [done..|]. destruct p as [id node].
    destruct (Hw _ _ Hin) as [Hn|Hn]; simpl in Hn; by subst node.
Qed.

Lemma default_rows_total m0 :
  nonempty_rows m0 → ∃ rows, default_rows cx m0 = Ok rows ∧ matrix_weight rows ≤ matrix_weight m0.
Proof.
  induction m0 as [|r m0 IH]; intros Hne; [by exists []|]. apply Forall_cons in Hne as [Hr Hne].
  destruct r as [|p r]; [done|]. destruct (IH Hne) as (rows & Hrows & Hle). cbn [default_rows].
  unfold default. simpl. rewrite Hrows. eexists. split; [done|].
  unfold matrix_weight, row_weight in *. destruct (is_wild cx p); simpl; lia.
Qed.

Lemma default_converges rows ds :
  default_rows cx m = Ok rows → matrix_weight rows ≤ matrix_weight m →
  converges (λ fuel, rec fuel rows v) ds.
Proof using All.
  intros Hrows Hle. apply (Hrec rows v tys).
  - by inversion Hv.
  - apply Forall_forall. intros r Hr. destruct (default_rows_elem _ _ _ _ Hrows Hr) as (p & Hin & _).
    rewrite Forall_forall in Hm. pose proof (Hm _ Hin) as Hw. by inversion Hw.
  - right. unfold row_weight. simpl. split; lia.
Qed.

Lemma try_all_converges ds :
  missing_ctor cx m t = Ok None → pat_ctor_id cx v0 = Ok None →
  converges (λ fuel, try_all cx (rec fuel) m (v0 :: v) t) ds.
Proof using All.
  intros Hmc Hc. destruct (enumerated_total _ _ _ Hmc Hm) as [cs Hcs].
  assert (∀ c n ds, (c, n) ∈ cs →
    converges (λ fuel, is_useful_specialized cx (rec fuel) m (v0 :: v) c n t) ds) as Hall.
  { intros c n ds' Hin. apply admissible_converges; [by eapply enumerated_admissible|by right|].
    destruct (heavy_or_light m) as [(p & r & ? & ?)|Hl]; [left; exists p, r; split; [by right|done]|].
    right. destruct (missing_ctor_light _ _ _ Hl Hmc Hm) as [->|(eid & substs & -> & He)].
    - injection Hcs as <-. by apply list_elem_of_singleton in Hin as [= _ ->].
    - simpl in Hcs. rewrite He in Hcs. injection Hcs as <-. by apply elem_of_nil in Hin. }
  assert (∀ n, ctor_arity cx single t = Ok n → cs = [(single, n)] →
    converges (λ fuel, arity ← lift (ctor_arity cx single t);
      is_useful_specialized cx (rec fuel) m (v0 :: v) single arity t) ds) as Hone.
  { intros n Hn ->. eapply converges_step; [by apply lift_Ok|]. apply Hall. left. }
  destruct t as [| | | | | | |eid substs| | | |t' s| | | | | | | | | | |];
    try (by injection Hcs as <-; eapply Hone); clear Hone; cbn [try_all].
  - injection Hcs as <-. by apply any_useful_converges.
  - injection Hcs as <-. by apply any_useful_converges.
  - destruct s as [k| |]; [|by eapply missing_ctor_slice in Hmc..].
    injection Hcs as <-. apply Hall. left.
Qed.
End step.

Lemma converges_S {A} (f : nat → MD A) ds : converges (λ fuel, f (S fuel)) ds → converges f ds.
Proof.
  intros (n & a & ds' & Hf). exists (S n), a, ds'. intros [|fuel] Hle; [lia|]. apply Hf. lia.
Qed.

Lemma find_real_pat_total m : nonempty_rows m → ∃ o, find_real_pat m = Ok o.
Proof.
  induction m as [|r m IH]; intros Hne; [by eexists|]. apply Forall_cons in Hne as [Hr Hne].
  destruct r as [|p r]; [done|]. cbn [find_real_pat]. simpl. destruct (pat_id p =? 0)%N; simpl; eauto.
Qed.

(** The type of the column is found. *)
Lemma left_ty_total m v0 v t tys :
  wt_row (v0 :: v) (t :: tys) → Forall (λ r, wt_row r (t :: tys)) m →
  ∃ o p lty, find_real_pat m = Ok o ∧
    match o with Some p => Ok p | None => vec_get (v0 :: v) 0 end = Ok p ∧
    (if (pat_id p =? 0)%N then Ok ty_nil else node_id_to_type (tcx cx) (pat_id p)) = Ok lty.
Proof.
  intros Hv Hm. destruct (find_real_pat_total m (wt_nonempty _ _ _ Hm)) as [o Ho].
  pose proof (find_real_pat_spec _ _ _ _ _ _ _ Ho Hm) as Hreal. exists o.
  assert (∃ p, match o with Some p => Ok p | None => vec_get (v0 :: v) 0 end = Ok p ∧ wt_pat p t)
    as (p & Hp & Hwp).
  { destruct o as [p|]; [exists p; split; [done|apply Hreal]|]. exists v0. split; [done|by inversion Hv]. }
  exists p. pose proof (wt_id_ok _ _ _ _ _ Hwp) as Hid. unfold id_ok in Hid.
  destruct (pat_id p =? 0)%N; [by exists ty_nil|]. exists t. unfold node_id_to_type. by rewrite Hid.
Qed.

Lemma is_useful_step_converges m v ts ds :
  wt_row v ts → Forall (λ r, wt_row r ts) m →
  (∀ m' v' tys' ds, wt_row v' tys' → Forall (λ r, wt_row r tys') m' → smaller m' v' m v →
     converges (λ fuel, is_useful cx fuel m' v') ds) →
  converges (λ fuel, is_useful cx fuel m v) ds.
Proof using Hwf.
  intros Hv Hm Hrec. apply (converges_S (λ fuel, is_useful cx fuel m v)). cbn [is_useful].
  destruct m as [|[|q qr] m]; [by eapply converges_const|by eapply converges_const|].
  destruct ts as [|t tys]; [apply Forall_cons in Hm as [Hr _]; by inversion Hr|].
  inversion Hv as [|v0 ? vr ? Hv0 Hvr]; subst.
  destruct (left_ty_total _ _ _ _ _ Hv Hm) as (o & p & lty & Ho & Hp & Hl).
  pose proof (left_ty_spec _ _ _ _ _ _ _ _ _ _ Ho Hp Hl Hm Hv) as Hlty.
  eapply converges_step; [by apply lift_Ok|]. eapply converges_step; [by apply lift_Ok|].
  eapply converges_step; [by apply lift_Ok|]. eapply converges_step; [by apply lift_Ok|].
  destruct (pat_ctor_id_total _ _ Hv0) as [c0 Hc0].
  eapply converges_step; [by apply lift_Ok|]. destruct Hlty as [->|[-> Hw]].
  - destruct c0 as [c|].
    { destruct (ctor_admissible _ _ _ Hv0 Hc0) as [n Ha].
      eapply converges_step; [apply lift_Ok; split; [by apply ctor_arity_admissible|done]|].
      eapply admissible_converges; [done..|by left|left].
      exists v0, vr. split; [by left|]. destruct (weight v0) eqn:Hw; [|lia].
      apply weight_0, wild_node in Hw as (_ & Hw & _). congruence. }
    destruct (missing_ctor_total _ _ _ Hm) as [mc Hmc].
    eapply converges_step; [by apply lift_Ok|]. destruct mc as [c|].
    + destruct (default_rows_total _ (wt_nonempty _ _ _ Hm)) as (rows & Hrows & Hle).
      eapply converges_step; [by apply lift_Ok|].
      apply (converges_bind (λ fuel, is_useful cx fuel rows vr)
        (λ _ u, mret match u with useful_ => useful t c | u => u end)).
      * by eapply default_converges.
      * intros u ds'. by eapply converges_const.
    + by eapply try_all_converges.
  - assert (c0 = None) as ->.
    { assert (pat_node v0 = PatWild ∨ pat_node v0 = PatWildMulti) as Hn by (by eapply (Hw v0 vr); left).
      apply wild_node in Hn as (_ & Hn & _). congruence. }
    eapply converges_step; [by apply lift_Ok|]. eapply converges_step; [by apply lift_Ok|].
    by eapply wild_column_converges.
Qed.

Lemma is_useful_converges m v ts ds :
  wt_row v ts → Forall (λ r, wt_row r ts) m → converges (λ fuel, is_useful cx fuel m v) ds.
Proof using Hwf.
  remember (matrix_weight m + row_weight v) as W eqn:HW. remember (length v) as L eqn:HL.
  revert L m v ts ds HW HL. induction (lt_wf W) as [W _ IHW]. intros L.
  induction (lt_wf L) as [L _ IHL]. intros m v ts ds -> -> Hv Hm.
  apply (is_useful_step_converges m v ts ds Hv Hm).
  intros m' v' tys' ds' Hv' Hm' Hs.
  destruct (decide (matrix_weight m' + row_weight v' < matrix_weight m + row_weight v)) as [Hlt|Hge].
  - by eapply (IHW _ Hlt).
  - destruct Hs as [Hs|[Hs1 Hs2]]; [lia|]. eapply (IHL _ Hs2); [lia|done..].
Qed.


(** *** Rows that are dropped *)

Lemma const_value_const k x c : value_const k x = Some c → value_const k (const_value k) = Some k.
Proof. by destruct k, x. Qed.
Lemma const_value_scalar k x c t : value_const k x = Some c → scalar_ty x t = true → scalar_ty (const_value k) t = true.
Proof. by destruct k, x, t. Qed.

(** The ends of a range with a value in it are in it. *)
Lemma range_ends t lo hi x :
  scalar_ty x t = true → range_matches lo hi x = true →
  (scalar_ty (const_value lo) t = true ∧ range_matches lo hi (const_value lo) = true ∧ value_const lo (const_value lo) = Some lo) ∧
  (scalar_ty (const_value hi) t = true ∧ range_matches lo hi (const_value hi) = true ∧ value_const hi (const_value hi) = Some hi).
Proof.
  intros Hx (c & Hc & Hlo & Hhi)%range_matches_spec. pose proof (const_le_not_nan _ _ Hlo) as [Hnl Hnc].
  pose proof (const_le_not_nan _ _ Hhi) as [_ Hnh]. pose proof Hc as Hc'.
  rewrite (const_le_kind _ _ x (const_le_trans _ _ _ Hlo Hhi)) in Hc'.
  pose proof (const_value_const _ _ _ Hc) as Hl. pose proof (const_value_const _ _ _ Hc') as Hh. split; split_and!; try assumption.
  - exact (const_value_scalar _ _ _ _ Hc Hx).
  - apply range_matches_spec. exists lo. split_and!; [done| |by eapply const_le_trans].
    apply const_eq_le, const_eq_refl; [done|]. by destruct lo, x.
  - exact (const_value_scalar _ _ _ _ Hc' Hx).
  - apply range_matches_spec. exists hi. split_and!; [|by eapply const_le_trans|].
    + by rewrite (const_le_kind _ _ _ (const_le_trans _ _ _ Hlo Hhi)).
    + apply const_eq_le, const_eq_refl; [done|]. by destruct hi, x.
Qed.

(** Why a row may be dropped: an error was reported, the pattern does not match
    the value, or the constructor is a range that the pattern does not cover. *)
Definition droppable (p : Pat) (c : ctor) (t : ty) (x : value) (ds ds' : list diag) : Prop :=
  ds' ≠ ds ∨ pat_matches cx p x = false ∨
  ∃ lo hi y, c = range lo hi ∧ scalar_ty y t = true ∧ range_matches lo hi y = true ∧ pat_matches cx p y = false.

Lemma snoc_ne {A} (l : list A) x : l ++ [x] ≠ l.
Proof. intros E. apply (f_equal length) in E. rewrite length_app in E. simpl in E. lia. Qed.

Lemma span_err_ne {A} id msg (b r : A) ds ds' : (_ ← span_err id msg; mret b) ds = Ok (r, ds') → ds' ≠ ds.
Proof. intros Hs. apply M_bind_Ok in Hs as ([] & ds1 & Hs & [_ ->]%mret_Ok). injection Hs as <-. apply snoc_ne. Qed.

Lemma const_le_compare a b n : const_le a b → compare_const_vals b a = Some n → (0 ≤ n)%Z.
Proof.
  intros (c & Hc & Hle)%const_le_cmp Hn. apply const_cmp_opp in Hc. apply compare_const_vals_cmp in Hc.
  rewrite Hn in Hc. injection Hc as ->. by destruct c.
Qed.
Lemma const_le_compare' a b n : const_le a b → compare_const_vals a b = Some n → (n ≤ 0)%Z.
Proof. intros (m & Hm & Hle) Hn. rewrite Hn in Hm. by injection Hm as ->. Qed.

(** A constant that a value of the type equals, compared to another constant of
    the same kind. *)
Lemma const_matches_eq a b n x :
  compare_const_vals a b = Some n → const_matches a x = true → const_matches b x = true → n = 0%Z.
Proof.
  intros Hn (c & Hc & Ha)%const_matches_spec (c' & Hc' & Hb)%const_matches_spec.
  rewrite (value_const_kind _ _ _ x Hn) in Hc. rewrite Hc in Hc'. injection Hc' as <-.
  pose proof (const_eq_trans _ _ _ Ha (const_eq_sym _ _ Hb)) as E. unfold const_eq in E. rewrite Hn in E. by injection E as ->.
Qed.

Lemma const_dropped p id e c t x args ts ds ds' :
  const_pat_ok e t → built t c x args ts → const_covers id e c ds = Ok (false, ds') →
  (∀ y, scalar_ty y t = true → pat_matches cx p y = const_matches e y) → droppable p c t x ds ds'.
Proof.
  intros [He _] Hb Hc Hp. destruct Hb as [t ? ts Ht| | | | |t k x Hx Hk|t lo hi x Hx Hr]; simpl in He, Hc; try done.
  - destruct (compare_const_vals e k) as [n|] eqn:Hn; [|left; by eapply span_err_ne]. inv_M Hc. right; left. rewrite Hp by done.
    apply not_true_is_false. intros Hm. pose proof (const_matches_eq _ _ _ _ Hn Hm Hk). lia.
  - destruct (range_ends t lo hi x Hx Hr) as [(Hl1 & Hl2 & Hl3) (Hh1 & Hh2 & Hh3)].
    destruct (compare_const_vals lo e) as [n1|] eqn:H1; [|left; by eapply span_err_ne].
    destruct (compare_const_vals hi e) as [n2|] eqn:H2; [|left; by eapply span_err_ne]. inv_M Hc. right; right.
    assert (∀ y k n, compare_const_vals k e = Some n → value_const k y = Some k → n ≠ 0%Z → const_matches e y = false) as Hno.
    { intros y k n Hn Hk Hnz. apply not_true_is_false. intros (c & Hy & Heq)%const_matches_spec. rewrite <- (value_const_kind _ _ _ y Hn), Hk in Hy.
      injection Hy as <-. apply const_eq_sym in Heq. unfold const_eq in Heq. rewrite Hn in Heq. by injection Heq. }
    assert (n1 < 0 ∨ 0 < n2)%Z as [Hneg|Hpos] by lia.
    + exists lo, hi, (const_value lo). split_and!; [done..|]. rewrite Hp by done. apply (Hno _ lo n1 H1 Hl3); lia.
    + exists lo, hi, (const_value hi). split_and!; [done..|]. rewrite Hp by done. apply (Hno _ hi n2 H2 Hh3); lia.
Qed.

(** A value inside of a range pattern, compared to the ends of the range. *)
Lemma range_matches_ends klo khi k n1 n2 y :
  compare_const_vals k klo = Some n1 → compare_const_vals k khi = Some n2 →
  const_matches k y = true → range_matches klo khi y = true → (0 ≤ n1)%Z ∧ (n2 ≤ 0)%Z.
Proof.
  intros H1 H2 (c & Hc & Heq)%const_matches_spec (c' & Hc' & Hlo & Hhi)%range_matches_spec.
  rewrite <- (value_const_kind _ _ _ y H1), Hc in Hc'. injection Hc' as <-. split.
  - eapply const_le_compare; [|done]. eapply const_le_trans; [done|]. by apply const_eq_le, const_eq_sym.
  - eapply const_le_compare'; [|done]. eapply const_le_trans; [|done]. by apply const_eq_le.
Qed.

Lemma range_dropped {A} p id klo khi clo chi t x ds ds' (tl : A) :
  range_matches clo chi x = true → scalar_ty x t = true →
  (match compare_const_vals clo klo, compare_const_vals chi khi with
   | Some val1, Some val2 => mret (if (0 <=? val1)%Z && (val2 <=? 0)%Z then Some tl else None)
   | _, _ => _ ← span_err id "mismatched types between ranges"; mret None
   end) ds = Ok (None, ds') →
  (∀ y, scalar_ty y t = true → pat_matches cx p y = range_matches klo khi y) →
  ds' ≠ ds ∨ ∃ y, (y = const_value clo ∨ y = const_value chi) ∧ scalar_ty y t = true ∧ range_matches clo chi y = true ∧ pat_matches cx p y = false.
Proof.
  intros Hx Hs Hc Hp. destruct (range_ends t clo chi x Hs Hx) as [(Hl1 & Hl2 & Hl3) (Hh1 & Hh2 & Hh3)].
  destruct (compare_const_vals clo klo) as [n1|] eqn:H1; [|left; by eapply span_err_ne].
  destruct (compare_const_vals chi khi) as [n2|] eqn:H2; [|left; by eapply span_err_ne]. inv_M Hc. right.
  assert (n1 < 0 ∨ 0 < n2)%Z as [Hneg|Hpos] by (destruct (Z.leb_spec 0 n1), (Z.leb_spec n2 0); try lia; done).
  - exists (const_value clo). split_and!; [by left|done|done|]. rewrite Hp by done. apply not_true_is_false.
    intros (c & Hy & Hlo & _)%range_matches_spec. rewrite <- (value_const_kind _ _ _ _ H1), Hl3 in Hy. injection Hy as <-.
    pose proof (const_le_compare _ _ _ Hlo H1). lia.
  - exists (const_value chi). split_and!; [by right|done|done|]. rewrite Hp by done. apply not_true_is_false.
    intros (c & Hy & Hlo & Hhi)%range_matches_spec.
    rewrite (const_le_kind _ _ _ (const_le_trans _ _ _ Hlo Hhi)), <- (value_const_kind _ _ _ _ H2), Hh3 in Hy. injection Hy as <-.
    pose proof (const_le_compare' _ _ _ Hhi H2). lia.
Qed.

Lemma covers_dropped {A} (o : outcome const_val) p e id c ds ds' t x args ts (r1 : A) :
  o = Ok e → const_pat_ok e t → built t c x args ts → (∀ y, scalar_ty y t = true → pat_matches cx p y = const_matches e y) →
  (e_v ← lift o; match_ ← const_covers id e_v c; mret (if (match_ : bool) then Some r1 else None)) ds = Ok (None, ds') →
  droppable p c t x ds ds'.
Proof.
  intros -> He Hb Hp Hs. rewrite lift_bind in Hs. apply M_bind_Ok in Hs as (b & ds1 & Hc & Hs). inv_M Hs.
  destruct b; [done|]. by eapply const_dropped.
Qed.

Lemma variant_dropped p eid substs va c x args ts t ds :
  t = ty_enum eid substs → built t c x args ts → ctor_eqb (variant (va_id va)) c = false →
  (∀ id vs, id ≠ va_id va → pat_matches cx p (VVariant id vs) = false) → droppable p c t x ds ds.
Proof.
  intros -> (va' & _ & -> & -> & _)%built_enum Hc Hp. right; left. apply Hp. intros E.
  apply not_true_iff_false in Hc. apply Hc, ctor_eqb_variant. congruence.
Qed.

Lemma specialize_dropped p r c t ds ds' x args ts :
  wt_pat p t → built t c x args ts → length args = length ts →
  specialize cx (p :: r) c (length args) t ds = Ok (None, ds') → droppable p c t x ds ds'.
Proof.
  intros Hp%raw_pat_wt Hb Hlen. rewrite <-specialize_of_raw. intros Hs.
  assert (droppable (raw_pat p) c t x ds ds') as Hd0; [|unfold droppable in *; by setoid_rewrite raw_pat_matches in Hd0].
  pose proof (raw_pat_idemp p) as Hid. pose proof (raw_pat_node p) as Hn. unfold specialize in Hs. run_lift Hs. rewrite Hid in Hs. clear Hid. cbn [tail] in Hs.
  wt_cases Hp; cbn [pat_node pat_id] in *; try (by inv_M Hs).
  - by edestruct Hn.
  - exfalso. unfold binds in Hbi. destruct (find_def cx id) as [[]|]; inv_M Hs; done.
  - rewrite Hd in Hs. inv_M Hs. destruct (ctor_eqb _ _) eqn:Hc; [done|]. eapply variant_dropped; [done..|].
    intros id' vs Hne. cbn [pat_matches pat_node pat_id]. rewrite Hd. by apply bool_decide_eq_false.
  - rewrite Hd in Hs. eapply covers_dropped; [done..| |exact Hs]. intros y _. cbn [pat_matches pat_node pat_id]. rewrite Hd. unfold static_matches. by rewrite Hk.
  - rewrite Hd in Hs. run_lift Hs. inv_M Hs. destruct (ctor_eqb _ _) eqn:Hc; [done|]. eapply variant_dropped; [done..|].
    intros id' vs Hne. cbn [pat_matches pat_node pat_id]. rewrite Hd, bool_decide_false by congruence. done.
  - rewrite Hd in Hs. run_lift Hs. eapply covers_dropped; [done..| |exact Hs]. intros y _. cbn [pat_matches pat_node pat_id]. rewrite Hd. unfold static_matches. by rewrite Hk.
  - rewrite Hd in Hs. run_lift Hs. destruct d; try done; by inv_M Hs.
  - rewrite Hd in Hs. run_lift Hs. destruct (ctor_eqb _ _) eqn:Hc; inv_M Hs; [done|]. eapply variant_dropped; [done..|].
    intros id' vs Hne. cbn [pat_matches pat_node pat_id]. rewrite Hd, bool_decide_false by congruence. done.
  - rewrite Hd in Hs. run_lift Hs. destruct d; try done; by inv_M Hs.
  - eapply covers_dropped; [done..| |exact Hs]. intros y Hy. cbn [pat_matches pat_node pat_id]. rewrite Hk. by destruct y, t.
  - exfalso. rewrite Hk in Hs. run_lift Hs. inversion Hb; subst; try done; by inv_M Hs.
  - destruct Hoklo as [Hoklo _]. rewrite Hlo, Hhi in Hs.
    assert (∀ y, scalar_ty y t = true → pat_matches cx (mkPat id (PatRange lo hi)) y = range_matches klo khi y) as Hm by (intros y _; cbn [pat_matches pat_node pat_id]; by rewrite Hlo, Hhi).
    destruct Hb as [t ? ts Ht| | | | |t k x Hx Hk|t clo chi x Hx Hr]; try done; try (by destruct t); run_lift Hs; run_lift Hs.
    + destruct (compare_const_vals k klo) as [n1|] eqn:H1; [|left; by eapply span_err_ne].
      destruct (compare_const_vals k khi) as [n2|] eqn:H2; [|left; by eapply span_err_ne]. inv_M Hs. right; left.
      rewrite Hm by done. apply not_true_is_false. intros Hr. pose proof (range_matches_ends _ _ _ _ _ _ H1 H2 Hk Hr) as [??].
      destruct (Z.leb_spec 0 n1), (Z.leb_spec n2 0); try lia; done.
    + destruct (range_dropped (mkPat id (PatRange lo hi)) id klo khi clo chi t x ds ds' r Hr Hx Hs Hm) as [|(y & _ & ? & ? & ?)]; [by left|].
      right; right. by exists clo, chi, y.
  - exfalso. inversion Hb; subst; try done. rewrite length_replicate in Hlen. inv_M Hs. rewrite Hlen in *.
    destruct slice as [s|]; simpl in Hs, Hsl.
    + rewrite andb_true_r in Hs. destruct (Nat.ltb_spec (length before + length after) k); [done|].
      destruct (Nat.eqb_spec (length before + length after) k); [done|lia].
    + rewrite andb_false_r in Hs. destruct (Nat.eqb_spec (length before + length after) k); [done|lia].
Qed.

(** C33. Specializing a row by a constructor of the type of its first pattern
    returns.  The row it gives is typed by the types of the arguments followed by
    those of the rest and consists of supported patterns again ([wt_row]), and it
    matches the arguments exactly when the row matches the value.  It drops the
    row only if the first pattern does not match the value, or, when the
    constructor is a range, misses some value of it, or after it has reported an
    error.  The row is of patterns that the checks support: vector patterns at
    types of fixed length, constants that evaluate to the kind of constants of
    their type, ranges that are not empty. *)
Theorem specialize_typed p r c t ds x args ts tys :
  typed_row cx variant_tys struct_tys (p :: r) (t :: tys) → forallb (supported cx) (p :: r) = true →
  has_type cx variant_tys struct_tys x t → built t c x args ts →
  ∃ o ds', specialize cx (p :: r) c (length args) t ds = Ok (o, ds') ∧
    match o with
    | Some r' => wt_row r' (ts ++ tys) ∧
        ∀ xs, row_matches cx r' (args ++ xs) = row_matches cx (p :: r) (x :: xs)
    | None => ds' ≠ ds ∨ pat_matches cx p x = false ∨
        ∃ lo hi y, c = range lo hi ∧ scalar_ty y t = true ∧ range_matches lo hi y = true ∧
          pat_matches cx p y = false
    end.
Proof using Hwf.
  intros Ht Hsup Hx Hb. pose proof (typed_supported_row _ _ _ _ _ Ht Hsup) as Hr.
  assert (length args = length ts) as Hlen by (by eapply Forall2_length, built_typed).
  assert (wt_pat p t) as Hp by (by inversion Hr).
  destruct (specialize_total p r c (length args) t ds x args ts Hp Hb) as (o & ds' & Hs).
  exists o, ds'. split; [done|]. destruct o as [r'|]; [|by eapply specialize_dropped].
  assert (specialized p r r' x args ts) as Hsp by (by eapply specialize_spec).
  split; [by eapply specialized_row|]. intros xs. by eapply specialized_row.
Qed.
End total.
