(* ===== verification/MatchChecks.v ===== *)
(** What the diagnostics of [check_match.rs] mean: a [match] that is not reported
    has an arm for every value, a pattern reported as unreachable matches
    nothing its predecessors do not, and an irrefutable pattern matches every
    value of its type.  The last section shows inputs on which the analysis
    does not do what it means to. *)

From stdpp Require Import prelude gmap strings list.
From S2P Require Import Prelude Ast RegionMaps Ty ConstEval PatUtil CheckMatch MatchSound MatchTotal.

Section checks.
Context (cx : MatchCheckCtxt).
Context (variant_tys : DefId → list ty → DefId → list ty) (struct_tys : DefId → list ty → list ty).
Context (Hwf : tcx_wf cx variant_tys struct_tys).
Abbreviation wt_pat := (wt_pat cx variant_tys struct_tys).
Abbreviation has_type := (has_type cx variant_tys struct_tys).

(** ** Exhaustiveness *)

Lemma not_useful_matches fuel (m : list Pat) v t x ds ds' :
  is_useful cx fuel ((λ p, [p]) <$> m) [v] ds = Ok (not_useful, ds') →
  wt_pat v t → Forall (λ p, wt_pat p t) m → has_type x t → pat_matches cx v x = true →
  ∃ p, p ∈ m ∧ pat_matches cx p x = true.
Proof using Hwf.
  intros Hu Hv Hm Hx Hvx.
  destruct (is_useful_all_sound _ _ _ fuel Hwf _ _ [t] [x] _ _ Hu) as (r & Hr & Hrx).
  - constructor; [exact Hv|constructor].
  - apply Forall_fmap. eapply Forall_impl; [done|]. intros p Hp. constructor; [exact Hp|constructor].
  - constructor; [exact Hx|constructor].
  - unfold row_matches. cbn [forall2b]. by rewrite Hvx.
  - apply list_elem_of_fmap in Hr as (p & -> & Hp). exists p. split; [done|].
    unfold row_matches in Hrx. cbn [forall2b] in Hrx. by rewrite andb_true_r in Hrx.
Qed.

Definition non_exhaustive (id : NodeId) (d : diag) : Prop :=
  ∃ ext, d = (LevelError, id, NonExhaustivePatterns ext).

Lemma check_exhaustive_sound fuel id pats ds u ds' t x :
  check_exhaustive cx fuel id pats ds = Ok (u, ds') → Forall (λ p, wt_pat p t) pats →
  has_type x t → (∀ d, d ∈ ds' → ¬ non_exhaustive id d) →
  ∃ p, p ∈ pats ∧ pat_matches cx p x = true.
Proof using Hwf.
  intros Hc Hpats Hx Hno. unfold check_exhaustive in Hc.
  apply M_bind_Ok in Hc as ([] & ds0 & [_ ->]%lift_Ok & Hc).
  apply M_bind_Ok in Hc as (use & ds1 & Hu & Hc).
  destruct use as [lty c| |].
  3: { eapply (not_useful_matches fuel pats wild t); eauto. apply wt_wild0. }
  all: apply M_bind_Ok in Hc as (ext & ds2 & [_ ->]%lift_Ok & Hc); injection Hc as _ <-;
    destruct (Hno (LevelError, id, NonExhaustivePatterns ext)); [set_solver|by exists ext].
Qed.

Lemma unguarded_pats_elem arms p :
  p ∈ unguarded_pats arms → ∃ arm, arm ∈ arms ∧ arm_guard arm = None ∧ p ∈ arm_pats arm.
Proof.
  unfold unguarded_pats. intros Hp. apply list_elem_of_join in Hp as (ps & Hp & Hps).
  apply list_elem_of_omap in Hps as (arm & Harm & Hu). exists arm. split; [done|].
  unfold unguarded_pat, is_unguarded in Hu. destruct (arm_guard arm); simplify_eq/=. done.
Qed.

Lemma typed_supported_all ps t :
  Forall (λ p, typed_pat cx variant_tys struct_tys p t) ps → forallb (supported cx) ps = true → Forall (λ p, wt_pat p t) ps.
Proof.
  intros Ht. induction Ht as [|p ps Hp _ IH]; intros Hs; [constructor|]. apply andb_true_iff in Hs as [Hsp Hs].
  constructor; [by apply typed_supported|by apply IH].
Qed.

(** C12. A match expression on supported patterns that passes the check without
    an error of non-exhaustiveness has, for every value of the type of the
    scrutinee, an arm without a guard one of whose patterns matches it; in
    particular a match without arms passes only on a type without values.
    Supported are patterns whose vector patterns are at types of fixed length,
    whose constants evaluate to the kind of constants of their type, and whose
    ranges are not empty; a match with slice patterns may pass and miss values. *)
Theorem check_match_expr_exhaustive fuel ex scrut arms ds u ds' t x :
  check_match_expr cx fuel ex scrut arms ds = Ok (u, ds') →
  node_types (tcx cx) !! expr_id scrut = Some t →
  Forall (λ p, typed_pat cx variant_tys struct_tys p t) (unguarded_pats arms) →
  forallb (supported cx) (unguarded_pats arms) = true → has_type x t →
  (∀ d, d ∈ ds' → d.1.2 = expr_id ex → d.1.1 ≠ LevelError) →
  ∃ arm p, arm ∈ arms ∧ arm_guard arm = None ∧ p ∈ arm_pats arm ∧ pat_matches cx p x = true.
Proof using Hwf.
  intros Hc Ht Htp Hsp Hx Hno. assert (Forall (λ p, wt_pat p t) (unguarded_pats arms)) as Hwt by (by apply typed_supported_all). unfold check_match_expr in Hc.
  apply M_bind_Ok in Hc as ([] & ds1 & _ & Hc). apply M_bind_Ok in Hc as ([] & ds2 & _ & Hc).
  apply M_bind_Ok in Hc as (t' & ds3 & [Ht' ->]%lift_Ok & Hc).
  unfold node_id_to_type in Ht'. rewrite Ht in Ht'. injection Ht' as <-.
  assert (∀ s, span_err (expr_id ex) s ds2 = Ok (u, ds') → False) as Herr.
  { intros s Hs. injection Hs as _ <-.
    apply (Hno (LevelError, expr_id ex, Text s)); [set_solver|done..]. }
  destruct arms as [|arm arms].
  - destruct (type_is_empty (tcx cx) t) eqn:He; simpl in Hc; [|by destruct (Herr _ Hc)].
    destruct t; try done. simpl in He. apply has_type_enum in Hx as (va & args & Hva & _).
    destruct (enum_variants (tcx cx) did); [by apply elem_of_nil in Hva|done].
  - destruct (unguarded_pats (arm :: arms)) as [|p ps] eqn:Hps; [by destruct (Herr _ Hc)|].
    rewrite <-Hps in *. clear Hps p ps.
    destruct (check_exhaustive_sound _ _ _ _ _ _ _ _ Hc Hwt Hx) as (p & Hp & Hm).
    + intros d Hd [ext ->]. by apply (Hno _ Hd).
    + apply unguarded_pats_elem in Hp as (a & ? & ? & ?). by exists a, p.
Qed.

(** ** Unreachable patterns *)

(** The computation only appends diagnostics that satisfy [P]. *)
Definition emits {A} (P : diag → Prop) (c : MD A) : Prop :=
  ∀ ds a ds', c ds = Ok (a, ds') → ∃ new, ds' = ds ++ new ∧ Forall P new.

Lemma emits_mret {A} P (a : A) : emits P (mret a).
Proof. intros ds b ds' [_ ->]%mret_Ok. exists []. by rewrite app_nil_r. Qed.

Lemma emits_lift {A} P (o : outcome A) : emits P (lift o).
Proof. intros ds b ds' [_ ->]%lift_Ok. exists []. by rewrite app_nil_r. Qed.

Lemma emits_emit (P : diag → Prop) d : P d → emits P (emit d).
Proof. intros Hd ds b ds' [= _ <-]. exists [d]. split; [done|by constructor]. Qed.

Lemma emits_bind {A B} P (c : MD A) (f : A → MD B) :
  emits P c → (∀ a, emits P (f a)) → emits P (c ≫= f).
Proof.
  intros Hc Hf ds b ds' (a & ds1 & H1 & H2)%M_bind_Ok.
  destruct (Hc _ _ _ H1) as (n1 & -> & Hn1). destruct (Hf a _ _ _ H2) as (n2 & -> & Hn2).
  exists (n1 ++ n2). split; [by rewrite app_assoc|by apply Forall_app].
Qed.

Lemma emits_filter_mapM {A B} P (f : A → MD (option B)) l :
  (∀ x, emits P (f x)) → emits P (filter_mapM f l).
Proof.
  intros Hf. induction l as [|x l IH]; cbn [filter_mapM]; [apply emits_mret|].
  apply emits_bind; [apply Hf|]. intros o. apply emits_bind; [done|]. intros r. apply emits_mret.
Qed.

(** The messages of [specialize]. *)
Definition mismatch (d : diag) : Prop :=
  d.2 = Text "mismatched types between arms" ∨ d.2 = Text "mismatched types between ranges".

Ltac solve_emits :=
  repeat first
    [ solve [auto] | apply emits_mret | apply emits_lift | (apply emits_emit; by (left + right))
    | (apply emits_bind; [|intros ?]) | done | case_match ].

Lemma const_covers_emits id e c : emits mismatch (const_covers id e c).
Proof. unfold const_covers, span_err. solve_emits. Qed.

Lemma specialize_emits r c n t : emits mismatch (specialize cx r c n t).
Proof.
  unfold specialize, span_err. pose proof const_covers_emits.
  apply emits_bind; [apply emits_lift|]. intros r0. solve_emits.
Qed.

Lemma is_useful_specialized_emits rec m v c n t :
  (∀ m v, emits mismatch (rec m v)) → emits mismatch (is_useful_specialized cx rec m v c n t).
Proof.
  intros Hrec. unfold is_useful_specialized.
  apply emits_bind; [apply emits_filter_mapM; intros r; apply specialize_emits|]. intros ms.
  apply emits_bind; [apply specialize_emits|]. intros o. solve_emits.
Qed.

Lemma any_useful_emits rec m v lty cs :
  (∀ m v, emits mismatch (rec m v)) → emits mismatch (any_useful cx rec m v lty cs).
Proof.
  intros Hrec. induction cs as [|[c n] cs IH]; cbn [any_useful]; [apply emits_mret|].
  apply emits_bind; [by apply is_useful_specialized_emits|]. intros []; by apply emits_mret || apply IH.
Qed.

Lemma is_useful_emits fuel m v : emits mismatch (is_useful cx fuel m v).
Proof.
  revert m v. induction fuel as [|fuel IH]; intros m v; cbn [is_useful]; [apply emits_lift|].
  pose proof (λ m v c n t, is_useful_specialized_emits (is_useful cx fuel) m v c n t IH) as Hs.
  pose proof (λ m v t cs, any_useful_emits (is_useful cx fuel) m v t cs IH) as Ha.
  destruct m as [|[|q qr] m]; [apply emits_mret..|]. solve_emits.
Qed.

Lemma warn_nan_emits pat : emits (λ d, d.1.1 = LevelWarning) (warn_nan cx pat).
Proof.
  intros ds [] ds' Hw. unfold warn_nan in Hw. apply fmap_Ok in Hw as (r & Hw & Hr).
  injection Hr as Hr. subst ds'. revert Hw.
  set (I := λ ds1, ∃ new, ds1 = ds ++ new ∧ Forall (λ d : diag, d.1.1 = LevelWarning) new).
  intros Hw. apply (Ast.walk_pat_inv _ I _ _ _) in Hw; [done| |exists []; by rewrite app_nil_r].
  intros p ds1 r1 Hr (new & -> & Hnew). apply bind_Ok in Hr as (b & _ & Hr).
  destruct b; [|injection Hr as <-; by exists new].
  apply bind_Ok in Hr as (r2 & Hr2 & Hr). injection Hr2 as <-. injection Hr as <-.
  eexists (new ++ [_]). split; [simpl; by rewrite app_assoc|]. apply Forall_app. split; [done|].
  by constructor.
Qed.

(** The patterns of a match in order, with whether their arm has a guard. *)
Definition arm_patterns (arms : list Arm) : list (bool * Pat) :=
  arms ≫= λ arm, pair (is_some (arm_guard arm)) <$> arm_pats arm.

Definition unguarded (ps : list (bool * Pat)) : list Pat :=
  omap (λ gp, if (gp.1 : bool) then None else Some gp.2) ps.

Definition unreachable (id : NodeId) : diag := (LevelError, id, Text "unreachable pattern").

(** Where a report of an unreachable pattern comes from. *)
Definition reported (fuel : nat) (seen : list Pat) (ps : list (bool * Pat)) (id : NodeId) : Prop :=
  ∃ pre g p post, ps = pre ++ (g, p) :: post ∧ pat_id p = id ∧
    ∃ ds1 ds2, is_useful cx fuel ((λ q, [q]) <$> (seen ++ unguarded pre)) [p] ds1
               = Ok (not_useful, ds2).

Lemma reported_cons fuel seen gp ps id :
  reported fuel (seen ++ unguarded [gp]) ps id → reported fuel seen (gp :: ps) id.
Proof.
  intros (pre & g & p & post & -> & Hid & ds1 & ds2 & Hu). exists (gp :: pre), g, p, post.
  split_and!; [done..|]. exists ds1, ds2. rewrite <-Hu. f_equal. rewrite <-app_assoc.
  do 3 f_equal. unfold unguarded. by destruct gp as [[] ?].
Qed.

Lemma check_arm_pats_reported fuel g pats seen ds ds' seen' id :
  check_arm_pats cx fuel g pats ((λ q, [q]) <$> seen) ds = Ok (seen', ds') →
  seen' = (λ q, [q]) <$> (seen ++ unguarded (pair g <$> pats)) ∧
  (unreachable id ∈ ds' → unreachable id ∈ ds ∨ reported fuel seen (pair g <$> pats) id).
Proof.
  revert seen ds. induction pats as [|p pats IH]; intros seen ds Hc; cbn [check_arm_pats] in Hc.
  { apply mret_Ok in Hc as [-> ->]. split; [by rewrite app_nil_r|by left]. }
  apply M_bind_Ok in Hc as ([] & ds1 & Hw & Hc). apply M_bind_Ok in Hc as (u & ds2 & Hu & Hc).
  apply M_bind_Ok in Hc as ([] & ds3 & He & Hc).
  assert ((if g then (λ q, [q]) <$> seen else ((λ q, [q]) <$> seen) ++ [[p]])
    = (λ q, [q]) <$> (seen ++ unguarded [(g, p)])) as Hseen.
  { destruct g; [by rewrite app_nil_r|by rewrite fmap_app]. }
  rewrite Hseen in Hc. destruct (IH _ _ Hc) as [-> Hr]. split.
  { rewrite <-app_assoc. unfold unguarded. by destruct g. }
  intros Hin. destruct (Hr Hin) as [Hin3|Hrep]; [|right; by apply reported_cons].
  assert (unreachable id ∈ ds2 → unreachable id ∈ ds) as Hback.
  { intros Hin2. destruct (is_useful_emits _ _ _ _ _ _ Hu) as (n2 & -> & Hn2).
    destruct (warn_nan_emits _ _ _ _ Hw) as (n1 & -> & Hn1). rewrite Forall_forall in Hn1, Hn2.
    apply elem_of_app in Hin2 as [[?|?%Hn1]%elem_of_app|?%Hn2]; [done|done|]. by destruct H. }
  destruct u; try (apply mret_Ok in He as [_ ->]; left; by apply Hback).
  injection He as <-. apply elem_of_app in Hin3 as [?|Hid%list_elem_of_singleton]; [left; by apply Hback|].
  injection Hid as ->. right. exists [], g, p, (pair g <$> pats). split_and!; [done..|].
  exists ds1, ds2. by rewrite app_nil_r.
Qed.

Lemma reported_app fuel seen ps1 ps2 id :
  reported fuel seen ps1 id ∨ reported fuel (seen ++ unguarded ps1) ps2 id →
  reported fuel seen (ps1 ++ ps2) id.
Proof.
  intros [(pre & g & p & post & -> & Hid & Hu)|(pre & g & p & post & -> & Hid & Hu)].
  - exists pre, g, p, (post ++ ps2). split_and!; [by rewrite <-app_assoc|done..].
  - exists (ps1 ++ pre), g, p, post. split_and!; [by rewrite <-app_assoc|done|].
    unfold unguarded in *. by rewrite omap_app, app_assoc.
Qed.

Lemma check_arms_from_reported fuel arms seen ds ds' seen' id :
  check_arms_from cx fuel arms ((λ q, [q]) <$> seen) ds = Ok (seen', ds') →
  unreachable id ∈ ds' → unreachable id ∈ ds ∨ reported fuel seen (arm_patterns arms) id.
Proof.
  revert seen ds. induction arms as [|arm arms IH]; intros seen ds Hc Hin; cbn [check_arms_from] in Hc.
  { apply mret_Ok in Hc as [_ ->]. by left. }
  apply M_bind_Ok in Hc as (s1 & ds1 & H1 & Hc).
  destruct (check_arm_pats_reported _ _ _ _ _ _ _ id H1) as [-> Hr].
  destruct (IH _ _ Hc Hin) as [Hin1|Hrep].
  - destruct (Hr Hin1) as [|Hrep]; [by left|right]. apply reported_app. by left.
  - right. apply reported_app. by right.
Qed.

(** C23. In a match on supported patterns, a pattern reported as unreachable
    matches no value that an earlier pattern of an arm without a guard does not
    match: removing it does not change what the match does.  Supported are
    patterns whose vector patterns are at types of fixed length, whose constants
    evaluate to the kind of constants of their type, and whose ranges are not
    empty; a pattern after slice patterns may be reported although it is
    reachable. *)
Theorem check_arms_unreachable fuel arms id u ds' :
  check_arms cx fuel arms [] = Ok (u, ds') → unreachable id ∈ ds' →
  ∃ pre g p post, arm_patterns arms = pre ++ (g, p) :: post ∧ pat_id p = id ∧
    ∀ t x, Forall (λ p, typed_pat cx variant_tys struct_tys p t) (arm_patterns arms).*2 →
      forallb (supported cx) (arm_patterns arms).*2 = true → has_type x t →
      pat_matches cx p x = true → ∃ q, (false, q) ∈ pre ∧ pat_matches cx q x = true.
Proof using Hwf.
  intros Hc Hin. unfold check_arms in Hc. apply M_bind_Ok in Hc as (seen & ds1 & Hc & [_ ->]%mret_Ok).
  destruct (check_arms_from_reported fuel arms [] [] ds1 seen id Hc Hin)
    as [?%elem_of_nil|(pre & g & p & post & Heq & Hid & ds2 & ds3 & Hu)]; [done|].
  exists pre, g, p, post. split_and!; [done..|]. intros t x Htp Hsp Hx Hm.
  pose proof (typed_supported_all _ _ Htp Hsp) as Hwt. apply Forall_fmap in Hwt. rewrite Heq in Hwt.
  apply Forall_app in Hwt as [Hpre [Hp _]%Forall_cons].
  destruct (not_useful_matches fuel (unguarded pre) p t x ds2 ds3 Hu Hp) as (q & Hq & Hqm); [|done..|].
  - apply Forall_forall. rewrite Forall_forall in Hpre. intros q ([g' q'] & Hin' & Hq)%list_elem_of_omap.
    destruct g'; simplify_eq/=. by apply (Hpre _ Hin').
  - exists q. split; [|done]. apply list_elem_of_omap in Hq as ([g' q'] & Hin' & Hq).
    destruct g'; by simplify_eq/=.
Qed.

(** ** Irrefutable patterns *)

Lemma existsb_false {A} (f : A → bool) l x : existsb f l = false → x ∈ l → f x = false.
Proof.
  intros Hl Hx. apply not_true_is_false. intros Hf. apply not_true_iff_false in Hl. apply Hl.
  apply existsb_exists. exists x. split; [by apply list_elem_of_In|done].
Qed.

(** Every value of the type of the pattern is matched. *)
Definition irrefutable (p : Pat) : Prop :=
  ∀ t x, wt_pat p t → has_type x t → pat_matches cx p x = true.

Lemma irrefutable_args ps ts args :
  (∀ p, p ∈ ps → irrefutable p) → Forall2 wt_pat ps ts → Forall2 has_type args ts →
  forall2b (pat_matches cx) ps args = true.
Proof.
  intros Hps Hwt. revert args. induction Hwt as [|p t ps ts Hp Hwt IH]; intros args Hargs;
    inversion Hargs as [|x ? args' ? Hx Hargs']; subst; [done|].
  cbn [forall2b]. rewrite (Hps p (list_elem_of_here _ _) t x Hp Hx).
  apply IH; [|done]. intros q Hq. apply Hps. by right.
Qed.

Lemma irrefutable_fields cf fields ts args :
  (∀ f, f ∈ fields → irrefutable (field_pat f)) → length cf = length ts →
  (∀ i sf t f, cf !! i = Some sf → ts !! i = Some t →
     List.find (λ f, (ident f =? ft_name sf)%N) fields = Some f → wt_pat (field_pat f) t) →
  Forall2 has_type args ts →
  fields_match cf (map (λ f, (ident f, pat_matches cx (field_pat f))) fields) args = true.
Proof.
  intros Hf Hlen Hwt Hargs. rewrite <-field_pats_match.
  eapply irrefutable_args; [|by apply field_pats_wt|done].
  intros p (sf & -> & _)%list_elem_of_fmap. destruct (List.find _ fields) as [f|] eqn:Hfind.
  - apply Hf. apply List.find_some in Hfind as [? _]. by apply list_elem_of_In.
  - by intros t x _ _.
Qed.

Lemma only_variant eid va va' :
  length (enum_variants (tcx cx) eid) = 1 → va ∈ enum_variants (tcx cx) eid →
  va' ∈ enum_variants (tcx cx) eid → va = va'.
Proof.
  destruct (enum_variants (tcx cx) eid) as [|a [|]]; try done.
  by intros _ ->%list_elem_of_singleton ->%list_elem_of_singleton.
Qed.

Lemma refutable_structure (o : option Def) (b : bool) :
  match o with
  | Some (DefVariant enum_id _ _) =>
      if negb (length (enum_variants (tcx cx) enum_id) =? 1) then true else b
  | Some (DefStatic _ _) => true
  | _ => b
  end = false → b = false.
Proof. destruct o as [[]|]; try done. by destruct (_ =? 1). Qed.

Lemma irrefutable_single t ts ps x :
  (∀ p, p ∈ ps → irrefutable p) → has_type x t → single_tys struct_tys t = Some ts →
  Forall2 wt_pat ps ts →
  ∃ args, x = VSingle args ∧ forall2b (pat_matches cx) ps args = true.
Proof.
  intros Hps Hx Ht Hwt. destruct (has_type_single _ _ _ _ _ _ Hx Ht) as (args & -> & Hb).
  exists args. split; [done|]. eapply irrefutable_args; [done..|by eapply built_typed].
Qed.

Lemma irrefutable_ptr t t' q x :
  irrefutable q → has_type x t → single_tys struct_tys t = Some [t'] → wt_pat q t' →
  ∃ y, x = VSingle [y] ∧ pat_matches cx q y = true.
Proof.
  intros Hq Hx Ht Hwt. destruct (irrefutable_single t [t'] [q] x) as (args & -> & Hm); [|done..| |].
  - by intros p ->%list_elem_of_singleton.
  - constructor; [done|constructor].
  - destruct args as [|y [|]]; cbn [forall2b] in Hm; rewrite ?andb_true_r, ?andb_false_r in Hm; [done| |done].
    by exists y.
Qed.

(** C24. A pattern the check accepts in a [let] or as the pattern of an argument
    matches every value of its type. *)
Theorem is_refutable_sound p : is_refutable cx p = false → irrefutable p.
Proof using Hwf.
  induction p as [p IH] using Pat_sub_ind. rewrite Forall_forall in IH. intros Hr t x Hp Hx.
  pose proof (wt_id_ok _ _ _ _ _ Hp) as Hid.
  wt_cases Hp; simpl in Hr; try rewrite Hd in Hr; try discriminate Hr; try done;
    try (destruct (length (enum_variants (tcx cx) eid) =? 1) eqn:Hone; [|discriminate Hr];
         apply Nat.eqb_eq in Hone; pose proof (has_type_enum _ _ _ _ _ _ Hx) as (va' & args & Hva' & -> & Hb);
         pose proof (only_variant _ _ _ Hone Hva Hva') as <-;
         pose proof (built_typed _ _ _ _ _ _ _ _ Hb Hx) as Hargs);
    try apply refutable_structure in Hr; try discriminate Hr.
  - by apply (IH s (list_elem_of_here _ _) Hr t).
  - simpl. unfold binds in Hbi. by destruct (find_def cx id) as [[]|].
  - simpl. rewrite Hd. by apply bool_decide_eq_true.
  - simpl. rewrite Hd, bool_decide_true by done. destruct ops as [ps|]; [|done].
    eapply irrefutable_args; [|by apply Hps|done].
    intros q Hq. apply (IH q Hq), (existsb_false _ _ _ Hr Hq).
  - destruct (has_type_single _ _ _ _ _ _ Hx eq_refl) as (args & -> & _). simpl. rewrite Hd.
    destruct d; try done; (destruct ops as [ps|]; [|done]);
      (destruct (irrefutable_single _ _ ps _ (λ q Hq, IH q Hq (existsb_false _ _ _ Hr Hq)) Hx eq_refl
        (Hps ps eq_refl)) as (args' & [= <-] & Hm)); done.
  - simpl. rewrite Hd, bool_decide_true by done. eapply irrefutable_fields; [|done..].
    intros f Hf. apply (IH (field_pat f)); [apply list_elem_of_fmap; eauto|].
    apply (existsb_false _ _ _ Hr Hf).
  - destruct (has_type_single _ _ _ _ _ _ Hx eq_refl) as (args & -> & Hb). simpl.
    assert (existsb (λ f, is_refutable cx (field_pat f)) fields = false) as Hr' by (by destruct d).
    unfold id_ok in Hid. simpl in Hid. destruct (id =? 0)%N; [by destruct Hid|].
    rewrite Hd, Hid. destruct d; try done; (eapply irrefutable_fields;
      [|symmetry; by apply (wf_struct_tys _ _ _ Hwf)|exact Hfs|by eapply built_typed]);
      intros f Hf; (apply (IH (field_pat f)); [apply list_elem_of_fmap; eauto|]);
      apply (existsb_false _ _ _ Hr' Hf).
  - destruct (irrefutable_single _ _ ps _ (λ q Hq, IH q Hq (existsb_false _ _ _ Hr Hq)) Hx eq_refl Hps)
      as (args & -> & Hm). done.
  - by destruct (irrefutable_ptr _ _ _ _ (IH q (list_elem_of_here _ _) Hr) Hx eq_refl Hp) as (y & -> & Hm).
  - by destruct (irrefutable_ptr _ _ _ _ (IH q (list_elem_of_here _ _) Hr) Hx eq_refl Hp) as (y & -> & Hm).
  - destruct (expr_node e) as [| | | | | | | |[]| | | | | | | | | | | | | | | | | | | | | | |]; done.
  - by apply has_type_nil in Hx as ->.
Qed.
End checks.
