(* ===== verification/MatchExamples.v ===== *)
(** The theorems on the match checks at a concrete program, and the inputs on
    which the checks of [check_match.rs] and [const_eval.rs] go wrong. *)

From stdpp Require Import prelude gmap strings list.
From S2P Require Import Prelude Ast RegionMaps Ty ConstEval PatUtil CheckMatch.
From S2P Require Import MatchSound MatchTotal MatchChecks.

(** ** A program: [enum E { A, B(bool) }] *)

Definition dE : DefId := mkDefId 0 10.
Definition dA : DefId := mkDefId 0 11.
Definition dB : DefId := mkDefId 0 12.
Definition tE : ty := ty_enum dE [].

Definition ex_variants (d : DefId) : list VariantInfo :=
  if decide (d = dE) then [mkVariantInfo [] 1 dA; mkVariantInfo [ty_bool] 2 dB] else [].

Definition ex_lit (id : NodeId) (l : Lit_) : Expr := mkExpr id (ExprLit l).
Definition by_value : BindingMode := BindByValue MutImmutable.

(** [A], [B(true)], [B(false)], [x], [B(true)] again and [(x, y)]. *)
Definition pA : Pat := mkPat 1 (PatIdent by_value [1%N] None).
Definition pBt : Pat := mkPat 2 (PatEnum [2%N] (Some [mkPat 3 (PatLit (ex_lit 40 (LitBool true)))])).
Definition pBf : Pat := mkPat 4 (PatEnum [2%N] (Some [mkPat 5 (PatLit (ex_lit 41 (LitBool false)))])).
Definition px : Pat := mkPat 6 (PatIdent by_value [3%N] None).
Definition pBt' : Pat := mkPat 8 (PatEnum [2%N] (Some [mkPat 9 (PatLit (ex_lit 42 (LitBool true)))])).
Definition py : Pat := mkPat 7 (PatIdent by_value [4%N] None).
Definition ppair : Pat := mkPat 30 (PatTup [px; py]).

Definition ex_tcx : ctxt := mkCtxt
  (list_to_map [(1%N, DefVariant dE dA false); (2%N, DefVariant dE dB false);
                (4%N, DefVariant dE dB false); (8%N, DefVariant dE dB false);
                (6%N, DefBinding 6 by_value); (7%N, DefBinding 7 by_value)])
  (list_to_map [(1%N, tE); (2%N, tE); (4%N, tE); (6%N, tE); (8%N, tE); (20%N, tE); (7%N, ty_bool);
                (3%N, ty_bool); (5%N, ty_bool); (9%N, ty_bool); (30%N, ty_tup [tE; ty_bool])])
  ex_variants (λ _, []) (λ _, None) (λ _, None) (λ _, None).

Definition ex_cx : MatchCheckCtxt := mkMatchCheckCtxt ex_tcx ∅ (λ _, None) 5.

Definition ex_variant_tys (eid : DefId) (substs : list ty) (vid : DefId) : list ty :=
  match List.find (λ va, bool_decide (va_id va = vid)) (ex_variants eid) with
  | Some va => va_args va
  | None => []
  end.
Definition ex_struct_tys (_ : DefId) (_ : list ty) : list ty := [].

Lemma ex_wf : tcx_wf ex_cx ex_variant_tys ex_struct_tys.
Proof.
  split; simpl; unfold ex_variants, ex_variant_tys.
  - intros eid. case_decide; simpl; [|constructor].
    apply NoDup_cons. split; [set_solver|apply NoDup_singleton].
  - intros eid substs va. unfold ex_variants. case_decide as He; [|by intros ?%elem_of_nil].
    intros [->|Hva]%elem_of_cons; [done|]. by apply list_elem_of_singleton in Hva as ->.
  - done.
  - intros did. constructor.
Defined.

Abbreviation ex_wt := (wt_pat ex_cx ex_variant_tys ex_struct_tys).
Abbreviation ex_ht := (has_type ex_cx ex_variant_tys ex_struct_tys).

Lemma ex_ht_B b : ex_ht (VVariant dB [VBool b]) tE.
Proof.
  apply (ht_variant _ _ _ dE [] (mkVariantInfo [ty_bool] 2 dB)).
  - simpl. unfold ex_variants. rewrite decide_True by done. right. left.
  - constructor; [by apply ht_scalar|constructor].
Qed.

Lemma ex_wt_bind id t :
  id = 6%N ∧ t = tE ∨ id = 7%N ∧ t = ty_bool →
  ∀ path, ex_wt (mkPat id (PatIdent by_value path None)) t.
Proof. intros [[-> ->]|[-> ->]] path; by apply wt_bind. Qed.

Abbreviation ex_typed := (typed_pat ex_cx ex_variant_tys ex_struct_tys).

Lemma ex_typed_wild : ex_typed wild tE.
Proof. split; [by left|done]. Qed.

Lemma ex_typed_A : ex_typed pA tE.
Proof.
  split; [reflexivity|]. exists [], (mkVariantInfo [] 1 dA). split_and!; try reflexivity. simpl. unfold ex_variants. rewrite decide_True by done. left.
Qed.

Lemma ex_typed_B id lid e :
  node_types ex_tcx !! id = Some tE → (id =? 0)%N = false → node_types ex_tcx !! lid = Some ty_bool →
  (lid =? 0)%N = false → def_map ex_tcx !! id = Some (DefVariant dE dB false) →
  ex_typed (mkPat id (PatEnum [2%N] (Some [mkPat lid (PatLit e)]))) tE.
Proof.
  intros Hid Hz Hl Hlz Hd. split; [unfold id_ok; simpl; by rewrite Hz|].
  assert (find_def ex_cx id = Some (DefVariant dE dB false)) as -> by done.
  exists [], (mkVariantInfo [ty_bool] 2 dB). split_and!; try reflexivity.
  - simpl. unfold ex_variants. rewrite decide_True by done. right. left.
  - split; [|done]. split; [unfold id_ok; simpl; by rewrite Hlz|done].
Qed.

Ltac ex_rows := repeat apply Forall_cons_2; try apply Forall_nil_2; try (constructor; [|constructor]);
  first [exact ex_typed_wild|exact ex_typed_A|by apply ex_typed_B].

Lemma is_useful_sound_witness :
  ∃ r, r ∈ [[pA]; [pBt]; [pBf]] ∧ row_matches ex_cx r [VVariant dB [VBool false]] = true.
Proof.
  apply (is_useful_sound ex_cx ex_variant_tys ex_struct_tys 10 _ [wild] [tE] _ [] []).
  - exact ex_wf.
  - vm_compute. reflexivity.
  - ex_rows.
  - ex_rows.
  - vm_compute. reflexivity.
  - vm_compute. reflexivity.
  - constructor; [apply ex_ht_B|constructor].
  - reflexivity.
Defined.


Lemma specialize_typed_witness :
  ∃ o ds', specialize ex_cx [pBt; wild] (variant dB) 1 tE [] = Ok (o, ds') ∧
    match o with
    | Some r' => wt_row ex_cx ex_variant_tys ex_struct_tys r' [ty_bool; tE] ∧
        ∀ xs, row_matches ex_cx r' (VBool true :: xs) = row_matches ex_cx [pBt; wild] (VVariant dB [VBool true] :: xs)
    | None => ds' ≠ [] ∨ pat_matches ex_cx pBt (VVariant dB [VBool true]) = false ∨
        ∃ lo hi y, variant dB = range lo hi ∧ scalar_ty y tE = true ∧ range_matches lo hi y = true ∧
          pat_matches ex_cx pBt y = false
    end.
Proof.
  apply (specialize_typed ex_cx ex_variant_tys ex_struct_tys ex_wf pBt [wild] (variant dB) tE []
    (VVariant dB [VBool true]) [VBool true] [ty_bool] [tE]).
  - constructor; [by apply ex_typed_B|ex_rows].
  - vm_compute. reflexivity.
  - apply ex_ht_B.
  - apply (built_variant ex_cx ex_variant_tys ex_struct_tys dE [] (mkVariantInfo [ty_bool] 2 dB) [VBool true]).
    simpl. unfold ex_variants. rewrite decide_True by done. right. left.
Defined.

(** [match e { A => e, B(true) => e, B(false) => e }]. *)
Definition ex_scrut : Expr := mkExpr 20 (ExprPath [5%N]).
Definition ex_arms : list Arm := [mkArm [pA] None ex_scrut; mkArm [pBt; pBf] None ex_scrut].
Definition ex_match : Expr := mkExpr 21 (ExprMatch ex_scrut ex_arms).

Lemma check_match_expr_exhaustive_witness :
  ∃ arm p, arm ∈ ex_arms ∧ arm_guard arm = None ∧ p ∈ arm_pats arm ∧
    pat_matches ex_cx p (VVariant dB [VBool true]) = true.
Proof.
  apply (check_match_expr_exhaustive ex_cx ex_variant_tys ex_struct_tys ex_wf 10 ex_match ex_scrut
    ex_arms [] tt [] tE).
  - vm_compute. reflexivity.
  - reflexivity.
  - change (unguarded_pats ex_arms) with [pA; pBt; pBf].
    ex_rows.
  - vm_compute. reflexivity.
  - apply ex_ht_B.
  - intros d Hd. by apply elem_of_nil in Hd.
Defined.

Lemma check_arms_unreachable_witness :
  ∃ pre g p post, arm_patterns (ex_arms ++ [mkArm [pBt'] None ex_scrut]) = pre ++ (g, p) :: post ∧
    pat_id p = 8%N ∧
    (pat_matches ex_cx p (VVariant dB [VBool true]) = true →
     ∃ q, (false, q) ∈ pre ∧ pat_matches ex_cx q (VVariant dB [VBool true]) = true).
Proof.
  destruct (check_arms_unreachable ex_cx ex_variant_tys ex_struct_tys ex_wf 10
    (ex_arms ++ [mkArm [pBt'] None ex_scrut]) 8%N tt [unreachable 8]) as (pre & g & p & post & Heq & Hid & Hp).
  - vm_compute. reflexivity.
  - left.
  - exists pre, g, p, post. split; [exact Heq|]. split; [exact Hid|]. apply (Hp tE).
    + change (arm_patterns (ex_arms ++ [mkArm [pBt'] None ex_scrut])).*2 with [pA; pBt; pBf; pBt']. ex_rows.
    + vm_compute. reflexivity.
    + apply ex_ht_B.
Defined.

Lemma is_refutable_sound_witness :
  is_refutable ex_cx ppair = false ∧ pat_matches ex_cx ppair (VSingle [VVariant dB [VBool true]; VBool true]) = true.
Proof.
  split; [reflexivity|].
  apply (is_refutable_sound ex_cx ex_variant_tys ex_struct_tys ex_wf ppair eq_refl (ty_tup [tE; ty_bool])).
  - apply wt_tup; [reflexivity|]. constructor; [by apply ex_wt_bind; left|].
    constructor; [by apply ex_wt_bind; right|constructor].
  - apply (ht_single _ _ _ _ _ [tE; ty_bool]); [reflexivity|].
    constructor; [apply ex_ht_B|]. constructor; [by apply ht_scalar|constructor].
Defined.

(** ** Where the analysis goes wrong *)

(** Vectors of [bool]: the patterns [[]], [[true, ..]], [[false]], [[..]] and
    [[a, b, ..]]. *)
Definition tS : ty := ty_vec ty_bool VstoreUniq.
Definition ptrue (id : NodeId) : Pat := mkPat id (PatLit (ex_lit 0 (LitBool true))).
Definition pfalse (id : NodeId) : Pat := mkPat id (PatLit (ex_lit 0 (LitBool false))).
Definition prest (id : NodeId) : Pat := mkPat id PatWild.
Definition pv_nil : Pat := mkPat 1 (PatVec [] None []).
Definition pv_true : Pat := mkPat 2 (PatVec [ptrue 10] (Some (prest 20)) []).
Definition pv_false : Pat := mkPat 3 (PatVec [pfalse 11] None []).
Definition pv_any : Pat := mkPat 4 (PatVec [] (Some (prest 21)) []).
Definition pv_two : Pat := mkPat 5 (PatVec [prest 12; prest 13] (Some (prest 22)) []).

Definition vec_tcx : ctxt := mkCtxt ∅
  (list_to_map [(1%N, tS); (2%N, tS); (3%N, tS); (4%N, tS); (5%N, tS); (10%N, ty_bool); (11%N, ty_bool);
                (12%N, ty_bool); (13%N, ty_bool); (20%N, tS); (21%N, tS); (22%N, tS)])
  (λ _, []) (λ _, []) (λ _, None) (λ _, None) (λ _, None).
Definition vec_cx : MatchCheckCtxt := mkMatchCheckCtxt vec_tcx ∅ (λ _, None) 5.

(** The exhaustiveness check accepts a match on a vector that misses values:
    the arms [[]], [[true, ..]] and [[false]] pass, but [[false, false]] is
    matched by none of them. *)
Theorem slice_patterns_not_exhaustive :
  check_exhaustive vec_cx 10 50 [pv_nil; pv_true; pv_false] [] = Ok (tt, []) ∧
  has_type vec_cx (λ _ _ _, []) (λ _ _, []) (VVec [VBool false; VBool false]) tS ∧
  Forall (λ p, pat_matches vec_cx p (VVec [VBool false; VBool false]) = false) [pv_nil; pv_true; pv_false].
Proof.
  split_and!.
  - vm_compute. reflexivity.
  - apply ht_vec; [|done]. repeat constructor.
  - repeat apply Forall_cons_2; try apply Forall_nil_2; reflexivity.
Qed.

(** The compiler crashes on a vector pattern that is longer than all before
    it and has a slice: after the arm [[..]], the row of [[a, b, ..]] cannot be
    specialized to the lengths the matrix mentions, and the [unwrap] fails. *)
Theorem longer_slice_pattern_crashes fuel :
  is_useful vec_cx (S (S (S fuel))) [[pv_any]] [pv_two] [] = Fail UnwrapNone.
Proof. reflexivity. Qed.

(** [static T: bool = 1 == 1;] and the patterns [T] and [_]. *)
Definition dT : DefId := mkDefId 0 60.
Definition pT : Pat := mkPat 1 (PatIdent by_value [6%N] None).
Definition eT : Expr :=
  mkExpr 61 (ExprBinary BiEq (ex_lit 62 (LitIntUnsuffixed 1)) (ex_lit 63 (LitIntUnsuffixed 1))).
Definition bool_tcx : ctxt := mkCtxt {[ 1%N := DefStatic dT false ]}
  (list_to_map [(1%N, ty_bool); (2%N, ty_bool); (61%N, ty_bool)])
  (λ _, []) (λ _, []) (λ d, if decide (d = dT) then Some eT else None) (λ _, None) (λ _, None).
Definition bool_cx : MatchCheckCtxt := mkMatchCheckCtxt bool_tcx ∅ (λ _, None) 5.

(** The compiler crashes on a [bool] static whose initializer is a
    comparison when it is used as a pattern: comparisons evaluate to an integer
    constant, and [missing_ctor] fails with "impossible case". *)
Theorem bool_static_pattern_crashes :
  node_types bool_tcx !! expr_id eT = Some ty_bool ∧
  check_arms bool_cx 10 [mkArm [pT] None ex_scrut; mkArm [prest 2] None ex_scrut] []
    = Fail ExplicitFail.
Proof. split; vm_compute; reflexivity. Qed.

(** [match n { 0u => .., 1 => .., _ => .. }] with [n] of type [uint]. *)
Definition p0 : Pat := mkPat 1 (PatLit (ex_lit 71 (LitUint 0 TyU))).
Definition p1 : Pat := mkPat 2 (PatLit (ex_lit 72 (LitIntUnsuffixed 1))).
Definition uint_tcx : ctxt := mkCtxt ∅
  (list_to_map [(1%N, ty_uint TyU); (2%N, ty_uint TyU); (3%N, ty_uint TyU)])
  (λ _, []) (λ _, []) (λ _, None) (λ _, None) (λ _, None).
Definition uint_cx : MatchCheckCtxt := mkMatchCheckCtxt uint_tcx ∅ (λ _, None) 5.

(** Two integer literals of one type, one with a suffix and one without,
    evaluate to constants of different kinds, so a match that uses both is
    rejected with "mismatched types between arms". *)
Theorem mixed_suffix_patterns_rejected :
  Forall (λ p, wt_pat uint_cx (λ _ _ _, []) (λ _ _, []) p (ty_uint TyU)) [p0; p1] ∧
  ∃ id, check_arms uint_cx 10 [mkArm [p0] None ex_scrut; mkArm [p1] None ex_scrut] []
        = Ok (tt, [(LevelError, id, Text "mismatched types between arms")]).
Proof.
  split.
  - repeat apply Forall_cons_2; try apply Forall_nil_2.
    + by apply (wt_lit _ _ _ _ _ (const_uint 0)).
    + by apply (wt_lit _ _ _ _ _ (const_int 1)).
  - eexists. vm_compute. reflexivity.
Qed.

(** ** Constants *)

(** The largest [i64] plus one. *)
Definition eMax : Expr :=
  mkExpr 80 (ExprBinary BiAdd (ex_lit 81 (LitIntUnsuffixed (2 ^ 63 - 1))) (ex_lit 82 (LitIntUnsuffixed 1))).

Lemma eval_const_in_range_witness :
  eval_const_expr_partial ex_tcx (λ _, None) 3 eMax = Ok (inl (const_int (- 2 ^ 63))) ∧
  result_ok (inl (const_int (- 2 ^ 63))).
Proof.
  split; [vm_compute; reflexivity|].
  apply (eval_const_in_range ex_tcx (λ _, None) (λ e e' H, ltac:(discriminate H)) 3 eMax).
  - split; vm_compute; reflexivity.
  - vm_compute. reflexivity.
Defined.
