(* ===== verification/DataFlow.v ===== *)
(** The bit-vector data flow framework of [src/librustc/middle/dataflow.rs]: bit
    sets stored in flat vectors of words, gen and kill sets per node, and the
    propagation over function bodies until nothing changes.  [debug!] output
    and the pretty printer are left out. *)

From stdpp Require Import prelude gmap list.
From S2P Require Import Prelude Ast RegionMaps Ty.

(** [uint::BITS] and [uint::MAX], for a 64-bit target. *)
Definition uint_bits : nat := 64.
Definition uint_max : N := 2 ^ 64 - 1.

Definition word_not (w : N) : N := N.lxor w uint_max.

(** ** Words *)

(** [bitwise]: the new words and whether any changed. *)
Definition bitwise (out_vec in_vec : list N) (op : N → N → N) : outcome (list N * bool) :=
  _ ← assert_ (length out_vec =? length in_vec);
  let new_vec := zip_with op out_vec in_vec in
  Ok (new_vec, negb (bool_decide (new_vec = out_vec))).

Definition copy_bits (in_vec out_vec : list N) : outcome (list N * bool) :=
  bitwise out_vec in_vec (λ _ b, b).

Definition set_bit (words : list N) (bit : nat) : outcome (list N * bool) :=
  let word := bit / uint_bits in
  let bit_in_word := bit mod uint_bits in
  let bit_mask := N.shiftl 1 (N.of_nat bit_in_word) in
  oldv ← vec_get words word;
  let newv := N.lor oldv bit_mask in
  words ← vec_set words word newv;
  Ok (words, negb (oldv =? newv)%N).

(** [slice(start, end)] and writing a slice back. *)
Definition slice (l : list N) (start end_ : nat) : outcome (list N) :=
  if (start <=? end_) && (end_ <=? length l) then Ok (take (end_ - start) (drop start l))
  else Fail IndexOutOfBounds.

Definition set_slice (l : list N) (start : nat) (new : list N) : list N :=
  take start l ++ new ++ drop (start + length new) l.

(** ** The context *)

(** [DataFlowOperator]. *)
Record DataFlowOperator := mkOperator { initial_value : bool; join : N → N → N }.

(** The operators of the borrow checker: loans, moves and assignments are in
    scope when they come from either predecessor. *)
Definition LoanDataFlowOperator : DataFlowOperator := mkOperator false (λ succ pred, N.lor succ pred).
Definition MoveDataFlowOperator : DataFlowOperator := mkOperator false (λ succ pred, N.lor succ pred).
Definition AssignDataFlowOperator : DataFlowOperator := mkOperator false (λ succ pred, N.lor succ pred).

Record DataFlowContext := mkDataFlowContext {
  bits_per_id : nat;
  words_per_id : nat;
  nodeid_to_bitset : gmap NodeId nat;
  gens : list N;
  kills : list N;
  on_entry : list N
}.

Definition set_gens (d : DataFlowContext) (g : list N) : DataFlowContext :=
  mkDataFlowContext (bits_per_id d) (words_per_id d) (nodeid_to_bitset d) g (kills d) (on_entry d).
Definition set_kills (d : DataFlowContext) (k : list N) : DataFlowContext :=
  mkDataFlowContext (bits_per_id d) (words_per_id d) (nodeid_to_bitset d) (gens d) k (on_entry d).
Definition set_on_entry (d : DataFlowContext) (e : list N) : DataFlowContext :=
  mkDataFlowContext (bits_per_id d) (words_per_id d) (nodeid_to_bitset d) (gens d) (kills d) e.

(** [DataFlowContext::new]. *)
Definition new_context (bits_per_id : nat) : DataFlowContext :=
  mkDataFlowContext bits_per_id ((bits_per_id + uint_bits - 1) / uint_bits) ∅ [] [] [].

Section context.
Context (oper : DataFlowOperator).

Definition entry_word : N := if initial_value oper then uint_max else 0.

(** The range of words of a node, which is allocated on first use. *)
Definition compute_id_range (d : DataFlowContext) (id : NodeId)
    : outcome (DataFlowContext * (nat * nat)) :=
  let len := size (nodeid_to_bitset d) in
  let w := words_per_id d in
  let '(d, n) :=
    match nodeid_to_bitset d !! id with
    | Some n => (d, n)
    | None => (mkDataFlowContext (bits_per_id d) w (<[id := len]> (nodeid_to_bitset d))
                 (gens d ++ replicate w 0%N) (kills d ++ replicate w 0%N)
                 (on_entry d ++ replicate w entry_word), len)
    end in
  let start := n * w in
  let end_ := start + w in
  _ ← assert_ (start <? length (gens d));
  _ ← assert_ (end_ <=? length (gens d));
  _ ← assert_ (length (gens d) =? length (kills d));
  _ ← assert_ (length (gens d) =? length (on_entry d));
  Ok (d, (start, end_)).

Definition compute_id_range_frozen (d : DataFlowContext) (id : NodeId) : outcome (nat * nat) :=
  match nodeid_to_bitset d !! id with
  | Some n => Ok (n * words_per_id d, n * words_per_id d + words_per_id d)
  | None => Fail ExplicitFail
  end.

Definition add_gen (d : DataFlowContext) (id : NodeId) (bit : nat) : outcome DataFlowContext :=
  r ← compute_id_range d id;
  let '(d, (start, end_)) := r in
  g ← slice (gens d) start end_;
  r ← set_bit g bit;
  Ok (set_gens d (set_slice (gens d) start r.1)).

Definition add_kill (d : DataFlowContext) (id : NodeId) (bit : nat) : outcome DataFlowContext :=
  r ← compute_id_range d id;
  let '(d, (start, end_)) := r in
  k ← slice (kills d) start end_;
  r ← set_bit k bit;
  Ok (set_kills d (set_slice (kills d) start r.1)).

Definition apply_gen_kill (d : DataFlowContext) (id : NodeId) (bits : list N)
    : outcome (DataFlowContext * list N) :=
  r ← compute_id_range d id;
  let '(d, (start, end_)) := r in
  gens ← slice (gens d) start end_;
  r ← bitwise bits gens N.lor;
  kills ← slice (kills d) start end_;
  r ← bitwise r.1 kills (λ a b, N.land a (word_not b));
  Ok (d, r.1).

Definition apply_kill (d : DataFlowContext) (id : NodeId) (bits : list N)
    : outcome (DataFlowContext * list N) :=
  r ← compute_id_range d id;
  let '(d, (start, end_)) := r in
  kills ← slice (kills d) start end_;
  r ← bitwise bits kills (λ a b, N.land a (word_not b));
  Ok (d, r.1).

(** [each_bit]: [f] on the set bits in order, until it returns [false] or the
    bits that stand for no value are reached. *)
Section each_bit.
Context {S : Type} (f : nat → S → outcome (S * bool)).

Inductive bit_flow := BitContinue | BitReturn (b : bool).

(** The loop over [offset]; the word is not 0. *)
Fixpoint each_bit_in_word (bits_per_id : nat) (word : N) (base_index : nat) (offsets : list nat) (s : S)
    : outcome (S * bit_flow) :=
  match offsets with
  | [] => Ok (s, BitContinue)
  | offset :: offsets' =>
      if negb (N.land word (N.shiftl 1 (N.of_nat offset)) =? 0)%N then
        let bit_index := base_index + offset in
        if bits_per_id <=? bit_index then Ok (s, BitReturn true)
        else
          r ← f bit_index s;
          if (r.2 : bool) then each_bit_in_word bits_per_id word base_index offsets' r.1
          else Ok (r.1, BitReturn false)
      else each_bit_in_word bits_per_id word base_index offsets' s
  end.

Fixpoint each_bit_from (bits_per_id word_index : nat) (words : list N) (s : S) : outcome (S * bool) :=
  match words with
  | [] => Ok (s, true)
  | word :: words' =>
      r ← (if negb (word =? 0)%N
           then each_bit_in_word bits_per_id word (word_index * uint_bits) (seq 0 uint_bits) s
           else Ok (s, BitContinue));
      match r.2 with
      | BitReturn b => Ok (r.1, b)
      | BitContinue => each_bit_from bits_per_id (word_index + 1) words' r.1
      end
  end.

Definition each_bit (d : DataFlowContext) (words : list N) (s : S) : outcome (S * bool) :=
  each_bit_from (bits_per_id d) 0 words s.

Definition each_bit_on_entry_frozen (d : DataFlowContext) (id : NodeId) (s : S) : outcome (S * bool) :=
  match nodeid_to_bitset d !! id with
  | None => Ok (s, true)
  | Some _ =>
      r ← compute_id_range_frozen d id;
      words ← slice (on_entry d) r.1 r.2;
      each_bit d words s
  end.

Definition each_gen_bit_frozen (d : DataFlowContext) (id : NodeId) (s : S) : outcome (S * bool) :=
  match nodeid_to_bitset d !! id with
  | None => Ok (s, true)
  | Some _ =>
      r ← compute_id_range_frozen d id;
      words ← slice (gens d) r.1 r.2;
      each_bit d words s
  end.
End each_bit.

(** ** Propagation *)

Record LoopScope := mkLoopScope { loop_id : NodeId; break_bits : list N }.

(** [PropagationContext], with the bits and the loops that its methods take as
    mutable references. *)
Record walk_state := mkWalk {
  dfcx : DataFlowContext;
  changed : bool;
  in_out : list N;
  loop_scopes : list LoopScope
}.

Abbreviation MW := (M walk_state).

Definition get_bits : MW (list N) := λ s, Ok (in_out s, s).
Definition put_bits (bits : list N) : MW unit := λ s,
  Ok (tt, mkWalk (dfcx s) (changed s) bits (loop_scopes s)).

(** Run a walk on another bit set: [self.walk(.., bits, ..)]. *)
Definition on_bits (bits : list N) (c : MW unit) : MW (list N) := λ s,
  r ← c (mkWalk (dfcx s) (changed s) bits (loop_scopes s));
  let s' := r.2 in
  Ok (in_out s', mkWalk (dfcx s') (changed s') (in_out s) (loop_scopes s')).

Definition reset_bits (bits : list N) : list N := (λ _, entry_word) <$> bits.
Definition reset : MW unit := bits ← get_bits; put_bits (reset_bits bits).

Definition join_bits (in_vec out_vec : list N) : outcome (list N * bool) :=
  bitwise out_vec in_vec (join oper).

(** [join_bits(&self.dfcx.oper, bits, in_out)]. *)
Definition join_into (bits : list N) : MW unit :=
  out ← get_bits;
  r ← lift (join_bits bits out);
  put_bits r.1.

Definition gen_kill (id : NodeId) : MW unit := λ s,
  r ← apply_gen_kill (dfcx s) id (in_out s);
  Ok (tt, mkWalk r.1 (changed s) r.2 (loop_scopes s)).

Definition kill (id : NodeId) : MW unit := λ s,
  r ← apply_kill (dfcx s) id (in_out s);
  Ok (tt, mkWalk r.1 (changed s) r.2 (loop_scopes s)).

Definition add_to_entry_set (id : NodeId) (pred_bits : list N) : MW unit := λ s,
  r ← compute_id_range (dfcx s) id;
  let '(d, (start, end_)) := r in
  entry ← slice (on_entry d) start end_;
  r ← join_bits pred_bits entry;
  Ok (tt, mkWalk (set_on_entry d (set_slice (on_entry d) start r.1)) (changed s || r.2)
            (in_out s) (loop_scopes s)).

Definition merge_with_entry_set (id : NodeId) : MW unit := λ s,
  r ← compute_id_range (dfcx s) id;
  let '(d, (start, end_)) := r in
  entry ← slice (on_entry d) start end_;
  j ← join_bits (in_out s) entry;
  c ← copy_bits j.1 (in_out s);
  Ok (tt, mkWalk (set_on_entry d (set_slice (on_entry d) start j.1)) (changed s || j.2)
            c.1 (loop_scopes s)).

Definition push_scope (sc : LoopScope) : MW unit := λ s,
  Ok (tt, mkWalk (dfcx s) (changed s) (in_out s) (loop_scopes s ++ [sc])).

(** [loop_scopes.pop().unwrap()]. *)
Definition pop_scope : MW LoopScope := λ s,
  sc ← unwrap (last (loop_scopes s));
  Ok (sc, mkWalk (dfcx s) (changed s) (in_out s) (take (length (loop_scopes s) - 1) (loop_scopes s))).

Section walk.
Context (tcx : ctxt) (region_maps : RegionMaps) (method_map : gset NodeId).

Definition is_method_call (expr : Expr) : bool := bool_decide (expr_id expr ∈ method_map).

Definition lazy_binop (b : BinOp) : bool := match b with BiAnd | BiOr => true | _ => false end.

(** The index of the loop a [break] or [loop] expression refers to. *)
Definition find_scope (id : NodeId) (label : option Name) (scopes : list LoopScope) : outcome nat :=
  match label with
  | None => match scopes with [] => Fail IndexOutOfBounds | _ => Ok (length scopes - 1) end
  | Some _ =>
      match def_map tcx !! id with
      | Some (DefLabel lid) =>
          match list_find (λ l, loop_id l = lid) scopes with
          | Some (i, _) => Ok i
          | None => Fail CompilerBug
          end
      | _ => Fail CompilerBug
      end
  end.

(** [while id != to_scope.loop_id]; the fuel bounds the number of scopes. *)
Fixpoint pop_scopes_loop (fuel : nat) (id to_loop : NodeId) : MW unit :=
  if (id =? to_loop)%N then mret tt else
  match fuel with
  | 0 => lift (Fail OutOfFuel)
  | S fuel' =>
      _ ← kill id;
      match opt_encl_scope region_maps id with
      | Some i => pop_scopes_loop fuel' i to_loop
      | None => lift (Fail CompilerBug)
      end
  end.

Definition pop_scopes (from_id to_loop : NodeId) : MW unit :=
  pop_scopes_loop (S (size (scope_map region_maps))) from_id to_loop.

Definition scope_at (i : nat) : MW LoopScope := λ s,
  sc ← vec_get (loop_scopes s) i; Ok (sc, s).

Definition set_break_bits (i : nat) (bits : list N) : MW unit := λ s,
  sc ← vec_get (loop_scopes s) i;
  Ok (tt, mkWalk (dfcx s) (changed s) (in_out s)
            (<[i := mkLoopScope (loop_id sc) bits]> (loop_scopes s))).

Definition break_from_to (from_id : NodeId) (i : nat) : MW unit :=
  to_scope ← scope_at i;
  _ ← pop_scopes from_id (loop_id to_scope);
  _ ← kill from_id;
  bits ← get_bits;
  r ← lift (join_bits bits (break_bits to_scope));
  set_break_bits i r.1.

Definition find_scope_m (id : NodeId) (label : option Name) : MW nat := λ s,
  i ← find_scope id label (loop_scopes s); Ok (i, s).

(** [fails]: the call does not return. *)
Definition after_call (call_id : NodeId) : MW unit :=
  return_ty ← lift (node_id_to_type tcx call_id);
  if type_is_bot return_ty then reset else mret tt.

Definition walk_pat (pat : Pat) : MW unit := λ s,
  r ← Ast.walk_pat (λ p s,
        r ← merge_with_entry_set (pat_id p) s;
        r ← gen_kill (pat_id p) r.2;
        Ok (r.2, true)) pat s;
  Ok (tt, r.1).

(** The alternatives of an arm, of which there is not exactly one. *)
Fixpoint walk_alternatives (initial_state : list N) (pats : list Pat) : MW unit :=
  match pats with
  | [] => mret tt
  | pat :: pats' =>
      temp ← on_bits initial_state (walk_pat pat);
      _ ← join_into temp;
      walk_alternatives initial_state pats'
  end.

Definition walk_pat_alternatives (pats : list Pat) : MW unit :=
  match pats with
  | [pat] => walk_pat pat
  | _ => initial_state ← get_bits; walk_alternatives initial_state pats
  end.

(** [for x in l.iter() { f(x) }]. *)
Fixpoint each {A} (f : A → MW unit) (l : list A) : MW unit :=
  match l with
  | [] => mret tt
  | x :: l' => _ ← f x; each f l'
  end.

Definition opt {A} (f : A → MW unit) (o : option A) : MW unit :=
  match o with Some x => f x | None => mret tt end.

(** The body of a loop, whose scope starts with the current bits as those of
    its breaks; the scope is returned when the loop is left. *)
Definition walk_loop_body (id : NodeId) (body_bits : list N) (body : MW unit) : MW LoopScope :=
  break_init ← get_bits;
  _ ← push_scope (mkLoopScope id break_init);
  body_bits ← on_bits body_bits body;
  _ ← add_to_entry_set id body_bits;
  pop_scope.

Definition copy_to_bits (bits : list N) : MW unit :=
  out ← get_bits;
  r ← lift (copy_bits bits out);
  put_bits r.1.

Fixpoint walk_expr (expr : Expr) : MW unit :=
  let id := expr_id expr in
  _ ← merge_with_entry_set id;
  _ ← match expr_node expr with
      | ExprFnBlock _ _ | ExprProc _ _ => mret tt
      | ExprIf cond then_ els =>
          _ ← walk_expr cond;
          then_bits ← get_bits;
          then_bits ← on_bits then_bits (walk_block then_);
          _ ← opt walk_expr els;
          join_into then_bits
      | ExprWhile cond blk =>
          _ ← walk_expr cond;
          body_bits ← get_bits;
          new_loop_scope ← walk_loop_body id body_bits (walk_block blk);
          copy_to_bits (break_bits new_loop_scope)
      | ExprForLoop _ _ _ _ => lift (Fail ExplicitFail)
      | ExprLoop blk _ =>
          body_bits ← get_bits;
          _ ← reset;
          new_loop_scope ← walk_loop_body id body_bits (walk_block blk);
          _ ← lift (assert_ (loop_id new_loop_scope =? id)%N);
          copy_to_bits (break_bits new_loop_scope)
      | ExprMatch discr arms =>
          _ ← walk_expr discr;
          guards ← get_bits;
          (* exactly one arm will be taken, so start out with a blank slate *)
          _ ← reset;
          (fix walk_arms (arms : list Arm) (guards : list N) : MW unit :=
             match arms with
             | [] => mret tt
             | mkArm pats guard body :: arms' =>
                 guards ← on_bits guards (opt walk_expr guard);
                 body ← on_bits guards (_ ← walk_pat_alternatives pats; walk_expr body);
                 _ ← join_into body;
                 walk_arms arms' guards
             end) arms guards
      | ExprRet o_e => _ ← opt walk_expr o_e; reset
      | ExprBreak label =>
          i ← find_scope_m id label;
          _ ← break_from_to id i;
          reset
      | ExprAgain label =>
          i ← find_scope_m id label;
          scope ← scope_at i;
          _ ← pop_scopes id (loop_id scope);
          bits ← get_bits;
          _ ← add_to_entry_set (loop_id scope) bits;
          reset
      | ExprAssign l r | ExprAssignOp _ l r => _ ← walk_expr r; walk_expr l
      | ExprVec exprs => each walk_expr exprs
      | ExprRepeat l r => _ ← walk_expr l; walk_expr r
      | ExprStruct _ fields with_expr =>
          _ ← each (λ f, match f with mkField _ e => walk_expr e end) fields;
          opt walk_expr with_expr
      | ExprCall f args => _ ← walk_expr f; _ ← each walk_expr args; after_call id
      | ExprMethodCall _ _ args => _ ← each walk_expr args; after_call id
      | ExprIndex l r =>
          if is_method_call expr then _ ← walk_expr l; _ ← walk_expr r; after_call id
          else _ ← walk_expr l; walk_expr r
      | ExprBinary op l r =>
          if is_method_call expr then _ ← walk_expr l; _ ← walk_expr r; after_call id
          else if lazy_binop op then
            _ ← walk_expr l;
            temp ← get_bits;
            _ ← walk_expr r;
            join_into temp
          else _ ← walk_expr l; walk_expr r
      | ExprUnary _ e =>
          if is_method_call expr then _ ← walk_expr e; after_call id else walk_expr e
      | ExprTup exprs => each walk_expr exprs
      | ExprLit _ | ExprPath _ => mret tt
      | ExprAddrOf _ e | ExprCast e _ | ExprParen e | ExprVstore_ e _ | ExprField e _ _ =>
          walk_expr e
      | ExprBox s e => _ ← walk_expr s; walk_expr e
      | ExprInlineAsm inputs outputs => _ ← each walk_expr inputs; each walk_expr outputs
      | ExprBlock blk => walk_block blk
      | ExprMac => lift (Fail CompilerBug)
      end;
  gen_kill id
with walk_block (blk : Block) : MW unit :=
  match blk with
  | mkBlock stmts expr id =>
      _ ← merge_with_entry_set id;
      _ ← each walk_stmt stmts;
      _ ← opt walk_expr expr;
      gen_kill id
  end
with walk_stmt (stmt : Stmt) : MW unit :=
  match stmt with
  | StmtDecl decl _ => walk_decl decl
  | StmtExpr expr _ | StmtSemi expr _ => walk_expr expr
  | StmtMac => lift (Fail CompilerBug)
  end
with walk_decl (decl : Decl) : MW unit :=
  match decl with
  | DeclLocal (mkLocal _ pat init _) => _ ← opt walk_expr init; walk_pat pat
  | DeclItem _ => mret tt
  end.

(** [while propcx.changed]: the contexts after passes until one changes
    nothing. *)
Fixpoint propagate_loop (fuel : nat) (blk : Block) (s : walk_state) : outcome DataFlowContext :=
  if negb (changed s) then Ok (dfcx s) else
  match fuel with
  | 0 => Fail OutOfFuel
  | S fuel' =>
      let s := mkWalk (dfcx s) false (in_out s) (loop_scopes s) in
      r ← (_ ← reset; walk_block blk) s;
      propagate_loop fuel' blk r.2
  end.

Definition propagate (fuel : nat) (d : DataFlowContext) (blk : Block) : outcome DataFlowContext :=
  if bits_per_id d =? 0 then Ok d
  else propagate_loop fuel blk (mkWalk d true (replicate (words_per_id d) 0%N) []).
End walk.
End context.
