(* ===== verification/FlowCmd.v ===== *)
(** The control flow of a function body as [dataflow.rs] sees it.  A body is
    compiled to a skeleton of ten constructs; [run] interprets the skeleton
    with the operations of the propagation, and walking the body is running
    its skeleton.  The paths of a skeleton give the analysis its meaning. *)

From stdpp Require Import prelude gmap list.
From S2P Require Import Prelude Ast RegionMaps Ty DataFlow.

Inductive cmd : Set :=
  | CSkip
  | CFail (w : failure)
  | CEnter (id : NodeId)
  | CExit (id : NodeId)
  | CSeq (a b : cmd)
  | CReset
  | CBranch (a b : cmd)
  | CLoop (endless : bool) (id : NodeId) (cond body : cmd)
  | CArms (exhaustive : bool) (l : arms)
  | CBreak (id : NodeId) (label : option Name)
  | CAgain (id : NodeId) (label : option Name)
with arms : Set :=
  | ANil
  | ACons (guard body : cmd) (l : arms).

Scheme cmd_mut := Induction for cmd Sort Prop
  with arms_mut := Induction for arms Sort Prop.
Combined Scheme cmd_arms_ind from cmd_mut, arms_mut.

(** ** Running a skeleton *)

Section run.
Context (oper : DataFlowOperator) (tcx : ctxt) (region_maps : RegionMaps).
Abbreviation MW := (M walk_state).

Fixpoint run (c : cmd) : MW unit :=
  match c with
  | CSkip => mret tt
  | CFail w => lift (Fail w)
  | CEnter id => merge_with_entry_set oper id
  | CExit id => gen_kill oper id
  | CSeq a b => _ ← run a; run b
  | CReset => reset oper
  | CBranch a b =>
      bits ← get_bits;
      bits ← on_bits bits (run a);
      _ ← run b;
      join_into oper bits
  | CLoop endless id cond body =>
      _ ← merge_with_entry_set oper id;
      _ ← run cond;
      body_bits ← get_bits;
      _ ← (if endless then reset oper else mret tt);
      sc ← walk_loop_body oper id body_bits (run body);
      _ ← (if endless then lift (assert_ (loop_id sc =? id)%N) else mret tt);
      copy_to_bits (break_bits sc)
  | CArms exhaustive l =>
      guards ← get_bits;
      _ ← (if exhaustive then reset oper else mret tt);
      run_arms l guards
  | CBreak id label =>
      i ← find_scope_m tcx id label;
      break_from_to oper region_maps id i
  | CAgain id label =>
      i ← find_scope_m tcx id label;
      scope ← scope_at i;
      _ ← pop_scopes oper region_maps id (loop_id scope);
      bits ← get_bits;
      add_to_entry_set oper (loop_id scope) bits
  end
with run_arms (l : arms) (guards : list N) : MW unit :=
  match l with
  | ANil => mret tt
  | ACons guard body l =>
      guards ← on_bits guards (run guard);
      bits ← on_bits guards (run body);
      _ ← join_into oper bits;
      run_arms l guards
  end.
End run.

(** ** The skeleton of a body *)

Section flow.
Context (tcx : ctxt) (method_map : gset NodeId).

Fixpoint flow_each {A} (f : A → cmd) (l : list A) : cmd :=
  match l with
  | [] => CSkip
  | x :: l' => CSeq (f x) (flow_each f l')
  end.

Definition flow_opt {A} (f : A → cmd) (o : option A) : cmd :=
  match o with Some x => f x | None => CSkip end.

(** The nodes of a pattern, from the outside in. *)
Fixpoint flow_pat (p : Pat) : cmd :=
  CSeq (CSeq (CEnter (pat_id p)) (CExit (pat_id p)))
    match pat_node p with
    | PatIdent _ _ (Some s) => flow_pat s
    | PatStruct _ fields _ => flow_each (λ f, flow_pat (field_pat f)) fields
    | PatEnum _ (Some ps) | PatTup ps => flow_each flow_pat ps
    | PatUniq s | PatRegion s => flow_pat s
    | PatVec before slice after =>
        CSeq (flow_each flow_pat before) (CSeq (flow_opt flow_pat slice) (flow_each flow_pat after))
    | PatWild | PatWildMulti | PatLit _ | PatRange _ _ | PatIdent _ _ None | PatEnum _ None => CSkip
    end.

Fixpoint flow_alternatives (pats : list Pat) : arms :=
  match pats with
  | [] => ANil
  | p :: pats' => ACons CSkip (flow_pat p) (flow_alternatives pats')
  end.

Definition flow_pats (pats : list Pat) : cmd :=
  match pats with
  | [p] => flow_pat p
  | _ => CArms false (flow_alternatives pats)
  end.

Definition flow_after_call (id : NodeId) : cmd :=
  match node_id_to_type tcx id with
  | Ok t => if type_is_bot t then CReset else CSkip
  | Fail w => CFail w
  end.

Fixpoint flow_expr (expr : Expr) : cmd :=
  let id := expr_id expr in
  let node c := CSeq (CEnter id) (CSeq c (CExit id)) in
  match expr_node expr with
  | ExprFnBlock _ _ | ExprProc _ _ => node CSkip
  | ExprIf cond then_ els =>
      node (CSeq (flow_expr cond) (CBranch (flow_block then_) (flow_opt flow_expr els)))
  | ExprWhile cond blk => CSeq (CLoop false id (flow_expr cond) (flow_block blk)) (CExit id)
  | ExprForLoop _ _ _ _ => node (CFail ExplicitFail)
  | ExprLoop blk _ => CSeq (CLoop true id CSkip (flow_block blk)) (CExit id)
  | ExprMatch discr l =>
      node (CSeq (flow_expr discr) (CArms true
        ((fix flow_arms (l : list Arm) : arms :=
            match l with
            | [] => ANil
            | mkArm pats guard body :: l' =>
                ACons (flow_opt flow_expr guard) (CSeq (flow_pats pats) (flow_expr body)) (flow_arms l')
            end) l)))
  | ExprRet o_e => node (CSeq (flow_opt flow_expr o_e) CReset)
  | ExprBreak label => node (CSeq (CBreak id label) CReset)
  | ExprAgain label => node (CSeq (CAgain id label) CReset)
  | ExprAssign l r | ExprAssignOp _ l r => node (CSeq (flow_expr r) (flow_expr l))
  | ExprVec exprs | ExprTup exprs => node (flow_each flow_expr exprs)
  | ExprRepeat l r => node (CSeq (flow_expr l) (flow_expr r))
  | ExprStruct _ fields with_expr =>
      node (CSeq (flow_each (λ f, match f with mkField _ e => flow_expr e end) fields)
              (flow_opt flow_expr with_expr))
  | ExprCall f args =>
      node (CSeq (flow_expr f) (CSeq (flow_each flow_expr args) (flow_after_call id)))
  | ExprMethodCall _ _ args => node (CSeq (flow_each flow_expr args) (flow_after_call id))
  | ExprIndex l r =>
      node (if is_method_call method_map expr
            then CSeq (flow_expr l) (CSeq (flow_expr r) (flow_after_call id))
            else CSeq (flow_expr l) (flow_expr r))
  | ExprBinary op l r =>
      node (if is_method_call method_map expr
            then CSeq (flow_expr l) (CSeq (flow_expr r) (flow_after_call id))
            else if lazy_binop op then CSeq (flow_expr l) (CBranch CSkip (flow_expr r))
            else CSeq (flow_expr l) (flow_expr r))
  | ExprUnary _ e =>
      node (if is_method_call method_map expr
            then CSeq (flow_expr e) (flow_after_call id) else flow_expr e)
  | ExprLit _ | ExprPath _ => node CSkip
  | ExprAddrOf _ e | ExprCast e _ | ExprParen e | ExprVstore_ e _ | ExprField e _ _ =>
      node (flow_expr e)
  | ExprBox s e => node (CSeq (flow_expr s) (flow_expr e))
  | ExprInlineAsm inputs outputs =>
      node (CSeq (flow_each flow_expr inputs) (flow_each flow_expr outputs))
  | ExprBlock blk => node (flow_block blk)
  | ExprMac => node (CFail CompilerBug)
  end
with flow_block (blk : Block) : cmd :=
  match blk with
  | mkBlock stmts expr id =>
      CSeq (CEnter id) (CSeq (flow_each flow_stmt stmts) (CSeq (flow_opt flow_expr expr) (CExit id)))
  end
with flow_stmt (stmt : Stmt) : cmd :=
  match stmt with
  | StmtDecl decl _ => flow_decl decl
  | StmtExpr expr _ | StmtSemi expr _ => flow_expr expr
  | StmtMac => CFail CompilerBug
  end
with flow_decl (decl : Decl) : cmd :=
  match decl with
  | DeclLocal (mkLocal _ pat init _) => CSeq (flow_opt flow_expr init) (flow_pat pat)
  | DeclItem _ => CSkip
  end.
End flow.

(** ** Walking is running the skeleton *)

Section walk_run.
Context (oper : DataFlowOperator) (tcx : ctxt) (region_maps : RegionMaps) (method_map : gset NodeId).
Abbreviation run := (run oper tcx region_maps).
Abbreviation walk_expr := (walk_expr oper tcx region_maps method_map).
Abbreviation walk_block := (walk_block oper tcx region_maps method_map).
Abbreviation walk_stmt := (walk_stmt oper tcx region_maps method_map).
Abbreviation walk_decl := (walk_decl oper tcx region_maps method_map).
Abbreviation flow_expr := (flow_expr tcx method_map).
Abbreviation flow_block := (flow_block tcx method_map).
Abbreviation flow_stmt := (flow_stmt tcx method_map).
Abbreviation flow_decl := (flow_decl tcx method_map).

(** The outcome of a skeleton, as a step of a pattern walk reports it. *)
Definition stepped (c : cmd) (s : walk_state) : outcome (walk_state * bool) :=
  match run c s with Ok (_, s') => Ok (s', true) | Fail w => Fail w end.

Lemma stepped_seq a b s :
  stepped (CSeq a b) s = match run a s with Ok (_, s') => stepped b s' | Fail w => Fail w end.
Proof. unfold stepped. simpl. unfold mbind, M_bind. by destruct (run a s) as [[[] s']|]. Qed.

Definition pat_step (p : Pat) (s : walk_state) : outcome (walk_state * bool) :=
  r ← merge_with_entry_set oper (pat_id p) s;
  r ← gen_kill oper (pat_id p) r.2;
  Ok (r.2, true).

Lemma pat_step_stepped p s : pat_step p s = stepped (CSeq (CEnter (pat_id p)) (CExit (pat_id p))) s.
Proof.
  rewrite stepped_seq. unfold pat_step, stepped. cbn [FlowCmd.run].
  destruct (merge_with_entry_set oper (pat_id p) s) as [[[] s']|]; [|done]. simpl.
  by destruct (gen_kill oper (pat_id p) s') as [[[] s2]|].
Qed.

Lemma advance_stepped {A} (f : A → walk_state → outcome (walk_state * bool)) (g : A → cmd) l s :
  (∀ x s, x ∈ l → f x s = stepped (g x) s) → advance f l s = stepped (flow_each g l) s.
Proof.
  revert s. induction l as [|x l IH]; intros s Hf; [done|]. cbn [advance flow_each].
  rewrite Hf by left. rewrite stepped_seq. unfold stepped at 1.
  destruct (run (g x) s) as [[[] s']|]; [|done]. simpl. apply IH. intros y s2 Hy. apply Hf. by right.
Qed.

Lemma walk_pat_steps p s : Ast.walk_pat pat_step p s = stepped (flow_pat p) s.
Proof.
  revert s. induction p as [p IH] using Pat_sub_ind. rewrite Forall_forall in IH. intros s.
  destruct p as [id node]. cbn [Ast.walk_pat flow_pat pat_node pat_id].
  rewrite stepped_seq, pat_step_stepped. unfold stepped at 1. cbn [pat_id].
  destruct (run (CSeq (CEnter id) (CExit id)) s) as [[[] s1]|]; [|done]. simpl.
  destruct node as [| |bm path [q|]|path [ps|]|path fields etc|ps|q|q|e|lo hi|before slice after];
    try reflexivity; try (apply IH; left).
  - apply advance_stepped. intros q s2 Hq. by apply IH.
  - apply (advance_stepped _ (λ f, flow_pat (field_pat f))). intros f s2 Hf. apply IH.
    apply list_elem_of_fmap. eauto.
  - apply advance_stepped. intros q s2 Hq. by apply IH.
  - rewrite stepped_seq, (advance_stepped _ flow_pat); [|intros q s2 Hq; apply IH, elem_of_app; by left].
    unfold stepped at 1. destruct (run (flow_each flow_pat before) s1) as [[[] s2]|]; [|done]. simpl.
    rewrite stepped_seq.
    assert (match slice with Some q => Ast.walk_pat pat_step q s2 | None => Ok (s2, true) end
      = stepped (flow_opt flow_pat slice) s2) as ->.
    { destruct slice as [q|]; [|done]. apply IH, elem_of_app. right. left. }
    unfold stepped at 1. destruct (run (flow_opt flow_pat slice) s2) as [[[] s3]|]; [|done]. simpl.
    apply advance_stepped. intros q s4 Hq. apply IH, elem_of_app. right. apply elem_of_app. by right.
Qed.

Lemma walk_pat_run p s : walk_pat oper p s = run (flow_pat p) s.
Proof.
  unfold walk_pat. change (λ (p : Pat) (s : walk_state), _) with pat_step at 1.
  rewrite walk_pat_steps. unfold stepped. by destruct (run (flow_pat p) s) as [[[] s']|].
Qed.

Lemma on_bits_ext bits (c c' : M walk_state unit) s :
  (∀ s, c s = c' s) → on_bits bits c s = on_bits bits c' s.
Proof. intros Hc. unfold on_bits. by rewrite Hc. Qed.

Lemma on_bits_skip bits s : on_bits bits (mret tt) s = Ok (bits, s).
Proof. by destruct s. Qed.

Lemma walk_pats_run pats s : walk_pat_alternatives oper pats s = run (flow_pats pats) s.
Proof.
  assert (∀ init s, walk_alternatives oper init pats s
    = run_arms oper tcx region_maps (flow_alternatives pats) init s) as Halt.
  { intros init. induction pats as [|p pats IH]; intros s'; [done|].
    cbn [walk_alternatives flow_alternatives run_arms FlowCmd.run].
    rewrite (M_bind_step _ _ _ _ _ (on_bits_skip init s')).
    apply M_bind_ext; [intros; by apply on_bits_ext, walk_pat_run|].
    intros temp s2. apply M_bind_ext; [done|]. intros []. apply IH. }
  destruct pats as [|p [|q pats]]; [|apply walk_pat_run|]; unfold walk_pat_alternatives, flow_pats;
    cbn [FlowCmd.run]; (apply M_bind_ext; [done|]); intros bits s'; rewrite Halt; by destruct s'.
Qed.

Definition runs (e : Expr) : Prop := ∀ s, walk_expr e s = run (flow_expr e) s.

Lemma each_run {A} (f : A → M walk_state unit) (g : A → cmd) l s :
  Forall (λ x, ∀ s, f x s = run (g x) s) l → each f l s = run (flow_each g l) s.
Proof.
  intros Hl. revert s. induction Hl as [|x l Hx _ IH]; intros s; [done|].
  cbn [each flow_each FlowCmd.run]. apply M_bind_ext; [done|]. intros []. apply IH.
Qed.

Lemma opt_run (o : option Expr) s :
  Forall runs (option_list o) → opt walk_expr o s = run (flow_opt flow_expr o) s.
Proof. destruct o as [e|]; [|done]. intros [He _]%Forall_cons. apply He. Qed.

Lemma stmt_run st s : Forall runs (stmt_exprs st) → walk_stmt st s = run (flow_stmt st) s.
Proof.
  intros Hs. destruct st as [[[ty pat init lid]|item] sid|e sid|e sid|]; simpl in Hs; try done.
  - cbn [DataFlow.walk_stmt DataFlow.walk_decl FlowCmd.flow_stmt FlowCmd.flow_decl FlowCmd.run].
    apply M_bind_ext; [intros; by apply opt_run|]. intros [] s'. apply walk_pat_run.
  - apply Forall_cons in Hs as [He _]. apply He.
  - apply Forall_cons in Hs as [He _]. apply He.
Qed.

Lemma block_run b s : Forall runs (block_exprs b) → walk_block b s = run (flow_block b) s.
Proof.
  intros Hb. destruct b as [stmts oe id]. apply Forall_app in Hb as [Hs He].
  cbn [DataFlow.walk_block FlowCmd.flow_block FlowCmd.run]. apply M_bind_ext; [done|]. intros [] s1.
  apply M_bind_ext.
  - intros s2. apply each_run. clear He. induction stmts as [|st stmts IH]; [constructor|].
    apply Forall_app in Hs as [Hst Hs]. constructor; [intros; by apply stmt_run|by apply IH].
  - intros [] s2. apply M_bind_ext; [|done]. intros s3. by apply opt_run.
Qed.

Lemma after_call_run id s : after_call oper tcx id s = run (flow_after_call tcx id) s.
Proof.
  unfold after_call, flow_after_call. destruct (node_id_to_type tcx id) as [t|]; [|done].
  rewrite lift_bind. by destruct (type_is_bot t).
Qed.

(** Walking an expression, by parts. *)
Ltac run_parts :=
  repeat first
    [ done | apply after_call_run | (by apply opt_run) | (by apply block_run)
    | (by apply each_run; eapply Forall_impl; [eassumption|]; intros ? Hrun; exact Hrun)
    | (apply on_bits_ext; intros ?)
    | match goal with H : runs ?e |- DataFlow.walk_expr _ _ _ _ ?e _ = _ => apply H end
    | (apply M_bind_ext; [intros ?|intros ? ?]) ].

Ltac split_runs H :=
  repeat match type of H with
  | Forall _ (_ :: _) => let H1 := fresh "Hr" in apply Forall_cons in H as [H1 H]
  | Forall _ (_ ++ _) => let H1 := fresh "Hl" in apply Forall_app in H as [H1 H]; try split_runs H1
  end.

Lemma walk_loop_body_ext id bits (c c' : M walk_state unit) s :
  (∀ s, c s = c' s) → walk_loop_body oper id bits c s = walk_loop_body oper id bits c' s.
Proof.
  intros Hc. unfold walk_loop_body. apply M_bind_ext; [done|]. intros b s1.
  apply M_bind_ext; [done|]. intros [] s2. apply M_bind_ext; [|done]. intros s3. by apply on_bits_ext.
Qed.

Lemma walk_expr_run e : runs e.
Proof.
  induction e as [e IH] using Expr_sub_ind. intros s. destruct e as [id node].
  cbn [DataFlow.walk_expr FlowCmd.flow_expr expr_id expr_node].
  destruct node; cbn [FlowCmd.run]; cbn [sub_exprs expr_node] in IH; split_runs IH; try (run_parts; fail).
  - destruct (is_method_call _ _); cbn [FlowCmd.run]; [run_parts|].
    destruct (lazy_binop op); cbn [FlowCmd.run]; [|run_parts].
    apply M_bind_ext; [done|]. intros [] s1. apply M_bind_ext; [|done]. intros s2.
    apply M_bind_ext; [done|]. intros [] s3. apply M_bind_ext; [done|]. intros bits s4.
    rewrite (M_bind_step _ _ _ _ _ (on_bits_skip bits s4)). run_parts.
  - destruct (is_method_call _ _); cbn [FlowCmd.run]; run_parts.
  - rewrite M_bind_assoc. apply M_bind_ext; [done|]. intros [] s1. rewrite !M_bind_assoc.
    apply M_bind_ext; [done|]. intros [] s2. rewrite !M_bind_assoc.
    apply M_bind_ext; [done|]. intros bits s3. rewrite !M_bind_assoc.
    rewrite M_ret_bind, !M_bind_assoc.
    apply M_bind_ext; [intros; by apply walk_loop_body_ext; intros; apply block_run|].
    intros sc s4. by rewrite !M_bind_assoc.
  - rewrite M_bind_assoc. apply M_bind_ext; [done|]. intros [] s1. rewrite !M_bind_assoc, M_ret_bind.
    rewrite !M_bind_assoc. apply M_bind_ext; [done|]. intros bits s2. rewrite !M_bind_assoc.
    apply M_bind_ext; [done|]. intros [] s3. rewrite !M_bind_assoc.
    apply M_bind_ext; [intros; by apply walk_loop_body_ext; intros; apply block_run|].
    intros sc s4. by rewrite !M_bind_assoc.
  - apply M_bind_ext; [done|]. intros [] s1. apply M_bind_ext; [|done]. intros s2.
    apply M_bind_ext; [done|]. intros [] s3. apply M_bind_ext; [done|]. intros guards s4.
    apply M_bind_ext; [done|]. intros [] s5. revert guards s5.
    match type of IH with Forall _ (?l0 ≫= _) => rename l0 into l end.
    induction l as [|[pats guard body] l IHl]; intros guards s5; [done|].
    cbn [run_arms]. apply Forall_app in IH as [Ha IH]. cbn [arm_exprs] in Ha. split_runs Ha.
    apply M_bind_ext; [intros; apply on_bits_ext; intros; by apply opt_run|]. intros g s6.
    apply M_bind_ext.
    + intros s7. apply on_bits_ext. intros s8. cbn [FlowCmd.run].
      apply M_bind_ext; [intros; apply walk_pats_run|]. intros []. done.
    + intros b s7. apply M_bind_ext; [done|]. intros []. by apply IHl.
  - destruct (is_method_call _ _); cbn [FlowCmd.run]; run_parts.
  - apply M_bind_ext; [done|]. intros [] s1. apply M_bind_ext; [|done]. intros s2.
    by rewrite M_bind_assoc.
  - apply M_bind_ext; [done|]. intros [] s1. apply M_bind_ext; [|done]. intros s2.
    rewrite M_bind_assoc. apply M_bind_ext; [done|]. intros i s3.
    rewrite M_bind_assoc. apply M_bind_ext; [done|]. intros sc s4.
    rewrite M_bind_assoc. apply M_bind_ext; [done|]. intros [] s5. by rewrite M_bind_assoc.
  - apply M_bind_ext; [done|]. intros [] s1. apply M_bind_ext; [|done]. intros s2.
    apply M_bind_ext; [intros s3|intros [] s3; by apply opt_run].
    apply (each_run _ (λ f, match f with mkField _ e => flow_expr e end)).
    clear -Hl. induction fields as [|[n e] fields IHf]; [constructor|].
    apply Forall_app in Hl as [[He _]%Forall_cons Hl]. constructor; [exact He|by apply IHf].
Qed.

(** Walking the block of a function is running its skeleton. *)
Lemma walk_block_run b s : walk_block b s = run (flow_block b) s.
Proof. apply block_run, Forall_forall. intros e _. apply walk_expr_run. Qed.
End walk_run.
