(* ===== verification/DataFlowBits.v ===== *)
(** The storage of the data flow framework: words as sets of bits, the flat
    tables as one bit set per node, and what the operations of
    [DataFlowContext] do to them. *)

From stdpp Require Import prelude gmap list.
From S2P Require Import Prelude Ast RegionMaps Ty DataFlow.

(** ** Words and their bits *)

Definition word_ok (x : N) : Prop := (x < 2 ^ 64)%N.

Definition words_ok (w : nat) (l : list N) : Prop := length l = w ∧ Forall word_ok l.

(** Bit [i] of a sequence of words. *)
Definition tb (l : list N) (i : nat) : bool :=
  N.testbit (nth (i / uint_bits) l 0%N) (N.of_nat (i mod uint_bits)).

Lemma word_ok_testbit x : word_ok x ↔ ∀ i, (64 ≤ i)%N → N.testbit x i = false.
Proof.
  unfold word_ok. split.
  - intros Hx i Hi. destruct (decide (x = 0%N)) as [->|Hne]; [apply N.bits_0|].
    apply N.bits_above_log2. apply N.log2_lt_pow2 in Hx; lia.
  - intros Hx. destruct (decide (x = 0%N)) as [->|Hne]; [done|].
    apply N.log2_lt_pow2; [lia|]. destruct (N.lt_ge_cases (N.log2 x) 64) as [|Hge]; [done|].
    specialize (Hx _ Hge). rewrite N.bit_log2 in Hx by done. done.
Qed.

Lemma word_ok_0 : word_ok 0.
Proof. done. Qed.

Lemma word_ok_max : word_ok uint_max.
Proof. done. Qed.

Lemma word_ext x y :
  word_ok x → word_ok y → (∀ i, i < 64 → N.testbit x (N.of_nat i) = N.testbit y (N.of_nat i)) → x = y.
Proof.
  intros Hx Hy Hxy. apply N.bits_inj. intros i. destruct (N.lt_ge_cases i 64) as [Hlt|Hge].
  - specialize (Hxy (N.to_nat i)). rewrite N2Nat.id in Hxy. apply Hxy. lia.
  - by rewrite (proj1 (word_ok_testbit x) Hx), (proj1 (word_ok_testbit y) Hy).
Qed.

Lemma tb_split l j k : k < 64 → tb l (j * 64 + k) = N.testbit (nth j l 0%N) (N.of_nat k).
Proof.
  intros Hk. unfold tb, uint_bits. rewrite Nat.div_add_l by lia.
  rewrite Nat.div_small, Nat.add_0_r by done.
  rewrite (Nat.add_comm (j * 64)), Nat.Div0.mod_add, Nat.mod_small by done. done.
Qed.

Lemma words_ext w l k :
  words_ok w l → words_ok w k → (∀ i, i < w * 64 → tb l i = tb k i) → l = k.
Proof.
  intros [Hl Hlo] [Hk Hko] Heq. apply list_eq_same_length with w; [done..|].
  intros j x y Hj Hx Hy. rewrite Forall_lookup in Hlo, Hko.
  apply word_ext; [by eapply Hlo|by eapply Hko|]. intros i Hi.
  specialize (Heq (j * 64 + i) ltac:(nia)). rewrite !tb_split in Heq by done.
  by rewrite (nth_lookup_Some _ _ _ _ Hx), (nth_lookup_Some _ _ _ _ Hy) in Heq.
Qed.

Lemma words_ok_replicate w x : word_ok x → words_ok w (replicate w x).
Proof. intros Hx. split; [apply length_replicate|by apply Forall_replicate]. Qed.

Lemma tb_replicate w x i : i < w * 64 → tb (replicate w x) i = N.testbit x (N.of_nat (i mod 64)).
Proof.
  intros Hi. unfold tb, uint_bits. erewrite nth_lookup_Some; [done|].
  apply lookup_replicate. split; [done|]. apply Nat.Div0.div_lt_upper_bound. lia.
Qed.

(** An operation on words that works bit by bit. *)
Definition op_ok (op : N → N → N) (f : bool → bool → bool) : Prop :=
  ∀ x y, word_ok x → word_ok y → word_ok (op x y) ∧
    ∀ i, i < 64 → N.testbit (op x y) (N.of_nat i) = f (N.testbit x (N.of_nat i)) (N.testbit y (N.of_nat i)).

Lemma lor_ok : op_ok N.lor orb.
Proof.
  intros x y Hx Hy. split; [|intros; apply N.lor_spec]. apply word_ok_testbit. intros i Hi.
  by rewrite N.lor_spec, (proj1 (word_ok_testbit x) Hx), (proj1 (word_ok_testbit y) Hy).
Qed.

Lemma testbit_max i : (i < 64)%N → N.testbit uint_max i = true.
Proof. intros Hi. unfold uint_max. rewrite N.sub_1_r, <-N.ones_equiv. by apply N.ones_spec_low. Qed.

Lemma and_not_ok : op_ok (λ a b, N.land a (word_not b)) (λ a b, a && negb b).
Proof.
  intros x y Hx Hy. split.
  - apply word_ok_testbit. intros i Hi. by rewrite N.land_spec, (proj1 (word_ok_testbit x) Hx).
  - intros i Hi. rewrite N.land_spec. unfold word_not. rewrite N.lxor_spec, testbit_max by lia.
    by rewrite xorb_true_r.
Qed.

Lemma snd_ok : op_ok (λ _ b, b) (λ _ b, b).
Proof. intros x y Hx Hy. done. Qed.

Lemma bitwise_spec w a b op f :
  op_ok op f → words_ok w a → words_ok w b →
  ∃ c ch, bitwise a b op = Ok (c, ch) ∧ words_ok w c ∧
    (∀ i, i < w * 64 → tb c i = f (tb a i) (tb b i)) ∧ (ch = false ↔ c = a).
Proof.
  intros Hop [Ha Hao] [Hb Hbo]. unfold bitwise. rewrite Ha, Hb, Nat.eqb_refl. simpl.
  eexists _, _. split; [reflexivity|]. rewrite Forall_lookup in Hao, Hbo. split_and!.
  - split; [rewrite length_zip_with; lia|]. apply Forall_lookup. intros j z Hz.
    apply lookup_zip_with_Some in Hz as (x & y & -> & Hx & Hy). apply (Hop x y); eauto.
  - intros i Hi. assert (i / 64 < w) as Hj by (apply Nat.Div0.div_lt_upper_bound; lia).
    unfold tb, uint_bits.
    destruct (lookup_lt_is_Some_2 a (i / 64)) as [x Hx]; [lia|].
    destruct (lookup_lt_is_Some_2 b (i / 64)) as [y Hy]; [lia|].
    rewrite (nth_lookup_Some _ _ _ _ Hx), (nth_lookup_Some _ _ _ _ Hy).
    rewrite (nth_lookup_Some _ _ _ (op x y)) by (apply lookup_zip_with_Some; eauto).
    apply (Hop x y); [by eapply Hao|by eapply Hbo|]. by apply Nat.mod_upper_bound.
  - rewrite negb_false_iff, bool_decide_eq_true. done.
Qed.

Lemma set_bit_spec w l bit :
  words_ok w l → bit < w * 64 →
  ∃ l' ch, set_bit l bit = Ok (l', ch) ∧ words_ok w l' ∧
    (∀ i, i < w * 64 → tb l' i = tb l i || (i =? bit)) ∧ ch = negb (tb l bit).
Proof.
  intros [Hl Hlo] Hbit. unfold set_bit.
  assert (bit / 64 < w) as Hj by (apply Nat.Div0.div_lt_upper_bound; lia).
  pose proof (Nat.mod_upper_bound bit 64 ltac:(done)) as Hmod.
  destruct (lookup_lt_is_Some_2 l (bit / 64)) as [x Hx]; [lia|].
  assert (word_ok x) as Hxo by (rewrite Forall_lookup in Hlo; by eapply Hlo).
  set (mask := N.shiftl 1 (N.of_nat (bit mod uint_bits))).
  assert (∀ i, N.testbit mask i = (i =? N.of_nat (bit mod 64))%N) as Hmask.
  { intros i. unfold mask. rewrite N.shiftl_1_l, N.pow2_bits_eqb. apply N.eqb_sym. }
  assert (word_ok (N.lor x mask)) as Hyo.
  { apply lor_ok; [done|]. apply word_ok_testbit. intros i Hi. rewrite Hmask. apply N.eqb_neq. lia. }
  assert (vec_get l (bit / uint_bits) = Ok x) as -> by (by apply vec_get_Ok). simpl_ok.
  rewrite vec_set_in by (change uint_bits with 64; lia). simpl_ok. change uint_bits with 64.
  eexists _, _. split; [reflexivity|]. split_and!.
  - split; [by rewrite length_insert|by apply Forall_insert].
  - intros i Hi. unfold tb at 1, uint_bits. rewrite nth_lookup.
    destruct (decide (i / 64 = bit / 64)) as [Heq|Hne].
    + rewrite Heq, list_lookup_insert_eq by lia. cbn [default from_option id]. rewrite N.lor_spec, Hmask. f_equal.
      * unfold tb, uint_bits. by rewrite Heq, (nth_lookup_Some _ _ _ _ Hx).
      * apply Bool.eq_iff_eq_true. rewrite N.eqb_eq, Nat.eqb_eq.
        rewrite Nat2N.inj_iff. split; [intros Hm|by intros ->].
        rewrite (Nat.div_mod_eq i 64), Heq, Hm. symmetry. apply Nat.div_mod_eq.
    + rewrite list_lookup_insert_ne, <-nth_lookup by done.
      rewrite (proj2 (Nat.eqb_neq i bit)) by (intros ->; done). symmetry. apply orb_false_r.
  - f_equal. unfold tb, uint_bits. rewrite (nth_lookup_Some _ _ _ _ Hx).
    apply Bool.eq_iff_eq_true. rewrite N.eqb_eq. split.
    + intros Heq. rewrite Heq, N.lor_spec, Hmask, N.eqb_refl. apply orb_true_r.
    + intros Htrue. apply N.bits_inj. intros i. rewrite N.lor_spec, Hmask.
      destruct (N.eqb_spec i (N.of_nat (bit mod 64))) as [->|]; [by rewrite Htrue|by rewrite orb_false_r].
Qed.

(** ** Operators *)

(** The join of one bit: union when bits start out clear, intersection when
    they start out set. *)
Definition joinb (init a b : bool) : bool := if init then a && b else a || b.

Class JoinOk (oper : DataFlowOperator) : Prop :=
  join_ok : op_ok (join oper) (joinb (initial_value oper)).

#[export] Instance LoanDataFlowOperator_ok : JoinOk LoanDataFlowOperator.
Proof. exact lor_ok. Qed.
#[export] Instance MoveDataFlowOperator_ok : JoinOk MoveDataFlowOperator.
Proof. exact lor_ok. Qed.
#[export] Instance AssignDataFlowOperator_ok : JoinOk AssignDataFlowOperator.
Proof. exact lor_ok. Qed.

Lemma joinb_comm init a b : joinb init a b = joinb init b a.
Proof. by destruct init, a, b. Qed.
Lemma joinb_idemp init a : joinb init a a = a.
Proof. by destruct init, a. Qed.
Lemma joinb_init init a : joinb init init a = a.
Proof. by destruct init, a. Qed.
Lemma joinb_top init a : joinb init (negb init) a = negb init.
Proof. by destruct init, a. Qed.

(** ** Tables *)

(** The bits of a node in a table: those at its index, or the default bits of
    a node that has no index yet. *)
Definition view (m : gmap NodeId nat) (w : nat) (dw : N) (t : list N) (id : NodeId) : list N :=
  match m !! id with
  | Some n => take w (drop (n * w) t)
  | None => replicate w dw
  end.

(** The indices are distinct and below the number of nodes. *)
Definition indexed (m : gmap NodeId nat) : Prop :=
  (∀ id n, m !! id = Some n → n < size m) ∧
  (∀ id id' n, m !! id = Some n → m !! id' = Some n → id = id').

Lemma take_drop_ok w n t k :
  words_ok (k * w) t → n < k → words_ok w (take w (drop (n * w) t)).
Proof.
  intros [Hl Ht] Hn. split; [rewrite length_take, length_drop; nia|].
  by apply Forall_take, Forall_drop.
Qed.

Lemma view_ok m w dw t id :
  indexed m → word_ok dw → words_ok (size m * w) t → words_ok w (view m w dw t id).
Proof.
  intros [Hm _] Hdw Ht. unfold view. destruct (m !! id) as [n|] eqn:Hid.
  - eapply take_drop_ok; [done|by eapply Hm].
  - by apply words_ok_replicate.
Qed.

Lemma slice_view m w dw t id n :
  indexed m → words_ok (size m * w) t → m !! id = Some n →
  slice t (n * w) (n * w + w) = Ok (view m w dw t id).
Proof.
  intros [Hm _] [Hl _] Hid. unfold slice, view. rewrite Hid. pose proof (Hm _ _ Hid) as Hn.
  rewrite (proj2 (Nat.leb_le _ _)) by lia. rewrite (proj2 (Nat.leb_le _ _)) by nia.
  simpl. by replace (n * w + w - n * w) with w by lia.
Qed.

Lemma indexed_alloc m id : indexed m → m !! id = None → indexed (<[id := size m]> m).
Proof.
  intros [Hm Hinj] Hid. unfold indexed. rewrite map_size_insert_None by done. split.
  - intros id' n [[-> <-]|[? H]]%lookup_insert_Some; [lia|]. apply Hm in H. lia.
  - intros id1 id2 n [[<- <-]|[? H1]]%lookup_insert_Some [[<- ?]|[? H2]]%lookup_insert_Some; [done| | |].
    + apply Hm in H2. lia.
    + subst. apply Hm in H1. lia.
    + by eapply Hinj.
Qed.

Lemma view_alloc m w dw t id id' :
  indexed m → words_ok (size m * w) t → m !! id = None →
  view (<[id := size m]> m) w dw (t ++ replicate w dw) id' = view m w dw t id'.
Proof.
  intros [Hm _] [Hl _] Hid. unfold view. destruct (decide (id = id')) as [<-|Hne].
  - rewrite lookup_insert_eq, Hid, <-Hl, drop_app_length. by rewrite take_ge by (by rewrite length_replicate).
  - rewrite lookup_insert_ne by done. destruct (m !! id') as [n|] eqn:Hid'; [|done].
    apply Hm in Hid'. rewrite drop_app_le, take_app_le; [done| |nia]. rewrite length_drop. nia.
Qed.

Lemma set_slice_ok w k n t new :
  words_ok (k * w) t → words_ok w new → n < k → words_ok (k * w) (set_slice t (n * w) new).
Proof.
  intros [Hl Ht] [Hn Hnew] Hk. unfold set_slice. split.
  - rewrite !length_app, length_take, length_drop. nia.
  - apply Forall_app_2; [by apply Forall_take|]. apply Forall_app_2; [done|by apply Forall_drop].
Qed.

Lemma lookup_set_slice t start new j :
  start + length new ≤ length t →
  set_slice t start new !! j
    = if decide (start ≤ j < start + length new) then new !! (j - start) else t !! j.
Proof.
  intros Hl. unfold set_slice. assert (length (take start t) = start) as Hs by (rewrite length_take; lia).
  case_decide as Hj.
  - rewrite lookup_app_r, Hs by lia. apply lookup_app_l. lia.
  - destruct (decide (j < start)).
    + rewrite lookup_app_l by lia. by apply lookup_take_lt.
    + rewrite !lookup_app_r by lia. rewrite lookup_drop, Hs. f_equal. lia.
Qed.

Lemma view_set_slice m w dw t new id n id' :
  indexed m → words_ok (size m * w) t → words_ok w new → m !! id = Some n →
  view m w dw (set_slice t (n * w) new) id' = if decide (id' = id) then new else view m w dw t id'.
Proof.
  intros [Hm Hinj] [Hl _] [Hn _] Hid. unfold view. pose proof (Hm _ _ Hid).
  assert (n * w + length new ≤ length t) by nia.
  case_decide as Hcase; [subst id'; rewrite Hid|destruct (m !! id') as [n'|] eqn:Hid'; [|done]].
  - apply list_eq. intros i. destruct (decide (i < w)).
    + rewrite lookup_take_lt, lookup_drop, lookup_set_slice by done.
      rewrite decide_True by lia. f_equal. lia.
    + rewrite lookup_take_ge by lia. symmetry. apply lookup_ge_None. lia.
  - assert (n ≠ n') by (intros ->; by eapply Hcase, Hinj).
    apply list_eq. intros i. destruct (decide (i < w)); [|by rewrite !lookup_take_ge by lia].
    rewrite !lookup_take_lt, !lookup_drop, lookup_set_slice by done.
    rewrite decide_False; [done|]. rewrite Hn. nia.
Qed.

(** ** Contexts *)

Record dfc_wf (d : DataFlowContext) : Prop := {
  wf_words : 0 < words_per_id d;
  wf_bits : bits_per_id d ≤ words_per_id d * 64;
  wf_index : indexed (nodeid_to_bitset d);
  wf_gens : words_ok (size (nodeid_to_bitset d) * words_per_id d) (gens d);
  wf_kills : words_ok (size (nodeid_to_bitset d) * words_per_id d) (kills d);
  wf_entry : words_ok (size (nodeid_to_bitset d) * words_per_id d) (on_entry d)
}.

Definition gen_set (d : DataFlowContext) : NodeId → list N :=
  view (nodeid_to_bitset d) (words_per_id d) 0 (gens d).
Definition kill_set (d : DataFlowContext) : NodeId → list N :=
  view (nodeid_to_bitset d) (words_per_id d) 0 (kills d).

Section contexts.
Context (oper : DataFlowOperator).

Definition entry_set (d : DataFlowContext) : NodeId → list N :=
  view (nodeid_to_bitset d) (words_per_id d) (entry_word oper) (on_entry d).

Lemma entry_word_ok : word_ok (entry_word oper).
Proof. unfold entry_word. by destruct (initial_value oper). Qed.

Lemma gen_set_ok d id : dfc_wf d → words_ok (words_per_id d) (gen_set d id).
Proof. intros []. by apply view_ok. Qed.
Lemma kill_set_ok d id : dfc_wf d → words_ok (words_per_id d) (kill_set d id).
Proof. intros []. by apply view_ok. Qed.
Lemma entry_set_ok d id : dfc_wf d → words_ok (words_per_id d) (entry_set d id).
Proof. intros []. apply view_ok; [done|apply entry_word_ok|done]. Qed.

(** The same sets for all nodes. *)
Record same_sets (d d' : DataFlowContext) : Prop := {
  same_bits : bits_per_id d' = bits_per_id d;
  same_words : words_per_id d' = words_per_id d;
  same_gens : ∀ id, gen_set d' id = gen_set d id;
  same_kills : ∀ id, kill_set d' id = kill_set d id;
  same_entry : ∀ id, entry_set d' id = entry_set d id
}.

Lemma words_ok_app w w' l l' : words_ok w l → words_ok w' l' → words_ok (w' + w) (l ++ l').
Proof. intros [??] [??]. split; [rewrite length_app; lia|by apply Forall_app_2]. Qed.

Lemma compute_id_range_spec d id :
  dfc_wf d →
  ∃ d' n, compute_id_range oper d id = Ok (d', (n * words_per_id d', n * words_per_id d' + words_per_id d'))
    ∧ nodeid_to_bitset d' !! id = Some n ∧ dfc_wf d' ∧ same_sets d d'.
Proof.
  intros Hwf. pose proof Hwf as [Hw Hb Hm Hg Hk He]. pose proof entry_word_ok as Hew.
  assert (∀ d n, dfc_wf d → nodeid_to_bitset d !! id = Some n →
    (let start := n * words_per_id d in
     let end_ := start + words_per_id d in
     _ ← assert_ (start <? length (gens d));
     _ ← assert_ (end_ <=? length (gens d));
     _ ← assert_ (length (gens d) =? length (kills d));
     _ ← assert_ (length (gens d) =? length (on_entry d));
     Ok (d, (start, end_))) = Ok (d, (n * words_per_id d, n * words_per_id d + words_per_id d))) as Hok.
  { clear. intros d n [Hw _ [Hm _] [Hg _] [Hk _] [He _]] Hid%Hm. cbv zeta.
    rewrite Hg, Hk, He, (proj2 (Nat.ltb_lt _ _)), (proj2 (Nat.leb_le _ _)), Nat.eqb_refl by nia. done. }
  unfold compute_id_range. destruct (nodeid_to_bitset d !! id) as [n|] eqn:Hid.
  - exists d, n. split; [by apply Hok|done].
  - set (d' := mkDataFlowContext _ _ _ _ _ _). exists d', (size (nodeid_to_bitset d)).
    assert (nodeid_to_bitset d' !! id = Some (size (nodeid_to_bitset d))) as Hid'
      by apply lookup_insert_eq.
    assert (dfc_wf d') as Hwf'.
    { constructor; simpl; [done|done|by apply indexed_alloc|..];
        rewrite map_size_insert_None by done; (apply words_ok_app; [done|by apply words_ok_replicate]). }
    split_and!; [by apply (Hok d')|done..|].
    constructor; [done|done|intros id'; by apply view_alloc..].
Qed.

Section slices.
Context (d : DataFlowContext) (id : NodeId) (n : nat).
Context (Hwf : dfc_wf d) (Hid : nodeid_to_bitset d !! id = Some n).

Lemma slice_gens : slice (gens d) (n * words_per_id d) (n * words_per_id d + words_per_id d) = Ok (gen_set d id).
Proof using Hwf Hid. destruct Hwf. by apply slice_view. Qed.
Lemma slice_kills : slice (kills d) (n * words_per_id d) (n * words_per_id d + words_per_id d) = Ok (kill_set d id).
Proof using Hwf Hid. destruct Hwf. by apply slice_view. Qed.
Lemma slice_entry : slice (on_entry d) (n * words_per_id d) (n * words_per_id d + words_per_id d) = Ok (entry_set d id).
Proof using Hwf Hid. destruct Hwf. by apply slice_view. Qed.
End slices.

(** The range of a node is allocated first in every operation. *)
Ltac open_range d id Hwf :=
  let d1 := fresh "d1" in let n := fresh "n" in let Hr := fresh "Hr" in
  destruct (compute_id_range_spec d id Hwf) as (d1 & n & Hr & Hid & Hwf1 & Hsame);
  rewrite Hr; clear Hr; simpl_ok;
  pose proof (same_words _ _ Hsame) as Hw1.

Lemma add_gen_spec d id bit :
  dfc_wf d → bit < bits_per_id d →
  ∃ d', add_gen oper d id bit = Ok d' ∧ dfc_wf d' ∧ words_per_id d' = words_per_id d ∧ bits_per_id d' = bits_per_id d ∧
    (∀ id', kill_set d' id' = kill_set d id') ∧ (∀ id', entry_set d' id' = entry_set d id') ∧
    ∀ id' i, i < words_per_id d * 64 →
      tb (gen_set d' id') i = tb (gen_set d id') i || (bool_decide (id' = id) && (i =? bit)).
Proof.
  intros Hwf Hbit. unfold add_gen. open_range d id Hwf. destruct Hsame as [Hb _ Hsg Hsk Hse].
  pose proof Hwf1 as [? Hb1 Hm Hg Hk He].
  rewrite (slice_gens d1 id n) by done. simpl_ok.
  destruct (set_bit_spec _ _ bit (gen_set_ok d1 id Hwf1)) as (l' & ch & -> & Hl' & Hbits & _); [lia|].
  simpl_ok. eexists. split; [done|]. split_and!; [|done|done|done|done|].
  - constructor; simpl; try done. apply set_slice_ok; [done..|]. by apply Hm in Hid.
  - intros id' i Hi. unfold gen_set at 1. simpl. rewrite (view_set_slice _ _ _ _ _ id) by done.
    case_decide as Hcase; [subst id'; rewrite (bool_decide_eq_true_2 (id = id)) by done|rewrite bool_decide_eq_false_2 by done].
    + rewrite Hbits by lia. by rewrite Hsg.
    + simpl. rewrite orb_false_r. fold (gen_set d1 id'). by rewrite Hsg.
Qed.

Lemma add_kill_spec d id bit :
  dfc_wf d → bit < bits_per_id d →
  ∃ d', add_kill oper d id bit = Ok d' ∧ dfc_wf d' ∧ words_per_id d' = words_per_id d ∧ bits_per_id d' = bits_per_id d ∧
    (∀ id', gen_set d' id' = gen_set d id') ∧ (∀ id', entry_set d' id' = entry_set d id') ∧
    ∀ id' i, i < words_per_id d * 64 →
      tb (kill_set d' id') i = tb (kill_set d id') i || (bool_decide (id' = id) && (i =? bit)).
Proof.
  intros Hwf Hbit. unfold add_kill. open_range d id Hwf. destruct Hsame as [Hb _ Hsg Hsk Hse].
  pose proof Hwf1 as [? Hb1 Hm Hg Hk He].
  rewrite (slice_kills d1 id n) by done. simpl_ok.
  destruct (set_bit_spec _ _ bit (kill_set_ok d1 id Hwf1)) as (l' & ch & -> & Hl' & Hbits & _); [lia|].
  simpl_ok. eexists. split; [done|]. split_and!; [|done|done|done|done|].
  - constructor; simpl; try done. apply set_slice_ok; [done..|]. by apply Hm in Hid.
  - intros id' i Hi. unfold kill_set at 1. simpl. rewrite (view_set_slice _ _ _ _ _ id) by done.
    case_decide as Hcase; [subst id'; rewrite (bool_decide_eq_true_2 (id = id)) by done|rewrite bool_decide_eq_false_2 by done].
    + rewrite Hbits by lia. by rewrite Hsk.
    + simpl. rewrite orb_false_r. fold (kill_set d1 id'). by rewrite Hsk.
Qed.

(** What leaving a node does to one bit. *)
Definition transfer (gen kill b : bool) : bool := (b || gen) && negb kill.

Lemma apply_kill_spec d id bits :
  dfc_wf d → words_ok (words_per_id d) bits →
  ∃ d' bits', apply_kill oper d id bits = Ok (d', bits') ∧ dfc_wf d' ∧ same_sets d d' ∧
    words_ok (words_per_id d) bits' ∧
    ∀ i, i < words_per_id d * 64 → tb bits' i = tb bits i && negb (tb (kill_set d id) i).
Proof.
  intros Hwf Hbits. unfold apply_kill. open_range d id Hwf. pose proof Hwf1 as [? Hb1 Hm Hg Hk He].
  rewrite (slice_kills d1 id n) by done. simpl_ok.
  rewrite (same_kills _ _ Hsame).
  destruct (bitwise_spec _ _ _ _ _ and_not_ok Hbits (kill_set_ok d id Hwf)) as (c & ch & -> & Hc & Htb & _).
  simpl_ok. eauto 10.
Qed.

Lemma apply_gen_kill_spec d id bits :
  dfc_wf d → words_ok (words_per_id d) bits →
  ∃ d' bits', apply_gen_kill oper d id bits = Ok (d', bits') ∧ dfc_wf d' ∧ same_sets d d' ∧
    words_ok (words_per_id d) bits' ∧
    ∀ i, i < words_per_id d * 64 →
      tb bits' i = transfer (tb (gen_set d id) i) (tb (kill_set d id) i) (tb bits i).
Proof.
  intros Hwf Hbits. unfold apply_gen_kill. open_range d id Hwf. pose proof Hwf1 as [? Hb1 Hm Hg Hk He].
  rewrite (slice_gens d1 id n) by done. simpl_ok.
  rewrite (same_gens _ _ Hsame).
  destruct (bitwise_spec _ _ _ _ _ lor_ok Hbits (gen_set_ok d id Hwf)) as (a & ch & -> & Ha & Hat & _).
  simpl_ok. rewrite (slice_kills d1 id n) by done. simpl_ok.
  rewrite (same_kills _ _ Hsame).
  destruct (bitwise_spec _ _ _ _ _ and_not_ok Ha (kill_set_ok d id Hwf)) as (c & ch' & -> & Hc & Htb & _).
  simpl_ok. eexists _, _. split_and!; [done..|]. intros i Hi. by rewrite Htb, Hat.
Qed.
End contexts.

(** ** Enumerating bits *)

Lemma land_bit x k : negb (N.land x (N.shiftl 1 k) =? 0)%N = N.testbit x k.
Proof.
  destruct (N.testbit x k) eqn:Hk.
  - apply negb_true_iff, N.eqb_neq. intros H0. assert (N.testbit (N.land x (N.shiftl 1 k)) k = true) as Hb.
    { by rewrite N.land_spec, Hk, N.shiftl_1_l, N.pow2_bits_true. }
    by rewrite H0, N.bits_0 in Hb.
  - apply negb_false_iff, N.eqb_eq, N.bits_inj. intros j.
    rewrite N.land_spec, N.shiftl_1_l, N.pow2_bits_eqb, N.bits_0.
    destruct (N.eqb_spec k j) as [->|]; [by rewrite Hk|apply andb_false_r].
Qed.

(** The members of a set of bits. *)
Definition bits_of (n : nat) (words : list N) : list nat := List.filter (tb words) (seq 0 n).

Lemma filter_false {A} (p : A → bool) l : (∀ x, In x l → p x = false) → List.filter p l = [].
Proof. induction l as [|x l IH]; intros Hp; simpl; [done|]. rewrite Hp by (by left). apply IH. intros; apply Hp. by right. Qed.

Section each_bit.
Context {S : Type} (f : nat → S → outcome (S * bool)) (n : nat).

Definition advance_then (l : list nat) (k : S → outcome (S * bool)) (s : S) : outcome (S * bool) :=
  r ← advance f l s;
  if (r.2 : bool) then k r.1 else Ok (r.1, false).

Lemma advance_then_ext l k k' s : (∀ s, k s = k' s) → advance_then l k s = advance_then l k' s.
Proof. intros Hk. unfold advance_then. destruct (advance f l s) as [[s' [|]]|]; simpl; auto. Qed.

Lemma advance_app l l' s : advance f (l ++ l') s = advance_then l (advance f l') s.
Proof.
  unfold advance_then. induction l as [|x l IH] in s |- *; simpl; [by destruct (advance f l' s)|].
  destruct (f x s) as [[s' [|]]|]; simpl; [apply IH|done..].
Qed.

Lemma each_bit_in_word_spec word base k m o s :
  o + m = 64 → (n < base + 64 → ∀ s, k s = Ok (s, true)) →
  (r ← each_bit_in_word f n word base (seq o m) s;
   match r.2 with BitReturn b => Ok (r.1, b) | BitContinue => k r.1 end)
  = advance_then (List.filter (λ i, (i <? n) && N.testbit word (N.of_nat (i - base))) (seq (base + o) m)) k s.
Proof.
  intros Hom Hk. induction m as [|m IH] in o, Hom, s |- *; [done|]. cbn [seq each_bit_in_word List.filter].
  rewrite land_bit. replace (base + o - base) with o by lia.
  destruct (N.testbit word (N.of_nat o)) eqn:Hbit.
  - rewrite andb_true_r. destruct (Nat.leb_spec n (base + o)) as [Hn|Hn].
    + rewrite (proj2 (Nat.ltb_ge (base + o) n)) by done. rewrite filter_false.
      * unfold advance_then. simpl_ok. cbn [advance]. simpl_ok. symmetry. apply Hk. lia.
      * intros i Hi%in_seq. rewrite (proj2 (Nat.ltb_ge i n)) by lia. done.
    + rewrite (proj2 (Nat.ltb_lt (base + o) n)) by done. unfold advance_then. cbn [advance].
      destruct (f (base + o) s) as [[s' [|]]|]; simpl_ok; [|done..].
      rewrite IH by lia. unfold advance_then. by rewrite Nat.add_succ_r.
  - rewrite andb_false_r, IH by lia. by rewrite Nat.add_succ_r.
Qed.

Lemma tb_cons_lt x l i : i < 64 → tb (x :: l) i = N.testbit x (N.of_nat i).
Proof. intros Hi. rewrite <-(Nat.add_0_l i), <-(Nat.mul_0_l 64). by apply tb_split. Qed.

Lemma tb_cons_ge x l i : 64 ≤ i → tb (x :: l) i = tb l (i - 64).
Proof.
  intros Hi. unfold tb, uint_bits. replace i with (i - 64 + 1 * 64) at 1 2 by lia.
  rewrite Nat.div_add, Nat.Div0.mod_add by done. rewrite Nat.add_1_r. done.
Qed.

Lemma each_bit_from_spec words idx s :
  each_bit_from f n idx words s
  = advance f (List.filter (λ i, (i <? n) && tb words (i - idx * 64)) (seq (idx * 64) (length words * 64))) s.
Proof.
  induction words as [|word words IH] in idx, s |- *; [done|]. cbn [each_bit_from length].
  replace (Datatypes.S (length words) * 64) with (64 + length words * 64) by lia.
  rewrite seq_app, List.filter_app, advance_app.
  assert (List.filter (λ i, (i <? n) && tb (word :: words) (i - idx * 64)) (seq (idx * 64) 64)
    = List.filter (λ i, (i <? n) && N.testbit word (N.of_nat (i - idx * 64))) (seq (idx * 64 + 0) 64)) as ->.
  { rewrite Nat.add_0_r. apply filter_ext_in. intros i Hi%in_seq. by rewrite tb_cons_lt by lia. }
  assert (∀ s, each_bit_from f n (idx + 1) words s
    = advance f (List.filter (λ i, (i <? n) && tb (word :: words) (i - idx * 64))
        (seq (idx * 64 + 64) (length words * 64))) s) as Htail.
  { intros s'. rewrite IH. replace ((idx + 1) * 64) with (idx * 64 + 64) by lia. f_equal.
    apply filter_ext_in. intros i Hi%in_seq. rewrite tb_cons_ge by lia. do 2 f_equal. lia. }
  assert (n < idx * 64 + 64 → ∀ s, each_bit_from f n (idx + 1) words s = Ok (s, true)) as Hend.
  { intros Hn s'. rewrite Htail, filter_false; [done|]. intros i Hi%in_seq.
    rewrite (proj2 (Nat.ltb_ge i n)) by lia. done. }
  rewrite <-(advance_then_ext _ _ _ s Htail).
  destruct (N.eqb_spec word 0) as [->|Hne]; simpl negb; cbv iota.
  - simpl_ok. rewrite filter_false; [done|]. intros i _. by rewrite N.bits_0, andb_false_r.
  - by apply each_bit_in_word_spec.
Qed.

Lemma each_bit_spec w d words s :
  words_ok w words → n ≤ w * 64 → bits_per_id d = n → each_bit f d words s = advance f (bits_of n words) s.
Proof.
  intros [Hl _] Hn Hd. unfold each_bit. rewrite Hd, each_bit_from_spec, Hl. f_equal.
  replace (w * 64) with (n + (w * 64 - n)) by lia. rewrite seq_app, List.filter_app.
  rewrite (filter_false _ (seq _ (_ - _))).
  - rewrite app_nil_r. apply filter_ext_in. intros i Hi%in_seq. rewrite (proj2 (Nat.ltb_lt i n)) by lia.
    simpl. f_equal. lia.
  - intros i Hi%in_seq. rewrite (proj2 (Nat.ltb_ge i n)) by lia. done.
Qed.
End each_bit.
