(* ===== verification/FlowPaths.v ===== *)
(** The paths of a function body, through its skeleton, and what they do to a
    bit: the specification that [DataFlowContext::propagate] is held to. *)

From stdpp Require Import prelude gmap list.
From S2P Require Import Prelude Ast RegionMaps Ty DataFlow DataFlowBits FlowCmd.

(** ** Events *)

(** What happens on a path: a node is entered, a node is left, or a scope is
    popped by a jump out of it. *)
Inductive event :=
  | Visit (id : NodeId)
  | Leave (id : NodeId)
  | Pop (id : NodeId).

(** How a path through a part of the body ends: at its end, by a jump to the
    loop of a given index, or before its end. *)
Inductive ending := Normal | Break (i : nat) | Again (i : nat) | Stopped.

#[export] Instance ending_eq_dec : EqDecision ending.
Proof. solve_decision. Defined.

Section bit.
Context (gen kill : NodeId → bool).

(** One bit after an event, and after a path. *)
Definition after_event (b : bool) (ev : event) : bool :=
  match ev with
  | Visit _ => b
  | Leave id => transfer (gen id) (kill id) b
  | Pop id => b && negb (kill id)
  end.

Definition after (t : list event) (b : bool) : bool := fold_left after_event t b.

Lemma after_app t t' b : after (t ++ t') b = after t' (after t b).
Proof. apply fold_left_app. Qed.

(** Every visit of the path satisfies [P], given the bit at that time. *)
Fixpoint visits (P : NodeId → bool → Prop) (t : list event) (b : bool) : Prop :=
  match t with
  | [] => True
  | ev :: t' => match ev with Visit id => P id b | _ => True end ∧ visits P t' (after_event b ev)
  end.

Lemma visits_app P t t' b : visits P (t ++ t') b ↔ visits P t b ∧ visits P t' (after t b).
Proof. induction t as [|ev t IH] in b |- *; simpl; [naive_solver|]. rewrite IH. tauto. Qed.

Lemma visits_mono (P Q : NodeId → bool → Prop) t b :
  (∀ id b, P id b → Q id b) → visits P t b → visits Q t b.
Proof.
  intros HPQ. induction t as [|ev t IH] in b |- *; simpl; [done|]. intros [Hev Ht].
  split; [destruct ev; auto|auto].
Qed.
End bit.

(** ** Paths *)

Section paths.
Context (tcx : ctxt) (region_maps : RegionMaps).

(** The loop a jump refers to, among the enclosing loops, outermost first. *)
Definition target (ls : list NodeId) (id : NodeId) (label : option Name) : option nat :=
  match label with
  | None => match ls with [] => None | _ => Some (length ls - 1) end
  | Some _ =>
      match def_map tcx !! id with
      | Some (DefLabel lid) => fst <$> list_find (λ l, l = lid) ls
      | _ => None
      end
  end.

(** The scopes from a node up to, and without, a loop around it. *)
Fixpoint climb (fuel : nat) (id to_loop : NodeId) : option (list NodeId) :=
  if (id =? to_loop)%N then Some [] else
  match fuel with
  | 0 => None
  | S fuel' =>
      i ← opt_encl_scope region_maps id;
      l ← climb fuel' i to_loop;
      Some (id :: l)
  end.

Definition scopes_between (from_id to_loop : NodeId) : option (list NodeId) :=
  climb (S (size (scope_map region_maps))) from_id to_loop.

(** The iterations of a loop, given the paths of its condition and its body;
    [depth] is the number of the loops around it. *)
Section loop.
Context (endless : bool) (id : NodeId) (depth : nat) (cond body : list event → ending → Prop).

Inductive loop_path : list event → ending → Prop :=
  | loop_stopped : loop_path [] Stopped
  | loop_cond_exits t k : cond t k → k ≠ Normal → loop_path (Visit id :: t) k
  | loop_ends t : endless = false → cond t Normal → loop_path (Visit id :: t) Normal
  | loop_body_exits t t' k :
      cond t Normal → body t' k → k ∉ [Normal; Again depth; Break depth] → loop_path (Visit id :: t ++ t') k
  | loop_breaks t t' :
      cond t Normal → body t' (Break depth) → loop_path (Visit id :: t ++ t') Normal
  | loop_iterates t t' k t'' k' :
      cond t Normal → body t' k → k ∈ [Normal; Again depth] → loop_path t'' k' →
      loop_path (Visit id :: t ++ t' ++ t'') k'.
End loop.

(** The paths through a skeleton inside the loops [ls].  The arms of a match are
    tried in order.  If the pattern of an arm does not match, its guard is not
    evaluated and the next arm is tried; if it does, the guard is evaluated, and
    then the next arm is tried, or the arm is taken.  The nodes of a pattern stand
    for binding its variables, which happens when the arm is taken (an arm with a
    guard cannot bind by move). *)
Fixpoint path (ls : list NodeId) (c : cmd) (t : list event) (k : ending) : Prop :=
  (t = [] ∧ k = Stopped) ∨
  match c with
  | CSkip => t = [] ∧ k = Normal
  | CFail _ | CReset => False
  | CEnter id => t = [Visit id] ∧ k = Normal
  | CExit id => t = [Leave id] ∧ k = Normal
  | CSeq a b =>
      (path ls a t k ∧ k ≠ Normal) ∨
      ∃ t1 t2, t = t1 ++ t2 ∧ path ls a t1 Normal ∧ path ls b t2 k
  | CBranch a b => path ls a t k ∨ path ls b t k
  | CLoop endless id cond body =>
      loop_path endless id (length ls) (path ls cond) (path (ls ++ [id]) body) t k
  | CArms exhaustive l => (exhaustive = false ∧ t = [] ∧ k = Normal) ∨ path_arms ls l t k
  | CBreak id label =>
      ∃ i lid l, target ls id label = Some i ∧ ls !! i = Some lid ∧ scopes_between id lid = Some l ∧
        t = (Pop <$> l) ++ [Pop id] ∧ k = Break i
  | CAgain id label =>
      ∃ i lid l, target ls id label = Some i ∧ ls !! i = Some lid ∧ scopes_between id lid = Some l ∧
        t = Pop <$> l ∧ k = Again i
  end
with path_arms (ls : list NodeId) (l : arms) (t : list event) (k : ending) : Prop :=
  match l with
  | ANil => False
  | ACons guard body l' =>
      path_arms ls l' t k ∨
      (path ls guard t k ∧ k ≠ Normal) ∨
      ∃ t1 t2, t = t1 ++ t2 ∧ path ls guard t1 Normal ∧ (path ls body t2 k ∨ path_arms ls l' t2 k)
  end.

Lemma path_stop ls c : path ls c [] Stopped.
Proof. by destruct c; left. Qed.
Lemma path_skip ls : path ls CSkip [] Normal.
Proof. by right. Qed.
Lemma path_enter ls id : path ls (CEnter id) [Visit id] Normal.
Proof. by right. Qed.
Lemma path_exit ls id : path ls (CExit id) [Leave id] Normal.
Proof. by right. Qed.
Lemma path_seq ls a b t t' k : path ls a t Normal → path ls b t' k → path ls (CSeq a b) (t ++ t') k.
Proof. intros Ha Hb. right. right. eauto. Qed.
Lemma path_seq_exit ls a b t k : path ls a t k → k ≠ Normal → path ls (CSeq a b) t k.
Proof. intros Ha Hk. right. by left. Qed.
Lemma path_branch_l ls a b t k : path ls a t k → path ls (CBranch a b) t k.
Proof. intros Ha. right. by left. Qed.
Lemma path_branch_r ls a b t k : path ls b t k → path ls (CBranch a b) t k.
Proof. intros Hb. right. by right. Qed.
Lemma path_eq ls c t t' k : path ls c t k → t = t' → path ls c t' k.
Proof. by intros ? ->. Qed.

(** ** Guards *)

(** Every guard of the skeleton can be passed on a path that [keeps] what is
    known: an execution of it comes to its end, and loses nothing. *)
Fixpoint guards_pass (keeps : list event → Prop) (ls : list NodeId) (c : cmd) : Prop :=
  match c with
  | CSkip | CFail _ | CEnter _ | CExit _ | CReset | CBreak _ _ | CAgain _ _ => True
  | CSeq a b | CBranch a b => guards_pass keeps ls a ∧ guards_pass keeps ls b
  | CLoop _ id cond body => guards_pass keeps ls cond ∧ guards_pass keeps (ls ++ [id]) body
  | CArms _ l => arms_pass keeps ls l
  end
with arms_pass (keeps : list event → Prop) (ls : list NodeId) (l : arms) : Prop :=
  match l with
  | ANil => True
  | ACons guard body l' =>
      (∃ t, path ls guard t Normal ∧ keeps t) ∧ guards_pass keeps ls guard ∧ guards_pass keeps ls body ∧
      arms_pass keeps ls l'
  end.

(** ** Well-formed skeletons *)

Definition jump_ok (ls : list NodeId) (id : NodeId) (label : option Name) : bool :=
  match target ls id label ≫= (ls !!.) with
  | Some lid => bool_decide (is_Some (scopes_between id lid))
  | None => false
  end.

(** The jumps of the body refer to loops around them, and nothing the walk
    cannot handle is left in it. *)
Fixpoint cmd_ok (ls : list NodeId) (c : cmd) : bool :=
  match c with
  | CSkip | CEnter _ | CExit _ | CReset => true
  | CFail _ => false
  | CSeq a b | CBranch a b => cmd_ok ls a && cmd_ok ls b
  | CLoop _ id cond body => cmd_ok ls cond && cmd_ok (ls ++ [id]) body
  | CArms _ l => arms_ok ls l
  | CBreak id label | CAgain id label => jump_ok ls id label
  end
with arms_ok (ls : list NodeId) (l : arms) : bool :=
  match l with
  | ANil => true
  | ACons guard body l' => cmd_ok ls guard && cmd_ok ls body && arms_ok ls l'
  end.
End paths.

(** The nodes that are entered. *)
Fixpoint cmd_ids (c : cmd) : list NodeId :=
  match c with
  | CEnter id => [id]
  | CSeq a b | CBranch a b => cmd_ids a ++ cmd_ids b
  | CLoop _ id cond body => id :: cmd_ids cond ++ cmd_ids body
  | CArms _ l => arms_ids l
  | CSkip | CFail _ | CExit _ | CReset | CBreak _ _ | CAgain _ _ => []
  end
with arms_ids (l : arms) : list NodeId :=
  match l with
  | ANil => []
  | ACons guard body l' => cmd_ids guard ++ cmd_ids body ++ arms_ids l'
  end.
