(* ===== verification/DataFlowSound.v ===== *)
(** The propagation of [dataflow.rs] is correct: on a body whose jumps are
    well formed it returns, within a bound on the number of passes, and the
    sets it leaves on entry to the nodes account for every path. *)

From stdpp Require Import prelude gmap list.
From S2P Require Import Prelude Ast RegionMaps Ty DataFlow DataFlowBits FlowCmd FlowPaths.

Section sound.
Context (oper : DataFlowOperator) `{!JoinOk oper} (tcx : ctxt) (region_maps : RegionMaps).
(** The context the propagation starts from, and the nodes it enters. *)
Context (d0 : DataFlowContext) (X : gset NodeId).

Abbreviation w := (words_per_id d0).
Abbreviation E s := (entry_set oper (dfcx s)).
Abbreviation run := (run oper tcx region_maps).
Abbreviation run_arms := (run_arms oper tcx region_maps).

(** ** The order on bits *)

(** The bit [e] of a set accounts for the bit [b] of a path. *)
Definition cov (e b : bool) : Prop := joinb (initial_value oper) e b = e.

Definition cov_bits (l k : list N) : Prop := ∀ i, i < w * 64 → cov (tb l i) (tb k i).

Ltac bits := unfold cov, joinb, transfer in *;
  repeat match goal with |- context [initial_value oper] => destruct (initial_value oper)
    | H : context [initial_value oper] |- _ => destruct (initial_value oper) end;
  repeat match goal with b : bool |- _ => destruct b end; simpl in *; congruence.

Lemma cov_refl e : cov e e.
Proof. bits. Qed.
Lemma cov_trans a b c : cov a b → cov b c → cov a c.
Proof. intros. bits. Qed.
Lemma cov_antisym a b : cov a b → cov b a → a = b.
Proof. intros. bits. Qed.
Lemma cov_join_l a b c : cov a c → cov (joinb (initial_value oper) a b) c.
Proof. intros. bits. Qed.
Lemma cov_join_r a b c : cov b c → cov (joinb (initial_value oper) a b) c.
Proof. intros. bits. Qed.
Lemma cov_transfer g k a b : cov a b → cov (transfer g k a) (transfer g k b).
Proof. intros. bits. Qed.
Lemma cov_kill k a b : cov a b → cov (a && negb k) (b && negb k).
Proof. intros. bits. Qed.

Lemma cov_bits_refl l : cov_bits l l.
Proof. intros i _. apply cov_refl. Qed.
Lemma cov_bits_trans l k m : cov_bits l k → cov_bits k m → cov_bits l m.
Proof. intros H1 H2 i Hi. by eapply cov_trans; [apply H1|apply H2]. Qed.
Lemma cov_bits_antisym l k : words_ok w l → words_ok w k → cov_bits l k → cov_bits k l → l = k.
Proof. intros Hl Hk H1 H2. eapply words_ext; [done..|]. intros i Hi. apply cov_antisym; auto. Qed.

(** ** States *)

Record st_ok (s : walk_state) : Prop := {
  ok_wf : dfc_wf (dfcx s);
  ok_words : words_per_id (dfcx s) = w;
  ok_width : bits_per_id (dfcx s) = bits_per_id d0;
  ok_gens : ∀ id, gen_set (dfcx s) id = gen_set d0 id;
  ok_kills : ∀ id, kill_set (dfcx s) id = kill_set d0 id;
  ok_bits : words_ok w (in_out s);
  ok_breaks : Forall (λ sc, words_ok w (break_bits sc) ∧ loop_id sc ∈ X) (loop_scopes s)
}.

Definition scope_grows (sc sc' : LoopScope) : Prop :=
  loop_id sc' = loop_id sc ∧ cov_bits (break_bits sc') (break_bits sc).

(** What a walk does to the state, apart from the bits it carries. *)
Record evolves (s s' : walk_state) : Prop := {
  ev_ok : st_ok s';
  ev_grow : ∀ id, cov_bits (E s' id) (E s id);
  ev_quiet : changed s' = false → changed s = false ∧ ∀ id, E s' id = E s id;
  ev_loud : changed s' = true → changed s = true ∨ ∃ id, id ∈ X ∧ E s' id ≠ E s id;
  ev_scopes : Forall2 scope_grows (loop_scopes s) (loop_scopes s')
}.

Lemma E_ok s id : st_ok s → words_ok w (E s id).
Proof. intros Hs. rewrite <-(ok_words s Hs). by apply entry_set_ok, ok_wf. Qed.

Lemma scope_grows_refl sc : scope_grows sc sc.
Proof. split; [done|apply cov_bits_refl]. Qed.

Lemma scopes_grow_refl l : Forall2 scope_grows l l.
Proof. induction l; constructor; [apply scope_grows_refl|done]. Qed.

Lemma scopes_grow_trans l l1 l2 :
  Forall2 scope_grows l l1 → Forall2 scope_grows l1 l2 → Forall2 scope_grows l l2.
Proof.
  intros H1. induction H1 as [|a b l l1 [Hab Hab'] _ IH] in l2 |- *; [done|].
  intros (c & l2' & [Hbc Hbc'] & ? & ->)%Forall2_cons_inv_l. constructor; [|by apply IH].
  split; [by rewrite Hbc|by eapply cov_bits_trans].
Qed.

Lemma scopes_grow_ids l l' : Forall2 scope_grows l l' → loop_id <$> l' = loop_id <$> l.
Proof. induction 1 as [|sc sc' l l' [Hid _] _ IH]; [done|]. rewrite !fmap_cons. by f_equal. Qed.

Lemma evolves_refl s : st_ok s → evolves s s.
Proof.
  intros Hs. constructor; [done|intros; apply cov_bits_refl|done|by left|apply scopes_grow_refl].
Qed.

Lemma evolves_trans s s1 s2 : st_ok s → evolves s s1 → evolves s1 s2 → evolves s s2.
Proof.
  intros Hs H1 H2. pose proof (ev_ok _ _ H1). pose proof (ev_ok _ _ H2). constructor; [done| | | |].
  - intros id. eapply cov_bits_trans; by apply ev_grow.
  - intros [Hq1 Hq2]%(ev_quiet _ _ H2). destruct (ev_quiet _ _ H1 Hq1) as [Hq3 Hq4].
    split; [done|]. intros id. by rewrite Hq2.
  - assert (∀ id, E s2 id = E s id → E s1 id = E s id) as Hsq.
    { intros id Heq. apply cov_bits_antisym; [by apply E_ok..|by apply (ev_grow _ _ H1)|].
      rewrite <-Heq. by apply (ev_grow _ _ H2). }
    intros [Hc|(id & HX & Hne)]%(ev_loud _ _ H2).
    + destruct (ev_loud _ _ H1 Hc) as [?|(id & HX & Hne)]; [by left|]. right. exists id. split; [done|].
      intros Heq. by apply Hne, Hsq.
    + right. exists id. split; [done|]. intros Heq. apply Hne. by rewrite Heq, Hsq.
  - eapply scopes_grow_trans; [apply (ev_scopes _ _ H1)|apply (ev_scopes _ _ H2)].
Qed.

(** ** The operations on states *)

Definition with_bits (bits : list N) (s : walk_state) : walk_state :=
  mkWalk (dfcx s) (changed s) bits (loop_scopes s).

Lemma st_ok_with_bits bits s : words_ok w bits → st_ok s → st_ok (with_bits bits s).
Proof. intros Hb []. by constructor. Qed.

Lemma evolves_with_bits bits bits' s s' :
  words_ok w bits' → evolves (with_bits bits s) s' → evolves s (with_bits bits' s').
Proof. intros Hb []. constructor; try done. by apply st_ok_with_bits. Qed.

Lemma evolves_put bits s : st_ok s → words_ok w bits → evolves s (with_bits bits s).
Proof. intros Hs Hb. apply (evolves_with_bits (in_out s)); [done|]. destruct s. by apply evolves_refl. Qed.

(** Whether a node generates or kills a bit. *)
Definition G (i : nat) (id : NodeId) : bool := tb (gen_set d0 id) i.
Definition K (i : nat) (id : NodeId) : bool := tb (kill_set d0 id) i.

Lemma evolves_same s d' bits :
  st_ok s → dfc_wf d' → same_sets oper (dfcx s) d' → words_ok w bits →
  evolves s (mkWalk d' (changed s) bits (loop_scopes s)).
Proof.
  intros [] Hd' [] Hb. constructor; simpl.
  - constructor; simpl; try congruence.
  - intros id. rewrite same_entry. apply cov_bits_refl.
  - done.
  - by left.
  - apply scopes_grow_refl.
Qed.

Lemma gen_kill_run id s :
  st_ok s →
  ∃ s', gen_kill oper id s = Ok (tt, s') ∧ evolves s s' ∧
    ∀ i, i < w * 64 → tb (in_out s') i = transfer (G i id) (K i id) (tb (in_out s) i).
Proof.
  intros Hs. pose proof Hs as [Hwf Hw _ Hg Hk Hb _]. unfold gen_kill.
  destruct (apply_gen_kill_spec oper (dfcx s) id (in_out s)) as (d' & bits & -> & Hd' & Hsame & Hbits & Ht);
    [done|by rewrite Hw|].
  rewrite Hw in Hbits, Ht. simpl_ok. eexists. split_and!; [done|by apply evolves_same|].
  intros i Hi. simpl. by rewrite Ht, Hg, Hk.
Qed.

Lemma kill_run id s :
  st_ok s →
  ∃ s', kill oper id s = Ok (tt, s') ∧ evolves s s' ∧ loop_scopes s' = loop_scopes s ∧
    ∀ i, i < w * 64 → tb (in_out s') i = tb (in_out s) i && negb (K i id).
Proof.
  intros Hs. pose proof Hs as [Hwf Hw _ Hg Hk Hb _]. unfold kill.
  destruct (apply_kill_spec oper (dfcx s) id (in_out s)) as (d' & bits & -> & Hd' & Hsame & Hbits & Ht);
    [done|by rewrite Hw|].
  rewrite Hw in Hbits, Ht. simpl_ok. eexists. split_and!; [done|by apply evolves_same|done|].
  intros i Hi. simpl. by rewrite Ht, Hk.
Qed.

Lemma join_bits_spec in_vec out_vec :
  words_ok w in_vec → words_ok w out_vec →
  ∃ j ch, join_bits oper in_vec out_vec = Ok (j, ch) ∧ words_ok w j ∧
    cov_bits j in_vec ∧ cov_bits j out_vec ∧ (ch = false ↔ j = out_vec).
Proof.
  intros Hi Ho. unfold join_bits.
  destruct (bitwise_spec w out_vec in_vec _ _ join_ok) as (j & ch & -> & Hj & Ht & Hch); [done..|].
  exists j, ch. split_and!; [done..| | |done].
  - intros i Hlt. rewrite Ht by done. apply cov_join_r, cov_refl.
  - intros i Hlt. rewrite Ht by done. apply cov_join_l, cov_refl.
Qed.

(** Joining bits into the entry set of a node. *)
Lemma join_entry s id bits :
  st_ok s → id ∈ X → words_ok w bits →
  ∃ d1 n j ch,
    compute_id_range oper (dfcx s) id = Ok (d1, (n * words_per_id d1, n * words_per_id d1 + words_per_id d1)) ∧
    slice (on_entry d1) (n * words_per_id d1) (n * words_per_id d1 + words_per_id d1) = Ok (E s id) ∧
    join_bits oper bits (E s id) = Ok (j, ch) ∧ words_ok w j ∧ cov_bits j bits ∧
    let d2 := set_on_entry d1 (set_slice (on_entry d1) (n * words_per_id d1) j) in
    entry_set oper d2 id = j ∧
    ∀ bits', words_ok w bits' → evolves s (mkWalk d2 (changed s || ch) bits' (loop_scopes s)).
Proof.
  intros Hs HX Hbits. pose proof Hs as [Hwf Hw Hwi Hg Hk Hb Hbr].
  destruct (compute_id_range_spec oper _ id Hwf) as (d1 & n & -> & Hid & Hwf1 & [Hsb Hsw Hsg Hsk Hse]).
  destruct (join_bits_spec bits (E s id)) as (j & ch & Hj & Hjok & Hcov1 & Hcov2 & Hch); [done|by apply E_ok|].
  exists d1, n, j, ch. rewrite (slice_entry oper d1 id n), Hse by done. do 5 (split; [done|]).
  set (d2 := set_on_entry _ _). pose proof Hwf1 as [? ? Hm Hg1 Hk1 He1].
  assert (words_ok (words_per_id d1) j) as Hj1 by (by rewrite Hsw, Hw).
  assert (∀ id', entry_set oper d2 id' = if decide (id' = id) then j else E s id') as Hent.
  { intros id'. rewrite <-Hse. by apply view_set_slice. }
  assert (entry_set oper d2 id = j) as Hself by (by rewrite Hent, decide_True).
  split; [done|]. intros bits' Hbits'. constructor; simpl.
  - constructor; simpl; try congruence.
    + constructor; simpl; try done. apply set_slice_ok; [done..|]. by apply Hm in Hid.
    + intros id'. by rewrite <-Hg, <-Hsg.
    + intros id'. by rewrite <-Hk, <-Hsk.
  - intros id'. rewrite Hent. case_decide as Hcase; [by rewrite Hcase|apply cov_bits_refl].
  - intros [? Hf%Hch]%orb_false_iff. split; [done|]. intros id'. rewrite Hent.
    case_decide as Hcase; [by rewrite Hcase, Hf|done].
  - intros [?|Ht]%orb_true_iff; [by left|]. right. exists id. split; [done|]. rewrite Hself.
    intros Heq%Hch. by rewrite Heq in Ht.
  - apply scopes_grow_refl.
Qed.

Lemma add_to_entry_set_run id bits s :
  st_ok s → id ∈ X → words_ok w bits →
  ∃ s', add_to_entry_set oper id bits s = Ok (tt, s') ∧ evolves s s' ∧ in_out s' = in_out s ∧
    cov_bits (E s' id) bits.
Proof.
  intros Hs HX Hbits. destruct (join_entry s id bits) as (d1 & n & j & ch & Hr & Hsl & Hj & Hjok & Hcov & Hd2 & Hev);
    [done..|].
  unfold add_to_entry_set. rewrite Hr. simpl_ok. rewrite Hsl. simpl_ok. rewrite Hj. simpl_ok.
  eexists. split_and!; [done|by apply Hev, ok_bits|done|]. simpl. by rewrite Hd2.
Qed.

Lemma merge_run id s :
  st_ok s → id ∈ X →
  ∃ s', merge_with_entry_set oper id s = Ok (tt, s') ∧ evolves s s' ∧ in_out s' = E s' id ∧
    cov_bits (E s' id) (in_out s).
Proof.
  intros Hs HX. pose proof (ok_bits s Hs) as Hb.
  destruct (join_entry s id (in_out s)) as (d1 & n & j & ch & Hr & Hsl & Hj & Hjok & Hcov & Hd2 & Hev);
    [done..|].
  unfold merge_with_entry_set. rewrite Hr. simpl_ok. rewrite Hsl. simpl_ok. rewrite Hj. simpl_ok.
  unfold copy_bits. destruct (bitwise_spec _ _ _ _ _ snd_ok Hb Hjok) as (c & ch' & -> & Hc & Ht & _). simpl_ok.
  eexists. split_and!; [done|by apply Hev| |]; simpl; rewrite Hd2; [|done].
  by eapply words_ext.
Qed.

(** ** Walks that account for a set of paths *)

(** A path that loses nothing of the bit. *)
Definition keeps (i : nat) (t : list event) : Prop := ∀ b, cov (after (G i) (K i) t b) b.

(** The bits that the claims are about. *)
Context (Bit : nat → Prop).

(** The state [s] accounts for a path that starts with the bit [b]. *)
Definition covers (i : nat) (s : walk_state) (t : list event) (k : ending) (b : bool) : Prop :=
  visits (G i) (K i) (λ id b, cov (tb (E s id) i) b) t b ∧
  let b' := after (G i) (K i) t b in
  match k with
  | Normal => cov (tb (in_out s) i) b'
  | Break j => ∃ sc, loop_scopes s !! j = Some sc ∧ cov (tb (break_bits sc) i) b'
  | Again j => ∃ sc, loop_scopes s !! j = Some sc ∧ cov (tb (E s (loop_id sc)) i) b'
  | Stopped => True
  end.

Definition good (ls : list NodeId) (c : M walk_state unit) (P : list event → ending → Prop) : Prop :=
  ∀ s, st_ok s → loop_id <$> loop_scopes s = ls →
  ∃ s', c s = Ok (tt, s') ∧ evolves s s' ∧
    (changed s' = false → ∀ i b t k, i < w * 64 → Bit i → cov (tb (in_out s) i) b → P t k → covers i s' t k b).

Lemma covers_stopped i s b : covers i s [] Stopped b.
Proof. done. Qed.

Lemma evolves_from_bits bits s s' : evolves (with_bits bits s) s' ↔ evolves s s'.
Proof. split; intros []; by constructor. Qed.

Lemma evolves_ids s s' ls :
  evolves s s' → loop_id <$> loop_scopes s = ls → loop_id <$> loop_scopes s' = ls.
Proof. intros Hev <-. by apply scopes_grow_ids, ev_scopes. Qed.

(** A later state without changes accounts for the same paths. *)
Lemma covers_evolves i s s' t k b :
  i < w * 64 → evolves s s' → changed s' = false →
  (k = Normal → cov (tb (in_out s') i) (tb (in_out s) i)) →
  covers i s t k b → covers i s' t k b.
Proof.
  intros Hi Hev Hq Hk [Hv He]. destruct (ev_quiet _ _ Hev Hq) as [_ HE]. split.
  - eapply visits_mono; [|done]. intros id b'. by rewrite HE.
  - cbv zeta in *. destruct k as [|j|j|]; [by eapply cov_trans, He; apply Hk| | |done];
      destruct He as (sc & Hsc & He);
      destruct (Forall2_lookup_l _ _ _ _ _ (ev_scopes _ _ Hev) Hsc) as (sc' & Hsc' & Hid & Hgr);
      exists sc'; (split; [done|]).
    + eapply cov_trans; [by apply Hgr|done].
    + by rewrite Hid, HE.
Qed.

Lemma covers_seq i s t1 t2 k b :
  covers i s t1 Stopped b → covers i s t2 k (after (G i) (K i) t1 b) → covers i s (t1 ++ t2) k b.
Proof.
  intros [Hv1 _] [Hv2 He]. split; [by apply visits_app|]. cbv zeta in *. by rewrite after_app.
Qed.

Lemma covers_prefix i s t k b : covers i s t k b → covers i s t Stopped b.
Proof. by intros [? _]. Qed.

(** The paths of a sequence. *)
Definition seq_paths (P Q : list event → ending → Prop) (t : list event) (k : ending) : Prop :=
  (P t k ∧ k ≠ Normal) ∨ ∃ t1 t2, t = t1 ++ t2 ∧ P t1 Normal ∧ Q t2 k.

Lemma good_seq ls c c' P Q :
  good ls c P → good ls c' Q → good ls (_ ← c; c') (seq_paths P Q).
Proof.
  intros Hc Hc' s Hs Hls. destruct (Hc s) as (s1 & Hr1 & Hev1 & Hq1); [done..|].
  pose proof (ev_ok _ _ Hev1) as Hs1.
  destruct (Hc' s1) as (s2 & Hr2 & Hev2 & Hq2); [done|by eapply evolves_ids|].
  exists s2. rewrite (M_bind_step _ _ _ _ _ Hr1). split_and!; [done|by eapply evolves_trans|].
  intros Hch i b t k Hi HI Hb. pose proof (ev_quiet _ _ Hev2 Hch) as [Hch1 _].
  intros [[HP Hk]|(t1 & t2 & -> & HP & HQ)].
  - eapply covers_evolves; [done..| |by apply Hq1]. done.
  - specialize (Hq1 Hch1 i b t1 Normal Hi HI Hb HP). apply covers_seq.
    + eapply covers_evolves; [done..| |by eapply covers_prefix]. done.
    + apply Hq2; [done..|apply Hq1|done].
Qed.

Lemma good_enter ls id :
  id ∈ X → good ls (merge_with_entry_set oper id) (λ t k, t = [Visit id] ∧ k = Normal).
Proof.
  intros HX s Hs Hls. destruct (merge_run id s) as (s' & Hr & Hev & Hin & Hcov); [done..|].
  exists s'. split_and!; [done..|]. intros _ i b t k Hi HI Hb [-> ->].
  assert (cov (tb (E s' id) i) b) by (eapply cov_trans; [by apply Hcov|done]).
  split; [done|]. cbv zeta. rewrite Hin. done.
Qed.

Lemma good_exit ls id : good ls (gen_kill oper id) (λ t k, t = [Leave id] ∧ k = Normal).
Proof.
  intros s Hs Hls. destruct (gen_kill_run id s) as (s' & Hr & Hev & Ht); [done|].
  exists s'. split_and!; [done..|]. intros _ i b t k Hi HI Hb [-> ->].
  split; [done|]. cbv zeta. rewrite Ht by done. by apply cov_transfer.
Qed.

Lemma reset_bits_ok bits : words_ok w bits → words_ok w (reset_bits oper bits).
Proof.
  intros [Hl _]. split; [by unfold reset_bits; rewrite length_fmap|].
  apply Forall_fmap, Forall_true. intros. apply entry_word_ok.
Qed.

Lemma good_reset ls : good ls (reset oper) (λ _ _, False).
Proof.
  intros s Hs Hls. eexists. split; [reflexivity|]. split; [|done].
  apply evolves_put; [done|]. by apply reset_bits_ok, ok_bits.
Qed.

Lemma good_ret ls : good ls (mret tt) (λ t k, t = [] ∧ k = Normal).
Proof.
  intros s Hs Hls. exists s. split_and!; [done|by apply evolves_refl|]. by intros _ i b t k Hi HI Hb [-> ->].
Qed.

Lemma good_weaken ls c (P Q : list event → ending → Prop) :
  (∀ t k, Q t k → (t = [] ∧ k = Stopped) ∨ P t k) → good ls c P → good ls c Q.
Proof.
  intros HQ Hc s Hs Hls. destruct (Hc s Hs Hls) as (s' & Hr & Hev & Hq). exists s'. split_and!; [done..|].
  intros Hch i b t k Hi HI Hb [[-> ->]|HP]%HQ; [apply covers_stopped|by apply Hq].
Qed.

(** A walk on other bits, which leaves the current ones. *)
Lemma good_on_bits ls c P bits s :
  good ls c P → st_ok s → loop_id <$> loop_scopes s = ls → words_ok w bits →
  ∃ s', on_bits bits c s = Ok (in_out s', with_bits (in_out s) s') ∧ evolves s s' ∧
    (changed s' = false → ∀ i b t k, i < w * 64 → Bit i → cov (tb bits i) b → P t k → covers i s' t k b).
Proof.
  intros Hc Hs Hls Hb. destruct (Hc (with_bits bits s)) as (s' & Hr & Hev & Hq);
    [by apply st_ok_with_bits|done|].
  exists s'. split_and!; [|by eapply evolves_from_bits|done].
  unfold on_bits. change (mkWalk _ _ bits _) with (with_bits bits s). by rewrite Hr.
Qed.

Lemma get_bits_bind {B} (f : list N → M walk_state B) s : (get_bits ≫= f) s = f (in_out s) s.
Proof. done. Qed.

Lemma join_into_run bits s :
  st_ok s → words_ok w bits →
  ∃ s', join_into oper bits s = Ok (tt, s') ∧ evolves s s' ∧ changed s' = changed s ∧
    cov_bits (in_out s') bits ∧ cov_bits (in_out s') (in_out s).
Proof.
  intros Hs Hb. destruct (join_bits_spec bits (in_out s)) as (j & ch & Hj & Hok & H1 & H2 & _);
    [done|by apply ok_bits|].
  exists (with_bits j s). split_and!; [|by apply evolves_put|done..].
  unfold join_into. rewrite get_bits_bind, Hj. done.
Qed.

Lemma good_branch ls c c' P Q :
  good ls c P → good ls c' Q →
  good ls (bits ← get_bits; bits ← on_bits bits c; _ ← c'; join_into oper bits)
    (λ t k, P t k ∨ Q t k).
Proof.
  intros Hc Hc' s Hs Hls. rewrite get_bits_bind.
  destruct (good_on_bits ls c P (in_out s) s) as (s1 & Hr1 & Hev1 & Hq1); [done..|by apply ok_bits|].
  rewrite (M_bind_step _ _ _ _ _ Hr1). pose proof (ev_ok _ _ Hev1) as Hs1.
  assert (st_ok (with_bits (in_out s) s1)) as Hs1' by (by apply st_ok_with_bits; [apply ok_bits|]).
  destruct (Hc' (with_bits (in_out s) s1)) as (s2 & Hr2 & Hev2 & Hq2); [done|by eapply (evolves_ids s s1)|].
  rewrite (M_bind_step _ _ _ _ _ Hr2). pose proof (ev_ok _ _ Hev2) as Hs2.
  destruct (join_into_run (in_out s1) s2) as (s3 & Hr3 & Hev3 & Hch3 & Hc1 & Hc2); [done|by apply ok_bits|].
  apply (proj1 (evolves_from_bits _ _ _)) in Hev2. assert (evolves s1 s3) as Hev13 by (by apply (evolves_trans s1 s2)).
  exists s3. split_and!; [done|by apply (evolves_trans s s1)|].
  intros Hch i b t k Hi HI Hb. pose proof (ev_quiet _ _ Hev3 Hch) as [Hch2 _].
  pose proof (ev_quiet _ _ Hev2 Hch2) as [Hch1 _]. intros [HP|HQ].
  - eapply covers_evolves; [done|exact Hev13|done| |by apply Hq1]. intros _. by apply Hc1.
  - eapply covers_evolves; [done|exact Hev3|done| |by apply Hq2]. intros _. by apply Hc2.
Qed.

(** The arms of a match, from bits [guards] of their own. *)
Definition good_arms (ls : list NodeId) (c : list N → M walk_state unit)
    (P : list event → ending → Prop) : Prop :=
  ∀ guards s, st_ok s → loop_id <$> loop_scopes s = ls → words_ok w guards →
  ∃ s', c guards s = Ok (tt, s') ∧ evolves s s' ∧ cov_bits (in_out s') (in_out s) ∧
    (changed s' = false → ∀ i b t k, i < w * 64 → Bit i → cov (tb guards i) b → P t k → covers i s' t k b).

Lemma good_arms_nil ls : good_arms ls (λ _, mret tt) (λ _ _, False).
Proof. intros guards s Hs Hls Hg. exists s. split_and!; [done|by apply evolves_refl|apply cov_bits_refl|done]. Qed.

Lemma good_arms_cons ls cg cb ca P Q R :
  good ls cg P → good ls cb Q → good_arms ls ca R → (∀ i, Bit i → ∃ t, P t Normal ∧ keeps i t) →
  good_arms ls (λ guards, guards ← on_bits guards cg; bits ← on_bits guards cb;
                  _ ← join_into oper bits; ca guards)
    (λ t k, R t k ∨ seq_paths P (λ t k, Q t k ∨ R t k) t k).
Proof.
  intros Hcg Hcb Hca Hpass guards s Hs Hls Hg.
  destruct (good_on_bits ls cg P guards s) as (s1 & Hr1 & Hev1 & Hq1); [done..|].
  rewrite (M_bind_step _ _ _ _ _ Hr1). pose proof (ev_ok _ _ Hev1) as Hs1. pose proof (ok_bits _ Hs1) as Hb1.
  pose proof (ok_bits _ Hs) as Hb.
  set (s1' := with_bits (in_out s) s1). assert (st_ok s1') as Hs1' by (by apply st_ok_with_bits).
  destruct (good_on_bits ls cb Q (in_out s1) s1') as (s2 & Hr2 & Hev2 & Hq2); [done|done|by eapply (evolves_ids s s1)|done|].
  rewrite (M_bind_step _ _ _ _ _ Hr2). apply (proj1 (evolves_from_bits _ _ _)) in Hev2. pose proof (ev_ok _ _ Hev2) as Hs2.
  set (s2' := with_bits (in_out s1') s2). assert (st_ok s2') as Hs2' by (by apply st_ok_with_bits).
  destruct (join_into_run (in_out s2) s2') as (s3 & Hr3 & Hev3 & Hch3 & Hc1 & Hc2); [done|by apply ok_bits|].
  rewrite (M_bind_step _ _ _ _ _ Hr3). pose proof (ev_ok _ _ Hev3) as Hs3. apply (proj1 (evolves_from_bits _ _ _)) in Hev3.
  assert (evolves s1 s3) as Hev13 by (by apply (evolves_trans s1 s2)).
  assert (evolves s s3) as Hev03 by (by apply (evolves_trans s s1)).
  destruct (Hca (in_out s1) s3) as (s4 & Hr4 & Hev4 & Hc4 & Hq4); [done|by apply (evolves_ids s s3)|done|].
  exists s4. split_and!; [done|by apply (evolves_trans s s3)|by apply (cov_bits_trans _ (in_out s3))|].
  intros Hch i b t k Hi HI Hcb' Hp. pose proof (ev_quiet _ _ Hev4 Hch) as [Hch3' _].
  pose proof (ev_quiet _ _ Hev3 Hch3') as [Hch2 _]. pose proof (ev_quiet _ _ Hev2 Hch2) as [Hch1 _].
  assert (evolves s1 s4) as Hev14 by (by apply (evolves_trans s1 s3)).
  assert (evolves s2 s4) as Hev24 by (by apply (evolves_trans s2 s3)).
  destruct Hp as [HR|[[HP Hk]|(t1 & t2 & -> & HP & HQR)]].
  - destruct (Hpass i HI) as (t0 & HP & Hkeep). apply Hq4; [done..| |done].
    eapply cov_trans; [|apply Hkeep]. by apply (Hq1 Hch1 i b t0 Normal Hi HI Hcb' HP).
  - eapply covers_evolves; [done|exact Hev14|done| |by apply Hq1]. done.
  - specialize (Hq1 Hch1 i b t1 Normal Hi HI Hcb' HP). apply covers_seq.
    + eapply covers_evolves; [done|exact Hev14|done| |by eapply covers_prefix]. done.
    + destruct HQR as [HQ|HR]; [|apply Hq4; [done..|apply Hq1|done]].
      eapply covers_evolves; [done|exact Hev24|done| |apply Hq2; [done..|apply Hq1|done]].
      intros _. eapply cov_trans; [by apply Hc4|by apply Hc1].
Qed.

Lemma reset_if_run (c : bool) s :
  st_ok s →
  ∃ bits, words_ok w bits ∧ (if c then reset oper else mret tt) s = Ok (tt, with_bits bits s) ∧
    (c = false → bits = in_out s).
Proof.
  intros Hs. pose proof (ok_bits _ Hs) as Hb.
  destruct c; [exists (reset_bits oper (in_out s))|exists (in_out s)];
    (split; [|by destruct s]); by try apply reset_bits_ok.
Qed.

Lemma good_match ls (exhaustive : bool) ca P :
  good_arms ls ca P →
  good ls (guards ← get_bits; _ ← (if exhaustive then reset oper else mret tt); ca guards)
    (λ t k, (exhaustive = false ∧ t = [] ∧ k = Normal) ∨ P t k).
Proof.
  intros Hca s Hs Hls. rewrite get_bits_bind. pose proof (ok_bits _ Hs) as Hb.
  destruct (reset_if_run exhaustive s Hs) as (bits & Hbits & Hr & Hkeep).
  rewrite (M_bind_step _ _ _ _ _ Hr).
  destruct (Hca (in_out s) (with_bits bits s)) as (s' & Hr' & Hev & Hcov & Hq);
    [by apply st_ok_with_bits|done..|].
  exists s'. split_and!; [done|by apply (proj1 (evolves_from_bits bits _ _))|].
  intros Hch i b t k Hi HI Hcb [(Hex & -> & ->)|HP]; [|by apply Hq].
  split; [done|]. cbv zeta. eapply cov_trans; [by apply Hcov|]. simpl. by rewrite (Hkeep Hex).
Qed.

(** ** Jumps *)

Lemma visits_pops i P l b : visits (G i) (K i) P (Pop <$> l) b.
Proof. revert b. induction l as [|id l IH]; intros b; [done|]. rewrite fmap_cons. split; [done|apply IH]. Qed.

Lemma pop_scopes_loop_run fuel id lid l s :
  climb region_maps fuel id lid = Some l → st_ok s →
  ∃ s', pop_scopes_loop oper region_maps fuel id lid s = Ok (tt, s') ∧ evolves s s' ∧
    loop_scopes s' = loop_scopes s ∧
    ∀ i b, i < w * 64 → cov (tb (in_out s) i) b → cov (tb (in_out s') i) (after (G i) (K i) (Pop <$> l) b).
Proof.
  induction fuel as [|fuel IH] in id, l, s |- *; cbn [climb pop_scopes_loop]; intros Hl Hs.
  - destruct (id =? lid)%N; simplify_eq. exists s. split_and!; [done|by apply evolves_refl|done..].
  - destruct (id =? lid)%N; simplify_eq; [exists s; split_and!; [done|by apply evolves_refl|done..]|].
    apply bind_Some in Hl as (j & Hj & (l' & Hl' & [= <-])%bind_Some).
    destruct (kill_run id s Hs) as (s1 & Hr1 & Hev1 & Hsc1 & Hb1).
    rewrite (M_bind_step _ _ _ _ _ Hr1), Hj.
    destruct (IH j l' s1 Hl' (ev_ok _ _ Hev1)) as (s2 & Hr2 & Hev2 & Hsc2 & Hb2).
    exists s2. split_and!; [done|by eapply evolves_trans|congruence|].
    intros i b Hi Hb. rewrite fmap_cons. apply (Hb2 i (after_event (G i) (K i) b (Pop id)) Hi).
    rewrite Hb1 by done. by apply cov_kill.
Qed.

Lemma find_scope_m_run ls id label j s :
  target tcx ls id label = Some j → loop_id <$> loop_scopes s = ls → find_scope_m tcx id label s = Ok (j, s).
Proof.
  intros Hj <-. unfold find_scope_m, find_scope, target in *. destruct label as [name|].
  - destruct (def_map tcx !! id) as [[]|]; try discriminate.
    rewrite list_find_fmap, <-option_fmap_compose in Hj.
    change (λ l, loop_id l = id0) with ((λ l, l = id0) ∘ loop_id).
    by destruct (list_find _ (loop_scopes s)) as [[j' sc]|]; simplify_option_eq.
  - destruct (loop_scopes s) as [|sc scopes]; simplify_option_eq. by rewrite length_fmap.
Qed.

Lemma jump_ok_inv ls id label :
  jump_ok tcx region_maps ls id label = true →
  ∃ j lid l, target tcx ls id label = Some j ∧ ls !! j = Some lid ∧ scopes_between region_maps id lid = Some l.
Proof.
  unfold jump_ok. destruct (target tcx ls id label) as [j|]; [|done]. simpl.
  destruct (ls !! j) as [lid|] eqn:Hlid; [|done]. intros [l Hl]%bool_decide_eq_true. eauto 10.
Qed.

Lemma scope_at_run s j lid :
  st_ok s → (loop_id <$> loop_scopes s) !! j = Some lid →
  ∃ sc, loop_scopes s !! j = Some sc ∧ loop_id sc = lid ∧ words_ok w (break_bits sc) ∧ lid ∈ X
    ∧ scope_at j s = Ok (sc, s).
Proof.
  intros Hs. rewrite list_lookup_fmap. intros (sc & Hsc & ->)%fmap_Some.
  pose proof (Forall_lookup_1 _ _ _ _ (ok_breaks _ Hs) Hsc) as [Hb HX].
  exists sc. split_and!; [done..|]. unfold scope_at. by rewrite (proj2 (vec_get_Ok _ _ _) Hsc).
Qed.

Lemma good_again ls id label :
  jump_ok tcx region_maps ls id label = true →
  good ls (run (CAgain id label)) (path tcx region_maps ls (CAgain id label)).
Proof.
  intros (j & lid & l & Hj & Hlid & Hl)%jump_ok_inv s Hs Hls. cbn [FlowCmd.run].
  rewrite (M_bind_step _ _ _ _ _ (find_scope_m_run ls id label j s Hj Hls)).
  rewrite <-Hls in Hlid. destruct (scope_at_run s j lid Hs Hlid) as (sc & Hsc & Hid & Hb & HX & Hr).
  rewrite (M_bind_step _ _ _ _ _ Hr), Hid.
  destruct (pop_scopes_loop_run _ _ _ _ s Hl Hs) as (s1 & Hr1 & Hev1 & Hsc1 & Hb1).
  unfold pop_scopes. rewrite (M_bind_step _ _ _ _ _ Hr1), get_bits_bind.
  pose proof (ev_ok _ _ Hev1) as Hs1.
  destruct (add_to_entry_set_run lid (in_out s1) s1) as (s2 & Hr2 & Hev2 & _ & Hcov); [done..|by apply ok_bits|].
  exists s2. split_and!; [done|by eapply evolves_trans|].
  intros _ i b t k Hi HI Hcb [[-> ->]|(j' & lid' & l' & Hj' & Hlid' & Hl' & -> & ->)]; [apply covers_stopped|].
  simplify_eq.
  split; [apply visits_pops|]. cbv zeta. rewrite <-Hsc1 in Hsc.
  destruct (Forall2_lookup_l _ _ _ _ _ (ev_scopes _ _ Hev2) Hsc) as (sc' & Hsc' & Hid' & _).
  exists sc'. split; [done|]. rewrite Hid'. eapply cov_trans; [by apply Hcov|by apply Hb1].
Qed.

Lemma set_break_bits_run s j sc bits :
  st_ok s → loop_scopes s !! j = Some sc → words_ok w bits → cov_bits bits (break_bits sc) →
  let s' := mkWalk (dfcx s) (changed s) (in_out s)
              (<[j := mkLoopScope (loop_id sc) bits]> (loop_scopes s)) in
  set_break_bits j bits s = Ok (tt, s') ∧ evolves s s'.
Proof.
  intros Hs Hsc Hb Hcov. split; [unfold set_break_bits; by rewrite (proj2 (vec_get_Ok _ _ _) Hsc)|].
  pose proof Hs as [? ? ? ? ? ? Hbr]. pose proof (Forall_lookup_1 _ _ _ _ Hbr Hsc) as [_ HX].
  constructor; simpl; [| |done|by left|].
  - constructor; simpl; try done. by apply Forall_insert.
  - intros; apply cov_bits_refl.
  - rewrite <-(list_insert_id (loop_scopes s) j sc) at 1 by done.
    apply Forall2_insert; [apply scopes_grow_refl|]. by split.
Qed.

Lemma good_break ls id label :
  jump_ok tcx region_maps ls id label = true →
  good ls (run (CBreak id label)) (path tcx region_maps ls (CBreak id label)).
Proof.
  intros (j & lid & l & Hj & Hlid & Hl)%jump_ok_inv s Hs Hls. cbn [FlowCmd.run].
  rewrite (M_bind_step _ _ _ _ _ (find_scope_m_run ls id label j s Hj Hls)). unfold break_from_to.
  rewrite <-Hls in Hlid. destruct (scope_at_run s j lid Hs Hlid) as (sc & Hsc & Hid & Hb & HX & Hr).
  rewrite (M_bind_step _ _ _ _ _ Hr), Hid.
  destruct (pop_scopes_loop_run _ _ _ _ s Hl Hs) as (s1 & Hr1 & Hev1 & Hsc1 & Hb1).
  unfold pop_scopes. rewrite (M_bind_step _ _ _ _ _ Hr1).
  destruct (kill_run id s1 (ev_ok _ _ Hev1)) as (s2 & Hr2 & Hev2 & Hsc2 & Hb2).
  pose proof (ev_ok _ _ Hev2) as Hs2. rewrite (M_bind_step _ _ _ _ _ Hr2), get_bits_bind.
  destruct (join_bits_spec (in_out s2) (break_bits sc)) as (bits & ch & -> & Hok & Hc1 & Hc2 & _);
    [by apply ok_bits|done|]. rewrite lift_bind.
  assert (loop_scopes s2 !! j = Some sc) as Hsc' by congruence.
  destruct (set_break_bits_run s2 j sc bits) as [Hr3 Hev3]; [done..|].
  eexists. split; [exact Hr3|]. split; [eapply evolves_trans, Hev3; [done|]; by eapply evolves_trans|].
  intros _ i b t k Hi HI Hcb [[-> ->]|(j' & lid' & l' & Hj' & Hlid' & Hl' & -> & ->)]; [apply covers_stopped|].
  simplify_eq.
  split; [apply visits_app; split; [apply visits_pops|done]|]. cbv zeta. simpl.
  eexists. split; [apply list_lookup_insert_eq; by eapply lookup_lt_Some|]. simpl.
  eapply cov_trans; [by apply Hc1|]. rewrite Hb2, after_app by done. by apply cov_kill, Hb1.
Qed.

(** ** Loops *)

Definition push (sc : LoopScope) (s : walk_state) : walk_state :=
  mkWalk (dfcx s) (changed s) (in_out s) (loop_scopes s ++ [sc]).

Lemma st_ok_push sc s :
  st_ok s → words_ok w (break_bits sc) → loop_id sc ∈ X → st_ok (push sc s).
Proof. intros [] Hb HX. constructor; simpl; try done. apply Forall_app_2; [done|]. by apply Forall_singleton. Qed.

(** A walk inside a loop changes the state without the scope of the loop. *)
Lemma evolves_pop sc s s1 :
  st_ok s → evolves (push sc s) s1 →
  ∃ sc' l, loop_scopes s1 = l ++ [sc'] ∧ scope_grows sc sc' ∧ words_ok w (break_bits sc') ∧
    let s' := mkWalk (dfcx s1) (changed s1) (in_out s1) l in
    pop_scope s1 = Ok (sc', s') ∧ evolves s s'.
Proof.
  intros Hs [Hok Hgr Hq Hl Hsc]. simpl in *.
  apply Forall2_app_inv_l in Hsc as (l & k & Hsc & (sc' & k' & Hgsc & Hk & ->)%Forall2_cons_inv_l & Heq).
  apply Forall2_nil_inv_l in Hk as ->. pose proof Hok as [? ? ? ? ? ? Hbr].
  rewrite Heq in Hbr. apply Forall_app in Hbr as [Hbl [[Hb _] _]%Forall_cons].
  exists sc', l. do 3 (split; [done|]). split; [|by constructor].
  - unfold pop_scope. rewrite Heq, last_snoc. simpl_ok. rewrite length_app. simpl length.
    rewrite Nat.add_sub, take_app_length. done.
Qed.

Lemma walk_loop_body_run ls id c P bits s :
  good (ls ++ [id]) c P → id ∈ X → st_ok s → loop_id <$> loop_scopes s = ls → words_ok w bits →
  ∃ sc full s', walk_loop_body oper id bits c s = Ok (sc, s') ∧ evolves s s' ∧
    loop_scopes full = loop_scopes s' ++ [sc] ∧ dfcx full = dfcx s' ∧
    words_ok w (break_bits sc) ∧ loop_id sc = id ∧ cov_bits (break_bits sc) (in_out s) ∧
    (changed s' = false → ∀ i b t k, i < w * 64 → Bit i → cov (tb bits i) b → P t k →
      covers i full t k b ∧ (k = Normal → cov (tb (E s' id) i) (after (G i) (K i) t b))).
Proof.
  intros Hc HX Hs Hls Hbits. unfold walk_loop_body. rewrite get_bits_bind.
  set (sc0 := mkLoopScope id (in_out s)).
  assert (st_ok (push sc0 s)) as Hs4 by (by apply st_ok_push; [|apply ok_bits|]).
  rewrite (M_bind_step _ _ s tt (push sc0 s)) by done.
  destruct (good_on_bits (ls ++ [id]) c P bits (push sc0 s)) as (s5 & Hr5 & Hev5 & Hq5);
    [done|done|simpl; by rewrite fmap_app, Hls|done|].
  rewrite (M_bind_step _ _ _ _ _ Hr5). pose proof (ev_ok _ _ Hev5) as Hs5.
  set (s5' := with_bits (in_out (push sc0 s)) s5). pose proof (ok_bits _ Hs) as Hb.
  destruct (add_to_entry_set_run id (in_out s5) s5') as (s6 & Hr6 & Hev6 & Hin6 & Hcov6);
    [by apply st_ok_with_bits|done|by apply ok_bits|].
  rewrite (M_bind_step _ _ _ _ _ Hr6). apply (proj1 (evolves_from_bits _ _ _)) in Hev6.
  destruct (evolves_pop sc0 s s6) as (sc & l & Heq & [Hid Hgr] & Hbsc & Hpop & Hev); [done|by eapply evolves_trans|].
  exists sc, (with_bits (in_out s5) s6). eexists. split_and!; [exact Hpop|done..|].
  intros Hch i b t k Hi HI Hcb HP. pose proof (ev_quiet _ _ Hev6 Hch) as [Hch5 _].
  specialize (Hq5 Hch5 i b t k Hi HI Hcb HP). split.
  - eapply covers_evolves; [done| |done| |exact Hq5]; [|intros; apply cov_refl].
    apply (evolves_with_bits (in_out s5)); [by apply ok_bits|by apply evolves_from_bits].
  - intros ->. eapply cov_trans; [by apply Hcov6|apply Hq5].
Qed.

(** The iterations of a loop are accounted for, when its parts are. *)
Section iterations.
Context (i : nat) (endless : bool) (id : NodeId) (depth : nat) (Pc Pb : list event → ending → Prop).
Context (bits : list N) (s : walk_state).
Abbreviation after := (after (G i) (K i)).

Context (Hcond : ∀ b t, cov (tb (E s id) i) b → Pc t Normal →
  covers i s t Stopped b ∧ cov (tb bits i) (after t b)).
Context (Hcond_exit : ∀ b t k, cov (tb (E s id) i) b → Pc t k → k ≠ Normal → covers i s t k b).
Context (Hend : ∀ b, endless = false → cov (tb bits i) b → cov (tb (in_out s) i) b).
Context (Hbody : ∀ b t k, cov (tb bits i) b → Pb t k → k ∈ [Normal; Again depth] →
  covers i s t Stopped b ∧ cov (tb (E s id) i) (after t b)).
Context (Hbody_break : ∀ b t, cov (tb bits i) b → Pb t (Break depth) → covers i s t Normal b).
Context (Hbody_exit : ∀ b t k, cov (tb bits i) b → Pb t k →
  k ∉ [Normal; Again depth; Break depth] → covers i s t k b).

Lemma covers_visit b t k : cov (tb (E s id) i) b → covers i s t k b → covers i s (Visit id :: t) k b.
Proof. intros Hb [Hv He]. by split. Qed.

Lemma loop_covered b t k :
  cov (tb (E s id) i) b → loop_path endless id depth Pc Pb t k → covers i s t k b.
Proof using All.
  intros Hb Hp. revert b Hb. induction Hp as [|t k HP Hk|t Hen HP|t t' k HP HB Hk|t t' HP HB
    |t t' k t'' k' HP HB Hk _ IH]; intros b Hb; [apply covers_stopped|apply covers_visit; [done|]..].
  - by apply Hcond_exit.
  - destruct (Hcond b t) as [[Hv _] Hc]; [done..|]. split; [done|]. by apply Hend.
  - destruct (Hcond b t) as [Hv Hc]; [done..|]. apply covers_seq; [done|]. by apply Hbody_exit.
  - destruct (Hcond b t) as [Hv Hc]; [done..|]. apply covers_seq; [done|]. by apply Hbody_break.
  - destruct (Hcond b t) as [Hv Hc]; [done..|]. apply covers_seq; [done|].
    destruct (Hbody _ t' k Hc) as [Hv' Hc']; [done..|]. apply covers_seq; [done|]. by apply IH.
Qed.
End iterations.

(** Leaving the innermost loop. *)
Lemma covers_outer i s full sc t k b :
  loop_scopes full = loop_scopes s ++ [sc] → (∀ id, E full id = E s id) →
  k ∉ [Normal; Again (length (loop_scopes s)); Break (length (loop_scopes s))] →
  covers i full t k b → covers i s t k b.
Proof.
  intros Hsc HE Hk [Hv He]. split; [eapply visits_mono, Hv; intros id b'; by rewrite <-HE|]. cbv zeta in *.
  assert (∀ j sc', loop_scopes full !! j = Some sc' → j ≠ length (loop_scopes s) →
    loop_scopes s !! j = Some sc') as Hj.
  { intros j sc' Hl Hne. rewrite Hsc in Hl. apply lookup_snoc_Some in Hl as [[_ ?]|[? _]]; [done|].
    by subst. }
  destruct k as [|j|j|]; [set_solver| | |done]; destruct He as (sc' & Hl & He);
    (apply Hj in Hl; [|set_solver]); exists sc'; by rewrite <-?HE.
Qed.

Lemma copy_to_bits_run bits s :
  st_ok s → words_ok w bits → copy_to_bits bits s = Ok (tt, with_bits bits s).
Proof.
  intros Hs Hb. unfold copy_to_bits. rewrite get_bits_bind. unfold copy_bits.
  destruct (bitwise_spec _ _ _ _ _ snd_ok (ok_bits _ Hs) Hb) as (c & ch & -> & Hc & Ht & _).
  rewrite lift_bind. by rewrite (words_ext w c bits).
Qed.

(** The end of the loop: the bits of its breaks. *)
Lemma loop_exit_run (endless : bool) id sc s :
  st_ok s → loop_id sc = id → words_ok w (break_bits sc) →
  (_ ← (if endless then lift (assert_ (loop_id sc =? id)%N) else mret tt);
   copy_to_bits (break_bits sc)) s = Ok (tt, with_bits (break_bits sc) s).
Proof.
  intros Hs Hid Hb. rewrite (M_bind_step _ _ s tt s); [by apply copy_to_bits_run|].
  destruct endless; [|done]. rewrite Hid. by rewrite N.eqb_refl.
Qed.

(** The states of one pass over a loop: after the merge, after the condition,
    inside the loop, and at its end. *)
Record loop_pass (ls : list NodeId) (endless : bool) (id : NodeId) (Pc Pb : list event → ending → Prop)
    (s s1 s2 full s8 : walk_state) (sc : LoopScope) : Prop := {
  lp_merge : evolves s s1 ∧ in_out s1 = E s1 id ∧ cov_bits (E s1 id) (in_out s);
  lp_cond : evolves s1 s2;
  lp_cond_paths : changed s2 = false → ∀ i b t k,
    i < w * 64 → Bit i → cov (tb (in_out s1) i) b → Pc t k → covers i s2 t k b;
  lp_end : evolves s2 s8 ∧ in_out s8 = break_bits sc;
  lp_scope : loop_scopes full = loop_scopes s8 ++ [sc] ∧ dfcx full = dfcx s8 ∧ loop_id sc = id;
  lp_breaks : endless = false → cov_bits (break_bits sc) (in_out s2);
  lp_body_paths : changed s8 = false → ∀ i b t k, i < w * 64 → Bit i → cov (tb (in_out s2) i) b → Pb t k →
    covers i full t k b ∧ (k = Normal → cov (tb (E s8 id) i) (after (G i) (K i) t b))
}.

Lemma loop_pass_run ls (endless : bool) id cond body Pc Pb s :
  good ls cond Pc → good (ls ++ [id]) body Pb → id ∈ X → st_ok s → loop_id <$> loop_scopes s = ls →
  ∃ s1 s2 full s8 sc,
    (_ ← merge_with_entry_set oper id;
     _ ← cond;
     body_bits ← get_bits;
     _ ← (if endless then reset oper else mret tt);
     sc ← walk_loop_body oper id body_bits body;
     _ ← (if endless then lift (assert_ (loop_id sc =? id)%N) else mret tt);
     copy_to_bits (break_bits sc)) s = Ok (tt, s8) ∧
    loop_pass ls endless id Pc Pb s s1 s2 full s8 sc.
Proof.
  intros Hcond Hbody HX Hs Hls.
  destruct (merge_run id s) as (s1 & Hr1 & Hev1 & Hin1 & Hcov1); [done..|].
  rewrite (M_bind_step _ _ _ _ _ Hr1). pose proof (ev_ok _ _ Hev1) as Hs1.
  destruct (Hcond s1) as (s2 & Hr2 & Hev2 & Hq2); [done|by apply (evolves_ids s s1)|].
  rewrite (M_bind_step _ _ _ _ _ Hr2), get_bits_bind. pose proof (ev_ok _ _ Hev2) as Hs2.
  pose proof (ok_bits _ Hs2) as Hb2.
  destruct (reset_if_run endless s2 Hs2) as (bits & Hbits & Hr3 & Hkeep). rewrite (M_bind_step _ _ _ _ _ Hr3).
  destruct (walk_loop_body_run ls id body Pb (in_out s2) (with_bits bits s2))
    as (sc & full & s7 & Hr7 & Hev7 & Hfull & Hd & Hbsc & Hid & Hgr & Hq7);
    [done|done|by apply st_ok_with_bits|by eapply (evolves_ids s1 s2), evolves_ids|done|].
  rewrite (M_bind_step _ _ _ _ _ Hr7). pose proof (ev_ok _ _ Hev7) as Hs7.
  exists s1, s2, full, (with_bits (break_bits sc) s7), sc. split; [by apply loop_exit_run|].
  constructor; try done.
  - split; [|done]. apply (evolves_with_bits bits); done.
  - intros Hen. by rewrite <-(Hkeep Hen).
Qed.

Lemma good_loop ls (endless : bool) id cond body Pc Pb :
  good ls cond Pc → good (ls ++ [id]) body Pb → id ∈ X →
  good ls (_ ← merge_with_entry_set oper id;
           _ ← cond;
           body_bits ← get_bits;
           _ ← (if endless then reset oper else mret tt);
           sc ← walk_loop_body oper id body_bits body;
           _ ← (if endless then lift (assert_ (loop_id sc =? id)%N) else mret tt);
           copy_to_bits (break_bits sc))
    (loop_path endless id (length ls) Pc Pb).
Proof.
  intros Hcond Hbody HX s Hs Hls.
  destruct (loop_pass_run ls endless id cond body Pc Pb s) as (s1 & s2 & full & s8 & sc & Hr &
    [(Hev1 & Hin1 & Hcov1) Hev2 Hq2 [Hev28 Hin8] (Hfull & Hd & Hid) Hgr Hq7]); [done..|].
  assert (evolves s s2) as Hev02 by (by apply (evolves_trans s s1)).
  exists s8. split_and!; [done|by apply (evolves_trans s s2)|].
  intros Hch i b t k Hi HI Hb Hp. pose proof (ev_quiet _ _ Hev28 Hch) as [Hch2 HE2].
  pose proof (ev_quiet _ _ Hev2 Hch2) as [_ HE1].
  assert (∀ id', E s8 id' = E s1 id') as HE by (intros; by rewrite HE2).
  assert (length (loop_scopes s8) = length ls) as Hlen.
  { rewrite <-Hls, length_fmap. rewrite <-(Forall2_length _ _ _ (ev_scopes _ _ Hev28)).
    by rewrite <-(Forall2_length _ _ _ (ev_scopes _ _ Hev02)). }
  assert (loop_scopes full !! length ls = Some sc) as Hlast.
  { by rewrite Hfull, <-Hlen, lookup_app_r, Nat.sub_diag. }
  apply (loop_covered i endless id (length ls) Pc Pb (in_out s2) s8); [..|done].
  - intros b' t' Hb' HP. rewrite HE, <-Hin1 in Hb'. pose proof (Hq2 Hch2 i b' t' Normal Hi HI Hb' HP) as Hc.
    split; [|apply Hc]. eapply covers_evolves; [done|exact Hev28|done|done|]. by eapply covers_prefix.
  - intros b' t' k' Hb' HP Hk. rewrite HE, <-Hin1 in Hb'.
    eapply covers_evolves; [done|exact Hev28|done|done|]. by apply Hq2.
  - intros b' Hen Hb'. rewrite Hin8. eapply cov_trans; [by apply (Hgr Hen)|done].
  - intros b' t' k' Hb' HP Hk. destruct (Hq7 Hch i b' t' k' Hi HI Hb' HP) as [[Hv He] Hn].
    rewrite Hd in Hv. split; [by split|]. apply list_elem_of_In in Hk as [<-|[<-|[]]]; [by apply Hn|].
    destruct He as (sc' & Hsc & He). simplify_eq/=. by rewrite Hd in He.
  - intros b' t' Hb' HP. destruct (Hq7 Hch i b' t' _ Hi HI Hb' HP) as [[Hv He] _].
    rewrite Hd in Hv. split; [done|]. destruct He as (sc' & Hsc & He). simplify_eq/=. by rewrite Hin8.
  - intros b' t' k' Hb' HP Hk. destruct (Hq7 Hch i b' t' k' Hi HI Hb' HP) as [Hc _].
    rewrite <-Hlen in Hk. eapply (covers_outer _ _ full sc); [done|intros; by rewrite Hd|done|done].
  - rewrite HE. eapply cov_trans; [by apply Hcov1|done].
Qed.

(** ** Bodies *)

Lemma good_run :
  (∀ c ls, cmd_ok tcx region_maps ls c = true → (∀ id, id ∈ cmd_ids c → id ∈ X) →
    (∀ i, Bit i → guards_pass tcx region_maps (keeps i) ls c) → good ls (run c) (path tcx region_maps ls c)) ∧
  (∀ l ls, arms_ok tcx region_maps ls l = true → (∀ id, id ∈ arms_ids l → id ∈ X) →
    (∀ i, Bit i → arms_pass tcx region_maps (keeps i) ls l) → good_arms ls (run_arms l) (path_arms tcx region_maps ls l)).
Proof.
  apply cmd_arms_ind; cbn [cmd_ok arms_ok cmd_ids arms_ids guards_pass arms_pass].
  - intros ls _ _ _. eapply good_weaken, good_ret. intros t k Hp; exact Hp.
  - done.
  - intros id ls _ HX _. eapply good_weaken, good_enter; [intros t k Hp; exact Hp|]. apply HX. by left.
  - intros id ls _ _ _. eapply good_weaken, good_exit. intros t k Hp; exact Hp.
  - intros a IHa b IHb ls [Ha Hb]%andb_true_iff HX Hp. setoid_rewrite elem_of_app in HX.
    eapply good_weaken, good_seq; [intros t k Hp'; exact Hp'|apply IHa; naive_solver|apply IHb; naive_solver].
  - intros ls _ _ _. eapply good_weaken, good_reset. intros t k Hp; exact Hp.
  - intros a IHa b IHb ls [Ha Hb]%andb_true_iff HX Hp. setoid_rewrite elem_of_app in HX.
    eapply good_weaken, good_branch; [intros t k Hp'; exact Hp'|apply IHa; naive_solver|apply IHb; naive_solver].
  - intros endless id cond IHc body IHb ls [Hc Hb]%andb_true_iff HX Hp.
    setoid_rewrite elem_of_cons in HX. setoid_rewrite elem_of_app in HX.
    eapply good_weaken, good_loop; [intros t k Hp'; exact Hp'|apply IHc; naive_solver|apply IHb; naive_solver|auto].
  - intros exhaustive l IH ls Hl HX Hp. eapply good_weaken, good_match; [intros t k Hp'; exact Hp'|]. by apply IH.
  - intros id label ls Hj _ _. by apply good_break.
  - intros id label ls Hj _ _. by apply good_again.
  - intros ls _ _ _. apply good_arms_nil.
  - intros guard IHg body IHb l IHl ls [[Hg Hb]%andb_true_iff Hl]%andb_true_iff HX Hp.
    setoid_rewrite elem_of_app in HX. setoid_rewrite elem_of_app in HX.
    apply good_arms_cons; [apply IHg; naive_solver|apply IHb; naive_solver|apply IHl; naive_solver|].
    intros i Hi. apply (Hp i Hi).
Qed.

(** ** Passes *)

(** The bits of a set that can still change. *)
Definition unset (l : list N) : nat :=
  length (List.filter (λ i, Bool.eqb (tb l i) (initial_value oper)) (seq 0 (w * 64))).

Lemma filter_length_mono {A} (p q : A → bool) l :
  (∀ x, In x l → p x = true → q x = true) → length (List.filter p l) ≤ length (List.filter q l).
Proof.
  induction l as [|x l IH]; intros Hpq; simpl; [done|].
  specialize (IH (λ y Hy, Hpq y (or_intror Hy))). pose proof (Hpq x (or_introl eq_refl)) as Hx.
  destruct (p x) eqn:Hp; [rewrite Hx by done; simpl; lia|]. destruct (q x); simpl; lia.
Qed.

Lemma filter_length_strict {A} (p q : A → bool) l x :
  (∀ x, In x l → p x = true → q x = true) → In x l → p x = false → q x = true →
  length (List.filter p l) < length (List.filter q l).
Proof.
  intros Hpq Hx Hp Hq. induction l as [|y l IH]; [done|]. simpl.
  pose proof (filter_length_mono p q l (λ y Hy, Hpq y (or_intror Hy))) as Hle.
  pose proof (Hpq y (or_introl eq_refl)) as Hy. destruct Hx as [->|Hx].
  - rewrite Hp, Hq. simpl. lia.
  - specialize (IH (λ y Hy, Hpq y (or_intror Hy)) Hx).
    destruct (p y) eqn:Hpy; [rewrite Hy by done; simpl; lia|]. destruct (q y); simpl; lia.
Qed.

Lemma cov_unset e b : cov e b → Bool.eqb e (initial_value oper) = true → Bool.eqb b (initial_value oper) = true.
Proof. unfold cov, joinb. by destruct (initial_value oper), e, b. Qed.

Lemma unset_mono l k : cov_bits l k → unset l ≤ unset k.
Proof. intros Hc. apply filter_length_mono. intros i Hi%in_seq. apply cov_unset, Hc. lia. Qed.

Lemma unset_strict l k : words_ok w l → words_ok w k → cov_bits l k → l ≠ k → unset l < unset k.
Proof.
  intros Hl Hk Hc Hne.
  destruct (decide (Exists (λ i, tb l i ≠ tb k i) (seq 0 (w * 64)))) as [Hex|Hall].
  - apply Exists_exists in Hex as (i & Hi%list_elem_of_In & Hd).
    assert (i < w * 64) as Hi' by (apply in_seq in Hi; lia). specialize (Hc i Hi') as Hci.
    eapply filter_length_strict; [|exact Hi| |].
    + intros j Hj%in_seq. apply cov_unset, Hc. lia.
    + unfold cov, joinb in Hci. by destruct (initial_value oper), (tb l i), (tb k i).
    + unfold cov, joinb in Hci. by destruct (initial_value oper), (tb l i), (tb k i).
  - destruct Hne. eapply words_ext; [done..|]. intros i Hi.
    apply not_Exists_Forall in Hall; [|apply _]. rewrite Forall_forall in Hall.
    destruct (decide (tb l i = tb k i)) as [|Hd]; [done|]. exfalso. eapply Hall; [|exact Hd].
    apply list_elem_of_In, in_seq. lia.
Qed.

Definition measure (s : walk_state) : nat := sum_list_with (λ id, unset (E s id)) (elements X).

Lemma measure_bound s : measure s ≤ size X * (w * 64).
Proof.
  unfold measure. change (size X) with (length (elements X)). induction (elements X) as [|id l IH]; simpl; [lia|].
  assert (unset (E s id) ≤ w * 64); [|lia]. unfold unset. etrans; [apply filter_length_le|].
  by rewrite length_seq.
Qed.

Lemma sum_list_with_strict {A} (f g : A → nat) l x :
  (∀ y, f y ≤ g y) → x ∈ l → f x < g x → sum_list_with f l < sum_list_with g l.
Proof.
  intros Hle Hx Hlt. assert (∀ l, sum_list_with f l ≤ sum_list_with g l) as Hall.
  { intros l'. induction l' as [|y l' IH]; simpl; [lia|]. specialize (Hle y). lia. }
  induction Hx as [x l|x y l Hx IH]; simpl; [specialize (Hall l)|specialize (Hle y)]; lia.
Qed.

(** A pass that changes something leaves fewer bits to change. *)
Lemma measure_strict s s' :
  st_ok s → evolves s s' → changed s = false → changed s' = true → measure s' < measure s.
Proof.
  intros Hs Hev Hq Hch. destruct (ev_loud _ _ Hev Hch) as [?|(id & HX & Hne)]; [congruence|].
  apply (sum_list_with_strict _ _ _ id); [|by apply elem_of_elements|].
  - intros id'. by apply unset_mono, ev_grow.
  - apply unset_strict; [by eapply E_ok, ev_ok|by apply E_ok|by apply ev_grow|done].
Qed.

Section propagate.
Context (method_map : gset NodeId) (blk : Block).
Abbreviation body := (flow_block tcx method_map blk).
Context (Hok : cmd_ok tcx region_maps [] body = true) (HX : ∀ id, id ∈ cmd_ids body → id ∈ X).
Context (Hpass : ∀ i, Bit i → guards_pass tcx region_maps (keeps i) [] body).
Abbreviation propagate_loop := (propagate_loop oper tcx region_maps method_map).

(** All paths from the start of the body are accounted for. *)
Definition settled (s : walk_state) : Prop :=
  st_ok s ∧ ∀ i t k, i < w * 64 → Bit i → path tcx region_maps [] body t k →
    covers i s t k (initial_value oper).

Lemma tb_reset i bits : words_ok w bits → i < w * 64 → tb (reset_bits oper bits) i = initial_value oper.
Proof.
  intros [Hl _] Hi. assert (reset_bits oper bits = replicate w (entry_word oper)) as ->.
  { unfold reset_bits. rewrite <-Hl. clear. induction bits as [|x l IH]; [done|]. rewrite fmap_cons. simpl. by f_equal. }
  rewrite tb_replicate by done. unfold entry_word. destruct (initial_value oper); [|apply N.bits_0].
  apply testbit_max. pose proof (Nat.mod_upper_bound i 64). lia.
Qed.

Lemma pass_run s :
  st_ok s → loop_scopes s = [] →
  ∃ s', (_ ← reset oper; walk_block oper tcx region_maps method_map blk) s = Ok (tt, s') ∧ evolves s s' ∧
    (changed s' = false → settled s').
Proof using All.
  intros Hs Hl. set (s0 := with_bits (reset_bits oper (in_out s)) s).
  assert (words_ok w (reset_bits oper (in_out s))) as Hr0 by (by apply reset_bits_ok, ok_bits).
  rewrite (M_bind_step _ _ s tt s0) by done.
  destruct (proj1 good_run body [] Hok HX Hpass s0) as (s' & Hr & Hev & Hq);
    [by apply st_ok_with_bits|simpl; by rewrite Hl|].
  exists s'. split_and!; [by rewrite walk_block_run|by eapply evolves_from_bits|].
  intros Hch. split; [by eapply ev_ok|]. intros i t k Hi HI Hp. apply Hq; [done..| |done].
  simpl. rewrite tb_reset by (done || by apply ok_bits). apply cov_refl.
Qed.

Lemma propagate_loop_run fuel s :
  st_ok s → loop_scopes s = [] → changed s = true →
  (measure s < fuel → ∃ d, propagate_loop fuel blk s = Ok d) ∧
  (∀ d, propagate_loop fuel blk s = Ok d → ∃ s', dfcx s' = d ∧ settled s').
Proof using All.
  induction fuel as [|fuel IH] in s |- *; intros Hs Hl Hch; cbn [DataFlow.propagate_loop]; rewrite Hch; simpl negb;
    cbv iota; [split; [lia|done]|].
  set (s0 := mkWalk (dfcx s) false (in_out s) (loop_scopes s)).
  assert (st_ok s0) as Hs0 by (destruct Hs; by constructor).
  destruct (pass_run s0) as (s1 & -> & Hev & Hset); [done..|]. simpl_ok.
  assert (loop_scopes s1 = []) as Hl1.
  { pose proof (ev_scopes _ _ Hev) as Hsc. simpl in Hsc. rewrite Hl in Hsc. by apply Forall2_nil_inv_l in Hsc. }
  destruct (changed s1) eqn:Hch1.
  - destruct (IH s1) as [IH1 IH2]; [by eapply ev_ok|done..|]. split; [|done]. intros Hm. apply IH1.
    pose proof (measure_strict s0 s1 Hs0 Hev eq_refl Hch1) as Hlt.
    assert (measure s0 = measure s) by done. lia.
  - assert (propagate_loop fuel blk s1 = Ok (dfcx s1)) as -> by (destruct fuel; simpl; by rewrite Hch1).
    split; [eauto|]. intros d [= <-]. exists s1. split; [done|]. by apply Hset.
Qed.
End propagate.
End sound.
