(* ===== verification/DataFlowCorrect.v ===== *)
(** The contract of [DataFlowContext]: what the gen and kill sets hold after
    they are filled, what [propagate] leaves on entry to the nodes, and what
    [each_bit_on_entry_frozen] reads back. *)

From stdpp Require Import prelude gmap list.
From S2P Require Import Prelude Ast RegionMaps Ty DataFlow DataFlowBits FlowCmd FlowPaths DataFlowSound.

(** ** Filling a context *)

Inductive set_op := AddGen (id : NodeId) (bit : nat) | AddKill (id : NodeId) (bit : nat).

#[export] Instance set_op_eq_dec : EqDecision set_op.
Proof. solve_decision. Defined.

Definition op_bit (op : set_op) : nat := match op with AddGen _ bit | AddKill _ bit => bit end.

Section fill.
Context (oper : DataFlowOperator).

Definition run_set_op (d : DataFlowContext) (op : set_op) : outcome DataFlowContext :=
  match op with
  | AddGen id bit => add_gen oper d id bit
  | AddKill id bit => add_kill oper d id bit
  end.

Fixpoint run_set_ops (d : DataFlowContext) (ops : list set_op) : outcome DataFlowContext :=
  match ops with
  | [] => Ok d
  | op :: ops' => d ← run_set_op d op; run_set_ops d ops'
  end.

Lemma new_context_wf n : n ≠ 0 → dfc_wf (new_context n).
Proof.
  intros Hn. constructor; unfold new_context;
    cbn [words_per_id bits_per_id nodeid_to_bitset gens kills on_entry].
  - change uint_bits with 64. apply Nat.div_str_pos. lia.
  - change uint_bits with 64. pose proof (Nat.div_mod_eq (n + 64 - 1) 64) as Hdm.
    pose proof (Nat.mod_upper_bound (n + 64 - 1) 64 ltac:(done)). lia.
  - split; [by intros id k; rewrite lookup_empty|by intros id id' k; rewrite lookup_empty].
  - by rewrite map_size_empty.
  - by rewrite map_size_empty.
  - by rewrite map_size_empty.
Qed.

(** One operation adds its bit, and nothing else. *)
Lemma run_set_op_spec d op :
  dfc_wf d → op_bit op < bits_per_id d →
  ∃ d', run_set_op d op = Ok d' ∧ dfc_wf d' ∧
    words_per_id d' = words_per_id d ∧ bits_per_id d' = bits_per_id d ∧
    (∀ id, entry_set oper d' id = entry_set oper d id) ∧
    ∀ id i, i < words_per_id d * 64 →
      tb (gen_set d' id) i = tb (gen_set d id) i || bool_decide (op = AddGen id i) ∧
      tb (kill_set d' id) i = tb (kill_set d id) i || bool_decide (op = AddKill id i).
Proof.
  intros Hwf Hbit. destruct op as [id0 bit|id0 bit]; cbn [op_bit run_set_op] in *.
  - destruct (add_gen_spec oper d id0 bit) as (d' & Hr & Hwf' & Hw & Hb & Hk & He & Hg); [done..|].
    exists d'. split_and!; [done..|]. intros id i Hi. rewrite Hg, Hk by done. split.
    + f_equal. apply Bool.eq_iff_eq_true. rewrite andb_true_iff, !bool_decide_eq_true, Nat.eqb_eq. naive_solver.
    + rewrite bool_decide_eq_false_2 by done. by rewrite orb_false_r.
  - destruct (add_kill_spec oper d id0 bit) as (d' & Hr & Hwf' & Hw & Hb & Hg & He & Hk); [done..|].
    exists d'. split_and!; [done..|]. intros id i Hi. rewrite Hg, Hk by done. split.
    + rewrite bool_decide_eq_false_2 by done. by rewrite orb_false_r.
    + f_equal. apply Bool.eq_iff_eq_true. rewrite andb_true_iff, !bool_decide_eq_true, Nat.eqb_eq. naive_solver.
Qed.

Lemma run_set_ops_spec d ops :
  dfc_wf d → Forall (λ op, op_bit op < bits_per_id d) ops →
  ∃ d', run_set_ops d ops = Ok d' ∧ dfc_wf d' ∧
    words_per_id d' = words_per_id d ∧ bits_per_id d' = bits_per_id d ∧
    (∀ id, entry_set oper d' id = entry_set oper d id) ∧
    ∀ id i, i < words_per_id d * 64 →
      tb (gen_set d' id) i = tb (gen_set d id) i || bool_decide (AddGen id i ∈ ops) ∧
      tb (kill_set d' id) i = tb (kill_set d id) i || bool_decide (AddKill id i ∈ ops).
Proof.
  induction ops as [|op ops IH] in d |- *; intros Hwf Hops.
  { exists d. split_and!; [done..|]. intros id i Hi. by rewrite !bool_decide_eq_false_2, !orb_false_r by set_solver. }
  apply Forall_cons in Hops as [Hop Hops].
  destruct (run_set_op_spec d op Hwf Hop) as (d1 & Hr1 & Hwf1 & Hw1 & Hb1 & He1 & H1).
  destruct (IH d1 Hwf1) as (d2 & Hr2 & Hwf2 & Hw2 & Hb2 & He2 & H2); [by rewrite Hb1|].
  exists d2. simpl. rewrite Hr1. simpl. split_and!; [done|done|congruence|congruence| |].
  - intros id. by rewrite He2.
  - intros id i Hi. destruct (H1 id i Hi) as [Hg1 Hk1]. destruct (H2 id i) as [Hg2 Hk2]; [by rewrite Hw1|].
    rewrite Hg2, Hk2, Hg1, Hk1, <-!orb_assoc. split; f_equal; rewrite <-bool_decide_or;
      apply bool_decide_ext; rewrite elem_of_cons; naive_solver.
Qed.
End fill.

Lemma new_context_sets oper n id i :
  i < n →
  tb (gen_set (new_context n) id) i = false ∧ tb (kill_set (new_context n) id) i = false ∧
  tb (entry_set oper (new_context n) id) i = initial_value oper.
Proof.
  intros Hi. pose proof (new_context_wf n ltac:(lia)) as [Hw Hb _ _ _ _].
  change (bits_per_id (new_context n)) with n in Hb.
  unfold gen_set, kill_set, entry_set, view. change (nodeid_to_bitset (new_context n)) with (∅ : gmap NodeId nat).
  rewrite lookup_empty, !tb_replicate by lia. split_and!; [apply N.bits_0..|].
  unfold entry_word. destruct (initial_value oper); [|apply N.bits_0].
  apply testbit_max. pose proof (Nat.mod_upper_bound i 64). lia.
Qed.

(** Filling a new context with [add_gen] and [add_kill], with bits below
    [bits_per_id], never fails, whatever the number of nodes; the gen and kill
    sets of every node then hold exactly the bits that were added to it, and
    the sets on entry still hold the initial value of the operator. *)
Theorem fill_correct (oper : DataFlowOperator) (n : nat) (ops : list set_op) :
  n ≠ 0 → Forall (λ op, op_bit op < n) ops →
  ∃ d, run_set_ops oper (new_context n) ops = Ok d ∧ dfc_wf d ∧ bits_per_id d = n ∧
    ∀ id i, i < n →
      tb (gen_set d id) i = bool_decide (AddGen id i ∈ ops) ∧
      tb (kill_set d id) i = bool_decide (AddKill id i ∈ ops) ∧
      tb (entry_set oper d id) i = initial_value oper.
Proof.
  intros Hn Hops. pose proof (new_context_wf n Hn) as Hwf0.
  destruct (run_set_ops_spec oper (new_context n) ops Hwf0 Hops) as (d & Hr & Hwf & Hw & Hb & He & H).
  exists d. split_and!; [done..|]. intros id i Hi.
  destruct (new_context_sets oper n id i Hi) as (Hg0 & Hk0 & He0).
  assert (i < words_per_id (new_context n) * 64) as Hi' by (eapply Nat.lt_le_trans; [done|apply (wf_bits _ Hwf0)]).
  destruct (H id i Hi') as [Hg Hk]. by rewrite Hg, Hk, He, Hg0, Hk0, He0.
Qed.

(** ** Propagation *)

Section propagate.
Context (oper : DataFlowOperator) `{!JoinOk oper}.
Context (tcx : ctxt) (region_maps : RegionMaps) (method_map : gset NodeId).
Abbreviation propagate := (propagate oper tcx region_maps method_map).
Abbreviation flow_block := (flow_block tcx method_map).

Definition body_nodes (blk : Block) : gset NodeId := list_to_set (cmd_ids (flow_block blk)).

Lemma start_ok d X : dfc_wf d → st_ok d X (mkWalk d true (replicate (words_per_id d) 0%N) []).
Proof. intros Hwf. constructor; simpl; try done. by apply words_ok_replicate. Qed.

Lemma propagate_run d blk fuel (Bit : nat → Prop) :
  dfc_wf d → bits_per_id d ≠ 0 → cmd_ok tcx region_maps [] (flow_block blk) = true →
  (∀ i, Bit i → guards_pass tcx region_maps (keeps oper d i) [] (flow_block blk)) →
  (size (body_nodes blk) * (words_per_id d * 64) < fuel → ∃ d', propagate fuel d blk = Ok d') ∧
  (∀ d', propagate fuel d blk = Ok d' →
    ∃ s', dfcx s' = d' ∧ settled oper tcx region_maps d (body_nodes blk) Bit method_map blk s').
Proof using All.
  intros Hwf Hb Hok Hpass. unfold DataFlow.propagate. rewrite (proj2 (Nat.eqb_neq _ 0) Hb).
  assert (∀ id, id ∈ cmd_ids (flow_block blk) → id ∈ body_nodes blk) as HX.
  { intros id Hid. by apply elem_of_list_to_set. }
  set (s := mkWalk d true (replicate (words_per_id d) 0%N) []).
  destruct (propagate_loop_run oper tcx region_maps d (body_nodes blk) Bit method_map blk Hok HX Hpass fuel s)
    as [H1 H2]; [by apply start_ok|done..|].
  split; [|done]. intros Hfuel. apply H1.
  pose proof (measure_bound oper d (body_nodes blk) s). lia.
Qed.

Lemma propagate_total (d : DataFlowContext) (blk : Block) (fuel : nat) :
  (bits_per_id d ≠ 0 → dfc_wf d) → cmd_ok tcx region_maps [] (flow_block blk) = true →
  size (body_nodes blk) * (words_per_id d * 64) < fuel →
  ∃ d', propagate fuel d blk = Ok d'.
Proof using All.
  intros Hwf Hok Hfuel. destruct (decide (bits_per_id d = 0)) as [Hb|Hb].
  - exists d. unfold DataFlow.propagate. by rewrite (proj2 (Nat.eqb_eq _ 0) Hb).
  - by eapply (propagate_run d blk fuel (λ _, False)); eauto.
Qed.

(** C7. On a body whose jumps are well formed [propagate] returns.  Every pass
    but the last changes a bit of a node of the body, and no bit changes twice,
    so one pass more than there are such bits is enough. *)
Theorem propagate_returns (d : DataFlowContext) (blk : Block) (fuel : nat) :
  (bits_per_id d ≠ 0 → dfc_wf d) → cmd_ok tcx region_maps [] (flow_block blk) = true →
  size (body_nodes blk) * (words_per_id d * 64) < fuel →
  ∃ d', propagate fuel d blk = Ok d'.
Proof using All. apply propagate_total. Qed.

Lemma visits_split (gen kill : NodeId → bool) (P : NodeId → bool → Prop) t id t' b :
  visits gen kill P (t ++ Visit id :: t') b → P id (after gen kill t b).
Proof. intros [_ [HP _]]%visits_app. exact HP. Qed.

(** C6. What [propagate] leaves on entry to the nodes accounts for every path of a
    body whose guards can be passed: follow any path of the body from its start,
    through branches, arms, loop iterations, [break] and [loop] jumps, with the
    gen and kill sets applied to a bit on the way; whenever the path enters a
    node, the set on entry to that node absorbs the bit (it has the bit if the
    path has, for the union of the borrow checker).  On a path the guard of an
    arm is evaluated only if the pattern of the arm matches, and the variables of
    the pattern are bound when the arm is taken, after its guard.  The claim is for
    the bits such that each guard has an execution that comes to its end and
    loses nothing of the bit (in particular for every bit of a body without
    guards); with a guard that does not return it is false
    ([diverging_guard_forgets]).  The gen and kill sets are not changed. *)
Theorem propagate_sound (d : DataFlowContext) (blk : Block) (fuel : nat) (d' : DataFlowContext) :
  dfc_wf d → bits_per_id d ≠ 0 → cmd_ok tcx region_maps [] (flow_block blk) = true →
  propagate fuel d blk = Ok d' →
  (∀ id, gen_set d' id = gen_set d id ∧ kill_set d' id = kill_set d id) ∧
  ∀ i, i < bits_per_id d → guards_pass tcx region_maps (keeps oper d i) [] (flow_block blk) →
  ∀ t id t' k, path tcx region_maps [] (flow_block blk) (t ++ Visit id :: t') k →
    cov oper (tb (entry_set oper d' id) i)
      (after (λ id, tb (gen_set d id) i) (λ id, tb (kill_set d id) i) t (initial_value oper)).
Proof using All.
  intros Hwf Hb Hok Hr.
  destruct (propagate_run d blk fuel (λ i, guards_pass tcx region_maps (keeps oper d i) [] (flow_block blk)) Hwf Hb Hok)
    as [_ H]; [done|].
  destruct (H d' Hr) as (s' & <- & Hs & Hset). split.
  - intros id. split; [by apply (ok_gens _ _ _ Hs)|by apply (ok_kills _ _ _ Hs)].
  - intros i Hi Hp t id t' k Ht. pose proof (wf_bits _ Hwf).
    destruct (Hset i _ k ltac:(lia) Hp Ht) as [Hv _]. exact (visits_split _ _ _ _ _ _ _ Hv).
Qed.
End propagate.

(** ** Reading the result *)

(** [each_bit_on_entry_frozen] and [each_gen_bit_frozen] call the callback
    on exactly the bits of the node's set that are below [bits_per_id], in
    increasing order, and stop when it returns [false]; for a node that was
    never given a set they call it on nothing. *)
Theorem each_bit_frozen_correct (oper : DataFlowOperator) {S : Type} (f : nat → S → outcome (S * bool))
    (d : DataFlowContext) (id : NodeId) (s : S) :
  dfc_wf d →
  let known := bool_decide (is_Some (nodeid_to_bitset d !! id)) in
  let n := bits_per_id d in
  each_bit_on_entry_frozen f d id s
    = (if known then advance f (bits_of n (entry_set oper d id)) s else Ok (s, true)) ∧
  each_gen_bit_frozen f d id s
    = (if known then advance f (bits_of n (gen_set d id)) s else Ok (s, true)).
Proof.
  intros Hwf. cbv zeta. unfold each_bit_on_entry_frozen, each_gen_bit_frozen, compute_id_range_frozen.
  destruct (nodeid_to_bitset d !! id) as [n|] eqn:Hid; [|by rewrite bool_decide_eq_false_2 by (by intros [? ?])].
  rewrite bool_decide_eq_true_2 by eauto. simpl_ok.
  rewrite (slice_entry oper d id n), (slice_gens d id n) by done. simpl_ok. pose proof (wf_bits _ Hwf).
  split; (eapply each_bit_spec; [|done|done]); [by apply entry_set_ok|by apply gen_set_ok].
Qed.

(** ** Examples *)

Definition ex_path (id : NodeId) : Expr := mkExpr id (ExprPath []).
Definition ex_semi (e : Expr) : Stmt := StmtSemi e (expr_id e + 100).

(** [{ loop { a; if b { break } c; } d }], where [a] generates the only bit and
    [c] kills it. *)
Definition loop_body : Block :=
  mkBlock
    [ex_semi (ex_path 12);
     ex_semi (mkExpr 13 (ExprIf (ex_path 14) (mkBlock [ex_semi (mkExpr 16 (ExprBreak None))] None 15) None));
     ex_semi (ex_path 17)] None 11.
Definition loop_fn : Block :=
  mkBlock [ex_semi (mkExpr 10 (ExprLoop loop_body None))] (Some (ex_path 18)) 1.

Definition loop_maps : RegionMaps :=
  mkRegionMaps (list_to_map [(16%N, 15%N); (15%N, 13%N); (13%N, 11%N); (11%N, 10%N); (10%N, 1%N)]) ∅ ∅ ∅ ∅.
Definition flow_tcx : ctxt := mkCtxt ∅ ∅ (λ _, []) (λ _, []) (λ _, None) (λ _, None) (λ _, None).

Definition loop_ops : list set_op := [AddGen 12 0; AddKill 17 0].

Definition filled (n : nat) (ops : list set_op) : DataFlowContext :=
  match run_set_ops LoanDataFlowOperator (new_context n) ops with Ok d => d | Fail _ => new_context n end.

Lemma filled_wf n ops : n ≠ 0 → Forall (λ op, op_bit op < n) ops → dfc_wf (filled n ops).
Proof.
  intros Hn Hops. unfold filled.
  destruct (run_set_ops_spec LoanDataFlowOperator (new_context n) ops) as (d & -> & Hwf & _);
    [by apply new_context_wf|done|done].
Qed.

(** The bits on entry to a node, after a propagation that returns. *)
Definition entry_bits (r : outcome DataFlowContext) (id : NodeId) : option (list nat) :=
  match r with
  | Ok d => Some (bits_of (bits_per_id d) (entry_set LoanDataFlowOperator d id))
  | Fail _ => None
  end.

Abbreviation propagate_ex := (propagate LoanDataFlowOperator flow_tcx loop_maps ∅).

Lemma fill_correct_witness :
  ∃ d, run_set_ops LoanDataFlowOperator (new_context 70) [AddGen 12 65; AddKill 17 3] = Ok d ∧
    tb (gen_set d 12) 65 = true ∧ tb (kill_set d 17) 65 = false.
Proof.
  destruct (fill_correct LoanDataFlowOperator 70 [AddGen 12 65; AddKill 17 3])
    as (d & Hr & _ & _ & H); [done|repeat constructor; simpl; lia|].
  exists d. split; [done|]. split.
  - by rewrite (proj1 (H 12%N 65 ltac:(lia))).
  - by rewrite (proj1 (proj2 (H 17%N 65 ltac:(lia)))).
Defined.

Lemma propagate_returns_witness :
  cmd_ok flow_tcx loop_maps [] (flow_block flow_tcx ∅ loop_fn) = true ∧
  ∃ d', propagate_ex 700 (filled 1 loop_ops) loop_fn = Ok d'.
Proof.
  split; [vm_compute; reflexivity|].
  apply (propagate_returns LoanDataFlowOperator flow_tcx loop_maps ∅ (filled 1 loop_ops) loop_fn).
  - intros _. apply filled_wf; [done|repeat constructor].
  - vm_compute. reflexivity.
  - apply Nat.ltb_lt. vm_compute. reflexivity.
Defined.

(** The path that leaves the loop in its first iteration enters [d] with the
    bit that [a] generates. *)
Definition break_path : list event :=
  [Visit 1; Visit 10; Visit 11; Visit 12; Leave 12; Visit 13; Visit 14; Leave 14; Visit 15; Visit 16;
   Pop 16; Pop 15; Pop 13; Pop 11; Pop 16; Leave 10].

Ltac go := repeat first
  [ apply path_enter | apply path_exit | apply path_skip
  | eapply path_seq; [solve [go]|] | apply path_seq_exit; [|done] ].

Lemma loop_fn_path :
  path flow_tcx loop_maps [] (flow_block flow_tcx ∅ loop_fn) (break_path ++ [Visit 18]) Stopped.
Proof.
  eapply path_eq; [apply path_seq; [apply path_enter|apply path_seq]|].
  - apply path_seq; [apply path_seq; [|apply path_exit]|apply path_skip].
    right. eapply loop_breaks; [apply path_skip|]. apply path_seq; [apply path_enter|].
    apply path_seq_exit; [|done]. apply path_seq; [go|]. apply path_seq_exit; [|done].
    apply path_seq; [apply path_enter|]. apply path_seq_exit; [|done]. apply path_seq; [go|].
    apply path_branch_l, path_seq; [apply path_enter|]. do 2 (apply path_seq_exit; [|done]).
    apply path_seq; [apply path_enter|]. do 2 (apply path_seq_exit; [|done]).
    right. exists 0, 10%N, [16; 15; 13; 11]%N. by repeat split.
  - apply path_seq_exit; [|done]. apply path_seq; [apply path_enter|apply path_stop].
  - reflexivity.
Qed.

(** [{ a; match b { _ if g => c, _ => d } }], where [a] generates the bit, and the
    path into the second arm on which the first pattern does not match. *)
Definition match_fn (guard : Expr) : Block :=
  mkBlock [ex_semi (ex_path 12)]
    (Some (mkExpr 20 (ExprMatch (ex_path 21)
      [mkArm [mkPat 22 PatWild] (Some guard) (ex_path 24);
       mkArm [mkPat 25 PatWild] None (ex_path 26)]))) 1.
Definition skip_path : list event := [Visit 1; Visit 12; Leave 12; Visit 20; Visit 21; Leave 21].

Lemma match_fn_path maps guard :
  path flow_tcx maps [] (flow_block flow_tcx ∅ (match_fn guard)) (skip_path ++ [Visit 25]) Stopped.
Proof.
  eapply path_eq; [apply path_seq; [apply path_enter|apply path_seq]|].
  - apply path_seq; [|apply path_skip]. apply path_seq; [apply path_enter|]. apply path_seq; [apply path_skip|apply path_exit].
  - apply path_seq_exit; [|done]. apply path_seq; [apply path_enter|]. apply path_seq_exit; [|done].
    apply path_seq; [apply path_seq; [apply path_enter|]; apply path_seq; [apply path_skip|apply path_exit]|].
    right. right. left. right. right. exists [], [Visit 25]. split; [done|]. split; [apply path_skip|]. left.
    do 2 (apply path_seq_exit; [|done]). apply (path_seq _ _ _ _ _ [Visit 25] []); [apply path_enter|apply path_stop].
  - reflexivity.
Qed.

Lemma loop_fn_pass (P : list event → Prop) : guards_pass flow_tcx loop_maps P [] (flow_block flow_tcx ∅ loop_fn).
Proof. cbn. by repeat split. Qed.

Lemma match_fn_pass maps (P : list event → Prop) :
  P [Visit 23; Leave 23] → P [] → guards_pass flow_tcx maps P [] (flow_block flow_tcx ∅ (match_fn (ex_path 23))).
Proof.
  intros H1 H2. cbn -[path]. split_and!; try exact Logic.I.
  - exists [Visit 23; Leave 23]. split; [|exact H1]. apply (path_seq _ _ _ _ _ [Visit 23]); [apply path_enter|].
    apply (path_seq _ _ _ _ _ []); [apply path_skip|apply path_exit].
  - exists []. split; [apply path_skip|exact H2].
Qed.

Lemma propagate_sound_witness :
  (entry_bits (propagate_ex 700 (filled 1 loop_ops) loop_fn) 18 = Some [0] ∧
   ∀ d', propagate_ex 700 (filled 1 loop_ops) loop_fn = Ok d' →
     cov LoanDataFlowOperator (tb (entry_set LoanDataFlowOperator d' 18) 0) true) ∧
  (∀ d', propagate_ex 700 (filled 1 loop_ops) (match_fn (ex_path 23)) = Ok d' →
     cov LoanDataFlowOperator (tb (entry_set LoanDataFlowOperator d' 25) 0) true).
Proof.
  split; [split; [vm_compute; reflexivity|]|]; intros d' Hr.
  - destruct (propagate_sound LoanDataFlowOperator flow_tcx loop_maps ∅ (filled 1 loop_ops) loop_fn 700 d')
      as [_ H]; [apply filled_wf; [done|repeat constructor]|done|vm_compute; reflexivity|done|].
    refine (H 0 _ _ break_path 18%N [] Stopped loop_fn_path); [apply Nat.ltb_lt; vm_compute; reflexivity|].
    apply loop_fn_pass.
  - destruct (propagate_sound LoanDataFlowOperator flow_tcx loop_maps ∅ (filled 1 loop_ops) (match_fn (ex_path 23)) 700 d')
      as [_ H]; [apply filled_wf; [done|repeat constructor]|done|vm_compute; reflexivity|done|].
    refine (H 0 _ _ skip_path 25%N [] Stopped (match_fn_path _ _)); [apply Nat.ltb_lt; vm_compute; reflexivity|].
    apply match_fn_pass; intros []; vm_compute; reflexivity.
Defined.

Lemma each_bit_frozen_correct_witness :
  each_bit_on_entry_frozen (λ i l, Ok (l ++ [i], true)) (filled 3 loop_ops) 12 [] = Ok ([], true) ∧
  each_gen_bit_frozen (λ i l, Ok (l ++ [i], true)) (filled 3 loop_ops) 12 [] = Ok ([0], true).
Proof.
  destruct (each_bit_frozen_correct LoanDataFlowOperator (λ i l, Ok (l ++ [i], true)) (filled 3 loop_ops) 12 [])
    as [H1 H2]; [apply filled_wf; [done|repeat constructor; simpl; lia]|].
  rewrite H1, H2. split; vm_compute; reflexivity.
Defined.

(** A guard that does not return makes [propagate] forget what is known for
    all later arms: there is a path into the second arm, on which the pattern of
    the first does not match, its guard is not evaluated and the bit is set; but
    the bit, which is known on entry to the match, is missing on entry to the
    second arm. *)
Theorem diverging_guard_forgets :
  let body := match_fn (mkExpr 23 (ExprRet None)) in
  let r := propagate MoveDataFlowOperator flow_tcx empty_maps ∅ 1000 (filled 1 [AddGen 12 0]) body in
  path flow_tcx empty_maps [] (flow_block flow_tcx ∅ body) (skip_path ++ [Visit 25]) Stopped ∧
  after (λ id, tb (gen_set (filled 1 [AddGen 12 0]) id) 0) (λ id, tb (kill_set (filled 1 [AddGen 12 0]) id) 0)
    skip_path false = true ∧
  entry_bits r 20 = Some [0] ∧ entry_bits r 25 = Some [] ∧ entry_bits r 26 = Some [].
Proof. split; [apply match_fn_path|]. vm_compute. repeat split. Qed.
