(* ===== verification/FlowRegions.v ===== *)
(** The region maps meet the data flow analysis: in a function that [region.rs]
    has resolved, every [break] and [loop] expression finds its loop by climbing
    the enclosing scopes, so that [propagate] cannot fail on the way. *)

From stdpp Require Import prelude gmap list.
From S2P Require Import Prelude Ast Visit RegionMaps RegionResolve RegionEffects RegionTree Nesting Ty.
From S2P Require Import DataFlow DataFlowBits FlowCmd FlowPaths DataFlowSound DataFlowCorrect.

Section jumps.
Context (tcx : ctxt).

(** The jumps of a skeleton name loops around them; this is what the resolution
    of labels and the check of loops ensure. *)
Fixpoint jumps_ok (ls : list NodeId) (c : cmd) : bool :=
  match c with
  | CSkip | CEnter _ | CExit _ | CReset => true
  | CFail _ => false
  | CSeq a b | CBranch a b => jumps_ok ls a && jumps_ok ls b
  | CLoop _ id cond body => jumps_ok ls cond && jumps_ok (ls ++ [id]) body
  | CArms _ l => arm_jumps_ok ls l
  | CBreak id label | CAgain id label => bool_decide (is_Some (target tcx ls id label ≫= (ls !!.)))
  end
with arm_jumps_ok (ls : list NodeId) (l : arms) : bool :=
  match l with
  | ANil => true
  | ACons guard body l' => jumps_ok ls guard && jumps_ok ls body && arm_jumps_ok ls l'
  end.
End jumps.

(** ** Climbing *)

Lemma climb_chain m fuel id lid l :
  chain (scope_map m) id l → lid ∈ l → length l ≤ S fuel → is_Some (climb m fuel id lid).
Proof.
  intros Hc. revert fuel. induction Hc as [s Hs|s p l Hs Hc IH]; intros fuel Hin Hlen.
  - apply list_elem_of_singleton in Hin as ->. destruct fuel; simpl; rewrite N.eqb_refl; eauto.
  - destruct fuel as [|fuel]; simpl; (destruct (N.eqb_spec s lid) as [->|Hne]; [eauto|]).
    + simpl in Hlen. destruct (chain_hd _ _ _ Hc) as [l' ->]. simpl in Hlen. lia.
    + unfold opt_encl_scope. rewrite Hs. simpl. apply elem_of_cons in Hin as [->|Hin]; [done|].
      simpl in Hlen. destruct (IH fuel Hin ltac:(lia)) as [k ->]. simpl. eauto.
Qed.

Lemma scopes_between_encloses m id lid :
  scopes_wf m → encloses m lid id → is_Some (scopes_between m id lid).
Proof.
  intros Hwf He. destruct (Hwf id) as [l Hl]. apply (climb_chain _ _ _ _ l); [done| |].
  - by apply (encloses_chain _ _ _ _ Hl).
  - etrans; [by eapply chain_length|]. lia.
Qed.

Section resolved.
Context (tcx : ctxt) (method_map : gset NodeId) (is_borrowed_ty : TyId → bool) (m : RegionMaps).
Context (Hwf : scopes_wf m).
Abbreviation flow_expr := (flow_expr tcx method_map).
Abbreviation flow_block := (flow_block tcx method_map).
Abbreviation flow_stmt := (flow_stmt tcx method_map).
Abbreviation eff_expr := (eff_expr is_borrowed_ty).
Abbreviation eff_block := (eff_block is_borrowed_ty).
Abbreviation eff_stmt := (eff_stmt is_borrowed_ty).
Abbreviation cmd_ok := (cmd_ok tcx m).
Abbreviation jumps_ok := (jumps_ok tcx).

(** The maps hold the enclosing scopes of the effects, none of which failed. *)
Definition held (ef : effect) : Prop :=
  match ef with Encl c p => scope_map m !! c = Some p | Bug _ => False | _ => True end.

(** The loops enclose the scope new nodes are put in. *)
Definition anchored (cx : Context) (ls : list NodeId) : Prop :=
  ∃ p, parent cx = Some p ∧ ∀ lid, lid ∈ ls → encloses m lid p.

Lemma anchored_sub cx ls id v :
  anchored cx ls → Forall held (eff_encl cx id) → anchored (mkContext v (Some id)) ls.
Proof.
  intros (p & Hp & Hls). unfold eff_encl. rewrite Hp. intros [Hh _]%Forall_cons. exists id. split; [done|].
  intros lid Hlid. eapply rtc_l; [exact Hh|]. by apply Hls.
Qed.

Lemma anchored_loop cx ls id : anchored cx ls → parent cx = Some id → anchored cx (ls ++ [id]).
Proof.
  intros (p & Hp & Hls) Hid. rewrite Hid in Hp. injection Hp as <-. exists id. split; [done|].
  intros lid [Hl|Hl]%elem_of_app; [by apply Hls|]. apply list_elem_of_singleton in Hl as ->. apply rtc_refl.
Qed.

Lemma jump_resolved cx ls id label :
  anchored cx ls → parent cx = Some id →
  bool_decide (is_Some (target tcx ls id label ≫= (ls !!.))) = true → jump_ok tcx m ls id label = true.
Proof using Hwf.
  intros (p & Hp & Hls) Hid Hj%bool_decide_eq_true. rewrite Hid in Hp. injection Hp as <-. unfold jump_ok.
  destruct Hj as [lid Hlid]. rewrite Hlid. apply bool_decide_eq_true, scopes_between_encloses; [done|].
  apply bind_Some in Hlid as (j & _ & Hlid). by apply Hls, list_elem_of_lookup_2 with j.
Qed.

Lemma flow_each_ok {A} (f : A → cmd) ls l :
  (∀ x, x ∈ l → cmd_ok ls (f x) = true) → cmd_ok ls (flow_each f l) = true.
Proof.
  induction l as [|x l IH]; intros Hf; [done|]. simpl. rewrite Hf, IH; [done| |left].
  intros; apply Hf; by right.
Qed.

Lemma flow_pat_ok ls p : cmd_ok ls (flow_pat p) = true.
Proof.
  induction p as [p IH] using Pat_sub_ind. destruct p as [id node]. rewrite Forall_forall in IH.
  unfold sub_pats in IH. cbn [pat_node] in IH. cbn [flow_pat pat_node pat_id FlowPaths.cmd_ok].
  destruct node as [| |bm path [q|]|path [ps|]|path fields etc|ps|q|q|e|lo hi|before slice after]; simpl andb;
    try reflexivity; try (apply IH; left); try (apply flow_each_ok; intros; by apply IH).
  - apply flow_each_ok. intros f Hf. apply IH, list_elem_of_fmap. eauto.
  - cbn [FlowPaths.cmd_ok]. rewrite !flow_each_ok;
      [|intros x Hx; apply IH; rewrite !elem_of_app; auto..]. destruct slice as [q|]; simpl; [|done].
    rewrite IH; [done|]. rewrite !elem_of_app. right. left. left.
Qed.

Lemma flow_pats_ok ls ps : cmd_ok ls (flow_pats ps) = true.
Proof.
  assert (arms_ok tcx m ls (flow_alternatives ps) = true) as Ha.
  { induction ps as [|p ps IH]; [done|]. simpl. by rewrite flow_pat_ok. }
  destruct ps as [|p [|q ps]]; [done|apply flow_pat_ok|exact Ha].
Qed.

Definition resolved (e : Expr) : Prop := ∀ cx ls,
  anchored cx ls → Forall held (eff_expr cx e) → jumps_ok ls (flow_expr e) = true →
  cmd_ok ls (flow_expr e) = true.

Lemma opt_resolved cx ls o :
  Forall resolved (option_list o) → anchored cx ls → Forall held (eff_opt (eff_expr cx) o) →
  jumps_ok ls (flow_opt flow_expr o) = true → cmd_ok ls (flow_opt flow_expr o) = true.
Proof. destruct o as [e|]; [|done]. intros [He _]%Forall_cons. simpl. by apply He. Qed.

Lemma each_resolved cx ls l :
  Forall resolved l → anchored cx ls → Forall held (flat_map (eff_expr cx) l) →
  jumps_ok ls (flow_each flow_expr l) = true → cmd_ok ls (flow_each flow_expr l) = true.
Proof.
  intros Hl Ha. induction Hl as [|e l He _ IH]; [done|]. simpl.
  intros [H1 H2]%Forall_app [J1 J2]%andb_true_iff. by rewrite (He cx), IH.
Qed.

Lemma fields_resolved cx ls fields :
  Forall resolved (fields ≫= field_exprs) → anchored cx ls →
  Forall held (flat_map (λ f, match f with mkField _ e => eff_expr cx e end) fields) →
  jumps_ok ls (flow_each (λ f, match f with mkField _ e => flow_expr e end) fields) = true →
  cmd_ok ls (flow_each (λ f, match f with mkField _ e => flow_expr e end) fields) = true.
Proof.
  intros Hl Ha. induction fields as [|[n e] fields IH]; [done|]. simpl in Hl |- *.
  apply Forall_cons in Hl as [He Hl].
  intros [H1 H2]%Forall_app [J1 J2]%andb_true_iff. by rewrite (He cx), IH.
Qed.

Lemma stmt_resolved cx ls st :
  Forall resolved (stmt_exprs st) → anchored cx ls → Forall held (eff_stmt cx st) →
  jumps_ok ls (flow_stmt st) = true → cmd_ok ls (flow_stmt st) = true.
Proof.
  destruct st as [[[ty pat init lid]|item] id|e id|e id|]; simpl; [| | | |done];
    intros He Ha Hh Hj; [|done|..]; apply Forall_cons in Hh as [_ [H1 H2]%Forall_app].
  - apply andb_true_iff in Hj as [J1 J2]. rewrite flow_pat_ok, andb_true_r.
    destruct (var_parent cx) as [blk|]; [|by apply Forall_cons in H2 as [[] _]].
    apply Forall_cons in H2 as [_ [_ [_ H2]%Forall_app]%Forall_app].
    eapply (opt_resolved (mkContext (Some blk) (Some id))); [done|by eapply anchored_sub|done|done].
  - apply Forall_cons in He as [He _]. eapply He; [by eapply anchored_sub|done|done].
  - apply Forall_cons in He as [He _]. eapply He; [by eapply anchored_sub|done|done].
Qed.

Lemma block_resolved cx ls b :
  Forall resolved (block_exprs b) → anchored cx ls → Forall held (eff_block cx b) →
  jumps_ok ls (flow_block b) = true → cmd_ok ls (flow_block b) = true.
Proof.
  destruct b as [stmts oe id]. simpl. intros [Hs He]%Forall_app Ha [H1 [H2 H3]%Forall_app]%Forall_app
    [J1 [J2 _]%andb_true_iff]%andb_true_iff. rewrite andb_true_r.
  assert (anchored (mkContext (Some id) (Some id)) ls) as Ha' by (by eapply anchored_sub).
  rewrite (opt_resolved _ ls oe He Ha' H3 J2), andb_true_r. clear He H3 J2.
  induction stmts as [|st stmts IH]; [done|]. simpl in *. apply Forall_app in Hs as [Hs1 Hs2], H2 as [H21 H22].
  apply andb_true_iff in J1 as [J11 J12]. rewrite (stmt_resolved _ ls st Hs1 Ha' H21 J11). by apply IH.
Qed.

Lemma arms_resolved cx ls l :
  Forall resolved (l ≫= arm_exprs) → anchored cx ls → Forall held (flat_map (eff_arm is_borrowed_ty cx) l) →
  let flow := fix flow_arms (l : list Arm) : arms :=
    match l with
    | [] => ANil
    | mkArm pats guard body :: l' =>
        ACons (flow_opt flow_expr guard) (CSeq (flow_pats pats) (flow_expr body)) (flow_arms l')
    end in
  arm_jumps_ok tcx ls (flow l) = true → arms_ok tcx m ls (flow l) = true.
Proof.
  intros Hl Ha Hh flow. induction l as [|[pats guard body] l IH]; [done|]. simpl in Hl, Hh |- *.
  apply Forall_app in Hl as [[Hg [Hb _]%Forall_cons]%Forall_app Hl].
  apply Forall_cons in Hh as [_ [H1 Hh]%Forall_app]. apply Forall_app in H1 as [_ [_ [H1 H2]%Forall_app]%Forall_app].
  intros [[J1 [_ J2]%andb_true_iff]%andb_true_iff J3]%andb_true_iff.
  by rewrite (opt_resolved cx ls guard Hg Ha H1 J1), flow_pats_ok, (Hb cx ls Ha H2 J2), IH.
Qed.

Lemma after_call_resolved ls id :
  jumps_ok ls (flow_after_call tcx id) = true → cmd_ok ls (flow_after_call tcx id) = true.
Proof. unfold flow_after_call. destruct (node_id_to_type tcx id); [|done]. by destruct (type_is_bot _). Qed.

(** The effects of an expression, apart from those of its parts. *)
Lemma expr_anchored cx ls id node :
  anchored cx ls → Forall held (eff_encl cx id) → anchored (expr_context (mkExpr id node) cx) ls.
Proof. intros Ha Hh. by apply (anchored_sub cx). Qed.

Ltac rparts cx :=
  repeat first
    [ done
    | match goal with
      | H : _ && _ = true |- _ => apply andb_true_iff in H as [? ?]
      | H : Forall held (_ ++ _) |- _ => apply Forall_app in H as [? ?]
      | H : Forall resolved (_ ++ _) |- _ => apply Forall_app in H as [? ?]
      | H : Forall resolved (_ :: _) |- _ => apply Forall_cons in H as [? ?]
      | |- _ && _ = true => apply andb_true_iff; split
      | |- FlowPaths.cmd_ok _ _ _ (flow_opt _ _) = true => by apply (opt_resolved cx)
      | |- FlowPaths.cmd_ok _ _ _ (flow_each (λ f, _) _) = true => by apply (fields_resolved cx)
      | |- FlowPaths.cmd_ok _ _ _ (flow_each _ _) = true => by apply (each_resolved cx)
      | |- FlowPaths.cmd_ok _ _ _ (FlowCmd.flow_block _ _ _) = true => by apply (block_resolved cx)
      | |- FlowPaths.cmd_ok _ _ _ (flow_after_call _ _) = true => by apply after_call_resolved
      | H : resolved ?e |- FlowPaths.cmd_ok _ _ _ (FlowCmd.flow_expr _ _ ?e) = true => by apply (H cx)
      end ].

Lemma expr_resolved e : resolved e.
Proof using Hwf.
  induction e as [e IH] using Expr_sub_ind. change (Forall resolved (sub_exprs e)) in IH.
  intros cx ls Ha Hh Hj. destruct e as [id node].
  cbn [RegionEffects.eff_expr expr_node expr_id] in Hh.
  apply Forall_app in Hh as [He [_ Hh]%Forall_app].
  pose proof (expr_anchored cx ls id node Ha He) as Hs.
  assert (parent (expr_context (mkExpr id node) cx) = Some id) as Hp by done. revert Hs Hp Hh.
  generalize (expr_context (mkExpr id node) cx). intros sub Hs Hp Hh. clear cx Ha He.
  pose proof (anchored_loop _ _ _ Hs Hp) as Hl. unfold sub_exprs in IH. cbn [expr_node] in IH.
  cbn [FlowCmd.flow_expr expr_node expr_id] in Hj |- *.
  fold (FlowCmd.flow_block tcx method_map) in Hj |- *.
  fold (RegionEffects.eff_block is_borrowed_ty) (RegionEffects.eff_arm is_borrowed_ty)
    (RegionEffects.eff_pat is_borrowed_ty) in Hh.
  destruct node as [e v|a b|es|f args|mt tys es|es|op a b|op e|l|e t|cond then_ els|cond body
    |pat e body lab|body lab|scrut arms|d body|d body|body|a b|op a b|e f tys|a b|p|mu e|lab|lab
    |o|inputs outputs| |p fields base|a b|e];
    repeat match goal with |- context [is_method_call ?a ?b] => destruct (is_method_call a b)
      | |- context [lazy_binop ?a] => destruct (lazy_binop a) end;
    cbn [FlowPaths.cmd_ok FlowRegions.jumps_ok] in Hj |- *; rparts sub.
  - by apply (arms_resolved sub).
  - by apply (jump_resolved sub).
  - by apply (jump_resolved sub).
Qed.
End resolved.

Lemma body_resolved tcx method_map is_borrowed_ty m body :
  scopes_wf m → Forall (held m) (eff_block is_borrowed_ty (mkContext None None) body) →
  jumps_ok tcx [] (flow_block tcx method_map body) = true →
  cmd_ok tcx m [] (flow_block tcx method_map body) = true.
Proof.
  intros Hwf Hh Hj. destruct body as [stmts oe id]. simpl in *. apply Forall_app in Hh as [H1 H2].
  apply andb_true_iff in Hj as [J1 [J2 _]%andb_true_iff]. rewrite andb_true_r.
  set (cx := mkContext (Some id) (Some id)) in *.
  assert (anchored m cx []) as Ha by (exists id; split; [done|by intros lid ?%elem_of_nil]).
  assert (∀ l, Forall (resolved tcx method_map is_borrowed_ty m) l) as Hall.
  { intros l. apply Forall_true. intros e. by apply expr_resolved. }
  apply andb_true_iff. split; [|by eapply (opt_resolved _ _ is_borrowed_ty _ cx)].
  clear oe H2 J2. induction stmts as [|st stmts IH]; [done|]. simpl in *. apply Forall_app in H1 as [H11 H12].
  apply andb_true_iff in J1 as [J11 J12]. rewrite IH, andb_true_r by done.
  by eapply (stmt_resolved _ _ is_borrowed_ty _ cx).
Qed.

(** C8. The region maps and the data flow analysis fit together: resolve a
    function whose nodes have distinct new ids, with the maps of the functions
    before it, and [propagate] returns on its body for every context and
    operator, provided the labels of its jumps name loops around them.  No
    [break] or [loop] expression runs out of enclosing scopes. *)
Theorem propagate_after_resolve (is_borrowed_ty : TyId → bool) (depth : nat) (decl : FnDecl) (body : Block)
    (m : RegionMaps) :
  height_fn decl body ≤ depth → fresh_fn decl body m → scopes_wf m →
  ∃ m', resolve_item_fn is_borrowed_ty depth decl body m = Ok m' ∧ scopes_wf m' ∧
    ∀ (oper : DataFlowOperator) (Hoper : JoinOk oper) (tcx : ctxt) (method_map : gset NodeId)
      (d : DataFlowContext) (fuel : nat),
      (bits_per_id d ≠ 0 → dfc_wf d) → jumps_ok tcx [] (flow_block tcx method_map body) = true →
      size (body_nodes tcx method_map body) * (words_per_id d * 64) < fuel →
      ∃ d', propagate oper tcx m' method_map fuel d body = Ok d'.
Proof.
  intros Hh Hf%(fresh_fn_effects is_borrowed_ty) Hwf. destruct (resolve_fn_maps is_borrowed_ty depth decl body m Hh Hf Hwf)
    as (m' & Hr & Hwf' & Henc & _). exists m'. split_and!; [done..|].
  intros oper HJ tcx method_map d fuel Hd Hj Hfuel. eapply propagate_total; [done|done| |done].
  eapply body_resolved; [done| |done].
  assert (Forall (held m') (fn_effects is_borrowed_ty decl body)) as Hall.
  { apply Forall_forall. intros ef Hef. destruct Hf as (_ & _ & Hbug). destruct ef; simpl; try done.
    - by apply Henc.
    - by apply (Hbug w). }
  apply Forall_cons in Hall as [_ [_ Hall]%Forall_app]. exact Hall.
Qed.

(** ** Examples *)

Definition loop_decl : FnDecl := mkFnDecl [mkArg 200 (mkPat 201 (PatIdent (BindByValue MutImmutable) [] None))] 202.

Lemma loop_fn_fresh : fresh_fn loop_decl loop_fn empty_maps.
Proof.
  split_and!.
  - apply (bool_decide_unpack _). vm_compute. exact I.
  - intros id _ [[x Hx]|[x Hx]]; simpl in Hx; by rewrite lookup_empty in Hx.
  - vm_compute. reflexivity.
Defined.

Lemma empty_maps_wf : scopes_wf empty_maps.
Proof. intros s. exists [s]. by constructor. Defined.


Lemma propagate_after_resolve_witness :
  ∃ m' d', resolve_item_fn (λ _, false) 30 loop_decl loop_fn empty_maps = Ok m' ∧
    propagate LoanDataFlowOperator flow_tcx m' ∅ 700 (filled 1 loop_ops) loop_fn = Ok d'.
Proof.
  destruct (propagate_after_resolve (λ _, false) 30 loop_decl loop_fn empty_maps) as (m' & Hr & _ & H);
    [apply Nat.leb_le; vm_compute; reflexivity|apply loop_fn_fresh|apply empty_maps_wf|].
  destruct (H LoanDataFlowOperator _ flow_tcx ∅ (filled 1 loop_ops) 700) as [d' Hd'].
  - intros _. apply filled_wf; [done|repeat constructor].
  - vm_compute. reflexivity.
  - apply Nat.ltb_lt. vm_compute. reflexivity.
  - eauto.
Defined.
