(* ===== verification/RegionBindings.v ===== *)
(** The state of region inference, [RegionVarBindings] of
    [src/librustc/middle/typeck/infer/region_inference/mod.rs]: region
    variables, constraints, the tables of combined regions and the undo log
    that snapshots roll back.  The origins only serve error messages; the
    model is parametric in their types. *)

From stdpp Require Import prelude list relations.
From S2P Require Import Prelude Ast RegionMaps.

(** ** Data *)

Inductive Constraint :=
  | ConstrainVarSubVar (a b : RegionVid)
  | ConstrainRegSubVar (r : Region) (v : RegionVid)
  | ConstrainVarSubReg (v : RegionVid) (r : Region)
  | ConstrainRegSubReg (a b : Region).

Record TwoRegions := mkTwoRegions { two_a : Region; two_b : Region }.

Inductive CombineMapType := Lub | Glb.

Inductive UndoLogEntry :=
  | Snapshot
  | AddVar (vid : RegionVid)
  | AddConstraint (c : Constraint)
  | AddCombination (t : CombineMapType) (regions : TwoRegions).

Inductive VarValue := NoValue | Value (r : Region) | ErrorValue.

(** [#\[deriving(Eq)\]]. *)
Definition constraint_eqb (c d : Constraint) : bool :=
  match c, d with
  | ConstrainVarSubVar a b, ConstrainVarSubVar a' b' => (a =? a') && (b =? b')
  | ConstrainRegSubVar r v, ConstrainRegSubVar r' v' => region_eqb r r' && (v =? v')
  | ConstrainVarSubReg v r, ConstrainVarSubReg v' r' => (v =? v') && region_eqb r r'
  | ConstrainRegSubReg a b, ConstrainRegSubReg a' b' => region_eqb a a' && region_eqb b b'
  | _, _ => false
  end.

Definition two_regions_eqb (x y : TwoRegions) : bool :=
  region_eqb (two_a x) (two_a y) && region_eqb (two_b x) (two_b y).

(** *** Hash maps

    A [HashMap] is the list of its entries in the order its iterator visits
    them.  The solver's theorems hold for every such list, so for every order
    a hash function may produce. *)
Section assoc.
Context {K V : Type} (eqb : K → K → bool).

Fixpoint assoc_find (k : K) (l : list (K * V)) : option V :=
  match l with
  | [] => None
  | (k', v) :: l' => if eqb k k' then Some v else assoc_find k l'
  end.

(** [insert]: an existing value is replaced; [true] iff the key is new. *)
Fixpoint assoc_insert (k : K) (v : V) (l : list (K * V)) : list (K * V) * bool :=
  match l with
  | [] => ([(k, v)], true)
  | (k', v') :: l' =>
      if eqb k k' then ((k', v) :: l', false)
      else let r := assoc_insert k v l' in ((k', v') :: r.1, r.2)
  end.

Fixpoint assoc_remove (k : K) (l : list (K * V)) : list (K * V) :=
  match l with
  | [] => []
  | (k', v) :: l' => if eqb k k' then l' else (k', v) :: assoc_remove k l'
  end.
End assoc.

Section bindings.
Context {SO VO : Type}.
(** [infer::MiscVariable(origin.span())]. *)
Context (misc_variable : SO → VO).

Record RegionVarBindings := mkBindings {
  var_origins : list VO;
  constraints : list (Constraint * SO);
  lubs : list (TwoRegions * RegionVid);
  glbs : list (TwoRegions * RegionVid);
  skolemization_count : N;
  bound_count : N;
  undo_log : list UndoLogEntry;
  values : option (list VarValue)
}.

Implicit Types (st : RegionVarBindings).

Definition new_bindings : RegionVarBindings := mkBindings [] [] [] [] 0 0 [] None.

Definition set_var_origins st vs := mkBindings vs (constraints st) (lubs st) (glbs st)
  (skolemization_count st) (bound_count st) (undo_log st) (values st).
Definition set_constraints st cs := mkBindings (var_origins st) cs (lubs st) (glbs st)
  (skolemization_count st) (bound_count st) (undo_log st) (values st).
Definition set_undo_log st l := mkBindings (var_origins st) (constraints st) (lubs st) (glbs st)
  (skolemization_count st) (bound_count st) l (values st).
Definition set_combine_map st (t : CombineMapType) cm :=
  match t with
  | Glb => mkBindings (var_origins st) (constraints st) (lubs st) cm
             (skolemization_count st) (bound_count st) (undo_log st) (values st)
  | Lub => mkBindings (var_origins st) (constraints st) cm (glbs st)
             (skolemization_count st) (bound_count st) (undo_log st) (values st)
  end.

Definition push_undo st (e : UndoLogEntry) := set_undo_log st (undo_log st ++ [e]).

(** ** Snapshots *)

Definition in_snapshot st : bool := 0 <? length (undo_log st).

Definition start_snapshot st : RegionVarBindings * nat :=
  if in_snapshot st then (st, length (undo_log st))
  else (push_undo st Snapshot, 0).

(** [while undo_log.len() > 0 { undo_log.pop() }]. *)
Definition commit st : RegionVarBindings := set_undo_log st [].

(** The [match undo_item] of [rollback_to]. *)
Definition undo_entry st (e : UndoLogEntry) : outcome RegionVarBindings :=
  match e with
  | Snapshot => Ok st
  | AddVar vid =>
      _ ← assert_ (length (var_origins st) =? vid + 1);
      Ok (set_var_origins st (take (length (var_origins st) - 1) (var_origins st)))
  | AddConstraint c => Ok (set_constraints st (assoc_remove constraint_eqb c (constraints st)))
  | AddCombination Glb regions =>
      Ok (set_combine_map st Glb (assoc_remove two_regions_eqb regions (glbs st)))
  | AddCombination Lub regions =>
      Ok (set_combine_map st Lub (assoc_remove two_regions_eqb regions (lubs st)))
  end.

(** [while undo_log.len() > snapshot { pop and undo }]: the entries above
    the snapshot, the last first. *)
Fixpoint rollback_loop (entries : list UndoLogEntry) st : outcome RegionVarBindings :=
  match entries with
  | [] => Ok st
  | e :: entries' =>
      st' ← undo_entry (set_undo_log st (take (length (undo_log st) - 1) (undo_log st))) e;
      rollback_loop entries' st'
  end.

Definition rollback_to st (snapshot : nat) : outcome RegionVarBindings :=
  rollback_loop (reverse (drop snapshot (undo_log st))) st.

(** ** Variables and constraints *)

Definition num_vars st : nat := length (var_origins st).

Definition new_region_var st (origin : VO) : RegionVarBindings * RegionVid :=
  let id := num_vars st in
  let st := set_var_origins st (var_origins st ++ [origin]) in
  (if in_snapshot st then push_undo st (AddVar id) else st, id).

Definition new_skolemized st (br : BoundRegion) : RegionVarBindings * Region :=
  let sc := skolemization_count st in
  (mkBindings (var_origins st) (constraints st) (lubs st) (glbs st)
     ((sc + 1) mod (UINT_MAX + 1))%N (bound_count st) (undo_log st) (values st),
   ReInfer (ReSkolemized sc br)).

Definition new_bound st (binder_id : NodeId) : outcome (RegionVarBindings * Region) :=
  let sc := bound_count st in
  let st := mkBindings (var_origins st) (constraints st) (lubs st) (glbs st)
     (skolemization_count st) ((sc + 1) mod (UINT_MAX + 1))%N (undo_log st) (values st) in
  if (bound_count st <=? sc)%N then Fail CompilerBug
  else Ok (st, ReLateBound binder_id (BrFresh sc)).

Definition values_are_none st : bool := match values st with None => true | Some _ => false end.

Definition add_constraint st (c : Constraint) (origin : SO) : outcome RegionVarBindings :=
  (* cannot add constraints once regions are resolved *)
  _ ← assert_ (values_are_none st);
  let r := assoc_insert constraint_eqb c origin (constraints st) in
  let st := set_constraints st r.1 in
  Ok (if (r.2 : bool) then if in_snapshot st then push_undo st (AddConstraint c) else st
      else st).

Definition make_subregion st (origin : SO) (sub sup : Region) : outcome RegionVarBindings :=
  _ ← assert_ (values_are_none st);
  match sub, sup with
  | ReEarlyBound _ _ _, _ | ReLateBound _ _, _
  | _, ReEarlyBound _ _ _ | _, ReLateBound _ _ => Fail CompilerBug
  | ReInfer (ReVar sub_id), ReInfer (ReVar sup_id) =>
      add_constraint st (ConstrainVarSubVar sub_id sup_id) origin
  | r, ReInfer (ReVar sup_id) => add_constraint st (ConstrainRegSubVar r sup_id) origin
  | ReInfer (ReVar sub_id), r => add_constraint st (ConstrainVarSubReg sub_id r) origin
  | _, _ => add_constraint st (ConstrainRegSubReg sub sup) origin
  end.

Definition combine_map st (t : CombineMapType) : list (TwoRegions * RegionVid) :=
  match t with Glb => glbs st | Lub => lubs st end.

Definition combine_vars st (t : CombineMapType) (a b : Region) (origin : SO)
    (relate : RegionVarBindings → Region → Region → outcome RegionVarBindings)
    : outcome (RegionVarBindings * Region) :=
  let vars := mkTwoRegions a b in
  match assoc_find two_regions_eqb vars (combine_map st t) with
  | Some c => Ok (st, ReInfer (ReVar c))
  | None =>
      let '(st, c) := new_region_var st (misc_variable origin) in
      let st := set_combine_map st t
                  (assoc_insert two_regions_eqb vars c (combine_map st t)).1 in
      let st := if in_snapshot st then push_undo st (AddCombination t vars) else st in
      st ← relate st a (ReInfer (ReVar c));
      st ← relate st b (ReInfer (ReVar c));
      Ok (st, ReInfer (ReVar c))
  end.

Definition lub_regions st (origin : SO) (a b : Region) : outcome (RegionVarBindings * Region) :=
  _ ← assert_ (values_are_none st);
  match a, b with
  | ReStatic, _ | _, ReStatic => Ok (st, ReStatic) (* nothing lives longer than static *)
  | _, _ => combine_vars st Lub a b origin
              (λ this old_r new_r, make_subregion this origin old_r new_r)
  end.

Definition glb_regions st (origin : SO) (a b : Region) : outcome (RegionVarBindings * Region) :=
  _ ← assert_ (values_are_none st);
  match a, b with
  | ReStatic, r | r, ReStatic => Ok (st, r) (* static lives longer than everything else *)
  | _, _ => combine_vars st Glb a b origin
              (λ this old_r new_r, make_subregion this origin new_r old_r)
  end.

Definition resolve_var st (rid : RegionVid) : outcome Region :=
  match values st with
  | None => Fail CompilerBug
  | Some vs =>
      v ← vec_get vs rid;
      match v with
      | Value r => Ok r
      | NoValue => Ok ReEmpty (* No constraints, return ty::ReEmpty *)
      | ErrorValue => Ok ReStatic (* An error that has previously been reported. *)
      end
  end.

Definition vars_created_since_snapshot st (snapshot : nat) : outcome (list RegionVid) :=
  if snapshot <=? length (undo_log st)
  then Ok (omap (λ e, match e with AddVar vid => Some vid | _ => None end)
             (drop snapshot (undo_log st)))
  else Fail IndexOutOfBounds.

(** ** Tainted regions *)

Definition consider_adding_edge (result_set : list Region) (r r1 r2 : Region) : list Region :=
  if region_eqb r r1 then
    if existsb (λ x, region_eqb x r2) result_set then result_set else result_set ++ [r2]
  else result_set.

(** The two regions an undo entry relates. *)
Definition entry_regions (e : UndoLogEntry) : option (Region * Region) :=
  match e with
  | AddConstraint (ConstrainVarSubVar a b) => Some (ReInfer (ReVar a), ReInfer (ReVar b))
  | AddConstraint (ConstrainRegSubVar a b) => Some (a, ReInfer (ReVar b))
  | AddConstraint (ConstrainVarSubReg a b) => Some (ReInfer (ReVar a), b)
  | AddConstraint (ConstrainRegSubReg a b) => Some (a, b)
  | _ => None
  end.

(** [while undo_index < undo_len { .. }]. *)
Fixpoint tainted_scan (log : list UndoLogEntry) (r : Region) (result_set : list Region)
    : list Region :=
  match log with
  | [] => result_set
  | e :: log' =>
      tainted_scan log' r
        (match entry_regions e with
         | None => result_set
         | Some (r1, r2) =>
             consider_adding_edge (consider_adding_edge result_set r r1 r2) r r2 r1
         end)
  end.

(** [while result_index < result_set.len() { .. }]. *)
Fixpoint tainted_loop (fuel : nat) (log : list UndoLogEntry) (result_set : list Region)
    (result_index : nat) : outcome (list Region) :=
  match result_set !! result_index with
  | None => Ok result_set
  | Some r =>
      match fuel with
      | 0 => Fail OutOfFuel
      | S fuel' => tainted_loop fuel' log (tainted_scan log r result_set) (S result_index)
      end
  end.

Definition tainted st (snapshot : nat) (r0 : Region) : outcome (list Region) :=
  tainted_loop (S (2 * length (undo_log st))) (drop snapshot (undo_log st)) [r0] 0.
End bindings.

Arguments RegionVarBindings : clear implicits.

(** The operations a client performs between two snapshots. *)
Inductive bindings_op (SO VO : Type) :=
  | ONewVar (o : VO)
  | OMakeSubregion (o : SO) (sub sup : Region)
  | OLubRegions (o : SO) (a b : Region)
  | OGlbRegions (o : SO) (a b : Region)
  | ONewSkolemized (br : BoundRegion)
  | ONewBound (binder_id : NodeId)
  | OStartSnapshot
  | ORollbackTo (snapshot : nat).
Arguments ONewVar {SO VO}.
Arguments OMakeSubregion {SO VO}.
Arguments OLubRegions {SO VO}.
Arguments OGlbRegions {SO VO}.
Arguments ONewSkolemized {SO VO}.
Arguments ONewBound {SO VO}.
Arguments OStartSnapshot {SO VO}.
Arguments ORollbackTo {SO VO}.

Definition run_bop {SO VO} (misc_variable : SO → VO) (st : RegionVarBindings SO VO)
    (o : bindings_op SO VO) : outcome (RegionVarBindings SO VO) :=
  match o with
  | ONewVar o => Ok (new_region_var st o).1
  | OMakeSubregion o sub sup => make_subregion st o sub sup
  | OLubRegions o a b => fst <$> lub_regions misc_variable st o a b
  | OGlbRegions o a b => fst <$> glb_regions misc_variable st o a b
  | ONewSkolemized br => Ok (new_skolemized st br).1
  | ONewBound id => fst <$> new_bound st id
  | OStartSnapshot => Ok (start_snapshot st).1
  | ORollbackTo k => rollback_to st k
  end.

Fixpoint run_bops {SO VO} (misc_variable : SO → VO) (st : RegionVarBindings SO VO)
    (os : list (bindings_op SO VO)) : outcome (RegionVarBindings SO VO) :=
  match os with
  | [] => Ok st
  | o :: os' => st' ← run_bop misc_variable st o; run_bops misc_variable st' os'
  end.

(** Two states with the same variables, the same constraints up to their
    origins, the same combined regions and the same undo log. *)
Record bindings_equiv {SO VO} (st st' : RegionVarBindings SO VO) : Prop := {
  eqv_vars : var_origins st = var_origins st';
  eqv_constraints : (constraints st).*1 = (constraints st').*1;
  eqv_lubs : lubs st = lubs st';
  eqv_glbs : glbs st = glbs st';
  eqv_log : undo_log st = undo_log st';
  eqv_values : values st = values st'
}.

#[export] Instance bindings_equiv_equivalence {SO VO} : Equivalence (@bindings_equiv SO VO).
Proof.
  split.
  - by intros ?.
  - by intros ?? [].
  - intros ??? [] []. split; congruence.
Qed.

(** ** Lemmas on association lists *)

Section assoc_lemmas.
Context {K V : Type} (eqb : K → K → bool).
Hypothesis eqb_refl : ∀ k, eqb k k = true.
Implicit Types (l : list (K * V)).

Lemma assoc_insert_new k v l :
  (assoc_insert eqb k v l).2 = true ↔ assoc_find eqb k l = None.
Proof.
  induction l as [|[k' v'] l IH]; simpl; [done|]. destruct (eqb k k'); [done|]. simpl. done.
Qed.

Lemma assoc_insert_fresh k v l :
  assoc_find eqb k l = None → (assoc_insert eqb k v l).1 = l ++ [(k, v)].
Proof.
  induction l as [|[k' v'] l IH]; simpl; [done|].
  destruct (eqb k k'); [done|]. intros ?. simpl. by rewrite IH.
Qed.

Lemma assoc_insert_keys k v l :
  assoc_find eqb k l ≠ None → (assoc_insert eqb k v l).1.*1 = l.*1.
Proof.
  induction l as [|[k' v'] l IH]; simpl; [done|].
  destruct (eqb k k'); simpl; [done|]. intros. f_equal. auto.
Qed.

Lemma assoc_remove_app k v l :
  assoc_find eqb k l = None → assoc_remove eqb k (l ++ [(k, v)]) = l.
Proof.
  induction l as [|[k' v'] l IH]; simpl.
  - by rewrite eqb_refl.
  - destruct (eqb k k'); [done|]. intros. by rewrite IH.
Qed.

Lemma assoc_remove_keys k l l' :
  l.*1 = l'.*1 → (assoc_remove eqb k l).*1 = (assoc_remove eqb k l').*1.
Proof.
  induction l as [|[k1 v1] l IH] in l' |- *; destruct l' as [|[k2 v2] l']; simpl; try done.
  intros [= -> ?]. destruct (eqb k k2); [done|]. simpl. f_equal. auto.
Qed.

Lemma assoc_find_keys k l l' :
  l.*1 = l'.*1 → assoc_find eqb k l = None ↔ assoc_find eqb k l' = None.
Proof.
  induction l as [|[k1 v1] l IH] in l' |- *; destruct l' as [|[k2 v2] l']; simpl; try done.
  intros [= -> ?]. destruct (eqb k k2); [done|]. auto.
Qed.
End assoc_lemmas.

Lemma constraint_eqb_refl c : constraint_eqb c c = true.
Proof. destruct c; simpl; rewrite ?Nat.eqb_refl, ?region_eqb_refl; done. Qed.

Lemma two_regions_eqb_refl x : two_regions_eqb x x = true.
Proof. unfold two_regions_eqb. by rewrite !region_eqb_refl. Qed.

(** ** Rolling back *)

Section rollback.
Context {SO VO : Type} (misc_variable : SO → VO).
Implicit Types (st : RegionVarBindings SO VO).

Lemma set_undo_log_id st : set_undo_log st (undo_log st) = st.
Proof. by destruct st. Qed.

Lemma take_snoc {A} (l : list A) x : take (length (l ++ [x]) - 1) (l ++ [x]) = l.
Proof. rewrite length_app. simpl. rewrite Nat.add_sub. by rewrite take_app_length. Qed.

(** Rolling back over the newest entry undoes that entry first. *)
Lemma rollback_push st e k :
  k ≤ length (undo_log st) →
  rollback_to (push_undo st e) k = st' ← undo_entry st e; rollback_to st' k.
Proof.
  intros Hk. unfold rollback_to, push_undo. simpl.
  rewrite drop_app_le by done. rewrite reverse_snoc. simpl.
  unfold set_undo_log at 2. simpl. rewrite take_snoc.
  replace (set_undo_log _ (undo_log st)) with st by (by destruct st).
  assert (∀ st', undo_entry st e = Ok st' → undo_log st' = undo_log st) as Hlog.
  { intros st' H. destruct e as [|vid|c|[] regions]; simpl in H; inv_ok H; by subst. }
  destruct (undo_entry st e) as [st'|]; simpl; [|done]. by rewrite (Hlog st').
Qed.

Lemma rollback_new_var st o k :
  in_snapshot st = true → k ≤ length (undo_log st) →
  rollback_to (new_region_var st o).1 k = rollback_to st k.
Proof.
  intros Hin Hk. unfold new_region_var. simpl. unfold in_snapshot in *. simpl. rewrite Hin.
  rewrite rollback_push by done. simpl. unfold num_vars. rewrite length_app. simpl.
  rewrite Nat.eqb_refl. simpl. rewrite Nat.add_sub, take_app_length. by destruct st.
Qed.

Lemma rollback_combine st t k vars c :
  assoc_find two_regions_eqb vars (combine_map st t) = None → k ≤ length (undo_log st) →
  rollback_to (push_undo (set_combine_map st t
     (assoc_insert two_regions_eqb vars c (combine_map st t)).1) (AddCombination t vars)) k
  = rollback_to st k.
Proof.
  intros Hf Hk. rewrite rollback_push by (by destruct t). rewrite assoc_insert_fresh by done.
  destruct t; simpl in *;
    rewrite assoc_remove_app by (done || apply two_regions_eqb_refl); by destruct st.
Qed.

(** Rollback does not look at origins. *)
Lemma rollback_equiv st st' k r :
  bindings_equiv st st' → rollback_to st k = Ok r →
  ∃ r', rollback_to st' k = Ok r' ∧ bindings_equiv r r'.
Proof.
  unfold rollback_to. intros Heq. rewrite <- (eqv_log _ _ Heq).
  generalize (reverse (drop k (undo_log st))) as es. intros es.
  induction es as [|e es IH] in st, st', Heq |- *; simpl; [naive_solver|].
  intros H. inv_ok H. rewrite <- (eqv_log _ _ Heq).
  set (l := take _ _) in *.
  assert (∃ b, undo_entry (set_undo_log st' l) e = Ok b ∧ bindings_equiv a b) as (b & -> & Hb).
  { destruct Heq. destruct e as [|vid|c|[] regions]; simpl in *.
    - inv_ok Ha. subst. eexists. split; [done|]. by split.
    - rewrite <- eqv_vars0. inv_ok Ha. subst. rewrite Haa. simpl. eexists. split; [done|]. by split.
    - inv_ok Ha. subst. eexists. split; [done|]. split; simpl; try done.
      by apply assoc_remove_keys.
    - inv_ok Ha. subst. eexists. split; [done|]. split; simpl; congruence.
    - inv_ok Ha. subst. eexists. split; [done|]. split; simpl; congruence. }
  simpl. by eapply IH.
Qed.

(** Rolling back in two steps is rolling back at once. *)
Lemma undo_entry_log st e st' : undo_entry st e = Ok st' → undo_log st' = undo_log st.
Proof.
  intros H. destruct e as [|vid|c|[] regions]; simpl in H; inv_ok H; by subst.
Qed.

Lemma rollback_loop_app es1 es2 st :
  rollback_loop (es1 ++ es2) st = st' ← rollback_loop es1 st; rollback_loop es2 st'.
Proof.
  induction es1 as [|e es1 IH] in st |- *; simpl; [done|].
  destruct (undo_entry _ e); simpl; [apply IH|done].
Qed.

Lemma rollback_loop_log es st st' :
  rollback_loop es st = Ok st' →
  undo_log st' = take (length (undo_log st) - length es) (undo_log st).
Proof.
  induction es as [|e es IH] in st |- *; simpl; intros H; inv_ok H.
  - subst. by rewrite Nat.sub_0_r, take_ge.
  - apply undo_entry_log in Ha. simpl in Ha. apply IH in H. rewrite H, Ha.
    rewrite take_take, length_take. f_equal. lia.
Qed.

Lemma rollback_to_log st k st' :
  k ≤ length (undo_log st) → rollback_to st k = Ok st' → undo_log st' = take k (undo_log st).
Proof.
  intros Hk H. apply rollback_loop_log in H. rewrite H, length_reverse, length_drop. f_equal. lia.
Qed.

Lemma rollback_compose st k k' st' :
  k ≤ k' → k' ≤ length (undo_log st) → rollback_to st k' = Ok st' →
  rollback_to st k = rollback_to st' k.
Proof.
  intros Hk Hk' H. pose proof (rollback_to_log _ _ _ Hk' H) as Hl.
  unfold rollback_to in *. rewrite Hl.
  rewrite <- (take_drop (k' - k) (drop k (undo_log st))), drop_drop.
  replace (k + (k' - k)) with k' by lia.
  rewrite reverse_app, rollback_loop_app, H. simpl. f_equal. f_equal.
  by rewrite take_drop_commute, Nat.add_comm, Nat.sub_add by lia.
Qed.
End rollback.

Section snapshot_invariant.
Context {SO VO : Type} (misc_variable : SO → VO).
Context (st0 : RegionVarBindings SO VO) (k : nat).
Implicit Types (st : RegionVarBindings SO VO).

(** A snapshot is being taken, and rolling back to [k] leads back to [st0]. *)
Definition leads_back st : Prop :=
  Nat.max 1 k ≤ length (undo_log st) ∧
  ∃ r, rollback_to st k = Ok r ∧ bindings_equiv r st0.

Lemma leads_back_in_snapshot st : leads_back st → in_snapshot st = true.
Proof. intros [? _]. unfold in_snapshot. apply Nat.ltb_lt. lia. Qed.

Lemma leads_back_same st st' :
  leads_back st → bindings_equiv st st' → leads_back st'.
Proof.
  intros [Hl (r & Hr & Heq)] He. split; [by rewrite <- (eqv_log _ _ He)|].
  destruct (rollback_equiv _ _ _ _ He Hr) as (r' & ? & ?). exists r'. split; [done|].
  etrans; [symmetry|]; done.
Qed.

Lemma leads_back_undone st st' :
  leads_back st → rollback_to st' k = rollback_to st k →
  length (undo_log st) ≤ length (undo_log st') → leads_back st'.
Proof. intros [Hl (r & Hr & Heq)] He Hle. split; [lia|]. exists r. by rewrite He. Qed.

Lemma leads_back_new_var st o : leads_back st → leads_back (new_region_var st o).1.
Proof.
  intros H. pose proof (leads_back_in_snapshot _ H) as Hin.
  assert (k ≤ length (undo_log st)) by (destruct H; lia).
  eapply leads_back_undone; [done|by apply rollback_new_var|].
  unfold new_region_var, in_snapshot in *. simpl. rewrite Hin. simpl. rewrite length_app. lia.
Qed.

Lemma leads_back_add_constraint st c o st' :
  leads_back st → add_constraint st c o = Ok st' → leads_back st'.
Proof.
  intros H Ha. pose proof (leads_back_in_snapshot _ H) as Hin.
  assert (k ≤ length (undo_log st)) by (destruct H; lia).
  unfold add_constraint in Ha. inv_ok Ha. subst.
  destruct (assoc_insert constraint_eqb c o (constraints st)).2 eqn:Hnew.
  - unfold in_snapshot in *. simpl in *. rewrite Hin.
    apply assoc_insert_new in Hnew. rewrite assoc_insert_fresh by done.
    eapply leads_back_undone; [done| |simpl; rewrite length_app; lia].
    rewrite rollback_push by done. simpl.
    rewrite assoc_remove_app by (done || apply constraint_eqb_refl). by destruct st.
  - apply (leads_back_same st); [done|]. split; try done. simpl. symmetry.
    apply assoc_insert_keys. intros Hf. apply assoc_insert_new with (v := o) in Hf. congruence.
Qed.

Lemma leads_back_make_subregion st o sub sup st' :
  leads_back st → make_subregion st o sub sup = Ok st' → leads_back st'.
Proof.
  intros H Hm. unfold make_subregion in Hm. inv_ok Hm.
  destruct sub as [| | | | |[]|], sup as [| | | | |[]|]; try discriminate;
    by eapply leads_back_add_constraint.
Qed.

Lemma leads_back_combine_vars st t a b o relate r :
  (∀ st x y st', leads_back st → relate st x y = Ok st' → leads_back st') →
  leads_back st → combine_vars misc_variable st t a b o relate = Ok r → leads_back r.1.
Proof.
  intros Hrel H Hc. unfold combine_vars in Hc.
  destruct (assoc_find _ _ _) eqn:Hf; [by inv_ok Hc; subst|].
  pose proof (leads_back_new_var st (misc_variable o) H) as H1.
  destruct (new_region_var st (misc_variable o)) as [st1 c] eqn:Hn. simpl in H1.
  assert (combine_map st1 t = combine_map st t) as Hcm.
  { unfold new_region_var in Hn. injection Hn as <- _. by destruct (in_snapshot _), t. }
  rewrite <- Hcm in Hf. pose proof (leads_back_in_snapshot _ H1) as Hin.
  assert (k ≤ length (undo_log st1)) by (destruct H1; lia).
  assert (in_snapshot (set_combine_map st1 t
            (assoc_insert two_regions_eqb (mkTwoRegions a b) c (combine_map st1 t)).1) = true)
    as Hin' by (by destruct t).
  rewrite Hin' in Hc. inv_ok Hc. subst. simpl. eapply Hrel; [|done]. eapply Hrel; [|done].
  eapply leads_back_undone; [done|by apply rollback_combine|].
  destruct t; simpl; rewrite length_app; lia.
Qed.

Lemma leads_back_op st o st' :
  (∀ j, o = ORollbackTo j → Nat.max 1 k ≤ j) →
  leads_back st → run_bop misc_variable st o = Ok st' → leads_back st'.
Proof.
  intros Hj H. destruct o as [o|o sub sup|o a b|o a b|br|id| |j]; simpl; intros Hr.
  - inv_ok Hr. subst. by apply leads_back_new_var.
  - by eapply leads_back_make_subregion.
  - inv_ok Hr. subst. unfold lub_regions in Hra. inv_ok Hra.
    destruct a, b; try (by inv_ok Hra; subst);
      (eapply leads_back_combine_vars; [|done..]; simpl; intros; by eapply leads_back_make_subregion).
  - inv_ok Hr. subst. unfold glb_regions in Hra. inv_ok Hra.
    destruct a, b; try (by inv_ok Hra; subst);
      (eapply leads_back_combine_vars; [|done..]; simpl; intros; by eapply leads_back_make_subregion).
  - inv_ok Hr. subst. by apply (leads_back_same st).
  - inv_ok Hr. subst. unfold new_bound in Hra. simpl in Hra.
    destruct (_ <=? _)%N; inv_ok Hra; subst. simpl. by apply (leads_back_same st).
  - inv_ok Hr. subst. unfold start_snapshot. by rewrite (leads_back_in_snapshot _ H).
  - specialize (Hj j eq_refl). destruct (decide (j ≤ length (undo_log st))) as [Hle|Hgt].
    + destruct H as [Hl (r & Hrr & Heq)]. split.
      * rewrite (rollback_to_log _ _ _ Hle Hr), length_take. lia.
      * exists r. split; [|done]. rewrite <- Hrr. symmetry. apply (rollback_compose st k j); [lia|done..].
    + unfold rollback_to in Hr. rewrite drop_ge in Hr by lia. simpl in Hr. by inv_ok Hr; subst.
Qed.

Lemma leads_back_ops os st st' :
  (∀ j, ORollbackTo j ∈ os → Nat.max 1 k ≤ j) →
  leads_back st → run_bops misc_variable st os = Ok st' → leads_back st'.
Proof.
  induction os as [|o os IH] in st |- *; simpl; intros Hj H Hr; inv_ok Hr; [by subst|].
  eapply IH; [by intros; apply Hj; right| |done].
  eapply leads_back_op; [|done..]. intros j ->. apply Hj. left.
Qed.
End snapshot_invariant.

Lemma start_snapshot_leads_back {SO VO} (st : RegionVarBindings SO VO) st1 k :
  start_snapshot st = (st1, k) → leads_back st k st1.
Proof.
  unfold start_snapshot. destruct (in_snapshot st) eqn:Hin; intros [= <- <-].
  - unfold in_snapshot in Hin. apply Nat.ltb_lt in Hin. split; [lia|]. exists st. split; [|done].
    unfold rollback_to. by rewrite drop_all.
  - unfold in_snapshot in Hin. apply Nat.ltb_ge in Hin. split; [simpl; rewrite length_app; simpl; lia|].
    exists st. split; [|done]. rewrite rollback_push by lia. simpl. unfold rollback_to.
    by rewrite drop_ge by lia.
Qed.

(** C26. Snapshots are exact: whatever operations run after [start_snapshot]
    (variables, constraints, combined regions, further snapshots and their
    rollbacks), [rollback_to] succeeds and brings back the variables, the
    constraints, the tables of combined regions and the undo log of the
    moment the snapshot was taken.  Only the origin recorded for a
    constraint that already existed, and the counters of fresh names, may
    have moved on. *)
Theorem rollback_restores {SO VO} (misc_variable : SO → VO) st st1 k os st2 :
  start_snapshot st = (st1, k) →
  (∀ j, ORollbackTo j ∈ os → Nat.max 1 k ≤ j) →
  run_bops misc_variable st1 os = Ok st2 →
  ∃ st3, rollback_to st2 k = Ok st3 ∧ bindings_equiv st3 st.
Proof.
  intros Hs%start_snapshot_leads_back Hj Hr.
  by destruct (leads_back_ops _ _ _ _ _ _ Hj Hs Hr).
Qed.

(** ** Tainted regions *)

Section tainted.
Context (log : list UndoLogEntry).

(** Two regions that some constraint of the log relates, in either direction. *)
Definition related (r r' : Region) : Prop :=
  ∃ e r1 r2, e ∈ log ∧ entry_regions e = Some (r1, r2) ∧
    ((region_eqb r r1 = true ∧ region_eqb r' r2 = true) ∨
     (region_eqb r r2 = true ∧ region_eqb r' r1 = true)).

Definition log_regions : list Region :=
  mjoin ((λ e, match entry_regions e with Some (r1, r2) => [r1; r2] | None => [] end) <$> log).

Definition covered (rs : list Region) (y : Region) : Prop :=
  ∃ x, x ∈ rs ∧ region_eqb x y = true.

Lemma log_regions_length (l : list UndoLogEntry) :
  length (mjoin ((λ e, match entry_regions e with Some (r1, r2) => [r1; r2] | None => [] end) <$> l))
  ≤ 2 * length l.
Proof.
  induction l as [|e l IH]; [done|]. rewrite fmap_cons. change (mjoin (?x :: ?y)) with (x ++ mjoin y).
  rewrite length_app. destruct (entry_regions e) as [[]|]; simpl in *; lia.
Qed.

Lemma consider_adding_edge_spec rs r r1 r2 :
  let rs' := consider_adding_edge rs r r1 r2 in
  ∃ new, rs' = rs ++ new ∧
    (∀ x, x ∈ new → x = r2 ∧ region_eqb r r1 = true ∧ ¬ covered rs x) ∧
    (region_eqb r r1 = true → covered rs' r2) ∧ length new ≤ 1.
Proof.
  unfold consider_adding_edge. destruct (region_eqb r r1) eqn:Er; simpl.
  2: { exists []. rewrite app_nil_r. split_and!; [done|by intros ? []%elem_of_nil|done|simpl; lia]. }
  destruct (existsb _ rs) eqn:Ex.
  - exists []. rewrite app_nil_r. split_and!; [done|by intros ? []%elem_of_nil| |simpl; lia].
    intros _. apply existsb_exists in Ex as (x & Hx & He). exists x.
    by rewrite list_elem_of_In.
  - exists [r2]. split_and!; [done| | |done].
    + intros x ->%list_elem_of_singleton. split_and!; [done..|]. intros (y & Hy & He).
      assert (existsb (λ x, region_eqb x r2) rs = true); [|congruence].
      apply existsb_exists. exists y. by rewrite <- list_elem_of_In.
    + intros _. exists r2. split; [set_solver|apply region_eqb_refl].
Qed.

(** The regions found so far: distinct, all reached from [r0]. *)
Record taint_inv (r0 : Region) (rs : list Region) : Prop := {
  taint_nodup : NoDup rs;
  taint_start : r0 ∈ rs;
  taint_reach : ∀ x, x ∈ rs → rtc related r0 x;
  taint_bound : ∀ x, x ∈ rs → x ∈ r0 :: log_regions
}.

Lemma covered_app rs rs' y : covered rs y → covered (rs ++ rs') y.
Proof. intros (x & ? & ?). exists x. set_solver. Qed.

Lemma covered_elem rs y : y ∈ rs → covered rs y.
Proof. intros. exists y. split; [done|apply region_eqb_refl]. Qed.

Lemma taint_inv_add r0 rs new r y :
  taint_inv r0 rs → r ∈ rs → length new ≤ 1 →
  (∀ x, x ∈ new → x = y ∧ ¬ covered rs x) → (y ∈ new → related r y ∧ y ∈ log_regions) →
  taint_inv r0 (rs ++ new).
Proof.
  intros [Hnd Hst Hre Hbo] Hr Hlen Hnew Hy. split.
  - apply NoDup_app. split_and!; [done| |].
    + intros x Hx Hn. destruct (Hnew x Hn) as [_ Hc]. by apply Hc, covered_elem.
    + destruct new as [|n1 [|]]; simpl in Hlen; [constructor|apply NoDup_singleton|lia].
  - set_solver.
  - intros x [?|Hx]%elem_of_app; [auto|]. destruct (Hnew x Hx) as [-> _].
    eapply rtc_r; [by apply Hre|by apply Hy].
  - intros x [?|Hx]%elem_of_app; [auto|]. destruct (Hnew x Hx) as [-> _]. right. by apply Hy.
Qed.

Lemma elem_of_log_regions e r1 r2 :
  e ∈ log → entry_regions e = Some (r1, r2) → r1 ∈ log_regions ∧ r2 ∈ log_regions.
Proof.
  intros He Hr. unfold log_regions. rewrite !list_elem_of_join.
  split; exists [r1; r2]; (split; [set_solver|]); apply list_elem_of_fmap; exists e; by rewrite Hr.
Qed.

Lemma tainted_scan_spec r0 r l rs :
  (∀ e, e ∈ l → e ∈ log) → taint_inv r0 rs → r ∈ rs →
  ∃ new, tainted_scan l r rs = rs ++ new ∧ taint_inv r0 (rs ++ new) ∧
    ∀ e r1 r2, e ∈ l → entry_regions e = Some (r1, r2) →
      (region_eqb r r1 = true → covered (rs ++ new) r2) ∧
      (region_eqb r r2 = true → covered (rs ++ new) r1).
Proof.
  induction l as [|e l IH] in rs |- *; intros Hl Hinv Hr; simpl.
  { exists []. rewrite app_nil_r. split_and!; [done..|]. by intros ??? []%elem_of_nil. }
  destruct (entry_regions e) as [[r1 r2]|] eqn:Hent.
  2: { destruct (IH rs) as (new & -> & Hi & Hc); [set_solver|done..|].
       exists new. split_and!; [done..|]. intros e' ?? [->|?]%elem_of_cons ?; [congruence|eauto]. }
  assert (e ∈ log) as Hlog by (apply Hl; left).
  destruct (elem_of_log_regions _ _ _ Hlog Hent) as [Hin1 Hin2].
  destruct (consider_adding_edge_spec rs r r1 r2) as (n1 & E1 & Hn1 & Hc1 & Hl1).
  assert (taint_inv r0 (rs ++ n1)) as Hi1.
  { apply (taint_inv_add r0 rs n1 r r2); [done..|naive_solver|]. intros Hy. split; [|done].
    exists e, r1, r2. split_and!; [done..|]. left. split; [naive_solver|apply region_eqb_refl]. }
  rewrite E1 in *.
  destruct (consider_adding_edge_spec (rs ++ n1) r r2 r1) as (n2 & E2 & Hn2 & Hc2 & Hl2).
  assert (taint_inv r0 ((rs ++ n1) ++ n2)) as Hi2.
  { apply (taint_inv_add r0 (rs ++ n1) n2 r r1); [done|set_solver|done|naive_solver|].
    intros Hy. split; [|done].
    exists e, r1, r2. split_and!; [done..|]. right. split; [naive_solver|apply region_eqb_refl]. }
  rewrite E2 in *.
  destruct (IH ((rs ++ n1) ++ n2)) as (n3 & -> & Hi3 & Hc3); [set_solver|done|set_solver|].
  exists (n1 ++ n2 ++ n3). rewrite !(assoc_L (++)). split_and!; [done..|].
  intros e' r1' r2' [->|Hin]%elem_of_cons He'; [|by eapply Hc3].
  simplify_eq. split; intros Heq.
  - apply covered_app, covered_app, Hc1, Heq.
  - apply covered_app, Hc2, Heq.
Qed.

Lemma taint_length r0 rs : taint_inv r0 rs → length rs ≤ S (2 * length log).
Proof.
  intros [Hnd _ _ Hbo]. pose proof (log_regions_length log) as Hlen. fold log_regions in Hlen.
  assert (length rs ≤ length (r0 :: log_regions)); [|simpl in *; lia].
  apply NoDup_incl_length; [by apply NoDup_ListNoDup|].
  intros x. rewrite <- !list_elem_of_In. auto.
Qed.

Lemma related_eqb r r' y : region_eqb r r' = true → related r y → related r' y.
Proof.
  intros Hrr (e & r1 & r2 & He & Hent & [[H1 H2]|[H1 H2]]); exists e, r1, r2; (split_and!; [done..|]);
    [left|right]; (split; [|done]); (eapply region_eqb_trans; [by apply region_eqb_sym|done]).
Qed.

(** Regions found, all of them explored: everything related is found. *)
Lemma taint_closed_complete r0 rs y :
  r0 ∈ rs → (∀ r y, r ∈ rs → related r y → covered rs y) → rtc related r0 y → covered rs y.
Proof.
  intros H0 Hcl Hr. assert (covered rs r0) as Hc by by apply covered_elem. clear H0.
  induction Hr as [|x z y Hxz _ IH]; [done|]. apply IH.
  destruct Hc as (x' & Hx' & He). apply (Hcl x'); [done|].
  eapply related_eqb; [by apply region_eqb_sym|done].
Qed.

Lemma covered_eqb rs x y : region_eqb x y = true → covered rs x → covered rs y.
Proof. intros He (z & Hz & Hzx). exists z. split; [done|]. by eapply region_eqb_trans. Qed.

Lemma tainted_loop_spec r0 fuel rs i :
  taint_inv r0 rs → (∀ j r y, j < i → rs !! j = Some r → related r y → covered rs y) →
  S (2 * length log) ≤ fuel + i →
  ∃ rs', tainted_loop fuel log rs i = Ok rs' ∧ taint_inv r0 rs' ∧
    ∀ y, rtc related r0 y → covered rs' y.
Proof.
  assert (Hend : ∀ rs i, taint_inv r0 rs → rs !! i = None →
    (∀ j r y, j < i → rs !! j = Some r → related r y → covered rs y) →
    ∀ y, rtc related r0 y → covered rs y).
  { intros rs' i' Hinv Hi Hcl y. apply taint_closed_complete; [by apply taint_start|].
    intros r y' [j Hj]%list_elem_of_lookup. apply (Hcl j); [|done].
    apply lookup_lt_Some in Hj. apply lookup_ge_None in Hi. lia. }
  induction fuel as [|fuel IH] in rs, i |- *; intros Hinv Hcl Hfuel; simpl;
    pose proof (taint_length _ _ Hinv); destruct (rs !! i) as [r|] eqn:Hr.
  - apply lookup_lt_Some in Hr. lia.
  - exists rs. eauto.
  - assert (r ∈ rs) as Hin by (apply list_elem_of_lookup; eauto).
    destruct (tainted_scan_spec r0 r log rs) as (new & -> & Hi' & Hc'); [done..|].
    apply IH; [done| |lia]. intros j r' y Hj Hr' Hrel.
    assert (j < length rs) by (apply lookup_lt_Some in Hr; lia).
    rewrite lookup_app_l in Hr' by done.
    destruct (decide (j = i)) as [->|]; [|apply covered_app; apply (Hcl j r'); [lia|done..]].
    simplify_eq. destruct Hrel as (e & r1 & r2 & He & Hent & Hor).
    destruct (Hc' e r1 r2 He Hent) as [C1 C2].
    destruct Hor as [[H1 H2]|[H1 H2]]; (eapply covered_eqb; [by apply region_eqb_sym|auto]).
  - exists rs. eauto.
Qed.
End tainted.

(** [tainted] returns exactly the regions connected to [r0] by the
    constraints added since the snapshot, in either direction and through any
    number of steps; the worklist always empties. *)
Theorem tainted_correct {SO VO} (st : RegionVarBindings SO VO) snapshot r0 :
  ∃ rs, tainted st snapshot r0 = Ok rs ∧
    (∀ x, x ∈ rs → rtc (related (drop snapshot (undo_log st))) r0 x) ∧
    (∀ y, rtc (related (drop snapshot (undo_log st))) r0 y →
       ∃ x, x ∈ rs ∧ region_eqb x y = true).
Proof.
  set (log := drop snapshot (undo_log st)).
  destruct (tainted_loop_spec log r0 (S (2 * length (undo_log st))) [r0] 0)
    as (rs & Hrs & Hinv & Hc).
  - split; [apply NoDup_singleton|set_solver| |set_solver].
    intros x ->%list_elem_of_singleton. apply rtc_refl.
  - lia.
  - unfold log. rewrite length_drop. lia.
  - exists rs. split; [done|]. split; [apply (taint_reach _ _ _ Hinv)|done].
Qed.

(** ** Witnesses *)

Definition example_bops : list (bindings_op unit unit) :=
  [ONewVar (); OMakeSubregion () (ReScope 3) (ReInfer (ReVar 0)); OStartSnapshot;
   OLubRegions () (ReScope 2) (ReInfer (ReVar 0)); ORollbackTo 3;
   OGlbRegions () (ReScope 2) (ReInfer (ReVar 0)); ONewSkolemized (BrAnon 0)].

Definition example_bindings : RegionVarBindings unit unit :=
  match run_bops (λ _, ()) new_bindings [ONewVar (); ONewVar ()] with
  | Ok st => st
  | Fail _ => new_bindings
  end.

Lemma rollback_restores_witness :
  ∃ st2 st3, run_bops (λ _, ()) (start_snapshot example_bindings).1 example_bops = Ok st2 ∧
    rollback_to st2 0 = Ok st3 ∧ bindings_equiv st3 example_bindings.
Proof.
  eexists.
  destruct (rollback_restores (λ _ : unit, ()) example_bindings
              (start_snapshot example_bindings).1 0 example_bops
              (match run_bops (λ _, ()) (start_snapshot example_bindings).1 example_bops with
               | Ok st => st | Fail _ => new_bindings end)) as (st3 & H1 & H2).
  - reflexivity.
  - intros j Hj. unfold example_bops in Hj. rewrite !elem_of_cons in Hj.
    destruct Hj as [?|[?|[?|[?|[Hj|[?|[?|Hj]]]]]]]; try discriminate.
    + injection Hj as ->. vm_compute. lia.
    + by apply elem_of_nil in Hj.
  - vm_compute. reflexivity.
  - exists st3. split; [vm_compute; reflexivity|]. split; [exact H1|exact H2].
Defined.
