(* ===== verification/RegionSolver.v ===== *)
(** Region inference proper, [src/librustc/middle/typeck/infer/region_inference/mod.rs]
    from [lub_concrete_regions] on: the lattice operations on concrete regions,
    the expansion and contraction phases, and the collection of errors.
    [resolve_regions] assigns a value to every region variable or reports a
    conflict. *)

From stdpp Require Import prelude gmap list relations.
From S2P Require Import Prelude Ast Graph RegionMaps RegionBindings.

(** [cres<Region>] with the only type error these functions produce. *)
Inductive type_err := terr_regions_no_overlap (a b : Region).

Inductive cres := cOk (r : Region) | cErr (e : type_err).

Inductive Classification := Expanding | Contracting.

Record VarData := mkVarData { classification : Classification; value : VarValue }.

(** [type RegionGraph = graph::Graph<(), Constraint>]. *)
Abbreviation RegionGraph := (Graph unit Constraint) (only parsing).

Section solver.
Context {SO VO : Type}.
(** [self.tcx.region_maps]. *)
Context (m : RegionMaps).
Implicit Types (st : RegionVarBindings SO VO).

(** ** Least upper and greatest lower bounds of concrete regions *)

Definition lub_free_helper (a b : FreeRegion) : outcome Region :=
  ab ← sub_free_region m a b;
  if (ab : bool) then Ok (ReFree b) else
  ba ← sub_free_region m b a;
  if (ba : bool) then Ok (ReFree a) else Ok ReStatic.

Definition lub_free_regions (a b : FreeRegion) : outcome Region :=
  match free_region_cmp a b with
  | Lt => lub_free_helper a b
  | Gt => lub_free_helper b a
  | Eq => Ok (ReFree a)
  end.

Definition lub_concrete_regions st (a b : Region) : outcome Region :=
  match a, b with
  | ReLateBound _ _, _ | _, ReLateBound _ _
  | ReEarlyBound _ _ _, _ | _, ReEarlyBound _ _ _ => Fail CompilerBug
  | ReStatic, _ | _, ReStatic => Ok ReStatic (* nothing lives longer than static *)
  | ReEmpty, r | r, ReEmpty => Ok r (* everything lives longer than empty *)
  | ReInfer (ReVar v_id), _ | _, ReInfer (ReVar v_id) =>
      _ ← vec_get (var_origins st) v_id; Fail CompilerBug
  | ReFree fr, ReScope s_id | ReScope s_id, ReFree fr =>
      r ← nearest_common_ancestor m (scope_id fr) s_id;
      Ok match r with
         | Some r_id => if (r_id =? scope_id fr)%N then ReFree fr else ReStatic
         | None => ReStatic
         end
  | ReScope a_id, ReScope b_id =>
      r ← nearest_common_ancestor m a_id b_id;
      Ok match r with Some r_id => ReScope r_id | None => ReStatic end
  | ReFree a_fr, ReFree b_fr => lub_free_regions a_fr b_fr
  | ReInfer (ReSkolemized _ _), _ | _, ReInfer (ReSkolemized _ _) =>
      Ok (if region_eqb a b then a else ReStatic)
  end.

Definition intersect_scopes (region_a region_b : Region) (scope_a scope_b : NodeId)
    : outcome cres :=
  r ← nearest_common_ancestor m scope_a scope_b;
  Ok match r with
     | Some r_id =>
         if (scope_a =? r_id)%N then cOk (ReScope scope_b)
         else if (scope_b =? r_id)%N then cOk (ReScope scope_a)
         else cErr (terr_regions_no_overlap region_a region_b)
     | None => cErr (terr_regions_no_overlap region_a region_b)
     end.

Definition glb_free_helper (a b : FreeRegion) : outcome cres :=
  ab ← sub_free_region m a b;
  if (ab : bool) then Ok (cOk (ReFree a)) else
  ba ← sub_free_region m b a;
  if (ba : bool) then Ok (cOk (ReFree b)) else
  intersect_scopes (ReFree a) (ReFree b) (scope_id a) (scope_id b).

Definition glb_free_regions (a b : FreeRegion) : outcome cres :=
  match free_region_cmp a b with
  | Lt => glb_free_helper a b
  | Gt => glb_free_helper b a
  | Eq => Ok (cOk (ReFree a))
  end.

Definition glb_concrete_regions st (a b : Region) : outcome cres :=
  match a, b with
  | ReLateBound _ _, _ | _, ReLateBound _ _
  | ReEarlyBound _ _ _, _ | _, ReEarlyBound _ _ _ => Fail CompilerBug
  | ReStatic, r | r, ReStatic => Ok (cOk r) (* static lives longer than everything else *)
  | ReEmpty, _ | _, ReEmpty => Ok (cOk ReEmpty) (* nothing lives shorter than everything else *)
  | ReInfer (ReVar v_id), _ | _, ReInfer (ReVar v_id) =>
      _ ← vec_get (var_origins st) v_id; Fail CompilerBug
  | ReFree fr, ReScope s_id | ReScope s_id, ReFree fr =>
      r ← nearest_common_ancestor m (scope_id fr) s_id;
      Ok match r with
         | Some r_id =>
             if (r_id =? scope_id fr)%N then cOk (ReScope s_id)
             else cErr (terr_regions_no_overlap b a)
         | None => cErr (terr_regions_no_overlap b a)
         end
  | ReScope a_id, ReScope b_id => intersect_scopes a b a_id b_id
  | ReFree a_fr, ReFree b_fr => glb_free_regions a_fr b_fr
  | ReInfer (ReSkolemized _ _), _ | _, ReInfer (ReSkolemized _ _) =>
      Ok (if region_eqb a b then cOk a else cErr (terr_regions_no_overlap b a))
  end.

(** ** Expansion and contraction *)

Definition construct_var_data st : list VarData :=
  replicate (num_vars st) (mkVarData Contracting NoValue).

(** The new contents of [*b_data], and whether its value changed. *)
Definition expand_node st (a_region : Region) (b_data : VarData) : outcome (VarData * bool) :=
  match value b_data with
  | NoValue => Ok (mkVarData Expanding (Value a_region), true)
  | Value cur_region =>
      lub ← lub_concrete_regions st a_region cur_region;
      if region_eqb lub cur_region then Ok (mkVarData Expanding (value b_data), false)
      else Ok (mkVarData Expanding (Value lub), true)
  | ErrorValue => Ok (mkVarData Expanding (value b_data), false)
  end.

(** [let d = &mut var_data\[i\]; f(d)]. *)
Definition with_data (var_data : list VarData) (i : RegionVid)
    (f : VarData → outcome (VarData * bool)) : outcome (list VarData * bool) :=
  d ← vec_get var_data i;
  r ← f d;
  vd ← vec_set var_data i r.1;
  Ok (vd, r.2).

Definition expansion_step st (constraint : Constraint) (var_data : list VarData)
    : outcome (list VarData * bool) :=
  match constraint with
  | ConstrainRegSubVar a_region b_vid => with_data var_data b_vid (expand_node st a_region)
  | ConstrainVarSubVar a_vid b_vid =>
      a_data ← vec_get var_data a_vid;
      match value a_data with
      | NoValue | ErrorValue => Ok (var_data, false)
      | Value a_region => with_data var_data b_vid (expand_node st a_region)
      end
  | ConstrainVarSubReg _ _ => Ok (var_data, false) (* a contraction constraint *)
  | ConstrainRegSubReg _ _ => Ok (var_data, false) (* no region variables involved *)
  end.

Definition check_node (a_data : VarData) (a_region b_region : Region)
    : outcome (VarData * bool) :=
  s ← is_subregion_of m a_region b_region;
  if (s : bool) then Ok (a_data, false)
  else Ok (mkVarData (classification a_data) ErrorValue, false).

Definition adjust_node st (a_data : VarData) (a_region b_region : Region)
    : outcome (VarData * bool) :=
  g ← glb_concrete_regions st a_region b_region;
  match g with
  | cOk glb =>
      if region_eqb glb a_region then Ok (a_data, false)
      else Ok (mkVarData (classification a_data) (Value glb), true)
  | cErr _ => Ok (mkVarData (classification a_data) ErrorValue, false)
  end.

Definition is_contracting (c : Classification) : bool :=
  match c with Contracting => true | Expanding => false end.

Definition contract_node st (b_region : Region) (a_data : VarData)
    : outcome (VarData * bool) :=
  match value a_data with
  | NoValue =>
      _ ← assert_ (is_contracting (classification a_data));
      Ok (mkVarData (classification a_data) (Value b_region), true)
  | ErrorValue => Ok (a_data, false)
  | Value a_region =>
      match classification a_data with
      | Expanding => check_node a_data a_region b_region
      | Contracting => adjust_node st a_data a_region b_region
      end
  end.

Definition contraction_step st (constraint : Constraint) (var_data : list VarData)
    : outcome (list VarData * bool) :=
  match constraint with
  | ConstrainRegSubVar _ _ => Ok (var_data, false) (* an expansion constraint *)
  | ConstrainVarSubVar a_vid b_vid =>
      b_data ← vec_get var_data b_vid;
      match value b_data with
      | NoValue | ErrorValue => Ok (var_data, false)
      | Value b_region => with_data var_data a_vid (contract_node st b_region)
      end
  | ConstrainVarSubReg a_vid b_region => with_data var_data a_vid (contract_node st b_region)
  | ConstrainRegSubReg _ _ => Ok (var_data, false)
  end.

(** The regions a variable can take as value: those of the constraints, the
    scopes, and the two ends of the lattice.  No variable changes its value
    more often than this list is long, which bounds the passes. *)
Definition constraint_regions (c : Constraint) : list Region :=
  match c with
  | ConstrainVarSubVar _ _ => []
  | ConstrainRegSubVar r _ => [r]
  | ConstrainVarSubReg _ r => [r]
  | ConstrainRegSubReg _ _ => []
  end.

Definition region_scope (r : Region) : list NodeId :=
  match r with ReScope s => [s] | ReFree fr => [scope_id fr] | _ => [] end.

Definition universe st : list Region :=
  let rs := mjoin (constraint_regions <$> (constraints st).*1) in
  [ReStatic; ReEmpty] ++ rs ++
  (ReScope <$> (mjoin (region_scope <$> rs) ++ (map_to_list (scope_map m)).*2)).

Definition solver_fuel st : nat := S (num_vars st * S (length (universe st))).

(** [iterate_until_fixed_point]: passes over the constraints, in the order of
    the hash map, until one changes nothing. *)
Definition solver_iterate st (body : Constraint → list VarData → outcome (list VarData * bool))
    (var_data : list VarData) : outcome (list VarData) :=
  fixed_point_loop (solver_fuel st)
    (λ _ vd, sweep (λ c : Constraint * SO, body c.1) (constraints st) vd false) 0%N var_data.

Definition expansion st := solver_iterate st (expansion_step st).
Definition contraction st := solver_iterate st (contraction_step st).

(** ** Errors *)

Inductive RegionResolutionError :=
  | ConcreteFailure (o : SO) (a b : Region)
  | SubSupConflict (v : VO) (sub_origin : SO) (sub_r : Region) (sup_origin : SO) (sup_r : Region)
  | SupSupConflict (v : VO) (origin1 : SO) (r1 : Region) (origin2 : SO) (r2 : Region).

Fixpoint collect_concrete_region_errors (cs : list (Constraint * SO))
    (errors : list RegionResolutionError) : outcome (list RegionResolutionError) :=
  match cs with
  | [] => Ok errors
  | (ConstrainRegSubReg sub sup, origin) :: cs' =>
      b ← is_subregion_of m sub sup;
      collect_concrete_region_errors cs'
        (if (b : bool) then errors else errors ++ [ConcreteFailure origin sub sup])
  | _ :: cs' => collect_concrete_region_errors cs' errors
  end.

Record RegionAndOrigin := mkRegionAndOrigin { ro_region : Region; ro_origin : SO }.

Fixpoint add_constraint_edges (dummy_idx : NodeIndex) (cs : list (Constraint * SO))
    (graph : RegionGraph) : outcome RegionGraph :=
  match cs with
  | [] => Ok graph
  | (c, _) :: cs' =>
      graph ←
        match c with
        | ConstrainVarSubVar a_id b_id =>
            fst <$> add_edge graph (N.of_nat a_id) (N.of_nat b_id) c
        | ConstrainRegSubVar _ b_id => fst <$> add_edge graph dummy_idx (N.of_nat b_id) c
        | ConstrainVarSubReg a_id _ => fst <$> add_edge graph (N.of_nat a_id) dummy_idx c
        | ConstrainRegSubReg _ _ => Ok graph
        end;
      add_constraint_edges dummy_idx cs' graph
  end.

(** [for _ in range(0u, num_vars) { graph.add_node(()); }]. *)
Fixpoint add_nodes (num_vars : nat) (graph : RegionGraph) : RegionGraph :=
  match num_vars with
  | 0 => graph
  | S k => add_nodes k (add_node graph ()).1
  end.

Definition construct_graph st : outcome RegionGraph :=
  let graph := add_nodes (num_vars st) new in
  let '(graph, dummy_idx) := add_node graph () in
  add_constraint_edges dummy_idx (constraints st) graph.

Record WalkState := mkWalkState {
  walk_set : list RegionVid;
  walk_stack : list RegionVid;   (** the top first *)
  walk_result : list RegionAndOrigin;
  dup_found : bool
}.

Definition process_edge st (source_vid : RegionVid) (e : Edge Constraint) (state : WalkState)
    : outcome (WalkState * bool) :=
  match edge_payload e with
  | ConstrainVarSubVar from_vid to_vid =>
      let opp_vid := if from_vid =? source_vid then to_vid else from_vid in
      if existsb (Nat.eqb opp_vid) (walk_set state) then Ok (state, true)
      else Ok (mkWalkState (opp_vid :: walk_set state) (opp_vid :: walk_stack state)
                 (walk_result state) (dup_found state), true)
  | ConstrainRegSubVar region _ | ConstrainVarSubReg _ region =>
      match assoc_find constraint_eqb (edge_payload e) (constraints st) with
      | Some origin =>
          Ok (mkWalkState (walk_set state) (walk_stack state)
                (walk_result state ++ [mkRegionAndOrigin region origin]) (dup_found state), true)
      | None => Fail ExplicitFail
      end
  | ConstrainRegSubReg _ _ => Ok (state, true)
  end.

Definition process_edges st (state : WalkState) (graph : RegionGraph) (source_vid : RegionVid)
    (dir : Direction) : outcome WalkState :=
  fst <$> each_adjacent_edge graph (N.of_nat source_vid) dir
            (λ _ e, process_edge st source_vid e) state.

(** [while !state.stack.is_empty() { .. }]; [dup_vec] holds [None] for
    [uint::MAX]. *)
Fixpoint walk_loop (fuel : nat) st (graph : RegionGraph) (var_data : list VarData)
    (orig_node_idx : RegionVid) (dup_vec : list (option nat)) (state : WalkState)
    : outcome (WalkState * list (option nat)) :=
  match walk_stack state with
  | [] => Ok (state, dup_vec)
  | node_idx :: stack =>
      match fuel with
      | 0 => Fail OutOfFuel
      | S fuel' =>
          d ← vec_get var_data node_idx;
          (* check whether we've visited this node on some previous walk *)
          seen ← vec_get dup_vec node_idx;
          dup_vec ← match seen with
                    | None => vec_set dup_vec node_idx (Some orig_node_idx)
                    | Some _ => Ok dup_vec
                    end;
          let dup := match seen with
                     | None => dup_found state
                     | Some o => if o =? orig_node_idx then dup_found state else true
                     end in
          (* the direction from which this node takes its values *)
          let dir := match classification d with
                     | Expanding => Incoming
                     | Contracting => Outgoing
                     end in
          state ← process_edges st
                    (mkWalkState (walk_set state) stack (walk_result state) dup)
                    graph node_idx dir;
          walk_loop fuel' st graph var_data orig_node_idx dup_vec state
      end
  end.

Definition collect_concrete_regions st (graph : RegionGraph) (var_data : list VarData)
    (orig_node_idx : RegionVid) (dir : Direction) (dup_vec : list (option nat))
    : outcome (list RegionAndOrigin * bool * list (option nat)) :=
  state ← process_edges st (mkWalkState [orig_node_idx] [orig_node_idx] [] false)
            graph orig_node_idx dir;
  r ← walk_loop (S (num_vars st)) st graph var_data orig_node_idx dup_vec state;
  Ok (walk_result r.1, dup_found r.1, r.2).

Definition is_free (x : RegionAndOrigin) : bool :=
  match ro_region x with ReFree _ => true | _ => false end.

(** [sort_by(free_regions_first)]: [sort_by] is stable and the comparison only
    puts free regions before the others. *)
Definition sort_free_first (l : list RegionAndOrigin) : list RegionAndOrigin :=
  filter (λ x, is_free x = true) l ++ filter (λ x, is_free x = false) l.

(** The first pair of the nested loops for which the test holds. *)
Fixpoint first_pair {A} (test : A → A → outcome bool) (l1 l2 : list A)
    : outcome (option (A * A)) :=
  match l1 with
  | [] => Ok None
  | x :: l1' =>
      r ← (fix inner l := match l with
                          | [] => Ok None
                          | y :: l' => b ← test x y;
                                       if (b : bool) then Ok (Some (x, y)) else inner l'
                          end) l2;
      match r with Some p => Ok (Some p) | None => first_pair test l1' l2 end
  end.

Definition collect_error_for_expanding_node st (graph : RegionGraph) (var_data : list VarData)
    (dup_vec : list (option nat)) (node_idx : RegionVid) (errors : list RegionResolutionError)
    : outcome (list (option nat) * list RegionResolutionError) :=
  '(lower_bounds, lower_dup, dup_vec) ←
     collect_concrete_regions st graph var_data node_idx Incoming dup_vec;
  '(upper_bounds, upper_dup, dup_vec) ←
     collect_concrete_regions st graph var_data node_idx Outgoing dup_vec;
  if (lower_dup : bool) || (upper_dup : bool) then Ok (dup_vec, errors) else
  p ← first_pair (λ lower upper, negb <$> is_subregion_of m (ro_region lower) (ro_region upper))
        (sort_free_first lower_bounds) (sort_free_first upper_bounds);
  o ← vec_get (var_origins st) node_idx;
  match p with
  | Some (lower, upper) =>
      Ok (dup_vec, errors ++ [SubSupConflict o (ro_origin lower) (ro_region lower)
                                (ro_origin upper) (ro_region upper)])
  | None => Fail CompilerBug
  end.

Definition collect_error_for_contracting_node st (graph : RegionGraph) (var_data : list VarData)
    (dup_vec : list (option nat)) (node_idx : RegionVid) (errors : list RegionResolutionError)
    : outcome (list (option nat) * list RegionResolutionError) :=
  '(upper_bounds, dup, dup_vec) ←
     collect_concrete_regions st graph var_data node_idx Outgoing dup_vec;
  if (dup : bool) then Ok (dup_vec, errors) else
  p ← first_pair (λ u1 u2,
         g ← glb_concrete_regions st (ro_region u1) (ro_region u2);
         Ok match g with cOk _ => false | cErr _ => true end) upper_bounds upper_bounds;
  o ← vec_get (var_origins st) node_idx;
  match p with
  | Some (u1, u2) =>
      Ok (dup_vec, errors ++ [SupSupConflict o (ro_origin u1) (ro_region u1)
                                (ro_origin u2) (ro_region u2)])
  | None => Fail CompilerBug
  end.

(** The [for idx in range(0u, self.num_vars())] loop.  The graph is built at
    the first error and kept: building it again would give the same graph. *)
Fixpoint conflicts_loop st (var_data : list VarData) (idxs : list nat)
    (dup_vec : list (option nat)) (errors : list RegionResolutionError)
    : outcome (list RegionResolutionError) :=
  match idxs with
  | [] => Ok errors
  | idx :: idxs' =>
      d ← vec_get var_data idx;
      match value d with
      | Value _ | NoValue => conflicts_loop st var_data idxs' dup_vec errors
      | ErrorValue =>
          graph ← construct_graph st;
          r ← match classification d with
              | Expanding =>
                  collect_error_for_expanding_node st graph var_data dup_vec idx errors
              | Contracting =>
                  collect_error_for_contracting_node st graph var_data dup_vec idx errors
              end;
          conflicts_loop st var_data idxs' r.1 r.2
      end
  end.

(** [Vec::from_fn(self.num_vars(), |idx| var_data[idx].value)]. *)
Fixpoint extract_loop (var_data : list VarData) (idxs : list nat) : outcome (list VarValue) :=
  match idxs with
  | [] => Ok []
  | idx :: idxs' =>
      d ← vec_get var_data idx;
      vs ← extract_loop var_data idxs';
      Ok (value d :: vs)
  end.

Definition extract_values_and_collect_conflicts st (var_data : list VarData)
    (errors : list RegionResolutionError)
    : outcome (list VarValue * list RegionResolutionError) :=
  errors ← conflicts_loop st var_data (seq 0 (num_vars st)) (replicate (num_vars st) None) errors;
  values ← extract_loop var_data (seq 0 (num_vars st));
  Ok (values, errors).

Definition infer_variable_values st : outcome (list VarValue * list RegionResolutionError) :=
  let var_data := construct_var_data st in
  var_data ← expansion st var_data;
  var_data ← contraction st var_data;
  errors ← collect_concrete_region_errors (constraints st) [];
  extract_values_and_collect_conflicts st var_data errors.

Definition resolve_regions st : outcome (RegionVarBindings SO VO * list RegionResolutionError) :=
  r ← infer_variable_values st;
  Ok (mkBindings (var_origins st) (constraints st) (lubs st) (glbs st)
        (skolemization_count st) (bound_count st) (undo_log st) (Some r.1), r.2).
End solver.
Arguments RegionResolutionError : clear implicits.

(** ** The order on regions *)

#[export] Instance def_id_TotalOrd : TotalOrd def_id_cmp.
Proof.
  apply (then_cmp_TotalOrd krate def_node); [apply _..|]. intros [] []; simpl; congruence.
Qed.

#[export] Instance bound_region_TotalOrd : TotalOrd bound_region_cmp.
Proof.
  assert (TotalOrd (λ a b : DefId * Name, then_cmp (def_id_cmp a.1 b.1) (a.2 ?= b.2)%N)) as Hn.
  { apply (then_cmp_TotalOrd fst snd); [apply _..|]. intros [] []; simpl; congruence. }
  split.
  - intros [i|d n|i] [j|d' n'|j]; simpl; try done; rewrite ?N.compare_eq_iff; try naive_solver.
    rewrite (@cmp_eq _ _ Hn (d, n) (d', n')). naive_solver.
  - intros [i|d n|i] [j|d' n'|j]; simpl; try done; try apply N.compare_antisym.
    apply (@cmp_opp _ _ Hn (d, n) (d', n')).
  - intros [i|d n|i] [j|d' n'|j] [k|d'' n''|k]; simpl; try done; try apply cmp_lt_trans.
    apply (@cmp_lt_trans _ _ Hn (d, n) (d', n') (d'', n'')).
Qed.

#[export] Instance free_region_TotalOrd : TotalOrd free_region_cmp.
Proof.
  apply (then_cmp_TotalOrd scope_id bound_region); [apply _..|]. intros [] []; simpl; congruence.
Qed.

Lemma free_region_cmp_refl f : free_region_cmp f f = Eq.
Proof. by apply cmp_eq. Qed.

(** The lattice order: what [is_subregion_of] decides, with [ReEmpty] at the
    bottom. *)
Definition region_le (m : RegionMaps) (a b : Region) : Prop := a = ReEmpty ∨ subregion m a b.

(** The strict order in which values move; free regions declared equal to one
    another are ordered by [cmp]. *)
Definition region_lt (m : RegionMaps) (a b : Region) : Prop :=
  region_le m a b ∧
  (¬ region_le m b a ∨ ∃ f g, a = ReFree f ∧ b = ReFree g ∧ free_region_cmp f g = Lt).

Definition is_concrete (r : Region) : bool :=
  match r with
  | ReEarlyBound _ _ _ | ReLateBound _ _ | ReInfer (ReVar _) => false
  | _ => true
  end.

(** What resolution relies on: the maps describe a forest of scopes that the
    declared relations respect. *)
Record maps_wf (m : RegionMaps) : Prop := {
  wf_scopes : scopes_wf m;
  wf_free : free_regions_wf m
}.

(** Constraints are between variables that exist and concrete regions. *)
Definition constraint_wf (n : nat) (c : Constraint) : Prop :=
  match c with
  | ConstrainVarSubVar a b => a < n ∧ b < n
  | ConstrainRegSubVar r v | ConstrainVarSubReg v r => v < n ∧ is_concrete r = true
  | ConstrainRegSubReg a b => is_concrete a = true ∧ is_concrete b = true
  end.

Definition constraints_wf {SO VO} (st : RegionVarBindings SO VO) : Prop :=
  ∀ c, c ∈ (constraints st).*1 → constraint_wf (num_vars st) c.

Section order.
Context (m : RegionMaps) (Hm : maps_wf m).

Lemma region_le_refl a : region_le m a a.
Proof. right. apply subregion_refl. Qed.

Lemma region_le_static a : region_le m a ReStatic.
Proof. right. apply sub_static. Qed.

Lemma subregion_empty a : subregion m a ReEmpty → a = ReEmpty.
Proof. inversion 1 as [? ? He| | | |]; subst. by destruct a as [| | | | |[|]|]. Qed.

Lemma region_le_trans a b c : region_le m a b → region_le m b c → region_le m a c.
Proof.
  intros [->|Hab]; [by left|]. intros [->|Hbc]; [left; by apply subregion_empty|].
  right. by eapply subregion_trans; [apply Hm|..].
Qed.

Lemma region_le_eqb a b : region_eqb a b = true → region_le m a b.
Proof. intros. right. by constructor. Qed.

Lemma region_lt_trans a b c : region_lt m a b → region_lt m b c → region_lt m a c.
Proof.
  intros [Hab Ho] [Hbc Ho']. split; [by eapply region_le_trans|].
  destruct Ho as [Hn|(f & g & -> & -> & Hfg)].
  { left. intros Hca. apply Hn. by eapply region_le_trans. }
  destruct Ho' as [Hn|(g' & h & [= <-] & -> & Hgh)].
  - left. intros Hca. apply Hn. by eapply region_le_trans.
  - right. exists f, h. split_and!; [done..|]. by eapply cmp_lt_trans.
Qed.

Lemma region_lt_irrefl a : ¬ region_lt m a a.
Proof.
  intros [_ [Hn|(f & g & -> & [= <-] & Hlt)]]; [apply Hn, region_le_refl|].
  by rewrite free_region_cmp_refl in Hlt.
Qed.

#[local] Instance region_le_dec a b : Decision (region_le m a b).
Proof.
  destruct (is_subregion_of m a b) as [[]|] eqn:E.
  { left. right. by apply is_subregion_of_true; [apply Hm|]. }
  all: assert (¬ subregion m a b)
    by (intros Hs; apply is_subregion_of_true in Hs; [congruence|apply Hm]).
  all: destruct a; try (right; by intros [|]); left; by left.
Defined.

#[local] Instance region_lt_dec a b : Decision (region_lt m a b).
Proof.
  unfold region_lt. apply and_dec; [apply _|]. apply or_dec; [apply _|].
  destruct a as [| |f| | | |]; try (right; naive_solver).
  destruct b as [| |g| | | |]; try (right; naive_solver).
  destruct (free_region_cmp f g) eqn:E; [right|left; by eauto|right];
    intros (? & ? & ? & ? & ?); congruence.
Defined.

(** How far a value can still rise, or fall, among the regions of [U]. *)
Definition rank_up (U : list Region) (r : Region) : nat := length (filter (λ y, region_lt m r y) U).
Definition rank_down (U : list Region) (r : Region) : nat := length (filter (λ y, region_lt m y r) U).

Lemma rank_up_lt U a b : region_lt m a b → b ∈ U → rank_up U b < rank_up U a.
Proof.
  intros Hab Hb. apply (length_filter_lt _ _ U b); [|done..|apply region_lt_irrefl].
  intros y. by apply region_lt_trans.
Qed.

Lemma rank_down_lt U a b : region_lt m a b → a ∈ U → rank_down U a < rank_down U b.
Proof.
  intros Hab Ha. apply (length_filter_lt _ _ U a); [|done..|apply region_lt_irrefl].
  intros y Hy. by eapply region_lt_trans.
Qed.

Lemma rank_up_le U a : rank_up U a ≤ length U.
Proof. apply length_filter. Qed.
Lemma rank_down_le U a : rank_down U a ≤ length U.
Proof. apply length_filter. Qed.
End order.

(** *** The order, constructor by constructor *)

Section le_inv.
Context (m : RegionMaps).

Lemma le_scope_scope x y : region_le m (ReScope x) (ReScope y) ↔ encloses m y x.
Proof.
  split; [|intros; right; by apply sub_scope].
  intros [?|Hs]; [done|]. inversion Hs as [? ? He| | | |]; subst; [|done].
  simpl in He. apply N.eqb_eq in He. subst. apply rtc_refl.
Qed.

Lemma le_scope_free x f : region_le m (ReScope x) (ReFree f) ↔ encloses m (scope_id f) x.
Proof.
  split; [|intros; right; by apply sub_scope_free].
  intros [?|Hs]; [done|]. by inversion Hs as [? ? He| | | |]; subst.
Qed.

Lemma le_free_free f g : region_le m (ReFree f) (ReFree g) ↔ rtc (free_edge m) f g.
Proof.
  split; [|intros; right; by apply sub_free].
  intros [?|Hs]; [done|]. inversion Hs as [? ? He| | | |]; subst; [|done].
  simpl in He. apply bool_decide_eq_true in He. subst. apply rtc_refl.
Qed.

Lemma le_free_scope f s : ¬ region_le m (ReFree f) (ReScope s).
Proof. intros [?|Hs]; [done|]. by inversion Hs. Qed.

Lemma le_static_inv r : region_le m ReStatic r → r = ReStatic.
Proof.
  intros [?|Hs]; [done|]. inversion Hs as [? ? He| | | |]; subst; [|done].
  by destruct r as [| | | | |[|]|].
Qed.

Lemma le_empty_inv r : region_le m r ReEmpty → r = ReEmpty.
Proof. intros [?|Hs]; [done|]. by eapply subregion_empty. Qed.

Lemma lt_static r : r ≠ ReStatic → region_lt m r ReStatic.
Proof.
  intros Hr. split; [apply region_le_static|]. left. intros Hs. by apply Hr, le_static_inv.
Qed.

Lemma lt_empty r : r ≠ ReEmpty → region_lt m ReEmpty r.
Proof. intros Hr. split; [by left|]. left. intros Hs. by apply Hr, le_empty_inv. Qed.

Lemma lt_free f g : rtc (free_edge m) f g → free_region_cmp f g = Lt →
  region_lt m (ReFree f) (ReFree g).
Proof. intros. split; [by apply le_free_free|]. right. eauto. Qed.

Lemma lt_free_strict f g : rtc (free_edge m) f g → ¬ rtc (free_edge m) g f →
  region_lt m (ReFree f) (ReFree g).
Proof. intros. split; [by apply le_free_free|]. left. by rewrite le_free_free. Qed.
End le_inv.

(** ** Bounds *)

Section bounds.
Context {SO VO : Type} (m : RegionMaps) (Hm : maps_wf m) (st : RegionVarBindings SO VO).

(** [c] bounds [a] and [b] from above, is above [b] when it differs from it,
    is the least such bound unless it is [ReStatic], and is one of the regions
    the solver can reach. *)
Definition lub_spec (a b c : Region) : Prop :=
  region_le m a c ∧ region_le m b c ∧
  (region_eqb c b = true ∨ region_lt m b c) ∧
  (c = ReStatic ∨ ∀ d, region_le m a d → region_le m b d → region_le m c d) ∧
  (c = a ∨ c = b ∨ c = ReStatic ∨ ∃ s x, a = ReScope x ∧ c = ReScope s ∧ encloses m s x).

Lemma lub_spec_static a b : lub_spec a b ReStatic.
Proof.
  unfold lub_spec. split_and!; [apply region_le_static..| |by left|by auto].
  destruct (region_eqb ReStatic b) eqn:E; [by left|right]. apply lt_static. by intros ->.
Qed.

Lemma lub_spec_r a b : region_le m a b → lub_spec a b b.
Proof.
  intros. split_and!; [done|apply region_le_refl|left; apply region_eqb_refl|by right; auto|auto].
Qed.

Lemma lub_spec_l a b : region_lt m b a → lub_spec a b a.
Proof. intros H. split_and!; [apply region_le_refl|apply H|auto|by right; auto|auto]. Qed.

Lemma lub_free_helper_ok a b :
  free_region_cmp a b = Lt →
  ∃ c, lub_free_helper m a b = Ok c ∧ lub_spec (ReFree a) (ReFree b) c ∧
       lub_spec (ReFree b) (ReFree a) c.
Proof.
  intros Hc. unfold lub_free_helper.
  destruct (sub_free_region_ok m a b) as (ab & -> & Hab).
  destruct (sub_free_region_ok m b a) as (ba & -> & Hba). simpl.
  destruct ab; [|destruct ba]; eexists; (split; [done|]).
  - assert (rtc (free_edge m) a b) by by apply Hab.
    split; [by apply lub_spec_r, le_free_free|by apply lub_spec_l, lt_free].
  - assert (rtc (free_edge m) b a) by by apply Hba.
    assert (¬ rtc (free_edge m) a b) by (intros ?%Hab; done).
    split; [by apply lub_spec_l, lt_free_strict|by apply lub_spec_r, le_free_free].
  - split; apply lub_spec_static.
Qed.

Lemma lub_free_regions_ok a b :
  ∃ c, lub_free_regions m a b = Ok c ∧ lub_spec (ReFree a) (ReFree b) c.
Proof.
  unfold lub_free_regions. destruct (free_region_cmp a b) eqn:E.
  - apply (@cmp_eq _ free_region_cmp _) in E as ->. eexists. split; [done|].
    apply lub_spec_r, region_le_refl.
  - destruct (lub_free_helper_ok a b E) as (c & ? & ? & _). eauto.
  - assert (free_region_cmp b a = Lt) as E' by by rewrite (@cmp_opp _ free_region_cmp _ a b), E.
    destruct (lub_free_helper_ok b a E') as (c & ? & _ & ?). eauto.
Qed.

(** A scope and a free region: the free region if its scope encloses the
    other, [ReStatic] otherwise. *)
Lemma lub_scope_free_ok fr s :
  ∃ r, nearest_common_ancestor m (scope_id fr) s = Ok r ∧
    let c := match r with
             | Some r_id => if (r_id =? scope_id fr)%N then ReFree fr else ReStatic
             | None => ReStatic
             end in
    lub_spec (ReFree fr) (ReScope s) c ∧ lub_spec (ReScope s) (ReFree fr) c.
Proof.
  destruct (nearest_common_ancestor_ok m (scope_id fr) s) as (r & -> & Hr); [apply Hm|].
  exists r. split; [done|]. destruct r as [r_id|]; simpl.
  2: split; apply lub_spec_static.
  destruct (N.eqb_spec r_id (scope_id fr)) as [->|]; [|split; apply lub_spec_static].
  destruct Hr as (_ & Hs & _). split.
  - apply lub_spec_l. split; [by apply le_scope_free|]. left. apply le_free_scope.
  - by apply lub_spec_r, le_scope_free.
Qed.

Lemma lub_scopes_ok a b :
  ∃ r, nearest_common_ancestor m a b = Ok r ∧
    lub_spec (ReScope a) (ReScope b) match r with Some s => ReScope s | None => ReStatic end.
Proof.
  destruct (nearest_common_ancestor_ok m a b) as (r & -> & Hr); [apply Hm|].
  exists r. split; [done|]. destruct r as [s|]; [|apply lub_spec_static].
  destruct Hr as (Ha & Hb & Hleast). split_and!.
  - by apply le_scope_scope.
  - by apply le_scope_scope.
  - destruct (decide (s = b)) as [->|Hne]; [left; apply region_eqb_refl|right].
    split; [by apply le_scope_scope|]. left. rewrite le_scope_scope. intros ?. apply Hne.
    by apply (encloses_antisym m); [apply Hm|..].
  - right. intros [| |f|d| | |].
    all: rewrite ?le_scope_scope, ?le_scope_free; auto using region_le_static.
    all: intros [?|Hs]; [done|]; inversion Hs; subst; done.
  - right. right. right. eauto.
Qed.

Lemma lub_concrete_ok a b :
  is_concrete a = true → is_concrete b = true →
  ∃ c, lub_concrete_regions m st a b = Ok c ∧ lub_spec a b c.
Proof.
  assert (Hsk : ∀ a b, ∃ c, Ok (if region_eqb a b then a else ReStatic) = Ok c ∧ lub_spec a b c).
  { clear a b. intros a b. eexists. split; [done|].
    destruct (region_eqb a b) eqn:E; [|apply lub_spec_static].
    split_and!; [apply region_le_refl|by apply region_le_eqb, region_eqb_sym|by left|by right|by left]. }
  assert (Hst : ∀ a b, ∃ c, Ok ReStatic = Ok c ∧ lub_spec a b c) by eauto using lub_spec_static.
  assert (Hemp : ∀ b, ∃ c, Ok b = Ok c ∧ lub_spec ReEmpty b c).
  { intros b'. eexists. split; [done|]. apply lub_spec_r. by left. }
  assert (Hemp' : ∀ a, ∃ c, Ok a = Ok c ∧ lub_spec a ReEmpty c).
  { intros a'. eexists. split; [done|]. destruct (region_eqb a' ReEmpty) eqn:E.
    - apply region_eqb_inv in E as [->|(? & ? & ? & _ & ?)]; [|done]. apply lub_spec_r. by left.
    - apply lub_spec_l, lt_empty. by intros ->. }
  intros Ha Hb.
  destruct a as [| |f|s| |[|]|], b as [| |g|s'| |[|]|]; simpl in Ha, Hb; try done;
    unfold lub_concrete_regions; auto.
  - apply lub_free_regions_ok.
  - destruct (lub_scope_free_ok f s') as (r & -> & H & _). simpl. eauto.
  - destruct (lub_scope_free_ok g s) as (r & -> & _ & H). simpl. eauto.
  - destruct (lub_scopes_ok s s') as (r & -> & H). simpl. eauto.
Qed.

(** [g] bounds [a] and [b] from below and is below [a] when it differs from
    it. *)
Definition glb_spec (a b : Region) (r : cres) : Prop :=
  match r with
  | cOk g =>
      region_le m g a ∧ region_le m g b ∧
      (region_eqb g a = true ∨ region_lt m g a) ∧
      (g = a ∨ g = b ∨ g = ReEmpty ∨
       ∃ f, (a = ReFree f ∨ b = ReFree f) ∧ g = ReScope (scope_id f))
  | cErr _ => True
  end.

Lemma glb_spec_l a b : region_le m a b → glb_spec a b (cOk a).
Proof. intros. split_and!; [apply region_le_refl|done|left; apply region_eqb_refl|auto]. Qed.

Lemma glb_spec_r a b : region_lt m b a → glb_spec a b (cOk b).
Proof. intros H. split_and!; [apply H|apply region_le_refl|auto..]. Qed.

Lemma intersect_scopes_ok ra rb a b :
  ∃ r, intersect_scopes m ra rb a b = Ok r ∧
    match r with
    | cOk g => (g = ReScope a ∧ encloses m b a) ∨ (g = ReScope b ∧ encloses m a b)
    | cErr _ => True
    end.
Proof.
  unfold intersect_scopes.
  destruct (nearest_common_ancestor_ok m a b) as (r & -> & Hr); [apply Hm|]. simpl.
  eexists. split; [done|]. destruct r as [s|]; [|done]. destruct Hr as (Ha & Hb & _).
  destruct (N.eqb_spec a s) as [->|]; [by auto|]. destruct (N.eqb_spec b s) as [->|]; [by auto|done].
Qed.

Lemma glb_free_helper_ok a b :
  free_region_cmp a b = Lt →
  ∃ c, glb_free_helper m a b = Ok c ∧ glb_spec (ReFree a) (ReFree b) c ∧
       glb_spec (ReFree b) (ReFree a) c.
Proof.
  intros Hc. unfold glb_free_helper.
  destruct (sub_free_region_ok m a b) as (ab & -> & Hab).
  destruct (sub_free_region_ok m b a) as (ba & -> & Hba). simpl.
  destruct ab; [|destruct ba].
  - assert (rtc (free_edge m) a b) by by apply Hab. eexists. split; [done|].
    split; [by apply glb_spec_l, le_free_free|by apply glb_spec_r, lt_free].
  - assert (rtc (free_edge m) b a) by by apply Hba. eexists. split; [done|].
    assert (¬ rtc (free_edge m) a b) by (intros ?%Hab; done).
    split; [by apply glb_spec_r, lt_free_strict|by apply glb_spec_l, le_free_free].
  - destruct (intersect_scopes_ok (ReFree a) (ReFree b) (scope_id a) (scope_id b))
      as (r & -> & Hr). eexists. split; [done|]. destruct r as [g|]; [|done].
    assert (∀ s f g, encloses m (scope_id f) s → encloses m (scope_id g) s →
              s = scope_id f ∨ s = scope_id g → glb_spec (ReFree f) (ReFree g) (cOk (ReScope s))).
    { intros s f h Hf Hh Hs. split_and!; [by apply le_scope_free..| |].
      - right. split; [by apply le_scope_free|]. left. apply le_free_scope.
      - right. right. right. naive_solver. }
    destruct Hr as [[-> ?]|[-> ?]]; split; auto using rtc_refl.
    all: apply H; try done; try apply rtc_refl; auto.
Qed.

Lemma glb_free_regions_ok a b :
  ∃ c, glb_free_regions m a b = Ok c ∧ glb_spec (ReFree a) (ReFree b) c.
Proof.
  unfold glb_free_regions. destruct (free_region_cmp a b) eqn:E.
  - apply (@cmp_eq _ free_region_cmp _) in E as ->. eexists. split; [done|].
    apply glb_spec_l, region_le_refl.
  - destruct (glb_free_helper_ok a b E) as (c & ? & ? & _). eauto.
  - assert (free_region_cmp b a = Lt) as E' by by rewrite (@cmp_opp _ free_region_cmp _ a b), E.
    destruct (glb_free_helper_ok b a E') as (c & ? & _ & ?). eauto.
Qed.

Lemma glb_scope_free_ok fr s e e' :
  ∃ r, nearest_common_ancestor m (scope_id fr) s = Ok r ∧
    let c e := match r with
             | Some r_id => if (r_id =? scope_id fr)%N then cOk (ReScope s) else cErr e
             | None => cErr e
             end in
    glb_spec (ReFree fr) (ReScope s) (c e) ∧ glb_spec (ReScope s) (ReFree fr) (c e').
Proof.
  destruct (nearest_common_ancestor_ok m (scope_id fr) s) as (r & -> & Hr); [apply Hm|].
  exists r. split; [done|]. destruct r as [r_id|]; simpl; [|done].
  destruct (N.eqb_spec r_id (scope_id fr)) as [->|]; [|done].
  destruct Hr as (_ & Hs & _). split.
  - apply glb_spec_r. split; [by apply le_scope_free|]. left. apply le_free_scope.
  - by apply glb_spec_l, le_scope_free.
Qed.

Lemma glb_scopes_ok a b :
  ∃ r, intersect_scopes m (ReScope a) (ReScope b) a b = Ok r ∧
    glb_spec (ReScope a) (ReScope b) r.
Proof.
  destruct (intersect_scopes_ok (ReScope a) (ReScope b) a b) as (r & -> & Hr).
  exists r. split; [done|]. destruct r as [g|]; [|done]. destruct Hr as [[-> Hab]|[-> Hba]].
  - by apply glb_spec_l, le_scope_scope.
  - destruct (decide (a = b)) as [->|Hne]; [apply glb_spec_l, region_le_refl|].
    apply glb_spec_r. split; [by apply le_scope_scope|]. left. rewrite le_scope_scope.
    intros ?. apply Hne. by apply (encloses_antisym m); [apply Hm|..].
Qed.

Lemma glb_concrete_ok a b :
  is_concrete a = true → is_concrete b = true →
  ∃ r, glb_concrete_regions m st a b = Ok r ∧ glb_spec a b r.
Proof.
  assert (Hsk : ∀ a b e, ∃ c,
    Ok (if region_eqb a b then cOk a else cErr e) = Ok c ∧ glb_spec a b c).
  { clear a b. intros a b e. eexists. split; [done|].
    destruct (region_eqb a b) eqn:E; [|done]. by apply glb_spec_l, region_le_eqb. }
  assert (Hst : ∀ b, ∃ c, Ok (cOk b) = Ok c ∧ glb_spec ReStatic b c).
  { intros b'. eexists. split; [done|]. destruct (region_eqb b' ReStatic) eqn:E.
    - apply region_eqb_inv in E as [->|(? & ? & ? & _ & ?)]; [|done].
      apply glb_spec_l, region_le_refl.
    - apply glb_spec_r, lt_static. by intros ->. }
  assert (Hst' : ∀ a, ∃ c, Ok (cOk a) = Ok c ∧ glb_spec a ReStatic c).
  { intros a'. eexists. split; [done|]. apply glb_spec_l, region_le_static. }
  assert (Hemp : ∀ b, ∃ c, Ok (cOk ReEmpty) = Ok c ∧ glb_spec ReEmpty b c).
  { intros b'. eexists. split; [done|]. apply glb_spec_l. by left. }
  assert (Hemp' : ∀ a, ∃ c, Ok (cOk ReEmpty) = Ok c ∧ glb_spec a ReEmpty c).
  { intros a'. eexists. split; [done|]. destruct (region_eqb a' ReEmpty) eqn:E.
    - apply region_eqb_inv in E as [->|(? & ? & ? & _ & ?)]; [|done]. apply glb_spec_l. by left.
    - apply glb_spec_r, lt_empty. by intros ->. }
  intros Ha Hb.
  destruct a as [| |f|s| |[|]|], b as [| |g|s'| |[|]|]; simpl in Ha, Hb; try done;
    unfold glb_concrete_regions; auto.
  - apply glb_free_regions_ok.
  - destruct (glb_scope_free_ok f s' (terr_regions_no_overlap (ReScope s') (ReFree f))
                (terr_regions_no_overlap (ReScope s') (ReFree f))) as (r & -> & H & _). simpl. eauto.
  - destruct (glb_scope_free_ok g s (terr_regions_no_overlap (ReFree g) (ReScope s))
                (terr_regions_no_overlap (ReFree g) (ReScope s))) as (r & -> & _ & H). simpl. eauto.
  - apply glb_scopes_ok.
Qed.
End bounds.

(** ** The two phases *)

Section phases.
Context {SO VO : Type} (m : RegionMaps) (Hm : maps_wf m).
Context (st : RegionVarBindings SO VO) (Hst : constraints_wf st).

Abbreviation U := (universe m st).

Lemma universe_static : ReStatic ∈ U.
Proof. unfold universe. set_solver. Qed.

Lemma universe_empty : ReEmpty ∈ U.
Proof. unfold universe. set_solver. Qed.

Lemma elem_of_constraint_regions r :
  r ∈ mjoin (constraint_regions <$> (constraints st).*1) ↔
  ∃ c, c ∈ (constraints st).*1 ∧ r ∈ constraint_regions c.
Proof.
  rewrite list_elem_of_join. split.
  - intros (l & Hr & (c & -> & Hc)%list_elem_of_fmap). eauto.
  - intros (c & Hc & Hr). exists (constraint_regions c). split; [done|]. by apply list_elem_of_fmap_2.
Qed.

Lemma universe_constraint c r :
  c ∈ (constraints st).*1 → r ∈ constraint_regions c → r ∈ U.
Proof.
  intros. unfold universe. rewrite !elem_of_app. right. left.
  apply elem_of_constraint_regions. eauto.
Qed.

Lemma universe_concrete r : r ∈ U → is_concrete r = true.
Proof.
  unfold universe. rewrite !elem_of_app, !elem_of_cons, elem_of_nil, elem_of_constraint_regions.
  intros [[->|[->|[]]]|[(c & Hc & Hr)|(s & -> & _)%list_elem_of_fmap]]; [done..| |done].
  apply Hst in Hc. destruct c; simpl in *; set_solver.
Qed.

Lemma universe_parent x s : scope_map m !! x = Some s → ReScope s ∈ U.
Proof.
  intros Hx. unfold universe. rewrite !elem_of_app. right. right. apply list_elem_of_fmap_2.
  apply elem_of_app. right. apply list_elem_of_fmap. exists (x, s). split; [done|].
  by apply elem_of_map_to_list.
Qed.

Lemma universe_scope_up x s : ReScope x ∈ U → encloses m s x → ReScope s ∈ U.
Proof.
  intros Hx Hs. induction Hs as [|x y s Hxy _ IH]; [done|]. eapply IH, universe_parent, Hxy.
Qed.

Lemma universe_free f : ReFree f ∈ U → ReScope (scope_id f) ∈ U.
Proof.
  unfold universe. rewrite !elem_of_app, !elem_of_cons, elem_of_nil.
  intros [[?|[?|[]]]|[Hr|(s & ? & _)%list_elem_of_fmap]]; [done..| |done].
  right. right. apply list_elem_of_fmap_2. apply elem_of_app. left. apply list_elem_of_join.
  exists [scope_id f]. split; [set_solver|]. apply list_elem_of_fmap. by exists (ReFree f).
Qed.

Lemma lub_universe a b :
  a ∈ U → b ∈ U → ∃ c, lub_concrete_regions m st a b = Ok c ∧ c ∈ U ∧ lub_spec m a b c.
Proof.
  intros Ha Hb. destruct (lub_concrete_ok m Hm st a b) as (c & Hc & Hs);
    [by apply universe_concrete..|]. exists c. split_and!; [done| |done].
  destruct Hs as (_ & _ & _ & _ & [->|[->|[->|(s & x & -> & -> & He)]]]);
    eauto using universe_static, universe_scope_up.
Qed.

Lemma glb_universe a b :
  a ∈ U → b ∈ U → ∃ r, glb_concrete_regions m st a b = Ok r ∧ glb_spec m a b r ∧
    match r with cOk g => g ∈ U | cErr _ => True end.
Proof.
  intros Ha Hb. destruct (glb_concrete_ok m Hm st a b) as (r & Hr & Hs);
    [by apply universe_concrete..|]. exists r. split_and!; [done..|]. destruct r as [g|]; [|done].
  destruct Hs as (_ & _ & _ & [->|[->|[->|(f & [->| ->] & ->)]]]);
    auto using universe_empty, universe_free.
Qed.

Lemma with_data_ok vd i d f d' b :
  vd !! i = Some d → f d = Ok (d', b) → with_data vd i f = Ok (<[i := d']> vd, b).
Proof.
  intros Hi Hf. unfold with_data. rewrite (vec_get_Some _ _ _ Hi). simpl_ok. rewrite Hf. simpl_ok.
  rewrite vec_set_in by by eapply lookup_lt_Some. done.
Qed.

(** *** Expansion *)

Definition expand_ok (d : VarData) : Prop :=
  match value d with
  | NoValue => classification d = Contracting
  | Value r => classification d = Expanding ∧ r ∈ U
  | ErrorValue => False
  end.

Definition expand_rank (d : VarData) : nat :=
  match value d with
  | NoValue => S (length U)
  | Value r => rank_up m Hm U r
  | ErrorValue => 0
  end.

(** [d] satisfies the lower bound [r]. *)
Definition above (r : Region) (d : VarData) : Prop :=
  match value d with Value r' => region_le m r r' | _ => False end.

Lemma expand_node_ok r d :
  r ∈ U → expand_ok d →
  ∃ d' b, expand_node m st r d = Ok (d', b) ∧ expand_ok d' ∧ above r d' ∧
    (b = true → expand_rank d' < expand_rank d) ∧ (b = false → d' = d).
Proof.
  intros Hr Hd. destruct d as [cl [|cur|]]; unfold expand_ok, expand_node in *; cbn [value classification] in *; [| |done].
  - eexists _, _. split; [done|]. split_and!; [done|apply region_le_refl| |done].
    intros _. unfold expand_rank. cbn [value]. pose proof (rank_up_le m Hm U r). lia.
  - destruct Hd as [-> Hcur].
    destruct (lub_universe r cur Hr Hcur) as (c & -> & Hc & Hle & _ & Hor & _). simpl.
    destruct (region_eqb c cur) eqn:E.
    + eexists _, _. split; [done|]. split_and!; [done| |done|done]. unfold above. simpl.
      apply (region_le_trans m Hm _ c); [done|by apply region_le_eqb].
    + destruct Hor as [?|Hlt]; [congruence|]. eexists _, _. split; [done|].
      split_and!; [done|done| |done]. intros _. by apply rank_up_lt.
Qed.

Definition phase_inv (P : nat → VarData → Prop) (vd : list VarData) : Prop :=
  length vd = num_vars st ∧ ∀ i d, vd !! i = Some d → P i d.

Lemma phase_inv_lookup P vd i :
  phase_inv P vd → i < num_vars st → ∃ d, vd !! i = Some d ∧ P i d.
Proof.
  intros [Hl HP] Hi. rewrite <- Hl in Hi. apply lookup_lt_is_Some_2 in Hi as [d Hd]. eauto.
Qed.

Lemma phase_inv_insert P vd i d :
  phase_inv P vd → P i d → phase_inv P (<[i := d]> vd).
Proof.
  intros [Hl HP] Hd. split; [by rewrite length_insert|]. intros j d'.
  rewrite list_lookup_insert_Some. intros [(<- & <- & _)|[_ ?]]; auto.
Qed.

Definition total (rank : VarData → nat) (vd : list VarData) : nat := sum_list (rank <$> vd).

Lemma total_insert_lt rank vd i d d' :
  vd !! i = Some d → rank d' < rank d → total rank (<[i := d']> vd) < total rank vd.
Proof. intros Hi Hlt. pose proof (sum_list_fmap_insert rank vd i d d' Hi). unfold total. lia. Qed.

Lemma total_insert_le rank vd i d d' :
  vd !! i = Some d → rank d' ≤ rank d → total rank (<[i := d']> vd) ≤ total rank vd.
Proof. intros Hi Hlt. pose proof (sum_list_fmap_insert rank vd i d d' Hi). unfold total. lia. Qed.

Lemma total_fuel rank vd :
  length vd = num_vars st → (∀ d, rank d ≤ S (length U)) → total rank vd < solver_fuel m st.
Proof.
  intros Hl Hr. unfold total, solver_fuel.
  pose proof (sum_list_fmap_bound rank vd (S (length U)) (λ d _, Hr d)). lia.
Qed.

Lemma expand_at_ok vd r b :
  phase_inv (λ _, expand_ok) vd → b < num_vars st → r ∈ U →
  ∃ vd' c, with_data vd b (expand_node m st r) = Ok (vd', c) ∧ phase_inv (λ _, expand_ok) vd' ∧
    total expand_rank vd' ≤ total expand_rank vd ∧
    (c = true → total expand_rank vd' < total expand_rank vd) ∧
    (c = false → vd' = vd ∧ ∃ d, vd !! b = Some d ∧ above r d).
Proof.
  intros HI Hb Hr. destruct (phase_inv_lookup _ _ _ HI Hb) as (d & Hd & Hok).
  destruct (expand_node_ok r d Hr Hok) as (d' & c & Hn & Hok' & Hab & Hlt & Heq).
  exists (<[b := d']> vd), c. split_and!.
  - by eapply with_data_ok.
  - by apply phase_inv_insert.
  - apply (total_insert_le _ _ _ d); [done|]. destruct c; [by apply Nat.lt_le_incl, Hlt|].
    by rewrite (Heq eq_refl).
  - intros ->. by apply (total_insert_lt _ _ _ d); [|apply Hlt].
  - intros ->. rewrite (Heq eq_refl) in *. split; [by apply list_insert_id|]. eauto.
Qed.

(** What an unchanged expansion step says of the constraint. *)
Definition expanded (vd : list VarData) (c : Constraint) : Prop :=
  match c with
  | ConstrainRegSubVar r v => ∃ d, vd !! v = Some d ∧ above r d
  | ConstrainVarSubVar a b =>
      ∀ d r, vd !! a = Some d → value d = Value r → ∃ d', vd !! b = Some d' ∧ above r d'
  | _ => True
  end.

Lemma expansion_step_ok c vd :
  c ∈ (constraints st).*1 → phase_inv (λ _, expand_ok) vd →
  ∃ vd' b, expansion_step m st c vd = Ok (vd', b) ∧ phase_inv (λ _, expand_ok) vd' ∧
    total expand_rank vd' ≤ total expand_rank vd ∧
    (b = true → total expand_rank vd' < total expand_rank vd) ∧
    (b = false → vd' = vd ∧ expanded vd c).
Proof.
  intros Hc HI. pose proof (Hst c Hc) as Hwf. destruct c as [a b|r b|a r|r r']; simpl in *.
  - destruct Hwf as [Ha Hb]. destruct (phase_inv_lookup _ _ _ HI Ha) as (d & Hd & Hok).
    rewrite (vec_get_Some _ _ _ Hd). simpl_ok. unfold expand_ok in Hok.
    destruct (value d) as [|ra|] eqn:Ev; [|..|done].
    { eexists _, _. split_and!; [done..|]. intros _. split; [done|]. intros d' r ? Hv. simplify_eq. congruence. }
    destruct Hok as [_ Hra]. destruct (expand_at_ok vd ra b HI Hb Hra) as (vd' & c & ? & ? & ? & ? & Heq).
    exists vd', c. split_and!; [done..|]. intros Hc'. destruct (Heq Hc') as [? ?]. split; [done|].
    intros d' r' ? Hv. simplify_eq. rewrite Ev in Hv. by injection Hv as <-.
  - destruct Hwf as [Hb Hr]. apply expand_at_ok; [done..|].
    apply (universe_constraint _ _ Hc). simpl. set_solver.
  - eexists _, _. by split_and!.
  - eexists _, _. by split_and!.
Qed.

Lemma expansion_ok :
  ∃ vd, expansion m st (construct_var_data st) = Ok vd ∧ phase_inv (λ _, expand_ok) vd ∧
    ∀ c, c ∈ (constraints st).*1 → expanded vd c.
Proof.
  destruct (fixed_point_sweep (λ c : Constraint * SO, expansion_step m st c.1) (constraints st)
    (phase_inv (λ _, expand_ok)) (λ _, False) (total expand_rank))
    with (fuel := solver_fuel m st) (s := construct_var_data st) as (vd & Hvd & HI & [[]|Hfix]).
  - intros c vd Hc HI. destruct (expansion_step_ok c.1 vd) as (vd' & b & ? & ? & ? & ? & ?);
      [by apply list_elem_of_fmap_2|done|]. exists vd', b. naive_solver.
  - unfold construct_var_data. split; [apply length_replicate|].
    intros i d [-> _]%lookup_replicate. done.
  - apply total_fuel; [apply length_replicate|]. intros d. unfold expand_rank.
    destruct (value d); [done| |lia]. pose proof (rank_up_le m Hm U r). lia.
  - exists vd. split_and!; [done..|]. intros c ([c' o] & -> & Hc)%list_elem_of_fmap. simpl.
    destruct (expansion_step_ok c' vd) as (vd' & b & Hs & _ & _ & _ & Heq);
      [by apply (list_elem_of_fmap_2 fst _ (c', o))|done|].
    specialize (Hfix _ Hc). simpl in Hfix. rewrite Hs in Hfix. injection Hfix as -> ->. by apply Heq.
Qed.

(** *** Contraction *)

Context (vd0 : list VarData) (Hvd0 : phase_inv (λ _, expand_ok) vd0).

(** Classifications are those of the expansion phase; an expanding node keeps
    its value or becomes an error. *)
Definition contract_ok (i : nat) (d : VarData) : Prop :=
  ∃ d0, vd0 !! i = Some d0 ∧ classification d = classification d0 ∧
    match value d with
    | NoValue => classification d = Contracting
    | Value r => r ∈ U ∧ (classification d = Expanding → value d0 = Value r)
    | ErrorValue => True
    end.

Definition contract_rank (d : VarData) : nat :=
  match value d with
  | NoValue => S (length U)
  | Value r => rank_down m Hm U r
  | ErrorValue => 0
  end.

Definition has_error (vd : list VarData) : Prop :=
  ∃ i d, vd !! i = Some d ∧ value d = ErrorValue.

(** [d] satisfies the upper bound [r]. *)
Definition below (r : Region) (d : VarData) : Prop :=
  match value d with Value r' => region_le m r' r | _ => False end.

Definition node_step_ok (i : nat) (r : Region) (d d' : VarData) (b : bool) : Prop :=
  contract_ok i d' ∧ (value d = ErrorValue → value d' = ErrorValue) ∧
  contract_rank d' ≤ contract_rank d ∧
  (b = true → contract_rank d' < contract_rank d) ∧
  (b = false → value d' = ErrorValue ∨ (d' = d ∧ below r d)).

Lemma node_step_error i r d b :
  contract_ok i d → b = false →
  node_step_ok i r d (mkVarData (classification d) ErrorValue) b.
Proof.
  intros (d0 & ? & ? & _) ->. split_and!; [by exists d0|done|unfold contract_rank; simpl; lia|done|].
  by left.
Qed.

Lemma contract_node_ok i r d :
  r ∈ U → contract_ok i d →
  ∃ d' b, contract_node m st r d = Ok (d', b) ∧ node_step_ok i r d d' b.
Proof.
  intros Hr Hd. pose proof Hd as (d0 & Hd0 & Hcl & Hv).
  destruct d as [cl [|cur|]]; unfold contract_node; cbn [value classification] in *.
  - rewrite Hv. simpl_ok. eexists _, _. split; [done|].
    pose proof (rank_down_le m Hm U r). unfold node_step_ok, contract_rank.
    cbn [value classification]. split_and!; [|done|lia|lia|done].
    exists d0. cbn [value classification]. split_and!; [done|congruence|done|done].
  - destruct Hv as [Hcur Hexp]. destruct cl.
    + unfold check_node. destruct (is_subregion_of_ok m cur r (wf_scopes m Hm)) as (s & -> & Hs).
      simpl_ok. destruct s; (eexists _, _; split; [done|]).
      2: by apply (node_step_error i r (mkVarData Expanding (Value cur))).
      split_and!; [done|done|done|done|]. intros _. right. split; [done|].
      right. by apply Hs.
    + unfold adjust_node. destruct (glb_universe cur r Hcur Hr) as (g & -> & Hg & HgU). simpl_ok.
      destruct g as [g|e]; [|eexists _, _; split; [done|by apply node_step_error]].
      destruct Hg as (Hle & Hler & Hor & _). destruct (region_eqb g cur) eqn:E.
      * eexists _, _. split; [done|]. split_and!; [done..|]. intros _. right. split; [done|].
        apply (region_le_trans m Hm _ g); [|done]. by apply region_le_eqb, region_eqb_sym.
      * destruct Hor as [?|Hlt]; [congruence|]. pose proof (rank_down_lt m Hm U _ _ Hlt HgU).
        eexists _, _. split; [done|]. unfold node_step_ok, contract_rank.
        cbn [value classification]. split_and!; [|done|lia|lia|done].
        exists d0. cbn [value classification]. by split_and!.
  - eexists _, _. split; [done|]. split_and!; auto. done.
Qed.

Definition step_spec (vd vd' : list VarData) (b : bool) (P : list VarData → Prop) : Prop :=
  phase_inv contract_ok vd' ∧ (has_error vd → has_error vd') ∧
  total contract_rank vd' ≤ total contract_rank vd ∧
  (b = true → total contract_rank vd' < total contract_rank vd) ∧
  (b = false → (vd' = vd ∧ P vd) ∨ has_error vd').

Lemma contract_at_ok vd r a :
  phase_inv contract_ok vd → a < num_vars st → r ∈ U →
  ∃ vd' b, with_data vd a (contract_node m st r) = Ok (vd', b) ∧
    step_spec vd vd' b (λ vd, ∃ d, vd !! a = Some d ∧ below r d).
Proof.
  intros HI Ha Hr. destruct (phase_inv_lookup _ _ _ HI Ha) as (d & Hd & Hok).
  destruct (contract_node_ok a r d Hr Hok) as (d' & b & Hn & Hok' & Herr & Hle & Hlt & Heq).
  assert (a < length vd) by by eapply lookup_lt_Some.
  exists (<[a := d']> vd), b. split; [by eapply with_data_ok|]. split_and!.
  - by apply phase_inv_insert.
  - intros (j & e & Hj & He). destruct (decide (j = a)) as [->|].
    + simplify_eq. exists a, d'. split; [by apply list_lookup_insert_eq|auto].
    + exists j, e. by rewrite list_lookup_insert_ne.
  - by apply (total_insert_le _ _ _ d).
  - intros ->. by apply (total_insert_lt _ _ _ d); [|apply Hlt].
  - intros ->. destruct (Heq eq_refl) as [?|[-> ?]].
    + right. exists a, d'. split; [by apply list_lookup_insert_eq|done].
    + left. split; [by apply list_insert_id|eauto].
Qed.

(** What an unchanged contraction step says of the constraint. *)
Definition contracted (c : Constraint) (vd : list VarData) : Prop :=
  match c with
  | ConstrainVarSubReg v r => ∃ d, vd !! v = Some d ∧ below r d
  | ConstrainVarSubVar a b =>
      ∀ d' r, vd !! b = Some d' → value d' = Value r → ∃ d, vd !! a = Some d ∧ below r d
  | _ => True
  end.

Lemma step_spec_id vd (P : list VarData → Prop) :
  phase_inv contract_ok vd → P vd → step_spec vd vd false P.
Proof. intros. split_and!; auto. done. Qed.

Lemma step_spec_weaken vd vd' b (P Q : list VarData → Prop) :
  step_spec vd vd' b P → (P vd → Q vd) → step_spec vd vd' b Q.
Proof. intros (? & ? & ? & ? & Hf) HPQ. split_and!; [done..|]. naive_solver. Qed.

Lemma contraction_step_ok c vd :
  c ∈ (constraints st).*1 → phase_inv contract_ok vd →
  ∃ vd' b, contraction_step m st c vd = Ok (vd', b) ∧ step_spec vd vd' b (contracted c).
Proof.
  intros Hc HI. pose proof (Hst c Hc) as Hwf. destruct c as [a b|r b|a r|r r']; simpl in *.
  - destruct Hwf as [Ha Hb]. destruct (phase_inv_lookup _ _ _ HI Hb) as (d & Hd & Hok).
    rewrite (vec_get_Some _ _ _ Hd). simpl_ok. destruct Hok as (d0 & _ & _ & Hok).
    destruct (value d) as [|rb|] eqn:Ev.
    1,3: eexists _, _; split; [done|]; apply step_spec_id; [done|]; intros; congruence.
    destruct Hok as [Hrb _].
    destruct (contract_at_ok vd rb a HI Ha Hrb) as (vd' & c & Hw & Hs).
    exists vd', c. split; [done|]. apply (step_spec_weaken _ _ _ _ _ Hs).
    intros Hex d' r' ? Hv. simplify_eq. rewrite Ev in Hv. by injection Hv as <-.
  - eexists _, _; split; [done|]; by apply step_spec_id.
  - destruct Hwf as [Ha Hr]. apply contract_at_ok; [done..|].
    apply (universe_constraint _ _ Hc). simpl. set_solver.
  - eexists _, _; split; [done|]; by apply step_spec_id.
Qed.

Lemma contraction_ok :
  ∃ vd, contraction m st vd0 = Ok vd ∧ phase_inv contract_ok vd ∧
    (has_error vd ∨ ∀ c, c ∈ (constraints st).*1 → contracted c vd).
Proof.
  destruct (fixed_point_sweep (λ c : Constraint * SO, contraction_step m st c.1) (constraints st)
    (phase_inv contract_ok) has_error (total contract_rank))
    with (fuel := solver_fuel m st) (s := vd0) as (vd & Hvd & HI & Hfix).
  - intros c vd Hc HI. destruct (contraction_step_ok c.1 vd) as (vd' & b & ? & ? & ? & ? & ? & ?);
      [by apply list_elem_of_fmap_2|done|]. exists vd', b. naive_solver.
  - destruct Hvd0 as [Hl Hok]. split; [done|]. intros i d Hd. exists d.
    split_and!; [done..|]. specialize (Hok _ _ Hd). unfold expand_ok in Hok.
    destruct (value d); naive_solver.
  - apply total_fuel; [apply Hvd0|]. intros d. unfold contract_rank.
    destruct (value d); [done| |lia]. pose proof (rank_down_le m Hm U r). lia.
  - exists vd. split_and!; [done..|]. destruct Hfix as [?|Hfix]; [by left|].
    destruct (existsb (λ d, match value d with ErrorValue => true | _ => false end) vd) eqn:Eb.
    + left. apply existsb_exists in Eb as (d & Hd & Hv). apply list_elem_of_In in Hd.
      apply list_elem_of_lookup in Hd as [i Hi]. exists i, d. split; [done|]. by destruct (value d).
    + right. intros c ([c' o] & -> & Hc)%list_elem_of_fmap. simpl.
      destruct (contraction_step_ok c' vd) as (vd' & b & Hs & _ & _ & _ & _ & Heq);
        [by apply (list_elem_of_fmap_2 fst _ (c', o))|done|].
      specialize (Hfix _ Hc). simpl in Hfix. rewrite Hs in Hfix. injection Hfix as -> ->.
      destruct (Heq eq_refl) as [[_ ?]|(i & d & Hi & Hv)]; [done|].
      assert (existsb (λ d, match value d with ErrorValue => true | _ => false end) vd = true);
        [|congruence].
      apply existsb_exists. exists d. split; [|by rewrite Hv].
      apply list_elem_of_In, list_elem_of_lookup. eauto.
Qed.
End phases.

(** ** Error collection *)

Section errors.
Context {SO VO : Type} (m : RegionMaps) (Hm : maps_wf m).
Context (st : RegionVarBindings SO VO).
Abbreviation Error := (RegionResolutionError SO VO).

Lemma collect_concrete_region_errors_ok (cs : list (Constraint * SO)) (errors : list Error) :
  ∃ new, collect_concrete_region_errors m cs errors = Ok (errors ++ new) ∧
    (new = [] → ∀ a b, ConstrainRegSubReg a b ∈ cs.*1 → subregion m a b).
Proof.
  induction cs as [|[c o] cs IH] in errors |- *; simpl.
  { exists []. rewrite app_nil_r. split; [done|]. intros _ ?? []%elem_of_nil. }
  destruct c as [| | |a b].
  1-3: destruct (IH errors) as (new & -> & Hn); exists new; (split; [done|]); intros Hnil x y;
    rewrite elem_of_cons; intros [?|?]; [done|auto].
  destruct (is_subregion_of_ok m a b (wf_scopes m Hm)) as (r & -> & Hr). simpl.
  destruct r.
  - destruct (IH errors) as (new & -> & Hn). exists new. split; [done|]. intros Hnil x y.
    rewrite elem_of_cons. intros [[= -> ->]|?]; [by apply Hr|auto].
  - destruct (IH (errors ++ [ConcreteFailure o a b])) as (new & -> & Hn).
    exists (ConcreteFailure o a b :: new). rewrite <- (assoc_L (++)). by split.
Qed.

(** A walk only meets marks of its own. *)
Definition own_marks (o : nat) (dv : list (option nat)) : Prop :=
  ∀ i x, dv !! i = Some (Some x) → x = o.

Lemma process_edges_dup s g v dir s' :
  process_edges st s g v dir = Ok s' → dup_found s' = dup_found s.
Proof.
  unfold process_edges. intros H. inv_ok H. subst. destruct a as [s' b]. simpl.
  apply (each_adjacent_edge_inv _ (λ s', dup_found s' = dup_found s)) in Ha; [done| |done].
  clear. intros _ e s1 s2 b <- Hp. unfold process_edge in Hp.
  destruct (edge_payload e); [destruct (existsb _ _)|destruct (assoc_find _ _ _)..|]; by simplify_eq.
Qed.

Lemma walk_loop_own fuel g vd o dv s s' dv' :
  own_marks o dv → dup_found s = false →
  walk_loop fuel st g vd o dv s = Ok (s', dv') → own_marks o dv' ∧ dup_found s' = false.
Proof.
  induction fuel as [|fuel IH] in dv, s |- *; intros Hdv Hs; simpl;
    destruct (walk_stack s) as [|v stack]; intros H; [by simplify_eq|done|by simplify_eq|].
  inv_ok H. eapply IH; [| |exact H].
  - destruct a0 as [o'|]; inv_ok Ha1; subst; [done|]. intros i x.
    rewrite list_lookup_insert_Some. naive_solver.
  - rewrite (process_edges_dup _ _ _ _ _ Ha2). simpl. destruct a0 as [o'|]; [|done].
    by rewrite (Hdv _ _ Ha0), Nat.eqb_refl.
Qed.

Lemma collect_concrete_regions_own g vd o dir dv l dup dv' :
  own_marks o dv → collect_concrete_regions st g vd o dir dv = Ok (l, dup, dv') →
  own_marks o dv' ∧ dup = false.
Proof.
  intros Hdv H. unfold collect_concrete_regions in H. inv_ok H. destruct a0 as [s' dv1].
  cbn [fst snd] in *. subst. eapply walk_loop_own; [exact Hdv| |exact Ha0].
  by rewrite (process_edges_dup _ _ _ _ _ Ha).
Qed.

Lemma expanding_node_errors g vd dv o errors dv' errors' :
  collect_error_for_expanding_node m st g vd dv o errors = Ok (dv', errors') →
  ∃ new, errors' = errors ++ new ∧ (own_marks o dv → new ≠ []).
Proof.
  unfold collect_error_for_expanding_node. intros H.
  apply bind_Ok in H as ([[lower ldup] dv1] & H1 & H).
  apply bind_Ok in H as ([[upper udup] dv2] & H2 & H).
  destruct (ldup || udup) eqn:Edup.
  - simplify_eq. exists []. rewrite app_nil_r. split; [done|]. intros Hdv.
    apply collect_concrete_regions_own in H1 as [Hdv1 ->]; [|done].
    by apply collect_concrete_regions_own in H2 as [_ ->].
  - inv_ok H. destruct a as [[x y]|]; [|done]. simplify_eq. eexists. split; [done|]. done.
Qed.

Lemma contracting_node_errors g vd dv o errors dv' errors' :
  collect_error_for_contracting_node m st g vd dv o errors = Ok (dv', errors') →
  ∃ new, errors' = errors ++ new ∧ (own_marks o dv → new ≠ []).
Proof.
  unfold collect_error_for_contracting_node. intros H.
  apply bind_Ok in H as ([[upper dup] dv1] & H1 & H). destruct dup.
  - simplify_eq. exists []. rewrite app_nil_r. split; [done|]. intros Hdv.
    by apply collect_concrete_regions_own in H1 as [_ ?].
  - inv_ok H. destruct a as [[x y]|]; [|done]. simplify_eq. eexists. split; [done|]. done.
Qed.

Lemma node_errors g vd d dv o errors r :
  match classification d with
  | Expanding => collect_error_for_expanding_node m st g vd dv o errors
  | Contracting => collect_error_for_contracting_node m st g vd dv o errors
  end = Ok r → ∃ new, r.2 = errors ++ new ∧ (own_marks o dv → new ≠ []).
Proof.
  destruct r, (classification d); [apply expanding_node_errors|apply contracting_node_errors].
Qed.

(** The first variable in error is reported, whatever marks the walks leave
    for the later ones. *)
Lemma conflicts_loop_reports vd idxs dv errors errors' :
  conflicts_loop m st vd idxs dv errors = Ok errors' →
  ∃ new, errors' = errors ++ new ∧
    ((∀ i x, dv !! i = Some x → x = None) → new = [] →
     ∀ i d, i ∈ idxs → vd !! i = Some d → value d ≠ ErrorValue).
Proof.
  induction idxs as [|idx idxs IH] in dv, errors |- *; simpl.
  { intros [= ->]. exists []. rewrite app_nil_r. split; [done|]. by intros _ _ ?? []%elem_of_nil. }
  intros H. inv_ok H. destruct (value a) eqn:Ev.
  1,2: apply IH in H as (new & -> & Hn); exists new; (split; [done|]); intros Hdv Hnil i d;
    rewrite elem_of_cons; intros [->|?] Hd; [congruence|by eapply Hn].
  inv_ok H. apply node_errors in Ha1 as (new1 & E1 & Hn1). rewrite E1 in H.
  apply IH in H as (new2 & -> & _). exists (new1 ++ new2). rewrite (assoc_L (++)). split; [done|].
  intros Hdv [-> _]%app_eq_nil. destruct Hn1; [|done]. intros i x Hx. by apply Hdv in Hx.
Qed.

Lemma extract_loop_ok (vd : list VarData) :
  extract_loop vd (seq 0 (length vd)) = Ok (value <$> vd).
Proof.
  assert (∀ l k, drop k vd = l → extract_loop vd (seq k (length l)) = Ok (value <$> l)) as Hgo.
  { induction l as [|d l IH]; intros k Hk; cbn [length seq extract_loop]; [done|].
    assert (vd !! k = Some d) as Hd.
    { pose proof (lookup_drop vd k 0) as Hl. rewrite Hk, Nat.add_0_r in Hl. by rewrite <- Hl. }
    rewrite (vec_get_Some _ _ _ Hd). simpl_ok. rewrite IH; [done|].
    erewrite drop_S in Hk by done. by injection Hk. }
  by apply Hgo.
Qed.

Lemma extract_values_ok vd errors vs errors' :
  extract_values_and_collect_conflicts m st vd errors = Ok (vs, errors') →
  length vd = num_vars st →
  vs = value <$> vd ∧ ∃ new, errors' = errors ++ new ∧
    (new = [] → ∀ i d, vd !! i = Some d → value d ≠ ErrorValue).
Proof.
  unfold extract_values_and_collect_conflicts. intros H Hlen.
  apply bind_Ok in H as (e & He & H). apply bind_Ok in H as (vs' & Hvs & H). simplify_eq.
  split.
  - clear He. rewrite <- Hlen in Hvs.
    rewrite extract_loop_ok in Hvs. by injection Hvs as <-.
  - apply conflicts_loop_reports in He as (new & -> & Hn). exists new. split; [done|].
    intros Hnil i d Hi. eapply Hn; [|done| |done].
    + intros j x. by intros [-> _]%lookup_replicate.
    + apply elem_of_seq. apply lookup_lt_Some in Hi. lia.
Qed.
End errors.

(** ** The error phase returns *)

Section error_phase.
Context {SO VO : Type} (m : RegionMaps) (Hm : maps_wf m).
Context (st : RegionVarBindings SO VO) (Hst : constraints_wf st).
Context (Hedges : (N.of_nat (length (constraints st)) ≤ UINT_MAX)%N).
Abbreviation n := (num_vars st).

Record graph_ok (g : RegionGraph) : Prop := {
  gok_wf : graph_wf g;
  gok_nodes : length (nodes g) = S n;
  gok_edges : ∀ i e, edges g !! i = Some e → edge_payload e ∈ (constraints st).*1
}.

Lemma add_edge_graph_ok g a b c :
  graph_ok g → a ≤ n → b ≤ n → c ∈ (constraints st).*1 →
  (N.of_nat (length (edges g)) < UINT_MAX)%N →
  ∃ g', fst <$> add_edge g (N.of_nat a) (N.of_nat b) c = Ok g' ∧ graph_ok g' ∧
    length (edges g') = S (length (edges g)).
Proof.
  intros [Hwf Hn He] Ha Hb Hc Hlt.
  destruct (add_edge_Ok g (N.of_nat a) (N.of_nat b) c) as (g' & s & t & _ & _ & Hadd & Hl & Hes & _);
    [lia..|].
  destruct (add_edge_wf g (N.of_nat a) (N.of_nat b) c) as (g2 & Hadd2 & Hwf2); [done|lia..|done|].
  rewrite Hadd in Hadd2. injection Hadd2 as <-. exists g'. rewrite Hadd. split_and!; [done| |].
  - split; [done|lia|]. intros i e. rewrite Hes, lookup_app_Some.
    intros [?|[_ [_ <-]%list_lookup_singleton_Some]]; [by eapply He|done].
  - rewrite Hes, length_app. simpl. lia.
Qed.

Lemma add_constraint_edges_ok (cs : list (Constraint * SO)) g :
  (∀ c, c ∈ cs.*1 → c ∈ (constraints st).*1) → graph_ok g →
  (N.of_nat (length (edges g) + length cs) ≤ UINT_MAX)%N →
  ∃ g', add_constraint_edges (N.of_nat n) cs g = Ok g' ∧ graph_ok g'.
Proof.
  induction cs as [|[c o] cs IH] in g |- *; intros Hin Hg Hcap;
    cbn [add_constraint_edges]; [eauto|].
  simpl in Hin, Hcap. assert (c ∈ (constraints st).*1) as Hc by (apply Hin; left).
  pose proof (Hst c Hc) as Hwf.
  assert (Hin' : ∀ c, c ∈ cs.*1 → c ∈ (constraints st).*1) by (intros; apply Hin; by right).
  destruct c as [a b|r b|a r|r r']; simpl in Hwf; [..|apply IH; [done..|lia]].
  - destruct (add_edge_graph_ok g a b (ConstrainVarSubVar a b)) as (g' & -> & ? & ?); [done|lia..|done|lia|].
    simpl_ok. apply IH; [done..|lia].
  - destruct (add_edge_graph_ok g n b (ConstrainRegSubVar r b)) as (g' & -> & ? & ?); [done|lia..|done|lia|].
    simpl_ok. apply IH; [done..|lia].
  - destruct (add_edge_graph_ok g a n (ConstrainVarSubReg a r)) as (g' & -> & ? & ?); [done|lia..|done|lia|].
    simpl_ok. apply IH; [done..|lia].
Qed.

Lemma construct_graph_ok : ∃ g, construct_graph st = Ok g ∧ graph_ok g.
Proof.
  unfold construct_graph.
  assert (∀ k (g : RegionGraph), graph_wf g → edges g = [] →
            graph_wf (add_nodes k g) ∧ length (nodes (add_nodes k g)) = k + length (nodes g) ∧
            edges (add_nodes k g) = []) as Hiter.
  { induction k as [|k IH]; intros g Hwf He; [done|]. cbn [add_nodes].
    destruct (IH (add_node g ()).1) as (? & Hl & ?); [by apply add_node_wf|done|].
    split_and!; [done| |done]. rewrite Hl. unfold add_node. cbn [fst nodes].
    rewrite length_app. cbn [length]. lia. }
  destruct (Hiter n new) as (Hwf & Hl & He); [apply new_wf|done|].
  simpl in Hl. rewrite Nat.add_0_r in Hl. set (g := add_nodes _ _) in *.
  assert (next_node_index g = N.of_nat n) as Hidx by (unfold next_node_index; by rewrite Hl).
  destruct (add_node g ()) as [g1 idx] eqn:Eadd.
  assert (idx = N.of_nat n) as -> by (unfold add_node in Eadd; congruence).
  pose proof (f_equal fst Eadd) as E1. simpl in E1.
  apply add_constraint_edges_ok; [done| |].
  - split.
    + pose proof (add_node_wf g () Hwf) as Hw. by rewrite Eadd in Hw.
    + rewrite <- E1. simpl. rewrite length_app. simpl. lia.
    + rewrite <- E1. simpl. rewrite He. by intros ??.
  - rewrite <- E1. simpl. rewrite He. simpl. done.
Qed.

(** The set of a walk: variables met once each, those on the stack among them. *)
Record walk_ok (s : WalkState (SO := SO)) : Prop := {
  wok_nodup : NoDup (walk_set s);
  wok_range : ∀ v, v ∈ walk_set s → v < n;
  wok_stack : ∀ v, v ∈ walk_stack s → v ∈ walk_set s;
  wok_result : ∀ x, x ∈ walk_result s → is_concrete (ro_region x) = true
}.

(** Every variable that joins the set joins the stack. *)
Definition walk_grow (s s' : WalkState (SO := SO)) : Prop :=
  length (walk_set s') + length (walk_stack s) = length (walk_set s) + length (walk_stack s').

Lemma assoc_find_elem c : c ∈ (constraints st).*1 →
  is_Some (assoc_find constraint_eqb c (constraints st)).
Proof.
  generalize (constraints st) as l. induction l as [|[c' o] l IH]; simpl; [by intros []%elem_of_nil|].
  intros [->|Hin]%elem_of_cons; [rewrite constraint_eqb_refl; eauto|].
  destruct (constraint_eqb c c'); eauto.
Qed.

Lemma process_edge_ok v (e : Edge Constraint) s :
  edge_payload e ∈ (constraints st).*1 → walk_ok s →
  ∃ s', process_edge st v e s = Ok (s', true) ∧ walk_ok s' ∧ walk_grow s s'.
Proof.
  intros Hin Hs. pose proof (Hst _ Hin) as Hwf. unfold process_edge.
  assert (Hresult : ∀ r, is_concrete r = true → ∃ s',
    match assoc_find constraint_eqb (edge_payload e) (constraints st) with
    | Some origin => Ok (mkWalkState (walk_set s) (walk_stack s)
                (walk_result s ++ [mkRegionAndOrigin r origin]) (dup_found s), true)
    | None => Fail ExplicitFail
    end = Ok (s', true) ∧ walk_ok s' ∧ walk_grow s s').
  { intros r Hr. destruct (assoc_find_elem _ Hin) as [o ->]. eexists. split; [done|].
    split; [|done]. destruct Hs as [? ? ? Hres]. split; simpl; [done..|].
    intros x [?| ->%list_elem_of_singleton]%elem_of_app; [auto|done]. }
  destruct (edge_payload e) as [a b|r b|a r|r r']; simpl in Hwf;
    [|apply Hresult; naive_solver..|by exists s].
  set (opp := if a =? v then b else a). destruct (existsb _ _) eqn:Ex; [by exists s|].
  eexists. split; [done|]. split; [|unfold walk_grow; simpl; lia].
  destruct Hs as [Hnd Hr Hst' Hres]. split; simpl; [| | |done].
  - constructor; [|done]. intros Hopp. assert (existsb (Nat.eqb opp) (walk_set s) = true); [|congruence].
    apply existsb_exists. exists opp. rewrite <- list_elem_of_In. split; [done|apply Nat.eqb_refl].
  - intros w [->|?]%elem_of_cons; [|auto]. unfold opp. destruct (_ =? _); lia.
  - intros w [->|?]%elem_of_cons; [left|right; auto].
Qed.

Lemma process_edges_ok g v dir s :
  graph_ok g → v < n → walk_ok s →
  ∃ s', process_edges st s g v dir = Ok s' ∧ walk_ok s' ∧ walk_grow s s'.
Proof.
  intros Hg Hv Hs. unfold process_edges.
  rewrite each_adjacent_edge_advance by (apply Hg || rewrite (gok_nodes g Hg); lia).
  destruct (advance_total (λ '(i, e), (λ _ e, process_edge st v e) (N.of_nat i) e)
    (λ s', walk_ok s' ∧ walk_grow s s') (adjacent g dir (N.of_nat v)) s) as (s' & b & -> & ? & ?).
  - intros [i e] s1 [Hin _]%elem_of_adjacent [Hs1 Hg1].
    destruct (process_edge_ok v e s1) as (s2 & Hp & Hs2 & Hg2); [by eapply gok_edges|done|].
    exists s2, true. split_and!; [done..|]. unfold walk_grow in *. lia.
  - done.
  - exists s'. done.
Qed.

Lemma walk_loop_ok g vd o fuel dv s :
  graph_ok g → length vd = n → length dv = n → walk_ok s →
  n + length (walk_stack s) ≤ fuel + length (walk_set s) →
  ∃ s' dv', walk_loop fuel st g vd o dv s = Ok (s', dv') ∧ walk_ok s' ∧ length dv' = n.
Proof.
  intros Hg Hvd. induction fuel as [|fuel IH] in dv, s |- *; intros Hdv Hs Hf; simpl;
    destruct (walk_stack s) as [|v stack] eqn:Estack; eauto.
  - pose proof (wok_nodup s Hs) as Hnd.
    assert (length (walk_set s) ≤ length (seq 0 n)) as Hle.
    { apply NoDup_incl_length; [by apply NoDup_ListNoDup|]. intros w Hw.
      rewrite <- list_elem_of_In in *. apply elem_of_seq. apply (wok_range s Hs) in Hw. lia. }
    rewrite length_seq in Hle. simpl in Hf. lia.
  - assert (v ∈ walk_set s) as Hvin by (apply (wok_stack s Hs); rewrite Estack; left).
    assert (v < n) as Hv by by apply (wok_range s Hs).
    destruct (lookup_lt_is_Some_2 vd v) as [d Hd]; [lia|]. rewrite (vec_get_Some _ _ _ Hd). simpl_ok.
    destruct (lookup_lt_is_Some_2 dv v) as [seen Hseen]; [lia|].
    rewrite (vec_get_Some _ _ _ Hseen). simpl_ok.
    assert (∃ dv1, match seen with None => vec_set dv v (Some o) | Some _ => Ok dv end = Ok dv1
              ∧ length dv1 = n) as (dv1 & -> & Hdv1).
    { destruct seen; [eauto|]. rewrite vec_set_in by lia. eexists. split; [done|].
      by rewrite length_insert. }
    simpl_ok.
    match goal with |- context [process_edges st ?s0 g v ?dir] =>
      destruct (process_edges_ok g v dir s0 Hg Hv) as (s1 & -> & Hs1 & Hgrow) end.
    { destruct Hs as [? ? Hsub ?]. split; simpl; [done..| |done].
      intros w Hw. apply Hsub. rewrite Estack. by right. }
    simpl_ok. apply IH; [done..|]. unfold walk_grow in Hgrow. simpl in *. lia.
Qed.

Lemma collect_concrete_regions_ok g vd o dir dv :
  graph_ok g → length vd = n → length dv = n → o < n →
  ∃ l dup dv', collect_concrete_regions st g vd o dir dv = Ok (l, dup, dv') ∧ length dv' = n ∧
    ∀ x, x ∈ l → is_concrete (ro_region x) = true.
Proof.
  intros Hg Hvd Hdv Ho. unfold collect_concrete_regions.
  destruct (process_edges_ok g o dir (mkWalkState [o] [o] [] false) Hg Ho) as (s1 & -> & Hs1 & Hgrow).
  { split; simpl; [apply NoDup_singleton|set_solver..]. }
  cbn [mbind outcome_bind].
  destruct (walk_loop_ok g vd o (S n) dv s1) as (s2 & dv2 & -> & Hs2 & ?); [done..| |].
  { unfold walk_grow in Hgrow. simpl in Hgrow. lia. }
  eexists _, _, _. split; [done|]. split; [done|]. apply Hs2.
Qed.

Lemma first_pair_ok {A} (P : A → Prop) (test : A → A → outcome bool) l1 l2 :
  (∀ x y, P x → P y → ∃ b, test x y = Ok b) → (∀ x, x ∈ l1 → P x) → (∀ x, x ∈ l2 → P x) →
  ∃ r, first_pair test l1 l2 = Ok r ∧ (r = None → ∀ x y, x ∈ l1 → y ∈ l2 → test x y = Ok false).
Proof.
  intros Ht H1 H2. induction l1 as [|x l1 IH]; simpl.
  { exists None. split; [done|]. by intros _ x y ?%elem_of_nil. }
  assert (P x) as Hx by (apply H1; left).
  assert (∃ r, (fix inner l := match l with
            | [] => Ok None
            | y :: l' => b ← test x y; if (b : bool) then Ok (Some (x, y)) else inner l'
            end) l2 = Ok r ∧ (r = None → ∀ y, y ∈ l2 → test x y = Ok false)) as (r & -> & Hr).
  { clear IH. induction l2 as [|y l2 IH2].
    { exists None. split; [done|]. by intros _ y ?%elem_of_nil. }
    destruct (Ht x y Hx) as [b Hb]; [apply H2; left|]. rewrite Hb. simpl_ok. destruct b; [by exists (Some (x, y))|].
    destruct IH2 as (r & -> & Hr); [intros; apply H2; by right|]. exists r. split; [done|].
    intros Hn z [->|Hz]%elem_of_cons; auto. }
  simpl_ok. destruct r as [p|]; [by exists (Some p)|]. destruct IH as (r & -> & Hr2); [intros; apply H1; by right|].
  exists r. split; [done|]. intros Hn z y [->|Hz]%elem_of_cons Hy; auto.
Qed.

(** A variable in error all of whose bounds agree in pairs: for an expanding
    variable each lower bound the walk finds is below each upper bound, for a
    contracting one each two upper bounds have a lower bound in common. *)
Definition unexplained (vd : list VarData) (i : nat) : Prop :=
  ∃ d g dv, vd !! i = Some d ∧ value d = ErrorValue ∧ construct_graph st = Ok g ∧
    match classification d with
    | Expanding => ∃ lo up dv1 dv2,
        collect_concrete_regions st g vd i Incoming dv = Ok (lo, false, dv1) ∧
        collect_concrete_regions st g vd i Outgoing dv1 = Ok (up, false, dv2) ∧
        ∀ l u, l ∈ lo → u ∈ up → is_subregion_of m (ro_region l) (ro_region u) = Ok true
    | Contracting => ∃ up dv1,
        collect_concrete_regions st g vd i Outgoing dv = Ok (up, false, dv1) ∧
        ∀ u1 u2, u1 ∈ up → u2 ∈ up →
          ∃ r, glb_concrete_regions m st (ro_region u1) (ro_region u2) = Ok (cOk r)
    end.

(** Returning, or stopping for the reason [Q]. *)
Definition ok_or_bug {A} (P : A → Prop) (Q : Prop) (c : outcome A) : Prop :=
  match c with Ok a => P a | Fail w => w = CompilerBug ∧ Q end.

Lemma sort_free_first_elem (l : list (RegionAndOrigin (SO := SO))) x : x ∈ sort_free_first l ↔ x ∈ l.
Proof.
  unfold sort_free_first. rewrite elem_of_app, !list_elem_of_filter. destruct (is_free x); naive_solver.
Qed.

Lemma expanding_node_ok g vd o dv errors :
  graph_ok g → length vd = n → length dv = n → o < n →
  ok_or_bug (λ r, length r.1 = n)
    (∃ lo up dv1 dv2, collect_concrete_regions st g vd o Incoming dv = Ok (lo, false, dv1) ∧
       collect_concrete_regions st g vd o Outgoing dv1 = Ok (up, false, dv2) ∧
       ∀ l u, l ∈ lo → u ∈ up → is_subregion_of m (ro_region l) (ro_region u) = Ok true)
    (collect_error_for_expanding_node m st g vd dv o errors).
Proof.
  intros Hg Hvd Hdv Ho. unfold collect_error_for_expanding_node.
  destruct (collect_concrete_regions_ok g vd o Incoming dv) as (lo & ld & dv1 & Elo & Hdv1 & Hlo); [done..|].
  rewrite Elo. simpl_ok.
  destruct (collect_concrete_regions_ok g vd o Outgoing dv1) as (up & ud & dv2 & Eup & Hdv2 & Hup); [done..|].
  rewrite Eup. simpl_ok. destruct ld, ud; try done. cbn [orb].
  destruct (first_pair_ok (λ _, True) (λ lower upper : RegionAndOrigin (SO := SO),
      negb <$> is_subregion_of m (ro_region lower) (ro_region upper))
      (sort_free_first lo) (sort_free_first up)) as (p & -> & Hp); [|done..|].
  { intros x y _ _. destruct (is_subregion_of_ok m (ro_region x) (ro_region y)) as (b & -> & _);
      [apply Hm|]. by eexists. }
  simpl_ok. destruct (lookup_lt_is_Some_2 (var_origins st) o Ho) as [org Horg].
  rewrite (vec_get_Some _ _ _ Horg). simpl_ok. destruct p as [[]|]; [done|]. split; [done|].
  exists lo, up, dv1, dv2. split_and!; [done..|]. intros l u Hl Hu.
  specialize (Hp eq_refl l u). rewrite !sort_free_first_elem in Hp. specialize (Hp Hl Hu).
  by destruct (is_subregion_of m (ro_region l) (ro_region u)) as [[|]|].
Qed.

Lemma contracting_node_ok g vd o dv errors :
  graph_ok g → length vd = n → length dv = n → o < n →
  ok_or_bug (λ r, length r.1 = n)
    (∃ up dv1, collect_concrete_regions st g vd o Outgoing dv = Ok (up, false, dv1) ∧
       ∀ u1 u2, u1 ∈ up → u2 ∈ up →
         ∃ r, glb_concrete_regions m st (ro_region u1) (ro_region u2) = Ok (cOk r))
    (collect_error_for_contracting_node m st g vd dv o errors).
Proof.
  intros Hg Hvd Hdv Ho. unfold collect_error_for_contracting_node.
  destruct (collect_concrete_regions_ok g vd o Outgoing dv) as (up & ud & dv2 & Eup & Hdv2 & Hup); [done..|].
  rewrite Eup. simpl_ok. destruct ud; [done|].
  destruct (first_pair_ok (λ x : RegionAndOrigin, is_concrete (ro_region x) = true) (λ u1 u2,
      g ← glb_concrete_regions m st (ro_region u1) (ro_region u2);
      Ok match g with cOk _ => false | cErr _ => true end) up up) as (p & -> & Hp); [|done..|].
  { intros x y Hx Hy. destruct (glb_concrete_ok m Hm st _ _ Hx Hy) as (b & -> & _). by eexists. }
  simpl_ok. destruct (lookup_lt_is_Some_2 (var_origins st) o Ho) as [org Horg].
  rewrite (vec_get_Some _ _ _ Horg). simpl_ok. destruct p as [[]|]; [done|]. split; [done|].
  exists up, dv2. split; [done|]. intros u1 u2 H1 H2. specialize (Hp eq_refl u1 u2 H1 H2). cbv beta in Hp.
  destruct (glb_concrete_regions m st (ro_region u1) (ro_region u2)) as [[r|]|]; [by exists r|done..].
Qed.

Lemma conflicts_loop_ok vd idxs dv errors :
  length vd = n → length dv = n → (∀ i, i ∈ idxs → i < n) →
  ok_or_bug (λ _, True) (∃ i, unexplained vd i) (conflicts_loop m st vd idxs dv errors).
Proof.
  intros Hvd. induction idxs as [|i idxs IH] in dv, errors |- *; intros Hdv Hi; simpl; [done|].
  assert (i < n) as Hin by (apply Hi; left).
  assert (Hi' : ∀ i, i ∈ idxs → i < n) by (intros; apply Hi; by right).
  destruct (lookup_lt_is_Some_2 vd i) as [d Hd]; [lia|]. rewrite (vec_get_Some _ _ _ Hd). simpl_ok.
  destruct (value d) eqn:Ev; [by apply IH..|].
  destruct construct_graph_ok as (g & Eg & Hg). rewrite Eg. simpl_ok.
  assert (ok_or_bug (λ r, length r.1 = n) (unexplained vd i)
    match classification d with
    | Expanding => collect_error_for_expanding_node m st g vd dv i errors
    | Contracting => collect_error_for_contracting_node m st g vd dv i errors
    end) as Hnode.
  { destruct (classification d) eqn:Ec;
      [pose proof (expanding_node_ok g vd i dv errors Hg Hvd Hdv Hin) as Hn
      |pose proof (contracting_node_ok g vd i dv errors Hg Hvd Hdv Hin) as Hn];
      (unfold ok_or_bug in *; case_match; [done|]); destruct Hn as [-> Hn]; (split; [done|]);
      exists d, g, dv; rewrite Ec; done. }
  destruct (match classification d with Expanding => _ | Contracting => _ end) as [[dv' e']|w];
    simpl_ok; [by apply IH|]. destruct Hnode as [-> Hu]. split; [done|by exists i].
Qed.
End error_phase.

(** ** Soundness of resolution *)

(** A constraint under the regions that the variables are resolved to. *)
Definition satisfied {SO VO} (m : RegionMaps) (st : RegionVarBindings SO VO) (c : Constraint) : Prop :=
  match c with
  | ConstrainRegSubVar r v => ∃ rv, resolve_var st v = Ok rv ∧ region_le m r rv
  | ConstrainVarSubReg v r => ∃ rv, resolve_var st v = Ok rv ∧ region_le m rv r
  | ConstrainRegSubReg a b => subregion m a b
  | ConstrainVarSubVar a b =>
      ∃ ra rb, resolve_var st a = Ok ra ∧ resolve_var st b = Ok rb ∧ region_le m ra rb
  end.

(** A concrete region is below the variable, or above it, through a chain of
    constraints between variables. *)
Inductive bounded_below (cs : list Constraint) : RegionVid → Prop :=
| below_region r v : ConstrainRegSubVar r v ∈ cs → bounded_below cs v
| below_var a b : ConstrainVarSubVar a b ∈ cs → bounded_below cs a → bounded_below cs b.
Inductive bounded_above (cs : list Constraint) : RegionVid → Prop :=
| above_region v r : ConstrainVarSubReg v r ∈ cs → bounded_above cs v
| above_var a b : ConstrainVarSubVar a b ∈ cs → bounded_above cs b → bounded_above cs a.

Section soundness.
Context {SO VO : Type} (m : RegionMaps) (Hm : maps_wf m).
Context (st : RegionVarBindings SO VO) (Hst : constraints_wf st).

(** An expanding node has the value expansion gave it. *)
Lemma value_kept vd0 vd i d0 r :
  phase_inv st (λ _, expand_ok m st) vd0 → phase_inv st (contract_ok m st vd0) vd →
  (∀ i d, vd !! i = Some d → value d ≠ ErrorValue) →
  vd0 !! i = Some d0 → value d0 = Value r → ∃ d, vd !! i = Some d ∧ value d = Value r.
Proof.
  intros H0 HI Hne Hd0 Hv. pose proof (proj2 H0 _ _ Hd0) as Hok. unfold expand_ok in Hok.
  rewrite Hv in Hok. destruct Hok as [Hexp _].
  destruct (phase_inv_lookup st _ _ i HI) as (d & Hd & d0' & Hd0' & Hcl & Hval).
  { rewrite <- (proj1 H0). by eapply lookup_lt_Some. }
  simplify_eq. exists d. split; [done|]. specialize (Hne _ _ Hd). rewrite Hexp in Hcl.
  destruct (value d) as [|r'|]; [congruence| |done]. destruct Hval as [_ Hval].
  specialize (Hval Hcl). congruence.
Qed.

Lemma below_has_value vd0 v :
  (∀ c, c ∈ (constraints st).*1 → expanded m vd0 c) → bounded_below (constraints st).*1 v →
  ∃ d r, vd0 !! v = Some d ∧ value d = Value r.
Proof.
  intros He. induction 1 as [r v Hc|a b Hc _ (d & r & Hd & Hv)]; specialize (He _ Hc); simpl in He.
  - destruct He as (d & Hd & Hab). unfold above in Hab. destruct (value d) as [|r'|] eqn:Ev; naive_solver.
  - destruct (He d r Hd Hv) as (d' & Hd' & Hab). unfold above in Hab.
    destruct (value d') as [|r'|] eqn:Ev; naive_solver.
Qed.

Lemma above_has_value vd v :
  (∀ c, c ∈ (constraints st).*1 → contracted m c vd) → bounded_above (constraints st).*1 v →
  ∃ d r, vd !! v = Some d ∧ value d = Value r.
Proof.
  intros Hcon. induction 1 as [v r Hc|a b Hc _ (d & r & Hd & Hv)]; specialize (Hcon _ Hc); simpl in Hcon.
  - destruct Hcon as (d & Hd & Hbe). unfold below in Hbe. destruct (value d) as [|r'|] eqn:Ev; naive_solver.
  - destruct (Hcon d r Hd Hv) as (d' & Hd' & Hbe). unfold below in Hbe.
    destruct (value d') as [|r'|] eqn:Ev; naive_solver.
Qed.

(** What holds when no error was reported. *)
Record resolved_ok (st' : RegionVarBindings SO VO) (vs : list VarValue) : Prop := {
  rok_values : values st' = Some vs;
  rok_length : length vs = num_vars st;
  rok_no_error : ErrorValue ∉ vs;
  rok_below v : bounded_below (constraints st).*1 v → ∃ r, vs !! v = Some (Value r);
  rok_above v : bounded_above (constraints st).*1 v → ∃ r, vs !! v = Some (Value r);
  rok_reg_var r v : ConstrainRegSubVar r v ∈ (constraints st).*1 →
    ∃ rv, vs !! v = Some (Value rv) ∧ region_le m r rv;
  rok_var_reg v r : ConstrainVarSubReg v r ∈ (constraints st).*1 →
    ∃ rv, vs !! v = Some (Value rv) ∧ region_le m rv r;
  rok_reg_reg a b : ConstrainRegSubReg a b ∈ (constraints st).*1 → subregion m a b;
  rok_var_var a b rb : ConstrainVarSubVar a b ∈ (constraints st).*1 → vs !! b = Some (Value rb) →
    ∃ ra, vs !! a = Some (Value ra) ∧ region_le m ra rb
}.

Lemma resolve_regions_ok st' :
  resolve_regions m st = Ok (st', []) → ∃ vs, resolved_ok st' vs.
Proof.
  unfold resolve_regions, infer_variable_values. intros H.
  destruct (expansion_ok m Hm st Hst) as (vd0 & He & HI0 & Hexp). rewrite He in H.
  destruct (contraction_ok m Hm st Hst vd0 HI0) as (vd & Hc & HI & Hcon).
  change (Ok vd0 ≫= ?f) with (f vd0) in H. cbv beta in H. rewrite Hc in H.
  change (Ok vd ≫= ?f) with (f vd) in H. cbv beta in H.
  destruct (collect_concrete_region_errors_ok (VO := VO) m Hm (constraints st) [])
    as (new & Hcc & Hrr). rewrite Hcc in H.
  change (Ok ?e ≫= ?f) with (f e) in H. cbv beta in H.
  apply bind_Ok in H as ([vs errs] & Hx & H). simplify_eq/=.
  apply extract_values_ok in Hx as (-> & new2 & Hnil & Hne); [|apply HI].
  symmetry in Hnil. apply app_eq_nil in Hnil as [-> ->].
  specialize (Hrr eq_refl). specialize (Hne eq_refl).
  assert (Hcon' : ∀ c, c ∈ (constraints st).*1 → contracted m c vd).
  { destruct Hcon as [(i & d & Hd & Hv)|]; [|done]. by apply Hne in Hd. }
  exists (value <$> vd). split; [done| | | | | | |done|].
  - rewrite length_fmap. apply HI.
  - intros (d & Hv & [i Hi]%list_elem_of_lookup)%list_elem_of_fmap. by apply (Hne _ _ Hi).
  - intros v Hv. destruct (below_has_value vd0 v Hexp Hv) as (d0 & r & Hd0 & Hr).
    destruct (value_kept vd0 vd v d0 r HI0 HI Hne Hd0 Hr) as (d & Hd & Hdv). exists r.
    rewrite list_lookup_fmap, Hd. cbn. by rewrite Hdv.
  - intros v Hv. destruct (above_has_value vd v Hcon' Hv) as (d & r & Hd & Hr). exists r.
    rewrite list_lookup_fmap, Hd. cbn. by rewrite Hr.
  - intros r v Hin. destruct (Hexp _ Hin) as (d0 & Hd0 & Hab). unfold above in Hab.
    destruct (value d0) as [|rv|] eqn:Ev; [done| |done].
    destruct (value_kept vd0 vd v d0 rv HI0 HI Hne Hd0 Ev) as (d & Hd & Hv). exists rv.
    rewrite list_lookup_fmap, Hd. cbn. by rewrite Hv.
  - intros v r Hin. destruct (Hcon' _ Hin) as (d & Hd & Hbelow). unfold below in Hbelow.
    rewrite list_lookup_fmap, Hd. cbn. destruct (value d) as [|rv|]; [done| |done]. eauto.
  - intros a b rb Hin Hb. rewrite list_lookup_fmap in *. destruct (vd !! b) as [db|] eqn:Hdb; [|done].
    injection Hb as Hb. destruct (Hcon' _ Hin db rb Hdb Hb) as (da & -> & Hbelow). cbn.
    unfold below in Hbelow. destruct (value da); naive_solver.
Qed.

Lemma resolve_value (st' : RegionVarBindings SO VO) vs v r :
  values st' = Some vs → vs !! v = Some (Value r) → resolve_var st' v = Ok r.
Proof. unfold resolve_var. intros -> Hv. by rewrite (vec_get_Some _ _ _ Hv). Qed.
Lemma resolve_no_value (st' : RegionVarBindings SO VO) vs v :
  values st' = Some vs → vs !! v = Some NoValue → resolve_var st' v = Ok ReEmpty.
Proof. unfold resolve_var. intros -> Hv. by rewrite (vec_get_Some _ _ _ Hv). Qed.

(** C1. If [resolve_regions] reports no error, then no variable is left in
    error and the regions that the variables are resolved to satisfy every
    constraint, with one exception: lower bounds ([r <= v]), upper bounds
    ([v <= r]) and relations between concrete regions all hold; a relation
    [a <= b] between variables holds if [b] is bounded, below or above, by a
    concrete region through a chain of constraints.  This holds for every order
    in which the hash map of constraints is visited. *)
Theorem resolve_regions_sound st' :
  resolve_regions m st = Ok (st', []) →
  (∃ vs, values st' = Some vs ∧ length vs = num_vars st ∧ ErrorValue ∉ vs) ∧
  ∀ c, c ∈ (constraints st).*1 →
    match c with
    | ConstrainVarSubVar _ b => bounded_below (constraints st).*1 b ∨ bounded_above (constraints st).*1 b
    | _ => True
    end → satisfied m st' c.
Proof.
  intros H. destruct (resolve_regions_ok st' H) as (vs & Hok). pose proof (rok_values _ _ Hok) as Hvs.
  split; [exists vs; split_and!; [done|apply Hok|apply Hok]|]. intros c Hin Hb.
  destruct c as [a b|r v|v r|r r']; cbn [satisfied].
  - assert (∃ rb, vs !! b = Some (Value rb)) as [rb Hrb] by (destruct Hb; [by apply (rok_below _ _ Hok)|by apply (rok_above _ _ Hok)]).
    destruct (rok_var_var _ _ Hok a b rb Hin Hrb) as (ra & Hra & Hle). exists ra, rb.
    split_and!; [by eapply resolve_value..|done].
  - destruct (rok_reg_var _ _ Hok r v Hin) as (rv & Hv & Hle). exists rv. split; [by eapply resolve_value|done].
  - destruct (rok_var_reg _ _ Hok v r Hin) as (rv & Hv & Hle). exists rv. split; [by eapply resolve_value|done].
  - by apply (rok_reg_reg _ _ Hok).
Qed.


(** C10. On well-formed input [resolve_regions] always returns: expansion and
    contraction reach their fixed points within the bound on passes, the walks
    that look for conflicts end, and no vector is indexed out of range.  The
    only other outcome is the compiler bug raised when contraction leaves a
    variable in error of which all the bounds that the walk finds agree in
    pairs ([unexplained]). *)
Theorem resolve_regions_returns :
  (N.of_nat (length (constraints st)) ≤ UINT_MAX)%N →
  (∃ st' errors, resolve_regions m st = Ok (st', errors)) ∨
  resolve_regions m st = Fail CompilerBug ∧
    ∃ vd0 vd i, expansion m st (construct_var_data st) = Ok vd0 ∧ contraction m st vd0 = Ok vd ∧
      unexplained m st vd i.
Proof.
  intros Hcap. unfold resolve_regions, infer_variable_values.
  destruct (expansion_ok m Hm st Hst) as (vd0 & E0 & HI0 & _). rewrite E0. cbn [mbind outcome_bind].
  destruct (contraction_ok m Hm st Hst vd0 HI0) as (vd & E1 & HI & _). rewrite E1. cbn [mbind outcome_bind].
  destruct (collect_concrete_region_errors_ok (VO := VO) m Hm (constraints st) [])
    as (new & -> & _). cbn [mbind outcome_bind].
  unfold extract_values_and_collect_conflicts.
  pose proof (conflicts_loop_ok m Hm st Hst Hcap vd (seq 0 (num_vars st))
                (replicate (num_vars st) None) ([] ++ new)) as Hloop.
  destruct (conflicts_loop _ _ _ _ _ _) as [errors|w]; cbn [mbind outcome_bind].
  - left. rewrite <- (proj1 HI), extract_loop_ok. cbn [mbind outcome_bind]. eauto.
  - right. destruct Hloop as [-> (i & Hi)]; [apply HI|apply length_replicate| |].
    { intros i ?%elem_of_seq. lia. }
    split; [done|]. by exists vd0, vd, i.
Qed.
End soundness.

(** ** The bounds, as a client sees them *)

Section bounds_theorems.
Context {SO VO : Type} (m : RegionMaps) (Hm : maps_wf m) (st : RegionVarBindings SO VO).

Lemma nca_comm a b : nearest_common_ancestor m a b = nearest_common_ancestor m b a.
Proof.
  destruct (nearest_common_ancestor_ok m a b) as (r & -> & Hr); [apply Hm|].
  destruct (nearest_common_ancestor_ok m b a) as (r' & -> & Hr'); [apply Hm|].
  destruct r as [c|], r' as [c'|]; [|naive_solver..|done].
  destruct Hr as (Ha & Hb & Hl), Hr' as (Hb' & Ha' & Hl').
  do 2 f_equal. apply (encloses_antisym m); [apply Hm|by apply Hl'|by apply Hl].
Qed.

Lemma lub_free_comm a b : lub_free_regions m a b = lub_free_regions m b a.
Proof.
  unfold lub_free_regions. rewrite (@cmp_opp _ free_region_cmp _ a b).
  destruct (free_region_cmp a b) eqn:E; simpl; [|done..].
  apply (@cmp_eq _ free_region_cmp _) in E. by subst.
Qed.

Lemma glb_free_comm a b : glb_free_regions m a b = glb_free_regions m b a.
Proof.
  unfold glb_free_regions. rewrite (@cmp_opp _ free_region_cmp _ a b).
  destruct (free_region_cmp a b) eqn:E; simpl; [|done..].
  apply (@cmp_eq _ free_region_cmp _) in E. by subst.
Qed.

(** Equality of results, up to the names of skolemized regions and the text of
    an error. *)
Definition cres_eqb (x y : cres) : bool :=
  match x, y with cOk a, cOk b => region_eqb a b | cErr _, cErr _ => true | _, _ => false end.

Lemma lub_concrete_comm a b c :
  lub_concrete_regions m st a b = Ok c →
  ∃ c', lub_concrete_regions m st b a = Ok c' ∧ region_eqb c c' = true.
Proof.
  assert (Hrefl : ∀ x, Ok x = Ok c → ∃ c', Ok x = Ok c' ∧ region_eqb c c' = true).
  { intros x [= <-]. eexists. split; [done|apply region_eqb_refl]. }
  assert (Hsk : ∀ a b, Ok (if region_eqb a b then a else ReStatic) = Ok c →
    ∃ c', Ok (if region_eqb b a then b else ReStatic) = Ok c' ∧ region_eqb c c' = true).
  { intros x y [= <-]. eexists. split; [done|]. destruct (region_eqb x y) eqn:E.
    - by rewrite (region_eqb_sym _ _ E).
    - destruct (region_eqb y x) eqn:E'; [|done]. apply region_eqb_sym in E'. congruence. }
  destruct a as [| |f|s| |[v|]|], b as [| |g|s'| |[w|]|]; unfold lub_concrete_regions;
    try (intros H; inv_ok H; done); auto.
  - rewrite lub_free_comm. intros H. exists c. split; [done|apply region_eqb_refl].
  - intros H. exists c. split; [done|apply region_eqb_refl].
  - intros H. exists c. split; [done|apply region_eqb_refl].
  - rewrite nca_comm. intros H. exists c. split; [done|apply region_eqb_refl].
Qed.

Lemma glb_concrete_comm a b r :
  glb_concrete_regions m st a b = Ok r →
  ∃ r', glb_concrete_regions m st b a = Ok r' ∧ cres_eqb r r' = true.
Proof.
  assert (Href : ∀ x, cres_eqb x x = true) by (intros []; [apply region_eqb_refl|done]).
  assert (Hrefl : ∀ x, Ok x = Ok r → ∃ r', Ok x = Ok r' ∧ cres_eqb r r' = true) by naive_solver.
  assert (Hsk : ∀ a b e e', Ok (if region_eqb a b then cOk a else cErr e) = Ok r →
    ∃ r', Ok (if region_eqb b a then cOk b else cErr e') = Ok r' ∧ cres_eqb r r' = true).
  { intros x y ? ? [= <-]. eexists. split; [done|]. destruct (region_eqb x y) eqn:E.
    - by rewrite (region_eqb_sym _ _ E).
    - destruct (region_eqb y x) eqn:E'; [|done]. apply region_eqb_sym in E'. congruence. }
  assert (Hfs : ∀ x (f : option NodeId → cres) g, (∀ o, cres_eqb (f o) (g o) = true) →
    (o ← nearest_common_ancestor m x.1 x.2; Ok (f o)) = Ok r →
    ∃ r', (o ← nearest_common_ancestor m x.1 x.2; Ok (g o)) = Ok r' ∧ cres_eqb r r' = true).
  { intros x f h Hfh H. inv_ok H. rewrite Ha. simpl. subst. eauto. }
  destruct a as [| |f|s| |[v|]|], b as [| |g|s'| |[w|]|]; unfold glb_concrete_regions;
    try (intros H; inv_ok H; done); eauto.
  - rewrite glb_free_comm. eauto.
  - apply (Hfs (scope_id f, s')). intros [o|]; [|done]. by destruct (_ =? _)%N.
  - apply (Hfs (scope_id g, s)). intros [o|]; [|done]. by destruct (_ =? _)%N.
  - unfold intersect_scopes. rewrite (nca_comm s s'). apply (Hfs (s', s)). intros [o|]; [|done].
    destruct (N.eqb_spec s o), (N.eqb_spec s' o); subst; simpl; rewrite ?N.eqb_refl; done.
Qed.

(** The least upper bound of two concrete regions is computed without
    failure; it contains both, it is the least region that does unless it is
    the conservative answer ['static], and exchanging the arguments gives the
    same region. *)
Theorem lub_concrete_regions_correct a b :
  is_concrete a = true → is_concrete b = true →
  ∃ c c', lub_concrete_regions m st a b = Ok c ∧ lub_concrete_regions m st b a = Ok c' ∧
    region_eqb c c' = true ∧ region_le m a c ∧ region_le m b c ∧
    (c = ReStatic ∨ ∀ d, region_le m a d → region_le m b d → region_le m c d).
Proof.
  intros Ha Hb. destruct (lub_concrete_ok m Hm st a b Ha Hb) as (c & Hc & H1 & H2 & _ & H4 & _).
  destruct (lub_concrete_comm a b c Hc) as (c' & ? & ?). exists c, c'. by split_and!.
Qed.

(** The greatest lower bound of two concrete regions is computed without
    failure, up to the error that says they have none; when it is a region it
    is contained in both, and exchanging the arguments gives the same
    result. *)
Theorem glb_concrete_regions_correct a b :
  is_concrete a = true → is_concrete b = true →
  ∃ r r', glb_concrete_regions m st a b = Ok r ∧ glb_concrete_regions m st b a = Ok r' ∧
    cres_eqb r r' = true ∧ ∀ g, r = cOk g → region_le m g a ∧ region_le m g b.
Proof.
  intros Ha Hb. destruct (glb_concrete_ok m Hm st a b Ha Hb) as (r & Hr & Hs).
  destruct (glb_concrete_comm a b r Hr) as (r' & ? & ?). exists r, r'. split_and!; [done..|].
  intros g ->. by destruct Hs as (? & ? & _).
Qed.
End bounds_theorems.

(** ** Where resolution falls short *)

Definition fr_at (scope idx : N) : FreeRegion := mkFreeRegion scope (BrAnon idx).

(** [n] variables and some constraints, with their positions as origins. *)
Definition bindings_of (n : nat) (cs : list Constraint) : RegionVarBindings nat nat :=
  mkBindings (seq 0 n) (imap (λ i c, (c, i)) cs) [] [] 0 0 [] None.

(** Three free regions whose scopes are nested have lower bounds in pairs, but
    the bound of the first two has none with the third: the variable is in
    error, no conflicting pair exists, and the compiler stops, although a
    scope satisfies the constraints. *)
Theorem resolve_regions_contracting_bug :
  let cs := [ConstrainVarSubReg 0 (ReFree (fr_at 1 0)); ConstrainVarSubReg 0 (ReFree (fr_at 2 0));
             ConstrainVarSubReg 0 (ReFree (fr_at 4 0))] in
  resolve_regions example_maps (bindings_of 1 cs) = Fail CompilerBug ∧
  ∀ r, ConstrainVarSubReg 0 r ∈ cs → is_subregion_of example_maps (ReScope 4) r = Ok true.
Proof.
  split; [vm_compute; reflexivity|]. intros r. rewrite !elem_of_cons, elem_of_nil.
  intros [[= ->]|[[= ->]|[[= ->]|[]]]]; vm_compute; reflexivity.
Qed.

(** Two free regions below a third have that region as an upper bound, but
    their computed bound is ['static]; the conflict that is reported names a
    lower bound of the variable as the region that contains it. *)
Theorem resolve_regions_mislabels_bound :
  let m := relate_free_regions example_maps (fr_at 1 0) fr_b in
  let st := bindings_of 1 [ConstrainRegSubVar (ReFree fr_a) 0;
              ConstrainRegSubVar (ReFree (fr_at 1 0)) 0; ConstrainVarSubReg 0 (ReFree fr_b)] in
  (∃ st', resolve_regions m st
    = Ok (st', [SubSupConflict 0 1 (ReFree (fr_at 1 0)) 0 (ReFree fr_a)])) ∧
  is_subregion_of m (ReFree fr_a) (ReFree fr_b) = Ok true ∧
  is_subregion_of m (ReFree (fr_at 1 0)) (ReFree fr_b) = Ok true.
Proof. split_and!; [eexists|..]; vm_compute; reflexivity. Qed.

(** ** Witnesses *)

Lemma example_maps_wf : maps_wf example_maps.
Proof. split; [apply example_scopes_wf|apply example_free_wf]. Qed.

Definition example_constraints : list Constraint :=
  [ConstrainRegSubVar (ReScope 4) 0; ConstrainVarSubVar 0 1; ConstrainVarSubReg 1 (ReFree fr_a);
   ConstrainRegSubReg (ReScope 3) (ReFree fr_b); ConstrainRegSubVar (ReScope 3) 1;
   ConstrainVarSubReg 2 (ReFree fr_a); ConstrainVarSubReg 2 (ReScope 2)].

Definition example_state : RegionVarBindings nat nat := bindings_of 3 example_constraints.

Lemma example_constraints_wf : constraints_wf example_state.
Proof.
  intros c. change ((constraints example_state).*1) with example_constraints.
  unfold example_constraints. rewrite !elem_of_cons, elem_of_nil.
  intros Hc. repeat destruct Hc as [->|Hc]; [simpl; unfold num_vars; simpl; lia..|done].
Qed.

Definition example_resolved : RegionVarBindings nat nat :=
  match resolve_regions example_maps example_state with
  | Ok (st', _) => st'
  | Fail _ => example_state
  end.

Lemma resolve_regions_sound_witness :
  satisfied example_maps example_resolved (ConstrainVarSubVar 0 1) ∧
  satisfied example_maps example_resolved (ConstrainVarSubReg 2 (ReFree fr_a)).
Proof.
  destruct (resolve_regions_sound example_maps example_maps_wf example_state example_constraints_wf
    example_resolved) as [_ Hs]; [vm_compute; reflexivity|].
  split; apply Hs; try apply I; try (unfold example_state; cbn; set_solver).
  left. apply (below_region _ (ReScope 3)). cbn. set_solver.
Defined.

Definition empty_sup_state : RegionVarBindings nat nat :=
  bindings_of 2 [ConstrainVarSubVar 0 1; ConstrainVarSubReg 0 (ReScope 4)].


Lemma resolve_regions_returns_witness :
  ∃ st' errors, resolve_regions example_maps example_state = Ok (st', errors).
Proof.
  destruct (resolve_regions_returns example_maps example_maps_wf example_state
    example_constraints_wf) as [Hok|[Hbug _]]; [vm_compute; discriminate|exact Hok|].
  vm_compute in Hbug. discriminate.
Defined.

Lemma lub_concrete_regions_correct_witness :
  ∃ c c', lub_concrete_regions example_maps example_state (ReScope 4) (ReScope 3) = Ok c ∧
    lub_concrete_regions example_maps example_state (ReScope 3) (ReScope 4) = Ok c' ∧
    region_eqb c c' = true ∧ region_le example_maps (ReScope 4) c ∧
    region_le example_maps (ReScope 3) c ∧
    (c = ReStatic ∨ ∀ d, region_le example_maps (ReScope 4) d →
       region_le example_maps (ReScope 3) d → region_le example_maps c d).
Proof. apply (lub_concrete_regions_correct example_maps example_maps_wf); reflexivity. Defined.

Lemma glb_concrete_regions_correct_witness :
  ∃ r r', glb_concrete_regions example_maps example_state (ReScope 4) (ReFree fr_a) = Ok r ∧
    glb_concrete_regions example_maps example_state (ReFree fr_a) (ReScope 4) = Ok r' ∧
    cres_eqb r r' = true ∧
    ∀ g, r = cOk g → region_le example_maps g (ReScope 4) ∧ region_le example_maps g (ReFree fr_a).
Proof. apply (glb_concrete_regions_correct example_maps example_maps_wf); reflexivity. Defined.
