(* ===== verification/Unify.v ===== *)
(** Unification of type variables, [src/librustc/middle/typeck/infer/unify.rs]:
    union-find over [ValsAndBindings], with an undo log of the values [set]
    replaces.  A variable of any kind is its index, [Vid::to_uint]. *)

From stdpp Require Import prelude gmap list.
From S2P Require Import Prelude.

(** ** Data *)

Abbreviation Vid := nat (only parsing).

Inductive VarValue (T : Type) :=
  | Redirect (v : Vid)
  | Root (possible_types : T) (rank : nat).
Arguments Redirect {T} _.
Arguments Root {T} _ _.

Record ValsAndBindings (T : Type) := mkVB {
  vals : gmap nat (VarValue T);
  bindings : list (Vid * VarValue T)
}.
Arguments mkVB {T} _ _.
Arguments vals {T} _.
Arguments bindings {T} _.

Record Node (T : Type) := mkNode { root : Vid; possible_types : T; rank : nat }.
Arguments mkNode {T} _ _ _.
Arguments root {T} _.
Arguments possible_types {T} _.
Arguments rank {T} _.

(** [ty::expected_found], the payload of the errors [to_type_err] builds. *)
Record expected_found (T : Type) := mkExpectedFound { expected : T; found : T }.
Arguments mkExpectedFound {T} _ _.
Arguments expected {T} _.
Arguments found {T} _.

(** [ures]: [Ok(())] or a mismatch. *)
Definition ures (T : Type) : Type := unit + expected_found T.

Section unify.
Context {T : Type}.
Implicit Types (vb : ValsAndBindings T).

(** ** Operations *)

(** [get::helper].  The variable named [vid] inside [Redirect(vid)] shadows
    the argument: it is the parent that is compressed. *)
Fixpoint get_helper (fuel : nat) vb (vid : Vid) : outcome (ValsAndBindings T * Node T) :=
  match fuel with
  | 0 => Fail OutOfFuel
  | S fuel' =>
      match vals vb !! vid with
      | None => Fail CompilerBug
      | Some (Redirect vid) =>
          r ← get_helper fuel' vb vid;
          if root r.2 =? vid then Ok r
          else Ok (mkVB (<[vid := Redirect (root r.2)]> (vals r.1)) (bindings r.1), r.2)
      | Some (Root pt rk) => Ok (vb, mkNode vid pt rk)
      end
  end.

Definition get vb (vid : Vid) : outcome (ValsAndBindings T * Node T) :=
  get_helper (S (size (vals vb))) vb vid.

(** [vid] must be a root. *)
Definition set vb (vid : Vid) (new_v : VarValue T) : outcome (ValsAndBindings T) :=
  match vals vb !! vid with
  | None => Fail ExplicitFail
  | Some old_v => Ok (mkVB (<[vid := new_v]> (vals vb)) (bindings vb ++ [(vid, old_v)]))
  end.

Definition unify vb (node_a node_b : Node T) : outcome (ValsAndBindings T * (Vid * nat)) :=
  if rank node_b <? rank node_a then
    vb ← set vb (root node_b) (Redirect (root node_a));
    Ok (vb, (root node_a, rank node_a))
  else if rank node_a <? rank node_b then
    vb ← set vb (root node_a) (Redirect (root node_b));
    Ok (vb, (root node_b, rank node_b))
  else
    _ ← assert_ (rank node_a =? rank node_b);
    vb ← set vb (root node_b) (Redirect (root node_a));
    Ok (vb, (root node_a, rank node_a + 1)).

(** [rollback_to] of [infer/mod.rs]: [while vb.bindings.len() != len { pop }]. *)
Fixpoint undo_bindings (entries : list (Vid * VarValue T)) (vs : gmap nat (VarValue T))
    : gmap nat (VarValue T) :=
  match entries with
  | [] => vs
  | (vid, old_v) :: entries' => undo_bindings entries' (<[vid := old_v]> vs)
  end.

Definition rollback_vals vb (len : nat) : outcome (ValsAndBindings T) :=
  if length (bindings vb) <? len then Fail UnwrapNone
  else Ok (mkVB (undo_bindings (reverse (drop len (bindings vb))) (vals vb))
             (take len (bindings vb))).
End unify.

Definition mk_err {T} (a_is_expected : bool) (a_t b_t : T) : ures T :=
  if a_is_expected then inr (mkExpectedFound a_t b_t) else inr (mkExpectedFound b_t a_t).

Section simple.
Context {T : Type} `{EqDecision T}.
Implicit Types (vb : ValsAndBindings (option T)).

Definition simple_vars vb (a_is_expected : bool) (a_id b_id : Vid)
    : outcome (ValsAndBindings (option T) * ures T) :=
  r ← get vb a_id;
  let '(vb, node_a) := r in
  r ← get vb b_id;
  let '(vb, node_b) := r in
  if root node_a =? root node_b then Ok (vb, inl ()) else
  let continue_ combined :=
    r ← unify vb node_a node_b;
    let '(vb, (new_root, new_rank)) := r in
    vb ← set vb new_root (Root combined new_rank);
    Ok (vb, inl ()) in
  match possible_types node_a, possible_types node_b with
  | None, None => continue_ None
  | Some v, None | None, Some v => continue_ (Some v)
  | Some v1, Some v2 =>
      if decide (v1 = v2) then continue_ (Some v1) else Ok (vb, mk_err a_is_expected v1 v2)
  end.

Definition simple_var_t vb (a_is_expected : bool) (a_id : Vid) (b : T)
    : outcome (ValsAndBindings (option T) * ures T) :=
  r ← get vb a_id;
  let '(vb, node_a) := r in
  match possible_types node_a with
  | None =>
      vb ← set vb (root node_a) (Root (Some b) (rank node_a));
      Ok (vb, inl ())
  | Some a_t => if decide (a_t = b) then Ok (vb, inl ()) else Ok (vb, mk_err a_is_expected a_t b)
  end.

(** [next_simple_var] of [infer/mod.rs]. *)
Definition next_simple_var (counter : nat) vb : nat * ValsAndBindings (option T) * nat :=
  let id := counter in
  (counter + 1, mkVB (<[id := Root None 0]> (vals vb)) (bindings vb), id).
End simple.

(** ** Specification: the classes of variables *)

Section classes.
Context {T : Type}.
Implicit Types (vs : gmap nat (VarValue T)).

(** [reaches vs k v r]: following [k] redirections from [v] leads to the root
    [r]. *)
Inductive reaches vs : nat → Vid → Vid → Prop :=
  | reaches_root v pt rk : vs !! v = Some (Root pt rk) → reaches vs 0 v v
  | reaches_step k v p r : vs !! v = Some (Redirect p) → reaches vs k p r → reaches vs (S k) v r.

(** Every variable leads to a root, and the rank of the root bounds the number
    of redirections. *)
Record uf_wf vs : Prop := {
  uf_total : ∀ v x, vs !! v = Some x → ∃ k r, reaches vs k v r;
  uf_rank : ∀ k v r pt rk, reaches vs k v r → vs !! r = Some (Root pt rk) → k ≤ rk
}.

Definition same_class vs (v w : Vid) : Prop :=
  ∃ k l r, reaches vs k v r ∧ reaches vs l w r.

Definition class_value vs (v : Vid) (pt : T) : Prop :=
  ∃ k r rk, reaches vs k v r ∧ vs !! r = Some (Root pt rk).

(** ** Lemmas *)

Lemma reaches_det vs k v r k' r' : reaches vs k v r → reaches vs k' v r' → k = k' ∧ r = r'.
Proof.
  induction 1 as [v pt rk Hv|k v p r Hv _ IH] in k', r' |- *; inversion 1; simplify_eq; [done|].
  match goal with H : reaches _ _ p _ |- _ => destruct (IH _ _ H) end. by subst.
Qed.

Lemma reaches_is_root vs k v r : reaches vs k v r → ∃ pt rk, vs !! r = Some (Root pt rk).
Proof. induction 1; eauto. Qed.

Lemma reaches_self vs k v r : reaches vs k v r → ∃ l, reaches vs l r r.
Proof. intros (pt & rk & ?)%reaches_is_root. eexists. by econstructor. Qed.

Definition parents vs : gmap nat nat :=
  omap (λ x, match x with Redirect p => Some p | Root _ _ => None end) vs.

Lemma lookup_parents vs v p : parents vs !! v = Some p ↔ vs !! v = Some (Redirect p).
Proof.
  unfold parents. rewrite lookup_omap_Some. split.
  - intros ([] & Hv & ?); by simplify_eq.
  - intros Hv. by exists (Redirect p).
Qed.

(** A path of redirections is never longer than the table. *)
Lemma reaches_bound vs k v r : reaches vs k v r → k ≤ size vs.
Proof.
  intros Hr. assert (∃ l, chain (parents vs) v l ∧ length l = S k) as (l & Hc & Hl).
  { induction Hr as [v pt rk Hv|k v p r Hv _ (l & Hc & Hl)].
    - exists [v]. split; [|done]. constructor. apply eq_None_not_Some. intros [p Hp].
      apply lookup_parents in Hp. congruence.
    - exists (v :: l). simpl. split; [|lia]. eapply chain_step; [by apply lookup_parents|done]. }
  apply chain_length in Hc. rewrite Hl in Hc.
  assert (size (parents vs) ≤ size vs); [|lia].
  rewrite <- !size_dom. apply subseteq_size. intros w. rewrite !elem_of_dom.
  intros [p Hp]. apply lookup_parents in Hp. eauto.
Qed.

(** [refines vs vs']: the same roots with the same contents, the same
    variables, and paths that are no longer. *)
Record refines vs vs' : Prop := {
  ref_path : ∀ k v r, reaches vs k v r → ∃ k', k' ≤ k ∧ reaches vs' k' v r;
  ref_root : ∀ v pt rk, vs !! v = Some (Root pt rk) ↔ vs' !! v = Some (Root pt rk);
  ref_dom : ∀ v, is_Some (vs !! v) ↔ is_Some (vs' !! v)
}.

#[export] Instance refines_preorder : PreOrder refines.
Proof.
  split.
  - intros vs. split; naive_solver.
  - intros v1 v2 v3 [P1 R1 D1] [P2 R2 D2]. split; [|naive_solver..].
    intros k v r (k' & ? & (k'' & ? & ?)%P2)%P1. exists k''. split; [lia|done].
Qed.

Lemma refines_compress vs k p r :
  reaches vs k p r → r ≠ p → refines vs (<[p := Redirect r]> vs).
Proof.
  intros Hp Hne. assert (∃ q, vs !! p = Some (Redirect q)) as [q Hq].
  { destruct Hp; [done|eauto]. }
  destruct (reaches_is_root _ _ _ _ Hp) as (pt & rk & Hr). split.
  - intros j w r' Hw. induction Hw as [w pt' rk' Hw|j w w' r' Hw Hrec (j' & Hle & IH)].
    + exists 0. split; [done|]. econstructor. rewrite lookup_insert_ne by congruence. done.
    + destruct (decide (w = p)) as [->|Hwp].
      * destruct (reaches_det _ _ _ _ _ _ Hp (reaches_step _ _ _ _ _ Hw Hrec)) as [_ <-].
        exists 1. split; [lia|]. econstructor; [apply lookup_insert_eq|]. econstructor.
        by rewrite lookup_insert_ne by done.
      * exists (S j'). split; [lia|]. econstructor; [|done]. by rewrite lookup_insert_ne.
  - intros v pt' rk'. destruct (decide (v = p)) as [->|].
    + rewrite lookup_insert_eq. naive_solver.
    + by rewrite lookup_insert_ne.
  - intros v. destruct (decide (v = p)) as [->|].
    + rewrite lookup_insert_eq, Hq. naive_solver.
    + by rewrite lookup_insert_ne.
Qed.

Lemma get_helper_ok fuel (vb : ValsAndBindings T) k v r :
  reaches (vals vb) k v r → k < fuel →
  ∃ vb' pt rk, get_helper fuel vb v = Ok (vb', mkNode r pt rk) ∧
    vals vb !! r = Some (Root pt rk) ∧ refines (vals vb) (vals vb') ∧ bindings vb' = bindings vb.
Proof.
  intros Hr. induction Hr as [v pt rk Hv|k v p r Hv Hr IH] in fuel |- *;
    (destruct fuel as [|fuel]; [lia|]); intros Hf; simpl; rewrite Hv.
  - by exists vb, pt, rk.
  - destruct (IH fuel) as (vb' & pt & rk & -> & Hroot & Href & Hb); [lia|]. simpl.
    destruct (Nat.eqb_spec r p) as [->|Hne]; [by exists vb', pt, rk|].
    eexists _, pt, rk. split; [done|]. simpl. split_and!; [done| |done].
    destruct (ref_path _ _ Href _ _ _ Hr) as (k' & _ & Hr').
    etrans; [exact Href|]. by eapply refines_compress.
Qed.

Lemma get_ok (vb : ValsAndBindings T) k v r :
  reaches (vals vb) k v r →
  ∃ vb' pt rk, get vb v = Ok (vb', mkNode r pt rk) ∧
    vals vb !! r = Some (Root pt rk) ∧ refines (vals vb) (vals vb') ∧ bindings vb' = bindings vb.
Proof. intros Hr. apply (get_helper_ok _ _ k); [done|]. apply reaches_bound in Hr. lia. Qed.

Lemma refines_wf vs vs' : uf_wf vs → refines vs vs' → uf_wf vs'.
Proof.
  intros [Ht Hk] [HP HR HD]. split.
  - intros v x Hv. destruct (proj2 (HD v)) as [y Hy]; [eauto|].
    destruct (Ht v y Hy) as (k & r & (k' & _ & ?)%HP). eauto.
  - intros k v r pt rk Hr Hroot. apply HR in Hroot.
    assert (is_Some (vs' !! v)) as [y Hy]%HD by (destruct Hr; eauto).
    destruct (Ht v y Hy) as (k0 & r0 & H0). destruct (HP _ _ _ H0) as (k1 & Hle & H1).
    destruct (reaches_det _ _ _ _ _ _ Hr H1) as [-> ->]. specialize (Hk _ _ _ _ _ H0 Hroot). lia.
Qed.

Lemma refines_reaches vs vs' v r :
  uf_wf vs → refines vs vs' → (∃ k, reaches vs k v r) ↔ (∃ k, reaches vs' k v r).
Proof.
  intros Hwf Href. split.
  - intros (k & (k' & _ & ?)%(ref_path _ _ Href)). eauto.
  - intros [k Hr]. assert (is_Some (vs' !! v)) as [y Hy]%(ref_dom _ _ Href) by (destruct Hr; eauto).
    destruct (uf_total _ Hwf v y Hy) as (k0 & r0 & H0).
    destruct (ref_path _ _ Href _ _ _ H0) as (k1 & _ & H1).
    destruct (reaches_det _ _ _ _ _ _ Hr H1) as [-> ->]. eauto.
Qed.

Lemma refines_same_class vs vs' v w :
  uf_wf vs → refines vs vs' → same_class vs v w ↔ same_class vs' v w.
Proof.
  intros Hwf Href. pose proof (λ v r, refines_reaches vs vs' v r Hwf Href) as Hiff.
  split; intros (k & l & r & Hv & Hw);
    destruct (Hiff v r) as [Hv1 Hv2], (Hiff w r) as [Hw1 Hw2];
    [destruct Hv1, Hw1|destruct Hv2, Hw2]; unfold same_class; eauto.
Qed.

Lemma refines_class_value vs vs' v pt :
  uf_wf vs → refines vs vs' → class_value vs v pt ↔ class_value vs' v pt.
Proof.
  intros Hwf Href. split; intros (k & r & rk & Hv & Hr);
    destruct (refines_reaches vs vs' v r Hwf Href) as [Hv1 Hv2];
    [destruct Hv1|destruct Hv2]; eauto; apply (ref_root _ _ Href) in Hr;
    unfold class_value; eauto.
Qed.
End classes.

(** ** Joining two classes *)

Section join.
Context {T : Type} (vs : gmap nat (VarValue T)) (Hwf : uf_wf vs).
Context (a b : Vid) (pa pb c : T) (ra rb rk : nat).
Context (Ha : vs !! a = Some (Root pa ra)) (Hb : vs !! b = Some (Root pb rb)) (Hab : a ≠ b).
Context (Hrb : rb < rk) (Hra : ra ≤ rk).

(** [b] redirected to [a], then [a] given the combined contents. *)
Definition join : gmap nat (VarValue T) := <[a := Root c rk]> (<[b := Redirect a]> vs).

Lemma lookup_join_a : join !! a = Some (Root c rk).
Proof. apply lookup_insert_eq. Qed.

Lemma lookup_join_b : join !! b = Some (Redirect a).
Proof. unfold join. rewrite lookup_insert_ne by done. apply lookup_insert_eq. Qed.

Lemma lookup_join_ne v : v ≠ a → v ≠ b → join !! v = vs !! v.
Proof. intros. unfold join. by rewrite !lookup_insert_ne. Qed.

Lemma reaches_join k v r :
  reaches vs k v r →
  if decide (r = b) then reaches join (S k) v a else reaches join k v r.
Proof.
  induction 1 as [v pt rv Hv|k v p r Hv _ IH].
  - case_decide as Hvb; subst.
    + econstructor; [apply lookup_join_b|]. econstructor. apply lookup_join_a.
    + destruct (decide (v = a)) as [->|].
      * econstructor. apply lookup_join_a.
      * econstructor. by rewrite lookup_join_ne.
  - case_decide; (econstructor; [|done]); rewrite lookup_join_ne; [done|congruence..].
Qed.

Lemma join_dom v : is_Some (join !! v) ↔ is_Some (vs !! v).
Proof.
  destruct (decide (v = a)) as [->|]; [rewrite lookup_join_a, Ha; split; eauto|].
  destruct (decide (v = b)) as [->|]; [rewrite lookup_join_b, Hb; split; eauto|].
  by rewrite lookup_join_ne.
Qed.

(** Paths of the joined table come from paths of the table. *)
Lemma reaches_join_inv k v r :
  reaches join k v r → ∃ k0 r0, reaches vs k0 v r0 ∧
    if decide (r0 = b) then k = S k0 ∧ r = a else k = k0 ∧ r = r0.
Proof.
  intros Hr. assert (is_Some (join !! v)) as [x Hx]%join_dom by (destruct Hr; eauto).
  destruct (uf_total _ Hwf v x Hx) as (k0 & r0 & H0). exists k0, r0. split; [done|].
  pose proof (reaches_join _ _ _ H0) as Hj. case_decide; exact (reaches_det _ _ _ _ _ _ Hr Hj).
Qed.

Lemma join_wf : uf_wf join.
Proof.
  split.
  - intros v x Hv. assert (is_Some (join !! v)) as [y Hy]%join_dom by eauto.
    destruct (uf_total _ Hwf v y Hy) as (k0 & r0 & H0%reaches_join). case_decide; eauto.
  - intros k v r pt rv (k0 & r0 & H0 & Hor)%reaches_join_inv Hroot.
    destruct (reaches_is_root _ _ _ _ H0) as (p0 & rk0 & Hr0).
    pose proof (uf_rank _ Hwf _ _ _ _ _ H0 Hr0) as Hle. case_decide as Hd.
    + destruct Hor as [-> ->]. rewrite lookup_join_a in Hroot. simplify_eq. lia.
    + destruct Hor as [-> ->]. destruct (decide (r0 = a)) as [->|].
      * rewrite lookup_join_a in Hroot. simplify_eq. lia.
      * rewrite lookup_join_ne in Hroot by done. simplify_eq. lia.
Qed.

Lemma join_same_class v w :
  same_class join v w ↔
  same_class vs v w ∨ (same_class vs v a ∧ same_class vs w b) ∨
  (same_class vs v b ∧ same_class vs w a).
Proof.
  assert (reaches vs 0 a a) as Haa by by econstructor.
  assert (reaches vs 0 b b) as Hbb by by econstructor.
  split.
  - intros (k & l & r & (k1 & r1 & H1 & O1)%reaches_join_inv & (k2 & r2 & H2 & O2)%reaches_join_inv).
    destruct (decide (r1 = b)) as [->|_], (decide (r2 = b)) as [->|_];
      destruct O1 as [_ O1], O2 as [_ O2]; rewrite O1 in O2.
    + left. by exists k1, k2, b.
    + right. right. rewrite <- O2 in H2. split; [by exists k1, 0, b|by exists k2, 0, a].
    + right. left. rewrite O2 in H1. split; [by exists k1, 0, a|by exists k2, 0, b].
    + left. rewrite O2 in H1. by exists k1, k2, r2.
  - assert (Hcls : ∀ x y, same_class vs x y → same_class join x y).
    { intros x y (k & l & r & Hx%reaches_join & Hy%reaches_join).
      unfold same_class. case_decide; eauto. }
    assert (Hto : ∀ x y, reaches vs 0 y y → (y = a ∨ y = b) → same_class vs x y →
              ∃ k, reaches join k x a).
    { intros x y Hy Hor (k & l & r & Hx & Hy').
      destruct (reaches_det _ _ _ _ _ _ Hy Hy') as [_ <-]. apply reaches_join in Hx.
      case_decide; [eauto|]. destruct Hor as [->| ->]; [eauto|done]. }
    intros [?|[[Hv Hw]|[Hv Hw]]]; [by apply Hcls|..].
    all: edestruct (Hto v) as [k Hk]; [| |exact Hv|]; [done|by auto|].
    all: edestruct (Hto w) as [l Hl]; [| |exact Hw|]; [done|by auto|].
    all: by exists k, l, a.
Qed.

Lemma join_class_value v pt :
  class_value join v pt ↔
  (same_class vs v a ∨ same_class vs v b) ∧ pt = c ∨
  ¬ (same_class vs v a ∨ same_class vs v b) ∧ class_value vs v pt.
Proof.
  assert (reaches vs 0 a a) as Haa by by econstructor.
  assert (reaches vs 0 b b) as Hbb by by econstructor.
  assert (Hdet : ∀ k r y, reaches vs k v r → reaches vs 0 y y → same_class vs v y ↔ r = y).
  { intros k r y Hr Hy. split.
    - intros (k1 & l1 & r1 & H1 & H2). destruct (reaches_det _ _ _ _ _ _ H1 Hr) as [_ ->].
      by destruct (reaches_det _ _ _ _ _ _ H2 Hy) as [_ ->].
    - intros ->. by exists k, 0, y. }
  split.
  - intros (k & r & rv & (k0 & r0 & H0 & Hor)%reaches_join_inv & Hroot).
    rewrite (Hdet _ _ a H0 Haa), (Hdet _ _ b H0 Hbb). case_decide as Hd.
    + destruct Hor as [_ ->]. rewrite lookup_join_a in Hroot. simplify_eq. auto.
    + destruct Hor as [_ ->]. destruct (decide (r0 = a)) as [->|].
      * rewrite lookup_join_a in Hroot. simplify_eq. auto.
      * right. split; [tauto|]. rewrite lookup_join_ne in Hroot by done. by exists k0, r0, rv.
  - intros [[[(k & l & r & Hv & Hy)|(k & l & r & Hv & Hy)] ->]|[Hn (k & r & rv & Hv & Hr)]].
    + destruct (reaches_det _ _ _ _ _ _ Hy Haa) as [_ ->]. apply reaches_join in Hv.
      rewrite decide_False in Hv by done. exists k, a, rk. split; [done|apply lookup_join_a].
    + destruct (reaches_det _ _ _ _ _ _ Hy Hbb) as [_ ->]. apply reaches_join in Hv.
      rewrite decide_True in Hv by done. exists (S k), a, rk. split; [done|apply lookup_join_a].
    + rewrite (Hdet _ _ a Hv Haa), (Hdet _ _ b Hv Hbb) in Hn. apply reaches_join in Hv.
      rewrite decide_False in Hv by tauto. exists k, r, rv. split; [done|].
      rewrite lookup_join_ne by tauto. done.
Qed.
End join.

(** ** What the operations do to the classes *)

Section effects.
Context {T : Type}.
Implicit Types (vs : gmap nat (VarValue T)).

(** Nothing observable changed. *)
Record unchanged vs vs' : Prop := {
  unch_wf : uf_wf vs';
  unch_dom v : is_Some (vs' !! v) ↔ is_Some (vs !! v);
  unch_class v w : same_class vs' v w ↔ same_class vs v w;
  unch_value v pt : class_value vs' v pt ↔ class_value vs v pt
}.

(** The classes of [a] and [b] became one class with value [c]; the others
    did not change. *)
Record merged vs vs' (a b : Vid) (c : T) : Prop := {
  mrg_wf : uf_wf vs';
  mrg_dom v : is_Some (vs' !! v) ↔ is_Some (vs !! v);
  mrg_class v w : same_class vs' v w ↔
    same_class vs v w ∨ (same_class vs v a ∧ same_class vs w b) ∨
    (same_class vs v b ∧ same_class vs w a);
  mrg_value v pt : class_value vs' v pt ↔
    (same_class vs v a ∨ same_class vs v b) ∧ pt = c ∨
    ¬ (same_class vs v a ∨ same_class vs v b) ∧ class_value vs v pt
}.

Lemma refines_unchanged vs vs' : uf_wf vs → refines vs vs' → unchanged vs vs'.
Proof.
  intros Hwf Href. split.
  - by eapply refines_wf.
  - intros v. symmetry. apply Href.
  - intros v w. symmetry. by apply refines_same_class.
  - intros v pt. symmetry. by apply refines_class_value.
Qed.

#[export] Instance same_class_sym vs : Symmetric (same_class vs).
Proof. intros v w (k & l & r & ? & ?). by exists l, k, r. Qed.

#[export] Instance same_class_trans vs : Transitive (same_class vs).
Proof.
  intros u v w (k & l & r & Hu & Hv) (k' & l' & r' & Hv' & Hw).
  destruct (reaches_det _ _ _ _ _ _ Hv Hv') as [_ ->]. by exists k, l', r'.
Qed.

Lemma same_class_root vs k v r w : reaches vs k v r → same_class vs w v ↔ same_class vs w r.
Proof.
  intros Hr. destruct (reaches_self _ _ _ _ Hr) as [l Hl].
  assert (same_class vs v r) as Hvr by by exists k, l, r. split; intros; by etrans.
Qed.

(** Only the class of the arguments matters. *)
Lemma merged_proper vs vs' a b a' b' c :
  (∀ w, same_class vs w a ↔ same_class vs w a') → (∀ w, same_class vs w b ↔ same_class vs w b') →
  merged vs vs' a' b' c → merged vs vs' a b c.
Proof.
  intros Ha Hb [Hw Hd Hc Hv]. split; [done..| |].
  - intros v w. rewrite Hc, !Ha, !Hb. done.
  - intros v pt. rewrite Hv, !Ha, !Hb. done.
Qed.

Lemma merged_sym vs vs' a b c : merged vs vs' a b c → merged vs vs' b a c.
Proof.
  intros [Hw Hd Hc Hv]. split; [done..| |].
  - intros v w. rewrite Hc. tauto.
  - intros v pt. rewrite Hv. tauto.
Qed.

Lemma merged_same vs a b c :
  uf_wf vs → same_class vs a b → class_value vs a c → merged vs vs a b c.
Proof.
  intros Hwf Hab (k & r & rk & Ha & Hr). split; [done..| |].
  - intros v w. split; [by left|]. intros [?|[[Hv Hw]|[Hv Hw]]]; [done|..].
    + etrans; [exact Hv|]. etrans; [exact Hab|]. by symmetry.
    + etrans; [exact Hv|]. etrans; [symmetry; exact Hab|]. by symmetry.
  - assert (Hcls : ∀ v, same_class vs v a ∨ same_class vs v b ↔ same_class vs v a).
    { intros v. split; [|by left]. intros [?|Hv]; [done|]. etrans; [exact Hv|by symmetry]. }
    intros v pt. rewrite Hcls. split.
    + intros (k' & r' & rk' & Hv & Hr'). destruct (decide (r' = r)) as [->|Hne].
      * left. simplify_eq. split; [by exists k', k, r|done].
      * right. split; [|by exists k', r', rk']. intros (k1 & k2 & r1 & H1 & H2).
        destruct (reaches_det _ _ _ _ _ _ H1 Hv) as [_ ->].
        by destruct (reaches_det _ _ _ _ _ _ H2 Ha) as [_ ->].
    + intros [[(k1 & k2 & r1 & H1 & H2) ->]|[_ ?]]; [|done].
      destruct (reaches_det _ _ _ _ _ _ H2 Ha) as [_ ->]. by exists k1, r, rk.
Qed.

Lemma merged_join vs a b pa pb c ra rb rk :
  uf_wf vs → vs !! a = Some (Root pa ra) → vs !! b = Some (Root pb rb) → a ≠ b →
  rb < rk → ra ≤ rk → merged vs (join vs a b c rk) a b c.
Proof.
  intros Hwf Ha Hb Hne H1 H2. split.
  - by eapply join_wf.
  - intros v. by eapply join_dom.
  - intros v w. by eapply join_same_class.
  - intros v pt. by eapply join_class_value.
Qed.

Lemma merged_refines vs1 vs2 vs3 a b c :
  uf_wf vs1 → refines vs1 vs2 → merged vs2 vs3 a b c → merged vs1 vs3 a b c.
Proof.
  intros Hwf Href [Hw Hd Hc Hv]. destruct (refines_unchanged _ _ Hwf Href) as [_ Hd' Hc' Hv'].
  split; [done|..].
  - intros v. by rewrite Hd, Hd'.
  - intros v w. by rewrite Hc, !Hc'.
  - intros v pt. by rewrite Hv, !Hc', Hv'.
Qed.

Lemma set_root_Ok (vb : ValsAndBindings T) v x new_v :
  vals vb !! v = Some x →
  set vb v new_v = Ok (mkVB (<[v := new_v]> (vals vb)) (bindings vb ++ [(v, x)])).
Proof. intros Hv. unfold set. by rewrite Hv. Qed.

(** [unify] of two roots, followed by the [set] every caller performs. *)
Lemma unify_set_merged (vb : ValsAndBindings T) a b pa pb ra rb c :
  uf_wf (vals vb) → vals vb !! a = Some (Root pa ra) → vals vb !! b = Some (Root pb rb) → a ≠ b →
  ∃ vb1 new_root new_rank vb', unify vb (mkNode a pa ra) (mkNode b pb rb) = Ok (vb1, (new_root, new_rank)) ∧
    set vb1 new_root (Root c new_rank) = Ok vb' ∧ merged (vals vb) (vals vb') a b c.
Proof.
  intros Hwf Ha Hb Hne. unfold unify. cbn [rank root].
  assert (Hne' : b ≠ a) by done.
  destruct (Nat.ltb_spec rb ra) as [Hlt|Hge]; [|destruct (Nat.ltb_spec ra rb) as [Hlt|Hge']].
  - rewrite (set_root_Ok vb b _ _ Hb). simpl_ok. eexists _, _, _, _. split; [done|].
    erewrite set_root_Ok by (simpl; rewrite lookup_insert_ne; done). split; [done|]. simpl.
    by eapply merged_join.
  - rewrite (set_root_Ok vb a _ _ Ha). simpl_ok. eexists _, _, _, _. split; [done|].
    erewrite set_root_Ok by (simpl; rewrite lookup_insert_ne; done). split; [done|]. simpl.
    apply merged_sym. by eapply merged_join.
  - assert (ra = rb) as -> by lia. rewrite Nat.eqb_refl. simpl_ok.
    rewrite (set_root_Ok vb b _ _ Hb). simpl_ok. eexists _, _, _, _. split; [done|].
    erewrite set_root_Ok by (simpl; rewrite lookup_insert_ne; done). split; [done|]. simpl.
    eapply merged_join; [done..|lia|lia].
Qed.
End effects.

(** ** Theorems *)

Section theorems.
Context {T : Type} `{EqDecision T}.
Implicit Types (vb : ValsAndBindings (option T)).

(** The common value of two simple variables, when they agree. *)
Definition combine_values (pa pb : option T) : option (option T) :=
  match pa, pb with
  | None, None => Some None
  | Some v, None | None, Some v => Some (Some v)
  | Some v1, Some v2 => if decide (v1 = v2) then Some (Some v1) else None
  end.

(** [get] finds the root of the class of a variable, with the value and the
    rank stored there; path compression changes no class, no value and no
    rank, only shortens paths, and records nothing in the undo log. *)
Theorem get_correct vb v pt :
  uf_wf (vals vb) → class_value (vals vb) v pt →
  ∃ vb' r rk k, get vb v = Ok (vb', mkNode r pt rk) ∧ reaches (vals vb) k v r ∧
    vals vb' !! r = Some (Root pt rk) ∧ k ≤ rk ∧
    unchanged (vals vb) (vals vb') ∧ bindings vb' = bindings vb.
Proof.
  intros Hwf (k & r & rk & Hr & Hroot).
  destruct (get_ok vb k v r Hr) as (vb' & pt' & rk' & -> & Hroot' & Href & Hb). simplify_eq.
  exists vb', r, rk, k. split_and!; [done|done|by apply Href| |by apply refines_unchanged|done].
  by apply (uf_rank _ Hwf k v r pt rk).
Qed.

Lemma simple_vars_ok vb a_is_expected a b pa pb :
  uf_wf (vals vb) → class_value (vals vb) a pa → class_value (vals vb) b pb →
  ∃ vb' res, simple_vars vb a_is_expected a b = Ok (vb', res) ∧
    match combine_values pa pb with
    | Some c => res = inl () ∧ merged (vals vb) (vals vb') a b c
    | None => unchanged (vals vb) (vals vb') ∧
        ∃ v1 v2, pa = Some v1 ∧ pb = Some v2 ∧ res = mk_err a_is_expected v1 v2
    end.
Proof.
  intros Hwf (ka & ra & rka & Ha & Hra) (kb & rb & rkb & Hb & Hrb). unfold simple_vars.
  destruct (get_ok vb ka a ra Ha) as (vb1 & pa' & rka' & -> & Hra' & Href1 & _). simplify_eq. simpl_ok.
  destruct (ref_path _ _ Href1 _ _ _ Hb) as (kb1 & _ & Hb1).
  destruct (get_ok vb1 kb1 b rb Hb1) as (vb2 & pb' & rkb' & -> & Hrb' & Href2 & _).
  apply (ref_root _ _ Href1) in Hrb'. simplify_eq. simpl_ok. cbn [root possible_types].
  assert (refines (vals vb) (vals vb2)) as Href by by etrans.
  pose proof (refines_unchanged _ _ Hwf Href) as Hun.
  destruct (Nat.eqb_spec ra rb) as [->|Hne].
  { assert (pb = pa ∧ rkb = rka) as [-> ->] by (split; congruence). eexists _, _. split; [done|].
    assert (combine_values pa pa = Some pa) as ->.
    { destruct pa; simpl; [by rewrite decide_True|done]. }
    split; [done|]. eapply merged_refines; [done..|].
    apply merged_same; [apply Hun|apply Hun; by exists ka, kb, rb|apply Hun; by exists ka, rb, rka]. }
  assert (Hcont : ∀ c, ∃ vb' res,
    (r ← unify vb2 (mkNode ra pa rka) (mkNode rb pb rkb);
     let '(vb, (new_root, new_rank)) := r in
     vb ← set vb new_root (Root c new_rank); Ok (vb, inl ())) = Ok (vb', res : ures T) ∧
    res = inl () ∧ merged (vals vb) (vals vb') a b c).
  { intros c. destruct (unify_set_merged vb2 ra rb pa pb rka rkb c) as (v1 & nr & nk & vb' & -> & Hs & Hm).
    - apply Hun.
    - by apply Href.
    - by apply Href.
    - done.
    - simpl_ok. rewrite Hs. simpl_ok. eexists _, _. split; [done|]. split; [done|].
      apply (merged_proper _ _ a b ra rb);
        [intros; by eapply same_class_root..|]. by eapply merged_refines. }
  destruct pa as [v1|], pb as [v2|]; cbn [combine_values]; [|apply Hcont..].
  destruct (decide (v1 = v2)) as [->|]; [apply Hcont|].
  eexists _, _. split; [done|]. split; [done|]. by exists v1, v2.
Qed.

(** C25. Unifying two simple variables that agree (at most one has a value, or
    the values are equal) merges their two classes, gives the merged class the
    common value and leaves every other class alone; otherwise the mismatch
    is reported with the expected value first, and nothing changes. *)
Theorem simple_vars_correct vb a_is_expected a b pa pb :
  uf_wf (vals vb) → class_value (vals vb) a pa → class_value (vals vb) b pb →
  ∃ vb' res, simple_vars vb a_is_expected a b = Ok (vb', res) ∧
    match combine_values pa pb with
    | Some c => res = inl () ∧ merged (vals vb) (vals vb') a b c
    | None => unchanged (vals vb) (vals vb') ∧
        ∃ v1 v2, pa = Some v1 ∧ pb = Some v2 ∧ res = mk_err a_is_expected v1 v2
    end.
Proof. apply simple_vars_ok. Qed.

(** A new value for the root of a class. *)
Lemma merged_value vs a r p c rk k :
  uf_wf vs → reaches vs k a r → vs !! r = Some (Root (T := option T) p rk) →
  merged vs (<[r := Root c rk]> vs) a a c.
Proof.
  intros Hwf Ha Hr.
  assert (Hreach : ∀ k v w, reaches vs k v w ↔ reaches (<[r := Root c rk]> vs) k v w).
  { intros j v w. split.
    - induction 1 as [v pt rv Hv|j v q w Hv _ IH].
      + destruct (decide (v = r)) as [->|]; [econstructor; apply lookup_insert_eq|].
        econstructor. by rewrite lookup_insert_ne.
      + econstructor; [|done]. by rewrite lookup_insert_ne by congruence.
    - induction 1 as [v pt rv Hv|j v q w Hv _ IH].
      + destruct (decide (v = r)) as [->|]; [by econstructor|].
        rewrite lookup_insert_ne in Hv by done. by econstructor.
      + destruct (decide (v = r)) as [->|]; [by rewrite lookup_insert_eq in Hv|].
        rewrite lookup_insert_ne in Hv by done. by econstructor. }
  assert (Hcls : ∀ v w, same_class (<[r := Root c rk]> vs) v w ↔ same_class vs v w).
  { intros v w. unfold same_class. by setoid_rewrite <- Hreach. }
  split.
  - split.
    + intros v x Hv. setoid_rewrite <- Hreach. destruct (decide (v = r)) as [->|]; [by eapply uf_total|].
      rewrite lookup_insert_ne in Hv by done. by eapply uf_total.
    + intros j v w pt rv Hv%Hreach Hw. destruct (decide (w = r)) as [->|].
      * rewrite lookup_insert_eq in Hw. simplify_eq. by eapply uf_rank.
      * rewrite lookup_insert_ne in Hw by done. by eapply uf_rank.
  - intros v. destruct (decide (v = r)) as [->|]; [rewrite lookup_insert_eq, Hr; split; eauto|].
    by rewrite lookup_insert_ne.
  - intros v w. rewrite Hcls. split; [by left|]. intros [?|[[? Hw]|[? Hw]]]; [done|..];
      (etrans; [done|by symmetry]).
  - intros v pt. unfold class_value. setoid_rewrite <- Hreach. split.
    + intros (j & w & rw & Hv & Hw). destruct (decide (w = r)) as [->|Hne].
      * rewrite lookup_insert_eq in Hw. simplify_eq. left. split; [left; by exists j, k, r|done].
      * rewrite lookup_insert_ne in Hw by done. right. split; [|eauto].
        intros [(j1 & k1 & r1 & H1 & H2)|(j1 & k1 & r1 & H1 & H2)];
          destruct (reaches_det _ _ _ _ _ _ H1 Hv) as [_ ->];
          by destruct (reaches_det _ _ _ _ _ _ H2 Ha) as [_ ->].
    + intros [[Hor ->]|[Hn (j & w & rw & Hv & Hw)]].
      * assert (same_class vs v a) as (j1 & k1 & r1 & H1 & H2) by tauto.
        destruct (reaches_det _ _ _ _ _ _ H2 Ha) as [_ ->]. exists j1, r, rk.
        split; [done|apply lookup_insert_eq].
      * exists j, w, rw. split; [done|]. rewrite lookup_insert_ne; [done|]. intros ->.
        apply Hn. left. by exists j, k, w.
Qed.

(** Giving a simple variable a value gives it to the whole class when the
    class has none, changes nothing when the class already has that value,
    and otherwise reports the mismatch and changes nothing. *)
Theorem simple_var_t_correct vb a_is_expected a pa (b : T) :
  uf_wf (vals vb) → class_value (vals vb) a pa →
  ∃ vb' res, simple_var_t vb a_is_expected a b = Ok (vb', res) ∧
    match pa with
    | None => res = inl () ∧ merged (vals vb) (vals vb') a a (Some b)
    | Some a_t => unchanged (vals vb) (vals vb') ∧
        res = if decide (a_t = b) then inl () else mk_err a_is_expected a_t b
    end.
Proof.
  intros Hwf (k & r & rk & Ha & Hr). unfold simple_var_t.
  destruct (get_ok vb k a r Ha) as (vb1 & pa' & rk' & -> & Hr' & Href & _). simplify_eq. simpl_ok.
  cbn [root possible_types rank]. destruct pa as [a_t|].
  - case_decide; eexists _, _; (split; [done|]); (split; [by apply refines_unchanged|done]).
  - apply (ref_root _ _ Href) in Hr as Hr1. rewrite (set_root_Ok vb1 r _ _ Hr1). simpl_ok.
    eexists _, _. split; [done|]. split; [done|]. simpl.
    destruct (ref_path _ _ Href _ _ _ Ha) as (k1 & _ & Ha1).
    eapply merged_refines; [done..|]. eapply merged_value; [by eapply refines_wf|done..].
Qed.
End theorems.

(** ** Witnesses *)

(** Variables 0 and 1 in one class with value 7, variable 2 alone. *)
Definition example_table : ValsAndBindings (option nat) :=
  mkVB (<[0 := Root (Some 7) 1]> (<[1 := Redirect 0]> (<[2 := Root None 0]> ∅))) [].

Lemma example_reaches k v r :
  reaches (vals example_table) k v r →
  (k, v, r) = (0, 0, 0) ∨ (k, v, r) = (1, 1, 0) ∨ (k, v, r) = (0, 2, 2).
Proof.
  induction 1 as [v pt rk Hv|k v p r Hv _ IH]; simpl in Hv;
    rewrite !lookup_insert_Some, lookup_empty in Hv;
    destruct Hv as [[<- ?]|[_ [[<- ?]|[_ [[<- ?]|[_ ?]]]]]]; simplify_eq; auto.
  destruct IH as [?|[?|?]]; simplify_eq. auto.
Qed.

Lemma example_table_wf : uf_wf (vals example_table).
Proof.
  assert (reaches (vals example_table) 0 0 0) by by econstructor.
  assert (reaches (vals example_table) 1 1 0) by by econstructor.
  assert (reaches (vals example_table) 0 2 2) by by econstructor.
  split.
  - intros v x Hv. simpl in Hv. rewrite !lookup_insert_Some, lookup_empty in Hv.
    destruct Hv as [[<- ?]|[_ [[<- ?]|[_ [[<- ?]|[_ ?]]]]]]; eauto. done.
  - intros k v r pt rk [?|[?|?]]%example_reaches Hr; simplify_eq; simpl in Hr;
      rewrite ?lookup_insert_eq in Hr; simplify_eq; lia.
Qed.

Lemma example_value_1 : class_value (vals example_table) 1 (Some 7).
Proof. exists 1, 0, 1. split; [by repeat econstructor|done]. Qed.

Lemma example_value_2 : class_value (vals example_table) 2 None.
Proof. exists 0, 2, 0. split; [by repeat econstructor|done]. Qed.

Lemma get_correct_witness :
  ∃ vb' r rk k, get example_table 1 = Ok (vb', mkNode r (Some 7) rk) ∧
    reaches (vals example_table) k 1 r ∧ vals vb' !! r = Some (Root (Some 7) rk) ∧ k ≤ rk ∧
    unchanged (vals example_table) (vals vb') ∧ bindings vb' = bindings example_table.
Proof. apply (get_correct example_table 1 (Some 7) example_table_wf example_value_1). Defined.

Lemma simple_vars_correct_witness :
  ∃ vb', simple_vars example_table true 1 2 = Ok (vb', inl ()) ∧
    merged (vals example_table) (vals vb') 1 2 (Some 7).
Proof.
  destruct (simple_vars_correct example_table true 1 2 (Some 7) None example_table_wf
              example_value_1 example_value_2) as (vb' & res & H1 & H2 & H3).
  exists vb'. split; [by rewrite H1, H2|exact H3].
Defined.

Lemma simple_var_t_correct_witness :
  ∃ vb', simple_var_t example_table false 1 8 = Ok (vb', inr (mkExpectedFound 8 7)) ∧
    unchanged (vals example_table) (vals vb').
Proof.
  destruct (simple_var_t_correct example_table false 1 (Some 7) 8 example_table_wf example_value_1)
    as (vb' & res & H1 & H2 & H3).
  exists vb'. split; [by rewrite H1, H3|exact H2].
Defined.
