(* ===== verification/InferCtxt.v ===== *)
(** The inference context, [InferCtxt] of [src/librustc/middle/typeck/infer/mod.rs]:
    the tables of type, integral and floating variables, the region variables,
    and the snapshots that [try], [probe] and [commit] take over all of them. *)

From stdpp Require Import prelude gmap list.
From S2P Require Import Prelude Ast RegionMaps RegionBindings Unify.

(** ** Data *)

Record Bounds (T : Type) := mkBounds { lb : option T; ub : option T }.
Arguments mkBounds {T} _ _.
Arguments lb {T} _.
Arguments ub {T} _.

Record InferCtxt (Ty IntV FloatV SO VO : Type) := mkInferCtxt {
  ty_var_bindings : ValsAndBindings (Bounds Ty);
  ty_var_counter : nat;
  int_var_bindings : ValsAndBindings (option IntV);
  int_var_counter : nat;
  float_var_bindings : ValsAndBindings (option FloatV);
  float_var_counter : nat;
  region_vars : RegionVarBindings SO VO
}.
Arguments mkInferCtxt {Ty IntV FloatV SO VO} _ _ _ _ _ _ _.
Arguments ty_var_bindings {Ty IntV FloatV SO VO} _.
Arguments ty_var_counter {Ty IntV FloatV SO VO} _.
Arguments int_var_bindings {Ty IntV FloatV SO VO} _.
Arguments int_var_counter {Ty IntV FloatV SO VO} _.
Arguments float_var_bindings {Ty IntV FloatV SO VO} _.
Arguments float_var_counter {Ty IntV FloatV SO VO} _.
Arguments region_vars {Ty IntV FloatV SO VO} _.

Record Snapshot := mkSnapshot {
  ty_var_bindings_len : nat;
  int_var_bindings_len : nat;
  float_var_bindings_len : nat;
  region_vars_snapshot : nat
}.

(** ** Operations *)

Definition new_ValsAndBindings {T} : ValsAndBindings T := mkVB ∅ [].

Section context.
Context {Ty IntV FloatV SO VO : Type}.
Abbreviation Ctxt := (InferCtxt Ty IntV FloatV SO VO).
Implicit Types (cx : Ctxt).

Definition new_infer_ctxt : Ctxt :=
  mkInferCtxt new_ValsAndBindings 0 new_ValsAndBindings 0 new_ValsAndBindings 0 new_bindings.

Definition in_snapshot cx : bool := RegionBindings.in_snapshot (region_vars cx).

Definition set_region_vars cx (rv : RegionVarBindings SO VO) : Ctxt :=
  mkInferCtxt (ty_var_bindings cx) (ty_var_counter cx) (int_var_bindings cx) (int_var_counter cx)
    (float_var_bindings cx) (float_var_counter cx) rv.

Definition start_snapshot cx : Ctxt * Snapshot :=
  let '(rv, region_snapshot) := RegionBindings.start_snapshot (region_vars cx) in
  (set_region_vars cx rv,
   mkSnapshot (length (bindings (ty_var_bindings cx))) (length (bindings (int_var_bindings cx)))
     (length (bindings (float_var_bindings cx))) region_snapshot).

Definition rollback_to cx (snapshot : Snapshot) : outcome Ctxt :=
  tyb ← rollback_vals (ty_var_bindings cx) (ty_var_bindings_len snapshot);
  intb ← rollback_vals (int_var_bindings cx) (int_var_bindings_len snapshot);
  floatb ← rollback_vals (float_var_bindings cx) (float_var_bindings_len snapshot);
  rv ← RegionBindings.rollback_to (region_vars cx) (region_vars_snapshot snapshot);
  Ok (mkInferCtxt tyb (ty_var_counter cx) intb (int_var_counter cx) floatb
        (float_var_counter cx) rv).

Section run.
(** [Result<T, E>] of the closure: [inl] for [Ok], [inr] for [Err]. *)
Context {A E : Type} (f : Ctxt → outcome (Ctxt * (A + E))).

(** Execute [f], unroll bindings on failure. *)
Definition try cx : outcome (Ctxt * (A + E)) :=
  let '(cx, snapshot) := start_snapshot cx in
  r ← f cx;
  match r.2 with
  | inl _ => Ok r
  | inr _ => cx ← rollback_to r.1 snapshot; Ok (cx, r.2)
  end.

(** Execute [f] and commit the bindings if successful. *)
Definition commit cx : outcome (Ctxt * (A + E)) :=
  _ ← assert_ (negb (in_snapshot cx));
  r ← try cx;
  let cx := r.1 in
  Ok (mkInferCtxt (mkVB (vals (ty_var_bindings cx)) []) (ty_var_counter cx)
        (mkVB (vals (int_var_bindings cx)) []) (int_var_counter cx)
        (float_var_bindings cx) (float_var_counter cx)
        (RegionBindings.commit (region_vars cx)), r.2).

(** Execute [f] then unroll any bindings it creates. *)
Definition probe cx : outcome (Ctxt * (A + E)) :=
  let '(cx, snapshot) := start_snapshot cx in
  r ← f cx;
  cx ← rollback_to r.1 snapshot;
  Ok (cx, r.2).
End run.

Definition next_ty_var_id cx : Ctxt * nat :=
  let id := ty_var_counter cx in
  (mkInferCtxt
     (mkVB (<[id := Root (mkBounds None None) 0]> (vals (ty_var_bindings cx)))
        (bindings (ty_var_bindings cx)))
     (id + 1) (int_var_bindings cx) (int_var_counter cx)
     (float_var_bindings cx) (float_var_counter cx) (region_vars cx), id).

Definition next_int_var_id cx : Ctxt * nat :=
  let '(counter, vb, id) := next_simple_var (int_var_counter cx) (int_var_bindings cx) in
  (mkInferCtxt (ty_var_bindings cx) (ty_var_counter cx) vb counter
     (float_var_bindings cx) (float_var_counter cx) (region_vars cx), id).

Definition next_float_var_id cx : Ctxt * nat :=
  let '(counter, vb, id) := next_simple_var (float_var_counter cx) (float_var_bindings cx) in
  (mkInferCtxt (ty_var_bindings cx) (ty_var_counter cx) (int_var_bindings cx)
     (int_var_counter cx) vb counter (region_vars cx), id).

Definition next_region_var cx (origin : VO) : Ctxt * Region :=
  let '(rv, vid) := new_region_var (region_vars cx) origin in
  (set_region_vars cx rv, ReInfer (ReVar vid)).
End context.

(** ** Rolling a table back *)

Section table.
Context {T : Type}.
Implicit Types (vb : ValsAndBindings T).

(** What happens to a table: a logged assignment, or a new variable. *)
Inductive table_op :=
  | TSet (v : Vid) (x : VarValue T)
  | TNew (init : T).

Definition run_top (s : nat * ValsAndBindings T) (o : table_op)
    : outcome (nat * ValsAndBindings T) :=
  match o with
  | TSet v x => vb ← set s.2 v x; Ok (s.1, vb)
  | TNew init => Ok (s.1 + 1, mkVB (<[s.1 := Root init 0]> (vals s.2)) (bindings s.2))
  end.

Fixpoint run_tops (s : nat * ValsAndBindings T) (os : list table_op)
    : outcome (nat * ValsAndBindings T) :=
  match os with
  | [] => Ok s
  | o :: os' => s ← run_top s o; run_tops s os'
  end.

Lemma undo_bindings_app (l1 l2 : list (Vid * VarValue T)) vs :
  undo_bindings (l1 ++ l2) vs = undo_bindings l2 (undo_bindings l1 vs).
Proof. induction l1 as [|[v x] l1 IH] in vs |- *; simpl; [done|]. apply IH. Qed.

(** The table [vb] can be rolled back to [vb0], as far as the variables below
    [c] are concerned. *)
Definition rolls_back (c : nat) vb0 vb : Prop :=
  ∃ new, bindings vb = bindings vb0 ++ new ∧
    ∀ v, v < c → undo_bindings (reverse new) (vals vb) !! v = vals vb0 !! v.

Lemma rolls_back_run os c vb c' vb' :
  run_tops (c, vb) os = Ok (c', vb') → rolls_back c vb vb'.
Proof.
  induction os as [|o os IH] in c, vb |- *; simpl; intros H.
  { inv_ok H. simplify_eq. exists []. rewrite app_nil_r. done. }
  apply bind_Ok in H as ([c1 vb1] & Ho & H). apply IH in H as (new & Hb & Hv).
  destruct o as [v x|init]; simpl in Ho.
  - inv_ok Ho. unfold set in Hoa. destruct (vals vb !! v) as [old|] eqn:Hold; [|done].
    simplify_eq/=. exists ((v, old) :: new). split; [by rewrite Hb, <- (assoc_L (++))|].
    intros w Hw. rewrite reverse_cons, undo_bindings_app. simpl.
    destruct (decide (w = v)) as [->|]; [by rewrite lookup_insert_eq|].
    rewrite lookup_insert_ne by done. rewrite Hv by done. by rewrite lookup_insert_ne.
  - simplify_eq/=. exists new. split; [done|]. intros w Hw. rewrite Hv by lia.
    rewrite lookup_insert_ne by lia. done.
Qed.

(** Restored: the log as before, and every old variable with its old value. *)
Definition table_restored (c : nat) vb0 vb : Prop :=
  bindings vb = bindings vb0 ∧ ∀ v, v < c → vals vb !! v = vals vb0 !! v.

Lemma rollback_vals_restored c vb0 vb :
  rolls_back c vb0 vb →
  ∃ vb', rollback_vals vb (length (bindings vb0)) = Ok vb' ∧ table_restored c vb0 vb'.
Proof.
  intros (new & Hb & Hv). unfold rollback_vals. rewrite Hb, length_app.
  destruct (Nat.ltb_spec (length (bindings vb0) + length new) (length (bindings vb0))); [lia|].
  eexists. split; [done|]. split; simpl; [by rewrite take_app_length|].
  intros v Hvc. rewrite drop_app_length. auto.
Qed.
End table.
Arguments table_op : clear implicits.

(** ** Rolling the context back *)

Section restore.
Context {Ty IntV FloatV SO VO : Type} (misc_variable : SO → VO).
Abbreviation Ctxt := (InferCtxt Ty IntV FloatV SO VO).
Implicit Types (cx : Ctxt).

(** What a closure does to the context between two snapshots. *)
Inductive ctxt_op :=
  | IcTy (o : table_op (Bounds Ty))
  | IcInt (o : table_op (option IntV))
  | IcFloat (o : table_op (option FloatV))
  | IcRegion (o : bindings_op SO VO).

Definition run_cop cx (o : ctxt_op) : outcome Ctxt :=
  match o with
  | IcTy o =>
      r ← run_top (ty_var_counter cx, ty_var_bindings cx) o;
      Ok (mkInferCtxt r.2 r.1 (int_var_bindings cx) (int_var_counter cx)
            (float_var_bindings cx) (float_var_counter cx) (region_vars cx))
  | IcInt o =>
      r ← run_top (int_var_counter cx, int_var_bindings cx) o;
      Ok (mkInferCtxt (ty_var_bindings cx) (ty_var_counter cx) r.2 r.1
            (float_var_bindings cx) (float_var_counter cx) (region_vars cx))
  | IcFloat o =>
      r ← run_top (float_var_counter cx, float_var_bindings cx) o;
      Ok (mkInferCtxt (ty_var_bindings cx) (ty_var_counter cx) (int_var_bindings cx)
            (int_var_counter cx) r.2 r.1 (region_vars cx))
  | IcRegion o => rv ← run_bop misc_variable (region_vars cx) o; Ok (set_region_vars cx rv)
  end.

Fixpoint run_cops cx (os : list ctxt_op) : outcome Ctxt :=
  match os with
  | [] => Ok cx
  | o :: os' => cx ← run_cop cx o; run_cops cx os'
  end.

(** The operations on each part of the context. *)
Definition ty_ops (os : list ctxt_op) := omap (λ o, match o with IcTy o => Some o | _ => None end) os.
Definition int_ops (os : list ctxt_op) := omap (λ o, match o with IcInt o => Some o | _ => None end) os.
Definition float_ops (os : list ctxt_op) := omap (λ o, match o with IcFloat o => Some o | _ => None end) os.
Definition region_ops (os : list ctxt_op) := omap (λ o, match o with IcRegion o => Some o | _ => None end) os.

(** The parts do not interfere. *)
Lemma run_cops_parts os cx cx' :
  run_cops cx os = Ok cx' →
  run_tops (ty_var_counter cx, ty_var_bindings cx) (ty_ops os)
    = Ok (ty_var_counter cx', ty_var_bindings cx') ∧
  run_tops (int_var_counter cx, int_var_bindings cx) (int_ops os)
    = Ok (int_var_counter cx', int_var_bindings cx') ∧
  run_tops (float_var_counter cx, float_var_bindings cx) (float_ops os)
    = Ok (float_var_counter cx', float_var_bindings cx') ∧
  run_bops misc_variable (region_vars cx) (region_ops os) = Ok (region_vars cx').
Proof.
  induction os as [|o os IH] in cx |- *; cbn [run_cops]; intros H; [by inv_ok H; subst|].
  apply bind_Ok in H as (cx1 & Ho & H). apply IH in H as (H1 & H2 & H3 & H4).
  destruct o as [o|o|o|o]; cbn [run_cop] in Ho; apply bind_Ok in Ho as (r & Hr & Ho);
    injection Ho as <-; cbn in H1, H2, H3, H4; try destruct r as [? ?]; cbn in *;
    split_and!; try done; cbn; by rewrite Hr.
Qed.

(** Everything that existed is as it was. *)
Record restored cx0 cx : Prop := {
  rst_ty : table_restored (ty_var_counter cx0) (ty_var_bindings cx0) (ty_var_bindings cx);
  rst_int : table_restored (int_var_counter cx0) (int_var_bindings cx0) (int_var_bindings cx);
  rst_float :
    table_restored (float_var_counter cx0) (float_var_bindings cx0) (float_var_bindings cx);
  rst_region : bindings_equiv (region_vars cx) (region_vars cx0)
}.

Lemma rollback_restored cx os cx2 :
  (∀ j, IcRegion (ORollbackTo j) ∉ os) →
  run_cops (start_snapshot cx).1 os = Ok cx2 →
  ∃ cx3, rollback_to cx2 (start_snapshot cx).2 = Ok cx3 ∧ restored cx cx3.
Proof.
  intros Hno Hrun. unfold start_snapshot in *.
  destruct (RegionBindings.start_snapshot (region_vars cx)) as [rv k] eqn:Hs. cbn in Hrun |- *.
  apply run_cops_parts in Hrun as (H1 & H2 & H3 & H4). cbn in H1, H2, H3, H4.
  apply rolls_back_run, rollback_vals_restored in H1 as (tyb & Ht & Htr).
  apply rolls_back_run, rollback_vals_restored in H2 as (intb & Hi & Hir).
  apply rolls_back_run, rollback_vals_restored in H3 as (floatb & Hf & Hfr).
  assert (∃ rv', RegionBindings.rollback_to (region_vars cx2) k = Ok rv' ∧
            bindings_equiv rv' (region_vars cx)) as (rv' & Hr & Hrr).
  { apply start_snapshot_leads_back in Hs.
    eapply (leads_back_ops misc_variable) in H4 as [_ ?]; [done| |done].
    intros j (o & Ho & Hj)%list_elem_of_omap. destruct o; simplify_eq. by apply Hno in Ho. }
  unfold rollback_to. cbn [ty_var_bindings_len int_var_bindings_len float_var_bindings_len
    region_vars_snapshot]. rewrite Ht, Hi, Hf, Hr. simpl_ok. eexists. split; [done|]. by split.
Qed.

Section closures.
Context {A E : Type}.

(** A closure that performs [os] and returns [res]. *)
Definition performs (os : list ctxt_op) (res : A + E) (cx : Ctxt) : outcome (Ctxt * (A + E)) :=
  cx' ← run_cops cx os; Ok (cx', res).

(** [probe] leaves no trace of a closure that assigns variables through
    [set], creates variables and constrains regions, whatever the closure
    returns; [try] leaves none when it returns an error, and keeps the
    closure's effects, still undoable by an enclosing snapshot, when it
    succeeds. *)
Theorem try_probe_restore cx os (res : A + E) cx2 :
  (∀ j, IcRegion (ORollbackTo j) ∉ os) →
  run_cops (start_snapshot cx).1 os = Ok cx2 →
  (∃ cx3, probe (performs os res) cx = Ok (cx3, res) ∧ restored cx cx3) ∧
  ∃ cx3, try (performs os res) cx = Ok (cx3, res) ∧
    match res with
    | inl _ => cx3 = cx2
    | inr _ => restored cx cx3
    end.
Proof.
  intros Hno Hrun. destruct (rollback_restored cx os cx2 Hno Hrun) as (cx3 & Hroll & Hres).
  unfold probe, try, performs. destruct (start_snapshot cx) as [cx1 snap]. cbn [fst snd] in *.
  rewrite Hrun. simpl_ok. rewrite Hroll. simpl_ok. split; [eauto|]. destruct res; eauto.
Qed.
End closures.
End restore.

(** ** Where rolling back falls short *)

Abbreviation ExCtxt := (InferCtxt unit nat nat unit unit).

(** Run some unifications of integral variables. *)
Fixpoint unify_int_vars (cx : ExCtxt) (pairs : list (Vid * Vid)) : outcome ExCtxt :=
  match pairs with
  | [] => Ok cx
  | (a, b) :: pairs' =>
      r ← simple_vars (int_var_bindings cx) true a b;
      unify_int_vars
        (mkInferCtxt (ty_var_bindings cx) (ty_var_counter cx) r.1 (int_var_counter cx)
           (float_var_bindings cx) (float_var_counter cx) (region_vars cx)) pairs'
  end.

Definition with_int_vars (n : nat) : ExCtxt :=
  Nat.iter n (λ cx, (next_int_var_id cx).1) new_infer_ctxt.

(** The root of an integral variable. *)
Definition int_root (cx : ExCtxt) (v : Vid) : outcome Vid :=
  (λ r, root r.2) <$> get (int_var_bindings cx) v.

(** Two classes [{0, 1, 6, 7}] and [{2, 3, 4, 5}] of rank 2. *)
Definition two_classes : outcome ExCtxt :=
  unify_int_vars (with_int_vars 8) [(0, 1); (6, 7); (0, 6); (2, 5); (3, 4); (2, 3)].

(** Path compression is not logged, so rolling back does not restore the
    classes: after a [probe] that unifies two classes, two variables of the
    second class are left in the first one, whose root they did not have
    before. *)
Theorem probe_keeps_compression :
  ∃ cx cx', two_classes = Ok cx ∧ int_root cx 4 = Ok 2 ∧
    probe (λ cx, cx' ← unify_int_vars cx [(0, 2); (4, 0)]; Ok (cx', inl () : unit + unit)) cx
      = Ok (cx', inl ()) ∧
    int_root cx' 2 = Ok 2 ∧ int_root cx' 3 = Ok 0 ∧ int_root cx' 4 = Ok 0.
Proof. eexists _, _. split_and!; vm_compute; reflexivity. Qed.

(** [commit] clears the logs of type and integral variables, but leaves the
    log of floating variables as it is. *)
Theorem commit_keeps_float_log :
  ∃ (cx cx' : ExCtxt),
    commit (λ cx : ExCtxt,
      let cx := (next_float_var_id (next_int_var_id cx).1).1 in
      i ← simple_var_t (int_var_bindings cx) true 0 7;
      fl ← simple_var_t (float_var_bindings cx) true 0 9;
      Ok (mkInferCtxt (ty_var_bindings cx) (ty_var_counter cx) i.1 (int_var_counter cx)
            fl.1 (float_var_counter cx) (region_vars cx), inl () : unit + unit)) cx
      = Ok (cx', inl ()) ∧
    bindings (int_var_bindings cx') = [] ∧ undo_log (region_vars cx') = [] ∧
    bindings (float_var_bindings cx') = [(0, Root None 0)].
Proof. exists new_infer_ctxt. eexists. split_and!; vm_compute; reflexivity. Qed.

(** ** Witnesses *)

Definition example_ctxt_ops : list (ctxt_op (Ty := unit) (IntV := nat) (FloatV := nat)
    (SO := unit) (VO := unit)) :=
  [IcTy (TNew (mkBounds None None)); IcInt (TSet 0 (Redirect 1)); IcInt (TSet 1 (Root (Some 7) 1));
   IcFloat (TNew None); IcFloat (TSet 0 (Root (Some 9) 0));
   IcRegion (ONewVar ()); IcRegion (OMakeSubregion () (ReScope 4) (ReInfer (ReVar 0)))].

Lemma try_probe_restore_witness :
  ∃ cx2, run_cops (λ _, ()) (start_snapshot (with_int_vars 2)).1 example_ctxt_ops = Ok cx2 ∧
  ∃ cx3, try (performs (λ _, ()) example_ctxt_ops (inr 5 : unit + nat)) (with_int_vars 2)
           = Ok (cx3, inr 5) ∧ restored (with_int_vars 2) cx3.
Proof.
  eexists. split; [vm_compute; reflexivity|].
  destruct (try_probe_restore (λ _ : unit, ()) (with_int_vars 2) example_ctxt_ops (inr 5 : unit + nat)
    (match run_cops (λ _, ()) (start_snapshot (with_int_vars 2)).1 example_ctxt_ops with
     | Ok cx => cx | Fail _ => new_infer_ctxt end)) as [_ H].
  - intros j. unfold example_ctxt_ops. rewrite !not_elem_of_cons. repeat split; try discriminate.
    apply not_elem_of_nil.
  - vm_compute. reflexivity.
  - exact H.
Defined.
