(* ===== verification/Iter.v ===== *)
(** The iterators of [libstd/iter.rs]: the traits as classes of operations, the
    adaptors as their instances, and the consuming methods.

    [next] takes the fuel of the loops inside an adaptor ([Filter] skips
    elements until one passes); running out is a failure of its own.  The
    closures are pure functions; [Scan] and [Unfold] thread their state. *)
From S2P Require Import Prelude.
From stdpp Require Import base list.
From Stdlib Require Import NArith ZArith Lia.
Local Open Scope N_scope.

(** * The traits *)
Class Iterator (I A : Type) : Type := {
  next : nat → I → outcome (option A * I);
  size_hint : I → N * option N
}.

Class DoubleEndedIterator (I A : Type) : Type :=
  next_back : nat → I → outcome (option A * I).

Class RandomAccessIterator (I A : Type) : Type := {
  indexable : I → N;
  idx : I → N → option A
}.

(** Arithmetic on [uint] that does not wrap. *)
Definition saturating_add (a b : N) : N := N.min (a + b) UINT_MAX.
Definition saturating_sub (a b : N) : N := a - b.
Definition checked_add (a b : N) : option N := if a + b <=? UINT_MAX then Some (a + b) else None.
Definition add_upper (a b : option N) : option N :=
  match a, b with Some x, Some y => checked_add x y | _, _ => None end.

(** [for x in it { ... }], where the body returns a new state or leaves the
    function with a result. *)
Fixpoint for_ {I A S R} `{Iterator I A} (fuel : nat) (it : I) (s : S) (body : S → A → S + R)
    : outcome ((S + R) * I) :=
  match fuel with
  | O => Fail OutOfFuel
  | S fuel =>
      r ← next fuel it;
      match r with
      | (None, it') => Ok (inl s, it')
      | (Some x, it') =>
          match body s x with
          | inl s' => for_ fuel it' s' body
          | inr res => Ok (inr res, it')
          end
      end
  end.

(** The same loop on [next_back]. *)
Fixpoint for_back {I A S R} `{DoubleEndedIterator I A} (fuel : nat) (it : I) (s : S)
    (body : S → A → S + R) : outcome ((S + R) * I) :=
  match fuel with
  | O => Fail OutOfFuel
  | S fuel =>
      r ← next_back fuel it;
      match r with
      | (None, it') => Ok (inl s, it')
      | (Some x, it') =>
          match body s x with
          | inl s' => for_back fuel it' s' body
          | inr res => Ok (inr res, it')
          end
      end
  end.

(** The result of a function whose loop falls through to [None]. *)
Definition returned {S R I} (r : (S + R) * I) : option R * I :=
  match r with (inl _, it) => (None, it) | (inr x, it) => (Some x, it) end.

(** The state after a loop whose body never leaves the function. *)
Definition fell_through {S I} (r : (S + Empty_set) * I) : S * I :=
  match r with (inl s, it) => (s, it) | (inr e, _) => match e with end end.

(** * Slices: the iterator that walks over a vector *)
Record Items (A : Type) : Type := mkItems { rest : list A }.
Arguments mkItems {A}.
Arguments rest {A}.

#[export] Instance Items_Iterator A : Iterator (Items A) A := {
  next _ it := Ok (head (rest it), mkItems (tail (rest it)));
  size_hint it := (N.of_nat (length (rest it)), Some (N.of_nat (length (rest it))))
}.
#[export] Instance Items_DoubleEnded A : DoubleEndedIterator (Items A) A :=
  λ _ it, Ok (last (rest it), mkItems (removelast (rest it))).

#[export] Instance Items_RandomAccess A : RandomAccessIterator (Items A) A := {
  indexable it := N.of_nat (length (rest it));
  idx it index := rest it !! N.to_nat index
}.

(** * Adaptors *)
Record Rev (I : Type) : Type := mkRev { rev_iter : I }.
Arguments mkRev {I}.
Arguments rev_iter {I}.

Definition Rev_next {I A} `{DoubleEndedIterator I A} (fuel : nat) (it : Rev I) : outcome (option A * Rev I) :=
  '(x, i) ← next_back fuel (rev_iter it); Ok (x, mkRev i).
Definition Rev_next_back {I A} `{Iterator I A} (fuel : nat) (it : Rev I) : outcome (option A * Rev I) :=
  '(x, i) ← next fuel (rev_iter it); Ok (x, mkRev i).
Definition Rev_idx {I A} `{RandomAccessIterator I A} (it : Rev I) (index : N) : option A :=
  idx (rev_iter it) (usub (usub (indexable (rev_iter it)) index) 1).

#[export] Instance Rev_Iterator {I A} `{Iterator I A, DoubleEndedIterator I A} : Iterator (Rev I) A :=
  { next := Rev_next; size_hint it := size_hint (rev_iter it) }.
#[export] Instance Rev_DoubleEnded {I A} `{Iterator I A} : DoubleEndedIterator (Rev I) A := Rev_next_back.
#[export] Instance Rev_RandomAccess {I A} `{RandomAccessIterator I A} : RandomAccessIterator (Rev I) A :=
  { indexable it := indexable (rev_iter it); idx := Rev_idx }.

Record Chain (T U : Type) : Type := mkChain { chain_a : T; chain_b : U; chain_flag : bool }.
Arguments mkChain {T U}.
Arguments chain_a {T U}.
Arguments chain_b {T U}.
Arguments chain_flag {T U}.

Definition Chain_next {T U A} `{Iterator T A, Iterator U A} (fuel : nat) (it : Chain T U)
    : outcome (option A * Chain T U) :=
  if chain_flag it then
    '(x, b) ← next fuel (chain_b it); Ok (x, mkChain (chain_a it) b true)
  else
    '(x, a) ← next fuel (chain_a it);
    match x with
    | Some x => Ok (Some x, mkChain a (chain_b it) false)
    | None => '(x, b) ← next fuel (chain_b it); Ok (x, mkChain a b true)
    end.

Definition Chain_size_hint {T U A} `{Iterator T A, Iterator U A} (it : Chain T U) : N * option N :=
  let '(a_lower, a_upper) := size_hint (chain_a it) in
  let '(b_lower, b_upper) := size_hint (chain_b it) in
  (saturating_add a_lower b_lower, add_upper a_upper b_upper).

Definition Chain_next_back {T U A} `{DoubleEndedIterator T A, DoubleEndedIterator U A}
    (fuel : nat) (it : Chain T U) : outcome (option A * Chain T U) :=
  '(x, b) ← next_back fuel (chain_b it);
  match x with
  | Some x => Ok (Some x, mkChain (chain_a it) b (chain_flag it))
  | None => '(x, a) ← next_back fuel (chain_a it); Ok (x, mkChain a b (chain_flag it))
  end.

Definition Chain_indexable {T U A} `{RandomAccessIterator T A, RandomAccessIterator U A} (it : Chain T U) : N :=
  saturating_add (indexable (chain_a it)) (indexable (chain_b it)).
Definition Chain_idx {T U A} `{RandomAccessIterator T A, RandomAccessIterator U A} (it : Chain T U) (index : N)
    : option A :=
  let len := indexable (chain_a it) in
  if index <? len then idx (chain_a it) index else idx (chain_b it) (usub index len).

#[export] Instance Chain_Iterator {T U A} `{Iterator T A, Iterator U A} : Iterator (Chain T U) A :=
  { next := Chain_next; size_hint := Chain_size_hint }.
#[export] Instance Chain_DoubleEnded {T U A} `{DoubleEndedIterator T A, DoubleEndedIterator U A}
    : DoubleEndedIterator (Chain T U) A := Chain_next_back.
#[export] Instance Chain_RandomAccess {T U A} `{RandomAccessIterator T A, RandomAccessIterator U A}
    : RandomAccessIterator (Chain T U) A := { indexable := Chain_indexable; idx := Chain_idx }.

Record Zip (T U : Type) : Type := mkZip { zip_a : T; zip_b : U }.
Arguments mkZip {T U}.
Arguments zip_a {T U}.
Arguments zip_b {T U}.

Definition Zip_next {T U A B} `{Iterator T A, Iterator U B} (fuel : nat) (it : Zip T U)
    : outcome (option (A * B) * Zip T U) :=
  '(x, a) ← next fuel (zip_a it);
  match x with
  | None => Ok (None, mkZip a (zip_b it))
  | Some x =>
      '(y, b) ← next fuel (zip_b it);
      match y with
      | None => Ok (None, mkZip a b)
      | Some y => Ok (Some (x, y), mkZip a b)
      end
  end.

Definition Zip_size_hint {T U A B} `{Iterator T A, Iterator U B} (it : Zip T U) : N * option N :=
  let '(a_lower, a_upper) := size_hint (zip_a it) in
  let '(b_lower, b_upper) := size_hint (zip_b it) in
  (N.min a_lower b_lower,
   match a_upper, b_upper with
   | Some x, Some y => Some (N.min x y)
   | Some x, None => Some x
   | None, Some y => Some y
   | None, None => None
   end).

(** [for _ in range(0, n) { it.next_back(); }] *)
Fixpoint drop_back {I A} `{DoubleEndedIterator I A} (fuel : nat) (n : nat) (it : I) : outcome I :=
  match n with
  | O => Ok it
  | S n => '(_, it') ← next_back fuel it; drop_back fuel n it'
  end.

Definition Zip_next_back {T U A B} `{Iterator T A, DoubleEndedIterator T A, Iterator U B, DoubleEndedIterator U B}
    (fuel : nat) (it : Zip T U) : outcome (option (A * B) * Zip T U) :=
  let '(a_sz, a_upper) := size_hint (zip_a it) in
  let '(b_sz, b_upper) := size_hint (zip_b it) in
  _ ← assert_ (bool_decide (a_upper = Some a_sz));
  _ ← assert_ (bool_decide (b_upper = Some b_sz));
  a ← (if b_sz <? a_sz then drop_back fuel (N.to_nat (a_sz - b_sz)) (zip_a it) else Ok (zip_a it));
  b ← (if a_sz <? b_sz then drop_back fuel (N.to_nat (b_sz - a_sz)) (zip_b it) else Ok (zip_b it));
  let '(a_sz, _) := size_hint a in
  let '(b_sz, _) := size_hint b in
  _ ← assert_ (a_sz =? b_sz);
  '(x, a) ← next_back fuel a;
  '(y, b) ← next_back fuel b;
  Ok (match x, y with Some x, Some y => Some (x, y) | _, _ => None end, mkZip a b).

Definition Zip_indexable {T U A B} `{RandomAccessIterator T A, RandomAccessIterator U B} (it : Zip T U) : N :=
  N.min (indexable (zip_a it)) (indexable (zip_b it)).
Definition Zip_idx {T U A B} `{RandomAccessIterator T A, RandomAccessIterator U B} (it : Zip T U) (index : N)
    : option (A * B) :=
  match idx (zip_a it) index with
  | None => None
  | Some x => match idx (zip_b it) index with None => None | Some y => Some (x, y) end
  end.

#[export] Instance Zip_Iterator {T U A B} `{Iterator T A, Iterator U B} : Iterator (Zip T U) (A * B) :=
  { next := Zip_next; size_hint := Zip_size_hint }.
#[export] Instance Zip_DoubleEnded {T U A B}
    `{Iterator T A, DoubleEndedIterator T A, Iterator U B, DoubleEndedIterator U B}
    : DoubleEndedIterator (Zip T U) (A * B) := Zip_next_back.
#[export] Instance Zip_RandomAccess {T U A B} `{RandomAccessIterator T A, RandomAccessIterator U B}
    : RandomAccessIterator (Zip T U) (A * B) := { indexable := Zip_indexable; idx := Zip_idx }.

Record Map (A B I : Type) : Type := mkMap { map_iter : I; map_f : A → B }.
Arguments mkMap {A B I}.
Arguments map_iter {A B I}.
Arguments map_f {A B I}.

Definition do_map {A B I} (it : Map A B I) (elt : option A) : option B :=
  match elt with Some a => Some (map_f it a) | None => None end.
Definition Map_next {I A B} `{Iterator I A} (fuel : nat) (it : Map A B I) : outcome (option B * Map A B I) :=
  '(x, i) ← next fuel (map_iter it); Ok (do_map it x, mkMap i (map_f it)).
Definition Map_next_back {I A B} `{DoubleEndedIterator I A} (fuel : nat) (it : Map A B I)
    : outcome (option B * Map A B I) :=
  '(x, i) ← next_back fuel (map_iter it); Ok (do_map it x, mkMap i (map_f it)).
Definition Map_idx {I A B} `{RandomAccessIterator I A} (it : Map A B I) (index : N) : option B :=
  do_map it (idx (map_iter it) index).

#[export] Instance Map_Iterator {I A B} `{Iterator I A} : Iterator (Map A B I) B :=
  { next := Map_next; size_hint it := size_hint (map_iter it) }.
#[export] Instance Map_DoubleEnded {I A B} `{DoubleEndedIterator I A} : DoubleEndedIterator (Map A B I) B :=
  Map_next_back.
#[export] Instance Map_RandomAccess {I A B} `{RandomAccessIterator I A} : RandomAccessIterator (Map A B I) B :=
  { indexable it := indexable (map_iter it); idx := Map_idx }.

(** The bound of an adaptor that may drop any element. *)
Definition upper_only (h : N * option N) : N * option N := (0, h.2).

Record Filter (A I : Type) : Type := mkFilter { filter_iter : I; predicate : A → bool }.
Arguments mkFilter {A I}.
Arguments filter_iter {A I}.
Arguments predicate {A I}.

Definition keep_if {A} (p : A → bool) (_ : unit) (x : A) : unit + A := if p x then inr x else inl tt.
Definition Filter_next {I A} `{Iterator I A} (fuel : nat) (it : Filter A I) : outcome (option A * Filter A I) :=
  r ← for_ fuel (filter_iter it) tt (keep_if (predicate it));
  let '(x, i) := returned r in Ok (x, mkFilter i (predicate it)).
Definition Filter_next_back {I A} `{DoubleEndedIterator I A} (fuel : nat) (it : Filter A I)
    : outcome (option A * Filter A I) :=
  r ← for_back fuel (filter_iter it) tt (keep_if (predicate it));
  let '(x, i) := returned r in Ok (x, mkFilter i (predicate it)).

#[export] Instance Filter_Iterator {I A} `{Iterator I A} : Iterator (Filter A I) A :=
  { next := Filter_next; size_hint it := upper_only (size_hint (filter_iter it)) }.
#[export] Instance Filter_DoubleEnded {I A} `{DoubleEndedIterator I A} : DoubleEndedIterator (Filter A I) A :=
  Filter_next_back.

Record FilterMap (A B I : Type) : Type := mkFilterMap { fm_iter : I; fm_f : A → option B }.
Arguments mkFilterMap {A B I}.
Arguments fm_iter {A B I}.
Arguments fm_f {A B I}.

Definition keep_some {A B} (f : A → option B) (_ : unit) (x : A) : unit + B :=
  match f x with Some y => inr y | None => inl tt end.
Definition FilterMap_next {I A B} `{Iterator I A} (fuel : nat) (it : FilterMap A B I)
    : outcome (option B * FilterMap A B I) :=
  r ← for_ fuel (fm_iter it) tt (keep_some (fm_f it));
  let '(x, i) := returned r in Ok (x, mkFilterMap i (fm_f it)).
Definition FilterMap_next_back {I A B} `{DoubleEndedIterator I A} (fuel : nat) (it : FilterMap A B I)
    : outcome (option B * FilterMap A B I) :=
  r ← for_back fuel (fm_iter it) tt (keep_some (fm_f it));
  let '(x, i) := returned r in Ok (x, mkFilterMap i (fm_f it)).

#[export] Instance FilterMap_Iterator {I A B} `{Iterator I A} : Iterator (FilterMap A B I) B :=
  { next := FilterMap_next; size_hint it := upper_only (size_hint (fm_iter it)) }.
#[export] Instance FilterMap_DoubleEnded {I A B} `{DoubleEndedIterator I A}
    : DoubleEndedIterator (FilterMap A B I) B := FilterMap_next_back.

Record Enumerate (I : Type) : Type := mkEnumerate { enum_iter : I; enum_count : N }.
Arguments mkEnumerate {I}.
Arguments enum_iter {I}.
Arguments enum_count {I}.

Definition Enumerate_next {I A} `{Iterator I A} (fuel : nat) (it : Enumerate I)
    : outcome (option (N * A) * Enumerate I) :=
  '(x, i) ← next fuel (enum_iter it);
  match x with
  | Some a => Ok (Some (enum_count it, a), mkEnumerate i (uadd (enum_count it) 1))
  | None => Ok (None, mkEnumerate i (enum_count it))
  end.
Definition Enumerate_next_back {I A} `{Iterator I A, DoubleEndedIterator I A} (fuel : nat) (it : Enumerate I)
    : outcome (option (N * A) * Enumerate I) :=
  '(x, i) ← next_back fuel (enum_iter it);
  match x with
  | Some a =>
      let '(lower, upper) := size_hint i in
      _ ← assert_ (bool_decide (upper = Some lower));
      Ok (Some (uadd (enum_count it) lower, a), mkEnumerate i (enum_count it))
  | None => Ok (None, mkEnumerate i (enum_count it))
  end.
Definition Enumerate_idx {I A} `{RandomAccessIterator I A} (it : Enumerate I) (index : N) : option (N * A) :=
  match idx (enum_iter it) index with
  | Some a => Some (uadd (enum_count it) index, a)
  | None => None
  end.

#[export] Instance Enumerate_Iterator {I A} `{Iterator I A} : Iterator (Enumerate I) (N * A) :=
  { next := Enumerate_next; size_hint it := size_hint (enum_iter it) }.
#[export] Instance Enumerate_DoubleEnded {I A} `{Iterator I A, DoubleEndedIterator I A}
    : DoubleEndedIterator (Enumerate I) (N * A) := Enumerate_next_back.
#[export] Instance Enumerate_RandomAccess {I A} `{RandomAccessIterator I A}
    : RandomAccessIterator (Enumerate I) (N * A) :=
  { indexable it := indexable (enum_iter it); idx := Enumerate_idx }.

Record Peekable (A I : Type) : Type := mkPeekable { peek_iter : I; peeked : option A }.
Arguments mkPeekable {A I}.
Arguments peek_iter {A I}.
Arguments peeked {A I}.

Definition Peekable_next {I A} `{Iterator I A} (fuel : nat) (it : Peekable A I)
    : outcome (option A * Peekable A I) :=
  match peeked it with
  | Some x => Ok (Some x, mkPeekable (peek_iter it) None)
  | None => '(x, i) ← next fuel (peek_iter it); Ok (x, mkPeekable i None)
  end.
Definition Peekable_size_hint {I A} `{Iterator I A} (it : Peekable A I) : N * option N :=
  let '(lo, hi) := size_hint (peek_iter it) in
  if peeked it is Some _ then (saturating_add lo 1, add_upper hi (Some 1)) else (lo, hi).
Definition peek {I A} `{Iterator I A} (fuel : nat) (it : Peekable A I) : outcome (option A * Peekable A I) :=
  match peeked it with
  | Some x => Ok (Some x, it)
  | None => '(x, i) ← next fuel (peek_iter it); Ok (x, mkPeekable i x)
  end.
Definition Peekable_is_empty {I A} `{Iterator I A} (fuel : nat) (it : Peekable A I)
    : outcome (bool * Peekable A I) :=
  '(x, it) ← peek fuel it; Ok (negb (is_some x), it).

#[export] Instance Peekable_Iterator {I A} `{Iterator I A} : Iterator (Peekable A I) A :=
  { next := Peekable_next; size_hint := Peekable_size_hint }.

Record SkipWhile (A I : Type) : Type := mkSkipWhile { sw_iter : I; sw_flag : bool; sw_predicate : A → bool }.
Arguments mkSkipWhile {A I}.
Arguments sw_iter {A I}.
Arguments sw_flag {A I}.
Arguments sw_predicate {A I}.

(** The first call loops until the predicate fails, as a [for] would. *)
Definition SkipWhile_next {I A} `{Iterator I A} (fuel : nat) (it : SkipWhile A I)
    : outcome (option A * SkipWhile A I) :=
  if sw_flag it then
    '(x, i) ← next fuel (sw_iter it); Ok (x, mkSkipWhile i true (sw_predicate it))
  else
    r ← for_ fuel (sw_iter it) tt (keep_if (λ x, negb (sw_predicate it x)));
    let '(x, i) := returned r in Ok (x, mkSkipWhile i (is_some x) (sw_predicate it)).

#[export] Instance SkipWhile_Iterator {I A} `{Iterator I A} : Iterator (SkipWhile A I) A :=
  { next := SkipWhile_next; size_hint it := upper_only (size_hint (sw_iter it)) }.

Record TakeWhile (A I : Type) : Type := mkTakeWhile { tw_iter : I; tw_flag : bool; tw_predicate : A → bool }.
Arguments mkTakeWhile {A I}.
Arguments tw_iter {A I}.
Arguments tw_flag {A I}.
Arguments tw_predicate {A I}.

Definition TakeWhile_next {I A} `{Iterator I A} (fuel : nat) (it : TakeWhile A I)
    : outcome (option A * TakeWhile A I) :=
  if tw_flag it then Ok (None, it)
  else
    '(x, i) ← next fuel (tw_iter it);
    match x with
    | Some x => if tw_predicate it x then Ok (Some x, mkTakeWhile i false (tw_predicate it))
                else Ok (None, mkTakeWhile i true (tw_predicate it))
    | None => Ok (None, mkTakeWhile i false (tw_predicate it))
    end.

#[export] Instance TakeWhile_Iterator {I A} `{Iterator I A} : Iterator (TakeWhile A I) A :=
  { next := TakeWhile_next; size_hint it := upper_only (size_hint (tw_iter it)) }.

Record Skip (I : Type) : Type := mkSkip { skip_iter : I; skip_n : N }.
Arguments mkSkip {I}.
Arguments skip_iter {I}.
Arguments skip_n {I}.

(** The loop [while n > 0] of [Skip::next]. *)
Fixpoint skip_loop {I A} `{Iterator I A} (fuel : nat) (n : nat) (next_ : option A) (it : I)
    : outcome (option A * I) :=
  match n with
  | O => Ok (next_, it)
  | S n =>
      match next_ with
      | Some _ => '(x, it') ← next fuel it; skip_loop fuel n x it'
      | None => Ok (None, it)
      end
  end.
Definition Skip_next {I A} `{Iterator I A} (fuel : nat) (it : Skip I) : outcome (option A * Skip I) :=
  '(x, i) ← next fuel (skip_iter it);
  if (skip_n it =? 0)%N then Ok (x, mkSkip i 0)
  else '(x, i) ← skip_loop fuel (N.to_nat (skip_n it)) x i; Ok (x, mkSkip i 0).
Definition Skip_size_hint {I A} `{Iterator I A} (it : Skip I) : N * option N :=
  let '(lower, upper) := size_hint (skip_iter it) in
  (saturating_sub lower (skip_n it),
   match upper with Some x => Some (saturating_sub x (skip_n it)) | None => None end).
Definition Skip_indexable {I A} `{RandomAccessIterator I A} (it : Skip I) : N :=
  saturating_sub (indexable (skip_iter it)) (skip_n it).
Definition Skip_idx {I A} `{RandomAccessIterator I A} (it : Skip I) (index : N) : option A :=
  if (Skip_indexable it <=? index)%N then None else idx (skip_iter it) (uadd index (skip_n it)).

#[export] Instance Skip_Iterator {I A} `{Iterator I A} : Iterator (Skip I) A :=
  { next := Skip_next; size_hint := Skip_size_hint }.
#[export] Instance Skip_RandomAccess {I A} `{RandomAccessIterator I A} : RandomAccessIterator (Skip I) A :=
  { indexable := Skip_indexable; idx := Skip_idx }.

Record Take (I : Type) : Type := mkTake { take_iter : I; take_n : N }.
Arguments mkTake {I}.
Arguments take_iter {I}.
Arguments take_n {I}.

Definition Take_next {I A} `{Iterator I A} (fuel : nat) (it : Take I) : outcome (option A * Take I) :=
  if (take_n it =? 0)%N then Ok (None, it)
  else '(x, i) ← next fuel (take_iter it); Ok (x, mkTake i (take_n it - 1)).
Definition Take_size_hint {I A} `{Iterator I A} (it : Take I) : N * option N :=
  let '(lower, upper) := size_hint (take_iter it) in
  (N.min lower (take_n it),
   match upper with
   | Some x => if (x <? take_n it)%N then Some x else Some (take_n it)
   | None => Some (take_n it)
   end).
Definition Take_indexable {I A} `{RandomAccessIterator I A} (it : Take I) : N :=
  N.min (indexable (take_iter it)) (take_n it).
Definition Take_idx {I A} `{RandomAccessIterator I A} (it : Take I) (index : N) : option A :=
  if (take_n it <=? index)%N then None else idx (take_iter it) index.

#[export] Instance Take_Iterator {I A} `{Iterator I A} : Iterator (Take I) A :=
  { next := Take_next; size_hint := Take_size_hint }.
#[export] Instance Take_RandomAccess {I A} `{RandomAccessIterator I A} : RandomAccessIterator (Take I) A :=
  { indexable := Take_indexable; idx := Take_idx }.

Record Scan (A B I St : Type) : Type :=
  mkScan { scan_iter : I; scan_f : St → A → St * option B; scan_state : St }.
Arguments mkScan {A B I St}.
Arguments scan_iter {A B I St}.
Arguments scan_f {A B I St}.
Arguments scan_state {A B I St}.

Definition Scan_next {I A B St} `{Iterator I A} (fuel : nat) (it : Scan A B I St)
    : outcome (option B * Scan A B I St) :=
  '(x, i) ← next fuel (scan_iter it);
  match x with
  | Some a => let '(st, y) := scan_f it (scan_state it) a in Ok (y, mkScan i (scan_f it) st)
  | None => Ok (None, mkScan i (scan_f it) (scan_state it))
  end.

#[export] Instance Scan_Iterator {I A B St} `{Iterator I A} : Iterator (Scan A B I St) B :=
  { next := Scan_next; size_hint it := upper_only (size_hint (scan_iter it)) }.

Record FlatMap (A I U : Type) : Type :=
  mkFlatMap { flat_iter : I; flat_f : A → U; frontiter : option U; backiter : option U }.
Arguments mkFlatMap {A I U}.
Arguments flat_iter {A I U}.
Arguments flat_f {A I U}.
Arguments frontiter {A I U}.
Arguments backiter {A I U}.

(** A step of an optional inner iterator; without one it yields nothing. *)
Definition opt_next {U B} (step : nat → U → outcome (option B * U)) (fuel : nat) (o : option U)
    : outcome (option B * option U) :=
  match o with
  | Some u => '(x, u) ← step fuel u; Ok (x, Some u)
  | None => Ok (None, None)
  end.

Fixpoint FlatMap_next {I A U B} `{Iterator I A, Iterator U B} (fuel : nat) (it : FlatMap A I U)
    : outcome (option B * FlatMap A I U) :=
  match fuel with
  | O => Fail OutOfFuel
  | S fuel =>
      '(x, front) ← opt_next next fuel (frontiter it);
      match x with
      | Some x => Ok (Some x, mkFlatMap (flat_iter it) (flat_f it) front (backiter it))
      | None =>
          '(a, i) ← next fuel (flat_iter it);
          match a with
          | None =>
              '(y, back) ← opt_next next fuel (backiter it);
              Ok (y, mkFlatMap i (flat_f it) front back)
          | Some a => FlatMap_next fuel (mkFlatMap i (flat_f it) (Some (flat_f it a)) (backiter it))
          end
      end
  end.
Fixpoint FlatMap_next_back {I A U B} `{DoubleEndedIterator I A, DoubleEndedIterator U B}
    (fuel : nat) (it : FlatMap A I U) : outcome (option B * FlatMap A I U) :=
  match fuel with
  | O => Fail OutOfFuel
  | S fuel =>
      '(x, back) ← opt_next next_back fuel (backiter it);
      match x with
      | Some x => Ok (Some x, mkFlatMap (flat_iter it) (flat_f it) (frontiter it) back)
      | None =>
          '(a, i) ← next_back fuel (flat_iter it);
          match a with
          | None =>
              '(y, front) ← opt_next next_back fuel (frontiter it);
              Ok (y, mkFlatMap i (flat_f it) front back)
          | Some a => FlatMap_next_back fuel (mkFlatMap i (flat_f it) (frontiter it) (Some (flat_f it a)))
          end
      end
  end.
Definition opt_hint {U B} `{Iterator U B} (o : option U) : N * option N :=
  match o with Some u => size_hint u | None => (0, Some 0) end.
Definition FlatMap_size_hint {I A U B} `{Iterator I A, Iterator U B} (it : FlatMap A I U) : N * option N :=
  let '(flo, fhi) := opt_hint (frontiter it) in
  let '(blo, bhi) := opt_hint (backiter it) in
  let lo := saturating_add flo blo in
  match size_hint (flat_iter it), fhi, bhi with
  | (0, Some 0), Some a, Some b => (lo, checked_add a b)
  | _, _, _ => (lo, None)
  end.

#[export] Instance FlatMap_Iterator {I A U B} `{Iterator I A, Iterator U B} : Iterator (FlatMap A I U) B :=
  { next := FlatMap_next; size_hint := FlatMap_size_hint }.
#[export] Instance FlatMap_DoubleEnded {I A U B} `{DoubleEndedIterator I A, DoubleEndedIterator U B}
    : DoubleEndedIterator (FlatMap A I U) B := FlatMap_next_back.

Record Fuse (I : Type) : Type := mkFuse { fuse_iter : I; fuse_done : bool }.
Arguments mkFuse {I}.
Arguments fuse_iter {I}.
Arguments fuse_done {I}.

Definition Fuse_next {I A} `{Iterator I A} (fuel : nat) (it : Fuse I) : outcome (option A * Fuse I) :=
  if fuse_done it then Ok (None, it)
  else '(x, i) ← next fuel (fuse_iter it); Ok (x, mkFuse i (negb (is_some x))).
Definition Fuse_size_hint {I A} `{Iterator I A} (it : Fuse I) : N * option N :=
  if fuse_done it then (0, Some 0) else size_hint (fuse_iter it).
Definition Fuse_next_back {I A} `{DoubleEndedIterator I A} (fuel : nat) (it : Fuse I)
    : outcome (option A * Fuse I) :=
  if fuse_done it then Ok (None, it)
  else '(x, i) ← next_back fuel (fuse_iter it); Ok (x, mkFuse i (negb (is_some x))).
Definition reset_fuse {I} (it : Fuse I) : Fuse I := mkFuse (fuse_iter it) false.

#[export] Instance Fuse_Iterator {I A} `{Iterator I A} : Iterator (Fuse I) A :=
  { next := Fuse_next; size_hint := Fuse_size_hint }.
#[export] Instance Fuse_DoubleEnded {I A} `{DoubleEndedIterator I A} : DoubleEndedIterator (Fuse I) A :=
  Fuse_next_back.
#[export] Instance Fuse_RandomAccess {I A} `{RandomAccessIterator I A} : RandomAccessIterator (Fuse I) A :=
  { indexable it := indexable (fuse_iter it); idx it := idx (fuse_iter it) }.

(** [Inspect]: the closure sees every element; what it does is an update of
    its environment. *)
Record Inspect (A I St : Type) : Type := mkInspect { ins_iter : I; ins_f : St → A → St; ins_env : St }.
Arguments mkInspect {A I St}.
Arguments ins_iter {A I St}.
Arguments ins_f {A I St}.
Arguments ins_env {A I St}.

Definition do_inspect {A I St} (it : Inspect A I St) (elt : option A) : St :=
  match elt with Some a => ins_f it (ins_env it) a | None => ins_env it end.
Definition Inspect_next {I A St} `{Iterator I A} (fuel : nat) (it : Inspect A I St)
    : outcome (option A * Inspect A I St) :=
  '(x, i) ← next fuel (ins_iter it); Ok (x, mkInspect i (ins_f it) (do_inspect it x)).
Definition Inspect_next_back {I A St} `{DoubleEndedIterator I A} (fuel : nat) (it : Inspect A I St)
    : outcome (option A * Inspect A I St) :=
  '(x, i) ← next_back fuel (ins_iter it); Ok (x, mkInspect i (ins_f it) (do_inspect it x)).

#[export] Instance Inspect_Iterator {I A St} `{Iterator I A} : Iterator (Inspect A I St) A :=
  { next := Inspect_next; size_hint it := size_hint (ins_iter it) }.
#[export] Instance Inspect_DoubleEnded {I A St} `{DoubleEndedIterator I A}
    : DoubleEndedIterator (Inspect A I St) A := Inspect_next_back.

Record Unfold (A St : Type) : Type := mkUnfold { unfold_f : St → St * option A; unfold_state : St }.
Arguments mkUnfold {A St}.
Arguments unfold_f {A St}.
Arguments unfold_state {A St}.

Definition Unfold_next {A St} (fuel : nat) (it : Unfold A St) : outcome (option A * Unfold A St) :=
  let '(st, x) := unfold_f it (unfold_state it) in Ok (x, mkUnfold (unfold_f it) st).

#[export] Instance Unfold_Iterator {A St} : Iterator (Unfold A St) A :=
  { next := Unfold_next; size_hint _ := (0, None) }.

Record Cycle (I : Type) : Type := mkCycle { cycle_orig : I; cycle_iter : I }.
Arguments mkCycle {I}.
Arguments cycle_orig {I}.
Arguments cycle_iter {I}.

Definition cycle {I} (it : I) : Cycle I := mkCycle it it.
Definition Cycle_next {I A} `{Iterator I A} (fuel : nat) (it : Cycle I) : outcome (option A * Cycle I) :=
  '(x, i) ← next fuel (cycle_iter it);
  match x with
  | None => '(y, i) ← next fuel (cycle_orig it); Ok (y, mkCycle (cycle_orig it) i)
  | Some x => Ok (Some x, mkCycle (cycle_orig it) i)
  end.
Definition Cycle_size_hint {I A} `{Iterator I A} (it : Cycle I) : N * option N :=
  match size_hint (cycle_orig it) with
  | (0, Some 0) => (0, Some 0)
  | (0, _) => (0, None)
  | _ => (UINT_MAX, None)
  end.
Definition Cycle_indexable {I A} `{RandomAccessIterator I A} (it : Cycle I) : N :=
  if 0 <? indexable (cycle_orig it) then UINT_MAX else 0.
Definition Cycle_idx {I A} `{RandomAccessIterator I A} (it : Cycle I) (index : N) : option A :=
  let liter := indexable (cycle_iter it) in
  let lorig := indexable (cycle_orig it) in
  if lorig =? 0 then None
  else if index <? liter then idx (cycle_iter it) index
  else idx (cycle_orig it) ((index - liter) mod lorig).

#[export] Instance Cycle_Iterator {I A} `{Iterator I A} : Iterator (Cycle I) A :=
  { next := Cycle_next; size_hint := Cycle_size_hint }.
#[export] Instance Cycle_RandomAccess {I A} `{RandomAccessIterator I A} : RandomAccessIterator (Cycle I) A :=
  { indexable := Cycle_indexable; idx := Cycle_idx }.

(** * Consumers *)
Section consumers.
Context {I A : Type} `{Iterator I A}.

(** [Vec::from_iter], the [collect] of a vector. *)
Definition collect (fuel : nat) (it : I) : outcome (list A * I) :=
  fell_through <$> for_ fuel it [] (λ l x, inl (l ++ [x])).

Definition iter_fold {B} (fuel : nat) (it : I) (init : B) (f : B → A → B) : outcome (B * I) :=
  fell_through <$> for_ fuel it init (λ acc x, inl (f acc x)).

Definition iter_len (fuel : nat) (it : I) : outcome (N * I) := iter_fold fuel it 0 (λ cnt _, uadd cnt 1).

Definition iter_last (fuel : nat) (it : I) : outcome (option A * I) := iter_fold fuel it None (λ _ x, Some x).

Fixpoint nth_loop (fuel : nat) (it : I) (n : N) : outcome (option A * I) :=
  match fuel with
  | O => Fail OutOfFuel
  | S fuel =>
      '(x, it) ← next fuel it;
      match x with
      | Some x => if n =? 0 then Ok (Some x, it) else nth_loop fuel it (usub n 1)
      | None => Ok (None, it)
      end
  end.

(** [all] and [advance]; [any] *)
Definition iter_all (fuel : nat) (it : I) (f : A → bool) : outcome (bool * I) :=
  '(r, it) ← for_ fuel it tt (λ _ x, if f x then inl tt else inr tt);
  Ok (match r with inl _ => true | inr _ => false end, it).
Definition iter_any (fuel : nat) (it : I) (f : A → bool) : outcome (bool * I) :=
  '(r, it) ← for_ fuel it tt (λ _ x, if f x then inr tt else inl tt);
  Ok (match r with inl _ => false | inr _ => true end, it).
Definition iter_advance (fuel : nat) (it : I) (f : A → bool) : outcome (bool * I) :=
  '(r, it) ← for_ fuel it tt (λ _ x, if negb (f x) then inr tt else inl tt);
  Ok (match r with inl _ => true | inr _ => false end, it).

Definition iter_find (fuel : nat) (it : I) (p : A → bool) : outcome (option A * I) :=
  r ← for_ fuel it tt (keep_if p); Ok (returned r).
Definition iter_position (fuel : nat) (it : I) (p : A → bool) : outcome (option N * I) :=
  r ← for_ fuel it 0 (λ i x, if p x then inr i else inl (uadd i 1)); Ok (returned r).
Definition iter_count (fuel : nat) (it : I) (p : A → bool) : outcome (N * I) :=
  iter_fold fuel it 0 (λ i x, if p x then uadd i 1 else i).

Definition max_step {B} (cmp : B → B → comparison) (f : A → B) (max : option (A * B)) (x : A) : option (A * B) :=
  let x_val := f x in
  match max with
  | None => Some (x, x_val)
  | Some (y, y_val) => match cmp x_val y_val with Gt => Some (x, x_val) | _ => Some (y, y_val) end
  end.
Definition max_by {B} (cmp : B → B → comparison) (fuel : nat) (it : I) (f : A → B) : outcome (option A * I) :=
  '(m, it) ← iter_fold fuel it None (max_step cmp f); Ok (option_map fst m, it).
Definition min_step {B} (cmp : B → B → comparison) (f : A → B) (min : option (A * B)) (x : A) : option (A * B) :=
  let x_val := f x in
  match min with
  | None => Some (x, x_val)
  | Some (y, y_val) => match cmp x_val y_val with Lt => Some (x, x_val) | _ => Some (y, y_val) end
  end.
Definition min_by {B} (cmp : B → B → comparison) (fuel : nat) (it : I) (f : A → B) : outcome (option A * I) :=
  '(m, it) ← iter_fold fuel it None (min_step cmp f); Ok (option_map fst m, it).
End consumers.

(** [ExactSize::rposition] *)
Definition rposition {I A} `{Iterator I A, DoubleEndedIterator I A} (fuel : nat) (it : I) (p : A → bool)
    : outcome (option N * I) :=
  let '(lower, upper) := size_hint it in
  _ ← assert_ (bool_decide (upper = Some lower));
  '(r, it) ← for_back fuel it lower
    (λ i x, if i =? 0 then inr None else if p x then inr (Some (i - 1)) else inl (i - 1));
  match r with
  | inl _ => Ok (None, it)
  | inr (Some i) => Ok (Some i, it)
  | inr None => Fail ExplicitFail
  end.

(** [OrdIterator] *)
Inductive MinMaxResult (A : Type) : Type :=
| NoElements
| OneElement (x : A)
| MinMax (x y : A).
Arguments NoElements {A}.
Arguments OneElement {A}.
Arguments MinMax {A}.

Definition into_option {A} (r : MinMaxResult A) : option (A * A) :=
  match r with
  | NoElements => None
  | OneElement x => Some (x, x)
  | MinMax x y => Some (x, y)
  end.

Section ord.
Context {I A : Type} `{Iterator I A} (cmp : A → A → comparison).

Definition is_lt (a b : A) : bool := match cmp a b with Lt => true | _ => false end.
Definition is_gt (a b : A) : bool := match cmp a b with Gt => true | _ => false end.

(** [cmp::max] and [cmp::min] *)
Definition cmp_max (v1 v2 : A) : A := if is_gt v1 v2 then v1 else v2.
Definition cmp_min (v1 v2 : A) : A := if is_lt v1 v2 then v1 else v2.

Definition iter_max (fuel : nat) (it : I) : outcome (option A * I) :=
  iter_fold fuel it None (λ max x, match max with None => Some x | Some y => Some (cmp_max x y) end).
Definition iter_min (fuel : nat) (it : I) : outcome (option A * I) :=
  iter_fold fuel it None (λ min x, match min with None => Some x | Some y => Some (cmp_min x y) end).

Fixpoint min_max_loop (fuel : nat) (it : I) (min max : A) : outcome (MinMaxResult A * I) :=
  match fuel with
  | O => Fail OutOfFuel
  | S fuel =>
      '(x, it) ← next fuel it;
      match x with
      | None => Ok (MinMax min max, it)
      | Some first =>
          '(y, it) ← next fuel it;
          match y with
          | None =>
              if is_lt first min then Ok (MinMax first max, it)
              else if is_gt first max then Ok (MinMax min first, it)
              else Ok (MinMax min max, it)
          | Some second =>
              if is_lt first second then
                min_max_loop fuel it (if is_lt first min then first else min)
                  (if is_lt max second then second else max)
              else
                min_max_loop fuel it (if is_lt second min then second else min)
                  (if is_lt max first then first else max)
          end
      end
  end.

Definition min_max (fuel : nat) (it : I) : outcome (MinMaxResult A * I) :=
  '(x, it) ← next fuel it;
  match x with
  | None => Ok (NoElements, it)
  | Some x =>
      '(y, it) ← next fuel it;
      match y with
      | None => Ok (OneElement x, it)
      | Some y => if is_lt x y then min_max_loop fuel it x y else min_max_loop fuel it y x
      end
  end.
End ord.

(** * [mod order]: lexicographic comparison of two iterators *)
Section order.
Context {T U A : Type} `{Iterator T A, Iterator U A}.

(** The loop over both iterators: [ends] is the answer where one has ended,
    and [body] may answer for a pair. *)
Fixpoint order_loop {R} (fuel : nat) (a : T) (b : U) (both_end a_ends b_ends : R) (body : A → A → option R)
    : outcome R :=
  match fuel with
  | O => Fail OutOfFuel
  | S fuel =>
      '(x, a) ← next fuel a;
      '(y, b) ← next fuel b;
      match x, y with
      | None, None => Ok both_end
      | None, Some _ => Ok a_ends
      | Some _, None => Ok b_ends
      | Some x, Some y =>
          match body x y with
          | Some r => Ok r
          | None => order_loop fuel a b both_end a_ends b_ends body
          end
      end
  end.

Definition order_equals (eqb : A → A → bool) (fuel : nat) (a : T) (b : U) : outcome bool :=
  order_loop fuel a b true false false (λ x y, if eqb x y then None else Some false).
Definition order_ne (eqb : A → A → bool) (fuel : nat) (a : T) (b : U) : outcome bool :=
  order_loop fuel a b false true true (λ x y, if eqb x y then None else Some true).
Definition order_cmp (cmp : A → A → comparison) (fuel : nat) (a : T) (b : U) : outcome comparison :=
  order_loop fuel a b Eq Lt Gt (λ x y, match cmp x y with Eq => None | c => Some c end).
Definition order_lt (eqb ltb : A → A → bool) (fuel : nat) (a : T) (b : U) : outcome bool :=
  order_loop fuel a b false true false (λ x y, if eqb x y then None else Some (ltb x y)).
Definition order_le (eqb leb : A → A → bool) (fuel : nat) (a : T) (b : U) : outcome bool :=
  order_loop fuel a b true true false (λ x y, if eqb x y then None else Some (leb x y)).
Definition order_gt (eqb gtb : A → A → bool) (fuel : nat) (a : T) (b : U) : outcome bool :=
  order_loop fuel a b false false true (λ x y, if eqb x y then None else Some (gtb x y)).
Definition order_ge (eqb geb : A → A → bool) (fuel : nat) (a : T) (b : U) : outcome bool :=
  order_loop fuel a b true false true (λ x y, if eqb x y then None else Some (geb x y)).
End order.

(** * The methods of [Iterator] that build adaptors *)
Section methods.
Context {I A : Type}.

Definition iter_chain {U} (it : I) (other : U) : Chain I U := mkChain it other false.
Definition iter_zip {U} (it : I) (other : U) : Zip I U := mkZip it other.
Definition iter_map {B} (it : I) (f : A → B) : Map A B I := mkMap it f.
Definition iter_filter (it : I) (p : A → bool) : Filter A I := mkFilter it p.
Definition iter_filter_map {B} (it : I) (f : A → option B) : FilterMap A B I := mkFilterMap it f.
Definition iter_enumerate (it : I) : Enumerate I := mkEnumerate it 0.
Definition iter_peekable (it : I) : Peekable A I := mkPeekable it None.
Definition iter_skip_while (it : I) (p : A → bool) : SkipWhile A I := mkSkipWhile it false p.
Definition iter_take_while (it : I) (p : A → bool) : TakeWhile A I := mkTakeWhile it false p.
Definition iter_skip (it : I) (n : N) : Skip I := mkSkip it n.
Definition iter_take (it : I) (n : N) : Take I := mkTake it n.
Definition iter_scan {B St} (it : I) (initial_state : St) (f : St → A → St * option B) : Scan A B I St :=
  mkScan it f initial_state.
Definition iter_flat_map {U} (it : I) (f : A → U) : FlatMap A I U := mkFlatMap it f None None.
Definition iter_fuse (it : I) : Fuse I := mkFuse it false.
Definition iter_inspect {St} (it : I) (env : St) (f : St → A → St) : Inspect A I St := mkInspect it f env.
Definition iter_rev (it : I) : Rev I := mkRev it.
End methods.
