(* ===== verification/IterOk.v ===== *)
(** What the iterators of [Iter] promise: the list of the elements still to
    come.  [IteratorOk] states the contract of [Iterator] (after the end the
    iterator stays at the end), [DoubleEndedOk], [ExactSizeOk] and
    [RandomAccessOk] those of the other traits; every adaptor is shown to meet
    its contract when the iterators under it do. *)
From stdpp Require Import base list.
From Stdlib Require Import NArith Lia.
From S2P Require Import Prelude Iter.
Local Open Scope N_scope.
Local Open Scope model_scope.

(** * The contracts *)
Definition hint_fits (h : N * option N) (n : nat) : Prop :=
  h.1 ≤ N.of_nat n ∧ match h.2 with Some hi => N.of_nat n ≤ hi | None => True end.

Class IteratorOk (I A : Type) `{!Iterator I A} : Type := {
  models : I → list A → Prop;
  next_ok it l : models it l → ∃ it', (λ fuel, next fuel it) ⇓ (head l, it') ∧ models it' (tail l);
  hint_ok it l : models it l → hint_fits (size_hint it) (length l)
}.

Class DoubleEndedOk (I A : Type) `{!Iterator I A, !IteratorOk I A, !DoubleEndedIterator I A} : Prop :=
  next_back_ok it l :
    models it l → ∃ it', (λ fuel, next_back fuel it) ⇓ (last l, it') ∧ models it' (removelast l).

Class ExactSizeOk (I A : Type) `{!Iterator I A, !IteratorOk I A} : Prop :=
  exact_ok it l : models it l → size_hint it = (N.of_nat (length l), Some (N.of_nat (length l))).

(** An iterator that can be indexed has at most [uint::MAX] elements. *)
Class RandomAccessOk (I A : Type) `{!Iterator I A, !IteratorOk I A, !RandomAccessIterator I A} : Prop := {
  bounded_ok it l : models it l → N.of_nat (length l) ≤ UINT_MAX;
  indexable_ok it l : models it l → indexable it = N.of_nat (length l);
  idx_ok it l i : models it l → i ≤ UINT_MAX → idx it i = l !! N.to_nat i
}.

(** Runs the first computation of a goal [_ ⇓ _] by the hypothesis [H]. *)
Ltac run H := eapply ends_bind; [exact H|]; cbv beta iota.

(** * Loops *)
Section loops.
Context {A S R : Type} (body : S → A → S + R).

Fixpoint for_list (s : S) (l : list A) : (S + R) * list A :=
  match l with
  | [] => (inl s, [])
  | x :: l => match body s x with inl s' => for_list s' l | inr r => (inr r, l) end
  end.

Lemma for_ok {I} `{IteratorOk I A} it l s :
  models it l →
  ∃ it', (λ fuel, for_ fuel it s body) ⇓ ((for_list s l).1, it') ∧ models it' (for_list s l).2.
Proof.
  revert it s. induction l as [|x l IH]; intros it s (it' & Hn & Hm)%next_ok; cbn [for_list head tail] in *.
  - exists it'. split; [|done]. eapply ends_S; [done|]. run Hn. apply ends_ret.
  - destruct (body s x) as [s'|r] eqn:E.
    + destruct (IH it' s' Hm) as (it'' & Hf & Hm'). exists it''. split; [|done].
      eapply ends_S; [done|]. run Hn. by rewrite E.
    + exists it'. split; [|done]. eapply ends_S; [done|]. run Hn. rewrite E. apply ends_ret.
Qed.

Lemma for_back_ok {I} `{DoubleEndedOk I A} it l s :
  models it l →
  ∃ it', (λ fuel, for_back fuel it s body) ⇓ ((for_list s (rev l)).1, it') ∧
    models it' (rev (for_list s (rev l)).2).
Proof.
  revert it s. induction l as [|x l IH] using rev_ind; intros it s (it' & Hn & Hm)%next_back_ok.
  - exists it'. split; [|done]. eapply ends_S; [done|]. run Hn. apply ends_ret.
  - rewrite rev_unit. rewrite last_snoc in Hn. rewrite removelast_last in Hm. cbn [for_list].
    destruct (body s x) as [s'|r] eqn:E.
    + destruct (IH it' s' Hm) as (it'' & Hf & Hm'). exists it''. split; [|done].
      eapply ends_S; [done|]. run Hn. by rewrite E.
    + exists it'. cbn [fst snd]. rewrite rev_involutive. split; [|done].
      eapply ends_S; [done|]. run Hn. rewrite E. apply ends_ret.
Qed.
End loops.

(** * The adaptors *)
#[export] Instance Items_ok A : IteratorOk (Items A) A.
Proof.
  refine {| models it l := rest it = l ∧ N.of_nat (length l) ≤ UINT_MAX |}.
  - intros it l [<- Hl]. exists (mkItems (tail (rest it))). split; [apply ends_ret|].
    split; [done|]. destruct (rest it); simpl in *; lia.
  - intros it l [<- _]. unfold hint_fits. simpl. lia.
Defined.
#[export] Instance Items_back_ok A : DoubleEndedOk (Items A) A.
Proof.
  intros it l [<- Hl]. exists (mkItems (removelast (rest it))). split; [apply ends_ret|].
  split; [done|]. destruct (rest it) as [|x l _] using rev_ind; [done|].
  rewrite removelast_last. rewrite length_app in Hl. lia.
Qed.
#[export] Instance Items_exact A : ExactSizeOk (Items A) A.
Proof. by intros it l [<- _]. Qed.
#[export] Instance Items_random A : RandomAccessOk (Items A) A.
Proof. split; [by intros it l [_ ?]|by intros it l [<- _]|by intros it l i [<- _]]. Qed.

Lemma last_rev {A} (l : list A) : last (rev l) = head l.
Proof. destruct l; [done|]. simpl. by rewrite last_snoc. Qed.

Lemma removelast_rev {A} (l : list A) : removelast (rev l) = rev (tail l).
Proof. destruct l; [done|]. simpl. by rewrite removelast_last. Qed.

Lemma head_rev {A} (l : list A) : head (rev l) = last l.
Proof. rewrite <- last_rev. by rewrite rev_involutive. Qed.

Lemma tail_rev {A} (l : list A) : tail (rev l) = rev (removelast l).
Proof. rewrite <- (rev_involutive l) at 2. by rewrite removelast_rev, rev_involutive. Qed.

Lemma length_tail_N {A} (l : list A) : l ≠ [] → N.of_nat (length (tail l)) + 1 = N.of_nat (length l).
Proof. destruct l; simpl; [done|lia]. Qed.

#[export] Instance Rev_ok {I A} `{DoubleEndedOk I A} : IteratorOk (Rev I) A.
Proof.
  refine {| models it l := models (rev_iter it) (rev l) |}.
  - intros [it] l (it' & Hn & Hm)%next_back_ok. rewrite last_rev in Hn. rewrite removelast_rev in Hm.
    exists (mkRev it'). split; [run Hn; apply ends_ret|done].
  - intros [it] l Hm%hint_ok. by rewrite length_rev in Hm.
Defined.
#[export] Instance Rev_back_ok {I A} `{DoubleEndedOk I A} : DoubleEndedOk (Rev I) A.
Proof.
  intros [it] l H'. destruct (next_ok it (rev l) H') as (it' & Hn & Hm). rewrite head_rev in Hn. rewrite tail_rev in Hm.
  exists (mkRev it'). split; [run Hn; apply ends_ret|done].
Qed.
#[export] Instance Rev_exact {I A} `{DoubleEndedOk I A, !ExactSizeOk I A} : ExactSizeOk (Rev I) A.
Proof. intros [it] l H'. rewrite <- length_rev. exact (exact_ok it (rev l) H'). Qed.
#[export] Instance Rev_random {I A} `{DoubleEndedOk I A, !RandomAccessIterator I A, !RandomAccessOk I A}
  : RandomAccessOk (Rev I) A.
Proof.
  assert (∀ it l, models (mkRev it) l → indexable it = N.of_nat (length l)) as Hi.
  { intros it l Hm. rewrite <- length_rev. by apply indexable_ok. }
  assert (∀ it l, models (mkRev it) l → N.of_nat (length l) ≤ UINT_MAX) as Hb.
  { intros it l Hm. rewrite <- length_rev. by apply (bounded_ok it). }
  split; [intros [it] l; apply Hb|intros [it] l; apply Hi|].
  intros [it] l i Hm Hi'. pose proof (Hb it l Hm) as Hl. simpl. unfold Rev_idx. cbn [rev_iter].
  rewrite (Hi it l) by done. destruct (decide (i < N.of_nat (length l))).
  - rewrite (usub_small _ i), usub_small by lia. rewrite (idx_ok it (rev l)) by (done || lia).
    rewrite (rev_alt l : _ = reverse l), reverse_lookup by lia. f_equal. lia.
  - rewrite (idx_ok it (rev l)) by (done || apply usub_le).
    rewrite !lookup_ge_None_2; [done|lia|]. rewrite length_rev.
    destruct (decide (i = N.of_nat (length l))) as [->|].
    + rewrite (usub_small (N.of_nat _)), N.sub_diag, usub_wraps by (done || lia). lia.
    + rewrite (usub_wraps (N.of_nat _)), usub_small by lia. lia.
Qed.

Lemma saturating_add_le a b : saturating_add a b ≤ a + b.
Proof. unfold saturating_add. lia. Qed.

Lemma hint_fits_add h1 h2 n m :
  hint_fits h1 n → hint_fits h2 m →
  hint_fits (saturating_add h1.1 h2.1, add_upper h1.2 h2.2) (n + m).
Proof.
  destruct h1 as [l1 u1], h2 as [l2 u2]. intros [L1 U1] [L2 U2]. cbn [fst snd] in *.
  pose proof (saturating_add_le l1 l2). split; cbn [fst snd]; [lia|].
  destruct u1, u2; simpl in *; try done. unfold checked_add. destruct (_ <=? _); [lia|done].
Qed.

Lemma last_app_ne {A} (l1 l2 : list A) : l2 ≠ [] → last (l1 ++ l2) = last l2.
Proof. intros H. destruct l2 as [|x l2 _] using rev_ind; [done|]. by rewrite app_assoc, !last_snoc. Qed.

#[export] Instance Chain_ok {T U A} `{IteratorOk T A, IteratorOk U A} : IteratorOk (Chain T U) A.
Proof.
  refine {| models it l := ∃ la lb, models (chain_a it) la ∧ models (chain_b it) lb ∧ l = la ++ lb ∧
    (chain_flag it = true → la = []) |}.
  - intros [a b flag] l (la & lb & Ha & Hb & -> & Hf). cbn [chain_a chain_b chain_flag next Chain_Iterator] in *.
    unfold Chain_next. cbn [chain_a chain_b chain_flag].
    destruct (next_ok b lb Hb) as (b' & Hn & Hb'). destruct flag.
    { rewrite (Hf eq_refl) in *. exists (mkChain a b' true). split; [run Hn; apply ends_ret|]. by exists [], (tail lb). }
    destruct (next_ok a la Ha) as (a' & Hna & Ha'). destruct la as [|x la]; simpl in *.
    + exists (mkChain a' b' true). split; [run Hna; run Hn; apply ends_ret|]. by exists [], (tail lb).
    + exists (mkChain a' b false). split; [run Hna; apply ends_ret|]. by exists la, lb.
  - intros [a b flag] l (la & lb & Ha%hint_ok & Hb%hint_ok & -> & _).
    cbn [chain_a chain_b size_hint Chain_Iterator] in *. unfold Chain_size_hint. cbn [chain_a chain_b].
    destruct (size_hint a), (size_hint b). rewrite length_app. exact (hint_fits_add _ _ _ _ Ha Hb).
Defined.
#[export] Instance Chain_back_ok {T U A} `{DoubleEndedOk T A, DoubleEndedOk U A} : DoubleEndedOk (Chain T U) A.
Proof.
  intros [a b flag] l (la & lb & Ha & Hb & -> & Hf). cbn [chain_a chain_b chain_flag] in *.
  unfold next_back at 1, Chain_DoubleEnded, Chain_next_back. cbn [chain_a chain_b chain_flag].
  destruct (next_back_ok b lb Hb) as (b' & Hn & Hb'). destruct (decide (lb = [])) as [->|Hne].
  - destruct (next_back_ok a la Ha) as (a' & Hna & Ha'). exists (mkChain a' b' flag). rewrite app_nil_r.
    split; [run Hn; run Hna; apply ends_ret|]. exists (removelast la), []. split_and!; try done.
    + by rewrite app_nil_r.
    + intros ->%Hf. done.
  - exists (mkChain a b' flag). rewrite last_app_ne by done. rewrite removelast_app by done. split.
    + run Hn. destruct (last lb) eqn:E; [apply ends_ret|by apply last_None in E].
    + by exists la, (removelast lb).
Qed.
(** A chain can be indexed while its length fits a [uint]. *)
Lemma Chain_idx_ok {T U A}
    `{IteratorOk T A, !RandomAccessIterator T A, !RandomAccessOk T A,
      IteratorOk U A, !RandomAccessIterator U A, !RandomAccessOk U A} (it : Chain T U) l i :
  models it l → N.of_nat (length l) ≤ UINT_MAX → i ≤ UINT_MAX →
  indexable it = N.of_nat (length l) ∧ idx it i = l !! N.to_nat i.
Proof.
  destruct it as [a b flag]. intros (la & lb & Ha & Hb & -> & _) Hl Hi. simpl in *.
  unfold Chain_indexable, Chain_idx. simpl. rewrite length_app in *.
  rewrite (indexable_ok a la), (indexable_ok b lb) by done. split; [unfold saturating_add; lia|].
  destruct (N.ltb_spec i (N.of_nat (length la))).
  - rewrite (idx_ok a la), lookup_app_l by (done || lia). done.
  - rewrite usub_small, (idx_ok b lb), lookup_app_r by (done || lia). f_equal. lia.
Qed.

#[export] Instance Zip_ok {T U A B} `{IteratorOk T A, IteratorOk U B} : IteratorOk (Zip T U) (A * B).
Proof.
  refine {| models it l := ∃ la lb, models (zip_a it) la ∧ models (zip_b it) lb ∧ l = zip la lb |}.
  - intros [a b] l (la & lb & Ha & Hb & ->). cbn [zip_a zip_b next Zip_Iterator] in *.
    unfold Zip_next. cbn [zip_a zip_b].
    destruct (next_ok b lb Hb) as (b' & Hn & Hb'), (next_ok a la Ha) as (a' & Hna & Ha').
    destruct la as [|x la]; cbn [head tail] in *.
    + exists (mkZip a' b). split; [run Hna; apply ends_ret|]. by exists [], lb.
    + exists (mkZip a' b'). split.
      * run Hna. run Hn. destruct lb; apply ends_ret.
      * exists la, (tail lb). split_and!; try done. by destruct lb, la.
  - intros [a b] l (la & lb & [La Ua]%hint_ok & [Lb Ub]%hint_ok & ->).
    cbn [zip_a zip_b size_hint Zip_Iterator] in *. unfold Zip_size_hint, hint_fits. cbn [zip_a zip_b].
    destruct (size_hint a) as [? []], (size_hint b) as [? []]; cbn [fst snd] in *; rewrite length_zip_with; lia.
Defined.
#[export] Instance Zip_exact {T U A B} `{IteratorOk T A, !ExactSizeOk T A, IteratorOk U B, !ExactSizeOk U B}
  : ExactSizeOk (Zip T U) (A * B).
Proof.
  intros [a b] l (la & lb & Ha & Hb & ->). cbn [size_hint Zip_Iterator zip_a zip_b] in *. unfold Zip_size_hint.
  cbn [zip_a zip_b]. rewrite (exact_ok a la Ha), (exact_ok b lb Hb), length_zip_with. repeat f_equal; lia.
Qed.

Lemma drop_back_ok {I A} `{DoubleEndedOk I A} it l n :
  models it l → ∃ it', (λ fuel, drop_back fuel n it) ⇓ it' ∧ models it' (take (length l - n) l).
Proof.
  revert it l. induction n as [|n IH]; intros it l Hm.
  - exists it. rewrite Nat.sub_0_r, firstn_all. split; [apply ends_ret|done].
  - destruct (next_back_ok it l Hm) as (it' & Hn & Hm'). destruct (IH it' _ Hm') as (it'' & Hd & Hm'').
    exists it''. split; [by run Hn|]. destruct l as [|x l _] using rev_ind; [done|].
    rewrite removelast_last in Hm''. rewrite length_app. simpl. rewrite take_app_le by lia.
    by replace (length l + 1 - S n)%nat with (length l - n)%nat by lia.
Qed.

(** Cutting the longer of two iterators to the length of the other. *)
Lemma trim_back_ok {I A} `{DoubleEndedOk I A} it l m :
  models it l →
  ∃ it', (λ fuel, if m <? N.of_nat (length l)
      then drop_back fuel (N.to_nat (N.of_nat (length l) - m)) it else Ok it) ⇓ it' ∧
    models it' (take (N.to_nat m) l).
Proof.
  intros Hm. destruct (N.ltb_spec m (N.of_nat (length l))).
  - destruct (drop_back_ok it l (N.to_nat (N.of_nat (length l) - m)) Hm) as (it' & ? & Hm'). exists it'. split; [done|].
    by replace (length l - N.to_nat (N.of_nat (length l) - m))%nat with (N.to_nat m) in Hm' by lia.
  - exists it. split; [apply ends_ret|]. rewrite take_ge by lia. done.
Qed.

Lemma zip_take {A B} (la : list A) (lb : list B) n m :
  (length la `min` length lb ≤ n)%nat → (length la `min` length lb ≤ m)%nat →
  zip (take n la) (take m lb) = zip la lb.
Proof.
  revert lb n m. induction la as [|x la IH]; intros [|y lb] [|n] [|m] H1 H2; simpl in *; try done; try lia.
  f_equal. apply IH; lia.
Qed.

Lemma zip_snoc_last {A B} (la : list A) (lb : list B) :
  length la = length lb →
  last (zip la lb) = match last la, last lb with Some x, Some y => Some (x, y) | _, _ => None end ∧
  removelast (zip la lb) = zip (removelast la) (removelast lb).
Proof.
  intros Hl. destruct la as [|x la _] using rev_ind; destruct lb as [|y lb _] using rev_ind;
    rewrite ?length_app in Hl; simpl in Hl; try lia; [done|].
  rewrite zip_with_app by lia. simpl. by rewrite !last_snoc, !removelast_last.
Qed.

#[export] Instance Zip_back_ok {T U A B}
  `{DoubleEndedOk T A, !ExactSizeOk T A, DoubleEndedOk U B, !ExactSizeOk U B} : DoubleEndedOk (Zip T U) (A * B).
Proof.
  intros [a b] l (la & lb & Ha & Hb & ->). cbn [zip_a zip_b] in *.
  unfold next_back at 1, Zip_DoubleEnded, Zip_next_back. cbn [zip_a zip_b].
  rewrite (exact_ok a la Ha), (exact_ok b lb Hb), !bool_decide_true by done.
  destruct (trim_back_ok a la (N.of_nat (length lb)) Ha) as (a1 & Ha1 & Ma1).
  destruct (trim_back_ok b lb (N.of_nat (length la)) Hb) as (b1 & Hb1 & Mb1). rewrite Nat2N.id in *.
  assert (length (take (length lb) la) = length (take (length la) lb)) as Hl by (rewrite !length_take; lia).
  destruct (next_back_ok a1 _ Ma1) as (a2 & Hna & Ma2), (next_back_ok b1 _ Mb1) as (b2 & Hnb & Mb2).
  destruct (zip_snoc_last (take (length lb) la) (take (length la) lb) Hl) as [El Er]. rewrite zip_take in El, Er by lia.
  exists (mkZip a2 b2). rewrite El, Er. split; [|by exists (removelast (take (length lb) la)), (removelast (take (length la) lb))].
  eapply ends_bind; [apply ends_ret|]. eapply ends_bind; [apply ends_ret|]. run Ha1. run Hb1.
  rewrite (exact_ok a1 _ Ma1), (exact_ok b1 _ Mb1), Hl, N.eqb_refl.
  eapply ends_bind; [apply ends_ret|]. run Hna. run Hnb.
  destruct (last (take _ la)), (last (take _ lb)); apply ends_ret.
Qed.

#[export] Instance Map_ok {I A B} `{IteratorOk I A} : IteratorOk (Map A B I) B.
Proof.
  refine {| models it l := ∃ la, models (map_iter it) la ∧ l = map_f it <$> la |}.
  - intros [i f] l (la & Ha & ->). destruct (next_ok i la Ha) as (i' & Hn & Ha').
    exists (mkMap i' f). split; [run Hn|exists (tail la); by destruct la]. destruct la; apply ends_ret.
  - intros [i f] l (la & Ha%hint_ok & ->). by rewrite length_fmap.
Defined.
#[export] Instance Map_back_ok {I A B} `{DoubleEndedOk I A} : DoubleEndedOk (Map A B I) B.
Proof.
  intros [i f] l (la & Ha & ->). destruct (next_back_ok i la Ha) as (i' & Hn & Ha').
  exists (mkMap i' f). split; [run Hn; rewrite fmap_last; destruct (last la); apply ends_ret|].
  exists (removelast la). split; [done|]. destruct la as [|x la _] using rev_ind; [done|].
  rewrite fmap_app. cbn [fmap list_fmap]. by rewrite !removelast_last.
Qed.
#[export] Instance Map_exact {I A B} `{IteratorOk I A, !ExactSizeOk I A} : ExactSizeOk (Map A B I) B.
Proof. intros [i f] l (la & Ha & ->). rewrite length_fmap. exact (exact_ok i la Ha). Qed.
#[export] Instance Map_random {I A B} `{IteratorOk I A, !RandomAccessIterator I A, !RandomAccessOk I A}
  : RandomAccessOk (Map A B I) B.
Proof.
  split; intros [i f] l.
  - intros (la & Ha & ->). rewrite length_fmap. exact (bounded_ok i la Ha).
  - intros (la & Ha & ->). rewrite length_fmap. exact (indexable_ok i la Ha).
  - intros j (la & Ha & ->) Hj. simpl. unfold Map_idx. simpl.
    rewrite (idx_ok i la), list_lookup_fmap by done. by destruct (la !! _).
Qed.

(** [Filter] and [FilterMap] run the loop up to the first element kept. *)
Lemma for_keep_some {A B} (f : A → option B) l :
  let r := for_list (keep_some f) tt l in
  r.1 = match head (omap f l) with Some y => inr y | None => inl tt end ∧ omap f r.2 = tail (omap f l).
Proof.
  induction l as [|x l IH]; [done|]. cbn [for_list]. unfold keep_some at 1 3.
  cbn [omap list_omap]. by destruct (f x).
Qed.

Lemma for_keep_if {A} (p : A → bool) l :
  let r := for_list (keep_if p) tt l in
  r.1 = match head (List.filter p l) with Some y => inr y | None => inl tt end ∧
  List.filter p r.2 = tail (List.filter p l).
Proof.
  induction l as [|x l IH]; [done|]. cbn [for_list List.filter]. unfold keep_if at 1 3. by destruct (p x).
Qed.

Lemma filter_rev {A} (p : A → bool) l : List.filter p (rev l) = rev (List.filter p l).
Proof.
  induction l as [|x l IH]; [done|]. simpl. rewrite List.filter_app, IH. simpl.
  destruct (p x); simpl; [done|by rewrite app_nil_r].
Qed.

Lemma omap_rev {A B} (f : A → option B) l : omap f (rev l) = rev (omap f l).
Proof.
  induction l as [|x l IH]; [done|]. simpl. rewrite omap_app, IH. simpl.
  destruct (f x); simpl; [done|by rewrite app_nil_r].
Qed.

Lemma upper_only_fits h n m : (m ≤ n)%nat → hint_fits h n → hint_fits (upper_only h) m.
Proof. destruct h as [lo [hi|]]; intros ? [? ?]; split; simpl in *; try done; lia. Qed.

Lemma length_filter_le' {A} (p : A → bool) l : (length (List.filter p l) ≤ length l)%nat.
Proof. induction l as [|x l IH]; simpl; [done|]. destruct (p x); simpl; lia. Qed.

Lemma length_omap_le {A B} (f : A → option B) l : (length (omap f l) ≤ length l)%nat.
Proof. induction l as [|x l IH]; [done|]. change (omap f l) with (list_omap _ _ f l) in IH. simpl. destruct (f x); simpl; lia. Qed.

#[export] Instance Filter_ok {I A} `{IteratorOk I A} : IteratorOk (Filter A I) A.
Proof.
  refine {| models it l := ∃ la, models (filter_iter it) la ∧ l = List.filter (predicate it) la |}.
  - intros [i p] l (la & Ha & ->). cbn [filter_iter predicate] in *.
    destruct (for_ok (keep_if p) i la tt Ha) as (i' & Hn & Ha'). destruct (for_keep_if p la) as [E1 E2].
    exists (mkFilter i' p). split; [|by exists (for_list (keep_if p) tt la).2]. run Hn. rewrite E1.
    destruct (head _); apply ends_ret.
  - intros [i p] l (la & Ha%hint_ok & ->). eapply upper_only_fits; [apply length_filter_le'|done].
Defined.
#[export] Instance Filter_back_ok {I A} `{DoubleEndedOk I A} : DoubleEndedOk (Filter A I) A.
Proof.
  intros [i p] l (la & Ha & ->). cbn [filter_iter predicate] in *.
  destruct (for_back_ok (keep_if p) i la tt Ha) as (i' & Hn & Ha'). destruct (for_keep_if p (rev la)) as [E1 E2].
  rewrite filter_rev, head_rev in E1. rewrite filter_rev, tail_rev in E2.
  exists (mkFilter i' p). split.
  - run Hn. rewrite E1. destruct (last _); apply ends_ret.
  - eexists. split; [exact Ha'|]. cbn [predicate]. by rewrite filter_rev, E2, rev_involutive.
Qed.

#[export] Instance FilterMap_ok {I A B} `{IteratorOk I A} : IteratorOk (FilterMap A B I) B.
Proof.
  refine {| models it l := ∃ la, models (fm_iter it) la ∧ l = omap (fm_f it) la |}.
  - intros [i f] l (la & Ha & ->). cbn [fm_iter fm_f] in *.
    destruct (for_ok (keep_some f) i la tt Ha) as (i' & Hn & Ha'). destruct (for_keep_some f la) as [E1 E2].
    exists (mkFilterMap i' f). split; [|by exists (for_list (keep_some f) tt la).2]. run Hn. rewrite E1.
    destruct (head _); apply ends_ret.
  - intros [i f] l (la & Ha%hint_ok & ->). eapply upper_only_fits; [apply length_omap_le|done].
Defined.
#[export] Instance FilterMap_back_ok {I A B} `{DoubleEndedOk I A} : DoubleEndedOk (FilterMap A B I) B.
Proof.
  intros [i f] l (la & Ha & ->). cbn [fm_iter fm_f] in *.
  destruct (for_back_ok (keep_some f) i la tt Ha) as (i' & Hn & Ha'). destruct (for_keep_some f (rev la)) as [E1 E2].
  rewrite omap_rev, head_rev in E1. rewrite omap_rev, tail_rev in E2.
  exists (mkFilterMap i' f). split.
  - run Hn. rewrite E1. destruct (last _); apply ends_ret.
  - eexists. split; [exact Ha'|]. cbn [fm_f]. by rewrite omap_rev, E2, rev_involutive.
Qed.

(** [Enumerate] counts from [c], modulo [2^64]. *)
Definition enumerate_list {A} (c : N) (l : list A) : list (N * A) := imap (λ i x, (uadd c (N.of_nat i), x)) l.

Lemma enumerate_list_cons {A} c (x : A) l :
  c ≤ UINT_MAX → enumerate_list c (x :: l) = (c, x) :: enumerate_list (uadd c 1) l.
Proof.
  intros Hc. unfold enumerate_list. simpl. f_equal; [by rewrite uadd_small, N.add_0_r by lia|].
  apply imap_ext. intros i y _. simpl. f_equal. rewrite uadd_assoc. f_equal. lia.
Qed.

Lemma enumerate_list_snoc {A} c (x : A) l :
  enumerate_list c (l ++ [x]) = enumerate_list c l ++ [(uadd c (N.of_nat (length l)), x)].
Proof. unfold enumerate_list. rewrite imap_app. simpl. by rewrite Nat.add_0_r. Qed.

#[export] Instance Enumerate_ok {I A} `{IteratorOk I A} : IteratorOk (Enumerate I) (N * A).
Proof.
  refine {| models it l := ∃ la, models (enum_iter it) la ∧ enum_count it ≤ UINT_MAX ∧
    l = enumerate_list (enum_count it) la |}.
  - intros [i c] l (la & Ha & Hc & ->). cbn [enum_iter enum_count] in *.
    destruct (next_ok i la Ha) as (i' & Hn & Ha'). destruct la as [|x la]; cbn [head tail] in *.
    + exists (mkEnumerate i' c). split; [run Hn; apply ends_ret|]. by exists [].
    + rewrite enumerate_list_cons by done. exists (mkEnumerate i' (uadd c 1)). split; [run Hn; apply ends_ret|].
      exists la. split_and!; try done. apply uadd_le.
  - intros [i c] l (la & Ha%hint_ok & Hc & ->). unfold enumerate_list. by rewrite length_imap.
Defined.
#[export] Instance Enumerate_exact {I A} `{IteratorOk I A, !ExactSizeOk I A} : ExactSizeOk (Enumerate I) (N * A).
Proof.
  intros [i c] l (la & Ha & Hc & ->). unfold enumerate_list. rewrite length_imap. exact (exact_ok i la Ha).
Qed.
#[export] Instance Enumerate_back_ok {I A} `{DoubleEndedOk I A, !ExactSizeOk I A}
  : DoubleEndedOk (Enumerate I) (N * A).
Proof.
  intros [i c] l (la & Ha & Hc & ->). cbn [enum_iter enum_count] in *.
  destruct (next_back_ok i la Ha) as (i' & Hn & Ha'). exists (mkEnumerate i' c).
  destruct la as [|x la _] using rev_ind.
  { split; [run Hn; apply ends_ret|]. by exists []. }
  rewrite enumerate_list_snoc, last_snoc, removelast_last. rewrite last_snoc in Hn. rewrite removelast_last in Ha'.
  split; [|by exists la]. run Hn. cbn [enum_iter]. rewrite (exact_ok i' la Ha'), bool_decide_true by done.
  eapply ends_bind; apply ends_ret.
Qed.

#[export] Instance Zip_random {T U A B}
  `{IteratorOk T A, !RandomAccessIterator T A, !RandomAccessOk T A,
    IteratorOk U B, !RandomAccessIterator U B, !RandomAccessOk U B} : RandomAccessOk (Zip T U) (A * B).
Proof.
  split; intros [a b] l.
  - intros (la & lb & Ha & Hb & ->). rewrite length_zip_with. pose proof (bounded_ok a la Ha). lia.
  - intros (la & lb & Ha & Hb & ->). simpl in *. unfold Zip_indexable. simpl.
    rewrite (indexable_ok a la), (indexable_ok b lb), length_zip_with by done. lia.
  - intros i (la & lb & Ha & Hb & ->) Hi. simpl in *. unfold Zip_idx. simpl.
    rewrite (idx_ok a la), (idx_ok b lb), lookup_zip_with by done. by destruct (la !! _), (lb !! _).
Qed.

#[export] Instance Enumerate_random {I A} `{IteratorOk I A, !RandomAccessIterator I A, !RandomAccessOk I A}
  : RandomAccessOk (Enumerate I) (N * A).
Proof.
  split; intros [i c] l.
  - intros (la & Ha & Hc & ->). unfold enumerate_list. rewrite length_imap. exact (bounded_ok i la Ha).
  - intros (la & Ha & Hc & ->). unfold enumerate_list. rewrite length_imap. exact (indexable_ok i la Ha).
  - intros j (la & Ha & Hc & ->) Hj. unfold enumerate_list.
    simpl in *. unfold Enumerate_idx. simpl. rewrite (idx_ok i la), list_lookup_imap by done.
    destruct (la !! _); simpl; [|done]. by rewrite N2Nat.id.
Qed.

(** [Peekable] may hold the next element back. *)
#[export] Instance Peekable_ok {I A} `{IteratorOk I A} : IteratorOk (Peekable A I) A.
Proof.
  refine {| models it l := ∃ la, models (peek_iter it) la ∧ l = option_list (peeked it) ++ la |}.
  - intros [i [x|]] l (la & Ha & ->); cbn [peek_iter peeked] in *.
    + exists (mkPeekable i None). split; [apply ends_ret|]. by exists la.
    + destruct (next_ok i la Ha) as (i' & Hn & Ha'). exists (mkPeekable i' None).
      split; [run Hn; apply ends_ret|]. by exists (tail la).
  - intros [i o] l (la & Ha%hint_ok & ->). cbn [size_hint Peekable_Iterator peek_iter peeked] in *.
    unfold Peekable_size_hint. cbn [peek_iter peeked]. destruct (size_hint i) as [lo hi], o; [|done].
    rewrite length_app, Nat.add_comm.
    apply (hint_fits_add (lo, hi) (1, Some 1)); [done|]. by split.
Defined.

(** [peek] shows the next element and leaves the sequence as it is. *)
Lemma peek_ok {I A} `{IteratorOk I A} (it : Peekable A I) l :
  models it l → ∃ it', (λ fuel, peek fuel it) ⇓ (head l, it') ∧ models it' l.
Proof.
  destruct it as [i [x|]]; intros (la & Ha & ->); cbn [peek_iter peeked] in *.
  - exists (mkPeekable i (Some x)). split; [apply ends_ret|]. by exists la.
  - destruct (next_ok i la Ha) as (i' & Hn & Ha'). exists (mkPeekable i' (head la)).
    split; [run Hn; apply ends_ret|]. exists (tail la). split; [done|]. by destruct la.
Qed.

Fixpoint skip_while {A} (p : A → bool) (l : list A) : list A :=
  match l with [] => [] | x :: l' => if p x then skip_while p l' else l end.
Fixpoint take_while {A} (p : A → bool) (l : list A) : list A :=
  match l with [] => [] | x :: l' => if p x then x :: take_while p l' else [] end.

Lemma for_skip_while {A} (p : A → bool) l :
  for_list (keep_if (λ x, negb (p x))) tt l =
  (match head (skip_while p l) with Some x => inr x | None => inl tt end, tail (skip_while p l)).
Proof. induction l as [|x l IH]; [done|]. cbn [for_list skip_while]. unfold keep_if at 1. by destruct (p x). Qed.

Lemma length_skip_while {A} (p : A → bool) l : (length (skip_while p l) ≤ length l)%nat.
Proof. induction l as [|x l IH]; simpl; [done|]. destruct (p x); simpl; lia. Qed.
Lemma length_take_while {A} (p : A → bool) l : (length (take_while p l) ≤ length l)%nat.
Proof. induction l as [|x l IH]; simpl; [done|]. destruct (p x); simpl; lia. Qed.

#[export] Instance SkipWhile_ok {I A} `{IteratorOk I A} : IteratorOk (SkipWhile A I) A.
Proof.
  refine {| models it l := ∃ la, models (sw_iter it) la ∧
    l = if sw_flag it then la else skip_while (sw_predicate it) la |}.
  - intros [i [] p] l (la & Ha & ->); cbn [sw_iter sw_flag sw_predicate] in *.
    + destruct (next_ok i la Ha) as (i' & Hn & Ha'). exists (mkSkipWhile i' true p).
      split; [run Hn; apply ends_ret|]. by exists (tail la).
    + destruct (for_ok (keep_if (λ x, negb (p x))) i la tt Ha) as (i' & Hn & Ha').
      rewrite for_skip_while in Hn, Ha'. cbn [fst snd] in *.
      exists (mkSkipWhile i' (is_some (head (skip_while p la))) p). split.
      * run Hn. destruct (head _); apply ends_ret.
      * exists (tail (skip_while p la)). split; [done|]. by destruct (skip_while p la).
  - intros [i f p] l (la & Ha%hint_ok & ->). eapply upper_only_fits; [|done].
    cbn [sw_iter sw_flag sw_predicate]. destruct f; [done|]. apply length_skip_while.
Defined.

#[export] Instance TakeWhile_ok {I A} `{IteratorOk I A} : IteratorOk (TakeWhile A I) A.
Proof.
  refine {| models it l := ∃ la, models (tw_iter it) la ∧
    l = if tw_flag it then [] else take_while (tw_predicate it) la |}.
  - intros [i [] p] l (la & Ha & ->); cbn [tw_iter tw_flag tw_predicate] in *.
    + exists (mkTakeWhile i true p). split; [apply ends_ret|]. by exists la.
    + destruct (next_ok i la Ha) as (i' & Hn & Ha'). destruct la as [|x la]; cbn [head tail take_while] in *.
      * exists (mkTakeWhile i' false p). split; [run Hn; apply ends_ret|]. by exists [].
      * exists (mkTakeWhile i' (negb (p x)) p). split; [|by exists la; destruct (p x)].
        run Hn. cbn [tw_predicate]. destruct (p x); apply ends_ret.
  - intros [i f p] l (la & Ha%hint_ok & ->). eapply upper_only_fits; [|done].
    cbn [tw_iter tw_flag tw_predicate]. destruct f; [simpl; lia|]. apply length_take_while.
Defined.

Lemma skip_loop_ok {I A} `{IteratorOk I A} n it l :
  models it (tail l) →
  ∃ it', (λ fuel, skip_loop fuel n (head l) it) ⇓ (head (drop n l), it') ∧ models it' (tail (drop n l)).
Proof.
  revert it l. induction n as [|n IH]; intros it [|x l] Hm; cbn [head tail skip_loop drop] in *.
  1-3: exists it; split; [apply ends_ret|done].
  destruct (next_ok it l Hm) as (it' & Hn & Hm'). destruct (IH it' l Hm') as (it'' & Hs & Hm'').
  exists it''. split; [by run Hn|done].
Qed.

#[export] Instance Skip_ok {I A} `{IteratorOk I A} : IteratorOk (Skip I) A.
Proof.
  refine {| models it l := ∃ la, models (skip_iter it) la ∧ l = drop (N.to_nat (skip_n it)) la |}.
  - intros [i n] l (la & Ha & ->). cbn [skip_iter skip_n] in *. destruct (next_ok i la Ha) as (i' & Hn & Ha').
    destruct (skip_loop_ok (N.to_nat n) i' la Ha') as (i'' & Hs & Ha'').
    destruct (decide (n = 0)) as [->|Hne].
    + exists (mkSkip i' 0). split; [run Hn; apply ends_ret|]. exists (tail la). by destruct la.
    + exists (mkSkip i'' 0). split; [|by exists (tail (drop (N.to_nat n) la))].
      run Hn. cbn [skip_n]. rewrite (proj2 (N.eqb_neq _ _) Hne). run Hs. apply ends_ret.
  - intros [i n] l (la & [L U]%hint_ok & ->). cbn [size_hint Skip_Iterator skip_iter skip_n] in *.
    unfold Skip_size_hint, hint_fits. cbn [skip_iter skip_n]. destruct (size_hint i) as [lo [hi|]];
      cbn [fst snd] in *; unfold saturating_sub; rewrite length_drop; lia.
Defined.
#[export] Instance Skip_exact {I A} `{IteratorOk I A, !ExactSizeOk I A} : ExactSizeOk (Skip I) A.
Proof.
  intros [i n] l (la & Ha & ->). cbn [size_hint Skip_Iterator skip_iter skip_n] in *. unfold Skip_size_hint.
  cbn [skip_iter skip_n]. rewrite (exact_ok i la Ha), length_drop. unfold saturating_sub. repeat f_equal; lia.
Qed.
#[export] Instance Skip_random {I A} `{IteratorOk I A, !RandomAccessIterator I A, !RandomAccessOk I A}
  : RandomAccessOk (Skip I) A.
Proof.
  split; intros [i n] l.
  - intros (la & Ha & ->). pose proof (bounded_ok i la Ha). rewrite length_drop. lia.
  - intros (la & Ha & ->). simpl in *. unfold Skip_indexable, saturating_sub. simpl.
    rewrite (indexable_ok i la), length_drop by done. lia.
  - intros j (la & Ha & ->) Hj. simpl in *. unfold Skip_idx, Skip_indexable, saturating_sub. simpl.
    pose proof (bounded_ok i la Ha). rewrite (indexable_ok i la), lookup_drop by done.
    destruct (N.leb_spec (N.of_nat (length la) - n) j).
    + by rewrite lookup_ge_None_2 by lia.
    + rewrite uadd_small, (idx_ok i la) by (done || lia). f_equal. lia.
Qed.

#[export] Instance Take_ok {I A} `{IteratorOk I A} : IteratorOk (Take I) A.
Proof.
  refine {| models it l := ∃ la, models (take_iter it) la ∧ l = take (N.to_nat (take_n it)) la |}.
  - intros [i n] l (la & Ha & ->). cbn [take_iter take_n next Take_Iterator] in *. unfold Take_next.
    cbn [take_iter take_n]. destruct (N.eqb_spec n 0) as [->|Hne].
    + exists (mkTake i 0). split; [apply ends_ret|]. by exists la.
    + destruct (next_ok i la Ha) as (i' & Hn & Ha'). exists (mkTake i' (n - 1)).
      replace (N.to_nat n) with (S (N.to_nat (n - 1))) by lia.
      split; [run Hn; by destruct la; apply ends_ret|]. exists (tail la). split; [done|]. destruct la; simpl; by rewrite ?take_nil.
  - intros [i n] l (la & [L U]%hint_ok & ->). cbn [size_hint Take_Iterator take_iter take_n] in *.
    unfold Take_size_hint, hint_fits. cbn [take_iter take_n]. destruct (size_hint i) as [lo [hi|]];
      cbn [fst snd] in *; rewrite length_take; [destruct (N.ltb_spec hi n)|]; lia.
Defined.
#[export] Instance Take_exact {I A} `{IteratorOk I A, !ExactSizeOk I A} : ExactSizeOk (Take I) A.
Proof.
  intros [i n] l (la & Ha & ->). cbn [size_hint Take_Iterator take_iter take_n] in *. unfold Take_size_hint.
  cbn [take_iter take_n]. rewrite (exact_ok i la Ha), length_take.
  destruct (N.ltb_spec (N.of_nat (length la)) n); repeat f_equal; lia.
Qed.
#[export] Instance Take_random {I A} `{IteratorOk I A, !RandomAccessIterator I A, !RandomAccessOk I A}
  : RandomAccessOk (Take I) A.
Proof.
  split; intros [i n] l.
  - intros (la & Ha & ->). pose proof (bounded_ok i la Ha). rewrite length_take. lia.
  - intros (la & Ha & ->). simpl in *. unfold Take_indexable. simpl.
    rewrite (indexable_ok i la), length_take by done. lia.
  - intros j (la & Ha & ->) Hj. simpl in *. unfold Take_idx. simpl. destruct (N.leb_spec n j).
    + by rewrite lookup_take_ge by lia.
    + by rewrite (idx_ok i la), lookup_take_lt by (done || lia).
Qed.

#[export] Instance Inspect_ok {I A St} `{IteratorOk I A} : IteratorOk (Inspect A I St) A.
Proof.
  refine {| models it l := models (ins_iter it) l |}.
  - intros [i f st] l Ha. destruct (next_ok i l Ha) as (i' & Hn & Ha'). eexists (mkInspect i' f _).
    split; [run Hn; apply ends_ret|done].
  - intros [i f st] l Ha. exact (hint_ok i l Ha).
Defined.
#[export] Instance Inspect_back_ok {I A St} `{DoubleEndedOk I A} : DoubleEndedOk (Inspect A I St) A.
Proof.
  intros [i f st] l Ha. destruct (next_back_ok i l Ha) as (i' & Hn & Ha'). eexists (mkInspect i' f _).
  split; [run Hn; apply ends_ret|done].
Qed.
#[export] Instance Inspect_exact {I A St} `{IteratorOk I A, !ExactSizeOk I A} : ExactSizeOk (Inspect A I St) A.
Proof. intros [i f st] l Ha. exact (exact_ok i l Ha). Qed.

(** ** Iterators that may go on after their end

    [yields it l]: up to its first [None] the iterator gives [l]. *)
Inductive yields {I A} `{Iterator I A} : I → list A → Prop :=
| yields_nil it it' :
    hint_fits (size_hint it) 0 → (λ fuel, next fuel it) ⇓ (None, it') → yields it []
| yields_cons it it' x l :
    hint_fits (size_hint it) (S (length l)) → (λ fuel, next fuel it) ⇓ (Some x, it') → yields it' l →
    yields it (x :: l).

Lemma models_yields {I A} `{IteratorOk I A} it l : models it l → yields it l.
Proof.
  revert it. induction l as [|x l IH]; intros it Hm;
    destruct (next_ok it _ Hm) as (it' & Hn & Hm'); apply hint_ok in Hm.
  - by apply (yields_nil it it').
  - apply (yields_cons it it'); [done..|by apply IH].
Qed.

Fixpoint scan_list {A B St} (f : St → A → St * option B) (st : St) (l : list A) : list B :=
  match l with
  | [] => []
  | x :: l => match f st x with (st', Some y) => y :: scan_list f st' l | (_, None) => [] end
  end.

(** [Scan] stops at the first [None] of its function, but a further call
    resumes after it. *)
Lemma Scan_yields {I A B St} `{IteratorOk I A} (i : I) (f : St → A → St * option B) st la :
  models i la → yields (mkScan i f st) (scan_list f st la).
Proof.
  revert i st. induction la as [|x la IH]; intros i st Ha;
    pose proof (hint_ok i _ Ha) as Hh; destruct (next_ok i _ Ha) as (i' & Hn & Ha'); cbn [head tail scan_list] in *.
  - eapply (yields_nil _ (mkScan i' f st)); [by eapply upper_only_fits|]. run Hn. apply ends_ret.
  - destruct (f st x) as [st' [y|]] eqn:E.
    + eapply (yields_cons _ (mkScan i' f st')); [|run Hn; cbn [scan_f scan_state]; rewrite E; apply ends_ret|by apply IH].
      eapply upper_only_fits; [|done]. simpl. clear. revert st'. induction la as [|z la IH]; intros st'; [done|].
      simpl. destruct (f st' z) as [st'' []]; simpl; [|lia]. specialize (IH st''). lia.
    + eapply (yields_nil _ (mkScan i' f st')); [eapply upper_only_fits; [|done]; lia|].
      run Hn. cbn [scan_f scan_state]. rewrite E. apply ends_ret.
Qed.

(** [Fuse] needs no contract of the iterator under it. *)
#[export] Instance Fuse_ok {I A} `{Iterator I A} : IteratorOk (Fuse I) A.
Proof.
  refine {| models it l := if fuse_done it then l = [] else yields (fuse_iter it) l |}.
  - intros [i []] l; cbn [fuse_iter fuse_done next Fuse_Iterator]; unfold Fuse_next; cbn [fuse_iter fuse_done].
    + intros ->. exists (mkFuse i true). split; [apply ends_ret|done].
    + destruct 1 as [it it' Hh Hn|it it' x l Hh Hn Hy].
      * exists (mkFuse it' true). split; [run Hn; apply ends_ret|done].
      * exists (mkFuse it' false). split; [run Hn; apply ends_ret|done].
  - intros [i []] l; cbn [fuse_iter fuse_done size_hint Fuse_Iterator]; unfold Fuse_size_hint; cbn [fuse_iter fuse_done].
    + intros ->. by split.
    + by destruct 1.
Defined.

(** ** [FlatMap] *)
Section flat_map.
Context {I A U B : Type} `{IteratorOk I A, IteratorOk U B}.

Definition opt_models (o : option U) (l : list B) : Prop :=
  match o with Some u => models u l | None => l = [] end.

Lemma opt_next_ok o l :
  opt_models o l → ∃ o', (λ fuel, opt_next next fuel o) ⇓ (head l, o') ∧ opt_models o' (tail l).
Proof using Type.
  destruct o as [u|]; cbn [opt_models opt_next].
  - intros (u' & Hn & Hm)%next_ok. exists (Some u'). split; [run Hn; apply ends_ret|done].
  - intros ->. exists None. split; [apply ends_ret|done].
Qed.

Definition flat_models (it : FlatMap A I U) (l : list B) : Prop :=
  ∃ lf la ls lb, opt_models (frontiter it) lf ∧ models (flat_iter it) la ∧
    Forall2 (λ a, models (flat_f it a)) la ls ∧ opt_models (backiter it) lb ∧ l = lf ++ concat ls ++ lb.

Lemma FlatMap_next_ok it l :
  flat_models it l → ∃ it', (λ fuel, FlatMap_next fuel it) ⇓ (head l, it') ∧ flat_models it' (tail l).
Proof using Type.
  destruct it as [i f fr ba]. intros (lf & la & ls & lb & Hf & Ha & Hls & Hb & ->). cbn [flat_iter flat_f frontiter backiter] in *.
  revert i fr lf la Hf Ha Hls. induction ls as [|l1 ls IH]; intros i fr lf la Hf Ha Hls;
    destruct (opt_next_ok fr lf Hf) as (fr' & Hnf & Hf'); destruct (next_ok i la Ha) as (i' & Hn & Ha').
  all: destruct lf as [|y lf]; cbn [head tail] in *;
    [|exists (mkFlatMap i f fr' ba); split;
      [eapply ends_S; [done|]; cbn [frontiter]; run Hnf; apply ends_ret|by eexists lf, la, _, lb]].
  - apply Forall2_nil_inv_r in Hls as ->. destruct (opt_next_ok ba lb Hb) as (ba' & Hnb & Hb').
    exists (mkFlatMap i' f fr' ba'). split; [|by exists [], [], [], (tail lb)].
    eapply ends_S; [done|]. cbn [frontiter flat_iter backiter]. run Hnf. run Hn. run Hnb. apply ends_ret.
  - apply Forall2_cons_inv_r in Hls as (a & la' & Hm1 & Hls & ->). cbn [head tail] in *.
    destruct (IH i' (Some (f a)) l1 la' Hm1 Ha' Hls) as (it' & Hn' & Hm'). exists it'. cbn [concat app]. rewrite <- app_assoc.
    split; [|done]. eapply ends_S; [done|]. cbn [frontiter flat_iter]. run Hnf. run Hn. done.
Qed.

Lemma opt_hint_ok o l : opt_models o l → hint_fits (opt_hint o) (length l).
Proof using Type. destruct o as [u|]; simpl; [apply hint_ok|]. by intros ->. Qed.

Lemma FlatMap_hint_ok it l : flat_models it l → hint_fits (FlatMap_size_hint it) (length l).
Proof using Type.
  destruct it as [i f fr ba]. intros (lf & la & ls & lb & Hf%opt_hint_ok & Ha%hint_ok & Hls & Hb%opt_hint_ok & ->).
  cbn [flat_iter flat_f frontiter backiter] in *. unfold FlatMap_size_hint. cbn [flat_iter flat_f frontiter backiter].
  destruct (opt_hint fr) as [flo fhi], (opt_hint ba) as [blo bhi], (size_hint i) as [lo hi].
  pose proof (hint_fits_add _ _ _ _ Hf Hb) as [L U']. cbn [fst snd] in *. rewrite !length_app.
  assert (hint_fits (saturating_add flo blo, None) (length lf + (length (concat ls) + length lb))) as Hd.
  { split; simpl; [lia|done]. }
  destruct lo; [|done]. destruct hi as [[|]|]; try done. destruct fhi as [a|], bhi as [b|]; try done.
  destruct Ha as [_ Ha]. simpl in Ha. destruct la; [|simpl in Ha; lia]. inversion Hls; subst. by split.
Qed.
End flat_map.

#[export] Instance FlatMap_ok {I A U B} `{IteratorOk I A, IteratorOk U B} : IteratorOk (FlatMap A I U) B.
Proof.
  refine {| models := flat_models (I:=I) (A:=A) (U:=U) (B:=B) |}; [apply FlatMap_next_ok|apply FlatMap_hint_ok].
Defined.

Lemma opt_next_back_ok {U B} `{DoubleEndedOk U B} (o : option U) (l : list B) :
  opt_models o l → ∃ o', (λ fuel, opt_next next_back fuel o) ⇓ (last l, o') ∧ opt_models o' (removelast l).
Proof.
  destruct o as [u|]; cbn [opt_models opt_next].
  - intros (u' & Hn & Hm)%next_back_ok. exists (Some u'). split; [run Hn; apply ends_ret|done].
  - intros ->. exists None. split; [apply ends_ret|done].
Qed.

#[export] Instance FlatMap_back_ok {I A U B} `{DoubleEndedOk I A, DoubleEndedOk U B} : DoubleEndedOk (FlatMap A I U) B.
Proof.
  intros [i f fr ba] l (lf & la & ls & lb & Hf & Ha & Hls & Hb & ->). cbn [flat_iter flat_f frontiter backiter] in *.
  unfold next_back at 1, FlatMap_DoubleEnded.
  revert i ba lb la Hb Ha Hls. induction ls as [|l1 ls IH] using rev_ind; intros i ba lb la Hb Ha Hls;
    destruct (opt_next_back_ok ba lb Hb) as (ba' & Hnb & Hb'); destruct (next_back_ok i la Ha) as (i' & Hn & Ha').
  all: destruct lb as [|y lb _] using rev_ind;
    [|rewrite !app_assoc, last_snoc, removelast_last, <- app_assoc; rewrite last_snoc in Hnb; rewrite removelast_last in Hb';
      exists (mkFlatMap i f fr ba'); split;
      [eapply ends_S; [done|]; cbn [backiter]; run Hnb; apply ends_ret|by eexists lf, la, _, lb]].
  - apply Forall2_nil_inv_r in Hls as ->. destruct (opt_next_back_ok fr lf Hf) as (fr' & Hnf & Hf').
    simpl. rewrite app_nil_r. exists (mkFlatMap i' f fr' ba'). split.
    + eapply ends_S; [done|]. cbn [frontiter flat_iter backiter]. run Hnb. run Hn. run Hnf. apply ends_ret.
    + exists (removelast lf), [], [], []. simpl. by rewrite app_nil_r.
  - apply Forall2_app_inv_r in Hls as (la' & ? & Hls & (a & ? & Hm1 & ->%Forall2_nil_inv_r & ->)%Forall2_cons_inv_r & ->).
    rewrite last_snoc in Hn. rewrite removelast_last in Ha'.
    destruct (IH i' (Some (f a)) l1 la' Hm1 Ha' Hls) as (it' & Hn' & Hm'). exists it'.
    rewrite concat_app. simpl. rewrite !app_nil_r.
    split; [|done]. eapply ends_S; [done|]. cbn [backiter flat_iter]. run Hnb. run Hn. done.
Qed.
