(* ===== verification/IterLaws.v ===== *)
(** The iterators of [libstd/iter.rs] compute the list functions they stand
    for: every adaptor, forwards and backwards, and every consuming method. *)
From stdpp Require Import base list.
From Stdlib Require Import NArith Lia.
From S2P Require Import Prelude Iter IterOk.
Local Open Scope N_scope.
Local Open Scope model_scope.

(** [collect] into a vector gives [l], and [size_hint] bounds its length. *)
Definition gives {I A} `{Iterator I A} (it : I) (l : list A) : Prop :=
  (λ fuel, fst <$> collect fuel it) ⇓ l ∧ hint_fits (size_hint it) (length l).

Lemma for_list_fold {A S R} (f : S → A → S) s l :
  for_list (R:=R) (λ s x, inl (f s x)) s l = (inl (fold_left f l s), []).
Proof. revert s. induction l as [|x l IH]; intros s; [done|]. apply IH. Qed.

Lemma fold_left_snoc {A} (l acc : list A) : fold_left (λ l x, l ++ [x]) l acc = acc ++ l.
Proof. revert acc. induction l as [|x l IH]; intros acc; simpl; [by rewrite app_nil_r|]. rewrite IH. by rewrite <- app_assoc. Qed.

(** The value a consumer computes, forgetting the iterator it leaves. *)
Definition computes {V I} (c : nat → outcome (V * I)) (v : V) : Prop := (λ fuel, fst <$> c fuel) ⇓ v.

Lemma computes_intro {V I} (c : nat → outcome (V * I)) v it : c ⇓ (v, it) → computes c v.
Proof. apply ends_fmap. Qed.

(** The index of the first element that passes. *)
Fixpoint index_of {A} (p : A → bool) (l : list A) : option nat :=
  match l with [] => None | x :: l => if p x then Some O else S <$> index_of p l end.

Section consumers.
Context {I A : Type} `{IteratorOk I A}.
Implicit Types (it : I) (l : list A).

Lemma fold_ok {B} it l (init : B) f :
  models it l → ∃ it', (λ fuel, iter_fold fuel it init f) ⇓ (fold_left f l init, it') ∧ models it' [].
Proof using Type.
  intros (it' & Hf & Hm)%(for_ok (R:=Empty_set) (λ acc x, inl (f acc x)) it l init).
  rewrite for_list_fold in Hf, Hm. exists it'. split; [|done]. exact (ends_fmap _ fell_through _ Hf).
Qed.

Lemma collect_ok it l : models it l → ∃ it', (λ fuel, collect fuel it) ⇓ (l, it') ∧ models it' [].
Proof using Type.
  intros (it' & Hf & Hm)%(fold_ok it l [] (λ l x, l ++ [x])). rewrite fold_left_snoc in Hf. by exists it'.
Qed.

Lemma gives_ok it l : models it l → gives it l.
Proof using Type.
  intros Hm. split; [|by apply hint_ok]. apply collect_ok in Hm as (it' & Hc & _). exact (ends_fmap _ fst _ Hc).
Qed.
End consumers.

(** * The adaptors *)
Section adaptors.
Context {T U C A B : Type} `{IteratorOk T A, IteratorOk U A, IteratorOk C B}.

(** C20. Each adaptor of [Iterator], run to its end, gives the list that its
    name says of the lists the underlying iterators give: [chain] the
    concatenation, [zip] the pairs up to the shorter, [filter] the elements
    that pass, [enumerate] the elements with their index modulo [2^64], [scan]
    (fused) the results up to the first [None], and so on; and its [size_hint]
    bounds the number of elements. *)
Theorem adaptors_correct (a : T) (b : U) (c : C) la lb lc (f : A → B) (p : A → bool) (g : A → option B)
    (h : A → C) lh n {St} (st : St) (k : St → A → St * option B) (w : St → A → St) :
  models a la → models b lb → models c lc → Forall2 (λ x, models (h x)) la lh →
  gives (iter_chain a b) (la ++ lb) ∧
  gives (iter_zip a c) (zip la lc) ∧
  gives (iter_map a f) (f <$> la) ∧
  gives (iter_filter a p) (List.filter p la) ∧
  gives (iter_filter_map a g) (omap g la) ∧
  gives (iter_enumerate a) (imap (λ i x, (uadd 0 (N.of_nat i), x)) la) ∧
  gives (iter_peekable a) la ∧
  gives (iter_skip_while a p) (skip_while p la) ∧
  gives (iter_take_while a p) (take_while p la) ∧
  gives (iter_skip a n) (drop (N.to_nat n) la) ∧
  gives (iter_take a n) (take (N.to_nat n) la) ∧
  gives (iter_fuse (iter_scan a st k)) (scan_list k st la) ∧
  gives (iter_flat_map a h) (concat lh) ∧
  gives (iter_inspect a st w) la.
Proof using Type.
  intros Ha Hb Hc Hh. split_and!; apply gives_ok.
  - by exists la, lb.
  - by exists la, lc.
  - by exists la.
  - by exists la.
  - by exists la.
  - by exists la.
  - by exists la.
  - by exists la.
  - by exists la.
  - by exists la.
  - by exists la.
  - by apply Scan_yields.
  - exists [], la, lh, []. by rewrite app_nil_r.
  - done.
Qed.
End adaptors.

Definition sample : Items N := mkItems [4; 1; 3].

Lemma adaptors_correct_witness :
  gives (iter_chain sample sample) [4; 1; 3; 4; 1; 3] ∧
  gives (iter_fuse (iter_scan sample 0 (λ s x, (s + x, if s <? 5 then Some (s + x) else None)))) [4; 5].
Proof.
  assert (∀ l : list N, N.of_nat (length l) ≤ UINT_MAX → models (mkItems l) l) as Hm by done.
  destruct (adaptors_correct sample sample sample [4; 1; 3] [4; 1; 3] [4; 1; 3] N.succ N.even
    (λ x, Some x) (λ x, mkItems [x; x]) [[4; 4]; [1; 1]; [3; 3]] 2
    0 (λ s x, (s + x, if s <? 5 then Some (s + x) else None)) (λ s x, s + x))
    as (? & _ & _ & _ & _ & _ & _ & _ & _ & _ & _ & ? & _).
  - by apply Hm.
  - by apply Hm.
  - by apply Hm.
  - repeat constructor; by vm_compute.
  - by split.
Defined.

(** * Iterators run from the back *)
Lemma for_rposition_list {A} (p : A → bool) l c :
  N.of_nat (length l) ≤ c →
  (for_list (λ i x, if i =? 0 then inr None else if p x then inr (Some (i - 1)) else inl (i - 1)) c l).1 =
  match index_of p l with Some j => inr (Some (c - 1 - N.of_nat j)) | None => inl (c - N.of_nat (length l)) end.
Proof.
  revert c. induction l as [|x l IH]; intros c Hc; cbn [for_list index_of length] in *; [simpl; by rewrite N.sub_0_r|].
  rewrite (proj2 (N.eqb_neq c 0)) by lia. destruct (p x); [simpl; by rewrite N.sub_0_r|].
  rewrite IH by lia. destruct (index_of p l) as [j|]; cbn [fmap option_fmap option_map].
  - by replace (c - 1 - 1 - N.of_nat j) with (c - 1 - N.of_nat (S j)) by lia.
  - by replace (c - 1 - N.of_nat (length l)) with (c - N.of_nat (S (length l))) by lia.
Qed.

Lemma rposition_ok {I A} `{DoubleEndedOk I A, !ExactSizeOk I A} it l p :
  models it l →
  computes (λ fuel, rposition fuel it p) ((λ j, N.of_nat (length l) - 1 - N.of_nat j) <$> index_of p (rev l)).
Proof.
  intros Hm. unfold rposition. rewrite (exact_ok it l Hm), bool_decide_true by done.
  destruct (for_back_ok (λ i x, if i =? 0 then inr None else if p x then inr (Some (i - 1)) else inl (i - 1))
    it l (N.of_nat (length l)) Hm) as (it' & Hf & _).
  rewrite for_rposition_list in Hf by by rewrite length_rev.
  eapply (computes_intro _ _ it'). eapply ends_bind; [apply ends_ret|]. run Hf.
  destruct (index_of p (rev l)); apply ends_ret.
Qed.

Section reversed.
Context {T U C A B : Type} `{DoubleEndedOk T A, DoubleEndedOk U A, DoubleEndedOk C B}.
Context `{!ExactSizeOk T A, !ExactSizeOk C B}.

(** Run from the back, each double-ended adaptor gives the reverse of what
    it gives forwards: [zip] first drops the excess of the longer iterator and
    [enumerate] numbers from the end; [rposition] finds the last element that
    passes. *)
Theorem reversed_correct (a : T) (b : U) (c : C) la lb lc (f : A → B) (p : A → bool) (g : A → option B)
    (h : A → C) lh {St} (st : St) (w : St → A → St) :
  models a la → models b lb → models c lc → Forall2 (λ x, models (h x)) la lh →
  gives (iter_rev a) (rev la) ∧
  gives (iter_rev (iter_chain a b)) (rev (la ++ lb)) ∧
  gives (iter_rev (iter_zip a c)) (rev (zip la lc)) ∧
  gives (iter_rev (iter_map a f)) (rev (f <$> la)) ∧
  gives (iter_rev (iter_filter a p)) (rev (List.filter p la)) ∧
  gives (iter_rev (iter_filter_map a g)) (rev (omap g la)) ∧
  gives (iter_rev (iter_enumerate a)) (rev (imap (λ i x, (uadd 0 (N.of_nat i), x)) la)) ∧
  gives (iter_rev (iter_flat_map a h)) (rev (concat lh)) ∧
  gives (iter_rev (iter_inspect a st w)) (rev la) ∧
  gives (iter_rev (iter_rev a)) la ∧
  computes (λ fuel, rposition fuel a p) ((λ j, N.of_nat (length la) - 1 - N.of_nat j) <$> index_of p (rev la)).
Proof using All.
  intros Ha Hb Hc Hh. split_and!; [..|by apply rposition_ok]; apply gives_ok; cbn [models Rev_ok rev_iter iter_rev]; rewrite ?rev_involutive.
  - done.
  - by exists la, lb.
  - by exists la, lc.
  - by exists la.
  - by exists la.
  - by exists la.
  - by exists la.
  - exists [], la, lh, []. by rewrite app_nil_r.
  - done.
  - done.
Qed.
End reversed.

Lemma reversed_correct_witness :
  gives (iter_rev (iter_zip sample (mkItems [7; 8; 9; 10]))) [(3, 9); (1, 8); (4, 7)].
Proof.
  assert (∀ l : list N, N.of_nat (length l) ≤ UINT_MAX → models (mkItems l) l) as Hm by done.
  destruct (reversed_correct sample sample (mkItems [7; 8; 9; 10]) [4; 1; 3] [4; 1; 3] [7; 8; 9; 10] N.succ N.even
    (λ x, Some x) (λ x, mkItems [x; x]) [[4; 4]; [1; 1]; [3; 3]] 0 (λ s x, s + x)) as (_ & _ & ? & _).
  - by apply Hm.
  - by apply Hm.
  - by apply Hm.
  - repeat constructor; by vm_compute.
  - done.
Defined.

(** * The consumers *)
Section consumer_loops.
Context {I A : Type} `{IteratorOk I A}.
Implicit Types (it : I) (l : list A) (p : A → bool).

Lemma fold_computes {B} it l (init : B) f :
  models it l → computes (λ fuel, iter_fold fuel it init f) (fold_left f l init).
Proof using Type. intros (it' & Hf & _)%(fold_ok it l init f). by eapply computes_intro. Qed.

Lemma fold_uadd p l c :
  c + N.of_nat (length l) ≤ UINT_MAX →
  fold_left (λ i x, if p x then uadd i 1 else i) l c = c + N.of_nat (length (List.filter p l)).
Proof using Type.
  revert c. induction l as [|x l IH]; intros c Hc; simpl in *; [lia|].
  destruct (p x); rewrite ?uadd_small by lia; rewrite IH by lia; simpl; lia.
Qed.

Lemma fold_last l o : fold_left (λ _ x, Some x) l o = match last l with Some x => Some x | None => o end.
Proof using Type.
  destruct l as [|x l _] using rev_ind; [done|]. by rewrite fold_left_app, last_snoc.
Qed.

(** A loop that leaves at the first element that satisfies [p]. *)
Lemma for_until (body : unit → A → unit + unit) p it l :
  (∀ x, body tt x = if p x then inr tt else inl tt) → models it l →
  ∃ it', (λ fuel, for_ fuel it tt body) ⇓ (if existsb p l then inr tt else inl tt, it').
Proof using Type.
  intros Hb (it' & Hf & _)%(for_ok body it l tt). exists it'.
  replace (if existsb p l then inr tt else inl tt) with (for_list body tt l).1; [done|].
  clear Hf. induction l as [|x l IH]; [done|]. cbn [for_list existsb]. rewrite Hb. by destruct (p x).
Qed.

Lemma forallb_existsb p l : forallb p l = negb (existsb (λ x, negb (p x)) l).
Proof using Type. induction l as [|x l IH]; [done|]. simpl. rewrite IH. by destruct (p x). Qed.

Lemma for_find_list p l :
  (for_list (keep_if p) tt l).1 = match List.find p l with Some x => inr x | None => inl tt end.
Proof using Type. induction l as [|x l IH]; [done|]. simpl. unfold keep_if at 1. by destruct (p x). Qed.

Lemma for_position_list p l c :
  c + N.of_nat (length l) ≤ UINT_MAX →
  match (for_list (λ i x, if p x then inr i else inl (uadd i 1)) c l).1 with
  | inl _ => None
  | inr i => Some i
  end = (λ i, c + N.of_nat i) <$> index_of p l.
Proof using Type.
  revert c. induction l as [|x l IH]; intros c Hc; [done|]. cbn [for_list index_of length] in *.
  destruct (p x); [simpl; f_equal; lia|]. rewrite uadd_small, IH by lia. rewrite <- option_fmap_compose.
  destruct (index_of p l); simpl; [f_equal; lia|done].
Qed.

Lemma nth_ok it l n :
  models it l → n ≤ UINT_MAX →
  ∃ it', (λ fuel, nth_loop fuel it n) ⇓ (l !! N.to_nat n, it') ∧ models it' (drop (S (N.to_nat n)) l).
Proof using Type.
  revert it n. induction l as [|x l IH]; intros it n (it' & Hn & Hm)%next_ok Hu; cbn [head tail] in *.
  { exists it'. split; [|done]. eapply ends_S; [done|]. run Hn. apply ends_ret. }
  destruct (decide (n = 0)) as [->|Hne].
  { exists it'. split; [|done]. eapply ends_S; [done|]. run Hn. apply ends_ret. }
  destruct (IH it' (n - 1) Hm) as (it'' & Hn' & Hm'); [lia|]. exists it''.
  replace (N.to_nat n) with (S (N.to_nat (n - 1))) by lia. split; [|done].
  eapply ends_S; [done|]. run Hn. rewrite (proj2 (N.eqb_neq _ _) Hne), usub_small by lia. done.
Qed.

(** The consumers compute what they say of the elements still to come:
    [fold] the left fold, [len] the number, [last] the last one, [nth] the
    [n]-th, leaving the iterator behind it, [all] and [advance], [any], [find]
    the first that passes, [position] its index, [count] how many pass. *)
Theorem consumers_correct {B} it l (init : B) (f : B → A → B) p n :
  models it l → N.of_nat (length l) ≤ UINT_MAX → n ≤ UINT_MAX →
  computes (λ fuel, iter_fold fuel it init f) (fold_left f l init) ∧
  computes (λ fuel, iter_len fuel it) (N.of_nat (length l)) ∧
  computes (λ fuel, iter_last fuel it) (last l) ∧
  (∃ it', (λ fuel, nth_loop fuel it n) ⇓ (l !! N.to_nat n, it') ∧ models it' (drop (S (N.to_nat n)) l)) ∧
  computes (λ fuel, iter_all fuel it p) (forallb p l) ∧
  computes (λ fuel, iter_advance fuel it p) (forallb p l) ∧
  computes (λ fuel, iter_any fuel it p) (existsb p l) ∧
  computes (λ fuel, iter_find fuel it p) (List.find p l) ∧
  computes (λ fuel, iter_position fuel it p) (N.of_nat <$> index_of p l) ∧
  computes (λ fuel, iter_count fuel it p) (N.of_nat (length (List.filter p l))).
Proof using Type.
  intros Hm Hl Hn. split_and!.
  - by apply fold_computes.
  - replace (N.of_nat (length l)) with (fold_left (λ cnt (_ : A), uadd cnt 1) l 0); [by apply fold_computes|].
    rewrite (fold_uadd (λ _, true)) by lia. by rewrite (List.forallb_filter_id (λ _, true) l) by by apply forallb_forall.
  - replace (last l) with (fold_left (λ _ x, Some x) l None); [by apply fold_computes|].
    rewrite fold_last. by destruct (last l).
  - by apply nth_ok.
  - destruct (for_until (λ _ x, if p x then inl tt else inr tt) (λ x, negb (p x)) it l) as (it' & Hf); [by intros x; destruct (p x)|done|].
    eapply (computes_intro _ _ it'). run Hf. rewrite forallb_existsb. destruct (existsb _ _); apply ends_ret.
  - destruct (for_until (λ _ x, if negb (p x) then inr tt else inl tt) (λ x, negb (p x)) it l) as (it' & Hf); [done|done|].
    eapply (computes_intro _ _ it'). run Hf. rewrite forallb_existsb. destruct (existsb _ _); apply ends_ret.
  - destruct (for_until (λ _ x, if p x then inr tt else inl tt) p it l) as (it' & Hf); [done|done|].
    eapply (computes_intro _ _ it'). run Hf. destruct (existsb _ _); apply ends_ret.
  - destruct (for_ok (keep_if p) it l tt Hm) as (it' & Hf & _). rewrite for_find_list in Hf.
    eapply (computes_intro _ _ it'). run Hf. destruct (List.find p l); apply ends_ret.
  - destruct (for_ok (λ i x, if p x then inr i else inl (uadd i 1)) it l 0 Hm) as (it' & Hf & _).
    pose proof (for_position_list p l 0) as Hp. change (λ i, 0 + N.of_nat i) with N.of_nat in Hp.
    eapply (computes_intro _ _ it'). run Hf.
    destruct (for_list _ 0 l) as [[s|i] rest]; cbn [fst returned] in *; rewrite <- Hp by lia; apply ends_ret.
  - replace (N.of_nat (length (List.filter p l))) with (fold_left (λ i x, if p x then uadd i 1 else i) l 0);
      [by apply fold_computes|]. rewrite fold_uadd; lia.
Qed.
End consumer_loops.

Lemma consumers_correct_witness :
  computes (λ fuel, iter_fold fuel sample 0 N.add) 8 ∧ computes (λ fuel, iter_position fuel sample (N.eqb 3)) (Some 2).
Proof.
  destruct (consumers_correct sample [4; 1; 3] 0 N.add (N.eqb 3) 1) as (? & _ & _ & _ & _ & _ & _ & _ & ? & _);
    [by split|by vm_compute|by vm_compute|]. by split.
Defined.
