(* ===== verification/IterOrd.v ===== *)
(** Comparisons over iterators: the extrema of [OrdIterator], [max_by] and
    [min_by], and the lexicographic orders of [mod order]. *)
From stdpp Require Import base list sets.
From Stdlib Require Import NArith Lia.
From S2P Require Import Prelude Iter IterOk IterLaws.
Local Open Scope N_scope.
Local Open Scope model_scope.

(** * Extrema *)
Section extrema.
Context {A B : Type} (cmpb : B → B → comparison) `{!TotalOrd cmpb} (f : A → B).

(** [x] is the first element of [l] with the greatest, or least, [f x]. *)
Definition first_max (x : A) (l : list A) : Prop :=
  ∃ l1 l2, l = l1 ++ x :: l2 ∧ (∀ y, y ∈ l1 → cmpb (f y) (f x) = Lt) ∧ (∀ y, y ∈ l2 → cmpb (f y) (f x) ≠ Gt).
Definition first_min (x : A) (l : list A) : Prop :=
  ∃ l1 l2, l = l1 ++ x :: l2 ∧ (∀ y, y ∈ l1 → cmpb (f y) (f x) = Gt) ∧ (∀ y, y ∈ l2 → cmpb (f y) (f x) ≠ Lt).

Lemma fold_max_step l l0 x :
  first_max x l0 →
  ∃ y, fold_left (max_step cmpb f) l (Some (x, f x)) = Some (y, f y) ∧ first_max y (l0 ++ l).
Proof using All.
  revert l0 x. induction l as [|z l IH]; intros l0 x Hx; [exists x; by rewrite app_nil_r|].
  cbn [fold_left max_step]. destruct Hx as (l1 & l2 & -> & H1 & H2).
  destruct (cmpb (f z) (f x)) eqn:E.
  3: { destruct (IH ((l1 ++ x :: l2) ++ [z]) z) as (y & Hf & Hy); [|exists y; by rewrite <- app_assoc in Hy].
    exists (l1 ++ x :: l2), []. split_and!; [done| |by intros ? ?%not_elem_of_nil].
    apply (cmp_gt_lt cmpb) in E. intros y [Hy|[->|Hy]%elem_of_cons]%elem_of_app; [|done|].
    - by eapply (cmp_le_lt cmpb); [rewrite H1|].
    - eapply (cmp_le_lt cmpb); [by apply H2|done]. }
  all: destruct (IH ((l1 ++ x :: l2) ++ [z]) x) as (y & Hf & Hy); [|exists y; by rewrite <- app_assoc in Hy].
  all: exists l1, (l2 ++ [z]); split_and!; [by rewrite <- app_assoc|done|].
  all: intros y [Hy| ->%list_elem_of_singleton]%elem_of_app; [by apply H2|by rewrite E].
Qed.
End extrema.

Lemma flip_TotalOrd {A} (cmp : A → A → comparison) `{!TotalOrd cmp} : TotalOrd (λ a b, cmp b a).
Proof.
  split.
  - intros a b. rewrite cmp_eq. split; by intros ->.
  - intros a b. apply cmp_opp.
  - intros a b c H1 H2. by eapply cmp_lt_trans.
Qed.

Lemma fold_left_ext {A S} (f g : S → A → S) l s : (∀ s x, f s x = g s x) → fold_left f l s = fold_left g l s.
Proof. intros H. revert s. induction l as [|x l IH]; intros s; simpl; [done|]. by rewrite H, IH. Qed.

Lemma min_step_flip {A B} (cmpb : B → B → comparison) `{!TotalOrd cmpb} (f : A → B) m x :
  min_step cmpb f m x = max_step (λ a b, cmpb b a) f m x.
Proof.
  destruct m as [[y v]|]; [|done]. cbn [min_step max_step]. rewrite (@cmp_opp _ cmpb _ (f x) v). by destruct (cmpb (f x) v).
Qed.

Lemma first_min_flip {A B} (cmpb : B → B → comparison) `{!TotalOrd cmpb} (f : A → B) x l :
  first_max (λ a b, cmpb b a) f x l → first_min cmpb f x l.
Proof.
  intros (l1 & l2 & -> & H1 & H2). exists l1, l2. split_and!; [done|intros y Hy..].
  - apply (cmp_gt_lt cmpb). by apply H1.
  - specialize (H2 y Hy). by rewrite (cmp_gt_lt cmpb) in H2.
Qed.

Lemma max_fold {A B} (cmpb : B → B → comparison) `{!TotalOrd cmpb} (f : A → B) l :
  match option_map fst (fold_left (max_step cmpb f) l None) with
  | Some x => first_max cmpb f x l
  | None => l = []
  end.
Proof.
  destruct l as [|x l]; [done|]. cbn [fold_left max_step].
  destruct (fold_max_step cmpb f l [x] x) as (y & -> & Hy); [|done].
  exists [], []. split_and!; [done|by intros ? ?%not_elem_of_nil..].
Qed.

Lemma min_fold {A B} (cmpb : B → B → comparison) `{!TotalOrd cmpb} (f : A → B) l :
  match option_map fst (fold_left (min_step cmpb f) l None) with
  | Some x => first_min cmpb f x l
  | None => l = []
  end.
Proof.
  rewrite (fold_left_ext _ _ _ _ (min_step_flip cmpb f)). pose proof (flip_TotalOrd cmpb) as Hflip.
  pose proof (max_fold (λ a b, cmpb b a) f l) as H. destruct (option_map _ _); [|done]. by apply first_min_flip.
Qed.

(** * Minimum and maximum at once *)
Section min_max.
Context {I A : Type} `{IteratorOk I A} (cmp : A → A → comparison) `{!TotalOrd cmp}.
Implicit Types (l : list A).

Definition le (a b : A) : Prop := cmp a b ≠ Gt.

Lemma le_refl a : le a a.
Proof using All. unfold le. by rewrite (cmp_refl cmp). Qed.

Lemma le_trans a b c : le a b → le b c → le a c.
Proof using All.
  unfold le. intros H1 H2. destruct (cmp b c) eqn:E; [apply cmp_eq in E as ->; done| |done].
  by rewrite (cmp_le_lt cmp a b c).
Qed.

Lemma is_lt_le a b : if is_lt cmp a b then le a b else le b a.
Proof using All. unfold is_lt, le. rewrite (@cmp_opp _ cmp _ a b). by destruct (cmp a b) eqn:E; rewrite ?E. Qed.

Lemma is_gt_lt a b : is_gt cmp a b = is_lt cmp b a.
Proof using All. unfold is_lt, is_gt. rewrite (@cmp_opp _ cmp _ a b). by destruct (cmp a b). Qed.

Lemma lower_le a x : let m := if is_lt cmp a x then a else x in le m a ∧ le m x.
Proof using All. simpl. pose proof (is_lt_le a x). pose proof le_refl. by destruct (is_lt cmp a x). Qed.

Lemma upper_le a y : let m := if is_lt cmp y a then a else y in le a m ∧ le y m.
Proof using All. simpl. pose proof (is_lt_le y a). pose proof le_refl. by destruct (is_lt cmp y a). Qed.

(** [x] and [y] bound the elements of [l], and are among them. *)
Definition bounds (x y : A) (l : list A) : Prop := x ∈ l ∧ y ∈ l ∧ ∀ z, z ∈ l → le x z ∧ le z y.

Lemma bounds_pair l x y a b :
  bounds x y l → le a b →
  bounds (if is_lt cmp a x then a else x) (if is_lt cmp y b then b else y) (l ++ [a; b]).
Proof using All.
  intros (Hx & Hy & Hb) Hab. destruct (lower_le a x) as [L1 L2], (upper_le b y) as [U1 U2].
  split_and!; [destruct (is_lt cmp a x); clear -Hx; set_solver|destruct (is_lt cmp y b); clear -Hy; set_solver|].
  intros z [Hz|[->|[->|?%not_elem_of_nil]%elem_of_cons]%elem_of_cons]%elem_of_app; [| | |done].
  - destruct (Hb z Hz) as [H1 H2]. split; [exact (le_trans _ _ _ L2 H1)|exact (le_trans _ _ _ H2 U2)].
  - split; [done|exact (le_trans _ _ _ Hab U1)].
  - split; [exact (le_trans _ _ _ L1 Hab)|done].
Qed.

Lemma bounds_one l x y a :
  bounds x y l → bounds (if is_lt cmp a x then a else x) (if is_lt cmp y a then a else y) (l ++ [a]).
Proof using All.
  intros Hb. destruct (bounds_pair l x y a a Hb (le_refl a)) as (H1 & H2 & H3).
  assert (∀ z, z ∈ l ++ [a; a] ↔ z ∈ l ++ [a]) as Hz by (clear; set_solver).
  rewrite Hz in H1, H2. split_and!; [done..|]. intros z ?%Hz. by apply H3.
Qed.

(** An element below the minimum is not above the maximum. *)
Lemma bounds_low l x y a : bounds x y l → is_lt cmp a x = true → is_lt cmp y a = false.
Proof using All.
  intros (Hx & _ & Hb) Ha. destruct (Hb x Hx) as [_ Hxy]. pose proof (is_lt_le a x) as Hax. rewrite Ha in Hax.
  unfold is_lt in *. destruct (cmp y a) eqn:E; try done. destruct (cmp a x) eqn:E'; try done.
  pose proof (cmp_le_lt cmp x y a Hxy E) as H'. by rewrite (@cmp_opp _ cmp _ a x), E' in H'.
Qed.

Lemma min_max_loop_ok it l l0 x y :
  models it l → bounds x y l0 →
  ∃ x' y' it', (λ fuel, min_max_loop cmp fuel it x y) ⇓ (MinMax x' y', it') ∧ bounds x' y' (l0 ++ l).
Proof using All.
  remember (length l) as n eqn:Hn. revert it l l0 x y Hn. induction (lt_wf n) as [n _ IH].
  intros it l l0 x y -> (it' & Hn & Hm)%next_ok Hb. destruct l as [|a [|b l]]; cbn [head tail] in *.
  - exists x, y, it'. rewrite app_nil_r. split; [|done]. eapply ends_S; [done|]. run Hn. apply ends_ret.
  - destruct (next_ok it' _ Hm) as (it'' & Hn' & Hm'). eexists _, _, it''. split; [|by apply bounds_one].
    eapply ends_S; [done|]. run Hn. run Hn'. rewrite is_gt_lt by done.
    destruct (is_lt cmp a x) eqn:E; [rewrite (bounds_low _ _ _ _ Hb E); apply ends_ret|].
    destruct (is_lt cmp y a); apply ends_ret.
  - destruct (next_ok it' _ Hm) as (it'' & Hn' & Hm'). cbn [head tail] in *. pose proof (is_lt_le a b) as Hab.
    destruct (is_lt cmp a b) eqn:E.
    + destruct (IH (length l) ltac:(simpl; lia) it'' l (l0 ++ [a; b]) _ _ eq_refl Hm' (bounds_pair _ _ _ _ _ Hb Hab))
        as (x' & y' & i & Hl & Hb'). rewrite <- app_assoc in Hb'. exists x', y', i. split; [|done].
      eapply ends_S; [done|]. run Hn. run Hn'. by rewrite E.
    + destruct (IH (length l) ltac:(simpl; lia) it'' l (l0 ++ [b; a]) _ _ eq_refl Hm' (bounds_pair _ _ _ _ _ Hb Hab))
        as (x' & y' & i & Hl & H1 & H2 & H3). exists x', y', i. split.
      { eapply ends_S; [done|]. run Hn. run Hn'. by rewrite E. }
      assert (∀ z, z ∈ (l0 ++ [b; a]) ++ l ↔ z ∈ l0 ++ a :: b :: l) as Hz by (clear; set_solver).
      rewrite Hz in H1, H2. split_and!; [done..|]. intros z ?%Hz. by apply H3.
Qed.

(** The result of a comparison that keeps one of its arguments. *)
Lemma fold_pick (pick : A → A → A) (R : A → A → Prop) l x :
  (∀ a b, (pick a b = a ∨ pick a b = b) ∧ R (pick a b) a ∧ R (pick a b) b) →
  (∀ a b c, R a b → R b c → R a c) → R x x →
  ∃ y, fold_left (λ m z, match m with None => Some z | Some y => Some (pick z y) end) l (Some x) = Some y ∧
    y ∈ x :: l ∧ ∀ z, z ∈ x :: l → R y z.
Proof using All.
  intros Hp Ht. revert x. induction l as [|z l IH]; intros x Hx.
  { exists x. split_and!; [done|set_solver|]. by intros z ->%list_elem_of_singleton. }
  destruct (Hp z x) as (Hor & H1 & H2). destruct (IH (pick z x)) as (y & Hf & Hin & Hy).
  { destruct Hor as [E|E]; rewrite E in *; [|done]. destruct (Hp z z) as (Hor' & H3 & _).
    by destruct Hor' as [E'|E']; rewrite E' in H3. }
  exists y. split_and!; [done| |].
  - destruct Hor as [E|E]; rewrite E in Hin; clear -Hin; set_solver.
  - assert (R y (pick z x)) as Hyp by (apply Hy; clear; set_solver).
    intros w [->|[->|Hw]%elem_of_cons]%elem_of_cons; [by eapply Ht|by eapply Ht|]. apply Hy. clear -Hw. set_solver.
Qed.

Lemma max_pick a b :
  (cmp_max cmp a b = a ∨ cmp_max cmp a b = b) ∧ le a (cmp_max cmp a b) ∧ le b (cmp_max cmp a b).
Proof using All.
  unfold cmp_max. rewrite is_gt_lt. pose proof (is_lt_le b a). pose proof (le_refl a). pose proof (le_refl b).
  destruct (is_lt cmp b a); auto.
Qed.

Lemma min_pick a b :
  (cmp_min cmp a b = a ∨ cmp_min cmp a b = b) ∧ le (cmp_min cmp a b) a ∧ le (cmp_min cmp a b) b.
Proof using All.
  unfold cmp_min. pose proof (is_lt_le a b). pose proof (le_refl a). pose proof (le_refl b).
  destruct (is_lt cmp a b); auto.
Qed.

(** [max_by] and [min_by] return the first element whose image is greatest
    or least, [max] and [min] a greatest and a least element; [min_max], which
    compares elements in pairs, returns both, telling apart the iterators of no
    and of one element. *)
Theorem extrema_correct {B} (cmpb : B → B → comparison) `{!TotalOrd cmpb} (f : A → B) it l :
  models it l →
  (∃ o, computes (λ fuel, max_by cmpb fuel it f) o ∧
     match o with Some x => first_max cmpb f x l | None => l = [] end) ∧
  (∃ o, computes (λ fuel, min_by cmpb fuel it f) o ∧
     match o with Some x => first_min cmpb f x l | None => l = [] end) ∧
  (∃ o, computes (λ fuel, iter_max cmp fuel it) o ∧
     match o with Some x => x ∈ l ∧ ∀ y, y ∈ l → le y x | None => l = [] end) ∧
  (∃ o, computes (λ fuel, iter_min cmp fuel it) o ∧
     match o with Some x => x ∈ l ∧ ∀ y, y ∈ l → le x y | None => l = [] end) ∧
  (∃ r, computes (λ fuel, min_max cmp fuel it) r ∧
     match r with
     | NoElements => l = []
     | OneElement x => l = [x]
     | MinMax x y => bounds x y l ∧ (2 ≤ length l)%nat
     end).
Proof using All.
  intros Hm. split_and!.
  - destruct (fold_ok it l None (max_step cmpb f) Hm) as (it' & Hf & _). eexists. split; [|apply (max_fold cmpb f l)].
    eapply (computes_intro _ _ it'). run Hf. apply ends_ret.
  - destruct (fold_ok it l None (min_step cmpb f) Hm) as (it' & Hf & _). eexists. split; [|apply (min_fold cmpb f l)].
    eapply (computes_intro _ _ it'). run Hf. apply ends_ret.
  - eexists. split; [by apply fold_computes|]. destruct l as [|x l]; [done|]. cbn [fold_left].
    destruct (fold_pick (cmp_max cmp) (λ a b, le b a) l x) as (y & -> & H1 & H2);
      [apply max_pick|intros a b c ??; by eapply le_trans|apply le_refl|done].
  - eexists. split; [by apply fold_computes|]. destruct l as [|x l]; [done|]. cbn [fold_left].
    destruct (fold_pick (cmp_min cmp) le l x) as (y & -> & H1 & H2);
      [apply min_pick|apply le_trans|apply le_refl|done].
  - destruct (next_ok it l Hm) as (i1 & Hn1 & Hm1). destruct l as [|x l]; cbn [head tail] in *.
    { exists NoElements. split; [|done]. eapply (computes_intro _ _ i1). run Hn1. apply ends_ret. }
    destruct (next_ok i1 l Hm1) as (i2 & Hn2 & Hm2). destruct l as [|y l]; cbn [head tail] in *.
    { exists (OneElement x). split; [|done]. eapply (computes_intro _ _ i2). run Hn1. run Hn2. apply ends_ret. }
    pose proof (is_lt_le x y) as Hxy. pose proof (le_refl x). pose proof (le_refl y).
    assert (bounds (if is_lt cmp x y then x else y) (if is_lt cmp x y then y else x) [x; y]) as Hb.
    { destruct (is_lt cmp x y); (split_and!; [clear; set_solver..|]);
        intros z [->|[->|?%not_elem_of_nil]%elem_of_cons]%elem_of_cons; done. }
    destruct (min_max_loop_ok i2 l [x; y] _ _ Hm2 Hb) as (a & b & i3 & Hl & Hb').
    exists (MinMax a b). split; [|split; [done|simpl; lia]]. eapply (computes_intro _ _ i3). run Hn1. run Hn2.
    by destruct (is_lt cmp x y).
Qed.
End min_max.

Lemma extrema_correct_witness :
  ∃ r, computes (λ fuel, min_max N.compare fuel sample) r ∧
     match r with
     | NoElements => False
     | OneElement x => False
     | MinMax x y => bounds N.compare x y [4; 1; 3]
     end.
Proof.
  destruct (extrema_correct N.compare N.compare (λ x, x mod 2) sample [4; 1; 3]) as (_ & _ & _ & _ & r & Hr & Hs);
    [by split|]. exists r. split; [done|]. destruct r; [done|done|by destruct Hs].
Defined.

(** * Lexicographic comparison *)
Definition is_eq (c : comparison) : bool := match c with Eq => true | _ => false end.
Definition is_less (c : comparison) : bool := match c with Lt => true | _ => false end.
Definition is_greater (c : comparison) : bool := match c with Gt => true | _ => false end.

Section order.
Context {A : Type} (cmp : A → A → comparison) `{!TotalOrd cmp}.

Fixpoint lex (la lb : list A) : comparison :=
  match la, lb with
  | [], [] => Eq
  | [], _ :: _ => Lt
  | _ :: _, [] => Gt
  | x :: la, y :: lb => then_cmp (cmp x y) (lex la lb)
  end.

Fixpoint order_list {R} (both_end a_ends b_ends : R) (body : A → A → option R) (la lb : list A) : R :=
  match la, lb with
  | [], [] => both_end
  | [], _ :: _ => a_ends
  | _ :: _, [] => b_ends
  | x :: la, y :: lb =>
      match body x y with Some r => r | None => order_list both_end a_ends b_ends body la lb end
  end.

Lemma order_loop_ok {T U R} `{IteratorOk T A, IteratorOk U A} (a : T) (b : U) la lb
    (both_end a_ends b_ends : R) body :
  models a la → models b lb →
  (λ fuel, order_loop fuel a b both_end a_ends b_ends body) ⇓ order_list both_end a_ends b_ends body la lb.
Proof using Type.
  revert a b lb. induction la as [|x la IH]; intros a b lb (a' & Hna & Ha)%next_ok (b' & Hnb & Hb)%next_ok;
    eapply ends_S; [done| |done|]; run Hna; run Hnb; destruct lb as [|y lb]; cbn [head tail order_list] in *;
    try apply ends_ret.
  destruct (body x y) as [r|]; [apply ends_ret|by apply IH].
Qed.

(** The operators of [Eq] and [Ord] that a comparison derives. *)
Definition op_eq (x y : A) : bool := is_eq (cmp x y).
Definition op_lt (x y : A) : bool := is_less (cmp x y).
Definition op_le (x y : A) : bool := negb (is_greater (cmp x y)).
Definition op_gt (x y : A) : bool := is_greater (cmp x y).
Definition op_ge (x y : A) : bool := negb (is_less (cmp x y)).

Lemma order_list_lex {R} (both_end a_ends b_ends : R) body (of_cmp : comparison → R) la lb :
  of_cmp Eq = both_end → of_cmp Lt = a_ends → of_cmp Gt = b_ends →
  (∀ x y, body x y = match cmp x y with Eq => None | c => Some (of_cmp c) end) →
  order_list both_end a_ends b_ends body la lb = of_cmp (lex la lb).
Proof using Type.
  intros H1 H2 H3 Hb. revert lb. induction la as [|x la IH]; intros [|y lb]; try done.
  cbn [order_list lex]. rewrite Hb. by destruct (cmp x y); simpl.
Qed.

(** Lexicographic order is a total order. *)
Lemma lex_eq la lb : lex la lb = Eq ↔ la = lb.
Proof using All.
  revert lb. induction la as [|x la IH]; intros [|y lb]; simpl; try done.
  destruct (cmp x y) eqn:E; simpl; [|split; [done|intros [= -> ->]; by rewrite (cmp_refl cmp) in E]..].
  rewrite IH. apply cmp_eq in E as ->. split; [by intros ->|by intros [= ->]].
Qed.

Lemma lex_opp la lb : lex lb la = CompOpp (lex la lb).
Proof using All.
  revert lb. induction la as [|x la IH]; intros [|y lb]; simpl; try done.
  rewrite (@cmp_opp _ cmp _ x y), IH. by destruct (cmp x y).
Qed.

Lemma lex_lt_trans la lb lc : lex la lb = Lt → lex lb lc = Lt → lex la lc = Lt.
Proof using All.
  revert lb lc. induction la as [|x la IH]; intros [|y lb] [|z lc]; simpl; try done.
  destruct (cmp x y) eqn:E1, (cmp y z) eqn:E2; simpl; try done.
  - apply cmp_eq in E1, E2. subst. rewrite (cmp_refl cmp). simpl. apply IH.
  - apply cmp_eq in E1 as ->. by rewrite E2.
  - apply cmp_eq in E2 as ->. by rewrite E1.
  - by rewrite (cmp_lt_trans _ _ _ E1 E2).
Qed.

#[export] Instance lex_TotalOrd : TotalOrd lex.
Proof using All. split; [apply lex_eq|apply lex_opp|apply lex_lt_trans]. Qed.

(** The functions of [mod order] decide the lexicographic order, which is
    again a total order: [cmp] computes it, and [equals], [ne], [lt], [le],
    [gt] and [ge] answer as the comparison says. *)
Theorem order_correct {T U} `{IteratorOk T A, IteratorOk U A} (a : T) (b : U) la lb :
  models a la → models b lb →
  (λ fuel, order_cmp cmp fuel a b) ⇓ lex la lb ∧
  (λ fuel, order_equals op_eq fuel a b) ⇓ is_eq (lex la lb) ∧
  (λ fuel, order_ne op_eq fuel a b) ⇓ negb (is_eq (lex la lb)) ∧
  (λ fuel, order_lt op_eq op_lt fuel a b) ⇓ is_less (lex la lb) ∧
  (λ fuel, order_le op_eq op_le fuel a b) ⇓ negb (is_greater (lex la lb)) ∧
  (λ fuel, order_gt op_eq op_gt fuel a b) ⇓ is_greater (lex la lb) ∧
  (λ fuel, order_ge op_eq op_ge fuel a b) ⇓ negb (is_less (lex la lb)) ∧
  (lex la lb = Eq ↔ la = lb).
Proof using All.
  intros Ha Hb.
  assert (∀ R (both_end a_ends b_ends : R) body (of_cmp : comparison → R),
    of_cmp Eq = both_end → of_cmp Lt = a_ends → of_cmp Gt = b_ends →
    (∀ x y, body x y = match cmp x y with Eq => None | c => Some (of_cmp c) end) →
    (λ fuel, order_loop fuel a b both_end a_ends b_ends body) ⇓ of_cmp (lex la lb)) as Hloop.
  { intros R be ae bee body of_cmp H1 H2 H3 H4. rewrite <- (order_list_lex be ae bee body of_cmp) by done.
    by apply order_loop_ok. }
  split_and!; [by apply (Hloop _ _ _ _ _ id)| | | | | | |apply lex_eq].
  all: unfold order_equals, order_ne, order_lt, order_le, order_gt, order_ge.
  - apply (Hloop _ _ _ _ _ (λ c, is_eq c)); [done..|]. intros x y. unfold op_eq. by destruct (cmp x y).
  - apply (Hloop _ _ _ _ _ (λ c, negb (is_eq c))); [done..|]. intros x y. unfold op_eq. by destruct (cmp x y).
  - apply (Hloop _ _ _ _ _ (λ c, is_less c)); [done..|]. intros x y. unfold op_eq, op_lt, op_le, op_gt, op_ge. by destruct (cmp x y).
  - apply (Hloop _ _ _ _ _ (λ c, negb (is_greater c))); [done..|]. intros x y. unfold op_eq, op_le. by destruct (cmp x y).
  - apply (Hloop _ _ _ _ _ (λ c, is_greater c)); [done..|]. intros x y. unfold op_eq, op_gt. by destruct (cmp x y).
  - apply (Hloop _ _ _ _ _ (λ c, negb (is_less c))); [done..|]. intros x y. unfold op_eq, op_ge. by destruct (cmp x y).
Qed.
End order.

Lemma order_correct_witness :
  (λ fuel, order_lt (op_eq N.compare) (op_lt N.compare) fuel sample (mkItems [4; 2])) ⇓ true.
Proof.
  destruct (order_correct N.compare sample (mkItems [4; 2]) [4; 1; 3] [4; 2]) as (_ & _ & _ & H & _);
    [by split|by split|exact H].
Defined.
