(* ===== verification/IterRange.v ===== *)
(** Ranges and infinite iterators of [libstd/iter.rs].

    A range is over a machine integer type with bounds [int_min] and [int_max]:
    additions wrap, or are checked where the source checks them. *)
From stdpp Require Import base list numbers.
From Stdlib Require Import NArith ZArith Lia.
From S2P Require Import Prelude Iter IterOk IterLaws.
Local Open Scope Z_scope.
Local Open Scope model_scope.

(** * Machine integers *)
Record MachInt : Type := mkMachInt { int_min : Z; int_max : Z }.
Definition ty_u8 : MachInt := mkMachInt 0 255.
Definition ty_i64 : MachInt := mkMachInt (- 2 ^ 63) (2 ^ 63 - 1).
Definition ty_u64 : MachInt := mkMachInt 0 (2 ^ 64 - 1).
Definition ty_int : MachInt := ty_i64.

Definition fits (t : MachInt) (z : Z) : bool := (int_min t <=? z) && (z <=? int_max t).
Definition wrap (t : MachInt) (z : Z) : Z := (z - int_min t) mod (int_max t - int_min t + 1) + int_min t.
Definition checked (t : MachInt) (z : Z) : option Z := if fits t z then Some z else None.

(** [ToPrimitive] on the integer types. *)
Definition to_i64 (z : Z) : option Z := checked ty_i64 z.
Definition to_u64 (z : Z) : option Z := checked ty_u64 z.
Definition to_uint (z : Z) : option N := if fits ty_u64 z then Some (Z.to_N z) else None.

(** * Ranges *)
Record Range (t : MachInt) : Type := mkRange { state : Z; stop : Z }.
Arguments mkRange {t}.
Arguments state {t}.
Arguments stop {t}.
Definition range (t : MachInt) (start stop : Z) : Range t := mkRange start stop.

Definition Range_next {t} (fuel : nat) (it : Range t) : outcome (option Z * Range t) :=
  if state it <? stop it then Ok (Some (state it), mkRange (wrap t (state it + 1)) (stop it))
  else Ok (None, it).
Definition Range_next_back {t} (fuel : nat) (it : Range t) : outcome (option Z * Range t) :=
  if state it <? stop it then
    let stop' := wrap t (stop it - 1) in Ok (Some stop', mkRange (state it) stop')
  else Ok (None, it).
Definition Range_size_hint {t} (it : Range t) : N * option N :=
  let bound :=
    match to_i64 (state it) with
    | Some a =>
        match option_map (λ b, checked ty_i64 (b - a)) (to_i64 (stop it)) with
        | Some (Some bound) => to_uint bound
        | _ => None
        end
    | None =>
        match to_u64 (state it) with
        | Some a =>
            match option_map (λ b, checked ty_u64 (b - a)) (to_u64 (stop it)) with
            | Some (Some bound) => to_uint bound
            | _ => None
            end
        | None => None
        end
    end in
  match bound with
  | Some b => (b, Some b)
  | None => (0%N, None)
  end.

#[export] Instance Range_Iterator {t} : Iterator (Range t) Z := { next := Range_next; size_hint := Range_size_hint }.
#[export] Instance Range_DoubleEnded {t} : DoubleEndedIterator (Range t) Z := Range_next_back.

Record RangeInclusive (t : MachInt) : Type := mkRangeInclusive { incl_range : Range t; incl_done : bool }.
Arguments mkRangeInclusive {t}.
Arguments incl_range {t}.
Arguments incl_done {t}.
Definition range_inclusive (t : MachInt) (start stop : Z) : RangeInclusive t := mkRangeInclusive (range t start stop) false.

Definition RangeInclusive_next {t} (fuel : nat) (it : RangeInclusive t) : outcome (option Z * RangeInclusive t) :=
  '(x, r) ← Range_next fuel (incl_range it);
  match x with
  | Some x => Ok (Some x, mkRangeInclusive r (incl_done it))
  | None =>
      if negb (incl_done it) && (state r =? stop r) then Ok (Some (stop r), mkRangeInclusive r true)
      else Ok (None, mkRangeInclusive r (incl_done it))
  end.
Definition RangeInclusive_size_hint {t} (it : RangeInclusive t) : N * option N :=
  let '(lo, hi) := Range_size_hint (incl_range it) in
  if incl_done it then (lo, hi) else (saturating_add lo 1, add_upper hi (Some 1%N)).
Definition RangeInclusive_next_back {t} (fuel : nat) (it : RangeInclusive t) : outcome (option Z * RangeInclusive t) :=
  let r := incl_range it in
  if state r <? stop r then
    Ok (Some (stop r), mkRangeInclusive (mkRange (state r) (wrap t (stop r - 1))) (incl_done it))
  else if negb (incl_done it) && (state r =? stop r) then Ok (Some (stop r), mkRangeInclusive r true)
  else Ok (None, it).

#[export] Instance RangeInclusive_Iterator {t} : Iterator (RangeInclusive t) Z :=
  { next := RangeInclusive_next; size_hint := RangeInclusive_size_hint }.
#[export] Instance RangeInclusive_DoubleEnded {t} : DoubleEndedIterator (RangeInclusive t) Z := RangeInclusive_next_back.

Record RangeStep (t : MachInt) : Type := mkRangeStep { step_state : Z; step_stop : Z; step_step : Z; step_rev : bool }.
Arguments mkRangeStep {t}.
Arguments step_state {t}.
Arguments step_stop {t}.
Arguments step_step {t}.
Arguments step_rev {t}.
Definition range_step (t : MachInt) (start stop step : Z) : RangeStep t := mkRangeStep start stop step (step <? 0).

Definition RangeStep_next {t} (fuel : nat) (it : RangeStep t) : outcome (option Z * RangeStep t) :=
  let '(mkRangeStep state stop step rev) := it in
  if (rev && (stop <? state)) || (negb rev && (state <? stop)) then
    let state' := match checked t (state + step) with Some x => x | None => stop end in
    Ok (Some state, mkRangeStep state' stop step rev)
  else Ok (None, it).

#[export] Instance RangeStep_Iterator {t} : Iterator (RangeStep t) Z :=
  { next := RangeStep_next; size_hint _ := (0%N, None) }.

Record RangeStepInclusive (t : MachInt) : Type :=
  mkRangeStepInclusive { si_state : Z; si_stop : Z; si_step : Z; si_rev : bool; si_done : bool }.
Arguments mkRangeStepInclusive {t}.
Arguments si_state {t}.
Arguments si_stop {t}.
Arguments si_step {t}.
Arguments si_rev {t}.
Arguments si_done {t}.
Definition range_step_inclusive (t : MachInt) (start stop step : Z) : RangeStepInclusive t :=
  mkRangeStepInclusive start stop step (step <? 0) false.

Definition RangeStepInclusive_next {t} (fuel : nat) (it : RangeStepInclusive t)
    : outcome (option Z * RangeStepInclusive t) :=
  let '(mkRangeStepInclusive state stop step rev done) := it in
  if negb done && ((rev && (stop <=? state)) || (negb rev && (state <=? stop))) then
    match checked t (state + step) with
    | Some x => Ok (Some state, mkRangeStepInclusive x stop step rev done)
    | None => Ok (Some state, mkRangeStepInclusive state stop step rev true)
    end
  else Ok (None, it).

#[export] Instance RangeStepInclusive_Iterator {t} : Iterator (RangeStepInclusive t) Z :=
  { next := RangeStepInclusive_next; size_hint _ := (0%N, None) }.

(** [count(start, step)] never ends. *)
Record Counter (t : MachInt) : Type := mkCounter { counter_state : Z; counter_step : Z }.
Arguments mkCounter {t}.
Arguments counter_state {t}.
Arguments counter_step {t}.
Definition count (t : MachInt) (start step : Z) : Counter t := mkCounter start step.
Definition Counter_next {t} (fuel : nat) (it : Counter t) : outcome (option Z * Counter t) :=
  Ok (Some (counter_state it), mkCounter (wrap t (counter_state it + counter_step it)) (counter_step it)).

#[export] Instance Counter_Iterator {t} : Iterator (Counter t) Z :=
  { next := Counter_next; size_hint _ := (UINT_MAX, None) }.

Record Repeat (A : Type) : Type := mkRepeat { element : A }.
Arguments mkRepeat {A}.
Arguments element {A}.
Definition Repeat_idx {A} (it : Repeat A) (_ : N) : option A := Some (element it).
Definition Repeat_next {A} (fuel : nat) (it : Repeat A) : outcome (option A * Repeat A) := Ok (Repeat_idx it 0, it).

#[export] Instance Repeat_Iterator {A} : Iterator (Repeat A) A :=
  { next := Repeat_next; size_hint _ := (UINT_MAX, None) }.
#[export] Instance Repeat_DoubleEnded {A} : DoubleEndedIterator (Repeat A) A := Repeat_next.
#[export] Instance Repeat_RandomAccess {A} : RandomAccessIterator (Repeat A) A :=
  { indexable _ := UINT_MAX; idx := Repeat_idx }.

(** * The elements of a range *)
Lemma fits_spec t z : fits t z = true ↔ int_min t ≤ z ≤ int_max t.
Proof. unfold fits. rewrite andb_true_iff, !Z.leb_le. done. Qed.

Lemma wrap_small t z : int_min t ≤ z ≤ int_max t → wrap t z = z.
Proof. intros Hz. unfold wrap. rewrite Z.mod_small by lia. lia. Qed.

Lemma wrap_fits t z : int_min t ≤ int_max t → int_min t ≤ wrap t z ≤ int_max t.
Proof. intros H. unfold wrap. pose proof (Z.mod_pos_bound (z - int_min t) (int_max t - int_min t + 1)). lia. Qed.

Lemma checked_Some t z x : checked t z = Some x → x = z ∧ int_min t ≤ z ≤ int_max t.
Proof. unfold checked. destruct (fits t z) eqn:E; [|done]. intros [= <-]. by apply fits_spec in E. Qed.

Lemma checked_None t z : checked t z = None → z < int_min t ∨ int_max t < z.
Proof.
  unfold checked. destruct (fits t z) eqn:E; [done|]. intros _. apply not_true_iff_false in E.
  rewrite fits_spec in E. lia.
Qed.

Lemma seqZ_snoc m n : 0 ≤ n → seqZ m (n + 1) = seqZ m n ++ [m + n].
Proof. intros Hn. rewrite seqZ_app by lia. done. Qed.

Definition in_ty (t : MachInt) (z : Z) : Prop := int_min t ≤ z ≤ int_max t.

(** [Range::size_hint] either gives up or is exact. *)
Lemma Range_hint_ok {t} (it : Range t) :
  hint_fits (Range_size_hint it) (length (seqZ (state it) (stop it - state it))).
Proof.
  assert (∀ d, d = stop it - state it → match to_uint d with
    | Some b => hint_fits (b, Some b) (length (seqZ (state it) (stop it - state it)))
    | None => True end) as Hd.
  { intros d ->. unfold to_uint. destruct (fits _ _) eqn:E; [|done]. apply fits_spec in E. simpl in E.
    unfold hint_fits. cbn [fst snd]. rewrite length_seqZ. lia. }
  unfold Range_size_hint, to_i64, to_u64. assert (hint_fits (0%N, None) (length (seqZ (state it) (stop it - state it)))) as Hn
    by (unfold hint_fits; simpl; split; [lia|done]).
  destruct (checked ty_i64 (state it)) as [a|] eqn:Ea.
  - destruct (checked ty_i64 (stop it)) as [b|] eqn:Eb; [|done]. cbn [option_map].
    destruct (checked ty_i64 (b - a)) as [d|] eqn:Ed; [|done].
    apply checked_Some in Ea as [-> _], Eb as [-> _], Ed as [-> _].
    specialize (Hd _ eq_refl). by destruct (to_uint _).
  - destruct (checked ty_u64 (state it)) as [a|] eqn:Ea'; [|done].
    destruct (checked ty_u64 (stop it)) as [b|] eqn:Eb; [|done]. cbn [option_map].
    destruct (checked ty_u64 (b - a)) as [d|] eqn:Ed; [|done].
    apply checked_Some in Ea' as [-> _], Eb as [-> _], Ed as [-> _].
    specialize (Hd _ eq_refl). by destruct (to_uint _).
Qed.

#[export] Instance Range_ok {t} : IteratorOk (Range t) Z.
Proof.
  refine {| models it l := in_ty t (state it) ∧ in_ty t (stop it) ∧ l = seqZ (state it) (stop it - state it) |}.
  - intros [a b] l (Ha & Hb & ->). cbn [state stop next Range_Iterator] in *. unfold Range_next. cbn [state stop].
    destruct (Z.ltb_spec a b).
    + exists (mkRange (a + 1) b). rewrite seqZ_cons by lia. unfold in_ty in *. rewrite wrap_small by lia.
      split; [apply ends_ret|]. cbn [state stop tail]. split_and!; try lia. f_equal; lia.
    + exists (mkRange a b). rewrite seqZ_nil by lia. split; [apply ends_ret|]. cbn [state stop]. rewrite seqZ_nil by lia. done.
  - intros it l (Ha & Hb & ->). apply Range_hint_ok.
Defined.
#[export] Instance Range_back_ok {t} : DoubleEndedOk (Range t) Z.
Proof.
  intros [a b] l (Ha & Hb & ->). cbn [state stop] in *. unfold next_back, Range_DoubleEnded, Range_next_back. cbn [state stop].
  destruct (Z.ltb_spec a b).
  - exists (mkRange a (b - 1)). replace (b - a) with (b - 1 - a + 1) by lia. rewrite seqZ_snoc by lia.
    rewrite last_snoc, removelast_last. unfold in_ty in *. rewrite wrap_small by lia.
    replace (a + (b - 1 - a)) with (b - 1) by lia. split; [apply ends_ret|].
    cbn [models Range_ok state stop]. unfold in_ty. split_and!; lia || done.
  - exists (mkRange a b). rewrite seqZ_nil by lia. split; [apply ends_ret|].
    cbn [models Range_ok state stop]. rewrite seqZ_nil by lia. by split_and!.
Qed.

(** [range_inclusive] meets the contract when it is not empty. *)
#[export] Instance RangeInclusive_ok {t} : IteratorOk (RangeInclusive t) Z.
Proof.
  refine {| models it l :=
    let '(mkRange a b) := incl_range it in in_ty t a ∧ in_ty t b ∧
    if incl_done it then a = b ∧ l = [] else a ≤ b ∧ l = seqZ a (b - a + 1) |}.
  - intros [[a b] []] l; cbn [incl_range incl_done]; intros (Ha & Hb & Hab & ->).
    + exists (mkRangeInclusive (mkRange a b) true). subst a. split; [|done].
      cbn [next RangeInclusive_Iterator]. unfold RangeInclusive_next, Range_next. cbn [incl_range state stop incl_done].
      rewrite Z.ltb_irrefl. eapply ends_bind; apply ends_ret.
    + cbn [next RangeInclusive_Iterator]. unfold RangeInclusive_next, Range_next. cbn [incl_range state stop incl_done].
      rewrite seqZ_cons by lia. unfold in_ty in *. destruct (Z.ltb_spec a b).
      * exists (mkRangeInclusive (mkRange (a + 1) b) false). rewrite wrap_small by lia.
        split; [eapply ends_bind; apply ends_ret|]. cbn [incl_range incl_done tail]. split_and!; try lia. f_equal; lia.
      * assert (a = b) as -> by lia. exists (mkRangeInclusive (mkRange b b) true).
        split; [eapply ends_bind; [apply ends_ret|]; cbn [state stop negb andb]; rewrite Z.eqb_refl; apply ends_ret|].
        cbn [incl_range incl_done tail]. split_and!; first [lia|done|apply seqZ_nil; lia].
  - intros [[a b] d] l; cbn [incl_range incl_done]; intros (Ha & Hb & Hl).
    cbn [size_hint RangeInclusive_Iterator]. unfold RangeInclusive_size_hint. cbn [incl_range incl_done].
    pose proof (Range_hint_ok (t:=t) (mkRange a b)) as Hh. cbn [state stop] in Hh.
    destruct (Range_size_hint (mkRange a b)) as [lo hi], d; destruct Hl as [Hab ->].
    + rewrite seqZ_nil in Hh by lia. done.
    + rewrite seqZ_snoc, length_app by lia. apply (hint_fits_add (lo, hi) (1%N, Some 1%N)); [done|by split].
Defined.
#[export] Instance RangeInclusive_back_ok {t} : DoubleEndedOk (RangeInclusive t) Z.
Proof.
  intros [[a b] []] l; cbn [models RangeInclusive_ok incl_range incl_done]; intros (Ha & Hb & Hab & ->);
    unfold next_back, RangeInclusive_DoubleEnded, RangeInclusive_next_back; cbn [incl_range state stop incl_done].
  - exists (mkRangeInclusive (mkRange a b) true). subst a. rewrite Z.ltb_irrefl. split; [apply ends_ret|done].
  - rewrite seqZ_snoc, last_snoc, removelast_last by lia. replace (a + (b - a)) with b by lia.
    unfold in_ty in *. destruct (Z.ltb_spec a b).
    + exists (mkRangeInclusive (mkRange a (b - 1)) false). rewrite wrap_small by lia. split; [apply ends_ret|].
      cbn [incl_range incl_done]. split_and!; try lia. f_equal; lia.
    + assert (a = b) as -> by lia. exists (mkRangeInclusive (mkRange b b) true). rewrite Z.eqb_refl.
      split; [apply ends_ret|]. cbn [incl_range incl_done]. split_and!; first [lia|done|apply seqZ_nil; lia].
Qed.

(** The arithmetic progression of [n] terms. *)
Definition progression (a step n : Z) : list Z := (λ i, a + step * i) <$> seqZ 0 n.

Lemma progression_cons a step n :
  0 < n → progression a step n = a :: progression (a + step) step (n - 1).
Proof.
  intros Hn. unfold progression. rewrite seqZ_cons by lia. rewrite fmap_cons. f_equal; [lia|].
  replace (Z.succ 0) with (1 + 0) by lia. rewrite <- (fmap_add_seqZ 1 0), <- list_fmap_compose.
  apply list_fmap_ext. intros i x _. cbn [compose]. lia.
Qed.

Lemma progression_nil a step n : n ≤ 0 → progression a step n = [].
Proof. intros Hn. unfold progression. by rewrite seqZ_nil. Qed.

(** The number of steps of [step] from a distance [d], excluding and including
    the end. *)
Definition steps_to (d step : Z) : Z := (d + Z.abs step - 1) / Z.abs step.
Definition steps_upto (d step : Z) : Z := if d <? 0 then 0 else d / Z.abs step + 1.

Lemma steps_to_pos d step : step ≠ 0 → 0 < d → 0 < steps_to d step ∧ steps_to (d - Z.abs step) step = steps_to d step - 1.
Proof.
  intros Hs Hd. unfold steps_to. split.
  - apply Z.div_str_pos. lia.
  - replace (d - Z.abs step + Z.abs step - 1) with (d + Z.abs step - 1 + (-1) * Z.abs step) by lia.
    rewrite Z.div_add by lia. lia.
Qed.

Lemma steps_to_nonpos d step : step ≠ 0 → d ≤ 0 → steps_to d step ≤ 0.
Proof. intros Hs Hd. unfold steps_to. apply Z.lt_succ_r, Z.div_lt_upper_bound; lia. Qed.

Lemma steps_upto_pos d step :
  step ≠ 0 → 0 ≤ d → 0 < steps_upto d step ∧ steps_upto (d - Z.abs step) step = steps_upto d step - 1.
Proof.
  intros Hs Hd. unfold steps_upto. rewrite (proj2 (Z.ltb_ge d 0)) by lia.
  assert (0 ≤ d / Z.abs step) by (apply Z.div_pos; lia). split; [lia|].
  destruct (Z.ltb_spec (d - Z.abs step) 0).
  - rewrite Z.div_small by lia. lia.
  - replace (d - Z.abs step) with (d + (-1) * Z.abs step) by lia. rewrite Z.div_add by lia. lia.
Qed.

(** The distance still to go. *)
Definition distance (rev : bool) (a b : Z) : Z := if rev then a - b else b - a.

#[export] Instance RangeStep_ok {t} : IteratorOk (RangeStep t) Z.
Proof.
  refine {| models it l :=
    let '(mkRangeStep a b step rev) := it in
    in_ty t a ∧ in_ty t b ∧ step ≠ 0 ∧ rev = (step <? 0) ∧ l = progression a step (steps_to (distance rev a b) step) |}.
  - intros [a b step rev] l (Ha & Hb & Hs & -> & ->). unfold in_ty in *.
    cbn [next RangeStep_Iterator]. unfold RangeStep_next.
    assert ((step <? 0) && (b <? a) || negb (step <? 0) && (a <? b) = (0 <? distance (step <? 0) a b)) as ->.
    { unfold distance. destruct (step <? 0); simpl; rewrite ?orb_false_r;
        destruct (Z.ltb_spec b a), (Z.ltb_spec a b); symmetry; apply Z.ltb_lt || apply Z.ltb_ge; lia. }
    destruct (Z.ltb_spec 0 (distance (step <? 0) a b)) as [Hd|Hd].
    + destruct (steps_to_pos _ step Hs Hd) as [Hp He]. rewrite progression_cons by done. eexists. split; [apply ends_ret|].
      cbn [tail]. destruct (checked t (a + step)) as [x|] eqn:E.
      * apply checked_Some in E as [-> ?]. split_and!; try done; try lia. f_equal. rewrite <- He. f_equal.
        unfold distance. destruct (Z.ltb_spec step 0); lia.
      * apply checked_None in E. split_and!; try done; try lia.
        rewrite !progression_nil; [done|..].
        -- apply steps_to_nonpos; [done|]. unfold distance. destruct (step <? 0); lia.
        -- rewrite <- He. apply steps_to_nonpos; [done|]. unfold distance in *. destruct (Z.ltb_spec step 0); lia.
    + exists (mkRangeStep a b step (step <? 0)). rewrite !progression_nil by by apply steps_to_nonpos.
      split; [apply ends_ret|done].
  - intros it l _. by split; [simpl; lia|].
Defined.

#[export] Instance RangeStepInclusive_ok {t} : IteratorOk (RangeStepInclusive t) Z.
Proof.
  refine {| models it l :=
    let '(mkRangeStepInclusive a b step rev done) := it in
    in_ty t a ∧ in_ty t b ∧ step ≠ 0 ∧ rev = (step <? 0) ∧
    l = if done then [] else progression a step (steps_upto (distance rev a b) step) |}.
  - intros [a b step rev []] l (Ha & Hb & Hs & -> & ->); unfold in_ty in *;
      cbn [next RangeStepInclusive_Iterator]; unfold RangeStepInclusive_next; cbn [negb andb].
    { exists (mkRangeStepInclusive a b step (step <? 0) true). split; [apply ends_ret|done]. }
    assert ((step <? 0) && (b <=? a) || negb (step <? 0) && (a <=? b) = (0 <=? distance (step <? 0) a b)) as ->.
    { unfold distance. destruct (step <? 0); simpl; rewrite ?orb_false_r;
        destruct (Z.leb_spec b a), (Z.leb_spec a b); symmetry; apply Z.leb_le || apply Z.leb_gt; lia. }
    destruct (Z.leb_spec 0 (distance (step <? 0) a b)) as [Hd|Hd].
    + destruct (steps_upto_pos _ step Hs Hd) as [Hp He]. rewrite progression_cons by done. cbn [head tail].
      destruct (checked t (a + step)) as [x|] eqn:E; eexists; (split; [apply ends_ret|]).
      * apply checked_Some in E as [-> ?]. split_and!; try done; try lia. f_equal. rewrite <- He. f_equal.
        unfold distance. destruct (Z.ltb_spec step 0); lia.
      * apply checked_None in E. split_and!; try done; try lia. apply progression_nil. rewrite <- He. unfold steps_upto.
        rewrite (proj2 (Z.ltb_lt _ _)); [lia|]. unfold distance in *. destruct (Z.ltb_spec step 0); lia.
    + exists (mkRangeStepInclusive a b step (step <? 0) false).
      rewrite progression_nil by (unfold steps_upto; rewrite (proj2 (Z.ltb_lt _ _)); lia).
      split; [apply ends_ret|done].
  - intros it l _. by split; [simpl; lia|].
Defined.

(** The ranges give the integers they name, in both directions and without
    overflow at the ends of the type: [range] from [start] up to [stop]
    excluded, [range_inclusive] included, [range_step] and
    [range_step_inclusive] the progression of the steps up or down to [stop].
    On an empty [range_inclusive] ([stop < start]) the lower bound of
    [size_hint] is 1, although there is no element. *)
Theorem ranges_correct t start stop step :
  in_ty t start → in_ty t stop →
  gives (range t start stop) (seqZ start (stop - start)) ∧
  gives (iter_rev (range t start stop)) (rev (seqZ start (stop - start))) ∧
  (start ≤ stop → gives (range_inclusive t start stop) (seqZ start (stop - start + 1)) ∧
     gives (iter_rev (range_inclusive t start stop)) (rev (seqZ start (stop - start + 1)))) ∧
  (stop < start → (λ fuel, fst <$> collect fuel (range_inclusive t start stop)) ⇓ [] ∧
     (size_hint (range_inclusive t start stop)).1 = 1%N) ∧
  (step ≠ 0 →
     gives (range_step t start stop step) (progression start step (steps_to (distance (step <? 0) start stop) step)) ∧
     gives (range_step_inclusive t start stop step)
       (progression start step (steps_upto (distance (step <? 0) start stop) step))).
Proof.
  intros Ha Hb. split_and!.
  - by apply gives_ok.
  - apply gives_ok. cbn [models Rev_ok iter_rev rev_iter]. by rewrite rev_involutive.
  - intros Hle. split; apply gives_ok; [done|]. cbn [models Rev_ok iter_rev rev_iter]. by rewrite rev_involutive.
  - intros Hlt. split.
    + apply (ends_fmap _ fst ([], range_inclusive t start stop)). exists 1%nat. intros [|fuel] Hf; [lia|].
      unfold collect. cbn [for_ next RangeInclusive_Iterator]. unfold RangeInclusive_next, Range_next, range_inclusive, range.
      cbn [incl_range state IterRange.stop incl_done negb andb].
      rewrite (proj2 (Z.ltb_ge start stop)) by lia. simpl_ok. cbn [state IterRange.stop].
      by rewrite (proj2 (Z.eqb_neq start stop)) by lia.
    + pose proof (Range_hint_ok (range t start stop)) as [Hl _]. cbn [state IterRange.stop range] in Hl.
      rewrite seqZ_nil in Hl by lia. cbn [size_hint RangeInclusive_Iterator]. unfold RangeInclusive_size_hint, range_inclusive.
      cbn [incl_range incl_done]. destruct (Range_size_hint _) as [lo hi]. simpl in *. unfold saturating_add, UINT_MAX. lia.
  - intros Hs. split; by apply gives_ok.
Qed.

Lemma ranges_correct_witness :
  gives (range ty_u8 250 255) [250; 251; 252; 253; 254] ∧
  gives (range_inclusive ty_u8 253 255) [253; 254; 255] ∧
  gives (range_step ty_u8 250 255 4) [250; 254] ∧
  (size_hint (range_inclusive ty_int 5 3)).1 = 1%N.
Proof.
  destruct (ranges_correct ty_u8 250 255 4) as (H1 & _ & _ & _ & H2); [by split|by split|].
  destruct (ranges_correct ty_u8 253 255 4) as (_ & _ & H3 & _ & _); [by split|by split|].
  destruct (ranges_correct ty_int 5 3 1) as (_ & _ & _ & H4 & _); [by split|by split|].
  split_and!; [exact H1|exact (proj1 (H3 ltac:(lia)))|exact (proj1 (H2 ltac:(lia)))|exact (proj2 (H4 ltac:(lia)))].
Defined.

(** * Iterators without an end *)
Section streams.
Context {I A : Type} `{Iterator I A}.

(** The next [n] calls give the elements [s k], [s (k + 1)], ... *)
Fixpoint streams (n k : nat) (it : I) (s : nat → A) : Prop :=
  match n with
  | O => True
  | S n => ∃ it', (λ fuel, next fuel it) ⇓ (Some (s k), it') ∧ streams n (S k) it' s
  end.

Lemma streams_inv (R : I → nat → Prop) (s : nat → A) n it k :
  (∀ it k, R it k → ∃ it', (λ fuel, next fuel it) ⇓ (Some (s k), it') ∧ R it' (S k)) →
  R it k → streams n k it s.
Proof using Type.
  intros HR. revert it k. induction n as [|n IH]; intros it k Hk; [done|].
  destruct (HR it k Hk) as (it' & Hn & Hk'). exists it'. split; [done|by apply IH].
Qed.

(** [take(n)] of a stream is its first [n] elements. *)
Lemma take_streams n k it s :
  streams n k it s →
  (λ fuel, fst <$> collect fuel (iter_take it (N.of_nat n))) ⇓ (s <$> seq k n).
Proof using Type.
  intros Hs. unfold collect.
  assert (∀ acc, ∃ it', (λ fuel, for_ (R:=Empty_set) fuel (iter_take it (N.of_nat n)) acc (λ l x, inl (l ++ [x]))) ⇓
    (inl (acc ++ (s <$> seq k n)), it')) as Hf.
  { revert k it Hs. induction n as [|n IH]; intros k it Hs acc.
    - eexists. eapply ends_S; [done|]. rewrite app_nil_r. apply ends_ret.
    - destruct Hs as (it' & Hn & Hs). destruct (IH (S k) it' Hs (acc ++ [s k])) as (it'' & Hf).
      rewrite <- app_assoc in Hf. exists it''. eapply ends_S; [done|]. cbn [for_ next Take_Iterator]. unfold Take_next, iter_take.
      cbn [take_n take_iter]. rewrite (proj2 (N.eqb_neq (N.of_nat (S n)) 0)) by lia.
      eapply ends_bind; [eapply ends_bind; [exact Hn|]; apply ends_ret|]. cbv beta iota.
      by replace (N.of_nat (S n) - 1)%N with (N.of_nat n) by lia. }
  destruct (Hf []) as (it' & Hc). eapply (ends_fmap _ fst (_, it')). exact (ends_fmap _ fell_through _ Hc).
Qed.
End streams.

Lemma wrap_add t a b : int_min t ≤ int_max t → wrap t (wrap t a + b) = wrap t (a + b).
Proof.
  intros H. unfold wrap. f_equal.
  replace ((a - int_min t) mod (int_max t - int_min t + 1) + int_min t + b - int_min t)
    with ((a - int_min t) mod (int_max t - int_min t + 1) + b) by lia.
  rewrite Z.add_mod_idemp_l by lia. f_equal. lia.
Qed.

Lemma mod_succ k n :
  n ≠ 0%nat → (S k mod n = if decide (S (k mod n) = n) then 0 else S (k mod n))%nat.
Proof.
  intros Hn. pose proof (Nat.div_mod_eq k n). pose proof (Nat.mod_upper_bound k n Hn). symmetry. case_decide.
  - apply (Nat.mod_unique (S k) n (S (k / n)) 0); lia.
  - apply (Nat.mod_unique (S k) n (k / n) (S (k mod n))); lia.
Qed.

(** The position of a cycle that has given [k] elements. *)
Definition cycle_at {I A} `{IteratorOk I A} (orig : I) (l : list A) (it : Cycle I) (k : nat) : Prop :=
  cycle_orig it = orig ∧
  (models (cycle_iter it) (drop (k mod length l) l) ∨ (k mod length l = 0)%nat ∧ models (cycle_iter it) []).

Lemma Cycle_step {I A} `{IteratorOk I A} (orig : I) (l : list A) (it : Cycle I) k x :
  models orig l → cycle_at orig l it k → l !! (k mod length l)%nat = Some x →
  ∃ it', (λ fuel, next fuel it) ⇓ (Some x, it') ∧ cycle_at orig l it' (S k).
Proof.
  intros Ho [Eo Hi] Hx. destruct it as [o it]. cbn [cycle_orig cycle_iter] in *. subst o.
  set (m := (k mod length l)%nat) in *. pose proof (lookup_lt_Some _ _ _ Hx) as Hm.
  assert (drop m l = x :: drop (S m) l) as Hd by by apply drop_S.
  assert (∀ it', models it' (drop (S m) l) → cycle_at orig l (mkCycle orig it') (S k)) as Hat.
  { intros it' Hm'. split; [done|]. rewrite mod_succ by lia. fold m. cbn [cycle_iter]. case_decide as E; [|by left].
    right. split; [done|]. by rewrite drop_ge in Hm' by lia. }
  cbn [next Cycle_Iterator]. unfold Cycle_next. cbn [cycle_orig cycle_iter]. destruct Hi as [Hi|[E Hi]].
  - rewrite Hd in Hi. destruct (next_ok it _ Hi) as (it' & Hn & Hm'). exists (mkCycle orig it').
    split; [run Hn; apply ends_ret|by apply Hat].
  - destruct (next_ok it _ Hi) as (i0 & Hn0 & _). rewrite E in Hd. rewrite drop_0 in Hd. rewrite Hd in Ho.
    destruct (next_ok orig _ Ho) as (it' & Hn & Hm'). exists (mkCycle orig it').
    split; [run Hn0; run Hn; apply ends_ret|]. apply Hat. by rewrite E.
Qed.

(** The infinite iterators never end: [cycle] of a non-empty iterator gives
    its elements over and over, [count] the progression modulo the size of the
    type, [Repeat] its element; and [take(n)] of each gives the first [n]. *)
Theorem infinite_correct {I A} `{IteratorOk I A} (it : I) (l : list A) (s : nat → A) t start step (x : A) n :
  models it l → l ≠ [] → (∀ k, l !! (k mod length l)%nat = Some (s k)) → in_ty t start →
  streams n 0 (cycle it) s ∧
  streams n 0 (count t start step) (λ k, wrap t (start + Z.of_nat k * step)) ∧
  streams n 0 (mkRepeat x) (λ _, x) ∧
  (λ fuel, fst <$> collect fuel (iter_take (cycle it) (N.of_nat n))) ⇓ (s <$> seq 0 n).
Proof.
  intros Hm Hne Hs Ht. assert (streams n 0 (cycle it) s) as Hc.
  { apply (streams_inv (cycle_at it l)); [intros; by eapply Cycle_step|]. split; [done|]. left.
    by rewrite Nat.Div0.mod_0_l. }
  split_and!; [done| | |by apply take_streams].
  - apply (streams_inv (λ c k, c = mkCounter (wrap t (start + Z.of_nat k * step)) step)).
    + intros c k ->. eexists. split; [apply ends_ret|]. cbn [counter_state counter_step].
      unfold in_ty in Ht. rewrite wrap_add by lia. do 2 f_equal. lia.
    + unfold count. f_equal. rewrite wrap_small; [lia|]. unfold in_ty in Ht. lia.
  - apply (streams_inv (λ r _, r = mkRepeat x)); [|done]. intros r k ->. eexists. split; [apply ends_ret|done].
Qed.

Lemma infinite_correct_witness :
  (λ fuel, fst <$> collect fuel (iter_take (cycle (mkItems [true; false])) 3)) ⇓ [true; false; true].
Proof.
  destruct (infinite_correct (mkItems [true; false]) [true; false] Nat.even ty_u8 250 4 true 3) as (_ & _ & _ & H);
    [by split|done| |by split|exact H].
  intros k. rewrite (Nat.div_mod_eq k 2) at 2. pose proof (Nat.mod_upper_bound k 2).
  change (length [true; false]) with 2%nat. rewrite Nat.even_add, Nat.even_mul.
  destruct (k mod 2)%nat as [|[|]]; [done|done|lia].
Defined.
