(* ===== verification/TreeMapSound.v ===== *)
(** Correctness of the ordered map: the AA invariant and the refinement of the
    sorted association lists by the tree operations of [TreeMap]. *)
From S2P Require Import Prelude TreeMap.
From stdpp Require Import base list sets sorting.
From Stdlib Require Import NArith Lia.
Local Open Scope N_scope.

(** * Sorted association lists *)
Section sorted.
Context {K V : Type} (cmp : K → K → comparison) `{!TotalOrd cmp}.
Implicit Types (k : K) (v : V) (l : list (K * V)).

Lemma sorted_app l1 k v l2 :
  sorted cmp (l1 ++ (k, v) :: l2) ↔
  sorted cmp l1 ∧ sorted cmp l2 ∧
  Forall (λ a, cmp a.1 k = Lt) l1 ∧ Forall (λ b, cmp k b.1 = Lt) l2.
Proof using All.
  unfold sorted. rewrite StronglySorted_app, StronglySorted_cons, !Forall_forall.
  unfold key_lt. simpl. split.
  - intros (H & ? & ? & ?). split_and!; try done. intros a Ha. apply (H a (k, v)); set_solver.
  - intros (? & ? & H1 & H2). split_and!; try done. intros a b Ha [->|Hb]%elem_of_cons; [by apply H1|].
    eapply cmp_lt_trans; [by apply H1|by apply H2].
Qed.

Lemma get_app_lt l1 l2 k v key : cmp key k = Lt → get cmp (l1 ++ (k, v) :: l2) key = get cmp l1 key.
Proof. intros H. induction l1 as [|[k1 v1] l1 IH]; simpl; [by rewrite H|by rewrite IH]. Qed.

Lemma put_app_lt l1 l2 k v key w :
  cmp key k = Lt → put cmp (l1 ++ (k, v) :: l2) key w = put cmp l1 key w ++ (k, v) :: l2.
Proof.
  intros H. induction l1 as [|[k1 v1] l1 IH]; simpl; [by rewrite H|].
  by destruct (cmp key k1); rewrite ?IH.
Qed.

Lemma del_app_lt l1 l2 k v key :
  cmp key k = Lt → del cmp (l1 ++ (k, v) :: l2) key = del cmp l1 key ++ (k, v) :: l2.
Proof.
  intros H. induction l1 as [|[k1 v1] l1 IH]; simpl; [by rewrite H|].
  by destruct (cmp key k1); rewrite ?IH.
Qed.

(** Past a prefix of smaller keys the operations act on the rest. *)
Lemma get_app_ge l1 l2 key :
  Forall (λ a, cmp a.1 key = Lt) l1 → get cmp (l1 ++ l2) key = get cmp l2 key.
Proof using All.
  induction 1 as [|[k1 v1] l1 H _ IH]; simpl; [done|]. by rewrite (proj2 (cmp_gt_lt cmp key k1) H).
Qed.

Lemma put_app_ge l1 l2 key w :
  Forall (λ a, cmp a.1 key = Lt) l1 → put cmp (l1 ++ l2) key w = l1 ++ put cmp l2 key w.
Proof using All.
  induction 1 as [|[k1 v1] l1 H _ IH]; simpl; [done|]. by rewrite (proj2 (cmp_gt_lt cmp key k1) H), IH.
Qed.

Lemma del_app_ge l1 l2 key :
  Forall (λ a, cmp a.1 key = Lt) l1 → del cmp (l1 ++ l2) key = l1 ++ del cmp l2 key.
Proof using All.
  induction 1 as [|[k1 v1] l1 H _ IH]; simpl; [done|]. by rewrite (proj2 (cmp_gt_lt cmp key k1) H), IH.
Qed.

Lemma Forall_lt_trans l1 k key :
  cmp key k = Gt → Forall (λ a, cmp a.1 k = Lt) l1 → Forall (λ a, cmp a.1 key = Lt) l1.
Proof using All.
  intros H%(cmp_gt_lt cmp) HF. eapply Forall_impl; [exact HF|]. intros a Ha. exact (cmp_lt_trans _ _ _ Ha H).
Qed.

Lemma Forall_gt_trans l k key :
  cmp key k = Lt → Forall (λ a, cmp k a.1 = Lt) l → Forall (λ a, cmp key a.1 = Lt) l.
Proof using All. intros H HF. eapply Forall_impl; [exact HF|]. intros a Ha. exact (cmp_lt_trans _ _ _ H Ha). Qed.

Lemma put_lt_Forall (P : K → Prop) l key w :
  P key → Forall (λ a, P a.1) l → Forall (λ a, P a.1) (put cmp l key w).
Proof.
  intros HP. induction 1 as [|[k v] l Hk Hl IH]; simpl; [by constructor|].
  destruct (cmp key k); repeat constructor; done.
Qed.

Lemma sorted_put l key w : sorted cmp l → sorted cmp (put cmp l key w).
Proof using All.
  unfold sorted. induction l as [|[k v] l IH]; simpl; [by repeat constructor|].
  rewrite StronglySorted_cons. intros [Hk Hl]. unfold key_lt in Hk. simpl in Hk.
  destruct (cmp key k) eqn:E.
  - apply cmp_eq in E as ->. by rewrite StronglySorted_cons.
  - rewrite !StronglySorted_cons. split_and!; try done.
    constructor; [done|]. by apply (Forall_gt_trans _ k).
  - rewrite StronglySorted_cons. split; [|by apply IH].
    by apply (put_lt_Forall (λ a, cmp k a = Lt)); [apply (cmp_gt_lt cmp)|].
Qed.

Lemma del_Forall (P : K * V → Prop) l key : Forall P l → Forall P (del cmp l key).
Proof. induction 1 as [|[k v] l Hk Hl IH]; simpl; [done|]. destruct (cmp key k); by repeat constructor. Qed.

Lemma sorted_del l key : sorted cmp l → sorted cmp (del cmp l key).
Proof.
  unfold sorted. induction l as [|[k v] l IH]; simpl; [done|].
  rewrite StronglySorted_cons. intros [Hk Hl].
  destruct (cmp key k); [done|by rewrite StronglySorted_cons|].
  rewrite StronglySorted_cons. split; [by apply del_Forall|by apply IH].
Qed.

Lemma length_put l key w :
  length (put cmp l key w) = (if is_some (get cmp l key) then length l else S (length l)).
Proof.
  induction l as [|[k v] l IH]; simpl; [done|]. destruct (cmp key k); simpl; [done..|].
  rewrite IH. by destruct (is_some _).
Qed.

Lemma length_del l key :
  length l = (if is_some (get cmp l key) then S (length (del cmp l key)) else length (del cmp l key)).
Proof.
  induction l as [|[k v] l IH]; simpl; [done|]. destruct (cmp key k); simpl; [done..|].
  rewrite IH. by destruct (is_some _).
Qed.

(** The association list is a finite map: [get] after [put] and [del]. *)
Lemma get_put l key w k :
  sorted cmp l → get cmp (put cmp l key w) k = match cmp k key with Eq => Some w | _ => get cmp l k end.
Proof using All.
  induction l as [|[k1 v1] l IH]; simpl; [by destruct (cmp k key)|].
  intros [Hk Hl]%StronglySorted_cons. destruct (cmp key k1) eqn:E; simpl.
  - apply cmp_eq in E as ->. by destruct (cmp k k1).
  - destruct (cmp k key) eqn:E'; try done. by rewrite (cmp_lt_trans _ _ _ E' E).
  - destruct (cmp k k1) eqn:E'; [| |by apply IH].
    + apply cmp_eq in E' as ->. apply (cmp_gt_lt cmp) in E. by rewrite E.
    + apply (cmp_gt_lt cmp) in E. by rewrite (cmp_lt_trans _ _ _ E' E).
Qed.

Lemma get_lt l k : Forall (λ b, cmp k b.1 = Lt) l → get cmp l k = None.
Proof. intros H. destruct H as [|[k1 v1] l H _]; simpl in *; [done|by rewrite H]. Qed.

Lemma get_del l key k :
  sorted cmp l → get cmp (del cmp l key) k = match cmp k key with Eq => None | _ => get cmp l k end.
Proof using All.
  induction l as [|[k1 v1] l IH]; simpl; [by destruct (cmp k key)|].
  intros [Hk Hl]%StronglySorted_cons. destruct (cmp key k1) eqn:E; simpl.
  - apply cmp_eq in E as ->. destruct (cmp k k1) eqn:E'; [..|done]; apply get_lt.
    + by apply cmp_eq in E' as ->.
    + by apply (Forall_gt_trans _ k1).
  - destruct (cmp k key) eqn:E'; try done. apply cmp_eq in E' as ->. by rewrite E.
  - destruct (cmp k k1) eqn:E'; [| |by apply IH].
    + apply cmp_eq in E' as ->. apply (cmp_gt_lt cmp) in E. by rewrite E.
    + apply (cmp_gt_lt cmp) in E. by rewrite (cmp_lt_trans _ _ _ E' E).
Qed.
End sorted.

(** * In-order walks *)
Section walk.
Context {K V : Type}.
Implicit Types (t : tree K V).

Lemma skew_to_list t : Tree.to_list (Tree.skew t) = Tree.to_list t.
Proof.
  destruct t as [|k v [|sk sv sl sr slv] r lv]; try done.
  cbn [Tree.skew]. destruct (slv =? lv); [|done]. cbn [Tree.to_list]. by rewrite <- app_assoc.
Qed.

Lemma split_to_list t : Tree.to_list (Tree.split t) = Tree.to_list t.
Proof.
  destruct t as [|k v l [|sk sv sl [|yk yv yl yr ylv] slv] lv]; try done.
  cbn [Tree.split]. destruct (ylv =? lv); [|done]. cbn [Tree.to_list]. by rewrite <- app_assoc.
Qed.

Lemma set_level_to_list t lv : Tree.to_list (Tree.set_level t lv) = Tree.to_list t.
Proof. by destruct t. Qed.

Lemma on_right_to_list f t :
  (∀ x, Tree.to_list (f x) = Tree.to_list x) → Tree.to_list (Tree.on_right f t) = Tree.to_list t.
Proof. intros H. destruct t as [|k v l [|rk rv rl rr rlv] lv]; try done. cbn [Tree.on_right Tree.to_list]. by rewrite H. Qed.

Lemma rebalance_to_list t : Tree.to_list (Tree.rebalance t) = Tree.to_list t.
Proof.
  destruct t as [|k v l r lv]; [done|]. cbn [Tree.rebalance]. case_match; [|done]. cbv zeta.
  rewrite on_right_to_list by apply split_to_list. rewrite split_to_list.
  rewrite on_right_to_list, skew_to_list.
  - cbn [Tree.to_list]. by case_match; rewrite ?set_level_to_list.
  - intros x. rewrite on_right_to_list by apply skew_to_list. apply skew_to_list.
Qed.

Lemma size_to_list t : Tree.size t = length (Tree.to_list t).
Proof. induction t as [|k v l IHl r IHr lv]; simpl; [done|]. rewrite length_app. simpl. lia. Qed.

(** [heir_swap] puts the pair in place of the last one of the walk. *)
Lemma heir_swap_spec t kv :
  t ≠ Leaf →
  ∃ l kv' t', Tree.heir_swap kv t = (kv', t') ∧ Tree.to_list t = l ++ [kv'] ∧
    Tree.to_list t' = l ++ [kv] ∧ Tree.size t' = Tree.size t.
Proof.
  induction t as [|k v l _ r IHr lv]; [done|]. intros _. cbn [Tree.heir_swap].
  destruct r as [|rk rv rl rr rlv]; [destruct kv; eexists (Tree.to_list l), _, _; by split_and!|].
  destruct IHr as (l0 & kv' & t' & E & E1 & E2 & E3); [done|]. rewrite E.
  eexists (Tree.to_list l ++ (k, v) :: l0), _, _. split; [done|].
  cbn [Tree.to_list] in *. rewrite E1, E2, <- !app_assoc. split_and!; [done..|].
  simpl in *. lia.
Qed.
End walk.

(** * The AA invariant *)
Section invariant.
Context {K V : Type}.
Implicit Types (t l r : tree K V) (k : K) (v : V).
Arguments Tree.aa {K V} !t /.
Arguments Tree.level {K V} !t /.
Arguments Tree.right {K V} !t /.

(** The level of a tree is at most its size, so it fits a [uint]. *)
Lemma level_size t : Tree.aa t → Tree.level t ≤ N.of_nat (Tree.size t).
Proof. induction t as [|k v l IHl r IHr lv]; simpl; [lia|]. intros (? & ? & ?%IHl & ?%IHr). lia. Qed.

Lemma level_0 t : Tree.aa t → Tree.level t = 0 → t = Leaf.
Proof. destruct t; simpl; [done|]. lia. Qed.

(** What a rotation after a change of a subtree relies on. *)
Ltac aa_cases :=
  simpl in *; destruct_and?;
  repeat (match goal with
  | |- context [(?a =? ?b)%N] => destruct (N.eqb_spec a b); try (exfalso; lia)
  | |- context [(?a <? ?b)%N] => destruct (N.ltb_spec a b); try (exfalso; lia)
  end; simpl in *).

Ltac aa_solve := simpl in *; destruct_and?; split_and!; solve [assumption|exact I|lia].

(** [insert] either keeps the level, or raises it by one to a node without a
    red right child. *)
Definition grown (t t' : tree K V) : Prop :=
  Tree.aa t' ∧
  (Tree.level t' = Tree.level t ∨
   Tree.level t' = Tree.level t + 1 ∧ Tree.level (Tree.right t') < Tree.level t' ∧
   Tree.level (Tree.right t) = Tree.level t).

Lemma grow_left k v l l' r lv :
  Tree.aa (Node k v l r lv) → grown l l' → lv < UINT_MAX →
  grown (Node k v l r lv) (Tree.split (Tree.skew (Node k v l' r lv))).
Proof.
  intros (Hl & Hr & Al & Ar) [Al' G] Hlv. unfold grown.
  destruct l' as [|lk lv' ll lr llv], r as [|rk rv rl [|rrk rrv rrl rrr rrlv] rlv];
    aa_cases; try (exfalso; lia).
  all: rewrite ?uadd_small by lia; aa_solve.
Qed.

Lemma grow_right k v l r r' lv :
  Tree.aa (Node k v l r lv) → grown r r' → lv < UINT_MAX →
  grown (Node k v l r lv) (Tree.split (Tree.skew (Node k v l r' lv))).
Proof.
  intros (Hl & Hr & Al & Ar) [Ar' G] Hlv. unfold grown.
  destruct l as [|lk lv' ll lr llv], r' as [|rk rv rl [|rrk rrv rrl rrr rrlv] rlv];
    aa_cases; try (exfalso; lia).
  all: rewrite ?uadd_small by lia; aa_solve.
Qed.

Lemma skew_id k v l r lv : Tree.level l ≠ lv → Tree.skew (Node k v l r lv) = Node k v l r lv.
Proof. destruct l; simpl; [done|]. by intros ->%N.eqb_neq. Qed.

Lemma split_id k v l r lv :
  Tree.level (Tree.right r) ≠ lv → Tree.split (Node k v l r lv) = Node k v l r lv.
Proof. destruct r as [|rk rv rl [] rlv]; simpl; try done. by intros ->%N.eqb_neq. Qed.

Lemma skew_aa t : Tree.aa t → Tree.skew t = t.
Proof. destruct t; [done|]. intros (? & _). apply skew_id. lia. Qed.

Lemma split_aa t : Tree.aa t → Tree.split t = t.
Proof. destruct t as [|k v l r lv]; [done|]. intros (? & ? & _ & ?). apply split_id. destruct r; aa_cases; lia. Qed.

Lemma on_right_id f t : f (Tree.right t) = Tree.right t → Tree.on_right f t = t.
Proof. destruct t as [|k v l [] lv]; simpl; try done. by intros ->. Qed.

(** [remove] keeps the level, and then adds no red right child, or lowers it by
    one. *)
Definition shrunk (t t' : tree K V) : Prop :=
  Tree.aa t' ∧
  (Tree.level t' = Tree.level t ∧
     (Tree.level (Tree.right t) < Tree.level t → Tree.level (Tree.right t') < Tree.level t') ∨
   Tree.level t' + 1 = Tree.level t).

Lemma rebalance_id k v l r lv :
  Tree.level l + 1 = lv → lv ≤ Tree.level r + 1 → lv ≤ UINT_MAX →
  Tree.rebalance (Node k v l r lv) = Node k v l r lv.
Proof.
  intros. cbn [Tree.rebalance]. rewrite usub_small by lia.
  by destruct (N.ltb_spec (Tree.level l) (lv - 1)), (N.ltb_spec (Tree.level r) (lv - 1)); try lia.
Qed.

(** The rotations of [rebalance]. *)
Definition skews (right : tree K V) : tree K V := Tree.on_right Tree.skew (Tree.skew right).
Definition rotations (save : tree K V) : tree K V :=
  Tree.on_right Tree.split (Tree.split (Tree.on_right skews (Tree.skew save))).

Lemma skews_aa t : Tree.aa t → skews t = t.
Proof.
  intros H. unfold skews. rewrite skew_aa by done. apply on_right_id, skew_aa.
  destruct t; aa_cases; done.
Qed.

Lemma rebalance_low k v l r lv :
  Tree.level l + 1 < lv ∨ Tree.level r + 1 < lv → lv ≤ UINT_MAX →
  Tree.rebalance (Node k v l r lv) =
  rotations (Node k v l (if lv - 1 <? Tree.level r then Tree.set_level r (lv - 1) else r) (lv - 1)).
Proof.
  intros. cbn [Tree.rebalance]. rewrite usub_small by lia.
  by destruct (N.ltb_spec (Tree.level l) (lv - 1)), (N.ltb_spec (Tree.level r) (lv - 1)); try lia.
Qed.

Definition settles (m : N) (t' : tree K V) : Prop :=
  Tree.aa t' ∧ (Tree.level t' = m ∨ Tree.level t' = m + 1 ∧ Tree.level (Tree.right t') < m + 1).

Lemma rotations_black k v l r m :
  Tree.aa l → Tree.aa r → Tree.level l + 1 = m → Tree.level r = m → m < UINT_MAX →
  settles m (rotations (Node k v l r m)).
Proof.
  intros Al Ar Hl Hr Hm. unfold rotations, settles.
  rewrite skew_id by lia. rewrite (on_right_id skews) by by apply skews_aa.
  destruct r as [|rk rv rl [|rrk rrv rrl rrr rrlv] rlv]; [simpl in *; lia|..].
  - simpl in Ar. cbn. aa_solve.
  - pose proof Ar as (? & ? & ? & Arr). cbn [Tree.split].
    destruct (N.eqb_spec rrlv m) as [->|]; cbn [Tree.on_right].
    + rewrite split_aa, uadd_small by (done || simpl in *; lia). aa_solve.
    + rewrite split_aa by done. aa_solve.
Qed.

Lemma rotations_red k v l rk rv rl rr m :
  Tree.aa l → Tree.aa rl → Tree.aa rr → Tree.level l + 1 = m → Tree.level rl = m → Tree.level rr = m →
  m < UINT_MAX →
  let t' := rotations (Node k v l (Node rk rv rl rr m) m) in Tree.aa t' ∧ Tree.level t' = m + 1.
Proof.
  intros Al Arl Arr Hl Hrl Hrr Hm. unfold rotations.
  rewrite skew_id by lia.
  destruct rl as [|a b rll rlr rllv]; [simpl in *; lia|]. simpl in Hrl. subst rllv.
  cbn [Tree.on_right]. unfold skews. cbn [Tree.skew]. rewrite N.eqb_refl.
  cbn [Tree.on_right]. destruct (decide (Tree.level rlr = m)) as [E|E].
  - destruct rlr as [|c d x y rlrlv]; [simpl in *; lia|]. simpl in E. subst rlrlv.
    cbn [Tree.skew]. rewrite N.eqb_refl. cbn [Tree.split]. rewrite N.eqb_refl.
    cbn [Tree.on_right Tree.split]. destruct rr as [|rrk rrv rrl rrr rrlv]; [simpl in *; lia|].
    simpl in Hrr. subst rrlv. rewrite N.eqb_refl, !uadd_small by lia. aa_solve.
  - rewrite skew_id by done. cbn [Tree.split]. rewrite N.eqb_refl. cbn [Tree.on_right].
    rewrite uadd_small by lia. destruct rr as [|rrk rrv rrl [|yk yv yl yr ylv] rrlv]; [simpl in *; lia|..].
    + cbn [Tree.split]. aa_solve.
    + cbn [Tree.split]. destruct (N.eqb_spec ylv m) as [->|]; [rewrite uadd_small by (simpl in *; lia)|]; aa_solve.
Qed.

Lemma rotations_low k v l r m :
  Tree.aa l → Tree.aa r → Tree.level l = m → Tree.level r + 1 = m → m < UINT_MAX →
  settles m (rotations (Node k v l r m)).
Proof.
  intros Al Ar Hl Hr Hm. unfold rotations, settles.
  destruct l as [|lk lv ll lr llv]; [simpl in *; lia|]. simpl in Hl. subst llv.
  cbn [Tree.skew]. rewrite N.eqb_refl. cbn [Tree.on_right]. unfold skews.
  destruct (decide (Tree.level lr = m)) as [E|E].
  - destruct lr as [|c d x y lrlv]; [simpl in *; lia|]. simpl in E. subst lrlv.
    cbn [Tree.skew]. rewrite N.eqb_refl. cbn [Tree.on_right].
    rewrite skew_id by (simpl in *; lia). cbn [Tree.split]. rewrite N.eqb_refl. cbn [Tree.on_right].
    rewrite uadd_small by lia. rewrite split_id by (destruct r; simpl in *; lia). aa_solve.
  - rewrite skew_id by done. rewrite (on_right_id Tree.skew) by by apply skew_aa.
    rewrite split_id by (simpl; lia). cbn [Tree.on_right].
    rewrite split_id by (destruct r; simpl in *; lia). aa_solve.
Qed.

Lemma shrink_left k v l l' r lv :
  Tree.aa (Node k v l r lv) → shrunk l l' → lv ≤ UINT_MAX →
  shrunk (Node k v l r lv) (Tree.rebalance (Node k v l' r lv)).
Proof.
  intros (Hl & Hr & Al & Ar) [Al' G] Hlv. destruct G as [[G _]|G].
  { rewrite rebalance_id by lia. unfold shrunk. aa_solve. }
  rewrite rebalance_low by lia. destruct Hr as [Hr|[Hr Hrr]].
  - rewrite (proj2 (N.ltb_ge _ _)) by lia.
    destruct (rotations_black k v l' r (lv - 1)) as [? H]; try done; try lia.
    unfold shrunk. simpl. split; [done|]. lia.
  - rewrite (proj2 (N.ltb_lt _ _)) by lia.
    destruct r as [|rk rv rl rr rlv]; [simpl in *; lia|]. cbn [Tree.set_level]. simpl in Hr, Hrr, Ar.
    destruct (rotations_red k v l' rk rv rl rr (lv - 1)) as [? H]; try apply Ar; try done; try lia.
    unfold shrunk. simpl. split; [done|]. lia.
Qed.

Lemma shrink_right k v l r r' lv :
  Tree.aa (Node k v l r lv) → shrunk r r' → lv ≤ UINT_MAX →
  shrunk (Node k v l r lv) (Tree.rebalance (Node k v l r' lv)).
Proof.
  intros (Hl & Hr & Al & Ar) [Ar' G] Hlv.
  destruct (decide (Tree.level r' + 1 < lv)).
  - rewrite rebalance_low, (proj2 (N.ltb_ge _ _)) by lia.
    destruct (rotations_low k v l r' (lv - 1)) as [? H]; try done; try lia.
    unfold shrunk. simpl. split; [done|]. lia.
  - rewrite rebalance_id by lia. unfold shrunk. simpl. split_and!; try done; lia.
Qed.
End invariant.

Lemma heir_swap_aa {K V} (t t' : tree K V) kv kv' :
  Tree.aa t → Tree.heir_swap kv t = (kv', t') →
  Tree.aa t' ∧ Tree.level t' = Tree.level t ∧ Tree.level (Tree.right t') = Tree.level (Tree.right t).
Proof.
  revert t' kv'. induction t as [|k v l _ r IHr lv]; intros t' kv'; cbn [Tree.heir_swap]; [by intros _ [= <- <-]|].
  intros (? & ? & ? & ?). destruct r as [|rk rv rl rr rlv]; [by intros [= <- <-]|].
  destruct (Tree.heir_swap kv _) as [kv1 r'] eqn:E. intros [= <- <-].
  destruct (IHr r' kv1) as (? & E1 & E2); [done..|]. cbn [Tree.aa Tree.level Tree.right] in *.
  by rewrite E1, E2.
Qed.

#[local] Arguments Tree.skew : simpl never.
#[local] Arguments Tree.split : simpl never.
#[local] Arguments Tree.rebalance : simpl never.

(** * The operations on trees refine those on association lists *)
Section refine.
Context {K V : Type} (cmp : K → K → comparison) `{!TotalOrd cmp}.
Implicit Types (t : tree K V) (key : K) (value : V).

Lemma find_get t key : sorted cmp (Tree.to_list t) → Tree.find cmp t key = get cmp (Tree.to_list t) key.
Proof using All.
  induction t as [|k v l IHl r IHr lv]; simpl; [done|]. intros (Hl & Hr & Hlk & Hkr)%(sorted_app cmp).
  destruct (cmp key k) eqn:E.
  - apply cmp_eq in E as ->. rewrite (get_app_ge cmp) by done. simpl. by rewrite cmp_refl.
  - rewrite get_app_lt by done. by apply IHl.
  - rewrite (get_app_ge cmp) by by eapply (Forall_lt_trans cmp). simpl. rewrite E. by apply IHr.
Qed.

Lemma insert_list t key value t' ret :
  sorted cmp (Tree.to_list t) → Tree.insert cmp t key value = (t', ret) →
  Tree.to_list t' = put cmp (Tree.to_list t) key value ∧ ret = get cmp (Tree.to_list t) key.
Proof using All.
  revert t' ret. induction t as [|k v l IHl r IHr lv]; intros t' ret; cbn [Tree.insert Tree.to_list]; [by intros _ [= <- <-]|].
  intros (Hl & Hr & Hlk & Hkr)%(sorted_app cmp). destruct (cmp key k) eqn:E.
  - intros [= <- <-]. apply cmp_eq in E as ->.
    rewrite (get_app_ge cmp), (put_app_ge cmp) by done. simpl. by rewrite cmp_refl.
  - destruct (Tree.insert cmp l key value) as [l' i]. intros [= <- <-].
    rewrite split_to_list, skew_to_list, get_app_lt, put_app_lt by done. cbn [Tree.to_list].
    by destruct (IHl l' i) as [-> ->].
  - destruct (Tree.insert cmp r key value) as [r' i]. intros [= <- <-].
    rewrite split_to_list, skew_to_list, (get_app_ge cmp), (put_app_ge cmp) by by eapply (Forall_lt_trans cmp).
    cbn [Tree.to_list get put]. rewrite E. by destruct (IHr r' i) as [-> ->].
Qed.

Lemma insert_aa t key value :
  Tree.aa t → N.of_nat (Tree.size t) < UINT_MAX → grown t (Tree.insert cmp t key value).1.
Proof using Type.
  induction t as [|k v l IHl r IHr lv]; intros A Hsz.
  { unfold grown. simpl. split_and!; try done; lia. }
  pose proof (level_size _ A) as Hlv. pose proof A as (_ & _ & Al & Ar).
  cbn [Tree.level Tree.size] in *. cbn [Tree.insert]. destruct (cmp key k).
  - unfold grown. cbn. split; [exact A|]. by left.
  - destruct (Tree.insert cmp l key value) as [l' i]. apply grow_left; [done|apply IHl; [done|lia]|lia].
  - destruct (Tree.insert cmp r key value) as [r' i]. apply grow_right; [done|apply IHr; [done|lia]|lia].
Qed.

Lemma find_mut_list t key f :
  sorted cmp (Tree.to_list t) → Tree.aa t →
  match Tree.find_mut cmp t key f with
  | None => get cmp (Tree.to_list t) key = None
  | Some t' => ∃ v, get cmp (Tree.to_list t) key = Some v ∧
      Tree.to_list t' = put cmp (Tree.to_list t) key (f v) ∧
      Tree.aa t' ∧ Tree.level t' = Tree.level t ∧ Tree.level (Tree.right t') = Tree.level (Tree.right t)
  end.
Proof using All.
  induction t as [|k v l IHl r IHr lv]; simpl; [done|].
  intros (Hl & Hr & Hlk & Hkr)%(sorted_app cmp) (H1 & H2 & Al & Ar). destruct (cmp key k) eqn:E.
  - apply cmp_eq in E as ->. exists v. rewrite (get_app_ge cmp), (put_app_ge cmp) by done. simpl. by rewrite cmp_refl.
  - specialize (IHl Hl Al). rewrite get_app_lt by done.
    destruct (Tree.find_mut cmp l key f) as [l'|]; simpl; [|done].
    destruct IHl as (w & ? & ? & ? & ? & ?). exists w. rewrite put_app_lt by done. by split_and!; congruence.
  - specialize (IHr Hr Ar). rewrite (get_app_ge cmp) by by eapply (Forall_lt_trans cmp). simpl. rewrite E.
    destruct (Tree.find_mut cmp r key f) as [r'|]; simpl; [|done].
    destruct IHr as (w & ? & Er & ? & E1 & E2). exists w. rewrite (put_app_ge cmp) by by eapply (Forall_lt_trans cmp).
    simpl. rewrite E, Er, E1, E2. by split_and!.
Qed.

(** The block of [remove] that exchanges a node with its predecessor. *)
Lemma heir_block k v (lk : K) (lvl : V) ll lr llv :
  match lr with
  | Leaf => ((lk, lvl), Node k v ll lr llv)
  | _ => let '(kv, lr') := Tree.heir_swap (k, v) lr in (kv, Node lk lvl ll lr' llv)
  end = Tree.heir_swap (k, v) (Node lk lvl ll lr llv).
Proof using Type. by destruct lr. Qed.

(** The walk of the left subtree once the pair to remove is its last one. *)
Lemma heir_lists l0 k v k' v' :
  sorted cmp (l0 ++ [(k', v')]) → Forall (λ a, cmp a.1 k = Lt) (l0 ++ [(k', v')]) →
  sorted cmp (l0 ++ [(k, v)]) ∧ del cmp (l0 ++ [(k, v)]) k = l0 ∧ get (V:=V) cmp (l0 ++ [(k, v)]) k = Some v.
Proof using All.
  intros (? & _)%(sorted_app cmp) [Hl0 _]%Forall_app.
  rewrite (get_app_ge cmp), (del_app_ge cmp) by done. simpl. rewrite (cmp_refl cmp).
  split_and!; [|by rewrite app_nil_r|done]. apply (sorted_app cmp). split_and!; try done; by constructor.
Qed.

(** [remove] never meets its failing paths: it returns the value of the key. *)
Lemma remove_spec fuel t key :
  Tree.aa t → sorted cmp (Tree.to_list t) → (Tree.size t < fuel)%nat → N.of_nat (Tree.size t) ≤ UINT_MAX →
  ∃ t', Tree.remove cmp fuel t key = Ok (t', get cmp (Tree.to_list t) key) ∧ shrunk t t' ∧
    Tree.to_list t' = del cmp (Tree.to_list t) key.
Proof using All.
  revert t. induction fuel as [|fuel IH]; [lia|]. intros [|k v l r lv] A Hs Hf Hu.
  { exists Leaf. unfold shrunk. simpl. split_and!; try done. left. by split. }
  pose proof (level_size _ A) as Hlv. pose proof A as (H1 & H2 & Al & Ar).
  cbn [Tree.level Tree.size Tree.to_list] in *.
  pose proof Hs as (Hl & Hr & Hlk & Hkr)%(sorted_app cmp).
  cbn [Tree.remove]. destruct (cmp key k) eqn:E.
  - apply cmp_eq in E as ->. rewrite (get_app_ge cmp), (del_app_ge cmp) by done.
    cbn [get del]. rewrite (cmp_refl cmp).
    destruct l as [|lk lvl ll lr llv], r as [|rk rv rl rr rlv].
    + exists Leaf. unfold shrunk. simpl in *. split_and!; try done. lia.
    + exists (Node rk rv rl rr rlv).
      assert (rl = Leaf ∧ rr = Leaf) as [-> ->] by (cbn in *; split; apply level_0; lia || apply Ar).
      rewrite rebalance_id by (cbn in *; lia). split_and!; [done| |done].
      unfold shrunk. cbn in *. lia.
    + cbn in *. lia.
    + rewrite heir_block.
      destruct (heir_swap_spec (Node lk lvl ll lr llv) (k, v)) as (l0 & [k' v'] & left' & Eh & E1 & E2 & E3); [done|].
      destruct (heir_swap_aa _ _ _ _ Al Eh) as (A' & E4 & E5). rewrite Eh.
      rewrite E1 in Hl, Hlk. destruct (heir_lists l0 k v k' v' Hl Hlk) as (Hs' & Ed & Eg).
      rewrite <- E2 in Hs', Ed, Eg.
      destruct (IH left') as (l' & -> & [Hsh1 Hsh2] & Hll); [done|done|rewrite E3; cbn in *; lia..|].
      simpl_ok. eexists. split; [by rewrite Eg|]. split.
      * apply (shrink_left k' v' (Node lk lvl ll lr llv) l'); [done| |lia].
        split; [done|]. by rewrite <- E4, <- E5.
      * rewrite rebalance_to_list. cbn [Tree.to_list] in *. by rewrite Hll, Ed, E1, <- app_assoc.
  - destruct (IH l) as (l' & -> & Hsh & El); [done|done|lia|lia|]. simpl_ok.
    eexists. split; [by rewrite get_app_lt by done|]. split; [apply shrink_left; try done; lia|].
    rewrite rebalance_to_list, del_app_lt by done. cbn [Tree.to_list]. by rewrite El.
  - destruct (IH r) as (r' & -> & Hsh & Er); [done|done|lia|lia|]. simpl_ok.
    assert (Forall (λ a, cmp a.1 key = Lt) (Tree.to_list l)) by by eapply (Forall_lt_trans cmp).
    eexists. rewrite (get_app_ge cmp), (del_app_ge cmp) by done. cbn [get del]. rewrite E.
    split; [done|]. split; [apply shrink_right; try done; lia|].
    rewrite rebalance_to_list. cbn [Tree.to_list]. by rewrite Er.
Qed.
End refine.

(** * Balance *)
Section balance.
Context {K V : Type}.

Fixpoint height (t : tree K V) : nat :=
  match t with Leaf => 0 | Node _ _ l r _ => S (height l `max` height r) end.

Lemma level_pow2 (t : tree K V) : Tree.aa t → 2 ^ Tree.level t ≤ N.of_nat (Tree.size t) + 1.
Proof.
  induction t as [|k v l IHl r IHr lv]; cbn [Tree.aa Tree.level Tree.size]; [lia|].
  intros (H1 & H2 & Al%IHl & Ar%IHr). subst lv. rewrite N.pow_add_r, N.pow_1_r.
  assert (2 ^ Tree.level l ≤ 2 ^ Tree.level r) by (apply N.pow_le_mono_r; lia). lia.
Qed.

Lemma height_level (t : tree K V) :
  Tree.aa t →
  N.of_nat (height t) ≤ 2 * Tree.level t ∧
  (Tree.level (Tree.right t) < Tree.level t → N.of_nat (height t) < 2 * Tree.level t).
Proof.
  induction t as [|k v l IHl r IHr lv]; cbn [Tree.aa Tree.level Tree.right height]; [lia|].
  intros (H1 & H2 & Al%IHl & Ar%IHr). lia.
Qed.

Lemma height_log2 (t : tree K V) :
  Tree.aa t → N.of_nat (height t) ≤ 2 * N.log2 (N.of_nat (Tree.size t) + 1).
Proof.
  intros A. destruct (height_level t A) as [H _]. pose proof (level_pow2 t A) as Hp.
  assert (Tree.level t ≤ N.log2 (N.of_nat (Tree.size t) + 1)); [|lia].
  rewrite <- (N.log2_pow2 (Tree.level t)) by lia. by apply N.log2_le_mono.
Qed.
End balance.

(** * The map refines a sorted association list *)
Section map_refine.
Context {K V : Type} (cmp : K → K → comparison) `{!TotalOrd cmp}.

Definition map_ok (m : TreeMap K V) : Prop :=
  Tree.aa (root m) ∧ sorted cmp (Tree.to_list (root m)) ∧
  length_ m = N.of_nat (length (Tree.to_list (root m))).

(** The calls a client makes, and the answers. *)
Inductive map_call : Type :=
| CLen
| CIsEmpty
| CClear
| CFind (key : K)
| CContains (key : K)
| CUpdate (key : K) (f : V → V)
| CSwap (key : K) (value : V)
| CInsert (key : K) (value : V)
| CPop (key : K)
| CRemove (key : K).

Inductive answer : Type :=
| AUnit
| ALen (n : N)
| ABool (b : bool)
| AValue (v : option V).

Definition call (m : TreeMap K V) (c : map_call) : outcome (TreeMap K V * answer) :=
  match c with
  | CLen => Ok (m, ALen (map_len m))
  | CIsEmpty => Ok (m, ABool (map_is_empty m))
  | CClear => Ok (map_clear m, AUnit)
  | CFind key => Ok (m, AValue (map_find cmp m key))
  | CContains key => Ok (m, ABool (map_contains_key cmp m key))
  | CUpdate key f => let '(m', b) := map_find_mut cmp m key f in Ok (m', ABool b)
  | CSwap key value => let '(m', o) := map_swap cmp m key value in Ok (m', AValue o)
  | CInsert key value => let '(m', b) := map_insert cmp m key value in Ok (m', ABool b)
  | CPop key => r ← map_pop cmp m key; let '(m', o) := r in Ok (m', AValue o)
  | CRemove key => r ← map_remove cmp m key; let '(m', b) := r in Ok (m', ABool b)
  end.

Fixpoint calls (m : TreeMap K V) (cs : list map_call) : outcome (TreeMap K V * list answer) :=
  match cs with
  | [] => Ok (m, [])
  | c :: cs =>
      r ← call m c;
      r' ← calls r.1 cs;
      Ok (r'.1, r.2 :: r'.2)
  end.

(** The specification of each call on the association list. *)
Definition spec_call (l : list (K * V)) (c : map_call) : list (K * V) * answer :=
  match c with
  | CLen => (l, ALen (N.of_nat (length l)))
  | CIsEmpty => (l, ABool (bool_decide (l = [])))
  | CClear => ([], AUnit)
  | CFind key => (l, AValue (get cmp l key))
  | CContains key => (l, ABool (is_some (get cmp l key)))
  | CUpdate key f =>
      match get cmp l key with
      | Some v => (put cmp l key (f v), ABool true)
      | None => (l, ABool false)
      end
  | CSwap key value => (put cmp l key value, AValue (get cmp l key))
  | CInsert key value => (put cmp l key value, ABool (negb (is_some (get cmp l key))))
  | CPop key => (del cmp l key, AValue (get cmp l key))
  | CRemove key => (del cmp l key, ABool (is_some (get cmp l key)))
  end.

Fixpoint spec_calls (l : list (K * V)) (cs : list map_call) : list (K * V) * list answer :=
  match cs with
  | [] => (l, [])
  | c :: cs =>
      let '(l', a) := spec_call l c in
      let '(l'', al) := spec_calls l' cs in (l'', a :: al)
  end.

Lemma map_swap_spec m key value :
  map_ok m → length_ m < UINT_MAX →
  ∃ m', map_swap cmp m key value = (m', get cmp (Tree.to_list (root m)) key) ∧ map_ok m' ∧
    Tree.to_list (root m') = put cmp (Tree.to_list (root m)) key value.
Proof using All.
  destruct m as [t n]. unfold map_ok, map_swap. cbn [root length_]. intros (A & Hs & Hn) Hu.
  pose proof (insert_aa cmp t key value A) as [A' _]; [rewrite size_to_list; lia|].
  destruct (Tree.insert cmp t key value) as [t' ret] eqn:E.
  destruct (insert_list cmp _ _ _ _ _ Hs E) as [Ht ->]. eexists. split; [done|]. cbn [root length_].
  rewrite Ht, length_put. split_and!; [done|by apply sorted_put| |done].
  destruct (is_some _); [done|]. rewrite uadd_small; lia.
Qed.

Lemma map_pop_spec m key :
  map_ok m → length_ m ≤ UINT_MAX →
  ∃ m', map_pop cmp m key = Ok (m', get cmp (Tree.to_list (root m)) key) ∧ map_ok m' ∧
    Tree.to_list (root m') = del cmp (Tree.to_list (root m)) key.
Proof using All.
  destruct m as [t n]. unfold map_ok, map_pop. cbn [root length_]. intros (A & Hs & Hn) Hu.
  destruct (remove_spec cmp (S (Tree.size t)) t key) as (t' & -> & [A' _] & Ht);
    [done|done|lia|rewrite size_to_list; lia|]. simpl_ok.
  eexists. split; [done|]. cbn [root length_]. rewrite Ht. split_and!; [done|by apply sorted_del| |done].
  pose proof (length_del cmp (Tree.to_list t) key). destruct (is_some _); [|lia].
  rewrite usub_small; lia.
Qed.

Lemma map_find_mut_spec m key f :
  map_ok m →
  ∃ m' b, map_find_mut cmp m key f = (m', b) ∧ map_ok m' ∧
    (Tree.to_list (root m'), ABool b) = spec_call (Tree.to_list (root m)) (CUpdate key f).
Proof using All.
  destruct m as [t n]. unfold map_ok, map_find_mut. cbn [root length_]. intros (A & Hs & Hn).
  pose proof (find_mut_list cmp t key f Hs A) as H. cbn [spec_call].
  destruct (Tree.find_mut cmp t key f) as [t'|].
  - destruct H as (v & Eg & Ht & A' & _ & _). rewrite Eg. eexists _, _. split; [done|].
    cbn [root length_]. rewrite Ht, length_put, Eg. split_and!; [done|by apply sorted_put|done..].
  - rewrite H. eexists _, _. split; [done|]. by split_and!.
Qed.

Lemma map_is_empty_spec m : map_is_empty m = bool_decide (Tree.to_list (V:=V) (root (K:=K) m) = []).
Proof using Type. destruct m as [[|k v l r lv] n]; simpl; [done|]. by destruct (Tree.to_list l). Qed.

Lemma call_spec m c :
  map_ok m → length_ m < UINT_MAX →
  ∃ m' a, call m c = Ok (m', a) ∧ map_ok m' ∧
    spec_call (Tree.to_list (root m)) c = (Tree.to_list (root m'), a) ∧ length_ m' ≤ length_ m + 1.
Proof using All.
  intros Hok Hu. assert (∃ m' a, call m c = Ok (m', a) ∧ map_ok m' ∧
    spec_call (Tree.to_list (root m)) c = (Tree.to_list (root m'), a)) as (m' & a & H1 & H2 & H3).
  { pose proof Hok as (A & Hs & Hn). destruct c; cbn [call spec_call].
    - eexists _, _. split; [done|]. split; [done|]. unfold map_len. by rewrite Hn.
    - eexists _, _. split; [done|]. by rewrite map_is_empty_spec.
    - eexists _, _. split; [done|]. by split; [split_and!; [done|constructor|done]|].
    - eexists _, _. split; [done|]. unfold map_find. by rewrite (find_get cmp).
    - eexists _, _. split; [done|]. unfold map_contains_key, map_find. by rewrite (find_get cmp).
    - destruct (map_find_mut_spec m key f Hok) as (m' & b & -> & ? & Hb). eexists _, _. by split_and!.
    - destruct (map_swap_spec m key value Hok Hu) as (m' & -> & ? & <-). eexists _, _. by split_and!.
    - unfold map_insert. destruct (map_swap_spec m key value Hok Hu) as (m' & -> & ? & <-).
      eexists _, _. by split_and!.
    - destruct (map_pop_spec m key Hok) as (m' & -> & ? & <-); [lia|]. eexists _, _. by split_and!.
    - unfold map_remove. destruct (map_pop_spec m key Hok) as (m' & -> & ? & <-); [lia|].
      eexists _, _. by split_and!. }
  exists m', a. split_and!; try done. destruct Hok as (_ & _ & ->), H2 as (_ & _ & ->).
  replace (Tree.to_list (root m')) with (spec_call (Tree.to_list (root m)) c).1 by by rewrite H3.
  pose proof (length_put cmp (Tree.to_list (root m))) as Hp.
  pose proof (length_del cmp (Tree.to_list (root m))) as Hd.
  destruct c as [| | |?|?|key f|key value|key value|key|key]; cbn [spec_call fst length]; try lia.
  1: destruct (get cmp _ key) as [v|]; cbn [fst]; [specialize (Hp key (f v))|lia].
  2-3: specialize (Hp key value).
  4-5: specialize (Hd key).
  all: destruct (is_some _); lia.
Qed.

Lemma calls_spec cs m :
  map_ok m → length_ m + N.of_nat (length cs) ≤ UINT_MAX →
  ∃ m' al, calls m cs = Ok (m', al) ∧ map_ok m' ∧
    spec_calls (Tree.to_list (root m)) cs = (Tree.to_list (root m'), al).
Proof using All.
  revert m. induction cs as [|c cs IH]; intros m Hok Hu; cbn [length] in Hu; [by eexists _, _|].
  destruct (call_spec m c Hok) as (m1 & a & E & Hok1 & Es & Hl); [lia|].
  destruct (IH m1 Hok1) as (m' & al & Ec & Hok' & Ess); [lia|].
  cbn [calls spec_calls]. rewrite E. simpl_ok. rewrite Ec. simpl_ok. rewrite Es, Ess. by eexists _, _.
Qed.

Lemma map_new_ok : map_ok map_new.
Proof using Type. split_and!; [done|constructor|done]. Qed.

(** C13. A [TreeMap] behaves as a sorted association list: every sequence of
    calls on a new map (of fewer than [2^64] calls) returns - [remove] never
    reaches its [fail!()] or an unwrap of [None] -, answers as the list
    operations do, and leaves a balanced tree whose in-order walk is the list
    and whose [length] is its length. *)
Theorem treemap_refines cs :
  N.of_nat (length cs) ≤ UINT_MAX →
  ∃ m al, calls map_new cs = Ok (m, al) ∧
    spec_calls [] cs = (Tree.to_list (root m), al) ∧
    sorted cmp (Tree.to_list (root m)) ∧
    map_len m = N.of_nat (length (Tree.to_list (root m))) ∧
    N.of_nat (height (root m)) ≤ 2 * N.log2 (map_len m + 1).
Proof using All.
  intros Hu. destruct (calls_spec cs map_new map_new_ok) as (m & al & ? & (A & ? & El) & ?); [done|].
  exists m, al. split_and!; try done. unfold map_len. rewrite El, <- size_to_list. by apply height_log2.
Qed.
End map_refine.

Definition count_down : list (map_call (K:=N) (V:=N)) :=
  CSwap 5 50 :: CInsert 3 30 :: CInsert 4 40 :: CInsert 1 10 :: CInsert 2 20 :: CSwap 4 44 ::
  CPop 3 :: CRemove 9 :: CUpdate 1 (N.add 1) :: CFind 1 :: CPop 5 :: CLen :: CIsEmpty :: CContains 3 :: [].

Lemma treemap_refines_witness :
  N.of_nat (length count_down) ≤ UINT_MAX ∧
  ∃ m al, calls N.compare map_new count_down = Ok (m, al) ∧
    spec_calls N.compare [] count_down = (Tree.to_list (root m), al) ∧
    sorted N.compare (Tree.to_list (root m)) ∧
    map_len m = N.of_nat (length (Tree.to_list (root m))) ∧
    N.of_nat (height (root m)) ≤ 2 * N.log2 (map_len m + 1).
Proof. split; [by vm_compute|]. apply (treemap_refines N.compare count_down). by vm_compute. Defined.
