(* ===== verification/TreeIter.v ===== *)
(** The iterators of [libcollections/treemap.rs] and the comparison of maps.

    [Entries] walks a tree with an explicit stack, in either direction;
    [lower_bound] and [upper_bound] start it in the middle; [MoveEntries] takes
    the tree apart.  The mutable iterators are generated
    by the same macro as the others and visit the same nodes. *)
From stdpp Require Import base list.
From Stdlib Require Import NArith Lia.
From S2P Require Import Prelude Iter IterOk IterLaws TreeMap.
Local Open Scope N_scope.

(** * [Entries] and [RevEntries] *)
Record Entries (K V : Type) : Type := mkEntries {
  stack : list (tree K V);    (* the last element pushed first *)
  node : tree K V;
  remaining_min : N;
  remaining_max : N
}.
Arguments mkEntries {K V}.
Arguments stack {K V}.
Arguments node {K V}.
Arguments remaining_min {K V}.
Arguments remaining_max {K V}.

Section entries.
Context {K V : Type}.

(** [next_(forward)] *)
Fixpoint next_ (fuel : nat) (forward : bool) (it : Entries K V) : outcome (option (K * V) * Entries K V) :=
  match fuel with
  | O => Fail OutOfFuel
  | S fuel =>
      match node it with
      | Node k v l r lv =>
          next_ fuel forward
            (mkEntries (node it :: stack it) (if forward then l else r) (remaining_min it) (remaining_max it))
      | Leaf =>
          match stack it with
          | [] => Ok (None, it)
          | Leaf :: _ => Fail Undefined
          | Node k v l r lv :: rest =>
              Ok (Some (k, v),
                  mkEntries rest (if forward then r else l)
                    (if 0 <? remaining_min it then remaining_min it - 1 else remaining_min it)
                    (usub (remaining_max it) 1))
          end
      end
  end.

Definition entries_size_hint (it : Entries K V) : N * option N := (remaining_min it, Some (remaining_max it)).

Definition tree_iter (m : TreeMap K V) : Entries K V := mkEntries [] (root m) (length_ m) (length_ m).
Definition iter_for_traversal (m : TreeMap K V) : Entries K V := mkEntries [] (root m) 0 (length_ m).
Definition traverse_left (it : Entries K V) : Entries K V :=
  match node it with
  | Leaf => it
  | Node _ _ l _ _ => mkEntries (node it :: stack it) l (remaining_min it) (remaining_max it)
  end.
Definition traverse_right (it : Entries K V) : Entries K V :=
  match node it with
  | Leaf => it
  | Node _ _ _ r _ => mkEntries (stack it) r (remaining_min it) (remaining_max it)
  end.
Definition traverse_complete (it : Entries K V) : Entries K V :=
  match node it with
  | Leaf => it
  | Node _ _ _ _ _ => mkEntries (node it :: stack it) Leaf (remaining_min it) (remaining_max it)
  end.

(** The loop of [bound_setup!]. *)
Fixpoint bound_setup (cmp : K → K → comparison) (fuel : nat) (it : Entries K V) (k : K) (is_lower_bound : bool)
    : outcome (Entries K V) :=
  match fuel with
  | O => Fail OutOfFuel
  | S fuel =>
      match node it with
      | Leaf => Ok (traverse_complete it)
      | Node node_k _ _ _ _ =>
          match cmp k node_k with
          | Lt => bound_setup cmp fuel (traverse_left it) k is_lower_bound
          | Gt => bound_setup cmp fuel (traverse_right it) k is_lower_bound
          | Eq => if is_lower_bound then Ok (traverse_complete it)
                  else bound_setup cmp fuel (traverse_right it) k is_lower_bound
          end
      end
  end.
Definition lower_bound (cmp : K → K → comparison) (m : TreeMap K V) (k : K) : outcome (Entries K V) :=
  bound_setup cmp (S (Tree.size (root m))) (iter_for_traversal m) k true.
Definition upper_bound (cmp : K → K → comparison) (m : TreeMap K V) (k : K) : outcome (Entries K V) :=
  bound_setup cmp (S (Tree.size (root m))) (iter_for_traversal m) k false.
End entries.

#[export] Instance Entries_Iterator {K V} : Iterator (Entries K V) (K * V) :=
  { next fuel it := next_ fuel true it; size_hint := entries_size_hint }.

Record RevEntries (K V : Type) : Type := mkRevEntries { rev_entries : Entries K V }.
Arguments mkRevEntries {K V}.
Arguments rev_entries {K V}.
Definition map_rev_iter {K V} (m : TreeMap K V) : RevEntries K V := mkRevEntries (tree_iter m).

Definition rev_next {K V} (fuel : nat) (it : RevEntries K V) : outcome (option (K * V) * RevEntries K V) :=
  '(x, i) ← next_ fuel false (rev_entries it); Ok (x, mkRevEntries i).
#[export] Instance RevEntries_Iterator {K V} : Iterator (RevEntries K V) (K * V) :=
  { next := rev_next; size_hint it := entries_size_hint (rev_entries it) }.

(** * [MoveEntries] *)
Record MoveEntries (K V : Type) : Type := mkMoveEntries { move_stack : list (tree K V); remaining : N }.
Arguments mkMoveEntries {K V}.
Arguments move_stack {K V}.
Arguments remaining {K V}.

Definition map_move_iter {K V} (m : TreeMap K V) : MoveEntries K V :=
  mkMoveEntries (match root m with Leaf => [] | tn => [tn] end) (length_ m).

Fixpoint move_next {K V} (fuel : nat) (it : MoveEntries K V) : outcome (option (K * V) * MoveEntries K V) :=
  match fuel with
  | O => Fail OutOfFuel
  | S fuel =>
      match move_stack it with
      | [] => Ok (None, it)
      | Leaf :: _ => Fail Undefined
      | Node key value l r level :: rest =>
          match l with
          | Leaf =>
              Ok (Some (key, value),
                  mkMoveEntries (match r with Leaf => rest | _ => r :: rest end) (usub (remaining it) 1))
          | _ => move_next fuel (mkMoveEntries (l :: Node key value Leaf r level :: rest) (remaining it))
          end
      end
  end.

#[export] Instance MoveEntries_Iterator {K V} : Iterator (MoveEntries K V) (K * V) :=
  { next := move_next; size_hint it := (remaining it, Some (remaining it)) }.

(** * Comparison of maps *)
Section compare.
Context {K V : Type}.

Definition map_eq (eqb : K * V → K * V → bool) (fuel : nat) (a b : TreeMap K V) : outcome bool :=
  if map_len a =? map_len b then
    '(r, _) ← iter_all fuel (iter_zip (tree_iter a) (tree_iter b)) (λ p, eqb p.1 p.2); Ok r
  else Ok false.

(** The function [lt]; the other operators of [Ord] call it. *)
Definition lt_body (cmpk : K → K → comparison) (cmpv : V → V → comparison) (_ : unit) (p : (K * V) * (K * V))
    : unit + bool :=
  let '((key_a, value_a), (key_b, value_b)) := p in
  match cmpk key_a key_b with
  | Lt => inr true
  | Gt => inr false
  | Eq => match cmpv value_a value_b with Lt => inr true | Gt => inr false | Eq => inl tt end
  end.
Definition map_lt (cmpk : K → K → comparison) (cmpv : V → V → comparison) (fuel : nat) (a b : TreeMap K V)
    : outcome bool :=
  '(r, _) ← for_ fuel (iter_zip (tree_iter a) (tree_iter b)) tt (lt_body cmpk cmpv);
  match r with
  | inr res => Ok res
  | inl _ => Ok (map_len a <? map_len b)
  end.
Definition map_le cmpk cmpv (fuel : nat) (a b : TreeMap K V) : outcome bool := negb <$> map_lt cmpk cmpv fuel b a.
Definition map_ge cmpk cmpv (fuel : nat) (a b : TreeMap K V) : outcome bool := negb <$> map_lt cmpk cmpv fuel a b.
Definition map_gt cmpk cmpv (fuel : nat) (a b : TreeMap K V) : outcome bool := map_lt cmpk cmpv fuel b a.
End compare.
