(* ===== verification/TreeWalk.v ===== *)
(** Correctness of the tree iterators: forwards and backwards they give the
    in-order walk, from a bound on its part above the bound, and the comparison
    of two maps is the comparison of their walks. *)
From stdpp Require Import base list sorting.
From Stdlib Require Import NArith Lia.
From S2P Require Import Prelude Iter IterOk IterLaws IterOrd TreeMap TreeMapSound TreeIter.
Local Open Scope N_scope.
Local Open Scope model_scope.

Section entries.
Context {K V : Type}.
Implicit Types (t : tree K V) (it : Entries K V).

(** The walk in the direction of the iterator. *)
Fixpoint walk (forward : bool) t : list (K * V) :=
  match t with
  | Leaf => []
  | Node k v l r _ =>
      if forward then walk forward l ++ (k, v) :: walk forward r else walk forward r ++ (k, v) :: walk forward l
  end.

Lemma walk_to_list forward t : walk forward t = if forward then Tree.to_list t else rev (Tree.to_list t).
Proof.
  induction t as [|k v l IHl r IHr lv]; simpl; [by destruct forward|]. rewrite IHl, IHr.
  destruct forward; [done|]. rewrite rev_app_distr. simpl. by rewrite <- app_assoc.
Qed.

(** A node on the stack stands for its own entry and the subtree after it. *)
Definition entry_of (forward : bool) t : list (K * V) :=
  match t with Leaf => [] | Node k v l r _ => (k, v) :: walk forward (if forward then r else l) end.

Definition pending (forward : bool) it : list (K * V) :=
  walk forward (node it) ++ concat (entry_of forward <$> stack it).

Definition entries_model (forward : bool) it (l : list (K * V)) : Prop :=
  Forall (λ t, t ≠ Leaf) (stack it) ∧ pending forward it = l ∧
  remaining_min it ≤ N.of_nat (length l) ≤ remaining_max it ∧ remaining_max it ≤ UINT_MAX.

Lemma next_ok' forward it l :
  entries_model forward it l →
  ∃ it', (λ fuel, next_ fuel forward it) ⇓ (head l, it') ∧ entries_model forward it' (tail l).
Proof.
  destruct it as [st t lo hi]. revert st. induction t as [|k v tl IHl tr IHr lv]; intros st (Hst & <- & Hb & Hu);
    unfold pending in *; cbn [stack node remaining_min remaining_max] in *.
  - destruct st as [|[|k v l r lv] st]; [|by apply Forall_cons in Hst as [? _]|].
    + exists (mkEntries [] Leaf lo hi). split; [|by split]. eapply ends_S; [done|]. apply ends_ret.
    + cbn [walk app fmap list_fmap concat entry_of head tail length] in *. eexists. split; [eapply ends_S; [done|]; apply ends_ret|].
      apply Forall_cons in Hst as [_ Hst]. split; [done|]. split; [by destruct forward|]. cbn [stack node remaining_min remaining_max].
      rewrite usub_small by lia. destruct (N.ltb_spec 0 lo); lia.
  - assert (∀ t', t' = (if forward then tl else tr) →
      entries_model forward (mkEntries (Node k v tl tr lv :: st) t' lo hi)
        (walk forward (Node k v tl tr lv) ++ concat (entry_of forward <$> st))) as Hm.
    { intros t' ->. split; [by constructor|]. split; [|done]. unfold pending. cbn [stack node].
      rewrite fmap_cons. cbn [concat walk entry_of]. destruct forward; by rewrite <- app_assoc. }
    destruct forward.
    + destruct (IHl _ (Hm _ eq_refl)) as (it' & Hn & Hm'). exists it'. split; [by eapply ends_S|done].
    + destruct (IHr _ (Hm _ eq_refl)) as (it' & Hn & Hm'). exists it'. split; [by eapply ends_S|done].
Qed.
End entries.

#[export] Instance Entries_ok {K V} : IteratorOk (Entries K V) (K * V).
Proof.
  refine {| models := entries_model true |}; [apply next_ok'|].
  intros it l (_ & _ & Hb & _). split; cbn [fst snd size_hint Entries_Iterator entries_size_hint]; lia.
Defined.
#[export] Instance RevEntries_ok {K V} : IteratorOk (RevEntries K V) (K * V).
Proof.
  refine {| models it := entries_model false (rev_entries it) |}.
  - intros [it] l (it' & Hn & Hm)%next_ok'. exists (mkRevEntries it'). split; [run Hn; apply ends_ret|done].
  - intros [it] l (_ & _ & Hb & _).
    split; cbn [fst snd size_hint RevEntries_Iterator entries_size_hint rev_entries] in *; lia.
Defined.

(** [MoveEntries]: the stack holds the trees still to give. *)
#[export] Instance MoveEntries_ok {K V} : IteratorOk (MoveEntries K V) (K * V).
Proof.
  refine {| models it l := Forall (λ t, t ≠ Leaf) (move_stack it) ∧ concat (Tree.to_list <$> move_stack it) = l ∧
    remaining it = N.of_nat (length l) ∧ remaining it ≤ UINT_MAX |}.
  - intros [[|t st] n] l (Hst & <- & Hn & Hu); cbn [move_stack remaining] in *.
    { exists (mkMoveEntries [] n). split; [|done]. eapply ends_S; [done|]. apply ends_ret. }
    apply Forall_cons in Hst as [Ht Hst]. revert st Hst Hn.
    induction t as [|k v tl IHl tr IHr lv]; intros st Hst Hn; [done|]. destruct tl as [|lk lv' ll lr llv].
    + eexists. split; [eapply ends_S; [done|]; apply ends_ret|]. cbn in Hn. cbn [move_stack remaining tail concat fmap list_fmap Tree.to_list app].
      rewrite usub_small by lia. split_and!; [|by destruct tr|lia|lia].
      destruct tr; [done|by constructor].
    + clear IHr. destruct (IHl ltac:(done) (Node k v Leaf tr lv :: st)) as (it' & Hn' & Hm).
      * by constructor.
      * rewrite Hn. rewrite !fmap_cons. cbn [concat Tree.to_list]. by rewrite <- !app_assoc.
      * exists it'. rewrite !fmap_cons in *. cbn [concat Tree.to_list] in *. rewrite <- !app_assoc in *. cbn [app] in *.
        split; [by eapply ends_S|done].
  - intros [st n] l (_ & _ & Hn & _).
    split; cbn [fst snd size_hint MoveEntries_Iterator remaining] in *; lia.
Defined.

(** * Bounds *)
Section bounds.
Context {K V : Type} (cmp : K → K → comparison) `{!TotalOrd cmp}.
Implicit Types (t : tree K V).

(** The entries from the first key not less than [k], or greater than it. *)
Definition from_bound (k : K) (is_lower : bool) (e : K * V) : bool :=
  match cmp k e.1 with Lt => true | Eq => is_lower | Gt => false end.

Lemma filter_above k b (l : list (K * V)) :
  Forall (λ e, cmp k e.1 = Lt) l → List.filter (from_bound k b) l = l.
Proof using Type. unfold from_bound. induction 1 as [|e l He _ IH]; simpl; [done|]. by rewrite He, IH. Qed.

Lemma filter_below k b (l : list (K * V)) :
  Forall (λ e, cmp e.1 k = Lt) l → List.filter (from_bound k b) l = [].
Proof using All.
  unfold from_bound. induction 1 as [|e l He _ IH]; simpl; [done|]. by rewrite (proj2 (cmp_gt_lt cmp k e.1) He).
Qed.

Lemma bound_setup_ok k b fuel st t lo hi :
  sorted cmp (Tree.to_list t) → (Tree.size t < fuel)%nat → Forall (λ t, t ≠ Leaf) st →
  ∃ st' t', bound_setup cmp fuel (mkEntries st t lo hi) k b = Ok (mkEntries st' t' lo hi) ∧
    Forall (λ t, t ≠ Leaf) st' ∧
    pending true (mkEntries st' t' lo hi) =
      List.filter (from_bound k b) (Tree.to_list t) ++ concat (entry_of true <$> st).
Proof using All.
  revert st fuel. induction t as [|nk v l IHl r IHr lv]; intros st [|fuel] Hs Hf Hst; cbn [Tree.size] in Hf; try lia.
  { by exists st, Leaf. }
  cbn [Tree.to_list] in Hs. apply (sorted_app cmp) in Hs as (Hl & Hr & Hlk & Hkr).
  cbn [bound_setup node Tree.to_list]. rewrite List.filter_app. cbn [List.filter].
  unfold from_bound at 2. cbn [fst]. destruct (cmp k nk) eqn:E.
  - apply cmp_eq in E as ->. rewrite (filter_below nk b (Tree.to_list l)) by done. destruct b.
    + exists (Node nk v l r lv :: st), Leaf. split_and!; [done|by constructor|]. unfold pending. cbn.
      by rewrite filter_above, (walk_to_list true r) by done.
    + apply (IHr st fuel); [done|lia|done].
  - rewrite (filter_above k b (Tree.to_list r)) by by apply (Forall_gt_trans cmp _ nk).
    destruct (IHl (Node nk v l r lv :: st) fuel) as (st' & t' & Hb & Hst' & Hp); [done|lia|by constructor|].
    exists st', t'. split_and!; [done..|]. rewrite Hp, <- app_assoc. cbn. by rewrite (walk_to_list true r).
  - rewrite (filter_below k b (Tree.to_list l)) by by apply (Forall_lt_trans cmp _ nk). apply (IHr st fuel); [done|lia|done].
Qed.
End bounds.

(** * The iterators of a map *)
Section map_iterators.
Context {K V : Type} (cmp : K → K → comparison) `{!TotalOrd cmp}.

Lemma map_iter_model (m : TreeMap K V) :
  map_ok cmp m → length_ m ≤ UINT_MAX → models (tree_iter m) (Tree.to_list (root m)).
Proof using Type.
  intros (_ & _ & Hn) Hu. unfold tree_iter. split_and!; cbn [stack node remaining_min remaining_max]; try lia; [done|].
  unfold pending. cbn. by rewrite app_nil_r, (walk_to_list true).
Qed.

(** C21. The iterators of a [TreeMap] give its entries in the order of the keys:
    [iter] and [move_iter] all of them, [rev_iter] in reverse, [lower_bound]
    those whose key is not less than [k] and [upper_bound] those whose key is
    greater; their [size_hint] bounds what is left. *)
Theorem tree_iterators_correct (m : TreeMap K V) k :
  map_ok cmp m → length_ m ≤ UINT_MAX →
  gives (tree_iter m) (Tree.to_list (root m)) ∧
  gives (map_rev_iter m) (rev (Tree.to_list (root m))) ∧
  gives (map_move_iter m) (Tree.to_list (root m)) ∧
  (∃ it, lower_bound cmp m k = Ok it ∧ gives it (List.filter (λ e, negb (is_greater (cmp k e.1))) (Tree.to_list (root m)))) ∧
  (∃ it, upper_bound cmp m k = Ok it ∧ gives it (List.filter (λ e, is_less (cmp k e.1)) (Tree.to_list (root m)))).
Proof using All.
  intros Hok Hu. pose proof Hok as (_ & Hs & Hn).
  assert (∀ b, ∃ it, bound_setup cmp (S (Tree.size (root m))) (iter_for_traversal m) k b = Ok it ∧
    gives it (List.filter (from_bound cmp k b) (Tree.to_list (root m)))) as Hb.
  { intros b. destruct (bound_setup_ok cmp k b (S (Tree.size (root m))) [] (root m) 0 (length_ m)) as (st & t & E & Hst & Hp);
      [done|lia|done|]. eexists. split; [exact E|]. apply gives_ok. rewrite app_nil_r in Hp.
    split_and!; cbn [stack remaining_min remaining_max]; [done|done|lia| |lia]. rewrite Hn.
    pose proof (length_filter_le' (from_bound cmp k b) (Tree.to_list (root m))). lia. }
  split_and!.
  - by apply gives_ok, map_iter_model.
  - apply gives_ok. unfold map_rev_iter, tree_iter. split_and!; cbn [rev_entries stack node remaining_min remaining_max];
      rewrite ?length_rev; try lia; [done|]. unfold pending. cbn. by rewrite app_nil_r, (walk_to_list false).
  - apply gives_ok. unfold map_move_iter. destruct (root m) as [|nk v l r lv]; cbn [move_stack remaining].
    + by split_and!.
    + split_and!; [by repeat constructor| |done|done]. cbn. by rewrite app_nil_r.
  - destruct (Hb true) as (it & E & Hg). exists it. split; [done|].
    by erewrite List.filter_ext; [exact Hg|]; intros e; unfold from_bound; destruct (cmp k e.1).
  - destruct (Hb false) as (it & E & Hg). exists it. split; [done|].
    by erewrite List.filter_ext; [exact Hg|]; intros e; unfold from_bound; destruct (cmp k e.1).
Qed.
End map_iterators.

(** * Comparison of maps *)
Section compare.
Context {K V : Type} (cmpk : K → K → comparison) (cmpv : V → V → comparison) `{!TotalOrd cmpk, !TotalOrd cmpv}.

Definition entry_cmp (p q : K * V) : comparison := then_cmp (cmpk p.1 q.1) (cmpv p.2 q.2).

#[export] Instance entry_cmp_TotalOrd : TotalOrd entry_cmp.
Proof using All. apply then_cmp_TotalOrd; [done|done|]. by intros [] [] ??; simplify_eq/=. Qed.

Lemma forallb_zip_lex la lb :
  length la = length lb → forallb (λ p, op_eq entry_cmp p.1 p.2) (zip la lb) = is_eq (lex entry_cmp la lb).
Proof using Type.
  revert lb. induction la as [|p la IH]; intros [|q lb]; simpl; try done. intros [= Hl]. rewrite IH by done.
  unfold op_eq. by destruct (entry_cmp p q).
Qed.

Lemma for_lt_lex la lb :
  match (for_list (lt_body cmpk cmpv) tt (zip la lb)).1 with
  | inr res => res
  | inl _ => N.of_nat (length la) <? N.of_nat (length lb)
  end = is_less (lex entry_cmp la lb).
Proof using Type.
  revert lb. induction la as [|[ka va] la IH]; intros [|[kb vb] lb]; try done.
  cbn [zip zip_with for_list lex]. unfold entry_cmp at 1. cbn [lt_body fst snd length].
  destruct (cmpk ka kb); cbn [then_cmp]; [|done|done]. destruct (cmpv va vb); cbn [then_cmp]; [|done|done].
  rewrite <- IH. destruct (for_list _ tt (zip la lb)).1 as [|res]; [|done].
  destruct (N.ltb_spec (N.of_nat (length la)) (N.of_nat (length lb))); [apply N.ltb_lt|apply N.ltb_ge]; lia.
Qed.

Lemma map_zip_model (a b : TreeMap K V) :
  map_ok cmpk a → map_ok cmpk b → length_ a ≤ UINT_MAX → length_ b ≤ UINT_MAX →
  models (iter_zip (tree_iter a) (tree_iter b)) (zip (Tree.to_list (root a)) (Tree.to_list (root b))).
Proof using Type.
  intros. eexists _, _. split_and!; [by apply (map_iter_model cmpk)|by apply (map_iter_model cmpk)|done].
Qed.

Lemma map_lt_ok a b :
  map_ok cmpk a → map_ok cmpk b → length_ a ≤ UINT_MAX → length_ b ≤ UINT_MAX →
  (λ fuel, map_lt cmpk cmpv fuel a b) ⇓ is_less (lex entry_cmp (Tree.to_list (root a)) (Tree.to_list (root b))).
Proof using Type.
  intros Ha Hb Hua Hub.
  pose proof (map_zip_model a b Ha Hb Hua Hub) as Hz.
  destruct (for_ok (lt_body cmpk cmpv) _ _ tt Hz) as (it' & Hf & _). unfold map_lt. run Hf.
  rewrite <- for_lt_lex. destruct (for_list _ tt _).1 as [|res]; [|apply ends_ret].
  destruct Ha as (_ & _ & Ea), Hb as (_ & _ & Eb). unfold map_len. rewrite Ea, Eb. apply ends_ret.
Qed.

(** Two maps compare as the sequences of their entries: [==] holds exactly
    when the entries are equal - whatever the shape of the trees -, and [<],
    [<=], [>] and [>=] are the lexicographic order on them. *)
Theorem map_compare_correct a b :
  map_ok cmpk a → map_ok cmpk b → length_ a ≤ UINT_MAX → length_ b ≤ UINT_MAX →
  let c := lex entry_cmp (Tree.to_list (root a)) (Tree.to_list (root b)) in
  (λ fuel, map_eq (op_eq entry_cmp) fuel a b) ⇓ is_eq c ∧
  (λ fuel, map_lt cmpk cmpv fuel a b) ⇓ is_less c ∧
  (λ fuel, map_le cmpk cmpv fuel a b) ⇓ negb (is_greater c) ∧
  (λ fuel, map_gt cmpk cmpv fuel a b) ⇓ is_greater c ∧
  (λ fuel, map_ge cmpk cmpv fuel a b) ⇓ negb (is_less c) ∧
  (c = Eq ↔ Tree.to_list (root a) = Tree.to_list (root b)).
Proof using All.
  intros Ha Hb Hua Hub. cbv zeta.
  pose proof (map_lt_ok a b Ha Hb Hua Hub) as Hab. pose proof (map_lt_ok b a Hb Ha Hub Hua) as Hba.
  rewrite (lex_opp entry_cmp (Tree.to_list (root a))) in Hba.
  replace (is_less (CompOpp (lex entry_cmp (Tree.to_list (root a)) (Tree.to_list (root b)))))
    with (is_greater (lex entry_cmp (Tree.to_list (root a)) (Tree.to_list (root b)))) in Hba by by destruct (lex _ _ _).
  split_and!; [|done|exact (ends_fmap _ negb _ Hba)|done|exact (ends_fmap _ negb _ Hab)|exact (lex_eq entry_cmp _ _)].
  unfold map_eq, map_len. pose proof Ha as (_ & _ & Ea). pose proof Hb as (_ & _ & Eb).
  destruct (N.eqb_spec (length_ a) (length_ b)) as [El|El].
  - pose proof (map_zip_model a b Ha Hb Hua Hub) as Hz.
    rewrite <- forallb_zip_lex by lia. unfold iter_all.
    destruct (for_until (λ _ p, if op_eq entry_cmp p.1 p.2 then inl tt else inr tt)
      (λ p, negb (op_eq entry_cmp p.1 p.2)) (iter_zip (tree_iter a) (tree_iter b))
      (zip (Tree.to_list (root a)) (Tree.to_list (root b)))) as (it' & Hf);
      [intros p; by destruct (op_eq entry_cmp p.1 p.2)|exact Hz|].
    rewrite forallb_existsb. eapply ends_bind; [run Hf; apply ends_ret|]. cbv beta iota.
    destruct (existsb _ _); apply ends_ret.
  - destruct (lex entry_cmp _ _) eqn:E; [|apply ends_ret..]. apply (lex_eq entry_cmp) in E. by rewrite Ea, Eb, E in El.
Qed.
End compare.

Definition small_map : TreeMap N bool := map_from_iter N.compare [(3, true); (1, false); (2, true)].
Definition other_map : TreeMap N bool := map_from_iter N.compare [(1, false); (2, true); (3, true); (4, true)].

Lemma small_map_ok : map_ok N.compare small_map.
Proof. split_and!; [by vm_compute; auto 10|by repeat constructor|done]. Qed.

Lemma other_map_ok : map_ok N.compare other_map.
Proof. split_and!; [by vm_compute; auto 20|by repeat constructor|done]. Qed.

Lemma tree_iterators_correct_witness :
  gives (map_rev_iter small_map) [(3, true); (2, true); (1, false)] ∧
  ∃ it, lower_bound N.compare small_map 2 = Ok it ∧ gives it [(2, true); (3, true)].
Proof.
  destruct (tree_iterators_correct N.compare small_map 2) as (_ & H1 & _ & H2 & _);
    [apply small_map_ok|by vm_compute|by split].
Defined.

Lemma map_compare_correct_witness :
  (λ fuel, map_lt N.compare (λ a b, N.compare (N.b2n a) (N.b2n b)) fuel small_map other_map) ⇓ true.
Proof.
  assert (TotalOrd (λ a b, N.compare (N.b2n a) (N.b2n b))) as Hb.
  { split; [by intros [] []|by intros [] []|by intros [] [] []]. }
  destruct (map_compare_correct N.compare (λ a b, N.compare (N.b2n a) (N.b2n b)) small_map other_map)
    as (_ & H & _); [apply small_map_ok|apply other_map_ok|by vm_compute|by vm_compute|exact H].
Defined.
