(* ===== verification/TreeSet.v ===== *)
(** [TreeSet] of [libcollections/treemap.rs]: a map to the unit type.  The four
    set operations are iterators that merge two sorted walks. *)
From stdpp Require Import base list sorting.
From Stdlib Require Import NArith Lia.
From S2P Require Import Prelude Iter IterOk IterLaws IterOrd TreeMap TreeMapSound TreeIter TreeWalk.
Local Open Scope N_scope.
Local Open Scope model_scope.

(** * The set *)
Record TreeSet (T : Type) : Type := mkTreeSet { set_map : TreeMap T unit }.
Arguments mkTreeSet {T}.
Arguments set_map {T}.

Record SetItems (T : Type) : Type := mkSetItems { set_entries : Entries T unit }.
Arguments mkSetItems {T}.
Arguments set_entries {T}.
Definition set_items_next {T} (fuel : nat) (it : SetItems T) : outcome (option T * SetItems T) :=
  '(x, i) ← next fuel (set_entries it); Ok (option_map fst x, mkSetItems i).
#[export] Instance SetItems_Iterator {T} : Iterator (SetItems T) T :=
  { next := set_items_next; size_hint _ := (0, None) }.

Record RevSetItems (T : Type) : Type := mkRevSetItems { rev_set_entries : RevEntries T unit }.
Arguments mkRevSetItems {T}.
Arguments rev_set_entries {T}.
Definition rev_set_items_next {T} (fuel : nat) (it : RevSetItems T) : outcome (option T * RevSetItems T) :=
  '(x, i) ← next fuel (rev_set_entries it); Ok (option_map fst x, mkRevSetItems i).
#[export] Instance RevSetItems_Iterator {T} : Iterator (RevSetItems T) T :=
  { next := rev_set_items_next; size_hint _ := (0, None) }.

Section set.
Context {T : Type} (cmp : T → T → comparison).

Definition set_new : TreeSet T := mkTreeSet map_new.
Definition set_len (s : TreeSet T) : N := map_len (set_map s).
Definition set_is_empty (s : TreeSet T) : bool := map_is_empty (set_map s).
Definition set_clear (s : TreeSet T) : TreeSet T := mkTreeSet (map_clear (set_map s)).
Definition set_contains (s : TreeSet T) (value : T) : bool := map_contains_key cmp (set_map s) value.
Definition set_insert (s : TreeSet T) (value : T) : TreeSet T * bool :=
  let '(m, b) := map_insert cmp (set_map s) value tt in (mkTreeSet m, b).
Definition set_remove (s : TreeSet T) (value : T) : outcome (TreeSet T * bool) :=
  r ← map_remove cmp (set_map s) value; let '(m, b) := r in Ok (mkTreeSet m, b).
Fixpoint set_extend (s : TreeSet T) (iter : list T) : TreeSet T :=
  match iter with [] => s | elem :: iter => set_extend (set_insert s elem).1 iter end.
Definition set_from_iter (iter : list T) : TreeSet T := set_extend set_new iter.

Definition set_iter (s : TreeSet T) : SetItems T := mkSetItems (tree_iter (set_map s)).
Definition set_rev_iter (s : TreeSet T) : RevSetItems T := mkRevSetItems (map_rev_iter (set_map s)).
Definition set_lower_bound (s : TreeSet T) (v : T) : outcome (SetItems T) :=
  mkSetItems <$> lower_bound cmp (set_map s) v.
Definition set_upper_bound (s : TreeSet T) (v : T) : outcome (SetItems T) :=
  mkSetItems <$> upper_bound cmp (set_map s) v.
End set.

(** * The set operations *)
Inductive set_op : Type := Difference | SymDifference | Intersection | Union.

(** [DifferenceItems], [SymDifferenceItems], [IntersectionItems] and
    [UnionItems] have the same fields. *)
Record SetOpItems (op : set_op) (T : Type) : Type :=
  mkSetOpItems { op_a : Peekable T (SetItems T); op_b : Peekable T (SetItems T) }.
Arguments mkSetOpItems {op T}.
Arguments op_a {op T}.
Arguments op_b {op T}.

Definition DifferenceItems : Type → Type := SetOpItems Difference.
Definition SymDifferenceItems : Type → Type := SetOpItems SymDifference.
Definition IntersectionItems : Type → Type := SetOpItems Intersection.
Definition UnionItems : Type → Type := SetOpItems Union.

Definition set_pair {op T} (a b : TreeSet T) : SetOpItems op T :=
  mkSetOpItems (iter_peekable (set_iter a)) (iter_peekable (set_iter b)).
Definition set_difference {T} (a b : TreeSet T) : DifferenceItems T := set_pair a b.
Definition set_symmetric_difference {T} (a b : TreeSet T) : SymDifferenceItems T := set_pair a b.
Definition set_intersection {T} (a b : TreeSet T) : IntersectionItems T := set_pair a b.
Definition set_union {T} (a b : TreeSet T) : UnionItems T := set_pair a b.

Section ops.
Context {T : Type} (cmp : T → T → comparison).

Definition cmp_opt (x y : option T) (short long : comparison) : comparison :=
  match x, y with
  | None, _ => short
  | _, None => long
  | Some x1, Some y1 => cmp x1 y1
  end.

Fixpoint difference_next (fuel : nat) (it : DifferenceItems T) : outcome (option T * DifferenceItems T) :=
  match fuel with
  | O => Fail OutOfFuel
  | S fuel =>
      '(x, a) ← peek fuel (op_a it);
      '(y, b) ← peek fuel (op_b it);
      match cmp_opt x y Lt Lt with
      | Lt => '(r, a) ← next fuel a; Ok (r, mkSetOpItems a b)
      | Eq => '(_, a) ← next fuel a; '(_, b) ← next fuel b; difference_next fuel (mkSetOpItems a b)
      | Gt => '(_, b) ← next fuel b; difference_next fuel (mkSetOpItems a b)
      end
  end.

Fixpoint sym_difference_next (fuel : nat) (it : SymDifferenceItems T) : outcome (option T * SymDifferenceItems T) :=
  match fuel with
  | O => Fail OutOfFuel
  | S fuel =>
      '(x, a) ← peek fuel (op_a it);
      '(y, b) ← peek fuel (op_b it);
      match cmp_opt x y Gt Lt with
      | Lt => '(r, a) ← next fuel a; Ok (r, mkSetOpItems a b)
      | Eq => '(_, a) ← next fuel a; '(_, b) ← next fuel b; sym_difference_next fuel (mkSetOpItems a b)
      | Gt => '(r, b) ← next fuel b; Ok (r, mkSetOpItems a b)
      end
  end.

Fixpoint intersection_next (fuel : nat) (it : IntersectionItems T) : outcome (option T * IntersectionItems T) :=
  match fuel with
  | O => Fail OutOfFuel
  | S fuel =>
      '(x, a) ← peek fuel (op_a it);
      '(y, b) ← peek fuel (op_b it);
      let o_cmp := match x, y with
                   | None, _ => None
                   | _, None => None
                   | Some a1, Some b1 => Some (cmp a1 b1)
                   end in
      match o_cmp with
      | None => Ok (None, mkSetOpItems a b)
      | Some Lt => '(_, a) ← next fuel a; intersection_next fuel (mkSetOpItems a b)
      | Some Eq => '(_, b) ← next fuel b; '(r, a) ← next fuel a; Ok (r, mkSetOpItems a b)
      | Some Gt => '(_, b) ← next fuel b; intersection_next fuel (mkSetOpItems a b)
      end
  end.

(** The loop of [UnionItems::next] returns in its first round. *)
Definition union_next (fuel : nat) (it : UnionItems T) : outcome (option T * UnionItems T) :=
  '(x, a) ← peek fuel (op_a it);
  '(y, b) ← peek fuel (op_b it);
  match cmp_opt x y Gt Lt with
  | Lt => '(r, a) ← next fuel a; Ok (r, mkSetOpItems a b)
  | Eq => '(_, b) ← next fuel b; '(r, a) ← next fuel a; Ok (r, mkSetOpItems a b)
  | Gt => '(r, b) ← next fuel b; Ok (r, mkSetOpItems a b)
  end.

Definition set_is_disjoint (fuel : nat) (s other : TreeSet T) : outcome bool :=
  '(x, _) ← intersection_next fuel (set_intersection s other); Ok (negb (is_some x)).

(** The loop of [is_superset]. *)
Fixpoint superset_loop (fuel : nat) (x y : SetItems T) (a b : option T) : outcome bool :=
  match fuel with
  | O => Fail OutOfFuel
  | S fuel =>
      match b with
      | None => Ok true
      | Some b1 =>
          match a with
          | None => Ok false
          | Some a1 =>
              match cmp a1 b1 with
              | Gt => Ok false
              | Lt => '(a, x) ← next fuel x; superset_loop fuel x y a b
              | Eq => '(b, y) ← next fuel y; '(a, x) ← next fuel x; superset_loop fuel x y a b
              end
          end
      end
  end.
Definition set_is_superset (fuel : nat) (s other : TreeSet T) : outcome bool :=
  '(a, x) ← next fuel (set_iter s);
  '(b, y) ← next fuel (set_iter other);
  superset_loop fuel x y a b.
Definition set_is_subset (fuel : nat) (s other : TreeSet T) : outcome bool := set_is_superset fuel other s.
End ops.
