(* ===== verification/TreeSetSound.v ===== *)
(** Correctness of the set operations of [TreeSet]: the merging iterators give,
    in order, exactly the elements of the difference, the symmetric difference,
    the intersection and the union. *)
From stdpp Require Import base list sorting.
From Stdlib Require Import NArith Lia.
From S2P Require Import Prelude Iter IterOk IterLaws IterOrd TreeMap TreeMapSound TreeIter TreeWalk TreeSet.
Local Open Scope N_scope.
Local Open Scope model_scope.

Section algebra.
Context {T : Type} (cmp : T → T → comparison) `{!TotalOrd cmp}.
Implicit Types (l : list T).

(** Strictly increasing lists, and membership in them. *)
Definition increasing : list T → Prop := StronglySorted (λ a b, cmp a b = Lt).
Definition mem (z : T) l : bool := existsb (λ x, is_eq (cmp z x)) l.

Lemma mem_elem z l : mem z l = true ↔ z ∈ l.
Proof using All.
  unfold mem. rewrite existsb_exists. setoid_rewrite <- list_elem_of_In. split.
  - intros (x & Hx & E). destruct (cmp z x) eqn:Ec; try done. by apply cmp_eq in Ec as ->.
  - intros Hz. exists z. split; [done|]. by rewrite (cmp_refl cmp).
Qed.

Lemma mem_cons z x l : mem z (x :: l) = is_eq (cmp z x) || mem z l.
Proof using Type. done. Qed.

Lemma is_eq_true z x : is_eq (cmp z x) = true ↔ z = x.
Proof using All. destruct (cmp z x) eqn:E; simpl; rewrite <- (cmp_eq (cmp:=cmp)), E; done. Qed.

Lemma mem_head_false x l : (∀ z, mem z l = true → cmp x z = Lt) → mem x l = false.
Proof using All.
  intros H. destruct (mem x l) eqn:E; [|done]. apply H in E. by rewrite (cmp_refl cmp) in E.
Qed.

Lemma increasing_cons x l : increasing (x :: l) ↔ increasing l ∧ ∀ z, mem z l = true → cmp x z = Lt.
Proof using All.
  unfold increasing. rewrite StronglySorted_cons, Forall_forall. setoid_rewrite mem_elem. naive_solver.
Qed.

(** The least member of an increasing list is its head. *)
Lemma increasing_least x l :
  increasing l → mem x l = true → (∀ z, mem z l = true → z = x ∨ cmp x z = Lt) → ∃ l', l = x :: l'.
Proof using All.
  intros Hl Hx Hmin. destruct l as [|y l]; [done|]. exists l. f_equal.
  apply increasing_cons in Hl as [_ Hy]. destruct (Hmin y) as [->|Hlt]; [by rewrite mem_cons, (cmp_refl cmp)|done|].
  rewrite mem_cons in Hx. apply orb_true_iff in Hx as [->%is_eq_true|Hx]; [done|].
  apply Hy in Hx. pose proof (cmp_lt_trans _ _ _ Hx Hlt) as H. by rewrite (cmp_refl cmp) in H.
Qed.

(** Which elements an operation selects. *)
Definition sel (op : set_op) (a b : bool) : bool :=
  match op with
  | Difference => a && negb b
  | SymDifference => xorb a b
  | Intersection => a && b
  | Union => a || b
  end.

Definition selects (op : set_op) (la lb l : list T) : Prop :=
  increasing la ∧ increasing lb ∧ increasing l ∧ ∀ z, mem z l = sel op (mem z la) (mem z lb).

(** The least element [x] of both lists, and what is left without it. *)
Lemma selects_step op x la lb la' lb' l (pa pb : bool) :
  selects op la lb l → increasing la' → increasing lb' →
  (∀ z, mem z la = (pa && is_eq (cmp z x)) || mem z la') → (∀ z, mem z la' = true → cmp x z = Lt) →
  (∀ z, mem z lb = (pb && is_eq (cmp z x)) || mem z lb') → (∀ z, mem z lb' = true → cmp x z = Lt) →
  if sel op pa pb then ∃ l', l = x :: l' ∧ selects op la' lb' l' else selects op la' lb' l.
Proof using All.
  intros (Ha & Hb & Hl & Hs) Ha' Hb' Ea Hxa Eb Hxb.
  pose proof (mem_head_false x la' Hxa) as Fa. pose proof (mem_head_false x lb' Hxb) as Fb.
  assert (sel op false false = false) as Hff by by destruct op.
  assert (mem x l = sel op pa pb) as Ex.
  { rewrite Hs, Ea, Eb, (cmp_refl cmp), Fa, Fb. simpl. by rewrite !andb_true_r, !orb_false_r. }
  assert (∀ z, is_eq (cmp z x) = false → mem z l = sel op (mem z la') (mem z lb')) as Hz.
  { intros z E. by rewrite Hs, Ea, Eb, E, !andb_false_r. }
  destruct (sel op pa pb).
  - destruct (increasing_least x l Hl Ex) as (l' & ->).
    { intros z Hzl. destruct (is_eq (cmp z x)) eqn:E; [left; by apply is_eq_true|right].
      rewrite Hz in Hzl by done. destruct (mem z la') eqn:Ea'; [by apply Hxa|].
      destruct (mem z lb') eqn:Eb'; [by apply Hxb|]. congruence. }
    exists l'. split; [done|]. apply increasing_cons in Hl as [Hl' Hx]. split_and!; [done..|]. intros z.
    destruct (is_eq (cmp z x)) eqn:E.
    + apply is_eq_true in E as ->. by rewrite Fa, Fb, Hff, (mem_head_false x l').
    + specialize (Hz z E). rewrite mem_cons, E in Hz. done.
  - split_and!; [done..|]. intros z. destruct (is_eq (cmp z x)) eqn:E; [|by apply Hz].
    apply is_eq_true in E as ->. by rewrite Ex, Fa, Fb.
Qed.

Lemma selects_a op x la lb l :
  selects op (x :: la) lb l → (∀ y, head lb = Some y → cmp x y = Lt) →
  if sel op true false then ∃ l', l = x :: l' ∧ selects op la lb l' else selects op la lb l.
Proof using All.
  intros Hs Hlt. pose proof Hs as ([Ha Hx]%increasing_cons & Hb & _).
  apply (selects_step op x (x :: la) lb la lb l true false); try done. intros z Hz.
  destruct lb as [|y lb]; [done|]. specialize (Hlt y eq_refl). apply increasing_cons in Hb as [_ Hy].
  rewrite mem_cons in Hz. apply orb_true_iff in Hz as [->%is_eq_true|Hz]; [done|].
  exact (cmp_lt_trans _ _ _ Hlt (Hy z Hz)).
Qed.

Lemma selects_b op y la lb l :
  selects op la (y :: lb) l → (∀ x, head la = Some x → cmp y x = Lt) →
  if sel op false true then ∃ l', l = y :: l' ∧ selects op la lb l' else selects op la lb l.
Proof using All.
  intros Hs Hlt. pose proof Hs as (Ha & [Hb Hy]%increasing_cons & _).
  apply (selects_step op y la (y :: lb) la lb l false true); try done. intros z Hz.
  destruct la as [|x la]; [done|]. specialize (Hlt x eq_refl). apply increasing_cons in Ha as [_ Hx].
  rewrite mem_cons in Hz. apply orb_true_iff in Hz as [->%is_eq_true|Hz]; [done|].
  exact (cmp_lt_trans _ _ _ Hlt (Hx z Hz)).
Qed.

Lemma selects_ab op x la lb l :
  selects op (x :: la) (x :: lb) l →
  if sel op true true then ∃ l', l = x :: l' ∧ selects op la lb l' else selects op la lb l.
Proof using All.
  intros Hs. pose proof Hs as ([Ha Hx]%increasing_cons & [Hb Hy]%increasing_cons & _).
  by apply (selects_step op x (x :: la) (x :: lb) la lb l true true).
Qed.

Lemma selects_nil op la lb l : selects op la lb l → (∀ z, sel op (mem z la) (mem z lb) = false) → l = [].
Proof using All.
  intros (_ & _ & _ & Hs) H. destruct l as [|x l]; [done|]. specialize (Hs x).
  by rewrite mem_cons, (cmp_refl cmp), H in Hs.
Qed.
End algebra.

(** * The iterators *)
#[export] Instance SetItems_ok {T} : IteratorOk (SetItems T) T.
Proof.
  refine {| models it l := ∃ le, models (set_entries it) le ∧ l = fst <$> le |}.
  - intros [it] l (le & Hm & ->). destruct (next_ok it le Hm) as (it' & Hn & Hm'). exists (mkSetItems it').
    split; [run Hn; destruct le; apply ends_ret|]. exists (tail le). by destruct le.
  - intros it l _. by split; [simpl; lia|].
Defined.
#[export] Instance RevSetItems_ok {T} : IteratorOk (RevSetItems T) T.
Proof.
  refine {| models it l := ∃ le, models (rev_set_entries it) le ∧ l = fst <$> le |}.
  - intros [it] l (le & Hm & ->). destruct (next_ok it le Hm) as (it' & Hn & Hm'). exists (mkRevSetItems it').
    split; [run Hn; destruct le; apply ends_ret|]. exists (tail le). by destruct le.
  - intros it l _. by split; [simpl; lia|].
Defined.

Section merge.
Context {T : Type} (cmp : T → T → comparison) `{!TotalOrd cmp}.

Definition op_model {op} (it : SetOpItems op T) (l : list T) : Prop :=
  ∃ la lb, models (op_a it) la ∧ models (op_b it) lb ∧ selects cmp op la lb l.

(** Both heads are peeked at before the step. *)
Lemma peek_both {op} (it : SetOpItems op T) la lb :
  models (op_a it) la → models (op_b it) lb →
  ∃ a b, (λ fuel, peek fuel (op_a it)) ⇓ (head la, a) ∧ (λ fuel, peek fuel (op_b it)) ⇓ (head lb, b) ∧
    models a la ∧ models b lb.
Proof using Type.
  intros (a & Ha & Hma)%peek_ok (b & Hb & Hmb)%peek_ok. by exists a, b.
Qed.

(** Consuming the head of a list that is the whole of what is left. *)
Lemma union_ok it l :
  op_model (op:=Union) it l → ∃ it', (λ fuel, union_next cmp fuel it) ⇓ (head l, it') ∧ op_model it' (tail l).
Proof using All.
  intros (la & lb & Ha & Hb & Hs). destruct (peek_both it la lb Ha Hb) as (a & b & Hpa & Hpb & Hma & Hmb).
  destruct (next_ok a la Hma) as (a' & Hna & Hma'), (next_ok b lb Hmb) as (b' & Hnb & Hmb').
  unfold union_next. destruct la as [|x la], lb as [|y lb]; cbn [head tail] in *.
  - apply selects_nil in Hs as Hl; [|done|done]. subst l. eexists (mkSetOpItems a b'). split; [run Hpa; run Hpb; run Hnb; apply ends_ret|].
    by exists [], [].
  - apply selects_b in Hs as (l' & -> & Hs); [|done|done]. eexists (mkSetOpItems a b'). split; [run Hpa; run Hpb; run Hnb; apply ends_ret|].
    by exists [], lb.
  - apply selects_a in Hs as (l' & -> & Hs); [|done|done]. eexists (mkSetOpItems a' b). split; [run Hpa; run Hpb; run Hna; apply ends_ret|].
    by exists la, [].
  - destruct (cmp x y) eqn:E.
    + apply cmp_eq in E as ->. apply selects_ab in Hs as (l' & -> & Hs); [|done]. eexists (mkSetOpItems a' b').
      split; [run Hpa; run Hpb; cbn [cmp_opt]; rewrite (cmp_refl cmp); run Hnb; run Hna; apply ends_ret|]. by exists la, lb.
    + apply selects_a in Hs as (l' & -> & Hs); [|done|by intros ? [= <-]]. eexists (mkSetOpItems a' b).
      split; [run Hpa; run Hpb; cbn [cmp_opt]; rewrite E; run Hna; apply ends_ret|]. by exists la, (y :: lb).
    + apply selects_b in Hs as (l' & -> & Hs); [|done|intros ? [= <-]; by apply (cmp_gt_lt cmp)]. eexists (mkSetOpItems a b').
      split; [run Hpa; run Hpb; cbn [cmp_opt]; rewrite E; run Hnb; apply ends_ret|]. by exists (x :: la), lb.
Qed.

(** A loop that drops an element goes on with shorter lists. *)
Definition loop_ok {op} (nxt : nat → SetOpItems op T → outcome (option T * SetOpItems op T)) : Prop :=
  ∀ n it la lb l, (length la + length lb < n)%nat → models (op_a it) la → models (op_b it) lb →
    selects cmp op la lb l → ∃ it', (λ fuel, nxt fuel it) ⇓ (head l, it') ∧ op_model it' (tail l).

Lemma difference_ok : loop_ok (op:=Difference) (difference_next cmp).
Proof using All.
  intros n. induction n as [|n IH]; intros it la lb l Hn Ha Hb Hs; [lia|].
  destruct (peek_both it la lb Ha Hb) as (a & b & Hpa & Hpb & Hma & Hmb).
  destruct (next_ok a la Hma) as (a' & Hna & Hma'), (next_ok b lb Hmb) as (b' & Hnb & Hmb').
  destruct la as [|x la]; [|destruct lb as [|y lb]]; cbn [head tail length] in *.
  - apply selects_nil in Hs as Hl; [|done|done]. subst l. exists (mkSetOpItems a' b).
    split; [eapply ends_S; [done|]; run Hpa; run Hpb; run Hna; apply ends_ret|]. by exists [], lb.
  - apply selects_a in Hs as (l' & -> & Hs); [|done|done]. exists (mkSetOpItems a' b).
    split; [eapply ends_S; [done|]; run Hpa; run Hpb; run Hna; apply ends_ret|]. by exists la, [].
  - destruct (cmp x y) eqn:E.
    + apply cmp_eq in E as ->. apply selects_ab in Hs; [|done].
      destruct (IH (mkSetOpItems a' b') la lb l) as (it' & Hn' & Hm); [lia|done..|]. exists it'. split; [|done].
      eapply ends_S; [done|]. run Hpa. run Hpb. cbn [cmp_opt]. rewrite (cmp_refl cmp). run Hna. by run Hnb.
    + apply selects_a in Hs as (l' & -> & Hs); [|done|by intros ? [= <-]]. exists (mkSetOpItems a' b).
      split; [eapply ends_S; [done|]; run Hpa; run Hpb; cbn [cmp_opt]; rewrite E; run Hna; apply ends_ret|].
      by exists la, (y :: lb).
    + apply selects_b in Hs; [|done|intros ? [= <-]; by apply (cmp_gt_lt cmp)].
      destruct (IH (mkSetOpItems a b') (x :: la) lb l) as (it' & Hn' & Hm); [simpl; lia|done..|]. exists it'. split; [|done].
      eapply ends_S; [done|]. run Hpa. run Hpb. cbn [cmp_opt]. rewrite E. by run Hnb.
Qed.

Lemma sym_difference_ok : loop_ok (op:=SymDifference) (sym_difference_next cmp).
Proof using All.
  intros n. induction n as [|n IH]; intros it la lb l Hn Ha Hb Hs; [lia|].
  destruct (peek_both it la lb Ha Hb) as (a & b & Hpa & Hpb & Hma & Hmb).
  destruct (next_ok a la Hma) as (a' & Hna & Hma'), (next_ok b lb Hmb) as (b' & Hnb & Hmb').
  destruct la as [|x la], lb as [|y lb]; cbn [head tail length] in *.
  - apply selects_nil in Hs as Hl; [|done|done]. subst l. exists (mkSetOpItems a b').
    split; [eapply ends_S; [done|]; run Hpa; run Hpb; run Hnb; apply ends_ret|]. by exists [], [].
  - apply selects_b in Hs as (l' & -> & Hs); [|done|done]. exists (mkSetOpItems a b').
    split; [eapply ends_S; [done|]; run Hpa; run Hpb; run Hnb; apply ends_ret|]. by exists [], lb.
  - apply selects_a in Hs as (l' & -> & Hs); [|done|done]. exists (mkSetOpItems a' b).
    split; [eapply ends_S; [done|]; run Hpa; run Hpb; run Hna; apply ends_ret|]. by exists la, [].
  - destruct (cmp x y) eqn:E.
    + apply cmp_eq in E as ->. apply selects_ab in Hs; [|done].
      destruct (IH (mkSetOpItems a' b') la lb l) as (it' & Hn' & Hm); [lia|done..|]. exists it'. split; [|done].
      eapply ends_S; [done|]. run Hpa. run Hpb. cbn [cmp_opt]. rewrite (cmp_refl cmp). run Hna. by run Hnb.
    + apply selects_a in Hs as (l' & -> & Hs); [|done|by intros ? [= <-]]. exists (mkSetOpItems a' b).
      split; [eapply ends_S; [done|]; run Hpa; run Hpb; cbn [cmp_opt]; rewrite E; run Hna; apply ends_ret|].
      by exists la, (y :: lb).
    + apply selects_b in Hs as (l' & -> & Hs); [|done|intros ? [= <-]; by apply (cmp_gt_lt cmp)]. exists (mkSetOpItems a b').
      split; [eapply ends_S; [done|]; run Hpa; run Hpb; cbn [cmp_opt]; rewrite E; run Hnb; apply ends_ret|].
      by exists (x :: la), lb.
Qed.

Lemma intersection_ok : loop_ok (op:=Intersection) (intersection_next cmp).
Proof using All.
  intros n. induction n as [|n IH]; intros it la lb l Hn Ha Hb Hs; [lia|].
  destruct (peek_both it la lb Ha Hb) as (a & b & Hpa & Hpb & Hma & Hmb).
  destruct (next_ok a la Hma) as (a' & Hna & Hma'), (next_ok b lb Hmb) as (b' & Hnb & Hmb').
  destruct la as [|x la]; [|destruct lb as [|y lb]]; cbn [head tail length] in *.
  - apply selects_nil in Hs as Hl; [|done|done]. subst l. exists (mkSetOpItems a b).
    split; [eapply ends_S; [done|]; run Hpa; run Hpb; apply ends_ret|]. by exists [], lb.
  - apply selects_nil in Hs as Hl; [|done|by intros z; rewrite andb_false_r]. subst l. exists (mkSetOpItems a b).
    split; [eapply ends_S; [done|]; run Hpa; run Hpb; apply ends_ret|]. by exists (x :: la), [].
  - destruct (cmp x y) eqn:E.
    + apply cmp_eq in E as ->. apply selects_ab in Hs as (l' & -> & Hs); [|done]. exists (mkSetOpItems a' b').
      split; [eapply ends_S; [done|]; run Hpa; run Hpb; rewrite (cmp_refl cmp); run Hnb; run Hna; apply ends_ret|].
      by exists la, lb.
    + apply selects_a in Hs; [|done|by intros ? [= <-]].
      destruct (IH (mkSetOpItems a' b) la (y :: lb) l) as (it' & Hn' & Hm); [simpl; lia|done..|]. exists it'. split; [|done].
      eapply ends_S; [done|]. run Hpa. run Hpb. rewrite E. by run Hna.
    + apply selects_b in Hs; [|done|intros ? [= <-]; by apply (cmp_gt_lt cmp)].
      destruct (IH (mkSetOpItems a b') (x :: la) lb l) as (it' & Hn' & Hm); [simpl; lia|done..|]. exists it'. split; [|done].
      eapply ends_S; [done|]. run Hpa. run Hpb. rewrite E. by run Hnb.
Qed.

Lemma loop_next {op} nxt (it : SetOpItems op T) l :
  loop_ok nxt → op_model it l → ∃ it', (λ fuel, nxt fuel it) ⇓ (head l, it') ∧ op_model it' (tail l).
Proof using Type. intros Hl (la & lb & Ha & Hb & Hs). by apply (Hl _ it la lb l (le_n _)). Qed.
End merge.

(** * The selected elements exist *)
Section selected.
Context {T : Type} (cmp : T → T → comparison) `{!TotalOrd cmp}.

Fixpoint ins (x : T) (l : list T) : list T :=
  match l with
  | [] => [x]
  | y :: l' => match cmp x y with Lt => x :: l | Eq => l | Gt => y :: ins x l' end
  end.

Lemma mem_ins z x l : mem cmp z (ins x l) = is_eq (cmp z x) || mem cmp z l.
Proof using All.
  induction l as [|y l IH]; [done|]. cbn [ins]. destruct (cmp x y) eqn:E; [|done|].
  - apply cmp_eq in E as ->. rewrite mem_cons. by destruct (is_eq _).
  - rewrite !mem_cons, IH. by destruct (is_eq (cmp z x)), (is_eq (cmp z y)).
Qed.

Lemma increasing_ins x l : increasing cmp l → increasing cmp (ins x l).
Proof using All.
  induction l as [|y l IH]; [by repeat constructor|]. intros Hl. cbn [ins].
  pose proof Hl as [Hl' Hy]%(increasing_cons cmp). destruct (cmp x y) eqn:E; [done| |].
  - apply (increasing_cons cmp). split; [done|]. intros z Hz. rewrite mem_cons in Hz.
    apply orb_true_iff in Hz as [->%(is_eq_true cmp)|Hz]; [done|]. exact (cmp_lt_trans _ _ _ E (Hy z Hz)).
  - apply (increasing_cons cmp). split; [by apply IH|]. intros z Hz. rewrite mem_ins in Hz.
    apply orb_true_iff in Hz as [->%(is_eq_true cmp)|Hz]; [by apply (cmp_gt_lt cmp)|by apply Hy].
Qed.

Lemma mem_filter f z l : mem cmp z (List.filter f l) = mem cmp z l && f z.
Proof using All.
  induction l as [|y l IH]; [done|]. cbn [List.filter]. rewrite mem_cons. destruct (is_eq (cmp z y)) eqn:E.
  - apply (is_eq_true cmp) in E. subst y. destruct (f z); [by rewrite mem_cons, (cmp_refl cmp)|].
    by rewrite IH, !andb_false_r.
  - destruct (f y); rewrite ?mem_cons, ?E; done.
Qed.

Lemma increasing_filter f l : increasing cmp l → increasing cmp (List.filter f l).
Proof using All.
  induction l as [|y l IH]; [done|]. intros [Hl Hy]%(increasing_cons cmp). cbn [List.filter].
  destruct (f y); [|by apply IH]. apply (increasing_cons cmp). split; [by apply IH|]. intros z Hz. apply Hy.
  rewrite mem_filter in Hz. by apply andb_true_iff in Hz as [? _].
Qed.

(** The elements selected, as a list. *)
Definition selected (op : set_op) (la lb : list T) : list T :=
  List.filter (λ z, sel op (mem cmp z la) (mem cmp z lb)) (foldr ins la lb).

Lemma selected_ok op la lb : increasing cmp la → increasing cmp lb → selects cmp op la lb (selected op la lb).
Proof using All.
  intros Ha Hb.
  assert (∀ l, increasing cmp (foldr ins la l) ∧ ∀ z, mem cmp z (foldr ins la l) = mem cmp z l || mem cmp z la) as Hf.
  { intros l. induction l as [|y l [IH1 IH2]]; [done|]. cbn [foldr]. split; [by apply increasing_ins|].
    intros z. by rewrite mem_ins, IH2, mem_cons, orb_assoc. }
  destruct (Hf lb) as [H1 H2]. split_and!; [done..|by apply increasing_filter|]. intros z. unfold selected.
  rewrite mem_filter, H2. destruct op, (mem cmp z la), (mem cmp z lb); done.
Qed.
End selected.

(** * Sets *)
Section sets.
Context {T : Type} (cmp : T → T → comparison) `{!TotalOrd cmp}.

Definition op_next (op : set_op) : nat → SetOpItems op T → outcome (option T * SetOpItems op T) :=
  match op with
  | Difference => difference_next cmp
  | SymDifference => sym_difference_next cmp
  | Intersection => intersection_next cmp
  | Union => union_next cmp
  end.

#[local] Instance op_Iterator (op : set_op) : Iterator (SetOpItems op T) T :=
  { next := op_next op; size_hint _ := (0, None) }.

#[local] Instance op_ok (op : set_op) : IteratorOk (SetOpItems op T) T.
Proof using All.
  refine {| models := op_model cmp |}.
  - intros it l Hm. destruct op; [by apply loop_next, Hm; apply difference_ok|
      by apply loop_next, Hm; apply sym_difference_ok|by apply loop_next, Hm; apply intersection_ok|by apply union_ok].
  - intros it l _. by split; [simpl; lia|].
Defined.

(** The elements of a set, and its invariant. *)
Definition elements (s : TreeSet T) : list T := (Tree.to_list (root (set_map s))).*1.
Definition set_ok (s : TreeSet T) : Prop := map_ok cmp (set_map s) ∧ set_len s ≤ UINT_MAX.

Lemma set_iter_model s : set_ok s → models (set_iter s) (elements s) ∧ increasing cmp (elements s).
Proof using Type.
  intros [Hok Hu]. split; [by eexists; split; [by apply (map_iter_model cmp)|]|].
  destruct Hok as (_ & Hs & _). unfold elements, increasing. induction Hs as [|e l Hs IH He]; [constructor|].
  rewrite fmap_cons. constructor; [done|]. apply Forall_fmap. exact He.
Qed.

Lemma set_pair_model op s t :
  set_ok s → set_ok t → models (set_pair (op:=op) s t) (selected cmp op (elements s) (elements t)).
Proof using All.
  intros [Hs Is]%set_iter_model [Ht It]%set_iter_model. exists (elements s), (elements t).
  split_and!; [by exists (elements s)|by exists (elements t)|by apply selected_ok].
Qed.

Lemma superset_loop_ok n x y la lb :
  (length la + length lb < n)%nat → models x (tail la) → models y (tail lb) →
  increasing cmp la → increasing cmp lb →
  ∃ r, (λ fuel, superset_loop cmp fuel x y (head la) (head lb)) ⇓ r ∧
    (r = true ↔ ∀ z, mem cmp z lb = true → mem cmp z la = true).
Proof using All.
  revert x y la lb. induction n as [|n IH]; intros x y la lb Hn Hx Hy Ia Ib; [lia|].
  destruct lb as [|b lb]; [|destruct la as [|a la]]; cbn [head tail length] in *.
  - exists true. split; [eapply ends_S; [done|]; apply ends_ret|done].
  - exists false. split; [eapply ends_S; [done|]; apply ends_ret|]. split; [done|].
    intros H. specialize (H b). rewrite mem_cons, (cmp_refl cmp) in H. by specialize (H eq_refl).
  - pose proof Ia as [Ia' Ha]%(increasing_cons cmp). pose proof Ib as [Ib' Hb]%(increasing_cons cmp).
    destruct (next_ok x la Hx) as (x' & Hnx & Hx'), (next_ok y lb Hy) as (y' & Hny & Hy').
    destruct (cmp a b) eqn:E.
    + apply cmp_eq in E as ->. destruct (IH x' y' la lb) as (r & Hr & Hiff); [lia|done..|].
      exists r. split; [eapply ends_S; [done|]; cbn; rewrite (cmp_refl cmp); run Hny; by run Hnx|].
      rewrite Hiff. setoid_rewrite mem_cons. split; intros H z Hz.
      * destruct (is_eq (cmp z b)); [done|]. by apply H.
      * specialize (H z). rewrite Hz, orb_true_r in H. specialize (H eq_refl).
        apply orb_true_iff in H as [->%(is_eq_true cmp)|H]; [|done]. apply Hb in Hz. by rewrite (cmp_refl cmp) in Hz.
    + destruct (IH x' y la (b :: lb)) as (r & Hr & Hiff); [simpl; lia|done..|].
      exists r. split; [eapply ends_S; [done|]; cbn; rewrite E; by run Hnx|].
      rewrite Hiff. split; intros H z Hz; specialize (H z Hz); rewrite ?mem_cons in *.
      * by rewrite H, orb_true_r.
      * apply orb_true_iff in H as [->%(is_eq_true cmp)|H]; [|done]. rewrite E in Hz. apply Hb in Hz.
        apply (cmp_lt_trans _ _ _ E), (cmp_gt_lt cmp) in Hz. by rewrite (cmp_refl cmp) in Hz.
    + exists false. split; [eapply ends_S; [done|]; cbn; rewrite E; apply ends_ret|]. split; [done|]. intros H.
      specialize (H b). rewrite !mem_cons, (cmp_refl cmp) in H. specialize (H eq_refl).
      apply (cmp_gt_lt cmp) in E. rewrite E in H. apply Ha in H. pose proof (cmp_lt_trans _ _ _ E H) as H'.
      by rewrite (cmp_refl cmp) in H'.
Qed.

Lemma selected_elem op la lb z :
  increasing cmp la → increasing cmp lb →
  z ∈ selected cmp op la lb ↔
  (match op with
   | Difference => z ∈ la ∧ (z ∉ lb)
   | SymDifference => (z ∈ la ∧ (z ∉ lb)) ∨ ((z ∉ la) ∧ z ∈ lb)
   | Intersection => z ∈ la ∧ z ∈ lb
   | Union => z ∈ la ∨ z ∈ lb
   end).
Proof using All.
  intros Ha Hb. destruct (selected_ok cmp op la lb Ha Hb) as (_ & _ & _ & Hs).
  destruct op; rewrite <- !(mem_elem cmp), Hs; destruct (mem cmp z la), (mem cmp z lb); simpl; intuition congruence.
Qed.

Lemma set_op_gives op s t :
  set_ok s → set_ok t →
  let l := selected cmp op (elements s) (elements t) in gives (set_pair (op:=op) s t) l ∧ increasing cmp l.
Proof using All.
  intros Hs Ht. split; [by apply gives_ok, set_pair_model|].
  apply set_iter_model in Hs as [_ Hs], Ht as [_ Ht]. by destruct (selected_ok cmp op (elements s) (elements t) Hs Ht) as (_ & _ & ? & _).
Qed.

(** C22. The set operations of [TreeSet] give, each in increasing order and each
    element once, exactly the elements of the difference, the symmetric
    difference, the intersection and the union of the two sets; [is_disjoint],
    [is_superset] and [is_subset] decide the corresponding relations. *)
Theorem set_algebra_correct s t :
  set_ok s → set_ok t →
  (∃ l, gives (set_difference s t) l ∧ increasing cmp l ∧
     ∀ z, z ∈ l ↔ z ∈ elements s ∧ (z ∉ elements t)) ∧
  (∃ l, gives (set_symmetric_difference s t) l ∧ increasing cmp l ∧
     ∀ z, z ∈ l ↔ (z ∈ elements s ∧ (z ∉ elements t)) ∨ ((z ∉ elements s) ∧ z ∈ elements t)) ∧
  (∃ l, gives (set_intersection s t) l ∧ increasing cmp l ∧
     ∀ z, z ∈ l ↔ z ∈ elements s ∧ z ∈ elements t) ∧
  (∃ l, gives (set_union s t) l ∧ increasing cmp l ∧
     ∀ z, z ∈ l ↔ z ∈ elements s ∨ z ∈ elements t) ∧
  (∃ r, (λ fuel, set_is_disjoint cmp fuel s t) ⇓ r ∧ (r = true ↔ ∀ z, z ∈ elements s → z ∉ elements t)) ∧
  (∃ r, (λ fuel, set_is_superset cmp fuel s t) ⇓ r ∧ (r = true ↔ elements t ⊆ elements s)) ∧
  (∃ r, (λ fuel, set_is_subset cmp fuel s t) ⇓ r ∧ (r = true ↔ elements s ⊆ elements t)).
Proof using All.
  intros Hs Ht. pose proof (set_iter_model s Hs) as [Ms Is]. pose proof (set_iter_model t Ht) as [Mt It].
  assert (∀ s t, set_ok s → set_ok t → ∃ r, (λ fuel, set_is_superset cmp fuel s t) ⇓ r ∧
    (r = true ↔ elements t ⊆ elements s)) as Hsup.
  { clear s t Hs Ht Ms Is Mt It. intros s t [Ms Is]%set_iter_model [Mt It]%set_iter_model.
    destruct (next_ok _ _ Ms) as (x & Hnx & Hx), (next_ok _ _ Mt) as (y & Hny & Hy).
    destruct (superset_loop_ok _ x y (elements s) (elements t) (le_n _) Hx Hy Is It) as (r & Hr & Hiff).
    exists r. split; [run Hnx; by run Hny|]. rewrite Hiff. by setoid_rewrite (mem_elem cmp). }
  split_and!; [| | | | |by apply Hsup|by apply Hsup].
  1-4: eexists; split_and!; [by apply set_op_gives|by apply set_op_gives|].
  1-4: intros z; by rewrite selected_elem.
  destruct (loop_next cmp (intersection_next cmp) _ _ (intersection_ok cmp) (set_pair_model Intersection s t Hs Ht)) as (it' & Hn & _).
  eexists. split; [run Hn; apply ends_ret|].
  pose proof (λ z, selected_elem Intersection (elements s) (elements t) z Is It) as Hsel. cbv beta iota in Hsel.
  destruct (selected cmp Intersection (elements s) (elements t)) as [|w l]; simpl; split; try done.
  - intros _ z Hzs Hzt. by apply (not_elem_of_nil z), Hsel.
  - intros H. destruct (proj1 (Hsel w)) as [H1 H2]; [by left|]. by destruct (H w).
Qed.
End sets.

Definition set_evens : TreeSet N := set_from_iter N.compare [6; 2; 4; 0].
Definition set_thirds : TreeSet N := set_from_iter N.compare [3; 0; 6].

Lemma set_algebra_correct_witness :
  (∃ r, (λ fuel, set_is_superset N.compare fuel set_evens set_thirds) ⇓ r ∧
     (r = true ↔ elements set_thirds ⊆ elements set_evens)) ∧
  elements set_evens = [0; 2; 4; 6].
Proof.
  destruct (set_algebra_correct N.compare set_evens set_thirds) as (_ & _ & _ & _ & _ & H & _).
  - split; [split_and!; [by vm_compute; auto 20|by repeat constructor|done]|by vm_compute].
  - split; [split_and!; [by vm_compute; auto 20|by repeat constructor|done]|by vm_compute].
  - by split.
Defined.
