(* ===== verification/Threads.v ===== *)
(** Two threads over shared memory, for the channels of [libstd/comm].

    A thread is a tree of accesses to the memory: an access is one step, and
    the steps of the threads interleave in any order.  An access that is not
    enabled (waiting to be woken) blocks its thread.  [Iter] is an unbounded
    loop: its body gives the next state of the loop or leaves it.

    The proof method is that of an invariant with ghost phases.  Every thread
    is at a phase; the invariant relates the memory to the phases.  [wp] asks
    of each access that it keeps the invariant when only the phase of its own
    thread moves, whatever the phase of the other; [wp_steps] concludes that
    the invariant holds whenever the threads run together. *)
From stdpp Require Import prelude list relations.
From S2P Require Import Prelude.

Section prog.
Context (op : Type) (resp : op → Type).

Inductive prog (A : Type) : Type :=
  | Ret (a : A)
  | Abort (why : failure)
  | Act (o : op) (k : resp o → prog A)
  | Iter (X R : Type) (body : X → prog (X + R)) (i : X) (k : R → prog A).
End prog.
Arguments Ret {op resp A}.
Arguments Abort {op resp A}.
Arguments Act {op resp A}.
Arguments Iter {op resp A X R}.

Fixpoint prog_bind {op resp A B} (f : A → prog op resp B) (p : prog op resp A) : prog op resp B :=
  match p with
  | Ret a => f a
  | Abort w => Abort w
  | Act o k => Act o (λ r, prog_bind f (k r))
  | Iter body i k => Iter body i (λ r, prog_bind f (k r))
  end.
#[export] Instance prog_MBind op resp : MBind (prog op resp) := λ A B, prog_bind.
#[export] Instance prog_MRet op resp : MRet (prog op resp) := λ A, Ret.

Definition act {op resp} (o : op) : prog op resp (resp o) := Act o Ret.

(** [assert!(b)] *)
Definition check {op resp} (b : bool) : prog op resp () := if b then Ret () else Abort AssertFailed.

Section run.
Context {op : Type} {resp : op → Type} {M : Type} (exec : ∀ o : op, M → option (resp o * M)).

(** One step of a thread; [None] when it is finished, has failed or waits. *)
Definition tstep {A} (p : prog op resp A) (m : M) : option (prog op resp A * M) :=
  match p with
  | Ret _ | Abort _ => None
  | Act o k => match exec o m with Some (r, m') => Some (k r, m') | None => None end
  | Iter body i k =>
      Some (prog_bind (λ x, match x with inl i' => Iter body i' k | inr r => k r end) (body i), m)
  end.

Record config (A B : Type) : Type := mkConfig { memory : M; lthread : prog op resp A; rthread : prog op resp B }.
Arguments mkConfig {A B}.
Arguments memory {A B}.
Arguments lthread {A B}.
Arguments rthread {A B}.

Inductive cstep {A B} : config A B → config A B → Prop :=
  | step_left m p p' q m' : tstep p m = Some (p', m') → cstep (mkConfig m p q) (mkConfig m' p' q)
  | step_right m p q q' m' : tstep q m = Some (q', m') → cstep (mkConfig m p q) (mkConfig m' p q').

(** A run by a schedule ([true] is the left thread), to replay an interleaving. *)
Definition sched_step {A B} (c : config A B) (b : bool) : config A B :=
  if b then match tstep (lthread c) (memory c) with Some (p, m) => mkConfig m p (rthread c) | None => c end
  else match tstep (rthread c) (memory c) with Some (q, m) => mkConfig m (lthread c) q | None => c end.
Definition sched {A B} : list bool → config A B → config A B := flip (foldl sched_step).

Definition finished {A} (p : prog op resp A) : bool := match p with Ret _ => true | _ => false end.
Definition failed {A} (p : prog op resp A) : bool := match p with Abort _ => true | _ => false end.
Definition waits {A} (p : prog op resp A) (m : M) : bool :=
  match p with Act o _ => match exec o m with Some _ => false | None => true end | _ => false end.
Definition next_op {A} (p : prog op resp A) : option op := match p with Act o _ => Some o | _ => None end.

Lemma sched_reach {A B} (c : config A B) bs : rtc cstep c (sched bs c).
Proof.
  revert c. induction bs as [|b bs IH]; intros c; [done|].
  etransitivity; [|apply IH].
  destruct c as [m p q], b; simpl; unfold sched_step; simpl.
  - destruct (tstep p m) as [[p' m']|] eqn:E; [by apply rtc_once, step_left|done].
  - destruct (tstep q m) as [[q' m']|] eqn:E; [by apply rtc_once, step_right|done].
Qed.

(** What one thread has to show: [V m l e] is the invariant at its phase [l]
    and the other thread's phase [e]; [may l o] that the phase allows the
    access. *)
Section wp.
Context {L E : Type} (V : M → L → E → Prop) (may : L → op → Prop).

Fixpoint wp {A} (p : prog op resp A) (Q : A → L → Prop) (l : L) {struct p} : Prop :=
  match p with
  | Ret a => Q a l
  | Abort _ => False
  | Act o k =>
      may l o ∧
      ∀ m e r m', V m l e → exec o m = Some (r, m') → ∃ l', V m' l' e ∧ wp (k r) Q l'
  | @Iter _ _ _ X R body i k =>
      ∃ J : X → L → Prop, J i l ∧
        ∀ i l, J i l →
          wp (body i) (λ x l', match x with inl i' => J i' l' | inr r => wp (k r) Q l' end) l
  end.

Lemma wp_mono {A} (p : prog op resp A) (Q Q' : A → L → Prop) l :
  (∀ a l, Q a l → Q' a l) → wp p Q l → wp p Q' l.
Proof.
  revert Q Q' l. induction p as [A a|A w|A o k IH|A X R body IHb i k IHk]; intros Q Q' l HQ; simpl.
  - apply HQ.
  - done.
  - intros [? H]. split; [done|]. intros m e r m' HV He.
    destruct (H m e r m' HV He) as (l' & ? & ?). eauto.
  - intros (J & HJ & H). exists J. split; [done|]. intros i' l1 HJ'.
    eapply IHb, H, HJ'. intros [i''|r] l'; [done|]. by apply IHk.
Qed.

Lemma wp_bind {A B} (p : prog op resp A) (f : A → prog op resp B) Q l :
  wp p (λ a, wp (f a) Q) l → wp (p ≫= f) Q l.
Proof.
  unfold mbind, prog_MBind.
  revert f Q l. induction p as [A a|A w|A o k IH|A X R body IHb i k IHk]; intros f Q l; simpl.
  - done.
  - done.
  - intros [? H]. split; [done|]. intros m e r m' HV He.
    destruct (H m e r m' HV He) as (l' & ? & ?). eauto.
  - intros (J & HJ & H). exists J. split; [done|]. intros i' l1 HJ'.
    eapply wp_mono, H, HJ'. intros [i''|r] l'; [done|]. apply IHk.
Qed.

Lemma wp_act {A} o (f : resp o → prog op resp A) Q l :
  may l o → (∀ m e r m', V m l e → exec o m = Some (r, m') → ∃ l', V m' l' e ∧ wp (f r) Q l') →
  wp (act o ≫= f) Q l.
Proof. by split. Qed.

Lemma wp_tstep {A} (p p' : prog op resp A) Q l m m' e :
  V m l e → wp p Q l → tstep p m = Some (p', m') → ∃ l', V m' l' e ∧ wp p' Q l'.
Proof.
  intros HV. destruct p as [a|w|o k|X R body i k]; simpl; [done..| |].
  - intros [_ H]. destruct (exec o m) as [[r m1]|] eqn:Ex; [|done]. intros [= <- <-]. eauto.
  - intros (J & HJ & H) [= <- <-]. exists l. split; [done|]. apply wp_bind.
    eapply wp_mono, H, HJ. intros [i'|r] l' Hx; [|done]. by exists J.
Qed.

Lemma wp_not_failed {A} (p : prog op resp A) Q l : wp p Q l → failed p = false.
Proof. by destruct p. Qed.
Lemma wp_may {A} (p : prog op resp A) Q l o : wp p Q l → next_op p = Some o → may l o.
Proof. destruct p; simpl; try done. by intros [? _] [= ->]. Qed.
Lemma wp_finished {A} (p : prog op resp A) Q l : wp p Q l → finished p = true → ∃ a, p = Ret a ∧ Q a l.
Proof. destruct p; simpl; try done. eauto. Qed.
End wp.

(** Both threads keep the invariant: it holds whenever they run together. *)
Lemma wp_steps {L1 L2 A B} (V : M → L1 → L2 → Prop) may1 may2 (Q1 : A → L1 → Prop) (Q2 : B → L2 → Prop) c c' l1 l2 :
  rtc cstep c c' → V (memory c) l1 l2 →
  wp V may1 (lthread c) Q1 l1 → wp (λ m, flip (V m)) may2 (rthread c) Q2 l2 →
  ∃ l1' l2', V (memory c') l1' l2' ∧ wp V may1 (lthread c') Q1 l1' ∧ wp (λ m, flip (V m)) may2 (rthread c') Q2 l2'.
Proof.
  intros Hr. revert l1 l2. induction Hr as [c|c c1 c' Hs _ IH]; intros l1 l2 HV H1 H2; [eauto|].
  destruct Hs as [m p p' q m' Hs|m p q q' m' Hs]; simpl in *.
  - destruct (wp_tstep V may1 p p' Q1 l1 m m' l2 HV H1 Hs) as (l1' & ? & ?). eauto.
  - destruct (wp_tstep (λ m, flip (V m)) may2 q q' Q2 l2 m m' l1 HV H2 Hs) as (l2' & ? & ?). eauto.
Qed.

(** * Runs without loops end *)
Fixpoint loop_free {A} (p : prog op resp A) : Prop :=
  match p with
  | Ret _ | Abort _ => True
  | Act o k => ∀ r, loop_free (k r)
  | Iter _ _ _ => False
  end.

Lemma loop_free_bind {A B} (p : prog op resp A) (f : A → prog op resp B) :
  loop_free p → (∀ a, loop_free (f a)) → loop_free (p ≫= f).
Proof.
  unfold mbind, prog_MBind. induction p as [A a|A w|A o k IH|A X R body IHb i k IHk]; simpl; eauto.
Qed.

Definition goes_to {A} (p' p : prog op resp A) : Prop := ∃ m m', tstep p m = Some (p', m').

Lemma loop_free_Acc {A} (p : prog op resp A) : loop_free p → Acc goes_to p.
Proof.
  induction p as [A a|A w|A o k IH|A X R body _ i k _]; simpl; intros Hp; [..|destruct Hp].
  all: constructor; intros p' (m & m' & Ht); simpl in Ht; try discriminate Ht.
  destruct (exec o m) as [[r m1]|]; [|discriminate Ht]. injection Ht as <- <-. by apply IH.
Qed.

Lemma loop_free_ends {A B} (p : prog op resp A) (q : prog op resp B) m :
  loop_free p → loop_free q → Acc (flip cstep) (mkConfig m p q).
Proof.
  intros Hp Hq. apply loop_free_Acc in Hp, Hq. revert q Hq m.
  induction Hp as [p _ IHp]. intros q Hq. induction Hq as [q Hq IHq]. intros m.
  constructor. intros c' Hs. unfold flip in Hs.
  inversion Hs as [m1 p1 p' q1 m' Ht|m1 p1 q1 q' m' Ht]; subst.
  - apply IHp; [by exists m, m'|by constructor].
  - apply IHq. by exists m, m'.
Qed.
End run.
Arguments mkConfig {op resp M A B}.
Arguments memory {op resp M A B}.
Arguments lthread {op resp M A B}.
Arguments rthread {op resp M A B}.
