(* ===== verification/Tasks.v ===== *)
(** Blocked tasks, [libstd/rt/task.rs], and the two runtimes that put a task to
    sleep: [deschedule] of [libnative/task.rs] and of [libgreen/task.rs].

    One task blocks on a channel, the receiving one.  A handle to it is the
    task itself ([Owned]) or one of many that share an atomic flag ([Shared]):
    the first to swap the flag to 0 owns the task.  A handle is stored in a
    channel as a word, the address of the task or that of the flag with its
    lowest bit set; flags are allocated at fresh addresses.  The mutex and
    condition variable under [awoken] are the machine's: setting the flag and
    testing it before going to sleep are one step each.  The lock the native
    runtime holds from resetting the flag until it sleeps only forbids some of
    the interleavings that are possible here. *)
From stdpp Require Import prelude gmap.
From S2P Require Import Prelude Threads.

(** The address of the receiving task, and the word of a flag that is free. *)
Definition TASK : N := 8.

Record tasks : Type := mkTasks { awoken : bool; flags : gmap N N; fresh : N }.
Definition tasks_new : tasks := mkTasks false ∅ 16.

Inductive task_op :=
  | ResetAwoken | SetAwoken | WaitAwoken
  | NewFlag (n : N) | SwapFlag (arc n : N).
Definition task_resp (o : task_op) : Type :=
  match o with ResetAwoken | SetAwoken | WaitAwoken => () | NewFlag _ | SwapFlag _ _ => N end.

Definition task_exec (o : task_op) (s : tasks) : option (task_resp o * tasks) :=
  match o with
  | ResetAwoken => Some ((), mkTasks false (flags s) (fresh s))
  | SetAwoken => Some ((), mkTasks true (flags s) (fresh s))
  | WaitAwoken => if awoken s then Some ((), s) else None
  | NewFlag n => Some (fresh s, mkTasks (awoken s) (<[fresh s := n]> (flags s)) (fresh s + 8)%N)
  | SwapFlag arc n => Some (default 0%N (flags s !! arc), mkTasks (awoken s) (<[arc := n]> (flags s)) (fresh s))
  end.

Inductive BlockedTask := Owned | Shared (arc : N).

Definition cast_to_uint (t : BlockedTask) : N :=
  match t with Owned => TASK | Shared arc => N.lor arc 1 end.
Definition cast_from_uint (n : N) : BlockedTask :=
  if (N.land n 1 =? 0)%N then Owned else Shared (N.clearbit n 0).

Inductive Runtime := Native | Green.

Section tasks.
Context {op : Type} {resp : op → Type} (task : ∀ o : task_op, prog op resp (task_resp o)).

(** [BlockedTask::wake]: whether the handle gave the task. *)
Definition wake (t : BlockedTask) : prog op resp bool :=
  match t with
  | Owned => mret true
  | Shared arc => n ← task (SwapFlag arc 0); mret (negb (n =? 0)%N)
  end.

(** [t.wake().map(|t| t.reawaken())] *)
Definition wake_up (t : BlockedTask) : prog op resp () :=
  w ← wake t; if (w : bool) then task SetAwoken else mret ().

(** [deschedule(1, f)]; the two runtimes do the same.  Besides the handle that
    comes back, if it does, [f] gives what its closure leaves in a variable. *)
Definition deschedule {A} (f : BlockedTask → prog op resp (A * option BlockedTask)) : prog op resp A :=
  _ ← task ResetAwoken;
  '(a, r) ← f Owned;
  match r with
  | None => _ ← task WaitAwoken; mret a
  | Some t => _ ← wake t; mret a
  end.

(** What the other ports of a [select] do to the port that is looked at, once it
    is blocked on: a sender on one of them wakes the task, or one of them has
    something to receive and cancels the selection. *)
Inductive others := OtherWakes | OtherReady.

(** [deschedule(n, f)] with [n > 1], as one of the ports sees it: [f] blocks on
    the port, then the other ports are tried.  A handle that comes back is
    woken on the spot: the native runtime goes on, the green one sleeps until
    the owner of the task enqueues it. *)
Definition cancel (rt : Runtime) (t : BlockedTask) : prog op resp () :=
  w ← wake t;
  match rt with
  | Native => mret ()
  | Green => _ ← (if (w : bool) then task SetAwoken else mret ()); task WaitAwoken
  end.

Definition deschedule_many {A} (rt : Runtime) (o : others)
    (f : BlockedTask → prog op resp (A * option BlockedTask)) : prog op resp A :=
  arc ← task (NewFlag TASK);
  _ ← task ResetAwoken;
  '(a, r) ← f (Shared arc);
  _ ← match r, o with
      | Some t, _ => cancel rt t
      | None, OtherReady => cancel rt (Shared arc)
      | None, OtherWakes => _ ← wake_up (Shared arc); task WaitAwoken
      end;
  mret a.
End tasks.
