(* ===== verification/Oneshot.v ===== *)
(** Oneshot channels, [libstd/comm/oneshot.rs]: one atomic word holds the state
    of the channel or the task blocked on it; the data and upgrade slots are
    plain memory whose ownership follows the word.

    An operation is a thread program over the accesses of [op].  [sender] and
    [receiver] are what the two halves do with a oneshot packet in
    [libstd/comm/mod.rs] until they let it go: the sending half sends at most
    once, may upgrade the channel, and hangs up; the receiving half makes any
    calls, chosen from the answers it gets, and hangs up.  The payload of an
    upgrade is the receiving half of another channel, opaque here.  [Emit] is
    no access: it records what the two halves see and which values are
    destroyed. *)
From stdpp Require Import prelude gmap.
From S2P Require Import Prelude Threads Tasks.

Module Oneshot.
Section oneshot.
Context {T U : Type}.

Definition EMPTY : N := 0.
Definition DATA : N := 1.
Definition DISCONNECTED : N := 2.

Inductive MyUpgrade := NothingSent | SendUsed | GoUp (up : U).

(** What the halves observe. *)
Inductive event :=
  | Sent (t : T) (ok : bool)
  | Upgrade (up : U) (ok : bool)
  | Received (t : T) | NoData | HungUp | GotUpgrade (up : U) | Ready (b : bool)
  | Destroyed (t : T) | DestroyedUp (up : U).

(** The packet with the count of its [UnsafeArc]; [freed] once the last handle
    has released it. *)
Record Packet : Type := mkPacket {
  state : N;
  data : option T;
  upslot : MyUpgrade;
  count : N;
  freed : bool;
  sched : tasks;
  log : list event }.

Inductive op :=
  | LoadState | SwapState (n : N) | CasState (old new : N)
  | ReadUpgrade | WriteUpgrade (u : MyUpgrade)
  | IsSomeData | SetData (t : T) | TakeData
  | SubCount | Free
  | Task (o : task_op)
  | Emit (e : event).
Definition resp (o : op) : Type :=
  match o with
  | LoadState | SwapState _ | CasState _ _ | SubCount => N
  | ReadUpgrade => MyUpgrade
  | IsSomeData => bool
  | TakeData => option T
  | WriteUpgrade _ | SetData _ | Free | Emit _ => ()
  | Task o => task_resp o
  end.

Definition set_state (n : N) (p : Packet) : Packet :=
  mkPacket n (data p) (upslot p) (count p) (freed p) (sched p) (log p).
Definition set_data (d : option T) (p : Packet) : Packet :=
  mkPacket (state p) d (upslot p) (count p) (freed p) (sched p) (log p).
Definition set_upslot (u : MyUpgrade) (p : Packet) : Packet :=
  mkPacket (state p) (data p) u (count p) (freed p) (sched p) (log p).
Definition set_count (n : N) (p : Packet) : Packet :=
  mkPacket (state p) (data p) (upslot p) n (freed p) (sched p) (log p).
Definition set_sched (s : tasks) (p : Packet) : Packet :=
  mkPacket (state p) (data p) (upslot p) (count p) (freed p) s (log p).
Definition add_event (e : event) (p : Packet) : Packet :=
  mkPacket (state p) (data p) (upslot p) (count p) (freed p) (sched p) (log p ++ [e]).
Definition set_freed (p : Packet) : Packet :=
  mkPacket (state p) (data p) (upslot p) (count p) true (sched p) (log p).

Definition exec (o : op) (p : Packet) : option (resp o * Packet) :=
  match o with
  | LoadState => Some (state p, p)
  | SwapState n => Some (state p, set_state n p)
  | CasState old new => Some (state p, if (state p =? old)%N then set_state new p else p)
  | ReadUpgrade => Some (upslot p, p)
  | WriteUpgrade u => Some ((), set_upslot u p)
  | IsSomeData => Some (is_some (data p), p)
  | SetData t => Some ((), set_data (Some t) p)
  | TakeData => Some (data p, set_data None p)
  | SubCount => Some (count p, set_count (usub (count p) 1) p)
  | Free => Some ((), set_freed p)
  | Task o => match task_exec o (sched p) with Some (r, s) => Some (r, set_sched s p) | None => None end
  | Emit e => Some ((), add_event e p)
  end.

Definition task (o : task_op) : prog op resp (task_resp o) := act (Task o).
Definition emit (e : event) : prog op resp () := act (Emit e).

(** [Packet::new] in an [UnsafeArc] with two handles. *)
Definition new : Packet := mkPacket EMPTY None NothingSent 2 false tasks_new [].

Definition take_unwrap : prog op resp T :=
  d ← act TakeData; match d with Some t => mret t | None => Abort UnwrapNone end.

Definition send (t : T) : prog op resp bool :=
  u ← act ReadUpgrade;
  match u with
  | NothingSent =>
      d ← act IsSomeData;
      _ ← check (negb d);
      _ ← act (SetData t);
      _ ← act (WriteUpgrade SendUsed);
      n ← act (SwapState DATA);
      if (n =? EMPTY)%N then mret true
      else if (n =? DISCONNECTED)%N then
        t ← take_unwrap; _ ← emit (Destroyed t); mret false
      else if (n =? DATA)%N then Abort ExplicitFail
      else _ ← wake_up task (cast_from_uint n); mret true
  | _ => Abort ExplicitFail
  end.

Definition sent : prog op resp bool :=
  u ← act ReadUpgrade; mret (match u with NothingSent => false | _ => true end).

Inductive Failure := Empty | Disconnected | Upgraded (up : U).

Definition try_recv : prog op resp (T + Failure) :=
  n ← act LoadState;
  if (n =? EMPTY)%N then mret (inr Empty)
  else if (n =? DATA)%N then
    _ ← act (CasState DATA EMPTY);
    d ← act TakeData;
    match d with Some t => mret (inl t) | None => Abort ExplicitFail end
  else if (n =? DISCONNECTED)%N then
    d ← act TakeData;
    match d with
    | Some t => mret (inl t)
    | None =>
        u ← act ReadUpgrade;
        _ ← act (WriteUpgrade SendUsed);
        match u with
        | SendUsed | NothingSent => mret (inr Disconnected)
        | GoUp up => mret (inr (Upgraded up))
        end
    end
  else Abort ExplicitFail.

Definition recv : prog op resp (T + Failure) :=
  n ← act LoadState;
  _ ← (if (n =? EMPTY)%N then
         deschedule task (λ t,
           let n := cast_to_uint t in
           s ← act (CasState EMPTY n);
           if (s =? EMPTY)%N then mret ((), None)
           else if (s =? DATA)%N || (s =? DISCONNECTED)%N then mret ((), Some (cast_from_uint n))
           else Abort ExplicitFail)
       else mret ());
  try_recv.

Inductive UpgradeResult := UpSuccess | UpDisconnected | UpWoke (t : BlockedTask).

(** Overwriting the upgrade slot destroys the receiver it held. *)
Definition upgrade (up : U) : prog op resp UpgradeResult :=
  u ← act ReadUpgrade;
  prev ← match u with
         | NothingSent => mret NothingSent
         | SendUsed => mret SendUsed
         | GoUp _ => Abort ExplicitFail
         end;
  _ ← act (WriteUpgrade (GoUp up));
  n ← act (SwapState DISCONNECTED);
  if (n =? DATA)%N || (n =? EMPTY)%N then mret UpSuccess
  else if (n =? DISCONNECTED)%N then
    _ ← act (WriteUpgrade prev); _ ← emit (DestroyedUp up); mret UpDisconnected
  else mret (UpWoke (cast_from_uint n)).

Definition drop_chan : prog op resp () :=
  n ← act (SwapState DISCONNECTED);
  if (n =? DATA)%N || (n =? DISCONNECTED)%N || (n =? EMPTY)%N then mret ()
  else wake_up task (cast_from_uint n).

Definition drop_port : prog op resp () :=
  n ← act (SwapState DISCONNECTED);
  if (n =? DISCONNECTED)%N || (n =? EMPTY)%N then mret ()
  else if (n =? DATA)%N then t ← take_unwrap; emit (Destroyed t)
  else Abort ExplicitFail.

(** * Selection *)
(** The common part of the three operations below on a channel that is
    disconnected: the pending upgrade, if there is one and no data. *)
Definition replace_upgrade : prog op resp MyUpgrade :=
  u ← act ReadUpgrade; _ ← act (WriteUpgrade SendUsed); mret u.

Definition can_recv : prog op resp (bool + U) :=
  n ← act LoadState;
  if (n =? EMPTY)%N then mret (inl false)
  else if (n =? DATA)%N then mret (inl true)
  else if (n =? DISCONNECTED)%N then
    d ← act IsSomeData;
    if (d : bool) then mret (inl true)
    else
      u ← replace_upgrade;
      match u with
      | GoUp up => mret (inr up)
      | u => _ ← act (WriteUpgrade u); mret (inl true)
      end
  else Abort ExplicitFail.

Inductive SelectionResult := SelSuccess | SelCanceled (t : BlockedTask) | SelUpgraded (t : BlockedTask) (up : U).

Definition start_selection (t : BlockedTask) : prog op resp SelectionResult :=
  let n := cast_to_uint t in
  s ← act (CasState EMPTY n);
  if (s =? EMPTY)%N then mret SelSuccess
  else if (s =? DATA)%N then mret (SelCanceled (cast_from_uint n))
  else if (s =? DISCONNECTED)%N then
    d ← act IsSomeData;
    if (d : bool) then mret (SelCanceled (cast_from_uint n))
    else
      u ← replace_upgrade;
      match u with
      | GoUp up => mret (SelUpgraded (cast_from_uint n) up)
      | u => _ ← act (WriteUpgrade u); mret (SelCanceled (cast_from_uint n))
      end
  else Abort ExplicitFail.

Definition abort_selection : prog op resp (bool + U) :=
  s ← act LoadState;
  s ← (if (s =? EMPTY)%N || (s =? DATA)%N || (s =? DISCONNECTED)%N then mret s
       else act (CasState s EMPTY));
  if (s =? EMPTY)%N then Abort ExplicitFail
  else if (s =? DATA)%N then mret (inl true)
  else if (s =? DISCONNECTED)%N then
    d ← act IsSomeData;
    if (d : bool) then mret (inl true)
    else
      u ← replace_upgrade;
      match u with GoUp up => mret (inr up) | _ => mret (inl true) end
  else (* [t.trash()] does nothing *) mret (inl false).

(** * The end of a packet *)
(** [Packet::drop] and the drop glue of its fields. *)
Definition packet_drop : prog op resp () :=
  n ← act LoadState;
  _ ← check (n =? DISCONNECTED)%N;
  d ← act TakeData;
  _ ← match d with Some t => emit (Destroyed t) | None => mret () end;
  u ← act ReadUpgrade;
  _ ← match u with GoUp up => emit (DestroyedUp up) | _ => mret () end;
  act Free.

(** [UnsafeArc::drop] *)
Definition arc_drop : prog op resp () :=
  old_count ← act SubCount;
  if (old_count =? 1)%N then packet_drop else mret ().

(** * The halves *)
(** A [Sender] of this flavor: [try_send] sends the first message and upgrades
    for the second; the old packet is dropped with the handle it is swapped
    into.  Without an upgrade it is dropped with the [Sender]. *)
Definition sender (msg : option T) (up : option U) : prog op resp () :=
  _ ← match msg with
      | Some t => s ← sent; if (s : bool) then mret () else b ← send t; emit (Sent t b)
      | None => mret ()
      end;
  _ ← match up with
      | Some up =>
          r ← upgrade up;
          match r with
          | UpSuccess => emit (Upgrade up true)
          | UpDisconnected => emit (Upgrade up false)
          | UpWoke t => _ ← wake_up task t; emit (Upgrade up true)
          end
      | None => mret ()
      end;
  _ ← drop_chan;
  arc_drop.

Inductive call := Recv | TryRecv | CanRecv | Select | SelectAmong (o : others).
Inductive client := Hangup | Call (c : call) (k : event → client).

(** A selection as this port sees it: [Select::wait2] blocks on the ports one
    after the other until one has something to receive, and aborts those it
    blocked on.  A pending upgrade is taken instead. *)
Definition block_on (t : BlockedTask) : prog op resp (SelectionResult * option BlockedTask) :=
  r ← start_selection t;
  mret (r, match r with SelSuccess => None | SelCanceled t | SelUpgraded t _ => Some t end).
Definition after_block (r : SelectionResult) : prog op resp (bool + U) :=
  match r with
  | SelSuccess => abort_selection
  | SelCanceled _ => mret (inl true)
  | SelUpgraded _ up => mret (inr up)
  end.

Definition received (r : T + Failure) : event :=
  match r with
  | inl t => Received t
  | inr Empty => NoData
  | inr Disconnected => HungUp
  | inr (Upgraded up) => GotUpgrade up
  end.
Definition ready (r : bool + U) : event := match r with inl b => Ready b | inr up => GotUpgrade up end.

(** [recv_opt] takes an empty channel after a blocking call to be impossible. *)
Definition run_call (rt : Runtime) (c : call) : prog op resp event :=
  match c with
  | Recv =>
      r ← recv;
      match r with inr Empty => Abort ExplicitFail | r => mret (received r) end
  | TryRecv => r ← try_recv; mret (received r)
  | CanRecv => r ← can_recv; mret (ready r)
  | Select => r ← deschedule task block_on; r ← after_block r; mret (ready r)
  | SelectAmong o => r ← deschedule_many task rt o block_on; r ← after_block r; mret (ready r)
  end.

(** A [Receiver] of this flavor: after an upgrade the old packet is dropped
    with the handle it is swapped into, else with the [Receiver]. *)
Fixpoint receiver (rt : Runtime) (c : client) : prog op resp () :=
  match c with
  | Hangup => _ ← drop_port; arc_drop
  | Call c k =>
      e ← run_call rt c;
      _ ← emit e;
      match e with
      | GotUpgrade _ => _ ← drop_port; arc_drop
      | _ => receiver rt (k e)
      end
  end.

Definition start (rt : Runtime) (msg : option T) (up : option U) (c : client)
    : config (M := Packet) () () :=
  mkConfig new (sender msg up) (receiver rt c).
End oneshot.
End Oneshot.
