(* ===== verification/OneshotInv.v ===== *)
(** The invariant of the oneshot channels.

    The phases of the two halves determine the contents of the packet; the
    functions [word_is], [data_is], [up_is] and the logs below say how. *)
From stdpp Require Import prelude gmap.
From S2P Require Import Prelude Threads Tasks Oneshot.
Import Oneshot.

Section sound.
Context {T U : Type}.

(** * Phases *)
(** The message, as its sender sees it: written to the slot, announced in
    [upslot], published; or found refused, taken back, destroyed. *)
Inductive sending := Fresh | Wrote (t : T) | Loaded (t : T) | Delivered (t : T)
  | Refused (t : T) | Spoiled (t : T) | Rejected (t : T).
Inductive offering := NoOffer | Offer (u : U) | Offered (u : U) | Declining (u : U) | Declined (u : U) | Refunded (u : U).
(** A handle of the receiving task in the hands of the sender. *)
Inductive waking := Nobody | Holds (t : BlockedTask) | Rousing.
(** A handle of the packet; [Last] is that of the half that destroys it. *)
Inductive cleaning := Full | HasMsg (t : T) | NoMsg | HasUp (u : U) | Clean | Freed.
Inductive handle := Live | Gone | Last (st : cleaning).

Record sphase := mkS { sd : sending; off : offering; wk : waking; cl : bool; said : bool; saidup : bool; srf : handle }.

(** A handle that is shared is claimed, by whoever swaps its flag, before the
    task waits. *)
Inductive stage := Waits | SelfRouse | Claimed | Up.
(** The handle the receiver has made of its task: its flag is allocated, it is
    in hand or published in the word of the channel. *)
Inductive sleeping := Awake | Alloc (a : N) | Asleep (pub : bool) (b : BlockedTask) (st : stage).
(** What the receiver has seen of the channel in the call it is in. *)
Inductive view := Idle | SawData | Cleared | SawDisc | SawNone | ReadUp (u : @MyUpgrade U) | SawHung.
Inductive took := Untouched | InHand (t : T) | Got (t : T) | Trash (t : T) | Trashed (t : T).
Inductive took_up := UpUntouched | UpInHand (u : U) | UpGot (u : U).
Inductive port := Open | Closing | Closed.

Record rphase := mkR { slp : sleeping; rv : view; tk : took; ut : took_up; slot : option (@MyUpgrade U); hung : nat; pt : port; rrf : handle }.

(** * What the phases say of the packet *)
Definition swapped (s : sphase) : bool :=
  match sd s with Fresh | Wrote _ | Loaded _ => false | _ => true end.
Definition untouched (r : rphase) : bool := match tk r with Untouched => true | _ => false end.
(** The sender has taken whatever task the word held. *)
Definition consumed (s : sphase) (r : rphase) : bool :=
  cl s || match sd s with Delivered _ => untouched r | _ => false end.

Definition published (r : rphase) : N :=
  match slp r with Asleep true b _ => cast_to_uint b | _ => EMPTY end.
Definition word_is (s : sphase) (r : rphase) : N :=
  if cl s then DISCONNECTED else
  match sd s with
  | Fresh | Wrote _ | Loaded _ => match pt r with Open => published r | _ => DISCONNECTED end
  | Refused _ | Spoiled _ | Rejected _ => DATA
  | Delivered _ =>
      match pt r with
      | Open => if untouched r then (match rv r with Cleared => EMPTY | _ => DATA end) else published r
      | _ => DISCONNECTED
      end
  end.

Definition emptied (h : handle) : bool := match h with Live | Gone | Last Full => false | _ => true end.
Definition data_is (s : sphase) (r : rphase) : option T :=
  if emptied (srf s) || emptied (rrf r) then None else
  match sd s with
  | Fresh | Spoiled _ | Rejected _ => None
  | Wrote t | Loaded t | Refused t => Some t
  | Delivered t => if untouched r then Some t else None
  end.

Definition offered (s : sphase) : @MyUpgrade U :=
  match off s with
  | Offer u | Offered u | Declining u => GoUp u
  | _ => match sd s with Fresh | Wrote _ => NothingSent | _ => SendUsed end
  end.
Definition up_is (s : sphase) (r : rphase) : @MyUpgrade U :=
  match slot r with Some u => u | None => offered s end.

Definition live (h : handle) : N := match h with Live => 1 | _ => 0 end.
Definition is_gone (h : handle) : bool := match h with Last Freed => true | _ => false end.

Definition is_msg (e : @event T U) : bool := match e with Received _ | Destroyed _ => true | _ => false end.
Definition is_up (e : @event T U) : bool := match e with GotUpgrade _ | DestroyedUp _ => true | _ => false end.
Definition is_answer (e : @event T U) : bool := match e with Received _ | HungUp | GotUpgrade _ => true | _ => false end.
Definition is_sent (e : @event T U) : bool := match e with Sent _ _ | Upgrade _ _ => true | _ => false end.

Definition swept (h : handle) : bool := match h with Live | Gone | Last (Full | HasMsg _) => false | _ => true end.
Definition swept_up (h : handle) : bool := match h with Last (Clean | Freed) => true | _ => false end.
Definition msgs_are (s : sphase) (r : rphase) : list (@event T U) :=
  match sd s with
  | Rejected t => [Destroyed t]
  | Delivered t =>
      match tk r with
      | Untouched => if swept (srf s) || swept (rrf r) then [Destroyed t] else []
      | Got t => [Received t]
      | Trashed t => [Destroyed t]
      | _ => []
      end
  | _ => []
  end.
Definition ups_are (s : sphase) (r : rphase) : list (@event T U) :=
  match off s with
  | Refunded u => [DestroyedUp u]
  | Offered u =>
      match ut r with
      | UpUntouched => if swept_up (srf s) || swept_up (rrf r) then [DestroyedUp u] else []
      | UpGot u => [GotUpgrade u]
      | UpInHand _ => []
      end
  | _ => []
  end.
Definition answers_are (r : rphase) : list (@event T U) :=
  match tk r with Got t => [Received t] | _ => [] end ++
  replicate (hung r) HungUp ++
  match ut r with UpGot u => [GotUpgrade u] | _ => [] end.
Definition sents_are (s : sphase) : list (@event T U) :=
  (if said s then
     match sd s with Delivered t => [Sent t true] | Rejected t => [Sent t false] | _ => [] end
   else []) ++
  (if saidup s then
     match off s with Offered u => [Upgrade u true] | Refunded u => [Upgrade u false] | _ => [] end
   else []).

(** * The sleeping task *)
Definition good (b : BlockedTask) (k : tasks) : Prop :=
  match b with Owned => True | Shared a => N.land a 7 = 0%N ∧ (16 ≤ a)%N ∧ (a < fresh k)%N end.
Definition unclaimed (a : N) (k : tasks) : Prop := flags k !! a = Some TASK.
Definition claimed (a : N) (k : tasks) : Prop := flags k !! a = Some 0%N.
Definition quiet (w : waking) : Prop := w ≠ Rousing ∧ w ≠ Holds Owned.

Definition sleep_ok (k : tasks) (s : sphase) (r : rphase) : Prop :=
  match slp r with
  | Asleep pub b SelfRouse =>
      match b with Owned => False | Shared a => claimed a k ∧ awoken k = false ∧ quiet (wk s) end
  | Asleep pub b Claimed =>
      match b with
      | Owned => False
      | Shared a => claimed a k ∧ (wk s = Rousing ∧ pub = true ∧ awoken k = false ∨ quiet (wk s) ∧ awoken k = true)
      end
  | Asleep pub b Up =>
      pub = true ∧ quiet (wk s) ∧ match b with Owned => consumed s r = true | Shared a => claimed a k end
  | Asleep pub Owned Waits =>
      if pub && consumed s r then
        wk s = Holds Owned ∧ awoken k = false ∨ quiet (wk s) ∧ awoken k = true
      else quiet (wk s) ∧ awoken k = false
  | Asleep pub (Shared a) Waits =>
      unclaimed a k ∧ quiet (wk s) ∧ awoken k = false ∧
        (if pub then consumed s r = true → wk s = Holds (Shared a) else wk s ≠ Holds (Shared a))
      ∨ claimed a k ∧ (wk s = Rousing ∧ pub = true ∧ awoken k = false ∨ quiet (wk s) ∧ awoken k = true)
  | Alloc a => unclaimed a k ∧ quiet (wk s) ∧ wk s ≠ Holds (Shared a)
  | _ => quiet (wk s)
  end.

#[local] Arguments sleep_ok : simpl never.

Definition is_pub (v : sleeping) : bool := match v with Asleep true _ _ => true | _ => false end.
Definition on_task (v : sleeping) : option BlockedTask :=
  match v with Asleep _ b _ => Some b | Alloc a => Some (Shared a) | _ => None end.

Record tasks_ok (k : tasks) (s : sphase) (r : rphase) : Prop := {
  fresh_ok : N.land (fresh k) 7 = 0%N ∧ (16 ≤ fresh k)%N;
  view_good b : on_task (slp r) = Some b → good b k;
  wk_good b : wk s = Holds b → good b k;
  wk_claimed a : wk s = Holds (Shared a) → claimed a k ∨ ∃ st, slp r = Asleep true (Shared a) st;
  sleep : sleep_ok k s r
}.

(** * Which phases go together *)
Definition is_last (h : handle) : bool := match h with Last _ => true | _ => false end.

Definition is_live (h : handle) : bool := match h with Live => true | _ => false end.
Definition both_gone (h h' : handle) : bool := match h, h' with Gone, Gone => true | _, _ => false end.
(** Whatever was delivered has been received. *)
Definition no_data (s : sphase) (r : rphase) : Prop :=
  match sd s with Delivered t => tk r = Got t | _ => True end.
Definition view_ok (s : sphase) (r : rphase) (v : view) : Prop :=
  match v with
  | Idle => True
  | SawData | Cleared => tk r = Untouched ∧ ∃ t, sd s = Delivered t
  | SawDisc => cl s = true
  | SawNone => cl s = true ∧ no_data s r
  | ReadUp u => cl s = true ∧ no_data s r ∧ up_is s r = u
  | SawHung => cl s = true ∧ off s = NoOffer ∧ no_data s r
  end.
Definition clean_ok (s : sphase) (r : rphase) (h : handle) : Prop :=
  match h with
  | Last (HasMsg t) => sd s = Delivered t ∧ tk r = Untouched
  | Last (HasUp u) => off s = Offered u ∧ ut r = UpUntouched
  | _ => True
  end.

Record coherent (s : sphase) (r : rphase) : Prop := {
  co_refused : match sd s with Refused _ | Spoiled _ | Rejected _ => pt r = Closed | _ => True end;
  co_declined : match off s with Declining _ | Declined _ | Refunded _ => pt r ≠ Open ∧ slot r = None ∧ cl s = true
                | Offered _ => cl s = true ∧ match sd s with Wrote _ | Loaded _ | Refused _ | Spoiled _ => False | _ => True end
                | Offer _ => cl s = false ∧ match sd s with Wrote _ | Loaded _ | Refused _ | Spoiled _ => False | _ => True end
                | NoOffer => True end;
  co_took t : (tk r = InHand t ∨ tk r = Got t ∨ tk r = Trash t ∨ tk r = Trashed t) → sd s = Delivered t;
  co_up u : (ut r = UpInHand u ∨ ut r = UpGot u) → off s = Offered u ∧ slot r ≠ None;
  co_offer u : off s = Offered u → ut r = UpUntouched → slot r = None;
  co_slot u : slot r = Some u → cl s = true ∧ match u with GoUp _ => False | _ => True end;
  co_cl : cl s = true → match sd s with Wrote _ | Loaded _ | Refused _ | Spoiled _ => False | _ => True end;
  co_view : view_ok s r (rv r);
  co_port : match pt r with
            | Open => match tk r with Trash _ | Trashed _ => False | _ => True end
            | Closing => slp r = Awake ∧ rv r = Idle ∧ tk r = Untouched ∧ ∃ t, sd s = Delivered t
            | Closed => slp r = Awake ∧ rv r = Idle end;
  co_pub : is_pub (slp r) = true → rv r = Idle;
  co_srf : is_live (srf s) = false → cl s = true ∧ wk s = Nobody ∧
      match off s with Offer _ | Declining _ | Declined _ => False | _ => True end;
  co_clean : clean_ok s r (srf s) ∧ clean_ok s r (rrf r);
  co_rrf : is_live (rrf r) = false → pt r = Closed;
  co_last : (is_last (srf s) = true → rrf r = Gone) ∧ (is_last (rrf r) = true → srf s = Gone);
  co_both : both_gone (srf s) (rrf r) = false;
  co_hung : hung r ≠ 0 → cl s = true ∧ off s = NoOffer ∧ no_data s r;
  co_upgot u : (ut r = UpInHand u ∨ ut r = UpGot u) → no_data s r
}.

Record inv (p : @Packet T U) (s : sphase) (r : rphase) : Prop := {
  inv_word : state p = word_is s r;
  inv_data : data p = data_is s r;
  inv_up : upslot p = up_is s r;
  inv_count : count p = (live (srf s) + live (rrf r))%N;
  inv_freed : freed p = is_gone (srf s) || is_gone (rrf r);
  inv_msgs : List.filter is_msg (log p) = msgs_are s r;
  inv_ups : List.filter is_up (log p) = ups_are s r;
  inv_answers : List.filter is_answer (log p) = answers_are r;
  inv_sents : List.filter is_sent (log p) = sents_are s;
  inv_tasks : tasks_ok (sched p) s r;
  inv_coh : coherent s r
}.

(** * Accesses a phase allows *)
Definition is_data (o : @op T U) : bool := match o with IsSomeData | SetData _ | TakeData => true | _ => false end.
Definition is_upslot (o : @op T U) : bool := match o with ReadUpgrade | WriteUpgrade _ => true | _ => false end.
Definition is_free (o : @op T U) : bool := match o with Free => true | _ => false end.
Definition on_packet (o : @op T U) : bool := match o with Task _ | Emit _ => false | _ => true end.
(** A race on plain memory, or a use of the packet while it is freed. *)
Definition conflict (o o' : @op T U) : bool :=
  is_data o && is_data o' || is_upslot o && is_upslot o' ||
  is_free o && on_packet o' || on_packet o && is_free o'.

Definition holds (h : handle) : bool := match h with Live => true | Gone | Last Freed => false | Last _ => true end.
Definition smay (s : sphase) (o : @op T U) : Prop :=
  (on_packet o = true → holds (srf s) = true) ∧
  (is_data o = true → match sd s with Fresh | Wrote _ | Refused _ => cl s = false | _ => False end ∨ is_last (srf s) = true) ∧
  (is_upslot o = true → cl s = false ∨ (∃ u, off s = Declining u) ∨ is_last (srf s) = true) ∧
  (is_free o = true → is_last (srf s) = true) ∧
  o ≠ Task WaitAwoken.
(** The task goes to sleep once it is published or its flag is claimed. *)
Definition may_wait (r : rphase) : Prop :=
  match slp r with Asleep true Owned Waits | Asleep _ (Shared _) Claimed => True | _ => False end.
Definition rmay (r : rphase) (o : @op T U) : Prop :=
  (on_packet o = true → holds (rrf r) = true) ∧
  (is_data o = true →
    rv r = SawData ∨ rv r = Cleared ∨ rv r = SawDisc ∨ pt r = Closing ∨ is_last (rrf r) = true) ∧
  (is_upslot o = true → rv r = SawNone ∨ (∃ u, rv r = ReadUp u) ∨ rv r = SawHung ∨ is_last (rrf r) = true) ∧
  (is_free o = true → is_last (rrf r) = true) ∧
  (o = Task WaitAwoken → may_wait r).
End sound.

Ltac open_inv H :=
  destruct H as [Hword Hdata Hup Hcnt Hfree Hms Hus Has Hss [Hfr Hvg Hwg Hwc Hsl]
    [Hrefused Hdeclined Htook Hupgrade Hoffer Hslot Hclosed Hview Hport Hpub Hsrf Hclean Hrrf Hlast Hboth Hhung Hupgot]].
Ltac close_inv :=
  constructor; [ | | | | | | | | |constructor|constructor]; unfold view_ok, no_data in *; cbn in *; try assumption.
(** Splits on the phases the goal looks at, dropping the combinations the hypotheses exclude. *)
Ltac clean :=
  repeat match goal with
  | H : _ ∧ _ |- _ => destruct H
  | H : ∃ _, _ |- _ => destruct H
  | H : False |- _ => destruct H
  | H : true = false |- _ => discriminate H
  | H : false = true |- _ => discriminate H
  | H : ?x = ?x → ?P |- _ => specialize (H eq_refl)
  | H : ?x = ?y |- _ => first [subst x | subst y | discriminate H | progress (injection H as H)]
  end.
Ltac look :=
  match goal with
  | |- context [match ?x with _ => _ end] => is_var x; destruct x; cbn in *; clean
  end.
Ltac forward :=
  match goal with
  | H : ?P, F : ?P → _ |- _ => specialize (F H); cbn in *; clean
  | H : ?P ∨ ?Q, F : ∀ t, _ ∨ _ → _ |- _ => pose proof (F _ H); clear F; cbn in *; clean
  end.
Ltac fin := intros; cbn in *; clean; repeat look; try done; repeat forward; try done; try congruence; eauto 3.


(** Recording an event. *)
Ltac log_tac :=
  rewrite ?List.filter_app; cbn; rewrite ?app_nil_r in *; try assumption;
  try match goal with H : List.filter ?f _ = _ |- List.filter ?f _ ++ _ = _ => rewrite H end.

#[local] Arguments sleep_ok : simpl never.
#[local] Arguments cast_to_uint : simpl never.

Section halves.
Context {T U : Type}.
Implicit Types (m : @Packet T U) (s : @sphase T U) (r : @rphase T U).

Lemma good_word b k : good b k → cast_to_uint b ≠ EMPTY ∧ cast_to_uint b ≠ DATA ∧ cast_to_uint b ≠ DISCONNECTED.
Proof.
  destruct b as [|a]; [done|]. intros (_ & H & _). unfold cast_to_uint.
  assert (a ≤ N.lor a 1)%N by (apply N.ldiff_le, N.bits_inj_0; intros i; rewrite N.ldiff_spec, N.lor_spec; by destruct (N.testbit a i)).
  unfold EMPTY, DATA, DISCONNECTED. lia.
Qed.

Lemma good_roundtrip b k : good b k → cast_from_uint (cast_to_uint b) = b.
Proof.
  destruct b as [|a]; [done|]. intros (H & _ & _). unfold cast_to_uint.
  assert (N.testbit a 0 = false) as H0.
  { replace (N.testbit a 0) with (N.testbit (N.land a 7) 0) by (rewrite N.land_spec; apply andb_true_r).
    by rewrite H. }
  unfold cast_from_uint. replace (N.land (N.lor a 1) 1) with 1%N.
  - f_equal. apply N.bits_inj. intros i. rewrite N.clearbit_eqb, N.lor_spec.
    destruct (N.eqb_spec 0 i) as [<-|Hi]; [by rewrite H0|].
    rewrite (N.bits_above_log2 1 i) by (simpl; lia). by rewrite orb_false_r, andb_true_r.
  - apply N.bits_inj. intros i. rewrite N.land_spec, N.lor_spec.
    destruct (N.testbit a i), (N.testbit 1 i); done.
Qed.

Lemma live_not_last m s r : inv m s r → srf s = Live → is_last (rrf r) = false.
Proof.
  intros H HL. destruct (is_last (rrf r)) eqn:E; [|done].
  apply (co_last _ _ (inv_coh _ _ _ H)) in E. congruence.
Qed.
Lemma open_slot m s r : inv m s r → cl s = false → slot r = None.
Proof.
  intros H Hcl. destruct (slot r) eqn:E; [|done].
  destruct (co_slot _ _ (inv_coh _ _ _ H) _ E). congruence.
Qed.
Lemma open_up m s r : inv m s r → cl s = false → upslot m = offered s.
Proof. intros H Hcl. rewrite (inv_up _ _ _ H). unfold up_is. by erewrite open_slot. Qed.
Lemma live_data m s r : inv m s r → srf s = Live →
  data m = match sd s with
           | Fresh | Spoiled _ | Rejected _ => None
           | Wrote t | Loaded t | Refused t => Some t
           | Delivered t => if untouched r then Some t else None end.
Proof.
  intros H HL. rewrite (inv_data _ _ _ H). unfold data_is. rewrite HL.
  pose proof (live_not_last _ _ _ H HL). by destruct (rrf r).
Qed.

Lemma undelivered m s r : inv m s r → (∀ t, sd s ≠ Delivered t) → tk r = Untouched.
Proof.
  intros H Hs. destruct (tk r) as [|x|x|x|x] eqn:E; [done|..];
    destruct (Hs x); apply (co_took _ _ (inv_coh _ _ _ H)); auto.
Qed.

(** The sleeping task is as before, unless the sender takes its handle. *)
Lemma sleep_same k s s' r r' :
  slp r = slp r' → wk s = wk s' → (is_pub (slp r) = true → consumed s r = consumed s' r') → sleep_ok k s r → sleep_ok k s' r'.
Proof.
  unfold sleep_ok. intros <- <- Hc. destruct (slp r) as [|a|[] b st]; try done.
  - by rewrite Hc.
  - by destruct b, st; cbn; try naive_solver.
Qed.
Lemma sleep_taken k s s' r r' b st :
  slp r = Asleep true b st → wk s = Nobody → consumed s r = false → sleep_ok k s r →
  slp r' = Asleep true b st → wk s' = Holds b → consumed s' r' = true → sleep_ok k s' r'.
Proof.
  unfold sleep_ok, quiet. intros -> -> -> H -> -> ->. destruct st, b; cbn in *; naive_solver.
Qed.

(** What swapping the word gives the sender: nobody waits, the port is gone, or
    a task. *)
Definition swap_gives (n : N) (calm gone : Prop) (woke : BlockedTask → Prop) : Prop :=
  ((n = DATA ∨ n = EMPTY) ∧ calm) ∨ (n = DISCONNECTED ∧ gone) ∨
  ∃ b, n ≠ EMPTY ∧ n ≠ DATA ∧ n ≠ DISCONNECTED ∧ cast_from_uint n = b ∧ woke b.

(** Swapping the flag of a shared handle to 0. *)
Definition swap_flag (a : N) (k : tasks) : tasks := mkTasks (awoken k) (<[a := 0%N]> (flags k)) (fresh k).

Lemma claimed_swap a x k : claimed x k → claimed x (swap_flag a k).
Proof. unfold claimed; cbn. destruct (decide (a = x)) as [->|]; by simplify_map_eq. Qed.
Lemma swap_flag_id a k : claimed a k → swap_flag a k = k.
Proof. destruct k as [aw fl fr]. unfold swap_flag, claimed. cbn. intros H. by rewrite insert_id. Qed.
Lemma good_swap a b k : good b k → good b (swap_flag a k).
Proof. done. Qed.

Lemma view_word m s r b : inv m s r → on_task (slp r) = Some b →
  cast_to_uint b ≠ EMPTY ∧ cast_to_uint b ≠ DATA ∧ cast_to_uint b ≠ DISCONNECTED ∧ cast_from_uint (cast_to_uint b) = b.
Proof.
  intros H Hb. assert (good b (sched m)) as HG by (by apply (view_good _ _ _ (inv_tasks _ _ _ H))).
  destruct (good_word _ _ HG) as (?&?&?). pose proof (good_roundtrip _ _ HG). auto.
Qed.
End halves.

Ltac sleep_tac :=
  match goal with
  | H : sleep_ok _ _ _ |- sleep_ok _ _ _ =>
      first [ exact H
            | by (eapply sleep_same; [..|exact H])
            | by (eapply sleep_taken; [..|exact H| | |]) ]
  end.

(** One access of a thread, and the phase it leads to. *)
Ltac may_tac := repeat split; cbn; intros; try done; auto; eauto; by repeat case_match.
Ltac wact := cbn; split; [solve [may_tac] | intros ? ? ? ? HV Hex; cbn in Hex; injection Hex as <- <-].
Tactic Notation "wgo" constr(l) "by" tactic3(t) := exists l; split; [solve [t] | repeat match goal with x : Packet |- _ => clear dependent x end].

