(* ===== verification/OneshotSend.v ===== *)
(** The sending half of a oneshot channel keeps the invariant. *)
From stdpp Require Import prelude gmap.
From S2P Require Import Prelude Threads Tasks Oneshot OneshotInv.
Import Oneshot.

#[local] Arguments sleep_ok : simpl never.
#[local] Arguments cast_to_uint : simpl never.

Section halves.
Context {T U : Type}.
Implicit Types (m : @Packet T U) (s : @sphase T U) (r : @rphase T U).

Definition sends d : sphase := mkS (T := T) (U := U) d NoOffer Nobody false false false Live.

Lemma s_write m t r : inv m (sends Fresh) r → inv (set_data (Some t) m) (sends (Wrote t)) r.
Proof.
  intros HV. pose proof (live_not_last _ _ _ HV eq_refl). destruct r as [z v tk u sl h p f].
  open_inv HV; close_inv; destruct f; try done; fin.
Qed.

Lemma s_announce m t r : inv m (sends (Wrote t)) r → inv (set_upslot SendUsed m) (sends (Loaded t)) r.
Proof.
  intros HV. pose proof (live_not_last _ _ _ HV eq_refl). pose proof (open_slot _ _ _ HV eq_refl).
  destruct r as [z v tk u sl h p f]. open_inv HV; close_inv; destruct f; try done; fin.
Qed.

Lemma s_publish m t r : inv m (sends (Loaded t)) r →
  let m' := set_state DATA m in
  state m ≠ DATA ∧
  swap_gives (state m) (inv m' (sends (Delivered t)) r) (inv m' (sends (Refused t)) r)
    (λ b, inv m' (mkS (Delivered t) NoOffer (Holds b) false false false Live) r).
Proof.
  intros HV m'. pose proof (live_data _ _ _ HV eq_refl) as HD. pose proof (live_not_last _ _ _ HV eq_refl) as HL.
  pose proof (undelivered _ _ _ HV ltac:(done)) as Hk.
  destruct r as [z v k u sl h p f]. cbn in Hk; subst k.
  rewrite (inv_word _ _ _ HV). unfold word_is; cbn. destruct p.
  - destruct z as [|a|[] b st].
    3: { destruct (view_word _ _ _ b HV eq_refl) as (?&?&?&?).
      split; [done|]. right; right. exists b. split_and!; try done.
      open_inv HV; close_inv; destruct f; try done; fin; sleep_tac. }
    all: assert (v = Idle) as -> by (pose proof (co_view _ _ (inv_coh _ _ _ HV)); destruct v; cbn in *; naive_solver).
    all: (split; [done|]); left; split; [auto|]; open_inv HV; close_inv; destruct f; try done; fin; sleep_tac.
  - exfalso. pose proof (co_port _ _ (inv_coh _ _ _ HV)); cbn in *; naive_solver.
  - split; [done|]; right; left; split; [auto|]. open_inv HV; close_inv; destruct f; try done; fin.
Qed.
Lemma s_takeback m t r : inv m (sends (Refused t)) r → data m = Some t ∧ inv (set_data None m) (sends (Spoiled t)) r.
Proof.
  intros HV. split; [by rewrite (live_data _ _ _ HV eq_refl)|].
  pose proof (live_not_last _ _ _ HV eq_refl) as HL. destruct r as [z v k u sl h p f].
  open_inv HV; close_inv; destruct f; try done; fin; sleep_tac.
Qed.

Lemma s_destroyed m t r : inv m (sends (Spoiled t)) r → inv (add_event (Destroyed t) m) (sends (Rejected t)) r.
Proof.
  intros HV. pose proof (live_not_last _ _ _ HV eq_refl) as HL. destruct r as [z v k u sl h p f].
  open_inv HV; close_inv; log_tac; destruct f; try done; fin; sleep_tac.
Qed.

(** Waking the task. *)
Definition with_wk (w : waking) s : sphase := mkS (sd s) (off s) w (cl s) (said s) (saidup s) (srf s).

Lemma sleep_roused k s r : wk s = Rousing ∨ wk s = Holds Owned → sleep_ok k s r →
  sleep_ok (mkTasks true (flags k) (fresh k)) (with_wk Nobody s) r.
Proof.
  unfold sleep_ok, quiet, claimed. intros Hw. destruct s as [d o w c a b f]; cbn in *.
  destruct (slp r) as [|x|[] [|x] []]; cbn; try (by destruct Hw as [-> | ->]; naive_solver).
  unfold consumed; cbn. case_match; destruct Hw as [-> | ->]; naive_solver.
Qed.

Lemma s_rouse m s r : wk s = Rousing ∨ wk s = Holds Owned → inv m s r →
  inv (set_sched (mkTasks true (flags (sched m)) (fresh (sched m))) m) (with_wk Nobody s) r.
Proof.
  intros Hw HV. open_inv HV; close_inv; try done.
  - by apply sleep_roused.
  - intros Hf. by destruct (Hsrf Hf) as (? & _ & ?).
Qed.
(** The task is asleep on the flag and the sender is the first to take it. *)
Lemma sleep_first k s r a st :
  slp r = Asleep true (Shared a) st → wk s = Holds (Shared a) → flags k !! a = Some TASK → sleep_ok k s r →
  sleep_ok (swap_flag a k) (with_wk Rousing s) r.
Proof.
  unfold sleep_ok, claimed, unclaimed, quiet, TASK. intros -> -> Hf. destruct st; cbn.
  - intros [(_ & _ & ? & _)|[? _]]; [|congruence]. right. simplify_map_eq. auto.
  - intros [? _]; congruence.
  - intros [? _]; congruence.
  - intros (_ & _ & ?); congruence.
Qed.
(** The flag was taken before: nothing happens. *)
Lemma sleep_late k s r a :
  wk s = Holds (Shared a) → claimed a k → sleep_ok k s r → sleep_ok (swap_flag a k) (with_wk Nobody s) r.
Proof.
  intros Hw Ha. rewrite (swap_flag_id _ _ Ha).
  unfold sleep_ok, quiet, claimed, unclaimed, TASK in *. destruct s as [d o w c x y f]; cbn in *; subst w.
  destruct (slp r) as [|x'|[] [|x'] []]; unfold consumed; cbn; try naive_solver.
  - case_match; naive_solver.
Qed.

Lemma s_flag m s r a : wk s = Holds (Shared a) → inv m s r →
  let n := default 0%N (flags (sched m) !! a) in
  inv (set_sched (swap_flag a (sched m)) m) (with_wk (if (n =? 0)%N then Nobody else Rousing) s) r.
Proof.
  intros Hw HV n.
  assert (claimed a (sched m) ∨ flags (sched m) !! a = Some TASK ∧ ∃ st, slp r = Asleep true (Shared a) st) as Hc.
  { pose proof (sleep _ _ _ (inv_tasks _ _ _ HV)) as Hsl. unfold sleep_ok in Hsl.
    destruct (wk_claimed _ _ _ (inv_tasks _ _ _ HV) a Hw) as [?|[st E]]; [by left|]. rewrite E in Hsl.
    destruct st; naive_solver. }
  open_inv HV. destruct Hc as [Hc|[Hc [st Hr]]]; subst n; rewrite Hc; cbn; close_inv; try done.
  all: try (by apply sleep_late); try (by eapply sleep_first).
  all: try (intros Hf; destruct (Hsrf Hf) as (? & ? & ?); congruence).
  all: intros x Hx; try congruence.
Qed.
Lemma s_said m t ok d r :
  d = Delivered t ∧ ok = true ∨ d = Rejected t ∧ ok = false →
  inv m (sends d) r → inv (add_event (Sent t ok) m) (mkS d NoOffer Nobody false true false Live) r.
Proof.
  intros Hd HV. pose proof (live_not_last _ _ _ HV eq_refl) as HL. destruct r as [z v k u sl h p f].
  open_inv HV; close_inv; log_tac; destruct Hd as [[-> ->]|[-> ->]]; destruct f; try done; fin; sleep_tac.
Qed.

(** ** Upgrading and hanging up *)
Definition settled (d : @sending T) : Prop := match d with Fresh | Delivered _ | Rejected _ => True | _ => False end.

Lemma s_offer m up d a r : settled d →
  inv m (mkS d NoOffer Nobody false a false Live) r →
  inv (set_upslot (GoUp up) m) (mkS d (Offer up) Nobody false a false Live) r.
Proof.
  intros Hd HV. pose proof (live_not_last _ _ _ HV eq_refl) as HL. pose proof (open_slot _ _ _ HV eq_refl) as HS.
  destruct r as [z v k u sl h p f]. cbn in HS; subst sl.
  destruct d; try done; open_inv HV; close_inv; destruct f; try done; fin; sleep_tac.
Qed.

Definition accepted (o : @offering U) : offering := match o with Offer u => Offered u | o => o end.
Definition declined (o : @offering U) : offering := match o with Offer u => Declining u | o => o end.
Definition proposes (o : @offering U) : Prop := match o with NoOffer | Offer _ => True | _ => False end.

Lemma closing m d o o' w a r : settled d → proposes o →
  o' = accepted o ∨ o' = declined o ∧ pt r ≠ Open →
  w = Nobody ∧ (is_pub (slp r) = true → consumed (mkS d o Nobody false a false Live) r = true) ∨
    (∃ b st, w = Holds b ∧ slp r = Asleep true b st ∧ consumed (mkS d o Nobody false a false Live) r = false) →
  inv m (mkS d o Nobody false a false Live) r →
  inv (set_state DISCONNECTED m) (mkS d o' w true a false Live) r.
Proof.
  intros Hd Ho Ho' Hw HV. pose proof (live_not_last _ _ _ HV eq_refl) as HL. pose proof (open_slot _ _ _ HV eq_refl) as HS.
  assert (ut r = UpUntouched) as Hut.
  { destruct (ut r) eqn:E; [done|..]; edestruct (co_up _ _ (inv_coh _ _ _ HV)) as [_ ?]; by eauto. }
  destruct r as [z v k u sl h p f]; cbn in *; subst sl u. open_inv HV. close_inv.
  all: try done.
  - rewrite Hup. by destruct Ho' as [-> |[-> _]], o.
  - destruct f; try done; by destruct Ho' as [-> |[-> _]], o.
  - destruct Hw as [[-> _]|(b & st & -> & E & _)]; [done|]. intros b' [= <-]. apply Hvg. by rewrite E.
  - destruct Hw as [[-> _]|(b & st & -> & E & _)]; [done|]. intros b' [= ->]. right. by eexists.
  - destruct Hw as [[-> Hc]|(b & st & -> & E & Hc)].
    + by eapply sleep_same; [..|exact Hsl].
    + by eapply sleep_taken; [..|exact Hsl| | |].
  - destruct d, o; try done; destruct Ho' as [-> |[-> ?]]; done.
  - intros u. naive_solver.
  - destruct v; try done; naive_solver.
  - by destruct f.
  - intros Hh. by destruct (Hhung Hh).
Qed.

Lemma swap_published m s r (calm gone : Prop) woke : inv m s r →
  (is_pub (slp r) = false → calm) → (∀ b st, slp r = Asleep true b st → woke b) →
  swap_gives (published r) calm gone woke.
Proof.
  intros HV Hc Hw. unfold published, swap_gives. destruct (slp r) as [|x|[] b st] eqn:E; try (left; by auto).
  destruct (view_word _ _ _ b HV) as (?&?&?&?); [by rewrite E|]. right; right. exists b. split_and!; eauto.
Qed.

Lemma s_disconnect m d o a r : settled d → proposes o →
  inv m (mkS d o Nobody false a false Live) r →
  let m' := set_state DISCONNECTED m in
  swap_gives (state m) (inv m' (mkS d (accepted o) Nobody true a false Live) r)
    (inv m' (mkS d (declined o) Nobody true a false Live) r)
    (λ b, inv m' (mkS d (accepted o) (Holds b) true a false Live) r).
Proof.
  intros Hd Ho HV m'. rewrite (inv_word _ _ _ HV). unfold word_is; cbn.
  assert (pt r ≠ Open → inv m' (mkS d (declined o) Nobody true a false Live) r) as Hgone.
  { intros Hp. eapply closing; eauto. left. split; [done|]. intros Hr.
    pose proof (co_port _ _ (inv_coh _ _ _ HV)) as Hpt. destruct (pt r); [done|..].
    all: destruct Hpt as (E & _); by rewrite E in Hr. }
  assert (consumed (mkS d o Nobody false a false Live) r = false →
          swap_gives (published r) (inv m' (mkS d (accepted o) Nobody true a false Live) r)
            (inv m' (mkS d (declined o) Nobody true a false Live) r)
            (λ b, inv m' (mkS d (accepted o) (Holds b) true a false Live) r)) as Hpub.
  { intros Hc. apply (swap_published _ _ _ _ _ _ HV).
    - intros Hp. eapply closing; eauto.
    - intros b st E. eapply closing; eauto. right. eauto. }
  destruct d as [| | |t| | |t]; try done.
  - destruct (pt r); [by apply Hpub|right; left; by split; [|apply Hgone]..].
  - destruct (pt r); [|right; left; by split; [|apply Hgone]..].
    destruct (untouched r) eqn:Hk; [|by apply Hpub; unfold consumed; cbn; rewrite Hk].
    assert (inv m' (mkS (Delivered t) (accepted o) Nobody true a false Live) r).
    { eapply closing; eauto. }
    left. destruct (rv r); auto.
  - left. split; [by auto|]. eapply closing; eauto. left. split; [done|]. intros Hr.
    pose proof (co_refused _ _ (inv_coh _ _ _ HV)) as Hp. pose proof (co_port _ _ (inv_coh _ _ _ HV)) as Hpt.
    cbn in Hp. rewrite Hp in Hpt. destruct Hpt as [E _]. by rewrite E in Hr.
Qed.

(** Hanging up after the upgrade. *)
Lemma s_closed m d o w a b r f :
  inv m (mkS d o w true a b f) r → state m = DISCONNECTED ∧ inv (set_state DISCONNECTED m) (mkS d o w true a b f) r.
Proof. intros HV. split; [by rewrite (inv_word _ _ _ HV)|]. open_inv HV; close_inv. done. Qed.

Lemma s_restore m d up a r : settled d → inv m (mkS d (Declining up) Nobody true a false Live) r →
  inv (set_upslot (offered (mkS d NoOffer Nobody false a false Live)) m) (mkS d (Declined up) Nobody true a false Live) r.
Proof.
  intros Hd HV. pose proof (live_not_last _ _ _ HV eq_refl) as HL. open_inv HV; close_inv; try done.
  - unfold up_is. by destruct Hdeclined as (_ & -> & _).
  - intros u Hu. by destruct (Hupgrade u Hu).
  - destruct (pt r); [naive_solver|destruct Hport as (_ & -> & _)|destruct Hport as [_ ->]]; done.
  - by destruct (rrf r).
  - intros Hh. destruct (Hhung Hh) as (_ & ? & _). done.
Qed.

Lemma s_refund m d up a r : inv m (mkS d (Declined up) Nobody true a false Live) r →
  inv (add_event (DestroyedUp up) m) (mkS d (Refunded up) Nobody true a false Live) r.
Proof.
  intros HV. pose proof (live_not_last _ _ _ HV eq_refl) as HL. open_inv HV; close_inv; log_tac; try done.
  - intros u Hu. by destruct (Hupgrade u Hu).
  - destruct (pt r); [naive_solver|destruct Hport as (_ & -> & _)|destruct Hport as [_ ->]]; done.
  - by destruct (rrf r).
  - intros Hh. destruct (Hhung Hh) as (_ & ? & _). done.
Qed.

Lemma s_saidup m d up o ok a r : o = Offered up ∧ ok = true ∨ o = Refunded up ∧ ok = false →
  inv m (mkS d o Nobody true a false Live) r →
  inv (add_event (Upgrade up ok) m) (mkS d o Nobody true a true Live) r.
Proof.
  intros Ho HV. open_inv HV; close_inv; log_tac; try done. by destruct Ho as [[-> ->]|[-> ->]], a; rewrite ?app_nil_r.
Qed.

(** ** Releasing the packet *)
Definition lets_go d o a b (f : handle) : sphase := mkS (T := T) (U := U) d o Nobody true a b f.

Definition decided (o : @offering U) : Prop := match o with Offer _ | Declining _ | Declined _ => False | _ => True end.

Lemma s_release m d o a b r : decided o → inv m (lets_go d o a b Live) r →
  inv (set_count (usub (count m) 1) m)
    (lets_go d o a b (if (count m =? 1)%N then Last Full else Gone)) r.
Proof.
  intros Ho HV. pose proof (live_not_last _ _ _ HV eq_refl) as HL. destruct r as [z v k u sl h p f]. open_inv HV. cbn in Hcnt, HL.
  destruct f; [..|done]; rewrite Hcnt; cbn; close_inv; done.
Qed.

Lemma s_alone m d o a b c r : inv m (lets_go d o a b (Last c)) r → rrf r = Gone.
Proof. intros HV. by apply (co_last _ _ (inv_coh _ _ _ HV)). Qed.

Lemma s_sweep m d o a b r : inv m (lets_go d o a b (Last Full)) r →
  inv (set_data None m) (lets_go d o a b (Last match data m with Some t => HasMsg t | None => NoMsg end)) r.
Proof.
  intros HV. pose proof (s_alone _ _ _ _ _ _ _ HV) as HG. destruct r as [z v k u sl h p f]. cbn in HG; subst f.
  pose proof (inv_data _ _ _ HV) as HD. unfold data_is in HD; cbn in HD.
  open_inv HV; destruct (data m) eqn:E; close_inv; try done.
  all: destruct d as [| | |x| | |x], k; simplify_eq/=; try done; fin.
Qed.

Lemma s_swept m d o a b t r : inv m (lets_go d o a b (Last (HasMsg t))) r →
  inv (add_event (Destroyed t) m) (lets_go d o a b (Last NoMsg)) r.
Proof.
  intros HV. pose proof (s_alone _ _ _ _ _ _ _ HV) as HG. destruct r as [z v k u sl h p f]. cbn in HG; subst f.
  destruct (co_clean _ _ (inv_coh _ _ _ HV)) as [[Hd Hk] _]. cbn in Hd, Hk. subst d k.
  open_inv HV; close_inv; log_tac; done.
Qed.

Lemma s_read_up m d o a b r : inv m (lets_go d o a b (Last NoMsg)) r →
  inv m (lets_go d o a b (Last match upslot m with GoUp u => HasUp u | _ => Clean end)) r.
Proof.
  intros HV. pose proof (s_alone _ _ _ _ _ _ _ HV) as HG. destruct r as [z v k u sl h p f]. cbn in HG; subst f.
  pose proof (inv_up _ _ _ HV) as HU. unfold up_is, offered in HU; cbn in HU.
  open_inv HV; destruct (upslot m) as [| |up] eqn:E.
  1,2: by close_inv; try done; destruct (Hsrf ltac:(done)) as (_ & _ & Ho), o, sl, u; try done; fin.
  close_inv; try done; [by rewrite E|]. split; [|done]. destruct sl as [x|]; [by destruct (Hslot x eq_refl) as [_ Hx]; subst x|].
  destruct u as [|y|y]; [|by destruct (Hupgrade y) as [_ ?]; auto..].
  destruct (Hsrf ltac:(done)) as (_ & _ & Ho), o; try done; [by destruct d|by simplify_eq|by destruct d].
Qed.

Lemma s_swept_up m d o a b u r : inv m (lets_go d o a b (Last (HasUp u))) r →
  inv (add_event (DestroyedUp u) m) (lets_go d o a b (Last Clean)) r.
Proof.
  intros HV. pose proof (s_alone _ _ _ _ _ _ _ HV) as HG. destruct r as [z v k x sl h p f]. cbn in HG; subst f.
  destruct (co_clean _ _ (inv_coh _ _ _ HV)) as [[Ho Hu] _]. cbn in Ho, Hu. subst o x.
  open_inv HV; close_inv; log_tac; done.
Qed.

Lemma s_free m d o a b r : inv m (lets_go d o a b (Last Clean)) r →
  inv (set_freed m) (lets_go d o a b (Last Freed)) r.
Proof.
  intros HV. pose proof (s_alone _ _ _ _ _ _ _ HV) as HG. open_inv HV; close_inv; try done. by rewrite HG.
Qed.
End halves.

Section programs.
Context {T U : Type}.
Implicit Types (m : @Packet T U) (s : @sphase T U) (r : @rphase T U).
Local Abbreviation swp := (wp (@exec T U) inv smay).

Lemma wake_up_ok b s (Q : () → sphase → Prop) : wk s = Holds b → Q () (with_wk Nobody s) → swp (wake_up task b) Q s.
Proof.
  intros Hw HQ. destruct b as [|a]; cbn.
  - wact. wgo (with_wk Nobody s) by (apply s_rouse; auto). done.
  - wact. pose proof (s_flag _ _ _ _ Hw HV) as HV'. cbn in HV'. destruct (_ =? 0)%N; cbn.
    + wgo (with_wk Nobody s) by done. done.
    + wgo (with_wk Rousing s) by done.
      wact. wgo (with_wk Nobody s) by (apply (s_rouse _ (with_wk Rousing s)); auto). done.
Qed.

Lemma send_ok t (Q : bool → sphase → Prop) :
  Q true (sends (Delivered t)) → Q false (sends (Rejected t)) → swp (send t) Q (sends Fresh).
Proof.
  intros Ht Hf. unfold send.
  wact. rewrite (open_up _ _ _ HV eq_refl). wgo (@sends T U Fresh) by done.
  wact. rewrite (live_data _ _ _ HV eq_refl). wgo (@sends T U Fresh) by done.
  wact. wgo (@sends T U (Wrote t)) by (by apply s_write).
  wact. wgo (@sends T U (Loaded t)) by (by apply s_announce).
  wact. destruct (s_publish _ _ _ HV) as [Hn [[[Hm|Hm] ?]|[[Hm ?]|(b & ? & ? & ? & Hb & ?)]]]; [done|..].
  - rewrite Hm. wgo (@sends T U (Delivered t)) by done. done.
  - rewrite Hm. wgo (@sends T U (Refused t)) by done.
    wact. destruct (s_takeback _ _ _ HV) as [-> ?]. wgo (@sends T U (Spoiled t)) by done.
    wact. wgo (@sends T U (Rejected t)) by (by apply s_destroyed). done.
  - rewrite !(proj2 (N.eqb_neq _ _)) by done. rewrite Hb. exists (mkS (Delivered t) NoOffer (Holds b) false false false Live). split; [done|].
    apply wp_bind. by apply wake_up_ok.
Qed.

(** What an upgrade that was accepted leaves to do: perhaps a task to wake. *)
Definition upgraded (up : U) (d : sending) (a : bool) (x : UpgradeResult) s : Prop :=
  match x with
  | UpSuccess => s = mkS d (Offered up) Nobody true a false Live
  | UpDisconnected => s = mkS d (Refunded up) Nobody true a false Live
  | UpWoke b => s = mkS d (Offered up) (Holds b) true a false Live
  end.

Lemma upgrade_ok up d a (Q : UpgradeResult → sphase → Prop) : settled d →
  (∀ x s, upgraded up d a x s → Q x s) →
  swp (upgrade up) Q (mkS d NoOffer Nobody false a false Live).
Proof.
  intros Hd HQ. unfold upgrade.
  set (s0 := mkS d NoOffer Nobody false a false Live). set (prev := @offered T U s0).
  wact. rewrite (open_up _ _ _ HV eq_refl). change (offered s0) with prev.
  exists s0. split; [done|]. clear HV.
  cut (swp (_ ← act (WriteUpgrade (GoUp up)); n ← act (SwapState DISCONNECTED);
            if (n =? DATA)%N || (n =? EMPTY)%N then mret UpSuccess
            else if (n =? DISCONNECTED)%N then
              _ ← act (WriteUpgrade prev); _ ← emit (DestroyedUp up); mret UpDisconnected
            else mret (UpWoke (cast_from_uint n))) Q s0).
  { subst prev s0. by destruct d. }
  wact. wgo (mkS (T := T) d (Offer up) Nobody false a false Live) by (by apply s_offer).
  wact. destruct (s_disconnect _ _ (Offer up) _ _ Hd ltac:(done) HV) as [[Hm ?]|[[Hm ?]|(b & ? & ? & ? & Hb & ?)]].
  - assert ((state m =? DATA)%N || (state m =? EMPTY)%N = true) as -> by (by destruct Hm as [-> | ->]).
    wgo (mkS (T := T) d (Offered up) Nobody true a false Live) by done. by apply HQ.
  - rewrite Hm. wgo (mkS (T := T) d (Declining up) Nobody true a false Live) by done.
    wact. wgo (mkS (T := T) d (Declined up) Nobody true a false Live) by (by eapply s_restore).
    wact. wgo (mkS (T := T) d (Refunded up) Nobody true a false Live) by (by apply s_refund). by apply HQ.
  - rewrite !(proj2 (N.eqb_neq _ _)) by done. cbn. rewrite Hb.
    exists (mkS d (Offered up) (Holds b) true a false Live). split; [done|]. by apply HQ.
Qed.

Lemma drop_chan_ok d o c a b (Q : () → sphase → Prop) : settled d →
  c = false ∧ o = NoOffer ∧ b = false ∨ c = true →
  Q () (lets_go d o a b Live) → swp drop_chan Q (mkS d o Nobody c a b Live).
Proof.
  intros Hd Hc HQ. unfold drop_chan. wact. destruct Hc as [(-> & -> & ->)| ->].
  - destruct (s_disconnect _ _ NoOffer _ _ Hd ltac:(done) HV) as [[Hm ?]|[[Hm ?]|(w & ? & ? & ? & Hw & ?)]].
    + assert ((state m =? DATA)%N || (state m =? DISCONNECTED)%N || (state m =? EMPTY)%N = true) as ->
        by (by destruct Hm as [-> | ->]).
      wgo (lets_go d (@NoOffer U) a false Live) by done. done.
    + rewrite Hm. wgo (lets_go d (@NoOffer U) a false Live) by done. done.
    + rewrite !(proj2 (N.eqb_neq _ _)) by done. cbn. rewrite Hw.
      exists (mkS d NoOffer (Holds w) true a false Live). split; [done|]. by apply wake_up_ok.
  - destruct (s_closed _ _ _ _ _ _ _ _ HV) as [-> ?]. wgo (lets_go d o a b Live) by done. done.
Qed.

Lemma arc_drop_ok d o a b (Q : () → sphase → Prop) : decided o →
  (∀ h, h = Gone ∨ h = Last Freed → Q () (lets_go d o a b h)) → swp arc_drop Q (lets_go d o a b Live).
Proof.
  intros Ho HQ. unfold arc_drop. wact. pose proof (s_release _ _ _ _ _ _ Ho HV) as HV'.
  destruct (_ =? 1)%N; [|wgo (lets_go d o a b Gone) by done; by apply HQ; auto].
  wgo (lets_go d o a b (Last Full)) by done.
  wact. rewrite (proj1 (s_closed _ _ _ _ _ _ _ _ HV)). wgo (lets_go d o a b (Last Full)) by done.
  wact. pose proof (s_sweep _ _ _ _ _ _ HV). eexists; split; [done|]. clear HV.
  cut (swp (u ← act ReadUpgrade; _ ← match u with GoUp up => emit (DestroyedUp up) | _ => mret () end; act Free) Q
         (lets_go d o a b (Last NoMsg))).
  { intros Hrest. destruct (data m) as [t|]; [|done].
    wact. wgo (lets_go d o a b (Last NoMsg)) by (by apply s_swept). done. }
  clear dependent m.
  cut (swp (act Free) Q (lets_go d o a b (Last Clean))).
  { intros Hrest. wact. pose proof (s_read_up _ _ _ _ _ _ HV). eexists; split; [done|]. clear HV.
    destruct (upslot m) as [| |up]; [done..|]. wact. wgo (lets_go d o a b (Last Clean)) by (by apply s_swept_up). done. }
  wact. wgo (lets_go d o a b (Last Freed)) by (by apply s_free). by apply HQ; auto.
Qed.

(** Where the sending half ends. *)
Definition sender_ends (msg : option T) (up : option U) s : Prop :=
  (srf s = Gone ∨ srf s = Last Freed) ∧
  match msg with
  | Some t => said s = true ∧ (sd s = Delivered t ∨ sd s = Rejected t)
  | None => sd s = Fresh
  end ∧
  match up with
  | Some u => saidup s = true ∧ (off s = Offered u ∨ off s = Refunded u)
  | None => off s = NoOffer
  end.

Lemma sender_ok msg up : swp (sender msg up) (λ _, sender_ends msg up) (sends Fresh).
Proof.
  unfold sender. apply wp_bind.
  set (after := λ d, match msg with Some t => d = Delivered t ∨ d = Rejected t | None => d = @Fresh T end).
  set (a := is_some msg).
  eapply (wp_mono _ _ _ _ (λ _ s, ∃ d, after d ∧ s = mkS d NoOffer Nobody false a false Live)).
  2: { destruct msg as [t|]; [|by exists Fresh].
    wact. rewrite (open_up _ _ _ HV eq_refl). wgo (@sends T U Fresh) by done.
    apply (wp_bind _ _ _ (send t)), send_ok.
    - wact. wgo (mkS (T := T) (U := U) (Delivered t) NoOffer Nobody false true false Live) by (apply (s_said _ _ _ (Delivered t)); auto).
      exists (Delivered t). split; [by left|done].
    - wact. wgo (mkS (T := T) (U := U) (Rejected t) NoOffer Nobody false true false Live) by (apply (s_said _ _ _ (Rejected t)); auto).
      exists (Rejected t). split; [by right|done]. }
  intros _ s (d & Hd & ->). assert (settled d) as Hs by (subst after; destruct msg; cbn in Hd; naive_solver).
  apply wp_bind.
  eapply (wp_mono _ _ _ _ (λ _ s, ∃ o b, match up with Some u => b = true ∧ (o = Offered u ∨ o = Refunded u) | None => b = false ∧ o = NoOffer end ∧
            s = mkS d o Nobody (is_some up) a b Live)).
  2: { destruct up as [u|]; [|by exists NoOffer, false].
    apply wp_bind, upgrade_ok; [done|]. intros [| |b] s ->.
    - wact. wgo (mkS (T := T) d (Offered u) Nobody true a true Live) by (by apply s_saidup; auto). exists (Offered u), true. naive_solver.
    - wact. wgo (mkS (T := T) d (Refunded u) Nobody true a true Live) by (by apply s_saidup; auto). exists (Refunded u), true. naive_solver.
    - apply wp_bind, wake_up_ok; [done|]. wact.
      wgo (mkS (T := T) d (Offered u) Nobody true a true Live) by (by apply s_saidup; auto). exists (Offered u), true. naive_solver. }
  intros _ s (o & b & Ho & ->). apply wp_bind, drop_chan_ok; [done|by destruct up; naive_solver|].
  apply arc_drop_ok; [by destruct up; naive_solver|]. intros h Hh. split; [done|]. subst after a.
  destruct msg, up; cbn in *; naive_solver.
Qed.
End programs.
