(* ===== verification/OneshotRecv.v ===== *)
(** The receiving half of a oneshot channel keeps the invariant. *)
From stdpp Require Import prelude gmap.
From S2P Require Import Prelude Threads Tasks Oneshot OneshotInv.
Import Oneshot.

#[local] Arguments sleep_ok : simpl never.
#[local] Arguments cast_to_uint : simpl never.

Ltac triv :=
  try done;
  try (by intros ? [?|?]; simplify_eq);
  try (by intros ? [?|[?|[?|?]]]; simplify_eq);
  try (by intros ? [= <-]);
  try (by intros Hz; match goal with H : is_pub _ = true → _ |- _ => apply H in Hz end).

Section halves.
Context {T U : Type}.
Implicit Types (m : @Packet T U) (s : @sphase T U) (r : @rphase T U).

Definition with_rv v r : rphase := mkR (slp r) v (tk r) (ut r) (slot r) (hung r) (pt r) (rrf r).
Definition with_slp z r : rphase := mkR z (rv r) (tk r) (ut r) (slot r) (hung r) (pt r) (rrf r).

(** ** Reading the word *)
Lemma r_word m s r : inv m s r → pt r = Open → rv r = Idle →
  consumed s r = false ∧ state m = published r ∨
  state m = DATA ∧ view_ok s r SawData ∨
  state m = DISCONNECTED ∧ view_ok s r SawDisc.
Proof.
  intros HV Hp Hv. rewrite (inv_word _ _ _ HV). pose proof (co_refused _ _ (inv_coh _ _ _ HV)) as Hr.
  unfold word_is, consumed. rewrite Hp, Hv. destruct (cl s) eqn:Hc; [by auto|].
  destruct (sd s) eqn:Hs; try congruence; auto. unfold untouched. destruct (tk r) eqn:Hk; auto.
  right; left. split; [done|]. split; [done|]. eauto.
Qed.

Lemma r_look m s r v : inv m s r → pt r = Open → is_pub (slp r) = false → rv r ≠ Cleared → v ≠ Cleared →
  view_ok s r v → inv m s (with_rv v r).
Proof.
  intros HV Hp Hz Hc Hc' Hok. open_inv HV. close_inv; try done.
  - rewrite Hword. unfold word_is, published, untouched. cbn. rewrite Hp. destruct (cl s), (sd s), (tk r); try done.
    by destruct (rv r), v.
  - by rewrite Hp in *.
  - by rewrite Hz.
Qed.

(** ** Taking the message *)
Definition at_ z v k sl n : rphase := mkR z v k UpUntouched sl n Open (@Live T U).

Lemma r_clear m s z k sl n : is_pub z = false → inv m s (at_ z SawData k sl n) →
  inv (if (state m =? DATA)%N then set_state EMPTY m else m) s (at_ z Cleared k sl n).
Proof.
  intros Hz HV. pose proof (inv_word _ _ _ HV) as Hw. destruct (co_view _ _ (inv_coh _ _ _ HV)) as [Hk [t Hs]].
  destruct s as [d o w c a b f]. cbn in Hk, Hs. subst d k.
  open_inv HV. unfold word_is in Hw; cbn in Hw. destruct c; rewrite Hw; cbn; close_inv; try done.
  all: by rewrite Hz.
Qed.

Lemma live_not_last' m s r : inv m s r → rrf r = Live → is_last (srf s) = false.
Proof.
  intros H HL. destruct (is_last (srf s)) eqn:E; [|done].
  apply (co_last _ _ (inv_coh _ _ _ H)) in E. congruence.
Qed.
Lemma live_data' m s r : inv m s r → rrf r = Live →
  data m = match sd s with
           | Fresh | Spoiled _ | Rejected _ => None
           | Wrote t | Loaded t | Refused t => Some t
           | Delivered t => if untouched r then Some t else None end.
Proof.
  intros H HL. rewrite (inv_data _ _ _ H). unfold data_is. rewrite HL.
  pose proof (live_not_last' _ _ _ H HL). by destruct (srf s) as [| |[]].
Qed.

Lemma pub_word z v k sl n : is_pub z = false → published (at_ z v k sl n) = EMPTY.
Proof. by destruct z as [| |[] ? ?]. Qed.

(** The slot holds the message the receiver may take. *)
Lemma r_has m s z v k sl n : v = Cleared ∨ v = SawDisc → inv m s (at_ z v k sl n) →
  match data m with Some t => sd s = Delivered t ∧ k = Untouched | None => v = SawDisc ∧ match sd s with Delivered _ => k ≠ Untouched | _ => True end end.
Proof.
  intros Hv HV. rewrite (live_data' _ _ _ HV eq_refl). pose proof (co_view _ _ (inv_coh _ _ _ HV)) as Hok.
  pose proof (co_cl _ _ (inv_coh _ _ _ HV)) as Hcl.
  destruct Hv as [-> | ->]; cbn in Hok.
  - destruct Hok as [-> [t ->]]. done.
  - specialize (Hcl Hok). destruct (sd s); try done. unfold untouched; cbn. by destruct k.
Qed.

Lemma r_take m s z v k sl n t : is_pub z = false → v = Cleared ∨ v = SawDisc → inv m s (at_ z v k sl n) → data m = Some t →
  inv (set_data None m) s (at_ z Idle (InHand t) sl n).
Proof.
  intros Hz Hv HV HD. pose proof (r_has _ _ _ _ _ _ _ Hv HV) as Hh. rewrite HD in Hh. destruct Hh as [Hs ->].
  pose proof (live_not_last' _ _ _ HV eq_refl) as HL. pose proof (co_view _ _ (inv_coh _ _ _ HV)) as Hok.
  destruct s as [d o w c a b f]. cbn in Hs, HL, Hok. subst d.
  open_inv HV. close_inv; try done.
  - rewrite Hword. unfold word_is. destruct c; [done|]. cbn. rewrite pub_word by done. by destruct Hv as [-> | ->].
  - by destruct f as [| |[]].
  - by destruct f.
  - by eapply sleep_same; [..|exact Hsl]; cbn; rewrite ?Hz.
  - naive_solver.
  - by destruct f.
  - intros Hn. by destruct (Hhung Hn) as (_ & _ & ?).
  - naive_solver.
Qed.

Lemma r_no_data m s z k sl n : (k = Untouched ∨ ∃ t, k = Got t) → is_pub z = false →
  inv m s (at_ z SawDisc k sl n) → data m = None →
  inv m s (at_ z SawNone k sl n).
Proof.
  intros Hk Hz HV HD. pose proof (r_has _ _ _ _ _ _ _ (or_intror eq_refl) HV) as Hh. rewrite HD in Hh. destruct Hh as [_ Hh].
  pose proof (co_view _ _ (inv_coh _ _ _ HV)) as Hok. pose proof (co_took _ _ (inv_coh _ _ _ HV)) as Ht.
  apply (r_look _ _ _ SawNone HV); try done. split; [done|]. unfold no_data. cbn in *.
  destruct (sd s) as [| | |t| | |]; try done. destruct Hk as [-> |[t' ->]]; [done|].
  by assert (Delivered t = Delivered t') as [= ->] by (apply Ht; auto).
Qed.

(** ** Taking the upgrade *)
Lemma r_read_up m s z k sl n : is_pub z = false → inv m s (at_ z SawNone k sl n) →
  inv m s (at_ z (ReadUp (upslot m)) k sl n).
Proof.
  intros Hz HV. destruct (co_view _ _ (inv_coh _ _ _ HV)) as [??].
  apply (r_look _ _ _ (ReadUp (upslot m)) HV); try done. split_and!; try done. by rewrite (inv_up _ _ _ HV).
Qed.

Lemma r_got_up m s z k sl n up : inv m s (at_ z (ReadUp (GoUp up)) k sl n) →
  inv (set_upslot SendUsed m) s (mkR z Idle k (UpInHand up) (Some SendUsed) n Open Live).
Proof.
  intros HV. destruct (co_view _ _ (inv_coh _ _ _ HV)) as (Hc & Hn & Hup').
  pose proof (live_not_last' _ _ _ HV eq_refl) as HL.
  destruct s as [d o w c a b f]. cbn in Hc, Hn, HL. subst c. unfold up_is in Hup'; cbn in Hup'.
  open_inv HV.
  assert (o = Offered up) as ->.
  { destruct sl as [u|]; [by destruct (Hslot u eq_refl); subst|]. unfold offered in Hup'. cbn in *.
    destruct o; try (by destruct d); naive_solver. }
  close_inv; try done.
  - by destruct f as [| |[]].
  - naive_solver.
  - by intros u [= <-].
  - by destruct f.
Qed.

Lemma r_no_up m s z k sl n u : match u with GoUp _ => False | _ => True end →
  inv m s (at_ z (ReadUp u) k sl n) → inv (set_upslot SendUsed m) s (at_ z SawHung k (Some SendUsed) n).
Proof.
  intros Hu HV. destruct (co_view _ _ (inv_coh _ _ _ HV)) as (Hc & Hn & Hup').
  destruct s as [d o w c a b f]. cbn in Hc, Hn. subst c. unfold up_is in Hup'; cbn in Hup'.
  open_inv HV.
  assert (o = NoOffer) as ->.
  { destruct o as [|x|x|x|x|x]; try done; cbn in *; destruct_and?; try done.
    rewrite (Hoffer x eq_refl eq_refl) in Hup'. cbn in Hup'. by subst u. }
  close_inv; triv.
Qed.

Lemma r_put_back m s z k sl n u : match u with GoUp _ => False | _ => True end →
  inv m s (at_ z SawHung k sl n) → inv (set_upslot u m) s (at_ z SawHung k (Some u) n).
Proof.
  intros Hu HV. destruct (co_view _ _ (inv_coh _ _ _ HV)) as (Hc & Ho & _).
  destruct s as [d o w c a b f]. cbn in Hc, Ho. subst c o. open_inv HV. close_inv; triv.
Qed.

(** ** Answers *)
Lemma r_received m s sl n t : inv m s (at_ Awake Idle (InHand t) sl n) →
  inv (add_event (Received t) m) s (at_ Awake Idle (Got t) sl n).
Proof.
  intros HV. assert (sd s = Delivered t) as Hs by (apply (co_took _ _ (inv_coh _ _ _ HV)); by left).
  assert (n = 0) as ->.
  { destruct n; [done|]. destruct (co_hung _ _ (inv_coh _ _ _ HV) ltac:(done)) as (_ & _ & H).
    unfold no_data in H. by rewrite Hs in H. }
  destruct s as [d o w c a b f]; cbn in Hs; subst d.
  pose proof (live_not_last' _ _ _ HV eq_refl). open_inv HV. close_inv; log_tac; triv. by destruct f.
Qed.

Lemma r_hung m s k sl n : inv m s (at_ Awake SawHung k sl n) →
  inv (add_event HungUp m) s (at_ Awake Idle k sl (S n)).
Proof.
  intros HV. destruct (co_view _ _ (inv_coh _ _ _ HV)) as (Hc & Ho & Hn).
  destruct s as [d o w c a b f]; cbn in Hc, Ho; subst c o.
  open_inv HV. close_inv; log_tac; triv.
  by rewrite <- app_assoc, <- replicate_cons_app.
Qed.

Lemma r_upgraded m s k sl n up : inv m s (mkR Awake Idle k (UpInHand up) sl n Open Live) →
  inv (add_event (GotUpgrade up) m) s (mkR Awake Idle k (UpGot up) sl n Open Live).
Proof.
  intros HV. destruct (co_up _ _ (inv_coh _ _ _ HV) up (or_introl eq_refl)) as [Ho _].
  pose proof (live_not_last' _ _ _ HV eq_refl) as HL.
  destruct s as [d o w c a b f]; cbn in Ho; subst o. open_inv HV. close_inv; log_tac; triv.
  - by rewrite <- app_assoc.
  - intros u [?|?]; simplify_eq. apply Hupgrade. auto.
  - by destruct f.
  - intros u _. eapply Hupgot. auto.
Qed.

Lemma r_plain m s r e : e = NoData ∨ (∃ b, e = Ready b) → inv m s r → inv (add_event e m) s r.
Proof. intros He HV. open_inv HV. by destruct He as [-> |[? ->]]; close_inv; log_tac. Qed.

(** ** Going to sleep *)
(** A handle in the hands of the sender stays claimed when the receiver is not
    asleep on it. *)
Lemma unpub_claimed m s r a : inv m s r → is_pub (slp r) = false → wk s = Holds (Shared a) → claimed a (sched m).
Proof.
  intros HV Hz Hw. destruct (wk_claimed _ _ _ (inv_tasks _ _ _ HV) _ Hw) as [?|[st E]]; [done|]. by rewrite E in Hz.
Qed.

Lemma r_reset m s k sl n : inv m s (at_ Awake Idle k sl n) →
  inv (set_sched (mkTasks false (flags (sched m)) (fresh (sched m))) m) s (at_ (Asleep false Owned Waits) Idle k sl n).
Proof.
  intros HV. pose proof (λ a, unpub_claimed _ _ _ a HV eq_refl) as Hu. open_inv HV. close_inv; triv.
  intros a Ha. left. by apply Hu.
Qed.

Lemma fresh_next a : N.land a 7 = 0%N → N.land (a + 8) 7 = 0%N.
Proof.
  change 7%N with (N.ones 3). rewrite !N.land_ones. change (2 ^ 3)%N with 8%N.
  rewrite N.Div0.add_mod. intros ->. done.
Qed.

Lemma r_newflag m s k sl n : inv m s (at_ Awake Idle k sl n) →
  let a := fresh (sched m) in
  inv (set_sched (mkTasks (awoken (sched m)) (<[a := TASK]> (flags (sched m))) (a + 8)%N) m) s (at_ (Alloc a) Idle k sl n).
Proof.
  intros HV a. pose proof (λ a, unpub_claimed _ _ _ a HV eq_refl) as Hu. open_inv HV. destruct Hfr as [Hf1 Hf2].
  assert (∀ x, wk s = Holds (Shared x) → (x < a)%N) as Hlt by (intros x Hx; by destruct (Hwg _ Hx) as (_ & _ & ?)).
  close_inv; triv.
  - split; [by apply fresh_next|]. subst a. lia.
  - intros b [= <-]. cbn. subst a. split_and!; [done..|lia].
  - intros [|x] Hx; [done|]. destruct (Hwg _ Hx) as (?&?&?). cbn. split_and!; [done..|subst a; lia].
  - intros x Hx. left. unfold claimed. cbn. rewrite lookup_insert_ne by (specialize (Hlt x Hx); lia). by apply Hu.
  - unfold sleep_ok, unclaimed in *. cbn in *. split_and!; [by simplify_map_eq|done|].
    intros Hx. specialize (Hlt a Hx). lia.
Qed.

Lemma r_reset_flag m s k sl n a : inv m s (at_ (Alloc a) Idle k sl n) →
  inv (set_sched (mkTasks false (flags (sched m)) (fresh (sched m))) m) s (at_ (Asleep false (Shared a) Waits) Idle k sl n).
Proof.
  intros HV. pose proof (λ a, unpub_claimed _ _ _ a HV eq_refl) as Hu. open_inv HV. close_inv; triv.
  - intros x Hx. left. by apply Hu.
  - unfold sleep_ok in *; cbn in *. destruct Hsl as (? & ? & ?). by left.
Qed.

(** Publishing the handle. *)
Lemma r_block m s b k sl n : inv m s (at_ (Asleep false b Waits) Idle k sl n) → consumed s (at_ (Asleep false b Waits) Idle k sl n) = false →
  inv (set_state (cast_to_uint b) m) s (at_ (Asleep true b Waits) Idle k sl n).
Proof.
  intros HV Hc. pose proof (co_refused _ _ (inv_coh _ _ _ HV)) as Hr. pose proof (λ a, unpub_claimed _ _ _ a HV eq_refl) as Hu.
  open_inv HV. close_inv; triv.
  - unfold consumed, untouched in Hc; cbn in Hc. unfold word_is, untouched; cbn. destruct (cl s); [done|].
    destruct (sd s); try done. by destruct k.
  - intros a Ha. left. by apply Hu.
  - unfold sleep_ok in *. cbn in *. change (consumed s (at_ (Asleep true b Waits) Idle k sl n) = false) in Hc.
    rewrite Hc. destruct b; [done|]. destruct Hsl as [(? & ? & ? & ?)|[? [(_ & ? & _)|?]]]; [left|done|right]; auto.
    split_and!; [done..|congruence].
Qed.

(** Awake again. *)
Definition asleep (b : BlockedTask) : stage := match b with Owned => Waits | Shared _ => Claimed end.
Lemma r_woken m s b k sl n : awoken (sched m) = true → inv m s (at_ (Asleep true b (asleep b)) Idle k sl n) →
  inv m s (at_ (Asleep true b Up) Idle k sl n).
Proof.
  intros Hw HV. open_inv HV. close_inv; triv.
  - intros a Ha. destruct (Hwc a Ha) as [?|[st E]]; [by left|right]. simplify_eq. eauto.
  - unfold sleep_ok in *. cbn in *. change (consumed s (at_ (Asleep true b Up) Idle k sl n)) with (consumed s (at_ (Asleep true b (asleep b)) Idle k sl n)).
    destruct b; cbn in *.
    + destruct (consumed s _); [destruct Hsl as [[_ ?]|[? _]]|destruct Hsl]; try congruence; done.
    + destruct Hsl as [? [(_ & _ & ?)|[? _]]]; [congruence|done].
Qed.

Lemma r_awake m s r b st : slp r = Asleep false b st → inv m s r → inv m s (with_slp Awake r).
Proof.
  intros Hz HV. pose proof (λ a, unpub_claimed _ _ _ a HV) as Hu. destruct r as [z v k u sl n p f]. cbn in Hz; subst z.
  open_inv HV. close_inv; triv.
  - intros a Ha. left. by apply Hu.
  - clear -Hsl. unfold sleep_ok in *. cbn in *. destruct st, b; naive_solver.
  - destruct p; try done; by destruct Hport.
Qed.

(** Swapping the flag of its own handle. *)
Lemma r_claim m s r a pub : slp r = Asleep pub (Shared a) Waits → inv m s r →
  let x := default 0%N (flags (sched m) !! a) in
  inv (set_sched (swap_flag a (sched m)) m) s (with_slp (Asleep pub (Shared a) (if (x =? 0)%N then Claimed else SelfRouse)) r).
Proof.
  intros Hz HV x. destruct r as [z v k u sl n p f]. cbn in Hz; subst z.
  pose proof (sleep _ _ _ (inv_tasks _ _ _ HV)) as Hs. unfold sleep_ok in Hs; cbn in Hs.
  destruct Hs as [(Hf & Hq & Ha & _)|[Hf Hr]]; subst x; rewrite Hf; cbn; open_inv HV; close_inv; triv.
  all: try (by destruct p; try done; destruct Hport).
  all: try (intros y Hy; destruct (Hwc y Hy) as [?|[st E]]; [left; by apply claimed_swap|right; simplify_eq; eauto]).
  all: unfold sleep_ok, claimed in *; cbn in *; by simplify_map_eq.
Qed.

Lemma r_rouse m s r a pub : slp r = Asleep pub (Shared a) SelfRouse → inv m s r →
  inv (set_sched (mkTasks true (flags (sched m)) (fresh (sched m))) m) s (with_slp (Asleep pub (Shared a) Claimed) r).
Proof.
  intros Hz HV. destruct r as [z v k u sl n p f]. cbn in Hz; subst z. open_inv HV. close_inv; triv.
  - intros y Hy. destruct (Hwc y Hy) as [?|[st E]]; [by left|right]. simplify_eq. eauto.
  - unfold sleep_ok in *; cbn in *. destruct Hsl as (? & _ & ?). auto.
  - destruct p; try done; by destruct Hport.
Qed.

Lemma sleep_up k s b k' sl n : sleep_ok k s (at_ (Asleep true b Up) Idle k' sl n) →
  quiet (wk s) ∧ match b with Owned => consumed s (at_ Awake Idle k' sl n) = true | Shared a => claimed a k end.
Proof. unfold sleep_ok; cbn. destruct b; tauto. Qed.

(** Leaving a selection: the sender has taken the handle, or it is withdrawn. *)
Lemma r_leave m s b k sl n : consumed s (at_ Awake Idle k sl n) = true →
  inv m s (at_ (Asleep true b Up) Idle k sl n) → inv m s (at_ Awake Idle k sl n).
Proof.
  intros Hc HV. pose proof (co_refused _ _ (inv_coh _ _ _ HV)) as Hr. open_inv HV. apply sleep_up in Hsl as [Hq Hb].
  close_inv; triv.
  - rewrite Hword. unfold word_is, consumed, untouched in *; cbn in *. destruct (cl s); [done|]. destruct (sd s); try done. by destruct k.
  - intros a Ha. left. destruct (Hwc a Ha) as [?|[st E]]; [done|]. by simplify_eq.
Qed.

Lemma r_withdraw m s b k sl n : consumed s (at_ Awake Idle k sl n) = false →
  inv m s (at_ (Asleep true b Up) Idle k sl n) → inv (set_state EMPTY m) s (at_ Awake Idle k sl n).
Proof.
  intros Hc HV. pose proof (co_refused _ _ (inv_coh _ _ _ HV)) as Hr. open_inv HV. apply sleep_up in Hsl as [Hq Hb].
  close_inv; triv.
  - unfold word_is, consumed, untouched in *; cbn in *. destruct (cl s); [done|]. destruct (sd s); try done. by destruct k.
  - intros a Ha. left. destruct (Hwc a Ha) as [?|[st E]]; [done|]. by simplify_eq.
Qed.

(** ** Hanging up *)
Definition port_at k u sl n p (f : @handle T U) : rphase := mkR Awake Idle k u sl n p f.
Definition rests (k : @took T) : Prop := match k with Untouched | Got _ => True | _ => False end.

Lemma r_drop m s k u sl n : rests k → inv m s (port_at k u sl n Open Live) →
  let m' := set_state DISCONNECTED m in
  (state m = DISCONNECTED ∨ state m = EMPTY) ∧ inv m' s (port_at k u sl n Closed Live) ∨
  state m = DATA ∧ k = Untouched ∧ inv m' s (port_at k u sl n Closing Live).
Proof.
  intros Hk HV m'.
  assert (∀ p, p = Closed ∨ p = Closing ∧ view_ok s (port_at k u sl n Open Live) SawData → inv m' s (port_at k u sl n p Live)) as Hclose.
  { intros p Hp. pose proof (co_refused _ _ (inv_coh _ _ _ HV)) as Hr. open_inv HV. close_inv; triv.
    - unfold word_is; cbn. destruct (cl s); [done|]. by destruct (sd s), Hp as [-> |[-> [_ [? ?]]]].
    - by destruct (sd s).
    - destruct (off s); try done; destruct Hdeclined; done.
    - destruct Hp as [-> |[-> [? ?]]]; done. }
  destruct (r_word _ _ _ HV eq_refl eq_refl) as [[_ H]|[[H Hd]|[H _]]].
  - left. split; [by right|apply Hclose; by left].
  - right. split_and!; [done|by destruct Hd|apply Hclose; by right].
  - left. split; [by left|apply Hclose; by left].
Qed.

Lemma r_trash m s k u sl n : inv m s (port_at k u sl n Closing Live) →
  ∃ t, data m = Some t ∧ inv (set_data None m) s (port_at (Trash t) u sl n Closed Live).
Proof.
  intros HV. destruct (co_port _ _ (inv_coh _ _ _ HV)) as (_ & _ & Hk & t & Hs). exists t.
  pose proof (live_data' _ _ _ HV eq_refl) as HD. rewrite Hs in HD. cbn in Hk. subst k. split; [done|].
  pose proof (live_not_last' _ _ _ HV eq_refl) as HL.
  destruct s as [d o w c a b f]; cbn in Hs, HL; subst d. open_inv HV. close_inv; triv.
  - by destruct f as [| |[]].
  - by destruct f as [| |[]].
  - destruct o; try done; naive_solver.
  - by destruct f.
  - intros Hn. by destruct (Hhung Hn) as (_ & _ & ?).
  - intros x Hx. by apply Hupgot in Hx.
Qed.

Lemma r_trashed m s t u sl n : inv m s (port_at (Trash t) u sl n Closed Live) →
  inv (add_event (Destroyed t) m) s (port_at (Trashed t) u sl n Closed Live).
Proof.
  intros HV. assert (sd s = Delivered t) as Hs by (apply (co_took _ _ (inv_coh _ _ _ HV)); cbn; auto).
  pose proof (live_not_last' _ _ _ HV eq_refl) as HL.
  destruct s as [d o w c a b f]; cbn in Hs, HL; subst d. open_inv HV. close_inv; log_tac; triv.
  - by destruct f.
  - intros Hn. by destruct (Hhung Hn) as (_ & _ & ?).
  - intros x Hx. by apply Hupgot in Hx.
Qed.

Lemma r_release m s k u sl n : inv m s (port_at k u sl n Closed Live) →
  inv (set_count (usub (count m) 1) m) s
    (port_at k u sl n Closed (if (count m =? 1)%N then Last Full else Gone)).
Proof.
  intros HV. pose proof (live_not_last' _ _ _ HV eq_refl) as HL. destruct s as [d o w c a b f]. cbn in HL. open_inv HV. cbn in Hcnt.
  destruct f; [..|done]; rewrite Hcnt; cbn; close_inv; done.
Qed.

Lemma r_alone m s k u sl n c : inv m s (port_at k u sl n Closed (Last c)) → srf s = Gone.
Proof. intros HV. by apply (co_last _ _ (inv_coh _ _ _ HV)). Qed.

Lemma r_disconnected m s k u sl n c : inv m s (port_at k u sl n Closed (Last c)) → state m = DISCONNECTED.
Proof.
  intros HV. rewrite (inv_word _ _ _ HV). unfold word_is.
  by destruct (co_srf _ _ (inv_coh _ _ _ HV)) as [-> _]; [rewrite (r_alone _ _ _ _ _ _ _ HV)|].
Qed.

Lemma r_sweep m s k u sl n : inv m s (port_at k u sl n Closed (Last Full)) →
  inv (set_data None m) s (port_at k u sl n Closed (Last match data m with Some t => HasMsg t | None => NoMsg end)).
Proof.
  intros HV. pose proof (r_alone _ _ _ _ _ _ _ HV) as HG. pose proof (co_srf _ _ (inv_coh _ _ _ HV)) as Hc.
  rewrite HG in Hc. destruct (Hc eq_refl) as (Hcl & _). destruct s as [d o w c a b f]. cbn in HG, Hcl; subst f c.
  pose proof (inv_data _ _ _ HV) as HD. unfold data_is in HD; cbn in HD.
  open_inv HV; destruct (data m) eqn:E; close_inv; try done.
  all: destruct d as [| | |x| | |x], k; simplify_eq/=; try done; fin.
Qed.

Lemma r_swept m s k u sl n t : inv m s (port_at k u sl n Closed (Last (HasMsg t))) →
  inv (add_event (Destroyed t) m) s (port_at k u sl n Closed (Last NoMsg)).
Proof.
  intros HV. pose proof (r_alone _ _ _ _ _ _ _ HV) as HG. destruct s as [d o w c a b f]. cbn in HG; subst f.
  destruct (co_clean _ _ (inv_coh _ _ _ HV)) as [_ [Hd Hk]]. cbn in Hd, Hk. subst d k.
  open_inv HV; close_inv; log_tac; done.
Qed.

Lemma r_read_last m s k u sl n : inv m s (port_at k u sl n Closed (Last NoMsg)) →
  inv m s (port_at k u sl n Closed (Last match upslot m with GoUp u => HasUp u | _ => Clean end)).
Proof.
  intros HV. pose proof (r_alone _ _ _ _ _ _ _ HV) as HG. destruct s as [d o w c a b f]. cbn in HG; subst f.
  pose proof (inv_up _ _ _ HV) as HU. unfold up_is, offered in HU; cbn in HU.
  open_inv HV; destruct (Hsrf eq_refl) as (_ & _ & Ho). destruct (upslot m) as [| |up] eqn:E.
  1,2: by close_inv; try done; destruct o, sl, u; try done; fin.
  close_inv; try done; [by rewrite E|]. split; [done|]. destruct sl as [x|]; [by destruct (Hslot x eq_refl) as [_ Hx]; subst x|].
  destruct u as [|y|y]; [|by destruct (Hupgrade y) as [_ ?]; auto..].
  destruct o; try done; [by destruct d|by simplify_eq|by destruct d].
Qed.

Lemma r_swept_up m s k u sl n up : inv m s (port_at k u sl n Closed (Last (HasUp up))) →
  inv (add_event (DestroyedUp up) m) s (port_at k u sl n Closed (Last Clean)).
Proof.
  intros HV. pose proof (r_alone _ _ _ _ _ _ _ HV) as HG. destruct s as [d o w c a b f]. cbn in HG; subst f.
  destruct (co_clean _ _ (inv_coh _ _ _ HV)) as [_ [Ho Hu]]. cbn in Ho, Hu. subst o u.
  open_inv HV; close_inv; log_tac; done.
Qed.

Lemma r_free m s k u sl n : inv m s (port_at k u sl n Closed (Last Clean)) →
  inv (set_freed m) s (port_at k u sl n Closed (Last Freed)).
Proof.
  intros HV. pose proof (r_alone _ _ _ _ _ _ _ HV) as HG. open_inv HV; close_inv; try done; by rewrite HG.
Qed.
End halves.

Section programs.
Context {T U : Type}.
Implicit Types (m : @Packet T U) (s : @sphase T U) (r : @rphase T U).
Local Abbreviation rwp := (wp (@exec T U) (λ m, flip (inv m)) rmay).

(** Between calls the receiver is awake and has nothing in hand. *)
Definition calm k sl n : rphase := at_ (T := T) (U := U) Awake Idle k sl n.
(** What a call answers, and the phase it leaves. *)
Definition answered k (e : @event T U) r : Prop :=
  match e with
  | Received t => ∃ sl n, r = calm (InHand t) sl n
  | HungUp => ∃ sl n, r = at_ Awake SawHung k sl n
  | GotUpgrade up => ∃ sl n, r = mkR Awake Idle k (UpInHand up) sl n Open Live
  | NoData => ∃ sl n, r = calm k sl n
  | Ready _ => ∃ v sl n, (v = Idle ∨ v = SawHung) ∧ r = at_ Awake v k sl n
  | _ => False
  end.

(** What the next look at the word can show at a phase. *)
Definition shows (l : rphase) k sl n (empty : Prop) : Prop := ∀ m s, inv m s l →
  state m = EMPTY ∧ empty ∨ state m = DATA ∧ inv m s (at_ Awake SawData k sl n) ∨
  state m = DISCONNECTED ∧ inv m s (at_ Awake SawDisc k sl n).

Lemma shows_calm k sl n : shows (calm k sl n) k sl n True.
Proof.
  intros m s HV. destruct (r_word _ _ _ HV eq_refl eq_refl) as [[_ ?]|[[? Hok]|[? Hok]]]; [by left|right; left|right; right].
  all: split; [done|]; by apply (r_look _ _ _ _ HV).
Qed.
Lemma shows_disc k sl n : shows (at_ Awake SawDisc k sl n) k sl n False.
Proof.
  intros m s HV. right; right. split; [|done]. rewrite (inv_word _ _ _ HV). unfold word_is.
  by rewrite (co_view _ _ (inv_coh _ _ _ HV)).
Qed.
Lemma shows_data k sl n : shows (at_ Awake SawData k sl n) k sl n False.
Proof.
  intros m s HV. right. rewrite (inv_word _ _ _ HV). destruct (co_view _ _ (inv_coh _ _ _ HV)) as [Hk [t Hs]]. cbn in Hk.
  unfold word_is, untouched. rewrite Hs. cbn. subst k. destruct (cl s) eqn:Hc; [right|left; by split].
  split; [done|]. by apply (r_look _ _ _ SawDisc HV).
Qed.
Lemma shows_woken k sl n : shows (at_ (Asleep true Owned Up) Idle k sl n) k sl n False.
Proof.
  intros m s HV. destruct (sleep_up _ _ _ _ _ _ (sleep _ _ _ (inv_tasks _ _ _ HV))) as [_ Hc].
  destruct (shows_calm _ _ _ _ _ (r_leave _ _ _ _ _ _ Hc HV)) as [[He _]|?]; [|auto].
  destruct (r_word _ _ _ HV eq_refl eq_refl) as [[Hc' _]|[[H _]|[H _]]].
  - change (consumed s (calm k sl n) = false) in Hc'. change (consumed s (calm k sl n) = true) in Hc. congruence.
  - by rewrite He in H.
  - by rewrite He in H.
Qed.

Lemma try_recv_ok l k sl n empty (Q : (T + Failure) → rphase → Prop) : rests k → shows l k sl n empty → rrf l = Live →
  (empty → Q (inr Empty) l) →
  (∀ x r, x ≠ inr Empty → answered k (received x) r → Q x r) →
  rwp try_recv Q l.
Proof.
  intros Hk Hl Hlive He HQ. unfold try_recv.
  cbn. split; [by repeat split; cbn; intros; rewrite ?Hlive|]. intros m e rsp m' HV Hex. injection Hex as <- <-. unfold flip in HV.
  destruct (Hl _ _ HV) as [[Hm ?]|[[Hm ?]|[Hm ?]]]; rewrite Hm.
  - wgo l by done. by apply He.
  - wgo (@at_ T U Awake SawData k sl n) by done.
    wact. unfold flip in HV. wgo (@at_ T U Awake Cleared k sl n) by (by apply r_clear).
    wact. unfold flip in HV. pose proof (r_has _ _ _ _ _ _ _ (or_introl eq_refl) HV) as Hh.
    destruct (data m) as [t|] eqn:E; [|by destruct Hh].
    wgo (calm (InHand t) sl n) by (eapply r_take; [done|by left|exact HV|done]). apply HQ; [done|]. by exists sl, n.
  - wgo (@at_ T U Awake SawDisc k sl n) by done.
    wact. unfold flip in HV. destruct (data m) as [t|] eqn:E.
    { wgo (calm (InHand t) sl n) by (eapply r_take; [done|by right|exact HV|done]). apply HQ; [done|]. by exists sl, n. }
    wgo (@at_ T U Awake SawNone k sl n) by (rewrite <- E; destruct m; eapply r_no_data; [by destruct k; eauto|done|exact HV|done]).
    wact. unfold flip in HV. exists (at_ Awake (ReadUp (upslot m)) k sl n); split; [by apply r_read_up|]. destruct (upslot m) as [| |up]; clear dependent m.
    + wact. unfold flip in HV. wgo (@at_ T U Awake SawHung k (Some SendUsed) n) by (by eapply r_no_up; [|exact HV]).
      apply HQ; [done|]. by eexists _, _.
    + wact. unfold flip in HV. wgo (@at_ T U Awake SawHung k (Some SendUsed) n) by (by eapply r_no_up; [|exact HV]).
      apply HQ; [done|]. by eexists _, _.
    + wact. unfold flip in HV. wgo (@mkR T U Awake Idle k (UpInHand up) (Some SendUsed) n Open Live) by (by eapply r_got_up).
      apply HQ; [done|]. by eexists _, _.
Qed.

Lemma r_cas m s b k sl n : inv m s (at_ (Asleep false b Waits) Idle k sl n) →
  state m = EMPTY ∧ inv (set_state (cast_to_uint b) m) s (at_ (Asleep true b Waits) Idle k sl n) ∨
  state m = DATA ∧ inv m s (at_ (Asleep false b Waits) SawData k sl n) ∨
  state m = DISCONNECTED ∧ inv m s (at_ (Asleep false b Waits) SawDisc k sl n).
Proof.
  intros HV. destruct (r_word _ _ _ HV eq_refl eq_refl) as [[Hc ?]|[[? Hok]|[? Hok]]]; [left|right; left|right; right].
  - split; [done|]. by apply r_block.
  - split; [done|]. by apply (r_look _ _ _ _ HV).
  - split; [done|]. by apply (r_look _ _ _ _ HV).
Qed.

Lemma wait_ok {A} (p : () → prog op resp A) b k sl n (Q : A → rphase → Prop) :
  rwp (p ()) Q (at_ (Asleep true b Up) Idle k sl n) →
  rwp (task WaitAwoken ≫= p) Q (at_ (Asleep true b (asleep b)) Idle k sl n).
Proof.
  intros HQ. cbn. split; [by destruct b; may_tac|]. intros m e rsp m' HV Hex. unfold flip in HV.
  destruct (awoken (sched m)) eqn:Ha; [|done]. injection Hex as <- <-.
  exists (at_ (Asleep true b Up) Idle k sl n). split; [|done]. destruct m. by apply r_woken.
Qed.

Lemma recv_ok k sl n (Q : (T + Failure) → rphase → Prop) : rests k →
  (∀ x r, x ≠ inr Empty → answered k (received x) r → Q x r) → rwp recv Q (calm k sl n).
Proof.
  intros Hk HQ. unfold recv.
  wact. unfold flip in HV. destruct (shows_calm _ _ _ _ _ HV) as [[Hm _]|[[Hm ?]|[Hm ?]]]; rewrite Hm.
  - wgo (calm k sl n) by done.
    wact. unfold flip in HV. wgo (@at_ T U (Asleep false Owned Waits) Idle k sl n) by (by apply r_reset).
    wact. unfold flip in HV. destruct (r_cas _ _ _ _ _ _ HV) as [[Hm ?]|[[Hm ?]|[Hm ?]]]; rewrite Hm.
    + wgo (@at_ T U (Asleep true Owned Waits) Idle k sl n) by done.
      apply (wait_ok _ Owned). eapply try_recv_ok; eauto using shows_woken. done.
    + wgo (@at_ T U Awake SawData k sl n) by (eapply (r_awake _ _ (at_ (Asleep false Owned Waits) SawData k sl n)); done). eapply try_recv_ok; eauto using shows_data. done.
    + wgo (@at_ T U Awake SawDisc k sl n) by (eapply (r_awake _ _ (at_ (Asleep false Owned Waits) SawDisc k sl n)); done). eapply try_recv_ok; eauto using shows_disc. done.
  - wgo (@at_ T U Awake SawData k sl n) by done. eapply try_recv_ok; eauto using shows_data. done.
  - wgo (@at_ T U Awake SawDisc k sl n) by done. eapply try_recv_ok; eauto using shows_disc. done.
Qed.

(** The rest of [can_recv], [start_selection] and [abort_selection] on a channel that is
    disconnected. *)
Lemma disc_ok {A} z k sl n (some : A) (gone : U → A) (none : MyUpgrade → prog op resp A) (Q : A → rphase → Prop) :
  rests k → is_pub z = false →
  (∀ sl n, Q some (at_ z Idle k sl n)) →
  (∀ up sl n, Q (gone up) (mkR z Idle k (UpInHand up) sl n Open Live)) →
  (∀ u sl n, match u with GoUp _ => False | _ => True end → rwp (none u) Q (at_ z SawHung k sl n)) →
  rwp (d ← act IsSomeData;
       if (d : bool) then mret some
       else u ← replace_upgrade; match u with GoUp up => mret (gone up) | u => none u end) Q (at_ z SawDisc k sl n).
Proof.
  intros Hk Hz Hsome Hgone Hnone. wact. unfold flip in HV. destruct (data m) as [t|] eqn:E; cbn.
  { wgo (@at_ T U z Idle k sl n) by (by apply (r_look _ _ _ Idle HV)). apply Hsome. }
  wgo (@at_ T U z SawNone k sl n) by (eapply r_no_data; [by destruct k; eauto|done|exact HV|done]).
  wact. unfold flip in HV. exists (at_ z (ReadUp (upslot m)) k sl n); split; [by apply r_read_up|].
  destruct (upslot m) as [| |up]; clear dependent m.
  - wact. unfold flip in HV. wgo (@at_ T U z SawHung k (Some SendUsed) n) by (by eapply r_no_up; [|exact HV]). by apply Hnone.
  - wact. unfold flip in HV. wgo (@at_ T U z SawHung k (Some SendUsed) n) by (by eapply r_no_up; [|exact HV]). by apply Hnone.
  - wact. unfold flip in HV. wgo (@mkR T U z Idle k (UpInHand up) (Some SendUsed) n Open Live) by (by eapply r_got_up). apply Hgone.
Qed.
Definition readied k (x : bool + U) r : Prop := answered k (ready x) r.

Lemma can_recv_ok k sl n (Q : bool + U → rphase → Prop) : rests k →
  (∀ x r, readied k x r → Q x r) → rwp can_recv Q (calm k sl n).
Proof.
  intros Hk HQ. unfold can_recv.
  wact. unfold flip in HV. destruct (shows_calm _ _ _ _ _ HV) as [[Hm _]|[[Hm ?]|[Hm ?]]]; rewrite Hm.
  - wgo (calm k sl n) by done. apply HQ. eexists Idle, _, _. auto.
  - wgo (calm k sl n) by done. apply HQ. eexists Idle, _, _. auto.
  - wgo (@at_ T U Awake SawDisc k sl n) by done.
    pose proof (disc_ok Awake k sl n (inl true) inr (λ u, _ ← act (WriteUpgrade u); mret (inl true)) Q Hk eq_refl) as H.
    cbn in H |- *. apply H; clear H.
    + intros sl' n'. apply HQ. exists Idle, sl', n'. auto.
    + intros. apply HQ. by eexists _, _.
    + intros u sl' n' Hu. wact. unfold flip in HV.
      wgo (calm k (Some u) n') by (apply (r_look _ _ (at_ Awake SawHung k (Some u) n') Idle); [by eapply r_put_back|done..]). apply HQ. eexists Idle, _, _. auto.
Qed.

(** What [start_selection] leaves. *)
Definition selected k b (x : @SelectionResult U) r : Prop :=
  match x with
  | SelSuccess => ∃ sl n, r = at_ (Asleep true b Waits) Idle k sl n
  | SelCanceled b' => b' = b ∧ ∃ sl n, r = at_ (Asleep false b Waits) Idle k sl n
  | SelUpgraded b' up => b' = b ∧ ∃ sl n, r = mkR (Asleep false b Waits) Idle k (UpInHand up) sl n Open Live
  end.

Lemma start_selection_ok b k sl n (Q : SelectionResult → rphase → Prop) : rests k →
  (∀ x r, selected k b x r → Q x r) → rwp (start_selection b) Q (at_ (Asleep false b Waits) Idle k sl n).
Proof.
  intros Hk HQ. unfold start_selection.
  wact. unfold flip in HV. destruct (view_word _ _ _ b HV eq_refl) as (_ & _ & _ & Hb). rewrite Hb.
  destruct (r_cas _ _ _ _ _ _ HV) as [[Hm ?]|[[Hm ?]|[Hm ?]]]; rewrite Hm.
  - wgo (@at_ T U (Asleep true b Waits) Idle k sl n) by done. apply HQ. by eexists _, _.
  - wgo (@at_ T U (Asleep false b Waits) Idle k sl n) by done. apply HQ. split; [done|]. by eexists _, _.
  - wgo (@at_ T U (Asleep false b Waits) SawDisc k sl n) by done.
    pose proof (disc_ok (Asleep false b Waits) k sl n (SelCanceled b) (SelUpgraded b)
      (λ u, _ ← act (WriteUpgrade u); mret (SelCanceled b)) Q Hk eq_refl) as H.
    cbn in H |- *. apply H; clear H.
    + intros. apply HQ. split; [done|]. by eexists _, _.
    + intros. apply HQ. split; [done|]. by eexists _, _.
    + intros u sl' n' Hu. wact. unfold flip in HV.
      wgo (@at_ T U (Asleep false b Waits) Idle k (Some u) n')
        by (apply (r_look _ _ (at_ (Asleep false b Waits) SawHung k (Some u) n') Idle); [by eapply r_put_back|done..]).
      apply HQ. split; [done|]. by eexists _, _.
Qed.

(** Aborting a selection the receiver has been woken from. *)
Lemma r_stolen m s b k sl n : inv m s (at_ (Asleep true b Up) Idle k sl n) →
  state m = cast_to_uint b ∧ inv (set_state EMPTY m) s (calm k sl n) ∨
  state m = DATA ∧ inv m s (calm k sl n) ∨
  state m = DISCONNECTED ∧ inv m s (at_ Awake SawDisc k sl n).
Proof.
  intros HV. destruct (r_word _ _ _ HV eq_refl eq_refl) as [[Hc ?]|[[? Hok]|[? Hok]]]; [left|right; left|right; right].
  - split; [done|]. by eapply r_withdraw.
  - split; [done|]. eapply r_leave; [|exact HV]. destruct Hok as [Hk [t Hs]]. unfold consumed, untouched. rewrite Hs. cbn in *.
    rewrite Hk. by destruct (cl s).
  - split; [done|]. apply (r_look _ _ (calm k sl n) SawDisc); try done. eapply r_leave; [|exact HV].
    unfold consumed. cbn in Hok. by rewrite Hok.
Qed.

Lemma abort_ok b k sl n (Q : bool + U → rphase → Prop) : rests k →
  (∀ x r, readied k x r → Q x r) → rwp abort_selection Q (at_ (Asleep true b Up) Idle k sl n).
Proof.
  intros Hk HQ. unfold abort_selection.
  assert (∀ sl n, rwp (d ← act IsSomeData;
       if (d : bool) then mret (inl true)
       else u ← replace_upgrade; match u with GoUp up => mret (inr up) | _ => mret (inl true) end) Q (at_ Awake SawDisc k sl n)) as Hdisc.
  { intros sl' n'. apply (disc_ok Awake k sl' n' (inl true) inr (λ _, mret (inl true)) Q Hk eq_refl).
    - intros. apply HQ. eexists Idle, _, _. auto.
    - intros. apply HQ. by eexists _, _.
    - intros. apply HQ. eexists SawHung, _, _. auto. }
  wact. unfold flip in HV. destruct (view_word _ _ _ b HV eq_refl) as (H0 & H1 & H2 & _).
  destruct (r_stolen _ _ _ _ _ _ HV) as [[Hm _]|[[Hm ?]|[Hm ?]]]; rewrite Hm.
  - apply N.eqb_neq in H0, H1, H2. rewrite H0, H1, H2. wgo (@at_ T U (Asleep true b Up) Idle k sl n) by done.
    wact. unfold flip in HV. destruct (r_stolen _ _ _ _ _ _ HV) as [[Hm ?]|[[Hm ?]|[Hm ?]]]; rewrite Hm.
    + rewrite H0, H1, H2, N.eqb_refl. wgo (calm k sl n) by done. apply HQ. eexists Idle, _, _. auto.
    + rewrite N.eqb_sym, H1. wgo (calm k sl n) by done. apply HQ. eexists Idle, _, _. auto.
    + rewrite N.eqb_sym, H2. wgo (@at_ T U Awake SawDisc k sl n) by done. apply Hdisc.
  - wgo (calm k sl n) by done. apply HQ. eexists Idle, _, _. auto.
  - wgo (@at_ T U Awake SawDisc k sl n) by done. apply Hdisc.
Qed.
(** ** Calls *)
(** A phase that is as good as another at the next access. *)
Definition leads r r' : Prop := rrf r = Live ∧ ∀ m s, inv m s r → inv m s r'.
Definition unblocked k (x : @SelectionResult U) r : Prop :=
  match x with
  | SelSuccess => ∃ b sl n, r = at_ (Asleep true b Up) Idle k sl n
  | SelCanceled _ => ∃ sl n, leads r (calm k sl n)
  | SelUpgraded _ up => ∃ sl n, leads r (mkR Awake Idle k (UpInHand up) sl n Open Live)
  end.

Lemma deschedule_select_ok k sl n (Q : SelectionResult → rphase → Prop) : rests k →
  (∀ x r, unblocked k x r → Q x r) → rwp (deschedule task block_on) Q (calm k sl n).
Proof.
  intros Hk HQ. unfold deschedule.
  apply (wp_act _ _ _ (Task ResetAwoken)); [solve [may_tac]|]. intros m e rsp m' HV [= <- <-].
  wgo (@at_ T U (Asleep false Owned Waits) Idle k sl n) by (by apply r_reset).
  apply wp_bind. unfold block_on. apply wp_bind, start_selection_ok; [done|].
  intros [|b|b up] r; cbn [selected].
  - intros (sl' & n' & ->). apply (wait_ok _ Owned), HQ. by eexists _, _, _.
  - intros (-> & sl' & n' & ->). apply HQ. exists sl', n'. split; [done|]. intros m s HV. eapply r_awake in HV; [exact HV|done].
  - intros (-> & sl' & n' & ->). apply HQ. exists sl', n'. split; [done|]. intros m s HV. eapply r_awake in HV; [exact HV|done].
Qed.

(** [cancel] on a handle that was not published. *)
Lemma cancel_unpub_ok rt r a : slp r = Asleep false (Shared a) Waits → rrf r = Live →
  ∀ Q : () → rphase → Prop, (∀ r', leads r' (with_slp Awake r) → Q () r') → rwp (cancel task rt (Shared a)) Q r.
Proof.
  intros Hz HL Q HQ.
  assert (∀ st, leads (with_slp (Asleep false (Shared a) st) r) (with_slp Awake r)) as Hlead.
  { intros st. split; [done|]. intros m s HV. eapply r_awake in HV; [exact HV|done]. }
  assert (rwp (task WaitAwoken) Q (with_slp (Asleep false (Shared a) Claimed) r)) as Hwait.
  { cbn. split; [by repeat split; cbn; intros|]. intros m e rsp m' HV Hex.
    destruct (awoken (sched m)); [|done]. injection Hex as <- <-. destruct m. eauto. }
  apply (wp_act _ _ _ (Task (SwapFlag a 0))); [by repeat split; cbn; intros|]. intros m e rsp m' HV [= <- <-].
  pose proof (r_claim _ _ _ _ _ Hz HV) as HV'. cbn in HV'. eexists. split; [exact HV'|]. clear HV HV'. destruct (_ =? 0)%N; cbn.
  - destruct rt; [by apply HQ|done].
  - destruct rt; [by apply HQ|]. cbn. split; [by repeat split; cbn; intros|]. clear m. intros m e' rsp m' HV [= <- <-].
    exists (with_slp (Asleep false (Shared a) Claimed) r). split; [|done]. eapply r_rouse in HV; [exact HV|done].
Qed.

(** Waking oneself through a published handle, and going on when awoken. *)
Lemma wake_self_ok a k sl n (Q : () → rphase → Prop) : Q () (at_ (Asleep true (Shared a) Up) Idle k sl n) →
  rwp (w ← wake task (Shared a); _ ← (if (w : bool) then task SetAwoken else mret ()); task WaitAwoken) Q
    (at_ (Asleep true (Shared a) Waits) Idle k sl n).
Proof.
  intros HQ.
  assert (rwp (task WaitAwoken) Q (at_ (Asleep true (Shared a) Claimed) Idle k sl n)) as Hwait.
  { by apply (wait_ok (λ u, mret u) (Shared a)). }
  cbn. split; [solve [may_tac]|]. intros m e rsp m' HV [= <- <-].
  pose proof (r_claim _ _ (at_ (Asleep true (Shared a) Waits) Idle k sl n) a true eq_refl HV) as HV'. cbn in HV'. eexists. split; [exact HV'|]. clear HV HV'. destruct (_ =? 0)%N; cbn.
  - done.
  - split; [solve [may_tac]|]. clear m. intros m e' rsp m' HV [= <- <-].
    exists (at_ (Asleep true (Shared a) Claimed) Idle k sl n). split; [|done]. eapply r_rouse in HV; [exact HV|done].
Qed.
(** The native runtime goes on without waiting when another port cancels the
    selection: only the green one is covered there. *)
Definition call_ok (rt : Runtime) (c : call) : Prop :=
  match c with SelectAmong OtherReady => rt = Green | _ => True end.

Lemma deschedule_many_ok rt o k sl n (Q : SelectionResult → rphase → Prop) : rests k → call_ok rt (SelectAmong o) →
  (∀ x r, unblocked k x r → Q x r) → rwp (deschedule_many task rt o block_on) Q (calm k sl n).
Proof.
  intros Hk Hrt HQ. unfold deschedule_many.
  apply (wp_act _ _ _ (Task (NewFlag TASK))); [solve [may_tac]|]. intros m e rsp m' HV [= <- <-].
  eexists; split; [exact (r_newflag _ _ _ _ _ HV)|]. generalize (fresh (sched m)) as a. clear m HV. intros a.
  apply (wp_act _ _ _ (Task ResetAwoken)); [solve [may_tac]|]. intros m e' rsp m' HV [= <- <-].
  wgo (@at_ T U (Asleep false (Shared a) Waits) Idle k sl n) by (by apply r_reset_flag).
  apply wp_bind. unfold block_on. apply wp_bind, start_selection_ok; [done|].
  intros [|b|b up] r; cbn [selected].
  - intros (sl' & n' & ->). change (rwp (match o with OtherReady => cancel task rt (Shared a) | OtherWakes => _ ← wake_up task (Shared a); task WaitAwoken end ≫= λ _, mret SelSuccess) Q (at_ (Asleep true (Shared a) Waits) Idle k sl' n')).
    apply wp_bind.
    assert (rwp (w ← wake task (Shared a); _ ← (if (w : bool) then task SetAwoken else mret ()); task WaitAwoken)
              (λ _, rwp (mret SelSuccess) Q) (at_ (Asleep true (Shared a) Waits) Idle k sl' n')) as H.
    { apply wake_self_ok. apply HQ. by eexists _, _, _. }
    destruct o; [exact H|]. cbn in Hrt; subst rt. exact H.
  - intros (-> & sl' & n' & ->). apply wp_bind. apply cancel_unpub_ok; [done..|]. intros r' Hr'. apply HQ. by exists sl', n'.
  - intros (-> & sl' & n' & ->). apply wp_bind. apply cancel_unpub_ok; [done..|]. intros r' Hr'. apply HQ. by exists sl', n'.
Qed.
Lemma answered_leads k e r : answered k e r → leads r r.
Proof. destruct e; cbn; try done; first [by intros (? & ? & ->) | by intros (? & ? & ? & _ & ->)]. Qed.

Lemma after_block_ok k x r (Q : @event T U → rphase → Prop) : rests k → unblocked k x r →
  (∀ e r r', answered k e r' → leads r r' → Q e r) →
  rwp (y ← after_block x; mret (ready y)) Q r.
Proof.
  intros Hk Hx HQ. destruct x as [|b|b up]; cbn in Hx.
  - destruct Hx as (b & sl & n & ->). apply (wp_bind _ _ _ abort_selection), abort_ok; [done|].
    intros x r Hr. eapply HQ; eauto using answered_leads.
  - destruct Hx as (sl & n & Hr). eapply HQ; [|exact Hr]. eexists Idle, _, _. auto.
  - destruct Hx as (sl & n & Hr). eapply HQ; [|exact Hr]. by eexists _, _.
Qed.

Lemma run_call_ok rt c k sl n (Q : @event T U → rphase → Prop) : rests k → call_ok rt c →
  (∀ e r r', answered k e r' → leads r r' → Q e r) → rwp (run_call rt c) Q (calm k sl n).
Proof.
  intros Hk Hc HQ. destruct c as [| | | |o]; unfold run_call.
  - apply wp_bind, recv_ok; [done|]. intros [t|[| |up]] r Hx Hr; [| done | |]; eapply HQ; eauto using answered_leads.
  - apply wp_bind. eapply try_recv_ok; [done|apply shows_calm|done|..].
    + intros _. apply (HQ NoData _ (calm k sl n)); [by eexists _, _|done].
    + intros x r _ Hr. eapply HQ; eauto using answered_leads.
  - apply wp_bind, can_recv_ok; [done|]. intros x r Hr. eapply HQ; eauto using answered_leads.
  - apply wp_bind, deschedule_select_ok; [done|]. intros x r Hr. by eapply after_block_ok.
  - apply wp_bind, deschedule_many_ok; [done..|]. intros x r Hr. by eapply after_block_ok.
Qed.

(** ** Hanging up *)
Definition dropped (k : @took T) : Prop := match k with InHand _ | Trash _ => False | _ => True end.

Lemma drop_port_ok k u sl n (Q : () → rphase → Prop) : rests k →
  (∀ k, dropped k → Q () (port_at k u sl n Closed Live)) → rwp drop_port Q (port_at k u sl n Open Live).
Proof.
  intros Hk HQ. unfold drop_port. wact. unfold flip in HV.
  destruct (r_drop _ _ _ _ _ _ Hk HV) as [[Hm ?]|(Hm & -> & ?)].
  - assert ((state m =? DISCONNECTED)%N || (state m =? EMPTY)%N = true) as -> by (by destruct Hm as [-> | ->]).
    wgo (@port_at T U k u sl n Closed Live) by done. apply HQ. by destruct k.
  - rewrite Hm. wgo (@port_at T U Untouched u sl n Closing Live) by done.
    wact. unfold flip in HV. destruct (r_trash _ _ _ _ _ _ HV) as (t & -> & ?).
    wgo (@port_at T U (Trash t) u sl n Closed Live) by done.
    wact. wgo (@port_at T U (Trashed t) u sl n Closed Live) by (by apply r_trashed). by apply HQ.
Qed.

Lemma arc_drop_ok' k u sl n (Q : () → rphase → Prop) :
  (∀ h, h = Gone ∨ h = Last Freed → Q () (port_at k u sl n Closed h)) → rwp arc_drop Q (port_at k u sl n Closed Live).
Proof.
  intros HQ. unfold arc_drop. wact. pose proof (r_release _ _ _ _ _ _ HV) as HV'.
  destruct (_ =? 1)%N; [|wgo (@port_at T U k u sl n Closed Gone) by done; by apply HQ; auto].
  wgo (@port_at T U k u sl n Closed (Last Full)) by done.
  wact. rewrite (r_disconnected _ _ _ _ _ _ _ HV). wgo (@port_at T U k u sl n Closed (Last Full)) by done.
  wact. pose proof (r_sweep _ _ _ _ _ _ HV). eexists; split; [done|]. clear HV.
  cut (rwp (u ← act ReadUpgrade; _ ← match u with GoUp up => emit (DestroyedUp up) | _ => mret () end; act Free) Q
         (port_at k u sl n Closed (Last NoMsg))).
  { intros Hrest. destruct (data m) as [t|]; [|done].
    wact. wgo (@port_at T U k u sl n Closed (Last NoMsg)) by (by apply r_swept). done. }
  clear dependent m.
  cut (rwp (act Free) Q (port_at k u sl n Closed (Last Clean))).
  { intros Hrest. wact. pose proof (r_read_last _ _ _ _ _ _ HV). eexists; split; [done|]. clear HV.
    destruct (upslot m) as [| |up]; [done..|]. wact. wgo (@port_at T U k u sl n Closed (Last Clean)) by (by apply r_swept_up). done. }
  wact. wgo (@port_at T U k u sl n Closed (Last Freed)) by (by apply r_free). by apply HQ; auto.
Qed.

Definition receiver_ends r : Prop :=
  (rrf r = Gone ∨ rrf r = Last Freed) ∧ dropped (tk r) ∧ match ut r with UpInHand _ => False | _ => True end.

Fixpoint client_ok (rt : Runtime) (c : @client T U) : Prop :=
  match c with Hangup => True | Call c k => call_ok rt c ∧ ∀ e, client_ok rt (k e) end.

Lemma receiver_ok rt c k sl n : rests k → client_ok rt c → rwp (receiver rt c) (λ _, receiver_ends) (calm k sl n).
Proof.
  revert k sl n. induction c as [|c f IH]; intros k sl n Hk Hc.
  - apply (wp_bind _ _ _ drop_port), (drop_port_ok k UpUntouched); [done|]. intros k' Hk'. by apply arc_drop_ok'.
  - destruct Hc as [Hc Hf]. cbn [receiver]. apply wp_bind, run_call_ok; [done..|]. intros e r r' He [HL Hlead].
    apply (wp_act _ _ _ (Emit e)); [by repeat split; cbn; intros|]. intros m s rsp m' HV [= <- <-]. apply Hlead in HV.
    destruct e as [| |t| | |up|b| |]; cbn in He; try done.
    + destruct He as (sl' & n' & ->). exists (calm (Got t) sl' n'). split; [by apply r_received|]. by apply IH.
    + destruct He as (sl' & n' & ->). exists (calm k sl' n'). split; [apply r_plain; auto|]. by apply IH.
    + destruct He as (sl' & n' & ->). exists (calm k sl' (S n')). split; [by apply r_hung|]. by apply IH.
    + destruct He as (sl' & n' & ->). exists (port_at k (UpGot up) sl' n' Open Live). split; [by apply r_upgraded|].
      apply (wp_bind _ _ _ drop_port), drop_port_ok; [done|]. intros k' Hk'. by apply arc_drop_ok'.
    + destruct He as (v & sl' & n' & Hv & ->). exists (calm k sl' n'). split; [|by apply IH].
      apply (r_look _ _ (at_ Awake v k sl' n') Idle); try done; [|by destruct Hv as [-> | ->]].
      apply r_plain; eauto.
Qed.
End programs.
