(* ===== verification/OneshotSound.v ===== *)
(** What the oneshot channels promise: the two halves never fail, never race on
    plain memory and never touch a packet that is freed; they always come to an
    end; and at the end every value has reached exactly one destination.  The
    last part shows where the native runtime breaks the first promise. *)
From stdpp Require Import prelude gmap relations.
From S2P Require Import Prelude Threads Tasks Oneshot OneshotInv OneshotSend OneshotRecv.
Import Oneshot.

Section sound.
Context {T U : Type}.
Implicit Types (msg : option T) (up : option U) (c : @client T U).

Local Abbreviation configs := (config (op := @op T U) (resp := resp) (M := @Packet T U) () ()).
Local Abbreviation steps := (cstep (@exec T U)).

Lemma inv_new : inv (@new T U) (sends Fresh) (calm Untouched None 0).
Proof. constructor; try done; constructor; try done; naive_solver. Qed.

(** The phases of the halves in a configuration that is reached. *)
Lemma reached rt msg up c (x : configs) : client_ok rt c → rtc steps (start rt msg up c) x →
  ∃ s r, inv (memory x) s r ∧
    wp exec inv smay (lthread x) (λ _, sender_ends msg up) s ∧
    wp exec (λ m, flip (inv m)) rmay (rthread x) (λ _, receiver_ends) r.
Proof.
  intros Hc Hx. eapply (wp_steps _ _ smay rmay _ _ _ _ _ _ Hx inv_new).
  - apply sender_ok.
  - by apply receiver_ok.
Qed.

(** * No failures, no races *)
Section accesses.
Context (m : @Packet T U) (s : @sphase T U) (r : @rphase T U) (o o' : @op T U).
Hypothesis (HV : inv m s r) (Hs : smay s o) (Hr : rmay r o').

Lemma only_left : is_last (srf s) = true → on_packet o' = false.
Proof.
  intros E. apply (co_last _ _ (inv_coh _ _ _ HV)) in E. destruct Hr as [Ho _]. rewrite E in Ho.
  destruct (on_packet o'); [by specialize (Ho eq_refl)|done].
Qed.
Lemma only_right : is_last (rrf r) = true → on_packet o = false.
Proof.
  intros E. apply (co_last _ _ (inv_coh _ _ _ HV)) in E. destruct Hs as [Ho _]. rewrite E in Ho.
  destruct (on_packet o); [by specialize (Ho eq_refl)|done].
Qed.

Lemma no_data_race : is_data o && is_data o' = false.
Proof.
  apply not_true_iff_false. intros [Ho Ho']%andb_prop.
  destruct Hs as (_ & Ha & _), Hr as (_ & Hb & _). specialize (Ha Ho). specialize (Hb Ho').
  pose proof only_left as HL. pose proof only_right as HR.
  pose proof (co_view _ _ (inv_coh _ _ _ HV)) as Hv. pose proof (co_port _ _ (inv_coh _ _ _ HV)) as Hp.
  destruct Ha as [Ha|Ha]; [|by destruct o'; specialize (HL Ha)].
  destruct Hb as [E|[E|[E|[E|E]]]]; [..|by destruct o; specialize (HR E)]; rewrite E in *; cbn in Hv.
  - destruct Hv as [_ [t Et]]. by rewrite Et in Ha.
  - destruct Hv as [_ [t Et]]. by rewrite Et in Ha.
  - destruct (sd s); congruence.
  - destruct Hp as (_ & _ & _ & t & Et). by rewrite Et in Ha.
Qed.

Lemma no_upslot_race : is_upslot o && is_upslot o' = false.
Proof.
  apply not_true_iff_false. intros [Ho Ho']%andb_prop.
  destruct Hs as (_ & _ & Ha & _), Hr as (_ & _ & Hb & _). specialize (Ha Ho). specialize (Hb Ho').
  pose proof only_left as HL. pose proof only_right as HR.
  pose proof (co_view _ _ (inv_coh _ _ _ HV)) as Hv. pose proof (co_port _ _ (inv_coh _ _ _ HV)) as Hp.
  pose proof (co_declined _ _ (inv_coh _ _ _ HV)) as Hd.
  destruct Hb as [E|[[u E]|[E|E]]]; [..|by destruct o; specialize (HR E)].
  all: rewrite E in Hv; cbn in Hv; destruct Ha as [Ha|[[w Ha]|Ha]]; [naive_solver congruence| |by destruct o'; specialize (HL Ha)].
  all: rewrite Ha in Hd; destruct (pt r); naive_solver congruence.
Qed.

Lemma no_conflict : conflict o o' = false.
Proof.
  unfold conflict. rewrite no_data_race, no_upslot_race.
  destruct Hs as (_ & _ & _ & Ha & _), Hr as (_ & _ & _ & Hb & _).
  destruct (is_free o); [rewrite only_left by auto|]; destruct (is_free o'); [rewrite only_right by auto| |rewrite only_right by auto|];
    by rewrite ?andb_false_r.
Qed.

(** Once the packet is freed nobody looks at it. *)
Lemma freed_left : freed m = true → on_packet o = false.
Proof.
  rewrite (inv_freed _ _ _ HV). intros [E|E]%orb_prop.
  - destruct Hs as [Ho _]. destruct (on_packet o); [|done]. specialize (Ho eq_refl).
    by destruct (srf s) as [| |[]].
  - apply only_right. by destruct (rrf r).
Qed.
Lemma freed_right : freed m = true → on_packet o' = false.
Proof.
  rewrite (inv_freed _ _ _ HV). intros [E|E]%orb_prop.
  - apply only_left. by destruct (srf s).
  - destruct Hr as [Ho _]. destruct (on_packet o'); [|done]. specialize (Ho eq_refl).
    by destruct (rrf r) as [| |[]].
Qed.
End accesses.

(** The selections of the client are never cancelled by another port. *)
Fixpoint uncancelled (c : @client T U) : Prop :=
  match c with Hangup => True | Call c k => c ≠ SelectAmong OtherReady ∧ ∀ e, uncancelled (k e) end.

Lemma covered_ok rt c : rt = Green ∨ uncancelled c → client_ok rt c.
Proof.
  intros [->|H]; induction c as [|c k IH]; cbn; try done.
  - split; [by destruct c as [| | | |[]]|]. intros e. by apply IH.
  - destruct H as [Hc Hk]. split; [by destruct c as [| | | |[]]|]. intros e. by apply IH.
Qed.


(** * Runs come to an end *)
Ltac free_tac := repeat first [done | solve [auto] | apply loop_free_bind | case_match | progress intros].

Lemma task_free o : loop_free (@task T U o).
Proof. done. Qed.
Lemma wake_up_free t : loop_free (wake_up (@task T U) t).
Proof. destruct t; unfold wake_up, wake, task; cbn; free_tac. Qed.
Lemma arc_drop_free : loop_free (@arc_drop T U).
Proof. unfold arc_drop, packet_drop, check. free_tac. Qed.

Lemma sender_free msg up : loop_free (@sender T U msg up).
Proof.
  pose proof arc_drop_free. pose proof wake_up_free.
  unfold sender, sent, send, upgrade, drop_chan, take_unwrap, emit, check. free_tac.
Qed.

Lemma deschedule_free {A} (f : BlockedTask → prog (@op T U) resp (A * option BlockedTask)) :
  (∀ t, loop_free (f t)) → loop_free (deschedule task f).
Proof. intros Hf. unfold deschedule, wake, task. free_tac; auto. Qed.
Lemma deschedule_many_free {A} rt o (f : BlockedTask → prog (@op T U) resp (A * option BlockedTask)) :
  (∀ t, loop_free (f t)) → loop_free (deschedule_many task rt o f).
Proof. intros Hf. unfold deschedule_many, cancel, wake_up, wake, task. free_tac; auto. Qed.
Lemma block_on_free t : loop_free (@block_on T U t).
Proof. unfold block_on, start_selection, replace_upgrade. free_tac. Qed.

Lemma run_call_free rt k : loop_free (@run_call T U rt k).
Proof.
  destruct k; cbn [run_call]; unfold recv, try_recv, can_recv, after_block, abort_selection, replace_upgrade.
  all: repeat first [done | apply deschedule_free | apply deschedule_many_free | apply block_on_free
                    | apply loop_free_bind | case_match | progress intros].
Qed.

Lemma receiver_free rt c : loop_free (receiver rt c).
Proof.
  pose proof arc_drop_free.
  induction c as [|k f IH]; cbn [receiver]; unfold drop_port, take_unwrap, emit.
  - free_tac.
  - apply loop_free_bind; [apply run_call_free|]. free_tac.
Qed.

Lemma Acc_rtc {A} (R : relation A) x y : rtc R x y → Acc (flip R) x → Acc (flip R) y.
Proof. induction 1 as [|x z y Hs _ IH]; [done|]. intros Hx. by apply IH, (Acc_inv Hx). Qed.

(** A thread that is not at its end and has not failed steps, unless it waits
    to be awoken. *)
Lemma tstep_or_waits {A} (p : prog (@op T U) resp A) m : finished p = false → failed p = false →
  is_Some (tstep exec p m) ∨ next_op p = Some (Task WaitAwoken) ∧ awoken (sched m) = false.
Proof.
  destruct p as [a|w|o k|]; try done; intros _ _; [|by left]. cbn.
  destruct o as [| | | | | | | | | |o|]; cbn; try (by left).
  destruct o; cbn; try (by left). destruct (awoken (sched m)); [by left|by right].
Qed.

(** The receiver does not wait for a sender that is gone. *)
Lemma awoken_at_end (m : @Packet T U) s r msg up : inv m s r → sender_ends msg up s → may_wait r → awoken (sched m) = true.
Proof.
  intros HV [Hs _] Hw. pose proof (sleep _ _ _ (inv_tasks _ _ _ HV)) as Hsl.
  destruct (co_srf _ _ (inv_coh _ _ _ HV)) as (Hcl & Hwk & _); [by destruct Hs as [-> | ->]|].
  unfold may_wait in Hw. unfold sleep_ok, consumed in Hsl. rewrite Hwk, Hcl in Hsl.
  destruct (slp r) as [| |[] [] []]; cbn in Hsl; naive_solver.
Qed.


(** * What is delivered *)
(** The account of a channel both halves have left.  The answers of the receiver
    are the message, hang-ups, the upgrade, in this order; the message and the
    upgrade reach the receiver or are destroyed, once; what was refused is
    destroyed; and the receiver is told of a hang-up, or given the upgrade,
    only after every message that was taken. *)
Definition settled_log msg up (log : list (@event T U)) : Prop :=
  ∃ got hungs ups,
    List.filter is_answer log = got ++ replicate hungs HungUp ++ ups ∧
    match msg with
    | None => got = [] ∧ List.filter is_msg log = []
    | Some t => ∃ ok, Sent t ok ∈ log ∧
        (ok = true ∧ got = [Received t] ∧ List.filter is_msg log = [Received t] ∨
         got = [] ∧ List.filter is_msg log = [Destroyed t])
    end ∧
    match up with
    | None => ups = [] ∧ List.filter is_up log = []
    | Some u => ∃ ok, Upgrade u ok ∈ log ∧
        (ok = true ∧ ups = [GotUpgrade u] ∧ List.filter is_up log = [GotUpgrade u] ∨
         ups = [] ∧ List.filter is_up log = [DestroyedUp u])
    end ∧
    (hungs ≠ 0 → up = None) ∧
    (hungs ≠ 0 ∨ ups ≠ [] → ∀ t, Sent t true ∈ log → got = [Received t]).

Lemma in_filter {A} (f : A → bool) x l : x ∈ List.filter f l ↔ f x = true ∧ x ∈ l.
Proof. rewrite !list_elem_of_In, filter_In. tauto. Qed.

Lemma sent_in (m : @Packet T U) s r t ok : inv m s r → Sent t ok ∈ log m ↔
  said s = true ∧ (sd s = Delivered t ∧ ok = true ∨ sd s = Rejected t ∧ ok = false).
Proof.
  intros HV. transitivity (Sent t ok ∈ List.filter is_sent (log m)); [rewrite in_filter; naive_solver|].
  rewrite (inv_sents _ _ _ HV). unfold sents_are. rewrite elem_of_app.
  destruct (said s), (saidup s), (sd s), (off s); rewrite ?list_elem_of_singleton, ?elem_of_nil; naive_solver.
Qed.
Lemma upgrade_in (m : @Packet T U) s r u ok : inv m s r → Upgrade u ok ∈ log m ↔
  saidup s = true ∧ (off s = Offered u ∧ ok = true ∨ off s = Refunded u ∧ ok = false).
Proof.
  intros HV. transitivity (Upgrade u ok ∈ List.filter is_sent (log m)); [rewrite in_filter; naive_solver|].
  rewrite (inv_sents _ _ _ HV). unfold sents_are. rewrite elem_of_app.
  destruct (said s), (saidup s), (sd s), (off s); rewrite ?list_elem_of_singleton, ?elem_of_nil; naive_solver.
Qed.

Lemma left_freed (m : @Packet T U) s r msg up : inv m s r → sender_ends msg up s → receiver_ends r →
  freed m = true ∧ (srf s = Last Freed ∨ rrf r = Last Freed).
Proof.
  intros HV [Hs _] [Hr _]. rewrite (inv_freed _ _ _ HV). pose proof (co_both _ _ (inv_coh _ _ _ HV)) as Hb.
  destruct Hs as [E|E], Hr as [E'|E']; rewrite E, E' in *; try done; auto.
Qed.

Lemma settled_end (m : @Packet T U) s r msg up : inv m s r → sender_ends msg up s → receiver_ends r → settled_log msg up (log m).
Proof.
  intros HV Hs Hr. destruct (left_freed _ _ _ _ _ HV Hs Hr) as [_ Hf].
  destruct Hs as (_ & Hmsg & Hup), Hr as (_ & Hk & Hu).
  eexists _, (hung r), _. split; [by rewrite (inv_answers _ _ _ HV)|].
  rewrite (inv_msgs _ _ _ HV), (inv_ups _ _ _ HV). unfold msgs_are, ups_are.
  pose proof (co_took _ _ (inv_coh _ _ _ HV)) as Ht. pose proof (co_up _ _ (inv_coh _ _ _ HV)) as Hcu.
  pose proof (co_hung _ _ (inv_coh _ _ _ HV)) as Hh. pose proof (co_upgot _ _ (inv_coh _ _ _ HV)) as Hg.
  split_and!.
  - destruct msg as [t|].
    + exists (match sd s with Delivered _ => true | _ => false end). rewrite (sent_in _ _ _ _ _ HV).
      destruct Hmsg as [Hs [E|E]]; rewrite E in *; (split; [by auto|]).
      * destruct (tk r) as [|t'|t'|t'|t'] eqn:Ek; try done; [right|left|right]; try (assert (Delivered t = Delivered t') as [= <-] by eauto; done).
        by destruct Hf as [-> | ->]; rewrite ?orb_true_r.
      * right. destruct (tk r) as [|t'|t'|t'|t'] eqn:Ek; try done. by assert (Rejected t = Delivered t') by eauto.
    + rewrite Hmsg in *. split; [|done]. destruct (tk r) as [|t'|t'|t'|t'] eqn:Ek; try done. by assert (Fresh = Delivered t') by eauto.
  - destruct up as [u|].
    + exists (match off s with Offered _ => true | _ => false end). rewrite (upgrade_in _ _ _ _ _ HV).
      destruct Hup as [Hs [E|E]]; rewrite E in *; (split; [by auto|]).
      * destruct (ut r) as [|u'|u'] eqn:Ek; try done; [right|left].
        -- by destruct Hf as [-> | ->]; rewrite ?orb_true_r.
        -- by destruct (Hcu u') as [[= <-] _]; [auto|].
      * right. destruct (ut r) as [|u'|u'] eqn:Ek; try done. by destruct (Hcu u') as [? _]; [auto|].
    + rewrite Hup in *. split; [|done]. destruct (ut r) as [|u'|u'] eqn:Ek; try done. by destruct (Hcu u') as [? _]; [auto|].
  - intros Hn. destruct (Hh Hn) as (_ & E & _). destruct up; [|done]. rewrite E in Hup. naive_solver.
  - intros Hn t [_ [[E _]|[_ ?]]]%(sent_in _ _ _ _ _ HV); [|done]. assert (no_data s r) as Hd.
    { destruct Hn as [Hn|Hn]; [by destruct (Hh Hn) as (_ & _ & ?)|]. destruct (ut r) as [| |u]; try done. eauto. }
    unfold no_data in Hd. rewrite E in Hd. by rewrite Hd.
Qed.

(** C5. When both halves of a oneshot channel are done its packet is freed and
    its account is settled: the message was received or destroyed, exactly
    once, and so was the upgrade; a refused one was destroyed; and the receiver
    saw the message, then the hang-up or the upgrade, in this order and with
    nothing left behind. *)
Theorem oneshot_delivery rt msg up c (x : configs) : client_ok rt c → rtc steps (start rt msg up c) x →
  finished (lthread x) = true → finished (rthread x) = true →
  freed (memory x) = true ∧ settled_log msg up (log (memory x)).
Proof.
  intros Hc Hx Hl Hr. destruct (reached _ _ _ _ _ Hc Hx) as (s & r & HV & Wl & Wr).
  destruct (wp_finished _ _ _ _ _ _ Wl Hl) as (? & _ & El), (wp_finished _ _ _ _ _ _ Wr Hr) as (? & _ & Er).
  split; [by eapply left_freed|by eapply settled_end].
Qed.
End sound.

(** * Examples *)
(** The receiver asks twice; the halves take turns. *)
Definition recv_twice : @client nat nat := Call Recv (λ _, Call Recv (λ _, Hangup)).
Definition in_turns (n : nat) : list bool := concat (replicate n [false; true]).
Definition ran (n : nat) : config (M := @Packet nat nat) () () :=
  Threads.sched exec (in_turns n) (start Native (Some 7) (Some 9) recv_twice).



Lemma oneshot_delivery_witness :
  log (memory (ran 40)) = [Sent 7 true; Received 7; Upgrade 9 true; GotUpgrade 9] ∧
  freed (memory (ran 40)) = true ∧ settled_log (Some 7) (Some 9) (log (memory (ran 40))).
Proof.
  split; [vm_compute; reflexivity|].
  apply (oneshot_delivery Native (Some 7) (Some 9) recv_twice (ran 40)); [by cbn; repeat split|apply sched_reach|vm_compute; reflexivity..].
Defined.

(** * The native runtime *)
(** Another port of the selection has something to receive; then the receiver
    asks this port twice, and goes on in any way. *)
Definition select_then_recv {T U} (k : event → event → event → @client T U) : @client T U :=
  Call (SelectAmong OtherReady) (λ e1, Call Recv (λ e2, Call Recv (k e1 e2))).
(** The receiver blocks on the port; the sender takes the handle and claims its
    flag; the receiver goes on, since the selection was cancelled, receives and
    blocks again; only now the sender wakes the task it has claimed. *)
Definition late_wakeup : list bool :=
  replicate 3 false ++ replicate 7 true ++ replicate 11 false ++ [true] ++ replicate 2 false.

(** C37. The restriction of the theorems above is needed: on the native runtime,
    whatever is sent and whatever the client does afterwards, a selection that
    another port cancels followed by two receives has an interleaving in which
    the second receive fails.  The cancelled selection does not wait for the
    sender that has claimed the task; its wakeup comes later and ends a [recv]
    on the empty channel.  On the green runtime no interleaving fails. *)
Theorem native_select_race {T U} (t : T) (up : option U) k :
  (∃ x, rtc (cstep exec) (start Native (Some t) up (select_then_recv k)) x ∧
     rthread x = Abort ExplicitFail ∧ log (memory x) = [Ready true; Received t]) ∧
  (∀ x, rtc (cstep exec) (start Green (Some t) up (select_then_recv k)) x → failed (rthread x) = false).
Proof.
  split.
  - exists (Threads.sched exec late_wakeup (start Native (Some t) up (select_then_recv k))).
    split; [apply sched_reach|by vm_compute].
  - intros x Hx. apply reached in Hx as (s & r & _ & _ & Hr); [|by apply covered_ok; left]. by eapply wp_not_failed.
Qed.

(** A sender whose receiver is gone is told so by its first message, which
    leaves the word saying that there is data; its second message is then taken
    for an upgrade of a live channel, reported as sent and destroyed. *)
Theorem refused_then_accepted {T U} (rt : Runtime) (t : T) (u : U) :
  let x := Threads.sched exec (replicate 20 false ++ replicate 40 true) (start rt (Some t) (Some u) Hangup) in
  finished (rthread x) = true ∧ finished (lthread x) = true ∧
  log (memory x) = [Destroyed t; Sent t false; Upgrade u true; DestroyedUp u].
Proof. by vm_compute. Qed.
