(* ===== verification/StrConv.v ===== *)
(** Numbers as text: the integer paths of [libstd/num/strconv.rs] for [uint], with
    [to_digit] of [libstd/char.rs].  Text is a list of bytes. *)
From stdpp Require Import prelude list.
From S2P Require Import Prelude.

Definition umul (a b : N) : N := ((a * b) mod 2 ^ UINT_BITS)%N.

Module StrConv.
(** [c] lies between two characters, inclusive. *)
Definition within (lo hi c : N) : bool := (lo <=? c)%N && (c <=? hi)%N.

Definition to_digit (c radix : N) : outcome (option N) :=
  if (36 <? radix)%N then Fail ExplicitFail else
  let val := if within 48 57 c then Some (usub c 48)
             else if within 97 122 c then Some (usub (uadd c 10) 97)
             else if within 65 90 c then Some (usub (uadd c 10) 65)
             else None in
  Ok (match val with Some val => if (val <? radix)%N then Some val else None | None => None end).

(** The loop of [int_to_str_bytes_common] fills a buffer of 64 bytes from the
    least significant digit; the fuel is the room left in it. *)
Fixpoint to_digits (room : nat) (deccum radix : N) : outcome (list N) :=
  match room with
  | 0 => Fail IndexOutOfBounds
  | S room =>
      let i := (deccum mod radix)%N in
      let c := if (i <=? 9)%N then (48 + i)%N else (97 + (i - 10))%N in
      let deccum := (deccum / radix)%N in
      if (deccum =? 0)%N then Ok [c] else cons c <$> to_digits room deccum radix
  end.
(** [uint::to_str_radix]: no sign. *)
Definition to_str_radix (num radix : N) : outcome (list N) :=
  _ ← assert_ ((2 <=? radix)%N && (radix <=? 36)%N);
  @List.rev N <$> to_digits 64 num radix.

(** The loop of [from_str_bytes_common] over the digits, with its two checks for
    overflow; [None] is a return of [None], also [NumStrConv::inf()]. *)
Fixpoint from_digits (radix : N) (buf : list N) (accum last_accum : N) : outcome (option N) :=
  match buf with
  | [] => Ok (Some accum)
  | c :: buf =>
      digit ← to_digit c radix;
      match digit with
      | Some digit =>
          let accum := uadd (umul accum radix) digit in
          if negb (last_accum =? 0)%N &&
             ((accum <=? last_accum)%N || negb (last_accum =? usub accum digit / radix)%N)
          then Ok None
          else from_digits radix buf accum accum
      | None =>
          (* an exponent ends the digits and is then refused, as is anything else *)
          Ok None
      end
  end.
(** [uint::parse_bytes]: no negative numbers, fractions, special values,
    exponents or underscores, and no empty text. *)
Definition parse_bytes (buf : list N) (radix : N) : outcome (option N) :=
  if (radix <? 2)%N || (36 <? radix)%N then Fail ExplicitFail
  else match buf with
  | [] => Ok None
  | 45%N :: _ => Ok None
  | 43%N :: buf => match buf with [] => Ok None | _ => from_digits radix buf 0 0 end
  | buf => from_digits radix buf 0 0
  end.
End StrConv.
