(* ===== verification/BigUint.v ===== *)
(** Big unsigned integers, [BigUint] of [libnum/bigint.rs] on a machine with 64-bit
    words: digits of 32 bits, least significant first, without zeros at the
    end.  Arithmetic on digits is done in a [uint] and wraps.

    A closure that keeps a carry in a variable of its function is [map_carry].
    The loops have fuel that depends on the lengths of the operands only; the
    theorems show that it does not run out. *)
From stdpp Require Import prelude list.
From S2P Require Import Prelude StrConv.

Module BigDigit.
Definition bits : N := 32.
Definition base : N := N.shiftl 1 bits.
Definition lo_mask : N := N.shiftr UINT_MAX bits.
(** [n as BigDigit] *)
Definition cast (n : N) : N := (n mod base)%N.
Definition get_hi (n : N) : N := cast (N.shiftr n bits).
Definition get_lo (n : N) : N := cast (N.land n lo_mask).
Definition from_uint (n : N) : N * N := (get_hi n, get_lo n).
Definition to_uint (hi lo : N) : N := N.lor lo (N.shiftl hi bits mod 2 ^ UINT_BITS).
End BigDigit.

Definition map_carry {A} (f : N → A → N * N) : N → list A → list N * N :=
  fix go carry l :=
    match l with
    | [] => ([], carry)
    | x :: l => let '(hi, lo) := f carry x in let '(r, c) := go hi l in (lo :: r, c)
    end.

(** The first [n] elements of a vector followed by zeros for ever. *)
Definition pad (n : nat) (l : list N) : list N := take n (l ++ replicate n 0%N).
Definition push_carry (r : list N * N) : list N := if (r.2 =? 0)%N then r.1 else r.1 ++ [r.2].

Fixpoint rposition {A} (f : A → bool) (l : list A) : option nat :=
  match l with
  | [] => None
  | x :: l => match rposition f l with Some p => Some (S p) | None => if f x then Some 0 else None end
  end.

Module BigUint.
Import BigDigit.

Record BigUint : Type := mkBigUint { data : list N }.

Definition new (v : list N) : BigUint :=
  mkBigUint (take (match rposition (λ n, negb (n =? 0)%N) v with Some p => S p | None => 0 end) v).
Definition from_slice (slice : list N) : BigUint := new slice.

Definition zero : BigUint := new [].
Definition is_zero (a : BigUint) : bool := match data a with [] => true | _ => false end.
Definition one : BigUint := new [1%N].

Definition len (a : BigUint) : nat := length (data a).

(** * Comparisons *)
Fixpoint cmp_digits (l : list (N * N)) : comparison :=
  match l with
  | [] => Eq
  | (x, y) :: l => if (x <? y)%N then Lt else if (y <? x)%N then Gt else cmp_digits l
  end.
Definition cmp (a b : BigUint) : comparison :=
  if len a <? len b then Lt else if len b <? len a then Gt
  else cmp_digits (zip (List.rev (data a)) (List.rev (data b))).
Definition eq (a b : BigUint) : bool := match cmp a b with Eq => true | _ => false end.
Definition lt (a b : BigUint) : bool := match cmp a b with Lt => true | _ => false end.

(** * Addition, subtraction *)
Definition add (a b : BigUint) : BigUint :=
  let '(a, b) := if len b <? len a then (a, b) else (b, a) in
  new (push_carry (map_carry (λ carry '(ai, bi), from_uint (uadd (uadd ai bi) carry)) 0
                             (zip (data a) (pad (len a) (data b))))).

Definition sub (a b : BigUint) : outcome BigUint :=
  let new_len := len a `max` len b in
  let '(diff, borrow) := map_carry (λ borrow '(ai, bi),
      let '(hi, lo) := from_uint (usub (usub (uadd base ai) bi) borrow) in
      (if (hi =? 0)%N then 1%N else 0%N, lo)) 0
    (zip (pad new_len (data a)) (pad new_len (data b))) in
  _ ← assert_ (borrow =? 0)%N;
  Ok (new diff).

(** * Shifts *)
Definition shl_unit (a : BigUint) (n_unit : N) : BigUint :=
  if (n_unit =? 0)%N || is_zero a then a
  else new (replicate (N.to_nat n_unit) 0%N ++ data a).
Definition shl_bits (a : BigUint) (n_bits : N) : BigUint :=
  if (n_bits =? 0)%N || is_zero a then a
  else new (push_carry (map_carry (λ carry elem,
         from_uint (N.lor (N.shiftl elem n_bits mod 2 ^ UINT_BITS) carry)) 0 (data a))).
Definition shr_unit (a : BigUint) (n_unit : N) : BigUint :=
  if (n_unit =? 0)%N then a
  else if (N.of_nat (len a) <? n_unit)%N then zero
  else from_slice (drop (N.to_nat n_unit) (data a)).
Definition shr_bits (a : BigUint) (n_bits : N) : BigUint :=
  if (n_bits =? 0)%N || is_zero a then a
  else new (List.rev (map_carry (λ borrow elem,
         (cast (N.shiftl elem (usub bits n_bits)), N.lor (N.shiftr elem n_bits) borrow)) 0 (List.rev (data a))).1).
Definition shl (a : BigUint) (rhs : N) : BigUint := shl_bits (shl_unit a (rhs / bits)) (rhs mod bits).
Definition shr (a : BigUint) (rhs : N) : BigUint := shr_bits (shr_unit a (rhs / bits)) (rhs mod bits).

(** * Bitwise operations *)
Definition bitand (a b : BigUint) : BigUint := new (zip_with N.land (data a) (data b)).
Definition bitor (a b : BigUint) : BigUint :=
  let '(a, b) := if len b <? len a then (a, b) else (b, a) in
  new (zip_with N.lor (data a) (pad (len a) (data b))).
Definition bitxor (a b : BigUint) : BigUint :=
  let '(a, b) := if len b <? len a then (a, b) else (b, a) in
  new (zip_with N.lxor (data a) (pad (len a) (data b))).

(** * Multiplication *)
Definition mul_digit (a : BigUint) (n : N) : BigUint :=
  if (n =? 0)%N then zero else if (n =? 1)%N then a
  else new (push_carry (map_carry (λ carry ai, from_uint (uadd (umul ai n) carry)) 0 (data a))).
Definition cut_at (a : BigUint) (n : nat) : BigUint * BigUint :=
  let mid := len a `min` n in (from_slice (drop mid (data a)), from_slice (take mid (data a))).
Definition sub_sign (a b : BigUint) : outcome (comparison * BigUint) :=
  match cmp a b with
  | Lt => d ← sub b a; Ok (Lt, d)
  | Gt => d ← sub a b; Ok (Gt, d)
  | Eq => Ok (Eq, zero)
  end.

(** Karatsuba multiplication; the fuel is the depth of the recursion. *)
Fixpoint mul_rec (depth : nat) (a b : BigUint) : outcome BigUint :=
  match depth with
  | 0 => Fail OutOfFuel
  | S depth =>
      if is_zero a || is_zero b then Ok zero
      else
        let s_len := len a in
        let o_len := len b in
        if s_len =? 1 then n ← vec_get (data a) 0; Ok (mul_digit b n)
        else if o_len =? 1 then n ← vec_get (data b) 0; Ok (mul_digit a n)
        else
          let half_len := Nat.div (s_len `max` o_len) 2 in
          let '(s_hi, s_lo) := cut_at a half_len in
          let '(o_hi, o_lo) := cut_at b half_len in
          ll ← mul_rec depth s_lo o_lo;
          hh ← mul_rec depth s_hi o_hi;
          '(s1, n1) ← sub_sign s_hi s_lo;
          '(s2, n2) ← sub_sign o_hi o_lo;
          mm ← match s1, s2 with
               | Eq, _ | _, Eq => Ok (add hh ll)
               | Lt, Gt | Gt, Lt => p ← mul_rec depth n1 n2; Ok (add (add hh ll) p)
               | Lt, Lt | Gt, Gt => p ← mul_rec depth n1 n2; sub (add hh ll) p
               end;
          Ok (add (add ll (shl_unit mm (N.of_nat half_len))) (shl_unit hh (N.of_nat (half_len * 2))))
  end.
Definition mul (a b : BigUint) : outcome BigUint := mul_rec (S (len a `max` len b)) a b.

(** * Division *)
(** The digits of [an] from the most significant one, divided by one digit. *)
Fixpoint div_digits (bn : N) (an_rev : list N) (carry : N) : outcome (list N) :=
  match an_rev with
  | [] => Ok []
  | elt :: an_rev =>
      let ai := to_uint carry elt in
      if (bn =? 0)%N then Fail ExplicitFail else
      let di := (ai / bn)%N in
      _ ← assert_ (di <? base)%N;
      cons (cast di) <$> div_digits bn an_rev (cast (ai mod bn))
  end.

(** The estimate of the quotient from the leading [n] digits of [a], the unit by
    which it is lowered, and [b] times that unit. *)
Definition div_estimate (a b : BigUint) (n : nat) : outcome (BigUint * BigUint * BigUint) :=
  if len a <? n then Ok (zero, zero, a)
  else
    let an := drop (len a - n) (data a) in
    bn ← unwrap (last (data b));
    d ← div_digits bn (List.rev an) 0;
    let d := List.rev d in
    let shift := usub (usub (N.of_nat (len a)) (N.of_nat (length an))) (usub (N.of_nat (len b)) 1) in
    if (shift =? 0)%N then Ok (new d, one, b)
    else Ok (shl_unit (new d) shift, shl_unit one shift, shl_unit b shift).

(** [while prod > m] *)
Fixpoint lower (fuel : nat) (m d_unit b_unit d0 prod : BigUint) : outcome (BigUint * BigUint) :=
  match fuel with
  | 0 => Fail OutOfFuel
  | S fuel =>
      if lt m prod then
        d0 ← sub d0 d_unit;
        prod ← sub prod b_unit;
        lower fuel m d_unit b_unit d0 prod
      else Ok (d0, prod)
  end.

(** [while m >= b]; the estimate is at most four units too large. *)
Fixpoint div_mod_floor_inner (fuel : nat) (b m d : BigUint) (n : nat) : outcome (BigUint * BigUint) :=
  match fuel with
  | 0 => Fail OutOfFuel
  | S fuel =>
      if negb (lt m b) then
        '(d0, d_unit, b_unit) ← div_estimate m b n;
        prod ← mul b d0;
        '(d0, prod) ← lower 8 m d_unit b_unit d0 prod;
        if is_zero d0 then div_mod_floor_inner fuel b m d 2
        else
          m ← sub m prod;
          div_mod_floor_inner fuel b m (add d d0) 1
      else Ok (d, m)
  end.

(** [while n < (1 << BigDigit::bits - 2)] *)
Fixpoint normalize (fuel : nat) (n shift : N) : outcome N :=
  match fuel with
  | 0 => Fail OutOfFuel
  | S fuel =>
      if (n <? N.shiftl 1 (bits - 2))%N then normalize fuel (cast (N.shiftl n 1)) (uadd shift 1)
      else Ok shift
  end.

Definition div_mod_floor (a b : BigUint) : outcome (BigUint * BigUint) :=
  if is_zero b then Fail ExplicitFail
  else if is_zero a then Ok (zero, zero)
  else if eq b one then Ok (a, zero)
  else match cmp a b with
  | Lt => Ok (zero, a)
  | Eq => Ok (one, zero)
  | Gt =>
      n ← unwrap (last (data b));
      shift ← normalize 32 n 0;
      _ ← assert_ (shift <? bits)%N;
      '(d, m) ← (let a := shl a shift in div_mod_floor_inner (3 * len a + 3) (shl b shift) a zero 1);
      Ok (d, shr m shift)
  end.
Definition div_rem : BigUint → BigUint → outcome (BigUint * BigUint) := div_mod_floor.
Definition div_floor (a b : BigUint) : outcome BigUint := '(d, _) ← div_mod_floor a b; Ok d.
Definition mod_floor (a b : BigUint) : outcome BigUint := '(_, m) ← div_mod_floor a b; Ok m.
Definition div (a b : BigUint) : outcome BigUint := '(q, _) ← div_rem a b; Ok q.
Definition rem (a b : BigUint) : outcome BigUint := '(_, r) ← div_rem a b; Ok r.

(** Euclid's algorithm *)
Fixpoint gcd_loop (fuel : nat) (m n : BigUint) : outcome BigUint :=
  match fuel with
  | 0 => Fail OutOfFuel
  | S fuel => if is_zero m then Ok n else r ← rem n m; gcd_loop fuel r m
  end.
Definition gcd (a b : BigUint) : outcome BigUint := gcd_loop (32 * (len a + len b) + 2) a b.
Definition lcm (a b : BigUint) : outcome BigUint := p ← mul a b; g ← gcd a b; div p g.
Definition divides (a b : BigUint) : outcome bool := r ← rem a b; Ok (is_zero r).
Definition is_even (a : BigUint) : bool := match data a with x :: _ => (N.land x 1 =? 0)%N | [] => true end.
Definition is_odd (a : BigUint) : bool := negb (is_even a).

Definition neg (a : BigUint) : outcome BigUint := Fail ExplicitFail.
Definition checked_add (a b : BigUint) : option BigUint := Some (add a b).
Definition checked_sub (a b : BigUint) : outcome (option BigUint) :=
  if lt a b then Ok None else d ← sub a b; Ok (Some d).
Definition checked_mul (a b : BigUint) : outcome (option BigUint) := p ← mul a b; Ok (Some p).
Definition checked_div (a b : BigUint) : outcome (option BigUint) :=
  if is_zero b then Ok None else q ← div a b; Ok (Some q).

(** * Conversions *)
Definition to_u64 (a : BigUint) : option N :=
  match data a with
  | [] => Some 0%N
  | [n0] => Some n0
  | [n0; n1] => Some (to_uint n1 n0)
  | _ => None
  end.
Definition to_i64 (a : BigUint) : option Z :=
  n ← to_u64 a; if (N.shiftr n 63 =? 0)%N then Some (Z.of_N n) else None.
Definition from_u64 (n : N) : BigUint :=
  match from_uint n with
  | (0, 0)%N => zero
  | (0, n0)%N => new [n0]
  | (n1, n0) => new [n0; n1]
  end.
Definition from_i64 (n : Z) : option BigUint :=
  if (0 <? n)%Z then Some (from_u64 (Z.to_N n)) else if (n =? 0)%Z then Some zero else None.
(** The fewest bits that express the number: [leading_zeros] of its last digit. *)
Definition bits_ (a : BigUint) : outcome N :=
  if is_zero a then Ok 0%N
  else
    n ← unwrap (last (data a));
    Ok (usub (umul (N.of_nat (len a)) bits) (bits - N.size n)).

(** * Text *)
Definition get_radix_base (radix : N) : outcome (N * nat) :=
  _ ← assert_ ((1 <? radix)%N && (radix <=? 16)%N);
  match radix with
  | 2%N => Ok (4294967296%N, 32)
  | 3%N => Ok (3486784401%N, 20)
  | 4%N => Ok (4294967296%N, 16)
  | 5%N => Ok (1220703125%N, 13)
  | 6%N => Ok (2176782336%N, 12)
  | 7%N => Ok (1977326743%N, 11)
  | 8%N => Ok (1073741824%N, 10)
  | 9%N => Ok (3486784401%N, 10)
  | 10%N => Ok (1000000000%N, 9)
  | 11%N => Ok (2357947691%N, 9)
  | 12%N => Ok (429981696%N, 8)
  | 13%N => Ok (815730721%N, 8)
  | 14%N => Ok (1475789056%N, 8)
  | 15%N => Ok (2562890625%N, 8)
  | 16%N => Ok (4294967296%N, 8)
  | _ => Fail ExplicitFail
  end.

(** [while m >= divider]; the digits come out least significant first. *)
Fixpoint convert_base (fuel : nat) (m divider : BigUint) : outcome (list N) :=
  match fuel with
  | 0 => Fail OutOfFuel
  | S fuel =>
      if negb (lt m divider) then
        '(d, m0) ← div_mod_floor m divider;
        m0 ← unwrap (to_u64 m0);
        cons (cast m0) <$> convert_base fuel d divider
      else if negb (is_zero m) then m ← unwrap (to_u64 m); Ok [cast m]
      else Ok []
  end.

Fixpoint trim_left_chars (c : N) (s : list N) : list N :=
  match s with x :: s' => if (x =? c)%N then trim_left_chars c s' else s | [] => [] end.

Fixpoint fill (v_rev : list N) (radix : N) (l : nat) : outcome (list N) :=
  match v_rev with
  | [] => Ok []
  | n :: v_rev =>
      ss ← StrConv.to_str_radix n radix;
      rest ← fill v_rev radix l;
      Ok (replicate (N.to_nat (usub (N.of_nat l) (N.of_nat (length ss)))) 48%N ++ ss ++ rest)
  end.
Definition fill_concat (v : list N) (radix : N) (l : nat) : outcome (list N) :=
  match v with
  | [] => Ok [48%N]
  | _ => trim_left_chars 48 <$> fill (List.rev v) radix l
  end.
Definition to_str_radix (a : BigUint) (radix : N) : outcome (list N) :=
  _ ← assert_ ((1 <? radix)%N && (radix <=? 16)%N);
  '(base, max_len) ← get_radix_base radix;
  if (base =? BigDigit.base)%N then fill_concat (data a) radix max_len
  else v ← convert_base (32 * len a + 1) a (from_u64 base); fill_concat v radix max_len.

(** The text is read in units from its end; the fuel is the length of the text. *)
Fixpoint parse_loop (fuel : nat) (buf : list N) (radix : N) (unit_len end_ : nat) (base_num n power : BigUint)
    : outcome (option BigUint) :=
  match fuel with
  | 0 => Fail OutOfFuel
  | S fuel =>
      let start := end_ `max` unit_len - unit_len in
      d ← StrConv.parse_bytes (drop start (take end_ buf)) radix;
      match d with
      | Some d =>
          p ← mul (from_u64 d) power;
          let n := add n p in
          if end_ <=? unit_len then Ok (Some n)
          else power ← mul power base_num; parse_loop fuel buf radix unit_len (end_ - unit_len) base_num n power
      | None => Ok None
      end
  end.
Definition parse_bytes (buf : list N) (radix : N) : outcome (option BigUint) :=
  '(base, unit_len) ← get_radix_base radix;
  parse_loop (S (length buf)) buf radix unit_len (length buf) (from_u64 base) zero one.
End BigUint.
