(* ===== verification/BigUintSound.v ===== *)
(** Correctness of [BigUint]: its operations are those on the number that the
    digits stand for, and return normalized digits. *)
From stdpp Require Import prelude list.
From S2P Require Import Prelude StrConv BigUint.
Import BigDigit BigUint.

Local Open Scope N_scope.

(** * The number of a vector of digits *)
Fixpoint value (l : list N) : N := match l with [] => 0 | d :: l => d + base * value l end.
Definition val (a : BigUint) : N := value (data a).
Definition digits (l : list N) : Prop := Forall (λ d, d < base) l.
Record wf (a : BigUint) : Prop := { wf_digits : digits (data a); wf_last : last (data a) ≠ Some 0 }.

Definition B (n : nat) : N := base ^ N.of_nat n.

Lemma base_val : base = 4294967296.
Proof. done. Qed.
Lemma B_0 : B 0 = 1.
Proof. done. Qed.
Lemma B_S n : B (S n) = base * B n.
Proof. unfold B. by rewrite Nat2N.inj_succ, N.pow_succ_r'. Qed.
Lemma B_add n m : B (n + m) = B n * B m.
Proof. unfold B. by rewrite Nat2N.inj_add, N.pow_add_r. Qed.
Lemma B_pos n : 0 < B n.
Proof. unfold B. apply N.neq_0_lt_0, N.pow_nonzero. done. Qed.
Lemma B_le n m : (n ≤ m)%nat → B n ≤ B m.
Proof. intros H. unfold B. apply N.pow_le_mono_r; [done|lia]. Qed.

Opaque base.

Lemma value_app l k : value (l ++ k) = value l + B (length l) * value k.
Proof. induction l as [|x l IH]; cbn [app value length]; [rewrite B_0; lia|rewrite IH, B_S; lia]. Qed.
Lemma value_bound l : digits l → value l < B (length l).
Proof.
  induction 1 as [|x l Hx _ IH]; cbn [value length]; [rewrite B_0; lia|]. rewrite B_S.
  assert (value l + 1 ≤ B (length l)) by lia. nia.
Qed.
Lemma value_zeros n : value (replicate n 0) = 0.
Proof. induction n as [|n IH]; cbn; [done|]. rewrite IH. lia. Qed.

Lemma digits_app l k : digits (l ++ k) ↔ digits l ∧ digits k.
Proof. apply Forall_app. Qed.
Lemma digits_cons x l : digits (x :: l) ↔ x < base ∧ digits l.
Proof. apply (Forall_cons (λ d, d < base)). Qed.
Lemma digits_zeros n : digits (replicate n 0).
Proof. apply Forall_replicate. rewrite base_val. lia. Qed.

(** A vector from its last digit. *)
Lemma value_snoc l x : value (l ++ [x]) = value l + B (length l) * x.
Proof. rewrite value_app. cbn. lia. Qed.

(** * Splitting machine words *)
Lemma shiftr_base n : N.shiftr n bits = n / base.
Proof. by rewrite N.shiftr_div_pow2. Qed.
Lemma from_uint_spec n : n < 2 ^ 64 → from_uint n = (n / base, n mod base).
Proof.
  intros Hn. unfold from_uint, get_hi, get_lo, cast. rewrite shiftr_base. f_equal.
  - apply N.mod_small. rewrite base_val in *. apply N.Div0.div_lt_upper_bound. lia.
  - replace (N.land n lo_mask) with (n mod base); [apply N.Div0.mod_mod|].
    change lo_mask with (N.ones 32). by rewrite N.land_ones.
Qed.
Lemma from_uint_eq n : n < 2 ^ 64 → ∃ hi lo, from_uint n = (hi, lo) ∧ lo + base * hi = n ∧ lo < base ∧ hi < base.
Proof.
  intros Hn. exists (n / base), (n mod base). rewrite from_uint_spec by done.
  pose proof (N.div_mod n base). pose proof (N.mod_lt n base). rewrite base_val in *.
  split_and!; [done|lia..|]. apply N.Div0.div_lt_upper_bound. lia.
Qed.

(** Disjoint bits add up. *)
Lemma lor_shift_add a c n : c < 2 ^ n → N.lor (N.shiftl a n) c = a * 2 ^ n + c.
Proof.
  intros Hc. rewrite <- N.shiftl_mul_pow2. symmetry.
  assert (N.land (N.shiftl a n) c = 0) as H0.
  { apply N.bits_inj. intros i. rewrite N.land_spec, N.bits_0. destruct (N.lt_ge_cases i n).
    - by rewrite N.shiftl_spec_low.
    - destruct (N.eq_dec c 0) as [->|Hz]; [by rewrite N.bits_0, andb_false_r|].
      rewrite (N.bits_above_log2 c), andb_false_r; [done|]. apply N.log2_lt_pow2 in Hc; lia. }
  rewrite (N.add_nocarry_lxor _ _ H0). by apply N.lxor_lor.
Qed.
Lemma to_uint_spec hi lo : hi < base → lo < base → to_uint hi lo = lo + base * hi.
Proof.
  intros Hh Hl. unfold to_uint. rewrite N.mod_small.
  - rewrite N.lor_comm, lor_shift_add by (by rewrite base_val in Hl). rewrite base_val. change (2 ^ bits) with 4294967296. lia.
  - rewrite N.shiftl_mul_pow2. change (2 ^ bits) with base. rewrite base_val in *. unfold UINT_BITS. lia.
Qed.

(** * Normalized vectors *)
Lemma new_value v : value (data (new v)) = value v.
Proof.
  unfold new; cbn. induction v as [|x v IH]; [done|]. cbn [rposition].
  destruct (rposition _ v) as [p|] eqn:E.
  - cbn [firstn value]. by rewrite IH.
  - change (0 = value v) in IH. destruct (N.eqb_spec x 0) as [->|Hx];
      [change (0 = 0 + base * value v)|change (x + base * 0 = x + base * value v)]; rewrite <- IH; lia.
Qed.
Lemma rposition_Some {A} (f : A → bool) l p : rposition f l = Some p → ∃ x, l !! p = Some x ∧ f x = true.
Proof.
  revert p. induction l as [|x l IH]; intros p; cbn; [done|].
  destruct (rposition f l) as [q|] eqn:E; [intros [= <-]; by apply IH|].
  destruct (f x) eqn:Hf; [intros [= <-]; eauto|done].
Qed.
Lemma new_normal v : digits v → wf (new v).
Proof.
  intros Hv. split; unfold new; cbn.
  - by apply Forall_take.
  - destruct (rposition _ v) as [p|] eqn:E; [|done]. apply rposition_Some in E as (x & Hx & Hnz).
    rewrite (take_S_r _ _ _ Hx), last_snoc. intros [= ->]. done.
Qed.
Lemma new_len v : (len (new v) ≤ length v)%nat.
Proof. unfold len, new; cbn. rewrite length_take. lia. Qed.
Lemma new_val v : val (new v) = value v.
Proof. apply new_value. Qed.

Lemma wf_zero : wf zero ∧ val zero = 0.
Proof. split; [by apply new_normal, Forall_nil_2|done]. Qed.
Lemma wf_one : wf one ∧ val one = 1.
Proof. split; [apply new_normal; constructor; [by rewrite base_val|constructor]|unfold one; rewrite new_val; cbn; lia]. Qed.

(** A number that is not zero has a last digit. *)
Lemma wf_top a : wf a → data a ≠ [] → ∃ l t, data a = l ++ [t] ∧ 0 < t < base ∧ digits l ∧
  value l < B (length l) ∧ val a = value l + B (length l) * t ∧ len a = S (length l).
Proof.
  intros [Hd Hl] Hn. destruct (data a) as [|x l] eqn:E using rev_ind; [done|]. clear IHl.
  rewrite last_snoc in Hl. unfold val, len. rewrite E in *. apply digits_app in Hd as [Hd [Hx _]%digits_cons].
  exists l, x. rewrite value_snoc, length_app. cbn. assert (x ≠ 0) by congruence. split_and!; try done; try lia. by apply value_bound.
Qed.
Lemma wf_low a : wf a → data a ≠ [] → B (len a - 1) ≤ val a.
Proof.
  intros Ha Hn. destruct (wf_top a Ha Hn) as (l & t & _ & Ht & _ & _ & -> & ->).
  replace (S (length l) - 1)%nat with (length l) by lia. nia.
Qed.
Lemma wf_high a : wf a → val a < B (len a).
Proof. intros Ha. apply value_bound, Ha. Qed.
Lemma is_zero_spec a : wf a → is_zero a = (val a =? 0).
Proof.
  intros Ha. unfold is_zero. destruct (data a) eqn:E; [unfold val; by rewrite E|]. symmetry. apply N.eqb_neq.
  pose proof (wf_low a Ha). pose proof (B_pos (len a - 1)). rewrite E in *. specialize (H ltac:(done)). lia.
Qed.
Lemma len_le a k : wf a → val a < B k → (len a ≤ k)%nat.
Proof.
  intros Ha Hk. destruct (data a) eqn:E; [unfold len; rewrite E; cbn; lia|].
  pose proof (wf_low a Ha) as H. rewrite E in H. specialize (H ltac:(done)).
  destruct (Nat.le_gt_cases (len a) k); [done|]. pose proof (B_le k (len a - 1)). lia.
Qed.

(** * Comparison *)
Lemma cmp_digits_spec l k : length l = length k → digits l → digits k →
  cmp_digits (zip (List.rev l) (List.rev k)) = (value l ?= value k).
Proof.
  revert k. induction l as [|x l IH] using rev_ind; intros k Hlen Hl Hk.
  { by destruct k. }
  destruct k as [|y k _] using rev_ind; [rewrite length_app in Hlen; cbn in Hlen; lia|].
  rewrite !length_app in Hlen; cbn in Hlen. assert (length l = length k) as Hlk by lia.
  apply digits_app in Hl as [Hl _], Hk as [Hk _]. rewrite !rev_app_distr. cbn. rewrite (IH k Hlk Hl Hk), !value_snoc, Hlk.
  pose proof (value_bound _ Hl). pose proof (value_bound _ Hk). rewrite Hlk in *.
  destruct (N.ltb_spec x y); [|destruct (N.ltb_spec y x)]; symmetry.
  - apply N.compare_lt_iff. nia.
  - apply N.compare_gt_iff. nia.
  - assert (x = y) as -> by lia. destruct (N.compare_spec (value l) (value k)) as [->| |];
      [apply N.compare_refl|apply N.compare_lt_iff; lia|apply N.compare_gt_iff; lia].
Qed.
Lemma cmp_spec a b : wf a → wf b → cmp a b = (val a ?= val b).
Proof.
  intros Ha Hb. unfold cmp.
  assert (∀ x y, wf x → wf y → (len x < len y)%nat → val x < val y) as Hlt.
  { intros x y Hx Hy Hxy. pose proof (wf_high x Hx). assert (data y ≠ []) as Hn by (unfold len in Hxy; destruct (data y); cbn in *; lia || done).
    pose proof (wf_low y Hy Hn). pose proof (B_le (len x) (len y - 1)). lia. }
  destruct (Nat.ltb_spec (len a) (len b)); [symmetry; apply N.compare_lt_iff; auto|].
  destruct (Nat.ltb_spec (len b) (len a)); [symmetry; apply N.compare_gt_iff; auto|].
  apply cmp_digits_spec; [unfold len in *; lia|apply Ha|apply Hb].
Qed.
Lemma lt_spec a b : wf a → wf b → lt a b = (val a <? val b).
Proof. intros Ha Hb. unfold lt. rewrite cmp_spec by done. by destruct (N.compare_spec (val a) (val b)); symmetry; [apply N.ltb_ge; lia|apply N.ltb_lt|apply N.ltb_ge; lia]. Qed.
Lemma eq_spec a b : wf a → wf b → eq a b = (val a =? val b).
Proof. intros Ha Hb. unfold eq. rewrite cmp_spec by done. by destruct (N.compare_spec (val a) (val b)); symmetry; [apply N.eqb_eq|apply N.eqb_neq; lia..]. Qed.

(** The digits of a number are unique. *)
Lemma value_inj l k : digits l → digits k → length l = length k → value l = value k → l = k.
Proof.
  revert k. induction l as [|x l IH]; intros [|y k]; cbn [value length]; intros Hl Hk Hlen Hv; try done.
  apply digits_cons in Hl as [? Hl], Hk as [? Hk].
  destruct (N.div_mod_unique base (value l) (value k) x y) as [Hv' ->]; [done|done|lia|]. f_equal. apply IH; auto.
Qed.
Lemma val_inj a b : wf a → wf b → val a = val b → a = b.
Proof.
  intros Ha Hb Hv. assert (cmp a b = Eq) as Hc by (rewrite cmp_spec, Hv by done; apply N.compare_refl).
  unfold cmp in Hc. destruct (Nat.ltb_spec (len a) (len b)); [done|]. destruct (Nat.ltb_spec (len b) (len a)); [done|].
  destruct a as [l], b as [k]. f_equal. apply value_inj; [apply Ha|apply Hb|unfold len in *; cbn in *; lia|done].
Qed.

(** * Loops with a carry *)
Section carry.
Context {A : Type} (f : N → A → N * N) (w : A → N) (C : N → Prop).

Lemma map_carry_spec l c : C c →
  (∀ c x, C c → x ∈ l → ∃ hi lo, f c x = (hi, lo) ∧ C hi ∧ lo < base ∧ lo + base * hi = w x + c) →
  ∃ r c', map_carry f c l = (r, c') ∧ C c' ∧ digits r ∧ length r = length l ∧
    value r + B (length l) * c' = value (w <$> l) + c.
Proof.
  revert c. induction l as [|x l IH]; intros c Hc Hf.
  { exists [], c. split_and!; try done; [constructor|]. cbn. rewrite B_0. lia. }
  destruct (Hf c x Hc) as (hi & lo & E & Hhi & Hlo & Hv); [left|].
  destruct (IH hi Hhi) as (r & c' & Er & Hc' & Hr & Hlen & Hv'); [intros; apply Hf; [done|by right]|].
  exists (lo :: r), c'. cbn [map_carry]. rewrite E, Er. split_and!; [done|done| |cbn; by rewrite Hlen|].
  - by apply digits_cons.
  - cbn [length value fmap list_fmap]. rewrite B_S. nia.
Qed.

(** ... and with a borrow. *)
Lemma map_borrow_spec (v : A → N) l c : C c →
  (∀ c x, C c → x ∈ l → ∃ hi lo, f c x = (hi, lo) ∧ C hi ∧ lo < base ∧ lo + v x + c = w x + base * hi) →
  ∃ r c', map_carry f c l = (r, c') ∧ C c' ∧ digits r ∧ length r = length l ∧
    value r + value (v <$> l) + c = value (w <$> l) + B (length l) * c'.
Proof.
  revert c. induction l as [|x l IH]; intros c Hc Hf.
  { exists [], c. split_and!; try done; [constructor|]. cbn. rewrite B_0. lia. }
  destruct (Hf c x Hc) as (hi & lo & E & Hhi & Hlo & Hv); [left|].
  destruct (IH hi Hhi) as (r & c' & Er & Hc' & Hr & Hlen & Hv'); [intros; apply Hf; [done|by right]|].
  exists (lo :: r), c'. cbn [map_carry]. rewrite E, Er. split_and!; [done|done| |cbn; by rewrite Hlen|].
  - by apply digits_cons.
  - cbn [length value fmap list_fmap]. rewrite B_S. nia.
Qed.
End carry.

Lemma push_carry_spec r c : digits r → c < base →
  digits (push_carry (r, c)) ∧ value (push_carry (r, c)) = value r + B (length r) * c.
Proof.
  intros Hr Hc. unfold push_carry; cbn [fst snd]. destruct (N.eqb_spec c 0) as [->|Hz]; [split; [done|lia]|].
  rewrite value_snoc. split; [|done]. by apply digits_app; repeat split; [|apply digits_cons; repeat split; [|constructor]].
Qed.

Lemma pad_spec n l : (length l ≤ n)%nat → length (pad n l) = n ∧ value (pad n l) = value l ∧ (digits l → digits (pad n l)).
Proof.
  intros Hn. unfold pad. rewrite take_app_ge, take_replicate by lia.
  rewrite length_app, length_replicate, value_app, value_zeros. split_and!; [lia|lia|].
  intros Hl. apply digits_app. split; [done|apply digits_zeros].
Qed.

Lemma zip_fst (l k : list N) : length l = length k → fst <$> zip l k = l.
Proof. intros H. apply fst_zip. lia. Qed.
Lemma zip_snd (l k : list N) : length l = length k → snd <$> zip l k = k.
Proof. intros H. apply snd_zip. lia. Qed.
Lemma value_sum {A} (f g : A → N) l : value ((λ x, f x + g x) <$> l) = value (f <$> l) + value (g <$> l).
Proof. induction l as [|x l IH]; cbn [fmap list_fmap value]; [done|]. rewrite IH. lia. Qed.
Lemma value_scale {A} (f : A → N) n l : value ((λ x, f x * n) <$> l) = value (f <$> l) * n.
Proof. induction l as [|x l IH]; cbn [fmap list_fmap value]; [done|]. rewrite IH. lia. Qed.

Lemma elem_of_zip_digits l k p : digits l → digits k → p ∈ zip l k → p.1 < base ∧ p.2 < base.
Proof.
  intros Hl Hk Hp. destruct p as [x y]. apply elem_of_zip_l in Hp as Hx. apply elem_of_zip_r in Hp as Hy.
  split; [by apply (proj1 (Forall_forall (λ d, d < base) l) Hl)|by apply (proj1 (Forall_forall (λ d, d < base) k) Hk)].
Qed.

(** * Addition and subtraction *)
Lemma add_spec a b : wf a → wf b → wf (add a b) ∧ val (add a b) = val a + val b.
Proof.
  intros Ha Hb. unfold add.
  cut (∀ a b, wf a → wf b → (len b ≤ len a)%nat →
    let r := push_carry (map_carry (λ carry '(ai, bi), from_uint (uadd (uadd ai bi) carry)) 0 (zip (data a) (pad (len a) (data b)))) in
    digits r ∧ value r = val a + val b).
  { intros H. destruct (Nat.ltb_spec (len b) (len a)).
    - destruct (H a b) as [? Hv]; [done|done|lia|]. rewrite new_val, Hv. split; [by apply new_normal|lia].
    - destruct (H b a) as [? Hv]; [done|done|lia|]. rewrite new_val, Hv. split; [by apply new_normal|lia]. }
  clear. intros a b Ha Hb Hlen. destruct (pad_spec (len a) (data b) Hlen) as (Hpl & Hpv & Hpd). specialize (Hpd (wf_digits b Hb)).
  edestruct (map_carry_spec (λ carry '(ai, bi), from_uint (uadd (uadd ai bi) carry)) (λ p, p.1 + p.2) (λ c, c ≤ 1)
    (zip (data a) (pad (len a) (data b))) 0) as (r & c & -> & Hc & Hr & Hrl & Hv); [lia| |].
  { intros c [x y] Hc Hx. apply elem_of_zip_digits in Hx as [Hx Hy]; [|apply Ha|done]. cbn in *. rewrite base_val in *.
    rewrite (uadd_small x y), uadd_small by (unfold UINT_MAX, UINT_BITS; lia).
    destruct (from_uint_eq (x + y + c)) as (hi & lo & -> & Hv & Hlo & Hhi); [lia|]. rewrite base_val in *.
    exists hi, lo. split_and!; try done; lia. }
  rewrite (value_sum fst snd), zip_fst, zip_snd in Hv by (unfold len in *; lia).
  rewrite length_zip_with_l_eq in Hv, Hrl by (unfold len in *; lia).
  cbv zeta. destruct (push_carry_spec r c) as [Hd Hpc]; [done|rewrite base_val; lia|]. split; [done|].
  rewrite Hpc, Hrl. unfold val. lia.
Qed.

Lemma sub_loop a b : wf a → wf b → let n := (len a `max` len b)%nat in
  ∃ diff borrow, map_carry (λ borrow '(ai, bi),
      let '(hi, lo) := from_uint (usub (usub (uadd base ai) bi) borrow) in
      (if hi =? 0 then 1 else 0, lo)) 0 (zip (pad n (data a)) (pad n (data b))) = (diff, borrow) ∧
    borrow ≤ 1 ∧ digits diff ∧ length diff = n ∧ value diff + val b = val a + B n * borrow.
Proof.
  intros Ha Hb n. destruct (pad_spec n (data a)) as (Hal & Hav & Had); [unfold n, len; lia|].
  destruct (pad_spec n (data b)) as (Hbl & Hbv & Hbd); [unfold n, len; lia|].
  specialize (Had (wf_digits a Ha)). specialize (Hbd (wf_digits b Hb)).
  edestruct (map_borrow_spec (λ borrow '(ai, bi),
      let '(hi, lo) := from_uint (usub (usub (uadd base ai) bi) borrow) in
      (if hi =? 0 then 1 else 0, lo)) fst (λ c, c ≤ 1) snd (zip (pad n (data a)) (pad n (data b))) 0)
    as (r & c & -> & Hc & Hr & Hrl & Hv); [lia| |].
  { intros c [x y] Hc Hx. apply elem_of_zip_digits in Hx as [Hx Hy]; [|done..]. cbn [fst snd] in *. rewrite base_val in *.
    assert (usub (usub (uadd 4294967296 x) y) c = 4294967296 + x - y - c) as ->.
    { rewrite uadd_small, (usub_small _ y), usub_small; unfold UINT_MAX, UINT_BITS; lia. }
    destruct (from_uint_eq (4294967296 + x - y - c)) as (hi & lo & -> & Hv & Hlo & Hhi); [lia|]. rewrite base_val in *.
    eexists _, lo. split; [reflexivity|]. destruct (N.eqb_spec hi 0) as [->|]; split_and!; try done; lia. }
  rewrite zip_fst, zip_snd in Hv by lia. rewrite length_zip_with_l_eq, Hal in Hv, Hrl by lia.
  exists r, c. split_and!; try done. unfold val. lia.
Qed.

Lemma sub_spec a b : wf a → wf b → val b ≤ val a → ∃ d, sub a b = Ok d ∧ wf d ∧ val d = val a - val b.
Proof.
  intros Ha Hb Hle. unfold sub. destruct (sub_loop a b Ha Hb) as (r & c & -> & Hc & Hr & Hrl & Hv).
  pose proof (value_bound _ Hr). rewrite Hrl in *. assert (c = 0) as -> by nia.
  exists (new r). rewrite new_val. split_and!; [done|by apply new_normal|lia].
Qed.
Lemma sub_fails a b : wf a → wf b → val a < val b → sub a b = Fail AssertFailed.
Proof.
  intros Ha Hb Hlt. unfold sub. destruct (sub_loop a b Ha Hb) as (r & c & -> & Hc & Hr & Hrl & Hv).
  by assert (c = 1) as -> by nia.
Qed.

(** * Multiplication by a digit, shifts *)
Lemma digits_elem l x : digits l → x ∈ l → x < base.
Proof. intros Hl. by apply (proj1 (Forall_forall (λ d, d < base) l) Hl). Qed.

Lemma mul_digit_spec a n : wf a → n < base → wf (mul_digit a n) ∧ val (mul_digit a n) = val a * n.
Proof.
  intros Ha Hn. unfold mul_digit. destruct (N.eqb_spec n 0) as [->|]; [destruct wf_zero as [? ->]; split; [done|lia]|].
  destruct (N.eqb_spec n 1) as [->|]; [split; [done|lia]|]. rewrite new_val.
  edestruct (map_carry_spec (λ carry ai, from_uint (uadd (umul ai n) carry)) (λ x, x * n) (λ c, c < base) (data a) 0)
    as (r & c & -> & Hc & Hr & Hrl & Hv); [rewrite base_val; lia| |].
  { intros c x Hc Hx%digits_elem; [|apply Ha]. rewrite base_val in *. unfold umul.
    rewrite N.mod_small, uadd_small by (unfold UINT_MAX, UINT_BITS; nia).
    destruct (from_uint_eq (x * n + c)) as (hi & lo & -> & Hv & Hlo & Hhi); [nia|]. exists hi, lo. by rewrite base_val in *. }
  destruct (push_carry_spec r c Hr Hc) as [Hd Hpv]. split; [by apply new_normal|].
  rewrite Hpv, Hrl. pose proof (value_scale (λ x : N, x) n (data a)) as Hs. rewrite list_fmap_id in Hs. unfold val. lia.
Qed.

Lemma shl_unit_spec a n : wf a → wf (shl_unit a n) ∧ val (shl_unit a n) = val a * base ^ n.
Proof.
  intros Ha. unfold shl_unit. destruct (N.eqb_spec n 0) as [->|]; cbn [orb]; [split; [done|rewrite N.pow_0_r; lia]|].
  rewrite is_zero_spec by done. destruct (N.eqb_spec (val a) 0) as [->|]; [done|]. rewrite new_val, value_app, value_zeros, length_replicate.
  split; [apply new_normal, digits_app; split; [apply digits_zeros|apply Ha]|]. unfold B, val. rewrite N2Nat.id. lia.
Qed.

Lemma shl_bits_spec a n : wf a → n < bits → wf (shl_bits a n) ∧ val (shl_bits a n) = val a * 2 ^ n.
Proof.
  intros Ha Hn. unfold shl_bits. destruct (N.eqb_spec n 0) as [->|]; cbn [orb]; [split; [done|rewrite N.pow_0_r; lia]|].
  rewrite is_zero_spec by done. destruct (N.eqb_spec (val a) 0) as [->|]; [done|]. rewrite new_val.
  assert (2 ^ n ≤ 2 ^ 31) as Hp by (apply N.pow_le_mono_r; [done|unfold bits in Hn; lia]).
  edestruct (map_carry_spec (λ carry elem, from_uint (N.lor (N.shiftl elem n mod 2 ^ UINT_BITS) carry)) (λ x, x * 2 ^ n) (λ c, c < 2 ^ n) (data a) 0)
    as (r & c & -> & Hc & Hr & Hrl & Hv); [pose proof (N.pow_nonzero 2 n); lia| |].
  { intros c x Hc Hx%digits_elem; [|apply Ha]. rewrite base_val in *.
    rewrite N.mod_small by (rewrite N.shiftl_mul_pow2; unfold UINT_BITS; nia). rewrite lor_shift_add by done.
    destruct (from_uint_eq (x * 2 ^ n + c)) as (hi & lo & -> & Hv & Hlo & Hhi); [nia|]. rewrite base_val in *.
    exists hi, lo. split_and!; try done. nia. }
  destruct (push_carry_spec r c Hr) as [Hd Hpv]; [rewrite base_val; lia|]. split; [by apply new_normal|].
  rewrite Hpv, Hrl. pose proof (value_scale (λ x : N, x) (2 ^ n) (data a)) as Hs. rewrite list_fmap_id in Hs. unfold val. lia.
Qed.
Lemma shl_spec a n : wf a → wf (shl a n) ∧ val (shl a n) = val a * 2 ^ n.
Proof.
  intros Ha. unfold shl. destruct (shl_unit_spec a (n / bits) Ha) as [Hu Hv].
  destruct (shl_bits_spec (shl_unit a (n / bits)) (n mod bits) Hu) as [Hw ->]; [by apply N.mod_lt|]. split; [done|].
  rewrite Hv. change base with (2 ^ bits). rewrite <- N.pow_mul_r, <- N.mul_assoc, <- N.pow_add_r, <- N.div_mod by done. done.
Qed.

Lemma base_split n : n < bits → base = 2 ^ n * 2 ^ (bits - n).
Proof. intros Hn. rewrite <- N.pow_add_r. replace (n + (bits - n)) with bits by lia. done. Qed.

Lemma shr_loop n l q : n < bits → digits l → q < 2 ^ n →
  let r := (map_carry (λ borrow elem,
     (cast (N.shiftl elem (usub bits n)), N.lor (N.shiftr elem n) borrow)) (q * 2 ^ (bits - n)) (List.rev l)).1 in
  digits r ∧ length r = length l ∧ value (List.rev r) = (value l + B (length l) * q) / 2 ^ n.
Proof.
  intros Hn. pose proof (base_split n Hn) as Hb. pose proof (N.pow_nonzero 2 n ltac:(done)) as Hp.
  pose proof (N.pow_nonzero 2 (bits - n) ltac:(done)) as Hp'.
  assert (usub bits n = bits - n) as -> by (apply usub_small; [lia|done]).
  revert q. induction l as [|x l IH] using rev_ind; intros q Hl Hq.
  { cbn. split_and!; [constructor|done|]. rewrite B_0, N.mul_1_l, N.div_small; done. }
  apply digits_app in Hl as [Hl [Hx _]%digits_cons]. rewrite rev_app_distr. cbn [List.rev app map_carry].
  pose proof (N.div_mod x (2 ^ n) Hp) as Hxe. pose proof (N.mod_lt x (2 ^ n) Hp) as Hxm.
  assert (cast (N.shiftl x (bits - n)) = x mod 2 ^ n * 2 ^ (bits - n)) as ->.
  { unfold cast. rewrite N.shiftl_mul_pow2, Hb. by rewrite N.Div0.mul_mod_distr_r. }
  assert (N.lor (N.shiftr x n) (q * 2 ^ (bits - n)) = x / 2 ^ n + q * 2 ^ (bits - n)) as ->.
  { rewrite N.shiftr_div_pow2, <- N.shiftl_mul_pow2, N.lor_comm, lor_shift_add.
    - rewrite N.shiftl_mul_pow2. lia.
    - apply N.Div0.div_lt_upper_bound. lia. }
  specialize (IH (x mod 2 ^ n) Hl Hxm). cbv zeta in IH |- *. destruct (map_carry _ _ (List.rev l)) as [r c]. cbn [fst] in *.
  destruct IH as (Hr & Hlen & Hv). split_and!.
  - apply digits_cons. split; [|done]. assert (x / 2 ^ n < 2 ^ (bits - n)) by (apply N.Div0.div_lt_upper_bound; lia). nia.
  - rewrite length_app. cbn. lia.
  - cbn [List.rev]. rewrite value_snoc, Hv, length_rev, Hlen, value_snoc, length_app. cbn [length]. rewrite Nat.add_1_r, B_S.
    rewrite <- N.div_add by done. f_equal. clear -Hxe Hb.
    revert Hxe. generalize (x mod 2 ^ n) (x / 2 ^ n). intros xm xd ->. rewrite Hb. ring.
Qed.
Lemma shr_bits_spec a n : wf a → n < bits → wf (shr_bits a n) ∧ val (shr_bits a n) = val a / 2 ^ n.
Proof.
  intros Ha Hn. unfold shr_bits. destruct (N.eqb_spec n 0) as [->|]; cbn [orb]; [split; [done|by rewrite N.pow_0_r, N.div_1_r]|].
  rewrite is_zero_spec by done. destruct (N.eqb_spec (val a) 0) as [->|]; [by rewrite N.Div0.div_0_l|].
  destruct (shr_loop n (data a) 0) as (Hd & _ & Hv); [done|apply Ha|pose proof (N.pow_nonzero 2 n); lia|].
  rewrite new_val. rewrite N.mul_0_l in Hd, Hv. rewrite Hv, N.mul_0_r, N.add_0_r. split; [|done]. by apply new_normal, Forall_rev.
Qed.

Lemma value_drop l n : digits l → value (drop n l) = value l / B n.
Proof.
  intros Hl. destruct (Nat.le_gt_cases (length l) n) as [Hn|Hn].
  - rewrite drop_ge by done. symmetry. apply N.div_small. pose proof (value_bound l Hl). pose proof (B_le _ _ Hn). cbn; lia.
  - rewrite <- (take_drop n l) at 2. rewrite value_app, length_take, Nat.min_l by lia.
    pose proof (value_bound (take n l) (Forall_take _ _ _ Hl)) as Hb. rewrite length_take, Nat.min_l in Hb by lia.
    rewrite N.mul_comm, N.div_add by lia. rewrite N.div_small by done. lia.
Qed.
Lemma shr_unit_spec a n : wf a → wf (shr_unit a n) ∧ val (shr_unit a n) = val a / base ^ n.
Proof.
  intros Ha. unfold shr_unit. destruct (N.eqb_spec n 0) as [->|]; [split; [done|by rewrite N.pow_0_r, N.div_1_r]|].
  replace (base ^ n) with (B (N.to_nat n)) by (unfold B; by rewrite N2Nat.id). unfold val. rewrite <- value_drop by apply Ha.
  destruct (N.ltb_spec (N.of_nat (len a)) n).
  - split; [apply wf_zero|]. rewrite drop_ge by (unfold len in *; lia). done.
  - unfold from_slice. rewrite new_value. split; [|done]. by apply new_normal, Forall_drop, Ha.
Qed.
Lemma shr_spec a n : wf a → wf (shr a n) ∧ val (shr a n) = val a / 2 ^ n.
Proof.
  intros Ha. unfold shr. destruct (shr_unit_spec a (n / bits) Ha) as [Hu Hv].
  destruct (shr_bits_spec (shr_unit a (n / bits)) (n mod bits) Hu) as [Hw ->]; [by apply N.mod_lt|]. split; [done|].
  rewrite Hv. change base with (2 ^ bits). rewrite <- N.pow_mul_r, N.Div0.div_div, <- N.pow_add_r, <- N.div_mod by done. done.
Qed.

(** * Bitwise operations *)
Section bitwise.
Context (f : N → N → N) (g : bool → bool → bool).
Hypothesis (Hfg : ∀ a b i, N.testbit (f a b) i = g (N.testbit a i) (N.testbit b i)) (Hg : g false false = false).

Lemma split_bits x v i : x < base → N.testbit (x + base * v) i = if i <? bits then N.testbit x i else N.testbit v (i - bits).
Proof.
  intros Hx. rewrite N.add_comm, N.mul_comm. change base with (2 ^ bits) in *. rewrite <- lor_shift_add by done.
  rewrite N.lor_spec. destruct (N.ltb_spec i bits).
  - by rewrite N.shiftl_spec_low.
  - rewrite N.shiftl_spec_high', (N.bits_above_log2 x), orb_false_r; [done| |done].
    destruct (N.eq_dec x 0) as [->|]; [unfold bits in *; cbn; lia|]. apply N.log2_lt_pow2 in Hx; lia.
Qed.
Lemma digit_bits x y : x < base → y < base → f x y < base.
Proof.
  intros Hx Hy. change base with (2 ^ bits) in *. destruct (N.lt_ge_cases (f x y) (2 ^ bits)) as [|Hge]; [done|].
  assert (f x y ≠ 0) as Hz by (intros E; rewrite E in Hge; pose proof (N.pow_nonzero 2 bits); lia).
  pose proof (N.bit_log2 _ Hz) as Hb. rewrite Hfg in Hb. assert (bits ≤ N.log2 (f x y)) by (apply N.log2_le_pow2; lia).
  assert (∀ z, z < 2 ^ bits → N.testbit z (N.log2 (f x y)) = false) as H0.
  { intros z Hzb. destruct (N.eq_dec z 0) as [->|]; [apply N.bits_0|]. apply N.bits_above_log2. apply N.log2_lt_pow2 in Hzb; lia. }
  rewrite !H0, Hg in Hb by done. done.
Qed.
Lemma value_zip_with l k : digits l → digits k → length l = length k →
  digits (zip_with f l k) ∧ value (zip_with f l k) = f (value l) (value k).
Proof.
  intros Hl. revert k. induction l as [|x l IH]; intros [|y k] Hk Hlen; cbn [zip_with value length] in *; try done.
  - split; [constructor|]. apply N.bits_inj. intros i. by rewrite Hfg, N.bits_0, Hg.
  - apply digits_cons in Hl as [Hx Hl], Hk as [Hy Hk]. destruct (IH Hl k Hk) as [Hd Hv]; [lia|].
    pose proof (digit_bits x y Hx Hy) as Hf. split; [by apply digits_cons|]. rewrite Hv.
    apply N.bits_inj. intros i. rewrite Hfg, !split_bits by done. case_match; by rewrite Hfg.
Qed.
End bitwise.

Lemma bitand_spec a b : wf a → wf b → wf (bitand a b) ∧ val (bitand a b) = N.land (val a) (val b).
Proof.
  intros Ha Hb. unfold bitand, val at 1. rewrite new_value.
  cut (∀ l k, digits l → digits k → digits (zip_with N.land l k) ∧ value (zip_with N.land l k) = N.land (value l) (value k)).
  { intros H. destruct (H (data a) (data b)) as [? ->]; [apply Ha|apply Hb|]. split; [by apply new_normal|done]. }
  induction l as [|x l IH]; intros [|y k] Hl Hk; cbn [zip_with value]; try (split; [by constructor|by rewrite ?N.land_0_r]).
  apply digits_cons in Hl as [Hx Hl], Hk as [Hy Hk]. destruct (IH k Hl Hk) as [Hd ->].
  pose proof (digit_bits N.land andb N.land_spec eq_refl x y Hx Hy). split; [by apply digits_cons|].
  apply N.bits_inj. intros i. rewrite N.land_spec, !split_bits by done. case_match; by rewrite N.land_spec.
Qed.

Lemma bit_op_spec f g a b : (∀ a b i, N.testbit (f a b) i = g (N.testbit a i) (N.testbit b i)) → g false false = false →
  (∀ x y, f x y = f y x) → wf a → wf b →
  let r := let '(a, b) := if (len b <? len a)%nat then (a, b) else (b, a) in new (zip_with f (data a) (pad (len a) (data b))) in
  wf r ∧ val r = f (val a) (val b).
Proof.
  intros Hfg Hg Hf Ha Hb.
  cut (∀ a b, wf a → wf b → (len b ≤ len a)%nat →
    wf (new (zip_with f (data a) (pad (len a) (data b)))) ∧ val (new (zip_with f (data a) (pad (len a) (data b)))) = f (val a) (val b)).
  { intros H. destruct (Nat.ltb_spec (len b) (len a)); [apply H; [done|done|lia]|]. rewrite Hf. apply H; done. }
  clear -Hfg Hg. intros a b Ha Hb Hlen. destruct (pad_spec (len a) (data b) Hlen) as (Hpl & Hpv & Hpd).
  destruct (value_zip_with f g Hfg Hg (data a) (pad (len a) (data b))) as [Hd Hv]; [apply Ha|apply Hpd, Hb|done|].
  split; [by apply new_normal|]. by rewrite new_val, Hv, Hpv.
Qed.
Lemma bitor_spec a b : wf a → wf b → wf (bitor a b) ∧ val (bitor a b) = N.lor (val a) (val b).
Proof. intros Ha Hb. apply (bit_op_spec N.lor orb); try done; [apply N.lor_spec|apply N.lor_comm]. Qed.
Lemma bitxor_spec a b : wf a → wf b → wf (bitxor a b) ∧ val (bitxor a b) = N.lxor (val a) (val b).
Proof. intros Ha Hb. apply (bit_op_spec N.lxor xorb); try done; [apply N.lxor_spec|apply N.lxor_comm]. Qed.

(** * Multiplication *)
Lemma cut_at_spec a n : wf a → let '(hi, lo) := cut_at a n in
  wf hi ∧ wf lo ∧ val a = val lo + B n * val hi ∧ (len hi ≤ len a - n)%nat ∧ (len lo ≤ n)%nat.
Proof.
  intros Ha. unfold cut_at, from_slice. set (mid := (len a `min` n)%nat).
  pose proof (new_len (drop mid (data a))) as H1. pose proof (new_len (take mid (data a))) as H2.
  rewrite length_drop in H1. rewrite length_take in H2. rewrite !new_val. unfold len in *. split_and!.
  - by apply new_normal, Forall_drop, Ha.
  - by apply new_normal, Forall_take, Ha.
  - unfold val. rewrite <- (take_drop mid (data a)) at 1. rewrite value_app, length_take. subst mid.
    destruct (Nat.le_gt_cases (length (data a)) n).
    + rewrite !drop_ge by lia. cbn [value]. lia.
    + replace ((length (data a) `min` n) `min` length (data a))%nat with n by lia. done.
  - lia.
  - lia.
Qed.

Lemma sub_sign_spec a b : wf a → wf b → ∃ s n, sub_sign a b = Ok (s, n) ∧ wf n ∧ s = (val a ?= val b) ∧
  (len n ≤ len a `max` len b)%nat ∧
  match s with Eq => val a = val b | Lt => val a + val n = val b | Gt => val b + val n = val a end.
Proof.
  intros Ha Hb. unfold sub_sign. rewrite cmp_spec by done.
  assert (∀ n, wf n → val n ≤ val a ∨ val n ≤ val b → (len n ≤ len a `max` len b)%nat) as Hlen.
  { intros n Hn Hv. apply len_le; [done|]. pose proof (wf_high a Ha). pose proof (wf_high b Hb).
    pose proof (B_le (len a) (len a `max` len b)). pose proof (B_le (len b) (len a `max` len b)). lia. }
  destruct (N.compare_spec (val a) (val b)) as [Hc|Hc|Hc].
  - exists Eq, zero. destruct wf_zero as [? Hz]. split_and!; try done. apply Hlen; [done|]. rewrite Hz. lia.
  - destruct (sub_spec b a) as (d & -> & Hd & Hv); [done..|lia|]. exists Lt, d. split_and!; try done; [apply Hlen; [done|lia]|lia].
  - destruct (sub_spec a b) as (d & -> & Hd & Hv); [done..|lia|]. exists Gt, d. split_and!; try done; [apply Hlen; [done|lia]|lia].
Qed.

(** The middle term of the product of two numbers that are cut in halves. *)
Lemma karatsuba hh ll n1 n2 a1 a0 b1 b0 depth :
  wf hh → wf ll → val hh = a1 * b1 → val ll = a0 * b0 → wf n1 → wf n2 →
  match a1 ?= a0 with Eq => a1 = a0 | Lt => a1 + val n1 = a0 | Gt => a0 + val n1 = a1 end →
  match b1 ?= b0 with Eq => b1 = b0 | Lt => b1 + val n2 = b0 | Gt => b0 + val n2 = b1 end →
  (∃ p, mul_rec depth n1 n2 = Ok p ∧ wf p ∧ val p = val n1 * val n2) →
  ∃ mm, match a1 ?= a0, b1 ?= b0 with
        | Eq, _ | _, Eq => Ok (add hh ll)
        | Lt, Gt | Gt, Lt => p ← mul_rec depth n1 n2; Ok (add (add hh ll) p)
        | Lt, Lt | Gt, Gt => p ← mul_rec depth n1 n2; sub (add hh ll) p
        end = Ok mm ∧ wf mm ∧ val mm = a1 * b0 + a0 * b1.
Proof.
  intros Hh Hl Vh Vl Hn1 Hn2 H1 H2 (p & Hp & Wp & Vp). destruct (add_spec hh ll Hh Hl) as [Wa Va].
  destruct (add_spec (add hh ll) p Wa Wp) as [Wap Vap].
  destruct (a1 ?= a0), (b1 ?= b0); rewrite ?Hp; cbn; subst.
  all: try (eexists; split; [reflexivity|]; split; [done|]; rewrite ?Vap, ?Va, ?Vp, Vh, Vl; lia).
  all: try (eexists; split; [reflexivity|]; split; [done|]; rewrite ?Vap, ?Va, ?Vp, Vh, Vl; nia).
  all: destruct (sub_spec (add hh ll) p Wa Wp) as (d & -> & Wd & Vd); [rewrite Va, Vp, Vh, Vl; nia|].
  all: exists d; split; [done|]; split; [done|]; rewrite Vd, Va, Vp, Vh, Vl; nia.
Qed.

Lemma mul_rec_spec depth a b : wf a → wf b → (len a `max` len b < depth)%nat →
  ∃ c, mul_rec depth a b = Ok c ∧ wf c ∧ val c = val a * val b.
Proof.
  revert a b. induction depth as [|depth IH]; intros a b Ha Hb Hd; [lia|]. cbn [mul_rec].
  rewrite !is_zero_spec by done.
  destruct (N.eqb_spec (val a) 0) as [->|Hza]; [exists zero; destruct wf_zero as [? ->]; split_and!; done|].
  destruct (N.eqb_spec (val b) 0) as [->|Hzb]; [exists zero; destruct wf_zero as [? ->]; rewrite N.mul_0_r; split_and!; done|]. cbn [orb].
  destruct (Nat.eqb_spec (len a) 1) as [La|La].
  { unfold len in La. destruct (data a) as [|x [|]] eqn:E; try done. cbn. assert (x < base) as Hx.
    { apply (digits_elem (data a)); [apply Ha|]. rewrite E. left. }
    destruct (mul_digit_spec b x Hb Hx) as [? Hv]. eexists. split_and!; [done..|]. rewrite Hv. unfold val at 2. rewrite E. cbn [value]. lia. }
  destruct (Nat.eqb_spec (len b) 1) as [Lb|Lb].
  { unfold len in Lb. destruct (data b) as [|x [|]] eqn:E; try done. cbn. assert (x < base) as Hx.
    { apply (digits_elem (data b)); [apply Hb|]. rewrite E. left. }
    destruct (mul_digit_spec a x Ha Hx) as [? Hv]. eexists. split_and!; [done..|]. rewrite Hv. unfold val at 3. rewrite E. cbn [value]. lia. }
  assert (∀ x, wf x → val x ≠ 0 → (len x ≠ 0)%nat) as Hl0.
  { intros x Hx Hv E. pose proof (wf_high x Hx) as H. rewrite E, B_0 in H. lia. }
  pose proof (Hl0 a Ha Hza). pose proof (Hl0 b Hb Hzb). clear Hl0.
  set (half := Nat.div (len a `max` len b) 2).
  assert (1 ≤ half ∧ half < len a `max` len b ∧ len a `max` len b - half < len a `max` len b)%nat as (Hh1 & Hh2 & Hh3).
  { subst half. pose proof (Nat.div_mod_eq (len a `max` len b) 2). pose proof (Nat.mod_upper_bound (len a `max` len b) 2). lia. }
  pose proof (cut_at_spec a half Ha) as Hca. destruct (cut_at a half) as [s_hi s_lo]. destruct Hca as (Wsh & Wsl & Vs & Lsh & Lsl).
  pose proof (cut_at_spec b half Hb) as Hcb. destruct (cut_at b half) as [o_hi o_lo]. destruct Hcb as (Woh & Wol & Vo & Loh & Lol).
  destruct (IH s_lo o_lo) as (ll & -> & Wll & Vll); [done..|lia|]. destruct (IH s_hi o_hi) as (hh & -> & Whh & Vhh); [done..|lia|].
  destruct (sub_sign_spec s_hi s_lo) as (s1 & n1 & -> & Wn1 & -> & Ln1 & Vn1); [done..|].
  destruct (sub_sign_spec o_hi o_lo) as (s2 & n2 & -> & Wn2 & -> & Ln2 & Vn2); [done..|]. cbn [mbind outcome_bind].
  destruct (karatsuba hh ll n1 n2 (val s_hi) (val s_lo) (val o_hi) (val o_lo) depth) as (mm & -> & Wmm & Vmm); try done; [apply IH; [done..|lia]|].
  cbn [mbind outcome_bind]. eexists. split; [reflexivity|].
  destruct (shl_unit_spec mm (N.of_nat half) Wmm) as [W1 V1]. destruct (shl_unit_spec hh (N.of_nat (half * 2)) Whh) as [W2 V2].
  destruct (add_spec _ _ Wll W1) as [W3 V3]. destruct (add_spec _ _ W3 W2) as [W4 V4]. split; [done|].
  rewrite V4, V3, V1, V2, Vmm, Vll, Vhh, Vs, Vo. change (base ^ N.of_nat half) with (B half). change (base ^ N.of_nat (half * 2)) with (B (half * 2)).
  replace (half * 2)%nat with (half + half)%nat by lia. rewrite B_add. ring.
Qed.
Lemma mul_spec a b : wf a → wf b → ∃ c, mul a b = Ok c ∧ wf c ∧ val c = val a * val b.
Proof. intros Ha Hb. apply mul_rec_spec; [done..|lia]. Qed.
