(* ===== verification/BigUintDiv.v ===== *)
(** Division of [BigUint]: the quotient is estimated from leading digits, lowered
    until it fits and subtracted, until the rest is small.  The estimate is
    never too small and at most four units too large, and three rounds take at
    least one digit off the rest. *)
From stdpp Require Import prelude list.
From S2P Require Import Prelude StrConv BigUint BigUintSound.
Import BigDigit BigUint.

Local Open Scope N_scope.
#[local] Opaque base.

(** * Dividing by a digit *)
Lemma div_digits_spec bn l carry : 0 < bn < base → digits l → carry < bn →
  ∃ d, div_digits bn l carry = Ok d ∧ digits d ∧ length d = length l ∧
    value (List.rev d) = (carry * B (length l) + value (List.rev l)) / bn.
Proof.
  intros Hbn. revert carry. induction l as [|x l IH]; intros carry Hl Hc.
  { exists []. split_and!; [done|constructor|done|]. cbn. rewrite B_0, N.mul_1_r, N.add_0_r, N.div_small; done. }
  apply digits_cons in Hl as [Hx Hl]. cbn [div_digits]. rewrite to_uint_spec by lia.
  destruct (N.eqb_spec bn 0) as [|_]; [lia|]. set (ai := x + base * carry).
  pose proof (N.mod_lt ai bn) as Hm. specialize (Hm ltac:(lia)).
  assert (ai / bn < base) as Hd by (apply N.Div0.div_lt_upper_bound; subst ai; nia).
  unfold assert_. rewrite (proj2 (N.ltb_lt _ _) Hd). cbn [mbind outcome_bind].
  unfold cast. rewrite !N.mod_small by lia.
  destruct (IH (ai mod bn) Hl Hm) as (d & -> & Hdd & Hdl & Hdv). eexists. split; [reflexivity|]. split_and!.
  - by apply digits_cons.
  - cbn. lia.
  - cbn [List.rev]. rewrite !value_snoc, Hdv, !length_rev, Hdl. cbn [length]. rewrite B_S.
    rewrite N.add_comm, <- N.div_add_l by lia. f_equal.
    transitivity (B (length l) * (bn * (ai / bn) + ai mod bn) + value (List.rev l)); [ring|].
    rewrite <- N.div_mod by lia. subst ai. ring.
Qed.

(** * The estimate *)
(** The leading digits of a number. *)
Lemma top_digits a n : wf a → (1 ≤ n ≤ len a)%nat → let A := value (drop (len a - n) (data a)) in
  A = val a / B (len a - n) ∧ A < B n.
Proof.
  intros Ha Hn A. subst A. split; [apply value_drop, Ha|].
  pose proof (value_bound (drop (len a - n) (data a)) (Forall_drop _ _ _ (wf_digits a Ha))) as H.
  rewrite length_drop in H. unfold len in *. by replace (length (data a) - (length (data a) - n))%nat with n in H by lia.
Qed.

Lemma div_estimate_spec a b n l t : wf a → wf b → data b = l ++ [t] → 0 < t → (1 ≤ n ≤ len a)%nat → (length l ≤ len a - n)%nat →
  N.of_nat (len a) ≤ UINT_MAX →
  let u := B (len a - n - length l) in
  ∃ d0 d_unit b_unit, div_estimate a b n = Ok (d0, d_unit, b_unit) ∧ wf d0 ∧ wf d_unit ∧ wf b_unit ∧
    val d0 = val a / B (len a - n) / t * u ∧ val d_unit = u ∧ val b_unit = val b * u.
Proof.
  intros Ha Hb Eb Ht Hn Hl Hmax u. unfold div_estimate. destruct (Nat.ltb_spec (len a) n); [lia|].
  rewrite Eb, last_snoc. cbn [unwrap mbind outcome_bind].
  destruct (top_digits a n Ha Hn) as [HA _]. set (an := drop (len a - n) (data a)) in *.
  assert (t < base) as Htb by (apply (digits_elem (data b)); [apply Hb|rewrite Eb; apply elem_of_app; right; left]).
  assert (digits an) as Han by (apply Forall_drop, Ha).
  destruct (div_digits_spec t (List.rev an) 0) as (d & -> & Hd & Hdl & Hdv); [done|by apply Forall_rev|done|].
  cbn [mbind outcome_bind]. rewrite rev_involutive, N.mul_0_l, N.add_0_l, HA in Hdv.
  assert (length an = n) as -> by (subst an; rewrite length_drop; unfold len in *; lia).
  assert (len b = S (length l)) as -> by (unfold len; rewrite Eb, length_app; cbn; lia).
  rewrite (usub_small (N.of_nat (S _))), (usub_small (N.of_nat (len a))), usub_small by lia.
  replace (N.of_nat (len a) - N.of_nat n - (N.of_nat (S (length l)) - 1)) with (N.of_nat (len a - n - length l)) by lia.
  destruct (new_normal (List.rev d)) as [W1 W2]; [by apply Forall_rev|]. assert (wf (new (List.rev d))) as W by done. clear W1 W2.
  destruct wf_one as [Wo Vo]. destruct (N.eqb_spec (N.of_nat (len a - n - length l)) 0) as [E|E].
  - eexists _, _, _. split; [reflexivity|]. subst u. replace (len a - n - length l)%nat with 0%nat by lia. rewrite B_0, new_val, Hdv, Vo, !N.mul_1_r. done.
  - destruct (shl_unit_spec _ (N.of_nat (len a - n - length l)) W) as [Wd Vd].
    destruct (shl_unit_spec _ (N.of_nat (len a - n - length l)) Wo) as [Wu Vu].
    destruct (shl_unit_spec _ (N.of_nat (len a - n - length l)) Hb) as [Wb Vb].
    eexists _, _, _. split; [reflexivity|]. rewrite Vd, Vu, Vb, Vo, new_val, Hdv, N.mul_1_l. done.
Qed.

(** Lowering the estimate [e] gives the quotient [q] when it is not below it. *)
Lemma lower_spec fuel m b u d_unit b_unit d0 prod e q : wf m → wf d_unit → wf b_unit → wf d0 → wf prod →
  0 < b → 0 < u → val d_unit = u → val b_unit = b * u → val d0 = e * u → val prod = b * (e * u) →
  q = val m / (b * u) → q ≤ e → (N.to_nat (e - q) < fuel)%nat →
  ∃ d0' prod', lower fuel m d_unit b_unit d0 prod = Ok (d0', prod') ∧ wf d0' ∧ wf prod' ∧ val d0' = q * u ∧ val prod' = b * (q * u).
Proof.
  intros Hm Hdu Hbu Hd0 Hprod Hb Hu Vdu Vbu Vd0 Vprod Hq. revert e d0 prod Hd0 Hprod Vd0 Vprod.
  pose proof (N.div_mod (val m) (b * u) ltac:(lia)) as Hdm. pose proof (N.mod_lt (val m) (b * u) ltac:(lia)) as Hml. rewrite <- Hq in Hdm.
  revert Hdm Hml. generalize (val m mod (b * u)). clear Hq. intros rest Hdm Hml.
  induction fuel as [|fuel IH]; intros e d0 prod Hd0 Hprod Vd0 Vprod Hle Hfuel; [lia|]. cbn [lower].
  rewrite lt_spec by done. rewrite Vprod. destruct (N.eq_dec e q) as [->|Hne].
  - assert ((val m <? b * (q * u)) = false) as -> by (apply N.ltb_ge; replace (b * (q * u)) with (b * u * q) by ring; lia).
    eexists _, _. eauto 10.
  - assert ((val m <? b * (e * u)) = true) as ->.
    { apply N.ltb_lt. replace (b * (e * u)) with (b * u * e) by ring. assert (b * u * (q + 1) ≤ b * u * e) by (apply N.mul_le_mono_l; lia). lia. }
    destruct (sub_spec d0 d_unit) as (d1 & -> & Wd1 & Vd1); [done..|rewrite Vd0, Vdu; nia|]. cbn [mbind outcome_bind].
    destruct (sub_spec prod b_unit) as (p1 & -> & Wp1 & Vp1); [done..|rewrite Vprod, Vbu; nia|]. cbn [mbind outcome_bind].
    apply (IH (e - 1)); [done..| | |lia|lia].
    + rewrite Vd1, Vd0, Vdu. nia.
    + rewrite Vp1, Vprod, Vbu. nia.
Qed.

(** * The loop *)
Section division.
Context (b : BigUint) (l : list N) (t : N).
Hypothesis (Hb : wf b) (Eb : data b = l ++ [t]) (Ht : 2 ^ 30 ≤ t).

Lemma top_digit : t < base.
Proof using Hb Eb. clear Ht. apply (digits_elem (data b)); [apply Hb|rewrite Eb; apply elem_of_app; right; left]. Qed.
Lemma divisor_low : B (length l) * t ≤ val b.
Proof using Eb. clear Hb Ht. unfold val. rewrite Eb, value_snoc. lia. Qed.
Lemma divisor_high : val b < B (length l) * (t + 1).
Proof using Hb Eb.
  clear Ht.
  pose proof (wf_digits b Hb) as Hd. rewrite Eb in Hd. apply digits_app in Hd as [Hd _]. apply value_bound in Hd.
  unfold val. rewrite Eb, value_snoc. lia.
Qed.
Lemma divisor_len : len b = S (length l).
Proof using Eb. clear Hb Ht. unfold len. rewrite Eb, length_app. cbn. lia. Qed.

Lemma divisor_lt : val b < B (S (length l)).
Proof. pose proof divisor_high. pose proof top_digit. pose proof (B_pos (length l)). rewrite B_S. nia. Qed.

(** The estimate is not below the quotient ... *)
Lemma estimate_ge m k j : j = (k + length l)%nat → m / (val b * B k) ≤ m / B j / t.
Proof.
  intros ->. rewrite N.Div0.div_div, B_add. apply N.div_le_compat_l. pose proof divisor_low. pose proof (B_pos k).
  pose proof (B_pos (length l)). nia.
Qed.
(** ... and close to it: from one digit it is at most 3, ... *)
Lemma estimate_small A : A < base → A / t ≤ 3.
Proof. intros HA. rewrite base_val in HA. enough (A / t < 4) by lia. apply N.Div0.div_lt_upper_bound. change (2 ^ 30) with 1073741824 in Ht. lia. Qed.
(** ... and from two digits at most four units too large. *)
Lemma estimate_close m k j : j = (k + length l)%nat → m / B j < (t + 1) * base → m / B j / t ≤ m / (val b * B k) + 4.
Proof.
  intros Hj HA. assert (m / B j / (t + 1) ≤ m / (val b * B k)) as Hq.
  { subst j. rewrite N.Div0.div_div, B_add. apply N.div_le_compat_l. pose proof divisor_high. pose proof divisor_low.
    pose proof (B_pos k). pose proof (B_pos (length l)). change (2 ^ 30) with 1073741824 in Ht. nia. }
  enough (m / B j / t ≤ m / B j / (t + 1) + 4) by lia. clear Hq. revert HA. generalize (m / B j). intros A HA.
  set (k' := A / (t + 1)). pose proof (N.div_mod A (t + 1) ltac:(lia)) as HE. pose proof (N.mod_lt A (t + 1) ltac:(lia)) as HM. fold k' in HE.
  assert (k' < base) as Hk by (apply N.Div0.div_lt_upper_bound; lia).
  enough (A / t < k' + 5) by lia. apply N.Div0.div_lt_upper_bound. rewrite base_val in Hk. change (2 ^ 30) with 1073741824 in Ht. nia.
Qed.

(** Rounds still needed: three for every digit of the rest. *)
Definition rank (m : BigUint) (n : nat) : nat :=
  3 * len m + (if (n =? 2)%nat then 0 else if val m <? val b * B (len m - len b) then 1 else 2).

Definition round_ok (m : BigUint) (n : nat) : Prop :=
  n = 1%nat ∨ n = 2%nat ∧ (len b < len m)%nat ∧ val m < val b * B (len m - len b).

(** One round subtracts the multiple of the unit that fits. *)
Lemma round m n : wf m → N.of_nat (len m) ≤ UINT_MAX → val b ≤ val m → round_ok m n →
  let u := B (len m - n - length l) in let q := val m / (val b * u) in
  ∃ e d_unit b_unit p d0 prod, div_estimate m b n = Ok (e, d_unit, b_unit) ∧ mul b e = Ok p ∧
    lower 8 m d_unit b_unit e p = Ok (d0, prod) ∧ wf d0 ∧ wf prod ∧ val d0 = q * u ∧ val prod = val b * (q * u).
Proof.
  intros Hm Hmax Hle Hr u q.
  assert (len b ≤ len m)%nat as Hlen.
  { destruct (Nat.le_gt_cases (len b) (len m)) as [|Hlt]; [done|]. pose proof (wf_high m Hm).
    pose proof (wf_low b Hb ltac:(rewrite Eb; by destruct l)). pose proof (B_le (len m) (len b - 1)). lia. }
  rewrite divisor_len in Hlen. assert (1 ≤ n ≤ len m ∧ length l ≤ len m - n)%nat as [Hn Hl].
  { destruct Hr as [->|(-> & H & _)]; [lia|rewrite divisor_len in H; lia]. }
  destruct (div_estimate_spec m b n l t Hm Hb Eb ltac:(lia) Hn Hl Hmax) as (d0 & du & bu & He & Wd & Wdu & Wbu & Vd & Vdu & Vbu).
  destruct (mul_spec b d0 Hb Wd) as (prod & Hp & Wp & Vp). exists d0, du, bu, prod.
  assert (len m - n = len m - n - length l + length l)%nat as Hj by lia.
  cut (∃ d0' prod', lower 8 m du bu d0 prod = Ok (d0', prod') ∧ wf d0' ∧ wf prod' ∧ val d0' = q * u ∧ val prod' = val b * (q * u)).
  { intros (d0' & prod' & ?). by exists d0', prod'. }
  eapply (lower_spec 8 m (val b) u du bu d0 prod _ q); try done.
  - pose proof divisor_low. pose proof (B_pos (length l)). nia.
  - apply B_pos.
  - by rewrite Vp, Vd.
  - by apply estimate_ge.
  - enough (val m / B (len m - n) / t ≤ q + 4) by lia. destruct (top_digits m n Hm Hn) as [HA HAb]. rewrite HA in HAb.
    destruct Hr as [->|(-> & Hlt & Hv)].
    + pose proof (estimate_small (val m / B (len m - 1))) as Hs. unfold B at 2 in HAb. cbn [N.of_nat] in HAb. rewrite N.pow_1_r in HAb. specialize (Hs HAb). lia.
    + apply estimate_close; [done|]. apply N.Div0.div_lt_upper_bound. rewrite divisor_len in Hv, Hlt.
      pose proof divisor_high. pose proof (B_pos (len m - S (length l))).
      eapply N.lt_le_trans; [exact Hv|]. transitivity (B (length l) * (t + 1) * B (len m - S (length l))); [apply N.mul_le_mono_r; lia|].
      replace (B (len m - 2) * ((t + 1) * base)) with (B (S (len m - 2)) * (t + 1)) by (rewrite B_S; ring).
      replace (B (length l) * (t + 1) * B (len m - S (length l))) with (B (length l + (len m - S (length l))) * (t + 1)) by (rewrite B_add; ring).
      replace (length l + (len m - S (length l)))%nat with (S (len m - 2)) by lia. lia.
Qed.

Lemma divisor_pos : 0 < val b.
Proof. pose proof divisor_low. pose proof (B_pos (length l)). nia. Qed.

(** What is left of a multiple of [b] divides as the whole. *)
Lemma div_rest m q u : q = m / (val b * u) → 0 < u → 
  m / val b = q * u + (m - val b * (q * u)) / val b ∧ m mod val b = (m - val b * (q * u)) mod val b ∧ m - val b * (q * u) = m mod (val b * u).
Proof.
  intros Hq Hu. pose proof divisor_pos as Hp. pose proof (N.div_mod m (val b * u) ltac:(lia)) as Hdm. rewrite <- Hq in Hdm.
  assert (val b * (q * u) = val b * u * q) as E by ring. 
  clear Hq. revert Hdm. generalize (m mod (val b * u)). intros rest Hdm. rewrite E.
  assert (m = (q * u) * val b + rest) as Hm by lia. assert (m - val b * u * q = rest) as -> by lia. split_and!.
  - rewrite Hm at 1. rewrite N.div_add_l by lia. done.
  - rewrite Hm at 1. rewrite N.add_comm, N.Div0.mod_add. done.
  - done.
Qed.

(** In a round on two digits the quotient is not zero and takes a digit off. *)
Lemma unit_two m : (len b < len m)%nat → val b * B (len m - 2 - length l) < B (len m - 1).
Proof.
  rewrite divisor_len. intros Hlt. pose proof divisor_lt. pose proof (B_pos (len m - 2 - length l)).
  replace (len m - 1)%nat with (S (length l) + (len m - 2 - length l))%nat by lia. rewrite B_add. nia.
Qed.
Lemma round_two m : wf m → round_ok m 2 → 0 < val m / (val b * B (len m - 2 - length l)).
Proof.
  intros Hm [?|(_ & Hlt & _)]; [done|]. pose proof (unit_two m Hlt) as Hu. pose proof divisor_pos. pose proof (B_pos (len m - 2 - length l)).
  apply N.div_str_pos. split; [nia|]. pose proof (wf_low m Hm) as Hlow. specialize (Hlow ltac:(unfold len in Hlt; destruct (data m); cbn in *; [lia|done])). lia.
Qed.

(** A round that finds nothing to subtract goes on with two digits ... *)
Lemma rank_none m n : wf m → val b ≤ val m → round_ok m n → val m / (val b * B (len m - n - length l)) = 0 →
  round_ok m 2 ∧ (rank m 2 < rank m n)%nat.
Proof.
  intros Hm Hge Hr Hq. destruct Hr as [->|Hr]; [|destruct Hr as (-> & Hr); pose proof (round_two m Hm); unfold round_ok in *; naive_solver lia].
  pose proof divisor_pos. pose proof (B_pos (len m - 1 - length l)). apply N.div_small_iff in Hq; [|nia].
  assert (len m - 1 - length l = len m - len b)%nat as E by (rewrite divisor_len; lia). rewrite E in Hq.
  assert (len b < len m)%nat.
  { destruct (Nat.le_gt_cases (len m) (len b)) as [Hle|]; [|done]. replace (len m - len b)%nat with 0%nat in Hq by lia. rewrite B_0 in Hq. lia. }
  split; [right; by split_and!|]. unfold rank. cbn [Nat.eqb]. rewrite (proj2 (N.ltb_lt _ _) Hq). lia.
Qed.
(** ... and one that subtracts leaves less. *)
Lemma rank_some m m' n : wf m → wf m' → round_ok m n → let u := B (len m - n - length l) in
  val m / (val b * u) ≠ 0 → val m' = val m mod (val b * u) → (rank m' 1 < rank m n)%nat.
Proof.
  intros Hm Hm' Hr u Hq Hv. pose proof divisor_pos. pose proof (B_pos (len m - n - length l)) as Hu. fold u in Hu.
  assert (val m' < val b * u) as Hlt by (rewrite Hv; apply N.mod_lt; nia).
  assert (val m' ≤ val m) as Hle by (rewrite Hv; apply N.Div0.mod_le).
  assert (rank m' 1 ≤ 3 * len m' + 2)%nat as Hrank by (unfold rank; cbn [Nat.eqb]; case_match; lia).
  destruct Hr as [->|(-> & Hlt2 & _)].
  - assert (len m - 1 - length l = len m - len b)%nat as E by (rewrite divisor_len; lia). subst u. rewrite E in *.
    assert ((val m <? val b * B (len m - len b)) = false) as Hf.
    { apply N.ltb_ge. destruct (N.le_gt_cases (val b * B (len m - len b)) (val m)); [done|]. rewrite N.div_small in Hq by done. done. }
    assert (len m' ≤ len m)%nat as Hlen by (apply len_le; [done|]; pose proof (wf_high m Hm); lia).
    unfold rank in *. cbn [Nat.eqb] in *. rewrite Hf. destruct (Nat.eq_dec (len m') (len m)) as [El|]; [|lia].
    rewrite El. rewrite (proj2 (N.ltb_lt _ _) Hlt). lia.
  - pose proof (unit_two m Hlt2). fold u in H0. assert (len m' ≤ len m - 1)%nat by (apply len_le; [done|]; lia).
    unfold rank at 2. cbn [Nat.eqb]. lia.
Qed.

Lemma inner_spec fuel m d n : wf m → wf d → N.of_nat (len m) ≤ UINT_MAX → round_ok m n → (rank m n < fuel)%nat →
  ∃ d' m', div_mod_floor_inner fuel b m d n = Ok (d', m') ∧ wf d' ∧ wf m' ∧
    val d' = val d + val m / val b ∧ val m' = val m mod val b.
Proof.
  revert m d n. induction fuel as [|fuel IH]; intros m d n Hm Hd Hmax Hr Hfuel; [lia|]. cbn [div_mod_floor_inner].
  rewrite lt_spec by done. destruct (N.ltb_spec (val m) (val b)) as [Hlt|Hge]; cbn [negb].
  { exists d, m. rewrite N.div_small, N.mod_small, N.add_0_r by done. done. }
  destruct (round m n Hm Hmax Hge Hr) as (e & du & bu & p & d0 & prod & -> & Hp & Hlow & Wd0 & Wprod & Vd0 & Vprod).
  cbn [mbind outcome_bind]. rewrite Hp. cbn [mbind outcome_bind]. rewrite Hlow. cbn [mbind outcome_bind].
  set (u := B (len m - n - length l)) in *. set (q := val m / (val b * u)) in *.
  assert (0 < u) as Hu by apply B_pos. rewrite is_zero_spec, Vd0 by done.
  destruct (div_rest (val m) q u eq_refl Hu) as (Ediv & Emod & Erest).
  destruct (N.eqb_spec (q * u) 0) as [Hz|Hz].
  - assert (val m / (val b * u) = 0) as Hq0 by (fold q; nia).
    destruct (rank_none m n Hm Hge Hr Hq0) as [Hr2 Hrank]. by apply IH; [..|lia].
  - assert (val m / (val b * u) ≠ 0) as Hq0 by (fold q; nia).
    destruct (sub_spec m prod) as (m' & -> & Wm' & Vm'); [done..|rewrite Vprod; pose proof (N.Div0.mul_div_le (val m) (val b * u)); fold q in H; nia|].
    rewrite Vprod in Vm'. cbn [mbind outcome_bind]. destruct (add_spec d d0 Hd Wd0) as [Wa Va].
    assert (val m' = val m mod (val b * u)) as Vmod by (by rewrite Vm', Erest).
    destruct (IH m' (add d d0) 1%nat) as (d' & m'' & -> & Wd' & Wm'' & Vd' & Vm''); [done..| |by left| |].
    + assert (len m' ≤ len m)%nat; [|lia]. apply len_le; [done|]. pose proof (wf_high m Hm). rewrite Vm'. lia.
    + pose proof (rank_some m m' n Hm Wm' Hr Hq0 Vmod). lia.
    + exists d', m''. split_and!; [done..| |].
      * rewrite Vd', Va, Vd0, Vm', Ediv. lia.
      * by rewrite Vm'', Vm', Emod.
Qed.
End division.

(** * Normalization of the divisor *)
Lemma normalize_S fuel n s : normalize (S fuel) n s =
  if n <? 2 ^ 30 then normalize fuel (cast (N.shiftl n 1)) (uadd s 1) else Ok s.
Proof. done. Qed.
Lemma normalize_spec fuel n s : 0 < n < base → s + N.of_nat fuel < 2 ^ 32 → 2 ^ 30 ≤ n * 2 ^ N.of_nat fuel →
  ∃ k, normalize (S fuel) n s = Ok (s + k) ∧ 2 ^ 30 ≤ n * 2 ^ k ∧ (k = 0 ∨ n * 2 ^ k < 2 ^ 31) ∧ k ≤ N.of_nat fuel.
Proof.
  revert n s. induction fuel as [|fuel IH]; intros n s Hn Hs Hf.
  all: rewrite normalize_S; destruct (N.ltb_spec n (2 ^ 30)) as [Hlt|Hge].
  1: { rewrite N.pow_0_r in Hf. lia. }
  1, 3: exists 0; rewrite N.add_0_r, N.pow_0_r, N.mul_1_r; split_and!; try done; try (by left); lia.
  assert (cast (N.shiftl n 1) = 2 * n) as ->.
  { unfold cast. rewrite N.shiftl_mul_pow2, N.pow_1_r, N.mod_small by (rewrite base_val; change (2 ^ 30) with 1073741824 in *; lia). lia. }
  rewrite uadd_small by (clear -Hs; unfold UINT_MAX; change (2 ^ 32) with 4294967296 in Hs; lia). rewrite Nat2N.inj_succ, N.pow_succ_r' in Hf.
  destruct (IH (2 * n) (s + 1)) as (k & Hk & Hk1 & Hk2 & Hk3); [change (2 ^ 30) with 1073741824 in *; rewrite base_val; lia|lia|lia|].
  exists (k + 1). rewrite Hk, (N.add_1_r k), N.pow_succ_r'. split_and!; [f_equal; lia|lia| |lia].
  right. destruct Hk2 as [->|]; [|lia]. rewrite N.pow_0_r. change (2 ^ 31) with (2 * 2 ^ 30). lia.
Qed.

(** The shifted divisor has as many digits, and a leading one that is large. *)
Lemma normalized b l t k : wf b → data b = l ++ [t] → 2 ^ 30 ≤ t * 2 ^ k → (k = 0 ∨ t * 2 ^ k < 2 ^ 31) →
  ∃ l' t', data (shl b k) = l' ++ [t'] ∧ 2 ^ 30 ≤ t'.
Proof.
  intros Hb Eb Hlow Hhigh. destruct (shl_spec b k Hb) as [Ws Vs].
  pose proof (divisor_low b l t Eb) as Hl. pose proof (divisor_high b l t Hb Eb) as Hh.
  pose proof (top_digit b l t Hb Eb) as Ht. pose proof (B_pos (length l)) as HB. change (2 ^ 30) with 1073741824 in *.
  assert (1073741824 * B (length l) ≤ val b * 2 ^ k) as Hlo.
  { transitivity (B (length l) * (t * 2 ^ k)); [nia|]. rewrite N.mul_assoc. apply N.mul_le_mono_r. exact Hl. }
  assert (data (shl b k) ≠ []) as Hn by (intros E; unfold val in Vs at 1; rewrite E in Vs; cbn [value] in Vs; lia).
  destruct (wf_top _ Ws Hn) as (l' & t' & E & Ht' & Hd & Hb' & Hv & Hlen). exists l', t'. split; [done|]. rewrite Vs in Hv.
  assert ((t + 1) * 2 ^ k ≤ base) as Htop.
  { destruct Hhigh as [->|Hh2]; [rewrite N.pow_0_r; lia|]. rewrite base_val. change (2 ^ 31) with 2147483648 in Hh2. assert (t ≠ 0) by nia. nia. }
  assert (val b * 2 ^ k < B (length l) * base) as Hup.
  { apply (N.lt_le_trans _ (B (length l) * (t + 1) * 2 ^ k)).
    - apply N.mul_lt_mono_pos_r; [pose proof (N.pow_nonzero 2 k); lia|done].
    - rewrite <- N.mul_assoc. by apply N.mul_le_mono_l. }
  assert (length l' = length l) as El.
  { destruct (Nat.lt_trichotomy (length l') (length l)) as [Hx|[Hx|Hx]]; [|done|].
    - pose proof (B_le (S (length l')) (length l) ltac:(lia)) as HBl. rewrite B_S in HBl. pose proof (B_pos (length l')). nia.
    - pose proof (B_le (S (length l)) (length l') ltac:(lia)) as HBl. rewrite B_S in HBl. nia. }
  rewrite El in *. nia.
Qed.

(** The number of digits is a [uint]. *)
Definition fits (a : BigUint) : Prop := N.of_nat (len a) < UINT_MAX.

Lemma div_mod_floor_spec a b : wf a → wf b → fits a → val b ≠ 0 →
  ∃ q r, div_mod_floor a b = Ok (q, r) ∧ wf q ∧ wf r ∧ val q = val a / val b ∧ val r = val a mod val b.
Proof.
  intros Ha Hb Hfit Hz. unfold div_mod_floor. destruct wf_zero as [W0 V0], wf_one as [W1 V1].
  rewrite !is_zero_spec, eq_spec, V1 by done.
  rewrite (proj2 (N.eqb_neq _ _) Hz). destruct (N.eqb_spec (val a) 0) as [->|Hza].
  { exists zero, zero. rewrite N.Div0.div_0_l, N.Div0.mod_0_l. done. }
  destruct (N.eqb_spec (val b) 1) as [->|Hz1]; [exists a, zero; rewrite N.div_1_r, N.mod_1_r; done|].
  rewrite cmp_spec by done. destruct (N.compare_spec (val a) (val b)) as [->|Hlt|Hgt].
  { exists one, zero. rewrite N.div_same, N.Div0.mod_same by done. done. }
  { exists zero, a. rewrite N.div_small, N.mod_small by done. done. }
  assert (data b ≠ []) as Hn by (intros E; unfold val in Hz; by rewrite E in Hz).
  destruct (wf_top b Hb Hn) as (l & t & Eb & Ht & _). rewrite Eb, last_snoc. cbn [unwrap mbind outcome_bind].
  destruct (normalize_spec 31 t 0) as (k & -> & Hk1 & Hk2 & Hk3); [done|done|change (2 ^ N.of_nat 31) with 2147483648; change (2 ^ 30) with 1073741824; lia|].
  rewrite N.add_0_l. cbn [mbind outcome_bind]. change (N.of_nat 31) with 31 in Hk3. assert (k < bits) as Hkb by (unfold bits; lia).
  unfold assert_. rewrite (proj2 (N.ltb_lt _ _) Hkb). cbn [mbind outcome_bind]. cbv zeta.
  destruct (normalized b l t k Hb Eb Hk1 Hk2) as (l' & t' & Es & Ht'). destruct (shl_spec b k Hb) as [Wsb Vsb], (shl_spec a k Ha) as [Wsa Vsa].
  destruct (inner_spec (shl b k) l' t' Wsb Es Ht' (3 * len (shl a k) + 3) (shl a k) zero 1) as (q & r & -> & Wq & Wr & Vq & Vr); [done|done| |by left| |].
  - assert (len (shl a k) ≤ S (len a))%nat; [|unfold fits, UINT_MAX in *; lia]. apply len_le; [done|]. rewrite Vsa, B_S. pose proof (wf_high a Ha).
    assert (2 ^ k < base) by (change base with (2 ^ 32); apply N.pow_lt_mono_r; unfold bits in Hkb; lia). nia.
  - unfold rank. cbn [Nat.eqb]. case_match; lia.
  - cbn [mbind outcome_bind]. pose proof (N.pow_nonzero 2 k ltac:(done)) as Hp. destruct (shr_spec r k Wr) as [Wm Vm]. exists q, (shr r k). split_and!; [done..| |].
    + rewrite Vq, V0, Vsa, Vsb, N.add_0_l. by apply N.Div0.div_mul_cancel_r.
    + rewrite Vm, Vr, Vsa, Vsb, N.Div0.mul_mod_distr_r. by apply N.div_mul.
Qed.
Lemma div_mod_floor_zero a b : wf b → val b = 0 → div_mod_floor a b = Fail ExplicitFail.
Proof. intros Hb Hz. unfold div_mod_floor. by rewrite is_zero_spec, Hz. Qed.

Lemma rem_spec a b : wf a → wf b → fits a → val b ≠ 0 → ∃ r, rem a b = Ok r ∧ wf r ∧ val r = val a mod val b.
Proof.
  intros Ha Hb Hf Hz. unfold rem, div_rem. destruct (div_mod_floor_spec a b Ha Hb Hf Hz) as (q & r & -> & ? & ? & ? & ?). eauto.
Qed.
Lemma div_spec a b : wf a → wf b → fits a → val b ≠ 0 → ∃ q, div a b = Ok q ∧ wf q ∧ val q = val a / val b.
Proof.
  intros Ha Hb Hf Hz. unfold div, div_rem. destruct (div_mod_floor_spec a b Ha Hb Hf Hz) as (q & r & -> & ? & ? & ? & ?). eauto.
Qed.

(** * Greatest common divisors *)
Lemma fits_le a b : wf b → val b ≤ val a → wf a → fits a → fits b.
Proof.
  intros Hb Hle Ha Hf. unfold fits in *. assert (len b ≤ len a)%nat; [|lia]. apply len_le; [done|]. pose proof (wf_high a Ha). lia.
Qed.

Lemma gcd_loop_spec k m n : wf m → wf n → fits n → val m ≤ val n → val m * val n < 2 ^ N.of_nat k →
  ∃ g, gcd_loop (S k) m n = Ok g ∧ wf g ∧ val g = N.gcd (val m) (val n).
Proof.
  revert m n. induction k as [|k IH]; intros m n Hm Hn Hf Hle Hk.
  all: cbn [gcd_loop]; rewrite is_zero_spec by done; destruct (N.eqb_spec (val m) 0) as [->|Hz].
  1, 3: exists n; by rewrite N.gcd_0_l.
  - change (2 ^ N.of_nat 0) with 1 in Hk. nia.
  - destruct (rem_spec n m Hn Hm Hf Hz) as (r & -> & Wr & Vr). cbn [mbind outcome_bind].
    pose proof (N.mod_lt (val n) (val m) Hz) as Hlt. pose proof (N.div_mod (val n) (val m) Hz) as Hdm.
    assert (1 ≤ val n / val m) by (apply N.div_le_lower_bound; lia).
    assert (2 * val r ≤ val n) as Hhalf by (rewrite Vr; nia). rewrite Nat2N.inj_succ, N.pow_succ_r' in Hk.
    destruct (IH r m) as (g & Hg & Wg & Vg); [done..|by eapply (fits_le n m)|lia|nia|].
    exists g. cbn [gcd_loop] in Hg. rewrite Hg. split_and!; [done..|]. rewrite Vg, Vr. by rewrite N.Lcm0.gcd_mod, N.gcd_comm.
Qed.

Lemma B_two n : B n = 2 ^ (32 * N.of_nat n).
Proof. unfold B. rewrite N.pow_mul_r. done. Qed.

Lemma gcd_spec a b : wf a → wf b → fits a → fits b → ∃ g, gcd a b = Ok g ∧ wf g ∧ val g = N.gcd (val a) (val b).
Proof.
  intros Ha Hb Hfa Hfb. unfold gcd. pose proof (wf_high a Ha) as Hua. pose proof (wf_high b Hb) as Hub. rewrite B_two in Hua, Hub.
  set (k := (32 * (len a + len b))%nat). assert (val a * val b < 2 ^ N.of_nat k) as Hk.
  { replace (N.of_nat k) with (32 * N.of_nat (len a) + 32 * N.of_nat (len b)) by lia. rewrite N.pow_add_r. nia. }
  replace (k + 2)%nat with (S (S k)) by lia. destruct (N.le_gt_cases (val a) (val b)) as [Hle|Hgt].
  - apply (gcd_loop_spec (S k) a b); [done..|]. rewrite Nat2N.inj_succ, N.pow_succ_r'. lia.
  - set (f := S k). cbn [gcd_loop]. subst f. rewrite is_zero_spec by done. destruct (N.eqb_spec (val a) 0) as [?|Hz]; [lia|].
    destruct (rem_spec b a Hb Ha Hfb Hz) as (r & -> & Wr & Vr). cbn [mbind outcome_bind]. rewrite N.mod_small in Vr by done.
    destruct (gcd_loop_spec k r a) as (g & -> & Wg & Vg); [done..|lia|rewrite Vr; lia|]. exists g. by rewrite Vg, Vr, N.gcd_comm.
Qed.
Lemma lcm_spec a b : wf a → wf b → fits a → fits b → N.of_nat (len a + len b) < UINT_MAX → val a ≠ 0 ∨ val b ≠ 0 →
  ∃ m, lcm a b = Ok m ∧ wf m ∧ val m = N.lcm (val a) (val b).
Proof.
  intros Ha Hb Hfa Hfb Hf Hz. unfold lcm. destruct (mul_spec a b Ha Hb) as (p & -> & Wp & Vp). cbn [mbind outcome_bind].
  destruct (gcd_spec a b Ha Hb Hfa Hfb) as (g & -> & Wg & Vg). cbn [mbind outcome_bind].
  assert (N.gcd (val a) (val b) ≠ 0) as Hg by (intros E; apply N.gcd_eq_0 in E; lia).
  destruct (div_spec p g) as (q & -> & Wq & Vq); [done..| |by rewrite Vg|].
  - unfold fits. assert (len p ≤ len a + len b)%nat; [|lia]. apply len_le; [done|]. rewrite Vp, B_add.
    pose proof (wf_high a Ha). pose proof (wf_high b Hb). nia.
  - exists q. split_and!; [done..|]. rewrite Vq, Vp, Vg. unfold N.lcm. by rewrite N.Lcm0.divide_div_mul_exact by apply N.gcd_divide_r.
Qed.
Lemma divides_spec a b : wf a → wf b → fits a → val b ≠ 0 → divides a b = Ok (val a mod val b =? 0).
Proof.
  intros Ha Hb Hf Hz. unfold divides. destruct (rem_spec a b Ha Hb Hf Hz) as (r & -> & Wr & Vr). cbn [mbind outcome_bind]. by rewrite is_zero_spec, Vr.
Qed.
Lemma is_even_spec a : is_even a = N.even (val a).
Proof.
  unfold is_even, val. destruct (data a) as [|x l]; [done|]. cbn [value].
  rewrite N.even_add, N.even_mul. change (N.even base) with true. cbn [orb].
  replace (N.land x 1) with (x mod 2) by (symmetry; apply (N.land_ones x 1)). rewrite <- N.bit0_mod, N.bit0_odd, <- N.negb_even. by destruct (N.even x).
Qed.

(** * Conversions *)
Lemma to_u64_spec a : wf a → to_u64 a = if val a <? 2 ^ 64 then Some (val a) else None.
Proof.
  intros Ha. pose proof (wf_digits a Ha) as Hd. unfold to_u64. change (2 ^ 64) with (B 2).
  destruct (N.ltb_spec (val a) (B 2)) as [Hlt|Hge].
  - apply len_le in Hlt; [|done]. unfold len, val in *. destruct (data a) as [|x [|y [|]]]; cbn in Hlt; try lia; cbn [value].
    + done.
    + f_equal. lia.
    + apply digits_cons in Hd as [Hx [Hy _]%digits_cons]. rewrite to_uint_spec by done. f_equal. lia.
  - pose proof (wf_high a Ha) as Hh. unfold len, val in *. destruct (data a) as [|x [|y [|]]]; try done; exfalso.
    + pose proof (B_le 1 2 ltac:(lia)). cbn [length] in Hh. lia.
    + cbn [length] in Hh. lia.
Qed.
Lemma from_u64_spec n : n < 2 ^ 64 → wf (from_u64 n) ∧ val (from_u64 n) = n.
Proof.
  intros Hn. unfold from_u64. destruct (from_uint_eq n Hn) as (hi & lo & -> & Hv & Hlo & Hhi).
  assert (wf (new [lo; hi]) ∧ val (new [lo; hi]) = n) as H2.
  { rewrite new_val. split; [apply new_normal; repeat (apply digits_cons; split; [done|]); constructor|cbn [value]; lia]. }
  destruct hi as [|hi]; [|done]. assert (wf (new [lo]) ∧ val (new [lo]) = n) as H1.
  { rewrite new_val. split; [apply new_normal; apply digits_cons; split; [done|constructor]|cbn [value]; lia]. }
  destruct lo as [|lo]; [|done]. destruct wf_zero as [? ->]. split; [done|lia].
Qed.
Lemma bits_spec a : wf a → fits a → N.of_nat (len a) * 32 < 2 ^ 64 → bits_ a = Ok (N.size (val a)).
Proof.
  intros Ha Hf Hl. unfold bits_. rewrite is_zero_spec by done. destruct (N.eqb_spec (val a) 0) as [->|Hz]; [done|].
  assert (data a ≠ []) as Hn by (intros E; unfold val in Hz; by rewrite E in Hz).
  destruct (wf_top a Ha Hn) as (l & t & -> & Ht & _ & Hb & Hv & Hlen). rewrite last_snoc. cbn [unwrap mbind outcome_bind]. f_equal.
  rewrite !N.size_log2 by lia. rewrite Hv.
  assert (N.log2 t < 32) as Hlt by (apply N.log2_lt_pow2; rewrite base_val in Ht; change (2 ^ 32) with 4294967296; lia).
  assert (N.log2 (value l + B (length l) * t) = 32 * N.of_nat (length l) + N.log2 t) as ->.
  { pose proof (N.log2_spec t ltac:(lia)) as [Hlo Hhi]. rewrite N.pow_succ_r' in Hhi. pose proof (B_pos (length l)).
    apply N.log2_unique; [lia|]. rewrite N.pow_succ_r', !N.pow_add_r, <- B_two. nia. }
  unfold umul. change bits with 32. rewrite Hlen, N.mod_small by (unfold UINT_BITS; lia).
  rewrite usub_small by (unfold UINT_MAX; lia). lia.
Qed.
