(* ===== verification/BigUintText.v ===== *)
(** Numbers as text and back: what [StrConv] and the text functions of [BigUint]
    write stands for the number, and what they read is what the text stands
    for. *)
From stdpp Require Import prelude list.
From S2P Require Import Prelude StrConv BigUint BigUintSound BigUintDiv.
Import BigDigit BigUint.

Local Open Scope N_scope.
#[local] Opaque base.

(** * Texts *)
Definition is_char (c : N) : bool := StrConv.within 48 57 c || StrConv.within 97 122 c || StrConv.within 65 90 c.
Definition dig (c : N) : N :=
  if StrConv.within 48 57 c then c - 48 else if StrConv.within 97 122 c then c - 87 else c - 55.
(** A text of digits in a radix, and its number. *)
Definition valid (radix : N) (s : list N) : Prop := Forall (λ c, is_char c = true ∧ dig c < radix) s.
Definition tval_from (radix acc : N) (s : list N) : N := foldl (λ acc c, acc * radix + dig c) acc s.
Definition tval (radix : N) (s : list N) : N := tval_from radix 0 s.

Lemma tval_from_eq radix acc s : tval_from radix acc s = acc * radix ^ N.of_nat (length s) + tval radix s.
Proof.
  unfold tval, tval_from. revert acc. induction s as [|c s IH]; intros acc; cbn [foldl length]; [rewrite N.pow_0_r; lia|].
  rewrite IH, (IH (0 * radix + dig c)), Nat2N.inj_succ, N.pow_succ_r'. lia.
Qed.
Lemma tval_app radix s1 s2 : tval radix (s1 ++ s2) = tval radix s1 * radix ^ N.of_nat (length s2) + tval radix s2.
Proof. unfold tval, tval_from. rewrite foldl_app. apply tval_from_eq. Qed.
Lemma tval_cons radix c s : tval radix (c :: s) = dig c * radix ^ N.of_nat (length s) + tval radix s.
Proof. by rewrite <- tval_from_eq. Qed.
Lemma tval_bound radix s : 0 < radix → valid radix s → tval radix s < radix ^ N.of_nat (length s).
Proof.
  intros Hr. induction 1 as [|c s [_ Hc] _ IH]; [by rewrite N.pow_0_r|]. rewrite tval_cons. cbn [length].
  rewrite Nat2N.inj_succ, N.pow_succ_r'. nia.
Qed.
Lemma valid_app radix s1 s2 : valid radix (s1 ++ s2) ↔ valid radix s1 ∧ valid radix s2.
Proof. apply Forall_app. Qed.

(** * [uint] *)
Lemma to_digit_spec c radix : radix ≤ 36 → is_char c = true → dig c < radix → StrConv.to_digit c radix = Ok (Some (dig c)).
Proof.
  intros Hr Hc Hd. unfold StrConv.to_digit. destruct (N.ltb_spec 36 radix); [lia|].
  unfold is_char, dig in *.
  assert (∀ lo hi, StrConv.within lo hi c = true → lo ≤ c ≤ hi) as Hw.
  { intros lo hi [H1 H2]%andb_prop. apply N.leb_le in H1, H2. done. }
  destruct (StrConv.within 48 57 c) eqn:E1; [|destruct (StrConv.within 97 122 c) eqn:E2; [|cbn in Hc; rewrite Hc; rename Hc into E3]].
  all: match goal with H : StrConv.within _ _ _ = true |- _ => apply Hw in H end.
  all: rewrite ?uadd_small by (unfold UINT_MAX; lia); rewrite usub_small by (unfold UINT_MAX; lia).
  all: rewrite (proj2 (N.ltb_lt _ _)) by lia; do 2 f_equal; lia.
Qed.

Lemma from_digits_spec radix s acc : 2 ≤ radix ≤ 36 → valid radix s →
  acc * radix ^ N.of_nat (length s) + tval radix s < 2 ^ 64 →
  StrConv.from_digits radix s acc acc = Ok (Some (acc * radix ^ N.of_nat (length s) + tval radix s)).
Proof.
  intros Hr Hs. revert acc. induction Hs as [|c s [Hc Hd] _ IH]; intros acc Hlt.
  { cbn [StrConv.from_digits length]. rewrite N.pow_0_r. do 2 f_equal. unfold tval, tval_from. cbn. lia. }
  cbn [StrConv.from_digits]. rewrite to_digit_spec by (try done; lia). cbn [mbind outcome_bind].
  rewrite tval_cons in *. cbn [length] in *. rewrite Nat2N.inj_succ, N.pow_succ_r' in *.
  assert (0 < radix ^ N.of_nat (length s)) as Hp by (apply N.neq_0_lt_0, N.pow_nonzero; lia).
  assert (acc * radix + dig c < 2 ^ 64) as Hsm by nia. change (2 ^ 64) with 18446744073709551616 in *.
  unfold umul, UINT_BITS. change (2 ^ 64) with 18446744073709551616. rewrite N.mod_small by lia. rewrite uadd_small by (unfold UINT_MAX; lia).
  destruct (N.eqb_spec acc 0) as [->|Hz]; cbn [negb andb].
  2: destruct (N.leb_spec (acc * radix + dig c) acc); [nia|]; cbn [orb];
     rewrite usub_small by (unfold UINT_MAX; lia); rewrite N.add_sub, N.div_mul, N.eqb_refl by lia; cbn [negb].
  all: rewrite IH by lia; do 2 f_equal; lia.
Qed.

Lemma parse_bytes_digits c s radix : 2 ≤ radix ≤ 36 → c ≠ 43 → c ≠ 45 →
  StrConv.parse_bytes (c :: s) radix = StrConv.from_digits radix (c :: s) 0 0.
Proof.
  intros Hr H1 H2. unfold StrConv.parse_bytes. destruct (N.ltb_spec radix 2); [lia|]. destruct (N.ltb_spec 36 radix); [lia|]. cbn [orb].
  destruct c as [|p]; [done|]. do 6 (destruct p as [p|p|]; try done).
Qed.
Lemma uint_parse_spec radix s : 2 ≤ radix ≤ 36 → valid radix s → s ≠ [] → radix ^ N.of_nat (length s) ≤ 2 ^ 64 →
  StrConv.parse_bytes s radix = Ok (Some (tval radix s)).
Proof.
  intros Hr Hs Hn Hlen. pose proof (tval_bound radix s ltac:(lia) Hs) as Hb. destruct s as [|c s]; [done|].
  assert (is_char c = true) as Hc by (by inversion Hs as [|? ? []]).
  rewrite parse_bytes_digits; [|done|by intros ->..]. rewrite from_digits_spec; [f_equal; f_equal; lia|done|done|lia].
Qed.

Definition digit_char (i : N) : N := if i <=? 9 then 48 + i else 97 + (i - 10).
Lemma digit_char_spec i radix : i < radix → radix ≤ 36 → is_char (digit_char i) = true ∧ dig (digit_char i) = i.
Proof.
  intros Hi Hr. unfold digit_char, is_char, dig, StrConv.within. destruct (N.leb_spec i 9).
  - rewrite !(proj2 (N.leb_le _ _)) by lia. cbn. split; [done|lia].
  - rewrite (proj2 (N.leb_le 97 _)), (proj2 (N.leb_le _ 122)), (proj2 (N.leb_gt _ 57)) by lia. rewrite !andb_false_r. cbn [andb orb]. split; [done|lia].
Qed.
Lemma to_digits_spec room n radix : 2 ≤ radix ≤ 36 → (0 < room)%nat → n < radix ^ N.of_nat room →
  ∃ s, StrConv.to_digits room n radix = Ok s ∧ valid radix (List.rev s) ∧ tval radix (List.rev s) = n ∧
    (length s ≤ room)%nat ∧ (∀ l, (0 < l)%nat → n < radix ^ N.of_nat l → (length s ≤ l)%nat).
Proof.
  intros Hr. revert n. induction room as [|room IH]; intros n Hroom Hn; [lia|]. cbn [StrConv.to_digits].
  rewrite Nat2N.inj_succ, N.pow_succ_r' in Hn. set (i := n mod radix).
  pose proof (N.mod_lt n radix ltac:(lia)) as Hi. pose proof (N.div_mod n radix ltac:(lia)) as Hdm. fold i in Hi, Hdm.
  fold (digit_char i). destruct (digit_char_spec i radix Hi ltac:(lia)) as [Hc Hd].
  destruct (N.eqb_spec (n / radix) 0) as [Hz|Hz].
  - rewrite Hz in Hdm. exists [digit_char i]. split_and!; [done| | |cbn; lia|cbn; lia].
    + cbn. constructor; [|constructor]. rewrite Hd. done.
    + cbn [List.rev app]. rewrite tval_cons. cbn [length]. rewrite N.pow_0_r, Hd. unfold tval, tval_from; cbn. lia.
  - assert (n / radix < radix ^ N.of_nat room) as Hlt by (apply N.Div0.div_lt_upper_bound; lia).
    destruct room as [|room]; [rewrite N.pow_0_r in Hlt; by apply N.lt_1_r in Hlt|].
    destruct (IH (n / radix)) as (s & Hs & Hv & Ht & Hl & Hl'); [lia|done|]. rewrite Hs. eexists. split; [reflexivity|]. cbn [List.rev length]. split_and!.
    + apply valid_app. split; [done|]. constructor; [|constructor]. rewrite Hd. done.
    + rewrite tval_app, Ht, tval_cons. cbn [length]. rewrite N.pow_0_r, N.pow_1_r, Hd. unfold tval, tval_from; cbn. lia.
    + lia.
    + intros l Hl0 Hnl. destruct l as [|l]; [lia|]. rewrite Nat2N.inj_succ, N.pow_succ_r' in Hnl.
      assert (n / radix < radix ^ N.of_nat l) by (apply N.Div0.div_lt_upper_bound; lia).
      destruct l as [|l]; [rewrite N.pow_0_r in *; by apply N.lt_1_r in H|]. specialize (Hl' (S l)). lia.
Qed.
Lemma uint_to_str_spec n radix : 2 ≤ radix ≤ 36 → n < 2 ^ 64 →
  ∃ s, StrConv.to_str_radix n radix = Ok s ∧ valid radix s ∧ tval radix s = n ∧ (∀ l, (0 < l)%nat → n < radix ^ N.of_nat l → (length s ≤ l)%nat).
Proof.
  intros Hr Hn. unfold StrConv.to_str_radix, assert_. rewrite (proj2 (N.leb_le 2 _)), (proj2 (N.leb_le _ 36)) by lia. cbn [andb mbind outcome_bind].
  assert (2 ^ 64 ≤ radix ^ N.of_nat 64) by (change (N.of_nat 64) with 64; apply N.pow_le_mono_l; lia).
  destruct (to_digits_spec 64 n radix) as (s & -> & Hv & Ht & _ & Hl); [done|lia|lia|].
  exists (List.rev s). rewrite length_rev. done.
Qed.

(** * [BigUint] *)
(** A radix and the largest power of it that is not above the base. *)
Lemma get_radix_base_spec radix : 2 ≤ radix ≤ 16 → ∃ bs l, get_radix_base radix = Ok (bs, l) ∧
  bs = radix ^ N.of_nat l ∧ (0 < l)%nat ∧ 1 < bs ≤ 2 ^ 32.
Proof.
  intros Hr. assert (radix ∈ [2;3;4;5;6;7;8;9;10;11;12;13;14;15;16]) as Hin.
  { assert (radix = 2 ∨ radix = 3 ∨ radix = 4 ∨ radix = 5 ∨ radix = 6 ∨ radix = 7 ∨ radix = 8 ∨ radix = 9 ∨ radix = 10 ∨
      radix = 11 ∨ radix = 12 ∨ radix = 13 ∨ radix = 14 ∨ radix = 15 ∨ radix = 16) by lia. set_solver. }
  repeat (apply elem_of_cons in Hin as [->|Hin]; [by eexists _, _; split; [reflexivity|vm_compute; repeat split; try lia; done]|]).
  by apply elem_of_nil in Hin.
Qed.
Lemma get_radix_base_fails radix : ¬ 2 ≤ radix ≤ 16 → get_radix_base radix = Fail AssertFailed.
Proof.
  intros Hr. unfold get_radix_base, assert_. destruct (N.ltb_spec 1 radix), (N.leb_spec radix 16); cbn [andb]; try done. lia.
Qed.

(** A number by its digits in any base. *)
Fixpoint eval (bs : N) (l : list N) : N := match l with [] => 0 | d :: l => d + bs * eval bs l end.
Lemma eval_base l : eval base l = value l.
Proof. induction l as [|x l IH]; [done|]. cbn [eval value]. by rewrite IH. Qed.
Lemma eval_snoc bs l x : eval bs (l ++ [x]) = eval bs l + bs ^ N.of_nat (length l) * x.
Proof.
  induction l as [|y l IH]; cbn [app eval length]; [rewrite N.pow_0_r; lia|]. rewrite IH, Nat2N.inj_succ, N.pow_succ_r'. lia.
Qed.

Lemma convert_base_S fuel m d : convert_base (S fuel) m d =
  if negb (lt m d) then
    '(q, m0) ← div_mod_floor m d; m0 ← unwrap (to_u64 m0); cons (cast m0) <$> convert_base fuel q d
  else if negb (is_zero m) then m ← unwrap (to_u64 m); Ok [cast m] else Ok [].
Proof. done. Qed.
Lemma convert_base_spec k m d : wf m → fits m → wf d → 1 < val d ≤ 2 ^ 32 → val m < 2 ^ N.of_nat k →
  ∃ v, convert_base (S k) m d = Ok v ∧ eval (val d) v = val m ∧ Forall (λ x, x < val d) v ∧ (val m = 0 → v = []).
Proof.
  intros Hm Hf Hd Hb. assert (∀ x, x < val d → cast x = x) as Hcast.
  { intros x Hx. unfold cast. apply N.mod_small. rewrite base_val. change (2 ^ 32) with 4294967296 in *. lia. }
  assert (∀ x, wf x → val x < val d → to_u64 x = Some (val x)) as Hu.
  { intros x Wx Hx. rewrite to_u64_spec by done. rewrite (proj2 (N.ltb_lt _ _)); [done|]. change (2 ^ 32) with 4294967296 in *. change (2 ^ 64) with 18446744073709551616. lia. }
  revert m Hm Hf. induction k as [|k IH]; intros m Hm Hf Hk.
  all: rewrite convert_base_S, lt_spec, is_zero_spec by done; destruct (N.ltb_spec (val m) (val d)) as [Hlt|Hge]; cbn [negb].
  1, 3: destruct (N.eqb_spec (val m) 0) as [Hz|Hz]; cbn [negb]; [exists []; by rewrite Hz|].
  1, 2: rewrite Hu by done; cbn [unwrap mbind outcome_bind]; rewrite Hcast by done; eexists; split; [reflexivity|]; cbn [eval];
    split_and!; [lia|by constructor|done].
  - change (2 ^ N.of_nat 0) with 1 in Hk. lia.
  - destruct (div_mod_floor_spec m d Hm Hd Hf) as (q & r & -> & Wq & Wr & Vq & Vr); [lia|]. cbn [mbind outcome_bind].
    pose proof (N.mod_lt (val m) (val d) ltac:(lia)) as Hr. rewrite <- Vr in Hr. rewrite Hu by done. cbn [unwrap mbind outcome_bind].
    rewrite Nat2N.inj_succ, N.pow_succ_r' in Hk. pose proof (N.div_mod (val m) (val d) ltac:(lia)) as Hdm. rewrite <- Vq, <- Vr in Hdm.
    destruct (IH q) as (v & Hv & He & Hall & _); [done|apply (fits_le m); [done|nia|done..]|nia|].
    rewrite Hv. cbn [fmap outcome_fmap].
    eexists. split; [reflexivity|]. rewrite Hcast by done. split_and!; [cbn [eval]; rewrite He; lia|by constructor|lia].
Qed.

Lemma fill_spec radix l v : 2 ≤ radix ≤ 16 → (0 < l)%nat → radix ^ N.of_nat l ≤ 2 ^ 32 → Forall (λ x, x < radix ^ N.of_nat l) v →
  ∃ s, fill (List.rev v) radix l = Ok s ∧ valid radix s ∧ tval radix s = eval (radix ^ N.of_nat l) v ∧ length s = (length v * l)%nat.
Proof.
  intros Hr Hl Hb. induction v as [|x v IH] using rev_ind; intros Hv.
  { exists []. split_and!; [done|constructor|done|done]. }
  apply Forall_app in Hv as [Hv Hx]. assert (x < radix ^ N.of_nat l) as Hx' by (by inversion Hx). clear Hx. destruct (IH Hv) as (s & Hs & Hval & Ht & Hlen).
  rewrite rev_app_distr. cbn [List.rev app fill]. change (2 ^ 32) with 4294967296 in *.
  destruct (uint_to_str_spec x radix) as (ss & -> & Hss & Hts & Hls); [lia|change (2 ^ 64) with 18446744073709551616; lia|]. cbn [mbind outcome_bind].
  specialize (Hls l Hl Hx').
  rewrite Hs. cbn [mbind outcome_bind]. eexists. split; [reflexivity|].
  assert (N.of_nat l ≤ 4294967296) as Hlb.
  { transitivity (radix ^ N.of_nat l); [|done]. pose proof (N.pow_gt_lin_r radix (N.of_nat l) ltac:(lia)). lia. }
  rewrite usub_small, <- Nat2N.inj_sub, Nat2N.id by (unfold UINT_MAX; lia).
  assert (valid radix (replicate (l - length ss) 48) ∧ ∀ k, tval radix (replicate k 48) = 0) as [Hvz Htz].
  { split; [by apply Forall_replicate; split; [|cbn; lia]|]. induction k as [|k IHk]; [done|]. cbn [replicate]. rewrite tval_cons, IHk. done. }
  split_and!.
  - apply valid_app. split; [done|]. by apply valid_app.
  - rewrite tval_app, tval_app, Htz, Hts, Ht, Hlen, eval_snoc. rewrite Nat2N.inj_mul, <- N.pow_mul_r. rewrite (N.mul_comm (N.of_nat l)). lia.
  - rewrite !length_app, length_replicate, Hlen. cbn. lia.
Qed.

Lemma trim_spec radix s : valid radix s → valid radix (trim_left_chars 48 s) ∧ tval radix (trim_left_chars 48 s) = tval radix s ∧
  head (trim_left_chars 48 s) ≠ Some 48.
Proof.
  induction 1 as [|c s Hc Hs IH]; cbn [trim_left_chars]; [split_and!; [constructor|done|done]|]. destruct (N.eqb_spec c 48) as [->|Hne].
  - rewrite tval_cons. destruct IH as (? & -> & ?). done.
  - split_and!; [by constructor|done|]. cbn. congruence.
Qed.
(** The text of a number: its digits, without leading zeros. *)
Definition text_of (radix n : N) (s : list N) : Prop :=
  valid radix s ∧ tval radix s = n ∧ s ≠ [] ∧ (head s = Some 48 → s = [48]).

Lemma fill_concat_spec radix l v n : 2 ≤ radix ≤ 16 → (0 < l)%nat → radix ^ N.of_nat l ≤ 2 ^ 32 → Forall (λ x, x < radix ^ N.of_nat l) v →
  eval (radix ^ N.of_nat l) v = n → (n = 0 → v = []) →
  ∃ s, fill_concat v radix l = Ok s ∧ text_of radix n s.
Proof.
  intros Hr Hl Hb Hv He Hz. unfold fill_concat. destruct v as [|x v0] eqn:E.
  { exists [48]. cbn in He. subst n. split; [done|]. split_and!; [|done|done|done]. constructor; [split; [done|cbn; lia]|constructor]. }
  rewrite <- E in *. destruct (fill_spec radix l v Hr Hl Hb Hv) as (s & -> & Hs & Ht & _). cbn [fmap outcome_fmap].
  eexists. split; [reflexivity|]. destruct (trim_spec radix s Hs) as (H1 & H2 & H3). split_and!; [done|by rewrite H2, Ht| |done].
  intros Hn. rewrite Hn in H2. assert (n = 0) as Hn0 by (by rewrite <- He, <- Ht, <- H2). specialize (Hz Hn0). by rewrite Hz in E.
Qed.

Lemma to_str_radix_spec a radix : wf a → fits a → 2 ≤ radix ≤ 16 →
  ∃ s, to_str_radix a radix = Ok s ∧ text_of radix (val a) s.
Proof.
  intros Ha Hf Hr. unfold to_str_radix, assert_. rewrite (proj2 (N.ltb_lt 1 _)), (proj2 (N.leb_le _ 16)) by lia. cbn [andb mbind outcome_bind].
  destruct (get_radix_base_spec radix Hr) as (bs & l & -> & Hbs & Hl & Hb). cbn [mbind outcome_bind].
  assert (∀ v, Forall (λ x, x < bs) v → eval bs v = val a → (val a = 0 → v = []) → ∃ s, fill_concat v radix l = Ok s ∧ text_of radix (val a) s) as Hfill.
  { intros v Hv He Hz. subst bs. apply fill_concat_spec; try done. lia. }
  destruct (N.eqb_spec bs base) as [->|Hne].
  - apply Hfill; [apply Ha|apply eval_base|]. intros Hz. pose proof (is_zero_spec a Ha) as Hi. rewrite Hz in Hi. unfold is_zero in Hi. by destruct (data a).
  - destruct (from_u64_spec bs) as [Wd Vd]; [change (2 ^ 64) with 18446744073709551616; change (2 ^ 32) with 4294967296 in Hb; lia|].
    rewrite Nat.add_1_r. destruct (convert_base_spec (32 * len a) a (from_u64 bs)) as (v & -> & He & Hv & Hz); [done..|by rewrite Vd| |].
    + pose proof (wf_high a Ha) as Hh. rewrite B_two in Hh. by rewrite Nat2N.inj_mul.
    + cbn [mbind outcome_bind]. rewrite Vd in *. by apply Hfill.
Qed.

Lemma parse_loop_spec radix bs l b fuel e n power buf : 2 ≤ radix ≤ 16 → bs = radix ^ N.of_nat l → (0 < l)%nat → 1 < bs ≤ 2 ^ 32 →
  wf b → val b = bs → valid radix buf → (0 < e ≤ length buf)%nat → (e < fuel)%nat →
  wf n → val n = tval radix (drop e buf) → wf power → val power = radix ^ N.of_nat (length buf - e) →
  ∃ r, parse_loop fuel buf radix l e b n power = Ok (Some r) ∧ wf r ∧ val r = tval radix buf.
Proof.
  intros Hr Hbs Hl Hb Wb Vb Hbuf. revert e n power. induction fuel as [|fuel IH]; intros e n power He Hfuel Wn Vn Wp Vp; [lia|].
  cbn [parse_loop]. set (start := (e `max` l - l)%nat). set (chunk := drop start (take e buf)).
  assert (drop start buf = chunk ++ drop e buf) as Hsplit.
  { subst chunk. rewrite <- (take_drop e buf) at 1. rewrite drop_app_le by (rewrite length_take; lia). done. }
  assert (length chunk = (e - start)%nat) as Hclen by (subst chunk; rewrite length_drop, length_take; lia).
  assert (valid radix chunk) as Hcv by (by apply Forall_drop, Forall_take).
  assert (radix ^ N.of_nat (length chunk) ≤ bs) as Hcb by (rewrite Hclen, Hbs; apply N.pow_le_mono_r; lia).
  change (2 ^ 32) with 4294967296 in Hb.
  rewrite uint_parse_spec; [|lia|done|intros E; rewrite E in Hclen; cbn in Hclen; lia|change (2 ^ 64) with 18446744073709551616; lia].
  cbn [mbind outcome_bind]. pose proof (tval_bound radix chunk ltac:(lia) Hcv) as Hct.
  destruct (from_u64_spec (tval radix chunk)) as [Wd Vd]; [change (2 ^ 64) with 18446744073709551616; lia|].
  destruct (mul_spec _ _ Wd Wp) as (p & -> & Wpr & Vpr). cbn [mbind outcome_bind]. destruct (add_spec n p Wn Wpr) as [Wa Va].
  assert (val (add n p) = tval radix (drop start buf)) as Va'.
  { rewrite Va, Vn, Vpr, Vd, Vp, Hsplit, tval_app, length_drop. lia. }
  destruct (Nat.leb_spec e l) as [Hle|Hgt].
  - exists (add n p). split_and!; [done..|]. rewrite Va'. by replace start with 0%nat by lia.
  - destruct (mul_spec power b Wp Wb) as (pw & -> & Wpw & Vpw). cbn [mbind outcome_bind]. apply IH; try done; [lia|lia| |].
    + rewrite Va'. f_equal. f_equal. lia.
    + rewrite Vpw, Vp, Vb, Hbs, <- N.pow_add_r. f_equal. lia.
Qed.
Lemma parse_bytes_spec radix s : 2 ≤ radix ≤ 16 → valid radix s → s ≠ [] →
  ∃ r, parse_bytes s radix = Ok (Some r) ∧ wf r ∧ val r = tval radix s.
Proof.
  intros Hr Hs Hn. unfold parse_bytes. destruct (get_radix_base_spec radix Hr) as (bs & l & -> & Hbs & Hl & Hb). cbn [mbind outcome_bind].
  destruct (from_u64_spec bs) as [Wb Vb]; [change (2 ^ 64) with 18446744073709551616; change (2 ^ 32) with 4294967296 in Hb; lia|].
  destruct wf_zero as [Wz Vz], wf_one as [Wo Vo].
  eapply parse_loop_spec; try done.
  - destruct s; [done|]. cbn. lia.
  - lia.
  - by rewrite drop_all, Vz.
  - by rewrite Nat.sub_diag, Vo.
Qed.
