(* ===== verification/BigInt.v ===== *)
(** Big signed integers, [BigInt] of [libnum/bigint.rs]: a sign and a [BigUint],
    where the sign is [Zero] exactly for the number zero.  An [i64] is an
    integer in its range. *)
From stdpp Require Import prelude list.
From S2P Require Import Prelude StrConv BigUint.

Module BigInt.
Inductive Sign := Minus | Zero | Plus.
Definition sign_neg (s : Sign) : Sign := match s with Minus => Plus | Zero => Zero | Plus => Minus end.
(** The derived order: that of the declaration. *)
Definition sign_rank (s : Sign) : N := match s with Minus => 0 | Zero => 1 | Plus => 2 end.
Definition sign_cmp (s t : Sign) : comparison := N.compare (sign_rank s) (sign_rank t).

Record BigInt : Type := mkBigInt { sign : Sign; data : BigUint.BigUint }.

Definition from_biguint (sign : Sign) (data : BigUint.BigUint) : BigInt :=
  match sign with
  | Zero => mkBigInt Zero BigUint.zero
  | _ => if BigUint.is_zero data then mkBigInt Zero BigUint.zero else mkBigInt sign data
  end.
Definition new (sign : Sign) (v : list N) : BigInt := from_biguint sign (BigUint.new v).
Definition from_slice (sign : Sign) (slice : list N) : BigInt := from_biguint sign (BigUint.from_slice slice).
Definition to_biguint (a : BigInt) : option BigUint.BigUint :=
  match sign a with Plus => Some (data a) | Zero => Some BigUint.zero | Minus => None end.
(** [to_bigint] of a [BigUint] *)
Definition to_bigint (a : BigUint.BigUint) : BigInt :=
  if BigUint.is_zero a then from_biguint Zero BigUint.zero else mkBigInt Plus a.

Definition zero : BigInt := from_biguint Zero BigUint.zero.
Definition one : BigInt := from_biguint Plus BigUint.one.
Definition is_zero (a : BigInt) : bool := match sign a with Zero => true | _ => false end.

Definition cmp (a b : BigInt) : comparison :=
  match sign_cmp (sign a) (sign b) with
  | Eq =>
      match sign a with
      | Zero => Eq
      | Plus => BigUint.cmp (data a) (data b)
      | Minus => BigUint.cmp (data b) (data a)
      end
  | c => c
  end.
Definition eq (a b : BigInt) : bool := match cmp a b with Eq => true | _ => false end.
Definition lt (a b : BigInt) : bool := match cmp a b with Lt => true | _ => false end.

Definition shl (a : BigInt) (rhs : N) : BigInt := from_biguint (sign a) (BigUint.shl (data a) rhs).
Definition shr (a : BigInt) (rhs : N) : BigInt := from_biguint (sign a) (BigUint.shr (data a) rhs).
Definition neg (a : BigInt) : BigInt := from_biguint (sign_neg (sign a)) (data a).

(** [add] and [sub] call each other; the fuel is the depth of the calls. *)
Fixpoint add_rec (depth : nat) (a b : BigInt) {struct depth} : outcome BigInt :=
  match depth with
  | 0 => Fail OutOfFuel
  | S depth =>
      match sign a, sign b with
      | Zero, _ => Ok b
      | _, Zero => Ok a
      | Plus, Plus => Ok (from_biguint Plus (BigUint.add (data a) (data b)))
      | Plus, Minus => sub_rec depth a (neg b)
      | Minus, Plus => sub_rec depth b (neg a)
      | Minus, Minus => neg <$> add_rec depth (neg a) (neg b)
      end
  end
with sub_rec (depth : nat) (a b : BigInt) {struct depth} : outcome BigInt :=
  match depth with
  | 0 => Fail OutOfFuel
  | S depth =>
      match sign a, sign b with
      | Zero, _ => Ok (neg b)
      | _, Zero => Ok a
      | Plus, Plus =>
          match BigUint.cmp (data a) (data b) with
          | Lt => from_biguint Minus <$> BigUint.sub (data b) (data a)
          | Gt => from_biguint Plus <$> BigUint.sub (data a) (data b)
          | Eq => Ok zero
          end
      | Plus, Minus => add_rec depth a (neg b)
      | Minus, Plus => neg <$> add_rec depth (neg a) b
      | Minus, Minus => sub_rec depth (neg b) (neg a)
      end
  end.
Definition add (a b : BigInt) : outcome BigInt := add_rec 2 a b.
Definition sub (a b : BigInt) : outcome BigInt := sub_rec 2 a b.
Definition mul (a b : BigInt) : outcome BigInt :=
  match sign a, sign b with
  | Zero, _ | _, Zero => Ok zero
  | Plus, Plus | Minus, Minus => from_biguint Plus <$> BigUint.mul (data a) (data b)
  | Plus, Minus | Minus, Plus => from_biguint Minus <$> BigUint.mul (data a) (data b)
  end.

Definition abs (a : BigInt) : BigInt :=
  match sign a with Plus | Zero => a | Minus => from_biguint Plus (data a) end.
Definition abs_sub (a b : BigInt) : outcome BigInt := if negb (lt b a) then Ok zero else sub a b.
Definition signum (a : BigInt) : BigInt :=
  match sign a with
  | Plus => from_biguint Plus BigUint.one
  | Minus => from_biguint Minus BigUint.one
  | Zero => zero
  end.

(** * Division *)
(** The remainder has the sign of the dividend. *)
Definition div_rem (a b : BigInt) : outcome (BigInt * BigInt) :=
  '(d_ui, r_ui) ← BigUint.div_mod_floor (data a) (data b);
  let d := from_biguint Plus d_ui in
  let r := from_biguint Plus r_ui in
  match sign a, sign b with
  | _, Zero => Fail ExplicitFail
  | Plus, Plus | Zero, Plus => Ok (d, r)
  | Plus, Minus | Zero, Minus => Ok (neg d, r)
  | Minus, Plus => Ok (neg d, neg r)
  | Minus, Minus => Ok (d, neg r)
  end.
(** The remainder has the sign of the divisor. *)
Definition div_mod_floor (a b : BigInt) : outcome (BigInt * BigInt) :=
  '(d_ui, m_ui) ← BigUint.div_rem (data a) (data b);
  let d := from_biguint Plus d_ui in
  let m := from_biguint Plus m_ui in
  match sign a, sign b with
  | _, Zero => Fail ExplicitFail
  | Plus, Plus | Zero, Plus => Ok (d, m)
  | Plus, Minus | Zero, Minus =>
      if is_zero m then Ok (neg d, zero)
      else q ← sub (neg d) one; r ← add m b; Ok (q, r)
  | Minus, Plus =>
      if is_zero m then Ok (neg d, zero)
      else q ← sub (neg d) one; r ← sub b m; Ok (q, r)
  | Minus, Minus => Ok (d, neg m)
  end.
Definition div (a b : BigInt) : outcome BigInt := '(q, _) ← div_rem a b; Ok q.
Definition rem (a b : BigInt) : outcome BigInt := '(_, r) ← div_rem a b; Ok r.
Definition gcd (a b : BigInt) : outcome BigInt := from_biguint Plus <$> BigUint.gcd (data a) (data b).
Definition lcm (a b : BigInt) : outcome BigInt := from_biguint Plus <$> BigUint.lcm (data a) (data b).

Definition div_floor (a b : BigInt) : outcome BigInt := '(d, _) ← div_mod_floor a b; Ok d.
Definition mod_floor (a b : BigInt) : outcome BigInt := '(_, m) ← div_mod_floor a b; Ok m.
Definition divides (a b : BigInt) : outcome bool := BigUint.divides (data a) (data b).
Definition is_even (a : BigInt) : bool := BigUint.is_even (data a).
Definition is_odd (a : BigInt) : bool := BigUint.is_odd (data a).
Definition is_positive (a : BigInt) : bool := match sign a with Plus => true | _ => false end.
Definition is_negative (a : BigInt) : bool := match sign a with Minus => true | _ => false end.
Definition checked_add (a b : BigInt) : outcome (option BigInt) := c ← add a b; Ok (Some c).
Definition checked_sub (a b : BigInt) : outcome (option BigInt) := c ← sub a b; Ok (Some c).
Definition checked_mul (a b : BigInt) : outcome (option BigInt) := c ← mul a b; Ok (Some c).
Definition checked_div (a b : BigInt) : outcome (option BigInt) :=
  if is_zero b then Ok None else q ← div a b; Ok (Some q).

(** * Conversions *)
Definition to_i64 (a : BigInt) : option Z :=
  match sign a with
  | Plus => n ← BigUint.to_u64 (data a); if (N.shiftr n 63 =? 0)%N then Some (Z.of_N n) else None
  | Zero => Some 0%Z
  | Minus =>
      n ← BigUint.to_u64 (data a);
      let m := N.shiftl 1 63 in
      if (n <? m)%N then Some (- Z.of_N n)%Z else if (n =? m)%N then Some (- 2 ^ 63)%Z else None
  end.
Definition to_u64 (a : BigInt) : option N :=
  match sign a with Plus => BigUint.to_u64 (data a) | Zero => Some 0%N | Minus => None end.
(** [n as u64] of an [i64] *)
Definition i64_as_u64 (n : Z) : N := Z.to_N (n mod 2 ^ 64).
Definition from_i64 (n : Z) : BigInt :=
  if (0 <? n)%Z then from_biguint Plus (BigUint.from_u64 (i64_as_u64 n))
  else if (n <? 0)%Z then from_biguint Minus (BigUint.from_u64 (uadd (usub UINT_MAX (i64_as_u64 n)) 1))
  else zero.
Definition from_u64 (n : N) : BigInt :=
  if (n =? 0)%N then zero else from_biguint Plus (BigUint.from_u64 n).

(** * Text *)
Definition to_str_radix (a : BigInt) (radix : N) : outcome (list N) :=
  match sign a with
  | Plus => BigUint.to_str_radix (data a) radix
  | Zero => Ok [48%N]
  | Minus => cons 45%N <$> BigUint.to_str_radix (data a) radix
  end.
Definition parse_bytes (buf : list N) (radix : N) : outcome (option BigInt) :=
  match buf with
  | [] => Ok None
  | c :: rest =>
      let '(sign, buf) := if (c =? 45)%N then (Minus, rest) else (Plus, buf) in
      r ← BigUint.parse_bytes buf radix;
      Ok (option_map (from_biguint sign) r)
  end.
End BigInt.
