(* ===== verification/BigIntSound.v ===== *)
(** Correctness of [BigUint] and [BigInt]: their operations are those on the
    natural numbers and the integers. *)
From stdpp Require Import prelude list.
From S2P Require Import Prelude StrConv BigUint BigUintSound BigUintDiv BigUintText BigInt.
Import BigInt.

Local Open Scope Z_scope.

Definition sg (s : Sign) : Z := match s with Minus => -1 | Zero => 0 | Plus => 1 end.
Definition ival (a : BigInt) : Z := sg (sign a) * Z.of_N (val (data a)).
(** The sign is [Zero] exactly for zero. *)
Record iwf (a : BigInt) : Prop := { iwf_data : wf (data a); iwf_sign : sign a = Zero ↔ val (data a) = 0%N }.

Lemma from_biguint_spec s d : wf d → iwf (from_biguint s d) ∧ ival (from_biguint s d) = sg s * Z.of_N (val d).
Proof.
  intros Hd. destruct wf_zero as [Wz Vz].
  assert (iwf (mkBigInt Zero BigUint.zero) ∧ ival (mkBigInt Zero BigUint.zero) = 0) as H0 by (by split; [constructor|]).
  unfold from_biguint. rewrite is_zero_spec by done. destruct (N.eqb_spec (val d) 0) as [E|E].
  - rewrite E, Z.mul_0_r. by destruct s.
  - destruct s; [|done|]; (split; [|done]); (split; [done|]; cbn; naive_solver).
Qed.
Lemma zero_spec : iwf zero ∧ ival zero = 0.
Proof. destruct wf_zero. by apply (from_biguint_spec Zero). Qed.
Lemma one_spec : iwf one ∧ ival one = 1.
Proof. destruct wf_one as [W V]. pose proof (from_biguint_spec Plus _ W) as H. by rewrite V in H. Qed.
Lemma neg_spec a : iwf a → iwf (neg a) ∧ ival (neg a) = - ival a.
Proof.
  intros Ha. unfold neg. destruct (from_biguint_spec (sign_neg (sign a)) (data a) (iwf_data a Ha)) as [? ->]. split; [done|].
  unfold ival. by destruct (sign a); cbn; lia.
Qed.
Lemma sign_neg_sign a : iwf a → sign (neg a) = sign_neg (sign a).
Proof.
  intros Ha. unfold neg, from_biguint. rewrite is_zero_spec by apply Ha. pose proof (iwf_sign a Ha) as Hs.
  destruct (sign a) eqn:E; cbn; try done; destruct (N.eqb_spec (val (data a)) 0); try done; naive_solver.
Qed.
Lemma data_neg a : iwf a → data (neg a) = data a.
Proof.
  intros Ha. unfold neg, from_biguint. rewrite is_zero_spec by apply Ha. pose proof (iwf_sign a Ha) as Hs. destruct wf_zero as [Wz Vz].
  destruct (sign a) eqn:E; cbn; destruct (N.eqb_spec (val (data a)) 0) as [E0|E0]; try done; symmetry; apply val_inj; try apply Ha; try done; naive_solver congruence.
Qed.
Lemma ival_inj a b : iwf a → iwf b → ival a = ival b → a = b.
Proof.
  intros Ha Hb Hv. unfold ival in Hv. pose proof (iwf_sign a Ha). pose proof (iwf_sign b Hb).
  assert (sign a = sign b ∧ val (data a) = val (data b)) as [Hs Hd].
  { destruct (sign a), (sign b); cbn in Hv; split; try done; try lia; try naive_solver lia. }
  destruct a as [sa da], b as [sb db]. cbn in *. f_equal; [done|]. apply val_inj; [apply Ha|apply Hb|done].
Qed.
Lemma icmp_spec a b : iwf a → iwf b → cmp a b = (ival a ?= ival b).
Proof.
  intros Ha Hb. pose proof (iwf_sign a Ha) as Hsa. pose proof (iwf_sign b Hb) as Hsb.
  assert (sign a ≠ Zero → val (data a) ≠ 0%N) as Hna by naive_solver. assert (sign b ≠ Zero → val (data b) ≠ 0%N) as Hnb by naive_solver.
  unfold cmp, ival. destruct (sign a), (sign b); cbn [sign_cmp sign_rank N.compare sg]; symmetry.
  1: rewrite cmp_spec by (apply Ha || apply Hb); rewrite <- N2Z.inj_compare; change (-1) with (Z.opp 1); rewrite !Z.mul_opp_l, !Z.mul_1_l; apply Z.compare_opp.
  8: rewrite cmp_spec by (apply Ha || apply Hb); rewrite <- N2Z.inj_compare, !Z.mul_1_l; done.
  all: try specialize (Hna ltac:(done)); try specialize (Hnb ltac:(done)).
  all: first [done | apply Z.compare_lt_iff; lia | apply Z.compare_gt_iff; lia].
Qed.
Lemma ilt_spec a b : iwf a → iwf b → lt a b = (ival a <? ival b).
Proof. intros Ha Hb. unfold lt. rewrite icmp_spec by done. unfold Z.ltb. by destruct (_ ?= _). Qed.

(** * Arithmetic *)
(** What an operation that returns a number promises. *)
Definition returns (r : outcome BigInt) (z : Z) : Prop := ∃ c, r = Ok c ∧ iwf c ∧ ival c = z.

Lemma returns_Ok c z : iwf c → ival c = z → returns (Ok c) z.
Proof. intros. by exists c. Qed.
Lemma returns_from s d z : wf d → sg s * Z.of_N (val d) = z → returns (Ok (from_biguint s d)) z.
Proof. intros Hd Hz. destruct (from_biguint_spec s d Hd) as [? Hv]. exists (from_biguint s d). by rewrite Hv. Qed.
Lemma returns_neg r z z' : returns r z → z' = - z → returns (neg <$> r) z'.
Proof. intros (c & -> & Hc & Hv) ->. destruct (neg_spec c Hc) as [? Hn]. exists (neg c). by rewrite Hn, Hv. Qed.

Lemma add_pos d a b : sign a = Plus → sign b = Plus → iwf a → iwf b → returns (add_rec (S d) a b) (ival a + ival b).
Proof.
  intros Ea Eb Ha Hb. unfold ival. cbn [add_rec]. rewrite Ea, Eb. destruct (add_spec _ _ (iwf_data a Ha) (iwf_data b Hb)) as [W V].
  apply returns_from; [done|]. rewrite V. cbn. lia.
Qed.
Lemma sub_pos d a b : sign a = Plus → sign b = Plus → iwf a → iwf b → returns (sub_rec (S d) a b) (ival a - ival b).
Proof.
  intros Ea Eb Ha Hb. unfold ival. cbn [sub_rec]. rewrite Ea, Eb, cmp_spec by (apply Ha || apply Hb).
  destruct (N.compare_spec (val (data a)) (val (data b))).
  - destruct zero_spec as [Wz Vz]. apply returns_Ok; [done|]. rewrite Vz. cbn. lia.
  - destruct (sub_spec (data b) (data a)) as (c & -> & W & V); [apply Hb|apply Ha|lia|]. apply returns_from; [done|]. rewrite V. cbn. lia.
  - destruct (sub_spec (data a) (data b)) as (c & -> & W & V); [apply Ha|apply Hb|lia|]. apply returns_from; [done|]. rewrite V. cbn. lia.
Qed.
Lemma ival_zero a : sign a = Zero → ival a = 0.
Proof. intros E. unfold ival. by rewrite E. Qed.

Lemma add_rec_S d a b : add_rec (S d) a b = match sign a, sign b with
  | Zero, _ => Ok b | _, Zero => Ok a
  | Plus, Plus => Ok (from_biguint Plus (BigUint.add (data a) (data b)))
  | Plus, Minus => sub_rec d a (neg b) | Minus, Plus => sub_rec d b (neg a)
  | Minus, Minus => neg <$> add_rec d (neg a) (neg b) end.
Proof. done. Qed.
Lemma sub_rec_S d a b : sub_rec (S d) a b = match sign a, sign b with
  | Zero, _ => Ok (neg b) | _, Zero => Ok a
  | Plus, Plus => match BigUint.cmp (data a) (data b) with
      | Lt => from_biguint Minus <$> BigUint.sub (data b) (data a)
      | Gt => from_biguint Plus <$> BigUint.sub (data a) (data b)
      | Eq => Ok zero end
  | Plus, Minus => add_rec d a (neg b) | Minus, Plus => neg <$> add_rec d (neg a) b
  | Minus, Minus => sub_rec d (neg b) (neg a) end.
Proof. done. Qed.

Lemma iadd_spec a b : iwf a → iwf b → returns (add a b) (ival a + ival b).
Proof.
  intros Ha Hb. destruct (neg_spec a Ha) as [Wa Va], (neg_spec b Hb) as [Wb Vb].
  pose proof (sign_neg_sign a Ha) as Sa. pose proof (sign_neg_sign b Hb) as Sb.
  destruct (sign a) eqn:Ea, (sign b) eqn:Eb; cbn in Sa, Sb; unfold add; try (by apply add_pos); rewrite add_rec_S, Ea, ?Eb.
  all: try (rewrite (ival_zero a) by done; apply returns_Ok; [done|lia]).
  all: try (rewrite (ival_zero b) by done; apply returns_Ok; [done|lia]).
  - eapply returns_neg; [by apply add_pos|]. lia.
  - replace (ival a + ival b) with (ival b - ival (neg a)) by lia. by apply sub_pos.
  - replace (ival a + ival b) with (ival a - ival (neg b)) by lia. by apply sub_pos.
Qed.
Lemma isub_spec a b : iwf a → iwf b → returns (sub a b) (ival a - ival b).
Proof.
  intros Ha Hb. destruct (neg_spec a Ha) as [Wa Va], (neg_spec b Hb) as [Wb Vb].
  pose proof (sign_neg_sign a Ha) as Sa. pose proof (sign_neg_sign b Hb) as Sb.
  destruct (sign a) eqn:Ea, (sign b) eqn:Eb; cbn in Sa, Sb; unfold sub; try (by apply sub_pos); rewrite sub_rec_S, Ea, ?Eb.
  all: try (rewrite (ival_zero a) by done; apply returns_Ok; [done|lia]).
  all: try (rewrite (ival_zero b) by done; apply returns_Ok; [done|lia]).
  - replace (ival a - ival b) with (ival (neg b) - ival (neg a)) by lia. by apply sub_pos.
  - eapply returns_neg; [by apply add_pos|]. lia.
  - replace (ival a - ival b) with (ival a + ival (neg b)) by lia. by apply add_pos.
Qed.
Lemma imul_spec a b : iwf a → iwf b → returns (mul a b) (ival a * ival b).
Proof.
  intros Ha Hb. unfold mul. destruct (mul_spec _ _ (iwf_data a Ha) (iwf_data b Hb)) as (c & -> & W & V).
  assert (∀ s, sg s = sg (sign a) * sg (sign b) → returns (Ok (from_biguint s c)) (ival a * ival b)) as Hr.
  { intros s Hs. apply returns_from; [done|]. rewrite Hs, V, N2Z.inj_mul. unfold ival. ring. }
  destruct zero_spec as [Wz Vz].
  destruct (sign a) eqn:Ea, (sign b) eqn:Eb; cbn in Hr; try (apply Hr; done).
  all: apply returns_Ok; [done|]; rewrite Vz; first [rewrite (ival_zero a) by done; lia|rewrite (ival_zero b) by done; lia].
Qed.

(** * Division *)
Lemma is_zero_ispec a : iwf a → is_zero a = (ival a =? 0).
Proof.
  intros Ha. unfold is_zero, ival. pose proof (iwf_sign a Ha) as Hs.
  destruct (sign a); cbn [sg]; symmetry; try (apply Z.eqb_neq; naive_solver lia). done.
Qed.
(** The quotient and rest of the absolute values. *)
Lemma abs_division a b : iwf a → iwf b → fits (data a) → ival b ≠ 0 →
  ∃ q r, BigUint.div_mod_floor (data a) (data b) = Ok (q, r) ∧ wf q ∧ wf r ∧
    Z.of_N (val q) = Z.of_N (val (data a)) / Z.of_N (val (data b)) ∧ Z.of_N (val r) = Z.of_N (val (data a)) mod Z.of_N (val (data b)).
Proof.
  intros Ha Hb Hf Hz. assert (val (data b) ≠ 0%N) as Hnz by (unfold ival in Hz; nia).
  destruct (div_mod_floor_spec (data a) (data b)) as (q & r & E & Wq & Wr & Vq & Vr); [apply Ha|apply Hb|done..|].
  exists q, r. rewrite Vq, Vr, N2Z.inj_div, N2Z.inj_mod. done.
Qed.
(** What a division that returns promises. *)
Definition returns2 (r : outcome (BigInt * BigInt)) (q m : Z) : Prop :=
  ∃ c d, r = Ok (c, d) ∧ iwf c ∧ iwf d ∧ ival c = q ∧ ival d = m.

Lemma div_rem_spec a b : iwf a → iwf b → fits (data a) → ival b ≠ 0 →
  returns2 (div_rem a b) (Z.quot (ival a) (ival b)) (Z.rem (ival a) (ival b)).
Proof.
  intros Ha Hb Hf Hz. unfold div_rem. destruct (abs_division a b Ha Hb Hf Hz) as (q & r & -> & Wq & Wr & Vq & Vr). cbn [mbind outcome_bind].
  destruct (from_biguint_spec Plus q Wq) as [Wd Vd], (from_biguint_spec Plus r Wr) as [Wm Vm]. cbn [sg] in Vd, Vm. rewrite Z.mul_1_l in Vd, Vm.
  destruct (neg_spec _ Wd) as [Wnd Vnd], (neg_spec _ Wm) as [Wnm Vnm].
  assert (Z.of_N (val (data b)) ≠ 0) as Hy by (unfold ival in Hz; nia).
  assert (sign a = Zero → Z.of_N (val (data a)) = 0) as Hx by (intros E; apply (iwf_sign a Ha) in E; by rewrite E).
  rewrite <- Z.quot_div_nonneg in Vq by lia. rewrite <- Z.rem_mod_nonneg in Vr by lia. unfold ival in Hz |- *.
  destruct (sign a) eqn:Ea, (sign b) eqn:Eb; cbn [sg] in *; try done.
  all: eexists _, _; split; [reflexivity|]; split_and!; [done..| |].
  all: rewrite ?Vnd, ?Vnm, ?Vd, ?Vm, ?Vq, ?Vr, ?Z.mul_1_l, ?Z.mul_0_l; change (-1) with (Z.opp 1); rewrite ?Z.mul_opp_l, ?Z.mul_1_l.
  all: try rewrite (Hx eq_refl); rewrite ?Z.quot_opp_l, ?Z.quot_opp_r, ?Z.rem_opp_l, ?Z.rem_opp_r, ?Z.quot_0_l, ?Z.rem_0_l by lia; lia.
Qed.

Lemma div_zero_fails a b : iwf b → ival b = 0 → div_rem a b = Fail ExplicitFail ∧ div_mod_floor a b = Fail ExplicitFail.
Proof.
  intros Hb Hz. pose proof (is_zero_ispec b Hb) as H. rewrite Hz in H. unfold is_zero in H. assert (sign b = Zero) as E by (by destruct (sign b)).
  apply (iwf_sign b Hb) in E. unfold div_rem, div_mod_floor, BigUint.div_rem. by rewrite div_mod_floor_zero by (done || apply Hb).
Qed.
Lemma div_mod_floor_ispec a b : iwf a → iwf b → fits (data a) → ival b ≠ 0 →
  returns2 (div_mod_floor a b) (ival a / ival b) (ival a mod ival b).
Proof.
  intros Ha Hb Hf Hz. unfold div_mod_floor, BigUint.div_rem.
  destruct (abs_division a b Ha Hb Hf Hz) as (q & r & -> & Wq & Wr & Vq & Vr). cbn [mbind outcome_bind].
  destruct (from_biguint_spec Plus q Wq) as [Wd Vd], (from_biguint_spec Plus r Wr) as [Wm Vm]. cbn [sg] in Vd, Vm. rewrite Z.mul_1_l in Vd, Vm.
  destruct (neg_spec _ Wd) as [Wnd Vnd], (neg_spec _ Wm) as [Wnm Vnm], zero_spec as [Wz Vz], one_spec as [Wo Vo].
  set (x := Z.of_N (val (data a))) in *. set (y := Z.of_N (val (data b))) in *.
  assert (y ≠ 0) as Hy by (unfold ival in Hz; subst y; nia).
  assert (ival a = sg (sign a) * x ∧ ival b = sg (sign b) * y) as [Va Vb] by done.
  assert (sign a = Zero → x = 0) as Hx by (intros E; apply (iwf_sign a Ha) in E; subst x; by rewrite E).
  destruct (isub_spec (neg (from_biguint Plus q)) one Wnd Wo) as (q' & Eq' & Wq' & Vq'). rewrite is_zero_ispec, Vm, Vr by done.
  destruct (iadd_spec (from_biguint Plus r) b Wm Hb) as (m1 & Em1 & Wm1 & Vm1).
  destruct (isub_spec b (from_biguint Plus r) Hb Wm) as (m2 & Em2 & Wm2 & Vm2).
  destruct (sign a) eqn:Ea, (sign b) eqn:Eb; cbn [sg] in Va, Vb; rewrite Va, Vb in *; try done.
  all: rewrite ?Eq', ?Em1, ?Em2; cbn [mbind outcome_bind]; try case_match; (eexists _, _; split; [reflexivity|]); rewrite ?Vq', ?Vm1, ?Vm2, ?Vnd, ?Vnm, ?Vd, ?Vm, ?Vz, ?Vo, ?Vq, ?Vr.
  all: split_and!; try done; change (-1) with (Z.opp 1); rewrite ?Z.mul_opp_l, ?Z.mul_1_l, ?Z.mul_0_l.
  all: repeat match goal with H : (_ =? _) = true |- _ => apply Z.eqb_eq in H | H : (_ =? _) = false |- _ => apply Z.eqb_neq in H end.
  all: try (rewrite (Hx eq_refl) in *; rewrite ?Zdiv_0_l, ?Zmod_0_l in *; done).
  all: clearbody x y; first [ done | rewrite Z.div_opp_opp by lia; done | rewrite Z.mod_opp_opp by lia; done
    | rewrite Z.div_opp_l_z by lia; done | rewrite Z.mod_opp_l_z by lia; done | rewrite Z.div_opp_l_nz by lia; done | rewrite Z.mod_opp_l_nz by lia; done
    | rewrite Z.div_opp_r_z by lia; done | rewrite Z.mod_opp_r_z by lia; done | rewrite Z.div_opp_r_nz by lia; done | rewrite Z.mod_opp_r_nz by lia; lia ].
Qed.

(** * Shifts, conversions *)
Lemma shl_ispec a n : iwf a → iwf (shl a n) ∧ ival (shl a n) = ival a * 2 ^ Z.of_N n.
Proof.
  intros Ha. unfold shl. destruct (shl_spec (data a) n (iwf_data a Ha)) as [W V]. destruct (from_biguint_spec (sign a) _ W) as [? ->].
  split; [done|]. rewrite V, N2Z.inj_mul, N2Z.inj_pow. unfold ival. change (Z.of_N 2) with 2. ring.
Qed.
(** Shifting to the right rounds towards zero. *)
Lemma shr_ispec a n : iwf a → iwf (shr a n) ∧ ival (shr a n) = Z.quot (ival a) (2 ^ Z.of_N n).
Proof.
  intros Ha. unfold shr. destruct (shr_spec (data a) n (iwf_data a Ha)) as [W V]. destruct (from_biguint_spec (sign a) _ W) as [? ->].
  split; [done|]. rewrite V, N2Z.inj_quot, N2Z.inj_pow. unfold ival. change (Z.of_N 2) with 2.
  destruct (sign a); cbn [sg]; change (-1) with (Z.opp 1); rewrite ?Z.mul_opp_l, ?Z.mul_1_l, ?Z.mul_0_l.
  - by rewrite Z.quot_opp_l by (apply Z.pow_nonzero; lia).
  - by rewrite Z.quot_0_l by (apply Z.pow_nonzero; lia).
  - done.
Qed.
Lemma ival_abs a : iwf a → Z.abs (ival a) = Z.of_N (val (data a)).
Proof.
  intros Ha. unfold ival. pose proof (iwf_sign a Ha) as Hs. destruct (sign a); cbn [sg]; try lia. rewrite (proj1 Hs eq_refl). done.
Qed.
Lemma igcd_spec a b : iwf a → iwf b → fits (data a) → fits (data b) → returns (gcd a b) (Z.gcd (ival a) (ival b)).
Proof.
  intros Ha Hb Hfa Hfb. unfold gcd. destruct (gcd_spec _ _ (iwf_data a Ha) (iwf_data b Hb) Hfa Hfb) as (g & -> & W & V).
  apply returns_from; [done|]. cbn [sg]. rewrite Z.mul_1_l, V.
  rewrite <- Z.gcd_abs_l, <- Z.gcd_abs_r, !ival_abs by done.
  destruct (val (data a)), (val (data b)); try done.
Qed.

Definition i64_range (z : Z) : bool := (-2 ^ 63 <=? z) && (z <? 2 ^ 63).
Lemma i64_range_spec z : i64_range z = true ↔ -9223372036854775808 ≤ z < 9223372036854775808.
Proof. unfold i64_range. rewrite andb_true_iff, Z.leb_le, Z.ltb_lt. done. Qed.
Lemma i64_if z (o : option Z) : (-9223372036854775808 ≤ z < 9223372036854775808 → o = Some z) →
  (¬ -9223372036854775808 ≤ z < 9223372036854775808 → o = None) → o = if i64_range z then Some z else None.
Proof. pose proof (i64_range_spec z) as H. destruct (i64_range z); naive_solver. Qed.

Lemma to_i64_spec a : iwf a → to_i64 a = if i64_range (ival a) then Some (ival a) else None.
Proof.
  intros Ha. apply i64_if; unfold to_i64, ival; intros Hr; destruct (sign a); cbn [sg] in *; try (done || lia).
  all: rewrite to_u64_spec by apply Ha; change (2 ^ 64)%N with 18446744073709551616%N; change (N.shiftl 1 63) with 9223372036854775808%N; change (- 2 ^ 63) with (-9223372036854775808).
  all: destruct (N.ltb_spec (val (data a)) 18446744073709551616); cbn [mbind option_bind]; try (done || lia).
  all: rewrite ?N.shiftr_div_pow2; change (2 ^ 63)%N with 9223372036854775808%N.
  - destruct (N.ltb_spec (val (data a)) 9223372036854775808); [f_equal; lia|].
    destruct (N.eqb_spec (val (data a)) 9223372036854775808); [f_equal; lia|lia].
  - rewrite N.div_small by lia. cbn. f_equal. lia.
  - destruct (N.ltb_spec (val (data a)) 9223372036854775808); [lia|].
    destruct (N.eqb_spec (val (data a)) 9223372036854775808); [lia|done].
  - destruct (N.eqb_spec (val (data a) / 9223372036854775808) 0) as [E|]; [|done]. apply N.div_small_iff in E; lia.
Qed.
Lemma from_i64_spec z : -9223372036854775808 ≤ z < 9223372036854775808 → iwf (from_i64 z) ∧ ival (from_i64 z) = z.
Proof.
  intros Hz. unfold from_i64, i64_as_u64. change (2 ^ 64) with 18446744073709551616.
  destruct (Z.ltb_spec 0 z) as [Hp|Hp]; [|destruct (Z.ltb_spec z 0) as [Hn|Hn]].
  - rewrite Z.mod_small by lia. destruct (from_u64_spec (Z.to_N z)) as [W V]; [change (2 ^ 64)%N with 18446744073709551616%N; lia|].
    destruct (from_biguint_spec Plus _ W) as [? ->]. rewrite V. cbn [sg]. split; [done|lia].
  - assert (z mod 18446744073709551616 = z + 18446744073709551616) as ->.
    { symmetry. apply (Z.mod_unique_pos _ _ (-1)); lia. }
    rewrite usub_small, uadd_small by (unfold UINT_MAX; lia). unfold UINT_MAX.
    destruct (from_u64_spec (18446744073709551615 - Z.to_N (z + 18446744073709551616) + 1)) as [W V]; [change (2 ^ 64)%N with 18446744073709551616%N; lia|].
    destruct (from_biguint_spec Minus _ W) as [? ->]. rewrite V. cbn [sg]. split; [done|lia].
  - assert (z = 0) as -> by lia. apply zero_spec.
Qed.

(** * Text *)
Lemma valid_no_slash radix s : valid radix s → 47%N ∉ s.
Proof. intros Hv Hin. rewrite list_elem_of_In in Hin. apply List.Forall_forall with (x := 47%N) in Hv; [|done]. by destruct Hv. Qed.
Lemma itext_spec a radix : iwf a → fits (data a) → (2 ≤ radix ≤ 16)%N →
  ∃ s, to_str_radix a radix = Ok s ∧ parse_bytes s radix = Ok (Some a) ∧ 47%N ∉ s.
Proof.
  intros Ha Hf Hr. unfold to_str_radix. pose proof (iwf_sign a Ha) as Hs.
  destruct (to_str_radix_spec (data a) radix (iwf_data a Ha) Hf Hr) as (s & -> & Hv & Ht & Hn & _).
  destruct (parse_bytes_spec radix s Hr Hv Hn) as (r & Hp & Wr & Vr). rewrite Ht in Vr. pose proof (valid_no_slash radix s Hv).
  assert (r = data a) as -> by (apply val_inj; [done|apply Ha|done]).
  assert (∀ sgn, sgn = sign a → sgn ≠ Zero → from_biguint sgn (data a) = a) as Hfrom.
  { intros sgn -> Hz. apply ival_inj; [apply from_biguint_spec, Ha|done|]. destruct (from_biguint_spec (sign a) (data a) (iwf_data a Ha)) as [_ ->]. done. }
  destruct (sign a) eqn:Ea.
  - eexists. split; [reflexivity|]. cbn [parse_bytes]. rewrite N.eqb_refl, Hp. cbn [mbind outcome_bind option_map]. rewrite (Hfrom Minus) by done.
    split; [done|]. by apply not_elem_of_cons.
  - exists [48%N]. split; [done|]. cbn [parse_bytes N.eqb Pos.eqb]. destruct (parse_bytes_spec radix [48%N]) as (z & -> & Wz & Vz); [done|constructor; [split; [done|cbn; lia]|constructor]|done|].
    cbn [mbind outcome_bind option_map]. split; [|by apply not_elem_of_cons; split; [|apply not_elem_of_nil]].
    do 2 f_equal. apply ival_inj; [by apply from_biguint_spec|done|]. destruct (from_biguint_spec Plus z Wz) as [_ ->]. rewrite Vz. unfold ival. by rewrite Ea.
  - exists s. split; [done|]. destruct s as [|c s]; [done|]. cbn [parse_bytes].
    assert (c ≠ 45%N) as Hc by (intros ->; inversion Hv as [|? ? [? _]]; done). rewrite (proj2 (N.eqb_neq _ _) Hc), Hp. cbn [mbind outcome_bind option_map]. by rewrite (Hfrom Plus).
Qed.

Lemma abs_spec a : iwf a → iwf (abs a) ∧ ival (abs a) = Z.abs (ival a).
Proof.
  intros Ha. unfold abs. destruct (sign a) eqn:Ea.
  - destruct (from_biguint_spec Plus (data a) (iwf_data a Ha)) as [? ->]. split; [done|]. unfold ival. rewrite Ea. cbn [sg]. lia.
  - split; [done|]. by rewrite (ival_zero a).
  - split; [done|]. unfold ival. rewrite Ea. cbn [sg]. lia.
Qed.
Lemma abs_sub_spec a b : iwf a → iwf b → returns (abs_sub a b) (Z.max 0 (ival a - ival b)).
Proof.
  intros Ha Hb. unfold abs_sub. rewrite ilt_spec by done. destruct (Z.ltb_spec (ival b) (ival a)); cbn [negb].
  - rewrite Z.max_r by lia. by apply isub_spec.
  - rewrite Z.max_l by lia. by apply returns_Ok; apply zero_spec.
Qed.

(** * The properties *)
Section BigUintProps.
Import BigUint.
Local Open Scope N_scope.

(** C28. On normalized numbers of any length the operations of [BigUint] that do
    not divide are those on natural numbers, and return normalized numbers:
    addition and multiplication (Karatsuba's method below, which ends), the
    shifts, the bitwise operations and the order; subtraction is exact when it
    is possible and fails an assertion otherwise. *)
Theorem biguint_correct a b n : wf a → wf b →
  (wf (add a b) ∧ val (add a b) = val a + val b) ∧
  (∃ c, mul a b = Ok c ∧ wf c ∧ val c = val a * val b) ∧
  (if val b <=? val a then ∃ d, sub a b = Ok d ∧ wf d ∧ val d = val a - val b else sub a b = Fail AssertFailed) ∧
  (wf (shl a n) ∧ val (shl a n) = val a * 2 ^ n) ∧ (wf (shr a n) ∧ val (shr a n) = val a / 2 ^ n) ∧
  (wf (bitand a b) ∧ val (bitand a b) = N.land (val a) (val b)) ∧
  (wf (bitor a b) ∧ val (bitor a b) = N.lor (val a) (val b)) ∧
  (wf (bitxor a b) ∧ val (bitxor a b) = N.lxor (val a) (val b)) ∧
  cmp a b = (val a ?= val b) ∧ (val a = val b → a = b).
Proof.
  intros Ha Hb. split_and!; try apply add_spec; try apply shl_spec; try apply shr_spec; try apply bitand_spec; try apply bitor_spec;
    try apply bitxor_spec; try done.
  - by apply mul_spec.
  - destruct (N.leb_spec (val b) (val a)); [by apply sub_spec|by apply sub_fails].
  - by apply cmp_spec.
  - by apply val_inj.
Qed.

(** C29. Division of [BigUint] ends and gives quotient and remainder for every
    divisor but zero, for which it fails; Euclid's algorithm ends with the
    greatest common divisor, and [lcm] gives the least common multiple unless
    both numbers are zero, when it divides by zero. [fits] says that the number
    of digits is less than the largest [uint]. *)
Theorem biguint_division_correct a b : wf a → wf b → fits a → fits b → N.of_nat (len a + len b) < UINT_MAX →
  (if val b =? 0 then div_mod_floor a b = Fail ExplicitFail
   else ∃ q r, div_mod_floor a b = Ok (q, r) ∧ wf q ∧ wf r ∧ val q = val a / val b ∧ val r = val a mod val b) ∧
  (∃ g, gcd a b = Ok g ∧ wf g ∧ val g = N.gcd (val a) (val b)) ∧
  (if (val a =? 0) && (val b =? 0) then lcm a b = Fail ExplicitFail
   else ∃ m, lcm a b = Ok m ∧ wf m ∧ val m = N.lcm (val a) (val b)).
Proof.
  intros Ha Hb Hfa Hfb Hf. split_and!.
  - destruct (N.eqb_spec (val b) 0); [by apply div_mod_floor_zero|by apply div_mod_floor_spec].
  - by apply gcd_spec.
  - destruct (N.eqb_spec (val a) 0) as [Ea|], (N.eqb_spec (val b) 0) as [Eb|]; cbn [andb]; try (apply lcm_spec; tauto).
    destruct wf_zero as [Wz Vz]. by rewrite (val_inj a zero), (val_inj b zero) by congruence.
Qed.

(** C31. The text of a [BigUint] in any radix from 2 to 16 is its digits, without
    leading zeros, and reading it back gives the number; every nonempty text of
    digits is read as the number it denotes. *)
Theorem biguint_text_roundtrip a radix s : wf a → fits a → 2 ≤ radix ≤ 16 → valid radix s → s ≠ [] →
  (∃ t, to_str_radix a radix = Ok t ∧ text_of radix (val a) t ∧ parse_bytes t radix = Ok (Some a)) ∧
  (∃ r, parse_bytes s radix = Ok (Some r) ∧ wf r ∧ val r = tval radix s).
Proof.
  intros Ha Hf Hr Hv Hs. split; [|by apply parse_bytes_spec].
  destruct (to_str_radix_spec a radix Ha Hf Hr) as (t & Et & Ht). exists t. split_and!; [done..|].
  destruct Ht as (Htv & Htn & Hne & _). destruct (parse_bytes_spec radix t Hr Htv Hne) as (r & -> & Wr & Vr).
  rewrite (val_inj r a); [done..|]. congruence.
Qed.
End BigUintProps.

(** C30. On integers with normalized digits and sign the operations of [BigInt]
    are those on the integers, for all signs: sums, differences, products,
    order, negation and absolute value; [div_rem] rounds towards zero and
    [div_mod_floor] down, and both fail for a zero divisor; shifting left multiplies, shifting right rounds
    towards zero. *)
Theorem bigint_correct a b n : iwf a → iwf b → fits (data a) →
  returns (add a b) (ival a + ival b) ∧ returns (sub a b) (ival a - ival b) ∧ returns (mul a b) (ival a * ival b) ∧
  (if ival b =? 0 then div_rem a b = Fail ExplicitFail ∧ div_mod_floor a b = Fail ExplicitFail
   else returns2 (div_rem a b) (Z.quot (ival a) (ival b)) (Z.rem (ival a) (ival b)) ∧
     returns2 (div_mod_floor a b) (ival a / ival b) (ival a mod ival b)) ∧
  returns (Ok (neg a)) (- ival a) ∧ returns (Ok (abs a)) (Z.abs (ival a)) ∧ returns (abs_sub a b) (Z.max 0 (ival a - ival b)) ∧
  returns (Ok (shl a n)) (ival a * 2 ^ Z.of_N n) ∧ returns (Ok (shr a n)) (Z.quot (ival a) (2 ^ Z.of_N n)) ∧
  cmp a b = (ival a ?= ival b).
Proof.
  intros Ha Hb Hf. split_and!.
  - by apply iadd_spec.
  - by apply isub_spec.
  - by apply imul_spec.
  - destruct (Z.eqb_spec (ival b) 0) as [Hz|Hz]; [by apply div_zero_fails|split; [by apply div_rem_spec|by apply div_mod_floor_ispec]].
  - by apply returns_Ok; apply neg_spec.
  - by apply returns_Ok; apply abs_spec.
  - by apply abs_sub_spec.
  - by apply returns_Ok; apply shl_ispec.
  - by apply returns_Ok; apply shr_ispec.
  - by apply icmp_spec.
Qed.

(** Conversions of [BigInt] lose nothing: [to_i64] gives the number exactly
    when it fits, [from_i64] is undone by [to_i64] for every [i64], the smallest
    one included, and the text of an integer in any radix from 2 to 16 reads
    back as the integer. *)
Theorem bigint_roundtrip a radix z : iwf a → fits (data a) → (2 ≤ radix ≤ 16)%N → -2 ^ 63 ≤ z < 2 ^ 63 →
  (∃ s, to_str_radix a radix = Ok s ∧ parse_bytes s radix = Ok (Some a)) ∧
  to_i64 a = (if i64_range (ival a) then Some (ival a) else None) ∧
  to_i64 (from_i64 z) = Some z.
Proof.
  intros Ha Hf Hr Hz. split_and!; [destruct (itext_spec a radix Ha Hf Hr) as (s & ? & ? & _); by exists s|by apply to_i64_spec|].
  change (2 ^ 63) with 9223372036854775808 in Hz.
  destruct (from_i64_spec z Hz) as [W V]. rewrite to_i64_spec, V by done. by rewrite (proj2 (i64_range_spec z)).
Qed.

(** * Witnesses *)
(** A number of three digits and one of two. *)
Definition three : BigUint.BigUint := BigUint.from_slice [5; 4294967295; 7]%N.
Definition two : BigUint.BigUint := BigUint.from_slice [4294967295; 3]%N.
Lemma wf_three : wf three.
Proof. apply new_normal. repeat constructor. Qed.
Lemma wf_two : wf two.
Proof. apply new_normal. repeat constructor. Qed.
Lemma iwf_minus d : wf d → val d ≠ 0%N → iwf (mkBigInt Minus d).
Proof. intros Hd Hz. split; [done|]. cbn. naive_solver. Qed.

Lemma biguint_correct_witness :
  (∃ d, BigUint.sub three two = Ok d ∧ wf d ∧ val d = val three - val two)%N ∧ BigUint.sub two three = Fail AssertFailed.
Proof.
  split.
  - exact (proj1 (proj2 (proj2 (biguint_correct three two 37 wf_three wf_two)))).
  - exact (proj1 (proj2 (proj2 (biguint_correct two three 37 wf_two wf_three)))).
Defined.
Lemma biguint_division_correct_witness :
  (∃ q r, BigUint.div_mod_floor three two = Ok (q, r) ∧ wf q ∧ wf r ∧ val q = val three / val two ∧ val r = val three mod val two)%N.
Proof. exact (proj1 (biguint_division_correct three two wf_three wf_two eq_refl eq_refl eq_refl)). Defined.
Lemma biguint_text_roundtrip_witness :
  ∃ t, BigUint.to_str_radix three 10 = Ok t ∧ text_of 10 (val three) t ∧ BigUint.parse_bytes t 10 = Ok (Some three).
Proof.
  refine (proj1 (biguint_text_roundtrip three 10 [49]%N wf_three eq_refl _ _ _)); [done| |done].
  constructor; [done|constructor].
Defined.
Lemma bigint_correct_witness : returns2 (div_mod_floor (mkBigInt Minus three) (mkBigInt Minus two))
  (- Z.of_N (val three) / - Z.of_N (val two)) ((- Z.of_N (val three)) mod (- Z.of_N (val two))).
Proof.
  pose proof (bigint_correct (mkBigInt Minus three) (mkBigInt Minus two) 0) as H.
  destruct H as (_ & _ & _ & [_ H] & _); [by apply iwf_minus; [apply wf_three|]|by apply iwf_minus; [apply wf_two|]|done|exact H].
Defined.
Lemma bigint_roundtrip_witness : to_i64 (from_i64 (- 2 ^ 63)) = Some (- 2 ^ 63).
Proof.
  refine (proj2 (proj2 (bigint_roundtrip (mkBigInt Minus three) 10 (- 2 ^ 63) _ eq_refl _ _))); [|done|lia].
  by apply iwf_minus; [apply wf_three|].
Defined.
(** A sign inside a text is read when it starts a unit of digits. *)
Example parse_inner_sign : BigUint.parse_bytes [49; 43; 48; 48; 48; 48; 48; 48; 48; 50]%N 10 = Ok (Some (BigUint.from_u64 1000000002)).
Proof. vm_compute. reflexivity. Qed.
