(* ===== verification/Integer.v ===== *)
(** The [Integer] trait of [libnum/lib.rs] as a class, what its users rely on as
    a second class, and the signed machine integers as the first instance.  An
    integer of [w] bits is an integer of its range; the operators wrap around,
    and division by zero fails.  The quotient of the smallest integer and [-1]
    is not defined: the compiled code checks the divisor against zero only. *)
From stdpp Require Import prelude.
From Stdlib Require Import ZArith Lia.
From S2P Require Import Prelude.

Local Open Scope Z_scope.

(** The operations of [Integer] and [Ord] that rational numbers use. *)
Class Integer (T : Type) := {
  i_zero : T;
  i_one : T;
  i_add : T → T → outcome T;
  i_sub : T → T → outcome T;
  i_mul : T → T → outcome T;
  i_div : T → T → outcome T;
  i_rem : T → T → outcome T;
  i_neg : T → T;
  i_gcd : T → T → outcome T;
  i_eq : T → T → bool;
  i_lt : T → T → bool;
  i_cmp : T → T → comparison }.

(** What an operation that returns a number standing for [z] promises. *)
Definition gives {T} (stands : T → Z → Prop) (r : outcome T) (z : Z) : Prop := ∃ c, r = Ok c ∧ stands c z.

(** [stands a x]: [a] represents [x].  [fit x]: there is room for [x]. *)
Class IntegerSpec (T : Type) `{Integer T} := {
  stands : T → Z → Prop;
  fit : Z → Prop;
  fit_le x y : fit x → Z.abs y ≤ Z.abs x → fit y;
  stands_fit a x : stands a x → fit x;
  stands_inj a b x : stands a x → stands b x → a = b;
  zero_stands : stands i_zero 0;
  one_stands : stands i_one 1;
  add_gives a b x y : stands a x → stands b y → fit (x + y) → gives stands (i_add a b) (x + y);
  sub_gives a b x y : stands a x → stands b y → fit (x - y) → gives stands (i_sub a b) (x - y);
  mul_gives a b x y : stands a x → stands b y → fit (x * y) → gives stands (i_mul a b) (x * y);
  div_gives a b x y : stands a x → stands b y → y ≠ 0 → gives stands (i_div a b) (Z.quot x y);
  rem_gives a b x y : stands a x → stands b y → y ≠ 0 → gives stands (i_rem a b) (Z.rem x y);
  neg_stands a x : stands a x → stands (i_neg a) (- x);
  gcd_gives a b x y : stands a x → stands b y → gives stands (i_gcd a b) (Z.gcd x y);
  eq_stands a b x y : stands a x → stands b y → i_eq a b = (x =? y);
  lt_stands a b x y : stands a x → stands b y → i_lt a b = (x <? y);
  cmp_stands a b x y : stands a x → stands b y → i_cmp a b = (x ?= y) }.

(** * Signed machine integers *)
Module Int.
Section Width.
Variable w : Z.

Definition int_min : Z := - 2 ^ (w - 1).
Definition wrap (z : Z) : Z := (z - int_min) mod 2 ^ w + int_min.

Definition add (a b : Z) : Z := wrap (a + b).
Definition sub (a b : Z) : Z := wrap (a - b).
Definition mul (a b : Z) : Z := wrap (a * b).
Definition neg (a : Z) : Z := wrap (- a).
Definition checked_by (op : Z → Z → Z) (a b : Z) : outcome Z :=
  if b =? 0 then Fail ExplicitFail
  else if (a =? int_min) && (b =? -1) then Fail Undefined
  else Ok (op a b).
Definition div : Z → Z → outcome Z := checked_by Z.quot.
Definition rem : Z → Z → outcome Z := checked_by Z.rem.
Definition abs (a : Z) : Z := if a <? 0 then neg a else a.

Definition div_rem (a b : Z) : outcome (Z * Z) := d ← div a b; r ← rem a b; Ok (d, r).
(** The remainder and the divisor differ in sign. *)
Definition differ (r b : Z) : bool := ((0 <? r) && (b <? 0)) || ((r <? 0) && (0 <? b)).
Definition div_floor (a b : Z) : outcome Z :=
  '(d, r) ← div_rem a b; Ok (if differ r b then sub d 1 else d).
Definition mod_floor (a b : Z) : outcome Z :=
  r ← rem a b; Ok (if differ r b then add r b else r).
Definition div_mod_floor (a b : Z) : outcome (Z * Z) :=
  '(d, r) ← div_rem a b; Ok (if differ r b then (sub d 1, add r b) else (d, r)).

(** Euclid's algorithm: [while m != 0] *)
Fixpoint gcd_loop (fuel : nat) (m n : Z) : outcome Z :=
  match fuel with
  | O => Fail OutOfFuel
  | S fuel => if m =? 0 then Ok n else r ← rem n m; gcd_loop fuel r m
  end.
Definition gcd (a b : Z) : outcome Z := n ← gcd_loop (Z.to_nat (2 * w + 2)) a b; Ok (abs n).
Definition lcm (a b : Z) : outcome Z := g ← gcd a b; q ← div (mul a b) g; Ok (abs q).
Definition divides (a b : Z) : outcome bool := r ← rem a b; Ok (r =? 0).
Definition is_even (a : Z) : bool := Z.land a 1 =? 0.
Definition is_odd (a : Z) : bool := negb (is_even a).
End Width.

(** The type of the integers of [w] bits. *)
Record int (w : Z) := mkInt { int_val : Z }.
Arguments mkInt {w} _.
Arguments int_val {w} _.

#[export] Instance int_Integer (w : Z) : Integer (int w) := {
  i_zero := mkInt 0;
  i_one := mkInt 1;
  i_add a b := Ok (mkInt (add w (int_val a) (int_val b)));
  i_sub a b := Ok (mkInt (sub w (int_val a) (int_val b)));
  i_mul a b := Ok (mkInt (mul w (int_val a) (int_val b)));
  i_div a b := mkInt <$> div w (int_val a) (int_val b);
  i_rem a b := mkInt <$> rem w (int_val a) (int_val b);
  i_neg a := mkInt (neg w (int_val a));
  i_gcd a b := mkInt <$> gcd w (int_val a) (int_val b);
  i_eq a b := int_val a =? int_val b;
  i_lt a b := int_val a <? int_val b;
  i_cmp a b := int_val a ?= int_val b }.
End Int.
