(* ===== verification/IntegerSound.v ===== *)
(** Correctness of the machine integers of [Integer]: floored division, Euclid's
    algorithm and the laws that rational numbers rely on. *)
From stdpp Require Import prelude.
From Stdlib Require Import ZArith Lia.
From S2P Require Import Prelude Integer.
Import Int.

Local Open Scope Z_scope.

Section Width.
Context (w : Z) (Hw : 2 ≤ w).

(** The integers of [w] bits. *)
Definition is_int (x : Z) : Prop := int_min w ≤ x < - int_min w.

Lemma int_min_neg : int_min w ≤ -2.
Proof using Hw. unfold int_min. pose proof (Z.pow_le_mono_r 2 1 (w - 1)). lia. Qed.
Lemma int_wrap_small x : is_int x → wrap w x = x.
Proof using Hw.
  intros [H1 H2]. unfold wrap. rewrite Z.mod_small; [lia|]. split; [lia|].
  replace (2 ^ w) with (- (2 * int_min w)); [lia|]. unfold int_min. rewrite Z.mul_opp_r, Z.opp_involutive, <- Z.pow_succ_r by lia. f_equal. lia.
Qed.
Lemma wrap_is_int x : is_int (wrap w x).
Proof using Hw.
  unfold wrap, is_int. assert (2 ^ w = - (2 * int_min w)) as E.
  { unfold int_min. rewrite Z.mul_opp_r, Z.opp_involutive, <- Z.pow_succ_r by lia. f_equal. lia. }
  pose proof int_min_neg. pose proof (Z.mod_pos_bound (x - int_min w) (2 ^ w)). lia.
Qed.

(** A division that is defined. *)
Definition divisible (a b : Z) : Prop := b ≠ 0 ∧ ¬ (a = int_min w ∧ b = -1).
Lemma checked_by_spec op a b : divisible a b → checked_by w op a b = Ok (op a b).
Proof using.
  intros [Hb Ho]. unfold checked_by. destruct (Z.eqb_spec b 0); [done|].
  destruct (Z.eqb_spec a (int_min w)), (Z.eqb_spec b (-1)); cbn; try done. tauto.
Qed.
Lemma divisible_small a b : b ≠ 0 → int_min w < a → divisible a b.
Proof using. intros. split; [done|]. lia. Qed.

(** Floored division from the truncated one. *)
Lemma floor_of_trunc a b : b ≠ 0 →
  (if differ (Z.rem a b) b then (Z.quot a b - 1, Z.rem a b + b) else (Z.quot a b, Z.rem a b)) = (a / b, a mod b).
Proof using.
  intros Hb. pose proof (Z.quot_rem a b Hb) as Hqr. unfold differ.
  assert (Z.abs (Z.rem a b) < Z.abs b) as Hr by (by apply Z.rem_bound_abs).
  set (q := Z.quot a b) in *. set (r := Z.rem a b) in *. clearbody q r.
  destruct (Z.ltb_spec 0 r), (Z.ltb_spec b 0), (Z.ltb_spec r 0), (Z.ltb_spec 0 b); cbn [andb orb]; try lia.
  all: first
    [ rewrite <- (Z.div_unique a b q r), <- (Z.mod_unique a b q r) by (lia || nia); done
    | rewrite <- (Z.div_unique a b (q - 1) (r + b)), <- (Z.mod_unique a b (q - 1) (r + b)) by (lia || nia); done ].
Qed.

Lemma int_rem_spec a b : divisible a b → rem w a b = Ok (Z.rem a b).
Proof using. apply checked_by_spec. Qed.
Lemma int_div_spec a b : divisible a b → div w a b = Ok (Z.quot a b).
Proof using. apply checked_by_spec. Qed.

(** * Floored division *)
Lemma int_div_mod_floor_spec a b : is_int a → is_int b → divisible a b →
  div_floor w a b = Ok (a / b) ∧ mod_floor w a b = Ok (a mod b) ∧ div_mod_floor w a b = Ok (a / b, a mod b).
Proof using Hw.
  intros Ha Hb Hd. unfold div_floor, mod_floor, div_mod_floor, div_rem. rewrite int_div_spec, int_rem_spec by done. cbn [mbind outcome_bind].
  pose proof (floor_of_trunc a b (proj1 Hd)) as Hf. pose proof int_min_neg as Hm. unfold is_int in *.
  assert (differ (Z.rem a b) b = true → sub w (Z.quot a b) 1 = Z.quot a b - 1 ∧ add w (Z.rem a b) b = Z.rem a b + b) as Hops.
  { intros E. rewrite E in Hf. injection Hf as Hq Hr. unfold sub, add. rewrite Hq, Hr. destruct Hd as [Hz Ho].
    pose proof (Z.mod_pos_bound a b). pose proof (Z.mod_neg_bound a b).
    rewrite !int_wrap_small; [done|..]; unfold is_int; [lia|].
    assert (Z.abs (a / b) ≤ Z.abs a) by (pose proof (Z.div_mod a b Hz); nia).
    destruct (Z.eq_dec (a / b) (- int_min w)); [|lia]. exfalso. assert (a = int_min w) by lia. apply Ho. split; [done|]. pose proof (Z.div_mod a b Hz). nia. }
  destruct (differ (Z.rem a b) b).
  - destruct (Hops eq_refl) as [E1 E2]. rewrite E1, E2. injection Hf as -> ->. done.
  - injection Hf as -> ->. done.
Qed.

(** * Euclid's algorithm *)
Lemma int_gcd_loop_spec k m n : is_int m → is_int n → Z.abs m ≤ Z.abs n → ¬ (n = int_min w ∧ m = -1) → Z.abs m * Z.abs n < 2 ^ Z.of_nat k →
  ∃ g, gcd_loop w (S k) m n = Ok g ∧ Z.abs g = Z.gcd m n ∧ is_int g.
Proof using Hw.
  revert m n. induction k as [|k IH]; intros m n Hm Hn Hle Hno Hk.
  all: cbn [gcd_loop]; destruct (Z.eqb_spec m 0) as [->|Hz].
  1, 3: exists n; split_and!; [done|symmetry; apply Z.gcd_0_l|done].
  - change (2 ^ Z.of_nat 0) with 1 in Hk. nia.
  - rewrite int_rem_spec by (by split). cbn [mbind outcome_bind].
    pose proof (Z.rem_bound_abs n m Hz) as Hlt. pose proof (Z.quot_rem n m Hz) as Hqr.
    pose proof (Z.rem_abs n m Hz) as Hra. pose proof (Z.mod_pos_bound (Z.abs n) (Z.abs m)). pose proof (Z.div_mod (Z.abs n) (Z.abs m)) as Hdm.
    rewrite Z.rem_mod_nonneg in Hra by lia. assert (1 ≤ Z.abs n / Z.abs m) by (apply Z.div_le_lower_bound; lia).
    assert (2 * Z.abs (Z.rem n m) ≤ Z.abs n) as Hhalf by nia.
    rewrite Nat2Z.inj_succ, Z.pow_succ_r in Hk by lia. unfold is_int in *.
    destruct (IH (Z.rem n m) m) as (g & Hg & Vg & Bg); [lia|lia|lia| |nia|].
    { intros [E1 E2]. assert (n = m) as -> by lia. rewrite Z.rem_same in E2; lia. }
    exists g. cbn [gcd_loop] in Hg. rewrite Hg. split_and!; [done| |lia..]. rewrite Vg. by rewrite Z.gcd_rem, Z.gcd_comm.
Qed.
Lemma int_abs_spec g : is_int g → abs w g = if Z.abs g =? - int_min w then int_min w else Z.abs g.
Proof using Hw.
  unfold is_int, abs, neg. intros Hg. pose proof int_min_neg. destruct (Z.eqb_spec (Z.abs g) (- int_min w)) as [E|E].
  - assert (g = int_min w) as -> by lia. destruct (Z.ltb_spec (int_min w) 0); [|lia]. unfold wrap.
    replace (- int_min w - int_min w) with (1 * 2 ^ w); [by rewrite Z.mod_mul by lia|]. unfold int_min. replace w with (w - 1 + 1) at 1 by lia. rewrite Z.pow_add_r by lia. lia.
  - destruct (Z.ltb_spec g 0); [rewrite int_wrap_small|]; unfold is_int; lia.
Qed.
(** The two divisions that are not defined. *)
Definition gcd_undefined (a b : Z) : bool := ((a =? int_min w) && (b =? -1)) || ((a =? -1) && (b =? int_min w)).
Lemma int_gcd_full a b : is_int a → is_int b →
  gcd w a b = if gcd_undefined a b then Fail Undefined else Ok (if Z.gcd a b =? - int_min w then int_min w else Z.gcd a b).
Proof using Hw.
  intros Ha Hb. pose proof int_min_neg as Hmin. unfold gcd. set (k := Z.to_nat (2 * w)). replace (Z.to_nat (2 * w + 2)) with (S (S k)) by lia. destruct (gcd_undefined a b) eqn:Hu; unfold gcd_undefined in Hu.
  { unfold is_int in *. apply orb_true_iff in Hu as [[->%Z.eqb_eq ->%Z.eqb_eq]%andb_true_iff|[->%Z.eqb_eq ->%Z.eqb_eq]%andb_true_iff]; cbn [gcd_loop].
    - destruct (Z.eqb_spec (int_min w) 0); [lia|]. rewrite int_rem_spec by (split; lia). cbn [mbind outcome_bind].
      rewrite (proj2 (Z.rem_small_iff (-1) (int_min w) ltac:(lia))) by lia. unfold rem, checked_by. by rewrite Z.eqb_refl.
    - unfold rem, checked_by. by rewrite Z.eqb_refl. }
  assert (¬ (a = int_min w ∧ b = -1) ∧ ¬ (b = int_min w ∧ a = -1)) as [Hab Hba] by lia. clear Hu.
  assert (Z.abs a * Z.abs b < 2 ^ Z.of_nat k) as Hk.
  { unfold k. rewrite Z2Nat.id by lia. replace (2 * w) with ((w - 1) + (w - 1) + 2) by lia. rewrite !Z.pow_add_r by lia. unfold is_int, int_min in *. nia. }
  assert (∃ g, gcd_loop w (S (S k)) a b = Ok g ∧ Z.abs g = Z.gcd a b ∧ is_int g) as (g & -> & Vg & Bg).
  { destruct (Z.le_gt_cases (Z.abs a) (Z.abs b)).
    - apply int_gcd_loop_spec; [done..|]. rewrite Nat2Z.inj_succ, Z.pow_succ_r by lia. lia.
    - set (f := S k). cbn [gcd_loop]. subst f. destruct (Z.eqb_spec a 0); [lia|]. unfold is_int in *. rewrite int_rem_spec by (split; lia). cbn [mbind outcome_bind].
      rewrite (proj2 (Z.rem_small_iff b a ltac:(lia))) by lia. rewrite Z.gcd_comm. apply int_gcd_loop_spec; done || lia. }
  cbn [mbind outcome_bind]. f_equal. rewrite <- Vg. by apply int_abs_spec.
Qed.
Lemma gcd_abs_le a b : Z.abs (Z.gcd a b) ≤ Z.max (Z.abs a) (Z.abs b).
Proof using.
  pose proof (Z.gcd_nonneg a b). destruct (Z.eq_dec a 0) as [->|Ha].
  - change (Z.gcd 0 b) with (Z.abs b). lia.
  - pose proof (Z.gcd_divide_l a b) as Hd%Z.divide_abs_r. apply Z.divide_pos_le in Hd; lia.
Qed.
Lemma int_gcd_spec a b : Z.abs a < - int_min w → Z.abs b < - int_min w → gcd w a b = Ok (Z.gcd a b).
Proof using Hw.
  intros Ha Hb. rewrite int_gcd_full by (unfold is_int; lia). unfold gcd_undefined.
  destruct (Z.eqb_spec a (int_min w)), (Z.eqb_spec b (int_min w)); try lia. rewrite andb_false_r. cbn.
  destruct (Z.eqb_spec (Z.gcd a b) (- int_min w)) as [E|]; [|done]. exfalso. pose proof int_min_neg. pose proof (gcd_abs_le a b). lia.
Qed.
(** * The laws of the interface *)
(** Room for an integer and its negation. *)
Definition int_fit (x : Z) : Prop := Z.abs x < - int_min w.
Definition int_stands (a : int w) (x : Z) : Prop := int_val a = x ∧ int_fit x.

Lemma int_gives x : int_fit x → gives int_stands (Ok (mkInt (wrap w x))) x.
Proof using Hw. intros Hx. eexists. split; [done|]. split; [|done]. apply int_wrap_small. unfold is_int, int_fit in *. lia. Qed.
Lemma int_gives_small op y x : op = Ok x → Z.abs x ≤ Z.abs y → int_fit y → gives int_stands (mkInt <$> op) x.
Proof using. intros -> Hle Hy. exists (mkInt x). split; [done|]. split; [done|]. unfold int_fit in *. lia. Qed.
Lemma quot_abs_le a b : b ≠ 0 → Z.abs (Z.quot a b) ≤ Z.abs a.
Proof using. intros Hb. pose proof (Z.quot_abs a b Hb). pose proof (Z.quot_rem (Z.abs a) (Z.abs b)). pose proof (Z.rem_nonneg (Z.abs a) (Z.abs b)). nia. Qed.
Lemma rem_abs_le a b : b ≠ 0 → Z.abs (Z.rem a b) ≤ Z.abs a.
Proof using.
  intros Hb. rewrite <- (Z.rem_abs a b Hb), Z.rem_mod_nonneg by lia.
  pose proof (Z.mod_le (Z.abs a) (Z.abs b)). lia.
Qed.

#[export] Instance int_IntegerSpec : IntegerSpec (int w).
Proof using Hw.
  refine {| stands := int_stands; fit := int_fit |}; unfold i_add, i_sub, i_mul, i_div, i_rem, i_neg, i_gcd, i_eq, i_lt, i_cmp; cbn.
  - unfold int_fit. intros. lia.
  - by intros a x [].
  - intros [a] [b] x [Ha _] [Hb _]. cbn in *. congruence.
  - split; [done|]. unfold int_fit. pose proof int_min_neg. cbn. lia.
  - split; [done|]. unfold int_fit. pose proof int_min_neg. cbn. lia.
  - intros a b x y [-> _] [-> _] H. by apply int_gives.
  - intros a b x y [-> _] [-> _] H. by apply int_gives.
  - intros a b x y [-> _] [-> _] H. by apply int_gives.
  - intros a b x y [-> Hx] [-> _] H. eapply int_gives_small; [apply int_div_spec, divisible_small; [done|]|by apply quot_abs_le|done]. unfold int_fit in Hx. lia.
  - intros a b x y [-> Hx] [-> _] H. eapply int_gives_small; [apply int_rem_spec, divisible_small; [done|]|by apply rem_abs_le|done]. unfold int_fit in Hx. lia.
  - intros a x [-> Hx]. unfold int_fit in *. split; [|unfold int_fit; lia]. cbn. apply int_wrap_small. unfold is_int. lia.
  - intros a b x y [-> Hx] [-> Hy]. pose proof (gcd_abs_le x y). unfold int_fit in *.
    destruct (Z.le_gt_cases (Z.abs x) (Z.abs y)).
    + apply (int_gives_small _ y); [by apply int_gcd_spec|lia|done].
    + apply (int_gives_small _ x); [by apply int_gcd_spec|lia|done].
  - by intros a b x y [-> _] [-> _].
  - by intros a b x y [-> _] [-> _].
  - by intros a b x y [-> _] [-> _].
Defined.
End Width.

(** C34. Signed machine integers of any width: [div_floor], [mod_floor] and
    [div_mod_floor] give the quotient rounded down and its remainder whenever the
    division is defined (the divisor is not zero, and it is not the smallest
    integer by minus one), without overflow on the way, and fail when the divisor
    is zero.  Euclid's algorithm ends for all arguments: with an undefined
    division for the smallest integer and minus one, in either order; with the
    smallest integer, which is negative, when the greatest common divisor is its
    absolute value and does not fit; otherwise with the greatest common divisor,
    which is zero for two zeros. *)
Theorem int_division_correct w a b : 2 ≤ w → is_int w a → is_int w b →
  (divisible w a b → div_floor w a b = Ok (a / b) ∧ mod_floor w a b = Ok (a mod b) ∧ div_mod_floor w a b = Ok (a / b, a mod b)) ∧
  (int_min w < a → int_min w < b → gcd w a b = Ok (Z.gcd a b)) ∧
  gcd w a b = (if gcd_undefined w a b then Fail Undefined else Ok (if Z.gcd a b =? - int_min w then int_min w else Z.gcd a b)) ∧
  div_floor w a 0 = Fail ExplicitFail ∧ mod_floor w a 0 = Fail ExplicitFail.
Proof.
  intros Hw Ha Hb. split_and!; [by apply int_div_mod_floor_spec| |by apply int_gcd_full|done..].
  intros. unfold is_int in *. apply int_gcd_spec; lia.
Qed.
Lemma int_division_correct_witness : div_mod_floor 8 (-127) 2 = Ok (-64, 1) ∧ gcd 8 (-126) 84 = Ok 42.
Proof.
  assert (is_int 8 (-127) ∧ is_int 8 2 ∧ is_int 8 (-126) ∧ is_int 8 84) as (H1 & H2 & H3 & H4) by (split_and!; done).
  split.
  - refine (proj2 (proj2 (proj1 (int_division_correct 8 (-127) 2 _ H1 H2) _))); [lia|split; lia].
  - refine (proj1 (proj2 (int_division_correct 8 (-126) 84 _ H3 H4)) _ _); done.
Defined.
(** The greatest common divisor of the smallest integer and zero wraps around,
    and the one with [-1] divides it by [-1]. *)
Example gcd_of_min : gcd 8 (-128) 0 = Ok (-128) ∧ gcd 8 (-1) (-128) = Fail Undefined.
Proof. vm_compute. split; reflexivity. Qed.
