(* ===== verification/Rational.v ===== *)
(** Rational numbers, [libnum/rational.rs]: [Ratio] over any [Integer].  Numbers
    made by [new] are in lowest terms with a positive denominator; [new_raw],
    which [recip] uses, checks nothing.  Text is a list of bytes, and the texts of
    the components are those of the type of integers, a second class. *)
From stdpp Require Import prelude list.
From S2P Require Import Prelude StrConv BigUint BigInt Integer.

(** [ToStrRadix] and [FromStrRadix] *)
Class Text (T : Type) := {
  t_to_str_radix : T → N → outcome (list N);
  t_from_str_radix : list N → N → outcome (option T) }.

Module Ratio.
Section Ratio.
Context {T : Type} `{Integer T}.

Record Ratio : Type := new_raw { numer : T; denom : T }.

Definition from_integer (t : T) : Ratio := new_raw t i_one.

(** To lowest terms, with a positive denominator. *)
Definition reduce (r : Ratio) : outcome Ratio :=
  g ← i_gcd (numer r) (denom r);
  n ← i_div (numer r) g;
  d ← i_div (denom r) g;
  Ok (if i_lt d i_zero then new_raw (i_neg n) (i_neg d) else new_raw n d).
Definition new (n d : T) : outcome Ratio :=
  if i_eq d i_zero then Fail ExplicitFail else reduce (new_raw n d).
Definition reduced (r : Ratio) : outcome Ratio := reduce r.
Definition is_integer (r : Ratio) : bool := i_eq (denom r) i_one.
Definition recip (r : Ratio) : Ratio := new_raw (denom r) (numer r).

(** * Comparisons: those of the cross products *)
Definition cross {A} (method : T → T → A) (a b : Ratio) : outcome A :=
  x ← i_mul (numer a) (denom b);
  y ← i_mul (denom a) (numer b);
  Ok (method x y).
Definition eq : Ratio → Ratio → outcome bool := cross i_eq.
Definition lt : Ratio → Ratio → outcome bool := cross i_lt.
Definition le : Ratio → Ratio → outcome bool := cross (λ x y, negb (i_lt y x)).
Definition gt : Ratio → Ratio → outcome bool := cross (λ x y, i_lt y x).
Definition ge : Ratio → Ratio → outcome bool := cross (λ x y, negb (i_lt x y)).
Definition cmp : Ratio → Ratio → outcome comparison := cross i_cmp.

(** * Arithmetic *)
Definition mul (a b : Ratio) : outcome Ratio :=
  n ← i_mul (numer a) (numer b);
  d ← i_mul (denom a) (denom b);
  new n d.
Definition div (a b : Ratio) : outcome Ratio :=
  n ← i_mul (numer a) (denom b);
  d ← i_mul (denom a) (numer b);
  new n d.
(** [arith_impl] *)
Definition arith (method : T → T → outcome T) (a b : Ratio) : outcome Ratio :=
  x ← i_mul (numer a) (denom b);
  y ← i_mul (denom a) (numer b);
  n ← method x y;
  d ← i_mul (denom a) (denom b);
  new n d.
Definition add : Ratio → Ratio → outcome Ratio := arith i_add.
Definition sub : Ratio → Ratio → outcome Ratio := arith i_sub.
Definition rem : Ratio → Ratio → outcome Ratio := arith i_rem.
Definition neg (a : Ratio) : Ratio := new_raw (i_neg (numer a)) (denom a).

Definition zero : Ratio := new_raw i_zero i_one.
Definition is_zero (a : Ratio) : outcome bool := eq a zero.
Definition one : Ratio := new_raw i_one i_one.

(** * Rounding *)
(** [(numer - denom + 1) / denom] and [(numer + denom - 1) / denom] *)
Definition round_down (a : Ratio) : outcome Ratio :=
  x ← i_sub (numer a) (denom a); y ← i_add x i_one; q ← i_div y (denom a); Ok (from_integer q).
Definition round_up (a : Ratio) : outcome Ratio :=
  x ← i_add (numer a) (denom a); y ← i_sub x i_one; q ← i_div y (denom a); Ok (from_integer q).
Definition trunc (a : Ratio) : outcome Ratio := q ← i_div (numer a) (denom a); Ok (from_integer q).
Definition floor (a : Ratio) : outcome Ratio :=
  negative ← lt a zero; if (negative : bool) then round_down a else trunc a.
Definition ceil (a : Ratio) : outcome Ratio :=
  negative ← lt a zero; if (negative : bool) then trunc a else round_up a.
Definition round (a : Ratio) : outcome Ratio :=
  negative ← lt a zero; if (negative : bool) then round_down a else round_up a.
Definition fract (a : Ratio) : outcome Ratio := r ← i_rem (numer a) (denom a); Ok (new_raw r (denom a)).
Definition to_integer (a : Ratio) : outcome T := t ← trunc a; Ok (numer t).

(** * Text *)
Context `{Text T}.

Definition to_str_radix (a : Ratio) (radix : N) : outcome (list N) :=
  n ← t_to_str_radix (numer a) radix;
  d ← t_to_str_radix (denom a) radix;
  Ok (n ++ 47%N :: d).
(** [splitn('/', 1)]: the text before the first slash and the rest *)
Fixpoint split_slash (s : list N) : option (list N * list N) :=
  match s with
  | [] => None
  | c :: s => if (c =? 47)%N then Some ([], s) else '(a, b) ← split_slash s; Some (c :: a, b)
  end.
Definition from_str_radix (s : list N) (radix : N) : outcome (option Ratio) :=
  match split_slash s with
  | None => Ok None
  | Some (a, b) =>
      a ← t_from_str_radix a radix;
      match a with
      | None => Ok None
      | Some a =>
          b ← t_from_str_radix b radix;
          match b with
          | None => Ok None
          | Some b => r ← new a b; Ok (Some r)
          end
      end
  end.
End Ratio.
Arguments Ratio : clear implicits.
Arguments new_raw {T} _ _.
Arguments numer {T} _.
Arguments denom {T} _.
End Ratio.

(** * Big rationals *)
#[export] Instance BigInt_Integer : Integer BigInt.BigInt := {
  i_zero := BigInt.zero;
  i_one := BigInt.one;
  i_add := BigInt.add;
  i_sub := BigInt.sub;
  i_mul := BigInt.mul;
  i_div := BigInt.div;
  i_rem := BigInt.rem;
  i_neg := BigInt.neg;
  i_gcd := BigInt.gcd;
  i_eq := BigInt.eq;
  i_lt := BigInt.lt;
  i_cmp := BigInt.cmp }.
#[export] Instance BigInt_Text : Text BigInt.BigInt := {
  t_to_str_radix := BigInt.to_str_radix;
  t_from_str_radix := BigInt.parse_bytes }.

Module BigRational.
Section Float.
(** A type of floats, with what the source uses of it: whether a float is finite,
    and its mantissa, exponent and sign. *)
Context {F : Type} (is_finite : F → bool) (integer_decode : F → N * Z * Z).

Definition from_float (f : F) : outcome (option (Ratio.Ratio BigInt.BigInt)) :=
  if negb (is_finite f) then Ok None
  else
    let '(mantissa, exponent, sign) := integer_decode f in
    let bigint_sign := if (sign =? 1)%Z then BigInt.Plus else BigInt.Minus in
    if (exponent <? 0)%Z then
      let denom := BigInt.shl BigInt.one (Z.to_N (- exponent)) in
      let numer := BigUint.from_u64 mantissa in
      r ← Ratio.new (BigInt.from_biguint bigint_sign numer) denom; Ok (Some r)
    else
      let numer := BigUint.shl (BigUint.from_u64 mantissa) (Z.to_N exponent) in
      Ok (Some (Ratio.from_integer (BigInt.from_biguint bigint_sign numer))).
End Float.
End BigRational.
