(* ===== verification/RationalSound.v ===== *)
(** Correctness of [Ratio]: over any lawful type of integers, and while the
    cross products have room, its operations are those on the rational numbers,
    and their results are in lowest terms with a positive denominator. *)
From stdpp Require Import prelude list.
From Stdlib Require Import ZArith Lia QArith Qround Qpower.
From S2P Require Import Prelude StrConv BigUint BigUintSound BigUintDiv BigUintText BigInt BigIntSound Integer IntegerSound Rational.
Import Ratio.

Local Open Scope Z_scope.

(** * Quotients of integers *)
Definition quo (n d : Z) : Q := (inject_Z n / inject_Z d)%Q.

Lemma inject_nz d : d ≠ 0 → ¬ (inject_Z d == 0)%Q.
Proof. intros Hd E. apply Hd. unfold Qeq in E. cbn in E. lia. Qed.
Lemma quo_eq n d n' d' : d ≠ 0 → d' ≠ 0 → (quo n d == quo n' d')%Q ↔ n * d' = n' * d.
Proof.
  intros Hd Hd'. apply inject_nz in Hd as Hq, Hd' as Hq'. unfold quo.
  transitivity (inject_Z n * inject_Z d' == inject_Z n' * inject_Z d)%Q.
  - split; intros E.
    + transitivity ((inject_Z n / inject_Z d) * (inject_Z d * inject_Z d'))%Q; [by field|]. rewrite E. by field.
    + transitivity ((inject_Z n * inject_Z d') / (inject_Z d * inject_Z d'))%Q; [by field; split|]. rewrite E. field. by split.
  - rewrite <- !inject_Z_mult. unfold Qeq. cbn. lia.
Qed.
Lemma quo_make n d : 0 < d → (quo n d == n # Z.to_pos d)%Q.
Proof. intros Hd. unfold quo. rewrite (Qmake_Qdiv n (Z.to_pos d)), Z2Pos.id by done. done. Qed.
Lemma quo_compare n d n' d' : 0 < d → 0 < d' → (quo n d ?= quo n' d')%Q = (n * d' ?= d * n').
Proof. intros Hd Hd'. rewrite !quo_make by done. unfold Qcompare. cbn. by rewrite !Z2Pos.id, (Z.mul_comm n') by done. Qed.
Lemma quo_floor n d : 0 < d → Qfloor (quo n d) = n / d.
Proof. intros Hd. rewrite quo_make by done. cbn. by rewrite Z2Pos.id. Qed.


(** The integer part, towards zero. *)
Definition qtrunc (q : Q) : Z := Z.quot (Qnum q) (Z.pos (Qden q)).
#[export] Instance qtrunc_proper : Proper (Qeq ==> Logic.eq) qtrunc.
Proof.
  intros [a b] [c d] E. unfold Qeq, qtrunc in *. cbn in *.
  rewrite <- (Z.quot_mul_cancel_r a (Z.pos b) (Z.pos d)), E by lia. rewrite (Z.mul_comm (Z.pos b)). by apply Z.quot_mul_cancel_r.
Qed.
Lemma qtrunc_quo n d : d ≠ 0 → qtrunc (quo n d) = Z.quot n d.
Proof.
  intros Hd. assert (∀ n d, 0 < d → qtrunc (quo n d) = Z.quot n d) as Hpos.
  { intros n' d' Hd'. rewrite quo_make by done. unfold qtrunc. cbn. by rewrite Z2Pos.id. }
  destruct (Z.lt_trichotomy d 0) as [Hn|[->|Hp]]; [|done|by apply Hpos].
  assert (quo n d == quo (- n) (- d))%Q as -> by (apply quo_eq; lia). rewrite Hpos by lia. by rewrite Z.quot_opp_opp.
Qed.

(** * Lowest terms *)
Section Spec.
Context {T : Type} `{HS : IntegerSpec T}.

(** [r] is [q] in lowest terms, neither part larger than [M]. *)
Record rat (M : Z) (r : Ratio T) (q : Q) (n d : Z) : Prop := {
  rat_numer : stands (numer r) n;
  rat_denom : stands (denom r) d;
  rat_pos : 0 < d;
  rat_gcd : Z.gcd n d = 1;
  rat_quo : (quo n d == q)%Q;
  rat_size : Z.abs n ≤ M ∧ d ≤ M }.

Lemma reduce_spec a n d M : stands (numer a) n → stands (denom a) d → d ≠ 0 → Z.abs n ≤ M → Z.abs d ≤ M →
  ∃ r n' d', reduce a = Ok r ∧ rat M r (quo n d) n' d'.
Proof.
  intros Hn Hd Hz Hsn Hsd. unfold reduce. destruct (gcd_gives _ _ _ _ Hn Hd) as (g & -> & Hg). cbn [mbind outcome_bind].
  set (k := Z.gcd n d) in *. assert (0 < k) as Hk by (pose proof (Z.gcd_nonneg n d); assert (k ≠ 0) by (intros E; apply Z.gcd_eq_0_r in E; done); lia).
  destruct (Z.gcd_divide_l n d) as [n' En], (Z.gcd_divide_r n d) as [d' Ed]. fold k in En, Ed.
  assert (Z.gcd n' d' = 1) as Hg1.
  { assert (Z.gcd (n' * k) (d' * k) = k) as E by (by rewrite <- En, <- Ed). rewrite Z.gcd_mul_mono_r, Z.abs_eq in E by lia. nia. }
  assert (d' ≠ 0) by nia. assert (Z.abs n' ≤ M ∧ Z.abs d' ≤ M) by nia.
  destruct (div_gives _ _ _ _ Hn Hg ltac:(lia)) as (qn & -> & Hqn), (div_gives _ _ _ _ Hd Hg ltac:(lia)) as (qd & -> & Hqd).
  cbn [mbind outcome_bind]. rewrite En, Z.quot_mul in Hqn by lia. rewrite Ed, Z.quot_mul in Hqd by lia.
  rewrite (lt_stands _ _ _ _ Hqd zero_stands). destruct (Z.ltb_spec d' 0).
  - eexists _, (- n'), (- d'). split; [done|]. apply neg_stands in Hqn, Hqd. split; [done|done|lia|by rewrite Z.gcd_opp_l, Z.gcd_opp_r| |lia].
    apply quo_eq; nia.
  - eexists _, n', d'. split; [done|]. split; [done|done|lia|done| |lia]. apply quo_eq; nia.
Qed.
Lemma new_spec a b n d M : stands a n → stands b d → d ≠ 0 → Z.abs n ≤ M → Z.abs d ≤ M →
  ∃ r n' d', new a b = Ok r ∧ rat M r (quo n d) n' d'.
Proof.
  intros Hn Hd Hz Hsn Hsd. unfold new. rewrite (eq_stands _ _ _ _ Hd zero_stands). destruct (Z.eqb_spec d 0); [done|]. by apply reduce_spec.
Qed.
Lemma new_zero a b : stands b 0 → new a b = Fail ExplicitFail.
Proof. intros Hd. unfold new. by rewrite (eq_stands _ _ _ _ Hd zero_stands). Qed.

(** Lowest terms are unique. *)
Lemma coprime_unique n d n' d' : 0 < d → 0 < d' → Z.gcd n d = 1 → Z.gcd n' d' = 1 → n * d' = n' * d → n = n' ∧ d = d'.
Proof.
  intros Hd Hd' Hg Hg' E.
  assert (d | d') as D1 by (apply (Z.gauss d n d'); [exists n'; lia|by rewrite Z.gcd_comm]).
  assert (d' | d) as D2 by (apply (Z.gauss d' n' d); [exists n; lia|by rewrite Z.gcd_comm]).
  assert (d = d') as -> by (apply Z.divide_antisym_nonneg; lia || done). split; [nia|done].
Qed.
Lemma rat_unique M M' r r' q q' n d n' d' : rat M r q n d → rat M' r' q' n' d' → (q == q')%Q → r = r'.
Proof.
  intros [N D P G V _] [N' D' P' G' V' _] E. destruct (coprime_unique n d n' d') as [-> ->]; [done..| |].
  - apply quo_eq; [lia..|]. by rewrite V, V'.
  - destruct r, r'. cbn in *. f_equal; by eapply stands_inj.
Qed.

(** * Operations on numbers in lowest terms *)
Context (M : Z) (Hfit : fit (2 * M * M)).
Context (a b : Ratio T) (p q : Q) (n d n' d' : Z) (Ha : rat M a p n d) (Hb : rat M b q n' d').

Lemma size_pos : 1 ≤ M.
Proof using Ha. destruct Ha. lia. Qed.
Lemma fits_in x : Z.abs x ≤ 2 * M * M → fit x.
Proof using Hfit. intros Hx. eapply fit_le; [exact Hfit|]. lia. Qed.
Lemma prod_size x y : Z.abs x ≤ M → Z.abs y ≤ M → Z.abs (x * y) ≤ M * M.
Proof using. intros. nia. Qed.
Lemma product u v x y : stands u x → stands v y → Z.abs x ≤ M → Z.abs y ≤ M → gives stands (i_mul u v) (x * y).
Proof using Hfit. intros Hu Hv Hx Hy. apply mul_gives; [done..|]. apply fits_in. pose proof (prod_size x y Hx Hy). lia. Qed.

Lemma cross_spec {A} (f : T → T → A) : ∃ x y, cross f a b = Ok (f x y) ∧ stands x (n * d') ∧ stands y (d * n').
Proof using Hfit Ha Hb.
  destruct Ha as [An Ad Ap _ _ As], Hb as [Bn Bd Bp _ _ Bs]. unfold cross.
  destruct (product _ _ _ _ An Bd) as (x & -> & Hx); [lia..|]. destruct (product _ _ _ _ Ad Bn) as (y & -> & Hy); [lia..|]. by exists x, y.
Qed.
Lemma cmp_rspec : cmp a b = Ok (p ?= q)%Q ∧ lt a b = Ok (match (p ?= q)%Q with Lt => true | _ => false end) ∧
  eq a b = Ok (match (p ?= q)%Q with Eq => true | _ => false end).
Proof using Hfit Ha Hb.
  assert ((p ?= q)%Q = (n * d' ?= d * n')) as ->.
  { destruct Ha as [_ _ Ap _ Aq _], Hb as [_ _ Bp _ Bq _]. by rewrite <- Aq, <- Bq, quo_compare. }
  unfold cmp, lt, eq. destruct (cross_spec i_cmp) as (? & ? & -> & Hx & Hy), (cross_spec i_lt) as (? & ? & -> & Hx1 & Hy1), (cross_spec i_eq) as (? & ? & -> & Hx2 & Hy2).
  rewrite (cmp_stands _ _ _ _ Hx Hy), (lt_stands _ _ _ _ Hx1 Hy1), (eq_stands _ _ _ _ Hx2 Hy2). unfold Z.ltb. rewrite Z.eqb_compare. done.
Qed.
Lemma arith_spec method z : (∀ x y, stands x (n * d') → stands y (d * n') → gives stands (method x y) z) → Z.abs z ≤ 2 * M * M →
  ∃ r k m, arith method a b = Ok r ∧ rat (2 * M * M) r (quo z (d * d')) k m.
Proof using Hfit Ha Hb.
  intros Hm Hz. pose proof size_pos. destruct Ha as [An Ad Ap _ _ As], Hb as [Bn Bd Bp _ _ Bs]. unfold arith.
  destruct (product _ _ _ _ An Bd) as (x & -> & Hx); [lia..|]. destruct (product _ _ _ _ Ad Bn) as (y & -> & Hy); [lia..|]. cbn [mbind outcome_bind].
  destruct (Hm x y Hx Hy) as (c & -> & Hc). cbn [mbind outcome_bind]. destruct (product _ _ _ _ Ad Bd) as (e & -> & He); [lia..|]. cbn [mbind outcome_bind].
  apply new_spec; [done|done|nia|done|]. pose proof (prod_size d d'). lia.
Qed.

Definition is_rat (r : outcome (Ratio T)) (x : Q) : Prop := ∃ c k m, r = Ok c ∧ rat (2 * M * M) c x k m.
Lemma is_rat_eq r x y : (x == y)%Q → is_rat r x → is_rat r y.
Proof using. intros E (c & k & m & -> & []). exists c, k, m. split; [done|]. split; try done. by rewrite <- E. Qed.

Lemma cross_size : Z.abs (n * d') ≤ M * M ∧ Z.abs (d * n') ≤ M * M ∧ d ≠ 0 ∧ d' ≠ 0 ∧ 1 ≤ M.
Proof using Ha Hb. pose proof size_pos. destruct Ha as [_ _ Ap _ _ As], Hb as [_ _ Bp _ _ Bs]. pose proof (prod_size n d'). pose proof (prod_size d n'). lia. Qed.
Lemma values : (p == quo n d)%Q ∧ (q == quo n' d')%Q.
Proof using Ha Hb. destruct Ha, Hb. by split. Qed.

Lemma add_rspec : is_rat (add a b) (p + q).
Proof using Hfit Ha Hb.
  pose proof cross_size as (S1 & S2 & D1 & D2 & _). destruct values as [Vp Vq].
  eapply is_rat_eq; [|apply arith_spec; [intros; apply add_gives; [eassumption..|]|]]; [|apply fits_in; lia|lia].
  rewrite Vp, Vq. unfold quo. rewrite inject_Z_plus, !inject_Z_mult. field. split; by apply inject_nz.
Qed.
Lemma sub_rspec : is_rat (sub a b) (p - q).
Proof using Hfit Ha Hb.
  pose proof cross_size as (S1 & S2 & D1 & D2 & _). destruct values as [Vp Vq].
  eapply is_rat_eq; [|apply arith_spec; [intros; apply sub_gives; [eassumption..|]|]]; [|apply fits_in; lia|lia].
  rewrite Vp, Vq. unfold quo, Z.sub. rewrite inject_Z_plus, inject_Z_opp, !inject_Z_mult. field. split; by apply inject_nz.
Qed.
Lemma mul_rspec : is_rat (mul a b) (p * q).
Proof using Hfit Ha Hb.
  pose proof cross_size as (_ & _ & D1 & D2 & HM). destruct values as [Vp Vq], Ha as [An Ad Ap _ _ As], Hb as [Bn Bd Bp _ _ Bs]. unfold mul.
  destruct (product _ _ _ _ An Bn) as (x & -> & Hx); [lia..|]. destruct (product _ _ _ _ Ad Bd) as (y & -> & Hy); [lia..|]. cbn [mbind outcome_bind].
  eapply is_rat_eq; [|apply new_spec; [exact Hx|exact Hy|nia|..]]; [|pose proof (prod_size n n'); nia|pose proof (prod_size d d'); nia].
  rewrite Vp, Vq. unfold quo. rewrite !inject_Z_mult. field. split; by apply inject_nz.
Qed.
Lemma nonzero : ¬ (q == 0)%Q ↔ n' ≠ 0.
Proof using Hb. destruct Hb as [_ _ Bp _ <- _]. change 0%Q with (inject_Z 0). rewrite quo_make by done. unfold Qeq. cbn. lia. Qed.
Lemma div_rspec : if n' =? 0 then div a b = Fail ExplicitFail else is_rat (div a b) (p / q).
Proof using Hfit Ha Hb.
  pose proof cross_size as (S1 & S2 & D1 & D2 & HM). pose proof nonzero as Hnz. destruct values as [Vp Vq], Ha as [An Ad Ap _ _ As], Hb as [Bn Bd Bp _ _ Bs]. unfold div.
  destruct (product _ _ _ _ An Bd) as (x & -> & Hx); [lia..|]. destruct (product _ _ _ _ Ad Bn) as (y & -> & Hy); [lia..|]. cbn [mbind outcome_bind].
  destruct (Z.eqb_spec n' 0) as [E|E]; [apply new_zero; by rewrite E, Z.mul_0_r in Hy|].
  eapply is_rat_eq; [|apply new_spec; [exact Hx|exact Hy|nia|lia..]].
  rewrite Vp, Vq. unfold quo. rewrite !inject_Z_mult. field. split_and!; by apply inject_nz.
Qed.
Lemma rem_rspec : n' ≠ 0 → is_rat (rem a b) (p - q * inject_Z (qtrunc (p / q))).
Proof using Hfit Ha Hb.
  intros Hz. pose proof cross_size as (S1 & S2 & D1 & D2 & HM). pose proof nonzero as Hnz. destruct values as [Vp Vq].
  assert (d * n' ≠ 0) as Hdz by nia. pose proof (rem_abs_le (n * d') (d * n') Hdz).
  eapply is_rat_eq; [|apply arith_spec; [intros; apply rem_gives; [eassumption..|done]|]]; [|lia].
  assert (p / q == quo (n * d') (d * n'))%Q as ->.
  { rewrite Vp, Vq. unfold quo. rewrite !inject_Z_mult. field. split_and!; by apply inject_nz. }
  rewrite qtrunc_quo by done. rewrite Vp, Vq. unfold quo.
  assert (Z.rem (n * d') (d * n') = n * d' + - (d * n' * Z.quot (n * d') (d * n'))) as -> by (pose proof (Z.quot_rem (n * d') (d * n')); lia).
  rewrite inject_Z_plus, inject_Z_opp, !inject_Z_mult. field. split; by apply inject_nz.
Qed.
End Spec.

(** * Rounding, negation and reciprocal *)
Section Round.
Context {T : Type} `{HS : IntegerSpec T} (M : Z) (Hfit : fit (2 * M * M)).
Context (a : Ratio T) (p : Q) (n d : Z) (Ha : rat M a p n d).

Lemma zero_rat : rat M zero 0 0 1.
Proof using Ha. pose proof (size_pos M a p n d Ha). split; [apply zero_stands|apply one_stands|lia|done| |lia]. done. Qed.
Lemma is_negative : lt a zero = Ok (n <? 0).
Proof using Ha Hfit.
  destruct (cross_spec M Hfit a zero p 0 n d 0 1 Ha zero_rat i_lt) as (x & y & E & Hx & Hy). unfold lt. rewrite E.
  rewrite (lt_stands _ _ _ _ Hx Hy). by rewrite Z.mul_1_r, Z.mul_0_r.
Qed.
Lemma whole r z : gives stands r z → Z.abs z ≤ 2 * M * M → ∃ c, (q ← r; Ok (from_integer q)) = Ok c ∧ rat (2 * M * M) c (inject_Z z) z 1.
Proof using Ha.
  intros (c & -> & Hc) Hz. exists (from_integer c). split; [done|]. pose proof (size_pos M a p n d Ha).
  split; [done|apply one_stands|lia|apply Z.gcd_1_r| |nia]. by rewrite quo_make.
Qed.
Lemma p_floor : Qfloor p = n / d ∧ Qceiling p = - (- n / d) ∧ qtrunc p = Z.quot n d.
Proof using Ha.
  destruct Ha as [_ _ Ap _ <- _]. split_and!; [by apply quo_floor| |apply qtrunc_quo; lia].
  unfold Qceiling. assert (- quo n d == quo (- n) d)%Q as ->; [|by rewrite quo_floor]. unfold quo. rewrite inject_Z_opp. field. apply inject_nz. lia.
Qed.
Lemma floor_neg : n < 0 → Z.quot (n - d + 1) d = n / d.
Proof using Ha.
  intros Hn. pose proof (rat_pos _ _ _ _ _ Ha) as Hd. replace (n - d + 1) with (- (d - n - 1)) by lia. rewrite Z.quot_opp_l, Z.quot_div_nonneg by lia.
  pose proof (Z.div_mod n d). pose proof (Z.mod_pos_bound n d). rewrite <- (Z.div_unique (d - n - 1) d (- (n / d)) (d - 1 - n mod d)); lia.
Qed.
Lemma ceil_pos : 0 ≤ n → Z.quot (n + d - 1) d = - (- n / d).
Proof using Ha.
  intros Hn. pose proof (rat_pos _ _ _ _ _ Ha) as Hd. rewrite Z.quot_div_nonneg by lia.
  pose proof (Z.div_mod (- n) d). pose proof (Z.mod_pos_bound (- n) d). symmetry. apply (Z.div_unique _ _ _ (d - 1 - (- n) mod d)); lia.
Qed.
Lemma trunc_cases : Z.quot n d = if n <? 0 then - (- n / d) else n / d.
Proof using Ha.
  pose proof (rat_pos _ _ _ _ _ Ha) as Hd. destruct (Z.ltb_spec n 0); [|by apply Z.quot_div_nonneg].
  rewrite <- Z.quot_div_nonneg, Z.quot_opp_l by lia. lia.
Qed.

(** A whole number in lowest terms. *)
Definition is_whole (r : outcome (Ratio T)) (z : Z) : Prop := ∃ c, r = Ok c ∧ rat (2 * M * M) c (inject_Z z) z 1.
Lemma sizes : Z.abs n ≤ M ∧ 0 < d ≤ M ∧ 2 * M ≤ 2 * M * M.
Proof using Ha. destruct Ha. nia. Qed.
Lemma trunc_rspec : is_whole (trunc a) (qtrunc p).
Proof using Ha.
  destruct p_floor as (_ & _ & ->), sizes as (? & ? & ?). destruct Ha as [An Ad _ _ _ _]. apply whole; [apply div_gives; lia || done|].
  pose proof (quot_abs_le n d). lia.
Qed.
Lemma round_down_rspec : n < 0 → is_whole (round_down a) (Qfloor p).
Proof using Ha Hfit.
  intros Hn. destruct p_floor as (-> & _ & _), sizes as (? & ? & ?). rewrite <- floor_neg by done. destruct Ha as [An Ad _ _ _ _]. unfold round_down.
  destruct (sub_gives _ _ _ _ An Ad) as (x & -> & Hx); [apply (fits_in M Hfit); lia|]. cbn [mbind outcome_bind].
  destruct (add_gives _ _ _ _ Hx one_stands) as (y & -> & Hy); [apply (fits_in M Hfit); lia|]. cbn [mbind outcome_bind].
  apply whole; [apply div_gives; lia || done|]. pose proof (quot_abs_le (n - d + 1) d). lia.
Qed.
Lemma round_up_rspec : 0 ≤ n → is_whole (round_up a) (Qceiling p).
Proof using Ha Hfit.
  intros Hn. destruct p_floor as (_ & -> & _), sizes as (? & ? & ?). rewrite <- ceil_pos by done. destruct Ha as [An Ad _ _ _ _]. unfold round_up.
  destruct (add_gives _ _ _ _ An Ad) as (x & -> & Hx); [apply (fits_in M Hfit); lia|]. cbn [mbind outcome_bind].
  destruct (sub_gives _ _ _ _ Hx one_stands) as (y & -> & Hy); [apply (fits_in M Hfit); lia|]. cbn [mbind outcome_bind].
  apply whole; [apply div_gives; lia || done|]. pose proof (quot_abs_le (n + d - 1) d). lia.
Qed.
Lemma floor_rspec : is_whole (floor a) (Qfloor p).
Proof using Ha Hfit.
  unfold floor. rewrite is_negative. cbn [mbind outcome_bind]. destruct p_floor as (F & _ & Q), (Z.ltb_spec n 0) as [?|?]; [by apply round_down_rspec|].
  pose proof trunc_rspec as Ht. rewrite Q, trunc_cases in Ht. destruct (Z.ltb_spec n 0); [lia|]. by rewrite F.
Qed.
Lemma ceil_rspec : is_whole (ceil a) (Qceiling p).
Proof using Ha Hfit.
  unfold ceil. rewrite is_negative. cbn [mbind outcome_bind]. destruct p_floor as (_ & C & Q), (Z.ltb_spec n 0) as [?|?]; [|by apply round_up_rspec].
  pose proof trunc_rspec as Ht. rewrite Q, trunc_cases in Ht. destruct (Z.ltb_spec n 0); [|lia]. by rewrite C.
Qed.
Lemma fract_rspec : ∃ c k, fract a = Ok c ∧ rat M c (p - inject_Z (qtrunc p)) k d.
Proof using Ha.
  destruct p_floor as (_ & _ & Q), sizes as (? & ? & ?), Ha as [An Ad Ap Ag Aq As]. unfold fract. destruct (rem_gives _ _ _ _ An Ad) as (r & -> & Hr); [lia|].
  exists (new_raw r (denom a)), (Z.rem n d). split; [done|]. pose proof (rem_abs_le n d). split; [done|done|done|by rewrite Z.gcd_rem, Z.gcd_comm by lia| |lia].
  rewrite Q, <- Aq. assert (Z.rem n d = n + - (d * Z.quot n d)) as -> by (pose proof (Z.quot_rem n d); lia).
  unfold quo. rewrite inject_Z_plus, inject_Z_opp, inject_Z_mult. field. apply inject_nz. lia.
Qed.
Lemma neg_rspec : rat M (neg a) (- p) (- n) d.
Proof using Ha.
  destruct Ha as [An Ad Ap Ag Aq As]. split; [by apply neg_stands|done|done|by rewrite Z.gcd_opp_l| |lia].
  rewrite <- Aq. unfold quo. rewrite inject_Z_opp. field. apply inject_nz. lia.
Qed.
(** The reciprocal of a positive number is in lowest terms. *)
Lemma recip_pos : 0 < n → rat M (recip a) (/ p) d n.
Proof using Ha.
  intros Hn. destruct Ha as [An Ad Ap Ag Aq As]. split; [done|done|done|by rewrite Z.gcd_comm| |lia].
  rewrite <- Aq. unfold quo. field. split; apply inject_nz; lia.
Qed.
(** The reciprocal of a negative one compares as if it were positive. *)
Lemma recip_neg : n < 0 → lt (recip a) zero = Ok false.
Proof using Ha Hfit.
  intros Hn. destruct sizes as (? & ? & ?), Ha as [An Ad Ap Ag Aq As]. unfold lt, cross. cbn.
  destruct (mul_gives _ _ _ _ Ad one_stands) as (x & -> & Hx); [apply (fits_in M Hfit); lia|]. cbn [mbind outcome_bind].
  destruct (mul_gives _ _ _ _ An zero_stands) as (y & -> & Hy); [apply (fits_in M Hfit); lia|]. cbn [mbind outcome_bind].
  rewrite (lt_stands _ _ _ _ Hx Hy). f_equal. apply Z.ltb_ge. lia.
Qed.
End Round.

(** * Big integers are lawful *)
Section Big.
Context (k : nat) (Hk0 : (0 < k)%nat) (Hk : (N.of_nat k < UINT_MAX)%N).

(** Room for [k] digits. *)
Definition big_fit (x : Z) : Prop := Z.abs x < Z.of_N (B k).
Definition big_stands (a : BigInt.BigInt) (x : Z) : Prop := iwf a ∧ ival a = x ∧ big_fit x.

Lemma big_fits a x : big_stands a x → fits (BigInt.data a).
Proof using Hk Hk0.
  intros (Ha & Hx & Hf). unfold big_fit in Hf. rewrite <- Hx, ival_abs in Hf by done. unfold fits.
  pose proof (len_le (BigInt.data a) k (iwf_data a Ha)). lia.
Qed.
Lemma big_gives r x : returns r x → big_fit x → gives big_stands r x.
Proof using. intros (c & -> & Hc & Hv) Hf. exists c. by split_and!. Qed.
Lemma big_fit_le x y : big_fit x → Z.abs y ≤ Z.abs x → big_fit y.
Proof using. clear Hk0 Hk. unfold big_fit. lia. Qed.

#[export] Instance BigInt_IntegerSpec : IntegerSpec BigInt.BigInt.
Proof using Hk Hk0.
  assert (∀ x, Z.abs x ≤ 1 → big_fit x) as Hone.
  { intros x Hx. unfold big_fit. pose proof (B_le 1 k Hk0). rewrite B_S, B_0 in *. pose proof base_val. lia. }
  refine {| stands := big_stands; fit := big_fit |}; cbn.
  - apply big_fit_le.
  - by intros a x (_ & _ & ?).
  - intros a b x (Ha & Va & _) (Hb & Vb & _). apply ival_inj; congruence.
  - split_and!; [apply zero_spec..|by apply Hone].
  - split_and!; [apply one_spec..|by apply Hone].
  - intros a b x y (Ha & <- & _) (Hb & <- & _) Hf. apply big_gives; [by apply iadd_spec|done].
  - intros a b x y (Ha & <- & _) (Hb & <- & _) Hf. apply big_gives; [by apply isub_spec|done].
  - intros a b x y (Ha & <- & _) (Hb & <- & _) Hf. apply big_gives; [by apply imul_spec|done].
  - intros a b x y Sa (Hb & <- & _) Hz. pose proof (big_fits a x Sa) as Hfa. destruct Sa as (Ha & <- & Hf). unfold BigInt.div.
    destruct (div_rem_spec a b Ha Hb Hfa Hz) as (c & e & -> & Wc & _ & Vc & _). exists c. split; [done|]. split; [done|]. split; [done|]. by eapply big_fit_le, quot_abs_le.
  - intros a b x y Sa (Hb & <- & _) Hz. pose proof (big_fits a x Sa) as Hfa. destruct Sa as (Ha & <- & Hf). unfold BigInt.rem.
    destruct (div_rem_spec a b Ha Hb Hfa Hz) as (c & e & -> & _ & We & _ & Ve). exists e. split; [done|]. split; [done|]. split; [done|]. by eapply big_fit_le, rem_abs_le.
  - intros a x (Ha & <- & Hf). split_and!; [by apply neg_spec..|]. eapply big_fit_le; [done|]. lia.
  - intros a b x y Sa Sb. pose proof (big_fits a x Sa) as Hfa. pose proof (big_fits b y Sb) as Hfb. destruct Sa as (Ha & <- & Fa), Sb as (Hb & <- & Fb).
    apply big_gives; [by apply igcd_spec|]. pose proof (gcd_abs_le (ival a) (ival b)). unfold big_fit in *. lia.
  - intros a b x y (Ha & <- & _) (Hb & <- & _). unfold BigInt.eq. rewrite icmp_spec by done. by rewrite Z.eqb_compare.
  - intros a b x y (Ha & <- & _) (Hb & <- & _). by apply ilt_spec.
  - intros a b x y (Ha & <- & _) (Hb & <- & _). by apply icmp_spec.
Defined.
End Big.

(** * Text *)
Lemma split_slash_spec s t : 47%N ∉ s → split_slash (s ++ 47%N :: t) = Some (s, t).
Proof.
  induction s as [|c s IH]; intros Hs; [done|]. cbn [app split_slash]. apply not_elem_of_cons in Hs as [Hc Hs].
  destruct (N.eqb_spec c 47) as [->|_]; [done|]. by rewrite (IH Hs).
Qed.
Lemma big_text k (Hk0 : (0 < k)%nat) (Hk : (N.of_nat k < UINT_MAX)%N) M r q n d radix : (2 ≤ radix ≤ 16)%N → rat (HS := BigInt_IntegerSpec k Hk0 Hk) M r q n d →
  ∃ s, to_str_radix r radix = Ok s ∧ from_str_radix s radix = Ok (Some r).
Proof.
  intros Hr Hrat. pose proof Hrat as [Sn Sd Hp Hg Hq [Hs1 Hs2]].
  pose proof (big_fits k Hk0 Hk _ _ Sn) as Fn. pose proof (big_fits k Hk0 Hk _ _ Sd) as Fd.
  pose proof Sn as (Wn & _ & _). pose proof Sd as (Wd & _ & _).
  destruct (itext_spec _ radix Wn Fn Hr) as (s & Es & Ps & Ns), (itext_spec _ radix Wd Fd Hr) as (t & Et & Pt & _).
  exists (s ++ 47%N :: t). unfold to_str_radix, from_str_radix. cbn. rewrite Es, Et. split; [done|].
  rewrite split_slash_spec, Ps by done. cbn [mbind outcome_bind]. rewrite Pt. cbn [mbind outcome_bind].
  destruct (new_spec (HS := BigInt_IntegerSpec k Hk0 Hk) _ _ n d M Sn Sd) as (r' & n' & d' & -> & Hr'); [lia..|].
  cbn. do 2 f_equal. by eapply (rat_unique (HS := BigInt_IntegerSpec k Hk0 Hk)).
Qed.

(** * Floats *)
(** Digits enough for every float: an exponent is an [i16]. *)
Definition float_digits : nat := 1100.
Lemma float_digits_pos : (0 < float_digits)%nat.
Proof. by apply Nat.lt_0_succ. Qed.
Lemma float_digits_fit : (N.of_nat float_digits < UINT_MAX)%N.
Proof. done. Qed.
Definition float_spec : IntegerSpec BigInt.BigInt := BigInt_IntegerSpec float_digits float_digits_pos float_digits_fit.

Lemma shift_fit m e : (m < 2 ^ 64)%N → 0 ≤ e ≤ 32768 → Z.of_N m * 2 ^ e < Z.of_N (B float_digits).
Proof.
  intros Hm He. rewrite B_two, N2Z.inj_pow. change (Z.of_N 2) with 2. apply Z.lt_le_trans with (2 ^ 64 * 2 ^ e).
  - apply Z.mul_lt_mono_pos_r; [apply Z.pow_pos_nonneg; lia|]. change (2 ^ 64)%N with 18446744073709551616%N in Hm. change (2 ^ 64) with 18446744073709551616. lia.
  - rewrite <- Z.pow_add_r by lia. apply Z.pow_le_mono_r; [lia|]. unfold float_digits. lia.
Qed.

Section Float.
Context {F : Type} (is_finite : F → bool) (integer_decode : F → N * Z * Z).

Lemma pow_quo x e : ((if (e <? 0)%Z then quo x (2 ^ (- e))%Z else quo (x * 2 ^ e)%Z 1) == inject_Z x * 2 ^ e)%Q.
Proof using.
  unfold quo. destruct (Z.ltb_spec e 0) as [He|He].
  - rewrite Zpower_Qpower by lia. replace e with (- - e) at 2 by lia. by rewrite (Qpower_opp _ (- e)).
  - rewrite inject_Z_mult, Zpower_Qpower by lia. apply Qmult_1_r.
Qed.
Lemma from_float_spec f m e s : is_finite f = true → integer_decode f = (m, e, s) → (m < 2 ^ 64)%N → -32768 ≤ e < 32768 → s = 1 ∨ s = -1 →
  ∃ r M n d, BigRational.from_float is_finite integer_decode f = Ok (Some r) ∧ rat (HS := float_spec) M r (inject_Z (s * Z.of_N m) * 2 ^ e) n d.
Proof using.
  intros Hf Hd Hm He Hs. unfold BigRational.from_float. rewrite Hf, Hd. cbn [negb].
  assert (sg (if s =? 1 then BigInt.Plus else BigInt.Minus) = s) as Hsg by (destruct Hs as [-> | ->]; done).
  assert (∀ x, 0 ≤ x → Z.abs (s * x) = x) as Habs by (intros; destruct Hs as [-> | ->]; lia).
  destruct (from_u64_spec m Hm) as [Wm Vm]. pose proof (pow_quo (s * Z.of_N m) e) as Hq. destruct (Z.ltb_spec e 0).
  - destruct (from_biguint_spec (if s =? 1 then BigInt.Plus else BigInt.Minus) _ Wm) as [Wn Vn]. rewrite Hsg, Vm in Vn.
    destruct one_spec as [Wo Vo], (shl_ispec BigInt.one (Z.to_N (- e)) Wo) as [Ws Vs]. rewrite Vo, Z2N.id, Z.mul_1_l in Vs by lia.
    pose proof (shift_fit 1 (- e) ltac:(done) ltac:(lia)) as Hd1. pose proof (shift_fit m 0 Hm ltac:(lia)) as Hm1.
    rewrite Z.pow_0_r, Z.mul_1_r in Hm1. pose proof (Z.pow_pos_nonneg 2 (- e)). pose proof (Habs (Z.of_N m) ltac:(lia)).
    assert (big_fit float_digits (s * Z.of_N m) ∧ big_fit float_digits (2 ^ (- e))) as [Fn Fd] by (unfold big_fit; lia).
    destruct (new_spec (HS := float_spec) _ _ (s * Z.of_N m) (2 ^ (- e)) (Z.of_N (B float_digits))
      (conj Wn (conj Vn Fn)) (conj Ws (conj Vs Fd))) as (r & n & d & -> & Hr); [lia..|].
    exists r, (Z.of_N (B float_digits)), n, d. split; [done|]. destruct Hr as [A1 A2 A3 A4 A5 A6]. split; try done. by rewrite A5.
  - destruct (shl_spec _ (Z.to_N e) Wm) as [Ws Vs]. destruct (from_biguint_spec (if s =? 1 then BigInt.Plus else BigInt.Minus) _ Ws) as [Wn Vn].
    rewrite Hsg, Vs, Vm, N2Z.inj_mul, N2Z.inj_pow, Z2N.id in Vn by lia. change (Z.of_N 2) with 2 in Vn. rewrite Z.mul_assoc in Vn.
    pose proof (shift_fit m e Hm ltac:(lia)). pose proof (Z.pow_pos_nonneg 2 e). pose proof (B_pos float_digits).
    pose proof (Habs (Z.of_N m * 2 ^ e) ltac:(lia)) as Ha. rewrite Z.mul_assoc in Ha.
    exists (from_integer (BigInt.from_biguint (if s =? 1 then BigInt.Plus else BigInt.Minus) (BigUint.shl (BigUint.from_u64 m) (Z.to_N e)))), (Z.of_N (B float_digits)), (s * Z.of_N m * 2 ^ e), 1.
    split; [done|]. split; [|apply (one_stands (IntegerSpec := float_spec))|lia|apply Z.gcd_1_r|done|lia].
    split; [done|]. split; [done|]. unfold big_fit. lia.
Qed.
End Float.


(** [floor], [ceil] and [trunc] of a number in lowest terms are its floor,
    its ceiling and its part towards zero as whole numbers, [fract] is the rest,
    and negation is exact.  [round] rounds away from zero whatever the fraction:
    it gives the floor of a negative number and the ceiling of any other one,
    not the nearest integer. *)
Theorem ratio_rounding_correct {T} `{HS : IntegerSpec T} M (a : Ratio T) p n d : fit (2 * M * M) → rat M a p n d →
  is_whole M (floor a) (Qfloor p) ∧ is_whole M (ceil a) (Qceiling p) ∧ is_whole M (trunc a) (qtrunc p) ∧
  (∃ c k, fract a = Ok c ∧ rat M c (p - inject_Z (qtrunc p)) k d) ∧ rat M (neg a) (- p) (- n) d ∧
  is_whole M (round a) (if n <? 0 then Qfloor p else Qceiling p).
Proof.
  intros Hf Ha. split_and!; [by eapply floor_rspec|by eapply ceil_rspec|by eapply trunc_rspec|by eapply fract_rspec|by apply neg_rspec|].
  unfold round. erewrite is_negative by done. cbn [mbind outcome_bind]. destruct (Z.ltb_spec n 0); [by eapply round_down_rspec|by eapply round_up_rspec].
Qed.

(** The reciprocal of a positive number is in lowest terms; that of a
    negative one keeps the negative denominator, so that the order takes it for
    a number that is not negative. *)
Theorem recip_negative_misordered {T} `{HS : IntegerSpec T} M (a : Ratio T) p n d : fit (2 * M * M) → rat M a p n d →
  (0 < n → rat M (recip a) (/ p) d n) ∧ (n < 0 → (/ p < 0)%Q ∧ lt (recip a) zero = Ok false).
Proof.
  intros Hf Ha. split; [by apply recip_pos|]. intros Hn. split; [|by eapply recip_neg].
  destruct Ha as [_ _ Hd _ <- _]. apply Qlt_alt. change 0%Q with (inject_Z 0). rewrite quo_make by done.
  unfold Qinv. cbn. destruct n; [lia|lia|]. done.
Qed.

(** The text of a big rational in lowest terms, in any radix from 2 to 16,
    reads back as the number; a finite float is converted exactly: to its
    mantissa, signed, times its power of two, in lowest terms. *)
Theorem big_rational_roundtrip k (Hk0 : (0 < k)%nat) (Hk : (N.of_nat k < UINT_MAX)%N) M r q n d radix
    {F} (is_finite : F → bool) (integer_decode : F → N * Z * Z) f m e s :
  (2 ≤ radix ≤ 16)%N → rat (HS := BigInt_IntegerSpec k Hk0 Hk) M r q n d →
  is_finite f = true → integer_decode f = (m, e, s) → (m < 2 ^ 64)%N → -32768 ≤ e < 32768 → s = 1 ∨ s = -1 →
  (∃ t, to_str_radix r radix = Ok t ∧ from_str_radix t radix = Ok (Some r)) ∧
  (∃ r M n d, BigRational.from_float is_finite integer_decode f = Ok (Some r) ∧
    rat (HS := float_spec) M r (inject_Z (s * Z.of_N m) * 2 ^ e) n d).
Proof. intros. split; [by eapply big_text|by eapply from_float_spec]. Qed.

(** * Witnesses *)
#[local] Existing Instance Int.int_Integer.
Lemma width_64 : 2 ≤ 64.
Proof. lia. Qed.
(** Machine integers of 64 bits. *)
Definition int64_spec : IntegerSpec (Int.int 64) := int_IntegerSpec 64 width_64.
Lemma int64_rat n d : Z.abs n ≤ 10 → 0 < d ≤ 10 → Z.gcd n d = 1 →
  rat (HS := int64_spec) 10 (new_raw (Int.mkInt n) (Int.mkInt d)) (n # Z.to_pos d) n d.
Proof.
  intros Hn Hd Hg. assert (∀ x, Z.abs x ≤ 10 → int_fit 64 x) as Hf by (intros; unfold int_fit; change (Int.int_min 64) with (-9223372036854775808); lia).
  split; [split; [done|by apply Hf]|split; [done|by apply Hf; lia]|lia|done|apply quo_make; lia|lia].
Qed.
Lemma int64_fit : fit (IntegerSpec := int64_spec) (2 * 10 * 10).
Proof. done. Qed.
Lemma ratio_rounding_correct_witness : is_whole (HS := int64_spec) 10 (round (new_raw (Int.mkInt 1) (Int.mkInt 3))) 1.
Proof.
  refine (proj2 (proj2 (proj2 (proj2 (proj2 (ratio_rounding_correct (HS := int64_spec) 10 _ _ _ _ int64_fit (int64_rat 1 3 _ _ _))))))); done.
Defined.
Lemma recip_negative_misordered_witness : lt (recip (new_raw (Int.mkInt (-1)) (Int.mkInt 2) : Ratio (Int.int 64))) zero = Ok false.
Proof.
  refine (proj2 (proj2 (recip_negative_misordered (HS := int64_spec) 10 _ _ _ _ int64_fit (int64_rat (-1) 2 _ _ _)) _)); done.
Defined.
Lemma big_rational_roundtrip_witness : ∃ r M n d, BigRational.from_float (λ _ : unit, true) (λ _, (5%N, -3, -1)) tt = Ok (Some r) ∧
    rat (HS := float_spec) M r (inject_Z (-1 * 5) * 2 ^ (-3)) n d.
Proof.
  refine (proj2 (big_rational_roundtrip float_digits float_digits_pos float_digits_fit 1 zero 0 0 1 10 (λ _ : unit, true) (λ _, (5%N, -3, -1)) tt 5 (-3) (-1) _ _ _ _ _ _ _));
    [done| |done|done|done|lia|by right].
  split; [apply (zero_stands (IntegerSpec := float_spec))|apply (one_stands (IntegerSpec := float_spec))|lia|done|done|lia].
Defined.
