(* ===== verification/Sort.v ===== *)
(** Sorting, searching and removing duplicates in vectors: [libstd/slice.rs] and
    [libstd/vec.rs].  The sorts move values by raw pointers between the vector
    and a working space that is not initialized, so memory is a list of cells
    that may be empty, and an access outside of a buffer or to an empty cell is
    [Undefined].  A closure that compares is a function.  Lengths are natural
    numbers: a vector fits the address space, so that no sum of the source
    overflows. *)
From stdpp Require Import prelude list.
From S2P Require Import Prelude.

Module Slice.
(** [for i in range(i, i + n)] *)
Fixpoint for_range {A} (n i : nat) (f : nat → A → outcome A) (s : A) : outcome A :=
  match n with 0 => Ok s | S n => s ← f i s; for_range n (S i) f s end.
(** [for start in range_step(start, len, step)] *)
Fixpoint for_step {A} (fuel start len step : nat) (f : nat → A → outcome A) (s : A) : outcome A :=
  match fuel with
  | 0 => Fail OutOfFuel
  | S fuel => if start <? len then s ← f start s; for_step fuel (start + step) len step f s else Ok s
  end.

Section Sort.
Context {T : Type} (compare : T → T → comparison).

(** * Memory *)
Definition buffer : Type := list (option T).
Definition read (b : buffer) (i : nat) : outcome T :=
  match b !! i with Some (Some x) => Ok x | _ => Fail Undefined end.
Definition segment (b : buffer) (src n : nat) : outcome buffer :=
  if src + n <=? length b then Ok (take n (drop src b)) else Fail Undefined.
Definition write (b : buffer) (dst : nat) (cells : buffer) : outcome buffer :=
  if dst + length cells <=? length b then Ok (take dst b ++ cells ++ drop (dst + length cells) b) else Fail Undefined.
(** [ptr::copy_memory], [ptr::copy_nonoverlapping_memory] *)
Definition copy_memory (b : buffer) (dst : nat) (b' : buffer) (src n : nat) : outcome buffer :=
  cells ← segment b' src n; write b dst cells.

(** * Insertion sort *)
(** [while j > start && compare(&*read_ptr, &*buf.offset(j - 1)) == Less] *)
Fixpoint find_pos (x : T) (b : buffer) (start j : nat) : outcome nat :=
  match j with
  | 0 => Ok 0
  | S j' =>
      if start <? j then
        y ← read b j';
        match compare x y with Lt => find_pos x b start j' | _ => Ok j end
      else Ok j
  end.
Definition insertion_step (i : nat) (v : buffer) : outcome buffer :=
  x ← read v i;
  j ← find_pos x v 0 i;
  if i =? j then Ok v
  else v ← copy_memory v (j + 1) v j (i - j); write v j [Some x].
Definition insertion_sort (v : buffer) : outcome buffer := for_range (length v - 1) 1 insertion_step v.

(** * Merge sort *)
(** Step 1: a run of [v] is sorted into [buf_dat]. *)
Definition run_step (v : buffer) (start i : nat) (buf_dat : buffer) : outcome buffer :=
  x ← read v i;
  j ← find_pos x buf_dat start i;
  buf_dat ← copy_memory buf_dat (j + 1) buf_dat j (i - j);
  copy_memory buf_dat j v i 1.
Definition sort_run (v : buffer) (len insertion start : nat) (buf_dat : buffer) : outcome buffer :=
  for_range ((start + insertion) `min` len - start) start (run_step v start) buf_dat.

(** Step 2: [while out < out_end] *)
Fixpoint merge_loop (fuel : nat) (buf_dat buf_tmp : buffer) (left right_start right right_end out out_end : nat) : outcome buffer :=
  match fuel with
  | 0 => Fail OutOfFuel
  | S fuel =>
      if out <? out_end then
        if left =? right_start then copy_memory buf_tmp out buf_dat right (right_end - right)
        else if right =? right_end then copy_memory buf_tmp out buf_dat left (right_start - left)
        else
          x ← read buf_dat left;
          y ← read buf_dat right;
          match compare x y with
          | Gt => buf_tmp ← copy_memory buf_tmp out buf_dat right 1;
                  merge_loop fuel buf_dat buf_tmp left right_start (S right) right_end (S out) out_end
          | _ => buf_tmp ← copy_memory buf_tmp out buf_dat left 1;
                 merge_loop fuel buf_dat buf_tmp (S left) right_start right right_end (S out) out_end
          end
      else Ok buf_tmp
  end.
Definition merge_runs (buf_dat : buffer) (len width start : nat) (buf_tmp : buffer) : outcome buffer :=
  let right_start := (start + width) `min` len in
  let right_end_idx := (start + 2 * width) `min` len in
  merge_loop (S (right_end_idx - start)) buf_dat buf_tmp start right_start right_start right_end_idx start right_end_idx.
(** [while width < len] *)
Fixpoint merge_passes (fuel : nat) (len width : nat) (buf_dat buf_tmp : buffer) : outcome buffer :=
  match fuel with
  | 0 => Fail OutOfFuel
  | S fuel =>
      if width <? len then
        buf_tmp ← for_step (S len) 0 len (2 * width) (merge_runs buf_dat len width) buf_tmp;
        merge_passes fuel len (width * 2) buf_tmp buf_dat
      else Ok buf_dat
  end.

Definition merge_sort (size_of : N) (v : buffer) : outcome buffer :=
  let insertion := if (size_of <=? 16)%N then 32 else 16 in
  let len := length v in
  if len <=? insertion then insertion_sort v
  else
    let working := replicate len None in
    buf_dat ← for_step (S len) 0 len insertion (sort_run v len insertion) working;
    buf_dat ← merge_passes (S len) len insertion buf_dat working;
    copy_memory v 0 buf_dat 0 len.
(** [sort_by]; [sort] is [sort_by] with the order of the type *)
Definition sort_by (size_of : N) (v : list T) : outcome (list T) :=
  b ← merge_sort size_of (Some <$> v);
  unwrap (mapM id b).

(** * Searching *)
Fixpoint bsearch_loop (fuel : nat) (v : list T) (f : T → comparison) (base lim : nat) : outcome (option nat) :=
  match fuel with
  | 0 => Fail OutOfFuel
  | S fuel =>
      if lim =? 0 then Ok None
      else
        let ix := base + Nat.div2 lim in
        x ← vec_get v ix;
        match f x with
        | Eq => Ok (Some ix)
        | Lt => bsearch_loop fuel v f (ix + 1) (Nat.div2 (lim - 1))
        | Gt => bsearch_loop fuel v f base (Nat.div2 lim)
        end
  end.
Definition bsearch (v : list T) (f : T → comparison) : outcome (option nat) := bsearch_loop (S (length v)) v f 0 (length v).
Definition bsearch_elem (v : list T) (x : T) : outcome (option nat) := bsearch v (λ p, compare p x).

(** * Removing repeated elements *)
Fixpoint dedup_loop (eqb : T → T → bool) (fuel : nat) (v : list T) (r w : nat) : outcome (list T * nat) :=
  match fuel with
  | 0 => Fail OutOfFuel
  | S fuel =>
      if r <? length v then
        x ← vec_get v r;
        y ← vec_get v (w - 1);
        if negb (eqb x y) then
          v ← (if r =? w then Ok v else z ← vec_get v w; Ok (<[r := z]> (<[w := x]> v)));
          dedup_loop eqb fuel v (r + 1) (w + 1)
        else dedup_loop eqb fuel v (r + 1) w
      else Ok (v, w)
  end.
Definition dedup (eqb : T → T → bool) (v : list T) : outcome (list T) :=
  if length v <? 1 then Ok v
  else '(v, w) ← dedup_loop eqb (length v) v 1 1; Ok (take w v).
End Sort.
End Slice.
