(* ===== verification/SortSound.v ===== *)
(** Correctness of the sorts: memory safe and a permutation for every comparison,
    sorted and stable for every total order. *)
From stdpp Require Import prelude list.
From Stdlib Require Import Sorting.Sorted Lia.
From S2P Require Import Prelude Sort.
Import Slice.

(** * Lists in memory *)
Section Memory.
Context {T : Type}.
Implicit Types A B C : list (option T).

Lemma segment_mid A B C src n : src = length A → n = length B → segment (A ++ B ++ C) src n = Ok B.
Proof.
  intros -> ->. unfold segment. rewrite !length_app. destruct (Nat.leb_spec (length A + length B) (length A + (length B + length C))); [|lia].
  by rewrite drop_app_length, take_app_length.
Qed.
Lemma write_mid A B C cells dst : dst = length A → length cells = length B → write (A ++ B ++ C) dst cells = Ok (A ++ cells ++ C).
Proof.
  intros -> Hc. unfold write. rewrite !length_app, Hc. destruct (Nat.leb_spec (length A + length B) (length A + (length B + length C))); [|lia].
  by rewrite take_app_length, drop_app_add, drop_app_length.
Qed.
Lemma read_mid A x C i : i = length A → read (A ++ Some x :: C) i = Ok x.
Proof. intros ->. unfold read, buffer. by rewrite list_lookup_middle. Qed.

(** The values from [j] on make room for one more. *)
Lemma shift_spec A l1 l2 (g : option T) C i j : j = length A + length l1 → i = j + length l2 →
  ∃ h, copy_memory (A ++ (Some <$> l1) ++ (Some <$> l2) ++ g :: C) (j + 1) (A ++ (Some <$> l1) ++ (Some <$> l2) ++ g :: C) j (i - j)
    = Ok (A ++ (Some <$> l1) ++ h :: (Some <$> l2) ++ C).
Proof.
  intros -> ->. unfold copy_memory. rewrite (app_assoc A), (segment_mid (A ++ (Some <$> l1)) (Some <$> l2) (g :: C)) by (rewrite ?length_app, ?length_fmap; lia).
  cbn [mbind outcome_bind]. destruct (Some <$> l2) as [|h B] eqn:E.
  - exists g. cbn [app]. replace (length A + length l1 + 1) with (length ((A ++ (Some <$> l1)) ++ [g])) by (rewrite !length_app, length_fmap; cbn; lia).
    replace ((A ++ (Some <$> l1)) ++ g :: C) with (((A ++ (Some <$> l1)) ++ [g]) ++ [] ++ C) by (by rewrite <- !app_assoc).
    rewrite write_mid by done. by rewrite <- !app_assoc.
  - exists h.
    replace ((A ++ (Some <$> l1)) ++ (h :: B) ++ g :: C) with (((A ++ (Some <$> l1)) ++ [h]) ++ (B ++ [g]) ++ C) by (by rewrite <- !app_assoc).
    rewrite write_mid; [by rewrite <- !app_assoc|rewrite !length_app, length_fmap; cbn; lia|rewrite length_app; cbn; lia].
Qed.
End Memory.

(** * Sorting as a relation *)
Section Spec.
Context {T : Type} (compare : T → T → comparison).

(** A total order up to equivalence. *)
Record order_laws : Prop := {
  compare_opp x y : compare y x = CompOpp (compare x y);
  compare_trans x y z : compare x y ≠ Gt → compare y z ≠ Gt → compare x z ≠ Gt }.

Definition le_ (x y : T) : Prop := compare x y ≠ Gt.
Definition equiv_to (z : T) (y : T) : bool := match compare z y with Eq => true | _ => false end.
(** The elements equivalent to [z], in their order. *)
Definition class_of (z : T) (l : list T) : list T := List.filter (equiv_to z) l.

(** [l'] is [l] sorted: for any comparison a permutation, for an order sorted
    and stable. *)
Record sorts (l l' : list T) : Prop := {
  sorts_perm : l ≡ₚ l';
  sorts_sorted : order_laws → StronglySorted le_ l';
  sorts_stable : order_laws → ∀ z, class_of z l' = class_of z l }.

Lemma sorts_nil : sorts [] [].
Proof. split; [done|constructor|done]. Qed.
Lemma class_app z l k : class_of z (l ++ k) = class_of z l ++ class_of z k.
Proof. apply List.filter_app. Qed.
Lemma class_cons z x l : class_of z (x :: l) = if equiv_to z x then x :: class_of z l else class_of z l.
Proof. done. Qed.
Lemma class_none z l : Forall (λ y, compare z y ≠ Eq) l → class_of z l = [].
Proof. induction 1 as [|y l Hy _ IH]; [done|]. cbn. unfold equiv_to. by destruct (compare z y). Qed.

Lemma cmp_lt_gt x y : order_laws → compare x y = Lt ↔ compare y x = Gt.
Proof. intros L. rewrite (compare_opp L x y). by destruct (compare x y). Qed.
Lemma le_not_lt x y : order_laws → le_ x y ↔ compare y x ≠ Lt.
Proof. intros L. unfold le_. by rewrite cmp_lt_gt. Qed.
Lemma lt_le x y : order_laws → compare x y = Lt → le_ x y.
Proof. unfold le_. congruence. Qed.
Lemma gt_le x y : order_laws → compare x y = Gt → le_ y x.
Proof. intros L H. apply cmp_lt_gt in H; [|done]. by apply lt_le. Qed.
Lemma cle_trans x y z : order_laws → le_ x y → le_ y z → le_ x z.
Proof. intros L. apply (compare_trans L). Qed.
(** What is equivalent to [x] is as little equivalent to what is above it as [x] is. *)
Lemma above_not_eq x y z : order_laws → compare x y = Lt → compare z x = Eq → compare z y ≠ Eq.
Proof.
  intros L Hxy Hzx Hzy. apply cmp_lt_gt in Hxy; [|done]. apply (compare_trans L y z x); [|congruence|done].
  rewrite (compare_opp L z y), Hzy. done.
Qed.
(** * Insertion *)
Definition inserts (x : T) (l l' : list T) : Prop := ∃ l1 l2, l = l1 ++ l2 ∧ l' = l1 ++ x :: l2 ∧
  Forall (λ y, compare x y = Lt) l2 ∧ ∀ y, last l1 = Some y → compare x y ≠ Lt.

Lemma sorted_cons x (l : list T) : StronglySorted le_ (x :: l) ↔ Forall (le_ x) l ∧ StronglySorted le_ l.
Proof. split; [intros H; inversion H; done|intros []; by constructor]. Qed.
Lemma ssorted_app (l1 l2 : list T) : StronglySorted le_ (l1 ++ l2) ↔
  StronglySorted le_ l1 ∧ StronglySorted le_ l2 ∧ ∀ x y, x ∈ l1 → y ∈ l2 → le_ x y.
Proof.
  induction l1 as [|a l1 IH]; cbn.
  - split; [intros ?; split_and!; [constructor|done|by intros ? ? ?%elem_of_nil]|by intros (_ & ? & _)].
  - rewrite !sorted_cons, IH, Forall_app. setoid_rewrite elem_of_cons. rewrite !Forall_forall. naive_solver.
Qed.
Lemma inserts_sorts x l l0 l' : sorts l0 l → inserts x l l' → sorts (l0 ++ [x]) l'.
Proof.
  intros [Hp Hs Hc] (l1 & l2 & -> & -> & Hl2 & Hl1). split.
  - rewrite Hp. symmetry. rewrite <- Permutation_middle. apply Permutation_cons_append.
  - intros L. specialize (Hs L). apply ssorted_app in Hs as (S1 & S2 & S12). apply ssorted_app. split_and!; [done| |].
    + apply sorted_cons. split; [|done]. eapply Forall_impl; [exact Hl2|]. intros y. by apply lt_le.
    + intros y z Hy [->|Hz]%elem_of_cons; [|by apply S12].
      destruct (last l1) as [t|] eqn:Et; [|apply last_None in Et as ->; by apply elem_of_nil in Hy].
      specialize (Hl1 t eq_refl). apply (le_not_lt t x L) in Hl1.
      apply last_Some in Et as [l1' ->]. apply elem_of_app in Hy as [Hy|Hy%list_elem_of_singleton]; [|by subst].
      apply ssorted_app in S1 as (_ & _ & S1). eapply cle_trans; [done|apply S1; [done|]|done]. by apply list_elem_of_singleton.
  - intros L z. rewrite (class_app z l0), <- (Hc L z), !class_app, !class_cons. unfold equiv_to. destruct (compare z x) eqn:E; rewrite ?app_nil_r; try done.
    rewrite (class_none z l2), app_nil_r; [done|]. eapply Forall_impl; [exact Hl2|]. intros y Hy. exact (above_not_eq x y z L Hy E).
Qed.

(** * Merging *)
Fixpoint merge (l : list T) : list T → list T :=
  fix go (r : list T) : list T :=
    match l, r with
    | [], _ => r
    | _, [] => l
    | x :: l', y :: r' => match compare x y with Gt => y :: go r' | _ => x :: merge l' r end
    end.
Lemma merge_cons x l y r : merge (x :: l) (y :: r) = match compare x y with Gt => y :: merge (x :: l) r | _ => x :: merge l (y :: r) end.
Proof. done. Qed.
Lemma merge_nil_r l : merge l [] = l.
Proof. by destruct l. Qed.
Lemma merge_nil_l r : merge [] r = r.
Proof. by destruct r. Qed.
Lemma merge_ind (P : list T → list T → list T → Prop) :
  (∀ r, P [] r r) → (∀ l, P l [] l) →
  (∀ x l y r m, compare x y = Gt → P (x :: l) r m → P (x :: l) (y :: r) (y :: m)) →
  (∀ x l y r m, compare x y ≠ Gt → P l (y :: r) m → P (x :: l) (y :: r) (x :: m)) →
  ∀ l r, P l r (merge l r).
Proof.
  intros P1 P2 P3 P4. induction l as [|x l IHl]; intros r; [rewrite merge_nil_l; apply P1|].
  induction r as [|y r IHr]; [rewrite merge_nil_r; apply P2|]. rewrite merge_cons.
  destruct (compare x y) eqn:E; [apply P4; [congruence|apply IHl]..|by apply P3].
Qed.
Lemma merge_perm l r : l ++ r ≡ₚ merge l r.
Proof.
  apply (merge_ind (λ l r m, l ++ r ≡ₚ m)); [done|by intros; rewrite app_nil_r| |].
  - intros x l' y r' m _ IH. rewrite <- IH. cbn. by rewrite <- Permutation_middle, Permutation_swap.
  - intros x l' y r' m _ IH. cbn. by rewrite <- IH.
Qed.
Lemma merge_sorted l r : order_laws → StronglySorted le_ l → StronglySorted le_ r → StronglySorted le_ (merge l r).
Proof.
  intros L. cut (l ++ r ≡ₚ merge l r ∧ (StronglySorted le_ l → StronglySorted le_ r → StronglySorted le_ (merge l r))); [tauto|].
  apply (merge_ind (λ l r m, l ++ r ≡ₚ m ∧ (StronglySorted le_ l → StronglySorted le_ r → StronglySorted le_ m))).
  - done.
  - intros. by rewrite app_nil_r.
  - intros x l' y r' m E [Hp IH]. split; [rewrite <- Hp; by rewrite <- Permutation_middle|].
    intros Sl [Fr Sr]%sorted_cons. apply sorted_cons. split; [|by apply IH]. rewrite <- Hp. apply Forall_app. split; [|done].
    apply sorted_cons in Sl as [Fl _]. apply (gt_le _ _ L) in E. constructor; [done|]. eapply Forall_impl; [exact Fl|]. intros z. by apply cle_trans.
  - intros x l' y r' m E [Hp IH]. split; [cbn; by rewrite <- Hp|].
    intros [Fl Sl]%sorted_cons Sr. apply sorted_cons. split; [|by apply IH]. rewrite <- Hp. apply Forall_app. split; [done|].
    apply sorted_cons in Sr as [Fr _]. constructor; [done|]. eapply Forall_impl; [exact Fr|]. intros z. by apply cle_trans.
Qed.
Lemma merge_stable l r z : order_laws → StronglySorted le_ l → class_of z (merge l r) = class_of z l ++ class_of z r.
Proof.
  intros L. apply (merge_ind (λ l r m, StronglySorted le_ l → class_of z m = class_of z l ++ class_of z r)).
  - done.
  - intros. by rewrite app_nil_r.
  - intros x l' y r' m E IH Sl. rewrite (class_cons z y m), (class_cons z y r'), (IH Sl). unfold equiv_to at 1 2. destruct (compare z y) eqn:Ez; try done.
    rewrite (class_none z (x :: l')); [done|]. apply (cmp_lt_gt _ _ L) in E. apply sorted_cons in Sl as [Fl _].
    constructor; [by eapply above_not_eq|]. eapply Forall_impl; [exact Fl|]. intros t Ht. eapply above_not_eq; [done| |exact Ez].
    apply (cmp_lt_gt _ _ L). destruct (compare t y) eqn:Et; [..|done]; exfalso.
    all: assert (le_ x y) as Hxy by (apply (cle_trans _ t _ L Ht); unfold le_; congruence); apply Hxy; by apply (cmp_lt_gt _ _ L).
  - intros x l' y r' m E IH [_ Sl]%sorted_cons. rewrite (class_cons z x m), (class_cons z x l'), (IH Sl). by destruct (equiv_to z x).
Qed.
Lemma merge_sorts l l' r r' : sorts l l' → sorts r r' → sorts (l ++ r) (merge l' r').
Proof.
  intros [P1 S1 C1] [P2 S2 C2]. split.
  - rewrite P1, P2. apply merge_perm.
  - intros L. by apply merge_sorted; [|apply S1|apply S2].
  - intros L z. by rewrite merge_stable, class_app, (C1 L), (C2 L) by (done || by apply S1).
Qed.
(** * The sorts on memory *)
Lemma find_pos_spec x A l C : ∃ l1 l2, l = l1 ++ l2 ∧
  find_pos compare x (A ++ (Some <$> l) ++ C) (length A) (length A + length l) = Ok (length A + length l1) ∧
  Forall (λ y, compare x y = Lt) l2 ∧ ∀ y, last l1 = Some y → compare x y ≠ Lt.
Proof.
  revert C. induction l as [|y l IH] using rev_ind; intros C.
  - exists [], []. split_and!; [done| |constructor|done]. cbn. rewrite Nat.add_0_r. destruct (length A) as [|k]; [done|]. cbn [find_pos]. by rewrite Nat.ltb_irrefl.
  - rewrite length_app, Nat.add_1_r, Nat.add_succ_r. cbn [find_pos]. destruct (Nat.ltb_spec (length A) (S (length A + length l))); [|lia].
    rewrite fmap_app, <- app_assoc. cbn [fmap list_fmap app]. rewrite app_assoc, read_mid, <- app_assoc by (by rewrite length_app, length_fmap). cbn [mbind outcome_bind].
    destruct (compare x y) eqn:E; [|destruct (IH (Some y :: C)) as (l1 & l2 & -> & Hf & H1 & H2)|].
    1, 3: exists (l ++ [y]), []; split_and!; [by rewrite app_nil_r|by rewrite length_app, Nat.add_1_r, Nat.add_succ_r|constructor|];
      intros z; rewrite last_snoc; congruence.
    exists l1, (l2 ++ [y]). split_and!; [by rewrite app_assoc|done| |done]. apply Forall_app. split; [done|]. by constructor.
Qed.

(** One more value in a sorted run. *)
Lemma insert_at x A l (g : option T) C i : i = length A + length l →
  ∃ j l' b, find_pos compare x (A ++ (Some <$> l) ++ g :: C) (length A) i = Ok j ∧ inserts x l l' ∧
    copy_memory (A ++ (Some <$> l) ++ g :: C) (j + 1) (A ++ (Some <$> l) ++ g :: C) j (i - j) = Ok b ∧
    write b j [Some x] = Ok (A ++ (Some <$> l') ++ C) ∧ (i = j → l' = l ++ [x]).
Proof.
  intros ->. destruct (find_pos_spec x A l (g :: C)) as (l1 & l2 & -> & Hf & H1 & H2).
  destruct (shift_spec A l1 l2 g C (length A + length (l1 ++ l2)) (length A + length l1)) as (h & Hc); [done|rewrite length_app; lia|].
  exists (length A + length l1), (l1 ++ x :: l2), (A ++ (Some <$> l1) ++ h :: (Some <$> l2) ++ C).
  split_and!; [done|by exists l1, l2|by rewrite fmap_app, <- app_assoc| |].
  - rewrite fmap_app, <- app_assoc, !(app_assoc A).
    exact (write_mid (A ++ (Some <$> l1)) [h] ((Some <$> l2) ++ C) [Some x] (length A + length l1) ltac:(by rewrite length_app, length_fmap) eq_refl).
  - rewrite length_app. intros ?. assert (length l2 = 0) as ->%length_zero_iff_nil by lia. by rewrite app_nil_r.
Qed.
Lemma sorts_length l l' : sorts l l' → length l' = length l.
Proof. intros [H _ _]. by rewrite H. Qed.

Lemma sorts_concat_length cs cs' : Forall2 sorts cs cs' → length (concat cs') = length (concat cs).
Proof. induction 1 as [|? ? ? ? Hx _ IH]; [done|]. cbn. rewrite !length_app, IH. by rewrite (sorts_length _ _ Hx). Qed.

Lemma insertion_step_spec x l C : ∃ l', insertion_step compare (length l) ((Some <$> l) ++ Some x :: C) = Ok ((Some <$> l') ++ C) ∧ inserts x l l'.
Proof.
  unfold insertion_step. rewrite read_mid by (by rewrite length_fmap). cbn [mbind outcome_bind].
  destruct (insert_at x [] l (Some x) C (length l) eq_refl) as (j & l' & b & Hf & Hi & Hc & Hw & Hj). cbn [app length] in *. rewrite Hf. cbn [mbind outcome_bind].
  exists l'. split; [|done]. destruct (Nat.eqb_spec (length l) j) as [E|E].
  - by rewrite (Hj E), fmap_app, <- app_assoc.
  - rewrite Hc. cbn [mbind outcome_bind]. by rewrite Hw.
Qed.
Lemma insertion_loop l0 l c : sorts l0 l →
  ∃ l', for_range (length c) (length l) (insertion_step compare) ((Some <$> l) ++ (Some <$> c)) = Ok (Some <$> l') ∧ sorts (l0 ++ c) l'.
Proof.
  revert l0 l. induction c as [|x c IH]; intros l0 l Hs.
  - exists l. cbn. by rewrite !app_nil_r.
  - rewrite fmap_cons. cbn [length for_range]. destruct (insertion_step_spec x l (Some <$> c)) as (l' & -> & Hi). cbn [mbind outcome_bind].
    pose proof (inserts_sorts x l l0 l' Hs Hi) as Hs'. destruct (IH _ _ Hs') as (l2 & Hl & Hs2).
    rewrite (sorts_length _ _ Hs'), length_app, Nat.add_1_r, <- (sorts_length _ _ Hs) in Hl. exists l2. by rewrite <- app_assoc in Hs2.
Qed.
Lemma insertion_sort_spec v : ∃ v', insertion_sort compare (Some <$> v) = Ok (Some <$> v') ∧ sorts v v'.
Proof.
  unfold insertion_sort. rewrite length_fmap. destruct v as [|x v]; [exists []; split; [done|apply sorts_nil]|].
  destruct (insertion_loop [x] [x] v) as (v' & Hv & Hs).
  - split; [done|intros _; repeat constructor|done].
  - exists v'. cbn [length] in *. rewrite Nat.sub_succ, Nat.sub_0_r. by split.
Qed.

(** ** Step 1 *)
Lemma run_step_spec x A l g C v0 v1 i : i = length A + length l → i = length v0 →
  ∃ l', run_step compare (v0 ++ Some x :: v1) (length A) i (A ++ (Some <$> l) ++ g :: C) = Ok (A ++ (Some <$> l') ++ C) ∧ inserts x l l'.
Proof.
  intros Hi Hv. unfold run_step. rewrite read_mid by done. cbn [mbind outcome_bind].
  destruct (insert_at x A l g C i Hi) as (j & l' & b & -> & Hins & Hc & Hw & _). cbn [mbind outcome_bind]. rewrite Hc. cbn [mbind outcome_bind].
  exists l'. split; [|done]. unfold copy_memory. by rewrite (segment_mid v0 [Some x] v1).
Qed.
Lemma run_loop A l0 l c J C v0 v1 : sorts l0 l → length A + length l = length v0 → length J = length c →
  ∃ l', for_range (length c) (length v0) (run_step compare (v0 ++ (Some <$> c) ++ v1) (length A)) (A ++ (Some <$> l) ++ J ++ C)
    = Ok (A ++ (Some <$> l') ++ C) ∧ sorts (l0 ++ c) l'.
Proof.
  revert l0 l J v0. induction c as [|x c IH]; intros l0 l J v0 Hs Hv HJ; destruct J as [|g J]; try done.
  - exists l. by rewrite app_nil_r.
  - rewrite fmap_cons. cbn [length for_range app]. destruct (run_step_spec x A l g (J ++ C) v0 ((Some <$> c) ++ v1) (length v0)) as (l' & -> & Hi); [done..|].
    cbn [mbind outcome_bind]. pose proof (inserts_sorts x l l0 l' Hs Hi) as Hs'.
    destruct (IH _ _ J (v0 ++ [Some x]) Hs') as (l2 & Hl & Hs2); [|cbn in HJ; lia|].
    { rewrite (sorts_length _ _ Hs'), !length_app, <- (sorts_length _ _ Hs). cbn. lia. }
    rewrite length_app, Nat.add_1_r, <- app_assoc in Hl. exists l2. by rewrite <- app_assoc in Hs2.
Qed.
(** A run of a vector, sorted into its place. *)
Lemma sort_run_spec A c J C v0 v1 len ins : length A = length v0 → length J = length c → len = length v0 + length c + length v1 →
  length c = (length v0 + ins) `min` len - length v0 →
  ∃ c', sort_run compare (v0 ++ (Some <$> c) ++ v1) len ins (length v0) (A ++ J ++ C) = Ok (A ++ (Some <$> c') ++ C) ∧ sorts c c'.
Proof.
  intros HA HJ Hl Hc. unfold sort_run. rewrite <- Hc, <- HA. pose proof (run_loop A [] [] c J C v0 v1 sorts_nil) as H. cbn [fmap list_fmap app length] in H.
  rewrite HA. rewrite HA in H. apply H; [lia|done].
Qed.

(** ** Step 2 *)
Lemma copy_run dat A B C P (J Q : list (option T)) src dst n : dat = A ++ B ++ C → src = length A → dst = length P → n = length B → length J = length B →
  copy_memory (P ++ J ++ Q) dst dat src n = Ok (P ++ B ++ Q).
Proof. intros -> -> -> -> HJ. unfold copy_memory. rewrite segment_mid by done. by apply write_mid. Qed.
Lemma merge_loop_spec fuel : ∀ A1 l C1 A2 r C2 P J Q dat left right out right_start right_end out_end,
  dat = A1 ++ (Some <$> l) ++ C1 → dat = A2 ++ (Some <$> r) ++ C2 → left = length A1 → right = length A2 → out = length P →
  right_start = left + length l → right_end = right + length r → out_end = out + length J → length J = length l + length r → length J < fuel →
  merge_loop compare fuel dat (P ++ J ++ Q) left right_start right right_end out out_end = Ok (P ++ (Some <$> merge l r) ++ Q).
Proof.
  induction fuel as [|fuel IH]; intros A1 l C1 A2 r C2 P J Q dat left right out right_start right_end out_end D1 D2 -> -> -> -> -> -> HJ Hf; [lia|].
  cbn [merge_loop]. destruct (Nat.ltb_spec (length P) (length P + length J)) as [Ho|Ho].
  2:{ assert (l = [] ∧ r = [] ∧ J = []) as (-> & -> & ->) by (destruct l, r, J; cbn in *; auto; lia). done. }
  destruct l as [|x l].
  { cbn [length] in *. rewrite Nat.add_0_r, Nat.eqb_refl, merge_nil_l. eapply copy_run; [exact D2|done|done|rewrite length_fmap; lia|rewrite length_fmap; lia]. }
  destruct (Nat.eqb_spec (length A1) (length A1 + length (x :: l))); [cbn in *; lia|]. destruct r as [|y r].
  { cbn [length] in *. rewrite Nat.add_0_r, Nat.eqb_refl, merge_nil_r. eapply copy_run; [exact D1|done|done|rewrite length_fmap; cbn; lia|rewrite length_fmap; cbn; lia]. }
  destruct (Nat.eqb_spec (length A2) (length A2 + length (y :: r))); [cbn in *; lia|]. rewrite fmap_cons in D1, D2. destruct J as [|g J]; [done|].
  rewrite D1 at 1. cbn [app]. rewrite read_mid by done. cbn [mbind outcome_bind]. rewrite D2 at 1. cbn [app]. rewrite read_mid by done. cbn [mbind outcome_bind].
  rewrite merge_cons. cbn [length app] in *. destruct (compare x y).
  1, 2: rewrite (copy_run dat A1 [Some x] ((Some <$> l) ++ C1) P [g] (J ++ Q)) by done; cbn [mbind outcome_bind app]; rewrite cons_middle, app_assoc;
    rewrite (IH (A1 ++ [Some x]) l C1 A2 (y :: r) C2 (P ++ [Some x]) J Q); rewrite ?length_app; cbn [length]; try lia; [by rewrite fmap_cons, <- app_assoc|by rewrite <- app_assoc|done].
  rewrite (copy_run dat A2 [Some y] ((Some <$> r) ++ C2) P [g] (J ++ Q)) by done; cbn [mbind outcome_bind app]; rewrite cons_middle, app_assoc;
    rewrite (IH A1 (x :: l) C1 (A2 ++ [Some y]) r C2 (P ++ [Some y]) J Q); rewrite ?length_app; cbn [length]; try lia; [by rewrite fmap_cons, <- app_assoc|done|by rewrite <- app_assoc].
Qed.
(** Two runs, merged into their place. *)
Lemma merge_runs_spec dat A l r C P J Q len w : dat = A ++ (Some <$> l) ++ (Some <$> r) ++ C → length P = length A → length J = length l + length r →
  len = length dat → length l = (length A + w) `min` len - length A → length l + length r = (length A + 2 * w) `min` len - length A →
  merge_runs compare dat len w (length A) (P ++ J ++ Q) = Ok (P ++ (Some <$> merge l r) ++ Q).
Proof.
  intros HD HP HJ Hlen Hl Hr. assert (len = length A + length l + length r + length C) as Hlen' by (rewrite Hlen, HD, !length_app, !length_fmap; lia).
  unfold merge_runs. apply (merge_loop_spec _ A l ((Some <$> r) ++ C) (A ++ (Some <$> l)) r C); try done; rewrite ?length_app, ?length_fmap; try lia.
  by rewrite <- app_assoc.
Qed.

(** ** Runs *)
(** All runs but the last have [w] elements, and none is empty. *)
Inductive runs_of (w : nat) : list (list T) → Prop :=
  | runs_nil : runs_of w []
  | runs_last c : 0 < length c ≤ w → runs_of w [c]
  | runs_cons c cs : length c = w → runs_of w cs → runs_of w (c :: cs).

Lemma for_step_end {A} fuel start len step f (s : A) : 0 < fuel → len ≤ start → for_step fuel start len step f s = Ok s.
Proof. intros. destruct fuel; [lia|]. cbn [for_step]. by destruct (Nat.ltb_spec start len); [lia|]. Qed.

Lemma sort_runs_spec fuel ins len : 0 < ins → ∀ A J v0 c start, length A = length v0 → length J = length c → len = length v0 + length c → length c < fuel →
  start = length v0 ∨ c = [] ∧ len ≤ start →
  ∃ cs cs', for_step fuel start len ins (sort_run compare ((Some <$> v0) ++ (Some <$> c)) len ins) (A ++ J) = Ok (A ++ (Some <$> concat cs')) ∧
    c = concat cs ∧ Forall2 sorts cs cs' ∧ runs_of ins cs'.
Proof.
  intros Hins. induction fuel as [|fuel IH]; intros A J v0 c start HA HJ Hlen Hf Hst; [lia|].
  destruct (decide (c = [])) as [->|Hc].
  { exists [], []. rewrite for_step_end by (cbn in *; lia). destruct J; [|done]. split_and!; [done..|constructor|constructor]. }
  destruct Hst as [->|[? _]]; [|done]. cbn [for_step]. destruct (Nat.ltb_spec (length v0) len); [|destruct c; cbn in *; [done|lia]].
  pose proof (take_drop ins c) as Etd. set (c1 := take ins c) in *. set (c2 := drop ins c) in *.
  assert (length c1 = ins `min` length c ∧ length c2 = length c - ins) as [L1 L2] by (subst c1 c2; by rewrite length_take, length_drop).
  rewrite <- (take_drop (length c1) J). set (J1 := take (length c1) J). set (J2 := drop (length c1) J).
  assert (length J1 = length c1 ∧ length J2 = length c2) as [LJ1 LJ2] by (subst J1 J2; rewrite length_take, length_drop; lia).
  assert (0 < length c) by (destruct c; cbn; [done|lia]). clearbody J1 J2 c1 c2.
  destruct (sort_run_spec A c1 J1 J2 (Some <$> v0) (Some <$> c2) len ins) as (c1' & Hr & Hs1); [by rewrite length_fmap|done|rewrite !length_fmap; lia|rewrite length_fmap; lia|].
  rewrite <- Etd, fmap_app. rewrite length_fmap in Hr. rewrite Hr. cbn [mbind outcome_bind]. pose proof (sorts_length _ _ Hs1).
  destruct (IH (A ++ (Some <$> c1')) J2 (v0 ++ c1) c2 (length v0 + ins)) as (cs & cs' & Hl & Hc2 & Hs & Hru); [rewrite !length_app, length_fmap; lia|done|rewrite length_app; lia|lia| |].
  { rewrite length_app. destruct (decide (ins ≤ length c)); [left; lia|right]. split; [apply length_zero_iff_nil; lia|lia]. }
  exists (c1 :: cs), (c1' :: cs'). cbn [concat]. rewrite !fmap_app, <- !app_assoc in Hl. rewrite fmap_app. split_and!; [done|by rewrite Hc2|by constructor|].
  destruct (decide (ins ≤ length c)); [constructor; [lia|done]|]. assert (c2 = []) as -> by (apply length_zero_iff_nil; lia).
  destruct Hru as [|c3 Hc3|c3 cs3 Hc3 _]; [apply runs_last; lia|..]; exfalso.
  all: inversion Hs as [|a ? ? ? Ha]; subst; apply sorts_length in Ha; destruct a; cbn in *; [lia|done].
Qed.

Lemma runs_inv w c cs : runs_of w (c :: cs) → 0 < length c ≤ w ∧ cs = [] ∨ length c = w ∧ runs_of w cs.
Proof. inversion 1; subst; auto. Qed.
Lemma runs_concat_nil w os ds : runs_of w ds → Forall2 sorts os ds → concat os = [] → 0 < w → ds = [].
Proof.
  intros Hr Hs Hc Hw. destruct ds as [|d ds]; [done|]. inversion Hs as [|o ? ? ? Ho]; subst. apply sorts_length in Ho. cbn in Hc.
  apply app_eq_nil in Hc as [-> _]. apply runs_inv in Hr as [[? _]|[? _]]; cbn in *; lia.
Qed.
(** The last run has no neighbour. *)
Lemma pass_last fuel w len A P J o c : 0 < fuel → 0 < length c ≤ w → sorts o c → length P = length A → length J = length c → len = length A + length c →
  ∃ ds ds', for_step (S fuel) (length A) len (2 * w) (merge_runs compare (A ++ (Some <$> c)) len w) (P ++ J) = Ok (P ++ (Some <$> concat ds')) ∧
    concat ds = o ∧ Forall2 sorts ds ds' ∧ runs_of (2 * w) ds'.
Proof.
  intros Hf Hc Hs HP HJ Hlen. pose proof (merge_runs_spec (A ++ (Some <$> c)) A c [] [] P J [] len w) as Hm. cbn [fmap list_fmap length] in Hm. rewrite !app_nil_r in Hm.
  cbn [for_step]. destruct (Nat.ltb_spec (length A) len); [|lia].
  rewrite Hm, merge_nil_r by (done || rewrite ?length_app, ?length_fmap; lia). cbn [mbind outcome_bind]. rewrite for_step_end by lia.
  exists [o], [c]. cbn [concat]. rewrite !app_nil_r. split_and!; [done..|by constructor; [|constructor]|apply runs_last; lia].
Qed.
Lemma pass_spec fuel w len : 0 < w → ∀ A P J cs cs' start,
  runs_of w cs' → Forall2 sorts cs cs' → length P = length A → length J = length (concat cs') → len = length A + length (concat cs') →
  length (concat cs') < fuel → start = length A ∨ cs' = [] ∧ len ≤ start →
  ∃ ds ds', for_step fuel start len (2 * w) (merge_runs compare (A ++ (Some <$> concat cs')) len w) (P ++ J) = Ok (P ++ (Some <$> concat ds')) ∧
    concat ds = concat cs ∧ Forall2 sorts ds ds' ∧ runs_of (2 * w) ds'.
Proof.
  intros Hw. induction fuel as [|fuel IH]; intros A P J cs cs' start Hru Hs HP HJ Hlen Hf Hst; [lia|].
  destruct cs' as [|c1 cs'].
  { inversion Hs; subst. exists [], []. rewrite for_step_end by (cbn in *; lia). destruct J; [|done]. split_and!; [done..|constructor|constructor]. }
  destruct Hst as [->|[? _]]; [|done]. apply runs_inv in Hru as Hc. cbn [concat] in *. rewrite length_app in *.
  inversion Hs as [|o1 ? os ? So1 Sos]; subst cs. destruct cs' as [|c2 cs'].
  { inversion Sos; subst os. cbn [concat length] in *. rewrite !app_nil_r. apply pass_last; try done; lia. }
  destruct Hc as [[_ ?]|[L1 Hru']]; [done|]. cbn [concat] in *. rewrite length_app in *. inversion Sos as [|o2 ? os' ? So2 Sos']; subst os.
  rewrite <- (take_drop (length c1 + length c2) J). set (J1 := take (length c1 + length c2) J). set (J2 := drop (length c1 + length c2) J).
  assert (length J1 = length c1 + length c2 ∧ length J2 = length (concat cs')) as [LJ1 LJ2] by (subst J1 J2; rewrite length_take, length_drop; lia).
  clearbody J1 J2. apply runs_inv in Hru' as Hc2.
  assert (0 < length c2 ∧ length c2 = w `min` (length c2 + length (concat cs'))) as [L2 L2'] by (destruct Hc2 as [[? ->]|[? _]]; cbn; lia).
  cbn [for_step]. destruct (Nat.ltb_spec (length A) len); [|lia].
  rewrite (merge_runs_spec _ A c1 c2 (Some <$> concat cs') P J1 J2); rewrite ?length_app, ?length_fmap; try lia; [|by rewrite !fmap_app|rewrite !length_app; lia].
  cbn [mbind outcome_bind]. pose proof (merge_sorts _ _ _ _ So1 So2) as Sm. pose proof (sorts_length _ _ Sm) as Lm. rewrite length_app in Lm.
  pose proof (sorts_length _ _ So1). pose proof (sorts_length _ _ So2).
  destruct (IH (A ++ (Some <$> c1) ++ (Some <$> c2)) (P ++ (Some <$> merge c1 c2)) J2 os' cs' (length A + 2 * w)) as (ds & ds' & Hl & Hd & Sd & Hrd).
  { destruct Hc2 as [[_ ->]|[_ ?]]; [constructor|done]. }
  1-5: rewrite ?length_app, ?length_fmap; try done; lia.
  { rewrite !length_app, !length_fmap. destruct Hc2 as [[? ->]|[? _]]; [right; cbn in *; split; [done|lia]|left; lia]. }
  exists ((o1 ++ o2) :: ds), (merge c1 c2 :: ds'). cbn [concat]. rewrite !fmap_app, <- !app_assoc in *. split_and!; [done|by rewrite Hd|by constructor|].
  destruct Hc2 as [[? ->]|[? _]]; [|constructor; [lia|done]].
  inversion Sos'; subst os'. rewrite (runs_concat_nil _ _ _ Hrd Sd Hd) by lia. apply runs_last. lia.
Qed.
Lemma passes_spec fuel len w cs cs' tmp : 0 < w → runs_of w cs' → Forall2 sorts cs cs' → len = length (concat cs') → length tmp = len → 0 < fuel → len < fuel + w →
  ∃ v', merge_passes compare fuel len w (Some <$> concat cs') tmp = Ok (Some <$> v') ∧ sorts (concat cs) v'.
Proof.
  revert w cs cs' tmp. induction fuel as [|fuel IH]; intros w cs cs' tmp Hw Hru Hs Hlen Htmp Hf0 Hf; [lia|].
  cbn [merge_passes]. destruct (Nat.ltb_spec w len).
  - destruct (pass_spec (S len) w len Hw [] [] tmp cs cs' 0) as (ds & ds' & Hp & Hd & Sd & Hrd); try done; [cbn; lia..|by left|].
    cbn [app] in Hp. rewrite Hp. cbn [mbind outcome_bind]. rewrite <- Hd. rewrite Nat.mul_comm.
    assert (length (concat ds') = len) as Hl.
    { by rewrite Hlen, (sorts_concat_length _ _ Sd), (sorts_concat_length _ _ Hs), Hd. }
    apply IH; try done; [lia|rewrite length_fmap; lia|lia|lia].
  - exists (concat cs'). split; [done|]. destruct cs' as [|c cs']; inversion Hs as [|o ? os ? So Sos]; subst; [apply sorts_nil|].
    cbn [concat] in *. rewrite length_app in *. assert (cs' = [] ∧ os = []) as [-> ->].
    { apply runs_inv in Hru as [[_ ->]|[? Hr]]; [by inversion Sos|]. destruct cs' as [|c' cs'']; [by inversion Sos|].
      cbn in *. rewrite length_app in *. apply runs_inv in Hr as [[? _]|[? _]]; lia. }
    cbn. by rewrite !app_nil_r.
Qed.

(** ** The whole sort *)
Lemma merge_sort_spec size_of v : ∃ v', merge_sort compare size_of (Some <$> v) = Ok (Some <$> v') ∧ sorts v v'.
Proof.
  unfold merge_sort. set (ins := if (size_of <=? 16)%N then 32 else 16). assert (0 < ins) as Hi by (subst ins; destruct (size_of <=? 16)%N; lia). clearbody ins.
  rewrite length_fmap. destruct (Nat.leb_spec (length v) ins); [apply insertion_sort_spec|].
  destruct (sort_runs_spec (S (length v)) ins (length v) Hi [] (replicate (length v) None) [] v 0) as (cs & cs' & Hr & Hv & Hs & Hru);
    [done|by rewrite length_replicate|done|lia|by left|].
  cbn [app fmap list_fmap] in Hr. rewrite Hr. cbn [mbind outcome_bind].
  assert (length (concat cs') = length v) as Hl by (by rewrite Hv, (sorts_concat_length _ _ Hs)).
  destruct (passes_spec (S (length v)) (length v) ins cs cs' (replicate (length v) None)) as (v' & -> & Hs'); try done; [by rewrite length_replicate|lia|lia|].
  rewrite <- Hv in Hs'. cbn [mbind outcome_bind]. exists v'. split; [|done]. pose proof (sorts_length _ _ Hs') as Hl'.
  pose proof (copy_run (Some <$> v') [] (Some <$> v') [] [] (Some <$> v) [] 0 0 (length v)) as Hc. cbn [app] in Hc. rewrite !app_nil_r in Hc.
  apply Hc; try done; by rewrite !length_fmap.
Qed.
Lemma sort_by_spec size_of v : ∃ v', sort_by compare size_of v = Ok v' ∧ sorts v v'.
Proof.
  destruct (merge_sort_spec size_of v) as (v' & Hm & Hs). exists v'. unfold sort_by. rewrite Hm. split; [|done]. cbn [mbind outcome_bind].
  assert (mapM id (Some <$> v') = Some v') as ->; [|done]. clear. induction v' as [|x v' IH]; [done|]. cbn in *. by rewrite IH.
Qed.
End Spec.

(** * Searching *)
Section Search.
Context {T : Type} (v : list T) (f : T → comparison).

(** [f] finds elements below, then at, then above what it looks for. *)
Definition graded : Prop := ∀ i j x y, i < j → v !! i = Some x → v !! j = Some y → (f x = Gt → f y = Gt) ∧ (f y = Lt → f x = Lt).
Definition answers (r : option nat) : Prop :=
  match r with Some ix => ∃ x, v !! ix = Some x ∧ f x = Eq | None => Forall (λ x, f x ≠ Eq) v end.

Lemma bsearch_loop_spec fuel base lim : graded → base + lim ≤ length v → lim < fuel →
  (∀ i x, i < base → v !! i = Some x → f x = Lt) → (∀ i x, base + lim ≤ i → v !! i = Some x → f x = Gt) →
  ∃ r, bsearch_loop fuel v f base lim = Ok r ∧ answers r.
Proof.
  intros Hg. revert base lim. induction fuel as [|fuel IH]; intros base lim Hb Hf Hlo Hhi; [lia|].
  cbn [bsearch_loop]. destruct (Nat.eqb_spec lim 0) as [->|Hz].
  - exists None. split; [done|]. apply Forall_lookup. intros i x Hx. destruct (decide (i < base)); [by rewrite (Hlo i x)|rewrite (Hhi i x) by (lia || done); done].
  - pose proof (Nat.div2_odd lim) as Hd. pose proof (Nat.div2_odd (lim - 1)) as Hd'.
    assert (Nat.div2 lim + Nat.div2 (lim - 1) + 1 = lim) as Hsum.
    { rewrite !Nat.div2_div. pose proof (Nat.div_mod lim 2). pose proof (Nat.div_mod (lim - 1) 2). pose proof (Nat.mod_upper_bound lim 2). pose proof (Nat.mod_upper_bound (lim - 1) 2). lia. }
    destruct (lookup_lt_is_Some_2 v (base + Nat.div2 lim)) as [x Hx]; [lia|]. unfold vec_get. rewrite Hx. cbn [mbind outcome_bind].
    destruct (f x) eqn:E.
    + exists (Some (base + Nat.div2 lim)). split; [done|]. by exists x.
    + apply IH; [lia|lia| |].
      * intros i y Hi Hy. destruct (decide (i = base + Nat.div2 lim)) as [->|]; [congruence|]. by eapply (Hg i (base + Nat.div2 lim)); [lia|..].
      * intros i y Hi. apply Hhi. lia.
    + apply IH; [lia|lia|done|].
      intros i y Hi Hy. destruct (decide (i = base + Nat.div2 lim)) as [->|]; [congruence|]. by eapply (Hg (base + Nat.div2 lim) i); [lia|..].
Qed.
End Search.

(** * Duplicates *)
Section Dedup.
Context {T : Type} (eqb : T → T → bool).

(** The elements that differ from the last one kept. *)
Fixpoint keep (y : T) (l : list T) : list T :=
  match l with [] => [] | x :: l => if eqb x y then keep y l else x :: keep x l end.

Lemma dedup_loop_spec fuel v r w kept y : length v - r < fuel → length kept + 1 = w → w ≤ r → take w v = kept ++ [y] →
  ∃ v' w', dedup_loop eqb fuel v r w = Ok (v', w') ∧ take w' v' = kept ++ y :: keep y (drop r v).
Proof.
  revert v r w kept y. induction fuel as [|fuel IH]; intros v r w kept y Hf Hw Hr Ht; [lia|].
  cbn [dedup_loop]. destruct (Nat.ltb_spec r (length v)) as [Hlt|Hge].
  2:{ exists v, w. by rewrite drop_ge. }
  destruct (lookup_lt_is_Some_2 v r Hlt) as [x Hx]. unfold vec_get. rewrite Hx. cbn [mbind outcome_bind].
  assert (v !! (w - 1) = Some y) as Hy.
  { rewrite <- (lookup_take_lt v w) by lia. rewrite Ht, lookup_app_r by lia. by replace (w - 1 - length kept) with 0 by lia. }
  rewrite Hy. cbn [mbind outcome_bind]. rewrite (drop_S v x r Hx). cbn [keep]. rewrite Nat.add_1_r. destruct (eqb x y); cbn [negb].
  { apply IH; try done; lia. }
  destruct (Nat.eqb_spec r w) as [->|Hne].
  - cbn [mbind outcome_bind]. rewrite cons_middle, app_assoc. apply IH; rewrite ?length_app; cbn [length]; try lia.
    by rewrite Nat.add_1_r, (take_S_r v w x), Ht.
  - destruct (lookup_lt_is_Some_2 v w) as [z Hz]; [lia|]. rewrite Hz. cbn [mbind outcome_bind]. rewrite cons_middle, app_assoc.
    destruct (IH (<[r := z]> (<[w := x]> v)) (S r) (w + 1) (kept ++ [y]) x) as (v' & w' & -> & Hk); rewrite ?length_insert, ?length_app; cbn [length]; try lia.
    + rewrite Nat.add_1_r, take_insert_ge by lia. rewrite (take_S_r _ w x) by (apply list_lookup_insert_eq; lia). by rewrite take_insert_ge, Ht by lia.
    + exists v', w'. split; [done|]. rewrite Hk. by rewrite !drop_insert_lt by lia.
Qed.
Lemma dedup_spec v : dedup eqb v = Ok (match v with [] => [] | x :: l => x :: keep x l end).
Proof.
  unfold dedup. destruct v as [|x l]; [done|]. cbn [length]. destruct (Nat.ltb_spec (S (length l)) 1); [lia|].
  destruct (dedup_loop_spec (S (length l)) (x :: l) 1 1 [] x) as (v' & w' & -> & Hk); [cbn; lia|done|done|done|]. cbn [mbind outcome_bind]. by rewrite Hk.
Qed.
End Dedup.

(** * Sorted vectors *)
Section Sorted.
Context {T : Type} (compare : T → T → comparison) (eqb : T → T → bool) (L : order_laws compare).

Lemma sorted_graded v x : StronglySorted (le_ compare) v → graded v (λ p, compare p x).
Proof using L.
  intros Hs i j a b Hij Ha Hb. assert (le_ compare a b) as Hab.
  { rewrite <- (take_drop j v) in Hs. apply ssorted_app in Hs as (_ & _ & H). apply H.
    - apply list_elem_of_lookup. exists i. by rewrite lookup_take_lt.
    - rewrite (drop_S v b j Hb). apply elem_of_cons. by left. }
  split; intros H.
  - destruct (compare b x) eqn:E; [..|done]; exfalso; (assert (le_ compare a x) as Hax by (eapply cle_trans; [done|exact Hab|unfold le_; congruence])); by apply Hax.
  - destruct (compare a x) eqn:E; [|done|]; exfalso.
    all: assert (le_ compare x b) as Hxb by (eapply cle_trans; [done| |exact Hab]; apply le_not_lt; [done|congruence]); by apply le_not_lt in Hxb.
Qed.
Definition lt_ (x y : T) : Prop := compare x y = Lt.
Lemma lt_trans x y z : lt_ x y → lt_ y z → lt_ x z.
Proof using L.
  unfold lt_. intros H1 H2. destruct (compare x z) eqn:E; [|done|]; exfalso.
  all: assert (le_ compare z x) as Hzx by (apply le_not_lt; [done|congruence]).
  all: assert (le_ compare z y) as Hzy by (eapply cle_trans; [done|exact Hzx|by apply lt_le]); by apply le_not_lt in Hzy.
Qed.
Lemma keep_strict y l : (∀ a b, eqb a b = true ↔ compare a b = Eq) → StronglySorted (le_ compare) (y :: l) → StronglySorted lt_ (y :: keep eqb y l).
Proof using L.
  intros He. revert y. induction l as [|x l IH]; intros y Hs; [repeat constructor|]. cbn.
  apply sorted_cons in Hs as [Hy Hs]. inversion Hy as [|? ? Hyx Hyl]; subst. pose proof Hs as Hs'. apply sorted_cons in Hs' as [Hx Hl]. destruct (eqb x y) eqn:E.
  - apply IH. apply sorted_cons. by split.
  - specialize (IH x Hs). constructor; [done|]. assert (lt_ y x) as Hlt.
    { unfold lt_. destruct (compare y x) eqn:Ec; [|done|by apply Hyx in Ec]. assert (eqb x y = true); [|congruence]. apply He. by rewrite (compare_opp _ L y x), Ec. }
    inversion IH as [|? ? _ Hk]; subst. constructor; [done|]. eapply Forall_impl; [exact Hk|]. intros z. by apply lt_trans.
Qed.
End Sorted.

(** C16. [sort_by], the merge sort with its insertion sorted runs, for every
    comparison and every vector: it returns, without ever touching memory that
    is outside of its buffers or not initialized, a permutation of the vector;
    for every total order the result is sorted, and stable: equivalent elements
    keep their order. *)
Theorem sort_by_correct {T} (compare : T → T → comparison) size_of v : ∃ v', sort_by compare size_of v = Ok v' ∧ v ≡ₚ v' ∧
  (order_laws compare → StronglySorted (le_ compare) v' ∧ ∀ z, class_of compare z v' = class_of compare z v).
Proof. destruct (sort_by_spec compare size_of v) as (v' & Hm & []). exists v'. auto. Qed.

(** On a sorted vector binary search finds an element equivalent to the one it
    is asked for exactly when there is one, and [dedup] leaves one element of each
    class, in order. *)
Theorem sort_search_dedup {T} (compare : T → T → comparison) (eqb : T → T → bool) size_of v x :
  order_laws compare → (∀ a b, eqb a b = true ↔ compare a b = Eq) →
  ∃ v' r u, sort_by compare size_of v = Ok v' ∧ bsearch_elem compare v' x = Ok r ∧ dedup eqb v' = Ok u ∧
    (match r with Some ix => ∃ y, v' !! ix = Some y ∧ compare y x = Eq | None => Forall (λ y, compare y x ≠ Eq) v end) ∧
    StronglySorted (lt_ compare) u.
Proof.
  intros L He. destruct (sort_by_spec compare size_of v) as (v' & Hm & [Hp Hs _]). specialize (Hs L).
  destruct (bsearch_loop_spec v' (λ p, compare p x) (S (length v')) 0 (length v')) as (r & Hr & Ha);
    [by apply sorted_graded|lia|lia|intros; lia|intros i y Hi Hy%lookup_lt_Some; cbn in Hi; lia|].
  eexists v', r, _. split_and!; [done|exact Hr|apply dedup_spec|by destruct r; [|rewrite Hp]|].
  destruct v' as [|y l]; [constructor|]. by apply keep_strict.
Qed.

Lemma nat_laws : order_laws Nat.compare.
Proof. split; [intros; apply Nat.compare_antisym|]. intros x y z. rewrite !Nat.compare_ngt_iff. lia. Qed.
Lemma sort_search_dedup_witness : ∃ v' r u, sort_by Nat.compare 8 [3; 1; 3; 2] = Ok v' ∧ bsearch_elem Nat.compare v' 3 = Ok r ∧ dedup Nat.eqb v' = Ok u ∧
    (match r with Some ix => ∃ y, v' !! ix = Some y ∧ Nat.compare y 3 = Eq | None => Forall (λ y, Nat.compare y 3 ≠ Eq) [3; 1; 3; 2] end) ∧
    StronglySorted (lt_ Nat.compare) u.
Proof.
  apply (sort_search_dedup Nat.compare Nat.eqb 8 [3; 1; 3; 2] 3); [apply nat_laws|].
  intros a b. rewrite Nat.eqb_eq, Nat.compare_eq_iff. done.
Defined.
