(* ===== verification/PriorityQueue.v ===== *)
(** The binary heap of [libcollections/priority_queue.rs].  [siftup] and
    [siftdown_range] take a value out of the vector, leaving a hole, move others
    through the hole and put the value back, so a cell of the vector may be empty,
    and reading an empty cell is [Undefined]. *)
From stdpp Require Import prelude list.
From S2P Require Import Prelude.

Module PriorityQueue.
Section Queue.
(** [gt] is the [>] of the type of elements. *)
Context {T : Type} (gt : T → T → bool).

Record PriorityQueue : Type := mkQueue { data : list (option T) }.

Definition len (q : PriorityQueue) : nat := length (data q).
Definition is_empty (q : PriorityQueue) : bool := len q =? 0.
Definition clear (q : PriorityQueue) : PriorityQueue := mkQueue [].
Definition new : PriorityQueue := mkQueue [].
Definition top (q : PriorityQueue) : outcome T :=
  c ← vec_get (data q) 0; match c with Some x => Ok x | None => Fail Undefined end.
Definition maybe_top (q : PriorityQueue) : outcome (option T) :=
  if is_empty q then Ok None else x ← top q; Ok (Some x).

(** [replace(self.data.get_mut(i), init())] *)
Definition take_out (d : list (option T)) (i : nat) : outcome (T * list (option T)) :=
  c ← vec_get d i;
  match c with Some x => Ok (x, <[i := None]> d) | None => Fail Undefined end.
(** [move_val_init(self.data.get_mut(i), x)] *)
Definition put_in (d : list (option T)) (i : nat) (x : T) : outcome (list (option T)) :=
  _ ← vec_get d i; Ok (<[i := Some x]> d).
(** [*self.data.get(i)] *)
Definition peek (d : list (option T)) (i : nat) : outcome T :=
  c ← vec_get d i; match c with Some x => Ok x | None => Fail Undefined end.

Fixpoint siftup_loop (fuel : nat) (d : list (option T)) (new : T) (start pos : nat) : outcome (list (option T)) :=
  match fuel with
  | 0 => Fail OutOfFuel
  | S fuel =>
      if start <? pos then
        let parent := Nat.div2 (pos - 1) in
        p ← peek d parent;
        if gt new p then
          '(x, d) ← take_out d parent;
          d ← put_in d pos x;
          siftup_loop fuel d new start parent
        else put_in d pos new
      else put_in d pos new
  end.
Definition siftup (d : list (option T)) (start pos : nat) : outcome (list (option T)) :=
  '(new, d) ← take_out d pos; siftup_loop (S pos) d new start pos.

(** The loop of [siftdown_range], with the position of the hole at the end. *)
Fixpoint siftdown_loop (fuel : nat) (d : list (option T)) (pos end_ : nat) : outcome (list (option T) * nat) :=
  match fuel with
  | 0 => Fail OutOfFuel
  | S fuel =>
      let child := 2 * pos + 1 in
      if child <? end_ then
        let right := child + 1 in
        child ← (if right <? end_ then
                   a ← peek d child; b ← peek d right;
                   Ok (if negb (gt a b) then right else child)
                 else Ok child);
        '(x, d) ← take_out d child;
        d ← put_in d pos x;
        siftdown_loop fuel d child end_
      else Ok (d, pos)
  end.
Definition siftdown_range (d : list (option T)) (pos end_ : nat) : outcome (list (option T)) :=
  let start := pos in
  '(new, d) ← take_out d pos;
  '(d, pos) ← siftdown_loop (S end_) d pos end_;
  d ← put_in d pos new;
  siftup d start pos.
Definition siftdown (d : list (option T)) (pos : nat) : outcome (list (option T)) := siftdown_range d pos (length d).

(** [Vec::pop] *)
Definition vec_pop (d : list (option T)) : option (option T * list (option T)) :=
  match last d with Some c => Some (c, take (length d - 1) d) | None => None end.
(** [swap(&mut item, self.data.get_mut(0))] *)
Definition swap_top (d : list (option T)) (item : T) : outcome (T * list (option T)) :=
  '(x, d) ← take_out d 0; d ← put_in d 0 item; Ok (x, d).

Definition pop (q : PriorityQueue) : outcome (T * PriorityQueue) :=
  '(c, d) ← unwrap (vec_pop (data q));
  match c with
  | None => Fail Undefined
  | Some item =>
      if length d =? 0 then Ok (item, mkQueue d)
      else '(item, d) ← swap_top d item; d ← siftdown d 0; Ok (item, mkQueue d)
  end.
Definition maybe_pop (q : PriorityQueue) : outcome (option T * PriorityQueue) :=
  if is_empty q then Ok (None, q) else '(x, q) ← pop q; Ok (Some x, q).
Definition push (q : PriorityQueue) (item : T) : outcome PriorityQueue :=
  let d := data q ++ [Some item] in
  d ← siftup d 0 (length d - 1); Ok (mkQueue d).
Definition push_pop (q : PriorityQueue) (item : T) : outcome (T * PriorityQueue) :=
  greater ← (if is_empty q then Ok false else t ← top q; Ok (gt t item));
  if (greater : bool) then '(x, d) ← swap_top (data q) item; d ← siftdown d 0; Ok (x, mkQueue d)
  else Ok (item, q).
Definition replace (q : PriorityQueue) (item : T) : outcome (T * PriorityQueue) :=
  '(x, d) ← swap_top (data q) item; d ← siftdown d 0; Ok (x, mkQueue d).

(** [self.data.as_mut_slice().swap(i, j)] *)
Definition swap_cells (d : list (option T)) (i j : nat) : outcome (list (option T)) :=
  a ← vec_get d i; b ← vec_get d j; Ok (<[j := a]> (<[i := b]> d)).
(** [while end > 1] *)
Fixpoint sort_loop (end_ : nat) (d : list (option T)) : outcome (list (option T)) :=
  match end_ with
  | S (S _ as e) => d ← swap_cells d 0 e; d ← siftdown_range d 0 e; sort_loop e d
  | _ => Ok d
  end.
Definition to_sorted_vec (q : PriorityQueue) : outcome (list (option T)) := sort_loop (len q) (data q).

(** [while n > 0] *)
Fixpoint heapify (n : nat) (d : list (option T)) : outcome (list (option T)) :=
  match n with 0 => Ok d | S n => d ← siftdown d n; heapify n d end.
Definition from_vec (xs : list T) : outcome PriorityQueue :=
  d ← heapify (Nat.div2 (length xs)) (Some <$> xs); Ok (mkQueue d).
(** [extend], [from_iter]: the elements the iterator gives *)
Fixpoint extend (q : PriorityQueue) (xs : list T) : outcome PriorityQueue :=
  match xs with [] => Ok q | x :: xs => q ← push q x; extend q xs end.
Definition from_iter (xs : list T) : outcome PriorityQueue := extend new xs.
End Queue.
Arguments PriorityQueue : clear implicits.
End PriorityQueue.
