(* ===== verification/PriorityQueueSound.v ===== *)
(** Correctness of the binary heap: its operations keep the heap order and the
    elements, and the greatest element is on top. *)
From stdpp Require Import prelude list.
From Stdlib Require Import Sorting.Sorted Lia.
From S2P Require Import Prelude PriorityQueue.
Import PriorityQueue.

Section Heap.
Context {T : Type} (gt : T → T → bool).

(** [>] is a total order up to equivalence. *)
Record gt_laws : Prop := {
  gt_asym x y : gt x y = true → gt y x = false;
  ngt_trans x y z : gt x y = false → gt y z = false → gt x z = false }.
Context (L : gt_laws).

(** * Holes *)
(** The cells of [l] with a hole at [i]. *)
Definition hole (l : list T) (i : nat) : list (option T) := <[i := None]> (Some <$> l).

Lemma lookup_cells (l : list T) i x : l !! i = Some x → (Some <$> l) !! i = Some (Some x).
Proof. intros H. by rewrite list_lookup_fmap, H. Qed.
Lemma peek_cells (l : list T) i x : l !! i = Some x → peek (Some <$> l) i = Ok x.
Proof. intros H. unfold peek, vec_get. by rewrite (lookup_cells l i x H). Qed.
Lemma peek_hole (l : list T) p i x : p ≠ i → l !! i = Some x → peek (hole l p) i = Ok x.
Proof. intros Hp H. unfold peek, vec_get, hole. by rewrite list_lookup_insert_ne, (lookup_cells l i x H) by done. Qed.
Lemma take_out_cells (l : list T) i x : l !! i = Some x → take_out (Some <$> l) i = Ok (x, hole l i).
Proof. intros H. unfold take_out, vec_get. by rewrite (lookup_cells l i x H). Qed.
Lemma put_in_hole (l : list T) i x : l !! i = Some x → put_in (hole l i) i x = Ok (Some <$> l).
Proof.
  intros H. pose proof (lookup_lt_Some _ _ _ H). unfold put_in, vec_get, hole. rewrite list_lookup_insert_eq by (by rewrite length_fmap). cbn. f_equal.
  rewrite list_insert_insert_eq. by apply list_insert_id, lookup_cells.
Qed.
(** A value moves through the hole: the values at the two places are exchanged. *)
Definition exchange (l : list T) (i j : nat) (x y : T) : list T := <[i := y]> (<[j := x]> l).
Lemma move_hole (l : list T) i j x y : l !! i = Some x → l !! j = Some y → i ≠ j →
  take_out (hole l i) j = Ok (y, <[j := None]> (hole l i)) ∧ put_in (<[j := None]> (hole l i)) i y = Ok (hole (exchange l i j x y) j).
Proof.
  intros Hi Hj Hij. pose proof (lookup_lt_Some _ _ _ Hi). pose proof (lookup_lt_Some _ _ _ Hj). unfold take_out, put_in, vec_get, hole, exchange. split.
  - by rewrite list_lookup_insert_ne, (lookup_cells l j y Hj) by done.
  - rewrite list_lookup_insert_ne, list_lookup_insert_eq by (done || by rewrite length_fmap). cbn. f_equal.
    rewrite !list_fmap_insert. apply list_eq. intros k. destruct (decide (k = i)) as [->|]; [|destruct (decide (k = j)) as [->|]].
    + rewrite list_lookup_insert_eq by (rewrite !length_insert, length_fmap; lia). rewrite list_lookup_insert_ne, list_lookup_insert_eq by (done || rewrite !length_insert, length_fmap; lia). done.
    + rewrite list_lookup_insert_ne, !list_lookup_insert_eq by (done || rewrite ?length_insert, ?length_fmap; lia). done.
    + by rewrite !list_lookup_insert_ne by done.
Qed.
Lemma exchange_perm (l : list T) i j x y : l !! i = Some x → l !! j = Some y → exchange l i j x y ≡ₚ l.
Proof. intros Hi Hj. by apply Permutation_insert_swap. Qed.
Lemma exchange_lookup (l : list T) i j x y k : i < length l → j < length l →
  exchange l i j x y !! k = if decide (k = i) then Some y else if decide (k = j) then Some x else l !! k.
Proof.
  intros Hi Hj. unfold exchange. destruct (decide (k = i)) as [->|]; [apply list_lookup_insert_eq; by rewrite length_insert|].
  rewrite list_lookup_insert_ne by done. destruct (decide (k = j)) as [->|]; [by apply list_lookup_insert_eq|by apply list_lookup_insert_ne].
Qed.
Lemma exchange_drop (l : list T) i j x y e : i < e → j < e → drop e (exchange l i j x y) = drop e l.
Proof. intros. unfold exchange. by rewrite !drop_insert_lt. Qed.

(** * The heap order *)
Definition parent (i : nat) : nat := Nat.div2 (i - 1).
Lemma parent_child i p : 0 < i → parent i = p ↔ i = 2 * p + 1 ∨ i = 2 * p + 2.
Proof.
  intros Hi. unfold parent. rewrite Nat.div2_div. pose proof (Nat.div_mod (i - 1) 2). pose proof (Nat.mod_upper_bound (i - 1) 2). lia.
Qed.
Lemma parent_lt i : 0 < i → parent i < i.
Proof. intros Hi. pose proof (proj1 (parent_child i (parent i) Hi) eq_refl). lia. Qed.

(** [P i] bounds the value at [i] by the one at its parent. *)
Definition edge (l : list T) (i p : nat) : Prop := ∀ x y, l !! i = Some x → l !! p = Some y → gt x y = false.
(** The order among the first [e] elements, from [s] down. *)
Definition heap (s e : nat) (l : list T) : Prop := ∀ i, 0 < i < e → s ≤ parent i → edge l i (parent i).
(** The same but for the value at [pos], which may be too great. *)
Definition up (s e pos : nat) (l : list T) : Prop :=
  (∀ i, 0 < i < e → s ≤ parent i → i ≠ pos → edge l i (parent i)) ∧
  (∀ c, 0 < c < e → parent c = pos → s < pos → s ≤ parent pos → edge l c (parent pos)).
(** The same but for the value at [pos], which may be anything. *)
Definition down (s e pos : nat) (l : list T) : Prop :=
  (∀ i, 0 < i < e → s ≤ parent i → i ≠ pos → parent i ≠ pos → edge l i (parent i)) ∧
  (∀ c, 0 < c < e → parent c = pos → s < pos → s ≤ parent pos → edge l c (parent pos)).
Inductive below (s : nat) : nat → Prop :=
  | below_refl : below s s
  | below_child c : 0 < c → below s (parent c) → below s c.
Lemma below_le s i : below s i → s ≤ i.
Proof. induction 1 as [|c Hc _ IH]; [done|]. pose proof (parent_lt c Hc). lia. Qed.
Lemma below_parent s i : below s i → s < i → below s (parent i) ∧ s ≤ parent i.
Proof. inversion 1; subst; [lia|]. intros _. split; [done|]. by apply below_le. Qed.

Lemma up_step l s e pos new y : l !! pos = Some new → l !! parent pos = Some y → s < pos → s ≤ parent pos → pos < e → gt new y = true →
  up s e pos l → up s e (parent pos) (exchange l pos (parent pos) new y).
Proof.
  intros Hn Hy Hsp Hs Hpe Hgt [U1 U2]. pose proof (lookup_lt_Some _ _ _ Hn). pose proof (lookup_lt_Some _ _ _ Hy). pose proof (parent_lt pos).
  assert (gt y new = false) as Hyn by (by apply (gt_asym L)). split.
  - intros i Hi Hsi Hip u v Hu Hv. rewrite exchange_lookup in Hu, Hv by done. pose proof (parent_lt i ltac:(lia)).
    destruct (decide (i = pos)) as [->|Hne].
    + rewrite decide_False, decide_True in Hv by lia. congruence.
    + rewrite decide_False in Hu by done. case_decide as E1; [|case_decide as E2].
      * injection Hv as <-. by apply (U2 i).
      * injection Hv as <-. rewrite <- E2 in Hy. by apply (ngt_trans L u y new), Hyn; apply (U1 i).
      * by apply (U1 i).
  - intros c Hc Hcp Hs1 Hs2 u v Hu Hv. rewrite exchange_lookup in Hu, Hv by done. pose proof (parent_lt (parent pos) ltac:(lia)).
    rewrite !decide_False in Hv by lia. assert (gt y v = false) as Hyv by (by apply (U1 (parent pos)); try done; lia).
    case_decide as E1; [congruence|]. rewrite decide_False in Hu by (pose proof (parent_lt c); lia). rewrite <- Hcp in Hy.
    by apply (ngt_trans L u y v), Hyv; apply (U1 c); try done; lia.
Qed.
Lemma siftup_loop_spec fuel l new s pos e : pos < fuel → l !! pos = Some new → pos < e → below s pos → up s e pos l →
  ∃ l', siftup_loop gt fuel (hole l pos) new s pos = Ok (Some <$> l') ∧ l' ≡ₚ l ∧ drop e l' = drop e l ∧ heap s e l'.
Proof.
  revert l pos. induction fuel as [|fuel IH]; intros l pos Hf Hn Hpe Hb Hup; [lia|].
  cbn [siftup_loop]. fold (parent pos). assert (s ≤ pos) as Hle by (by apply below_le). destruct (Nat.ltb_spec s pos) as [Hlt|Hge].
  - destruct (below_parent s pos Hb Hlt) as [Hb' Hs]. pose proof (parent_lt pos ltac:(lia)). pose proof (lookup_lt_Some _ _ _ Hn).
    destruct (lookup_lt_is_Some_2 l (parent pos)) as [y Hy]; [lia|]. rewrite (peek_hole l pos _ y) by (done || lia). cbn [mbind outcome_bind].
    destruct (gt new y) eqn:E.
    + destruct (move_hole l pos (parent pos) new y) as [-> Hput]; [done|done|lia|]. cbn [mbind outcome_bind]. rewrite Hput. cbn [mbind outcome_bind].
      destruct (IH (exchange l pos (parent pos) new y) (parent pos)) as (l' & -> & Hp & Hd & Hh); [lia| |lia|done|by apply up_step|].
      { rewrite exchange_lookup by lia. by rewrite decide_False, decide_True by lia. }
      exists l'. split_and!; [done|by rewrite Hp; apply exchange_perm|by rewrite Hd; apply exchange_drop; lia|done].
    + exists l. rewrite put_in_hole by done. split_and!; [done..|]. intros i Hi Hsi. destruct (decide (i = pos)) as [->|]; [|by apply Hup].
      intros u v Hu Hv. congruence.
  - exists l. rewrite put_in_hole by done. split_and!; [done..|]. intros i Hi Hsi. apply Hup; try done. pose proof (parent_lt i). lia.
Qed.

Lemma down_step l s e pos new c x : l !! pos = Some new → l !! c = Some x → 0 < c < e → parent c = pos → s ≤ pos →
  (∀ i, 0 < i < e → parent i = pos → edge l i c) → down s e pos l → down s e c (exchange l pos c new x).
Proof.
  intros Hn Hx Hc Hcp Hs Hmax [D1 D2]. pose proof (lookup_lt_Some _ _ _ Hn). pose proof (lookup_lt_Some _ _ _ Hx). pose proof (parent_lt c ltac:(lia)). split.
  - intros i Hi Hsi Hic Hpc u v Hu Hv. rewrite exchange_lookup in Hu, Hv by done. pose proof (parent_lt i ltac:(lia)).
    destruct (decide (i = pos)) as [->|Hne].
    + injection Hu as <-. rewrite !decide_False in Hv by lia. apply (D2 c); try done; lia.
    + rewrite decide_False in Hu by done. case_decide as E1.
      * injection Hv as <-. by apply (Hmax i).
      * rewrite decide_False in Hv by done. by apply (D1 i).
  - intros i Hi Hip Hs1 Hs2 u v Hu Hv. rewrite exchange_lookup in Hu, Hv by done. pose proof (parent_lt i ltac:(lia)).
    rewrite !decide_False in Hu by lia. rewrite Hcp, decide_True in Hv by done. injection Hv as <-. rewrite <- Hip in Hx. apply (D1 i); try done; lia.
Qed.
(** The greater child. *)
Lemma pick_child l pos e (new : T) : l !! pos = Some new → 2 * pos + 1 < e → e ≤ length l →
  ∃ c x, (if 2 * pos + 1 + 1 <? e then a ← peek (hole l pos) (2 * pos + 1); b ← peek (hole l pos) (2 * pos + 1 + 1);
            Ok (if negb (gt a b) then 2 * pos + 1 + 1 else 2 * pos + 1) else Ok (2 * pos + 1)) = Ok c ∧
    0 < c < e ∧ parent c = pos ∧ l !! c = Some x ∧ ∀ i, 0 < i < e → parent i = pos → edge l i c.
Proof.
  intros Hn Hc He. destruct (lookup_lt_is_Some_2 l (2 * pos + 1)) as [a Ha]; [lia|].
  assert (∀ x, gt x x = false) as Hrefl by (intros x; destruct (gt x x) eqn:E; [by rewrite (gt_asym L x x E) in E|done]).
  destruct (Nat.ltb_spec (2 * pos + 1 + 1) e) as [Hr|Hr].
  - destruct (lookup_lt_is_Some_2 l (2 * pos + 1 + 1)) as [b Hb]; [lia|]. rewrite (peek_hole l pos (2 * pos + 1) a), (peek_hole l pos (2 * pos + 1 + 1) b) by (done || lia). cbn [mbind outcome_bind].
    destruct (gt a b) eqn:E; cbn [negb]; [exists (2 * pos + 1), a|exists (2 * pos + 1 + 1), b]; (split_and!; [done|lia|lia|apply parent_child; lia|done|]).
    all: intros i Hi Hip; apply parent_child in Hip; [|lia].
    + intros u v Hu Hv. rewrite Hv in Ha. injection Ha as ->. destruct Hip as [-> | ->]; [by rewrite Hv in Hu; injection Hu as ->|].
      replace (2 * pos + 2) with (2 * pos + 1 + 1) in Hu by lia. rewrite Hu in Hb. injection Hb as ->. by apply (gt_asym L).
    + intros u v Hu Hv. rewrite Hv in Hb. injection Hb as ->. destruct Hip as [-> | ->]; [rewrite Hu in Ha; by injection Ha as ->|].
      replace (2 * pos + 2) with (2 * pos + 1 + 1) in Hu by lia. rewrite Hv in Hu. by injection Hu as ->.
  - exists (2 * pos + 1), a. split_and!; [done|lia|lia|apply parent_child; lia|done|].
    intros i Hi Hip u v Hu Hv. apply parent_child in Hip as [-> | ->]; [|lia|lia]. rewrite Hv in Hu. by injection Hu as ->.
Qed.
Lemma siftdown_loop_spec fuel l new s pos e : e - pos < fuel → l !! pos = Some new → pos < e ≤ length l → below s pos → down s e pos l →
  ∃ l' p, siftdown_loop gt fuel (hole l pos) pos e = Ok (hole l' p, p) ∧ l' !! p = Some new ∧ p < e ∧ below s p ∧ l' ≡ₚ l ∧ drop e l' = drop e l ∧ up s e p l'.
Proof.
  revert l pos. induction fuel as [|fuel IH]; intros l pos Hf Hn Hpe Hb Hdn; [lia|]. cbn [siftdown_loop]. destruct (Nat.ltb_spec (2 * pos + 1) e) as [Hlt|Hge].
  - destruct (pick_child l pos e new) as (c & x & -> & Hc & Hcp & Hx & Hmax); [done|done|lia|]. cbn [mbind outcome_bind]. pose proof (parent_lt c ltac:(lia)).
    destruct (move_hole l pos c new x) as [-> Hput]; [done|done|lia|]. cbn [mbind outcome_bind]. rewrite Hput. cbn [mbind outcome_bind].
    pose proof (lookup_lt_Some _ _ _ Hx). pose proof (exchange_perm l pos c new x Hn Hx) as Hp.
    destruct (IH (exchange l pos c new x) c) as (l' & p & -> & Hn' & Hpe' & Hb' & Hp' & Hd' & Hu); [lia| |rewrite Hp; lia| |by apply down_step; try done; apply below_le|].
    { rewrite exchange_lookup by lia. by rewrite decide_False, decide_True by lia. }
    { apply below_child; [lia|]. by rewrite Hcp. }
    exists l', p. split_and!; [done..|by rewrite Hp'|by rewrite Hd'; apply exchange_drop; lia|done].
  - exists l, pos. split_and!; [done|done|lia|done|done|done|]. destruct Hdn as [D1 D2]. split; [|done].
    intros i Hi Hsi Hne. apply D1; try done. intros Hip. apply parent_child in Hip; lia.
Qed.
Lemma siftdown_range_spec l s e : s < e ≤ length l → heap (S s) e l →
  ∃ l', siftdown_range gt (Some <$> l) s e = Ok (Some <$> l') ∧ l' ≡ₚ l ∧ drop e l' = drop e l ∧ heap s e l'.
Proof.
  intros Hs Hh. destruct (lookup_lt_is_Some_2 l s) as [new Hn]; [lia|]. unfold siftdown_range. rewrite (take_out_cells l s new Hn). cbn [mbind outcome_bind].
  destruct (siftdown_loop_spec (S e) l new s s e) as (l1 & p & -> & Hn1 & Hp1 & Hb1 & Hperm1 & Hd1 & Hu1); [lia|done|done|constructor| |].
  { split; [|intros; lia]. intros i Hi Hsi Hne Hpne. apply Hh; [done|]. lia. }
  cbn [mbind outcome_bind]. rewrite put_in_hole by done. cbn [mbind outcome_bind]. unfold siftup. rewrite (take_out_cells l1 p new Hn1). cbn [mbind outcome_bind].
  destruct (siftup_loop_spec (S p) l1 new s p e) as (l2 & -> & Hperm2 & Hd2 & Hh2); [lia|done|done|done|done|].
  exists l2. split_and!; [done|by rewrite Hperm2|by rewrite Hd2|done].
Qed.
Lemma siftdown_spec l s : s < length l → heap (S s) (length l) l →
  ∃ l', siftdown gt (Some <$> l) s = Ok (Some <$> l') ∧ l' ≡ₚ l ∧ heap s (length l) l'.
Proof.
  intros Hs Hh. unfold siftdown. rewrite length_fmap. destruct (siftdown_range_spec l s (length l)) as (l' & -> & Hp & _ & Hh'); [lia|done|]. eauto.
Qed.

(** * The operations *)
(** The elements of a queue in heap order. *)
Definition holds (q : PriorityQueue T) (l : list T) : Prop := data q = Some <$> l ∧ heap 0 (length l) l.
Definition greatest (x : T) (l : list T) : Prop := x ∈ l ∧ Forall (λ y, gt y x = false) l.

Lemma gt_irrefl x : gt x x = false.
Proof using L. clear -L. destruct (gt x x) eqn:E; [by rewrite (gt_asym L x x E) in E|done]. Qed.
Lemma root_greatest e l x i y : heap 0 e l → e ≤ length l → l !! 0 = Some x → i < e → l !! i = Some y → gt y x = false.
Proof using L.
  intros Hh He Hx. revert y. induction (lt_wf i) as [i _ IH]. intros y Hi Hy. destruct (decide (i = 0)) as [->|Hz].
  - rewrite Hx in Hy. injection Hy as ->. apply gt_irrefl.
  - pose proof (parent_lt i ltac:(lia)). destruct (lookup_lt_is_Some_2 l (parent i)) as [z Hz']; [lia|].
    apply (ngt_trans L y z x); [by apply (Hh i); try done; lia|]. by apply (IH (parent i)); try lia.
Qed.
Lemma top_greatest x l : heap 0 (length (x :: l)) (x :: l) → greatest x (x :: l).
Proof using L.
  intros Hh. split; [apply elem_of_cons; by left|]. apply Forall_lookup. intros i y Hy. eapply root_greatest; [done|done|done|by eapply lookup_lt_Some|done].
Qed.

(** [q] is a heap of the elements [m], in any order. *)
Definition is_queue (q : PriorityQueue T) (m : list T) : Prop := ∃ l, holds q l ∧ l ≡ₚ m.
(** What an operation that takes out the greatest of [m] and leaves the rest with [extra] promises. *)
Definition takes (r : outcome (T * PriorityQueue T)) (m extra : list T) : Prop :=
  ∃ x q rest, r = Ok (x, q) ∧ greatest x m ∧ m ≡ₚ x :: rest ∧ is_queue q (extra ++ rest).

Lemma greatest_perm x m m' : m ≡ₚ m' → greatest x m → greatest x m'.
Proof using. intros Hp [Hi Ha]. split; by rewrite <- Hp. Qed.
Lemma heap_prefix s l k : heap s (length (l ++ k)) (l ++ k) → heap s (length l) l.
Proof using.
  intros Hh i Hi Hs x y Hx Hy. apply (Hh i); [rewrite length_app; lia|done|by apply lookup_app_l_Some..].
Qed.
Lemma push_spec q m x : is_queue q m → ∃ q', push gt q x = Ok q' ∧ is_queue q' (x :: m).
Proof using L.
  intros (l & [Hd Hh] & Hm). unfold push. rewrite Hd.
  replace ((Some <$> l) ++ [Some x]) with (Some <$> l ++ [x]) by (by rewrite fmap_app). rewrite length_fmap, length_app, Nat.add_sub.
  assert ((l ++ [x]) !! length l = Some x) as Hx by (by apply list_lookup_middle). unfold siftup. rewrite (take_out_cells _ _ _ Hx). cbn [mbind outcome_bind].
  destruct (siftup_loop_spec (S (length l)) (l ++ [x]) x 0 (length l) (S (length l))) as (l' & -> & Hp & _ & Hh'); [lia|done|lia| | |].
  - clear. induction (lt_wf (length l)) as [n _ IH]. destruct n; [constructor|]. apply below_child; [lia|]. apply IH, parent_lt. lia.
  - split.
    + intros i Hi _ Hne u v Hu Hv. pose proof (parent_lt i ltac:(lia)). rewrite lookup_app_l in Hu, Hv by lia. apply (Hh i); try done; lia.
    + intros c Hc Hcp. apply parent_child in Hcp; lia.
  - eexists. split; [done|]. exists l'. split; [split; [done|]|].
    + assert (length l' = S (length l)) as -> by (rewrite Hp, length_app; cbn; lia). done.
    + rewrite Hp, <- Hm. symmetry. apply Permutation_cons_append.
Qed.

Lemma swap_top_spec (x : T) (l : list T) (item : T) : swap_top (Some <$> x :: l) item = Ok (x, Some <$> item :: l).
Proof using. done. Qed.
(** A new value on top sinks to its place. *)
Lemma sink_top (x : T) (l : list T) (item : T) : heap 0 (length (x :: l)) (x :: l) → ∃ l', siftdown gt (Some <$> item :: l) 0 = Ok (Some <$> l') ∧ l' ≡ₚ item :: l ∧ heap 0 (length l') l'.
Proof using L.
  intros Hh. destruct (siftdown_spec (item :: l) 0) as (l' & Hl & Hp & Hh'); [cbn; lia| |].
  - intros i Hi Hs u v Hu Hv. destruct i as [|i]; [lia|]. destruct (parent (S i)) as [|p] eqn:E; [lia|]. apply (Hh (S i)); [done|lia|done|]. by rewrite E.
  - exists l'. rewrite <- Hp in Hh'. done.
Qed.
Lemma pop_spec q m : is_queue q m → if decide (m = []) then pop gt q = Fail UnwrapNone else takes (pop gt q) m [].
Proof using L.
  intros (l & [Hd Hh] & Hm). unfold pop, vec_pop. rewrite Hd. destruct (decide (m = [])) as [->|Hne].
  { apply Permutation_nil_r in Hm as ->. done. }
  destruct (decide (l = [])) as [->|Hl]; [by apply Permutation_nil_l in Hm|].
  destruct (exists_last Hl) as (l0 & z & ->). rewrite fmap_app. cbn [fmap list_fmap]. rewrite last_snoc, length_app. cbn [length].
  rewrite Nat.add_sub, take_app_length. cbn [unwrap mbind outcome_bind]. rewrite length_fmap. destruct l0 as [|x l1].
  - eexists z, _, []. split; [done|]. split_and!; [eapply greatest_perm; [exact Hm|]; by apply top_greatest|by rewrite <- Hm|].
    exists []. split; [|done]. split; [done|]. intros i Hi. cbn in Hi. lia.
  - cbn [length Nat.eqb]. rewrite swap_top_spec. cbn [mbind outcome_bind]. destruct (sink_top x l1 z (heap_prefix _ _ _ Hh)) as (l' & -> & Hp & Hh').
    cbn [mbind outcome_bind]. eexists x, _, (z :: l1). split; [done|]. split_and!.
    + eapply greatest_perm; [exact Hm|]. by apply top_greatest.
    + rewrite <- Hm. cbn. by rewrite <- Permutation_cons_append.
    + by exists l'.
Qed.
Lemma replace_spec q m item : is_queue q m → if decide (m = []) then replace gt q item = Fail IndexOutOfBounds else takes (replace gt q item) m [item].
Proof using L.
  intros (l & [Hd Hh] & Hm). unfold replace. rewrite Hd. destruct (decide (m = [])) as [->|Hne].
  { apply Permutation_nil_r in Hm as ->. done. }
  destruct l as [|x l]; [by apply Permutation_nil_l in Hm|]. rewrite swap_top_spec. cbn [mbind outcome_bind].
  destruct (sink_top x l item Hh) as (l' & -> & Hp & Hh'). cbn [mbind outcome_bind]. eexists x, _, l. split; [done|].
  split_and!; [eapply greatest_perm; [exact Hm|]; by apply top_greatest|by rewrite <- Hm|by exists l'].
Qed.
Lemma push_pop_spec q m item : is_queue q m → takes (push_pop gt q item) (item :: m) [].
Proof using L.
  intros (l & [Hd Hh] & Hm). unfold push_pop, is_empty, len, top. rewrite Hd, length_fmap. destruct l as [|x l].
  - apply Permutation_nil_l in Hm as <-. cbn. exists item, q, []. split_and!; [done| |done|].
    + split; [apply elem_of_cons; by left|]. constructor; [apply gt_irrefl|done].
    + by exists [].
  - cbn [length Nat.eqb]. unfold vec_get. rewrite fmap_cons. cbn [lookup list_lookup mbind outcome_bind].
    pose proof (top_greatest x l Hh) as [Hx Hall]. destruct (gt x item) eqn:E.
    + rewrite <- fmap_cons, swap_top_spec. cbn [mbind outcome_bind]. destruct (sink_top x l item Hh) as (l' & -> & Hp & Hh'). cbn [mbind outcome_bind].
      eexists x, _, (item :: l). split; [done|]. split_and!; [|by rewrite <- Hm, Permutation_swap|by exists l'].
      split; [rewrite elem_of_cons, <- Hm; by right|]. constructor; [by apply (gt_asym L)|by rewrite <- Hm].
    + exists item, q, m. split_and!; [done| |done|by exists (x :: l)].
      split; [apply elem_of_cons; by left|]. constructor; [apply gt_irrefl|]. rewrite <- Hm. eapply Forall_impl; [exact Hall|]. intros y Hy. by apply (ngt_trans L y x item).
Qed.
Lemma top_spec q m : is_queue q m → if decide (m = []) then top q = Fail IndexOutOfBounds else ∃ x, top q = Ok x ∧ greatest x m.
Proof using L.
  intros (l & [Hd Hh] & Hm). unfold top. rewrite Hd. destruct (decide (m = [])) as [->|Hne].
  { apply Permutation_nil_r in Hm as ->. done. }
  destruct l as [|x l]; [by apply Permutation_nil_l in Hm|]. exists x. split; [done|]. eapply greatest_perm; [exact Hm|]. by apply top_greatest.
Qed.

Lemma heapify_spec n l : n ≤ length l → heap n (length l) l → ∃ l', heapify gt n (Some <$> l) = Ok (Some <$> l') ∧ l' ≡ₚ l ∧ heap 0 (length l') l'.
Proof using L.
  revert l. induction n as [|n IH]; intros l Hn Hh; [by exists l|]. cbn [heapify]. destruct (siftdown_spec l n) as (l1 & -> & Hp1 & Hh1); [lia|done|].
  cbn [mbind outcome_bind]. rewrite <- Hp1 in Hh1. destruct (IH l1) as (l' & -> & Hp & Hh'); [rewrite Hp1; lia|done|]. exists l'. split_and!; [done|by rewrite Hp|done].
Qed.
Lemma from_vec_spec xs : ∃ q, from_vec gt xs = Ok q ∧ is_queue q xs.
Proof using L.
  unfold from_vec. destruct (heapify_spec (Nat.div2 (length xs)) xs) as (l & -> & Hp & Hh).
  - rewrite Nat.div2_div. apply Nat.Div0.div_le_upper_bound; lia.
  - intros i Hi Hs. rewrite Nat.div2_div in Hs. pose proof (proj1 (parent_child i (parent i) ltac:(lia)) eq_refl).
    pose proof (Nat.div_mod (length xs) 2). pose proof (Nat.mod_upper_bound (length xs) 2). lia.
  - eexists. split; [done|]. by exists l.
Qed.
Lemma extend_spec q m xs : is_queue q m → ∃ q', extend gt q xs = Ok q' ∧ is_queue q' (xs ++ m).
Proof using L.
  revert q m. induction xs as [|x xs IH]; intros q m Hq; [by exists q|]. cbn [extend]. destruct (push_spec q m x Hq) as (q1 & -> & Hq1). cbn [mbind outcome_bind].
  destruct (IH q1 _ Hq1) as (q' & -> & l & Hh & Hp). exists q'. split; [done|]. exists l. split; [done|]. rewrite Hp. cbn. by rewrite Permutation_middle.
Qed.

(** * Heap sort *)
Definition asc (x y : T) : Prop := gt x y = false.
Lemma swap_cells_spec (l : list T) i j x y : l !! i = Some x → l !! j = Some y →
  swap_cells (Some <$> l) i j = Ok (Some <$> exchange l j i y x).
Proof using.
  intros Hi Hj. unfold swap_cells, vec_get, exchange. by rewrite (lookup_cells l i x Hi), (lookup_cells l j y Hj), !list_fmap_insert.
Qed.
(** The first [e] elements are a heap, none of them above the others, which are sorted. *)
Record sorting (e : nat) (l : list T) : Prop := {
  sorting_len : e ≤ length l;
  sorting_heap : heap 0 e l;
  sorting_rest : StronglySorted asc (drop e l);
  sorting_split : ∀ x y, x ∈ take e l → y ∈ drop e l → asc x y }.

Lemma sort_step e l : 0 < e → sorting (S e) l →
  ∃ l1 l2, swap_cells (Some <$> l) 0 e = Ok (Some <$> l1) ∧ siftdown_range gt (Some <$> l1) 0 e = Ok (Some <$> l2) ∧ l2 ≡ₚ l ∧ sorting e l2.
Proof using L.
  intros He [Hlen Hh Hs Hsp]. destruct (lookup_lt_is_Some_2 l 0) as [x Hx]; [lia|]. destruct (lookup_lt_is_Some_2 l e) as [y Hy]; [lia|].
  pose proof (exchange_perm l e 0 y x Hy Hx) as Hp1. pose proof (Permutation_length Hp1) as Hl1. set (l1 := exchange l e 0 y x) in *.
  assert (∀ k, l1 !! k = if decide (k = e) then Some x else if decide (k = 0) then Some y else l !! k) as Hlk by (intros; apply exchange_lookup; lia).
  destruct (siftdown_range_spec l1 0 e) as (l2 & Hsd & Hp2 & Hd2 & Hh2); [lia| |].
  { intros i Hi Hs1 u v. pose proof (parent_lt i). rewrite !Hlk, !decide_False by lia. apply (Hh i); lia. }
  exists l1, l2. split; [by apply swap_cells_spec|]. split; [done|]. split; [by rewrite Hp2|]. pose proof (Permutation_length Hp2) as Hl2.
  assert (drop e l1 = x :: drop (S e) l) as Hd1.
  { rewrite (drop_S l1 x e) by (by rewrite Hlk, decide_True). f_equal. subst l1. apply exchange_drop; lia. }
  assert (take e l2 ≡ₚ take e l1) as Ht by (apply (Permutation_app_inv_r (drop e l2)); rewrite take_drop, Hd2, take_drop; done).
  assert (∀ z, z ∈ take e l1 → z ∈ take (S e) l) as Hin.
  { intros z [k Hk]%list_elem_of_lookup. apply lookup_take_Some in Hk as [Hk Hke]. rewrite Hlk, decide_False in Hk by lia. apply list_elem_of_lookup.
    case_decide; [exists e|exists k]; rewrite lookup_take_lt by lia; congruence. }
  assert (∀ z, z ∈ take (S e) l → asc z x) as Hroot.
  { intros z [k Hk]%list_elem_of_lookup. apply lookup_take_Some in Hk as [Hk Hke]. by eapply (root_greatest (S e) l x k). }
  split; [lia|done| |].
  - rewrite Hd2, Hd1. constructor; [done|]. apply Forall_forall. intros z Hz. apply Hsp; [|done]. rewrite list_elem_of_lookup. exists 0. by rewrite lookup_take_lt by lia.
  - intros u v Hu Hv. rewrite Ht in Hu. rewrite Hd2, Hd1 in Hv. apply elem_of_cons in Hv as [->|Hv]; [by apply Hroot, Hin|]. by apply Hsp; [apply Hin|].
Qed.
Lemma sort_loop_spec e l : sorting e l → ∃ l', sort_loop gt e (Some <$> l) = Ok (Some <$> l') ∧ l' ≡ₚ l ∧ StronglySorted asc l'.
Proof using L.
  revert l. induction e as [|e IH]; intros l Hs.
  - exists l. split_and!; [done..|]. by destruct Hs as [_ _ Hs _].
  - destruct e as [|e].
    + exists l. split_and!; [done..|]. destruct l as [|x l]; [constructor|]. destruct Hs as [_ _ Hr Hsp]. cbn in *. constructor; [done|].
      apply Forall_forall. intros y Hy. apply Hsp; [apply elem_of_cons; by left|done].
    + destruct (sort_step (S e) l) as (l1 & l2 & H1 & H2 & Hp & Hs2); [lia|done|]. destruct (IH l2 Hs2) as (l' & Hl' & Hp' & Hso).
      exists l'. split_and!; [|by rewrite Hp'|done]. cbn [sort_loop] in *. rewrite H1. cbn [mbind outcome_bind]. by rewrite H2.
Qed.
Lemma to_sorted_vec_spec q m : is_queue q m → ∃ l, to_sorted_vec gt q = Ok (Some <$> l) ∧ l ≡ₚ m ∧ StronglySorted asc l.
Proof using L.
  intros (l & [Hd Hh] & Hm). unfold to_sorted_vec, len. rewrite Hd, length_fmap. destruct (sort_loop_spec (length l) l) as (l' & -> & Hp & Hs).
  - split; [done|done|rewrite drop_all; constructor|]. intros x y _. rewrite drop_all. by intros ?%elem_of_nil.
  - exists l'. split_and!; [done|by rewrite Hp|done].
Qed.
End Heap.

(** C14. The binary heap over every total order is a bag of its elements with the
    greatest one on top: [push] adds one, [pop], [replace] and [push_pop] take out
    a greatest one and leave the rest in heap order, [top] shows one, and on an
    empty queue [pop], [replace] and [top] fail; no operation reads the hole that
    sifting leaves in the vector. *)
Theorem queue_correct {T} (gt : T → T → bool) q m x : gt_laws gt → is_queue gt q m →
  (∃ q', push gt q x = Ok q' ∧ is_queue gt q' (x :: m)) ∧ takes gt (push_pop gt q x) (x :: m) [] ∧
  (if decide (m = []) then pop gt q = Fail UnwrapNone ∧ replace gt q x = Fail IndexOutOfBounds ∧ top q = Fail IndexOutOfBounds
   else takes gt (pop gt q) m [] ∧ takes gt (replace gt q x) m [x] ∧ ∃ y, top q = Ok y ∧ greatest gt y m).
Proof.
  intros L Hq. pose proof (pop_spec gt L q m Hq). pose proof (replace_spec gt L q m x Hq). pose proof (top_spec gt L q m Hq).
  split_and!; [by apply push_spec|by apply push_pop_spec|]. by destruct (decide (m = [])).
Qed.

(** Building a queue from a vector, or by pushing the elements of an
    iterator, and emptying it into a sorted vector sorts the elements. *)
Theorem heap_sort_correct {T} (gt : T → T → bool) xs : gt_laws gt →
  ∃ q q', from_vec gt xs = Ok q ∧ from_iter gt xs = Ok q' ∧ is_queue gt q xs ∧ is_queue gt q' xs ∧
    ∃ l l', to_sorted_vec gt q = Ok (Some <$> l) ∧ to_sorted_vec gt q' = Ok (Some <$> l') ∧
      l ≡ₚ xs ∧ l' ≡ₚ xs ∧ StronglySorted (asc gt) l ∧ StronglySorted (asc gt) l'.
Proof.
  intros L. destruct (from_vec_spec gt L xs) as (q & Eq & Hq). destruct (extend_spec gt L new [] xs) as (q' & Eq' & Hq').
  { exists []. split; [|done]. split; [done|]. intros i Hi. cbn in Hi. lia. }
  rewrite app_nil_r in Hq'. exists q, q'. split_and!; [done..|].
  destruct (to_sorted_vec_spec gt L q xs Hq) as (l & ? & ? & ?), (to_sorted_vec_spec gt L q' xs Hq') as (l' & ? & ? & ?). by exists l, l'.
Qed.

Definition nat_gt (x y : nat) : bool := y <? x.
Lemma nat_gt_laws : gt_laws nat_gt.
Proof. unfold nat_gt. split; intros *; rewrite ?Nat.ltb_lt, ?Nat.ltb_ge; lia. Qed.
Lemma queue_correct_witness : takes nat_gt (push_pop nat_gt (mkQueue [Some 7; Some 3]) 5) [5; 7; 3] [].
Proof.
  refine (proj1 (proj2 (queue_correct nat_gt (mkQueue [Some 7; Some 3]) [7; 3] 5 nat_gt_laws _))).
  exists [7; 3]. split; [|done]. split; [done|]. intros i Hi _ x y Hx Hy. assert (i = 1) as -> by (cbn in Hi; lia). cbn in Hx, Hy. by injection Hx as <-; injection Hy as <-.
Defined.
Lemma heap_sort_correct_witness : ∃ q q', from_vec nat_gt [2; 9; 4] = Ok q ∧ from_iter nat_gt [2; 9; 4] = Ok q' ∧ is_queue nat_gt q [2; 9; 4] ∧ is_queue nat_gt q' [2; 9; 4] ∧
    ∃ l l', to_sorted_vec nat_gt q = Ok (Some <$> l) ∧ to_sorted_vec nat_gt q' = Ok (Some <$> l') ∧
      l ≡ₚ [2; 9; 4] ∧ l' ≡ₚ [2; 9; 4] ∧ StronglySorted (asc nat_gt) l ∧ StronglySorted (asc nat_gt) l'.
Proof. exact (heap_sort_correct nat_gt [2; 9; 4] nat_gt_laws). Defined.
