(* ===== verification/Circle.v ===== *)
(** Positions on a circle of cells, and lists of cells that may be empty: what
    the ring buffer and the hash table share. *)
From stdpp Require Import prelude list.
From Stdlib Require Import NArith Lia.
From S2P Require Import Prelude.

(** * Positions *)
(** The cell [i] steps after [p] on a circle of [L] cells. *)
Definition pos (L p i : nat) : nat := if p + i <? L then p + i else p + i - L.
(** How many steps it is from [s] to [p]. *)
Definition dist (L s p : nat) : nat := if s <=? p then p - s else p + (L - s).

Ltac circle :=
  intros; unfold pos, dist in *;
  repeat match goal with
  | |- context [?a <? ?b] => destruct (Nat.ltb_spec a b)
  | |- context [?a <=? ?b] => destruct (Nat.leb_spec a b)
  | H : context [?a <? ?b] |- _ => destruct (Nat.ltb_spec a b)
  | H : context [?a <=? ?b] |- _ => destruct (Nat.leb_spec a b)
  end; lia.

Lemma pos_lt L p i : p < L → i ≤ L → pos L p i < L.
Proof. circle. Qed.
Lemma pos_inj L p i j : p < L → i < L → j < L → pos L p i = pos L p j → i = j.
Proof. circle. Qed.
Lemma pos_0 L p : p < L → pos L p 0 = p.
Proof. circle. Qed.
Lemma pos_round L p : p < L → pos L p L = p.
Proof. circle. Qed.
Lemma pos_pos L p i j : p < L → i + j ≤ L → pos L (pos L p i) j = pos L p (i + j).
Proof. circle. Qed.
Lemma pos_S L p i : p < L → i < L → pos L (pos L p i) 1 = pos L p (S i).
Proof. intros. rewrite pos_pos by lia. f_equal. lia. Qed.
Lemma dist_lt L s p : s < L → p < L → dist L s p < L.
Proof. circle. Qed.
Lemma pos_dist L s p : s < L → p < L → pos L s (dist L s p) = p.
Proof. circle. Qed.
Lemma dist_pos L s i : s < L → i < L → dist L s (pos L s i) = i.
Proof. circle. Qed.
Lemma dist_from L s e i : s < L → e < L → i ≤ dist L s e → dist L (pos L s i) e = dist L s e - i.
Proof. circle. Qed.
(** The cell before [p]. *)
Definition prev (L p : nat) : nat := pos L p (L - 1).
Lemma prev_lt L p : p < L → prev L p < L.
Proof. intros. apply pos_lt; lia. Qed.
Lemma next_prev L p : p < L → pos L (prev L p) 1 = p.
Proof. intros. unfold prev. rewrite pos_pos by lia. replace (L - 1 + 1) with L by lia. by apply pos_round. Qed.
Lemma prev_next L p : p < L → prev L (pos L p 1) = p.
Proof. intros. unfold prev. rewrite pos_pos by lia. replace (1 + (L - 1)) with L by lia. by apply pos_round. Qed.

(** A mask of ones takes the remainder by a power of two. *)
Lemma land_mask x k : N.land x (2 ^ k - 1) = (x mod 2 ^ k)%N.
Proof. rewrite <- N.land_ones, N.ones_equiv, N.sub_1_r. done. Qed.

(** * Cells *)
Section Cells.
Context {A : Type}.
Implicit Types b : list (option A).
Definition elements b : list A := omap id b.
Definition filled b : nat := length (elements b).
(** The elements outside of a cell. *)
Definition others b (p : nat) : list A := elements (take p b) ++ elements (drop (S p) b).

Lemma elements_app b b' : elements (b ++ b') = elements b ++ elements b'.
Proof. apply omap_app. Qed.
Lemma elements_at b p c : b !! p = Some c → elements b ≡ₚ option_list c ++ others b p.
Proof.
  intros Hp. rewrite <- (take_drop_middle b p c Hp) at 1. rewrite elements_app. unfold others. change (c :: drop (S p) b) with ([c] ++ drop (S p) b). rewrite elements_app.
  assert (elements [c] = option_list c) as -> by by destruct c. rewrite !app_assoc. f_equiv. apply Permutation_app_comm.
Qed.
Lemma elements_set b p c : p < length b → elements (<[p := c]> b) ≡ₚ option_list c ++ others b p.
Proof.
  intros Hp. rewrite (elements_at _ p c) by (by apply list_lookup_insert_eq). unfold others. by rewrite take_insert_ge, drop_insert_lt by lia.
Qed.
Lemma elem_of_elements b x : x ∈ elements b ↔ ∃ p, b !! p = Some (Some x).
Proof.
  unfold elements. rewrite list_elem_of_omap. split.
  - intros (y & Hy & Hx). cbn in Hx. subst y. by apply list_elem_of_lookup in Hy.
  - intros [p Hp]. exists (Some x). split; [|done]. by eapply list_elem_of_lookup_2.
Qed.
Lemma filled_cons c b : filled (c :: b) = length (option_list c) + filled b.
Proof. by destruct c. Qed.
Lemma filled_le b : filled b ≤ length b.
Proof. induction b as [|[x|] b IH]; rewrite ?filled_cons; cbn; [done|lia..]. Qed.
Lemma filled_hole b : filled b < length b → ∃ e, b !! e = Some None.
Proof.
  induction b as [|[x|] b IH]; rewrite ?filled_cons; cbn; intros H; [lia| |by exists 0]. destruct IH as [e He]; [lia|]. by exists (S e).
Qed.
Lemma hole_filled b e : b !! e = Some None → filled b < length b.
Proof.
  intros He. pose proof (elements_at b e None He) as H. apply Permutation_length in H. unfold filled. rewrite H. cbn. unfold others. rewrite length_app.
  pose proof (lookup_lt_Some _ _ _ He). pose proof (filled_le (take e b)) as H1. pose proof (filled_le (drop (S e) b)) as H2. unfold filled in *. rewrite length_take, length_drop in *. lia.
Qed.
(** A run of full cells is no longer than there are elements. *)
Lemma run_filled b p j : p < length b → j ≤ length b → (∀ i, i < j → ∃ x, b !! pos (length b) p i = Some (Some x)) → j ≤ filled b.
Proof.
  intros Hp Hj Hrun. pose (r := drop p b ++ take p b).
  assert (filled b = filled r) as ->. { unfold filled, r. rewrite elements_app, Permutation_app_comm, <- elements_app. by rewrite take_drop. }
  assert (∀ i, i < length b → r !! i = b !! pos (length b) p i) as Hr.
  { intros i Hi. unfold r, pos. destruct (Nat.ltb_spec (p + i) (length b)).
    - by rewrite lookup_app_l, lookup_drop by (rewrite length_drop; lia).
    - rewrite lookup_app_r, length_drop, lookup_take_lt by (rewrite ?length_drop; lia). f_equal. lia. }
  assert (length r = length b) as Hl by (unfold r; rewrite length_app, length_drop, length_take; lia). clearbody r.
  assert (∀ i, i < j → ∃ x, r !! i = Some (Some x)) as Hfull by (intros i Hi; rewrite Hr by lia; by apply Hrun). assert (j ≤ length r) as Hjr by lia. clear -Hfull Hjr.
  revert j Hfull Hjr. induction r as [|c r IH]; intros [|j] Hfull Hjr; cbn in *; try lia. destruct (Hfull 0 ltac:(lia)) as [x [= ->]].
  change (filled (Some x :: r)) with (S (filled r)). apply le_n_S, IH; [|lia]. intros i Hi. apply (Hfull (S i)). lia.
Qed.
End Cells.
