(* ===== verification/RingBuf.v ===== *)
(** The double-ended queue of [libcollections/ringbuf.rs], a circular buffer in a
    vector of optional elements.  The capacity of that vector shows, because
    [grow] fills the vector up to it, so the model of the vector, from
    [libstd/vec.rs], has it; [size_of] is the size of an optional element. *)
From stdpp Require Import prelude list.
From Stdlib Require Import NArith.
From S2P Require Import Prelude StrConv Iter Sort.

Module RingBuf.
Local Open Scope N_scope.

Definition INITIAL_CAPACITY : N := 8.
Definition MINIMUM_CAPACITY : N := 2.

(** [num::next_power_of_two] for [uint]: shifts by 1, 2, 4, ..., 32 *)
Definition next_power_of_two (n : N) : N :=
  let tmp := foldl (λ tmp shift, N.lor tmp (N.shiftr tmp shift)) (usub n 1) [1; 2; 4; 8; 16; 32] in
  uadd tmp 1.

Section RingBuf.
Context {T : Type} (size_of : N).

(** * Vectors with their capacity *)
Record Vec : Type := mkVec { cells : list (option T); cap : N }.
Definition vec_len (v : Vec) : N := N.of_nat (length (cells v)).
(** [capacity.checked_mul(&size_of::<T>()).expect("capacity overflow")] *)
Definition check_capacity (capacity : N) : outcome unit :=
  if capacity * size_of <=? UINT_MAX then Ok tt else Fail ExplicitFail.
Definition vec_reserve_exact (v : Vec) (capacity : N) : outcome Vec :=
  if cap v <? capacity then _ ← check_capacity capacity; Ok (mkVec (cells v) capacity) else Ok v.
Definition vec_reserve (v : Vec) (capacity : N) : outcome Vec :=
  if vec_len v <=? capacity then vec_reserve_exact v (next_power_of_two capacity) else Ok v.
(** [Vec::from_fn(n, |_| None)] *)
Definition vec_none (n : N) : outcome Vec :=
  _ ← (if n =? 0 then Ok tt else check_capacity n); Ok (mkVec (replicate (N.to_nat n) None) n).
Definition get_cell (v : Vec) (i : N) : outcome (option T) := vec_get (cells v) (N.to_nat i).
Definition set_cell (v : Vec) (i : N) (c : option T) : outcome Vec :=
  l ← vec_set (cells v) (N.to_nat i) c; Ok (mkVec l (cap v)).
Definition swap_cells (v : Vec) (i j : N) : outcome Vec :=
  a ← get_cell v i; b ← get_cell v j; v ← set_cell v i b; set_cell v j a.

(** * The buffer *)
Record RingBuf : Type := mkRingBuf { nelts : N; lo : N; elts : Vec }.

Definition raw_index (lo len index : N) : N :=
  if usub len index <=? lo then usub (uadd lo index) len else uadd lo index.
Definition self_raw_index (r : RingBuf) (idx : N) : N := raw_index (lo r) (vec_len (elts r)) idx.

Definition with_capacity (n : N) : outcome RingBuf := v ← vec_none (N.max MINIMUM_CAPACITY n); Ok (mkRingBuf 0 0 v).
Definition new : outcome RingBuf := with_capacity INITIAL_CAPACITY.
Definition len (r : RingBuf) : N := nelts r.
Definition clear (r : RingBuf) : RingBuf :=
  mkRingBuf 0 0 (mkVec (replicate (length (cells (elts r))) None) (cap (elts r))).

Definition get (r : RingBuf) (i : N) : outcome T :=
  c ← get_cell (elts r) (self_raw_index r i);
  match c with None => Fail ExplicitFail | Some x => Ok x end.
(** An assignment through [get_mut] *)
Definition get_mut (r : RingBuf) (i : N) (x : T) : outcome RingBuf :=
  let idx := self_raw_index r i in
  c ← get_cell (elts r) idx;
  match c with
  | None => Fail ExplicitFail
  | Some _ => v ← set_cell (elts r) idx (Some x); Ok (mkRingBuf (nelts r) (lo r) v)
  end.
Definition front (r : RingBuf) : outcome (option T) := if 0 <? nelts r then x ← get r 0; Ok (Some x) else Ok None.
Definition back (r : RingBuf) : outcome (option T) :=
  if 0 <? nelts r then x ← get r (usub (nelts r) 1); Ok (Some x) else Ok None.
(** Assignments through [front_mut] and [back_mut]; there is none to make when these give [None] *)
Definition front_mut (r : RingBuf) (x : T) : outcome RingBuf := if 0 <? nelts r then get_mut r 0 x else Ok r.
Definition back_mut (r : RingBuf) (x : T) : outcome RingBuf :=
  if 0 <? nelts r then get_mut r (usub (nelts r) 1) x else Ok r.
Definition swap (r : RingBuf) (i j : N) : outcome RingBuf :=
  _ ← assert_ (i <? len r);
  _ ← assert_ (j <? len r);
  v ← swap_cells (elts r) (self_raw_index r i) (self_raw_index r j);
  Ok (mkRingBuf (nelts r) (lo r) v).
Definition reserve_exact (r : RingBuf) (n : N) : outcome RingBuf :=
  v ← vec_reserve_exact (elts r) n; Ok (mkRingBuf (nelts r) (lo r) v).
Definition reserve (r : RingBuf) (n : N) : outcome RingBuf :=
  v ← vec_reserve (elts r) n; Ok (mkRingBuf (nelts r) (lo r) v).

(** The new position of the first element, and the new vector *)
Definition grow (nelts lo : N) (v : Vec) : outcome (N * Vec) :=
  _ ← assert_ (nelts =? vec_len v);
  let newlen := umul nelts 2 in
  v ← vec_reserve v newlen;
  let v := mkVec (cells v ++ replicate (N.to_nat (cap v - vec_len v)) None) (cap v) in
  _ ← assert_ (nelts <=? usub newlen (nelts / 2));
  if lo <=? usub nelts lo then
    v ← Slice.for_range (N.to_nat lo) 0 (λ i v, swap_cells v (N.of_nat i) (uadd nelts (N.of_nat i))) v;
    Ok (lo, v)
  else
    v ← Slice.for_range (N.to_nat nelts - N.to_nat lo) (N.to_nat lo)
          (λ i v, swap_cells v (N.of_nat i) (uadd (usub newlen nelts) (N.of_nat i))) v;
    Ok (uadd lo (usub newlen nelts), v).
Definition grow_if_full (r : RingBuf) : outcome (N * Vec) :=
  if nelts r =? vec_len (elts r) then grow (nelts r) (lo r) (elts r) else Ok (lo r, elts r).

Definition pop_front (r : RingBuf) : outcome (option T * RingBuf) :=
  result ← get_cell (elts r) (lo r);
  v ← set_cell (elts r) (lo r) None;
  match result with
  | Some x => Ok (Some x, mkRingBuf (usub (nelts r) 1) (uadd (lo r) 1 mod vec_len (elts r)) v)
  | None => Ok (None, mkRingBuf (nelts r) (lo r) v)
  end.
Definition pop_back (r : RingBuf) : outcome (option T * RingBuf) :=
  if 0 <? nelts r then
    let nelts' := usub (nelts r) 1 in
    let hi := self_raw_index r nelts' in
    result ← get_cell (elts r) hi;
    v ← set_cell (elts r) hi None;
    Ok (result, mkRingBuf nelts' (lo r) v)
  else Ok (None, r).
Definition push_front (r : RingBuf) (t : T) : outcome RingBuf :=
  '(lo, v) ← grow_if_full r;
  let lo := if lo =? 0 then usub (vec_len v) 1 else usub lo 1 in
  v ← set_cell v lo (Some t);
  Ok (mkRingBuf (uadd (nelts r) 1) lo v).
Definition push_back (r : RingBuf) (t : T) : outcome RingBuf :=
  '(lo, v) ← grow_if_full r;
  let hi := raw_index lo (vec_len v) (nelts r) in
  v ← set_cell v hi (Some t);
  Ok (mkRingBuf (uadd (nelts r) 1) lo v).
(** [extend] with the elements an iterator gives, [from_iter] with its lower bound *)
Fixpoint extend (r : RingBuf) (xs : list T) : outcome RingBuf :=
  match xs with [] => Ok r | x :: xs => r ← push_back r x; extend r xs end.
Definition from_iter (lower : N) (xs : list T) : outcome RingBuf := r ← with_capacity lower; extend r xs.

(** * Iterators *)
Record Items : Type := mkItems { it_lo : N; it_index : N; it_rindex : N; it_elts : list (option T) }.
Definition iter (r : RingBuf) : Items := mkItems (lo r) 0 (nelts r) (cells (elts r)).
(** [self.elts[raw_index].get_ref()] *)
Definition item_at (it : Items) (index : N) : outcome T :=
  c ← vec_get (it_elts it) (N.to_nat (raw_index (it_lo it) (N.of_nat (length (it_elts it))) index));
  match c with Some x => Ok x | None => Fail ExplicitFail end.
Definition Items_next (fuel : nat) (it : Items) : outcome (option T * Items) :=
  if it_index it =? it_rindex it then Ok (None, it)
  else x ← item_at it (it_index it);
       Ok (Some x, mkItems (it_lo it) (uadd (it_index it) 1) (it_rindex it) (it_elts it)).
Definition Items_next_back (fuel : nat) (it : Items) : outcome (option T * Items) :=
  if it_index it =? it_rindex it then Ok (None, it)
  else let rindex := usub (it_rindex it) 1 in
       x ← item_at it rindex;
       Ok (Some x, mkItems (it_lo it) (it_index it) rindex (it_elts it)).
Definition Items_indexable (it : Items) : N := usub (it_rindex it) (it_index it).
Definition Items_idx (it : Items) (j : N) : outcome (option T) :=
  if Items_indexable it <=? j then Ok None else x ← item_at it (uadd (it_index it) j); Ok (Some x).
Definition Items_size_hint (it : Items) : N * option N := (Items_indexable it, Some (Items_indexable it)).
#[export] Instance Items_Iterator : Iterator Items T := { next := Items_next; size_hint := Items_size_hint }.
#[export] Instance Items_DoubleEnded : DoubleEndedIterator Items T := Items_next_back.

(** [==]; [ne] is its negation *)
Definition eq (eqb : T → T → bool) (fuel : nat) (r s : RingBuf) : outcome bool :=
  if nelts r =? nelts s then
    '(b, _) ← iter_all fuel (iter_zip (iter r) (iter s)) (λ p, eqb p.1 p.2); Ok b
  else Ok false.

(** The mutable iterator: the two parts of the vector still to be visited *)
Record MutItems : Type := mkMutItems { remaining1 : list (option T); remaining2 : list (option T); mut_nelts : N }.
Definition mut_iter (r : RingBuf) : MutItems :=
  let start_index := self_raw_index r 0 in
  let end_index := self_raw_index r (nelts r) in
  let l := cells (elts r) in
  if end_index <=? start_index
  then mkMutItems (drop (N.to_nat start_index) l) (take (N.to_nat end_index) l) (nelts r)
  else mkMutItems (take (N.to_nat (end_index - start_index)) (drop (N.to_nat start_index) l)) [] (nelts r).
(** [mut_shift_ref().unwrap().get_mut_ref()] *)
Definition shift_ref (l : list (option T)) : outcome (T * list (option T)) :=
  match l with Some x :: l => Ok (x, l) | None :: _ => Fail ExplicitFail | [] => Fail UnwrapNone end.
Definition pop_ref (l : list (option T)) : outcome (T * list (option T)) :=
  match last l with Some (Some x) => Ok (x, take (length l - 1) l) | Some None => Fail ExplicitFail | None => Fail UnwrapNone end.
Definition MutItems_next (fuel : nat) (it : MutItems) : outcome (option T * MutItems) :=
  if mut_nelts it =? 0 then Ok (None, it)
  else match remaining1 it with
  | _ :: _ => '(x, l) ← shift_ref (remaining1 it); Ok (Some x, mkMutItems l (remaining2 it) (usub (mut_nelts it) 1))
  | [] =>
      _ ← assert_ (negb (length (remaining2 it) =? 0)%nat);
      '(x, l) ← shift_ref (remaining2 it); Ok (Some x, mkMutItems (remaining1 it) l (usub (mut_nelts it) 1))
  end.
Definition MutItems_next_back (fuel : nat) (it : MutItems) : outcome (option T * MutItems) :=
  if mut_nelts it =? 0 then Ok (None, it)
  else match remaining2 it with
  | _ :: _ => '(x, l) ← pop_ref (remaining2 it); Ok (Some x, mkMutItems (remaining1 it) l (usub (mut_nelts it) 1))
  | [] =>
      _ ← assert_ (negb (length (remaining1 it) =? 0)%nat);
      '(x, l) ← pop_ref (remaining1 it); Ok (Some x, mkMutItems l (remaining2 it) (usub (mut_nelts it) 1))
  end.
Definition MutItems_size_hint (it : MutItems) : N * option N := (mut_nelts it, Some (mut_nelts it)).
#[export] Instance MutItems_Iterator : Iterator MutItems T := { next := MutItems_next; size_hint := MutItems_size_hint }.
#[export] Instance MutItems_DoubleEnded : DoubleEndedIterator MutItems T := MutItems_next_back.
End RingBuf.
Arguments RingBuf : clear implicits.
Arguments Vec : clear implicits.
Arguments Items : clear implicits.
Arguments MutItems : clear implicits.
End RingBuf.
