(* ===== verification/PowerOfTwo.v ===== *)
(** [next_power_of_two] of [libstd/num/mod.rs] for [uint], which sizes the vector
    of a ring buffer and the table of a hash map: the least power of two that is
    not below its argument, and zero where that does not fit. *)
From stdpp Require Import prelude.
From Stdlib Require Import NArith Lia.
From S2P Require Import Prelude StrConv RingBuf.

(** Bit [i] of [t] says whether [x] has one of the [n] bits from [i] on. *)
Definition smeared (x t n : N) : Prop := ∀ i, N.testbit t i = true ↔ ∃ j, (i ≤ j < i + n)%N ∧ N.testbit x j = true.
Lemma smear_step x t n : smeared x t n → smeared x (N.lor t (N.shiftr t n)) (2 * n).
Proof.
  intros Ht i. rewrite N.lor_spec, N.shiftr_spec', orb_true_iff, (Ht i), (Ht (i + n)%N). split.
  - intros [(j & Hj & Hx)|(j & Hj & Hx)]; exists j; (split; [lia|done]).
  - intros (j & Hj & Hx). destruct (N.lt_ge_cases j (i + n)); [left|right]; exists j; (split; [lia|done]).
Qed.

(** The shifts set every bit below the highest one. *)
Lemma smear_ones x : (0 < x < 2 ^ 64)%N →
  foldl (λ tmp shift, N.lor tmp (N.shiftr tmp shift)) x [1; 2; 4; 8; 16; 32]%N = N.ones (N.log2 x + 1).
Proof.
  intros Hx. set (t := foldl _ _ _).
  assert (smeared x t 64) as Ht.
  { subst t. cbn [foldl]. apply (smear_step x _ 32), (smear_step x _ 16), (smear_step x _ 8), (smear_step x _ 4), (smear_step x _ 2), (smear_step x _ 1).
    intros i. split; [intros Hi; exists i; split; [lia|done]|intros (j & Hj & Hj')]. by replace i with j by lia. }
  apply N.bits_inj. intros i. destruct (N.lt_ge_cases i (N.log2 x + 1)) as [Hi|Hi].
  - rewrite N.ones_spec_low by done. apply Ht. exists (N.log2 x). split; [|apply N.bit_log2; lia]. split; [lia|].
    assert (N.log2 x < 64)%N; [|lia]. apply N.log2_lt_pow2; lia.
  - rewrite N.ones_spec_high by done. apply not_true_is_false. rewrite (Ht i). intros (j & Hj & Hj'). by rewrite N.bits_above_log2 in Hj' by lia.
Qed.

Lemma next_power_of_two_correct n : (0 < n ≤ 2 ^ 62)%N → ∃ k, RingBuf.next_power_of_two n = (2 ^ k)%N ∧ (n ≤ 2 ^ k < 2 * n)%N.
Proof.
  change (2 ^ 62)%N with 4611686018427387904%N. intros Hn. unfold RingBuf.next_power_of_two. rewrite usub_small by (unfold UINT_MAX; lia).
  destruct (N.eq_dec n 1) as [->|Hn1]; [exists 0%N; split; [vm_compute; reflexivity|change (2 ^ 0)%N with 1%N; lia]|].
  set (x := (n - 1)%N). rewrite smear_ones by (unfold x; change (2 ^ 64)%N with 18446744073709551616%N; lia).
  pose proof (N.log2_spec x ltac:(unfold x; lia)) as [H1 H2]. rewrite <- N.add_1_r in H2. exists (N.log2 x + 1)%N. rewrite N.ones_equiv.
  assert (2 ^ (N.log2 x + 1) = 2 * 2 ^ N.log2 x)%N as E2 by (rewrite N.pow_add_r; lia). rewrite E2 in *. unfold x in *. rewrite uadd_small by (unfold UINT_MAX; lia). split; lia.
Qed.

(** Above 2^63 the power of two does not fit, and the addition wraps around. *)
Lemma next_power_of_two_wraps n : (2 ^ 63 < n < 2 ^ 64)%N → RingBuf.next_power_of_two n = 0%N.
Proof.
  intros Hn. assert (N.log2 (n - 1) = 63%N) as Hl by (apply N.log2_unique; change (N.succ 63) with 64%N; lia).
  change (2 ^ 63)%N with 9223372036854775808%N in Hn. change (2 ^ 64)%N with 18446744073709551616%N in Hn.
  unfold RingBuf.next_power_of_two. rewrite usub_small by (unfold UINT_MAX; lia).
  rewrite smear_ones by (change (2 ^ 64)%N with 18446744073709551616%N; lia). rewrite Hl. vm_compute. reflexivity.
Qed.
