(* ===== verification/RingBufSound.v ===== *)
(** Correctness of the circular buffer: while the capacity of its vector is the
    length of the vector and a power of two, it is a double-ended queue. *)
From stdpp Require Import prelude list.
From Stdlib Require Import NArith Lia.
From S2P Require Import Prelude StrConv Iter IterOk IterLaws Sort Circle RingBuf PowerOfTwo.
Import RingBuf.

(** * Positions *)
Definition small (L : nat) : Prop := (N.of_nat L < 2 ^ 62)%N.
Lemma raw_index_spec L p i : small L → p < L → i ≤ L → raw_index (N.of_nat p) (N.of_nat L) (N.of_nat i) = N.of_nat (pos L p i).
Proof.
  unfold small. change (2 ^ 62)%N with 4611686018427387904%N. intros HL Hp Hi. unfold raw_index, pos.
  rewrite usub_small, uadd_small by (unfold UINT_MAX; lia). destruct (N.leb_spec (N.of_nat L - N.of_nat i) (N.of_nat p)), (Nat.ltb_spec (p + i) L); try lia.
  rewrite usub_small by (unfold UINT_MAX; lia). lia.
Qed.
Lemma raw_index_beyond L p i : small L → p < L → L < i → (N.of_nat p + N.of_nat i ≤ UINT_MAX)%N → (N.of_nat i ≤ UINT_MAX)%N →
  raw_index (N.of_nat p) (N.of_nat L) (N.of_nat i) = N.of_nat (p + i).
Proof.
  unfold small. change (2 ^ 62)%N with 4611686018427387904%N. intros HL Hp Hi Hs Hm. unfold raw_index. rewrite uadd_small by done.
  assert (usub (N.of_nat L) (N.of_nat i) = 18446744073709551616 + N.of_nat L - N.of_nat i)%N as ->.
  { unfold usub, UINT_BITS, UINT_MAX in *. change (2 ^ 64)%N with 18446744073709551616%N. rewrite (N.mod_small (N.of_nat i)) by lia.
    rewrite N.mod_small by lia. lia. }
  unfold UINT_MAX in *. destruct (N.leb_spec (18446744073709551616 + N.of_nat L - N.of_nat i) (N.of_nat p)); lia.
Qed.
Lemma next_power_of_two_spec k : k < 64 → next_power_of_two (2 ^ N.of_nat k) = (2 ^ N.of_nat k)%N.
Proof.
  intros Hk. assert (forallb (λ k, next_power_of_two (2 ^ N.of_nat k) =? 2 ^ N.of_nat k)%N (seq 0 64) = true) as H by (vm_compute; reflexivity).
  rewrite forallb_forall in H. apply N.eqb_eq, H, in_seq. lia.
Qed.

Section Ring.
Context {T : Type} (size_of : N).

(** * The representation *)
(** The cells of a ring of [l] that starts at [p]. *)
Definition cells_of (c : list (option T)) (p : nat) (l : list T) : Prop :=
  p < length c ∧ length l ≤ length c ∧ ∀ i, i < length c → c !! pos (length c) p i = Some (l !! i).
(** The ring itself, in a vector whose capacity is its length, a power of two. *)
Record ring (r : RingBuf T) (l : list T) : Prop := {
  ring_nelts : nelts r = N.of_nat (length l);
  ring_lo : ∃ p, lo r = N.of_nat p ∧ cells_of (cells (elts r)) p l;
  ring_pow : ∃ k, 0 < k ∧ N.of_nat (length (cells (elts r))) = (2 ^ N.of_nat k)%N;
  ring_cap : cap (elts r) = N.of_nat (length (cells (elts r)));
  ring_small : small (length (cells (elts r))) }.

Lemma get_cell_at (v : Vec T) i c : cells v !! i = Some c → get_cell v (N.of_nat i) = Ok c.
Proof. intros H. unfold get_cell, vec_get. by rewrite Nat2N.id, H. Qed.
Lemma set_cell_at (v : Vec T) i c : i < length (cells v) → set_cell v (N.of_nat i) c = Ok (mkVec (<[i := c]> (cells v)) (cap v)).
Proof. intros H. unfold set_cell, vec_set. rewrite Nat2N.id. by destruct (lookup_lt_is_Some_2 _ _ H) as [? ->]. Qed.

(** A cell changes as the element in it. *)
Lemma cells_set c p (l l' : list T) i x : cells_of c p l → i < length c → length l' ≤ length c → l' !! i = x → (∀ j, j ≠ i → l' !! j = l !! j) →
  cells_of (<[pos (length c) p i := x]> c) p l'.
Proof.
  intros (Hp & Hl & Hc) Hi Hl' Hx Ho. unfold cells_of. rewrite length_insert. split_and!; [done..|]. intros j Hj.
  destruct (decide (j = i)) as [->|Hne]; [rewrite list_lookup_insert_eq by (apply pos_lt; lia); by rewrite Hx|].
  rewrite list_lookup_insert_ne, Ho by (done || (intros E; apply Hne; symmetry; eapply pos_inj; [..|exact E]; lia)). by apply Hc.
Qed.
(** The first element leaves: the ring starts one further. *)
Lemma cells_tail c p (x : T) l : cells_of c p (x :: l) → cells_of (<[p := None]> c) (pos (length c) p 1) l.
Proof.
  intros (Hp & Hl & Hc). unfold cells_of. cbn [length] in *. rewrite length_insert. split_and!; [apply pos_lt; lia|lia|]. intros i Hi.
  destruct (decide (S i = length c)) as [E|E].
  - assert (pos (length c) (pos (length c) p 1) i = p) as ->.
    { unfold pos. destruct (Nat.ltb_spec (p + 1) (length c)); [destruct (Nat.ltb_spec (p + 1 + i) (length c)); lia|destruct (Nat.ltb_spec (p + 1 - length c + i) (length c)); lia]. }
    rewrite list_lookup_insert_eq by done. by rewrite lookup_ge_None_2 by lia.
  - assert (pos (length c) (pos (length c) p 1) i = pos (length c) p (S i)) as ->.
    { unfold pos. destruct (Nat.ltb_spec (p + S i) (length c)), (Nat.ltb_spec (p + 1) (length c));
        [destruct (Nat.ltb_spec (p + 1 + i) (length c)); lia|lia|destruct (Nat.ltb_spec (p + 1 + i) (length c)); lia|destruct (Nat.ltb_spec (p + 1 - length c + i) (length c)); lia]. }
    rewrite list_lookup_insert_ne; [by apply (Hc (S i)); lia|]. unfold pos. destruct (Nat.ltb_spec (p + S i) (length c)); lia.
Qed.
(** A new first element: the ring starts one earlier. *)
Lemma cells_cons c p (x : T) l : cells_of c p l → length l < length c →
  let p' := if p =? 0 then length c - 1 else p - 1 in cells_of (<[p' := Some x]> c) p' (x :: l).
Proof.
  intros (Hp & Hl & Hc) Hlt p'. unfold cells_of. cbn [length]. rewrite length_insert.
  assert (p' < length c) as Hp' by (subst p'; destruct (Nat.eqb_spec p 0); lia). split_and!; [done|lia|]. intros i Hi. destruct i as [|i].
  - assert (pos (length c) p' 0 = p') as -> by (unfold pos; destruct (Nat.ltb_spec (p' + 0) (length c)); lia). by rewrite list_lookup_insert_eq.
  - assert (pos (length c) p' (S i) = pos (length c) p i) as E.
    { subst p'. unfold pos. destruct (Nat.eqb_spec p 0).
      - destruct (Nat.ltb_spec (length c - 1 + S i) (length c)), (Nat.ltb_spec (p + i) (length c)); lia.
      - destruct (Nat.ltb_spec (p - 1 + S i) (length c)), (Nat.ltb_spec (p + i) (length c)); lia. }
    rewrite E, list_lookup_insert_ne; [apply Hc; lia|]. rewrite <- E. unfold pos. destruct (Nat.ltb_spec (p' + S i) (length c)); lia.
Qed.

(** * Growing *)
(** [d] is [c] with as many empty cells after it, the cells from [a] to [b] exchanged for these. *)
Definition swapped (c d : list (option T)) (a b : nat) : Prop := length d = 2 * length c ∧ ∀ j, j < length c →
  d !! j = (if decide (a ≤ j < b) then Some None else c !! j) ∧ d !! (length c + j) = (if decide (a ≤ j < b) then c !! j else Some None).

Lemma swap_step c d k a i : swapped c d a i → a ≤ i → i < length c →
  ∃ d', swap_cells (mkVec d k) (N.of_nat i) (N.of_nat (length c + i)) = Ok (mkVec d' k) ∧ swapped c d' a (S i).
Proof using.
  intros [Hlen Hd] Ha Hi. destruct (Hd i Hi) as [H1 H2]. rewrite !decide_False in H1, H2 by lia. destruct (lookup_lt_is_Some_2 c i Hi) as [x Hx].
  unfold swap_cells. rewrite (get_cell_at _ i x), (get_cell_at _ (length c + i) None) by (cbn; congruence). cbn [mbind outcome_bind].
  rewrite set_cell_at by (cbn; lia). cbn [mbind outcome_bind cells cap]. rewrite set_cell_at by (cbn; rewrite length_insert; lia). cbn [cells cap].
  eexists. split; [done|]. split; [by rewrite !length_insert|]. intros j Hj. destruct (Hd j Hj) as [H3 H4]. destruct (decide (j = i)) as [->|Hne].
  - rewrite list_lookup_insert_ne, !list_lookup_insert_eq, !decide_True by (lia || rewrite ?length_insert; lia). by rewrite Hx.
  - rewrite !list_lookup_insert_ne by lia. rewrite H3, H4. destruct (decide (a ≤ j < i)), (decide (a ≤ j < S i)); try done; lia.
Qed.
Lemma swap_loop c d k a n i f : swapped c d a i → a ≤ i → i + n ≤ length c →
  (∀ i v, i < length c → f i v = swap_cells v (N.of_nat i) (N.of_nat (length c + i))) →
  ∃ d', Slice.for_range n i f (mkVec d k) = Ok (mkVec d' k) ∧ swapped c d' a (i + n).
Proof using.
  intros Hd Ha Hn Hf. revert i d Hd Ha Hn. induction n as [|n IH]; intros i d Hd Ha Hn.
  - exists d. by rewrite Nat.add_0_r.
  - cbn [Slice.for_range]. rewrite Hf by lia. destruct (swap_step c d k a i Hd Ha ltac:(lia)) as (d1 & -> & Hd1). cbn [mbind outcome_bind].
    destruct (IH (S i) d1 Hd1) as (d' & -> & Hd'); [lia|lia|]. exists d'. by rewrite Nat.add_succ_r.
Qed.
(** Exchanging the front part, or the back part and the start, keeps the elements. *)
Lemma swapped_front c d p l : cells_of c p l → swapped c d 0 p → cells_of d p l.
Proof using.
  intros (Hp & Hl & Hc) [Hlen Hd]. unfold cells_of. rewrite Hlen. split_and!; [lia|lia|]. intros i Hi. destruct (decide (i < length c)) as [Hlt|Hge].
  - specialize (Hc i Hlt). unfold pos in *. destruct (Nat.ltb_spec (p + i) (2 * length c)); [|lia]. destruct (Nat.ltb_spec (p + i) (length c)).
    + destruct (Hd (p + i)) as [-> _]; [lia|]. by rewrite decide_False by lia.
    + destruct (Hd (p + i - length c)) as [_ H2]; [lia|]. replace (length c + (p + i - length c)) with (p + i) in H2 by lia. by rewrite H2, decide_True by lia.
  - rewrite (lookup_ge_None_2 l i) by lia. unfold pos. destruct (Nat.ltb_spec (p + i) (2 * length c)).
    + destruct (Hd (p + i - length c)) as [_ H2]; [lia|]. replace (length c + (p + i - length c)) with (p + i) in H2 by lia. by rewrite H2, decide_False by lia.
    + destruct (Hd (p + i - 2 * length c)) as [-> _]; [lia|]. by rewrite decide_True by lia.
Qed.
Lemma swapped_back c d p l : cells_of c p l → swapped c d p (length c) → cells_of d (p + length c) l.
Proof using.
  intros (Hp & Hl & Hc) [Hlen Hd]. unfold cells_of. rewrite Hlen. split_and!; [lia|lia|]. intros i Hi. unfold pos at 1.
  destruct (Nat.ltb_spec (p + length c + i) (2 * length c)).
  - specialize (Hc i ltac:(lia)). unfold pos in Hc. destruct (Nat.ltb_spec (p + i) (length c)); [|lia].
    destruct (Hd (p + i)) as [_ H2]; [lia|]. replace (length c + (p + i)) with (p + length c + i) in H2 by lia. by rewrite H2, decide_True by lia.
  - replace (p + length c + i - 2 * length c) with (p + i - length c) by lia. destruct (decide (i < length c)).
    + specialize (Hc i ltac:(lia)). unfold pos in Hc. destruct (Nat.ltb_spec (p + i) (length c)); [lia|]. destruct (Hd (p + i - length c)) as [-> _]; [lia|]. by rewrite decide_False by lia.
    + rewrite (lookup_ge_None_2 l i) by lia. destruct (decide (p + i - length c < length c)).
      * destruct (Hd (p + i - length c)) as [-> _]; [lia|]. by rewrite decide_True by lia.
      * destruct (Hd (p + i - 2 * length c)) as [_ H2]; [lia|]. replace (length c + (p + i - 2 * length c)) with (p + i - length c) in H2 by lia. by rewrite H2, decide_False by lia.
Qed.

(** Room for twice as many cells. *)
Definition room (r : RingBuf T) : Prop :=
  (2 * N.of_nat (length (cells (elts r))) * size_of ≤ UINT_MAX)%N ∧ small (2 * length (cells (elts r))).
Lemma grow_spec r l : ring r l → length l = length (cells (elts r)) → room r →
  ∃ p v, grow size_of (nelts r) (lo r) (elts r) = Ok (N.of_nat p, v) ∧ cells_of (cells v) p l ∧
    length (cells v) = 2 * length (cells (elts r)) ∧ cap v = N.of_nat (length (cells v)).
Proof using.
  intros [Hn (p & Hlo & Hc) (k & Hk0 & Hk) Hcap Hs] Hfull [Hroom Hs2]. destruct (elts r) as [c kap]. cbn [cells cap] in *. unfold grow, vec_len. cbn [cells cap].
  unfold small in *. change (2 ^ 62)%N with 4611686018427387904%N in *. rewrite Hn, Hlo, Hfull, N.eqb_refl. cbn [assert_ mbind outcome_bind].
  assert (umul (N.of_nat (length c)) 2 = N.of_nat (2 * length c)) as ->.
  { unfold umul, UINT_BITS. change (2 ^ 64)%N with 18446744073709551616%N. rewrite N.mod_small; lia. }
  unfold vec_reserve, vec_len. cbn [cells cap]. destruct (N.leb_spec (N.of_nat (length c)) (N.of_nat (2 * length c))); [|lia].
  assert (k < 62) as Hk62. { destruct (Nat.lt_ge_cases k 62); [done|]. pose proof (N.pow_le_mono_r 2 62 (N.of_nat k)). change (2 ^ 62)%N with 4611686018427387904%N in *. lia. }
  assert (next_power_of_two (N.of_nat (2 * length c)) = N.of_nat (2 * length c)) as ->.
  { replace (N.of_nat (2 * length c)) with (2 ^ N.of_nat (S k))%N by (rewrite Nat2N.inj_succ, N.pow_succ_r'; lia). apply next_power_of_two_spec. lia. }
  unfold vec_reserve_exact, check_capacity. cbn [cells cap]. rewrite Hcap. pose proof Hc as (Hp & Hl & _). destruct (N.ltb_spec (N.of_nat (length c)) (N.of_nat (2 * length c))); [|lia].
  destruct (N.leb_spec (N.of_nat (2 * length c) * size_of) UINT_MAX); [|lia]. cbn [mbind outcome_bind cells cap].
  assert (usub (N.of_nat (2 * length c)) (N.of_nat (length c)) = N.of_nat (length c)) as Hsub by (rewrite usub_small; unfold UINT_MAX; lia).
  pose proof (N.Div0.div_le_mono (N.of_nat (length c)) (N.of_nat (length c) * 2) 2) as Hhalf. rewrite N.div_mul in Hhalf by done.
  rewrite (usub_small (N.of_nat (2 * length c)) (N.of_nat (length c) / 2)) by (unfold UINT_MAX; lia).
  destruct (N.leb_spec (N.of_nat (length c)) (N.of_nat (2 * length c) - N.of_nat (length c) / 2)); [|lia]. cbn [assert_ mbind outcome_bind].
  replace (N.to_nat (N.of_nat (2 * length c) - N.of_nat (length c))) with (length c) by lia.
  rewrite (usub_small (N.of_nat (length c)) (N.of_nat p)) by (unfold UINT_MAX; lia). rewrite Hsub, !Nat2N.id.
  assert (∀ a, swapped c (c ++ replicate (length c) None) a a) as Hz.
  { intros a. split; [rewrite length_app, length_replicate; lia|]. intros j Hj. rewrite !decide_False by lia. rewrite lookup_app_l, lookup_app_r by lia.
    split; [done|]. by rewrite lookup_replicate_2 by lia. }
  assert (∀ (i : nat) (v : Vec T), i < length c → swap_cells v (N.of_nat i) (uadd (N.of_nat (length c)) (N.of_nat i)) = swap_cells v (N.of_nat i) (N.of_nat (length c + i))) as Hf.
  { intros i v Hi. rewrite uadd_small by (unfold UINT_MAX; lia). by rewrite Nat2N.inj_add. }
  destruct (N.leb_spec (N.of_nat p) (N.of_nat (length c) - N.of_nat p)).
  - destruct (swap_loop c _ (N.of_nat (2 * length c)) 0 p 0 _ (Hz 0) (le_n 0) ltac:(lia) Hf) as (d & -> & Hd). cbn [mbind outcome_bind].
    exists p. eexists. split; [done|]. pose proof Hd as [Hdl _]. cbn [cells cap]. rewrite Hdl. split_and!; [by eapply swapped_front|done|done].
  - destruct (swap_loop c _ (N.of_nat (2 * length c)) p (length c - p) p _ (Hz p) (le_n p) ltac:(lia) Hf) as (d & -> & Hd). cbn [mbind outcome_bind].
    replace (p + (length c - p)) with (length c) in Hd by lia. rewrite uadd_small by (unfold UINT_MAX; lia). rewrite <- Nat2N.inj_add.
    exists (p + length c). eexists. split; [done|]. pose proof Hd as [Hdl _]. cbn [cells cap]. rewrite Hdl. split_and!; [by eapply swapped_back|done|done].
Qed.

(** * The operations *)
(** What an operation that leaves a ring of [l], in at most [n] cells, promises. *)
Definition leaves (o : outcome (RingBuf T)) (l : list T) (n : nat) : Prop := ∃ r, o = Ok r ∧ ring r l ∧ length (cells (elts r)) ≤ n.
Definition ncells (r : RingBuf T) : nat := length (cells (elts r)).
(** There is a cell to spare, or room to grow. *)
Definition can_push (r : RingBuf T) (l : list T) : Prop := length l < ncells r ∨ room r.

Lemma grow_if_full_spec r l : ring r l → can_push r l →
  ∃ p v, grow_if_full size_of r = Ok (N.of_nat p, v) ∧ cells_of (cells v) p l ∧ length l < length (cells v) ≤ Nat.max (ncells r) (2 * length l) ∧
    (∃ k, 0 < k ∧ N.of_nat (length (cells v)) = (2 ^ N.of_nat k)%N) ∧ cap v = N.of_nat (length (cells v)) ∧ small (length (cells v)).
Proof using.
  intros Hr Hp. unfold grow_if_full, vec_len. pose proof Hr as [Hn (p & Hlo & Hc) (k & Hk0 & Hk) Hcap Hs]. pose proof Hc as (Hpl & Hl & _). rewrite Hn.
  unfold can_push, ncells in *. destruct (N.eqb_spec (N.of_nat (length l)) (N.of_nat (length (cells (elts r))))) as [E|E].
  - destruct Hp as [?|Hroom]; [lia|]. pose proof Hroom as [_ Hs2]. destruct (grow_spec r l Hr ltac:(lia) Hroom) as (p' & v & Hg & Hc' & Hlen & Hcap'). rewrite <- Hn, Hg.
    exists p', v. rewrite Hlen in *. split_and!; [done..|lia|lia| |done|done]. exists (S k). rewrite Nat2N.inj_succ, N.pow_succ_r', <- Hk. lia.
  - exists p, (elts r). rewrite Hlo. split_and!; [done..|lia|lia|by exists k|done|done].
Qed.
Lemma push_front_spec r l x : ring r l → can_push r l → leaves (push_front size_of r x) (x :: l) (Nat.max (ncells r) (2 * length l)).
Proof using.
  intros Hr Hp. destruct (grow_if_full_spec r l Hr Hp) as (p & v & Hg & Hc & Hlen & Hk & Hcap & Hs). unfold push_front. rewrite Hg. cbn [mbind outcome_bind].
  unfold small, vec_len in *. change (2 ^ 62)%N with 4611686018427387904%N in *. pose proof (cells_cons _ _ x _ Hc ltac:(lia)) as Hc'. pose proof Hc as (Hpl & _ & _).
  assert ((if (N.of_nat p =? 0)%N then usub (N.of_nat (length (cells v))) 1 else usub (N.of_nat p) 1) = N.of_nat (if p =? 0 then length (cells v) - 1 else p - 1)) as ->.
  { destruct (N.eqb_spec (N.of_nat p) 0), (Nat.eqb_spec p 0); try lia; rewrite usub_small by (unfold UINT_MAX; lia); lia. }
  rewrite set_cell_at by (destruct (Nat.eqb_spec p 0); lia). cbn [mbind outcome_bind].
  pose proof (ring_nelts _ _ Hr) as Hn. eexists. split; [done|]. split; [split|]; cbn [nelts lo elts cells cap]; rewrite ?length_insert; try done; [|by eexists|lia].
  rewrite Hn, uadd_small by (unfold UINT_MAX; lia). cbn. lia.
Qed.
Lemma push_back_spec r l x : ring r l → can_push r l → leaves (push_back size_of r x) (l ++ [x]) (Nat.max (ncells r) (2 * length l)).
Proof using.
  intros Hr Hp. destruct (grow_if_full_spec r l Hr Hp) as (p & v & Hg & Hc & Hlen & Hk & Hcap & Hs). unfold push_back. rewrite Hg. cbn [mbind outcome_bind].
  pose proof (ring_nelts _ _ Hr) as Hn. pose proof Hc as (Hpl & _ & _). unfold vec_len. rewrite Hn, raw_index_spec by (done || lia).
  rewrite set_cell_at by (apply pos_lt; lia). cbn [mbind outcome_bind]. unfold small in *. change (2 ^ 62)%N with 4611686018427387904%N in *.
  eexists. split; [done|]. split; [split|]; cbn [nelts lo elts cells cap]; rewrite ?length_insert; try done; [|exists p; split; [done|]|lia].
  - rewrite uadd_small, length_app by (unfold UINT_MAX; lia). cbn. lia.
  - eapply cells_set; [done|lia|rewrite length_app; cbn; lia|by apply list_lookup_middle|]. intros j Hj. destruct (decide (j < length l)); [by rewrite lookup_app_l|].
    rewrite !lookup_ge_None_2 by (rewrite ?length_app; cbn; lia). done.
Qed.
Lemma pop_front_spec r l : ring r l → ∃ r', pop_front r = Ok (head l, r') ∧ ring r' (tail l) ∧ ncells r' = ncells r.
Proof using.
  intros [Hn (p & Hlo & Hc) Hk Hcap Hs]. pose proof Hc as (Hp & Hl & Hcl). unfold pop_front, ncells. rewrite Hlo.
  assert (cells (elts r) !! p = Some (head l)) as Hp0.
  { specialize (Hcl 0 ltac:(lia)). unfold pos in Hcl. rewrite Nat.add_0_r in Hcl. destruct (Nat.ltb_spec p (length (cells (elts r)))); [|lia]. by destruct l. }
  rewrite (get_cell_at _ _ _ Hp0), set_cell_at by done. cbn [mbind outcome_bind]. unfold small in *. change (2 ^ 62)%N with 4611686018427387904%N in *. destruct l as [|x l]; cbn [head tail].
  - eexists. split; [done|]. split; [|cbn; by rewrite length_insert]. split; cbn [nelts lo elts cells cap]; rewrite ?length_insert; try done.
    exists p. split; [done|]. by rewrite list_insert_id.
  - eexists. split; [done|]. split; [|cbn; by rewrite length_insert]. split; cbn [nelts lo elts cells cap]; rewrite ?length_insert; try done.
    + rewrite Hn, usub_small by (unfold UINT_MAX; cbn in *; lia). cbn. lia.
    + exists (pos (length (cells (elts r))) p 1). split; [|by eapply cells_tail]. unfold vec_len. rewrite uadd_small by (unfold UINT_MAX; lia). unfold pos.
      destruct (Nat.ltb_spec (p + 1) (length (cells (elts r)))); [rewrite N.mod_small; lia|].
      replace (N.of_nat p + 1)%N with (N.of_nat (length (cells (elts r)))) by lia. rewrite N.Div0.mod_same. lia.
Qed.
Lemma pop_back_spec r l : ring r l → ∃ r', pop_back r = Ok (last l, r') ∧ ring r' (removelast l) ∧ ncells r' = ncells r.
Proof using.
  intros Hr. pose proof Hr as [Hn (p & Hlo & Hc) Hk Hcap Hs]. pose proof Hc as (Hp & Hl & Hcl). unfold pop_back, ncells, self_raw_index, vec_len. rewrite Hn, Hlo.
  destruct l as [|x l] using rev_ind; [by exists r|clear IHl]. rewrite last_snoc, removelast_last, length_app in *. cbn [length] in *.
  unfold small in *. change (2 ^ 62)%N with 4611686018427387904%N in *. destruct (N.ltb_spec 0 (N.of_nat (length l + 1))); [|lia].
  assert (usub (N.of_nat (length l + 1)) 1 = N.of_nat (length l)) as -> by (rewrite usub_small; unfold UINT_MAX; lia). rewrite raw_index_spec by (done || lia).
  rewrite (get_cell_at _ _ (Some x)), set_cell_at by (first [apply pos_lt; lia|rewrite Hcl by lia; by rewrite list_lookup_middle]). cbn [mbind outcome_bind].
  eexists. split; [done|]. split; [|cbn; by rewrite length_insert]. split; cbn [nelts lo elts cells cap]; rewrite ?length_insert; try done. exists p. split; [done|].
  eapply cells_set; [done|lia|lia|by apply lookup_ge_None_2|]. intros j Hj. destruct (decide (j < length l)); [by rewrite lookup_app_l|].
  rewrite !lookup_ge_None_2 by (rewrite ?length_app; cbn; lia). done.
Qed.

(** An index up to the number of cells; the number itself counts as zero. *)
Lemma get_spec r l i : ring r l → i ≤ ncells r → get r (N.of_nat i) = match l !! (if i =? ncells r then 0 else i) with Some x => Ok x | None => Fail ExplicitFail end.
Proof using.
  intros [Hn (p & Hlo & Hc) Hk Hcap Hs] Hi. pose proof Hc as (Hp & Hl & Hcl). unfold get, self_raw_index, vec_len, ncells in *. rewrite Hlo, raw_index_spec by done.
  erewrite get_cell_at; [done|]. destruct (Nat.eqb_spec i (length (cells (elts r)))) as [->|]; [|apply Hcl; lia].
  rewrite <- Hcl by lia. f_equal. unfold pos. rewrite Nat.add_0_r. destruct (Nat.ltb_spec (p + length (cells (elts r))) (length (cells (elts r)))), (Nat.ltb_spec p (length (cells (elts r)))); lia.
Qed.
Lemma get_beyond r l i : ring r l → ncells r < i → (N.of_nat (ncells r) + N.of_nat i ≤ UINT_MAX)%N → get r (N.of_nat i) = Fail IndexOutOfBounds.
Proof using.
  intros [Hn (p & Hlo & Hc) Hk Hcap Hs] Hi Hm. pose proof Hc as (Hp & Hl & Hcl). unfold get, self_raw_index, vec_len, ncells in *. rewrite Hlo, raw_index_beyond by (done || lia).
  unfold get_cell, vec_get. rewrite Nat2N.id. by rewrite lookup_ge_None_2 by lia.
Qed.
Lemma get_in r l i x : ring r l → l !! i = Some x → get r (N.of_nat i) = Ok x.
Proof using.
  intros Hr Hx. pose proof (lookup_lt_Some _ _ _ Hx). pose proof Hr as [_ (p & _ & (_ & Hl & _)) _ _ _]. rewrite (get_spec r l i Hr) by (unfold ncells; lia).
  destruct (Nat.eqb_spec i (ncells r)); [unfold ncells in *; lia|]. by rewrite Hx.
Qed.
Lemma front_spec r l : ring r l → front r = Ok (head l).
Proof using.
  intros Hr. unfold front. rewrite (ring_nelts _ _ Hr). destruct l as [|x l]; [done|]. cbn [length]. destruct (N.ltb_spec 0 (N.of_nat (S (length l)))); [|lia].
  change 0%N with (N.of_nat 0). by rewrite (get_in r (x :: l) 0 x Hr).
Qed.
Lemma back_spec r l : ring r l → back r = Ok (last l).
Proof using.
  intros Hr. unfold back. pose proof (ring_small _ _ Hr) as Hs. pose proof Hr as [_ (p & _ & (_ & Hl & _)) _ _ _]. rewrite (ring_nelts _ _ Hr).
  destruct l as [|x l] using rev_ind; [done|clear IHl]. rewrite last_snoc, length_app in *. cbn [length] in *.
  unfold small in Hs. change (2 ^ 62)%N with 4611686018427387904%N in Hs. destruct (N.ltb_spec 0 (N.of_nat (length l + 1))); [|lia].
  assert (usub (N.of_nat (length l + 1)) 1 = N.of_nat (length l)) as -> by (rewrite usub_small; unfold UINT_MAX; lia).
  by rewrite (get_in r (l ++ [x]) (length l) x Hr) by (by apply list_lookup_middle).
Qed.
Lemma set_spec r l i x : ring r l → i < length l → leaves (get_mut r (N.of_nat i) x) (<[i := x]> l) (ncells r).
Proof using.
  intros Hr Hi. pose proof Hr as [Hn (p & Hlo & Hc) Hk Hcap Hs]. pose proof Hc as (Hp & Hl & Hcl). unfold get_mut, self_raw_index, vec_len. rewrite Hlo, raw_index_spec by (done || lia).
  destruct (lookup_lt_is_Some_2 l i Hi) as [y Hy]. rewrite (get_cell_at _ _ (Some y)), set_cell_at by (first [apply pos_lt; lia|rewrite Hcl by lia; congruence]). cbn [mbind outcome_bind].
  eexists. split; [done|]. split; [|unfold ncells; cbn; by rewrite length_insert]. split; cbn [nelts lo elts cells cap]; rewrite ?length_insert; try done. exists p. split; [done|].
  eapply cells_set; [done|lia|by rewrite length_insert|by apply list_lookup_insert_eq|]. intros j Hj. by apply list_lookup_insert_ne.
Qed.
Lemma same_leaves r l : ring r l → leaves (Ok r) l (ncells r).
Proof using. intros Hr. exists r. by unfold ncells. Qed.
Lemma front_mut_spec r l x : ring r l → leaves (front_mut r x) (match l with [] => [] | _ :: l => x :: l end) (ncells r).
Proof using.
  intros Hr. unfold front_mut. rewrite (ring_nelts _ _ Hr). destruct l as [|y l]; [by apply same_leaves|]. cbn [length]. destruct (N.ltb_spec 0 (N.of_nat (S (length l)))); [|lia].
  apply (set_spec r (y :: l) 0 x Hr). cbn. lia.
Qed.
Lemma back_mut_spec r l x : ring r l → leaves (back_mut r x) (match l with [] => [] | _ => removelast l ++ [x] end) (ncells r).
Proof using.
  intros Hr. unfold back_mut. pose proof (ring_small _ _ Hr) as Hs. pose proof Hr as [_ (p & _ & (_ & Hl & _)) _ _ _]. rewrite (ring_nelts _ _ Hr).
  destruct l as [|y l _] using rev_ind; [by apply same_leaves|]. rewrite removelast_last, length_app in *. cbn [length] in *.
  unfold small in Hs. change (2 ^ 62)%N with 4611686018427387904%N in Hs. destruct (N.ltb_spec 0 (N.of_nat (length l + 1))); [|lia].
  assert (usub (N.of_nat (length l + 1)) 1 = N.of_nat (length l)) as -> by (rewrite usub_small; unfold UINT_MAX; lia).
  pose proof (set_spec r (l ++ [y]) (length l) x Hr) as Hset. rewrite length_app, insert_app_r_alt, Nat.sub_diag in Hset by lia. destruct (l ++ [y]) eqn:E; [by destruct l|]. apply Hset. cbn. lia.
Qed.
Lemma swap_spec r l i j x y : ring r l → l !! i = Some x → l !! j = Some y → leaves (swap r (N.of_nat i) (N.of_nat j)) (<[j := x]> (<[i := y]> l)) (ncells r).
Proof using.
  intros Hr Hx Hy. pose proof (lookup_lt_Some _ _ _ Hx). pose proof (lookup_lt_Some _ _ _ Hy). pose proof Hr as [Hn (p & Hlo & Hc) Hk Hcap Hs]. pose proof Hc as (Hp & Hl & Hcl).
  unfold swap, len, self_raw_index, vec_len, swap_cells. rewrite Hn, Hlo, !raw_index_spec by (done || lia).
  destruct (N.ltb_spec (N.of_nat i) (N.of_nat (length l))), (N.ltb_spec (N.of_nat j) (N.of_nat (length l))); try lia. cbn [assert_ mbind outcome_bind].
  rewrite (get_cell_at _ (pos _ p i) (Some x)) by (by rewrite Hcl, Hx by lia). cbn [mbind outcome_bind]. rewrite (get_cell_at _ (pos _ p j) (Some y)) by (by rewrite Hcl, Hy by lia). cbn [mbind outcome_bind].
  rewrite set_cell_at by (apply pos_lt; lia). cbn [mbind outcome_bind cells cap]. rewrite set_cell_at by (cbn; rewrite length_insert; apply pos_lt; lia). cbn [mbind outcome_bind cells cap].
  eexists. split; [done|]. split; [|unfold ncells; cbn; by rewrite !length_insert]. split; cbn [nelts lo elts cells cap]; rewrite ?length_insert; try done. exists p. split; [done|].
  assert (cells_of (<[pos (length (cells (elts r))) p i := Some y]> (cells (elts r))) p (<[i := y]> l)) as Hc1.
  { eapply cells_set; [done|lia|by rewrite length_insert|by apply list_lookup_insert_eq|]. intros k Hk'. by apply list_lookup_insert_ne. }
  pose proof (cells_set _ p _ (<[j := x]> (<[i := y]> l)) j (Some x) Hc1) as Hc2. rewrite !length_insert in Hc2.
  apply Hc2; [lia|done|by apply list_lookup_insert_eq; rewrite length_insert|]. intros k Hk'. by apply list_lookup_insert_ne.
Qed.
Lemma none_ring v n : v = mkVec (replicate n None) (N.of_nat n) → 0 < n → small n → (∃ k, 0 < k ∧ N.of_nat n = (2 ^ N.of_nat k)%N) → ring (mkRingBuf 0 0 v) [].
Proof using.
  intros -> Hn Hs Hk. split; cbn; rewrite ?length_replicate; try done. exists 0. split; [done|]. unfold cells_of. rewrite length_replicate. split_and!; [done|cbn; lia|].
  intros i Hi. rewrite lookup_replicate_2 by (apply pos_lt; lia). done.
Qed.
Lemma clear_spec r l : ring r l → ring (clear r) [] ∧ ncells (clear r) = ncells r.
Proof using.
  intros [_ (p & _ & (Hp & _ & _)) Hk Hcap Hs]. unfold ncells. cbn. rewrite length_replicate. split; [|done]. eapply none_ring; [unfold clear; by rewrite Hcap|lia|done|done].
Qed.
Lemma with_capacity_spec k : 0 < k → k < 62 → (2 ^ N.of_nat k * size_of ≤ UINT_MAX)%N → leaves (with_capacity size_of (2 ^ N.of_nat k)) [] (N.to_nat (2 ^ N.of_nat k)).
Proof using.
  intros Hk0 Hk Hs. unfold with_capacity, vec_none, check_capacity, MINIMUM_CAPACITY. pose proof (N.pow_le_mono_r 2 1 (N.of_nat k)) as H2.
  rewrite N.max_r by lia. destruct (N.eqb_spec (2 ^ N.of_nat k) 0) as [E|_]; [lia|]. destruct (N.leb_spec (2 ^ N.of_nat k * size_of) UINT_MAX); [|lia]. cbn [mbind outcome_bind].
  eexists. split; [done|]. split; [|cbn; by rewrite length_replicate]. eapply none_ring; [by rewrite N2Nat.id|lia| |exists k; by rewrite N2Nat.id].
  unfold small. rewrite N2Nat.id. apply N.pow_lt_mono_r; lia.
Qed.

(** * The iterators *)
Definition items_model (it : Items T) (l : list T) : Prop := ∃ p full a b,
  it_lo it = N.of_nat p ∧ it_index it = N.of_nat a ∧ it_rindex it = N.of_nat b ∧ a ≤ b ≤ length full ∧
  cells_of (it_elts it) p full ∧ small (length (it_elts it)) ∧ l = take (b - a) (drop a full).
Lemma item_at_spec it p full i x : it_lo it = N.of_nat p → cells_of (it_elts it) p full → small (length (it_elts it)) → full !! i = Some x → item_at it (N.of_nat i) = Ok x.
Proof using.
  intros Hlo Hc Hs Hx. pose proof (lookup_lt_Some _ _ _ Hx). pose proof Hc as (Hp & Hl & Hcl). unfold item_at, vec_get. rewrite Hlo, raw_index_spec by (done || lia).
  by rewrite Nat2N.id, Hcl, Hx by lia.
Qed.
Lemma items_left it l : items_model it l → Items_indexable it = N.of_nat (length l) ∧ (N.of_nat (length l) < 2 ^ 62)%N.
Proof using.
  intros (p & full & a & b & Hlo & Ha & Hb & Hab & (Hp & Hl & Hcl) & Hs & ->). unfold small in Hs. change (2 ^ 62)%N with 4611686018427387904%N in *.
  rewrite length_take, length_drop. unfold Items_indexable. rewrite Ha, Hb, usub_small by (unfold UINT_MAX; lia). lia.
Qed.
Lemma items_next it l fuel : items_model it l → ∃ it', Items_next fuel it = Ok (head l, it') ∧ items_model it' (tail l).
Proof using.
  intros Hm. pose proof (items_left _ _ Hm) as [_ Hlen]. destruct Hm as (p & full & a & b & Hlo & Ha & Hb & Hab & Hc & Hs & ->). unfold Items_next. rewrite Ha, Hb.
  destruct (N.eqb_spec (N.of_nat a) (N.of_nat b)) as [E|E].
  - exists it. replace (b - a) with 0 by lia. split; [done|]. exists p, full, a, b. by replace (b - a) with 0 by lia.
  - destruct (lookup_lt_is_Some_2 full a ltac:(lia)) as [x Hx]. rewrite (item_at_spec it p full a x) by done. cbn [mbind outcome_bind].
    rewrite (drop_S _ x) by done. replace (b - a) with (S (b - S a)) by lia. eexists. split; [done|]. pose proof Hc as (_ & Hl & _).
    exists p, full, (S a), b. cbn [it_lo it_index it_rindex it_elts take tail]. split_and!; try done; [|lia..]. unfold small in Hs. change (2 ^ 62)%N with 4611686018427387904%N in *. rewrite uadd_small by (unfold UINT_MAX; lia). lia.
Qed.
Lemma items_next_back it l fuel : items_model it l → ∃ it', Items_next_back fuel it = Ok (last l, it') ∧ items_model it' (removelast l).
Proof using.
  intros (p & full & a & b & Hlo & Ha & Hb & Hab & Hc & Hs & ->). unfold Items_next_back. rewrite Ha, Hb.
  destruct (N.eqb_spec (N.of_nat a) (N.of_nat b)) as [E|E].
  - exists it. replace (b - a) with 0 by lia. split; [done|]. exists p, full, a, b. by replace (b - a) with 0 by lia.
  - destruct b as [|b]; [lia|]. destruct (lookup_lt_is_Some_2 full b ltac:(lia)) as [x Hx]. pose proof Hc as (_ & Hl & _).
    assert (usub (N.of_nat (S b)) 1 = N.of_nat b) as -> by (unfold small in Hs; change (2 ^ 62)%N with 4611686018427387904%N in Hs; rewrite usub_small by (unfold UINT_MAX; lia); lia).
    rewrite (item_at_spec it p full b x) by done. cbn [mbind outcome_bind]. replace (S b - a) with (S (b - a)) by lia.
    rewrite (take_S_r _ _ x) by (rewrite lookup_drop; by replace (a + (b - a)) with b by lia). rewrite last_snoc, removelast_last.
    eexists. split; [done|]. exists p, full, a, b. cbn [it_lo it_index it_rindex it_elts]. split_and!; try done; lia.
Qed.
Lemma items_idx it l i : items_model it l → Items_idx it (N.of_nat i) = Ok (l !! i).
Proof using.
  intros Hm. pose proof (items_left _ _ Hm) as [Hleft Hlen]. unfold Items_idx. rewrite Hleft. destruct (N.leb_spec (N.of_nat (length l)) (N.of_nat i)); [by rewrite lookup_ge_None_2 by lia|].
  destruct Hm as (p & full & a & b & Hlo & Ha & Hb & Hab & Hc & Hs & ->). rewrite length_take, length_drop in *. pose proof Hc as (_ & Hl & _).
  unfold small in Hs. change (2 ^ 62)%N with 4611686018427387904%N in *. rewrite Ha, uadd_small, <- Nat2N.inj_add by (unfold UINT_MAX; lia).
  destruct (lookup_lt_is_Some_2 full (a + i) ltac:(lia)) as [x Hx]. rewrite (item_at_spec it p full (a + i) x), lookup_take_lt, lookup_drop, Hx by (done || lia). done.
Qed.
Lemma iter_model r l : ring r l → items_model (iter r) l.
Proof using.
  intros [Hn (p & Hlo & Hc) Hk Hcap Hs]. exists p, l, 0, (length l). cbn. split_and!; try done; try lia. by rewrite Nat.sub_0_r, firstn_all.
Qed.

(** What is left of the mutable iterator: nothing, or both parts hold the elements. *)
Definition mut_model (it : MutItems T) (l : list T) : Prop :=
  mut_nelts it = N.of_nat (length l) ∧ (N.of_nat (length l) < 2 ^ 62)%N ∧ (l = [] ∨ remaining1 it ++ remaining2 it = Some <$> l).
Lemma mut_next it l fuel : mut_model it l → ∃ it', MutItems_next fuel it = Ok (head l, it') ∧ mut_model it' (tail l).
Proof using.
  intros (Hn & Hs & Hl). change (2 ^ 62)%N with 4611686018427387904%N in *. unfold MutItems_next. rewrite Hn. destruct l as [|x l]; [exists it; split; [done|split_and!; [done..|by left]]|].
  destruct Hl as [|Hl]; [done|]. cbn [head tail length] in *. destruct (N.eqb_spec (N.of_nat (S (length l))) 0); [lia|].
  assert (usub (N.of_nat (S (length l))) 1 = N.of_nat (length l)) as -> by (rewrite usub_small by (unfold UINT_MAX; lia); lia).
  destruct it as [l1 l2 n0]. cbn [remaining1 remaining2 mut_nelts] in *. destruct l1 as [|c l1]; cbn in Hl.
  - rewrite Hl. cbn [length fmap list_fmap Nat.eqb negb assert_ shift_ref mbind outcome_bind]. eexists. split; [done|]. split_and!; [done|cbn; lia|by right].
  - injection Hl as -> Hl. cbn [shift_ref mbind outcome_bind]. eexists. split; [done|]. split_and!; [done|cbn; lia|by right].
Qed.
Lemma pop_ref_snoc l (x : T) : pop_ref (l ++ [Some x]) = Ok (x, l).
Proof using. unfold pop_ref. rewrite last_snoc, length_app. cbn [length]. by rewrite Nat.add_sub, take_app_length. Qed.
Lemma mut_next_back it l fuel : mut_model it l → ∃ it', MutItems_next_back fuel it = Ok (last l, it') ∧ mut_model it' (removelast l).
Proof using.
  intros (Hn & Hs & Hl). change (2 ^ 62)%N with 4611686018427387904%N in *. unfold MutItems_next_back. rewrite Hn. destruct l as [|x l _] using rev_ind; [exists it; split; [done|split_and!; [done..|by left]]|].
  destruct Hl as [|Hl]; [by destruct l|]. rewrite last_snoc, removelast_last, length_app, fmap_app in *. change (Some <$> [x]) with [Some x] in Hl. cbn [length] in *. destruct (N.eqb_spec (N.of_nat (length l + 1)) 0); [lia|].
  assert (usub (N.of_nat (length l + 1)) 1 = N.of_nat (length l)) as -> by (rewrite usub_small by (unfold UINT_MAX; lia); lia).
  destruct it as [l1 l2 n0]. cbn [remaining1 remaining2 mut_nelts] in *. destruct l2 as [|c l2 _] using rev_ind.
  - rewrite app_nil_r in Hl. subst l1. rewrite length_app, Nat.add_comm. cbn [length Nat.add Nat.eqb negb assert_ mbind outcome_bind]. rewrite pop_ref_snoc. cbn [mbind outcome_bind].
    eexists. split; [done|]. split_and!; [done|cbn; lia|right]. by rewrite app_nil_r.
  - rewrite app_assoc in Hl. apply app_inj_tail in Hl as [Hl ->]. destruct (l2 ++ [Some x]) eqn:E; [by destruct l2|]. rewrite <- E, pop_ref_snoc. cbn [mbind outcome_bind].
    eexists. split; [done|]. split_and!; [done|cbn; lia|by right].
Qed.
Lemma mut_iter_model r l : ring r l → mut_model (mut_iter r) l.
Proof using.
  intros [Hn (p & Hlo & Hc) Hk Hcap Hs]. pose proof Hc as (Hp & Hl & Hcl). unfold small in Hs.
  assert (N.of_nat (length l) < 2 ^ 62)%N as Hl62 by lia. unfold mut_iter, self_raw_index, vec_len. change 0%N with (N.of_nat 0). rewrite Hn, Hlo, !raw_index_spec by (done || lia).
  set (c := cells (elts r)) in *. assert (pos (length c) p 0 = p) as -> by (unfold pos; destruct (Nat.ltb_spec (p + 0) (length c)); lia).
  destruct (decide (l = [])) as [->|Hne]; [destruct (_ <=? _)%N; split_and!; (done || by left)|]. assert (0 < length l) by (destruct l; [done|cbn; lia]).
  destruct (N.leb_spec (N.of_nat (pos (length c) p (length l))) (N.of_nat p)) as [Hle|Hgt]; cbn [remaining1 remaining2]; rewrite ?N2Nat.inj_sub, !Nat2N.id.
  - split_and!; [done..|]. right. apply list_eq. intros i. rewrite list_lookup_fmap. cbn [remaining1 remaining2].
    assert (pos (length c) p (length l) = p + length l - length c ∧ length c ≤ p + length l) as [HE HL] by (revert Hle; unfold pos; destruct (Nat.ltb_spec (p + length l) (length c)); lia). rewrite HE in *.
    destruct (decide (i < length l)) as [Hi|Hi]; [|rewrite !lookup_ge_None_2 by (rewrite ?length_app, ?length_drop, ?length_take; lia); done].
    destruct (lookup_lt_is_Some_2 l i Hi) as [x Hx]. specialize (Hcl i ltac:(lia)). rewrite Hx in *. unfold pos in Hcl. destruct (Nat.ltb_spec (p + i) (length c)).
    + rewrite lookup_app_l, lookup_drop by (rewrite length_drop; lia). done.
    + rewrite lookup_app_r, length_drop, lookup_take_lt by (rewrite ?length_drop; lia). etransitivity; [|exact Hcl]. f_equal. lia.
  - split_and!; [done..|]. right. cbn [remaining1 remaining2]. rewrite app_nil_r. apply list_eq. intros i. rewrite list_lookup_fmap.
    assert (pos (length c) p (length l) = p + length l ∧ p + length l < length c) as [HE HL] by (revert Hgt; unfold pos; destruct (Nat.ltb_spec (p + length l) (length c)); lia). rewrite HE in *.
    destruct (decide (i < length l)) as [Hi|Hi]; [|rewrite !lookup_ge_None_2 by (rewrite ?length_take, ?length_drop; lia); done].
    destruct (lookup_lt_is_Some_2 l i Hi) as [x Hx]. specialize (Hcl i ltac:(lia)). rewrite Hx in *. unfold pos in Hcl. destruct (Nat.ltb_spec (p + i) (length c)); [|lia].
    rewrite lookup_take_lt, lookup_drop by lia. done.
Qed.
End Ring.

(** The contracts of the iterators. *)
#[export] Instance ring_items_ok T : IteratorOk (Items T) T.
Proof.
  refine {| models := items_model |}.
  - intros it l Hm. destruct (items_next it l 0 Hm) as (it' & Hn & Hm'). exists it'. split; [|done]. exists 0. intros fuel _. exact Hn.
  - intros it l [Hl _]%items_left. unfold hint_fits, size_hint; cbn. rewrite Hl. lia.
Defined.
#[export] Instance ring_items_back_ok T : DoubleEndedOk (Items T) T.
Proof. intros it l Hm. destruct (items_next_back it l 0 Hm) as (it' & Hn & Hm'). exists it'. split; [|done]. exists 0. intros fuel _. exact Hn. Qed.
#[export] Instance ring_items_exact T : ExactSizeOk (Items T) T.
Proof. intros it l [Hl _]%items_left. unfold size_hint; cbn. unfold Items_size_hint. by rewrite Hl. Qed.
#[export] Instance ring_mut_ok T : IteratorOk (MutItems T) T.
Proof.
  refine {| models := mut_model |}.
  - intros it l Hm. destruct (mut_next it l 0 Hm) as (it' & Hn & Hm'). exists it'. split; [|done]. exists 0. intros fuel _. exact Hn.
  - intros it l (Hl & _ & _). unfold hint_fits, size_hint; cbn. rewrite Hl. lia.
Defined.
#[export] Instance ring_mut_back_ok T : DoubleEndedOk (MutItems T) T.
Proof. intros it l Hm. destruct (mut_next_back it l 0 Hm) as (it' & Hn & Hm'). exists it'. split; [|done]. exists 0. intros fuel _. exact Hn. Qed.
#[export] Instance ring_mut_exact T : ExactSizeOk (MutItems T) T.
Proof. intros it l (Hl & _ & _). unfold size_hint; cbn. unfold MutItems_size_hint. by rewrite Hl. Qed.

Local Open Scope model_scope.
(** Two rings are equal when their elements are. *)
Lemma ring_eq_spec {T} `{!EqDecision T} (r s : RingBuf T) l l' : ring r l → ring s l' →
  (λ fuel, RingBuf.eq (λ x y, bool_decide (x = y)) fuel r s) ⇓ bool_decide (l = l').
Proof.
  intros Hr Hs. unfold RingBuf.eq. rewrite (ring_nelts _ _ Hr), (ring_nelts _ _ Hs). destruct (N.eqb_spec (N.of_nat (length l)) (N.of_nat (length l'))) as [El|El].
  - assert (models (iter_zip (iter r) (iter s)) (zip l l')) as Hz by (exists l, l'; split_and!; [by apply iter_model..|done]).
    destruct (for_until (λ _ (p : T * T), if bool_decide (p.1 = p.2) then inl tt else inr tt) (λ p, negb (bool_decide (p.1 = p.2))) (iter_zip (iter r) (iter s)) (zip l l')) as (it' & Hf); [intros p; by case_bool_decide|done|].
    unfold iter_all. eapply ends_bind; [run Hf; apply ends_ret|]. cbv beta iota.
    replace (bool_decide (l = l')) with (forallb (λ p, bool_decide (p.1 = p.2)) (zip l l')); [rewrite forallb_existsb; destruct (existsb _ _); apply ends_ret|].
    assert (length l = length l') as El' by lia. clear -El'. revert l' El'. induction l as [|x l IH]; intros [|y l'] El'; try done. cbn [zip zip_with forallb]. rewrite IH by (cbn in *; lia). repeat case_bool_decide; naive_solver.
  - rewrite bool_decide_eq_false_2 by (intros ->; done). apply ends_ret.
Qed.

(** * Sequences of operations *)
Inductive op (T : Type) : Type :=
| PushFront (x : T) | PushBack (x : T) | PopFront | PopBack | Front | Back | Len | Clear
| Get (i : nat) | Set_ (i : nat) (x : T) | Swap (i j : nat) | Extend (xs : list T) | SetFront (x : T) | SetBack (x : T).
Arguments PushFront {T}. Arguments PushBack {T}. Arguments PopFront {T}. Arguments PopBack {T}. Arguments Front {T}. Arguments Back {T}.
Arguments Len {T}. Arguments Clear {T}. Arguments Get {T}. Arguments Set_ {T}. Arguments Swap {T}. Arguments Extend {T}.
Arguments SetFront {T}. Arguments SetBack {T}.
(** An operation answers with an element, or none, or a number. *)
Inductive answer (T : Type) : Type := Done | Elt (x : option T) | Num (n : N).
Arguments Done {T}. Arguments Elt {T}. Arguments Num {T}.

Section Ops.
Context {T : Type} (size_of : N).
Definition step (r : RingBuf T) (o : op T) : outcome (answer T * RingBuf T) :=
  match o with
  | PushFront x => r ← push_front size_of r x; Ok (Done, r)
  | PushBack x => r ← push_back size_of r x; Ok (Done, r)
  | PopFront => '(x, r) ← pop_front r; Ok (Elt x, r)
  | PopBack => '(x, r) ← pop_back r; Ok (Elt x, r)
  | Front => x ← front r; Ok (Elt x, r)
  | Back => x ← back r; Ok (Elt x, r)
  | Len => Ok (Num (len r), r)
  | Clear => Ok (Done, clear r)
  | Get i => x ← get r (N.of_nat i); Ok (Elt (Some x), r)
  | Set_ i x => r ← get_mut r (N.of_nat i) x; Ok (Done, r)
  | Swap i j => r ← swap r (N.of_nat i) (N.of_nat j); Ok (Done, r)
  | Extend xs => r ← extend size_of r xs; Ok (Done, r)
  | SetFront x => r ← front_mut r x; Ok (Done, r)
  | SetBack x => r ← back_mut r x; Ok (Done, r)
  end.
Fixpoint steps (r : RingBuf T) (os : list (op T)) : outcome (list (answer T) * RingBuf T) :=
  match os with [] => Ok ([], r) | o :: os => '(a, r) ← step r o; '(al, r) ← steps r os; Ok (a :: al, r) end.
(** The same on the list of the elements; [None] for an index that is not there. *)
Definition deque_step (l : list T) (o : op T) : option (answer T * list T) :=
  match o with
  | PushFront x => Some (Done, x :: l)
  | PushBack x => Some (Done, l ++ [x])
  | PopFront => Some (Elt (head l), tail l)
  | PopBack => Some (Elt (last l), removelast l)
  | Front => Some (Elt (head l), l)
  | Back => Some (Elt (last l), l)
  | Len => Some (Num (N.of_nat (length l)), l)
  | Clear => Some (Done, [])
  | Get i => x ← l !! i; Some (Elt (Some x), l)
  | Set_ i x => _ ← l !! i; Some (Done, <[i := x]> l)
  | Swap i j => x ← l !! i; y ← l !! j; Some (Done, <[j := x]> (<[i := y]> l))
  | Extend xs => Some (Done, l ++ xs)
  | SetFront x => Some (Done, match l with [] => [] | _ :: l => x :: l end)
  | SetBack x => Some (Done, match l with [] => [] | _ => removelast l ++ [x] end)
  end.
Fixpoint deque_steps (l : list T) (os : list (op T)) : option (list (answer T) * list T) :=
  match os with [] => Some ([], l) | o :: os => '(a, l) ← deque_step l o; '(al, l) ← deque_steps l os; Some (a :: al, l) end.

(** How many elements operations add, at most. *)
Definition added (o : op T) : nat := match o with Extend xs => length xs | _ => 1 end.
Definition all_added (os : list (op T)) : nat := sum_list_with added os.

(** Memory for a ring that has at most [n] elements at any time. *)
Definition enough (n : nat) : Prop := (4 * (8 + N.of_nat n) * size_of ≤ UINT_MAX ∧ 4 * (8 + N.of_nat n) < 2 ^ 62)%N.
Definition within (r : RingBuf T) (n : nat) : Prop := ncells r ≤ Nat.max 8 (2 * n).

Lemma enough_room r l n : enough n → within r n → can_push size_of r l.
Proof using.
  unfold enough, within, can_push, room, ncells, small. intros [H1 H2] Hw. right. change (2 ^ 62)%N with 4611686018427387904%N in *. split; [|lia].
  etransitivity; [|exact H1]. apply N.mul_le_mono_r. lia.
Qed.
Lemma leaves_step (o : outcome (RingBuf T)) l m n : leaves o l m → m ≤ Nat.max 8 (2 * n) →
  ∃ r', (r ← o; Ok (@Done T, r)) = Ok (Done, r') ∧ ring r' l ∧ within r' n.
Proof using. intros (r' & -> & Hr & Hc) Hm. exists r'. split_and!; [done..|]. unfold within, ncells. lia. Qed.
Lemma ring_extend_spec xs : ∀ r l n, enough n → ring r l → within r n → length l + length xs ≤ n → leaves (extend size_of r xs) (l ++ xs) (Nat.max 8 (2 * n)).
Proof using.
  induction xs as [|x xs IH]; intros r l n He Hr Hw Hn; cbn [extend length] in *; [exists r; by rewrite app_nil_r|].
  pose proof (enough_room r l n He Hw) as Hroom. destruct (push_back_spec size_of r l x Hr Hroom) as (r1 & -> & Hr1 & Hc1). cbn [mbind outcome_bind].
  rewrite cons_middle, app_assoc. unfold within in *. apply (IH r1 _ n He Hr1); [unfold within, ncells in *; lia|rewrite length_app; cbn; lia].
Qed.
Lemma step_ok r l n o a l' : enough n → ring r l → within r n → length l + added o ≤ n → deque_step l o = Some (a, l') →
  length l' ≤ length l + added o ∧ ∃ r', step r o = Ok (a, r') ∧ ring r' l' ∧ within r' n.
Proof using.
  intros He Hr Hw Hn Ho. pose proof (enough_room r l n He Hw) as Hroom. unfold within in Hw.
  destruct o; cbn [deque_step step added] in *; simplify_option_eq.
  - split; [cbn; lia|]. eapply leaves_step; [by apply push_front_spec|lia].
  - split; [rewrite length_app; cbn; lia|]. eapply leaves_step; [by apply push_back_spec|lia].
  - split; [destruct l; cbn; lia|]. destruct (pop_front_spec r l Hr) as (r' & -> & Hr' & Hc). exists r'. unfold within. rewrite Hc. done.
  - split; [rewrite removelast_firstn_len, length_take; lia|]. destruct (pop_back_spec r l Hr) as (r' & -> & Hr' & Hc). exists r'. unfold within. rewrite Hc. done.
  - split; [lia|]. rewrite (front_spec r _ Hr). by exists r.
  - split; [lia|]. rewrite (back_spec r _ Hr). by exists r.
  - split; [lia|]. unfold len. rewrite (ring_nelts _ _ Hr). by exists r.
  - split; [cbn; lia|]. destruct (clear_spec r l Hr) as [Hr' Hc]. exists (clear r). unfold within. by rewrite Hc.
  - split; [lia|]. erewrite get_in by done. by exists r.
  - split; [rewrite length_insert; lia|]. eapply leaves_step; [apply set_spec; [done|by eapply lookup_lt_Some]|lia].
  - split; [rewrite !length_insert; lia|]. eapply leaves_step; [by apply swap_spec|lia].
  - split; [rewrite length_app; lia|]. eapply leaves_step; [by eapply ring_extend_spec|lia].
  - split; [destruct l; cbn; lia|]. eapply leaves_step; [by apply front_mut_spec|lia].
  - split; [destruct l as [|y l _] using rev_ind; [cbn; lia|destruct (l ++ [y]) eqn:E; [by destruct l|]; rewrite <- E, removelast_last, !length_app; cbn; lia]|].
    eapply leaves_step; [by apply back_mut_spec|lia].
Qed.
Lemma steps_ok os : ∀ r l n al l', enough n → ring r l → within r n → length l + all_added os ≤ n → deque_steps l os = Some (al, l') →
  ∃ r', steps r os = Ok (al, r') ∧ ring r' l'.
Proof using.
  induction os as [|o os IH]; intros r l n al l' He Hr Hw Hn Ho; unfold all_added in *; cbn [deque_steps steps sum_list_with] in *; simplify_eq; [by exists r|].
  destruct (deque_step l o) as [[a l1]|] eqn:E1; [|done]. cbn in Ho. destruct (deque_steps l1 os) as [[al1 l2]|] eqn:E2; [|done]. cbn in Ho. simplify_eq.
  destruct (step_ok r l n o a l1 He Hr Hw ltac:(lia) E1) as (Hl1 & r1 & -> & Hr1 & Hw1). cbn [mbind outcome_bind].
  destruct (IH r1 l1 n al1 l' He Hr1 Hw1 ltac:(lia) E2) as (r' & -> & Hr'). by exists r'.
Qed.
Lemma ring_new_spec : enough 0 → ∃ r, new size_of = Ok r ∧ ring r [] ∧ within r 0.
Proof using.
  intros [H1 _]. destruct (with_capacity_spec (T := T) size_of 3) as (r & Hr & Hring & Hc); [lia..|change (2 ^ N.of_nat 3)%N with 8%N; lia|].
  exists r. split_and!; [exact Hr|done|]. unfold within, ncells. change (N.to_nat (2 ^ N.of_nat 3)) with 8 in Hc. lia.
Qed.
End Ops.

(** An index that is not there. *)
Lemma index_out {T} (r : RingBuf T) l i : ring r l → length l ≤ i → i < ncells r →
  get r (N.of_nat i) = Fail ExplicitFail ∧ ∀ x, get_mut r (N.of_nat i) x = Fail ExplicitFail.
Proof.
  intros Hr Hl Hi. unfold ncells in Hi. pose proof Hr as [Hn (p & Hlo & Hc) _ _ Hs]. pose proof Hc as (Hp & _ & Hcl).
  unfold get, get_mut, self_raw_index, vec_len. rewrite Hlo, raw_index_spec by (done || lia).
  by rewrite (get_cell_at _ _ None) by (rewrite Hcl, lookup_ge_None_2 by lia; done).
Qed.
Lemma swap_out {T} (r : RingBuf T) l i j : ring r l → length l ≤ i ∨ length l ≤ j → swap r (N.of_nat i) (N.of_nat j) = Fail AssertFailed.
Proof.
  intros Hr Hij. unfold swap, len. rewrite (ring_nelts _ _ Hr).
  destruct (N.ltb_spec (N.of_nat i) (N.of_nat (length l))); [|done]. destruct (N.ltb_spec (N.of_nat j) (N.of_nat (length l))); [lia|done].
Qed.
Lemma get_round {T} (r : RingBuf T) l : ring r l →
  get r (N.of_nat (ncells r)) = match l with [] => Fail ExplicitFail | x :: _ => Ok x end.
Proof. intros Hr. rewrite (get_spec r l _ Hr) by lia. rewrite Nat.eqb_refl. by destruct l. Qed.


(** * Growing without the power of two *)
Section Loses.
Context {T : Type} (size_of : N).

(** Exchanging cells of the front of a vector. *)
Lemma swap_cells_app (d d' e : list (option T)) k i j :
  swap_cells (mkVec d k) i j = Ok (mkVec d' k) → swap_cells (mkVec (d ++ e) k) i j = Ok (mkVec (d' ++ e) k).
Proof using.
  unfold swap_cells, get_cell, set_cell, vec_get, vec_set. cbn [cells cap]. intros Hs.
  destruct (d !! N.to_nat i) as [a|] eqn:Ei; [|done]. cbn [mbind outcome_bind] in Hs. destruct (d !! N.to_nat j) as [b|] eqn:Ej; [|done]. cbn [mbind outcome_bind] in Hs.
  pose proof (lookup_lt_Some _ _ _ Ei). pose proof (lookup_lt_Some _ _ _ Ej).
  cbn [mbind outcome_bind cells cap] in Hs. destruct (lookup_lt_is_Some_2 (<[N.to_nat i := b]> d) (N.to_nat j)) as [y Hy]; [by rewrite length_insert|].
  rewrite Hy in Hs. cbn [mbind outcome_bind cells cap] in Hs. injection Hs as <-.
  rewrite !lookup_app_l, Ei, Ej by done. cbn [mbind outcome_bind cells cap].
  rewrite insert_app_l, lookup_app_l, Hy by (by rewrite ?length_insert). cbn [mbind outcome_bind cells cap]. by rewrite insert_app_l by (by rewrite length_insert).
Qed.
Lemma swap_loop_app (c d e : list (option T)) k a n i f : swapped c d a i → a ≤ i → i + n ≤ length c →
  (∀ i v, i < length c → f i v = swap_cells v (N.of_nat i) (N.of_nat (length c + i))) →
  ∃ d', Slice.for_range n i f (mkVec (d ++ e) k) = Ok (mkVec (d' ++ e) k) ∧ swapped c d' a (i + n).
Proof using.
  intros Hd Ha Hn Hf. revert i d Hd Ha Hn. induction n as [|n IH]; intros i d Hd Ha Hn.
  - exists d. by rewrite Nat.add_0_r.
  - cbn [Slice.for_range]. rewrite Hf by lia. destruct (swap_step c d k a i Hd Ha ltac:(lia)) as (d1 & Hs & Hd1). rewrite (swap_cells_app _ _ e _ _ _ Hs). cbn [mbind outcome_bind].
    destruct (IH (S i) d1 Hd1) as (d' & -> & Hd'); [lia|lia|]. exists d'. by rewrite Nat.add_succ_r.
Qed.

(** The loop of [grow] on a full ring that starts in its back half, in a vector
    that grows to [M] cells. *)
Lemma grow_back r (l : list T) p (M : nat) :
  nelts r = N.of_nat (length l) → lo r = N.of_nat p → cells_of (cells (elts r)) p l → length l = ncells r → cap (elts r) = N.of_nat (ncells r) →
  ncells r < 2 * p → next_power_of_two (N.of_nat (2 * ncells r)) = N.of_nat M → 2 * ncells r ≤ M → small (2 * ncells r) → (N.of_nat M * size_of ≤ UINT_MAX)%N →
  ∃ d, grow size_of (nelts r) (lo r) (elts r) = Ok (N.of_nat (p + ncells r), mkVec (d ++ replicate (M - 2 * ncells r) None) (N.of_nat M)) ∧ length d = 2 * ncells r.
Proof using.
  intros Hn Hlo (Hp & Hl & Hc) Hfull Hcap Hback HM HM2 Hs Hmem. unfold ncells in *. destruct (elts r) as [c kap]. cbn [cells cap] in *. unfold grow, vec_len. cbn [cells cap].
  unfold small in *. change (2 ^ 62)%N with 4611686018427387904%N in *. rewrite Hn, Hlo, Hfull, N.eqb_refl. cbn [assert_ mbind outcome_bind].
  assert (umul (N.of_nat (length c)) 2 = N.of_nat (2 * length c)) as ->.
  { unfold umul, UINT_BITS. change (2 ^ 64)%N with 18446744073709551616%N. rewrite N.mod_small; lia. }
  unfold vec_reserve, vec_len. cbn [cells cap]. destruct (N.leb_spec (N.of_nat (length c)) (N.of_nat (2 * length c))); [|lia]. rewrite HM.
  unfold vec_reserve_exact, check_capacity. cbn [cells cap]. rewrite Hcap. destruct (N.ltb_spec (N.of_nat (length c)) (N.of_nat M)); [|lia].
  destruct (N.leb_spec (N.of_nat M * size_of) UINT_MAX); [|lia]. cbn [mbind outcome_bind cells cap].
  pose proof (N.Div0.div_le_mono (N.of_nat (length c)) (N.of_nat (length c) * 2) 2) as Hhalf. rewrite N.div_mul in Hhalf by done.
  rewrite (usub_small (N.of_nat (2 * length c)) (N.of_nat (length c) / 2)) by (unfold UINT_MAX; lia).
  destruct (N.leb_spec (N.of_nat (length c)) (N.of_nat (2 * length c) - N.of_nat (length c) / 2)); [|lia]. cbn [assert_ mbind outcome_bind].
  rewrite (usub_small (N.of_nat (length c)) (N.of_nat p)), (usub_small (N.of_nat (2 * length c))) by (unfold UINT_MAX; lia).
  destruct (N.leb_spec (N.of_nat p) (N.of_nat (length c) - N.of_nat p)); [lia|].
  replace (N.to_nat (N.of_nat M - N.of_nat (length c))) with (length c + (M - 2 * length c)) by lia. rewrite replicate_add, app_assoc, !Nat2N.id.
  destruct (swap_loop_app c (c ++ replicate (length c) None) (replicate (M - 2 * length c) None) (N.of_nat M) p (length c - p) p
    (λ i v, swap_cells v (N.of_nat i) (uadd (N.of_nat (2 * length c) - N.of_nat (length c)) (N.of_nat i)))) as (d & -> & Hd); [|lia|lia| |].
  - split; [rewrite length_app, length_replicate; lia|]. intros j Hj. rewrite !decide_False by lia. rewrite lookup_app_l, lookup_app_r by lia.
    split; [done|]. by rewrite lookup_replicate_2 by lia.
  - intros i v Hi. f_equal. rewrite uadd_small by (unfold UINT_MAX; lia). lia.
  - cbn [mbind outcome_bind]. exists d. rewrite uadd_small by (unfold UINT_MAX; lia). split; [|by destruct Hd]. f_equal. f_equal. lia.
Qed.

(** C38. Growing loses elements of a buffer whose number of cells is not a power of
    two (one made by [with_capacity] or collected from an iterator with another
    lower bound): if it is full and starts in its back half, [push_back] grows it
    into a vector of more than twice the cells, all of which are in use, but
    moves the back part only by the old number of cells.  The push answers, the
    length is one more, but the element behind the back part, which was there
    before, is no longer found: [get] fails at its index. *)
Theorem ringbuf_grow_loses (r : RingBuf T) l p x :
  nelts r = N.of_nat (length l) → lo r = N.of_nat p → cells_of (cells (elts r)) p l →
  length l = ncells r → cap (elts r) = N.of_nat (ncells r) → ncells r < 2 * p →
  (∀ k, N.of_nat (ncells r) ≠ 2 ^ k)%N → small (4 * ncells r) → (4 * N.of_nat (ncells r) * size_of ≤ UINT_MAX)%N →
  is_Some (l !! (ncells r - p)) ∧
  ∃ r', push_back size_of r x = Ok r' ∧ len r' = N.of_nat (S (length l)) ∧ get r' (N.of_nat (ncells r - p)) = Fail ExplicitFail.
Proof using.
  intros Hn Hlo Hc Hfull Hcap Hback Hpow Hs Hmem. pose proof Hc as (Hp & _ & _). fold (ncells r) in Hp. split; [apply lookup_lt_is_Some_2; lia|].
  unfold small in Hs. change (2 ^ 62)%N with 4611686018427387904%N in Hs.
  destruct (next_power_of_two_correct (N.of_nat (2 * ncells r))) as (k & HM & Hlo2 & Hhi2); [change (2 ^ 62)%N with 4611686018427387904%N; lia|].
  assert (2 ^ k ≠ N.of_nat (2 * ncells r))%N as Hne.
  { intros E. destruct (N.eq_dec k 0) as [->|Hk]; [change (2 ^ 0)%N with 1%N in E; lia|]. apply (Hpow (k - 1)%N).
    replace k with (N.succ (k - 1)) in E by lia. rewrite N.pow_succ_r' in E. lia. }
  set (M := N.to_nat (2 ^ k)). assert (N.of_nat M = 2 ^ k)%N as EM by (unfold M; lia). rewrite <- EM in *.
  destruct (grow_back r l p M Hn Hlo Hc Hfull Hcap Hback HM) as (d & Hg & Hd); [lia|unfold small; change (2 ^ 62)%N with 4611686018427387904%N; lia|nia|].
  unfold push_back, grow_if_full, vec_len. rewrite Hn, Hfull. fold (ncells r). rewrite N.eqb_refl, <- Hfull, <- Hn, Hg. cbn [mbind outcome_bind cells]. rewrite Hn, Hfull.
  set (e := d ++ _). assert (length e = M) as He by (unfold e; rewrite length_app, length_replicate; lia). rewrite He.
  rewrite raw_index_spec by (unfold small; change (2 ^ 62)%N with 4611686018427387904%N; lia).
  assert (e !! (2 * ncells r) = Some None) as Hhole by (unfold e; rewrite lookup_app_r, lookup_replicate_2 by lia; done).
  rewrite set_cell_at by (cbn [cells]; rewrite He; apply pos_lt; lia). cbn [mbind outcome_bind cells cap].
  eexists. split; [done|]. split; [unfold len; cbn; rewrite uadd_small by (unfold UINT_MAX; lia); lia|].
  unfold get, self_raw_index, vec_len. cbn [elts lo cells]. rewrite length_insert, He, raw_index_spec by (unfold small; change (2 ^ 62)%N with 4611686018427387904%N; lia).
  assert (pos M (p + ncells r) (ncells r - p) = 2 * ncells r) as -> by (unfold pos; destruct (Nat.ltb_spec (p + ncells r + (ncells r - p)) M); lia).
  rewrite (get_cell_at _ _ None); [reflexivity|]. cbn [cells]. rewrite list_lookup_insert_ne; [done|]. unfold pos. destruct (Nat.ltb_spec (p + ncells r + ncells r) M); lia.
Qed.
End Loses.

(** [with_capacity(3)], three elements pushed, two popped and two pushed: the
    elements 3, 4, 5 from the last cell on, of which the second is lost. *)
Lemma ringbuf_grow_loses_witness :
  ∃ r0 r r', with_capacity 16 3 = Ok r0 ∧
    steps 16 r0 [PushBack 1; PushBack 2; PushBack 3; PopFront; PopFront; PushBack 4; PushBack 5]
      = Ok ([Done; Done; Done; Elt (Some 1); Elt (Some 2); Done; Done], r) ∧
    get r 1 = Ok 4 ∧ push_back 16 r 6 = Ok r' ∧ get r' 1 = Fail ExplicitFail.
Proof.
  set (r := mkRingBuf 3 2 (mkVec [Some 4; Some 5; Some 3] 3)).
  destruct (ringbuf_grow_loses 16 r [3; 4; 5] 2 6) as (_ & r' & Hr' & _ & Hget).
  - reflexivity.
  - reflexivity.
  - split; [vm_compute; lia|]. split; [vm_compute; lia|]. intros [|[|[|i]]] Hi; [reflexivity..|cbn in Hi; lia].
  - reflexivity.
  - reflexivity.
  - vm_compute; lia.
  - intros k E. change (N.of_nat (ncells r)) with 3%N in E. destruct (N.eq_dec k 0) as [->|Hk]; [done|]. replace k with (N.succ (k - 1)) in E by lia. rewrite N.pow_succ_r' in E. lia.
  - vm_compute; reflexivity.
  - vm_compute; discriminate.
  - exists (mkRingBuf 0 0 (mkVec [None; None; None] 3)), r, r'. split; [reflexivity|]. split; [vm_compute; reflexivity|]. split; [reflexivity|]. split; [exact Hr'|exact Hget].
Defined.
