(* ===== verification/HashMap.v ===== *)
(** The hash map of [libcollections/hashmap.rs]: open addressing with Robin Hood
    probing.  [Table] is the raw table, three arrays reached by pointers, whose
    keys and values are not initialized where the hash says that the bucket is
    empty; memory is that of [Sort].  The hash function and the sizes of keys
    and values are parameters.  The assertions under [cfg!(test)] are not part
    of the library. *)
From stdpp Require Import prelude list.
From Stdlib Require Import NArith.
From S2P Require Import Prelude StrConv Sort RingBuf.

Module Table.
Local Open Scope N_scope.
Definition EMPTY_BUCKET : N := 0.

(** A cell of an array; [None] is a cell that is not initialized or moved out of *)
Definition load {A} (b : list (option A)) (i : N) : outcome A := Slice.read b (N.to_nat i).
Definition store {A} (b : list (option A)) (i : N) (c : option A) : outcome (list (option A)) := Slice.write b (N.to_nat i) [c].

Record FullIndex : Type := mkFullIndex { fi_idx : N; fi_hash : N }.
Inductive BucketState : Type := Empty (idx : N) | Full (idx : FullIndex).
(** [SafeHash] is the hash itself *)
Definition make_hash {T} (hasher : T → N) (t : T) : N :=
  if hasher t =? EMPTY_BUCKET then 9223372036854775808 else hasher t.

Section Table.
Context {K V : Type} (size_k size_v : N).
Record RawTable : Type := mkRawTable {
  capacity : N; size : N; hashes : list (option N); keys : list (option K); vals : list (option V) }.

Definition check_size (n size_of : N) : outcome unit := if n * size_of <=? UINT_MAX then Ok tt else Fail ExplicitFail.
Definition new_uninitialized (n : N) : outcome RawTable :=
  _ ← check_size n 8; _ ← check_size n size_k; _ ← check_size n size_v;
  Ok (mkRawTable n 0 (replicate (N.to_nat n) None) (replicate (N.to_nat n) None) (replicate (N.to_nat n) None)).
Definition new (n : N) : outcome RawTable :=
  ret ← new_uninitialized n;
  h ← Slice.for_range (N.to_nat n) 0 (λ i h, store h (N.of_nat i) (Some EMPTY_BUCKET)) (hashes ret);
  Ok (mkRawTable (capacity ret) (size ret) h (keys ret) (vals ret)).

Definition peek (t : RawTable) (index : N) : outcome BucketState :=
  hash ← load (hashes t) index;
  Ok (if hash =? EMPTY_BUCKET then Empty index else Full (mkFullIndex index hash)).
Definition read (t : RawTable) (index : FullIndex) : outcome (K * V) :=
  k ← load (keys t) (fi_idx index); v ← load (vals t) (fi_idx index); Ok (k, v).
(** An assignment to the value that [read_mut] refers to *)
Definition set_val (t : RawTable) (index : FullIndex) (v : V) : outcome RawTable :=
  vs ← store (vals t) (fi_idx index) (Some v); Ok (mkRawTable (capacity t) (size t) (hashes t) (keys t) vs).
(** [replace] of all that [read_all_mut] refers to *)
Definition replace_all (t : RawTable) (index : FullIndex) (hash : N) (k : K) (v : V) : outcome (N * K * V * RawTable) :=
  old_hash ← load (hashes t) (fi_idx index); hs ← store (hashes t) (fi_idx index) (Some hash);
  old_key ← load (keys t) (fi_idx index); ks ← store (keys t) (fi_idx index) (Some k);
  old_val ← load (vals t) (fi_idx index); vs ← store (vals t) (fi_idx index) (Some v);
  Ok (old_hash, old_key, old_val, mkRawTable (capacity t) (size t) hs ks vs).
Definition put (t : RawTable) (index hash : N) (k : K) (v : V) : outcome (FullIndex * RawTable) :=
  hs ← store (hashes t) index (Some hash); ks ← store (keys t) index (Some k); vs ← store (vals t) index (Some v);
  Ok (mkFullIndex index hash, mkRawTable (capacity t) (uadd (size t) 1) hs ks vs).
Definition take (t : RawTable) (index : FullIndex) : outcome (N * K * V * RawTable) :=
  let idx := fi_idx index in
  hs ← store (hashes t) idx (Some EMPTY_BUCKET);
  k ← load (keys t) idx; ks ← store (keys t) idx None;
  v ← load (vals t) idx; vs ← store (vals t) idx None;
  Ok (idx, k, v, mkRawTable (capacity t) (usub (size t) 1) hs ks vs).

(** * Iterators *)
(** The loop of [next]: the next full bucket, and the index behind it *)
Fixpoint scan (fuel : nat) (t : RawTable) (idx : N) : outcome (option FullIndex * N) :=
  match fuel with
  | 0%nat => Fail OutOfFuel
  | S fuel =>
      if idx <? capacity t then
        b ← peek t idx;
        match b with Empty _ => scan fuel t (uadd idx 1) | Full i => Ok (Some i, uadd idx 1) end
      else Ok (None, idx)
  end.
Definition scan_fuel (t : RawTable) (idx : N) : nat := S (N.to_nat (capacity t - idx)).

Record Entries : Type := mkEntries { e_table : RawTable; e_idx : N }.
Definition iter (t : RawTable) : Entries := mkEntries t 0.
Definition Entries_next (it : Entries) : outcome (option (K * V) * Entries) :=
  '(i, idx) ← scan (scan_fuel (e_table it) (e_idx it)) (e_table it) (e_idx it);
  let it := mkEntries (e_table it) idx in
  match i with None => Ok (None, it) | Some i => kv ← read (e_table it) i; Ok (Some kv, it) end.
Definition Entries_size_hint (it : Entries) : N * option N :=
  let n := usub (size (e_table it)) (e_idx it) in (n, Some n).

Record MoveEntries : Type := mkMoveEntries { me_table : RawTable; me_idx : N }.
Definition move_iter (t : RawTable) : MoveEntries := mkMoveEntries t 0.
Definition MoveEntries_next (it : MoveEntries) : outcome (option (N * K * V) * MoveEntries) :=
  '(i, idx) ← scan (scan_fuel (me_table it) (me_idx it)) (me_table it) (me_idx it);
  match i with
  | None => Ok (None, mkMoveEntries (me_table it) idx)
  | Some i =>
      let h := fi_hash i in
      '(_, k, v, t) ← take (me_table it) i;
      Ok (Some (h, k, v), mkMoveEntries t idx)
  end.
Definition MoveEntries_size_hint (it : MoveEntries) : N * option N := (size (me_table it), Some (size (me_table it))).

(** * Copies, and the end of a table *)
Definition clone_step (t : RawTable) (i : nat) (t' : RawTable) : outcome RawTable :=
  b ← peek t (N.of_nat i);
  match b with
  | Empty _ => hs ← store (hashes t') (N.of_nat i) (Some EMPTY_BUCKET); Ok (mkRawTable (capacity t') (size t') hs (keys t') (vals t'))
  | Full idx =>
      '(k, v) ← read t idx;
      hs ← store (hashes t') (N.of_nat i) (Some (fi_hash idx));
      ks ← store (keys t') (N.of_nat i) (Some k);
      vs ← store (vals t') (N.of_nat i) (Some v);
      Ok (mkRawTable (capacity t') (size t') hs ks vs)
  end.
Definition clone (t : RawTable) : outcome RawTable :=
  new_ht ← new_uninitialized (capacity t);
  new_ht ← Slice.for_range (N.to_nat (capacity t)) 0 (clone_step t) new_ht;
  Ok (mkRawTable (capacity new_ht) (size t) (hashes new_ht) (keys new_ht) (vals new_ht)).
(** [take] of a full bucket *)
Definition take_if_full (t : RawTable) (i : N) : outcome RawTable :=
  b ← peek t i;
  match b with Empty _ => Ok t | Full idx => '(_, _, _, t) ← take t idx; Ok t end.
Fixpoint drop_loop (n : nat) (t : RawTable) : outcome RawTable :=
  match n with
  | 0%nat => Ok t
  | S i => if size t =? 0 then Ok t else t ← take_if_full t (N.of_nat i); drop_loop i t
  end.
Definition drop (t : RawTable) : outcome unit :=
  t ← drop_loop (N.to_nat (capacity t)) t;
  assert_ (size t =? 0).
End Table.
Arguments RawTable : clear implicits.
Arguments Entries : clear implicits.
Arguments MoveEntries : clear implicits.
End Table.

Module HashMap.
Import Table.
Local Open Scope N_scope.

(** [(numerator, denominator)] *)
Definition Fraction : Type := N * N.
Definition fraction_mul (lhs : N) (f : Fraction) : N := umul lhs f.1 / f.2.
Definition INITIAL_CAPACITY : N := 32.
Definition INITIAL_LOAD_FACTOR : Fraction := (9, 10).
Definition grow_at (n : N) (load_factor : Fraction) : N := fraction_mul n load_factor.

Section HashMap.
Context {K V : Type} (size_k size_v : N) (eqb : K → K → bool) (hasher : K → N).

Record HashMap : Type := mkHashMap {
  grow_at_ : N; minimum_capacity : N; table : RawTable K V; load_factor : Fraction }.
Definition with_table (m : HashMap) (t : RawTable K V) : HashMap := mkHashMap (grow_at_ m) (minimum_capacity m) t (load_factor m).
Definition len (m : HashMap) : N := size (table m).

Definition shrink_at (m : HashMap) : N := N.shiftr (capacity (table m)) 2.
Definition probe (t : RawTable K V) (hash idx : N) : N := N.land (uadd hash idx) (usub (capacity t) 1).
Definition probe_next (t : RawTable K V) (probe : N) : N := N.land (uadd probe 1) (usub (capacity t) 1).
Definition bucket_distance (t : RawTable K V) (index_of_elem : FullIndex) : N :=
  let first_probe_index := probe t (fi_hash index_of_elem) 0 in
  let raw_index := fi_idx index_of_elem in
  if first_probe_index <=? raw_index then usub raw_index first_probe_index
  else uadd raw_index (usub (capacity t) first_probe_index).

(** * Searching *)
(** [for num_probes in range(0u, self.table.size())], [n] of them left *)
Fixpoint search_loop (n : nat) (num_probes : N) (t : RawTable K V) (hash : N) (is_match : K → bool) : outcome (option FullIndex) :=
  match n with
  | 0%nat => Ok None
  | S n =>
      b ← peek t (probe t hash num_probes);
      match b with
      | Empty _ => Ok None
      | Full idx =>
          if bucket_distance t idx <? num_probes then Ok None
          else if negb (hash =? fi_hash idx) then search_loop n (num_probes + 1) t hash is_match
          else '(k, _) ← read t idx;
               if negb (is_match k) then search_loop n (num_probes + 1) t hash is_match else Ok (Some idx)
      end
  end.
Definition search_hashed_generic (m : HashMap) (hash : N) (is_match : K → bool) : outcome (option FullIndex) :=
  search_loop (N.to_nat (size (table m))) 0 (table m) hash is_match.
Definition search_hashed (m : HashMap) (hash : N) (k : K) : outcome (option FullIndex) := search_hashed_generic m hash (eqb k).
Definition search (m : HashMap) (k : K) : outcome (option FullIndex) := search_hashed m (make_hash hasher k) k.
Definition search_equiv {Q} (hash_q : Q → N) (equiv : Q → K → bool) (m : HashMap) (q : Q) : outcome (option FullIndex) :=
  search_hashed_generic m (make_hash hash_q q) (equiv q).

(** * Inserting *)
(** [for dib in range(dib_param + 1, self.table.size())] of [robin_hood] *)
Inductive Found : Type := Hole (idx : N) | Steal (idx : FullIndex) (probe_dib : N) | NoRoom.
Fixpoint steal_loop (n : nat) (dib probe : N) (t : RawTable K V) : outcome Found :=
  match n with
  | 0%nat => Ok NoRoom
  | S n =>
      b ← peek t probe;
      match b with
      | Empty idx => Ok (Hole idx)
      | Full full_index =>
          let probe_dib := bucket_distance t full_index in
          if probe_dib <? dib then Ok (Steal full_index probe_dib) else steal_loop n (dib + 1) (probe_next t probe) t
      end
  end.
Fixpoint robin_hood (fuel : nat) (t : RawTable K V) (index : FullIndex) (dib_param hash : N) (k : K) (v : V) : outcome (RawTable K V) :=
  match fuel with
  | 0%nat => Fail OutOfFuel
  | S fuel =>
      '(old_hash, old_key, old_val, t) ← replace_all t index hash k v;
      let probe := probe_next t (fi_idx index) in
      let dib := uadd dib_param 1 in
      f ← steal_loop (N.to_nat (size t - dib)) dib probe t;
      match f with
      | Hole idx => '(_, t) ← put t idx old_hash old_key old_val; Ok t
      | Steal full_index probe_dib => robin_hood fuel t full_index probe_dib old_hash old_key old_val
      | NoRoom => Fail ExplicitFail
      end
  end.
Definition robin_hood_fuel (t : RawTable K V) : nat := S (N.to_nat (capacity t)).

(** The reference that is returned is the index of its bucket. *)
Fixpoint insert_loop (n : nat) (dib : N) (t : RawTable K V) (hash : N) (k : K) (v : V) : outcome (FullIndex * RawTable K V) :=
  match n with
  | 0%nat => Fail ExplicitFail
  | S n =>
      let probe := probe t hash dib in
      b ← peek t probe;
      match b with
      | Empty idx => put t idx hash k v
      | Full idx =>
          same ← (if fi_hash idx =? hash then '(bucket_k, _) ← read t idx; Ok (eqb k bucket_k) else Ok false);
          if (same : bool) then Ok (idx, t)
          else
            let probe_dib := bucket_distance t idx in
            if probe_dib <? dib then
              t ← robin_hood (robin_hood_fuel t) t idx probe_dib hash k v;
              b ← peek t probe;
              match b with Empty _ => Fail ExplicitFail | Full idx => Ok (idx, t) end
            else insert_loop n (dib + 1) t hash k v
      end
  end.
Definition manual_insert_hashed_nocheck (m : HashMap) (hash : N) (k : K) (v : V) : outcome (FullIndex * HashMap) :=
  '(i, t) ← insert_loop (S (N.to_nat (size (table m)))) 0 (table m) hash k v; Ok (i, with_table m t).

(** * Resizing *)
(** [for (h, k, v) in old_table.move_iter()] *)
Fixpoint resize_loop (fuel : nat) (it : MoveEntries K V) (m : HashMap) : outcome (MoveEntries K V * HashMap) :=
  match fuel with
  | 0%nat => Fail OutOfFuel
  | S fuel =>
      '(x, it) ← MoveEntries_next it;
      match x with
      | None => Ok (it, m)
      | Some (h, k, v) => '(_, m) ← manual_insert_hashed_nocheck m h k v; resize_loop fuel it m
      end
  end.
Definition resize (m : HashMap) (new_capacity : N) : outcome HashMap :=
  _ ← assert_ (size (table m) <=? new_capacity);
  _ ← assert_ (N.land (usub new_capacity 1) new_capacity =? 0);
  let grow := grow_at new_capacity (load_factor m) in
  let old_table := table m in
  t ← new size_k size_v new_capacity;
  let old_size := size old_table in
  '(it, m) ← resize_loop (S (N.to_nat (capacity old_table))) (move_iter old_table) (mkHashMap grow (minimum_capacity m) t (load_factor m));
  _ ← drop (me_table it);
  _ ← assert_ (size (table m) =? old_size);
  Ok m.
Definition make_some_room (m : HashMap) (new_size : N) : outcome HashMap :=
  let should_shrink := new_size <=? shrink_at m in
  let should_grow := grow_at_ m <=? new_size in
  if should_grow then resize m (umul (capacity (table m)) 2)
  else if should_shrink then
    let new_capacity := N.shiftr (capacity (table m)) 1 in
    if minimum_capacity m <=? new_capacity then resize m new_capacity else Ok m
  else Ok m.

Definition with_capacity_and_hasher (n : N) : outcome HashMap :=
  let cap := RingBuf.next_power_of_two (N.max INITIAL_CAPACITY n) in
  t ← new size_k size_v cap;
  Ok (mkHashMap (grow_at cap INITIAL_LOAD_FACTOR) cap t INITIAL_LOAD_FACTOR).
Definition with_hasher : outcome HashMap := with_capacity_and_hasher INITIAL_CAPACITY.
Definition reserve (m : HashMap) (new_minimum_capacity : N) : outcome HashMap :=
  let cap := RingBuf.next_power_of_two (N.max INITIAL_CAPACITY new_minimum_capacity) in
  let m := mkHashMap (grow_at_ m) cap (table m) (load_factor m) in
  if capacity (table m) <? cap then resize m cap else Ok m.

(** * Removing *)
(** The loop that finds [ending_probe] *)
Fixpoint ending_loop (n : nat) (probe : N) (t : RawTable K V) : outcome N :=
  match n with
  | 0%nat => Ok probe
  | S n =>
      b ← peek t probe;
      match b with
      | Empty _ => Ok probe
      | Full idx => if negb (bucket_distance t idx =? 0) then ending_loop n (probe_next t probe) t else Ok probe
      end
  end.
(** [while next_probe != ending_probe]; gives the last [probe] *)
Fixpoint shift_loop (fuel : nat) (probe next_probe ending_probe : N) (t : RawTable K V) : outcome (N * RawTable K V) :=
  match fuel with
  | 0%nat => Fail OutOfFuel
  | S fuel =>
      if next_probe =? ending_probe then Ok (probe, t)
      else
        b ← peek t next_probe;
        t ← match b with
            | Empty _ => take_if_full t probe
            | Full next_idx =>
                let next_hash := fi_hash next_idx in
                '(_, next_key, next_val, t) ← take t next_idx;
                b ← peek t probe;
                match b with
                | Empty idx => '(_, t) ← put t idx next_hash next_key next_val; Ok t
                | Full idx => '(emptyidx, _, _, t) ← take t idx; '(_, t) ← put t emptyidx next_hash next_key next_val; Ok t
                end
            end;
        shift_loop fuel next_probe (probe_next t next_probe) ending_probe t
  end.
Definition pop_internal (m : HashMap) (starting_index : FullIndex) : outcome (option V * HashMap) :=
  let starting_probe := fi_idx starting_index in
  ending_probe ← ending_loop (N.to_nat (size (table m))) (probe_next (table m) starting_probe) (table m);
  '(_, _, retval, t) ← take (table m) starting_index;
  '(probe, t) ← shift_loop (S (N.to_nat (capacity t))) starting_probe (probe_next t starting_probe) ending_probe t;
  t ← take_if_full t probe;
  Ok (Some retval, with_table m t).
Definition pop_with (m : HashMap) (find : HashMap → outcome (option FullIndex)) : outcome (option V * HashMap) :=
  if size (table m) =? 0 then Ok (None, m)
  else
    m ← make_some_room m (usub (size (table m)) 1);
    i ← find m;
    match i with Some idx => pop_internal m idx | None => Ok (None, m) end.
Definition pop (m : HashMap) (k : K) : outcome (option V * HashMap) := pop_with m (λ m, search m k).
Definition pop_equiv {Q} (hash_q : Q → N) (equiv : Q → K → bool) (m : HashMap) (q : Q) : outcome (option V * HashMap) :=
  pop_with m (λ m, search_equiv hash_q equiv m q).
Definition clear (m : HashMap) : outcome HashMap :=
  t ← Slice.for_range (N.to_nat (capacity (table m))) 0 (λ i t, take_if_full t (N.of_nat i)) (table m);
  Ok (mkHashMap (grow_at_ m) (size (table m)) t (load_factor m)).

(** * The map *)
Definition value_at (m : HashMap) (i : option FullIndex) : outcome (option V) :=
  match i with None => Ok None | Some idx => '(_, v) ← read (table m) idx; Ok (Some v) end.
Definition find (m : HashMap) (k : K) : outcome (option V) := i ← search m k; value_at m i.
Definition find_equiv {Q} (hash_q : Q → N) (equiv : Q → K → bool) (m : HashMap) (q : Q) : outcome (option V) :=
  i ← search_equiv hash_q equiv m q; value_at m i.
Definition contains_key (m : HashMap) (k : K) : outcome bool := i ← search m k; Ok (is_some i).
Definition get (m : HashMap) (k : K) : outcome V :=
  v ← find m k; match v with Some v => Ok v | None => Fail ExplicitFail end.
(** An assignment to the value that [find_mut] gives, if any *)
Definition find_mut (m : HashMap) (k : K) (f : V → V) : outcome (option V * HashMap) :=
  i ← search m k;
  match i with
  | None => Ok (None, m)
  | Some idx => '(_, v) ← read (table m) idx; t ← set_val (table m) idx (f v); Ok (Some (f v), with_table m t)
  end.

Fixpoint swap_loop (n : nat) (dib : N) (t : RawTable K V) (hash : N) (k : K) (v : V) : outcome (option V * RawTable K V) :=
  match n with
  | 0%nat => Fail ExplicitFail
  | S n =>
      b ← peek t (probe t hash dib);
      match b with
      | Empty idx => '(_, t) ← put t idx hash k v; Ok (None, t)
      | Full idx =>
          same ← (if fi_hash idx =? hash then
                    '(bucket_k, bucket_v) ← read t idx; Ok (if eqb k bucket_k then Some bucket_v else None)
                  else Ok None);
          match same with
          | Some bucket_v => t ← set_val t idx v; Ok (Some bucket_v, t)
          | None =>
              let probe_dib := bucket_distance t idx in
              if probe_dib <? dib then t ← robin_hood (robin_hood_fuel t) t idx probe_dib hash k v; Ok (None, t)
              else swap_loop n (dib + 1) t hash k v
          end
      end
  end.
Definition swap (m : HashMap) (k : K) (v : V) : outcome (option V * HashMap) :=
  let hash := make_hash hasher k in
  m ← make_some_room m (uadd (size (table m)) 1);
  '(r, t) ← swap_loop (S (N.to_nat (size (table m)))) 0 (table m) hash k v;
  Ok (r, with_table m t).
(** [MutableMap::insert], [MutableMap::remove] *)
Definition insert (m : HashMap) (k : K) (v : V) : outcome (bool * HashMap) := '(r, m) ← swap m k v; Ok (negb (is_some r), m).
Definition remove (m : HashMap) (k : K) : outcome (bool * HashMap) := '(r, m) ← pop m k; Ok (is_some r, m).

Definition manual_insert_hashed (m : HashMap) (hash : N) (k : K) (v : V) : outcome (FullIndex * HashMap) :=
  m ← make_some_room m (uadd (size (table m)) 1); manual_insert_hashed_nocheck m hash k v.
Definition manual_insert (m : HashMap) (k : K) (v : V) : outcome (FullIndex * HashMap) :=
  manual_insert_hashed m (make_hash hasher k) k v.
(** The value that the returned reference refers to *)
Definition deref (r : outcome (FullIndex * HashMap)) : outcome (V * HashMap) :=
  '(i, m) ← r; '(_, v) ← read (table m) i; Ok (v, m).
Definition find_or_insert_with (m : HashMap) (k : K) (f : K → V) : outcome (V * HashMap) :=
  i ← search m k;
  match i with Some idx => deref (Ok (idx, m)) | None => deref (manual_insert m k (f k)) end.
Definition find_or_insert (m : HashMap) (k : K) (v : V) : outcome (V * HashMap) :=
  i ← search m k;
  match i with Some idx => deref (Ok (idx, m)) | None => deref (manual_insert m k v) end.
Definition insert_or_update_with (m : HashMap) (k : K) (v : V) (f : K → V → V) : outcome (V * HashMap) :=
  i ← search m k;
  match i with
  | None => deref (manual_insert m k v)
  | Some idx =>
      '(_, old) ← read (table m) idx; t ← set_val (table m) idx (f k old);
      deref (Ok (idx, with_table m t))
  end.

(** * Iterating *)
(** [iter().all(f)]; the closure may fail *)
Fixpoint all_loop (fuel : nat) (it : Entries K V) (f : K * V → outcome bool) : outcome bool :=
  match fuel with
  | 0%nat => Fail OutOfFuel
  | S fuel =>
      '(x, it) ← Entries_next it;
      match x with None => Ok true | Some kv => b ← f kv; if (b : bool) then all_loop fuel it f else Ok false end
  end.
Definition all_entries (m : HashMap) (f : K * V → outcome bool) : outcome bool :=
  all_loop (S (N.to_nat (capacity (table m)))) (iter (table m)) f.
(** [iter().collect()] *)
Fixpoint collect_loop (fuel : nat) (it : Entries K V) : outcome (list (K * V)) :=
  match fuel with
  | 0%nat => Fail OutOfFuel
  | S fuel =>
      '(x, it) ← Entries_next it;
      match x with None => Ok [] | Some kv => l ← collect_loop fuel it; Ok (kv :: l) end
  end.
Definition entries (m : HashMap) : outcome (list (K * V)) := collect_loop (S (N.to_nat (capacity (table m)))) (iter (table m)).
Definition eq (veq : V → V → bool) (m other : HashMap) : outcome bool :=
  if negb (len m =? len other) then Ok false
  else all_entries m (λ kv, r ← find other kv.1; Ok (match r with None => false | Some v => veq kv.2 v end)).
Fixpoint extend (m : HashMap) (l : list (K * V)) : outcome HashMap :=
  match l with [] => Ok m | (k, v) :: l => '(_, m) ← insert m k v; extend m l end.
Definition from_iter (lower : N) (l : list (K * V)) : outcome HashMap := m ← with_capacity_and_hasher lower; extend m l.
End HashMap.
Arguments HashMap : clear implicits.
End HashMap.

(** A hash set is a map to [()]. *)
Module HashSet.
Import Table.
Section HashSet.
Context {T : Type} (size_t : N) (eqb : T → T → bool) (hasher : T → N).
Definition HashSet : Type := HashMap.HashMap T unit.
Definition with_capacity_and_hasher (n : N) : outcome HashSet := HashMap.with_capacity_and_hasher size_t 0 n.
Definition len (s : HashSet) : N := HashMap.len s.
Definition clear (s : HashSet) : outcome HashSet := HashMap.clear s.
Definition reserve (s : HashSet) (n : N) : outcome HashSet := HashMap.reserve size_t 0 eqb s n.
Definition contains (s : HashSet) (value : T) : outcome bool := i ← HashMap.search eqb hasher s value; Ok (is_some i).
Definition insert (s : HashSet) (value : T) : outcome (bool * HashSet) := HashMap.insert size_t 0 eqb hasher s value tt.
Definition remove (s : HashSet) (value : T) : outcome (bool * HashSet) := HashMap.remove size_t 0 eqb hasher s value.
Definition eq (s other : HashSet) : outcome bool :=
  if negb (len s =? len other)%N then Ok false else HashMap.all_entries s (λ x, HashMap.contains_key eqb hasher other x.1).
Definition is_disjoint (s other : HashSet) : outcome bool := HashMap.all_entries s (λ x, b ← contains other x.1; Ok (negb b)).
Definition is_subset (s other : HashSet) : outcome bool := HashMap.all_entries s (λ x, contains other x.1).
Definition is_superset (s other : HashSet) : outcome bool := is_subset other s.
(** The iterators, run to their end: the elements that the closure of [filter_map] keeps *)
Fixpoint filter_loop (fuel : nat) (it : Entries T unit) (keep : T → outcome bool) : outcome (list T) :=
  match fuel with
  | 0 => Fail OutOfFuel
  | S fuel =>
      '(x, it) ← Entries_next it;
      match x with
      | None => Ok []
      | Some (x, _) => b ← keep x; l ← filter_loop fuel it keep; Ok (if (b : bool) then x :: l else l)
      end
  end.
Definition filter_items (s : HashSet) (keep : T → outcome bool) : outcome (list T) :=
  filter_loop (S (N.to_nat (capacity (HashMap.table s)))) (iter (HashMap.table s)) keep.
Definition items (s : HashSet) : outcome (list T) := filter_items s (λ _, Ok true).
Definition difference (s other : HashSet) : outcome (list T) := filter_items s (λ x, b ← contains other x; Ok (negb b)).
Definition intersection (s other : HashSet) : outcome (list T) := filter_items s (contains other).
Definition symmetric_difference (s other : HashSet) : outcome (list T) :=
  a ← difference s other; b ← difference other s; Ok (a ++ b).
Definition union (s other : HashSet) : outcome (list T) := a ← items s; b ← difference other s; Ok (a ++ b).
Fixpoint extend (s : HashSet) (l : list T) : outcome HashSet :=
  match l with [] => Ok s | x :: l => '(_, s) ← insert s x; extend s l end.
Definition from_iter (lower : N) (l : list T) : outcome HashSet := s ← with_capacity_and_hasher lower; extend s l.
End HashSet.
Arguments HashSet : clear implicits.
End HashSet.
