(* ===== verification/HashMapSound.v ===== *)
(** Correctness of the hash map: the buckets keep the order of Robin Hood
    probing, so that searching may stop early, and the map is a finite map
    whatever the hash function and through every resizing. *)
From stdpp Require Import prelude list gmap.
From Stdlib Require Import NArith Lia.
From S2P Require Import Prelude StrConv Sort Circle RingBuf HashMap.
Import Table HashMap.

(** * The table *)
(** A bucket is nothing, or a hash with a key and a value. *)
Definition hash_of {K V} (c : option (N * K * V)) : N := match c with Some (h, _, _) => h | None => EMPTY_BUCKET end.
Definition key_of {K V} (c : option (N * K * V)) : option K := match c with Some (_, k, _) => Some k | None => None end.
Definition val_of {K V} (c : option (N * K * V)) : option V := match c with Some (_, _, v) => Some v | None => None end.
(** The table that holds a list of buckets. *)
Definition raw {K V} (b : list (option (N * K * V))) : RawTable K V :=
  mkRawTable (N.of_nat (length b)) (N.of_nat (filled b)) (Some ∘ hash_of <$> b) (key_of <$> b) (val_of <$> b).
(** Hashes of full buckets are never zero; there are few buckets. *)
Definition good {K V} (b : list (option (N * K * V))) : Prop :=
  (∀ p h k v, b !! p = Some (Some (h, k, v)) → (0 < h < 2 ^ 64)%N) ∧ (N.of_nat (length b) < 2 ^ 59)%N.

Lemma load_at {A} (b : list (option A)) p x : b !! p = Some (Some x) → load b (N.of_nat p) = Ok x.
Proof. intros H. unfold load, Slice.read, Slice.buffer in *. by rewrite Nat2N.id, H. Qed.
Lemma store_at {A} (b : list (option A)) p c : p < length b → store b (N.of_nat p) c = Ok (<[p := c]> b).
Proof.
  intros H. unfold store, Slice.write, Slice.buffer in *. rewrite Nat2N.id. cbn [length]. destruct (Nat.leb_spec (p + 1) (length b)); [|lia].
  rewrite insert_take_drop by done. by rewrite Nat.add_1_r.
Qed.

Section Table.
Context {K V : Type} (size_k size_v : N).
Implicit Types b : list (option (N * K * V)).

Lemma filled_set b p c c' : b !! p = Some c → filled (<[p := c']> b) + length (option_list c) = filled b + length (option_list c').
Proof.
  intros Hp. pose proof (lookup_lt_Some _ _ _ Hp) as Hl. pose proof (elements_at b p c Hp) as H1. pose proof (elements_set b p c' Hl) as H2.
  apply Permutation_length in H1, H2. rewrite length_app in H1, H2. unfold filled. lia.
Qed.
Lemma raw_set b p c : mkRawTable (N.of_nat (length b)) (N.of_nat (filled (<[p := c]> b))) (<[p := Some (hash_of c)]> (hashes (raw b)))
  (<[p := key_of c]> (keys (raw b))) (<[p := val_of c]> (vals (raw b))) = raw (<[p := c]> b).
Proof. unfold raw. cbn [hashes keys vals]. by rewrite length_insert, !list_fmap_insert. Qed.
Lemma cells_length b : length (hashes (raw b)) = length b ∧ length (keys (raw b)) = length b ∧ length (vals (raw b)) = length b.
Proof. cbn [raw hashes keys vals]. by rewrite !length_fmap. Qed.
Lemma load_hash b p c : b !! p = Some c → load (hashes (raw b)) (N.of_nat p) = Ok (hash_of c).
Proof. intros H. apply load_at. cbn [raw hashes]. by rewrite list_lookup_fmap, H. Qed.
Lemma load_key b p h k v : b !! p = Some (Some (h, k, v)) → load (keys (raw b)) (N.of_nat p) = Ok k.
Proof. intros H. apply load_at. cbn [raw keys]. by rewrite list_lookup_fmap, H. Qed.
Lemma load_val b p h k v : b !! p = Some (Some (h, k, v)) → load (vals (raw b)) (N.of_nat p) = Ok v.
Proof. intros H. apply load_at. cbn [raw vals]. by rewrite list_lookup_fmap, H. Qed.

Lemma peek_spec b p c : good b → b !! p = Some c →
  peek (raw b) (N.of_nat p) = Ok (match c with None => Empty (N.of_nat p) | Some (h, _, _) => Full (mkFullIndex (N.of_nat p) h) end).
Proof.
  intros [Hg _] Hp. unfold peek. rewrite (load_hash b p c Hp). cbn [mbind outcome_bind]. destruct c as [[[h k] v]|]; [|done]. cbn [hash_of].
  unfold EMPTY_BUCKET. destruct (N.eqb_spec h 0) as [->|]; [|done]. destruct (Hg p _ _ _ Hp). lia.
Qed.
Lemma read_spec b p h h' k v : b !! p = Some (Some (h, k, v)) → Table.read (raw b) (mkFullIndex (N.of_nat p) h') = Ok (k, v).
Proof. intros Hp. unfold Table.read. cbn [fi_idx]. by rewrite (load_key b p h k v Hp), (load_val b p h k v Hp). Qed.
Ltac stored := rewrite ?store_at by (cbn [raw hashes keys vals]; rewrite length_fmap; by eapply lookup_lt_Some); cbn [mbind outcome_bind].
Lemma set_val_spec b p h h' k v v' : b !! p = Some (Some (h, k, v)) → set_val (raw b) (mkFullIndex (N.of_nat p) h') v' = Ok (raw (<[p := Some (h, k, v')]> b)).
Proof.
  intros Hp. unfold set_val. cbn [fi_idx]. stored. rewrite <- raw_set. cbn [raw capacity size hashes keys vals].
  pose proof (filled_set b p _ (Some (h, k, v')) Hp). cbn in *. replace (filled (<[p:=Some (h, k, v')]> b)) with (filled b) by lia.
  rewrite (list_insert_id (Some ∘ hash_of <$> b)), (list_insert_id (key_of <$> b)) by (by rewrite list_lookup_fmap, Hp). done.
Qed.
Lemma replace_all_spec b p h h' k v h1 k1 v1 : b !! p = Some (Some (h, k, v)) →
  replace_all (raw b) (mkFullIndex (N.of_nat p) h') h1 k1 v1 = Ok (h, k, v, raw (<[p := Some (h1, k1, v1)]> b)).
Proof.
  intros Hp. unfold replace_all. cbn [fi_idx]. rewrite (load_hash b p _ Hp), (load_key b p h k v Hp), (load_val b p h k v Hp). stored. rewrite <- raw_set.
  pose proof (filled_set b p _ (Some (h1, k1, v1)) Hp). cbn in *. by replace (filled (<[p:=Some (h1, k1, v1)]> b)) with (filled b) by lia.
Qed.
Lemma put_spec b p h k v : good b → b !! p = Some None → put (raw b) (N.of_nat p) h k v = Ok (mkFullIndex (N.of_nat p) h, raw (<[p := Some (h, k, v)]> b)).
Proof.
  intros [_ Hs] Hp. unfold put. stored. rewrite <- raw_set. pose proof (filled_set b p _ (Some (h, k, v)) Hp). pose proof (filled_le b). cbn in *.
  change (2 ^ 59)%N with 576460752303423488%N in Hs. rewrite uadd_small by (unfold UINT_MAX; lia). do 4 f_equal. lia.
Qed.
Lemma take_spec b p h h' k v : good b → b !! p = Some (Some (h, k, v)) → Table.take (raw b) (mkFullIndex (N.of_nat p) h') = Ok (N.of_nat p, k, v, raw (<[p := None]> b)).
Proof.
  intros [_ Hs] Hp. unfold Table.take. cbn [fi_idx]. rewrite (load_key b p h k v Hp), (load_val b p h k v Hp). stored. rewrite <- raw_set.
  pose proof (filled_set b p _ None Hp). pose proof (filled_le b). cbn in *.
  change (2 ^ 59)%N with 576460752303423488%N in Hs. rewrite usub_small by (unfold UINT_MAX; lia). do 4 f_equal. lia.
Qed.
Lemma take_if_full_spec b p c : good b → b !! p = Some c → take_if_full (raw b) (N.of_nat p) = Ok (raw (<[p := None]> b)).
Proof.
  intros Hg Hp. unfold take_if_full. rewrite (peek_spec b p c Hg Hp). cbn [mbind outcome_bind]. destruct c as [[[h k] v]|].
  - by rewrite (take_spec b p h h k v Hg Hp).
  - by rewrite list_insert_id.
Qed.
Lemma good_set b p c : good b → (∀ h k v, c = Some (h, k, v) → (0 < h < 2 ^ 64)%N) → good (<[p := c]> b).
Proof.
  intros [Hg Hs] Hc. split; [|by rewrite length_insert]. intros q h k v Hq. apply list_lookup_insert_Some in Hq as [(_ & -> & _)|(_ & Hq)]; [by eapply Hc|by eapply Hg].
Qed.
Lemma good_none b p : good b → good (<[p := None]> b).
Proof. intros Hg. by apply good_set. Qed.
End Table.

(** * Probing *)
(** The bucket a hash belongs to. *)
Definition home (L : nat) (h : N) : nat := N.to_nat (h mod N.of_nat L).
Lemma home_lt L h : 0 < L → home L h < L.
Proof. intros. unfold home. pose proof (N.mod_lt h (N.of_nat L)). lia. Qed.
(** Its number of buckets is a power of two. *)
Definition pow2 (L : nat) : Prop := ∃ k, N.of_nat L = (2 ^ k)%N.
Lemma pow2_pos L : pow2 L → 0 < L.
Proof. intros [k Hk]. pose proof (N.pow_nonzero 2 k). lia. Qed.
Lemma mask_spec L x : pow2 L → (N.of_nat L < 2 ^ 59)%N → N.land (x mod 2 ^ 64) (usub (N.of_nat L) 1) = (x mod N.of_nat L)%N.
Proof.
  intros Hp Hs. pose proof (pow2_pos L Hp). destruct Hp as [k Hk]. change (2 ^ 59)%N with 576460752303423488%N in Hs. rewrite usub_small by (unfold UINT_MAX; lia). rewrite Hk, land_mask.
  assert (k < 64)%N as Hk64. { destruct (N.lt_ge_cases k 64); [done|]. pose proof (N.pow_le_mono_r 2 64 k). change (2 ^ 64)%N with 18446744073709551616%N in *. lia. }
  replace 64%N with (64 - k + k)%N by lia. rewrite N.pow_add_r, N.mul_comm, N.Div0.mod_mul_r, N.mul_comm, N.Div0.add_mod, N.Div0.mod_mul, N.add_0_r, !N.Div0.mod_mod. done.
Qed.

Section Probing.
Context {K V : Type}.
Implicit Types b : list (option (N * K * V)).

Lemma probe_spec b h i : pow2 (length b) → good b → i ≤ length b → probe (raw b) h (N.of_nat i) = N.of_nat (pos (length b) (home (length b) h) i).
Proof.
  intros Hp [_ Hs] Hi. unfold probe, uadd. cbn [raw capacity]. rewrite mask_spec by done. pose proof (pow2_pos _ Hp) as HL. pose proof (home_lt _ h HL) as Hh. unfold home in *.
  set (L := length b) in *. assert (h mod N.of_nat L < N.of_nat L)%N by (apply N.mod_lt; lia).
  rewrite <- N.Div0.add_mod_idemp_l. unfold pos. destruct (Nat.ltb_spec (N.to_nat (h mod N.of_nat L) + i) L).
  - rewrite N.mod_small; lia.
  - replace (h mod N.of_nat L + N.of_nat i)%N with (h mod N.of_nat L + N.of_nat i - N.of_nat L + 1 * N.of_nat L)%N by lia. rewrite N.Div0.mod_add.
    destruct (decide (N.to_nat (h mod N.of_nat L) + i - L = L)); [lia|]. rewrite N.mod_small; lia.
Qed.
Lemma probe_next_spec b p : pow2 (length b) → good b → p < length b → probe_next (raw b) (N.of_nat p) = N.of_nat (pos (length b) p 1).
Proof.
  intros Hp Hg Hl. pose proof (probe_spec b (N.of_nat p) 1 Hp Hg ltac:(lia)) as H. change (N.of_nat 1) with 1%N in H. unfold probe_next, probe in *. rewrite H. do 2 f_equal.
  unfold home. rewrite N.mod_small by lia. lia.
Qed.
Lemma bucket_distance_spec b p h : pow2 (length b) → good b → p < length b →
  bucket_distance (raw b) (mkFullIndex (N.of_nat p) h) = N.of_nat (dist (length b) (home (length b) h) p).
Proof.
  intros Hp Hg Hl. unfold bucket_distance. cbn [fi_idx fi_hash]. change 0%N with (N.of_nat 0). rewrite (probe_spec b h 0 Hp Hg) by lia. pose proof (home_lt _ h (pow2_pos _ Hp)).
  rewrite pos_0 by done. destruct Hg as [_ Hs]. cbn [raw capacity]. change (2 ^ 59)%N with 576460752303423488%N in Hs. unfold dist.
  destruct (N.leb_spec (N.of_nat (home (length b) h)) (N.of_nat p)), (Nat.leb_spec (home (length b) h) p); try lia.
  - rewrite usub_small by (unfold UINT_MAX; lia). lia.
  - rewrite usub_small, uadd_small by (rewrite ?usub_small; unfold UINT_MAX; lia). lia.
Qed.

(** * The order of the buckets *)
(** How far an element is from where it belongs, counted from one; zero for an empty bucket. *)
Definition rank_of (L p : nat) (c : option (N * K * V)) : nat := match c with Some (h, _, _) => S (dist L (home L h) p) | None => 0 end.
Definition rank b (p : nat) : nat := match b !! p with Some c => rank_of (length b) p c | None => 0 end.
(** From one bucket to the next the distance grows by one at most. *)
Definition robin b : Prop := ∀ p, p < length b → rank b (pos (length b) p 1) ≤ S (rank b p).

Lemma rank_at b p c : b !! p = Some c → rank b p = rank_of (length b) p c.
Proof. intros H. unfold rank. by rewrite H. Qed.
Lemma rank_set b p c : p < length b → rank (<[p := c]> b) p = rank_of (length b) p c.
Proof. intros H. unfold rank. by rewrite list_lookup_insert_eq, length_insert. Qed.
Lemma rank_other b p q c : q ≠ p → rank (<[p := c]> b) q = rank b q.
Proof. intros H. unfold rank. by rewrite list_lookup_insert_ne, length_insert by done. Qed.
Lemma rank_full b p : 0 < rank b p → ∃ x, b !! p = Some (Some x).
Proof. unfold rank. destruct (b !! p) as [[x|]|]; cbn; [by exists x|lia..]. Qed.
Lemma robin_run b p j : robin b → p < length b → j ≤ length b → rank b (pos (length b) p j) ≤ rank b p + j.
Proof.
  intros Hr Hp. induction j as [|j IH]; intros Hj; [rewrite pos_0 by done; lia|]. rewrite <- pos_S by lia. specialize (IH ltac:(lia)). specialize (Hr (pos (length b) p j) (pos_lt (length b) p j Hp ltac:(lia))). lia.
Qed.
(** Every bucket from its home to an element is full, and of no lower rank. *)
Lemma robin_home b p h k v i : robin b → b !! p = Some (Some (h, k, v)) → i ≤ dist (length b) (home (length b) h) p →
  i < rank b (pos (length b) (home (length b) h) i).
Proof.
  intros Hr Hp Hi. pose proof (lookup_lt_Some _ _ _ Hp) as Hl. pose proof (home_lt (length b) h ltac:(lia)) as Hh. pose proof (dist_lt (length b) _ p Hh Hl) as Hd.
  pose proof (robin_run b (pos (length b) (home (length b) h) i) (dist (length b) (home (length b) h) p - i) Hr (pos_lt (length b) _ i Hh ltac:(lia)) ltac:(lia)) as H.
  rewrite pos_pos in H by lia. replace (i + (dist (length b) (home (length b) h) p - i)) with (dist (length b) (home (length b) h) p) in H by lia.
  rewrite pos_dist, (rank_at _ _ _ Hp) in H by done. cbn [rank_of] in H. lia.
Qed.
(** The buckets that were probed, all of them at least as far from home. *)
Definition probed b (s j : nat) : Prop := ∀ i, i < j → i < rank b (pos (length b) s i).
Lemma probed_filled b s j : s < length b → j ≤ length b → probed b s j → j ≤ filled b.
Proof. intros Hs Hj Hp. apply (run_filled b s j Hs Hj). intros i Hi. apply rank_full. specialize (Hp i Hi). lia. Qed.
Lemma probed_hole b s j e : s < length b → b !! e = Some None → probed b s j → j ≤ dist (length b) s e.
Proof.
  intros Hs He Hp. pose proof (lookup_lt_Some _ _ _ He) as Hl. destruct (decide (j ≤ dist (length b) s e)); [done|].
  specialize (Hp (dist (length b) s e) ltac:(lia)). rewrite pos_dist, (rank_at _ _ _ He) in Hp by done. cbn in Hp. lia.
Qed.
Lemma probed_S b s j : probed b s j → j < rank b (pos (length b) s j) → probed b s (S j).
Proof. intros Hp Hj i Hi. destruct (decide (i = j)) as [->|]; [done|]. apply Hp. lia. Qed.

(** * Inserting *)
(** Somewhere an empty bucket, or an element where it belongs. *)
Definition anchored b : Prop := ∃ q, q < length b ∧ rank b q ≤ 1.
(** An element may take a bucket of lower rank. *)
Lemma robin_put b h k v j : let p := pos (length b) (home (length b) h) j in
  robin b → j < length b → probed b (home (length b) h) j → rank b p ≤ j →
  robin (<[p := Some (h, k, v)]> b) ∧ rank (<[p := Some (h, k, v)]> b) p = S j.
Proof.
  intros p Hr Hj Hpr Hrank. pose proof (home_lt (length b) h ltac:(lia)) as Hh. pose proof (pos_lt (length b) (home (length b) h) j Hh ltac:(lia)) as Hp. fold p in Hp.
  assert (rank (<[p := Some (h, k, v)]> b) p = S j) as Hnew by (rewrite rank_set by done; cbn; unfold p; by rewrite dist_pos). split; [|done].
  intros q Hq. rewrite length_insert in *. destruct (decide (pos (length b) q 1 = p)) as [E|E].
  - rewrite E, Hnew. destruct (decide (q = p)) as [->|Hne]; [lia|]. rewrite rank_other by done. destruct j as [|j]; [lia|].
    assert (q = pos (length b) (home (length b) h) j) as ->; [|specialize (Hpr j ltac:(lia)); lia].
    rewrite <- (prev_next (length b) q Hq), E. unfold p. rewrite <- pos_S, prev_next by (try apply pos_lt; lia). done.
  - rewrite (rank_other b p) by done. specialize (Hr q Hq). destruct (decide (q = p)) as [->|Hne]; [lia|]. by rewrite rank_other.
Qed.
Lemma anchored_fill b e c : robin b → b !! e = Some None → anchored (<[e := c]> b).
Proof.
  intros Hr He. pose proof (lookup_lt_Some _ _ _ He) as Hl. pose proof (Hr e Hl) as H. rewrite (rank_at _ _ _ He) in H. cbn in H. unfold anchored. rewrite length_insert.
  pose proof (pos_lt (length b) e 1 Hl ltac:(lia)). destruct (decide (pos (length b) e 1 = e)) as [E|E].
  - exists e. split; [done|]. rewrite rank_set by done. assert (length b = 1) as -> by (revert E; circle). destruct c as [[[h k] v]|]; cbn; [|lia].
    assert (e = 0) as -> by (revert E; circle). pose proof (home_lt 1 h ltac:(lia)). pose proof (dist_lt 1 (home 1 h) 0). lia.
  - exists (pos (length b) e 1). split; [done|]. by rewrite rank_other.
Qed.

(** The bucket [robin_hood] finds for an element that was displaced: a hole, or one of lower rank. *)
Definition fits b (s j : nat) (f : Found) : Prop := let q := pos (length b) s j in
  probed b s j ∧ j < length b ∧
  ((b !! q = Some None ∧ f = Hole (N.of_nat q)) ∨
   ∃ h k v, b !! q = Some (Some (h, k, v)) ∧ rank b q ≤ j ∧ f = Steal (mkFullIndex (N.of_nat q) h) (N.of_nat (dist (length b) (home (length b) h) q))).
Lemma steal_loop_spec b s e n : pow2 (length b) → good b → s < length b → b !! e = Some None → 0 < rank b (prev (length b) s) →
  ∀ j, probed b s j → n = filled b - j → ∃ j' f, steal_loop n (N.of_nat j) (N.of_nat (pos (length b) s j)) (raw b) = Ok f ∧ j ≤ j' ∧ fits b s j' f.
Proof.
  intros Hpow Hg Hs He Hprev. induction n as [|n IH]; intros j Hpr Hn; pose proof (probed_hole b s j e Hs He Hpr) as Hje; pose proof (lookup_lt_Some _ _ _ He) as Hel; pose proof (dist_lt (length b) s e Hs Hel) as Hd.
  - exfalso. assert (S j ≤ filled b); [|lia]. apply (run_filled b (prev (length b) s)); [by apply prev_lt|lia|]. intros [|i] Hi; apply rank_full.
    + by rewrite pos_0 by (by apply prev_lt).
    + change (S i) with (1 + i). rewrite <- pos_pos, next_prev by (try apply prev_lt; lia). specialize (Hpr i ltac:(lia)). lia.
  - pose proof (pos_lt (length b) s j Hs ltac:(lia)) as Hq. destruct (lookup_lt_is_Some_2 b _ Hq) as [c Hc]. cbn [steal_loop]. rewrite (peek_spec b _ c Hg Hc). cbn [mbind outcome_bind].
    destruct c as [[[h k] v]|].
    + rewrite (bucket_distance_spec b _ h Hpow Hg Hq). pose proof (rank_at _ _ _ Hc) as Hrank. cbn [rank_of] in Hrank.
      destruct (N.ltb_spec (N.of_nat (dist (length b) (home (length b) h) (pos (length b) s j))) (N.of_nat j)).
      * exists j. eexists. split; [done|]. split; [done|]. split; [done|]. split; [lia|]. right. exists h, k, v. split_and!; [done|lia|done].
      * rewrite (probe_next_spec b _ Hpow Hg Hq), pos_S by lia. replace (N.of_nat j + 1)%N with (N.of_nat (S j)) by lia.
        destruct (IH (S j)) as (j' & f & Hf & Hjj & Hfit); [apply probed_S; [done|lia]|lia|]. exists j', f. split_and!; [done|lia|done].
    + exists j. eexists. split; [done|]. split; [done|]. split; [done|]. split; [lia|]. by left.
Qed.

(** What inserting an element at [p] leaves, on the way to the hole [e]. *)
Record placed b b' (h : N) (k : K) (v : V) (p e : nat) : Prop := {
  placed_length : length b' = length b;
  placed_good : good b';
  placed_robin : robin b';
  placed_anchored : anchored b';
  placed_elements : elements b' ≡ₚ (h, k, v) :: elements b;
  placed_others : ∀ q, q < length b → dist (length b) p e < dist (length b) q e → b' !! q = b !! q;
  placed_at : b' !! p = Some (Some (h, k, v)) }.

(** The element that was displaced from [p] looks for a bucket after it. *)
Lemma displaced b p h0 k0 v0 h k v e : pow2 (length b) → good b → robin b → b !! e = Some None → b !! p = Some (Some (h0, k0, v0)) → (0 < h < 2 ^ 64)%N →
  let j := dist (length b) (home (length b) h) p in let b1 := <[p := Some (h, k, v)]> b in let d0 := dist (length b) (home (length b) h0) p in
  probed b (home (length b) h) j → rank b p ≤ j →
  robin b1 ∧ good b1 ∧ b1 !! e = Some None ∧ (0 < h0 < 2 ^ 64)%N ∧ p ≠ e ∧
  probed b1 (home (length b) h0) (S d0) ∧ 0 < rank b1 (prev (length b) (home (length b) h0)) ∧
  pos (length b) (home (length b) h0) (S d0) = pos (length b) p 1 ∧ d0 < length b ∧ d0 < dist (length b) (home (length b) h0) e.
Proof.
  intros Hpow Hg Hr He Hp Hh j b1 d0 Hpr Hrank. pose proof (lookup_lt_Some _ _ _ Hp) as Hl. pose proof (lookup_lt_Some _ _ _ He) as Hel. pose proof (pow2_pos _ Hpow) as HL.
  pose proof (home_lt (length b) h HL) as Hs. pose proof (home_lt (length b) h0 HL) as Hs0. pose proof (dist_lt (length b) _ p Hs0 Hl) as Hd0. fold d0 in Hd0. pose proof (dist_lt (length b) _ p Hs Hl) as Hj. fold j in Hj.
  assert (p ≠ e) as Hpe by congruence.
  destruct (robin_put b h k v j Hr Hj Hpr) as [Hr1 Hrank1]; unfold j in *; rewrite pos_dist in * by done; [done|]. fold j b1 in Hr1, Hrank1, Hrank |- *.
  assert (length b1 = length b) as Hlen by (unfold b1; by rewrite length_insert). pose proof (rank_at _ _ _ Hp) as Hrp. cbn [rank_of] in Hrp. fold d0 in Hrp.
  assert (∀ q, rank b q ≤ rank b1 q) as Hmono. { intros q. destruct (decide (q = p)) as [->|]; [lia|]. unfold b1. by rewrite rank_other. }
  assert (probed b1 (home (length b) h0) (S d0)) as Hpr1. { intros i Hi. rewrite Hlen. specialize (Hmono (pos (length b) (home (length b) h0) i)). pose proof (robin_home b p h0 k0 v0 i Hr Hp ltac:(lia)). lia. }
  assert (pos (length b) (home (length b) h0) d0 = p) as Hpd by (by apply pos_dist).
  assert (b1 !! e = Some None) as He1 by (unfold b1; by rewrite list_lookup_insert_ne).
  split_and!; [done|apply good_set; [done|naive_solver]|done|by eapply (proj1 Hg)|by eapply (proj1 Hg)|done|done| | |done|].
  - pose proof (robin_run b1 (prev (length b) (home (length b) h0)) (S d0) Hr1) as H. rewrite Hlen in H. pose proof (prev_lt _ _ Hs0). change (S d0) with (1 + d0) in H.
    rewrite <- pos_pos, next_prev, Hpd, Hrank1 in H by (done || lia). lia.
  - by rewrite <- pos_S, Hpd by lia.
  - pose proof (probed_hole b1 (home (length b) h0) (S d0) e) as H. rewrite Hlen in H. specialize (H Hs0 He1 Hpr1). lia.
Qed.
Lemma elements_exchange b p x0 x : b !! p = Some (Some x0) → x0 :: elements (<[p := Some x]> b) ≡ₚ x :: elements b.
Proof.
  intros Hp. rewrite (elements_at b p (Some x0) Hp), (elements_set b p (Some x)) by (by eapply lookup_lt_Some). cbn. apply perm_swap.
Qed.
Lemma elements_fill b p x : b !! p = Some None → elements (<[p := Some x]> b) ≡ₚ x :: elements b.
Proof. intros Hp. by rewrite (elements_at b p None Hp), (elements_set b p (Some x)) by (by eapply lookup_lt_Some). Qed.

Lemma robin_hood_spec fuel : ∀ b p h0 k0 v0 h k v e,
  pow2 (length b) → good b → robin b → b !! e = Some None → b !! p = Some (Some (h0, k0, v0)) → (0 < h < 2 ^ 64)%N →
  probed b (home (length b) h) (dist (length b) (home (length b) h) p) → rank b p ≤ dist (length b) (home (length b) h) p → dist (length b) p e < fuel →
  ∃ b', robin_hood fuel (raw b) (mkFullIndex (N.of_nat p) h0) (N.of_nat (dist (length b) (home (length b) h0) p)) h k v = Ok (raw b') ∧ placed b b' h k v p e.
Proof.
  induction fuel as [|fuel IH]; intros b p h0 k0 v0 h k v e Hpow Hg Hr He Hp Hh Hpr Hrank Hf; [lia|].
  destruct (displaced b p h0 k0 v0 h k v e Hpow Hg Hr He Hp Hh Hpr Hrank) as (Hr1 & Hg1 & He1 & Hh0 & Hpe & Hpr1 & Hprev & Hnext & Hd0 & Hde).
  pose proof (lookup_lt_Some _ _ _ Hp) as Hl. pose proof (lookup_lt_Some _ _ _ He) as Hel. pose proof (home_lt (length b) h0 ltac:(lia)) as Hs0.
  cbn [robin_hood]. rewrite (replace_all_spec b p h0 h0 k0 v0 h k v Hp). cbn [mbind outcome_bind fi_idx].
  set (d0 := dist (length b) (home (length b) h0) p) in *. set (b1 := <[p := Some (h, k, v)]> b) in *. assert (length b1 = length b) as Hlen by (unfold b1; by rewrite length_insert).
  destruct Hg1 as [Hg1 Hsm]. change (2 ^ 59)%N with 576460752303423488%N in Hsm. rewrite uadd_small by (unfold UINT_MAX; lia). replace (N.of_nat d0 + 1)%N with (N.of_nat (S d0)) by lia.
  rewrite probe_next_spec, Hlen, <- Hnext by (rewrite ?Hlen; done || by split). cbn [raw size]. replace (N.to_nat (N.of_nat (filled b1) - N.of_nat (S d0))) with (filled b1 - S d0) by lia.
  pose proof (steal_loop_spec b1 (home (length b) h0) e (filled b1 - S d0)) as Hsl. unfold fits in Hsl. rewrite Hlen in Hsl.
  destruct (Hsl Hpow (conj Hg1 Hsm) Hs0 He1 Hprev (S d0) Hpr1 eq_refl) as (j' & f & -> & Hjj & Hpr' & Hj' & Hfit). cbn [mbind outcome_bind].
  pose proof (dist_from (length b) _ _ d0 Hs0 Hel ltac:(lia)) as Hpe'. unfold d0 in Hpe'. rewrite pos_dist in Hpe' by done. fold d0 in Hpe'.
  pose proof (probed_hole b1 (home (length b) h0) j' e) as Hje. rewrite Hlen in Hje. specialize (Hje Hs0 He1 Hpr').
  pose proof (dist_from (length b) _ _ j' Hs0 Hel Hje) as Hqe. set (q := pos (length b) (home (length b) h0) j') in *.
  assert (b1 !! p = Some (Some (h, k, v))) as Hp1 by (unfold b1; by apply list_lookup_insert_eq). pose proof (elements_exchange b p _ (h, k, v) Hp) as Hx. fold b1 in Hx.
  destruct Hfit as [[Hq ->]|(h1 & k1 & v1 & Hq & Hrq & ->)].
  - rewrite (put_spec b1 q h0 k0 v0) by (done || by split). cbn [mbind outcome_bind]. eexists. split; [done|].
    destruct (robin_put b1 h0 k0 v0 j' Hr1) as [Hr2 _]; rewrite ?Hlen; try done; [fold q; rewrite (rank_at _ _ _ Hq); cbn; lia|]. fold q in Hr2.
    split; [by rewrite length_insert|apply good_set; [by split|naive_solver]|by rewrite Hlen in Hr2|by apply anchored_fill|by rewrite elements_fill| |].
    + intros q' Hq' Hd. rewrite list_lookup_insert_ne by (intros ->; lia). unfold b1. rewrite list_lookup_insert_ne by (intros ->; lia). done.
    + rewrite list_lookup_insert_ne; [done|]. intros ->. congruence.
  - pose proof (IH b1 q h1 k1 v1 h0 k0 v0 e) as IH1. rewrite Hlen in IH1. destruct IH1 as (b' & -> & Hb'); try done; [by unfold q; rewrite dist_pos|by unfold q; rewrite dist_pos; fold q|lia|].
    exists b'. split; [done|]. destruct Hb' as [Hb1 Hb2 Hb3 Hb4 Hb5 Hb6 Hb7]. rewrite Hlen in *. split; [done..| | |].
    + by rewrite Hb5, Hx.
    + intros q' Hq' Hd. rewrite Hb6 by (done || lia). unfold b1. rewrite list_lookup_insert_ne by (intros ->; lia). done.
    + by rewrite Hb6 by (done || lia).
Qed.

(** What inserting an element leaves. *)
Record inserted b b' (h : N) (k : K) (v : V) : Prop := {
  inserted_length : length b' = length b;
  inserted_good : good b';
  inserted_robin : robin b';
  inserted_anchored : anchored b';
  inserted_elements : elements b' ≡ₚ (h, k, v) :: elements b }.
Lemma place_hole b h k v j : let q := pos (length b) (home (length b) h) j in
  good b → robin b → (0 < h < 2 ^ 64)%N → j < length b → probed b (home (length b) h) j → b !! q = Some None → inserted b (<[q := Some (h, k, v)]> b) h k v.
Proof.
  intros q Hg Hr Hh Hj Hpr Hq. split; [by rewrite length_insert|apply good_set; [done|naive_solver]| |by apply anchored_fill|by apply elements_fill].
  apply robin_put; try done. fold q. rewrite (rank_at _ _ _ Hq). cbn. lia.
Qed.
Lemma place_steal b h k v j h0 k0 v0 e : let q := pos (length b) (home (length b) h) j in
  pow2 (length b) → good b → robin b → b !! e = Some None → (0 < h < 2 ^ 64)%N → j < length b → probed b (home (length b) h) j → b !! q = Some (Some (h0, k0, v0)) → rank b q ≤ j →
  ∃ b', robin_hood (robin_hood_fuel (raw b)) (raw b) (mkFullIndex (N.of_nat q) h0) (N.of_nat (dist (length b) (home (length b) h0) q)) h k v = Ok (raw b') ∧
    inserted b b' h k v ∧ b' !! q = Some (Some (h, k, v)).
Proof.
  intros q Hpow Hg Hr He Hh Hj Hpr Hq Hrank. pose proof (home_lt (length b) h ltac:(lia)) as Hs. pose proof (lookup_lt_Some _ _ _ Hq) as Hql. pose proof (lookup_lt_Some _ _ _ He) as Hel.
  assert (dist (length b) (home (length b) h) q = j) as Hd by (unfold q; by apply dist_pos).
  destruct (robin_hood_spec (robin_hood_fuel (raw b)) b q h0 k0 v0 h k v e) as (b' & Hb' & [? ? ? ? ? _ ?]); rewrite ?Hd; try done.
  { unfold robin_hood_fuel. cbn [raw capacity]. rewrite Nat2N.id. pose proof (dist_lt (length b) q e Hql Hel). lia. }
  by exists b'.
Qed.

(** Searching stops where the element cannot be any more. *)
Lemma absent_at b h k j : let s := home (length b) h in robin b → j < length b →
  (∀ i v, i < j → b !! pos (length b) s i ≠ Some (Some (h, k, v))) → rank b (pos (length b) s j) ≤ j → ∀ p v, b !! p ≠ Some (Some (h, k, v)).
Proof.
  intros s Hr Hj Hno Hrank p v Hp. subst s. pose proof (lookup_lt_Some _ _ _ Hp) as Hl. pose proof (home_lt (length b) h ltac:(lia)) as Hs.
  destruct (decide (dist (length b) (home (length b) h) p < j)) as [Hd|Hd].
  - apply (Hno _ v Hd). by rewrite pos_dist.
  - pose proof (robin_home b p h k v j Hr Hp ltac:(lia)). lia.
Qed.
Lemma distance_filled b p h k v : robin b → b !! p = Some (Some (h, k, v)) → dist (length b) (home (length b) h) p < filled b.
Proof.
  intros Hr Hp. pose proof (lookup_lt_Some _ _ _ Hp) as Hl. pose proof (home_lt (length b) h ltac:(lia)) as Hs. pose proof (dist_lt (length b) _ p Hs Hl).
  apply (probed_filled b (home (length b) h)); [done|lia|]. intros i Hi. eapply robin_home; [done..|lia].
Qed.
Lemma search_loop_spec b h is_match n : pow2 (length b) → good b → robin b → let s := home (length b) h in
  ∀ j, n = filled b - j → (∀ i k v, i < j → b !! pos (length b) s i = Some (Some (h, k, v)) → is_match k = false) →
  ∃ r, search_loop n (N.of_nat j) (raw b) h is_match = Ok r ∧
    match r with
    | Some idx => ∃ p k v, idx = mkFullIndex (N.of_nat p) h ∧ b !! p = Some (Some (h, k, v)) ∧ is_match k = true
    | None => ∀ p k v, b !! p = Some (Some (h, k, v)) → is_match k = false
    end.
Proof.
  intros Hpow Hg Hr s. pose proof (home_lt (length b) h (pow2_pos _ Hpow)) as Hs. fold s in Hs. induction n as [|n IH]; intros j Hn Hno.
  - exists None. split; [done|]. intros p k v Hp. pose proof (distance_filled b p h k v Hr Hp). pose proof (lookup_lt_Some _ _ _ Hp). apply (Hno (dist (length b) s p) k v); unfold s in *; [lia|by rewrite pos_dist].
  - pose proof (filled_le b) as Hfl. assert (j < length b) as Hj by lia. cbn [search_loop]. rewrite (probe_spec b h j Hpow Hg) by lia. fold s. pose proof (pos_lt (length b) s j Hs ltac:(lia)) as Hq.
    destruct (lookup_lt_is_Some_2 b _ Hq) as [c Hc]. rewrite (peek_spec b _ c Hg Hc). cbn [mbind outcome_bind].
    assert (rank b (pos (length b) s j) ≤ j → ∀ p k v, b !! p = Some (Some (h, k, v)) → is_match k = false) as Hstop.
    { intros Hrank p k v Hp. destruct (is_match k) eqn:E; [|done]. exfalso. eapply (absent_at b h k j Hr Hj); [|done|done]. intros i v' Hi Hi'. specialize (Hno i k v' Hi Hi'). congruence. }
    pose proof (rank_at _ _ _ Hc) as Hrank. destruct c as [[[h' k'] v']|]; [|exists None; split; [done|]; apply Hstop; rewrite Hrank; cbn; lia]. cbn [rank_of] in Hrank.
    rewrite (bucket_distance_spec b _ h' Hpow Hg Hq). destruct (N.ltb_spec (N.of_nat (dist (length b) (home (length b) h') (pos (length b) s j))) (N.of_nat j)); [exists None; split; [done|]; apply Hstop; lia|].
    replace (N.of_nat j + 1)%N with (N.of_nat (S j)) by lia. cbn [fi_hash]. destruct (N.eqb_spec h h') as [<-|Hne]; cbn [negb].
    + rewrite (read_spec b _ h h k' v' Hc). cbn [mbind outcome_bind]. destruct (is_match k') eqn:E; cbn [negb]; [eexists; split; [done|]; by exists (pos (length b) s j), k', v'|].
      apply IH; [lia|]. intros i k v Hi Hi'. destruct (decide (i = j)) as [->|]; [congruence|]. eapply Hno; [|done]. lia.
    + apply IH; [lia|]. intros i k v Hi Hi'. destruct (decide (i = j)) as [->|]; [congruence|]. eapply Hno; [|done]. lia.
Qed.
End Probing.

Definition beq {K} `{EqDecision K} (x y : K) : bool := bool_decide (x = y).
Section Loops.
Context {K V : Type} `{EqDecision K}.
Implicit Types b : list (option (N * K * V)).

(** The probing of [swap] and of [manual_insert_hashed_nocheck] after [j] buckets. *)
Definition seeking b (h : N) (k : K) (j : nat) : Prop := let s := home (length b) h in
  probed b s j ∧ ∀ i v, i < j → b !! pos (length b) s i ≠ Some (Some (h, k, v)).
Lemma seeking_step b h k j e h' k' v' : let q := pos (length b) (home (length b) h) j in
  b !! e = Some None → seeking b h k j → j < length b → b !! q = Some (Some (h', k', v')) → (h', k') ≠ (h, k) → j < rank b q → seeking b h k (S j).
Proof.
  intros q He [Hpr Hno] Hj Hq Hne Hrank. split; [by apply probed_S|]. intros i v Hi Hi'. destruct (decide (i = j)) as [->|]; [|by eapply (Hno i); [lia|]].
  fold q in Hi'. congruence.
Qed.
Lemma insert_loop_spec b h k v e n : pow2 (length b) → good b → robin b → b !! e = Some None → (0 < h < 2 ^ 64)%N → (∀ p v, b !! p ≠ Some (Some (h, k, v))) →
  ∀ j, n = S (filled b) - j → seeking b h k j →
  ∃ b' p, insert_loop beq n (N.of_nat j) (raw b) h k v = Ok (mkFullIndex (N.of_nat p) h, raw b') ∧ b' !! p = Some (Some (h, k, v)) ∧ inserted b b' h k v.
Proof.
  intros Hpow Hg Hr He Hh Habs. pose proof (home_lt (length b) h (pow2_pos _ Hpow)) as Hs. pose proof (hole_filled b e He) as Hfl. induction n as [|n IH]; intros j Hn Hseek;
    pose proof Hseek as [Hpr Hno]; pose proof (probed_hole b _ j e Hs He Hpr) as Hje; pose proof (dist_lt (length b) _ e Hs (lookup_lt_Some _ _ _ He)) as Hd; pose proof (probed_filled b _ j Hs ltac:(lia) Hpr) as Hjf; [lia|].
  cbn [insert_loop]. rewrite (probe_spec b h j Hpow Hg) by lia. pose proof (pos_lt (length b) (home (length b) h) j Hs ltac:(lia)) as Hq.
  destruct (lookup_lt_is_Some_2 b _ Hq) as [c Hc]. rewrite (peek_spec b _ c Hg Hc). cbn [mbind outcome_bind]. pose proof (rank_at _ _ _ Hc) as Hrank. destruct c as [[[h' k'] v']|]; cbn [rank_of] in Hrank.
  - assert ((h', k') ≠ (h, k)) as Hne by (intros [= -> ->]; by eapply Habs). cbn [fi_hash].
    assert ((if (h' =? h)%N then '(bucket_k, _) ← Table.read (raw b) (mkFullIndex (N.of_nat (pos (length b) (home (length b) h) j)) h'); Ok (beq k bucket_k) else Ok false) = Ok false) as ->.
    { destruct (N.eqb_spec h' h) as [->|]; [|done]. rewrite (read_spec b _ h h k' v' Hc). cbn. unfold beq. rewrite bool_decide_eq_false_2 by congruence. done. }
    cbn [mbind outcome_bind]. rewrite (bucket_distance_spec b _ h' Hpow Hg Hq). destruct (N.ltb_spec (N.of_nat (dist (length b) (home (length b) h') (pos (length b) (home (length b) h) j))) (N.of_nat j)).
    + destruct (place_steal b h k v j h' k' v' e Hpow Hg Hr He Hh ltac:(lia) Hpr Hc ltac:(lia)) as (b' & -> & Hins & Hat). cbn [mbind outcome_bind].
      rewrite (peek_spec b' _ _ (inserted_good _ _ _ _ _ Hins) Hat). cbn [mbind outcome_bind]. by exists b', (pos (length b) (home (length b) h) j).
    + replace (N.of_nat j + 1)%N with (N.of_nat (S j)) by lia. apply IH; [lia|]. eapply seeking_step; [done..|lia|done|done|lia].
  - rewrite put_spec by done. eexists _, _. split; [done|]. split; [by apply list_lookup_insert_eq|]. apply place_hole; (done || lia).
Qed.
Lemma swap_loop_spec b h k v e n : pow2 (length b) → good b → robin b → b !! e = Some None → (0 < h < 2 ^ 64)%N →
  ∀ j, n = S (filled b) - j → seeking b h k j →
  (∃ p v0, b !! p = Some (Some (h, k, v0)) ∧ swap_loop beq n (N.of_nat j) (raw b) h k v = Ok (Some v0, raw (<[p := Some (h, k, v)]> b))) ∨
  ((∀ p v, b !! p ≠ Some (Some (h, k, v))) ∧ ∃ b', swap_loop beq n (N.of_nat j) (raw b) h k v = Ok (None, raw b') ∧ inserted b b' h k v).
Proof.
  intros Hpow Hg Hr He Hh. pose proof (home_lt (length b) h (pow2_pos _ Hpow)) as Hs. pose proof (hole_filled b e He) as Hfl. induction n as [|n IH]; intros j Hn Hseek;
    pose proof Hseek as [Hpr Hno]; pose proof (probed_hole b _ j e Hs He Hpr) as Hje; pose proof (dist_lt (length b) _ e Hs (lookup_lt_Some _ _ _ He)) as Hd; pose proof (probed_filled b _ j Hs ltac:(lia) Hpr) as Hjf; [lia|].
  cbn [swap_loop]. rewrite (probe_spec b h j Hpow Hg) by lia. pose proof (pos_lt (length b) (home (length b) h) j Hs ltac:(lia)) as Hq.
  destruct (lookup_lt_is_Some_2 b _ Hq) as [c Hc]. rewrite (peek_spec b _ c Hg Hc). cbn [mbind outcome_bind]. pose proof (rank_at _ _ _ Hc) as Hrank. destruct c as [[[h' k'] v']|]; cbn [rank_of] in Hrank.
  - cbn [fi_hash]. destruct (decide ((h', k') = (h, k))) as [[= -> ->]|Hne].
    + left. exists (pos (length b) (home (length b) h) j), v'. split; [done|]. rewrite N.eqb_refl, (read_spec b _ h h k v' Hc). cbn [mbind outcome_bind]. unfold beq. rewrite bool_decide_eq_true_2 by done.
      cbn [mbind outcome_bind]. by rewrite (set_val_spec b _ h h k v' v Hc).
    + assert ((if (h' =? h)%N then '(bucket_k, bucket_v) ← Table.read (raw b) (mkFullIndex (N.of_nat (pos (length b) (home (length b) h) j)) h'); Ok (if beq k bucket_k then Some bucket_v else None) else Ok None) = Ok None) as ->.
      { destruct (N.eqb_spec h' h) as [->|]; [|done]. rewrite (read_spec b _ h h k' v' Hc). cbn. unfold beq. rewrite bool_decide_eq_false_2 by congruence. done. }
      cbn [mbind outcome_bind]. rewrite (bucket_distance_spec b _ h' Hpow Hg Hq). destruct (N.ltb_spec (N.of_nat (dist (length b) (home (length b) h') (pos (length b) (home (length b) h) j))) (N.of_nat j)).
      * right. split; [eapply absent_at; [done| |done|lia]; lia|].
        destruct (place_steal b h k v j h' k' v' e Hpow Hg Hr He Hh ltac:(lia) Hpr Hc ltac:(lia)) as (b' & -> & Hins & Hat). by exists b'.
      * replace (N.of_nat j + 1)%N with (N.of_nat (S j)) by lia. apply IH; [lia|]. eapply seeking_step; [done..|lia|done|done|lia].
  - right. split; [eapply (absent_at b h k j); [done|lia|done|rewrite Hrank; lia]|]. rewrite put_spec by done. eexists. split; [done|]. apply place_hole; (done || lia).
Qed.
End Loops.

(** * Removing *)
Section Removing.
Context {K V : Type}.
Implicit Types b : list (option (N * K * V)).

(** While the elements after a removed one move back: the hole is at [q], the
    shift ends [n] buckets further on, and [x] is the rank that was at [q]. *)
Record shifting b (q n x : nat) : Prop := {
  sh_hole : b !! q = Some None;
  sh_robin : ∀ p, p < length b → p ≠ q → rank b (pos (length b) p 1) ≤ S (rank b p);
  sh_next : rank b (pos (length b) q 1) ≤ S x;
  sh_prev : prev (length b) q = q ∨ x ≤ S (rank b (prev (length b) q));
  sh_run : ∀ i, 1 ≤ i < n → 2 ≤ rank b (pos (length b) q i);
  sh_end : rank b (pos (length b) q n) ≤ 1;
  sh_n : 1 ≤ n ≤ length b;
  sh_round : n = length b → x ≤ 1 }.
Lemma shifting_end b q x : shifting b q 1 x → robin b.
Proof.
  intros [Hh Hr Hn Hp _ He _ _] p Hl. destruct (decide (p = q)) as [->|]; [|by apply Hr]. rewrite (rank_at _ _ _ Hh). cbn. lia.
Qed.
Lemma dist_back L s q : s < L → q < L → 1 ≤ dist L s (pos L q 1) → dist L s (pos L q 1) = S (dist L s q).
Proof. circle. Qed.
Lemma pos_ne L q i j : q < L → i < j → j < L → pos L q i ≠ pos L q j.
Proof. circle. Qed.
Lemma pos_ne_self L q i : q < L → 0 < i < L → pos L q i ≠ q.
Proof. circle. Qed.
Lemma shifting_step b q n x h k v : let nq := pos (length b) q 1 in shifting b q (S (S n)) x → b !! nq = Some (Some (h, k, v)) →
  shifting (<[q := Some (h, k, v)]> (<[nq := None]> b)) nq (S n) (rank b nq).
Proof.
  intros nq [Hh Hr Hn Hp Hrun He [_ Hlen] Hround] Hnq. pose proof (lookup_lt_Some _ _ _ Hh) as Hq. pose proof (lookup_lt_Some _ _ _ Hnq) as Hnql. set (L := length b) in *.
  assert (nq ≠ q) as Hne by (apply pos_ne_self; lia).
  set (b' := <[q := Some (h, k, v)]> (<[nq := None]> b)). assert (length b' = L) as HL by (unfold b'; by rewrite !length_insert).
  pose proof (rank_at _ _ _ Hnq) as Hrn. cbn [rank_of] in Hrn. fold L in Hrn. pose proof (Hrun 1 ltac:(lia)) as Hr2. fold nq in Hr2, Hn.
  pose proof (home_lt L h ltac:(lia)) as Hs. pose proof (dist_back L (home L h) q Hs Hq) as Hd. fold nq in Hd. specialize (Hd ltac:(lia)).
  assert (rank b' q = rank b nq - 1) as Hrq. { unfold b'. rewrite rank_set by (by rewrite length_insert). rewrite length_insert. fold L. cbn. lia. }
  assert (rank b' nq = 0) as Hrnq. { unfold b'. rewrite rank_other by done. by rewrite rank_set. }
  assert (∀ p, p ≠ q → p ≠ nq → rank b' p = rank b p) as Hro. { intros p ? ?. unfold b'. by rewrite !rank_other. }
  assert (prev L nq = q) as Hpn by (by apply prev_next).
  split; rewrite ?HL.
  - unfold b'. rewrite list_lookup_insert_ne by done. by apply list_lookup_insert_eq.
  - intros p Hpl Hpne. destruct (decide (p = q)) as [->|]; [fold nq; lia|]. destruct (decide (pos L p 1 = q)) as [E|E].
    + rewrite E, Hrq, Hro by done. destruct Hp as [Hp|Hp]; [rewrite <- E, prev_next in Hp by done; congruence|]. rewrite <- E in Hp. rewrite prev_next in Hp by done. lia.
    + assert (pos L p 1 ≠ nq) as Hpnq by (intros E'; apply (f_equal (prev L)) in E'; rewrite prev_next, Hpn in E'; done). rewrite !Hro by done. by apply Hr.
  - destruct (decide (pos L nq 1 = q)) as [->|E]; [lia|]. destruct (decide (pos L nq 1 = nq)) as [->|E']; [lia|]. rewrite Hro by done. by apply Hr.
  - right. rewrite Hpn, Hrq. lia.
  - intros i Hi. unfold nq. rewrite pos_pos, Hro by (lia || (apply pos_ne_self; lia) || (apply not_eq_sym, pos_ne; lia)). apply Hrun. lia.
  - unfold nq. rewrite pos_pos by lia. change (1 + S n) with (S (S n)). destruct (decide (S (S n) = L)) as [E|E].
    + rewrite E, pos_round, Hrq by done. specialize (Hround E). lia.
    + rewrite Hro; [done|apply pos_ne_self; lia|apply not_eq_sym, pos_ne; lia].
  - lia.
  - lia.
Qed.
(** What removing an element leaves. *)
Record removed b b' (x : N * K * V) : Prop := {
  removed_length : length b' = length b;
  removed_good : good b';
  removed_robin : robin b';
  removed_hole : ∃ e, b' !! e = Some None;
  removed_elements : x :: elements b' ≡ₚ elements b }.
Lemma shift_loop_spec n : ∀ b q x fuel, pow2 (length b) → good b → shifting b q (S n) x → n < fuel →
  ∃ q' b', shift_loop fuel (N.of_nat q) (N.of_nat (pos (length b) q 1)) (N.of_nat (pos (length b) q (S n))) (raw b) = Ok (N.of_nat q', raw b') ∧
    length b' = length b ∧ good b' ∧ robin b' ∧ b' !! q' = Some None ∧ elements b' ≡ₚ elements b.
Proof.
  induction n as [|n IH]; intros b q x [|fuel] Hpow Hg Hsh Hf; try lia; cbn [shift_loop].
  - rewrite N.eqb_refl. exists q, b. split_and!; try done; [by eapply shifting_end|by destruct Hsh].
  - pose proof Hsh as [Hh Hr _ _ Hrun _ Hn _]. pose proof (lookup_lt_Some _ _ _ Hh) as Hq. assert (pos (length b) q 1 ≠ pos (length b) q (S (S n))) as Hne.
    { destruct (decide (S (S n) = length b)) as [->|]; [rewrite pos_round by done; apply pos_ne_self; lia|apply pos_ne; lia]. }
    destruct (N.eqb_spec (N.of_nat (pos (length b) q 1)) (N.of_nat (pos (length b) q (S (S n))))); [lia|].
    destruct (rank_full b (pos (length b) q 1)) as [[[h k] v] Hnq]; [specialize (Hrun 1 ltac:(lia)); lia|]. set (nq := pos (length b) q 1) in *. pose proof (lookup_lt_Some _ _ _ Hnq) as Hnql.
    rewrite (peek_spec b nq _ Hg Hnq). cbn [mbind outcome_bind fi_hash]. rewrite (take_spec b nq h h k v Hg Hnq). cbn [mbind outcome_bind]. assert (nq ≠ q) as Hnqq by congruence.
    assert (good (<[nq := None]> b)) as Hg1 by by apply good_none. assert ((<[nq := None]> b) !! q = Some None) as Hh1 by (by rewrite list_lookup_insert_ne).
    rewrite (peek_spec _ q None Hg1 Hh1). cbn [mbind outcome_bind]. rewrite (put_spec _ q h k v Hg1 Hh1). cbn [mbind outcome_bind].
    pose proof (shifting_step b q n x h k v Hsh Hnq) as Hsh'. fold nq in Hsh'. set (b1 := <[q := Some (h, k, v)]> (<[nq := None]> b)) in *. assert (length b1 = length b) as HL by (unfold b1; by rewrite !length_insert).
    assert (good b1) as Hg2 by (apply good_set; [done|]; intros ??? [= <- <- <-]; by eapply (proj1 Hg)). rewrite probe_next_spec by (rewrite ?HL; done).
    destruct (IH b1 nq (rank b nq) fuel) as (q' & b' & Hl & HL' & ? & ? & ? & Hel); [by rewrite HL|done|done|lia|]. rewrite HL in *.
    assert (pos (length b) nq (S n) = pos (length b) q (S (S n))) as <- by (unfold nq; by rewrite pos_pos by lia). exists q', b'. split_and!; try done. rewrite Hel. unfold b1.
    rewrite (elements_fill _ q _ Hh1), (elements_at b nq _ Hnq). cbn. f_equiv. exact (elements_set b nq None Hnql).
Qed.

(** The shift ends before the next bucket that is empty or holds an element where it belongs. *)
Lemma ending_loop_spec b p y n : pow2 (length b) → good b → anchored b → b !! p = Some (Some y) → ∀ j, n = filled b - j → (∀ i, 1 ≤ i < S j → 2 ≤ rank b (pos (length b) p i)) →
  S j ≤ length b → ∃ m, ending_loop n (N.of_nat (pos (length b) p (S j))) (raw b) = Ok (N.of_nat (pos (length b) p (S m))) ∧ S m ≤ length b ∧
    (∀ i, 1 ≤ i < S m → 2 ≤ rank b (pos (length b) p i)) ∧ rank b (pos (length b) p (S m)) ≤ 1.
Proof.
  intros Hpow Hg (a & Ha & Hra) Hp. pose proof (lookup_lt_Some _ _ _ Hp) as Hl. induction n as [|n IH]; intros j Hn Hrun Hj.
  - exfalso. assert (S j ≤ filled b); [|lia]. apply (run_filled b p); [done|lia|]. intros [|i] Hi; [exists y; by rewrite pos_0|]. apply rank_full. specialize (Hrun (S i) ltac:(lia)). lia.
  - cbn [ending_loop]. pose proof (pos_lt (length b) p (S j) Hl Hj) as Hq. destruct (lookup_lt_is_Some_2 b _ Hq) as [c Hc]. rewrite (peek_spec b _ c Hg Hc). cbn [mbind outcome_bind].
    pose proof (rank_at _ _ _ Hc) as Hrank. destruct c as [[[h k] v]|]; cbn [rank_of] in Hrank; [|exists j; split_and!; [done..|lia]].
    rewrite (bucket_distance_spec b _ h Hpow Hg Hq). destruct (N.eqb_spec (N.of_nat (dist (length b) (home (length b) h) (pos (length b) p (S j)))) 0); cbn [negb]; [exists j; split_and!; [done..|lia]|].
    rewrite (probe_next_spec b _ Hpow Hg Hq). assert (S j < length b) as Hj2.
    { destruct (decide (S j = length b)) as [E|]; [exfalso|lia]. rewrite E, pos_round in Hrank by done. destruct (decide (dist (length b) p a = 0)) as [Ez|Ez].
      - pose proof (pos_dist (length b) p a Hl Ha) as Hpd. rewrite Ez, pos_0 in Hpd by done. subst a. rewrite E, pos_round in n0 by done. lia.
      - pose proof (dist_lt (length b) p a Hl Ha). specialize (Hrun (dist (length b) p a) ltac:(lia)). rewrite pos_dist in Hrun by done. lia. }
    rewrite pos_S by lia. apply IH; [lia| |lia]. intros i Hi. destruct (decide (i = S j)) as [->|]; [lia|]. apply Hrun. lia.
Qed.
Lemma start_shifting b p y m : robin b → b !! p = Some (Some y) → S m ≤ length b → (∀ i, 1 ≤ i < S m → 2 ≤ rank b (pos (length b) p i)) → rank b (pos (length b) p (S m)) ≤ 1 →
  shifting (<[p := None]> b) p (S m) (rank b p).
Proof.
  intros Hr Hp Hm Hrun He. pose proof (lookup_lt_Some _ _ _ Hp) as Hl. assert (∀ q, rank (<[p := None]> b) q ≤ rank b q) as Hle.
  { intros q. destruct (decide (q = p)) as [->|]; [rewrite rank_set by done; cbn; lia|by rewrite rank_other]. }
  split; rewrite ?length_insert.
  - by apply list_lookup_insert_eq.
  - intros q Hq Hne. rewrite (rank_other b p q) by done. specialize (Hle (pos (length b) q 1)). specialize (Hr q Hq). lia.
  - specialize (Hle (pos (length b) p 1)). specialize (Hr p Hl). lia.
  - destruct (decide (prev (length b) p = p)) as [|Hne]; [by left|right]. rewrite rank_other by done. specialize (Hr (prev (length b) p) (prev_lt _ _ Hl)). by rewrite next_prev in Hr.
  - intros i Hi. rewrite rank_other by (apply pos_ne_self; lia). by apply Hrun.
  - specialize (Hle (pos (length b) p (S m))). lia.
  - lia.
  - intros E. by rewrite E, pos_round in He.
Qed.
Lemma pop_internal_spec m b p h k v : pow2 (length b) → good b → robin b → anchored b → table m = raw b → b !! p = Some (Some (h, k, v)) →
  ∃ b', pop_internal m (mkFullIndex (N.of_nat p) h) = Ok (Some v, with_table m (raw b')) ∧ removed b b' (h, k, v).
Proof.
  intros Hpow Hg Hr Ha Ht Hp. pose proof (lookup_lt_Some _ _ _ Hp) as Hl. unfold pop_internal. rewrite Ht. cbn [fi_idx raw size]. rewrite Nat2N.id, (probe_next_spec b p Hpow Hg Hl).
  destruct (ending_loop_spec b p _ (filled b) Hpow Hg Ha Hp 0) as (n & -> & Hn & Hrun & He); [lia|lia|lia|]. cbn [mbind outcome_bind]. rewrite (take_spec b p h h k v Hg Hp). cbn [mbind outcome_bind].
  pose proof (start_shifting b p _ n Hr Hp Hn Hrun He) as Hsh. set (b0 := <[p := None]> b) in *. assert (length b0 = length b) as HL by (unfold b0; by rewrite length_insert).
  assert (good b0) as Hg0 by by apply good_none. rewrite probe_next_spec by (rewrite ?HL; done). cbn [raw capacity]. fold (raw b0). rewrite Nat2N.id.
  destruct (shift_loop_spec n b0 p (rank b p) (S (length b0))) as (q & b' & Hs & HL' & Hg' & Hr' & Hq & Hel); [by rewrite HL|done|done|lia|]. rewrite HL in *. rewrite Hs. cbn [mbind outcome_bind].
  rewrite (take_if_full_spec b' q None Hg' Hq), list_insert_id by done. cbn [mbind outcome_bind]. exists b'. split; [done|]. split; [done..|by exists q|]. rewrite Hel. unfold b0. rewrite (elements_at b p _ Hp). cbn. f_equiv. exact (elements_set b p None Hl).
Qed.
Lemma hole_anchored b e : b !! e = Some None → anchored b.
Proof. intros He. exists e. split; [by eapply lookup_lt_Some|]. rewrite (rank_at _ _ _ He). cbn. lia. Qed.
End Removing.

(** * New tables, iteration and resizing *)
Section Tables.
Context {K V : Type} (size_k size_v : N).
Implicit Types b : list (option (N * K * V)).

(** There is memory for [n] buckets. *)
Definition fits_memory (n : nat) : Prop :=
  (N.of_nat n * 8 ≤ UINT_MAX ∧ N.of_nat n * size_k ≤ UINT_MAX ∧ N.of_nat n * size_v ≤ UINT_MAX ∧ N.of_nat n < 2 ^ 59)%N.
Lemma init_loop (c : N) n : ∀ i, Slice.for_range n i (λ i h, store h (N.of_nat i) (Some c)) (replicate i (Some c) ++ replicate n None) = Ok (replicate (i + n) (Some c)).
Proof.
  induction n as [|n IH]; intros i; cbn [Slice.for_range]; [by rewrite app_nil_r, Nat.add_0_r|]. rewrite store_at by (rewrite length_app, !length_replicate; lia). cbn [mbind outcome_bind].
  rewrite insert_app_r_alt, length_replicate, Nat.sub_diag by (by rewrite length_replicate). change (<[0 := Some c]> (replicate (S n) None)) with (Some c :: replicate n None).
  rewrite cons_middle, app_assoc. change [Some c] with (replicate 1 (Some c)). rewrite <- replicate_add, Nat.add_1_r, IH. by rewrite Nat.add_succ_r.
Qed.
Lemma empty_elements n : elements (replicate n (@None (N * K * V))) = [].
Proof. induction n; [done|]. by cbn [replicate]. Qed.
Lemma table_new_spec n : fits_memory n → new (K := K) (V := V) size_k size_v (N.of_nat n) = Ok (raw (replicate n None)).
Proof.
  intros (H1 & H2 & H3 & _). unfold new, new_uninitialized, check_size. destruct (N.leb_spec (N.of_nat n * 8) UINT_MAX), (N.leb_spec (N.of_nat n * size_k) UINT_MAX), (N.leb_spec (N.of_nat n * size_v) UINT_MAX); try lia.
  cbn [mbind outcome_bind capacity size hashes keys vals]. rewrite Nat2N.id. pose proof (init_loop EMPTY_BUCKET n 0) as Hi. cbn [replicate app Nat.add] in Hi. unfold Slice.buffer in *. rewrite Hi. cbn [mbind outcome_bind].
  unfold raw, filled. rewrite empty_elements, length_replicate, !fmap_replicate. done.
Qed.
(** A table that probing can use. *)
Record usable b : Prop := { us_pow : pow2 (length b); us_good : good b; us_robin : robin b; us_anchored : anchored b }.
Lemma empty_usable n : pow2 n → (N.of_nat n < 2 ^ 59)%N → usable (replicate n (@None (N * K * V))).
Proof.
  intros Hp Hs. pose proof (pow2_pos n Hp). assert (∀ p, rank (replicate n (@None (N * K * V))) p = 0) as Hz.
  { intros p. unfold rank. destruct (replicate n None !! p) as [c|] eqn:E; [|done]. by apply lookup_replicate in E as [-> _]. }
  split; [by rewrite length_replicate|split; [|by rewrite length_replicate]| |].
  - intros p h k v Hp'. by apply lookup_replicate in Hp' as [? _].
  - intros p _. rewrite !Hz. lia.
  - exists 0. rewrite Hz, length_replicate. lia.
Qed.
Lemma scan_spec b fuel : good b → ∀ i, i ≤ length b → length b - i < fuel →
  (elements (skipn i b) = [] ∧ scan fuel (raw b) (N.of_nat i) = Ok (None, N.of_nat (length b))) ∨
  ∃ p h k v, i ≤ p ∧ b !! p = Some (Some (h, k, v)) ∧ elements (skipn i b) = (h, k, v) :: elements (skipn (S p) b) ∧
    scan fuel (raw b) (N.of_nat i) = Ok (Some (mkFullIndex (N.of_nat p) h), N.of_nat (S p)).
Proof.
  intros Hg. induction fuel as [|fuel IH]; intros i Hi Hf; [lia|]. cbn [scan]. cbn [raw capacity]. fold (raw b). pose proof Hg as [_ Hs]. change (2 ^ 59)%N with 576460752303423488%N in Hs.
  destruct (N.ltb_spec (N.of_nat i) (N.of_nat (length b))); [|left; replace i with (length b) by lia; by rewrite drop_all].
  destruct (lookup_lt_is_Some_2 b i ltac:(lia)) as [c Hc]. rewrite (peek_spec b i c Hg Hc). cbn [mbind outcome_bind]. rewrite (drop_S b c i Hc), uadd_small by (unfold UINT_MAX; lia).
  replace (N.of_nat i + 1)%N with (N.of_nat (S i)) by lia. destruct c as [[[h k] v]|].
  - right. exists i, h, k, v. by split_and!.
  - destruct (IH (S i)) as [[He Hn]|(p & h & k & v & Hp & Hb & He & Hn)]; [lia|lia|left; by split|right]. exists p, h, k, v. split_and!; [lia|done..].
Qed.
Lemma move_next_spec b i : good b → i ≤ length b → filled b = length (elements (skipn i b)) →
  match elements (skipn i b) with
  | [] => ∃ it, MoveEntries_next (mkMoveEntries (raw b) (N.of_nat i)) = Ok (None, it) ∧ me_table it = raw b ∧ filled b = 0
  | x :: l => ∃ b' i', MoveEntries_next (mkMoveEntries (raw b) (N.of_nat i)) = Ok (Some x, mkMoveEntries (raw b') (N.of_nat i')) ∧
      good b' ∧ i' ≤ length b' ∧ length b' = length b ∧ elements (skipn i' b') = l ∧ filled b' = length l
  end.
Proof.
  intros Hg Hi Hfl. unfold MoveEntries_next, scan_fuel. cbn [me_table me_idx raw capacity]. fold (raw b).
  destruct (scan_spec b (S (N.to_nat (N.of_nat (length b) - N.of_nat i))) Hg i Hi) as [[He ->]|(p & h & k & v & Hp & Hb & He & ->)]; [lia| |]; rewrite He in *; cbn [mbind outcome_bind].
  - eexists. split; [done|]. by split.
  - rewrite (take_spec b p h h k v Hg Hb). cbn [mbind outcome_bind fi_hash]. exists (<[p := None]> b), (S p). pose proof (lookup_lt_Some _ _ _ Hb). pose proof (filled_set b p _ None Hb). cbn in *.
    split_and!; [done|by apply good_none|rewrite length_insert; lia|by rewrite length_insert|by rewrite drop_insert_lt by lia|lia].
Qed.
Lemma drop_spec b : filled b = 0 → Table.drop (raw b) = Ok tt.
Proof. intros Hf. unfold Table.drop. cbn [raw capacity]. fold (raw b). assert (drop_loop (N.to_nat (N.of_nat (length b))) (raw b) = Ok (raw b)) as ->; [|cbn; by rewrite Hf]. destruct (N.to_nat _); cbn; [done|]. by rewrite Hf. Qed.

(** Copying: the first [i] buckets are there. *)
Definition part b (i : nat) : RawTable K V := mkRawTable (N.of_nat (length b)) 0
  ((Some ∘ hash_of <$> firstn i b) ++ replicate (length b - i) None) ((key_of <$> firstn i b) ++ replicate (length b - i) None) ((val_of <$> firstn i b) ++ replicate (length b - i) None).
Lemma store_next {A B} (f : A → option B) (l : list A) i x n : l !! i = Some x → i + S n = length l →
  store ((f <$> firstn i l) ++ replicate (S n) None) (N.of_nat i) (f x) = Ok ((f <$> firstn (S i) l) ++ replicate n None).
Proof using.
  intros Hx Hn. pose proof (lookup_lt_Some _ _ _ Hx). assert (length (f <$> firstn i l) = i) as Hl by (rewrite length_fmap, length_take; lia).
  rewrite store_at by (rewrite length_app, Hl, length_replicate; lia). rewrite insert_app_r_alt, Hl, Nat.sub_diag by lia. rewrite (take_S_r l i x Hx), fmap_app, <- app_assoc. done.
Qed.
Lemma clone_loop b n : good b → ∀ i, i + n = length b → Slice.for_range n i (clone_step (raw b)) (part b i) = Ok (part b (length b)).
Proof using.
  intros Hg. induction n as [|n IH]; intros i Hi; cbn [Slice.for_range]; [by replace i with (length b) by lia|]. destruct (lookup_lt_is_Some_2 b i ltac:(lia)) as [c Hc].
  assert (clone_step (raw b) i (part b i) = Ok (part b (S i))) as ->; [|cbn [mbind outcome_bind]; apply IH; lia].
  unfold clone_step. rewrite (peek_spec b i c Hg Hc). cbn [mbind outcome_bind]. unfold part. cbn [hashes keys vals capacity Table.size]. replace (length b - i) with (S n) by lia. replace (length b - S i) with n by lia.
  pose proof (store_next (Some ∘ hash_of) b i c n Hc Hi) as Hh. pose proof (store_next key_of b i c n Hc Hi) as Hk. pose proof (store_next val_of b i c n Hc Hi) as Hv. destruct c as [[[h k] v]|]; cbn [compose hash_of key_of val_of fi_hash] in *.
  - rewrite (read_spec b i h h k v Hc). cbn [mbind outcome_bind]. by rewrite Hh, Hk, Hv.
  - rewrite Hh. cbn [mbind outcome_bind]. rewrite !(take_S_r b i None Hc), !fmap_app, <- !app_assoc. done.
Qed.
Lemma clone_spec b : good b → fits_memory (length b) → Table.clone size_k size_v (raw b) = Ok (raw b).
Proof using.
  intros Hg (H1 & H2 & H3 & _). unfold Table.clone, new_uninitialized, check_size. cbn [raw capacity Table.size]. fold (raw b).
  destruct (N.leb_spec (N.of_nat (length b) * 8) UINT_MAX), (N.leb_spec (N.of_nat (length b) * size_k) UINT_MAX), (N.leb_spec (N.of_nat (length b) * size_v) UINT_MAX); try lia.
  cbn [mbind outcome_bind]. rewrite Nat2N.id. pose proof (clone_loop b (length b) Hg 0 eq_refl) as Hl. unfold part at 1 in Hl. rewrite Nat.sub_0_r in Hl. rewrite !take_0 in Hl. cbn [fmap list_fmap app] in Hl. rewrite Hl. cbn [mbind outcome_bind].
  unfold part. cbn [capacity hashes keys vals]. rewrite Nat.sub_diag, !app_nil_r, firstn_all. done.
Qed.
End Tables.

(** * The map *)
Section Maps.
Context {K V : Type} `{Countable K} (size_k size_v : N) (hasher : K → N) (Hhash : ∀ k, (hasher k < 2 ^ 64)%N).
Implicit Types b : list (option (N * K * V)).
Implicit Types m : HashMap K V.
Implicit Types M : gmap K V.

Definition hash (k : K) : N := make_hash hasher k.
Lemma hash_bound k : (0 < hash k < 2 ^ 64)%N.
Proof using Hhash. unfold hash, make_hash, EMPTY_BUCKET. specialize (Hhash k). change (2 ^ 64)%N with 18446744073709551616%N in *. destruct (N.eqb_spec (hasher k) 0); lia. Qed.

Definition kv (x : N * K * V) : K * V := (x.1.2, x.2).
(** The buckets hold the entries of [M], each under its hash. *)
Definition rep b M : Prop := Forall (λ x, x.1.1 = hash x.1.2) (elements b) ∧ (kv <$> elements b) ≡ₚ map_to_list M.

Lemma rep_hash b M p h k v : rep b M → b !! p = Some (Some (h, k, v)) → h = hash k.
Proof using. intros [Hf _] Hp. rewrite Forall_forall in Hf. apply (Hf (h, k, v)). apply elem_of_elements. by exists p. Qed.
Lemma rep_lookup b M p h k v : rep b M → b !! p = Some (Some (h, k, v)) → M !! k = Some v.
Proof using.
  intros [_ Hp] Hb. apply elem_of_map_to_list. rewrite <- Hp. apply list_elem_of_fmap. exists (h, k, v). split; [done|]. apply elem_of_elements. by exists p.
Qed.
Lemma rep_find b M k v : rep b M → M !! k = Some v → ∃ p, b !! p = Some (Some (hash k, k, v)).
Proof using.
  intros [Hf Hp] Hk. apply elem_of_map_to_list in Hk. rewrite <- Hp in Hk. apply list_elem_of_fmap in Hk as ([[h k'] v'] & [= -> ->] & Hx). rewrite Forall_forall in Hf. pose proof (Hf _ Hx) as E. cbn in E. subst h. by apply elem_of_elements in Hx.
Qed.
Lemma rep_absent b M k : rep b M → (∀ p v, b !! p ≠ Some (Some (hash k, k, v))) → M !! k = None.
Proof using. intros Hr Ha. destruct (M !! k) as [v|] eqn:E; [|done]. destruct (rep_find b M k v Hr E) as [p Hp]. by destruct (Ha p v). Qed.
Lemma absent_rep b M k p h v : rep b M → M !! k = None → b !! p ≠ Some (Some (h, k, v)).
Proof using. intros Hr Hn Hp. pose proof (rep_lookup b M p h k v Hr Hp). congruence. Qed.
Lemma rep_new b b' M k v : rep b M → M !! k = None → elements b' ≡ₚ (hash k, k, v) :: elements b → rep b' (<[k := v]> M).
Proof using.
  intros [Hf Hp] Hk He. split; [rewrite He; by constructor|]. rewrite He. cbn. rewrite (map_to_list_insert M k v Hk). by constructor.
Qed.
Lemma rep_delete b b' M h k v : rep b M → M !! k = Some v → (h, k, v) :: elements b' ≡ₚ elements b → rep b' (delete k M).
Proof using.
  intros [Hf Hp] Hk He. rewrite <- He in Hf, Hp. apply Forall_cons in Hf as [_ Hf]. split; [done|]. cbn in Hp. rewrite <- (map_to_list_delete M k v Hk) in Hp. by apply Permutation_cons_inv in Hp.
Qed.
Lemma rep_update b M p h k v0 v : rep b M → b !! p = Some (Some (h, k, v0)) → rep (<[p := Some (h, k, v)]> b) (<[k := v]> M).
Proof using.
  intros Hr Hp. pose proof (rep_hash b M p h k v0 Hr Hp) as ->. pose proof (rep_lookup b M p _ k v0 Hr Hp) as Hk. pose proof (elements_exchange b p _ (hash k, k, v) Hp) as Hx.
  assert (rep (<[p := None]> b) (delete k M)) as Hd. { eapply rep_delete; [done..|]. rewrite (elements_at b p _ Hp). cbn. f_equiv. apply (elements_set b p None). by eapply lookup_lt_Some. }
  rewrite <- insert_delete_eq. eapply rep_new; [done|apply lookup_delete_eq|]. rewrite (elements_set b p (Some (hash k, k, v))) by (by eapply lookup_lt_Some). cbn. f_equiv. symmetry. apply (elements_set b p None). by eapply lookup_lt_Some.
Qed.
Lemma rep_size b M : rep b M → filled b = base.size M.
Proof using. intros [_ Hp]. apply Permutation_length in Hp. rewrite length_fmap, length_map_to_list in Hp. done. Qed.
Lemma rep_empty n : rep (replicate n None) ∅.
Proof using. unfold rep. rewrite empty_elements. split; [constructor|]. by rewrite map_to_list_empty. Qed.
Lemma rep_perm b b' M : rep b M → elements b' ≡ₚ elements b → rep b' M.
Proof using. intros [Hf Hp] He. split; by rewrite He. Qed.
(** Changing a value moves nothing. *)
Lemma usable_update b p h k v0 v : usable b → b !! p = Some (Some (h, k, v0)) → usable (<[p := Some (h, k, v)]> b).
Proof using.
  intros [Hpow Hg Hr (a & Ha & Hra)] Hp. pose proof (lookup_lt_Some _ _ _ Hp) as Hl. assert (∀ q, rank (<[p := Some (h, k, v)]> b) q = rank b q) as Hrk.
  { intros q. destruct (decide (q = p)) as [->|]; [rewrite rank_set, (rank_at _ _ _ Hp) by done; done|by rewrite rank_other]. }
  split; rewrite ?length_insert; [done|apply good_set; [done|]; intros ??? [= <- <- <-]; by eapply (proj1 Hg)| |].
  - intros q Hq. rewrite length_insert in *. rewrite !Hrk. by apply Hr.
  - exists a. by rewrite Hrk, length_insert.
Qed.
Lemma inserted_usable b b' h k v : usable b → inserted b b' h k v → usable b'.
Proof using. intros [Hpow _ _ _] [HL ? ? ? _]. split; [by rewrite HL|done..]. Qed.
Lemma removed_usable b b' x : usable b → removed b b' x → usable b'.
Proof using. intros [Hpow _ _ _] [HL ? ? [e He] _]. split; [by rewrite HL|done|done|by eapply hole_anchored]. Qed.

Lemma nocheck_spec m b h k v e : usable b → table m = raw b → b !! e = Some None → (0 < h < 2 ^ 64)%N → (∀ p v, b !! p ≠ Some (Some (h, k, v))) →
  ∃ b' p, manual_insert_hashed_nocheck beq m h k v = Ok (mkFullIndex (N.of_nat p) h, with_table m (raw b')) ∧ b' !! p = Some (Some (h, k, v)) ∧ inserted b b' h k v.
Proof using.
  intros [Hpow Hg Hr Ha] Ht He Hh Habs. unfold manual_insert_hashed_nocheck. rewrite Ht. cbn [raw Table.size]. fold (raw b). rewrite Nat2N.id.
  destruct (insert_loop_spec b h k v e (S (filled b)) Hpow Hg Hr He Hh Habs 0) as (b' & p & Hi & Hp & Hins); [lia|split; [intros i Hi|intros i v' Hi]; lia|]. change 0%N with (N.of_nat 0). rewrite Hi. by exists b', p.
Qed.
(** Moving all entries of a table into another. *)
Lemma resize_loop_spec l : ∀ b i m c Mc fuel, good b → i ≤ length b → elements (skipn i b) = l → filled b = length l → table m = raw c → usable c → rep c Mc →
  Forall (λ x, x.1.1 = hash x.1.2) l → NoDup ((λ x, x.1.2) <$> l) → (∀ x, x ∈ l → Mc !! x.1.2 = None) → filled c + length l ≤ length c → length l < fuel →
  ∃ it b' c', resize_loop beq fuel (mkMoveEntries (raw b) (N.of_nat i)) m = Ok (it, with_table m (raw c')) ∧ me_table it = raw b' ∧ filled b' = 0 ∧
    usable c' ∧ length c' = length c ∧ elements c' ≡ₚ l ++ elements c.
Proof using Hhash.
  induction l as [|[[h k] v] l IH]; intros b i m c Mc [|fuel] Hg Hi Hl Hfl Ht Hu Hrep Hall Hnd Hnew Hroom Hf; try (cbn in Hf; lia); cbn [resize_loop]; pose proof (move_next_spec b i Hg Hi ltac:(by rewrite Hl)) as Hn; rewrite Hl in Hn.
  - destruct Hn as (it & -> & Hit & Hz). cbn [mbind outcome_bind]. exists it, b, c. destruct m; cbn in Ht; subst. by split_and!.
  - destruct Hn as (b' & i' & -> & Hg' & Hi' & Hlen & Hl' & Hfl'). cbn [mbind outcome_bind]. apply Forall_cons in Hall as [Hh Hall]. cbn in Hh. subst h. cbn in Hnd, Hroom, Hf. apply NoDup_cons in Hnd as [Hk Hnd].
    destruct (filled_hole c) as [e He]; [lia|]. assert (Mc !! k = None) as Hkn by (apply (Hnew (hash k, k, v)); left).
    destruct (nocheck_spec m c (hash k) k v e Hu Ht He (hash_bound k)) as (c1 & p & -> & _ & Hins); [intros; by eapply absent_rep|]. cbn [mbind outcome_bind].
    pose proof Hins as [HL _ _ _ Hel]. assert (filled c1 = S (filled c)) as Hf1 by (unfold filled; by rewrite Hel).
    destruct (IH b' i' (with_table m (raw c1)) c1 (<[k := v]> Mc) fuel) as (it & b2 & c2 & -> & ? & ? & ? & HL2 & Hel2); try done; [by eapply inserted_usable|by eapply rep_new| |lia|lia|].
    + intros x Hx. rewrite lookup_insert_ne; [by apply Hnew; right|]. intros ->. apply Hk, list_elem_of_fmap. by exists x.
    + exists it, b2, c2. split_and!; try done; [by rewrite HL2|]. rewrite Hel2, Hel. apply Permutation_sym, Permutation_middle.
Qed.
End Maps.
