(* ===== verification/HashMapCorrect.v ===== *)
(** The hash map as a finite map: every operation, and sequences of them. *)
From stdpp Require Import prelude list gmap.
From Stdlib Require Import NArith Lia.
From S2P Require Import Prelude StrConv Sort Circle RingBuf PowerOfTwo HashMap HashMapSound.
Import Table HashMap.

Section Ops.
Context {K V : Type} `{Countable K} (size_k size_v : N) (hasher : K → N) (Hhash : ∀ k, (hasher k < 2 ^ 64)%N).
Implicit Types b : list (option (N * K * V)).
Implicit Types m : HashMap K V.
Implicit Types M : gmap K V.

(** * The state *)
Record hm_ok m M b : Prop := {
  hm_table : table m = raw b;
  hm_usable : usable b;
  hm_load : load_factor m = INITIAL_LOAD_FACTOR;
  hm_grow : grow_at_ m = N.of_nat (9 * length b / 10);
  hm_rep : rep hasher b M }.

Lemma grow_at_spec n : (N.of_nat n < 2 ^ 59)%N → grow_at (N.of_nat n) INITIAL_LOAD_FACTOR = N.of_nat (9 * n / 10).
Proof using.
  change (2 ^ 59)%N with 576460752303423488%N. intros Hn. unfold grow_at, fraction_mul, INITIAL_LOAD_FACTOR, umul, UINT_BITS. cbn [fst snd]. change (2 ^ 64)%N with 18446744073709551616%N.
  rewrite N.mod_small by lia. rewrite Nat2N.inj_div. f_equal. lia.
Qed.
Lemma pow2_mask n : pow2 n → (N.of_nat n < 2 ^ 59)%N → N.land (usub (N.of_nat n) 1) (N.of_nat n) = 0%N.
Proof using.
  intros Hp Hs. pose proof (pow2_pos n Hp). change (2 ^ 59)%N with 576460752303423488%N in Hs. rewrite usub_small by (unfold UINT_MAX; lia). destruct Hp as [k ->]. rewrite N.land_comm, land_mask. apply N.Div0.mod_same.
Qed.
Lemma hm_filled m M b : hm_ok m M b → filled b = base.size M.
Proof using. intros [_ _ _ _ Hr]. by eapply rep_size. Qed.
Lemma hm_len m M b : hm_ok m M b → len m = N.of_nat (base.size M).
Proof using. intros Hm. unfold len. rewrite (hm_table _ _ _ Hm). cbn [raw Table.size]. by rewrite (hm_filled _ _ _ Hm). Qed.

Lemma resize_spec m M b n : hm_ok m M b → pow2 n → fits_memory size_k size_v n → filled b ≤ n →
  ∃ m' b', resize size_k size_v beq m (N.of_nat n) = Ok m' ∧ hm_ok m' M b' ∧ length b' = n ∧ minimum_capacity m' = minimum_capacity m.
Proof using Hhash.
  intros [Ht Hu Hlf Hgr Hrep] Hpn Hfit Hle. pose proof Hfit as (_ & _ & _ & Hsn). pose proof (us_good _ Hu) as Hg. unfold resize. rewrite Ht. cbn [raw Table.size capacity]. fold (raw b).
  destruct (N.leb_spec (N.of_nat (filled b)) (N.of_nat n)); [|lia]. cbn [assert_ mbind outcome_bind]. rewrite pow2_mask by done. cbn [N.eqb assert_ mbind outcome_bind].
  rewrite (table_new_spec size_k size_v n Hfit). cbn [mbind outcome_bind]. rewrite Nat2N.id. unfold move_iter. change 0%N with (N.of_nat 0).
  pose proof Hrep as [Hall Hperm]. assert (NoDup ((λ x : N * K * V, x.1.2) <$> elements b)) as Hnd.
  { pose proof (NoDup_fst_map_to_list M) as Hn. rewrite <- Hperm, <- list_fmap_compose in Hn. done. }
  destruct (resize_loop_spec hasher Hhash (elements b) b 0 (mkHashMap (grow_at (N.of_nat n) (load_factor m)) (minimum_capacity m) (raw (replicate n None)) (load_factor m)) (replicate n None) ∅ (S (length b)))
    as (it & b0 & c & -> & Hit & Hz & Huc & HLc & Hel); try done; [lia|by apply empty_usable|apply rep_empty|unfold filled; rewrite empty_elements, length_replicate; cbn; exact Hle|pose proof (filled_le b) as Hfl; unfold filled in Hfl; lia|].
  cbn [mbind outcome_bind]. rewrite Hit, (drop_spec b0 Hz). cbn [mbind outcome_bind with_table table]. rewrite empty_elements, app_nil_r in Hel. rewrite length_replicate in HLc.
  assert (filled c = filled b) as Hfc by (unfold filled; by rewrite Hel). cbn [raw Table.size]. rewrite Hfc, N.eqb_refl. cbn [assert_ mbind outcome_bind].
  eexists _, c. split; [done|]. split; [|done]. split; cbn; [done|done|done|rewrite Hlf, HLc; by apply grow_at_spec|by eapply rep_perm].
Qed.
(** [make_some_room] leaves the map as it is, with a free bucket for one more element. *)
Lemma make_some_room_spec m M b n B : hm_ok m M b → n ≤ S (filled b) → filled b ≤ S n → length b ≤ B → 3 * n + 2 ≤ B → fits_memory size_k size_v B →
  ∃ m' b', make_some_room size_k size_v beq m (N.of_nat n) = Ok m' ∧ hm_ok m' M b' ∧ length b' ≤ B ∧ (n = S (filled b) → filled b < length b').
Proof using Hhash.
  intros Hm Hn1 Hn2 HB Hb3 Hfit. pose proof Hm as [Ht Hu Hlf Hgr Hrep]. unfold make_some_room, shrink_at. rewrite Ht, Hgr. cbn [raw capacity]. fold (raw b). pose proof (filled_le b) as Hfl. pose proof (pow2_pos _ (us_pow _ Hu)) as HL.
  assert (∀ n, n ≤ B → fits_memory size_k size_v n) as Hfits. { intros n' Hn'. destruct Hfit as (H1 & H2 & H3 & H4). split_and!; [| | |lia]; (etransitivity; [apply N.mul_le_mono_r|eassumption]); lia. }
  pose proof Hfit as (_ & _ & _ & Hs). change (2 ^ 59)%N with 576460752303423488%N in Hs. rewrite !N.shiftr_div_pow2. change (2 ^ 2)%N with 4%N. change (2 ^ 1)%N with 2%N.
  destruct (N.leb_spec (N.of_nat (9 * length b / 10)) (N.of_nat n)) as [Hg|Hg].
  - assert (2 * length b ≤ B) as H2 by (pose proof (Nat.div_mod_eq (9 * length b) 10); pose proof (Nat.mod_upper_bound (9 * length b) 10); lia).
    assert (umul (N.of_nat (length b)) 2 = N.of_nat (2 * length b)) as -> by (unfold umul, UINT_BITS; change (2 ^ 64)%N with 18446744073709551616%N; rewrite N.mod_small; lia).
    destruct (resize_spec m M b (2 * length b) Hm) as (m' & b' & -> & Hm' & HL' & _); [|by apply Hfits|lia|exists m', b'; split_and!; [done..|lia|lia]].
    destruct (us_pow _ Hu) as [k Hk]. exists (N.succ k). rewrite N.pow_succ_r'. lia.
  - assert (9 * length b / 10 ≤ length b) by (apply Nat.Div0.div_le_upper_bound; lia). assert (filled b < length b ∨ n ≠ S (filled b)) as Hroom by lia.
    assert (∃ m' b', Ok m = Ok m' ∧ hm_ok m' M b' ∧ length b' ≤ B ∧ (n = S (filled b) → filled b < length b')) as Hstay by (exists m, b; split_and!; [done..|lia]).
    destruct (N.leb_spec (N.of_nat n) (N.of_nat (length b) / 4)) as [Hsh|_]; [|done]. destruct (minimum_capacity m <=? _)%N; [|done].
    assert (N.of_nat (length b) / 2 = N.of_nat (length b / 2))%N as -> by (by rewrite Nat2N.inj_div). assert (n ≤ length b / 4) as Hn4 by (rewrite <- (Nat2N.id (length b / 4)), Nat2N.inj_div; lia).
    assert (2 ≤ length b) as HL2. { destruct (decide (length b = 1)) as [E|]; [|lia]. rewrite E in Hg. change (9 * 1 / 10) with 0 in Hg. lia. }
    assert (length b / 4 + 1 ≤ length b / 2) as Hq. { pose proof (Nat.div_mod_eq (length b) 4). pose proof (Nat.mod_upper_bound (length b) 4). pose proof (Nat.div_mod_eq (length b) 2). pose proof (Nat.mod_upper_bound (length b) 2). lia. }
    assert (length b / 2 ≤ length b) by (apply Nat.Div0.div_le_upper_bound; lia).
    destruct (resize_spec m M b (length b / 2) Hm) as (m' & b' & -> & Hm' & HL' & _); [|apply Hfits; lia|lia|exists m', b'; split_and!; [done..|lia|lia]].
    destruct (us_pow _ Hu) as [k Hk]. exists (N.pred k). assert (k ≠ 0)%N as Hk0 by (intros ->; change (2 ^ 0)%N with 1%N in Hk; lia).
    rewrite Nat2N.inj_div, Hk. replace k with (N.succ (N.pred k)) at 1 by lia. rewrite N.pow_succ_r', N.mul_comm, N.div_mul by done. done.
Qed.

(** * Searching *)
(** The bucket of a key, if there is one. *)
Definition found m M b (k : K) (r : option FullIndex) : Prop :=
  match M !! k with
  | Some v => ∃ p, r = Some (mkFullIndex (N.of_nat p) (hash hasher k)) ∧ b !! p = Some (Some (hash hasher k, k, v))
  | None => r = None
  end.
Lemma search_equiv_spec {Q} (hash_q : Q → N) (equiv : Q → K → bool) m M b q k : hm_ok m M b → make_hash hash_q q = hash hasher k → (∀ k', equiv q k' = beq k k') →
  ∃ r, search_equiv hash_q equiv m q = Ok r ∧ found m M b k r.
Proof using.
  intros [Ht [Hpow Hg Hr _] _ _ Hrep] Hq Heq. unfold search_equiv, search_hashed_generic. rewrite Hq, Ht. cbn [raw Table.size]. fold (raw b). rewrite Nat2N.id. change 0%N with (N.of_nat 0).
  destruct (search_loop_spec b (hash hasher k) (equiv q) (filled b) Hpow Hg Hr 0) as (r & -> & Hres); [lia|lia|]. exists r. split; [done|]. unfold found. destruct (M !! k) as [v|] eqn:E.
  - destruct (rep_find hasher b M k v Hrep E) as [p Hp]. destruct r as [idx|].
    + destruct Hres as (p' & k' & v' & -> & Hp' & Hm). rewrite Heq in Hm. apply bool_decide_eq_true_1 in Hm as <-. exists p'. split; [done|].
      pose proof (rep_lookup hasher b M p' _ k v' Hrep Hp') as Hv. congruence.
    + specialize (Hres p k v Hp). rewrite Heq in Hres. by apply bool_decide_eq_false_1 in Hres.
  - destruct r as [idx|]; [|done]. destruct Hres as (p' & k' & v' & -> & Hp' & Hm). rewrite Heq in Hm. apply bool_decide_eq_true_1 in Hm as <-.
    by destruct (absent_rep hasher b M k p' (hash hasher k) v' Hrep E).
Qed.
Lemma search_spec m M b k : hm_ok m M b → ∃ r, search beq hasher m k = Ok r ∧ found m M b k r.
Proof using. intros Hm. exact (search_equiv_spec hasher beq m M b k k Hm eq_refl (λ _, eq_refl)). Qed.
Lemma value_at_spec m M b k r : hm_ok m M b → found m M b k r → value_at m r = Ok (M !! k).
Proof using.
  intros Hm. unfold found. destruct (M !! k) as [v|]; [intros (p & -> & Hp)|by intros ->]. cbn [value_at]. rewrite (hm_table _ _ _ Hm). by rewrite (read_spec b p _ _ k v Hp).
Qed.
Lemma find_spec m M b k : hm_ok m M b → HashMap.find beq hasher m k = Ok (M !! k).
Proof using. intros Hm. unfold HashMap.find. destruct (search_spec m M b k Hm) as (r & -> & Hr). cbn [mbind outcome_bind]. by eapply value_at_spec. Qed.
Lemma contains_key_spec m M b k : hm_ok m M b → contains_key beq hasher m k = Ok (is_some (M !! k)).
Proof using.
  intros Hm. unfold contains_key. destruct (search_spec m M b k Hm) as (r & -> & Hr). cbn [mbind outcome_bind]. unfold found in Hr. destruct (M !! k) as [v|]; [destruct Hr as (p & -> & _)|subst r]; done.
Qed.

(** * Changing *)
Lemma hm_set m M M' b b' : hm_ok m M b → length b' = length b → usable b' → rep hasher b' M' → hm_ok (with_table m (raw b')) M' b'.
Proof using. intros [_ _ Hlf Hg _] HL Hu Hr. split; cbn; [done..|by rewrite HL|done]. Qed.
Lemma set_found m M b k p v v' : hm_ok m M b → b !! p = Some (Some (hash hasher k, k, v)) →
  set_val (raw b) (mkFullIndex (N.of_nat p) (hash hasher k)) v' = Ok (raw (<[p := Some (hash hasher k, k, v')]> b)) ∧
  hm_ok (with_table m (raw (<[p := Some (hash hasher k, k, v')]> b))) (<[k := v']> M) (<[p := Some (hash hasher k, k, v')]> b).
Proof using.
  intros Hm Hp. split; [by eapply set_val_spec|]. eapply hm_set; [done|by rewrite length_insert|eapply usable_update; [by destruct Hm|done]|eapply rep_update; [by destruct Hm|done]].
Qed.
Lemma find_mut_spec m M b k f : hm_ok m M b →
  ∃ m' b', find_mut beq hasher m k f = Ok (f <$> M !! k, m') ∧ hm_ok m' (alter f k M) b' ∧ length b' = length b.
Proof using.
  intros Hm. unfold find_mut. destruct (search_spec m M b k Hm) as (r & -> & Hr). cbn [mbind outcome_bind]. unfold found in Hr. destruct (M !! k) as [v|] eqn:E.
  - destruct Hr as (p & -> & Hp). rewrite (hm_table _ _ _ Hm), (read_spec b p _ _ k v Hp). cbn [mbind outcome_bind]. destruct (set_found m M b k p v (f v) Hm Hp) as [-> Hm']. cbn [mbind outcome_bind].
    eexists _, _. split; [done|]. split; [|by rewrite length_insert]. replace (alter f k M) with (<[k := f v]> M); [done|]. apply map_eq. intros i. destruct (decide (i = k)) as [->|]; [by rewrite lookup_insert_eq, lookup_alter_eq, E|by rewrite lookup_insert_ne, lookup_alter_ne].
  - subst r. exists m, b. split; [done|]. split; [|done]. replace (alter f k M) with M; [done|]. apply map_eq. intros i. destruct (decide (i = k)) as [->|]; [by rewrite lookup_alter_eq, E|by rewrite lookup_alter_ne].
Qed.
(** Memory for a map of [n] entries, in [B] buckets at most. *)
Definition roomy (n B : nat) b : Prop := length b ≤ B ∧ 3 * n + 5 ≤ B ∧ fits_memory size_k size_v B.
Lemma hm_swap_spec m M b k v B : hm_ok m M b → roomy (base.size M) B b →
  ∃ m' b', swap size_k size_v beq hasher m k v = Ok (M !! k, m') ∧ hm_ok m' (<[k := v]> M) b' ∧ length b' ≤ B.
Proof using Hhash.
  intros Hm (HB & HB3 & Hfit). unfold swap. pose proof (hm_filled _ _ _ Hm) as Hfl. rewrite (hm_table _ _ _ Hm). cbn [raw Table.size]. pose proof (filled_le b) as Hle. pose proof Hfit as (_ & _ & _ & Hs).
  change (2 ^ 59)%N with 576460752303423488%N in Hs. rewrite uadd_small by (unfold UINT_MAX; lia). replace (N.of_nat (filled b) + 1)%N with (N.of_nat (S (filled b))) by lia.
  destruct (make_some_room_spec m M b (S (filled b)) B Hm) as (m1 & b1 & -> & Hm1 & HB1 & Hhole); [lia|lia|done|lia|done|]. cbn [mbind outcome_bind]. specialize (Hhole eq_refl).
  pose proof (hm_filled _ _ _ Hm1) as Hfl1. destruct (filled_hole b1) as [e He]; [lia|]. pose proof Hm1 as [Ht1 Hu1 _ _ Hrep1]. pose proof Hu1 as [Hpow Hg Hr _]. rewrite Ht1. cbn [raw Table.size]. fold (raw b1). rewrite Nat2N.id. change 0%N with (N.of_nat 0).
  destruct (swap_loop_spec b1 (hash hasher k) k v e (S (filled b1)) Hpow Hg Hr He (hash_bound hasher Hhash k) 0) as [(p & v0 & Hp & Hsw)|(Habs & b2 & Hsw & Hins)];
    [lia|split; [intros i Hi|intros i v' Hi]; lia| |]; unfold hash in Hsw; rewrite Hsw; cbn [mbind outcome_bind].
  - rewrite (rep_lookup hasher b1 M p _ k v0 Hrep1 Hp). destruct (set_found m1 M b1 k p v0 v Hm1 Hp) as [_ Hm2]. eexists _, _. split; [done|]. split; [done|]. by rewrite length_insert.
  - rewrite (rep_absent hasher b1 M k Hrep1 Habs). pose proof Hins as [HL _ _ _ Hel]. exists (with_table m1 (raw b2)), b2. split; [done|]. split; [|by rewrite HL].
    eapply hm_set; [done|done|by eapply inserted_usable|]. eapply rep_new; [done|by eapply rep_absent|done].
Qed.
Lemma pop_with_spec m M b k B find : hm_ok m M b → roomy (base.size M) B b → (∀ m b, hm_ok m M b → ∃ r, find m = Ok r ∧ found m M b k r) →
  ∃ m' b', pop_with size_k size_v beq m find = Ok (M !! k, m') ∧ hm_ok m' (delete k M) b' ∧ length b' ≤ B.
Proof using Hhash.
  intros Hm (HB & HB3 & Hfit) Hfind. unfold pop_with. pose proof (hm_filled _ _ _ Hm) as Hfl. rewrite (hm_table _ _ _ Hm). cbn [raw Table.size]. pose proof (filled_le b) as Hle. pose proof Hfit as (_ & _ & _ & Hs).
  change (2 ^ 59)%N with 576460752303423488%N in Hs. destruct (N.eqb_spec (N.of_nat (filled b)) 0) as [Ez|Ez].
  - assert (M = ∅) as -> by (apply map_size_empty_inv; lia). rewrite lookup_empty, delete_empty. by exists m, b.
  - rewrite usub_small by (unfold UINT_MAX; lia). replace (N.of_nat (filled b) - 1)%N with (N.of_nat (filled b - 1)) by lia.
    destruct (make_some_room_spec m M b (filled b - 1) B Hm) as (m1 & b1 & -> & Hm1 & HB1 & _); [lia|lia|done|lia|done|]. cbn [mbind outcome_bind].
    destruct (Hfind m1 b1 Hm1) as (r & -> & Hr). cbn [mbind outcome_bind]. unfold found in Hr. destruct (M !! k) as [v|] eqn:E; [|subst r; rewrite (delete_id M k E); by exists m1, b1].
    destruct Hr as (p & -> & Hp). pose proof Hm1 as [Ht1 Hu1 _ _ Hrep1]. pose proof Hu1 as [Hpow Hg Hr Ha].
    destruct (pop_internal_spec m1 b1 p _ k v Hpow Hg Hr Ha Ht1 Hp) as (b2 & -> & Hrem). exists (with_table m1 (raw b2)), b2. split; [done|]. pose proof Hrem as [HL _ _ _ Hel]. split; [|by rewrite HL].
    eapply hm_set; [done|done|by eapply removed_usable|by eapply rep_delete].
Qed.
Lemma hm_pop_spec m M b k B : hm_ok m M b → roomy (base.size M) B b →
  ∃ m' b', pop size_k size_v beq hasher m k = Ok (M !! k, m') ∧ hm_ok m' (delete k M) b' ∧ length b' ≤ B.
Proof using Hhash. intros Hm HB. eapply pop_with_spec; [done..|]. intros. by apply search_spec. Qed.
Lemma pop_equiv_spec {Q} (hash_q : Q → N) (equiv : Q → K → bool) m M b q k B : hm_ok m M b → roomy (base.size M) B b → make_hash hash_q q = hash hasher k → (∀ k', equiv q k' = beq k k') →
  ∃ m' b', pop_equiv size_k size_v beq hash_q equiv m q = Ok (M !! k, m') ∧ hm_ok m' (delete k M) b' ∧ length b' ≤ B.
Proof using Hhash. intros Hm HB Hq He. eapply pop_with_spec; [done..|]. intros. by apply search_equiv_spec. Qed.
Lemma find_equiv_spec {Q} (hash_q : Q → N) (equiv : Q → K → bool) m M b q k : hm_ok m M b → make_hash hash_q q = hash hasher k → (∀ k', equiv q k' = beq k k') →
  find_equiv hash_q equiv m q = Ok (M !! k).
Proof using. intros Hm Hq He. unfold find_equiv. destruct (search_equiv_spec hash_q equiv m M b q k Hm Hq He) as (r & -> & Hr). cbn [mbind outcome_bind]. by eapply value_at_spec. Qed.

Lemma clear_loop b : good b → ∀ n i, i + n ≤ length b → elements (firstn i b) = [] →
  ∃ b', Slice.for_range n i (λ i t, take_if_full t (N.of_nat i)) (raw b) = Ok (raw b') ∧ length b' = length b ∧ good b' ∧ elements (firstn (i + n) b') = [].
Proof using.
  intros Hg n. revert b Hg. induction n as [|n IH]; intros b Hg i Hi He; cbn [Slice.for_range]; [exists b; by rewrite Nat.add_0_r|].
  destruct (lookup_lt_is_Some_2 b i ltac:(lia)) as [c Hc]. rewrite (take_if_full_spec b i c Hg Hc). cbn [mbind outcome_bind].
  destruct (IH (<[i := None]> b) (good_none b i Hg) (S i)) as (b' & -> & HL & Hg' & He'); [rewrite length_insert; lia| |exists b'; rewrite length_insert in HL; by rewrite Nat.add_succ_r].
  rewrite (take_S_r _ _ None), elements_app, take_insert_ge, He by (done || by apply list_lookup_insert_eq; lia). done.
Qed.
Lemma no_elements b : elements b = [] → b = replicate (length b) None.
Proof using. induction b as [|[x|] b IH]; [done|done|]. intros Hb. cbn. f_equal. by apply IH. Qed.
Lemma hm_clear_spec m M b : hm_ok m M b → ∃ m' b', clear m = Ok m' ∧ hm_ok m' ∅ b' ∧ length b' = length b.
Proof using.
  intros Hm. pose proof Hm as [Ht [Hpow Hg _ _] Hlf Hgr Hrep]. unfold clear. rewrite Ht. cbn [raw capacity]. fold (raw b). rewrite Nat2N.id.
  destruct (clear_loop b Hg (length b) 0) as (b' & -> & HL & Hg' & He); [lia|done|]. cbn [mbind outcome_bind]. rewrite Nat.add_0_l, firstn_all2 in He by lia. pose proof (no_elements b' He) as Hb. rewrite HL in Hb.
  eexists _, b'. split; [done|]. split; [|done]. split; cbn; [done| |done|by rewrite HL|rewrite Hb; apply rep_empty]. rewrite Hb. apply empty_usable; [done|]. by destruct Hg.
Qed.

(** * Inserting where there was nothing *)
Lemma manual_insert_spec m M b k v B : hm_ok m M b → roomy (base.size M) B b → M !! k = None →
  ∃ m' b', deref (manual_insert size_k size_v beq hasher m k v) = Ok (v, m') ∧ hm_ok m' (<[k := v]> M) b' ∧ length b' ≤ B.
Proof using Hhash.
  intros Hm (HB & HB3 & Hfit) Hk. unfold manual_insert, manual_insert_hashed. pose proof (hm_filled _ _ _ Hm) as Hfl. rewrite (hm_table _ _ _ Hm). cbn [raw Table.size]. pose proof (filled_le b) as Hle. pose proof Hfit as (_ & _ & _ & Hs).
  change (2 ^ 59)%N with 576460752303423488%N in Hs. rewrite uadd_small by (unfold UINT_MAX; lia). replace (N.of_nat (filled b) + 1)%N with (N.of_nat (S (filled b))) by lia.
  destruct (make_some_room_spec m M b (S (filled b)) B Hm) as (m1 & b1 & -> & Hm1 & HB1 & Hhole); [lia|lia|done|lia|done|]. cbn [mbind outcome_bind]. specialize (Hhole eq_refl).
  pose proof (hm_filled _ _ _ Hm1) as Hfl1. destruct (filled_hole b1) as [e He]; [lia|]. pose proof Hm1 as [Ht1 Hu1 _ _ Hrep1].
  destruct (nocheck_spec m1 b1 (hash hasher k) k v e Hu1 Ht1 He (hash_bound hasher Hhash k)) as (b2 & p & Hi & Hp & Hins); [intros; by eapply absent_rep|]. unfold hash in Hi. rewrite Hi. cbn [deref mbind outcome_bind with_table table].
  rewrite (read_spec b2 p _ _ k v Hp). cbn [mbind outcome_bind]. pose proof Hins as [HL _ _ _ Hel]. exists (with_table m1 (raw b2)), b2. split; [done|]. split; [|by rewrite HL].
  eapply hm_set; [done|done|by eapply inserted_usable|by eapply rep_new].
Qed.
Lemma deref_found m M b k p v : hm_ok m M b → b !! p = Some (Some (hash hasher k, k, v)) → deref (Ok (mkFullIndex (N.of_nat p) (hash hasher k), m)) = Ok (v, m).
Proof using. intros Hm Hp. unfold deref. cbn [mbind outcome_bind]. by rewrite (hm_table _ _ _ Hm), (read_spec b p _ _ k v Hp). Qed.
Lemma find_or_insert_with_spec m M b k f B : hm_ok m M b → roomy (base.size M) B b →
  ∃ m' b', find_or_insert_with size_k size_v beq hasher m k f = Ok (default (f k) (M !! k), m') ∧ hm_ok m' (<[k := default (f k) (M !! k)]> M) b' ∧ length b' ≤ B.
Proof using Hhash.
  intros Hm HB. unfold find_or_insert_with. destruct (search_spec m M b k Hm) as (r & -> & Hr). cbn [mbind outcome_bind]. unfold found in Hr. destruct (M !! k) as [v|] eqn:E.
  - destruct Hr as (p & -> & Hp). cbn [default]. rewrite (deref_found m M b k p v Hm Hp). exists m, b. rewrite insert_id by done. split_and!; [done|done|]. by destruct HB.
  - subst r. cbn [default]. by eapply manual_insert_spec.
Qed.
Lemma insert_or_update_with_spec m M b k v f B : hm_ok m M b → roomy (base.size M) B b →
  let r := match M !! k with Some old => f k old | None => v end in
  ∃ m' b', insert_or_update_with size_k size_v beq hasher m k v f = Ok (r, m') ∧ hm_ok m' (<[k := r]> M) b' ∧ length b' ≤ B.
Proof using Hhash.
  intros Hm HB. cbv zeta. unfold insert_or_update_with. destruct (search_spec m M b k Hm) as (r & -> & Hr). cbn [mbind outcome_bind]. unfold found in Hr. destruct (M !! k) as [old|] eqn:E.
  - destruct Hr as (p & -> & Hp). rewrite (hm_table _ _ _ Hm), (read_spec b p _ _ k old Hp). cbn [mbind outcome_bind]. destruct (set_found m M b k p old (f k old) Hm Hp) as [-> Hm']. cbn [mbind outcome_bind].
    erewrite deref_found; [|exact Hm'|by apply list_lookup_insert_eq; eapply lookup_lt_Some]. eexists _, _. split; [done|]. split; [done|]. rewrite length_insert. by destruct HB.
  - subst r. by eapply manual_insert_spec.
Qed.

(** * Capacities *)
Lemma fits_less n n' : n ≤ n' → fits_memory size_k size_v n' → fits_memory size_k size_v n.
Proof using. intros Hn (H1 & H2 & H3 & H4). split_and!; [| | |lia]; (etransitivity; [apply N.mul_le_mono_r|eassumption]); lia. Qed.
(** The capacity that is made for [n]. *)
Lemma rounded_spec n B : 2 * (32 + n) ≤ B → fits_memory size_k size_v B →
  ∃ c, RingBuf.next_power_of_two (N.max INITIAL_CAPACITY (N.of_nat n)) = N.of_nat c ∧ pow2 c ∧ n ≤ c ∧ c ≤ B ∧ fits_memory size_k size_v c.
Proof using.
  intros Hn Hfit. pose proof Hfit as (_ & _ & _ & Hs). change (2 ^ 59)%N with 576460752303423488%N in Hs. unfold INITIAL_CAPACITY.
  destruct (next_power_of_two_correct (N.max 32 (N.of_nat n))) as (k & -> & Hk); [change (2 ^ 62)%N with 4611686018427387904%N; lia|].
  exists (N.to_nat (2 ^ k)). rewrite N2Nat.id. split_and!; [done|exists k; by rewrite N2Nat.id|lia|lia|]. eapply fits_less; [|exact Hfit]. lia.
Qed.
Lemma hm_with_capacity_spec n B : 2 * (32 + n) ≤ B → fits_memory size_k size_v B →
  ∃ m b, with_capacity_and_hasher size_k size_v (N.of_nat n) = Ok m ∧ hm_ok m ∅ b ∧ length b ≤ B.
Proof using.
  intros Hn Hfit. destruct (rounded_spec n B Hn Hfit) as (c & Hc & Hp & _ & HcB & Hfc). unfold with_capacity_and_hasher. rewrite Hc, (table_new_spec size_k size_v c Hfc). cbn [mbind outcome_bind].
  pose proof Hfc as (_ & _ & _ & Hs). eexists _, (replicate c None). split; [done|]. rewrite length_replicate. split; [|done]. split; cbn; [done|by apply empty_usable|done|rewrite length_replicate; by apply grow_at_spec|apply rep_empty].
Qed.
Lemma reserve_spec m M b n B : hm_ok m M b → length b ≤ B → 2 * (32 + n) ≤ B → fits_memory size_k size_v B →
  ∃ m' b', reserve size_k size_v beq m (N.of_nat n) = Ok m' ∧ hm_ok m' M b' ∧ length b' ≤ B.
Proof using Hhash.
  intros Hm HB Hn Hfit. destruct (rounded_spec n B Hn Hfit) as (c & Hc & Hp & _ & HcB & Hfc). unfold reserve. rewrite Hc. cbn [table]. rewrite (hm_table _ _ _ Hm). cbn [raw capacity]. fold (raw b).
  set (m1 := mkHashMap (grow_at_ m) (N.of_nat c) (raw b) (load_factor m)). assert (hm_ok m1 M b) as Hm1 by (destruct Hm; by split).
  destruct (N.ltb_spec (N.of_nat (length b)) (N.of_nat c)); [|by exists m1, b]. pose proof (filled_le b).
  destruct (resize_spec m1 M b c Hm1 Hp Hfc) as (m' & b' & -> & Hm' & HL & _); [lia|]. exists m', b'. split_and!; [done..|lia].
Qed.

(** * Iterating *)
Lemma entries_next_spec b i : good b → i ≤ length b →
  match elements (skipn i b) with
  | [] => ∃ it, Entries_next (mkEntries (raw b) (N.of_nat i)) = Ok (None, it)
  | x :: l => ∃ i', Entries_next (mkEntries (raw b) (N.of_nat i)) = Ok (Some (kv x), mkEntries (raw b) (N.of_nat i')) ∧ i' ≤ length b ∧ elements (skipn i' b) = l
  end.
Proof using.
  intros Hg Hi. unfold Entries_next, scan_fuel. cbn [e_table e_idx raw capacity]. fold (raw b).
  destruct (scan_spec b (S (N.to_nat (N.of_nat (length b) - N.of_nat i))) Hg i Hi) as [[-> ->]|(p & h & k & v & Hp & Hb & -> & ->)]; [lia| |]; cbn [mbind outcome_bind e_table]; [by eexists|].
  rewrite (read_spec b p h h k v Hb). cbn [mbind outcome_bind]. exists (S p). split_and!; [done|by eapply lookup_lt_Some|done].
Qed.
Lemma all_loop_spec b f g l : good b → (∀ x, x ∈ l → f (kv x) = Ok (g (kv x))) → ∀ i fuel, i ≤ length b → elements (skipn i b) = l → length l < fuel →
  all_loop fuel (mkEntries (raw b) (N.of_nat i)) f = Ok (forallb g (kv <$> l)).
Proof using.
  intros Hg. induction l as [|x l IH]; intros Hf i [|fuel] Hi Hl Hfu; try (cbn in Hfu; lia); cbn [all_loop]; pose proof (entries_next_spec b i Hg Hi) as Hn; rewrite Hl in Hn.
  - destruct Hn as (it & ->). done.
  - destruct Hn as (i' & -> & Hi' & Hl'). cbn [mbind outcome_bind]. rewrite Hf by left. cbn [mbind outcome_bind fmap list_fmap forallb]. destruct (g (kv x)); cbn [andb]; [|done].
    apply IH; [intros y Hy; apply Hf; by right|done|done|cbn in Hfu; lia].
Qed.
Lemma all_entries_spec m M b f g : hm_ok m M b → (∀ k v, M !! k = Some v → f (k, v) = Ok (g (k, v))) → all_entries m f = Ok (forallb g (map_to_list M)).
Proof using.
  intros Hm Hf. pose proof Hm as [Ht [_ Hg _ _] _ _ [Hall Hp]]. unfold all_entries, iter. rewrite Ht. cbn [raw capacity]. fold (raw b). rewrite Nat2N.id. change 0%N with (N.of_nat 0). pose proof (filled_le b) as Hfl.
  assert (∀ x, x ∈ elements b → f (kv x) = Ok (g (kv x))) as Hfg. { intros [[h k] v] Hx. apply Hf, elem_of_map_to_list. rewrite <- Hp. apply list_elem_of_fmap. by exists (h, k, v). }
  rewrite (all_loop_spec b f g (elements b) Hg Hfg 0) by (done || unfold filled in Hfl; lia).
  f_equal. apply eq_true_iff_eq. rewrite !forallb_forall. split; intros Ha x Hx; apply Ha; apply list_elem_of_In; apply list_elem_of_In in Hx; by rewrite Hp in *.
Qed.
Lemma collect_loop_spec b l : good b → ∀ i fuel, i ≤ length b → elements (skipn i b) = l → length l < fuel → collect_loop fuel (mkEntries (raw b) (N.of_nat i)) = Ok (kv <$> l).
Proof using.
  intros Hg. induction l as [|x l IH]; intros i [|fuel] Hi Hl Hfu; try (cbn in Hfu; lia); cbn [collect_loop]; pose proof (entries_next_spec b i Hg Hi) as Hn; rewrite Hl in Hn.
  - destruct Hn as (it & ->). done.
  - destruct Hn as (i' & -> & Hi' & Hl'). cbn [mbind outcome_bind]. by rewrite IH by (done || cbn in Hfu; lia).
Qed.
Lemma entries_spec m M b : hm_ok m M b → ∃ l, entries m = Ok l ∧ l ≡ₚ map_to_list M.
Proof using.
  intros Hm. pose proof Hm as [Ht [_ Hg _ _] _ _ [_ Hp]]. unfold entries, iter. rewrite Ht. cbn [raw capacity]. fold (raw b). rewrite Nat2N.id. change 0%N with (N.of_nat 0). pose proof (filled_le b) as Hfl.
  exists (kv <$> elements b). split; [|done]. apply collect_loop_spec; [done|lia|done|unfold filled in Hfl; lia].
Qed.
Lemma map_eq_spec `{EqDecision V} m M b m2 M2 b2 : hm_ok m M b → hm_ok m2 M2 b2 → HashMap.eq beq hasher beq m m2 = Ok (bool_decide (M = M2)).
Proof using.
  intros Hm Hm2. unfold HashMap.eq. rewrite (hm_len _ _ _ Hm), (hm_len _ _ _ Hm2). destruct (N.eqb_spec (N.of_nat (base.size M)) (N.of_nat (base.size M2))) as [E|E]; cbn [negb].
  - rewrite (all_entries_spec m M b _ (λ x, match M2 !! x.1 with None => false | Some v => beq x.2 v end) Hm) by (intros k v _; cbn; by rewrite (find_spec m2 M2 b2 k Hm2)). f_equal.
    apply eq_true_iff_eq. rewrite forallb_forall, bool_decide_eq_true. split; [intros Ha|intros <- [k v] Hx%list_elem_of_In%elem_of_map_to_list; cbn; rewrite Hx; by apply bool_decide_eq_true_2].
    assert (M ⊆ M2) as Hsub. { apply map_subseteq_spec. intros k v Hk. specialize (Ha (k, v) ltac:(by apply list_elem_of_In, elem_of_map_to_list)). cbn in Ha. destruct (M2 !! k) as [v'|]; [|done]. by apply bool_decide_eq_true_1 in Ha as ->. }
    apply map_subseteq_size_eq; [done|lia].
  - rewrite bool_decide_eq_false_2 by (intros ->; done). done.
Qed.
End Ops.

(** * Sequences of operations *)
Inductive map_op (K V : Type) : Type :=
| Swap (k : K) (v : V) | Insert (k : K) (v : V) | Pop (k : K) | Remove (k : K) | Find (k : K) | ContainsKey (k : K) | Update (k : K) (f : V → V)
| FindOrInsertWith (k : K) (f : K → V) | InsertOrUpdateWith (k : K) (v : V) (f : K → V → V) | Clear | Len | Reserve (n : nat) | Extend (l : list (K * V)).
Arguments Swap {K V}. Arguments Insert {K V}. Arguments Pop {K V}. Arguments Remove {K V}. Arguments Find {K V}. Arguments ContainsKey {K V}. Arguments Update {K V}.
Arguments FindOrInsertWith {K V}. Arguments InsertOrUpdateWith {K V}. Arguments Clear {K V}. Arguments Len {K V}. Arguments Reserve {K V}. Arguments Extend {K V}.
Inductive map_answer (V : Type) : Type := Done | Val (v : option V) | Flag (f : bool) | Num (n : N).
Arguments Done {V}. Arguments Val {V}. Arguments Flag {V}. Arguments Num {V}.

Section Sequences.
Context {K V : Type} `{Countable K} (size_k size_v : N) (hasher : K → N).
Implicit Types m : HashMap K V.
Implicit Types M : gmap K V.

Definition map_step m (o : map_op K V) : outcome (map_answer V * HashMap K V) :=
  match o with
  | Swap k v => '(r, m) ← swap size_k size_v beq hasher m k v; Ok (Val r, m)
  | Insert k v => '(r, m) ← insert size_k size_v beq hasher m k v; Ok (Flag r, m)
  | Pop k => '(r, m) ← pop size_k size_v beq hasher m k; Ok (Val r, m)
  | Remove k => '(r, m) ← remove size_k size_v beq hasher m k; Ok (Flag r, m)
  | Find k => r ← HashMap.find beq hasher m k; Ok (Val r, m)
  | ContainsKey k => r ← contains_key beq hasher m k; Ok (Flag r, m)
  | Update k f => '(r, m) ← find_mut beq hasher m k f; Ok (Val r, m)
  | FindOrInsertWith k f => '(r, m) ← find_or_insert_with size_k size_v beq hasher m k f; Ok (Val (Some r), m)
  | InsertOrUpdateWith k v f => '(r, m) ← insert_or_update_with size_k size_v beq hasher m k v f; Ok (Val (Some r), m)
  | Clear => m ← clear m; Ok (Done, m)
  | Len => Ok (Num (len m), m)
  | Reserve n => m ← reserve size_k size_v beq m (N.of_nat n); Ok (Done, m)
  | Extend l => m ← extend size_k size_v beq hasher m l; Ok (Done, m)
  end.
Fixpoint map_steps m (os : list (map_op K V)) : outcome (list (map_answer V) * HashMap K V) :=
  match os with [] => Ok ([], m) | o :: os => '(a, m) ← map_step m o; '(al, m) ← map_steps m os; Ok (a :: al, m) end.
(** The same on finite maps. *)
Definition spec_step M (o : map_op K V) : map_answer V * gmap K V :=
  match o with
  | Swap k v => (Val (M !! k), <[k := v]> M)
  | Insert k v => (Flag (negb (is_some (M !! k))), <[k := v]> M)
  | Pop k => (Val (M !! k), delete k M)
  | Remove k => (Flag (is_some (M !! k)), delete k M)
  | Find k => (Val (M !! k), M)
  | ContainsKey k => (Flag (is_some (M !! k)), M)
  | Update k f => (Val (f <$> M !! k), alter f k M)
  | FindOrInsertWith k f => let v := default (f k) (M !! k) in (Val (Some v), <[k := v]> M)
  | InsertOrUpdateWith k v f => let v := match M !! k with Some old => f k old | None => v end in (Val (Some v), <[k := v]> M)
  | Clear => (Done, ∅)
  | Len => (Num (N.of_nat (base.size M)), M)
  | Reserve _ => (Done, M)
  | Extend l => (Done, foldl (λ M x, <[x.1 := x.2]> M) M l)
  end.
Fixpoint spec_steps M (os : list (map_op K V)) : list (map_answer V) * gmap K V :=
  match os with [] => ([], M) | o :: os => let '(a, M) := spec_step M o in let '(al, M) := spec_steps M os in (a :: al, M) end.
(** How many entries, or free buckets, operations ask for. *)
Definition asked (o : map_op K V) : nat := match o with Reserve n => n | Extend l => length l | _ => 1 end.
Definition all_asked (os : list (map_op K V)) : nat := sum_list_with asked os.

Section Correct.
Context (Hhash : ∀ k, (hasher k < 2 ^ 64)%N).
Definition limit (n : nat) : nat := 4 * (32 + n).
(** The state of a run that has asked for at most [n] entries. *)
Definition going m M (n : nat) : Prop := ∃ b, hm_ok hasher m M b ∧ length b ≤ limit n.

Lemma size_insert_le M k v : base.size (<[k := v]> M) ≤ S (base.size M).
Proof using. rewrite map_size_insert. destruct (M !! k); cbn; lia. Qed.
Lemma hm_extend_spec l : ∀ m M n, fits_memory size_k size_v (limit n) → going m M n → base.size M + length l ≤ n →
  ∃ m', extend size_k size_v beq hasher m l = Ok m' ∧ going m' (foldl (λ M x, <[x.1 := x.2]> M) M l) n ∧ base.size (foldl (λ M x, <[x.1 := x.2]> M) M l) ≤ base.size M + length l.
Proof using Hhash.
  induction l as [|[k v] l IH]; intros m M n Hfit (b & Hm & HB) Hn; cbn [extend foldl length] in *; [exists m; split_and!; [done|by exists b|lia]|].
  destruct (hm_swap_spec size_k size_v hasher Hhash m M b k v (limit n) Hm) as (m1 & b1 & Hsw & Hm1 & HB1); [unfold roomy, limit in *; split_and!; [done|lia|done]|]. unfold insert. rewrite Hsw. cbn [mbind outcome_bind fst snd].
  pose proof (size_insert_le M k v). destruct (IH m1 (<[k := v]> M) n Hfit) as (m' & -> & Hg & Hs); [by exists b1|lia|]. exists m'. split_and!; [done|done|lia].
Qed.
Lemma map_step_ok m M n o : fits_memory size_k size_v (limit n) → going m M n → base.size M + asked o ≤ n →
  ∃ m', map_step m o = Ok ((spec_step M o).1, m') ∧ going m' (spec_step M o).2 n ∧ base.size (spec_step M o).2 ≤ base.size M + asked o.
Proof using Hhash.
  intros Hfit Hgo Hn. pose proof Hgo as (b & Hm & HB). assert (roomy size_k size_v (base.size M) (limit n) b) as Hroom by (unfold roomy, limit in *; split_and!; [done|lia|done]).
  destruct o as [k v|k v|k|k|k|k|k f|k f|k v f| | |c|l]; cbn [map_step spec_step fst snd asked] in *.
  - destruct (hm_swap_spec size_k size_v hasher Hhash m M b k v _ Hm Hroom) as (m' & b' & -> & Hm' & HB'). exists m'. split_and!; [done|by exists b'|pose proof (size_insert_le M k v); lia].
  - destruct (hm_swap_spec size_k size_v hasher Hhash m M b k v _ Hm Hroom) as (m' & b' & Hsw & Hm' & HB'). unfold insert. rewrite Hsw. exists m'. split_and!; [done|by exists b'|pose proof (size_insert_le M k v); lia].
  - destruct (hm_pop_spec size_k size_v hasher Hhash m M b k _ Hm Hroom) as (m' & b' & -> & Hm' & HB'). exists m'. split_and!; [done|by exists b'|rewrite map_size_delete; destruct (M !! k); cbn; lia].
  - destruct (hm_pop_spec size_k size_v hasher Hhash m M b k _ Hm Hroom) as (m' & b' & Hpo & Hm' & HB'). unfold remove. rewrite Hpo. exists m'. split_and!; [done|by exists b'|rewrite map_size_delete; destruct (M !! k); cbn; lia].
  - rewrite (find_spec hasher m M b k Hm). exists m. split_and!; [done|done|lia].
  - rewrite (contains_key_spec hasher m M b k Hm). exists m. split_and!; [done|done|lia].
  - destruct (find_mut_spec hasher m M b k f Hm) as (m' & b' & -> & Hm' & HL). exists m'. split_and!; [done|exists b'; split; [done|lia]|]. rewrite <- !(size_dom (D := gset K)), dom_alter_L. lia.
  - destruct (find_or_insert_with_spec size_k size_v hasher Hhash m M b k f _ Hm Hroom) as (m' & b' & -> & Hm' & HB'). exists m'. split_and!; [done|by exists b'|pose proof (size_insert_le M k (default (f k) (M !! k))); lia].
  - destruct (insert_or_update_with_spec size_k size_v hasher Hhash m M b k v f _ Hm Hroom) as (m' & b' & -> & Hm' & HB'). exists m'. split_and!; [done|by exists b'|]. pose proof (size_insert_le M k (match M !! k with Some old => f k old | None => v end)). lia.
  - destruct (hm_clear_spec hasher m M b Hm) as (m' & b' & -> & Hm' & HL). exists m'. split_and!; [done|exists b'; split; [done|lia]|rewrite map_size_empty; lia].
  - rewrite (hm_len hasher m M b Hm). exists m. split_and!; [done|done|lia].
  - destruct (reserve_spec size_k size_v hasher Hhash m M b c (limit n) Hm HB) as (m' & b' & -> & Hm' & HB'); [unfold limit; lia|done|]. exists m'. split_and!; [done|by exists b'|lia].
  - destruct (hm_extend_spec l m M n Hfit Hgo Hn) as (m' & -> & Hg & Hs). by exists m'.
Qed.
Lemma map_steps_ok os : ∀ m M n, fits_memory size_k size_v (limit n) → going m M n → base.size M + all_asked os ≤ n →
  ∃ m', map_steps m os = Ok ((spec_steps M os).1, m') ∧ going m' (spec_steps M os).2 n.
Proof using Hhash.
  induction os as [|o os IH]; intros m M n Hfit Hgo Hn; unfold all_asked in *; cbn [map_steps spec_steps sum_list_with] in *; [by exists m|].
  destruct (map_step_ok m M n o Hfit Hgo ltac:(lia)) as (m1 & -> & Hg1 & Hs1). cbn [mbind outcome_bind]. destruct (spec_step M o) as [a M1]. cbn [fst snd] in *.
  destruct (IH m1 M1 n Hfit Hg1) as (m' & -> & Hg'); [lia|]. cbn [mbind outcome_bind]. destruct (spec_steps M1 os) as [al M']. by exists m'.
Qed.
End Correct.
End Sequences.

(** C17. A hash map is a finite map, whatever the hash function: made with any
    capacity that fits, it answers every sequence of operations (swapping,
    inserting, popping, removing, finding, updating in place, finding or
    inserting, clearing, reserving, extending) as the finite map does, through
    every growth and shrinking; no probe leaves the table, no bucket is read
    that is not full, no internal failure occurs and all loops end.  At the end
    the elements are in the order of Robin Hood probing, each key is found, and
    iterating gives every entry once. *)
Theorem hashmap_refines {K V} `{Countable K} (size_k size_v : N) (hasher : K → N) (c : nat) (os : list (map_op K V)) :
  (∀ k, (hasher k < 2 ^ 64)%N) → fits_memory size_k size_v (limit (c + all_asked os)) →
  ∃ m0 m b, with_capacity_and_hasher size_k size_v (N.of_nat c) = Ok m0 ∧
    map_steps size_k size_v hasher m0 os = Ok ((spec_steps ∅ os).1, m) ∧
    table m = raw b ∧ robin b ∧
    (∀ k, HashMap.find beq hasher m k = Ok ((spec_steps ∅ os).2 !! k)) ∧
    ∃ l, entries m = Ok l ∧ l ≡ₚ map_to_list (spec_steps ∅ os).2.
Proof.
  intros Hhash Hfit. destruct (hm_with_capacity_spec (V := V) size_k size_v hasher c (limit (c + all_asked os))) as (m0 & b0 & Hm0 & Hok0 & HB0); [unfold limit; lia|done|].
  destruct (map_steps_ok size_k size_v hasher Hhash os m0 ∅ (c + all_asked os) Hfit) as (m & Hs & b & Hok & HB); [by exists b0|rewrite map_size_empty; lia|].
  exists m0, m, b. pose proof Hok as [Ht Hu _ _ _]. split_and!; [done|done|done|by destruct Hu|intros k; by eapply find_spec|by eapply entries_spec].
Qed.
Lemma hashmap_refines_witness : ∃ m0 m, with_capacity_and_hasher (K := N) (V := N) 8 8 (N.of_nat 0) = Ok m0 ∧
  (fst <$> map_steps 8 8 (λ k, k mod 4)%N m0 [Extend ((λ i, (N.of_nat i, N.of_nat (i * i))) <$> seq 0 30); Pop 7; Swap 3 0; Insert 50 1; Find 20; Remove 7; Len]%N)
    = Ok [Done; Val (Some 49); Val (Some 9); Flag true; Val (Some 400); Flag false; Num 30]%N ∧ HashMap.find beq (λ k, k mod 4)%N m 29%N = Ok (Some 841%N).
Proof.
  destruct (hashmap_refines 8 8 (λ k, k mod 4)%N 0 [Extend ((λ i, (N.of_nat i, N.of_nat (i * i))) <$> seq 0 30); Pop 7; Swap 3 0; Insert 50 1; Find 20; Remove 7; Len]%N)
    as (m0 & m & b & Hm0 & Hs & _ & _ & Hf & _); [intros k; pose proof (N.mod_lt k 4); change (2 ^ 64)%N with 18446744073709551616%N; lia|vm_compute; done|].
  exists m0, m. rewrite Hs, (Hf 29%N). split; [done|]. split; vm_compute; reflexivity.
Defined.

(** * The size hint of the iterator *)
(** At most [n] calls of [next]: the entries they give, and the iterator after them. *)
Fixpoint entries_after {K V} (n : nat) (it : Entries K V) : outcome (list (K * V) * Entries K V) :=
  match n with
  | 0 => Ok ([], it)
  | S n =>
      '(x, it) ← Entries_next it;
      match x with None => Ok ([], it) | Some kv => '(l, it) ← entries_after n it; Ok (kv :: l, it) end
  end.
Definition empties {A} (b : list (option A)) : nat := length (List.filter (λ c, negb (is_some c)) b).

Lemma filled_empties {A} (b : list (option A)) : filled b + empties b = length b.
Proof. unfold filled, empties, elements. induction b as [|[x|] b IH]; cbn in *; lia. Qed.
Lemma filled_app {A} (b b' : list (option A)) : filled (b ++ b') = filled b + filled b'.
Proof. unfold filled, elements. by rewrite omap_app, length_app. Qed.

Lemma entries_after_spec {K V} (b : list (option (N * K * V))) n : good b → ∀ i, i ≤ length b → n ≤ filled (skipn i b) →
  ∃ l i', entries_after n (mkEntries (raw b) (N.of_nat i)) = Ok (l, mkEntries (raw b) (N.of_nat i')) ∧
    length l = n ∧ i' ≤ length b ∧ filled (skipn i' b) + n = filled (skipn i b).
Proof.
  intros Hg. induction n as [|n IH]; intros i Hi Hn; cbn [entries_after]; [exists [], i; split_and!; [done..|lia]|].
  pose proof (entries_next_spec b i Hg Hi) as Hx. unfold filled in *. destruct (elements (skipn i b)) as [|x l]; [cbn in Hn; lia|].
  destruct Hx as (i' & -> & Hi' & Hl). cbn [mbind outcome_bind length] in *. rewrite <- Hl in Hn.
  destruct (IH i' Hi' ltac:(lia)) as (l' & i2 & -> & Hlen & Hi2 & Hf). cbn [mbind outcome_bind]. exists (kv x :: l'), i2. rewrite <- Hl. cbn [length]. split_and!; [done|lia..].
Qed.

(** Subtracting what was passed from what was there. *)
Lemma usub_passed a n e : (n ≤ a → a < 2 ^ 59 → n + e < 2 ^ 59 → usub a (n + e) = usub (a - n) e)%N.
Proof.
  change (2 ^ 59)%N with 576460752303423488%N. intros Hn Ha He. unfold usub, UINT_BITS. change (2 ^ 64)%N with 18446744073709551616%N.
  rewrite !(N.mod_small (n + e)), !(N.mod_small e) by lia. f_equal. lia.
Qed.
Lemma usub_exact r e : (r < 2 ^ 59 → e < 2 ^ 59 → usub r e = r ↔ e = 0)%N.
Proof.
  change (2 ^ 59)%N with 576460752303423488%N. intros Hr He. unfold usub, UINT_BITS. change (2 ^ 64)%N with 18446744073709551616%N.
  rewrite (N.mod_small e) by lia. destruct (N.le_gt_cases e r).
  - replace (r + (18446744073709551616 - e))%N with (r - e + 1 * 18446744073709551616)%N by lia. rewrite N.Div0.mod_add, N.mod_small by lia. lia.
  - rewrite N.mod_small by lia. lia.
Qed.

(** C39. What the iterator over a hash map says of how many entries remain.  In any
    map made by any operations, when the iterator has given [n] entries, as many
    remain as the map has less [n]; but [size_hint] subtracts the index of the
    bucket it has come to, and so the number of empty buckets passed as well:
    both of its bounds are the number that remain less that number, modulo 2^64.
    They are right exactly if no empty bucket was passed. *)
Theorem entries_hint_wrong {K V} `{Countable K} (size_k size_v : N) (hasher : K → N) (c : nat) (os : list (map_op K V)) (n : nat) :
  (∀ k, (hasher k < 2 ^ 64)%N) → fits_memory size_k size_v (limit (c + all_asked os)) → n ≤ base.size (spec_steps ∅ os).2 →
  ∃ m0 m b given it rest, with_capacity_and_hasher size_k size_v (N.of_nat c) = Ok m0 ∧
    map_steps size_k size_v hasher m0 os = Ok ((spec_steps ∅ os).1, m) ∧ table m = raw b ∧
    entries_after n (iter (table m)) = Ok (given, it) ∧ length given = n ∧
    collect_loop (S (length b)) it = Ok rest ∧ length rest = base.size (spec_steps ∅ os).2 - n ∧
    let passed := N.of_nat (empties (firstn (N.to_nat (e_idx it)) b)) in
    let hint := usub (N.of_nat (length rest)) passed in
    Entries_size_hint it = (hint, Some hint) ∧ (hint = N.of_nat (length rest) ↔ passed = 0%N).
Proof.
  intros Hhash Hfit Hn. destruct (hm_with_capacity_spec (V := V) size_k size_v hasher c (limit (c + all_asked os))) as (m0 & b0 & Hm0 & Hok0 & HB0); [unfold limit; lia|done|].
  destruct (map_steps_ok size_k size_v hasher Hhash os m0 ∅ (c + all_asked os) Hfit) as (m & Hs & b & Hok & HB); [by exists b0|rewrite map_size_empty; lia|].
  pose proof Hok as [Ht [_ Hg _ _] _ _ _]. pose proof (hm_len hasher m _ b Hok) as Hlen. unfold len in Hlen. rewrite Ht in Hlen. cbn [raw size] in Hlen. apply Nat2N.inj in Hlen.
  pose proof Hg as [_ Hsmall]. destruct (entries_after_spec b n Hg 0) as (given & i & Hafter & Hgiven & Hi & Hrest); [lia|change (skipn 0 b) with b; lia|]. change (skipn 0 b) with b in Hrest.
  pose proof (filled_le b). pose proof (collect_loop_spec b (elements (skipn i b)) Hg i (S (length b)) Hi eq_refl ltac:(unfold filled in *; lia)) as Hcol.
  eexists m0, m, b, given, _, _. split_and!; [done|done|done|unfold iter; rewrite Ht; exact Hafter|done|exact Hcol|rewrite length_fmap; unfold filled in *; lia|..].
  - cbv zeta. cbn [e_idx]. rewrite Nat2N.id. pose proof (filled_app (firstn i b) (skipn i b)) as Happ. rewrite take_drop in Happ.
    pose proof (filled_empties (firstn i b)) as Hemp. rewrite length_take, Nat.min_l in Hemp by done.
    rewrite length_fmap. fold (filled (skipn i b)). unfold Entries_size_hint. cbn [e_table e_idx raw size].
    replace (usub (N.of_nat (filled b)) (N.of_nat i)) with (usub (N.of_nat (filled (skipn i b))) (N.of_nat (empties (firstn i b)))).
    + split; [done|]. apply usub_exact; lia.
    + replace (N.of_nat i) with (N.of_nat n + N.of_nat (empties (firstn i b)))%N by lia. rewrite usub_passed by lia. f_equal. lia.
Qed.
(** The entries in buckets 1, 2 and 3: after the first, bucket 0 was passed as
    well, and the hint is one where two remain. *)
Lemma entries_hint_wrong_witness :
  ∃ m given it rest fuel, entries_after 1 (iter (table m)) = Ok (given, it) ∧ given = [(1, 1)]%N ∧
    collect_loop fuel it = Ok rest ∧ length rest = 2 ∧ Entries_size_hint it = (1, Some 1)%N.
Proof.
  destruct (entries_hint_wrong 8 8 (λ k : N, N.modulo k 18446744073709551616)%N 0 [Extend [(1, 1); (2, 2); (3, 3)]%N] 1)
    as (m0 & m & b & given & it & rest & Hm0 & Hs & Hb & Ha & Hl & Hc & Hr & Hh & _).
  - intros k. apply N.mod_lt. done.
  - vm_compute; done.
  - vm_compute; lia.
  - exists m, given, it, rest, (S (length b)). split; [exact Ha|]. vm_compute in Hm0. injection Hm0 as <-. vm_compute in Hs. injection Hs as <-.
    vm_compute in Ha. injection Ha as <- <-. split; [reflexivity|]. split; [exact Hc|]. split; [exact Hr|]. vm_compute. reflexivity.
Defined.

(** C40. A capacity above 2^63 is rounded to zero, for which the overflow check
    of the allocation passes, whatever the sizes of keys and values: the map is
    made, with no buckets, and the first insertion, of any key with any hash
    function, reads outside of its memory. *)
Theorem huge_capacity_undefined {K V} (size_k size_v : N) (eqb : K → K → bool) (hasher : K → N) (n : N) (k : K) (v : V) :
  (2 ^ 63 < n < 2 ^ 64)%N →
  ∃ m, with_capacity_and_hasher size_k size_v n = Ok m ∧ capacity (table m) = 0%N ∧
    insert size_k size_v eqb hasher m k v = Fail Undefined.
Proof.
  intros Hn. unfold with_capacity_and_hasher.
  assert (N.max INITIAL_CAPACITY n = n) as -> by (change (2 ^ 63)%N with 9223372036854775808%N in Hn; unfold INITIAL_CAPACITY; lia).
  rewrite next_power_of_two_wraps by done. eexists. split; [reflexivity|]. split; [reflexivity|].
  unfold insert, swap. set (m := make_some_room _ _ _ _ _).
  assert (m = Ok (mkHashMap 0 0 (mkRawTable 0 0 [] [] []) INITIAL_LOAD_FACTOR)) as -> by (vm_compute; reflexivity).
  reflexivity.
Qed.
Lemma huge_capacity_undefined_witness :
  ∃ m, with_capacity_and_hasher (K := N) (V := N) 8 8 9223372036854775809 = Ok m ∧ capacity (table m) = 0%N ∧
    insert 8 8 beq (λ k : N, k) m 1%N 1%N = Fail Undefined.
Proof. apply huge_capacity_undefined. split; vm_compute; reflexivity. Defined.
