(* ===== verification/HashSetSound.v ===== *)
(** Correctness of hash sets: from lists to sets, and the algebra of sets. *)
From stdpp Require Import prelude list gmap.
From Stdlib Require Import NArith Lia.
From S2P Require Import Prelude StrConv Sort Circle RingBuf HashMap HashMapSound HashMapCorrect.
Import Table.

Lemma dom_extend {T} `{Countable T} (l : list T) (M : gmap T unit) : dom (foldl (λ M x, <[x.1 := x.2]> M) M ((λ x, (x, tt)) <$> l)) = (list_to_set l ∪ dom M : gset T).
Proof. revert M. induction l as [|x l IH]; intros M; [set_solver|]. cbn. rewrite IH, dom_insert_L. set_solver. Qed.
Lemma same_filter {T} `{Countable T} (X Y : gset T) (P : T → bool) l : l ≡ₚ base.elements (base.filter (λ x, P x = true) X) → (∀ x, x ∈ X ∧ P x = true ↔ x ∈ Y) → l ≡ₚ base.elements Y.
Proof. intros -> HY. assert (base.filter (λ x, P x = true) X = Y) as ->; [|done]. apply set_eq. intros x. rewrite elem_of_filter, <- HY. tauto. Qed.
Lemma disjoint_elements {T} `{Countable T} (X Y : gset T) : X ## Y → base.elements X ++ base.elements Y ≡ₚ base.elements (X ∪ Y).
Proof. intros Hd. symmetry. by apply elements_disj_union. Qed.

Section Sets.
Context {T : Type} `{Countable T} (size_t : N) (hasher : T → N).
Implicit Types s : HashSet.HashSet T.
Implicit Types X Y : gset T.
Implicit Types b : list (option (N * T * unit)).

(** The set [X] in its buckets. *)
Definition set_ok s X : Prop := ∃ M b, hm_ok hasher s M b ∧ dom M = X.

Lemma contains_spec s X x : set_ok s X → HashSet.contains beq hasher s x = Ok (bool_decide (x ∈ X)).
Proof using.
  intros (M & b & Hm & <-). pose proof (contains_key_spec hasher s M b x Hm) as Hc. unfold HashMap.contains_key in Hc. unfold HashSet.contains. rewrite Hc. f_equal.
  destruct (M !! x) as [u|] eqn:E; cbn; symmetry; [apply bool_decide_eq_true_2; by apply elem_of_dom_2 in E|apply bool_decide_eq_false_2; by apply not_elem_of_dom].
Qed.
Lemma set_len s X : set_ok s X → HashSet.len s = N.of_nat (base.size X).
Proof using. intros (M & b & Hm & <-). unfold HashSet.len. by rewrite (hm_len hasher s M b Hm), size_dom. Qed.
Lemma all_items_spec s X f g : set_ok s X → (∀ x, x ∈ X → f (x, tt) = Ok (g x)) → HashMap.all_entries s f = Ok (bool_decide (∀ x, x ∈ X → g x = true)).
Proof using.
  intros (M & b & Hm & <-) Hf. rewrite (all_entries_spec hasher s M b f (λ x, g x.1) Hm) by (intros x [] Hx; apply Hf; by apply elem_of_dom_2 in Hx). f_equal.
  apply eq_true_iff_eq. rewrite forallb_forall, bool_decide_eq_true. split.
  - intros Ha x [[] Hx]%elem_of_dom. apply (Ha (x, tt)). by apply list_elem_of_In, elem_of_map_to_list.
  - intros Ha [x u] Hx%list_elem_of_In%elem_of_map_to_list. apply Ha. by apply elem_of_dom_2 in Hx.
Qed.
Lemma filter_loop_spec b f g l : good b → (∀ x, x ∈ l → f (kv x).1 = Ok (g (kv x).1)) → ∀ i fuel, i ≤ length b → elements (skipn i b) = l → length l < fuel →
  HashSet.filter_loop fuel (mkEntries (raw b) (N.of_nat i)) f = Ok (List.filter g ((kv <$> l).*1)).
Proof using.
  intros Hg. induction l as [|x l IH]; intros Hf i [|fuel] Hi Hl Hfu; try (cbn in Hfu; lia); cbn [HashSet.filter_loop]; pose proof (entries_next_spec b i Hg Hi) as Hn; rewrite Hl in Hn.
  - destruct Hn as (it & ->). done.
  - destruct Hn as (i' & -> & Hi' & Hl'). cbn [mbind outcome_bind]. specialize (IH ltac:(intros y Hy; apply Hf; by right)). specialize (Hf x ltac:(left)). cbn [kv fst] in Hf. cbn [kv]. rewrite Hf. cbn [mbind outcome_bind].
    rewrite (IH i' fuel Hi' Hl') by (cbn in Hfu; lia). done.
Qed.
Lemma filter_items_spec s X f g : set_ok s X → (∀ x, x ∈ X → f x = Ok (g x)) → ∃ l, HashSet.filter_items s f = Ok l ∧ l ≡ₚ base.elements (base.filter (λ x, g x = true) X).
Proof using.
  intros (M & b & Hm & <-) Hf. pose proof Hm as [Ht [_ Hg _ _] _ _ [_ Hp]]. unfold HashSet.filter_items, iter. rewrite Ht. cbn [raw capacity]. fold (raw b). rewrite Nat2N.id. change 0%N with (N.of_nat 0). pose proof (filled_le b) as Hfl.
  eexists. split; [apply (filter_loop_spec b f g (elements b) Hg); [|lia|done|unfold filled in Hfl; lia]|].
  - intros x Hx. apply Hf. assert (kv x ∈ map_to_list M) as Hk by (rewrite <- Hp; apply list_elem_of_fmap; by exists x). destruct (kv x) as [k u]. apply elem_of_map_to_list in Hk. by apply elem_of_dom_2 in Hk.
  - assert ((kv <$> elements b).*1 ≡ₚ base.elements (dom M)) as Hd.
    { rewrite Hp. apply NoDup_Permutation; [apply NoDup_fst_map_to_list|apply NoDup_elements|]. intros x. rewrite base.elem_of_elements, elem_of_dom, list_elem_of_fmap. split.
      - intros ([k u] & -> & Hk%elem_of_map_to_list). by eexists.
      - intros [u Hu]. exists (x, u). split; [done|]. by apply elem_of_map_to_list. }
    apply NoDup_Permutation; [|apply NoDup_elements|].
    + apply NoDup_ListNoDup, List.NoDup_filter, NoDup_ListNoDup. rewrite Hd. apply NoDup_elements.
    + intros x. rewrite base.elem_of_elements, elem_of_filter, list_elem_of_In, filter_In, <- list_elem_of_In, Hd, base.elem_of_elements. tauto.
Qed.
Lemma set_extend s l : HashSet.extend size_t beq hasher s l = HashMap.extend size_t 0 beq hasher s ((λ x, (x, tt)) <$> l).
Proof using. revert s. induction l as [|x l IH]; intros s; [done|]. cbn. unfold HashSet.insert. destruct (HashMap.insert _ _ _ _ _ _ _) as [[r s']|]; cbn; [apply IH|done]. Qed.
Lemma from_iter_spec c l : (∀ x, (hasher x < 2 ^ 64)%N) → fits_memory size_t 0 (limit (c + length l)) →
  ∃ s, HashSet.from_iter size_t beq hasher (N.of_nat c) l = Ok s ∧ set_ok s (list_to_set l).
Proof using.
  intros Hh Hfit. unfold HashSet.from_iter, HashSet.with_capacity_and_hasher.
  destruct (hm_with_capacity_spec (V := unit) size_t 0 hasher c (limit (c + length l))) as (m0 & b0 & -> & Hok0 & HB0); [unfold limit; lia|done|]. cbn [mbind outcome_bind]. rewrite set_extend.
  destruct (hm_extend_spec size_t 0 hasher Hh ((λ x, (x, tt)) <$> l) m0 ∅ (c + length l) Hfit) as (m & -> & (b & Hm & _) & _); [by exists b0|rewrite map_size_empty, length_fmap; lia|].
  exists m. split; [done|]. eexists _, b. split; [done|]. rewrite dom_extend. set_solver.
Qed.
Lemma difference_spec s t X Y : set_ok s X → set_ok t Y → ∃ l, HashSet.difference beq hasher s t = Ok l ∧ l ≡ₚ base.elements (X ∖ Y).
Proof using.
  intros Hs Ht. destruct (filter_items_spec s X (λ x, b ← HashSet.contains beq hasher t x; Ok (negb b)) (λ x, negb (bool_decide (x ∈ Y))) Hs) as (l & Hl & Hp); [intros x _; by rewrite (contains_spec t Y x Ht)|].
  exists l. split; [done|]. apply (same_filter X _ _ l Hp). intros x. rewrite elem_of_difference. cbn. rewrite negb_true_iff, bool_decide_eq_false. done.
Qed.
End Sets.

(** C35. Hash sets are finite sets: two sets made from any lists have as many
    elements as there are different ones, contain these and no others, and
    compare - equal, subset, superset, disjoint - as sets do; the iterators of
    their difference, symmetric difference, intersection and union give each
    element of it once. *)
Theorem hash_sets_correct {T} `{Countable T} (size_t : N) (hasher : T → N) (c1 c2 : nat) (l1 l2 : list T) :
  (∀ x, (hasher x < 2 ^ 64)%N) → fits_memory size_t 0 (limit (c1 + length l1)) → fits_memory size_t 0 (limit (c2 + length l2)) →
  let X : gset T := list_to_set l1 in let Y : gset T := list_to_set l2 in
  ∃ s t, HashSet.from_iter size_t beq hasher (N.of_nat c1) l1 = Ok s ∧ HashSet.from_iter size_t beq hasher (N.of_nat c2) l2 = Ok t ∧
    HashSet.len s = N.of_nat (base.size X) ∧ (∀ x, HashSet.contains beq hasher s x = Ok (bool_decide (x ∈ X))) ∧
    HashSet.eq beq hasher s t = Ok (bool_decide (X = Y)) ∧ HashSet.is_subset beq hasher s t = Ok (bool_decide (X ⊆ Y)) ∧
    HashSet.is_superset beq hasher s t = Ok (bool_decide (Y ⊆ X)) ∧ HashSet.is_disjoint beq hasher s t = Ok (bool_decide (X ## Y)) ∧
    (∃ d sd i u, HashSet.difference beq hasher s t = Ok d ∧ d ≡ₚ base.elements (X ∖ Y) ∧
      HashSet.symmetric_difference beq hasher s t = Ok sd ∧ sd ≡ₚ base.elements ((X ∖ Y) ∪ (Y ∖ X)) ∧
      HashSet.intersection beq hasher s t = Ok i ∧ i ≡ₚ base.elements (X ∩ Y) ∧
      HashSet.union beq hasher s t = Ok u ∧ u ≡ₚ base.elements (X ∪ Y)).
Proof.
  intros Hh Hf1 Hf2 X Y. destruct (from_iter_spec size_t hasher c1 l1 Hh Hf1) as (s & Hs & Hsx). destruct (from_iter_spec size_t hasher c2 l2 Hh Hf2) as (t & Ht & Hty). fold X in Hsx. fold Y in Hty.
  assert (∀ s t X Y, set_ok hasher s X → set_ok hasher t Y → HashSet.is_subset beq hasher s t = Ok (bool_decide (X ⊆ Y))) as Hsub.
  { intros s' t' X' Y' Hs' Ht'. unfold HashSet.is_subset. rewrite (all_items_spec hasher s' X' _ (λ x, bool_decide (x ∈ Y')) Hs') by (intros x _; by apply contains_spec). f_equal. apply bool_decide_ext. setoid_rewrite bool_decide_eq_true. set_solver. }
  exists s, t. split_and!; [done|done|by apply (set_len hasher)|intros x; by apply contains_spec| |by apply Hsub|by apply Hsub| |].
  - unfold HashSet.eq. rewrite (set_len hasher s X Hsx), (set_len hasher t Y Hty). destruct (N.eqb_spec (N.of_nat (base.size X)) (N.of_nat (base.size Y))) as [E|E]; cbn [negb]; [|rewrite bool_decide_eq_false_2 by (intros E'; by rewrite E' in E); done].
    rewrite (all_items_spec hasher s X _ (λ x, bool_decide (x ∈ Y)) Hsx) by (intros x _; exact (contains_spec hasher t Y x Hty)). f_equal. apply bool_decide_ext. setoid_rewrite bool_decide_eq_true.
    split; [intros Hxy; apply leibniz_equiv, set_subseteq_size_equiv; [done|lia]|by intros ->].
  - unfold HashSet.is_disjoint. rewrite (all_items_spec hasher s X _ (λ x, negb (bool_decide (x ∈ Y))) Hsx) by (intros x _; cbn; by rewrite (contains_spec hasher t Y x Hty)). f_equal. apply bool_decide_ext. setoid_rewrite negb_true_iff. setoid_rewrite bool_decide_eq_false. set_solver.
  - destruct (difference_spec hasher s t X Y Hsx Hty) as (d1 & Hd1 & Hp1). destruct (difference_spec hasher t s Y X Hty Hsx) as (d2 & Hd2 & Hp2).
    destruct (filter_items_spec hasher s X (HashSet.contains beq hasher t) (λ x, bool_decide (x ∈ Y)) Hsx) as (i & Hi & Hpi); [intros x _; by apply contains_spec|].
    destruct (filter_items_spec hasher s X (λ _, Ok true) (λ _, true) Hsx) as (a & Ha & Hpa); [done|].
    exists d1, (d1 ++ d2), i, (a ++ d2). unfold HashSet.symmetric_difference, HashSet.union, HashSet.items. rewrite Hd1, Hd2, Ha. split_and!; try done.
    + rewrite Hp1, Hp2. apply disjoint_elements. set_solver.
    + apply (same_filter X _ _ i Hpi). intros x. rewrite elem_of_intersection. cbn. by rewrite bool_decide_eq_true.
    + rewrite (same_filter X X _ a Hpa), Hp2, disjoint_elements by set_solver. f_equiv. apply set_equiv. intros x. destruct (decide (x ∈ X)); set_solver.
Qed.
Lemma hash_sets_correct_witness : ∃ s t, HashSet.from_iter 8 beq (λ k, k mod 3)%N (N.of_nat 2) [1; 2; 3; 2]%N = Ok s ∧ HashSet.from_iter 8 beq (λ k, k mod 3)%N (N.of_nat 0) [3; 9; 1]%N = Ok t ∧
  HashSet.len s = 3%N ∧ HashSet.is_subset beq (λ k, k mod 3)%N s t = Ok false ∧ ∃ d, HashSet.difference beq (λ k, k mod 3)%N s t = Ok d ∧ d ≡ₚ [2%N].
Proof.
  destruct (hash_sets_correct 8 (λ k, k mod 3)%N 2 0 [1; 2; 3; 2]%N [3; 9; 1]%N) as (s & t & Hs & Ht & Hl & _ & _ & Hsub & _ & _ & d & _ & _ & _ & Hd & Hp & _);
    [intros k; pose proof (N.mod_lt k 3); change (2 ^ 64)%N with 18446744073709551616%N; lia|vm_compute; done|vm_compute; done|].
  exists s, t. split; [exact Hs|]. split; [exact Ht|]. split; [exact Hl|]. split; [exact Hsub|]. exists d. split; [exact Hd|]. etransitivity; [exact Hp|]. vm_compute. reflexivity.
Defined.
