(* ===== verification/Trie.v ===== *)
(** The radix trie of [libcollections/trie.rs]: maps and sets of machine integers,
    sixteen children to a node, with iterators that keep a stack of slices of
    children in raw memory. *)
From stdpp Require Import prelude list.
From Stdlib Require Import NArith.
From S2P Require Import Prelude StrConv Iter.

Module Trie.
Local Open Scope N_scope.
Definition SHIFT : N := 4.
Definition SIZE : N := 16.
Definition MASK : N := 15.
Definition NUM_CHUNKS : nat := 16.

Inductive Child (T : Type) : Type :=
| Internal (node : TrieNode T)
| External (key : N) (value : T)
| Nothing
with TrieNode (T : Type) : Type := mkTrieNode (count : N) (children : list (Child T)).
Arguments Internal {T}.
Arguments External {T}.
Arguments Nothing {T}.
Arguments mkTrieNode {T}.
Definition count {T} (n : TrieNode T) : N := match n with mkTrieNode c _ => c end.
Definition children {T} (n : TrieNode T) : list (Child T) := match n with mkTrieNode _ l => l end.

(** A shift by the width of the word or more has no defined result. *)
Definition chunk (n idx : N) : outcome nat :=
  let sh := usub UINT_BITS (umul SHIFT (uadd idx 1)) in
  if sh <? UINT_BITS then Ok (N.to_nat (N.land (N.shiftr n sh) MASK)) else Fail Undefined.

Section Trie.
Context {T : Type}.
Definition new_node : TrieNode T := mkTrieNode 0 (replicate 16 Nothing).

Record TrieMap : Type := mkTrieMap { root : TrieNode T; length_ : N }.
Definition len (m : TrieMap) : N := length_ m.
Definition clear (m : TrieMap) : TrieMap := mkTrieMap new_node 0.
Definition new : TrieMap := mkTrieMap new_node 0.

Fixpoint find_loop (fuel : nat) (node : TrieNode T) (key idx : N) : outcome (option T) :=
  match fuel with
  | 0%nat => Fail OutOfFuel
  | S fuel =>
      i ← chunk key idx;
      c ← vec_get (children node) i;
      match c with
      | Internal x => find_loop fuel x key (uadd idx 1)
      | External stored value => Ok (if stored =? key then Some value else None)
      | Nothing => Ok None
      end
  end.
Definition find (m : TrieMap) (key : N) : outcome (option T) := find_loop (S NUM_CHUNKS) (root m) key 0.
Definition contains_key (m : TrieMap) (key : N) : outcome bool := r ← find m key; Ok (is_some r).

(** [find_mut], and an assignment to the value it refers to *)
Fixpoint find_mut (fuel : nat) (child : Child T) (key idx : N) (f : T → T) : outcome (option T * Child T) :=
  match fuel with
  | 0%nat => Fail OutOfFuel
  | S fuel =>
      match child with
      | External stored value => if stored =? key then Ok (Some (f value), External stored (f value)) else Ok (None, child)
      | Internal (mkTrieNode cnt ch) =>
          i ← chunk key idx;
          c ← vec_get ch i;
          '(r, c) ← find_mut fuel c key (uadd idx 1) f;
          Ok (r, Internal (mkTrieNode cnt (<[i := c]> ch)))
      | Nothing => Ok (None, child)
      end
  end.
Definition map_find_mut (m : TrieMap) (key : N) (f : T → T) : outcome (option T * TrieMap) :=
  let '(mkTrieNode cnt ch) := root m in
  i ← chunk key 0;
  c ← vec_get ch i;
  '(r, c) ← find_mut (S NUM_CHUNKS) c key 1 f;
  Ok (r, mkTrieMap (mkTrieNode cnt (<[i := c]> ch)) (length_ m)).

(** Both change the counter of the node and its child. *)
Fixpoint insert (fuel : nat) (count : N) (child : Child T) (key : N) (value : T) (idx : N) : outcome (option T * N * Child T) :=
  match fuel with
  | 0%nat => Fail OutOfFuel
  | S fuel =>
      match child with
      | Nothing => Ok (None, uadd count 1, External key value)
      | Internal (mkTrieNode cnt ch) =>
          i ← chunk key idx;
          c ← vec_get ch i;
          '(r, cnt, c) ← insert fuel cnt c key value (uadd idx 1);
          Ok (r, count, Internal (mkTrieNode cnt (<[i := c]> ch)))
      | External stored_key stored_value =>
          if stored_key =? key then Ok (Some stored_value, count, External stored_key value)
          else
            let '(mkTrieNode cnt ch) := new_node in
            i ← chunk stored_key idx;
            c ← vec_get ch i;
            '(_, cnt, c) ← insert fuel cnt c stored_key stored_value (uadd idx 1);
            let ch := <[i := c]> ch in
            j ← chunk key idx;
            c ← vec_get ch j;
            '(ret, cnt, c) ← insert fuel cnt c key value (uadd idx 1);
            Ok (ret, count, Internal (mkTrieNode cnt (<[j := c]> ch)))
      end
  end.
Fixpoint remove (fuel : nat) (count_ : N) (child : Child T) (key idx : N) : outcome (option T * N * Child T) :=
  match fuel with
  | 0%nat => Fail OutOfFuel
  | S fuel =>
      '(ret, this, child) ←
        match child with
        | External stored value => if stored =? key then Ok (Some value, true, Nothing) else Ok (None, false, child)
        | Internal (mkTrieNode cnt ch) =>
            i ← chunk key idx;
            c ← vec_get ch i;
            '(ret, cnt, c) ← remove fuel cnt c key (uadd idx 1);
            Ok (ret, cnt =? 0, Internal (mkTrieNode cnt (<[i := c]> ch)))
        | Nothing => Ok (None, false, child)
        end;
      if (this : bool) then Ok (ret, usub count_ 1, Nothing) else Ok (ret, count_, child)
  end.
Definition swap (m : TrieMap) (key : N) (value : T) : outcome (option T * TrieMap) :=
  let '(mkTrieNode cnt ch) := root m in
  i ← chunk key 0;
  c ← vec_get ch i;
  '(ret, cnt, c) ← insert (S NUM_CHUNKS) cnt c key value 1;
  Ok (ret, mkTrieMap (mkTrieNode cnt (<[i := c]> ch)) (if is_some ret then length_ m else uadd (length_ m) 1)).
Definition pop (m : TrieMap) (key : N) : outcome (option T * TrieMap) :=
  let '(mkTrieNode cnt ch) := root m in
  i ← chunk key 0;
  c ← vec_get ch i;
  '(ret, cnt, c) ← remove (S NUM_CHUNKS) cnt c key 1;
  Ok (ret, mkTrieMap (mkTrieNode cnt (<[i := c]> ch)) (if is_some ret then usub (length_ m) 1 else length_ m)).
(** [MutableMap::insert], [MutableMap::remove] *)
Definition map_insert (m : TrieMap) (key : N) (value : T) : outcome (bool * TrieMap) :=
  '(r, m) ← swap m key value; Ok (negb (is_some r), m).
Definition map_remove (m : TrieMap) (key : N) : outcome (bool * TrieMap) := '(r, m) ← pop m key; Ok (is_some r, m).
Fixpoint extend (m : TrieMap) (l : list (N * T)) : outcome TrieMap :=
  match l with [] => Ok m | (k, v) :: l => '(_, m) ← map_insert m k v; extend m l end.
Definition from_iter (l : list (N * T)) : outcome TrieMap := extend new l.

(** [each_reverse]; the closure threads its state and stops with [false] *)
Section reverse.
Context {St : Type} (f : N → T → St → St * bool).
Fixpoint rev_children (each : TrieNode T → St → outcome (St * bool)) (l : list (Child T)) (s : St) : outcome (St * bool) :=
  match l with
  | [] => Ok (s, true)
  | c :: l =>
      '(s, go) ← match c with Internal x => each x s | External k v => Ok (f k v s) | Nothing => Ok (s, true) end;
      if (go : bool) then rev_children each l s else Ok (s, false)
  end.
Fixpoint node_each_reverse (fuel : nat) (n : TrieNode T) (s : St) : outcome (St * bool) :=
  match fuel with
  | 0%nat => Fail OutOfFuel
  | S fuel => rev_children (node_each_reverse fuel) (rev (children n)) s
  end.
Definition each_reverse (m : TrieMap) (s : St) : outcome (St * bool) := node_each_reverse (S NUM_CHUNKS) (root m) s.
End reverse.

(** * Iterators *)
(** A slice iterator is the list of the children still to come. *)
Record Entries : Type := mkEntries { stack : list (list (Child T)); depth : nat; remaining_min : N; remaining_max : N }.
Definition Entries_new : Entries := mkEntries (replicate NUM_CHUNKS []) 0 0 0.
(** A write to the stack through a raw pointer *)
Definition push_at (st : list (list (Child T))) (i : nat) (l : list (Child T)) : outcome (list (list (Child T))) :=
  if (i <? length st)%nat then Ok (<[i := l]> st) else Fail Undefined.
Definition iter (m : TrieMap) : Entries :=
  mkEntries (<[0%nat := children (root m)]> (stack Entries_new)) 1 (length_ m) (length_ m).
(** [while write_ptr != start_ptr] *)
Fixpoint next_loop (fuel : nat) (it : Entries) (write : nat) : outcome (option (N * T) * Entries) :=
  match fuel with
  | 0%nat => Fail OutOfFuel
  | S fuel =>
      match write with
      | 0%nat => Ok (None, it)
      | S top =>
          match stack it !! top with
          | None => Fail Undefined
          | Some [] => next_loop fuel it top
          | Some (child :: rest) =>
              let st := <[top := rest]> (stack it) in
              match child with
              | Internal node =>
                  st ← push_at st write (children node);
                  next_loop fuel (mkEntries st (depth it) (remaining_min it) (remaining_max it)) (S write)
              | External key value =>
                  Ok (Some (key, value),
                      mkEntries st write (if 0 <? remaining_min it then usub (remaining_min it) 1 else remaining_min it) (usub (remaining_max it) 1))
              | Nothing => next_loop fuel (mkEntries st (depth it) (remaining_min it) (remaining_max it)) write
              end
          end
      end
  end.
Definition Entries_next (fuel : nat) (it : Entries) : outcome (option (N * T) * Entries) := next_loop fuel it (depth it).
Definition Entries_size_hint (it : Entries) : N * option N := (remaining_min it, Some (remaining_max it)).
#[export] Instance Entries_Iterator : Iterator Entries (N * T) := { next := Entries_next; size_hint := Entries_size_hint }.

(** The macro [bound!]; [mut_bound] differs in the references only *)
Fixpoint bound_loop (fuel : nat) (node : TrieNode T) (it : Entries) (key : N) (upper : bool) : outcome Entries :=
  match fuel with
  | 0%nat => Fail OutOfFuel
  | S fuel =>
      child_id ← chunk key (N.of_nat (depth it));
      c ← vec_get (children node) child_id;
      let slice_idx :=
        match c with
        | Internal _ | Nothing => S child_id
        | External stored _ => if (stored <? key) || (upper && (stored =? key)) then S child_id else child_id
        end in
      st ← vec_set (stack it) (depth it) (drop slice_idx (children node));
      let it := mkEntries st (S (depth it)) (remaining_min it) (remaining_max it) in
      match c with Internal n => bound_loop fuel n it key upper | _ => Ok it end
  end.
Definition bound (m : TrieMap) (key : N) (upper : bool) : outcome Entries :=
  bound_loop (S NUM_CHUNKS) (root m) (mkEntries (stack Entries_new) 0 0 (length_ m)) key upper.
Definition lower_bound (m : TrieMap) (key : N) : outcome Entries := bound m key false.
Definition upper_bound (m : TrieMap) (key : N) : outcome Entries := bound m key true.
End Trie.
Arguments TrieMap : clear implicits.
Arguments Entries : clear implicits.

(** * Sets *)
Definition TrieSet : Type := TrieMap unit.
Definition contains (s : TrieSet) (value : N) : outcome bool := contains_key s value.
Definition set_insert (s : TrieSet) (value : N) : outcome (bool * TrieSet) := map_insert s value tt.
Definition set_remove (s : TrieSet) (value : N) : outcome (bool * TrieSet) := map_remove s value.
Definition set_new : TrieSet := new.
Fixpoint set_extend (s : TrieSet) (l : list N) : outcome TrieSet :=
  match l with [] => Ok s | elem :: l => '(_, s) ← set_insert s elem; set_extend s l end.
Definition set_from_iter (l : list N) : outcome TrieSet := set_extend set_new l.
Record SetItems : Type := mkSetItems { set_entries : Entries unit }.
Definition SetItems_next (fuel : nat) (it : SetItems) : outcome (option N * SetItems) :=
  '(r, e) ← Entries_next fuel (set_entries it); Ok (option_map fst r, mkSetItems e).
Definition SetItems_size_hint (it : SetItems) : N * option N := Entries_size_hint (set_entries it).
#[export] Instance SetItems_Iterator : Iterator SetItems N := { next := SetItems_next; size_hint := SetItems_size_hint }.
Definition set_iter (s : TrieSet) : SetItems := mkSetItems (iter s).
Definition set_lower_bound (s : TrieSet) (val : N) : outcome SetItems := it ← lower_bound s val; Ok (mkSetItems it).
Definition set_upper_bound (s : TrieSet) (val : N) : outcome SetItems := it ← upper_bound s val; Ok (mkSetItems it).
Definition set_each_reverse {St} (f : N → St → St * bool) (s : TrieSet) (st : St) : outcome (St * bool) := each_reverse (λ k _, f k) s st.
(** [iter().all(|v| ...)], the test being whether membership of [v] in [other] is [want] *)
Fixpoint all_contained (fuel : nat) (it : SetItems) (other : TrieSet) (want : bool) : outcome bool :=
  match fuel with
  | 0%nat => Fail OutOfFuel
  | S fuel =>
      '(r, it) ← next fuel it;
      match r with
      | None => Ok true
      | Some v => b ← contains other v; if Bool.eqb b want then all_contained fuel it other want else Ok false
      end
  end.
Definition is_disjoint (fuel : nat) (s other : TrieSet) : outcome bool := all_contained fuel (set_iter s) other false.
Definition is_subset (fuel : nat) (s other : TrieSet) : outcome bool := all_contained fuel (set_iter s) other true.
Definition is_superset (fuel : nat) (s other : TrieSet) : outcome bool := is_subset fuel other s.
End Trie.
