(* ===== verification/TrieSound.v ===== *)
(** Correctness of the radix trie: a finite map whose entries are in the order of
    their keys, and iterators that never leave their stack. *)
From stdpp Require Import prelude list gmap sorting.
From Stdlib Require Import NArith Lia.
From S2P Require Import Prelude StrConv Iter IterOk Trie.
Import Trie.
Local Open Scope model_scope.

(** * Chunks *)
(** The number of keys below a child with [n] levels, and the chunk of a key that selects it. *)
Definition span (n : nat) : N := (16 ^ N.of_nat n)%N.
Definition digit (n : nat) (k : N) : nat := N.to_nat ((k / span n) mod 16).
Lemma span_S n : span (S n) = (span n * 16)%N.
Proof. unfold span. rewrite Nat2N.inj_succ, N.pow_succ_r'. lia. Qed.
Lemma span_pos n : (0 < span n)%N.
Proof. unfold span. pose proof (N.pow_nonzero 16 (N.of_nat n)). lia. Qed.
Lemma digit_lt n k : digit n k < 16.
Proof. unfold digit. pose proof (N.mod_lt (k / span n) 16). lia. Qed.
Lemma digit_down n k p : (k / span (S n) = p → k / span n = p * 16 + N.of_nat (digit n k))%N.
Proof.
  intros <-. unfold digit. rewrite N2Nat.id, span_S, <- N.Div0.div_div. rewrite N.mul_comm. apply N.div_mod'.
Qed.
Lemma digit_up n k p i : (i < 16)%N → (k / span n = p * 16 + i → k / span (S n) = p ∧ N.of_nat (digit n k) = i)%N.
Proof.
  intros Hi Hk. unfold digit. rewrite N2Nat.id, span_S, <- N.Div0.div_div, Hk. split.
  - rewrite N.div_add_l by lia. rewrite N.div_small; lia.
  - rewrite N.add_comm, N.Div0.mod_add. by apply N.mod_small.
Qed.
Lemma chunk_spec n k : n ≤ 15 → chunk k (N.of_nat (15 - n)) = Ok (digit n k).
Proof.
  intros Hn. unfold chunk, SHIFT, MASK, UINT_BITS. rewrite uadd_small by (unfold UINT_MAX; lia). assert (umul 4 (N.of_nat (15 - n) + 1) = 4 * (N.of_nat (15 - n) + 1))%N as ->.
  { unfold umul, UINT_BITS. change (2 ^ 64)%N with 18446744073709551616%N. rewrite N.mod_small; lia. }
  rewrite usub_small by (unfold UINT_MAX; lia). destruct (N.ltb_spec (64 - 4 * (N.of_nat (15 - n) + 1)) 64); [|lia]. f_equal. unfold digit. f_equal.
  change 15%N with (N.ones 4). rewrite N.land_ones, N.shiftr_div_pow2. change (2 ^ 4)%N with 16%N. f_equal. f_equal. unfold span. change 16%N with (2 ^ 4)%N at 1. rewrite <- N.pow_mul_r. f_equal. lia.
Qed.
Lemma chunk_depth n k d : n ≤ 15 → d = 15 - n → chunk k (N.of_nat d) = Ok (digit n k).
Proof. intros Hn ->. by apply chunk_spec. Qed.
Lemma idx_next n : n ≤ 15 → uadd (N.of_nat (15 - n)) 1 = N.of_nat (16 - n).
Proof. intros. rewrite uadd_small by (unfold UINT_MAX; lia). lia. Qed.

Section Trie.
Context {T : Type}.
Implicit Types c : Child T.
Implicit Types ch : list (Child T).

(** * Entries and well-formed tries *)
Fixpoint child_entries c : list (N * T) :=
  match c with Internal (mkTrieNode _ l) => flat_map child_entries l | External k v => [(k, v)] | Nothing => [] end.
Definition all_entries ch : list (N * T) := flat_map child_entries ch.
Definition is_node c : bool := match c with Nothing => false | _ => true end.
Definition occupied ch : nat := length (List.filter is_node ch).
(** The children of a node with the keys that start with [pre]. *)
Record node_ok (P : N → Child T → Prop) (pre : N) (node : TrieNode T) : Prop := {
  node_length : length (children node) = 16;
  node_count : count node = N.of_nat (occupied (children node));
  node_children : ∀ i c, children node !! i = Some c → P (pre * 16 + N.of_nat i)%N c }.
Fixpoint wf (n : nat) (pre : N) c : Prop :=
  match c with
  | Nothing => True
  | External k _ => (k / span n = pre)%N
  | Internal node => match n with 0 => False | S n => node_ok (wf n) pre node ∧ count node ≠ 0%N end
  end.

Lemma occupied_le ch : occupied ch ≤ length ch.
Proof using. unfold occupied. induction ch as [|c ch IH]; cbn; [done|]. destruct (is_node c); cbn; lia. Qed.
Lemma occupied_set ch i c c' : ch !! i = Some c → occupied (<[i := c']> ch) + (if is_node c then 1 else 0) = occupied ch + (if is_node c' then 1 else 0).
Proof using.
  unfold occupied. revert i. induction ch as [|d ch IH]; intros [|i] Hi; try done.
  - injection Hi as ->. change (<[0 := c']> (c :: ch)) with (c' :: ch). cbn [List.filter]. destruct (is_node c), (is_node c'); cbn [length]; lia.
  - change (<[S i := c']> (d :: ch)) with (d :: <[i := c']> ch). cbn [List.filter]. specialize (IH i Hi). destruct (is_node d); cbn [length]; lia.
Qed.
Lemma all_entries_app ch ch' : all_entries (ch ++ ch') = all_entries ch ++ all_entries ch'.
Proof using. apply flat_map_app. Qed.
Lemma all_entries_at ch i c : ch !! i = Some c → all_entries ch = all_entries (take i ch) ++ child_entries c ++ all_entries (drop (S i) ch).
Proof using. intros Hi. rewrite <- (take_drop_middle ch i c Hi) at 1. by rewrite all_entries_app. Qed.
Lemma all_entries_set ch i c' : i < length ch → all_entries (<[i := c']> ch) = all_entries (take i ch) ++ child_entries c' ++ all_entries (drop (S i) ch).
Proof using. intros Hi. rewrite (all_entries_at _ i c') by (by apply list_lookup_insert_eq). by rewrite take_insert_ge, drop_insert_lt by lia. Qed.
Lemma elem_of_all ch x : x ∈ all_entries ch ↔ ∃ i c, ch !! i = Some c ∧ x ∈ child_entries c.
Proof using.
  unfold all_entries. rewrite list_elem_of_In, in_flat_map. split.
  - intros (c & Hc & Hx). apply list_elem_of_In, list_elem_of_lookup in Hc as [i Hi]. exists i, c. split; [done|]. by apply list_elem_of_In.
  - intros (i & c & Hc & Hx). exists c. split; [|by apply list_elem_of_In]. apply list_elem_of_In. by eapply list_elem_of_lookup_2.
Qed.
Lemma wf_keys n : ∀ pre c k v, wf n pre c → (k, v) ∈ child_entries c → (k / span n = pre)%N.
Proof using.
  induction n as [|n IH]; intros pre [[cnt ch]|k' v'|] k v Hwf Hk; cbn [wf child_entries] in *; try done; try (by apply list_elem_of_singleton in Hk as [= -> ->]); try by apply elem_of_nil in Hk.
  destruct Hwf as [[Hl _ Hch] _]. cbn [children] in *. apply elem_of_all in Hk as (i & c & Hi & Hk). pose proof (lookup_lt_Some _ _ _ Hi). specialize (IH _ _ _ _ (Hch i c Hi) Hk). eapply digit_up; [|exact IH]. lia.
Qed.
(** A key can only be below the child that its chunk selects. *)
Lemma node_key n pre node i c k v : node_ok (wf n) pre node → children node !! i = Some c → (k, v) ∈ child_entries c → i = digit n k ∧ (k / span (S n) = pre)%N.
Proof using.
  intros [Hl _ Hch] Hi Hk. pose proof (lookup_lt_Some _ _ _ Hi). pose proof (wf_keys n _ c k v (Hch i c Hi) Hk) as Hd. apply digit_up in Hd as [H1 H2]; [|lia]. split; [lia|done].
Qed.
Lemma node_absent n pre node k c : node_ok (wf n) pre node → children node !! digit n k = Some c → (∀ v, (k, v) ∉ child_entries c) → ∀ v, (k, v) ∉ all_entries (children node).
Proof using.
  intros Hn Hc Ha v (i & c' & Hi & Hv)%elem_of_all. destruct (node_key n pre node i c' k v Hn Hi Hv) as [-> _]. rewrite Hc in Hi. injection Hi as <-. by eapply Ha.
Qed.
Lemma node_child n pre node k : node_ok (wf n) pre node → (k / span (S n) = pre)%N → ∃ c, children node !! digit n k = Some c ∧ wf n (k / span n) c.
Proof using.
  intros [Hl _ Hch] Hk. destruct (lookup_lt_is_Some_2 (children node) (digit n k)) as [c Hc]; [rewrite Hl; apply digit_lt|]. exists c. split; [done|]. rewrite (digit_down n k pre Hk). by apply Hch.
Qed.
(** The entries are in the order of the keys. *)
Definition key_lt (x y : N * T) : Prop := (x.1 < y.1)%N.
Lemma sorted_blocks n pre ch : ∀ o, (∀ i c, ch !! i = Some c → wf n (pre * 16 + N.of_nat (o + i))%N c ∧ StronglySorted key_lt (child_entries c)) →
  StronglySorted key_lt (all_entries ch) ∧ ∀ x, x ∈ all_entries ch → (pre * 16 + N.of_nat o ≤ x.1 / span n)%N.
Proof using.
  induction ch as [|c ch IH]; intros o Hch; [split; [constructor|by intros x Hx%elem_of_nil]|]. destruct (Hch 0 c eq_refl) as [Hwf Hs]. destruct (IH (S o)) as [IHs IHb].
  { intros i d Hd. specialize (Hch (S i) d Hd). by rewrite Nat.add_succ_r in Hch. }
  assert (∀ x, x ∈ child_entries c → (x.1 / span n = pre * 16 + N.of_nat o)%N) as Hb. { intros [k v] Hx. rewrite Nat.add_0_r in Hwf. by eapply wf_keys. }
  change (all_entries (c :: ch)) with (child_entries c ++ all_entries ch). split.
  - clear IH Hch. induction Hs as [|x l Hs IHl Hx]; [done|]. cbn. constructor; [apply IHl; [by intros y Hy; apply Hb; right]|]. apply Forall_app. split; [done|]. apply Forall_forall. intros y Hy. specialize (IHb y Hy). specialize (Hb x ltac:(left)). unfold key_lt.
    pose proof (span_pos n). pose proof (N.mul_succ_div_gt x.1 (span n) ltac:(lia)). pose proof (N.Div0.mul_div_le y.1 (span n)).
    pose proof (N.mul_le_mono_l (N.succ (x.1 / span n)) (y.1 / span n) (span n)). lia.
  - intros x [Hx|Hx]%elem_of_app; [rewrite (Hb x Hx); lia|]. specialize (IHb x Hx). lia.
Qed.
Lemma wf_sorted n : ∀ pre c, wf n pre c → StronglySorted key_lt (child_entries c).
Proof using.
  induction n as [|n IH]; intros pre [[cnt ch]|k v|] Hwf; cbn [wf child_entries] in *; try done; try (by repeat constructor). destruct Hwf as [[_ _ Hch] _]. apply (sorted_blocks n pre ch 0). intros i c Hc. cbn. split; [by apply Hch|]. by eapply IH, Hch.
Qed.

(** * Finding *)
Definition sought (k : N) (es : list (N * T)) (r : option T) : Prop := match r with Some v => (k, v) ∈ es | None => ∀ v, (k, v) ∉ es end.
Lemma find_loop_spec n : ∀ fuel pre node k, n < fuel → n ≤ 15 → node_ok (wf n) pre node → (k / span (S n) = pre)%N →
  ∃ r, find_loop fuel node k (N.of_nat (15 - n)) = Ok r ∧ sought k (all_entries (children node)) r.
Proof using.
  induction n as [|n IH]; intros [|fuel] pre node k Hf Hn Hok Hk; try lia; cbn [find_loop]; rewrite chunk_spec by lia; cbn [mbind outcome_bind];
    destruct (node_child _ pre node k Hok Hk) as (c & Hc & Hwf); rewrite (vec_get_Some _ _ _ Hc); cbn [mbind outcome_bind]; destruct c as [x|k' v'|];
    try (eexists; split; [done|]; cbn [sought]; eapply node_absent; [done..|]; by intros v Hv%elem_of_nil);
    try (destruct (N.eqb_spec k' k) as [->|Hne]; eexists; (split; [done|]); cbn [sought];
      [apply elem_of_all; eexists _, _; split; [done|]; cbn; left|eapply node_absent; [done..|]; by intros v [= -> ->]%list_elem_of_singleton]).
  - done.
  - cbn [wf] in Hwf. destruct Hwf as [Hx _]. rewrite idx_next by lia. replace (16 - S n) with (15 - n) by lia. destruct (IH fuel _ x k ltac:(lia) ltac:(lia) Hx eq_refl) as (r & -> & Hr). exists r. split; [done|].
    destruct r as [v|]; cbn [sought] in *; [apply elem_of_all; eexists _, _; split; [done|]; by destruct x|]. eapply node_absent; [done..|]. by destruct x.
Qed.

(** * Inserting *)
Definition replaced (k : N) (v : T) (es es' : list (N * T)) (r : option T) : Prop :=
  match r with
  | None => (∀ v0, (k, v0) ∉ es) ∧ es' ≡ₚ (k, v) :: es
  | Some v0 => (k, v0) ∈ es ∧ (k, v0) :: es' ≡ₚ (k, v) :: es
  end.
Definition bump c (cnt : N) : N := if is_node c then cnt else (cnt + 1)%N.
(** What [insert] does below a child with [n] levels. *)
Definition insert_good (n fuel : nat) : Prop := ∀ cnt c k v, wf n (k / span n) c → (cnt ≤ 16)%N →
  ∃ r c', insert fuel cnt c k v (N.of_nat (16 - n)) = Ok (r, bump c cnt, c') ∧ wf n (k / span n) c' ∧ is_node c' = true ∧ replaced k v (child_entries c) (child_entries c') r.
Lemma middle_perm {A} (x y : A) (a e e' b : list A) : x :: e' ≡ₚ y :: e → x :: a ++ e' ++ b ≡ₚ y :: a ++ e ++ b.
Proof using. intros Hp. rewrite !(Permutation_app_comm a), <- !app_assoc. change (x :: e' ++ b ++ a) with ((x :: e') ++ b ++ a). by rewrite Hp. Qed.
Lemma node_set n pre cnt ch k c' cnt' : node_ok (wf n) pre (mkTrieNode cnt ch) → (k / span (S n) = pre)%N → wf n (k / span n) c' →
  cnt' = N.of_nat (occupied (<[digit n k := c']> ch)) → node_ok (wf n) pre (mkTrieNode cnt' (<[digit n k := c']> ch)).
Proof using.
  intros [Hl _ Hch] Hk Hwf Hc. split; cbn [children count] in *; [by rewrite length_insert|done|]. intros i d Hd. apply list_lookup_insert_Some in Hd as [(<- & <- & _)|[_ Hd]]; [by rewrite <- (digit_down n k pre Hk)|by apply Hch].
Qed.
Lemma node_insert n fuel pre cnt ch k v : insert_good n fuel → n ≤ 15 → node_ok (wf n) pre (mkTrieNode cnt ch) → (k / span (S n) = pre)%N →
  ∃ c r cnt' c', ch !! digit n k = Some c ∧ insert fuel cnt c k v (N.of_nat (16 - n)) = Ok (r, cnt', c') ∧ node_ok (wf n) pre (mkTrieNode cnt' (<[digit n k := c']> ch)) ∧ cnt' ≠ 0%N ∧
    replaced k v (all_entries ch) (all_entries (<[digit n k := c']> ch)) r.
Proof using.
  intros Hins Hn Hok Hk. destruct (node_child n pre _ k Hok Hk) as (c & Hc & Hwf). cbn [children] in Hc. pose proof Hok as [Hl Hcnt _]. cbn [children count] in Hl, Hcnt. pose proof (occupied_le ch) as Ho.
  destruct (Hins cnt c k v Hwf) as (r & c' & Hi & Hwf' & Hnode & Hrep); [lia|]. exists c, r, (bump c cnt), c'. pose proof (occupied_set ch _ c c' Hc) as Hos. rewrite Hnode in Hos. pose proof (lookup_lt_Some _ _ _ Hc) as Hlt.
  assert (bump c cnt = N.of_nat (occupied (<[digit n k := c']> ch))) as Hb by (unfold bump; destruct (is_node c); lia).
  assert (0 < occupied (<[digit n k := c']> ch)) as Hpos. { destruct (is_node c) eqn:E; [|lia]. pose proof (occupied_set ch _ c Nothing Hc) as Hz. rewrite E in Hz. cbn in Hz. lia. }
  split_and!; [done|done|by eapply node_set|lia|]. rewrite (all_entries_at ch _ c Hc), all_entries_set by done. destruct r as [v0|]; cbn [replaced] in *.
  - destruct Hrep as [Hin Hp]. split; [rewrite !elem_of_app; auto|]. by apply middle_perm.
  - destruct Hrep as [Hno Hp]. split; [|rewrite Hp; cbn; symmetry; apply Permutation_middle]. intros v0. rewrite <- all_entries_at by done. exact (node_absent n pre (mkTrieNode cnt ch) k c Hok Hc Hno v0).
Qed.
Lemma new_node_ok n pre : node_ok (wf n) pre (@new_node T).
Proof using. split; [done|done|]. intros i c Hc. cbn [children new_node] in Hc. apply lookup_replicate in Hc as [-> _]. by destruct n. Qed.
Lemma insert_spec n : ∀ fuel, n < fuel → n ≤ 15 → insert_good n fuel.
Proof using.
  induction n as [|n IH]; intros [|fuel] Hf Hn cnt c k v Hwf Hcnt; try lia; cbn [insert]; destruct c as [[cnt0 ch]|k' v'|];
    try (exists None, (External k v); unfold bump; cbn [is_node]; rewrite uadd_small by (unfold UINT_MAX; lia); split_and!; [done..|]; split; [by intros v0 ?%elem_of_nil|done]);
    try (destruct (N.eqb_spec k' k) as [->|Hne]; [exists (Some v'), (External k v); split_and!; [done..|]; split; [by left|apply perm_swap]|]).
  - done.
  - exfalso. cbn [wf] in Hwf. unfold span in Hwf. change (16 ^ N.of_nat 0)%N with 1%N in Hwf. rewrite !N.div_1_r in Hwf. done.
  - cbn [wf] in Hwf. destruct Hwf as [Hok Hnz]. replace (16 - S n) with (15 - n) by lia. rewrite chunk_spec, idx_next by lia. cbn [mbind outcome_bind].
    destruct (node_insert n fuel _ cnt0 ch k v (IH fuel ltac:(lia) ltac:(lia)) ltac:(lia) Hok eq_refl) as (c & r & cnt' & c' & Hc & Hi & Hok' & Hnz' & Hrep). rewrite (vec_get_Some _ _ _ Hc). cbn [mbind outcome_bind]. rewrite Hi. cbn [mbind outcome_bind]. by exists r, (Internal (mkTrieNode cnt' (<[digit n k := c']> ch))).
  - cbn [wf] in Hwf. replace (16 - S n) with (15 - n) by lia. unfold new_node at 1. cbv iota. rewrite !chunk_spec, !idx_next by lia. cbn [mbind outcome_bind].
    destruct (node_insert n fuel _ 0 (replicate 16 Nothing) k' v' (IH fuel ltac:(lia) ltac:(lia)) ltac:(lia) (new_node_ok n (k / span (S n))) Hwf) as (c1 & r1 & cnt1 & c1' & Hc1 & Hi1 & Hok1 & _ & Hrep1).
    rewrite (vec_get_Some _ _ _ Hc1). cbn [mbind outcome_bind]. rewrite Hi1. cbn [mbind outcome_bind]. set (ch1 := <[digit n k' := c1']> (replicate 16 Nothing)) in *.
    destruct (node_insert n fuel _ cnt1 ch1 k v (IH fuel ltac:(lia) ltac:(lia)) ltac:(lia) Hok1 eq_refl) as (c2 & r2 & cnt2 & c2' & Hc2 & Hi2 & Hok2 & Hnz2 & Hrep2).
    rewrite (vec_get_Some _ _ _ Hc2). cbn [mbind outcome_bind]. rewrite Hi2. cbn [mbind outcome_bind]. eexists _, _. split; [done|]. split; [done|]. split; [done|]. cbn [child_entries]. fold (all_entries (<[digit n k := c2']> ch1)).
    assert (all_entries ch1 ≡ₚ [(k', v')]) as He1. { destruct r1 as [v0|]; [destruct Hrep1 as [Hin _]; by apply elem_of_nil in Hin|by destruct Hrep1 as [_ ->]]. }
    destruct r2 as [v0|]; cbn [replaced] in *; rewrite He1 in Hrep2; [destruct Hrep2 as [[= -> ->]%list_elem_of_singleton _]; done|]. destruct Hrep2 as [Hno ->]. split; [|done]. intros v0. rewrite <- He1. apply Hno.
Qed.

(** * Removing *)
Definition taken (k : N) (es es' : list (N * T)) (r : option T) : Prop :=
  match r with None => es' = es ∧ ∀ v0, (k, v0) ∉ es | Some v0 => (k, v0) :: es' ≡ₚ es end.
Definition fall c c' (cnt : N) : N := if is_node c && negb (is_node c') then (cnt - 1)%N else cnt.
Definition remove_good (n fuel : nat) : Prop := ∀ cnt c k, wf n (k / span n) c → (cnt ≤ 16)%N → (is_node c = true → cnt ≠ 0%N) →
  ∃ r c', remove fuel cnt c k (N.of_nat (16 - n)) = Ok (r, fall c c' cnt, c') ∧ wf n (k / span n) c' ∧ (is_node c' = true → is_node c = true) ∧ taken k (child_entries c) (child_entries c') r.
Lemma occupied_zero ch : occupied ch = 0 → all_entries ch = [].
Proof using. unfold occupied. induction ch as [|[x|k v|] ch IH]; cbn; [done|lia|lia|]. intros Hz. by apply IH. Qed.
Lemma node_remove n fuel pre cnt ch k : remove_good n fuel → n ≤ 15 → node_ok (wf n) pre (mkTrieNode cnt ch) → (k / span (S n) = pre)%N →
  ∃ c r cnt' c', ch !! digit n k = Some c ∧ remove fuel cnt c k (N.of_nat (16 - n)) = Ok (r, cnt', c') ∧ node_ok (wf n) pre (mkTrieNode cnt' (<[digit n k := c']> ch)) ∧
    taken k (all_entries ch) (all_entries (<[digit n k := c']> ch)) r.
Proof using.
  intros Hrem Hn Hok Hk. destruct (node_child n pre _ k Hok Hk) as (c & Hc & Hwf). cbn [children] in Hc. pose proof Hok as [Hl Hcnt _]. cbn [children count] in Hl, Hcnt. pose proof (occupied_le ch) as Ho.
  assert (is_node c = true → cnt ≠ 0%N) as Hnz. { intros E. pose proof (occupied_set ch _ c Nothing Hc) as Hz. rewrite E in Hz. cbn in Hz. lia. }
  destruct (Hrem cnt c k Hwf ltac:(lia) Hnz) as (r & c' & Hi & Hwf' & Hnode & Hrep). exists c, r, (fall c c' cnt), c'. pose proof (occupied_set ch _ c c' Hc) as Hos. pose proof (lookup_lt_Some _ _ _ Hc) as Hlt.
  split_and!; [done|done|eapply node_set; [done..|]|].
  { unfold fall. destruct (is_node c), (is_node c'); cbn [andb negb] in *; naive_solver lia. }
  rewrite (all_entries_at ch _ c Hc), all_entries_set by done. destruct r as [v0|]; cbn [taken] in *.
  - rewrite <- Hrep. cbn. rewrite Permutation_middle. done.
  - destruct Hrep as [-> Hno]. split; [done|]. intros v0. rewrite <- all_entries_at by done. exact (node_absent n pre (mkTrieNode cnt ch) k c Hok Hc Hno v0).
Qed.
Lemma removed_external n k' v' cnt k : wf n (k / span n) (External k' v') → cnt ≠ 0%N → (cnt ≤ 16)%N →
  ∃ r c', (if (k' =? k)%N then Ok (Some v', true, Nothing) else Ok (None, false, External k' v')) ≫= (λ '(ret, this, child), if (this : bool) then Ok (ret, usub cnt 1, Nothing) else Ok (ret, cnt, child))
      = Ok (r, fall (External k' v') c' cnt, c') ∧ wf n (k / span n) c' ∧ (is_node c' = true → is_node (External k' v') = true) ∧ taken k [(k', v')] (child_entries c') r.
Proof using.
  intros Hwf Hnz Hc. destruct (N.eqb_spec k' k) as [->|Hne]; cbn [mbind outcome_bind].
  - rewrite usub_small by (unfold UINT_MAX; lia). exists (Some v'), Nothing. split; [done|]. split; [by destruct n|]. split; [done|]. cbn. reflexivity.
  - exists None, (External k' v'). split; [done|]. split; [done|]. split; [done|]. split; [done|]. by intros v0 [= -> ->]%list_elem_of_singleton.
Qed.
Lemma trie_remove_spec n : ∀ fuel, n < fuel → n ≤ 15 → remove_good n fuel.
Proof using.
  induction n as [|n IH]; intros [|fuel] Hf Hn cnt c k Hwf Hcnt Hnz; try lia; cbn [remove]; destruct c as [[cnt0 ch]|k' v'|];
    try (exists None, Nothing; split_and!; [done..|]; split; [done|by intros v0 ?%elem_of_nil]);
    try (apply removed_external; [done|by apply Hnz|done]).
  - done.
  - cbn [wf] in Hwf. destruct Hwf as [Hok Hnz0]. replace (16 - S n) with (15 - n) by lia. rewrite chunk_spec, idx_next by lia. cbn [mbind outcome_bind].
    destruct (node_remove n fuel _ cnt0 ch k (IH fuel ltac:(lia) ltac:(lia)) ltac:(lia) Hok eq_refl) as (c & r & cnt' & c' & Hc & Hi & Hok' & Hrep). rewrite (vec_get_Some _ _ _ Hc). cbn [mbind outcome_bind]. rewrite Hi. cbn [mbind outcome_bind].
    destruct (N.eqb_spec cnt' 0) as [->|Hnz'].
    + specialize (Hnz eq_refl). rewrite usub_small by (unfold UINT_MAX; lia). exists r, Nothing. split_and!; [done..|]. pose proof Hok' as [_ Hz _]. cbn [count children] in Hz. rewrite (occupied_zero (<[digit n k := c']> ch)) in Hrep by lia. done.
    + by exists r, (Internal (mkTrieNode cnt' (<[digit n k := c']> ch))).
Qed.

(** * Changing a value *)
Definition altered (k : N) (f : T → T) (es es' : list (N * T)) (r : option T) : Prop :=
  match r with None => es' = es ∧ ∀ v0, (k, v0) ∉ es | Some v => ∃ v0, v = f v0 ∧ (k, v0) ∈ es ∧ (k, v0) :: es' ≡ₚ (k, f v0) :: es end.
Definition alter_good (f : T → T) (n fuel : nat) : Prop := ∀ c k, wf n (k / span n) c →
  ∃ r c', find_mut fuel c k (N.of_nat (16 - n)) f = Ok (r, c') ∧ wf n (k / span n) c' ∧ is_node c' = is_node c ∧ altered k f (child_entries c) (child_entries c') r.
Lemma node_alter f n fuel pre cnt ch k : alter_good f n fuel → n ≤ 15 → node_ok (wf n) pre (mkTrieNode cnt ch) → (k / span (S n) = pre)%N →
  ∃ c r c', ch !! digit n k = Some c ∧ find_mut fuel c k (N.of_nat (16 - n)) f = Ok (r, c') ∧ node_ok (wf n) pre (mkTrieNode cnt (<[digit n k := c']> ch)) ∧
    altered k f (all_entries ch) (all_entries (<[digit n k := c']> ch)) r.
Proof using.
  intros Halt Hn Hok Hk. destruct (node_child n pre _ k Hok Hk) as (c & Hc & Hwf). cbn [children] in Hc. pose proof Hok as [Hl Hcnt _]. cbn [children count] in Hl, Hcnt.
  destruct (Halt c k Hwf) as (r & c' & Hi & Hwf' & Hnode & Hrep). exists c, r, c'. pose proof (occupied_set ch _ c c' Hc) as Hos. pose proof (lookup_lt_Some _ _ _ Hc) as Hlt. rewrite Hnode in Hos.
  split_and!; [done|done|eapply node_set; [done..|destruct (is_node c); lia]|]. rewrite (all_entries_at ch _ c Hc), all_entries_set by done. destruct r as [v|]; cbn [altered] in *.
  - destruct Hrep as (v0 & -> & Hin & Hp). exists v0. split_and!; [done|rewrite !elem_of_app; auto|by apply middle_perm].
  - destruct Hrep as [-> Hno]. split; [done|]. intros v0. rewrite <- all_entries_at by done. exact (node_absent n pre (mkTrieNode cnt ch) k c Hok Hc Hno v0).
Qed.
Lemma alter_spec f n : ∀ fuel, n < fuel → n ≤ 15 → alter_good f n fuel.
Proof using.
  induction n as [|n IH]; intros [|fuel] Hf Hn c k Hwf; try lia; cbn [find_mut]; destruct c as [[cnt0 ch]|k' v'|];
    try (exists None, Nothing; split_and!; [done..|]; split; [done|by intros v0 ?%elem_of_nil]);
    try (destruct (N.eqb_spec k' k) as [->|Hne];
      [exists (Some (f v')), (External k (f v')); split_and!; [done..|]; exists v'; split_and!; [done|by left|apply perm_swap]
      |exists None, (External k' v'); split_and!; [done..|]; split; [done|by intros v0 [= -> ->]%list_elem_of_singleton]]).
  - done.
  - cbn [wf] in Hwf. destruct Hwf as [Hok Hnz0]. replace (16 - S n) with (15 - n) by lia. rewrite chunk_spec, idx_next by lia. cbn [mbind outcome_bind].
    destruct (node_alter f n fuel _ cnt0 ch k (IH fuel ltac:(lia) ltac:(lia)) ltac:(lia) Hok eq_refl) as (c & r & c' & Hc & Hi & Hok' & Hrep). rewrite (vec_get_Some _ _ _ Hc). cbn [mbind outcome_bind]. rewrite Hi. cbn [mbind outcome_bind].
    by exists r, (Internal (mkTrieNode cnt0 (<[digit n k := c']> ch))).
Qed.

(** * Maps *)
Definition entries (m : TrieMap T) : list (N * T) := all_entries (children (root m)).
Record trie_ok (m : TrieMap T) (M : gmap N T) : Prop := {
  trie_root : node_ok (wf 15) 0 (root m);
  trie_entries : entries m ≡ₚ map_to_list M;
  trie_length : length_ m = N.of_nat (size M) }.
Definition uint (k : N) : Prop := (k < 2 ^ 64)%N.
Lemma uint_root k : uint k → (k / span 16 = 0)%N.
Proof using. unfold uint. intros Hk. apply N.div_small. exact Hk. Qed.
Lemma trie_in m M k v : trie_ok m M → (k, v) ∈ entries m ↔ M !! k = Some v.
Proof using. intros [_ He _]. by rewrite He, elem_of_map_to_list. Qed.
Lemma trie_sought m M k r : trie_ok m M → sought k (entries m) r → r = M !! k.
Proof using.
  intros Hm Hr. destruct r as [v|]; cbn in Hr; [symmetry; by eapply trie_in|]. destruct (M !! k) as [v|] eqn:E; [|done]. by destruct (Hr v); apply (trie_in m M).
Qed.
Lemma trie_find_spec m M k : trie_ok m M → uint k → find m k = Ok (M !! k).
Proof using.
  intros Hm Hk. unfold find. destruct (find_loop_spec 15 (S NUM_CHUNKS) 0 (root m) k) as (r & Hf & Hr); [unfold NUM_CHUNKS; lia|lia|by destruct Hm|by apply uint_root|]. change (N.of_nat (15 - 15)) with 0%N in Hf. rewrite Hf. by rewrite (trie_sought m M k r Hm Hr).
Qed.
Lemma perm_insert M k v es es' r : es ≡ₚ map_to_list M → replaced k v es es' r → r = M !! k ∧ es' ≡ₚ map_to_list (<[k := v]> M).
Proof using.
  intros He Hr. destruct r as [v0|]; cbn in Hr; destruct Hr as [Hin Hp].
  - assert (M !! k = Some v0) as Hk by (rewrite He in Hin; by apply elem_of_map_to_list). split; [done|]. rewrite <- insert_delete_eq, map_to_list_insert by apply lookup_delete_eq.
    rewrite He, <- (map_to_list_delete M k v0 Hk), perm_swap in Hp. by apply Permutation_cons_inv in Hp.
  - assert (M !! k = None) as Hk. { destruct (M !! k) as [v1|] eqn:E; [|done]. destruct (Hin v1). rewrite He. by apply elem_of_map_to_list. } split; [done|]. by rewrite Hp, He, map_to_list_insert.
Qed.
Lemma trie_swap_spec m M k v : trie_ok m M → uint k → (N.of_nat (size M) < UINT_MAX)%N → ∃ m', swap m k v = Ok (M !! k, m') ∧ trie_ok m' (<[k := v]> M).
Proof using.
  intros [Hok He Hl] Hk Hs. unfold swap, entries in *. destruct m as [[cnt ch] len]. cbn [root length_ children] in *. change 0%N with (N.of_nat (15 - 15)) at 1. rewrite chunk_spec by lia. cbn [mbind outcome_bind].
  destruct (node_insert 15 (S NUM_CHUNKS) 0 cnt ch k v) as (c & r & cnt' & c' & Hc & Hi & Hok' & _ & Hrep); [apply insert_spec; unfold NUM_CHUNKS; lia|lia|done|by apply uint_root|].
  rewrite (vec_get_Some _ _ _ Hc). cbn [mbind outcome_bind]. change (N.of_nat (16 - 15)) with 1%N in Hi. rewrite Hi. cbn [mbind outcome_bind]. destruct (perm_insert M k v _ _ r He Hrep) as [-> Hp]. eexists. split; [done|]. split; [done|done|]. cbn [length_].
  rewrite map_size_insert. destruct (M !! k); cbn [is_some]; [done|]. rewrite Hl, uadd_small by lia. lia.
Qed.
Lemma trie_pop_spec m M k : trie_ok m M → uint k → (N.of_nat (size M) ≤ UINT_MAX)%N → ∃ m', pop m k = Ok (M !! k, m') ∧ trie_ok m' (delete k M).
Proof using.
  intros Hm Hk Hs. pose proof Hm as [Hok He Hl]. unfold pop, entries in *. destruct m as [[cnt ch] len]. cbn [root length_ children] in *. change 0%N with (N.of_nat (15 - 15)) at 1. rewrite chunk_spec by lia. cbn [mbind outcome_bind].
  destruct (node_remove 15 (S NUM_CHUNKS) 0 cnt ch k) as (c & r & cnt' & c' & Hc & Hi & Hok' & Hrep); [apply trie_remove_spec; unfold NUM_CHUNKS; lia|lia|done|by apply uint_root|].
  rewrite (vec_get_Some _ _ _ Hc). cbn [mbind outcome_bind]. change (N.of_nat (16 - 15)) with 1%N in Hi. rewrite Hi. cbn [mbind outcome_bind]. destruct r as [v0|]; cbn [taken is_some] in *.
  - assert (M !! k = Some v0) as E by (apply elem_of_map_to_list; rewrite <- He, <- Hrep; left). rewrite E. eexists. split; [done|]. split; [done| |].
    + unfold entries. cbn [root children]. rewrite He, <- (map_to_list_delete M k v0 E) in Hrep. by apply Permutation_cons_inv in Hrep.
    + cbn [length_]. rewrite map_size_delete, E. cbn. assert (size M ≠ 0) by (eapply map_size_ne_0_lookup_2; by eexists). rewrite Hl, usub_small by lia. lia.
  - destruct Hrep as [Hsame Hno]. assert (M !! k = None) as E. { destruct (M !! k) as [v1|] eqn:E; [|done]. destruct (Hno v1). rewrite He. by apply elem_of_map_to_list. }
    rewrite E, delete_id by done. eexists. split; [done|]. split; [done|unfold entries; cbn [root children]; by rewrite Hsame|done].
Qed.
Lemma trie_map_find_mut_spec m M k f : trie_ok m M → uint k → ∃ m', map_find_mut m k f = Ok (f <$> M !! k, m') ∧ trie_ok m' (alter f k M).
Proof using.
  intros Hm Hk. pose proof Hm as [Hok He Hl]. unfold map_find_mut, entries in *. destruct m as [[cnt ch] len]. cbn [root length_ children] in *. change 0%N with (N.of_nat (15 - 15)) at 1. rewrite chunk_spec by lia. cbn [mbind outcome_bind].
  destruct (node_alter f 15 (S NUM_CHUNKS) 0 cnt ch k) as (c & r & c' & Hc & Hi & Hok' & Hrep); [apply alter_spec; unfold NUM_CHUNKS; lia|lia|done|by apply uint_root|].
  rewrite (vec_get_Some _ _ _ Hc). cbn [mbind outcome_bind]. change (N.of_nat (16 - 15)) with 1%N in Hi. rewrite Hi. cbn [mbind outcome_bind].
  assert (length_ (mkTrieMap (mkTrieNode cnt (<[digit 15 k := c']> ch)) len) = N.of_nat (size (alter f k M))) as Hlen by (cbn; by rewrite <- !(size_dom (D := gset N)), dom_alter_L, size_dom).
  destruct r as [v|]; cbn [altered] in *.
  - destruct Hrep as (v0 & -> & Hin & Hp). assert (M !! k = Some v0) as E by (apply elem_of_map_to_list; by rewrite <- He). rewrite E. eexists. split; [done|]. split; [done| |done]. unfold entries. cbn [root children].
    destruct (perm_insert M k (f v0) _ (all_entries (<[digit 15 k := c']> ch)) (Some v0) He (conj Hin Hp)) as [_ ->].
    replace (alter f k M) with (<[k := f v0]> M); [done|]. apply map_eq. intros i. destruct (decide (i = k)) as [->|]; [by rewrite lookup_insert_eq, lookup_alter_eq, E|by rewrite lookup_insert_ne, lookup_alter_ne].
  - destruct Hrep as [Hsame Hno]. assert (M !! k = None) as E. { destruct (M !! k) as [v1|] eqn:E; [|done]. destruct (Hno v1). rewrite He. by apply elem_of_map_to_list. }
    rewrite E. eexists. split; [done|]. split; [done| |done]. unfold entries. cbn [root children]. rewrite Hsame, He. f_equiv. apply map_eq. intros i. destruct (decide (i = k)) as [->|]; [by rewrite lookup_alter_eq, E|by rewrite lookup_alter_ne].
Qed.
Lemma new_ok : trie_ok (@new T) ∅.
Proof using. split; [apply new_node_ok|done|by rewrite map_size_empty]. Qed.
Lemma trie_sorted m M : trie_ok m M → StronglySorted key_lt (entries m).
Proof using. intros [[_ _ Hch] _ _]. apply (sorted_blocks 15 0 _ 0). intros i c Hc. split; [by apply Hch|]. by eapply wf_sorted, Hch. Qed.

(** * Iterators *)
Definition slot (st : list (list (Child T))) (t : nat) : list (Child T) := default [] (st !! t).
(** The entries below the first [w] slots of the stack, the last slot first. *)
Fixpoint pend (st : list (list (Child T))) (w : nat) : list (N * T) :=
  match w with 0 => [] | S t => all_entries (slot st t) ++ pend st t end.
(** Slot [t] holds children with [15 - t] levels: the stack is deep enough. *)
Record levels (st : list (list (Child T))) (w : nat) : Prop := {
  levels_length : length st = 16;
  levels_depth : w ≤ 16;
  levels_slot : ∀ t c, t < w → c ∈ slot st t → ∃ pre, wf (15 - t) pre c }.
Fixpoint weight c : nat := match c with Internal (mkTrieNode _ l) => 2 + list_sum (map weight l) | _ => 1 end.
Definition weights ch : nat := list_sum (map weight ch).
Fixpoint work (st : list (list (Child T))) (w : nat) : nat := match w with 0 => 0 | S t => 1 + weights (slot st t) + work st t end.

Lemma slot_eq st t l : t < length st → slot (<[t := l]> st) t = l.
Proof using. intros Ht. unfold slot. by rewrite list_lookup_insert_eq. Qed.
Lemma slot_ne st t u l : t ≠ u → slot (<[t := l]> st) u = slot st u.
Proof using. intros Ht. unfold slot. by rewrite list_lookup_insert_ne. Qed.
Lemma pend_set st t l w : w ≤ t → pend (<[t := l]> st) w = pend st w.
Proof using. induction w as [|w IH]; intros Hw; cbn [pend]; [done|]. by rewrite IH, slot_ne by lia. Qed.
Lemma work_set st t l w : w ≤ t → work (<[t := l]> st) w = work st w.
Proof using. induction w as [|w IH]; intros Hw; cbn [work]; [done|]. by rewrite IH, slot_ne by lia. Qed.
Lemma levels_le st w w' : levels st w → w' ≤ w → levels st w'.
Proof using. intros [H1 H2 H3] Hw. split; [done|lia|]. intros t c Ht. apply H3. lia. Qed.
Lemma levels_set st t l w : levels st w → w ≤ S t → t < 16 → (t < w → ∀ c, c ∈ l → ∃ pre, wf (15 - t) pre c) → levels (<[t := l]> st) w.
Proof using.
  intros [H1 H2 H3] Hw Ht Hl. split; [by rewrite length_insert|done|]. intros u c Hu Hc. destruct (decide (t = u)) as [<-|Hne]; [rewrite slot_eq in Hc by lia; by apply Hl|]. rewrite slot_ne in Hc by done. by apply H3.
Qed.
Lemma node_levels n pre node c : node_ok (wf n) pre node → c ∈ children node → ∃ pre', wf n pre' c.
Proof using. intros [_ _ Hch] [i Hi]%list_elem_of_lookup. eexists. by eapply Hch. Qed.

(** What [next] gives when [l] is pending. *)
Definition stepped (it : Entries T) (l : list (N * T)) (it' : Entries T) : Prop :=
  levels (stack it') (depth it') ∧ pend (stack it') (depth it') = tail l ∧
  match l with
  | [] => remaining_min it' = remaining_min it ∧ remaining_max it' = remaining_max it
  | _ => remaining_min it' = (if 0 <? remaining_min it then usub (remaining_min it) 1 else remaining_min it)%N ∧ remaining_max it' = usub (remaining_max it) 1
  end.
Lemma pend_nil st w : (∀ t, t < w → slot st t = []) → pend st w = [].
Proof using. induction w as [|w IH]; intros Hw; cbn [pend]; [done|]. rewrite Hw by lia. apply IH. intros t Ht. apply Hw. lia. Qed.
Lemma next_loop_mono fuel : ∀ (it : Entries T) w r fuel', next_loop fuel it w = Ok r → fuel ≤ fuel' → next_loop fuel' it w = Ok r.
Proof using.
  induction fuel as [|fuel IH]; intros it w r [|fuel'] Hr Hf; try done; try lia. cbn [next_loop] in *. destruct w as [|top]; [done|]. destruct (stack it !! top) as [[|[node|k v|] rest]|]; try done; try (eapply IH; [exact Hr|lia]).
  unfold push_at in *. destruct (_ <? _); [|done]. cbn [mbind outcome_bind] in *. eapply IH; [exact Hr|lia].
Qed.
Lemma next_loop_spec fuel : ∀ it w, work (stack it) w < fuel → levels (stack it) w → depth it ≤ 16 → (∀ t, w ≤ t → t < depth it → slot (stack it) t = []) →
  ∃ it', next_loop fuel it w = Ok (head (pend (stack it) w), it') ∧ stepped it (pend (stack it) w) it'.
Proof using.
  induction fuel as [|fuel IH]; intros it w Hf Hlv Hd He; [lia|]. destruct w as [|top]; cbn [next_loop].
  { exists it. split; [done|]. assert (∀ t, t < depth it → slot (stack it) t = []) as Hz by (intros t Ht; apply He; lia). split; [|split; [by apply pend_nil|done]].
    destruct Hlv as [Hl _ _]. split; [done|done|]. intros t c Ht Hc. rewrite Hz in Hc by done. by apply elem_of_nil in Hc. }
  pose proof Hlv as [Hl Hw Hs]. destruct (lookup_lt_is_Some_2 (stack it) top) as [sl Hsl]; [lia|]. rewrite Hsl. assert (slot (stack it) top = sl) as Hslot by (unfold slot; by rewrite Hsl). cbn [pend work] in *. rewrite Hslot in *.
  destruct sl as [|child rest].
  { cbn [all_entries flat_map app]. destruct (IH it top) as (it' & Hn & Hst); [lia|by eapply levels_le, Nat.le_succ_diag_r|done| |by exists it'].
    intros t Ht Htd. destruct (decide (t = top)) as [->|]; [done|]. apply He; lia. }
  assert (∀ t c, t < S top → c ∈ slot (<[top := rest]> (stack it)) t → ∃ pre, wf (15 - t) pre c) as Hs'.
  { intros t c Ht Hc. apply (Hs t c Ht). destruct (decide (top = t)) as [<-|Hne]; [|by rewrite slot_ne in Hc]. rewrite slot_eq in Hc by lia. rewrite Hslot. by right. }
  assert (levels (<[top := rest]> (stack it)) (S top)) as Hlv' by (split; [by rewrite length_insert|done|done]).
  assert (∀ t, S top ≤ t → t < depth it → slot (<[top := rest]> (stack it)) t = []) as He' by (intros t Ht Htd; rewrite slot_ne by lia; by apply He).
  destruct (Hs top child ltac:(lia)) as [pre Hwf]; [rewrite Hslot; left|]. change (weights (child :: rest)) with (weight child + weights rest) in Hf.
  destruct child as [[cnt ch]|k v|]; cbn [children] in *.
  - destruct (15 - top) as [|n] eqn:En; cbn [wf] in Hwf; [done|]. destruct Hwf as [Hok _]. unfold push_at. rewrite length_insert, Hl. destruct (Nat.ltb_spec (S top) 16); [|lia]. cbn [mbind outcome_bind].
    set (st := <[S top := ch]> (<[top := rest]> (stack it))). assert (pend st (S (S top)) = all_entries (Internal (mkTrieNode cnt ch) :: rest) ++ pend (stack it) top) as Hp.
    { unfold st. cbn [pend]. rewrite slot_eq, slot_ne, slot_eq, !pend_set by (rewrite ?length_insert; lia). cbn [all_entries flat_map child_entries]. by rewrite app_assoc. }
    assert (work st (S (S top)) < fuel) as Hwk. { unfold st. cbn [work]. rewrite slot_eq, slot_ne, slot_eq, !work_set by (rewrite ?length_insert; lia). cbn [weight] in Hf. fold (weights ch) in Hf. lia. }
    rewrite <- Hp. apply (IH (mkEntries st (depth it) (remaining_min it) (remaining_max it)) (S (S top))); cbn [stack depth]; [done| |done|].
    + unfold st. split; [by rewrite !length_insert|lia|]. intros t c Ht Hc. destruct (decide (S top = t)) as [<-|Hne]; [|rewrite slot_ne in Hc by done; apply Hs'; [lia|done]].
      rewrite slot_eq in Hc by (rewrite length_insert; lia). replace (15 - S top) with n by lia. by eapply (node_levels n pre (mkTrieNode cnt ch)).
    + intros t Ht Htd. unfold st. rewrite slot_ne by lia. apply He'; lia.
  - eexists. split; [done|]. split; [done|]. split; [|done]. cbn [stack depth pend]. by rewrite slot_eq, pend_set by lia.
  - destruct (IH (mkEntries (<[top := rest]> (stack it)) (depth it) (remaining_min it) (remaining_max it)) (S top)) as (it' & Hn & Hst); cbn [stack depth work] in *; [|done|done|done|].
    + rewrite slot_eq, work_set by lia. cbn [weight] in Hf. lia.
    + cbn [pend] in Hn, Hst. rewrite slot_eq, pend_set in Hn, Hst by lia. by exists it'.
Qed.

Definition pending (it : Entries T) (l : list (N * T)) : Prop :=
  levels (stack it) (depth it) ∧ pend (stack it) (depth it) = l ∧ (remaining_min it ≤ N.of_nat (length l) ≤ remaining_max it)%N ∧ (remaining_max it ≤ UINT_MAX)%N.
Lemma pending_next it l : pending it l → ∃ it', (λ fuel, Entries_next fuel it) ⇓ (head l, it') ∧ pending it' (tail l).
Proof using.
  intros (Hlv & Hp & Hb & Hu). assert (∀ fuel, S (work (stack it) (depth it)) ≤ fuel → ∃ it', next_loop fuel it (depth it) = Ok (head l, it') ∧ stepped it l it') as Hn.
  { intros fuel Hf. rewrite <- Hp. apply next_loop_spec; [lia|done|by destruct Hlv|lia]. }
  destruct (Hn _ (le_n _)) as (it' & Hr & Hlv' & Hp' & Hm). exists it'. split.
  - exists (S (work (stack it) (depth it))). intros fuel Hf. unfold Entries_next. by apply (next_loop_mono _ _ _ _ _ Hr).
  - split; [done|]. split; [done|]. destruct l as [|x l]; cbn [tail length] in *; destruct Hm as [-> ->]; [done|]. destruct (N.ltb_spec 0 (remaining_min it)); rewrite ?usub_small by lia; lia.
Qed.

Lemma trie_len m M : trie_ok m M → length (entries m) = size M.
Proof using. intros [_ He _]. by rewrite He, length_map_to_list. Qed.
Lemma iter_pending m M : trie_ok m M → (N.of_nat (size M) ≤ UINT_MAX)%N → pending (iter m) (entries m).
Proof using.
  intros Hm Hs. rewrite <- (trie_len m M Hm) in Hs. pose proof (trie_length m M Hm) as Hl. rewrite <- (trie_len m M Hm) in Hl. destruct Hm as [Hok _ _]. unfold pending, iter, Entries_new, entries in *. cbn [stack depth remaining_min remaining_max]. split; [|split].
  - split; [done|lia|]. intros [|t] c Ht Hc; [|lia]. by eapply (node_levels 15).
  - cbn. apply app_nil_r.
  - rewrite Hl. split; [lia|done].
Qed.

(** * Bounds *)
Definition reaches (k : N) (upper : bool) (x : N * T) : bool := negb ((x.1 <? k)%N || (upper && (x.1 =? k)%N)).
Lemma reaches_false k x : reaches k false x = (k <=? x.1)%N.
Proof using. unfold reaches. destruct (N.ltb_spec x.1 k), (N.leb_spec k x.1); cbn; lia || done. Qed.
Lemma reaches_true k x : reaches k true x = (k <? x.1)%N.
Proof using. unfold reaches. destruct (N.ltb_spec x.1 k), (N.eqb_spec x.1 k), (N.ltb_spec k x.1); cbn; lia || done. Qed.
Lemma filter_yes {A} (f : A → bool) l : (∀ x, x ∈ l → f x = true) → List.filter f l = l.
Proof using. induction l as [|x l IH]; intros Hf; cbn; [done|]. rewrite Hf by left. f_equal. apply IH. intros y Hy. apply Hf. by right. Qed.
Lemma filter_no {A} (f : A → bool) l : (∀ x, x ∈ l → f x = false) → List.filter f l = [].
Proof using. induction l as [|x l IH]; intros Hf; cbn; [done|]. rewrite Hf by left. apply IH. intros y Hy. apply Hf. by right. Qed.
Lemma div_lt_mono (a b d : N) : (a / d < b / d → a < b)%N.
Proof using. intros Hd. destruct (N.lt_ge_cases a b) as [|Hge]; [done|]. pose proof (N.Div0.div_le_mono b a d Hge). lia. Qed.
(** The children before the chunk of [k] are too small, those after it are not. *)
Lemma node_reaches n pre node k upper c : node_ok (wf n) pre node → (k / span (S n) = pre)%N → children node !! digit n k = Some c →
  List.filter (reaches k upper) (all_entries (children node)) = List.filter (reaches k upper) (child_entries c) ++ all_entries (drop (S (digit n k)) (children node)).
Proof using.
  intros [_ _ Hch] Hk Hc. rewrite (all_entries_at _ _ c Hc), !List.filter_app. pose proof (digit_down n k pre Hk) as Hd. rewrite (filter_no _ (all_entries (take _ _))), (filter_yes _ (all_entries (drop _ _))); [done| |].
  - intros [k' v] (i & d & Hi & Hx)%elem_of_all. rewrite lookup_drop in Hi. pose proof (wf_keys n _ d k' v (Hch _ d Hi) Hx) as Hk'. assert (k < k')%N by (apply (div_lt_mono _ _ (span n)); lia). unfold reaches. cbn [fst].
    destruct (N.ltb_spec k' k), (N.eqb_spec k' k); try lia; by destruct upper.
  - intros [k' v] (i & d & Hi & Hx)%elem_of_all. apply lookup_take_Some in Hi as [Hi Hlt]. pose proof (wf_keys n _ d k' v (Hch _ d Hi) Hx) as Hk'. assert (k' < k)%N by (apply (div_lt_mono _ _ (span n)); lia). unfold reaches. cbn [fst].
    by destruct (N.ltb_spec k' k); [|lia].
Qed.
Lemma levels_push n pre node st d i : node_ok (wf n) pre node → n ≤ 15 → d = 15 - n → levels st d → levels (<[d := drop i (children node)]> st) (S d).
Proof using.
  intros Hok Hn Hd [Hl Hw Hs]. split; [by rewrite length_insert|lia|]. intros t c Ht Hc. destruct (decide (d = t)) as [<-|Hne]; [|rewrite slot_ne in Hc by done; apply Hs; [lia|done]].
  rewrite slot_eq in Hc by lia. replace (15 - d) with n by lia. eapply node_levels; [done|]. apply list_elem_of_lookup in Hc as [j Hj]. rewrite lookup_drop in Hj. by eapply list_elem_of_lookup_2.
Qed.
Lemma bound_loop_spec n : ∀ fuel pre node it k upper, n < fuel → n ≤ 15 → depth it = 15 - n → levels (stack it) (depth it) → node_ok (wf n) pre node → (k / span (S n) = pre)%N →
  ∃ it', bound_loop fuel node it k upper = Ok it' ∧ levels (stack it') (depth it') ∧ remaining_min it' = remaining_min it ∧ remaining_max it' = remaining_max it ∧
    pend (stack it') (depth it') = List.filter (reaches k upper) (all_entries (children node)) ++ pend (stack it) (depth it).
Proof using.
  induction n as [|n IH]; intros [|fuel] pre node it k upper Hf Hn Hd Hlv Hok Hk; try lia; cbn [bound_loop]; rewrite (chunk_depth _ k _ Hn Hd); cbn [mbind outcome_bind];
    destruct (node_child _ pre node k Hok Hk) as (c & Hc & Hwf); rewrite (vec_get_Some _ _ _ Hc); cbn [mbind outcome_bind];
    pose proof Hlv as [Hl Hw _]; rewrite vec_set_in by lia; cbn [mbind outcome_bind]; rewrite (node_reaches _ pre node k upper c Hok Hk Hc);
    destruct c as [x|k' v'|];
    try (eexists; split; [reflexivity|]; split; [cbn; by eapply levels_push|]; split; [done|]; split; [done|]; cbn [stack depth pend]; rewrite slot_eq, pend_set by lia;
      unfold reaches; cbn [child_entries List.filter fst app]; try match goal with |- context [orb ?a ?b] => destruct (orb a b) end; cbn [negb app]; rewrite ?(drop_S _ _ _ Hc); done).
  - done.
  - cbn [wf] in Hwf. destruct Hwf as [Hx _]. set (it1 := mkEntries _ _ _ _).
    destruct (IH fuel _ x it1 k upper ltac:(lia) ltac:(lia) ltac:(cbn; lia) ltac:(cbn; by eapply levels_push) Hx eq_refl) as (it' & -> & Hlv' & Hmin & Hmax & Hp). exists it'. split_and!; [done|done|done|done|].
    rewrite Hp. unfold it1. cbn [stack depth pend]. rewrite slot_eq, pend_set by lia. destruct x as [cnt ch]. cbn [child_entries children]. by rewrite app_assoc.
Qed.
Lemma filter_length_le {A} (f : A → bool) l : length (List.filter f l) ≤ length l.
Proof using. induction l as [|x l IH]; cbn; [done|]. destruct (f x); cbn; lia. Qed.
Lemma bound_spec m M k upper : trie_ok m M → uint k → (N.of_nat (size M) ≤ UINT_MAX)%N → ∃ it, bound m k upper = Ok it ∧ pending it (List.filter (reaches k upper) (entries m)).
Proof using.
  intros Hm Hk Hs. pose proof (trie_len m M Hm) as Hlen. pose proof Hm as [Hok _ Hl]. unfold bound. destruct (bound_loop_spec 15 (S NUM_CHUNKS) 0 (root m) (mkEntries (stack Entries_new) 0 0 (length_ m)) k upper) as (it & -> & Hlv & Hmin & Hmax & Hp); [unfold NUM_CHUNKS; lia|lia|done| |done|by apply uint_root|].
  { split; [done|cbn; lia|]. cbn. lia. }
  cbn [stack depth pend remaining_min remaining_max] in *. rewrite app_nil_r in Hp. exists it. split; [done|]. split; [done|]. split; [done|]. rewrite Hmin, Hmax, Hl. pose proof (filter_length_le (reaches k upper) (entries m)). lia.
Qed.

(** * Reverse iteration *)
Section reverse.
Context {St : Type} (f : N → T → St → St * bool).
(** The entries in turn, until the closure says to stop. *)
Fixpoint until (l : list (N * T)) (s : St) : St * bool :=
  match l with [] => (s, true) | (k, v) :: l => let '(s, go) := f k v s in if (go : bool) then until l s else (s, false) end.
Lemma until_app l l' s : until (l ++ l') s = let '(s, go) := until l s in if (go : bool) then until l' s else (s, false).
Proof using. revert s. induction l as [|[k v] l IH]; intros s; cbn; [done|]. destruct (f k v s) as [s' [|]]; [apply IH|done]. Qed.
Lemma rev_children_spec each l : (∀ x, Internal x ∈ l → ∀ s, each x s = Ok (until (rev (all_entries (children x))) s)) →
  ∀ s, rev_children f each l s = Ok (until (rev (all_entries (rev l))) s).
Proof using.
  induction l as [|c l IH]; intros He s; cbn [rev_children rev]; [done|]. rewrite all_entries_app, rev_app_distr, until_app. cbn [all_entries flat_map]. rewrite app_nil_r.
  assert (match c with Internal x => each x s | External k v => Ok (f k v s) | Nothing => Ok (s, true) end = Ok (until (rev (child_entries c)) s)) as ->.
  { destruct c as [x|k v|]; [rewrite He by left; by destruct x| |done]. cbn. by destruct (f k v s) as [s' [|]]. }
  cbn [mbind outcome_bind]. destruct (until _ s) as [s' [|]]; [|done]. apply IH. intros x Hx. apply He. by right.
Qed.
Lemma node_each_reverse_spec n : ∀ fuel pre node s, n < fuel → node_ok (wf n) pre node → node_each_reverse f fuel node s = Ok (until (rev (all_entries (children node))) s).
Proof using.
  induction n as [|n IH]; intros [|fuel] pre node s Hf Hok; try lia; cbn [node_each_reverse]; (rewrite rev_children_spec; [by rewrite rev_involutive|]); intros x Hx s'; apply list_elem_of_In, in_rev, list_elem_of_In in Hx; destruct (node_levels _ _ _ _ Hok Hx) as [pre' Hwf]; cbn [wf] in Hwf; [done|].
  destruct Hwf as [Hx' _]. eapply IH; [lia|done].
Qed.
Lemma each_reverse_spec m M s : trie_ok m M → each_reverse f m s = Ok (until (rev (entries m)) s).
Proof using. intros [Hok _ _]. eapply node_each_reverse_spec; [|done]. unfold NUM_CHUNKS. lia. Qed.
End reverse.
End Trie.

#[export] Instance TrieEntries_ok T : IteratorOk (Entries T) (N * T).
Proof.
  refine {| models := pending; next_ok := pending_next |}. intros it l (_ & _ & Hb & _). exact Hb.
Defined.
#[export] Instance TrieSetItems_ok : IteratorOk SetItems N.
Proof.
  refine {| models it l := ∃ es, l = es.*1 ∧ pending (set_entries it) es |}.
  - intros it l (es & -> & Hp). destruct (pending_next _ _ Hp) as (e & He & Hp'). exists (mkSetItems e). split; [|exists (tail es); split; [by destruct es|done]].
    cbn [next SetItems_Iterator]. unfold SetItems_next. run He. destruct es; apply ends_ret.
  - intros it l (es & -> & _ & _ & Hb & _). rewrite length_fmap. exact Hb.
Defined.

(** * Sequences of operations *)
Section Sequences.
Context {T : Type}.
Implicit Types m : TrieMap T.
Implicit Types M : gmap N T.
Implicit Types v : T.
Inductive op : Type :=
| Swap (k : N) (v : T) | Insert (k : N) (v : T) | Pop (k : N) | Remove (k : N) | Find (k : N) | Contains (k : N) | FindMut (k : N) (f : T → T) | Clear | Len | Extend (l : list (N * T)).
Inductive answer : Type := Val (r : option T) | Flag (b : bool) | Num (n : N) | Done.
Definition step (m : TrieMap T) (o : op) : outcome (answer * TrieMap T) :=
  match o with
  | Swap k v => '(r, m) ← swap m k v; Ok (Val r, m)
  | Insert k v => '(b, m) ← map_insert m k v; Ok (Flag b, m)
  | Pop k => '(r, m) ← pop m k; Ok (Val r, m)
  | Remove k => '(b, m) ← map_remove m k; Ok (Flag b, m)
  | Find k => r ← find m k; Ok (Val r, m)
  | Contains k => b ← contains_key m k; Ok (Flag b, m)
  | FindMut k f => '(r, m) ← map_find_mut m k f; Ok (Val r, m)
  | Clear => Ok (Done, clear m)
  | Len => Ok (Num (len m), m)
  | Extend l => m ← extend m l; Ok (Done, m)
  end.
Fixpoint steps (m : TrieMap T) (os : list op) : outcome (list answer * TrieMap T) :=
  match os with [] => Ok ([], m) | o :: os => '(a, m) ← step m o; '(al, m) ← steps m os; Ok (a :: al, m) end.
(** The same on finite maps. *)
Definition put_all (M : gmap N T) (l : list (N * T)) : gmap N T := foldl (λ M x, <[x.1 := x.2]> M) M l.
Definition spec (M : gmap N T) (o : op) : answer * gmap N T :=
  match o with
  | Swap k v => (Val (M !! k), <[k := v]> M)
  | Insert k v => (Flag (negb (is_some (M !! k))), <[k := v]> M)
  | Pop k => (Val (M !! k), delete k M)
  | Remove k => (Flag (is_some (M !! k)), delete k M)
  | Find k => (Val (M !! k), M)
  | Contains k => (Flag (is_some (M !! k)), M)
  | FindMut k f => (Val (f <$> M !! k), alter f k M)
  | Clear => (Done, ∅)
  | Len => (Num (N.of_nat (size M)), M)
  | Extend l => (Done, put_all M l)
  end.
Fixpoint specs (M : gmap N T) (os : list op) : list answer * gmap N T :=
  match os with [] => ([], M) | o :: os => let '(a, M) := spec M o in let '(al, M) := specs M os in (a :: al, M) end.
(** The keys are machine integers; no more entries than they can count are asked for. *)
Definition keys (o : op) : list N :=
  match o with Swap k _ | Insert k _ | Pop k | Remove k | Find k | Contains k | FindMut k _ => [k] | Clear | Len => [] | Extend l => l.*1 end.
Definition asked (os : list op) : nat := sum_list_with (λ o, length (keys o)) os.
Definition sound_ops (os : list op) : Prop := Forall (λ o, Forall uint (keys o)) os ∧ (N.of_nat (asked os) ≤ UINT_MAX)%N.

Definition grows (M M' : gmap N T) (n : nat) : Prop := size M' ≤ size M + n.
Lemma grows_insert M k v : grows M (<[k := v]> M) 1.
Proof using. unfold grows. rewrite map_size_insert. destruct (M !! k); cbn; lia. Qed.
Lemma grows_delete M k : grows M (delete k M) 1.
Proof using. unfold grows. rewrite map_size_delete. destruct (M !! k); cbn; lia. Qed.
Lemma trie_put_spec m M k v : trie_ok m M → uint k → (N.of_nat (size M) < UINT_MAX)%N → ∃ m', map_insert m k v = Ok (negb (is_some (M !! k)), m') ∧ trie_ok m' (<[k := v]> M).
Proof using. intros Hm Hk Hs. destruct (trie_swap_spec m M k v Hm Hk Hs) as (m' & Hr & Hm'). exists m'. unfold map_insert. by rewrite Hr. Qed.
Lemma trie_extend_spec l : ∀ m M, trie_ok m M → Forall uint l.*1 → (N.of_nat (size M + length l) ≤ UINT_MAX)%N → ∃ m', extend m l = Ok m' ∧ trie_ok m' (put_all M l) ∧ grows M (put_all M l) (length l).
Proof using.
  induction l as [|[k v] l IH]; intros m M Hm Hk Hs; cbn [extend put_all foldl length fmap list_fmap fst snd] in *; [exists m; unfold grows; split_and!; [done|done|lia]|]. apply Forall_cons in Hk as [Hk Hl].
  destruct (trie_put_spec m M k v Hm Hk ltac:(lia)) as (m1 & -> & Hm1). cbn [mbind outcome_bind]. pose proof (grows_insert M k v) as Hg. unfold grows in *. destruct (IH m1 (<[k := v]> M) Hm1 Hl ltac:(lia)) as (m' & -> & Hm' & Hg'). exists m'. unfold put_all in *. split_and!; [done|done|lia].
Qed.
Lemma trie_step_ok m M o : trie_ok m M → Forall uint (keys o) → (N.of_nat (size M + length (keys o)) ≤ UINT_MAX)%N →
  ∃ m', step m o = Ok ((spec M o).1, m') ∧ trie_ok m' (spec M o).2 ∧ grows M (spec M o).2 (length (keys o)).
Proof using.
  intros Hm Hk Hs. destruct o as [k v|k v|k|k|k|k|k f| | |l]; cbn [step spec keys fst snd length] in *; try (rewrite Forall_singleton in Hk).
  - destruct (trie_swap_spec m M k v Hm Hk ltac:(lia)) as (m' & -> & Hm'). exists m'. split_and!; [done|done|apply grows_insert].
  - destruct (trie_put_spec m M k v Hm Hk ltac:(lia)) as (m' & -> & Hm'). exists m'. split_and!; [done|done|apply grows_insert].
  - destruct (trie_pop_spec m M k Hm Hk ltac:(lia)) as (m' & -> & Hm'). exists m'. split_and!; [done|done|apply grows_delete].
  - destruct (trie_pop_spec m M k Hm Hk ltac:(lia)) as (m' & Hp & Hm'). exists m'. unfold map_remove. rewrite Hp. split_and!; [done|done|apply grows_delete].
  - rewrite (trie_find_spec m M k Hm Hk). exists m. unfold grows. split_and!; [done|done|lia].
  - unfold contains_key. rewrite (trie_find_spec m M k Hm Hk). exists m. unfold grows. split_and!; [done|done|lia].
  - destruct (trie_map_find_mut_spec m M k f Hm Hk) as (m' & -> & Hm'). exists m'. unfold grows. split_and!; [done|done|]. rewrite <- !(size_dom (D := gset N)), dom_alter_L. lia.
  - exists new. unfold grows. split_and!; [done|apply new_ok|rewrite map_size_empty; lia].
  - exists m. unfold len, grows. rewrite (trie_length m M Hm). split_and!; [done|done|lia].
  - destruct (trie_extend_spec l m M Hm Hk) as (m' & -> & Hm' & Hg); [by rewrite length_fmap in Hs|]. exists m'. rewrite length_fmap. done.
Qed.
Lemma trie_steps_ok os : ∀ m M, trie_ok m M → Forall (λ o, Forall uint (keys o)) os → (N.of_nat (size M + asked os) ≤ UINT_MAX)%N →
  ∃ m', steps m os = Ok ((specs M os).1, m') ∧ trie_ok m' (specs M os).2 ∧ grows M (specs M os).2 (asked os).
Proof using.
  induction os as [|o os IH]; intros m M Hm Hk Hs; unfold asked in *; cbn [steps specs sum_list_with] in *; [exists m; unfold grows; split_and!; [done|done|cbn; lia]|]. apply Forall_cons in Hk as [Ho Hk].
  destruct (trie_step_ok m M o Hm Ho ltac:(lia)) as (m1 & -> & Hm1 & Hg1). cbn [mbind outcome_bind]. destruct (spec M o) as [a M1]. unfold grows in *. cbn [fst snd] in *.
  destruct (IH m1 M1 Hm1 Hk ltac:(lia)) as (m' & -> & Hm' & Hg'). cbn [mbind outcome_bind]. destruct (specs M1 os) as [al M']. cbn [fst snd] in *. exists m'. split_and!; [done|done|lia].
Qed.
Lemma sound_steps os : sound_ops os → ∃ m, steps new os = Ok ((specs ∅ os).1, m) ∧ trie_ok m (specs ∅ os).2 ∧ (N.of_nat (size (specs ∅ os).2) ≤ UINT_MAX)%N.
Proof using.
  intros [Hk Hs]. destruct (trie_steps_ok os new ∅ new_ok Hk) as (m & Hr & Hm & Hg); [by rewrite map_size_empty|]. unfold grows in Hg. rewrite map_size_empty in Hg. exists m. split_and!; [done|done|lia].
Qed.
End Sequences.
Arguments op : clear implicits.

(** * Relations between sets *)
Lemma trie_uint {T} (m : TrieMap T) M k v : trie_ok m M → (k, v) ∈ entries m → uint k.
Proof.
  intros [[Hl _ Hch] _ _] (i & c & Hi & Hx)%elem_of_all. pose proof (lookup_lt_Some _ _ _ Hi). pose proof (wf_keys 15 _ c k v (Hch i c Hi) Hx) as Hk. unfold uint. rewrite N.mul_0_l, N.add_0_l in Hk.
  pose proof (N.mul_succ_div_gt k (span 15)) as Hgt. rewrite Hk in Hgt. change (span 15) with 1152921504606846976%N in Hgt. change (2 ^ 64)%N with 18446744073709551616%N. lia.
Qed.
Lemma all_contained_spec (es : list (N * unit)) : ∀ it (other : TrieSet) M want, models it es.*1 → trie_ok other M → (∀ x, x ∈ es → uint x.1) →
  (λ fuel, all_contained fuel it other want) ⇓ forallb (λ x, Bool.eqb (is_some (M !! x.1)) want) es.
Proof.
  induction es as [|x es IH]; intros it other M want Hit Ho Hu; destruct (next_ok _ _ Hit) as (it' & Hn & Hit'); (eapply ends_S; [done|]; run Hn); cbn [fmap list_fmap head tail forallb] in *; [apply ends_ret|].
  unfold contains, contains_key. rewrite (trie_find_spec other M x.1 Ho) by (apply Hu; left). cbn [mbind outcome_bind]. destruct (Bool.eqb _ want); cbn [andb]; [|apply ends_ret]. apply IH; [done|done|]. intros y Hy. apply Hu. by right.
Qed.
Lemma all_entries_iff {T} (m : TrieMap T) M (p : N → bool) : trie_ok m M → forallb (λ x, p x.1) (entries m) = true ↔ ∀ k, k ∈ dom M → p k = true.
Proof.
  intros Hm. rewrite forallb_forall. split.
  - intros Ha k [v Hv]%elem_of_dom. apply (Ha (k, v)), list_elem_of_In. by apply (trie_in m M).
  - intros Ha [k v] Hx%list_elem_of_In. apply Ha, elem_of_dom. exists v. by apply (trie_in m M).
Qed.
Lemma is_some_dom {T} (M : gmap N T) k : is_some (M !! k) = bool_decide (k ∈ dom M).
Proof. destruct (M !! k) as [v|] eqn:E; symmetry; [apply bool_decide_eq_true_2; by eapply elem_of_dom_2|apply bool_decide_eq_false_2; by apply not_elem_of_dom]. Qed.
Lemma relation_spec (s other : TrieSet) M O want (P : Prop) `{!Decision P} : trie_ok s M → trie_ok other O → (N.of_nat (size M) ≤ UINT_MAX)%N →
  (P ↔ ∀ k, k ∈ dom M → bool_decide (k ∈ dom O) = want) → (λ fuel, all_contained fuel (set_iter s) other want) ⇓ bool_decide P.
Proof.
  intros Hs Ho Hu HP. replace (bool_decide P) with (forallb (λ x, Bool.eqb (is_some (O !! x.1)) want) (entries s)).
  - apply all_contained_spec; [|done|intros [k v]; by eapply trie_uint]. exists (entries s). split; [done|by eapply iter_pending].
  - apply eq_bool_prop_intro. rewrite bool_decide_spec, HP.
    rewrite Is_true_true, (all_entries_iff s M (λ k, Bool.eqb (is_some (O !! k)) want) Hs). setoid_rewrite Bool.eqb_true_iff. by setoid_rewrite is_some_dom.
Qed.

(** C18. A trie is a finite map on machine integers: it answers every sequence
    of operations (swapping, inserting, popping, removing, finding, changing in
    place, clearing, extending) as the finite map does; no chunk is asked for
    below the last level and no loop runs out.  At the end each count is the
    number of the occupied children, no child is an empty node, and the entries
    are in the order of their keys. *)
Theorem triemap_refines {T} (os : list (op T)) : sound_ops os →
  ∃ m, steps new os = Ok ((specs ∅ os).1, m) ∧ (∀ k, uint k → find m k = Ok ((specs ∅ os).2 !! k)) ∧
    node_ok (wf 15) 0 (root m) ∧ StronglySorted key_lt (entries m) ∧ entries m ≡ₚ map_to_list (specs ∅ os).2.
Proof.
  intros Hos. destruct (sound_steps os Hos) as (m & Hr & Hm & _). exists m. split_and!; [done|intros k; by apply trie_find_spec|apply Hm|by eapply trie_sorted|apply Hm].
Qed.
Lemma triemap_refines_witness : ∃ m, fst <$> steps new [Extend [(1, 10); (17, 20); (18446744073709551615, 30)]; Swap 17 21; Pop 1; Contains 1; FindMut 17 (N.add 1); Len]%N
    = Ok [Done; Val (Some 20); Val (Some 10); Flag false; Val (Some 22); Num 2]%N ∧ find m 17%N = Ok (Some 22%N).
Proof.
  destruct (triemap_refines [Extend [(1, 10); (17, 20); (18446744073709551615, 30)]; Swap 17 21; Pop 1; Contains 1; FindMut 17 (N.add 1); Len]%N) as (m & Hr & Hf & _).
  { split; [repeat constructor|by vm_compute]. }
  exists m. rewrite Hr, (Hf 17%N) by done. split; vm_compute; reflexivity.
Defined.

(** C19. Iterating over a trie is safe and complete: the iterators, which write
    to their stack through raw pointers, never leave its sixteen slots; from the
    start they give the entries in the order of their keys with an exact
    [size_hint]; [lower_bound] starts at the first key that is not less,
    [upper_bound] at the first that is greater; [each_reverse] visits the same
    entries from the last, until the closure says to stop. *)
Theorem trie_iteration {T} (os : list (op T)) (k : N) : sound_ops os → uint k →
  ∃ al m l lo hi, steps new os = Ok (al, m) ∧ StronglySorted key_lt l ∧ l ≡ₚ map_to_list (specs ∅ os).2 ∧
    models (iter m) l ∧ size_hint (iter m) = (N.of_nat (length l), Some (N.of_nat (length l))) ∧
    lower_bound m k = Ok lo ∧ models lo (List.filter (λ x, k <=? x.1)%N l) ∧
    upper_bound m k = Ok hi ∧ models hi (List.filter (λ x, k <? x.1)%N l) ∧
    ∀ St (f : N → T → St → St * bool) s, each_reverse f m s = Ok (until f (rev l) s).
Proof.
  intros Hos Hk. destruct (sound_steps os Hos) as (m & Hr & Hm & Hs). destruct (bound_spec m _ k false Hm Hk Hs) as (lo & Hlo & Hplo). destruct (bound_spec m _ k true Hm Hk Hs) as (hi & Hhi & Hphi).
  rewrite (List.filter_ext (reaches k false) (λ x, k <=? x.1)%N (reaches_false k)) in Hplo. rewrite (List.filter_ext (reaches k true) (λ x, k <? x.1)%N (reaches_true k)) in Hphi.
  exists (specs ∅ os).1, m, (entries m), lo, hi. split_and!; [done|by eapply trie_sorted|apply Hm|by eapply iter_pending| |done|done|done|done|intros; by eapply each_reverse_spec].
  cbn. unfold Entries_size_hint, iter. cbn. by rewrite (trie_length m _ Hm), (trie_len m _ Hm).
Qed.
Lemma trie_iteration_witness : ∃ al m l lo hi, steps new [Extend [(5, 10); (2, 20); (7, 30)]; Pop 9]%N = Ok (al, m) ∧ models (iter m) l ∧
  lower_bound m 5%N = Ok lo ∧ models lo (List.filter (λ x, 5 <=? x.1)%N l) ∧ upper_bound m 5%N = Ok hi ∧ models hi (List.filter (λ x, 5 <? x.1)%N l).
Proof.
  destruct (trie_iteration [Extend [(5, 10); (2, 20); (7, 30)]; Pop 9]%N 5%N) as (al & m & l & lo & hi & H1 & _ & _ & H2 & _ & H3 & H4 & H5 & H6 & _); [split; [repeat constructor|by vm_compute]|done|].
  exists al, m, l, lo, hi. exact (conj H1 (conj H2 (conj H3 (conj H4 (conj H5 H6))))).
Defined.

(** The relations between two sets of a trie are those of the sets, and
    deciding them ends. *)
Theorem trieset_relations (os os' : list (op unit)) : sound_ops os → sound_ops os' →
  ∃ al al' s s', steps new os = Ok (al, s) ∧ steps new os' = Ok (al', s') ∧
    let D := dom (specs ∅ os).2 in let D' := dom (specs ∅ os').2 in
    models (set_iter s) (entries s).*1 ∧
    (λ fuel, is_subset fuel s s') ⇓ bool_decide (D ⊆ D') ∧
    (λ fuel, is_superset fuel s s') ⇓ bool_decide (D' ⊆ D) ∧
    (λ fuel, is_disjoint fuel s s') ⇓ bool_decide (D ## D').
Proof.
  intros Hos Hos'. destruct (sound_steps os Hos) as (s & Hr & Hm & Hs). destruct (sound_steps os' Hos') as (s' & Hr' & Hm' & Hs'). exists (specs ∅ os).1, (specs ∅ os').1, s, s'. cbv zeta.
  split_and!; [done|done|exists (entries s); split; [done|by eapply iter_pending]|..]; (eapply relation_spec; [done|done|done|]).
  - setoid_rewrite bool_decide_eq_true. done.
  - setoid_rewrite bool_decide_eq_true. done.
  - setoid_rewrite bool_decide_eq_false. set_solver.
Qed.
Lemma trieset_relations_witness : ∃ al al' s s', steps new [Insert 3 (); Insert 4 ()]%N = Ok (al, s) ∧ steps new [Extend [(3, ()); (9, ()); (4, ())]]%N = Ok (al', s') ∧
  (λ fuel, is_subset fuel s s') ⇓ true ∧ (λ fuel, is_disjoint fuel s s') ⇓ false.
Proof.
  destruct (trieset_relations [Insert 3 (); Insert 4 ()]%N [Extend [(3, ()); (9, ()); (4, ())]]%N) as (al & al' & s & s' & H1 & H2 & H3 & H4 & _ & H5); [split; [repeat constructor|by vm_compute]..|].
  exists al, al', s, s'. split; [done|]. split; [done|]. split; [exact H4|exact H5].
Defined.
